(* ===== verification/_CoqProject ===== *)
-Q . S2P
Prelude.v
Locks.v
GoStd.v
GoPath.v
GoValue.v
TurnOptions.v
Ledger.v
LedgerFacts.v
Store.v
LedgerFile.v
Locality.v
SubmissionDb.v
StoreFacts.v
Migration.v
MigrationFacts.v
Program.v
Wire.v
History.v
Delivery.v
DeliveryFacts.v
HistoryReader.v
SendOutcome.v
SendFacts.v
Prompts.v
Continuation.v
ContinuationFacts.v
Threads.v
ThreadFacts.v
InitialMessage.v
InitialMessageFacts.v
Subscriptions.v
SubscriptionFacts.v
Reader.v
Concurrent.v
PromptFacts.v
PromptRevision.v
Connecting.v
Activity.v
ActivityStore.v
ActivityFacts.v
ActivitySystem.v
ActivityDurable.v
ActivitySnapshot.v
ActivitySnapshotFacts.v
ActivityHistory.v
ActivityHistoryFacts.v
RolloutFile.v
Headless.v
HeadlessFacts.v
Lineage.v
LineageFacts.v
PageMetadata.v
PageMetadataFacts.v
RolloutRead.v
Settings.v
SettingsFacts.v
PagedRequests.v
Transcript.v
Citations.v
CitationHistory.v
CitationFacts.v
ThreadPage.v
ThreadPageFacts.v
TurnHistory.v
TurnHistoryFacts.v
ThreadRead.v
ThreadReadFacts.v
CitationHistoryFacts.v
Web.v
Handler.v
HandlerFacts.v
EphemeralJson.v
TurnContext.v
TurnContextFacts.v
Ephemeral.v
EphemeralFacts.v
Uploads.v
UploadFacts.v
EphemeralRun.v
EphemeralRunFacts.v
