(* ===== verification/Prelude.v ===== *)
(** * codex-web: a verification development

    codex-web lets a browser use a Codex App Server: it keeps a connection on
    which it sends JSON-RPC requests and receives events, remembers in a durable
    ledger which user messages it has handed over, and passes the questions and
    approvals App Server asks to whoever answers them. It reads the history of a
    thread for a browser, records how long each turn worked and waited, and runs
    short utility turns on private connections. The Go package [src/codex] holds
    this logic; most of it is [src/codex/client.go]. The package
    [src/conversation] serves it over HTTP for the conversations an application
    resolves. What makes it hard is that several processes share the ledger, that
    every request may be lost or answered late, that the process may end between
    any two steps, that threads and their rollout files grow while they are read,
    and that a message must still reach its thread exactly once and a question be
    answered at most once.

    ** The parts and where they are modelled

    Foundations
    - Standard library ([GoStd.v], [GoPath.v], [GoValue.v]): UTF-8, trimming, path
      cleaning, line scanning, SHA-256, decoded JSON values and JSON text, and one
      constructor per error type the client tells apart with [errors.As] and
      [errors.Is]. [Locks.v]: the two locks a context can give up on.
    - Programs ([Program.v]): code that mixes transactions, waits and requests is
      a tree [prog] that branches on every answer; [wp] says that a postcondition
      holds on every path, with other processes changing the store in between as
      [rely] allows. Reads that only ask for pages are [pageProg]
      ([PagedRequests.v]); HTTP requests, utility turns and settings have their own
      trees over the calls they make.

    Submissions
    - Turn options ([TurnOptions.v]; [normalizeTurnOptions] and what it calls):
      validation and the digest that binds an attempt to its exact options.
    - Submission ledger ([Ledger.v], [LedgerFacts.v]; [client.go] 596-661 and
      2431-3515, [send_delivery.go] 59-78). The state is the record [Ledger] of
      the four maps of [queueAttemptLedger]. Each operation is one transaction, a
      function [Ledger -> plan A]: it fails, answers without a change, or names
      the next maps together with the undo the code runs when the write fails.
      [ledgerOp] lists the operations, [runOp] runs one, [lstep] and [lsteps] are
      their interleavings by any processes.
    - The contract of a store ([Store.v]): the classes [SubmissionStore] and
      [SubmissionStoreLaws], the scope of a transaction and what it means for a
      plan to be local to it. [Locality.v] shows every operation local to the
      scope the code opens it with. [LedgerFile.v] ([loadQueueLedger],
      [writeQueueLedger], [queueLedgerTransaction]) and [SubmissionDb.v]
      ([submission_database.go]) are its instances; [StoreFacts.v] has their
      theorems.
    - Migration ([Migration.v], [MigrationFacts.v]; [submission_migration.go]): a
      database that is opened first takes over the ledger files. A run is cut
      before any step that outlives the process; [change] lists those steps.
    - Requests ([Wire.v]; [requestWithAdmission] down to [writeOfferAdmission],
      [lifecycle.go]), connecting ([Connecting.v]; [Ensure]) and the reader
      ([Reader.v]; [readLoop]).
    - Message delivery ([History.v], [Delivery.v]; [SendWithOptions] and its
      recovery, the native queue, acknowledgement, [requireSubmissionAttempts])
      with [DeliveryFacts.v], [SendOutcome.v], [SendFacts.v] for one call on every
      path, and [Concurrent.v] for any number of calls on one store.
    - Continuation of failed turns ([HistoryReader.v], [Continuation.v],
      [ContinuationFacts.v]; [continuation.go], [turn_state.go], [historyRequest]
      and the pool of [history_reader.go]). The class [HistoryReader] is the
      interface of large reads and [HistoryReaderLaws] what its users rely on.
    - The initial message of a thread ([InitialMessage.v], [InitialMessageFacts.v];
      [EnsureInitialMessageWithOptions], [HistoryMaterialized]).

    Threads
    - Starting, resuming, forking and listing threads, models and projects
      ([Threads.v], [ThreadFacts.v]), the cache of settings with its updates
      ([Settings.v], [SettingsFacts.v]), and member threads without a user
      ([Headless.v], [HeadlessFacts.v]; [headless.go]).
    - Subscriptions ([Subscriptions.v], [SubscriptionFacts.v]; [Subscribe],
      [resumeWatched], [unsubscribeThread]): callers, goroutines, connections and
      the reader as one step relation; [Reader.v] ([observer.go]) has the queue
      from which watched threads are resumed.
    - Pending questions and approvals ([Prompts.v]; [client.go] 1424-1660 and
      1871-2335, [prompt_response.go], [request_policy.go]): the client's locked
      sections and the responders as programs over them; [PromptFacts.v] runs
      any number of responders, timers and reader events, one section at a
      time; [PromptRevision.v] is about the revision readers poll.
    - Utility turns ([EphemeralJson.v], [Ephemeral.v], [EphemeralFacts.v],
      [EphemeralRun.v], [EphemeralRunFacts.v]; [ephemeral.go], [capacity.go]): the
      bounded decoder, the locked sections of the sink, and the run with its
      checks and its cleanup, interleaved with the frames that come in.

    Reading
    - Rollout files ([RolloutFile.v], [RolloutRead.v]): a file with its identity,
      size and bytes at an instant. [TurnContext.v], [TurnContextFacts.v]
      ([turn_context.go]): the record of a turn and the policies it names.
    - Transcripts ([Transcript.v]; [async_questions.go], [transcript_activity.go],
      [timestamps.go]), the recent transcript ([ThreadRead.v], [ThreadReadFacts.v];
      [ReadThread], [readRecentThread]), pages ([ThreadPage.v],
      [ThreadPageFacts.v]; [thread_page.go]) and their metadata
      ([PageMetadata.v], [PageMetadataFacts.v]; [page_metadata.go]).
    - Citations ([Citations.v], [CitationFacts.v], [CitationHistory.v],
      [CitationHistoryFacts.v]; [citations.go], [citation_history.go]): the marks
      of a message, its sources and links, and the search for older sources.
    - Activity ([Activity.v], [ActivityStore.v]; [activity.go],
      [activity_recording.go], [activity_store.go]): the sections under a thread's
      mutex, and the writer with its checkpoint and summary files.
      [ActivityFacts.v] has the lemmas of one section, [ActivitySystem.v] all
      interleavings of sections, writes, failures and restarts with their
      invariant, [ActivityDurable.v] what survives. [ActivitySnapshot.v],
      [ActivitySnapshotFacts.v] ([activity_snapshot.go]): the totals a reader is
      shown. How turns and items are read for them: [ActivityHistory.v],
      [ActivityHistoryFacts.v] ([activity_history.go], [itemPage]),
      [TurnHistory.v], [TurnHistoryFacts.v] ([turn_history.go]), and [Lineage.v],
      [LineageFacts.v] ([activity_lineage.go], [activity_lineage_cache.go]) for the
      turns of forked threads.

    HTTP
    - [Web.v], [Handler.v], [HandlerFacts.v] ([handler.go], [retry.go],
      [retry_activity.go], [prepareAttachments]): a request is a program [web] over
      the calls to the application and the client; a monitor says when each call
      may be made. [Uploads.v], [UploadFacts.v] ([uploads.go], [NewHandler]): the
      same for uploads, whose requests share eight transfer slots.

    ** What the theorems show

    - C1-C4: over all calls together a message is handed to App Server, and not
      refused, at most once. It rests on C2 (between two committed claims of a
      message identity some step released it) and on the balance of one call. The
      ledger stays well-formed and never submits what is queued (C3); an attempt
      never changes its text, context, options or turn (C4).
    - C5-C7: the file reads back what it wrote, and both stores refine the ledger
      under every fault.
    - C8-C10: "not sent" is only said when nothing was handed over or App Server
      refused; a receipt is durable before it is returned; the initial message is
      sent at most once in a call, to a thread that was just seen fresh.
    - C11-C14: a question is answered at most once, never lost to a responder
      that failed, only with what it offers; readers are told of every change.
      What a question offers is said apart from the code's check ([allowed],
      [answered], [fits]), and includes the one entry the check lets through
      although it is not named [answers] ([unnamed_member_sent]).
    - C15-C18: a utility turn returns a text only when everything received agrees
      on it, may be repeated only when that is safe, and stops waiting; the
      decoder accepts exactly the texts within its limits.
    - C19-C21: when connecting again can succeed, and the one fault after which it
      cannot; who is watched is covered or about to be; an update of settings is
      confirmed by App Server.
    - C22-C24: wherever a migration ends, the ledger that counts has the same
      entries; a finished one has fenced and copied its predecessors; a run that
      was cut is completed by the next.
    - C25, C26: a member thread gets its one item at most once and a continuation
      is handed over at most once, each after the observations that allow it.
    - C27-C29: what a restart restores of a turn never gets older, times stay
      within their bounds, and a snapshot counts each millisecond once, also when
      it goes on from kept totals. C27 and C28 are about [acceptable] inputs: a
      clock that is positive and not set back between connections, turns with an
      identity, at most 128 waits, and no summarised turn resumed and completed
      within the second of its summary; [clock_set_back], [too_many_waits] and
      [resumed_within_a_second] show that the code needs them.
    - C30-C33: what is read in parts and kept from one read to the next is what a
      read of everything gives: the items of a turn, the turns of a forked thread,
      the turns of a thread, and the metadata of a page. C30 needs that the first
      page of a read reaches the end of what was kept; [items_counted_twice] and
      [read_stuck] show that the code needs it. Of a rollout of more than 64 MiB,
      C33 allows that lines which begin before the last 64 MiB are not looked at,
      as the code reads no more.
    - C34-C38: pages, each read with the token of the one before, show every
      entry once and end, while the thread, the connection and the stored
      continuations stay ([readable]); both readers of the recent
      transcript agree; the search for sources ends with the newest; marks are
      found exactly; a turn context that is read is of the known forms, its
      profile as Go reads it, where the last of a repeated key counts
      ([profile_passes_text] shows what passes under an earlier one).
    - C39, C40: no HTTP request acts outside its origin, method, path, capabilities,
      verified thread, slot and lock, and each gives back what it took.

    Further theorems of the components are next to these, among them
    [lock_exclusive], [observed_in_order], [replies_exact], [histories_kept],
    [headless_delete_fresh], [new_settings_exact] and [citation_link_roundtrip].

    ** Bounds and assumptions

    The readers loop until App Server ends the pages, and waiting polls until
    the context ends; [fuel] counts the requests a caller's context allows, and
    running out is the deadline error the code returns then. Theorems hold for
    every [fuel], and where one says that a read succeeds it says how much is
    enough: one request more than there are turns or items. Bounds of the code are
    kept as they are: 259 samples of a utility turn (of which 256 frames at
    most make one worth taking), 100 visits and 100 entries of a page, 20 recent turns, 8 idle
    histories, 8 transfer slots, 3 attempts at stable settings. Citation marks are
    searched with the length of the text as fuel, and the search for sources keeps
    its budget of requests. Generations and revisions are 64-bit counters; where a
    theorem needs that they do not wrap it says so.
    Environment errors are [plain]: they carry none of the verdicts the client
    makes itself. [tame] options are those whose caller-supplied hooks keep to that.
    The names and texts an application passes are Unicode and its identities not
    empty ([opStorable], [callable]). SHA-256 is computed; nothing is assumed of it.
    Of the migration's configuration [configured] asks that its paths differ and are
    no backup names. Seven steps bound a migration because there are at most two
    predecessors: a schema, two copies, the import, two fences and the last mark.
    App Server is assumed nothing of where a program branches on every answer. Where
    a theorem compares with a whole read, its cursors are told apart by their
    positions, its identities differ, and what is over does not change ([serves],
    [evolves], [serverOk], [grows], [threadServed]).
    Parameters stand for code that is not here: [json.Unmarshal] of a rollout line,
    [url.Parse] and [URL.String], the Markdown parser, [time.Parse], [json.Marshal]
    of an identity, the clock, random tokens, the order of map iterations and what
    [os.Stat] and [os.Open] find at each look. An open file is read as it is at
    that instant.

    ** Not modelled

    The WebSocket, dialling and process supervision, opening the SQLite file with
    its pragmas, exporting attempts, and the files and directories of the activity
    recorder below their reads and writes: they are input and output of libraries.
    Serving embedded assets, response headers and read deadlines. Log lines
    ([delivery_trace.go]) and the example program ([cmd/codex-web-example]), which
    only wires the packages together. Locks elsewhere than in [Locks.v], goroutines
    and sockets appear as the steps and faults the code sees of them. *)
From stdpp Require Export base gmap strings list fin_maps sorting.
From Stdlib Require Export ZArith Lia.

Open Scope Z_scope.

(** ** Results: a Go [(value, error)] pair in which exactly one side matters *)

Inductive res (E A : Type) : Type :=
| Ok (a : A)
| Err (e : E).
Arguments Ok {E A} a.
Arguments Err {E A} e.

Declare Scope codex_scope.
Delimit Scope codex_scope with codex.

Definition res_bind {E A B} (m : res E A) (f : A → res E B) : res E B :=
  match m with Ok a => f a | Err e => Err e end.

Notation "'let?' x ':=' m 'in' k" := (res_bind m (fun x => k))
  (at level 10, x name, m at level 100, k at level 200) : codex_scope.
Notation "'let?' ' p ':=' m 'in' k" := (res_bind m (fun x => match x with p => k end))
  (at level 10, p strict pattern, m at level 100, k at level 200) : codex_scope.

(** [guard c e] is the code's [if c { return e }]. *)
Definition guard {E} (bad : bool) (e : E) : res E unit :=
  if bad then Err e else Ok tt.

Definition is_ok {E A} (r : res E A) : bool :=
  match r with Ok _ => true | Err _ => false end.

(** ** Machine integers: Go's [int64], two's complement wrap-around *)

Definition i64 (z : Z) : Z := (z + 2 ^ 63) mod 2 ^ 64 - 2 ^ 63.
Definition in_i64 (z : Z) : Prop := - 2 ^ 63 ≤ z < 2 ^ 63.
Definition u64 (z : Z) : Z := z mod 2 ^ 64.

Lemma i64_id (z : Z) : in_i64 z → i64 z = z.
Proof. unfold in_i64, i64. intros H. rewrite Z.mod_small; lia. Qed.

Lemma i64_in (z : Z) : in_i64 (i64 z).
Proof. unfold in_i64, i64. pose proof (Z.mod_pos_bound (z + 2 ^ 63) (2 ^ 64)). lia. Qed.

Lemma u64_id (z : Z) : 0 ≤ z < 2 ^ 64 → u64 z = z.
Proof. intros H. apply Z.mod_small. exact H. Qed.

(** ** Boolean tests on strings *)

Definition str_eqb (a b : string) : bool := bool_decide (a = b).
Definition str_in (a : string) (l : list string) : bool := bool_decide (a ∈ l).
Definition is_empty (a : string) : bool := str_eqb a "".

Lemma str_eqb_eq a b : str_eqb a b = true ↔ a = b.
Proof. apply bool_decide_eq_true. Qed.
Lemma str_eqb_neq a b : str_eqb a b = false ↔ a ≠ b.
Proof. apply bool_decide_eq_false. Qed.
Lemma str_eqb_refl a : str_eqb a a = true.
Proof. by apply str_eqb_eq. Qed.
Lemma str_in_true a l : str_in a l = true ↔ a ∈ l.
Proof. apply bool_decide_eq_true. Qed.
Lemma str_in_false a l : str_in a l = false ↔ a ∉ l.
Proof. apply bool_decide_eq_false. Qed.
Lemma is_empty_true a : is_empty a = true ↔ a = "".
Proof. apply str_eqb_eq. Qed.
Lemma is_empty_false a : is_empty a = false ↔ a ≠ "".
Proof. apply str_eqb_neq. Qed.

(** ** Go's [map[string]map[string]V] *)

Abbreviation nested V := (gmap string (gmap string V)).

Section nested.
Context {V : Type}.
Implicit Types (m : nested V) (t id : string) (v : V).

(** [m[t][id]]: a missing or nil inner map reads as absent. *)
Definition look2 t id m : option V := m !! t ≫= (λ inner, inner !! id).
(** [if m[t] == nil { m[t] = make(...) }; m[t][id] = v] *)
Definition put2 t id v m : nested V := <[t := <[id := v]> (default ∅ (m !! t))]> m.
(** [delete(m[t], id)] *)
Definition del2 t id m : nested V := alter (delete id) t m.
(** [if len(m[t]) == 0 { delete(m, t) }] *)
Definition prune t m : nested V :=
  if bool_decide (default ∅ (m !! t) = ∅) then delete t m else m.

Lemma look2_put2 t id v m t' id' :
  look2 t' id' (put2 t id v m) =
  if decide (t' = t ∧ id' = id) then Some v else look2 t' id' m.
Proof.
  unfold look2, put2. destruct (decide (t' = t)) as [->|Ht].
  - rewrite lookup_insert_eq; simpl. destruct (decide (id' = id)) as [->|Hid].
    + rewrite lookup_insert_eq, decide_True; done.
    + rewrite lookup_insert_ne, decide_False by naive_solver.
      destruct (m !! t); simpl; [done|apply lookup_empty].
  - rewrite lookup_insert_ne by done. by rewrite decide_False by naive_solver.
Qed.

Lemma look2_del2 t id m t' id' :
  look2 t' id' (del2 t id m) =
  if decide (t' = t ∧ id' = id) then None else look2 t' id' m.
Proof.
  unfold look2, del2. destruct (decide (t' = t)) as [->|Ht].
  - rewrite lookup_alter_eq. destruct (m !! t) as [inner|]; simpl.
    + destruct (decide (id' = id)) as [->|Hid].
      * rewrite lookup_delete_eq, decide_True; done.
      * rewrite lookup_delete_ne, decide_False by naive_solver. done.
    + by destruct (decide _).
  - rewrite lookup_alter_ne by done. by rewrite decide_False by naive_solver.
Qed.

Lemma look2_prune t m t' id' : look2 t' id' (prune t m) = look2 t' id' m.
Proof.
  unfold prune, look2. case_bool_decide as H; [|done].
  destruct (decide (t' = t)) as [->|Ht].
  - rewrite lookup_delete_eq. destruct (m !! t) as [inner|]; simpl in *; [|done].
    subst. by rewrite lookup_empty.
  - by rewrite lookup_delete_ne.
Qed.

Lemma look2_delete t m t' id' :
  look2 t' id' (delete t m) = if decide (t' = t) then None else look2 t' id' m.
Proof.
  unfold look2. destruct (decide (t' = t)) as [->|Ht].
  - by rewrite lookup_delete_eq.
  - by rewrite lookup_delete_ne.
Qed.

Lemma look2_insert t inner m t' id' :
  look2 t' id' (<[t := inner]> m) = if decide (t' = t) then inner !! id' else look2 t' id' m.
Proof.
  unfold look2. destruct (decide (t' = t)) as [->|Ht].
  - by rewrite lookup_insert_eq.
  - by rewrite lookup_insert_ne.
Qed.

Lemma look2_empty t id : look2 t id (∅ : nested V) = None.
Proof. unfold look2. by rewrite lookup_empty. Qed.

(** [for t, id, v := range saved { m[t][id] = v }] *)
Definition putAll (saved : list (string * string * V)) m : nested V :=
  foldl (fun m '(t, id, v) => put2 t id v m) m saved.

(** When every saved entry comes from [before], [putAll] restores exactly those. *)
Lemma look2_putAll (before : nested V) saved m t' id' :
  (∀ t id v, (t, id, v) ∈ saved → look2 t id before = Some v) →
  look2 t' id' (putAll saved m) = look2 t' id' before ∨
  look2 t' id' (putAll saved m) = look2 t' id' m ∧ ∀ v, (t', id', v) ∉ saved.
Proof.
  revert m. induction saved as [|[[t id] v] saved IH]; intros m Hb; simpl.
  - right. split; [done|]. intros v. apply not_elem_of_nil.
  - destruct (IH (put2 t id v m)) as [H|[H Hn]].
    { intros. apply Hb. by right. }
    + by left.
    + rewrite look2_put2 in H. destruct (decide (t' = t ∧ id' = id)) as [[-> ->]|Hne].
      * left. unfold putAll in *. simpl. rewrite H. symmetry. apply Hb. by left.
      * right. split; [done|]. intros v' [Heq|Hin]%elem_of_cons; [naive_solver|by eapply Hn].
Qed.

Lemma look2_Some t id v m :
  look2 t id m = Some v ↔ ∃ inner, m !! t = Some inner ∧ inner !! id = Some v.
Proof. unfold look2. apply bind_Some. Qed.
End nested.

Create HintDb codex.
Create Rewrite HintDb codex.
#[export] Hint Rewrite @look2_put2 @look2_del2 @look2_prune @look2_delete @look2_insert @look2_empty : codex.

(** ** Automation *)

(** Split every boolean conjunction, disjunction and comparison in sight into
    propositions that [lia], [simplify_eq] and [naive_solver] understand. *)
Ltac bools :=
  repeat match goal with
  | H : _ && _ = true |- _ => apply andb_true_iff in H; destruct H
  | H : _ || _ = false |- _ => apply orb_false_iff in H; destruct H
  | H : negb _ = true |- _ => apply negb_true_iff in H
  | H : negb _ = false |- _ => apply negb_false_iff in H
  | H : str_eqb _ _ = true |- _ => apply str_eqb_eq in H
  | H : str_eqb _ _ = false |- _ => apply str_eqb_neq in H
  | H : str_in _ _ = true |- _ => apply str_in_true in H
  | H : str_in _ _ = false |- _ => apply str_in_false in H
  | H : is_empty _ = true |- _ => apply is_empty_true in H
  | H : is_empty _ = false |- _ => apply is_empty_false in H
  | H : bool_decide _ = true |- _ => apply bool_decide_eq_true in H
  | H : bool_decide _ = false |- _ => apply bool_decide_eq_false in H
  | H : (_ <? _) = true |- _ => apply Z.ltb_lt in H
  | H : (_ <? _) = false |- _ => apply Z.ltb_ge in H
  | H : (_ <=? _) = true |- _ => apply Z.leb_le in H
  | H : (_ <=? _) = false |- _ => apply Z.leb_gt in H
  | H : (_ =? _) = true |- _ => apply Z.eqb_eq in H
  | H : (_ =? _) = false |- _ => apply Z.eqb_neq in H
  end.

(** Case analysis on the scrutinee of the first [match]/[if] of the goal. *)
Ltac cases :=
  match goal with
  | |- context [match ?x with _ => _ end] =>
      lazymatch x with
      | context [match _ with _ => _ end] => fail
      | _ => destruct x eqn:?
      end
  end.

(** The same on a hypothesis. *)
Ltac cases_in H :=
  match type of H with
  | context [match ?x with _ => _ end] =>
      lazymatch x with
      | context [match _ with _ => _ end] => fail
      | _ => destruct x eqn:?
      end
  end.
