(* ===== verification/Locks.v ===== *)
(** * Locks that a context can give up on

    [contextMutex] of [src/codex/context_mutex.go] and [mutationLock] of
    [src/conversation/mutation_lock.go]: a channel with one permit. The operations
    are the steps a goroutine can be seen between; a [select] with several ready
    cases takes any of them. [recheck] tells the first lock, which looks at the
    context before it waits and again once it has the permit, from the second.
    A goroutine unlocks only what it holds. *)
From S2P Require Import Prelude.
Open Scope Z_scope.

(** Where a goroutine stands: it may wait for the permit, have taken it and not
    yet looked at its context again, hold the lock, or have been refused. *)
Inductive phase := Outside | Waiting | Took | Holding | Refused | Panicked.
Record goroutine := mkGoroutine { gr_phase : phase; gr_done : bool }.   (** [gr_done]: its context is done *)
Record lockState := mkLock { lk_permit : bool; lk_goroutines : list goroutine }.

#[export] Instance phase_eq_dec : EqDecision phase. Proof. solve_decision. Defined.

Section lock.
Context (recheck : bool).

(** [LockContext] and [Lock] up to the [select]. *)
Definition beginLock (g : goroutine) : phase := if recheck && gr_done g then Refused else Waiting.
(** The cases of the [select]: the permit, and the end of the context. *)
Definition receivePermit (permit : bool) : option (phase * bool) :=
  if permit then Some (if recheck then Took else Holding, false) else None.
Definition contextEnds (g : goroutine) : option phase := if gr_done g then Some Refused else None.
(** [Unlock]: the permit goes back unless it is there. *)
Definition Unlock (permit : bool) : phase * bool := if permit then (Panicked, permit) else (Outside, true).
(** The second look at the context. *)
Definition afterPermit (g : goroutine) (permit : bool) : phase * bool :=
  if gr_done g then match Unlock permit with (Panicked, permit) => (Panicked, permit) | (_, permit) => (Refused, permit) end
  else (Holding, permit).
Definition TryLock (permit : bool) : phase * bool := if permit then (Holding, false) else (Refused, permit).

(** What a goroutine can do next, and what it leaves of the permit. *)
Inductive moves (permit : bool) (g : goroutine) : phase → bool → Prop :=
| moves_begin : gr_phase g = Outside → moves permit g (beginLock g) permit
| moves_receive p permit' : gr_phase g = Waiting → receivePermit permit = Some (p, permit') → moves permit g p permit'
| moves_end p : gr_phase g = Waiting → contextEnds g = Some p → moves permit g p permit
| moves_after p permit' : gr_phase g = Took → afterPermit g permit = (p, permit') → moves permit g p permit'
| moves_unlock p permit' : gr_phase g = Holding → Unlock permit = (p, permit') → moves permit g p permit'
| moves_try p permit' : recheck = true → gr_phase g = Outside → TryLock permit = (p, permit') → moves permit g p permit'
| moves_again : gr_phase g = Refused → moves permit g Outside permit.

Inductive lockStep : lockState → lockState → Prop :=
| step_moves permit l i g p permit' : l !! i = Some g → moves permit g p permit' →
    lockStep (mkLock permit l) (mkLock permit' (<[i := mkGoroutine p (gr_done g)]> l))
| step_context permit l i g done : l !! i = Some g → (gr_phase g = Outside ∨ done = true) →
    lockStep (mkLock permit l) (mkLock permit (<[i := mkGoroutine (gr_phase g) done]> l))   (** a context ends; a new call has a new one *)
| step_new permit l : lockStep (mkLock permit l) (mkLock permit (l ++ [mkGoroutine Outside false])).

(** ** Mutual exclusion *)

Definition has (g : goroutine) : Z := match gr_phase g with Took | Holding => 1 | _ => 0 end.
Fixpoint holders (l : list goroutine) : Z := match l with [] => 0 | g :: l => has g + holders l end.
Definition permits (permit : bool) : Z := if permit then 1 else 0.
Record lockInv (s : lockState) : Prop := {
  li_one : permits (lk_permit s) + holders (lk_goroutines s) = 1;
  li_calm : Forall (fun g => gr_phase g ≠ Panicked) (lk_goroutines s) }.

Lemma holders_insert l i g g' : l !! i = Some g → holders (<[i := g']> l) = holders l - has g + has g'.
Proof. revert i. induction l as [|d l IH]; intros [|i]; simpl; try done; [intros [= ->]; lia|]. intros Hi. rewrite (IH _ Hi). lia. Qed.
Lemma holders_app l g : holders (l ++ [g]) = holders l + has g.
Proof. induction l as [|d l IH]; simpl; lia. Qed.
Lemma holders_nonneg l : 0 ≤ holders l.
Proof. induction l as [|g l IH]; simpl; [lia|]. unfold has. destruct (gr_phase g); lia. Qed.
Lemma has_holders l i g : l !! i = Some g → has g ≤ holders l.
Proof.
  revert i. induction l as [|d l IH]; intros [|i]; simpl; try done; pose proof (holders_nonneg l); [intros [= ->]; lia|].
  intros Hi. specialize (IH _ Hi). unfold has at 2. destruct (gr_phase d); lia.
Qed.

(** A goroutine that moves takes the permit and brings it back. *)
Lemma move_permit permit g p permit' : (has g = 1 → permit = false) → moves permit g p permit' →
  permits permit' - permits permit = has g - has (mkGoroutine p (gr_done g)) ∧ (gr_phase g ≠ Panicked → p ≠ Panicked).
Proof.
  unfold has. intros Hh Hm. destruct Hm as [Hp|p permit' Hp Hr|p Hp Hr|p permit' Hp Hr|p permit' Hp Hr|p permit' _ Hp Hr|Hp]; rewrite Hp in *; simpl in *.
  - unfold beginLock. destruct (_ && _); simpl; split; [lia|done|lia|done].
  - unfold receivePermit in Hr. destruct permit; [|done]. destruct recheck; simplify_eq; simpl; split; [lia|done|lia|done].
  - unfold contextEnds in Hr. destruct (gr_done g); [|done]. simplify_eq. simpl. split; [lia|done].
  - rewrite Hh in * by done. unfold afterPermit in Hr. destruct (gr_done g); simpl in Hr; simplify_eq; simpl; split; [lia|done|lia|done].
  - rewrite Hh in * by done. unfold Unlock in Hr. simplify_eq. simpl. split; [lia|done].
  - unfold TryLock in Hr. destruct permit; simplify_eq; simpl; split; [lia|done|lia|done].
  - split; [lia|done].
Qed.

Lemma step_lock s s' : lockStep s s' → lockInv s → lockInv s'.
Proof.
  intros Hs [H1 H2]. destruct Hs as [permit l i g p permit' Hi Hm|permit l i g done Hi Hd|permit l]; simpl in *.
  - destruct (move_permit permit g p permit') as [H3 H4]; [|done|].
    { intros Hh. pose proof (has_holders _ _ _ Hi). destruct permit; [simpl in H1; lia|done]. }
    split; simpl; [rewrite (holders_insert _ _ _ _ Hi); lia|]. apply Forall_insert; [done|]. apply H4. exact (Forall_lookup_1 _ _ _ _ H2 Hi).
  - split; simpl; [rewrite (holders_insert _ _ _ _ Hi); unfold has at 2; simpl; unfold has; lia|].
    apply Forall_insert; [done|]. exact (Forall_lookup_1 _ _ _ _ H2 Hi).
  - split; simpl; [rewrite holders_app; simpl; unfold has; simpl; lia|]. apply Forall_app. by split; [|repeat constructor].
Qed.

(** However goroutines lock, try, give up and unlock: at most one has the lock,
    the permit is there exactly when none has, and no unlock panics. *)
Theorem lock_exclusive s : rtc lockStep (mkLock true []) s →
  holders (lk_goroutines s) = (if lk_permit s then 0 else 1) ∧ Forall (fun g => gr_phase g ≠ Panicked) (lk_goroutines s).
Proof.
  intros Hs. assert (lockInv s) as [H1 H2].
  { assert (lockInv (mkLock true [])) as H0 by (split; simpl; [lia|constructor]). revert H0.
    induction Hs as [|s1 s2 s3 Hst _ IH]; [done|]. intros H0. by eapply IH, step_lock. }
  split; [|done]. unfold permits in H1. destruct (lk_permit s); lia.
Qed.

(** Whoever waits while nobody has the lock can take it. *)
Theorem lock_available s i g : rtc lockStep (mkLock true []) s → lk_goroutines s !! i = Some g → gr_phase g = Waiting →
  holders (lk_goroutines s) = 0 → ∃ s', lockStep s s' ∧ holders (lk_goroutines s') = 1.
Proof.
  intros Hs Hi Hw H0. destruct (lock_exclusive s Hs) as [Hp _]. destruct s as [permit l]. simpl in *. destruct permit; [|lia].
  eexists. split; [eapply (step_moves _ _ _ _ (if recheck then Took else Holding) false Hi), moves_receive; done|].
  simpl. rewrite (holders_insert _ _ _ _ Hi). unfold has. rewrite Hw. simpl. destruct recheck; lia.
Qed.
End lock.
