(* ===== verification/GoStd.v ===== *)
(** * The parts of Go's standard library the program computes with

    [unicode/utf8] validity, [strings] trimming and searching, [path/filepath]
    cleaning, hexadecimal rendering and [crypto/sha256], over Rocq strings,
    which like Go strings are sequences of bytes. *)
From S2P Require Import Prelude.
From Stdlib Require Import Ascii String.
Open Scope Z_scope.

(** ** Bytes *)

Definition byte_of (c : ascii) : Z := Z.of_N (N_of_ascii c).
Definition bytes_of (s : string) : list Z := byte_of <$> list_ascii_of_string s.
Definition char_of (b : Z) : ascii := ascii_of_N (Z.to_N b).
Definition string_of (l : list Z) : string := string_of_list_ascii (char_of <$> l).
(** Go's [len(s)]. *)
Definition len (s : string) : Z := Z.of_nat (String.length s).

Definition between (lo hi b : Z) : bool := (lo <=? b) && (b <=? hi).

(** ** [utf8.ValidString]: RFC 3629, no surrogates, no overlong forms *)

Definition cont (b : Z) : bool := between 128 191 b.

Fixpoint utf8_ok (l : list Z) : bool :=
  match l with
  | [] => true
  | b0 :: r0 =>
    if b0 <? 128 then utf8_ok r0 else
    if between 194 223 b0 then
      match r0 with b1 :: r1 => cont b1 && utf8_ok r1 | _ => false end else
    if between 224 239 b0 then
      match r0 with
      | b1 :: b2 :: r2 =>
        (if b0 =? 224 then between 160 191 b1
         else if b0 =? 237 then between 128 159 b1 else cont b1)
        && cont b2 && utf8_ok r2
      | _ => false
      end else
    if between 240 244 b0 then
      match r0 with
      | b1 :: b2 :: b3 :: r3 =>
        (if b0 =? 240 then between 144 191 b1
         else if b0 =? 244 then between 128 143 b1 else cont b1)
        && cont b2 && cont b3 && utf8_ok r3
      | _ => false
      end
    else false
  end.

Definition validString (s : string) : bool := utf8_ok (bytes_of s).

(** ** [strings] *)

Definition hasPrefix (s p : string) : bool := String.prefix p s.
Definition rev_string (s : string) : string :=
  string_of_list_ascii (rev (list_ascii_of_string s)).
Definition hasSuffix (s p : string) : bool := String.prefix (rev_string p) (rev_string s).
Definition contains (s p : string) : bool :=
  match String.index 0 p s with Some _ => true | None => false end.
Definition joinWith (sep : string) (parts : list string) : string := String.concat sep parts.
(** [strings.TrimPrefix] *)
Definition trimPrefix (s p : string) : string :=
  if hasPrefix s p then String.substring (String.length p) (String.length s) s else s.

(** The UTF-8 encodings of the Unicode White_Space code points. *)
Definition space_encodings : list (list Z) :=
  [[9]; [10]; [11]; [12]; [13]; [32]; [194; 133]; [194; 160]; [225; 154; 128];
   [226; 128; 128]; [226; 128; 129]; [226; 128; 130]; [226; 128; 131]; [226; 128; 132];
   [226; 128; 133]; [226; 128; 134]; [226; 128; 135]; [226; 128; 136]; [226; 128; 137];
   [226; 128; 138]; [226; 128; 168]; [226; 128; 169]; [226; 128; 175]; [226; 129; 159];
   [227; 128; 128]].

Fixpoint drop_prefix (p l : list Z) : option (list Z) :=
  match p, l with
  | [], _ => Some l
  | a :: p', b :: l' => if a =? b then drop_prefix p' l' else None
  | _ :: _, [] => None
  end.

Fixpoint first_some {A B} (f : A → option B) (l : list A) : option B :=
  match l with
  | [] => None
  | a :: l' => match f a with Some b => Some b | None => first_some f l' end
  end.

Fixpoint strip (encodings : list (list Z)) (fuel : nat) (l : list Z) : list Z :=
  match fuel with
  | O => l
  | S fuel =>
    match first_some (fun p => drop_prefix p l) encodings with
    | Some rest => strip encodings fuel rest
    | None => l
    end
  end.

(** [strings.TrimSpace]; every stripped code point takes at least one byte, so
    the length of the text is enough fuel. *)
Definition trimSpace (s : string) : string :=
  let l := bytes_of s in
  let l := strip space_encodings (List.length l) l in
  let r := rev l in
  string_of (rev (strip ((@rev Z) <$> space_encodings) (List.length r) r)).

(** ** [path/filepath] on Unix *)

Fixpoint split_on (sep : ascii) (s : string) (cur : string) : list string :=
  match s with
  | EmptyString => [rev_string cur]
  | String c s' =>
    if Ascii.eqb c sep then rev_string cur :: split_on sep s' ""
    else split_on sep s' (String c cur)
  end.

Definition isAbs (p : string) : bool := hasPrefix p "/".

Definition clean_step (rooted : bool) (stack : list string) (seg : string) : list string :=
  if str_eqb seg "" || str_eqb seg "." then stack else
  if str_eqb seg ".." then
    match stack with
    | [] => if rooted then [] else [".."]
    | top :: below => if str_eqb top ".." then ".." :: stack else below
    end
  else seg :: stack.

Definition clean (p : string) : string :=
  let rooted := isAbs p in
  let stack := foldl (clean_step rooted) [] (split_on "/" p "") in
  let body := joinWith "/" (rev stack) in
  if rooted then ("/" ++ body)%string
  else if is_empty body then "." else body.

(** [filepath.IsAbs(p) && filepath.Clean(p) == p] *)
Definition canonicalPath (p : string) : bool := isAbs p && str_eqb (clean p) p.

(** ** Hexadecimal *)

Definition hex_digits : string := "0123456789abcdef".
Definition hexDigit (d : Z) : ascii :=
  match String.get (Z.to_nat (d mod 16)) hex_digits with Some c => c | None => "0"%char end.

Fixpoint hexDigits (n : nat) (w : Z) (acc : string) : string :=
  match n with
  | O => acc
  | S n => hexDigits n (w / 16) (String (hexDigit w) acc)
  end.

Definition isHexDigit (c : ascii) : bool :=
  existsb (Ascii.eqb c) (list_ascii_of_string hex_digits).

Lemma hexDigit_isHex (d : Z) : isHexDigit (hexDigit d) = true.
Proof.
  unfold hexDigit. assert (0 ≤ d mod 16 < 16) as H by (apply Z.mod_pos_bound; lia).
  generalize dependent (d mod 16). intros r H.
  assert (r ∈ seqZ 0 16) as Hin by (apply elem_of_seqZ; lia).
  clear H. revert r Hin. apply Forall_forall. vm_compute. repeat constructor.
Qed.

Lemma hexDigits_length (n : nat) (w : Z) acc :
  String.length (hexDigits n w acc) = (n + String.length acc)%nat.
Proof. revert w acc. induction n as [|n IH]; intros w acc; simpl; [done|]. rewrite IH. simpl. lia. Qed.

Lemma hexDigits_isHex (n : nat) (w : Z) acc :
  forallb isHexDigit (list_ascii_of_string acc) = true →
  forallb isHexDigit (list_ascii_of_string (hexDigits n w acc)) = true.
Proof.
  revert w acc. induction n as [|n IH]; intros w acc H; simpl; [done|].
  apply IH. simpl. by rewrite hexDigit_isHex, H.
Qed.

(** ** [crypto/sha256] (FIPS 180-4), words as integers modulo [2^32] *)

Definition w32 (z : Z) : Z := Z.land z (Z.ones 32).
Definition rotr (n x : Z) : Z := w32 (Z.lor (Z.shiftr x n) (Z.shiftl x (32 - n))).

(** The round constants and the initial state are the first 32 bits of the
    fractional parts of the cube and square roots of the first primes. *)
Fixpoint cubeRoot (bits : nat) (n r : Z) : Z :=
  match bits with
  | O => r
  | S bits =>
    let next := r + 2 ^ Z.of_nat bits in
    cubeRoot bits n (if next * next * next <=? n then next else r)
  end.

Fixpoint primesFrom (fuel : nat) (n : Z) (found : list Z) : list Z :=
  match fuel with
  | O => List.rev found
  | S fuel =>
    let composite := existsb (fun p => n mod p =? 0) found in
    primesFrom fuel (n + 1) (if composite then found else n :: found)
  end.

(** The sixty-four primes up to 311. *)
Definition sha_primes : list Z := Eval vm_compute in primesFrom 310 2 [].

Definition sha_constants : list Z :=
  Eval vm_compute in (fun p => w32 (cubeRoot 36 (p * 2 ^ 96) 0)) <$> sha_primes.

Record chaining := Chain { ha : Z; hb : Z; hc : Z; hd : Z; he : Z; hf : Z; hg : Z; hh : Z }.

Definition sha_initial : chaining :=
  Eval vm_compute in
  match (fun p => w32 (Z.sqrt (p * 2 ^ 64))) <$> take 8 sha_primes with
  | [a; b; c; d; e; f; g; h] => Chain a b c d e f g h
  | _ => Chain 0 0 0 0 0 0 0 0
  end.

Definition sha_round (s : chaining) (k w : Z) : chaining :=
  let 'Chain a b c d e f g h := s in
  let s1 := Z.lxor (Z.lxor (rotr 6 e) (rotr 11 e)) (rotr 25 e) in
  let choose := Z.lxor (Z.land e f) (Z.land (w32 (Z.lnot e)) g) in
  let t1 := h + s1 + choose + k + w in
  let s0 := Z.lxor (Z.lxor (rotr 2 a) (rotr 13 a)) (rotr 22 a) in
  let majority := Z.lxor (Z.lxor (Z.land a b) (Z.land a c)) (Z.land b c) in
  Chain (w32 (t1 + s0 + majority)) a b c (w32 (d + t1)) e f g.

(** The message schedule as a sliding window of sixteen words: each round
    consumes the head and appends the next scheduled word. *)
Definition sha_next (window : list Z) : Z :=
  let at_ n := nth n window 0 in
  let w15 := at_ 1%nat in let w2 := at_ 14%nat in
  w32 (at_ 0%nat + at_ 9%nat
       + Z.lxor (Z.lxor (rotr 7 w15) (rotr 18 w15)) (Z.shiftr w15 3)
       + Z.lxor (Z.lxor (rotr 17 w2) (rotr 19 w2)) (Z.shiftr w2 10)).

Fixpoint sha_rounds (ks window : list Z) (s : chaining) : chaining :=
  match ks, window with
  | k :: ks, w :: rest => sha_rounds ks (rest ++ [sha_next window]) (sha_round s k w)
  | _, _ => s
  end.

Definition sha_block (s : chaining) (block : list Z) : chaining :=
  let t := sha_rounds sha_constants block s in
  Chain (w32 (ha s + ha t)) (w32 (hb s + hb t)) (w32 (hc s + hc t)) (w32 (hd s + hd t))
        (w32 (he s + he t)) (w32 (hf s + hf t)) (w32 (hg s + hg t)) (w32 (hh s + hh t)).

Fixpoint words_of (l : list Z) : list Z :=
  match l with
  | b0 :: b1 :: b2 :: b3 :: r => (b0 * 2 ^ 24 + b1 * 2 ^ 16 + b2 * 2 ^ 8 + b3) :: words_of r
  | _ => []
  end.

Definition sha_padded (msg : list Z) : list Z :=
  let n := Z.of_nat (List.length msg) in
  let zeros := (55 - n) mod 64 in
  msg ++ [128] ++ replicate (Z.to_nat zeros) 0
      ++ ((fun i => Z.land (Z.shiftr (8 * n) (8 * i)) 255) <$> [7; 6; 5; 4; 3; 2; 1; 0]).

Fixpoint sha_blocks (fuel : nat) (words : list Z) (s : chaining) : chaining :=
  match fuel, words with
  | S fuel, _ :: _ => sha_blocks fuel (drop 16 words) (sha_block s (take 16 words))
  | _, _ => s
  end.

(** [fmt.Sprintf("%x", sha256.Sum256(text))] *)
Definition sha256_hex (text : string) : string :=
  let words := words_of (sha_padded (bytes_of text)) in
  let d := sha_blocks (List.length words) words sha_initial in
  foldr (hexDigits 8) "" [ha d; hb d; hc d; hd d; he d; hf d; hg d; hh d].

Example sha256_abc :
  sha256_hex "abc" = "ba7816bf8f01cfea414140de5dae2223b00361a396177a9cb410ff61f20015ad".
Proof. vm_compute. reflexivity. Qed.

Example sha256_two_blocks :
  sha256_hex "abcdbcdecdefdefgefghfghighijhijkijkljklmklmnlmnomnopnopq" =
  "248d6a61d20638b8e5c026930c3e6039a33ce45964ff2167f6ecedd419db06c1".
Proof. vm_compute. reflexivity. Qed.

Lemma sha256_hex_length text : String.length (sha256_hex text) = 64%nat.
Proof. unfold sha256_hex. cbn [foldr]. rewrite !hexDigits_length. reflexivity. Qed.

Lemma sha256_hex_isHex text :
  forallb isHexDigit (list_ascii_of_string (sha256_hex text)) = true.
Proof. unfold sha256_hex. cbn [foldr]. do 8 apply hexDigits_isHex. reflexivity. Qed.

Lemma hasPrefix_app action prefix :
  hasPrefix action prefix = true ↔ ∃ rest, action = (prefix ++ rest)%string.
Proof.
  unfold hasPrefix. revert action. induction prefix as [|c prefix IH]; intros [|d action].
  - split; [by exists ""|done].
  - split; [by exists (String d action)|done].
  - split; [done|]. by intros [? ?].
  - simpl. destruct (Ascii.ascii_dec c d) as [->|Hn].
    + rewrite IH. split; intros [rest H]; exists rest; [by rewrite H|].
      change (String d action = String d (prefix ++ rest)) in H. congruence.
    + split; [done|]. intros [rest H]. change (String d action = String c (prefix ++ rest)) in H. congruence.
Qed.

Lemma substring_whole s n : (String.length s ≤ n)%nat → String.substring 0 n s = s.
Proof.
  revert n. induction s as [|c s IH]; intros [|n] Hn; simpl in *; try done; [lia|]. by rewrite IH by lia.
Qed.

Lemma trimPrefix_app prefix rest : trimPrefix (prefix ++ rest) prefix = rest.
Proof.
  unfold trimPrefix. rewrite (proj2 (hasPrefix_app _ _)) by eauto.
  assert (∀ n, (String.length rest ≤ n)%nat → String.substring (String.length prefix) n (prefix ++ rest) = rest) as Hs.
  { intros n Hn. induction prefix as [|c prefix IH]; [by apply substring_whole|exact IH]. }
  apply Hs. clear Hs. induction prefix as [|c prefix IH]; [done|]. by apply le_S.
Qed.

Example clean_examples :
  (clean "/a//b/../c/.", clean "../x", clean "", canonicalPath "/srv/a", canonicalPath "/a/")
  = ("/a/c", "../x", ".", true, false).
Proof. vm_compute. reflexivity. Qed.

Example trimSpace_example : trimSpace (" 	x y" ++ string_of [194; 160])%string = "x y".
Proof. vm_compute. reflexivity. Qed.
