(* ===== verification/GoPath.v ===== *)
(** * Paths and text files of the standard library

    [path/filepath] beyond what [GoStd] has, and the line scanner of [bufio]
    over the bytes of a file. *)
From Stdlib Require Import Ascii String.
From S2P Require Import Prelude GoStd.
Open Scope Z_scope.

(** ** [filepath.Dir] and [filepath.Rel] *)

Fixpoint dropName (l : list ascii) : list ascii :=
  match l with
  | [] => []
  | c :: l' => if Ascii.eqb c "/" then l else dropName l'
  end.

Definition pathDir (p : string) : string :=
  clean (string_of_list_ascii (rev (dropName (rev (list_ascii_of_string p))))).

Definition segments (p : string) : list string :=
  filter (fun s => s ≠ "" ∧ s ≠ ".") (split_on "/" (clean p) "").

Fixpoint stripCommon (a b : list string) : list string * list string :=
  match a, b with
  | x :: a', y :: b' => if str_eqb x y then stripCommon a' b' else (a, b)
  | _, _ => (a, b)
  end.

Definition pathRel (base target : string) : option string :=
  if str_eqb (clean base) (clean target) then Some "." else
  if negb (Bool.eqb (isAbs base) (isAbs target)) then None else
  let '(up, down) := stripCommon (segments base) (segments target) in
  match up with
  | ".." :: _ => None
  | _ => Some (joinWith "/" (replicate (Datatypes.length up) ".." ++ down))
  end.

(** [filepath.Base] of a path that is not empty. *)
Definition pathBase (p : string) : string :=
  match rev (segments p) with
  | name :: _ => name
  | [] => if isAbs p then "/" else "."
  end.

(** [filepath.Join] of a directory and a name *)
Definition pathJoin (dir name : string) : string := clean (dir ++ "/" ++ name)%string.

(** ** [bufio.Scanner] with [bufio.ScanLines] *)

Abbreviation bytes := (list Z).

Definition newlineByte : Z := 10.

(** The lines that end in a newline, and what follows the last one. *)
Fixpoint splitLines (l : bytes) : list bytes * bytes :=
  match l with
  | [] => ([], [])
  | b :: l =>
    let '(ls, rest) := splitLines l in
    if b =? newlineByte then ([] :: ls, rest)
    else match ls with
         | [] => ([], b :: rest)
         | line :: ls => ((b :: line) :: ls, rest)
         end
  end.

Definition partialLine (l : bytes) : bytes := (splitLines l).2.

(** A trailing carriage return is dropped. *)
Definition dropCR (l : bytes) : bytes :=
  match rev l with 13 :: r => rev r | _ => l end.

Definition scanLines (l : bytes) : list bytes :=
  let '(ls, rest) := splitLines l in ls ++ (match rest with [] => [] | _ => [rest] end).

(** A line that does not fit the buffer of [n] bytes ends the scan with an error. *)
Definition tooLong (n : Z) (line : bytes) : bool := n <=? Z.of_nat (Datatypes.length line).

Lemma splitLines_app a b :
  splitLines (a ++ b) =
  let '(la, ra) := splitLines a in
  let '(lb, rb) := splitLines b in
  match lb with
  | [] => (la, ra ++ rb)
  | line :: lb => (la ++ (ra ++ line) :: lb, rb)
  end.
Proof.
  induction a as [|x a IH]; simpl; [by destruct (splitLines b) as [[] ?]|].
  rewrite IH. destruct (splitLines a) as [la ra], (splitLines b) as [[|line lb] rb];
    destruct (x =? newlineByte); destruct la; done.
Qed.

(** Text that ends in a newline is scanned apart from what follows. *)
Lemma scanLines_app a b : partialLine a = [] → scanLines (a ++ b) = scanLines a ++ scanLines b.
Proof.
  unfold partialLine, scanLines. rewrite splitLines_app. destruct (splitLines a) as [la ra]. simpl. intros ->.
  destruct (splitLines b) as [[|line lb] rb]; simpl; rewrite ?app_nil_r; [done|]. by rewrite <- app_assoc.
Qed.

(** A complete line that only lacked its newline is the same line with it. *)
Lemma scanLines_newline a b :
  partialLine a ≠ [] → scanLines (a ++ newlineByte :: b) = scanLines a ++ scanLines b.
Proof.
  unfold partialLine, scanLines. rewrite splitLines_app. destruct (splitLines a) as [la ra]. simpl. intros Hne.
  destruct (splitLines b) as [lb rb]. simpl. rewrite app_nil_r. destruct ra; [done|]. by rewrite <- !app_assoc.
Qed.

Lemma scanLines_blank b : scanLines (newlineByte :: b) = [] :: scanLines b.
Proof. unfold scanLines. simpl. by destruct (splitLines b). Qed.
