(* ===== verification/GoValue.v ===== *)
(** * Dynamic JSON values, JSON text and the error values of the client

    [any] is what [encoding/json] decodes into an [interface{}]; [err] has one
    constructor per error type the client distinguishes with [errors.As] or
    [errors.Is], and the accessors of [client.go] that read decoded values. *)
From S2P Require Import Prelude GoStd.
From stdpp Require Import pretty.
From Stdlib Require Import Ascii String.
Open Scope Z_scope.

(** ** Errors *)

Inductive err :=
| EMsg (text : string)                   (** [errors.New], [fmt.Errorf] without [%w] *)
| EWrap (text : string) (cause : err)    (** [fmt.Errorf("text: %w", cause)] *)
| EJoin (a b : err)                      (** [errors.Join], or two [%w] verbs *)
| ECanceled                              (** [context.Canceled] *)
| EDeadline                              (** [context.DeadlineExceeded] *)
| ECode (code : Z)                       (** an error with [Code() int] (SQLite) *)
| ETransport (cause : err)               (** [*TransportError] *)
| EUnwritten (cause : err)               (** [*unwrittenWriteError] *)
| ERpc (code : Z) (message : string)     (** [*rpcCallError] *)
| EUnknownSend (cause : err)             (** [*UnknownSendOutcomeError] *)
| ENotSent (cause : err) (retryable : bool) (** [*MessageNotSentError] *)
| EPrompt (code : string) (notSent : bool) (cause : err) (** [*PromptResponseError] *)
| EAdmissionChanged                      (** [errSendAdmissionChanged] *)
| EConnectionChanged                     (** [errConnectionChanged] *)
| ELedgerTooLarge                        (** [errQueueLedgerTooLarge] *)
| EThreadNotFound (threadID : string) (cause : err)  (** [*ThreadNotFoundError] *)
| EProjectNotFound (projectID : string) (cause : err). (** [*ProjectNotFoundError] *)

#[export] Instance err_eq_dec : EqDecision err.
Proof. solve_decision. Defined.

(** [errors.As]: the first error of the chain that matches, outermost first. *)
Fixpoint errAs {A} (f : err → option A) (e : err) : option A :=
  match f e with
  | Some a => Some a
  | None =>
    match e with
    | EWrap _ c | ETransport c | EUnwritten c | EUnknownSend c | ENotSent c _ | EPrompt _ _ c
    | EThreadNotFound _ c | EProjectNotFound _ c =>
        errAs f c
    | EJoin a b => match errAs f a with Some x => Some x | None => errAs f b end
    | _ => None
    end
  end.

Definition errIs (target e : err) : bool :=
  match errAs (fun x => if bool_decide (x = target) then Some tt else None) e with
  | Some _ => true
  | None => false
  end.

Definition asTransport (e : err) : bool :=
  match errAs (fun x => match x with ETransport _ => Some tt | _ => None end) e with
  | Some _ => true | None => false end.
Definition asUnwritten (e : err) : bool :=
  match errAs (fun x => match x with EUnwritten _ => Some tt | _ => None end) e with
  | Some _ => true | None => false end.
Definition asUnknownSend (e : err) : bool :=
  match errAs (fun x => match x with EUnknownSend _ => Some tt | _ => None end) e with
  | Some _ => true | None => false end.
Definition asRpc (e : err) : option (Z * string) :=
  errAs (fun x => match x with ERpc c m => Some (c, m) | _ => None end) e.
Definition asCode (e : err) : option Z :=
  errAs (fun x => match x with ECode c => Some c | _ => None end) e.
Definition asPrompt (e : err) : bool :=
  match errAs (fun x => match x with EPrompt _ _ _ => Some tt | _ => None end) e with
  | Some _ => true | None => false end.

Definition asThreadNotFound (e : err) : option string :=
  errAs (fun x => match x with EThreadNotFound t _ => Some t | _ => None end) e.
Definition asProjectNotFound (e : err) : option string :=
  errAs (fun x => match x with EProjectNotFound p _ => Some p | _ => None end) e.

(** The exact refusals of App Server for a thread or a project that is not there. *)
Definition IsThreadNotFound (e : err) (threadID : string) : bool :=
  match asThreadNotFound e with
  | Some missing => str_eqb missing threadID
  | None => match asRpc e with
            | Some (code, message) => (code =? -32001) && str_eqb message "thread not found"
            | None => false end
  end.
Definition IsProjectNotFound (e : err) (projectID : string) : bool :=
  match asProjectNotFound e with
  | Some missing => str_eqb missing projectID
  | None => match asRpc e with
            | Some (code, message) =>
              (code =? -32602) && str_eqb message ("project not found: " ++ projectID)%string
            | None => false end
  end.

(** ** Decoded JSON. A number is a finite float64, written [m * 2^e]. *)

Inductive any :=
| ANull
| ABool (b : bool)
| ANum (m e : Z)
| AStr (s : string)
| AArr (l : list any)
| AObj (fields : list (string * any)).

Fixpoint assoc {A} (key : string) (l : list (string * A)) : option A :=
  match l with
  | [] => None
  | (k, v) :: l' => if str_eqb k key then Some v else assoc key l'
  end.

(** [object[key]]; a nil map and a missing key both read as nil. *)
Definition field (key : string) (fields : list (string * any)) : any :=
  match assoc key fields with Some v => v | None => ANull end.

(** [value.(map[string]any)] with the zero map when it is not an object. *)
Definition asObject (v : any) : option (list (string * any)) :=
  match v with AObj l => Some l | _ => None end.
Definition objectOrNil (v : any) : list (string * any) := default [] (asObject v).
Definition asArray (v : any) : option (list any) :=
  match v with AArr l => Some l | _ => None end.
Definition arrayOrNil (v : any) : list any := default [] (asArray v).
Definition asString (v : any) : option string :=
  match v with AStr s => Some s | _ => None end.
Definition asBool (v : any) : option bool :=
  match v with ABool b => Some b | _ => None end.

Definition stringValue (v : any) : string := default "" (asString v).

Definition statusValue (v : any) : string :=
  let status := stringValue v in
  if negb (is_empty status) then status else
  match v with AObj l => stringValue (field "type" l) | _ => "" end.

Definition stringValues (v : any) : list string :=
  omap asString (arrayOrNil v).

Definition textContent (v : any) : string :=
  joinWith (String (char_of 10) "")
    (omap (fun raw => match raw with
                      | AObj part => if str_eqb (stringValue (field "type" part)) "text"
                                     then Some (stringValue (field "text" part)) else None
                      | _ => None end) (arrayOrNil v)).

(** The integer value of a float64, when it has one. *)
Definition float_int (m e : Z) : option Z :=
  if 0 <=? e then Some (m * 2 ^ e)
  else if m mod 2 ^ (- e) =? 0 then Some (m / 2 ^ (- e)) else None.

(** [number >= 0 && number < 1<<53 && number == float64(int64(number))] *)
Definition integerValue (v : any) : Z :=
  match v with
  | ANum m e =>
    match float_int m e with
    | Some z => if (0 <=? z) && (z <? 2 ^ 53) then z else 0
    | None => 0
    end
  | _ => 0
  end.

Lemma integerValue_bound v : 0 ≤ integerValue v < 2 ^ 53.
Proof.
  destruct v; simpl; try lia. destruct (float_int m e); [|lia].
  destruct ((0 <=? z) && (z <? 2 ^ 53)) eqn:H; bools; lia.
Qed.

Definition newline : string := String (char_of 10) "".

(** [inputText]: the text of a user input, with a placeholder per non-text part. *)
Definition inputText (inputs : list (list (string * any))) : string :=
  joinWith newline
    ((fun input => if negb (str_eqb (stringValue (field "type" input)) "text")
                   then "[non-text input]" else stringValue (field "text" input)) <$> inputs).

Fixpoint allObjects (l : list any) : option (list (list (string * any))) :=
  match l with
  | [] => Some []
  | AObj o :: l' => match allObjects l' with Some r => Some (o :: r) | None => None end
  | _ => None
  end.

Definition userMessageText (item : list (string * any)) : res err string :=
  match field "content" item with
  | AArr content =>
    match allObjects content with
    | Some inputs => Ok (inputText inputs)
    | None => Err (EMsg "user message has invalid input")
    end
  | _ => Err (EMsg "user message has invalid content")
  end.

(** A text input round-trips: what [turn/start] sends is what history returns. *)
Lemma userMessageText_text (text : string) item :
  field "content" item = AArr [AObj [("type", AStr "text"); ("text", AStr text)]] →
  userMessageText item = Ok text.
Proof. intros H. unfold userMessageText. rewrite H. reflexivity. Qed.

(** ** JSON text, as [encoding/json] writes it *)

Definition hex4 (z : Z) : string := hexDigits 4 z "".

Definition escapeByte (b : Z) : string :=
  if b =? 34 then String (char_of 92) (String (char_of 34) "") else
  if b =? 92 then String (char_of 92) (String (char_of 92) "") else
  if b =? 8 then "\b" else if b =? 12 then "\f" else
  if b =? 10 then "\n" else if b =? 13 then "\r" else if b =? 9 then "\t" else
  if (b <? 32) || (b =? 60) || (b =? 62) || (b =? 38) then ("\u" ++ hex4 b)%string
  else String (char_of b) "".

(** Escapes [<], [>], [&], U+2028 and U+2029, and replaces invalid UTF-8. *)
Fixpoint escape (l : list Z) : string :=
  match l with
  | [] => ""
  | b0 :: r0 =>
    if b0 <? 128 then (escapeByte b0 ++ escape r0)%string else
    match r0 with
    | b1 :: r1 =>
      if utf8_ok [b0; b1] then (string_of [b0; b1] ++ escape r1)%string else
      match r1 with
      | b2 :: r2 =>
        if utf8_ok [b0; b1; b2] then
          ((if bool_decide ([b0; b1; b2] = [226; 128; 168]) then "\u2028"
            else if bool_decide ([b0; b1; b2] = [226; 128; 169]) then "\u2029"
            else string_of [b0; b1; b2]) ++ escape r2)%string
        else
        match r2 with
        | b3 :: r3 =>
          if utf8_ok [b0; b1; b2; b3] then (string_of [b0; b1; b2; b3] ++ escape r3)%string
          else ("\ufffd" ++ escape r0)%string
        | [] => ("\ufffd" ++ escape r0)%string
        end
      | [] => ("\ufffd" ++ escape r0)%string
      end
    | [] => "\ufffd"
    end
  end.

Definition quote : string := String (char_of 34) "".
Definition jsonString (s : string) : string := (quote ++ escape (bytes_of s) ++ quote)%string.
Definition jsonBool (b : bool) : string := if b then "true" else "false".
Definition jsonInt (z : Z) : string := pretty z.
Definition jsonArray (l : list string) : string := ("[" ++ joinWith "," l ++ "]")%string.
Definition jsonObject (l : list (string * string)) : string :=
  ("{" ++ joinWith "," ((fun '(k, v) => (jsonString k ++ ":" ++ v)%string) <$> l) ++ "}")%string.

(** A struct field with [omitempty]. *)
Definition omitEmpty (key value : string) : list (string * string) :=
  if is_empty value then [] else [(key, jsonString value)].

(** A [map[string]V], whose keys [encoding/json] writes in byte order. *)
Definition keyLe (a b : string * string) : Prop := String.leb (fst a) (fst b) = true.
#[export] Instance keyLe_dec : RelDecision keyLe.
Proof. intros a b. unfold keyLe. apply _. Defined.
Definition jsonMap {V} (f : V → string) (m : gmap string V) : string :=
  jsonObject (merge_sort keyLe ((fun '(k, v) => (k, f v)) <$> map_to_list m)).
