(* ===== verification/TurnOptions.v ===== *)
(** * Turn options and thread policy ([client.go], lines 225-440)

    Validation, canonical identity and digest of the options a message is sent
    with. The digest binds a durable attempt to its exact options. *)
From S2P Require Import Prelude GoStd GoValue.
From Stdlib Require Import Ascii String.
Open Scope Z_scope.

(** ** Limits *)

Definition turnOptionMaxScalarBytes : Z := 4 * 1024.
Definition turnOptionMaxAdditionalContextEntries : Z := 32.
Definition turnOptionMaxAdditionalContextKeyBytes : Z := 256.
Definition turnOptionMaxAdditionalContextValueBytes : Z := 64 * 1024.
Definition turnOptionMaxAdditionalContextBytes : Z := 256 * 1024.

(** ** Data *)

Record AdditionalContextEntry := mkContextEntry { ac_Value : string; ac_Kind : string }.

Record ThreadMCPServer := mkMCP {
  mcp_Name : string; mcp_Command : string; mcp_Args : list string; mcp_Tool : string }.

Record ThreadPolicy := mkPolicy {
  tp_DeveloperInstructions : string; tp_Sandbox : string;
  tp_ApprovalPolicy : string; tp_MCPServer : option ThreadMCPServer }.

Record TurnOptions := mkOptions {
  to_Model : string; to_ReasoningEffort : string;
  to_AdditionalContext : gmap string AdditionalContextEntry;
  to_ThreadPolicy : ThreadPolicy }.

Record normalizedAdditionalContextEntry := mkNormalEntry {
  ne_Source : string; ne_Value : string; ne_Kind : string }.

Record normalizedTurnOptions := mkNormalized {
  nt_Model : string; nt_ReasoningEffort : string;
  nt_AdditionalContext : list normalizedAdditionalContextEntry;
  nt_ThreadPolicy : ThreadPolicy; nt_Digest : string }.

#[export] Instance AdditionalContextEntry_eq_dec : EqDecision AdditionalContextEntry.
Proof. solve_decision. Defined.
#[export] Instance ThreadMCPServer_eq_dec : EqDecision ThreadMCPServer.
Proof. solve_decision. Defined.
#[export] Instance ThreadPolicy_eq_dec : EqDecision ThreadPolicy.
Proof. solve_decision. Defined.
#[export] Instance TurnOptions_eq_dec : EqDecision TurnOptions.
Proof. solve_decision. Defined.

Definition zeroPolicy : ThreadPolicy := mkPolicy "" "" "" None.
Definition zeroOptions : TurnOptions := mkOptions "" "" ∅ zeroPolicy.

(** ** Validation *)

(** [^[a-z][a-z0-9_]{0,63}$] *)
Definition lowerByte (b : Z) : bool := between 97 122 b.
Definition mcpNameByte (b : Z) : bool := lowerByte b || between 48 57 b || (b =? 95).
Definition threadMCPNameMatch (s : string) : bool :=
  match bytes_of s with
  | b :: rest => lowerByte b && forallb mcpNameByte rest && (Z.of_nat (List.length rest) <=? 63)
  | [] => false
  end.

Definition hasNul (s : string) : bool := existsb (fun b => b =? 0) (bytes_of s).

Definition badArg (arg : string) : bool :=
  is_empty arg || negb (validString arg) || hasNul arg || (4096 <? len arg).

Definition validateThreadPolicy (policy : ThreadPolicy) : res err unit :=
  (let? _ := guard (negb (validString (tp_DeveloperInstructions policy))
                    || (64 * 1024 <? len (tp_DeveloperInstructions policy)))
      (EMsg "thread developer instructions must be valid Unicode and at most 64 KiB") in
  let? _ := guard (negb (str_in (tp_Sandbox policy)
                       [""; "read-only"; "workspace-write"; "danger-full-access"]))
      (EMsg "thread sandbox must be read-only, workspace-write or danger-full-access") in
  let? _ := guard (negb (str_in (tp_ApprovalPolicy policy) [""; "never"]))
      (EMsg "thread approval policy must be empty or never") in
  match tp_MCPServer policy with
  | None => Ok tt
  | Some server =>
    let? _ := guard (negb (threadMCPNameMatch (mcp_Name server))
                     || negb (threadMCPNameMatch (mcp_Tool server)))
        (EMsg "thread MCP server and tool names must be lowercase safe identifiers") in
    let? _ := guard (negb (canonicalPath (mcp_Command server)) || negb (validString (mcp_Command server))
                     || hasNul (mcp_Command server) || (4096 <? len (mcp_Command server)))
        (EMsg "thread MCP command must be a canonical absolute path") in
    let? _ := guard (bool_decide (mcp_Args server = [])
                     || (64 <? Z.of_nat (List.length (mcp_Args server))))
        (EMsg "thread MCP server requires between 1 and 64 arguments") in
    guard (existsb badArg (mcp_Args server))
        (EMsg "thread MCP arguments must be nonempty valid Unicode without NUL")
  end)%codex.

Definition validateTurnOptionScalar (name value : string) : res err unit :=
  if is_empty value then Ok tt else
  guard (negb (validString value) || (turnOptionMaxScalarBytes <? len value))
    (EMsg (name ++ " must be valid Unicode and at most 4096 bytes")%string).

(** The loop over the additional context, with its running byte total. *)
Fixpoint normalizeContext (entries : list (string * AdditionalContextEntry)) (totalBytes : Z)
  : res err (list normalizedAdditionalContextEntry) :=
  match entries with
  | [] => Ok []
  | (source, entry) :: rest =>
    (let? _ := guard (is_empty source || negb (validString source)
                      || (turnOptionMaxAdditionalContextKeyBytes <? len source))
        (EMsg "additional context source must be valid Unicode between 1 and 256 bytes") in
    let? _ := guard (negb (str_eqb (ac_Kind entry) "application"))
        (EMsg "additional context kind must be application") in
    let? _ := guard (negb (validString (ac_Value entry))
                     || (turnOptionMaxAdditionalContextValueBytes <? len (ac_Value entry)))
        (EMsg "additional context value must be valid Unicode and at most 65536 bytes") in
    let total := totalBytes + (len source + len (ac_Value entry)) in
    let? _ := guard (turnOptionMaxAdditionalContextBytes <? total)
        (EMsg "additional context exceeds 262144 bytes") in
    let? more := normalizeContext rest total in
    Ok (mkNormalEntry source (ac_Value entry) (ac_Kind entry) :: more))%codex
  end.

Definition sourceLe (a b : normalizedAdditionalContextEntry) : Prop :=
  String.leb (ne_Source a) (ne_Source b) = true.
#[export] Instance sourceLe_dec : RelDecision sourceLe.
Proof. intros a b. unfold sourceLe. apply _. Defined.

(** ** The canonical identity: the JSON text of [turnOptionsIdentity] *)

Definition jsonMCP (s : ThreadMCPServer) : string :=
  jsonObject [("name", jsonString (mcp_Name s)); ("command", jsonString (mcp_Command s));
              ("args", jsonArray (jsonString <$> mcp_Args s)); ("tool", jsonString (mcp_Tool s))].

Definition jsonPolicy (p : ThreadPolicy) : string :=
  jsonObject (omitEmpty "developerInstructions" (tp_DeveloperInstructions p)
    ++ omitEmpty "sandbox" (tp_Sandbox p) ++ omitEmpty "approvalPolicy" (tp_ApprovalPolicy p)
    ++ match tp_MCPServer p with Some s => [("mcpServer", jsonMCP s)] | None => [] end).

Definition jsonNormalEntry (e : normalizedAdditionalContextEntry) : string :=
  jsonObject [("source", jsonString (ne_Source e)); ("value", jsonString (ne_Value e));
              ("kind", jsonString (ne_Kind e))].

Definition turnOptionsIdentity (model effort : string)
    (context : list normalizedAdditionalContextEntry) (policy : ThreadPolicy) : string :=
  jsonObject ([("version", jsonInt 1)] ++ omitEmpty "model" model
    ++ omitEmpty "reasoningEffort" effort
    ++ (if bool_decide (List.length context = 0%nat) then []
        else [("additionalContext", jsonArray (jsonNormalEntry <$> context))])
    ++ (if bool_decide (policy = zeroPolicy) then [] else [("threadPolicy", jsonPolicy policy)])).

Definition normalizeTurnOptions (options : TurnOptions) : res err normalizedTurnOptions :=
  (let? _ := validateThreadPolicy (to_ThreadPolicy options) in
  let? _ := validateTurnOptionScalar "model" (to_Model options) in
  let? _ := validateTurnOptionScalar "reasoning effort" (to_ReasoningEffort options) in
  let? _ := guard (turnOptionMaxAdditionalContextEntries
                   <? Z.of_nat (size (to_AdditionalContext options)))
      (EMsg "additional context has more than 32 entries") in
  let? unsorted := normalizeContext (map_to_list (to_AdditionalContext options)) 0 in
  let context := merge_sort sourceLe unsorted in
  let identity := turnOptionsIdentity (to_Model options) (to_ReasoningEffort options) context
                    (to_ThreadPolicy options) in
  Ok (mkNormalized (to_Model options) (to_ReasoningEffort options) context
        (to_ThreadPolicy options) (sha256_hex identity)))%codex.

(** The digest of [TurnOptions{}], i.e. of the text [{"version":1}]. *)
Definition zeroTurnOptionsDigest : string :=
  match normalizeTurnOptions zeroOptions with Ok n => nt_Digest n | Err _ => "" end.

Definition effectiveTurnOptionsDigest (stored : string) : string :=
  if is_empty stored then zeroTurnOptionsDigest else stored.

Definition persistedTurnOptionsDigest (digest : string) : string :=
  if str_eqb digest zeroTurnOptionsDigest then "" else digest.

Definition additionalContextParameter (options : normalizedTurnOptions) : option any :=
  match nt_AdditionalContext options with
  | [] => None
  | context =>
    Some (AObj ((fun e => (ne_Source e, AObj [("value", AStr (ne_Value e)); ("kind", AStr (ne_Kind e))]))
                <$> context))
  end.

Definition queueTextDigest (text : string) : string := sha256_hex text.

Definition validSubmissionDigest (digest : string) : bool :=
  (len digest =? 64) && forallb isHexDigit (list_ascii_of_string digest).

(** ** Facts *)

Lemma zeroTurnOptionsDigest_value :
  zeroTurnOptionsDigest = sha256_hex ("{" ++ quote ++ "version" ++ quote ++ ":1}")%string.
Proof. vm_compute. reflexivity. Qed.

Lemma valid_sha256 text : validSubmissionDigest (sha256_hex text) = true.
Proof.
  unfold validSubmissionDigest, len. rewrite sha256_hex_length, sha256_hex_isHex. reflexivity.
Qed.

Lemma valid_queueTextDigest text : validSubmissionDigest (queueTextDigest text) = true.
Proof. apply valid_sha256. Qed.

Lemma normalized_digest_valid options n :
  normalizeTurnOptions options = Ok n → validSubmissionDigest (nt_Digest n) = true.
Proof.
  unfold normalizeTurnOptions, res_bind. intros H. repeat (cases_in H; try done).
  simplify_eq. apply valid_sha256.
Qed.

Lemma zeroTurnOptionsDigest_valid : validSubmissionDigest zeroTurnOptionsDigest = true.
Proof. rewrite zeroTurnOptionsDigest_value. apply valid_sha256. Qed.

Lemma valid_digest_nonempty d : validSubmissionDigest d = true → d ≠ "".
Proof. intros H ->. discriminate. Qed.

Lemma queueTextDigest_nonempty text : queueTextDigest text ≠ "".
Proof. apply valid_digest_nonempty, valid_queueTextDigest. Qed.

Lemma zero_digest_nonempty : zeroTurnOptionsDigest ≠ "".
Proof. apply valid_digest_nonempty, zeroTurnOptionsDigest_valid. Qed.

Lemma effective_persisted d : d ≠ "" → effectiveTurnOptionsDigest (persistedTurnOptionsDigest d) = d.
Proof.
  intros Hd. unfold effectiveTurnOptionsDigest, persistedTurnOptionsDigest.
  destruct (str_eqb d zeroTurnOptionsDigest) eqn:E; bools; [by subst|].
  destruct (is_empty d) eqn:E'; bools; done.
Qed.

Lemma persisted_idempotent d :
  persistedTurnOptionsDigest (effectiveTurnOptionsDigest (persistedTurnOptionsDigest d)) =
  persistedTurnOptionsDigest d.
Proof.
  unfold effectiveTurnOptionsDigest, persistedTurnOptionsDigest.
  destruct (str_eqb d zeroTurnOptionsDigest) eqn:E; simpl.
  - by rewrite str_eqb_refl.
  - destruct (is_empty d) eqn:E'; bools; subst; [by rewrite str_eqb_refl|].
    by destruct (str_eqb d zeroTurnOptionsDigest) eqn:?; bools.
Qed.

#[export] Hint Resolve valid_queueTextDigest queueTextDigest_nonempty zero_digest_nonempty
  normalized_digest_valid : codex.
