(* ===== verification/Ledger.v ===== *)
(** * The submission ledger: durable message attempts ([client.go] 596-661, 2431-3515)

    The ledger remembers, per thread and per client message identity, which
    messages were prepared, handed to the wire, accepted, queued or deleted.
    Every operation of the client on it is one transaction: it looks at the
    maps, may change them, and then writes them once, undoing its change in
    memory when the write fails. [plan] is exactly that shape, so an operation
    is a function [Ledger -> plan A]; the storage back ends that run plans are
    in [LedgerFile.v] and [SubmissionDb.v]. *)
From S2P Require Import Prelude GoStd GoValue TurnOptions.
From Stdlib Require Import String.
From stdpp Require Import pretty.
Open Scope Z_scope.

(** ** Data *)

Record queueDeletionAttempt := mkDeletion { qd_ClientUserMessageID : string; qd_Digest : string }.

Record sendAttempt := mkSend {
  sa_admissionID : string;
  sa_Digest : string;
  sa_State : string;
  sa_Context : string;
  sa_OptionsDigest : string;
  sa_Options : option TurnOptions;
  sa_Steered : bool;
  sa_TurnID : string }.

(** The zero value Go returns for a missing attempt. *)
Definition zeroSend : sendAttempt := mkSend "" "" "" "" "" None false "".

Record QueueEntry := mkQueueEntry {
  qe_ID : string; qe_Text : string; qe_ClientUserMessageID : string }.

Record SendReceipt := mkReceipt {
  sr_QueuedSubmissionID : string; sr_TurnID : string;
  sr_ClientUserMessageID : string; sr_Steered : bool }.

Definition zeroReceipt : SendReceipt := mkReceipt "" "" "" false.

Record Ledger := mkLedger {
  queueAttempts : nested string;
  sendAttempts : nested sendAttempt;
  queueDeletions : nested queueDeletionAttempt;
  operations : gmap string string }.

#[export] Instance queueDeletionAttempt_eq_dec : EqDecision queueDeletionAttempt.
Proof. solve_decision. Defined.
#[export] Instance sendAttempt_eq_dec : EqDecision sendAttempt.
Proof. solve_decision. Defined.
#[export] Instance SendReceipt_eq_dec : EqDecision SendReceipt.
Proof. solve_decision. Defined.

Definition emptyLedger : Ledger := mkLedger ∅ ∅ ∅ ∅.

(** The ledger seen through [m[thread][id]]: an empty inner map and a missing
    one are the same ledger. *)
#[export] Instance ledger_equiv : Equiv Ledger := fun a b =>
  (∀ t id, look2 t id (queueAttempts a) = look2 t id (queueAttempts b)) ∧
  (∀ t id, look2 t id (sendAttempts a) = look2 t id (sendAttempts b)) ∧
  (∀ t id, look2 t id (queueDeletions a) = look2 t id (queueDeletions b)) ∧
  operations a = operations b.

#[export] Instance ledger_equivalence : Equivalence (≡@{Ledger}).
Proof.
  split.
  - intros a. by repeat split.
  - intros a b (H1 & H2 & H3 & H4). by repeat split.
  - intros a b c (H1 & H2 & H3 & H4) (K1 & K2 & K3 & K4).
    repeat split; intros; etrans; eauto.
Qed.

Definition sendAt (t id : string) (l : Ledger) : option sendAttempt := look2 t id (sendAttempts l).
Definition queueAt (t id : string) (l : Ledger) : option string := look2 t id (queueAttempts l).
Definition deletionAt (t id : string) (l : Ledger) : option queueDeletionAttempt :=
  look2 t id (queueDeletions l).

#[export] Instance sendAt_proper t id : Proper ((≡) ==> (=)) (sendAt t id).
Proof. intros a b (_ & H & _). apply H. Qed.
#[export] Instance queueAt_proper t id : Proper ((≡) ==> (=)) (queueAt t id).
Proof. intros a b (H & _). apply H. Qed.
#[export] Instance deletionAt_proper t id : Proper ((≡) ==> (=)) (deletionAt t id).
Proof. intros a b (_ & _ & H & _). apply H. Qed.
#[export] Instance operations_proper : Proper ((≡) ==> (=)) operations.
Proof. intros a b (_ & _ & _ & H). apply H. Qed.

(** Field updates. *)
Definition withQueue (f : nested string → nested string) (l : Ledger) : Ledger :=
  mkLedger (f (queueAttempts l)) (sendAttempts l) (queueDeletions l) (operations l).
Definition withSends (f : nested sendAttempt → nested sendAttempt) (l : Ledger) : Ledger :=
  mkLedger (queueAttempts l) (f (sendAttempts l)) (queueDeletions l) (operations l).
Definition withDeletions (f : nested queueDeletionAttempt → nested queueDeletionAttempt)
    (l : Ledger) : Ledger :=
  mkLedger (queueAttempts l) (sendAttempts l) (f (queueDeletions l)) (operations l).
Definition withOperations (f : gmap string string → gmap string string) (l : Ledger) : Ledger :=
  mkLedger (queueAttempts l) (sendAttempts l) (queueDeletions l) (f (operations l)).

Definition setState (state claim : string) (a : sendAttempt) : sendAttempt :=
  mkSend claim (sa_Digest a) state (sa_Context a) (sa_OptionsDigest a) (sa_Options a)
    (sa_Steered a) (sa_TurnID a).
Definition setAccepted (turn : string) (a : sendAttempt) : sendAttempt :=
  mkSend (sa_admissionID a) (sa_Digest a) "accepted" (sa_Context a) (sa_OptionsDigest a)
    (sa_Options a) (sa_Steered a) turn.
Definition dropOptions (a : sendAttempt) : sendAttempt :=
  mkSend (sa_admissionID a) (sa_Digest a) (sa_State a) (sa_Context a) (sa_OptionsDigest a)
    None (sa_Steered a) (sa_TurnID a).

(** ** Transactions *)

Inductive plan (A : Type) :=
| PFail (e : err)
| PDone (a : A)
| PWrite (next : Ledger) (undo : Ledger → Ledger) (a : A).
Arguments PFail {A} e.
Arguments PDone {A} a.
Arguments PWrite {A} next undo a.

(** What a transaction means when its write succeeds. *)
Definition spec {A} (p : Ledger → plan A) (l : Ledger) : res err (A * Ledger) :=
  match p l with
  | PFail e => Err e
  | PDone a => Ok (a, l)
  | PWrite next _ a => Ok (a, next)
  end.

(** Every operation's rollback restores the ledger it started from. *)
Definition undoes {A} (p : Ledger → plan A) : Prop :=
  ∀ l next undo a, p l = PWrite next undo a → undo next ≡ l.

(** The rows a transaction reads ([submission_database.go] 21-36). *)
Record submissionScope := mkScope {
  sc_thread : string; sc_directory : string; sc_ids : list string; sc_all : bool; sc_write : bool }.
Definition attemptScope (thread : string) (ids : list string) := mkScope thread "" ids false false.
Definition threadScope (thread : string) := mkScope thread "" [] false false.
Definition operationScope (directory : string) := mkScope "" directory [] false false.
Definition conversationScope (thread directory : string) := mkScope thread directory [] false false.
Definition writable (s : submissionScope) : submissionScope :=
  mkScope (sc_thread s) (sc_directory s) (sc_ids s) (sc_all s) true.

(** ** Queue attempts *)

Definition queueAttempt (threadID clientID text : string) (l : Ledger) : plan bool :=
  match queueAt threadID clientID l with
  | Some digest =>
    if negb (str_eqb digest (queueTextDigest text))
    then PFail (EMsg "queued message identity was reused with different text")
    else PDone true
  | None => PDone false
  end.

Definition recordQueueAttempt (threadID clientID text : string) (l : Ledger) : plan unit :=
  let digest := queueTextDigest text in
  match queueAt threadID clientID l with
  | Some existing =>
    if negb (str_eqb existing digest)
    then PFail (EMsg "queued message identity was reused with different text")
    else PDone tt
  | None =>
    let blocked :=
      match sendAt threadID clientID l with
      | Some send => negb (str_eqb (sa_State send) "prepared") || sa_Steered send
                     || negb (str_eqb (sa_Digest send) digest)
      | None => false
      end in
    if blocked then PFail (EMsg "earlier message attempt must be reconciled before queueing")
    else PWrite (withQueue (put2 threadID clientID digest) l)
           (withQueue (fun q => prune threadID (del2 threadID clientID q))) tt
  end.

Definition clearQueueAttempt (threadID clientID : string) (l : Ledger) : plan unit :=
  match queueAt threadID clientID l with
  | None => PDone tt
  | Some digest =>
    PWrite (withQueue (fun q => prune threadID (del2 threadID clientID q)) l)
      (withQueue (put2 threadID clientID digest)) tt
  end.

(** ** Send attempts *)

Record sendState := mkSendState { ss_attempt : sendAttempt; ss_found : bool; ss_queued : bool }.

(** The identity test shared by every reader of a send attempt. *)
Definition sameAction (attempt : sendAttempt) (text context optionsDigest : string) : bool :=
  str_eqb (sa_Digest attempt) (queueTextDigest text) && str_eqb (sa_Context attempt) context
  && str_eqb (effectiveTurnOptionsDigest (sa_OptionsDigest attempt)) optionsDigest.

Definition isQueued (threadID clientID : string) (l : Ledger) : bool :=
  negb (is_empty (default "" (queueAt threadID clientID l))).

Definition sendStateWithOptions (threadID clientID text context optionsDigest : string)
    (l : Ledger) : plan sendState :=
  match sendAt threadID clientID l with
  | Some attempt =>
    if negb (sameAction attempt text context optionsDigest)
    then PFail (EMsg "message identity was reused for another action")
    else PDone (mkSendState attempt true (isQueued threadID clientID l))
  | None => PDone (mkSendState zeroSend false (isQueued threadID clientID l))
  end.

(** [cloneTurnOptions] copies maps and slices; values are immutable here. *)
Definition cloneTurnOptions (options : TurnOptions) : TurnOptions := options.

Definition newSend (digest context optionsDigest : string) (steered : bool) (options : TurnOptions)
  : sendAttempt :=
  mkSend "" digest "prepared" context (persistedTurnOptionsDigest optionsDigest)
    (if str_eqb optionsDigest zeroTurnOptionsDigest then None else Some (cloneTurnOptions options))
    steered "".

Definition recordSendAttemptWithReceipt (threadID clientID text context : string) (steered : bool)
    (options : TurnOptions) (receipt : option SendReceipt) (l : Ledger) : plan unit :=
  match normalizeTurnOptions options with
  | Err e => PFail e
  | Ok normalized =>
  let optionsDigest := nt_Digest normalized in
  let digest := queueTextDigest text in
  let existing := sendAt threadID clientID l in
  let mismatch :=
    match existing with
    | Some e => negb (sameAction e text context optionsDigest) || negb (eqb (sa_Steered e) steered)
    | None => false
    end in
  if mismatch then PFail (EMsg "message identity was reused for another action") else
  let attempt := newSend digest context optionsDigest steered options in
  let undo := match existing with
              | Some e => withSends (put2 threadID clientID e)
              | None => withSends (fun m => prune threadID (del2 threadID clientID m)) end in
  match receipt with
  | None =>
    match existing with
    | Some _ => PDone tt
    | None => PWrite (withSends (put2 threadID clientID attempt) l) undo tt
    end
  | Some r =>
    let acceptedAlready :=
      match existing with Some e => str_eqb (sa_State e) "accepted" | None => false end in
    let otherTurn :=
      match existing with Some e => negb (str_eqb (sa_TurnID e) (sr_TurnID r)) | None => false end in
    if negb (str_eqb (sr_ClientUserMessageID r) clientID) || is_empty (sr_TurnID r)
       || negb (eqb (sr_Steered r) steered) || (acceptedAlready && otherTurn)
    then PFail (EMsg "history receipt does not match the message attempt")
    else if acceptedAlready then PDone tt
    else PWrite (withSends (put2 threadID clientID (setAccepted (sr_TurnID r) attempt)) l) undo tt
  end
  end.

Definition recordSendAttemptWithOptions (threadID clientID text context : string) (steered : bool)
    (options : TurnOptions) : Ledger → plan unit :=
  recordSendAttemptWithReceipt threadID clientID text context steered options None.

Definition OriginalSendOptions (threadID text clientID actionContext : string)
    (l : Ledger) : plan (TurnOptions * bool) :=
  match sendAt threadID clientID l with
  | None => PDone (zeroOptions, false)
  | Some attempt =>
    if negb (str_eqb (sa_Digest attempt) (queueTextDigest text))
       || negb (str_eqb (sa_Context attempt) actionContext)
    then PFail (EMsg "message identity was reused for another action")
    else match sa_Options attempt with
    | None =>
      if negb (str_eqb (effectiveTurnOptionsDigest (sa_OptionsDigest attempt)) zeroTurnOptionsDigest)
      then PFail (EMsg "original message options are unavailable")
      else PDone (zeroOptions, true)
    | Some options => PDone (cloneTurnOptions options, true)
    end
  end.

(** [claim] is the random token the client drew for this admission. *)
Definition claimSendSubmissionIf (threadID clientID claim : string)
    (matches : sendAttempt → bool) (l : Ledger) : plan string :=
  match sendAt threadID clientID l with
  | None => PFail (EMsg "prepared message attempt disappeared")
  | Some attempt =>
    if negb (matches attempt) then PFail (EMsg "message identity changed before write admission")
    else if negb (str_eqb (sa_State attempt) "prepared") || isQueued threadID clientID l
    then PFail EAdmissionChanged
    else PWrite (withSends (put2 threadID clientID (setState "submitting" claim attempt)) l)
           (withSends (put2 threadID clientID attempt)) claim
  end.

Definition exactMatch (text action optionsDigest : string) (steered : bool)
    (attempt : sendAttempt) : bool :=
  sameAction attempt text action optionsDigest && eqb (sa_Steered attempt) steered.

Definition claimSendSubmissionExact (threadID clientID claim text action optionsDigest : string)
    (steered : bool) : Ledger → plan string :=
  claimSendSubmissionIf threadID clientID claim (exactMatch text action optionsDigest steered).

Definition markSendAccepted (threadID clientID : string) (receipt : SendReceipt)
    (l : Ledger) : plan unit :=
  match sendAt threadID clientID l with
  | None => PFail (EMsg "submitted message attempt disappeared")
  | Some attempt =>
    if is_empty (sr_TurnID receipt) || negb (str_eqb (sr_ClientUserMessageID receipt) clientID)
       || negb (eqb (sr_Steered receipt) (sa_Steered attempt))
    then PFail (EMsg "accepted message receipt does not match its attempt")
    else if str_eqb (sa_State attempt) "accepted" then
      if negb (str_eqb (sa_TurnID attempt) (sr_TurnID receipt))
      then PFail (EMsg "message identity was accepted by another turn")
      else PDone tt
    else if negb (str_eqb (sa_State attempt) "submitting")
    then PFail (EMsg "message attempt was accepted before submission")
    else PWrite (withSends (put2 threadID clientID (setAccepted (sr_TurnID receipt) attempt)) l)
           (withSends (put2 threadID clientID attempt)) tt
  end.

(** [send_delivery.go] 59-78; [db] is [SubmissionDatabasePath != ""]. *)
Definition restoreRejectedSendClaim (db : bool) (threadID clientID claim : string)
    (l : Ledger) : plan unit :=
  let changed := EMsg "rejected message attempt changed before recovery" in
  match sendAt threadID clientID l with
  | None => PFail changed
  | Some attempt =>
    if negb (str_eqb (sa_State attempt) "submitting")
       || (db && negb (is_empty claim) && negb (str_eqb (sa_admissionID attempt) claim))
    then PFail changed
    else PWrite (withSends (put2 threadID clientID (setState "prepared" "" attempt)) l)
           (withSends (put2 threadID clientID attempt)) tt
  end.

Definition DiscardPreparedSend (threadID text clientID actionContext optionsDigest : string)
    (l : Ledger) : plan bool :=
  match sendAt threadID clientID l with
  | None => PDone true
  | Some attempt =>
    if negb (sameAction attempt text actionContext optionsDigest)
    then PFail (EMsg "message identity was reused for another action")
    else if negb (str_eqb (sa_State attempt) "prepared") || isQueued threadID clientID l
    then PDone false
    else PWrite (withSends (fun m => prune threadID (del2 threadID clientID m)) l)
           (withSends (put2 threadID clientID attempt)) true
  end.

Definition isPreparedSendWithOptions (threadID text clientID actionContext optionsDigest : string)
    (l : Ledger) : plan bool :=
  match sendAt threadID clientID l with
  | None => PDone false
  | Some attempt =>
    if negb (sameAction attempt text actionContext optionsDigest)
    then PFail (EMsg "message identity was reused for another action")
    else PDone (str_eqb (sa_State attempt) "prepared"
                && negb (bool_decide (is_Some (queueAt threadID clientID l))))
  end.

(** ** Acknowledgement of sends ([AcknowledgeSends], its two transactions) *)

Record SendAcknowledgement := mkAck { ack_ClientUserMessageID : string; ack_Digest : string }.

(** The first transaction collects the digests to prove and the turns already
    recorded; it fails on the first acknowledgement that contradicts the ledger. *)
Fixpoint acknowledgeExpectations (threadID : string) (acks : list SendAcknowledgement)
    (digests expected : gmap string string) (l : Ledger)
  : plan (gmap string string * gmap string string) :=
  match acks with
  | [] => PDone (digests, expected)
  | ack :: rest =>
    let id := ack_ClientUserMessageID ack in
    let digest := ack_Digest ack in
    if negb (validSubmissionDigest digest)
    then PFail (EMsg "message acknowledgement has an invalid digest")
    else
      let digests := <[id := digest]> digests in
      match sendAt threadID id l with
      | Some attempt =>
        if negb (str_eqb (sa_Digest attempt) digest)
        then PFail (EMsg "message identity was reused with different text")
        else
          let expected := if str_eqb (sa_State attempt) "accepted"
                          then <[id := sa_TurnID attempt]> expected else expected in
          acknowledgeExpectations threadID rest digests expected l
      | None => acknowledgeExpectations threadID rest digests expected l
      end
  end.

(** The second removes every proven attempt, or fails without a write. *)
Fixpoint acknowledgeRemove (threadID : string) (proven : list (string * string))
    (digests : gmap string string) (l : Ledger) (removed : list (string * sendAttempt))
  : res err (Ledger * list (string * sendAttempt)) :=
  match proven with
  | [] => Ok (l, removed)
  | (clientID, turn) :: rest =>
    match sendAt threadID clientID l with
    | None => acknowledgeRemove threadID rest digests l removed
    | Some attempt =>
      if negb (str_eqb (sa_Digest attempt) (default "" (digests !! clientID)))
      then Err (EMsg "message identity changed during acknowledgement")
      else if str_eqb (sa_State attempt) "accepted" && negb (str_eqb (sa_TurnID attempt) turn)
      then Err (EMsg "message identity was accepted by another turn")
      else acknowledgeRemove threadID rest digests
             (withSends (del2 threadID clientID) l) (removed ++ [(clientID, attempt)])
    end
  end.

Definition acknowledgeProven (threadID : string) (acks : list SendAcknowledgement)
    (digests proven : gmap string string) (l : Ledger) : plan (list string) :=
  match acknowledgeRemove threadID (map_to_list proven) digests l [] with
  | Err e => PFail e
  | Ok (next, removed) =>
    let acknowledged :=
      omap (fun ack => match proven !! ack_ClientUserMessageID ack with
                       | Some _ => Some (ack_ClientUserMessageID ack) | None => None end) acks in
    let next := withSends (prune threadID) next in
    if bool_decide (removed = []) then PDone acknowledged
    else PWrite next (withSends (putAll ((fun '(id, a) => (threadID, id, a)) <$> removed)))
           acknowledged
  end.

(** ** Queue deletions *)

Definition queueDeletionAttemptAt (threadID queuedSubmissionID : string) (l : Ledger)
  : plan (option queueDeletionAttempt) :=
  PDone (deletionAt threadID queuedSubmissionID l).

Definition recordQueueDeletionAttempt (threadID : string) (target : QueueEntry) (l : Ledger)
  : plan queueDeletionAttempt :=
  let attempt := mkDeletion (qe_ClientUserMessageID target) (queueTextDigest (qe_Text target)) in
  match deletionAt threadID (qe_ID target) l with
  | Some existing =>
    if negb (bool_decide (existing = attempt))
    then PFail (EMsg "queued deletion identity changed") else PDone existing
  | None =>
    PWrite (withDeletions (put2 threadID (qe_ID target) attempt) l)
      (withDeletions (fun m => prune threadID (del2 threadID (qe_ID target) m))) attempt
  end.

(** Puts back what [clearQueueDeletionAndAttempt] removed. *)
Definition restoreDeletion (threadID queuedSubmissionID clientID : string)
    (deletion : option queueDeletionAttempt) (digest : option string)
    (send : option sendAttempt) (l : Ledger) : Ledger :=
  let l := match send with Some s => withSends (put2 threadID clientID s) l | None => l end in
  let l := match deletion with
           | Some d => withDeletions (put2 threadID queuedSubmissionID d) l | None => l end in
  match digest with Some d => withQueue (put2 threadID clientID d) l | None => l end.

Definition clearQueueDeletionAndAttempt (threadID queuedSubmissionID clientID : string)
    (l : Ledger) : plan unit :=
  let deletion := deletionAt threadID queuedSubmissionID l in
  let digest := queueAt threadID clientID l in
  let prepared :=
    match sendAt threadID clientID l, digest with
    | Some send, Some d =>
      if str_eqb (sa_State send) "prepared" && negb (sa_Steered send) && str_eqb (sa_Digest send) d
      then Some send else None
    | _, _ => None
    end in
  let bound := match deletion with
               | Some d => negb (str_eqb (qd_ClientUserMessageID d) clientID) | None => false end in
  if bound then PFail (EMsg "queued deletion is bound to another message") else
  let next := withDeletions (fun m => prune threadID (del2 threadID queuedSubmissionID m)) l in
  let next := withQueue (fun m => prune threadID (del2 threadID clientID m)) next in
  let next := match prepared with
              | Some _ => withSends (del2 threadID clientID) next | None => next end in
  PWrite next (restoreDeletion threadID queuedSubmissionID clientID deletion digest prepared) tt.

(** [ReconcileQueueDeletionsWithCompletion]'s snapshot of recorded deletions. *)
Definition queueDeletionsOf (threadID : string) (l : Ledger)
  : plan (gmap string queueDeletionAttempt) :=
  PDone (default ∅ (queueDeletions l !! threadID)).

(** ** Resolution of attempts ([requireSubmissionAttemptsExcept], its snapshots) *)

Definition deletionCount (threadID : string) (l : Ledger) : plan Z :=
  PDone (Z.of_nat (size (default ∅ (queueDeletions l !! threadID)))).

Definition unresolvedSend (attempts : gmap string string) (ownPreparedID clientID : string)
    (attempt : sendAttempt) : bool :=
  if negb (is_empty ownPreparedID) && str_eqb clientID ownPreparedID
     && str_eqb (sa_State attempt) "prepared" then false
  else negb (str_eqb (sa_State attempt) "accepted")
       && (negb (str_eqb (sa_State attempt) "prepared") || sa_Steered attempt
           || negb (str_eqb (default "" (attempts !! clientID)) (sa_Digest attempt))).

Definition resolutionSnapshot (threadID ownPreparedID : string) (l : Ledger)
  : plan (gmap string string * Z) :=
  let attempts := default ∅ (queueAttempts l !! threadID) in
  let sends := default ∅ (sendAttempts l !! threadID) in
  PDone (attempts,
         Z.of_nat (size (filter (fun '(id, a) => unresolvedSend attempts ownPreparedID id a = true)
                                sends))).

(** ** Thread operations and cleanup *)

Definition ThreadOperationAttempt (directory : string) (l : Ledger) : plan string :=
  PDone (default "" (operations l !! directory)).

Definition RecordThreadOperationAttempt (directory threadID : string) (l : Ledger) : plan unit :=
  let existing := default "" (operations l !! directory) in
  if negb (is_empty existing) then
    if negb (str_eqb existing threadID)
    then PFail (EMsg "thread operation directory is already bound to another thread")
    else PDone tt
  else PWrite (withOperations <[directory := threadID]> l) (withOperations (delete directory)) tt.

(** Puts the inner map of a thread back when the operation had found one. *)
Definition restoreInner {V} (threadID : string) (inner : option (gmap string V))
    (m : nested V) : nested V :=
  match inner with Some i => <[threadID := i]> m | None => m end.

Definition ClearConversationAttempts (threadID directory : string) (l : Ledger) : plan unit :=
  let queued := queueAttempts l !! threadID in
  let sent := sendAttempts l !! threadID in
  let deleting := queueDeletions l !! threadID in
  let operation := operations l !! directory in
  let bound := match operation with Some v => negb (str_eqb v threadID) | None => false end in
  if bound then PFail (EMsg "operation key is bound to another conversation") else
  match queued, sent, deleting, operation with
  | None, None, None, None => PDone tt
  | _, _, _, _ =>
    PWrite (mkLedger (delete threadID (queueAttempts l)) (delete threadID (sendAttempts l))
              (delete threadID (queueDeletions l)) (delete directory (operations l)))
      (fun next => mkLedger (restoreInner threadID queued (queueAttempts next))
                     (restoreInner threadID sent (sendAttempts next))
                     (restoreInner threadID deleting (queueDeletions next))
                     (match operation with
                      | Some v => <[directory := v]> (operations next)
                      | None => operations next end)) tt
  end.

Definition ClearRetiredThreadAttempts (threadID : string) (l : Ledger) : plan unit :=
  let queued := queueAttempts l !! threadID in
  let sent := sendAttempts l !! threadID in
  let deletions := queueDeletions l !! threadID in
  match queued, sent, deletions with
  | None, None, None => PDone tt
  | _, _, _ =>
    PWrite (mkLedger (delete threadID (queueAttempts l)) (delete threadID (sendAttempts l))
              (delete threadID (queueDeletions l)) (operations l))
      (fun next => mkLedger (restoreInner threadID queued (queueAttempts next))
                     (restoreInner threadID sent (sendAttempts next))
                     (restoreInner threadID deletions (queueDeletions next))
                     (operations next)) tt
  end.

Definition compactable (contextPrefix : string) (a : sendAttempt) : bool :=
  str_eqb (sa_State a) "accepted" && bool_decide (is_Some (sa_Options a))
  && hasPrefix (sa_Context a) contextPrefix.

Definition compactOne (contextPrefix : string) (a : sendAttempt) : sendAttempt :=
  if compactable contextPrefix a then dropOptions a else a.

(** The rollback walks the saved list; each saved attempt gets its options back. *)
Definition restoreOptions (contextPrefix : string) (before next : nested sendAttempt)
  : nested sendAttempt :=
  putAll
    ('(threadID, inner) ← map_to_list before;
     '(clientID, a) ← map_to_list (filter (fun '(_, a) => compactable contextPrefix a = true) inner);
     [(threadID, clientID, a)]) next.

Definition compactAll (contextPrefix : string) (m : nested sendAttempt) : nested sendAttempt :=
  (fun inner : gmap string sendAttempt => compactOne contextPrefix <$> inner) <$> m.

Definition CompactAcceptedSendOptions (contextPrefix : string) (l : Ledger) : plan unit :=
  let changed := existsb (fun inner : gmap string sendAttempt =>
                            existsb (compactable contextPrefix) (map_to_list inner).*2)
                   (map_to_list (sendAttempts l)).*2 in
  if negb changed then PDone tt
  else PWrite (withSends (compactAll contextPrefix) l)
         (withSends (restoreOptions contextPrefix (sendAttempts l))) tt.

(** ** The invariant of a stored ledger *)

Definition validSendAttemptState (attempt : sendAttempt) : bool :=
  if str_eqb (sa_State attempt) "prepared" || str_eqb (sa_State attempt) "submitting"
  then is_empty (sa_TurnID attempt)
  else if str_eqb (sa_State attempt) "accepted" then negb (is_empty (sa_TurnID attempt))
  else false.

(** The stored options, when present, have the digest the attempt is bound to. *)
Definition optionsAgree (attempt : sendAttempt) : bool :=
  match sa_Options attempt with
  | None => true
  | Some options =>
    match normalizeTurnOptions options with
    | Ok n => str_eqb (nt_Digest n) (effectiveTurnOptionsDigest (sa_OptionsDigest attempt))
    | Err _ => false
    end
  end.

Definition validSend (a : sendAttempt) : bool :=
  validSubmissionDigest (sa_Digest a)
  && validSubmissionDigest (effectiveTurnOptionsDigest (sa_OptionsDigest a))
  && validSendAttemptState a && optionsAgree a.

Definition validDeletion (d : queueDeletionAttempt) : bool :=
  negb (is_empty (qd_ClientUserMessageID d)) && validSubmissionDigest (qd_Digest d).

Record ledger_wf (l : Ledger) : Prop := {
  wf_queue t id d : queueAt t id l = Some d → t ≠ "" ∧ id ≠ "" ∧ validSubmissionDigest d = true;
  wf_send t id a : sendAt t id l = Some a → t ≠ "" ∧ id ≠ "" ∧ validSend a = true
                   ∧ sa_OptionsDigest a ≠ zeroTurnOptionsDigest;
  wf_deletion t id d : deletionAt t id l = Some d → t ≠ "" ∧ id ≠ "" ∧ validDeletion d = true;
  wf_operation d t : operations l !! d = Some t → isAbs d = true ∧ t ≠ "" }.
