(* ===== verification/LedgerFacts.v ===== *)
(** * Properties of the submission ledger

    Rollback, well-formedness, the life cycle of a message identity, and at
    most one admission to the wire, over every operation of [Ledger.v]. *)
From S2P Require Import Prelude GoStd GoValue TurnOptions Ledger.
From Stdlib Require Import String.
Open Scope Z_scope.

(** ** The operations that change the ledger, as commands *)

Inductive ledgerOp :=
| OpRecordQueue (t id text : string)
| OpClearQueue (t id : string)
| OpRecordSend (t id text context : string) (steered : bool) (options : TurnOptions)
               (receipt : option SendReceipt)
| OpClaim (t id claim text action optionsDigest : string) (steered : bool)
| OpMarkAccepted (t id : string) (receipt : SendReceipt)
| OpRestore (db : bool) (t id claim : string)
| OpDiscard (t text id context optionsDigest : string)
| OpAcknowledge (t : string) (acks : list SendAcknowledgement) (digests proven : gmap string string)
| OpRecordDeletion (t : string) (target : QueueEntry)
| OpClearDeletion (t qid id : string)
| OpRecordOperation (directory t : string)
| OpClearConversation (t directory : string)
| OpClearRetired (t : string)
| OpCompact (prefix : string).

Definition ignore {A} (p : plan A) : plan unit :=
  match p with
  | PFail e => PFail e | PDone _ => PDone tt | PWrite next undo _ => PWrite next undo tt
  end.

Definition runOp (op : ledgerOp) (l : Ledger) : plan unit :=
  match op with
  | OpRecordQueue t id text => recordQueueAttempt t id text l
  | OpClearQueue t id => clearQueueAttempt t id l
  | OpRecordSend t id text context steered options receipt =>
      recordSendAttemptWithReceipt t id text context steered options receipt l
  | OpClaim t id claim text action digest steered =>
      ignore (claimSendSubmissionExact t id claim text action digest steered l)
  | OpMarkAccepted t id receipt => markSendAccepted t id receipt l
  | OpRestore db t id claim => restoreRejectedSendClaim db t id claim l
  | OpDiscard t text id context digest => ignore (DiscardPreparedSend t text id context digest l)
  | OpAcknowledge t acks digests proven => ignore (acknowledgeProven t acks digests proven l)
  | OpRecordDeletion t target => ignore (recordQueueDeletionAttempt t target l)
  | OpClearDeletion t qid id => clearQueueDeletionAndAttempt t qid id l
  | OpRecordOperation directory t => RecordThreadOperationAttempt directory t l
  | OpClearConversation t directory => ClearConversationAttempts t directory l
  | OpClearRetired t => ClearRetiredThreadAttempts t l
  | OpCompact prefix => CompactAcceptedSendOptions prefix l
  end.

(** ** Reading one entry of an updated ledger *)

Lemma sendAt_withSends t id f l : sendAt t id (withSends f l) = look2 t id (f (sendAttempts l)).
Proof. done. Qed.
Lemma queueAt_withQueue t id f l : queueAt t id (withQueue f l) = look2 t id (f (queueAttempts l)).
Proof. done. Qed.
Lemma deletionAt_withDeletions t id f l :
  deletionAt t id (withDeletions f l) = look2 t id (f (queueDeletions l)).
Proof. done. Qed.

Lemma look2_compactAll prefix m t id :
  look2 t id (compactAll prefix m) = compactOne prefix <$> look2 t id m.
Proof.
  unfold look2, compactAll. rewrite lookup_fmap. destruct (m !! t) as [inner|]; simpl; [|done].
  by rewrite lookup_fmap.
Qed.
#[export] Hint Rewrite look2_compactAll : codex.

(** Unfold one operation at a concrete outcome and split on its decisions. *)
Ltac open_plan H :=
  repeat (cases_in H; try discriminate); simplify_eq/=.

Ltac unfold_ledger :=
  unfold sendAt, queueAt, deletionAt, withSends, withQueue, withDeletions, withOperations in *; simpl in *.

(** ** Rollback *)

Lemma undo_put_new {V} t id (v : V) m t' id' :
  look2 t id m = None →
  look2 t' id' (prune t (del2 t id (put2 t id v m))) = look2 t' id' m.
Proof.
  intros H. autorewrite with codex. destruct (decide _) as [[-> ->]|]; [done|]. done.
Qed.

Lemma undo_put_old {V} t id (v old : V) m t' id' :
  look2 t id m = Some old → look2 t' id' (put2 t id old (put2 t id v m)) = look2 t' id' m.
Proof.
  intros H. autorewrite with codex. destruct (decide _) as [[-> ->]|]; done.
Qed.

Lemma undo_del {V} t id (old : V) m t' id' :
  look2 t id m = Some old → look2 t' id' (put2 t id old (prune t (del2 t id m))) = look2 t' id' m.
Proof.
  intros H. autorewrite with codex. destruct (decide _) as [[-> ->]|]; done.
Qed.

Lemma undo_inner_Some {V} t inner (m : nested V) t' id' :
  m !! t = Some inner → look2 t' id' (<[t := inner]> (delete t m)) = look2 t' id' m.
Proof. intros E. by rewrite insert_delete_eq, insert_id. Qed.

Lemma undo_inner_None {V} t (m : nested V) t' id' :
  m !! t = None → look2 t' id' (delete t m) = look2 t' id' m.
Proof. intros E. by rewrite delete_id. Qed.

Lemma undo_inner {V} t (m : nested V) t' id' :
  look2 t' id' (restoreInner t (m !! t) (delete t m)) = look2 t' id' m.
Proof.
  destruct (m !! t) eqn:E; simpl; [by apply undo_inner_Some|by apply undo_inner_None].
Qed.

Lemma undo_operation_Some (d v : string) (m : gmap string string) :
  m !! d = Some v → <[d := v]> (delete d m) = m.
Proof. intros E. by rewrite insert_delete_eq, insert_id. Qed.

Lemma undo_operation_None (d : string) (m : gmap string string) :
  m !! d = None → delete d m = m.
Proof. apply delete_id. Qed.

Lemma undo_operation_new (d v : string) (m : gmap string string) :
  m !! d = None → delete d (<[d := v]> m) = m.
Proof. apply delete_insert_id. Qed.

Create HintDb undo.
#[export] Hint Resolve undo_put_new undo_put_old undo_del undo_inner undo_inner_Some undo_inner_None
  undo_operation_Some undo_operation_None undo_operation_new : undo.

(** What [acknowledgeRemove] deletes and remembers. *)
Lemma acknowledgeRemove_spec t proven digests l removed next all :
  NoDup proven.*1 →
  acknowledgeRemove t proven digests l removed = Ok (next, all) →
  ∃ more, all = removed ++ more ∧
    (∀ id a, (id, a) ∈ more → sendAt t id l = Some a ∧ id ∈ proven.*1) ∧
    (∀ t' id', sendAt t' id' next = sendAt t' id' l ∨
               sendAt t' id' next = None ∧ t' = t ∧ ∃ a, (id', a) ∈ more) ∧
    queueAttempts next = queueAttempts l ∧ queueDeletions next = queueDeletions l ∧
    operations next = operations l.
Proof.
  revert l removed. induction proven as [|[id turn] proven IH]; intros l removed Hnd H; simpl in *.
  { simplify_eq. exists []. rewrite app_nil_r. split_and!; auto.
    by intros ? ? ?%not_elem_of_nil. }
  apply NoDup_cons in Hnd as [Hni Hnd].
  destruct (sendAt t id l) as [a|] eqn:Ea; cycle 1.
  { destruct (IH _ _ Hnd H) as (more & -> & Hm & Hs & Hrest). exists more.
    split_and!; try apply Hrest; auto. intros i x Hx. destruct (Hm i x Hx). split; [done|by right]. }
  repeat (cases_in H; try discriminate).
  destruct (IH _ _ Hnd H) as (more & -> & Hm & Hs & Hrest).
  exists ((id, a) :: more). rewrite <-app_assoc. simpl.
  assert (∀ i x, (i, x) ∈ more → sendAt t i l = Some x ∧ i ∈ proven.*1) as Hm'.
  { intros i x Hin. destruct (Hm i x Hin) as [Hx Hp]. split; [|done].
    rewrite sendAt_withSends, look2_del2 in Hx. destruct (decide _); [done|]. exact Hx. }
  split_and!; try apply Hrest; [done| |].
  - intros i x [?|Hx]%elem_of_cons; [simplify_eq; split; [done|by left]|].
    destruct (Hm' i x Hx). split; [done|by right].
  - intros t' id'. destruct (Hs t' id') as [Heq|(Heq & -> & x & Hx)].
    + rewrite sendAt_withSends, look2_del2 in Heq.
      destruct (decide _) as [[-> ->]|]; [|by left].
      right. repeat split; [done|]. exists a. by left.
    + right. repeat split; [done|]. exists x. by right.
Qed.

Lemma acknowledgeProven_undoes t acks digests proven :
  undoes (acknowledgeProven t acks digests proven).
Proof.
  intros l next undo a H. unfold acknowledgeProven in H. open_plan H.
  destruct (acknowledgeRemove_spec _ _ _ _ _ _ _ (NoDup_fst_map_to_list _) Heqr)
    as (more & Hall & Hm & Hs & Hq & Hd & Ho).
  simpl in Hall. subst more. unfold_ledger.
  split; [|split; [|split]]; simpl; [by rewrite Hq| |by rewrite Hd|done].
  intros t' id'. rewrite <-(look2_prune t).
  match goal with |- context [putAll ?saved ?m] =>
    destruct (look2_putAll (sendAttempts l) saved m t' id') as [E|[E Hn]] end.
  - intros t0 id0 v0 (x & Hx & Hin)%list_elem_of_fmap. destruct x. simplify_eq.
    by destruct (Hm _ _ Hin).
  - by rewrite look2_prune.
  - rewrite look2_prune, E, look2_prune.
    destruct (Hs t' id') as [?|(_ & -> & x & Hx)]; [done|].
    exfalso. eapply Hn. apply list_elem_of_fmap. exists (id', x). done.
Qed.

Lemma compact_saved prefix (m : nested sendAttempt) t id a :
  (t, id, a) ∈ ('(threadID, inner) ← map_to_list m;
     '(clientID, a) ← map_to_list (filter (fun '(_, a) => compactable prefix a = true) inner);
     [(threadID, clientID, a)]) ↔ look2 t id m = Some a ∧ compactable prefix a = true.
Proof.
  rewrite list_elem_of_bind. split.
  - intros ([t0 inner] & Hin & Hm). apply list_elem_of_bind in Hin as ([id0 a0] & Hin & Hf).
    apply list_elem_of_singleton in Hin. simplify_eq.
    apply elem_of_map_to_list, map_lookup_filter_Some in Hf as [Hf Hc].
    apply elem_of_map_to_list in Hm. split; [|done]. apply look2_Some. eauto.
  - intros [(inner & Hm & Hi)%look2_Some Hc]. exists (t, inner). split.
    + apply list_elem_of_bind. exists (id, a). split; [by apply list_elem_of_singleton|].
      apply elem_of_map_to_list, map_lookup_filter_Some. done.
    + by apply elem_of_map_to_list.
Qed.

Lemma compact_undoes prefix : undoes (CompactAcceptedSendOptions prefix).
Proof.
  intros l next undo a H. unfold CompactAcceptedSendOptions in H. open_plan H.
  split; [done|]. split; [|done]. intros t id. simpl. unfold restoreOptions.
  match goal with |- context [putAll ?saved ?m] =>
    destruct (look2_putAll (sendAttempts l) saved m t id) as [E|[E Hn]] end.
  - intros t0 id0 v0 Hin. by apply compact_saved in Hin as [? _].
  - done.
  - rewrite E, look2_compactAll. destruct (look2 t id (sendAttempts l)) as [v|] eqn:Ev; [|done].
    simpl. unfold compactOne. destruct (compactable prefix v) eqn:Ec; [|done].
    exfalso. eapply Hn. apply compact_saved. done.
Qed.

Lemma clearDeletion_undoes t qid id : undoes (clearQueueDeletionAndAttempt t qid id).
Proof.
  intros l next undo a H. unfold clearQueueDeletionAndAttempt in H.
  destruct (match deletionAt t qid l with Some _ => _ | None => _ end); [done|]. simplify_eq/=.
  unfold restoreDeletion. split; [|split; [|split]].
  - intros t' id'. destruct (queueAt t id l) as [d|] eqn:E; repeat cases; simpl; unfold_ledger;
      autorewrite with codex; destruct (decide _) as [[-> ->]|]; congruence.
  - intros t' id'. destruct (sendAt t id l) as [s|] eqn:E, (queueAt t id l) as [d|] eqn:E2;
      repeat cases; simplify_eq/=; unfold_ledger; autorewrite with codex;
      try destruct (decide _) as [[-> ->]|]; congruence.
  - intros t' id'. destruct (deletionAt t qid l) as [d|] eqn:E; repeat cases; simpl; unfold_ledger;
      autorewrite with codex; destruct (decide _) as [[-> ->]|]; congruence.
  - by repeat cases.
Qed.

Lemma operation_absent l d :
  ledger_wf l → is_empty (default "" (operations l !! d)) = true → operations l !! d = None.
Proof.
  intros Hwf H. apply is_empty_true in H. destruct (operations l !! d) as [v|] eqn:E; [|done].
  simpl in H. subst. by destruct (wf_operation _ Hwf _ _ E).
Qed.

(** The decisions of every operation that is a plain case analysis. *)
Ltac open_op H :=
  unfold ignore, recordQueueAttempt, clearQueueAttempt, recordSendAttemptWithReceipt,
    claimSendSubmissionExact, claimSendSubmissionIf, markSendAccepted, restoreRejectedSendClaim,
    DiscardPreparedSend, recordQueueDeletionAttempt, RecordThreadOperationAttempt,
    ClearConversationAttempts, ClearRetiredThreadAttempts in H; open_plan H.

(** Every operation's in-memory rollback restores the ledger it read. *)
Lemma runOp_undo op l next undo a :
  ledger_wf l → runOp op l = PWrite next undo a → undo next ≡ l.
Proof.
  intros Hwf H. destruct op; simpl in H;
    try (eapply clearDeletion_undoes; eassumption); try (eapply compact_undoes; eassumption).
  8: { unfold ignore in H. cases_in H; simplify_eq/=. by eapply acknowledgeProven_undoes. }
  all: open_op H; bools.
  all: split; [|split; [|split]]; intros; simpl; eauto with undo.
  apply undo_operation_new, operation_absent; [done|]. by apply is_empty_true.
Qed.

(** ** Well-formedness *)

(** What the callers of an operation guarantee about its arguments. *)
Definition opWellFormed (op : ledgerOp) : Prop :=
  match op with
  | OpRecordQueue t id _ => t ≠ "" ∧ id ≠ ""
  | OpRecordSend t id _ _ _ _ _ => t ≠ "" ∧ id ≠ ""
  | OpRecordDeletion t target => t ≠ "" ∧ qe_ID target ≠ "" ∧ qe_ClientUserMessageID target ≠ ""
  | OpRecordOperation directory t => isAbs directory = true ∧ t ≠ ""
  | _ => True
  end.

(** A ledger all of whose entries come from a well-formed one, or are new and
    valid, is well-formed. *)
Lemma newSend_valid options n text context steered :
  normalizeTurnOptions options = Ok n →
  validSend (newSend (queueTextDigest text) context (nt_Digest n) steered options) = true ∧
  sa_OptionsDigest (newSend (queueTextDigest text) context (nt_Digest n) steered options)
    ≠ zeroTurnOptionsDigest.
Proof.
  intros Hn. pose proof (normalized_digest_valid _ _ Hn) as Hv.
  assert (nt_Digest n ≠ "") as Hne by by apply valid_digest_nonempty.
  split.
  - unfold validSend, validSendAttemptState, optionsAgree. simpl.
    rewrite valid_queueTextDigest, effective_persisted, Hv by done. simpl.
    destruct (str_eqb (nt_Digest n) zeroTurnOptionsDigest); [done|].
    unfold cloneTurnOptions. rewrite Hn. apply str_eqb_refl.
  - simpl. unfold persistedTurnOptionsDigest.
    destruct (str_eqb (nt_Digest n) zeroTurnOptionsDigest) eqn:E; bools; [|done].
    apply not_eq_sym, zero_digest_nonempty.
Qed.

Lemma validSend_state a state claim :
  validSend a = true → sa_State a ∈ ["prepared"; "submitting"] →
  state ∈ ["prepared"; "submitting"] → validSend (setState state claim a) = true.
Proof.
  unfold validSend, validSendAttemptState, optionsAgree. simpl. intros H Ha Hs. bools.
  rewrite H, H2. simpl.
  assert (str_eqb (sa_State a) "prepared" || str_eqb (sa_State a) "submitting" = true) as E
    by (rewrite !elem_of_cons in Ha; destruct Ha as [->|[->|?%not_elem_of_nil]]; done).
  assert (str_eqb state "prepared" || str_eqb state "submitting" = true) as E'
    by (rewrite !elem_of_cons in Hs; destruct Hs as [->|[->|?%not_elem_of_nil]]; done).
  rewrite E in H1. by rewrite E', H1.
Qed.

Lemma validSend_accepted a turn :
  validSend a = true → turn ≠ "" → validSend (setAccepted turn a) = true.
Proof.
  unfold validSend, validSendAttemptState, optionsAgree. simpl. intros H Ht. bools.
  rewrite H, H2. simpl. by rewrite (proj2 (is_empty_false turn) Ht).
Qed.

Lemma validSend_compact prefix a : validSend a = true → validSend (compactOne prefix a) = true.
Proof.
  unfold compactOne. destruct (compactable prefix a); [|done].
  unfold validSend, validSendAttemptState, optionsAgree. simpl. intros H. bools.
  by rewrite H, H1, H2.
Qed.

(** ** The life cycle of one message identity

    [sendChange op l t id before after] says how a committed operation [op] on
    ledger [l] may change the send attempt of thread [t] and message [id]. *)
Inductive sendChange (op : ledgerOp) (l : Ledger) (t id : string)
  : option sendAttempt → option sendAttempt → Prop :=
| SC_same o : sendChange op l t id o o
| SC_prepare text context steered options n :
    op = OpRecordSend t id text context steered options None →
    normalizeTurnOptions options = Ok n →
    sendChange op l t id None
      (Some (newSend (queueTextDigest text) context (nt_Digest n) steered options))
| SC_history text context steered options n r o :
    op = OpRecordSend t id text context steered options (Some r) →
    normalizeTurnOptions options = Ok n → sr_TurnID r ≠ "" →
    (∀ e, o = Some e → sa_State e ≠ "accepted" ∧ sa_Steered e = steered ∧
                       sameAction e text context (nt_Digest n) = true) →
    sendChange op l t id o
      (Some (setAccepted (sr_TurnID r)
               (newSend (queueTextDigest text) context (nt_Digest n) steered options)))
| SC_claim claim text action digest steered a :
    op = OpClaim t id claim text action digest steered →
    sa_State a = "prepared" → isQueued t id l = false →
    exactMatch text action digest steered a = true →
    sendChange op l t id (Some a) (Some (setState "submitting" claim a))
| SC_accept r a :
    op = OpMarkAccepted t id r → sa_State a = "submitting" → sr_TurnID r ≠ "" →
    sr_Steered r = sa_Steered a →
    sendChange op l t id (Some a) (Some (setAccepted (sr_TurnID r) a))
| SC_restore db claim a :
    op = OpRestore db t id claim → sa_State a = "submitting" →
    sendChange op l t id (Some a) (Some (setState "prepared" "" a))
| SC_compact prefix a :
    op = OpCompact prefix → sendChange op l t id (Some a) (Some (compactOne prefix a))
| SC_discard a :
    sa_State a = "prepared" → sendChange op l t id (Some a) None
| SC_acknowledge acks digests proven a :
    op = OpAcknowledge t acks digests proven → is_Some (proven !! id) →
    sendChange op l t id (Some a) None
| SC_clear a :
    op = OpClearRetired t ∨ (∃ d, op = OpClearConversation t d) →
    sendChange op l t id (Some a) None.

Ltac two_keys t' id' t id :=
  autorewrite with codex;
  destruct (decide (t' = t ∧ id' = id)) as [[-> ->]|]; [|apply SC_same].

Lemma acknowledge_change t acks digests proven l next undo a t' id' :
  acknowledgeProven t acks digests proven l = PWrite next undo a →
  sendChange (OpAcknowledge t acks digests proven) l t' id' (sendAt t' id' l) (sendAt t' id' next).
Proof.
  unfold acknowledgeProven. intros H. open_plan H.
  destruct (acknowledgeRemove_spec _ _ _ _ _ _ _ (NoDup_fst_map_to_list _) Heqr)
    as (more & Hall & Hm & Hs & Hrest).
  rewrite sendAt_withSends, look2_prune.
  destruct (Hs t' id') as [E|(E & -> & x & Hx)]; unfold sendAt in E at 1; rewrite E; [apply SC_same|].
  destruct (Hm _ _ Hx) as [Ex Hp]. rewrite Ex. eapply SC_acknowledge; [done|].
  apply list_elem_of_fmap in Hp as ([k v] & -> & Hp). apply elem_of_map_to_list in Hp. eauto.
Qed.

Lemma acknowledge_frame t acks digests proven l next undo a :
  acknowledgeProven t acks digests proven l = PWrite next undo a →
  queueAttempts next = queueAttempts l ∧ queueDeletions next = queueDeletions l ∧
  operations next = operations l.
Proof.
  unfold acknowledgeProven. intros H. open_plan H.
  by destruct (acknowledgeRemove_spec _ _ _ _ _ _ _ (NoDup_fst_map_to_list _) Heqr)
    as (more & Hall & Hm & Hs & Hrest).
Qed.

Lemma record_change t id text context steered options receipt l next undo a t' id' :
  recordSendAttemptWithReceipt t id text context steered options receipt l = PWrite next undo a →
  sendChange (OpRecordSend t id text context steered options receipt) l t' id'
    (sendAt t' id' l) (sendAt t' id' next).
Proof.
  intros H. open_op H; bools; rewrite sendAt_withSends; two_keys t' id' t id; simplify_eq.
  all: repeat match goal with E : sendAt _ _ _ = _ |- _ => rewrite E end.
  all: try (by eapply SC_prepare).
  all: eapply SC_history; eauto; intros e He; simplify_eq; bools; split_and!; auto.
  all: by apply eqb_prop.
Qed.

Lemma delete_change {op l} t (m : nested sendAttempt) t' id' :
  m = sendAttempts l → op = OpClearRetired t ∨ (∃ d, op = OpClearConversation t d) →
  sendChange op l t' id' (look2 t' id' m) (look2 t' id' (delete t m)).
Proof.
  intros -> Hop. rewrite look2_delete. destruct (decide (t' = t)) as [->|]; [|apply SC_same].
  destruct (look2 t id' _); [|apply SC_same]. by apply SC_clear.
Qed.

(** Every committed operation moves every identity along its life cycle. *)
Lemma runOp_change op l next undo a t id :
  runOp op l = PWrite next undo a → sendChange op l t id (sendAt t id l) (sendAt t id next).
Proof.
  intros H. destruct op; simpl in H.
  1, 2, 9, 11: open_op H; apply SC_same.
  - by eapply record_change.
  - open_op H; bools. rewrite sendAt_withSends. two_keys t id t0 id0.
    rewrite Heqo. by eapply SC_claim.
  - open_op H; bools. rewrite sendAt_withSends. two_keys t id t0 id0.
    rewrite Heqo. eapply SC_accept; eauto. by apply eqb_prop.
  - open_op H; bools. rewrite sendAt_withSends. two_keys t id t0 id0.
    rewrite Heqo. by eapply SC_restore.
  - open_op H; bools. rewrite sendAt_withSends. two_keys t id t0 id0.
    rewrite Heqo. by eapply SC_discard.
  - unfold ignore in H. cases_in H; simplify_eq. by eapply acknowledge_change.
  - unfold clearQueueDeletionAndAttempt in H. open_plan H; bools; try apply SC_same;
      unfold sendAt, withSends; simpl; two_keys t id t0 id0; unfold sendAt in *;
      rewrite Heqo0; by eapply SC_discard.
  - open_op H; eapply delete_change; eauto.
  - open_op H; eapply delete_change; eauto.
  - unfold CompactAcceptedSendOptions in H. open_plan H. rewrite sendAt_withSends, look2_compactAll.
    unfold sendAt. destruct (look2 t id _); [by eapply SC_compact|apply SC_same].
Qed.

(** How a committed operation may change a queue attempt. *)
Inductive queueChange (op : ledgerOp) (l : Ledger) (t id : string)
  : option string → option string → Prop :=
| QC_same o : queueChange op l t id o o
| QC_record text :
    op = OpRecordQueue t id text →
    (∀ s, sendAt t id l = Some s →
       sa_State s = "prepared" ∧ sa_Steered s = false ∧ sa_Digest s = queueTextDigest text) →
    queueChange op l t id None (Some (queueTextDigest text))
| QC_remove d : queueChange op l t id (Some d) None.

Lemma queue_delete_change {op l} t (m : nested string) t' id' :
  queueChange op l t' id' (look2 t' id' m) (look2 t' id' (delete t m)).
Proof.
  rewrite look2_delete. destruct (decide (t' = t)) as [->|]; [|apply QC_same].
  destruct (look2 t id' m); [apply QC_remove|apply QC_same].
Qed.

Lemma queue_del2_change {op l} t id (m : nested string) t' id' :
  queueChange op l t' id' (look2 t' id' m) (look2 t' id' (prune t (del2 t id m))).
Proof.
  autorewrite with codex. destruct (decide _) as [[-> ->]|]; [|apply QC_same].
  destruct (look2 t id m); [apply QC_remove|apply QC_same].
Qed.

Lemma runOp_queueChange op l next undo a t id :
  runOp op l = PWrite next undo a → queueChange op l t id (queueAt t id l) (queueAt t id next).
Proof.
  intros H. destruct op; simpl in H.
  8: { unfold ignore in H. cases_in H; simplify_eq.
       apply acknowledge_frame in Heqp as (E & _). unfold queueAt. rewrite E. apply QC_same. }
  9: { unfold clearQueueDeletionAndAttempt in H. open_plan H; apply queue_del2_change. }
  12: { unfold CompactAcceptedSendOptions in H. open_plan H. apply QC_same. }
  1: { open_op H; bools; rewrite queueAt_withQueue, look2_put2;
       (destruct (decide (t = t0 ∧ id = id0)) as [[-> ->]|]; [|apply QC_same]);
       rewrite Heqo; (eapply QC_record; [done|]); intros ? Hs; simplify_eq; done. }
  all: open_op H; try apply QC_same; try apply queue_del2_change; try apply queue_delete_change.
Qed.

(** Deletion intents and operation markers. *)
Lemma runOp_deletions op l next undo a t id d :
  runOp op l = PWrite next undo a → deletionAt t id next = Some d →
  deletionAt t id l = Some d ∨
  ∃ target, op = OpRecordDeletion t target ∧ id = qe_ID target ∧
    d = mkDeletion (qe_ClientUserMessageID target) (queueTextDigest (qe_Text target)).
Proof.
  intros H Hd. destruct op; simpl in H.
  8: { unfold ignore in H. cases_in H; simplify_eq.
       apply acknowledge_frame in Heqp as (_ & E & _). unfold deletionAt in *. rewrite E in Hd. by left. }
  9: { unfold clearQueueDeletionAndAttempt in H. open_plan H; left; unfold_ledger;
       autorewrite with codex in Hd; by destruct (decide _). }
  12: { unfold CompactAcceptedSendOptions in H. open_plan H. by left. }
  8: { open_op H. unfold_ledger. autorewrite with codex in Hd.
       destruct (decide _) as [[-> ->]|]; [|by left]. simplify_eq. right. eauto. }
  all: open_op H; left; unfold_ledger; autorewrite with codex in Hd; try done;
    by destruct (decide _).
Qed.

Lemma runOp_operations op l next undo a d t :
  runOp op l = PWrite next undo a → operations next !! d = Some t →
  operations l !! d = Some t ∨ op = OpRecordOperation d t.
Proof.
  intros H Hd. destruct op; simpl in H.
  8: { unfold ignore in H. cases_in H; simplify_eq.
       apply acknowledge_frame in Heqp as (_ & _ & E). rewrite E in Hd. by left. }
  9: { unfold clearQueueDeletionAndAttempt in H. open_plan H; by left. }
  12: { unfold CompactAcceptedSendOptions in H. open_plan H. by left. }
  9: { open_op H. apply lookup_insert_Some in Hd as [[-> ->]|[_ ?]]; [by right|by left]. }
  all: open_op H; left; try done; by apply lookup_delete_Some in Hd as [_ ?].
Qed.

Lemma sendChange_valid op l t id o o' :
  opWellFormed op →
  (∀ a, o = Some a → t ≠ "" ∧ id ≠ "" ∧ validSend a = true ∧ sa_OptionsDigest a ≠ zeroTurnOptionsDigest) →
  sendChange op l t id o o' →
  ∀ a, o' = Some a →
    t ≠ "" ∧ id ≠ "" ∧ validSend a = true ∧ sa_OptionsDigest a ≠ zeroTurnOptionsDigest.
Proof.
  intros Hop Ho Hc a ->. inversion Hc; subst; simpl in *; auto;
    try (destruct (Ho _ eq_refl) as (? & ? & ? & ?)).
  - destruct Hop. destruct (newSend_valid options n text context steered) as [? ?]; [done|]. done.
  - destruct Hop. destruct (newSend_valid options n text context steered) as [? ?]; [done|].
    split_and!; auto. by apply validSend_accepted.
  - split_and!; auto. apply validSend_state; [done| |];
      repeat match goal with E : sa_State _ = _ |- _ => rewrite E end; set_solver.
  - split_and!; auto. by apply validSend_accepted.
  - split_and!; auto. apply validSend_state; [done| |];
      repeat match goal with E : sa_State _ = _ |- _ => rewrite E end; set_solver.
  - split_and!; auto; [by apply validSend_compact|]. unfold compactOne. by destruct (compactable _ _).
Qed.

(** Well-formed arguments keep the ledger well-formed. *)
Lemma runOp_wf op l next undo a :
  ledger_wf l → opWellFormed op → runOp op l = PWrite next undo a → ledger_wf next.
Proof.
  intros Hwf Hop H. pose proof Hwf as [Wq Ws Wd Wo]. split.
  - intros t id d Hd. pose proof (runOp_queueChange _ _ _ _ _ t id H) as Hc.
    rewrite Hd in Hc. inversion Hc as [o E1 E2|text -> _ E1 E2|]; subst.
    + eapply Wq. eauto.
    + simpl in Hop. destruct Hop. split_and!; auto with codex.
  - intros t id s Hs. eapply sendChange_valid; [done| |by eapply runOp_change|done].
    intros. by eapply Ws.
  - intros t id d Hd. destruct (runOp_deletions _ _ _ _ _ _ _ _ H Hd) as [?|(x & -> & -> & ->)].
    + by eapply Wd.
    + simpl in Hop. destruct Hop as (? & ? & ?). split_and!; auto.
      unfold validDeletion. simpl. rewrite valid_queueTextDigest, andb_true_r.
      by apply negb_true_iff, is_empty_false.
  - intros d t Ho. destruct (runOp_operations _ _ _ _ _ _ _ H Ho) as [?| ->]; [by eapply Wo|done].
Qed.

(** ** Interleaved transactions

    A transaction of any process either commits, or leaves the stored ledger as
    it was; a write error may be reported in both cases. What the next
    transaction reads back is the committed ledger, with the admission claims
    cleared when the store does not keep them ([keep = false], the JSON file). *)
Definition clearAdmission (a : sendAttempt) : sendAttempt :=
  mkSend "" (sa_Digest a) (sa_State a) (sa_Context a) (sa_OptionsDigest a) (sa_Options a)
    (sa_Steered a) (sa_TurnID a).
Definition keepAdmission (keep : bool) (a : sendAttempt) : sendAttempt :=
  if keep then a else clearAdmission a.

Definition durable (keep : bool) (l l' : Ledger) : Prop :=
  (∀ t id, queueAt t id l' = queueAt t id l) ∧
  (∀ t id, sendAt t id l' = keepAdmission keep <$> sendAt t id l) ∧
  (∀ t id, deletionAt t id l' = deletionAt t id l) ∧
  operations l' = operations l.

Inductive lstep : Ledger → ledgerOp * bool → Ledger → Prop :=
| step_commit keep op l next undo next' :
    opWellFormed op → runOp op l = PWrite next undo tt → durable keep next next' →
    lstep l (op, true) next'
| step_skip op l l' : l' ≡ l → lstep l (op, false) l'.

Inductive lsteps : Ledger → list (ledgerOp * bool) → Ledger → Prop :=
| lsteps_nil l : lsteps l [] l
| lsteps_cons l x l' tr l'' : lstep l x l' → lsteps l' tr l'' → lsteps l (x :: tr) l''.

Lemma lsteps_app l tr1 tr2 l'' :
  lsteps l (tr1 ++ tr2) l'' → ∃ l', lsteps l tr1 l' ∧ lsteps l' tr2 l''.
Proof.
  revert l. induction tr1 as [|x tr1 IH]; intros l H; simpl in *.
  - eexists. split; [constructor|done].
  - inversion H; subst. destruct (IH _ H5) as (m & ? & ?). eexists. split; [by econstructor|done].
Qed.

(** An invariant of single steps is an invariant of traces. *)
Lemma lsteps_invariant (I : Ledger → Prop) (R : ledgerOp * bool → Prop) l tr l' :
  (∀ l x l', lstep l x l' → R x → I l → I l') →
  lsteps l tr l' → Forall R tr → I l → I l'.
Proof. intros Hstep H. induction H; intros HR Hl; [done|]. inversion HR; subst. eauto. Qed.

(** The life cycle seen across one step, durability included. *)
Lemma lstep_send l x l' t id :
  lstep l x l' →
  (sendAt t id l' = sendAt t id l) ∨
  ∃ keep o, sendChange x.1 l t id (sendAt t id l) o ∧ x.2 = true ∧
    sendAt t id l' = keepAdmission keep <$> o.
Proof.
  intros H. inversion H as [keep op l0 next undo next' Hop Hrun (Hq & Hs & Hd & Ho)|]; subst.
  - right. exists keep, (sendAt t id next). rewrite Hs. split_and!; [by eapply runOp_change|done|done].
  - left. by rewrite H0.
Qed.

Definition phase (o : option sendAttempt) : string := default "" (sa_State <$> o).
Definition admitted (o : option sendAttempt) : Prop := phase o ∈ ["submitting"; "accepted"].

Definition claims (t id : string) (x : ledgerOp * bool) : Prop :=
  x.2 = true ∧ ∃ claim text action digest steered, x.1 = OpClaim t id claim text action digest steered.

(** The steps that may give an admitted identity back: a restored rejection, an
    acknowledgement proven in history, and the two explicit cleanups. *)
Definition releases (t id : string) (x : ledgerOp * bool) : Prop :=
  x.2 = true ∧
  match x.1 with
  | OpRestore _ t' id' _ => t' = t ∧ id' = id
  | OpAcknowledge t' _ _ proven => t' = t ∧ is_Some (proven !! id)
  | OpClearRetired t' => t' = t
  | OpClearConversation t' _ => t' = t
  | _ => False
  end.

Lemma phase_keep keep o : phase (keepAdmission keep <$> o) = phase o.
Proof. by destruct o, keep. Qed.

Lemma phase_compact prefix a : phase (Some (compactOne prefix a)) = phase (Some a).
Proof. unfold compactOne. by destruct (compactable prefix a). Qed.

Lemma lstep_admitted l x l' t id :
  lstep l x l' → ¬ releases t id x → admitted (sendAt t id l) → admitted (sendAt t id l').
Proof.
  intros H Hr Ha. destruct (lstep_send _ _ _ t id H) as [->|(keep & o & Hc & Hx & ->)]; [done|].
  destruct x as [op b]; simpl in *; subst b. unfold admitted in *. rewrite phase_keep.
  inversion Hc; subst;
    repeat match goal with E : _ = sendAt t id l |- _ => rewrite <-E in Ha end;
    try (rewrite phase_compact); simpl in *; auto; try set_solver.
  all: exfalso.
  - by apply Hr.
  - unfold phase in Ha. simpl in Ha.
    match goal with E : sa_State _ = "prepared" |- _ => rewrite E in Ha end.
    apply list_elem_of_In in Ha. simpl in Ha. naive_solver.
  - by apply Hr.
  - apply Hr. split; [done|]. simpl.
    by match goal with K : _ ∨ _ |- _ => destruct K as [->|[d ->]] end.
Qed.

Lemma lstep_claim l x l' t id :
  lstep l x l' → claims t id x → phase (sendAt t id l) = "prepared" ∧ admitted (sendAt t id l').
Proof.
  intros H (Hb & claim & text & action & digest & steered & Hop).
  inversion H as [keep op l0 next undo next' Hwf Hrun (Hq & Hs & Hd & Ho)|]; subst; simpl in *; [|done].
  subst op. unfold admitted. rewrite Hs, phase_keep. simpl in Hrun. open_op Hrun. bools.
  unfold phase. rewrite sendAt_withSends, look2_put2, decide_True by done. simpl.
  split; [done|set_solver].
Qed.

(** ** Theorems *)

(** C2. At most one admission: between two committed claims of the same message
    identity, some step released the identity (a rejected send was restored, an
    acknowledgement was proven in history, or the conversation was cleared),
    whatever other processes did in between. *)
Theorem at_most_one_admission l tr1 x mid y tr2 l' t id :
  lsteps l (tr1 ++ x :: mid ++ y :: tr2) l' →
  claims t id x → claims t id y → ¬ Forall (λ s, ¬ releases t id s) mid.
Proof.
  intros H Hx Hy Hmid.
  apply lsteps_app in H as (l1 & _ & H). inversion H as [|? ? l2 ? ? Hsx Htail]; subst.
  apply lsteps_app in Htail as (l3 & Hm & Htail). inversion Htail as [|? ? l4 ? ? Hsy _]; subst.
  destruct (lstep_claim _ _ _ _ _ Hsx Hx) as [_ Ha].
  destruct (lstep_claim _ _ _ _ _ Hsy Hy) as [Hp _].
  assert (admitted (sendAt t id l3)) as Ha3.
  { revert Hm Hmid Ha. apply (lsteps_invariant (fun l => admitted (sendAt t id l))).
    intros. by eapply lstep_admitted. }
  unfold admitted in Ha3. rewrite Hp in Ha3. apply list_elem_of_In in Ha3. simpl in Ha3. naive_solver.
Qed.

Definition exclusive (l : Ledger) : Prop :=
  ∀ t id a, sendAt t id l = Some a → sa_State a = "submitting" → queueAt t id l = None.

Lemma not_queued l t id : ledger_wf l → isQueued t id l = false → queueAt t id l = None.
Proof.
  intros Hwf H. unfold isQueued in H. bools. destruct (queueAt t id l) as [d|] eqn:E; [|done].
  destruct (wf_queue _ Hwf _ _ _ E) as (_ & _ & Hd). simpl in H. by subst.
Qed.

Lemma validSend_keep keep a : validSend (keepAdmission keep a) = validSend a.
Proof. by destruct keep. Qed.

Lemma durable_wf keep l l' : durable keep l l' → ledger_wf l → ledger_wf l'.
Proof.
  intros (Hq & Hs & Hd & Ho) [Wq Ws Wd Wo]. split; intros.
  - rewrite Hq in H. eauto.
  - rewrite Hs in H. apply fmap_Some in H as (b & Hb & ->).
    rewrite validSend_keep. destruct keep; by apply (Ws _ _ _ Hb).
  - rewrite Hd in H. eauto.
  - rewrite Ho in H. eauto.
Qed.

Lemma equiv_wf l l' : l' ≡ l → ledger_wf l → ledger_wf l'.
Proof.
  intros (Hq & Hs & Hd & Ho) [Wq Ws Wd Wo].
  split; intros; unfold queueAt, sendAt, deletionAt in *;
    rewrite ?Hq, ?Hs, ?Hd, ?Ho in *; eauto.
Qed.

Lemma lstep_wf l x l' : lstep l x l' → ledger_wf l → ledger_wf l'.
Proof.
  intros H Hwf. inversion H; subst.
  - eapply durable_wf; [done|]. by eapply runOp_wf.
  - by eapply equiv_wf.
Qed.

Lemma runOp_exclusive op l next undo a :
  ledger_wf l → exclusive l → runOp op l = PWrite next undo a → exclusive next.
Proof.
  intros Hwf Hex H t id s Hs Hst.
  pose proof (runOp_change _ _ _ _ _ t id H) as Hc.
  pose proof (runOp_queueChange _ _ _ _ _ t id H) as Hqc. rewrite Hs in Hc.
  inversion Hqc as [o Eo Eo'|text Hop Hall Eo Eo'|d Eo Eo']; [..|done].
  - inversion Hc as [o2 E2| | |? ? ? ? ? b _ _ Hnq| | |prefix b _ E2| | |]; simplify_eq/=; try done.
    + by eapply Hex.
    + by apply not_queued.
    + eapply Hex; [done|]. unfold compactOne in Hst. by destruct (compactable _ _).
  - inversion Hc as [o2 E2| | | | | | | | |]; simplify_eq/=.
    destruct (Hall s) as (Hp & _); [done|]. congruence.
Qed.

Lemma durable_exclusive keep l l' : durable keep l l' → exclusive l → exclusive l'.
Proof.
  intros (Hq & Hs & _) Hex t id a Ha Hst. rewrite Hq. rewrite Hs in Ha.
  apply fmap_Some in Ha as (b & Hb & ->). eapply Hex; [done|]. by destruct keep.
Qed.

Lemma equiv_exclusive l l' : l' ≡ l → exclusive l → exclusive l'.
Proof. intros E Hex t id a. rewrite E. apply Hex. Qed.

Lemma lsteps_sound l tr l' :
  lsteps l tr l' → ledger_wf l ∧ exclusive l → ledger_wf l' ∧ exclusive l'.
Proof.
  intros H. apply (lsteps_invariant (fun l => ledger_wf l ∧ exclusive l) (fun _ => True) l tr l');
    [|done|by apply Forall_true].
  clear. intros l x l' H _ [Hwf Hex]. split; [by eapply lstep_wf|]. inversion H; subst.
  - eapply durable_exclusive; [done|]. by eapply runOp_exclusive.
  - by eapply equiv_exclusive.
Qed.

Lemma empty_wf : ledger_wf emptyLedger.
Proof. split; intros ? ?; unfold queueAt, sendAt, deletionAt; simpl; rewrite ?look2_empty, ?lookup_empty; done. Qed.

Lemma empty_exclusive : exclusive emptyLedger.
Proof. intros t id a. unfold sendAt. simpl. by rewrite look2_empty. Qed.

(** C3. Exclusive delivery: however transactions interleave, the stored ledger
    stays well-formed (so it can be read back) and no message identity is ever
    handed to the wire while it is also in the native queue. *)
Theorem delivery_exclusive tr l :
  lsteps emptyLedger tr l →
  ledger_wf l ∧
  ∀ t id a, sendAt t id l = Some a → sa_State a = "submitting" → queueAt t id l = None.
Proof. intros H. apply (lsteps_sound _ _ _ H). split; [apply empty_wf|apply empty_exclusive]. Qed.

(** The identity a durable attempt is bound to. *)
Definition identity (a : sendAttempt) : string * string * string * bool :=
  (sa_Digest a, sa_Context a, effectiveTurnOptionsDigest (sa_OptionsDigest a), sa_Steered a).

Lemma identity_keep keep a : identity (keepAdmission keep a) = identity a.
Proof. by destruct keep. Qed.

Lemma sendChange_identity op l t id a a' :
  sendChange op l t id (Some a) (Some a') → identity a' = identity a.
Proof.
  intros Hc. inversion Hc as [| |text context steered options n r o Hop Hn Hr Hsame| | | |prefix b ? E| | |];
    subst; auto.
  - destruct (Hsame a eq_refl) as (_ & <- & Hact). unfold sameAction in Hact. bools.
    unfold identity. simpl. rewrite effective_persisted by
      (eapply valid_digest_nonempty, normalized_digest_valid; eassumption). congruence.
  - unfold compactOne. by destruct (compactable _ _).
Qed.

(** C4. A message identity is immutable: a committed transaction that keeps an
    attempt keeps its text digest, action context, options digest and steering;
    and an accepted attempt keeps its accepting turn until it is removed. *)
Theorem attempt_identity_immutable l x l' t id a a' :
  lstep l x l' → sendAt t id l = Some a → sendAt t id l' = Some a' →
  identity a' = identity a ∧
  (sa_State a = "accepted" → sa_State a' = "accepted" ∧ sa_TurnID a' = sa_TurnID a).
Proof.
  intros H Ha Ha'.
  destruct (lstep_send _ _ _ t id H) as [E|(keep & o & Hc & _ & E)].
  { rewrite E, Ha in Ha'. simplify_eq. auto. }
  rewrite E in Ha'. apply fmap_Some in Ha' as (b & -> & ->). rewrite Ha in Hc.
  rewrite identity_keep. split; [by eapply sendChange_identity|]. intros Hacc.
  assert (sa_State b = "accepted" ∧ sa_TurnID b = sa_TurnID a) as [? ?]; [|by destruct keep].
  inversion Hc as [| |text context steered options n r o Hop Hn Hr Hsame| | | |prefix c ? Ec| | |];
    subst; simpl in *; auto; try congruence.
  - by destruct (Hsame a eq_refl).
  - unfold compactOne. by destruct (compactable _ _).
Qed.

(** Rollback is exact: when the write of any operation fails, the in-memory
    undo code restores the ledger the transaction had read. *)
Theorem ledger_rollback_exact op l next undo a :
  ledger_wf l → runOp op l = PWrite next undo a → undo next ≡ l.
Proof. apply runOp_undo. Qed.

(** ** Concrete runs, for the witnesses *)

Fixpoint commitAll (ops : list ledgerOp) (l : Ledger) : option Ledger :=
  match ops with
  | [] => Some l
  | op :: rest => match runOp op l with PWrite next _ _ => commitAll rest next | _ => None end
  end.

Lemma durable_refl l : durable true l l.
Proof. split_and!; [done| |done..]. intros t id. simpl. by destruct (sendAt t id l). Qed.

Lemma commitAll_lsteps ops l l' :
  Forall opWellFormed ops → commitAll ops l = Some l' →
  lsteps l ((fun op => (op, true)) <$> ops) l'.
Proof.
  revert l. induction ops as [|op ops IH]; intros l Hwf H; simpl in *.
  - simplify_eq. constructor.
  - inversion Hwf; subst. destruct (runOp op l) as [| |next undo []] eqn:E; [done..|].
    eapply lsteps_cons; [|by apply IH]. by eapply step_commit; [..|apply durable_refl].
Qed.

Definition demoPrepare := OpRecordSend "thread" "message" "hello" "send" false zeroOptions None.
Definition demoClaim (claim : string) :=
  OpClaim "thread" "message" claim "hello" "send" zeroTurnOptionsDigest false.
Definition demoRestore := OpRestore true "thread" "message" "first".
Definition demoOps := [demoPrepare; demoClaim "first"; demoRestore; demoClaim "second"].
Definition demoLedger : Ledger := default emptyLedger (commitAll demoOps emptyLedger).

Lemma demo_lsteps : lsteps emptyLedger ((fun op => (op, true)) <$> demoOps) demoLedger.
Proof.
  apply commitAll_lsteps; [repeat constructor; discriminate|].
  vm_compute. reflexivity.
Qed.

Lemma at_most_one_admission_witness :
  ¬ Forall (λ s, ¬ releases "thread" "message" s) [(demoRestore, true)].
Proof.
  apply (at_most_one_admission emptyLedger [(demoPrepare, true)] (demoClaim "first", true)
           [(demoRestore, true)] (demoClaim "second", true) [] demoLedger "thread" "message").
  - exact demo_lsteps.
  - split; [reflexivity|]. do 5 eexists. reflexivity.
  - split; [reflexivity|]. do 5 eexists. reflexivity.
Defined.

Lemma delivery_exclusive_witness :
  ledger_wf demoLedger ∧ queueAt "thread" "message" demoLedger = None.
Proof.
  destruct (delivery_exclusive _ _ demo_lsteps) as [Hwf Hex]. split; [exact Hwf|].
  destruct (sendAt "thread" "message" demoLedger) as [a|] eqn:E.
  - apply (Hex _ _ a E). revert E. vm_compute. intros E. injection E as <-. reflexivity.
  - revert E. vm_compute. discriminate.
Defined.

Definition demoPrepared : Ledger := default emptyLedger (commitAll [demoPrepare] emptyLedger).
Definition demoClaimed : Ledger :=
  default emptyLedger (commitAll [demoPrepare; demoClaim "first"] emptyLedger).

Lemma commit_last op l l' :
  opWellFormed op → commitAll [op] l = Some l' → lstep l (op, true) l'.
Proof.
  simpl. intros Hop H. destruct (runOp op l) as [| |next undo []] eqn:E; [done..|].
  simplify_eq. by eapply step_commit; [..|apply durable_refl].
Qed.

Lemma attempt_identity_immutable_witness :
  ∃ a a', sendAt "thread" "message" demoPrepared = Some a ∧
          sendAt "thread" "message" demoClaimed = Some a' ∧ identity a' = identity a.
Proof.
  destruct (sendAt "thread" "message" demoPrepared) as [a|] eqn:E; [|vm_compute in E; discriminate].
  destruct (sendAt "thread" "message" demoClaimed) as [a'|] eqn:E'; [|vm_compute in E'; discriminate].
  exists a, a'. split; [reflexivity|]. split; [reflexivity|].
  refine (proj1 (attempt_identity_immutable demoPrepared (demoClaim "first", true) demoClaimed
                   "thread" "message" a a' _ E E')).
  apply commit_last; [exact I|]. vm_compute. reflexivity.
Defined.

Lemma ledger_rollback_exact_witness :
  match runOp demoPrepare emptyLedger with
  | PWrite next undo _ => undo next ≡ emptyLedger
  | _ => False
  end.
Proof.
  assert (is_Some (commitAll [demoPrepare] emptyLedger)) as Hs by (vm_compute; eauto).
  simpl in Hs. destruct (runOp demoPrepare emptyLedger) as [| |next undo a] eqn:E.
  - by destruct Hs.
  - by destruct Hs.
  - exact (ledger_rollback_exact demoPrepare emptyLedger next undo a empty_wf E).
Defined.
