(* ===== verification/Store.v ===== *)
(** * What a submission store promises

    [submissionTransaction] and [submissionAction] of
    [src/codex/submission_database.go] run a transaction on the part of the
    ledger its scope names, either against the JSON file or against the
    database. This file states the contract both stores discharge and their
    clients rely on: a transaction is atomic, answers from the stored ledger,
    and what it leaves behind is the ledger it read or the one it computed. *)
From S2P Require Import Prelude GoStd GoValue TurnOptions Ledger LedgerFacts.
From Stdlib Require Import String.
Open Scope Z_scope.

(** ** Scopes *)

(** The rows of [thread_id = ? AND attempt_id IN (...)]. *)
Definition inScope (s : submissionScope) (t id : string) : bool :=
  sc_all s || (negb (is_empty (sc_thread s)) && str_eqb t (sc_thread s)
               && (bool_decide (sc_ids s = []) || str_in id (sc_ids s))).
Definition inOperations (s : submissionScope) (d : string) : bool :=
  sc_all s || (negb (is_empty (sc_directory s)) && str_eqb d (sc_directory s)).

(** Two ledgers that a transaction on scope [s] cannot tell apart. *)
Definition agree (s : submissionScope) (l l' : Ledger) : Prop :=
  (∀ t id, inScope s t id = true → queueAt t id l = queueAt t id l') ∧
  (∀ t id, inScope s t id = true → sendAt t id l = sendAt t id l') ∧
  (∀ t id, inScope s t id = true → deletionAt t id l = deletionAt t id l') ∧
  (∀ d, inOperations s d = true → operations l !! d = operations l' !! d).

(** [next] differs from [l] only inside scope [s]. *)
Definition frame (s : submissionScope) (l next : Ledger) : Prop :=
  (∀ t id, inScope s t id = false → queueAt t id next = queueAt t id l) ∧
  (∀ t id, inScope s t id = false → sendAt t id next = sendAt t id l) ∧
  (∀ t id, inScope s t id = false → deletionAt t id next = deletionAt t id l) ∧
  (∀ d, inOperations s d = false → operations next !! d = operations l !! d).

Lemma frame_refl s l : frame s l l.
Proof. by split_and!. Qed.
Lemma agree_sym s l l' : agree s l l' → agree s l' l.
Proof. intros (Hq & Hs & Hd & Ho). split_and!; intros; symmetry; auto. Qed.
Lemma agree_trans s l l' l'' : agree s l l' → agree s l' l'' → agree s l l''.
Proof.
  intros (Hq & Hs & Hd & Ho) (Kq & Ks & Kd & Ko).
  split_and!; intros; [rewrite Hq|rewrite Hs|rewrite Hd|rewrite Ho]; auto.
Qed.
Lemma agree_equiv s l l' : l ≡ l' → agree s l l'.
Proof. intros (Hq & Hs & Hd & Ho). split_and!; intros; [apply Hq|apply Hs|apply Hd|by rewrite Ho]. Qed.
#[export] Hint Resolve frame_refl agree_equiv : codex.

(** Two ledgers that agree inside and whose outsides are framed are the same. *)
Lemma agree_frame_equiv s l n n' : agree s n n' → frame s l n → frame s l n' → n ≡ n'.
Proof.
  intros (Aq & As & Ad & Ao) (Fq & Fs & Fd & Fo) (Gq & Gs & Gd & Go).
  split_and!; try intros t id.
  - destruct (inScope s t id) eqn:E; [by apply Aq|]. etrans; [by apply Fq|]. symmetry. by apply Gq.
  - destruct (inScope s t id) eqn:E; [by apply As|]. etrans; [by apply Fs|]. symmetry. by apply Gs.
  - destruct (inScope s t id) eqn:E; [by apply Ad|]. etrans; [by apply Fd|]. symmetry. by apply Gd.
  - apply map_eq. intros d.
    destruct (inOperations s d) eqn:E; [by apply Ao|]. etrans; [by apply Fo|]. symmetry. by apply Go.
Qed.

(** ** Shape: the outer keys and the strings of a ledger *)

Definition shaped {V} (P : string → Prop) (Q : string → V → Prop) (m : nested V) : Prop :=
  ∀ t inner, m !! t = Some inner → P t ∧ ∀ id v, inner !! id = Some v → Q id v.

Section shaped.
Context {V : Type} (P : string → Prop) (Q : string → V → Prop).
Implicit Types m : nested V.

Lemma shaped_empty : shaped P Q (∅ : nested V).
Proof. intros t inner H. by rewrite lookup_empty in H. Qed.

Lemma shaped_look m t id v : shaped P Q m → look2 t id m = Some v → P t ∧ Q id v.
Proof. intros H (inner & Hi & Hv)%look2_Some. destruct (H _ _ Hi). auto. Qed.

Lemma shaped_put2 m t id v : shaped P Q m → P t → Q id v → shaped P Q (put2 t id v m).
Proof.
  unfold put2. intros H Ht Hv t' inner [[-> <-]|[Hne Hi]]%lookup_insert_Some; [|by apply H].
  split; [done|]. intros id' v' [[-> <-]|[_ Hi]]%lookup_insert_Some; [done|].
  destruct (m !! t') as [i|] eqn:E; simpl in Hi; [|by rewrite lookup_empty in Hi].
  by eapply (H _ _ E).
Qed.

Lemma shaped_del2 m t id : shaped P Q m → shaped P Q (del2 t id m).
Proof.
  intros H t' inner Hi. unfold del2 in Hi. apply lookup_alter_Some in Hi as [(-> & i & Hi & ->)|[_ Hi]];
    [|by apply H].
  destruct (H _ _ Hi) as [Ht Hq]. split; [done|].
  intros id' v [_ Hv]%lookup_delete_Some. by apply Hq.
Qed.

Lemma shaped_delete m t : shaped P Q m → shaped P Q (delete t m).
Proof. intros H t' inner [_ Hi]%lookup_delete_Some. by apply H. Qed.

Lemma shaped_prune m t : shaped P Q m → shaped P Q (prune t m).
Proof. intros H. unfold prune. case_bool_decide; [by apply shaped_delete|done]. Qed.

Lemma shaped_fmap m (f : V → V) :
  (∀ id v, Q id v → Q id (f v)) → shaped P Q m →
  shaped P Q ((fun inner : gmap string V => f <$> inner) <$> m).
Proof.
  intros Hf H t inner. rewrite lookup_fmap. intros (i & Hi & ->)%fmap_Some.
  destruct (H _ _ Hi) as [Ht Hq]. split; [done|]. intros id v.
  rewrite lookup_fmap. intros (v' & Hv & ->)%fmap_Some. eauto.
Qed.
End shaped.
#[export] Hint Resolve shaped_empty shaped_put2 shaped_del2 shaped_delete shaped_prune : codex.

(** Nonempty outer keys, and strings that JSON keeps as they are. *)
Definition threadKey (t : string) : Prop := t ≠ "" ∧ validString t = true.
Definition queueShape (id _d : string) : Prop := validString id = true.
Definition sendShape (id : string) (a : sendAttempt) : Prop :=
  validString id = true ∧ validString (sa_Context a) = true ∧ validString (sa_TurnID a) = true.
Definition deletionShape (id : string) (d : queueDeletionAttempt) : Prop :=
  validString id = true ∧ validString (qd_ClientUserMessageID d) = true.

Record ledger_shape (l : Ledger) : Prop := {
  shape_queue : shaped threadKey queueShape (queueAttempts l);
  shape_sends : shaped threadKey sendShape (sendAttempts l);
  shape_deletions : shaped threadKey deletionShape (queueDeletions l);
  shape_operations d t : operations l !! d = Some t → validString d = true ∧ validString t = true }.
#[export] Hint Resolve shape_queue shape_sends shape_deletions : codex.

(** The strings an operation brings in. *)
Definition opUnicode (op : ledgerOp) : Prop :=
  match op with
  | OpRecordQueue t id _ => validString t = true ∧ validString id = true
  | OpRecordSend t id _ context _ _ receipt =>
      validString t = true ∧ validString id = true ∧ validString context = true
      ∧ match receipt with Some r => validString (sr_TurnID r) = true | None => True end
  | OpMarkAccepted _ _ receipt => validString (sr_TurnID receipt) = true
  | OpRecordDeletion t target =>
      validString t = true ∧ validString (qe_ID target) = true
      ∧ validString (qe_ClientUserMessageID target) = true
  | OpRecordOperation directory t => validString directory = true ∧ validString t = true
  | _ => True
  end.

Lemma acknowledgeRemove_shape t proven digests l removed next all :
  acknowledgeRemove t proven digests l removed = Ok (next, all) →
  ledger_shape l → ledger_shape next.
Proof.
  revert l removed. induction proven as [|[id turn] proven IH]; intros l removed H Hl; simpl in H.
  { by simplify_eq. }
  destruct (sendAt t id l) as [a|]; [|by eapply IH].
  repeat (cases_in H; try discriminate). eapply IH; [done|].
  destruct Hl. split; simpl; auto with codex.
Qed.

Lemma shape_put_send l t id a :
  ledger_shape l → threadKey t → sendShape id a → ledger_shape (withSends (put2 t id a) l).
Proof. intros [] Ht Ha. split; simpl; auto with codex. Qed.

Lemma shape_delete_operation l d :
  ledger_shape l → ∀ d' t, delete d (operations l) !! d' = Some t →
  validString d' = true ∧ validString t = true.
Proof. intros Hl d' t [_ H]%lookup_delete_Some. by eapply shape_operations. Qed.

Lemma compact_shape l prefix :
  ledger_shape l → ledger_shape (withSends (compactAll prefix) l).
Proof.
  intros []. split; simpl; auto. apply shaped_fmap; [|done].
  intros id a Ha. unfold compactOne. by destruct (compactable prefix a).
Qed.

Lemma runOp_shape op l next undo :
  ledger_shape l → opWellFormed op → opUnicode op → runOp op l = PWrite next undo tt →
  ledger_shape next.
Proof.
  intros Hl Hop Hu H.
  assert (∀ t id a, sendAt t id l = Some a → threadKey t ∧ sendShape id a) as Hs.
  { intros t id a Ha. by eapply shaped_look, Ha; apply Hl. }
  destruct op as [t id text|t id|t id text context steered options receipt|t id claim| |
                  | | |t target| |directory t| | |prefix];
    simpl in H, Hop, Hu; unfold ignore in H.
  - unfold recordQueueAttempt in H. open_plan H;
      (destruct Hl; split; simpl; [apply shaped_put2|..]; unfold threadKey, queueShape; naive_solver).
  - unfold clearQueueAttempt in H. open_plan H. destruct Hl. split; simpl; auto with codex.
  - unfold recordSendAttemptWithReceipt in H.
    open_plan H; apply shape_put_send; unfold threadKey, sendShape; naive_solver.
  - unfold claimSendSubmissionExact, claimSendSubmissionIf in H. open_plan H.
    destruct (Hs _ _ _ Heqo). by apply shape_put_send.
  - unfold markSendAccepted in H. open_plan H.
    destruct (Hs _ _ _ Heqo) as [? (? & ? & ?)]. by apply shape_put_send.
  - unfold restoreRejectedSendClaim in H. open_plan H.
    destruct (Hs _ _ _ Heqo). by apply shape_put_send.
  - unfold DiscardPreparedSend in H. open_plan H. destruct Hl. split; simpl; auto with codex.
  - unfold acknowledgeProven in H. open_plan H.
    eapply acknowledgeRemove_shape in Heqr as []; [|done]. split; simpl; auto with codex.
  - unfold recordQueueDeletionAttempt in H. open_plan H. destruct Hl.
    split; simpl; auto. apply shaped_put2; unfold threadKey, deletionShape; naive_solver.
  - unfold clearQueueDeletionAndAttempt in H. open_plan H;
      (destruct Hl; split; simpl; auto with codex).
  - unfold RecordThreadOperationAttempt in H. open_plan H. destruct Hl. split; simpl; auto.
    intros d t' [[-> <-]|[_ ?]]%lookup_insert_Some; [done|eauto].
  - unfold ClearConversationAttempts in H. pose proof (shape_delete_operation l directory Hl).
    open_plan H; (destruct Hl; split; simpl; auto with codex).
  - unfold ClearRetiredThreadAttempts in H. open_plan H; (destruct Hl; split; simpl; auto with codex).
  - unfold CompactAcceptedSendOptions in H. open_plan H. by apply compact_shape.
Qed.

(** ** The contract *)

Lemma spec_write {A} (p : Ledger → plan A) l next undo a :
  p l = PWrite next undo a → spec p l = Ok (a, next).
Proof. unfold spec. by intros ->. Qed.

(** A ledger that can be written and read back. *)
Definition storable (l : Ledger) : Prop := ledger_wf l ∧ ledger_shape l.

(** A transaction is local to its scope: it answers alike on ledgers that agree
    there, its successors agree there, and it touches nothing else. *)
Definition localTo {A} (s : submissionScope) (p : Ledger → plan A) : Prop :=
  ∀ l l', storable l → storable l' → agree s l l' →
    match spec p l, spec p l' with
    | Err e, Err e' => e = e'
    | Ok (a, n), Ok (a', n') => a = a' ∧ agree s n n' ∧ frame s l n ∧ frame s l' n'
    | _, _ => False
    end.

Lemma localTo_writable {A} s (p : Ledger → plan A) : localTo (writable s) p ↔ localTo s p.
Proof. done. Qed.

(** A claim changes only together with the attempt it belongs to. *)
Definition claimStable (l next : Ledger) : Prop :=
  ∀ t id a b, sendAt t id l = Some b → sendAt t id next = Some a →
    clearAdmission a = clearAdmission b → a = b.

(** A transaction whose successor can be stored. *)
Definition safe {A} (p : Ledger → plan A) : Prop :=
  ∀ l next undo a, storable l → p l = PWrite next undo a → storable next ∧ claimStable l next.

(** [W] is the store's state, [E] the faults its environment may show. *)
Class SubmissionStore (W E : Type) := {
  keepsClaims : bool;
  stored : W → Ledger;
  sound : W → Prop;
  transact {A} : E → submissionScope → (Ledger → plan A) → W → res err A * W }.

(** The transaction answered [a] from the stored ledger and its successor is
    what is stored now. *)
Definition committed `{SubmissionStore W E} {A} (p : Ledger → plan A) (w w' : W) (a : A) : Prop :=
  ∃ next, spec p (stored w) = Ok (a, next) ∧ durable keepsClaims next (stored w')
          ∧ (next ≡ stored w → stored w' ≡ stored w).

Class SubmissionStoreLaws (W E : Type) `{SubmissionStore W E} := {
  sound_storable w : sound w → storable (stored w);
  transact_sound {A} e s (p : Ledger → plan A) w r w' :
    sound w → localTo s p → safe p → transact e s p w = (r, w') → sound w';
  transact_ok {A} e s (p : Ledger → plan A) w a w' :
    sound w → localTo s p → safe p → transact e s p w = (Ok a, w') → committed p w w' a;
  transact_err {A} e s (p : Ledger → plan A) w x w' :
    sound w → localTo s p → safe p → transact e s p w = (Err x, w') →
    stored w' ≡ stored w ∨ ∃ a, committed p w w' a }.
