(* ===== verification/LedgerFile.v ===== *)
(** * The submission ledger as a JSON file

    [loadQueueLedgerLockedContext], [writeQueueLedgerLocked] and
    [queueLedgerTransaction] of [src/codex/client.go] (2436-2735): the schema-3
    document, the validation of every entry, the 16 MiB bound, the migration
    from a legacy path and the replace-by-rename write with the points where it
    can fail.

    A document is kept as the struct the JSON decoder yields, a nil map being
    [None]; [dumpLedger] is what decoding an encoded ledger yields, with
    [omitempty], the unexported claim and the replacement of invalid UTF-8. *)
From S2P Require Import Prelude GoStd GoValue TurnOptions Ledger LedgerFacts Store.
From Stdlib Require Import String.
Open Scope Z_scope.

Definition queueLedgerMaxSize : Z := 16 * 1024 * 1024.

(** ** What [encoding/json] does to a Go string *)

(** Every byte that does not start a valid encoding becomes U+FFFD. *)
Fixpoint coerceBytes (l : list Z) : list Z :=
  match l with
  | [] => []
  | b0 :: r0 =>
    if b0 <? 128 then b0 :: coerceBytes r0 else
    match r0 with
    | b1 :: r1 =>
      if utf8_ok [b0; b1] then b0 :: b1 :: coerceBytes r1 else
      match r1 with
      | b2 :: r2 =>
        if utf8_ok [b0; b1; b2] then b0 :: b1 :: b2 :: coerceBytes r2 else
        match r2 with
        | b3 :: r3 =>
          if utf8_ok [b0; b1; b2; b3] then b0 :: b1 :: b2 :: b3 :: coerceBytes r3
          else [239; 191; 189] ++ coerceBytes r0
        | [] => [239; 191; 189] ++ coerceBytes r0
        end
      | [] => [239; 191; 189] ++ coerceBytes r0
      end
    | [] => [239; 191; 189]
    end
  end.

Definition coerce (s : string) : string :=
  if validString s then s else string_of (coerceBytes (bytes_of s)).

(** A map is written in the byte order of its keys; a decoder that meets a key
    twice keeps the last value. *)
Definition entryLe {V} (a b : string * V) : Prop := String.leb (fst a) (fst b) = true.
#[export] Instance entryLe_dec {V} : RelDecision (@entryLe V).
Proof. intros a b. unfold entryLe. apply _. Defined.

Definition coerceMap {V} (f : V → V) (m : gmap string V) : gmap string V :=
  list_to_map (reverse ((fun '(k, v) => (coerce k, f v)) <$> merge_sort entryLe (map_to_list m))).

Definition coerceNested {V} (f : V → V) (m : nested V) : nested V := coerceMap (coerceMap f) m.

(** The stored options are validated Unicode already. *)
Definition coerceSend (a : sendAttempt) : sendAttempt :=
  mkSend "" (coerce (sa_Digest a)) (coerce (sa_State a)) (coerce (sa_Context a))
    (coerce (sa_OptionsDigest a)) (sa_Options a) (sa_Steered a) (coerce (sa_TurnID a)).
Definition coerceDeletion (d : queueDeletionAttempt) : queueDeletionAttempt :=
  mkDeletion (coerce (qd_ClientUserMessageID d)) (coerce (qd_Digest d)).

(** ** The document *)

(** [queueAttemptLedger] as decoded: any of its maps may be nil. *)
Record rawLedger := mkRaw {
  rl_Schema : Z;
  rl_Attempts : option (gmap string (option (gmap string string)));
  rl_Sends : option (gmap string (option (gmap string sendAttempt)));
  rl_Deletions : option (gmap string (option (gmap string queueDeletionAttempt)));
  rl_Operations : option (gmap string string) }.

Inductive document :=
| Undecodable (e : err)
| Decoded (raw : rawLedger) (trailing : bool).

Record diskFile := mkFile { df_private : bool; df_size : Z; df_document : document }.

(** ** Validation *)

(** One pass of the validation loops: the first offending entry decides. *)
Fixpoint checkInner {V} (bad : string → V → bool) (e : err) (l : list (string * V)) : res err unit :=
  match l with
  | [] => Ok tt
  | (id, v) :: rest => if bad id v then Err e else checkInner bad e rest
  end.

Fixpoint checkOuter {V} (thread : err) (inner : list (string * V) → res err unit)
    (l : list (string * option (gmap string V))) : res err unit :=
  match l with
  | [] => Ok tt
  | (t, o) :: rest =>
    match o with
    | None => Err thread
    | Some m => (let? _ := guard (is_empty t) thread in
                 let? _ := inner (map_to_list m) in
                 checkOuter thread inner rest)%codex
    end
  end.

Definition badSend (id : string) (a : sendAttempt) : bool :=
  is_empty id || negb (validSubmissionDigest (sa_Digest a))
  || negb (validSubmissionDigest (effectiveTurnOptionsDigest (sa_OptionsDigest a)))
  || negb (validSendAttemptState a).

Fixpoint checkSends (l : list (string * sendAttempt)) : res err unit :=
  match l with
  | [] => Ok tt
  | (id, a) :: rest =>
    (let? _ := guard (badSend id a)
        (EMsg "queue attempt ledger contains an invalid send attempt") in
     let? _ := guard (negb (optionsAgree a))
        (EMsg "queue attempt ledger contains invalid send options") in
     checkSends rest)%codex
  end.

(** A canonical zero digest written by a pre-release client reads as absent; the
    claim is an unexported field, which no document carries. *)
Definition normalizeStored (a : sendAttempt) : sendAttempt :=
  mkSend "" (sa_Digest a) (sa_State a) (sa_Context a)
    (if str_eqb (sa_OptionsDigest a) zeroTurnOptionsDigest then "" else sa_OptionsDigest a)
    (sa_Options a) (sa_Steered a) (sa_TurnID a).

Definition installed {V} (f : V → V) (m : gmap string (option (gmap string V))) : nested V :=
  omap (fun o => (fmap f : gmap string V → gmap string V) <$> o) m.

Definition validateLedger (raw : rawLedger) : res err Ledger :=
  match rl_Attempts raw with
  | None => Err (EMsg "queue attempt ledger has an invalid schema")
  | Some attempts =>
    let sends := default ∅ (rl_Sends raw) in
    let deletions := default ∅ (rl_Deletions raw) in
    let operations := default ∅ (rl_Operations raw) in
    (let? _ := checkOuter (EMsg "queue attempt ledger contains an invalid thread")
        (checkInner (fun id digest => is_empty id || negb (validSubmissionDigest digest))
           (EMsg "queue attempt ledger contains an invalid attempt")) (map_to_list attempts) in
     let? _ := checkOuter (EMsg "queue attempt ledger contains an invalid send thread")
        checkSends (map_to_list sends) in
     let? _ := checkOuter (EMsg "queue attempt ledger contains an invalid deletion thread")
        (checkInner (fun id d => is_empty id || negb (validDeletion d))
           (EMsg "queue attempt ledger contains an invalid deletion attempt")) (map_to_list deletions) in
     let? _ := checkInner (fun key value => negb (isAbs key) || is_empty value)
        (EMsg "queue attempt ledger contains an invalid operation marker") (map_to_list operations) in
     Ok (mkLedger (installed id attempts) (installed normalizeStored sends)
           (installed id deletions) operations))%codex
  end.

Definition readDocument (d : document) : res err Ledger :=
  match d with
  | Undecodable e => Err (EWrap "decode queue attempt ledger" e)
  | Decoded raw trailing =>
    (let? _ := guard (negb (rl_Schema raw =? 3) || negb (bool_decide (is_Some (rl_Attempts raw))))
        (EMsg "queue attempt ledger has an invalid schema") in
     let? _ := guard trailing (EMsg "queue attempt ledger contains trailing JSON data") in
     validateLedger raw)%codex
  end.

Definition readFile (open : option err) (f : diskFile) : res err Ledger :=
  (let? _ := guard (negb (df_private f))
      (EMsg "queue attempt ledger must be a mode-0600 regular file") in
   let? _ := guard (queueLedgerMaxSize <? df_size f) ELedgerTooLarge in
   match open with
   | Some e => Err (EWrap "open queue attempt ledger" e)
   | None => readDocument (df_document f)
   end)%codex.

(** ** Encoding *)

Definition jsonContextEntry (e : AdditionalContextEntry) : string :=
  jsonObject [("value", jsonString (ac_Value e)); ("kind", jsonString (ac_Kind e))].

Definition jsonOptions (o : TurnOptions) : string :=
  jsonObject (omitEmpty "model" (to_Model o) ++ omitEmpty "reasoningEffort" (to_ReasoningEffort o)
    ++ (if bool_decide (to_AdditionalContext o = ∅) then []
        else [("additionalContext", jsonMap jsonContextEntry (to_AdditionalContext o))])
    ++ [("threadPolicy", jsonPolicy (to_ThreadPolicy o))]).

Definition jsonSend (a : sendAttempt) : string :=
  jsonObject ([("digest", jsonString (sa_Digest a)); ("state", jsonString (sa_State a))]
    ++ omitEmpty "context" (sa_Context a) ++ omitEmpty "optionsDigest" (sa_OptionsDigest a)
    ++ match sa_Options a with Some o => [("options", jsonOptions o)] | None => [] end
    ++ [("steered", jsonBool (sa_Steered a))] ++ omitEmpty "turnId" (sa_TurnID a)).

Definition jsonDeletion (d : queueDeletionAttempt) : string :=
  jsonObject [("clientUserMessageId", jsonString (qd_ClientUserMessageID d));
              ("digest", jsonString (qd_Digest d))].

Definition omitEmptyMap {V} (key : string) (f : V → string) (m : gmap string V)
    : list (string * string) :=
  if bool_decide (size m = 0%nat) then [] else [(key, jsonMap f m)].

(** The bytes handed to the temporary file, without the final newline. *)
Definition ledgerText (l : Ledger) : string :=
  jsonObject ([("schema", jsonInt 3); ("attempts", jsonMap (jsonMap jsonString) (queueAttempts l))]
    ++ omitEmptyMap "sends" (jsonMap jsonSend) (sendAttempts l)
    ++ omitEmptyMap "deletions" (jsonMap jsonDeletion) (queueDeletions l)
    ++ omitEmptyMap "retirements" jsonString (operations l)).

(** What decoding [ledgerText l] yields. *)
Definition omitNil {V} (m : gmap string V) : option (gmap string V) :=
  if bool_decide (size m = 0%nat) then None else Some m.

Definition dumpLedger (l : Ledger) : rawLedger :=
  mkRaw 3 (Some (Some <$> coerceNested coerce (queueAttempts l)))
    (omitNil (Some <$> coerceNested coerceSend (sendAttempts l)))
    (omitNil (Some <$> coerceNested coerceDeletion (queueDeletions l)))
    (omitNil (coerceMap coerce (operations l))).

Definition fileOf (l : Ledger) : diskFile :=
  mkFile true (len (ledgerText l) + 1) (Decoded (dumpLedger l) false).

(** ** The store: the ledger file and, when configured, the legacy one *)

Record fileStore := mkStore {
  fs_current : option diskFile;
  fs_legacy : option (option diskFile);   (** [None]: no legacy path configured *)
  fs_samePath : bool }.                   (** the legacy path equals the ledger path *)

(** Where a write can fail: before the rename nothing has changed, after it the
    new document is in place. *)
Inductive writeFault := WriteFine | WriteBefore (e : err) | WriteAfter (e : err).

(** The faults of the operating system during one transaction. *)
Record fileEnv := mkFileEnv {
  fe_closed : bool;
  fe_lock : option err;
  fe_stat : option err;
  fe_legacyStat : option err;
  fe_open : option err;
  fe_migrate : writeFault;
  fe_write : writeFault }.

Definition quiet : fileEnv := mkFileEnv false None None None None WriteFine WriteFine.

Definition writeQueueLedger (fault : writeFault) (l : Ledger) (s : fileStore)
    : res err unit * fileStore :=
  if queueLedgerMaxSize <? len (ledgerText l) + 1 then (Err ELedgerTooLarge, s) else
  let written := mkStore (Some (fileOf l)) (fs_legacy s) (fs_samePath s) in
  match fault with
  | WriteFine => (Ok tt, written)
  | WriteBefore e => (Err e, s)
  | WriteAfter e => (Err e, written)
  end.

(** The file a transaction reads, and whether it is the legacy one. *)
Definition locate (env : fileEnv) (s : fileStore) : res err (option diskFile * bool) :=
  match fe_stat env with
  | Some e => Err (EWrap "inspect queue attempt ledger" e)
  | None =>
    match fs_current s, fs_legacy s with
    | Some f, _ => Ok (Some f, false)
    | None, None => Ok (None, false)
    | None, Some legacy =>
      (let? _ := guard (fs_samePath s) (EMsg "legacy ledger must use a different path") in
       match fe_legacyStat env, legacy with
       | Some e, _ => Err e
       | None, Some f => Ok (Some f, true)
       | None, None => Ok (None, false)
       end)%codex
    end
  end.

Definition loadQueueLedger (env : fileEnv) (s : fileStore) : res err Ledger * fileStore :=
  if fe_closed env then (Err (EMsg "Codex client is closed"), s) else
  match fe_lock env with
  | Some e => (Err (EWrap "lock submission ledger" e), s)
  | None =>
    match locate env s with
    | Err e => (Err e, s)
    | Ok (None, _) => (Ok emptyLedger, s)
    | Ok (Some f, legacy) =>
      match readFile (fe_open env) f with
      | Err e => (Err e, s)
      | Ok l =>
        if negb legacy then (Ok l, s) else
        match writeQueueLedger (fe_migrate env) l s with
        | (Ok _, s') => (Ok l, s')
        | (Err e, s') => (Err e, s')
        end
      end
    end
  end.

(** [queueLedgerTransaction]: load, run the transaction on the maps, write. *)
Definition queueLedgerTransaction {A} (env : fileEnv) (p : Ledger → plan A) (s : fileStore)
    : res err A * fileStore :=
  match loadQueueLedger env s with
  | (Err e, s') => (Err e, s')
  | (Ok l, s') =>
    match p l with
    | PFail e => (Err e, s')
    | PDone a => (Ok a, s')
    | PWrite next _ a =>
      match writeQueueLedger (fe_write env) next s' with
      | (Ok _, s'') => (Ok a, s'')
      | (Err e, s'') => (Err e, s'')
      end
    end
  end.

(** The ledger a transaction that meets no fault reads. *)
Definition storedLedger (s : fileStore) : res err Ledger :=
  match locate quiet s with
  | Err e => Err e
  | Ok (None, _) => Ok emptyLedger
  | Ok (Some f, _) => readFile None f
  end.

Definition fileView (s : fileStore) : Ledger :=
  match storedLedger s with Ok l => l | Err _ => emptyLedger end.

(** ** Validation is sound *)

Lemma checkInner_ok {V} bad e (m : gmap string V) :
  checkInner bad e (map_to_list m) = Ok tt ↔ ∀ id v, m !! id = Some v → bad id v = false.
Proof.
  assert (∀ l, checkInner bad e l = Ok tt ↔ ∀ id v, (id, v) ∈ l → bad id v = false) as H.
  { induction l as [|[id v] l IH]; simpl.
    - split; [|done]. by intros _ ? ? ?%not_elem_of_nil.
    - destruct (bad id v) eqn:E.
      + split; [done|]. intros H. rewrite H in E; [done|]. by left.
      + rewrite IH. split; intros H id' v'; [|intros; apply H; by right].
        intros [Heq|Hin]%elem_of_cons; [by simplify_eq|auto]. }
  rewrite H. split; intros H' id v; [rewrite <-elem_of_map_to_list|rewrite elem_of_map_to_list];
    apply H'.
Qed.

Lemma checkSends_ok (m : gmap string sendAttempt) :
  checkSends (map_to_list m) = Ok tt ↔
  ∀ id a, m !! id = Some a → id ≠ "" ∧ validSend a = true.
Proof.
  assert (∀ id a, badSend id a = false ∧ optionsAgree a = true ↔ id ≠ "" ∧ validSend a = true) as Hb.
  { intros id a. unfold badSend, validSend. rewrite !orb_false_iff, !negb_false_iff, !andb_true_iff.
    rewrite is_empty_false. tauto. }
  assert (∀ l, checkSends l = Ok tt ↔ ∀ id a, (id, a) ∈ l → id ≠ "" ∧ validSend a = true) as H.
  { induction l as [|[id a] l IH]; simpl.
    - split; [|done]. by intros _ ? ? ?%not_elem_of_nil.
    - split.
      + intros H. unfold guard in H. destruct (badSend id a) eqn:E; [done|].
        destruct (optionsAgree a) eqn:E'; [|done]. simpl in H.
        intros id' a' [Heq|Hin]%elem_of_cons; [simplify_eq; by apply Hb|by apply IH].
      + intros H. destruct (proj2 (Hb id a) (H id a ltac:(by left))) as [-> ->]. simpl.
        apply IH. intros. apply H. by right. }
  rewrite H. split; intros H' id v; [rewrite <-elem_of_map_to_list|rewrite elem_of_map_to_list];
    apply H'.
Qed.

Lemma checkOuter_ok {V} e inner (m : gmap string (option (gmap string V))) :
  checkOuter e inner (map_to_list m) = Ok tt ↔
  ∀ t o, m !! t = Some o → t ≠ "" ∧ ∃ i, o = Some i ∧ inner (map_to_list i) = Ok tt.
Proof.
  assert (∀ l, checkOuter e inner l = Ok tt ↔
     ∀ t o, (t, o) ∈ l → t ≠ "" ∧ ∃ i, o = Some i ∧ inner (map_to_list i) = Ok tt) as H.
  { induction l as [|[t o] l IH]; simpl.
    - split; [|done]. by intros _ ? ? ?%not_elem_of_nil.
    - split.
      + intros H. destruct o as [i|]; [|done]. unfold guard in H.
        destruct (is_empty t) eqn:E; [done|]. simpl in H.
        destruct (inner (map_to_list i)) as [[]|] eqn:Ei; [|done]. simpl in H. bools.
        intros t' o' [Heq|Hin]%elem_of_cons; [simplify_eq; eauto|by apply IH].
      + intros H. destruct (H t o ltac:(by left)) as (Ht & i & -> & ->).
        apply is_empty_false in Ht. rewrite Ht. simpl. apply IH. intros. apply H. by right. }
  rewrite H. split; intros H' id v; [rewrite <-elem_of_map_to_list|rewrite elem_of_map_to_list];
    apply H'.
Qed.

Lemma look2_installed {V} (f : V → V) m t id :
  look2 t id (installed f m) =
  match m !! t with Some (Some i) => f <$> i !! id | _ => None end.
Proof.
  unfold look2, installed. rewrite lookup_omap. destruct (m !! t) as [[i|]|]; simpl; [|done..].
  by rewrite lookup_fmap.
Qed.

Lemma normalizeStored_effective a :
  effectiveTurnOptionsDigest (sa_OptionsDigest (normalizeStored a)) =
  effectiveTurnOptionsDigest (sa_OptionsDigest a).
Proof.
  unfold normalizeStored. simpl. destruct (str_eqb _ _) eqn:E; [|done]. bools.
  unfold effectiveTurnOptionsDigest at 2. rewrite E.
  pose proof zero_digest_nonempty as Hz. apply is_empty_false in Hz. by rewrite Hz.
Qed.

Lemma normalizeStored_valid a : validSend (normalizeStored a) = validSend a.
Proof.
  unfold validSend, optionsAgree. by rewrite normalizeStored_effective.
Qed.

Lemma normalizeStored_nonzero a :
  sa_OptionsDigest (normalizeStored a) ≠ zeroTurnOptionsDigest.
Proof.
  simpl. destruct (str_eqb _ _) eqn:E; bools; [|done].
  intros H. by apply zero_digest_nonempty.
Qed.

Lemma validateLedger_wf raw l : validateLedger raw = Ok l → ledger_wf l.
Proof.
  unfold validateLedger. destruct (rl_Attempts raw) as [attempts|]; [|done].
  set (sends := default ∅ (rl_Sends raw)). set (deletions := default ∅ (rl_Deletions raw)).
  intros H.
  destruct (checkOuter _ _ (map_to_list attempts)) as [[]|] eqn:Hq; [|done]. simpl in H.
  destruct (checkOuter _ _ (map_to_list sends)) as [[]|] eqn:Hs; [|done]. simpl in H.
  destruct (checkOuter _ _ (map_to_list deletions)) as [[]|] eqn:Hd; [|done]. simpl in H.
  destruct (checkInner _ _ _) as [[]|] eqn:Ho; [|done]. simplify_eq/=.
  rewrite checkOuter_ok in Hq. rewrite checkOuter_ok in Hs. rewrite checkOuter_ok in Hd.
  rewrite checkInner_ok in Ho.
  split; unfold queueAt, sendAt, deletionAt; simpl; intros t id;
    [intros v; rewrite look2_installed..|].
  - destruct (attempts !! t) as [o|] eqn:E; [|done]. destruct (Hq _ _ E) as (Ht & i & -> & Hi).
    simpl. intros (d & Hd' & ->)%fmap_Some. rewrite checkInner_ok in Hi. apply Hi in Hd'. by bools.
  - destruct (sends !! t) as [o|] eqn:E; [|done]. destruct (Hs _ _ E) as (Ht & i & -> & Hi).
    simpl. intros (a & Ha & ->)%fmap_Some. rewrite checkSends_ok in Hi. destruct (Hi _ _ Ha).
    rewrite normalizeStored_valid. auto using normalizeStored_nonzero.
  - destruct (deletions !! t) as [o|] eqn:E; [|done]. destruct (Hd _ _ E) as (Ht & i & -> & Hi).
    simpl. intros (d & Hd' & ->)%fmap_Some. rewrite checkInner_ok in Hi. apply Hi in Hd'. by bools.
  - intros Hop. apply Ho in Hop. by bools.
Qed.

(** ** Round trip *)

Lemma coerce_valid s : validString s = true → coerce s = s.
Proof. unfold coerce. by intros ->. Qed.

Lemma ascii_valid l : forallb (fun b => b <? 128) l = true → utf8_ok l = true.
Proof. induction l as [|b l IH]; simpl; [done|]. intros H. bools. apply Z.ltb_lt in H. by rewrite H, IH. Qed.

Lemma hex_ascii c : isHexDigit c = true → (byte_of c <? 128) = true.
Proof. destruct c as [[] [] [] [] [] [] [] []]; vm_compute; done. Qed.

Lemma digest_unicode d : validSubmissionDigest d = true → validString d = true.
Proof.
  unfold validSubmissionDigest, validString, bytes_of. intros H. bools. apply ascii_valid.
  induction (list_ascii_of_string d) as [|c l IH]; simpl in *; [done|]. bools.
  rewrite hex_ascii by done. simpl. auto.
Qed.

Lemma effective_unicode d :
  validSubmissionDigest (effectiveTurnOptionsDigest d) = true → validString d = true.
Proof.
  unfold effectiveTurnOptionsDigest. destruct (is_empty d) eqn:E.
  - bools. by subst.
  - apply digest_unicode.
Qed.

Lemma state_unicode a : validSendAttemptState a = true → validString (sa_State a) = true.
Proof.
  unfold validSendAttemptState. intros H. repeat (cases_in H); bools; try done.
  - apply orb_true_iff in Heqb as [Hs|Hs]; bools; by rewrite Hs.
  - by rewrite Heqb0.
Qed.

Lemma coerceMap_fmap {V} (f g : V → V) (m : gmap string V) :
  (∀ k v, m !! k = Some v → coerce k = k ∧ f v = g v) → coerceMap f m = g <$> m.
Proof.
  intros H. unfold coerceMap. apply map_eq. intros k.
  assert (∀ l : list (string * V), (∀ kv, kv ∈ l → kv ∈ map_to_list m) →
     (fun '(k, v) => (coerce k, f v)) <$> l = prod_map id g <$> l) as E.
  { induction l as [|[k' v] l IH]; intros Hl; [done|]. simpl.
    destruct (H k' v) as [-> ->]; [apply elem_of_map_to_list, Hl; by left|].
    f_equal. apply IH. intros. apply Hl. by right. }
  rewrite E by (intros kv; by rewrite merge_sort_Permutation).
  transitivity ((list_to_map (prod_map id g <$> map_to_list m) : gmap string V) !! k).
  - f_equal. apply list_to_map_proper.
    + rewrite reverse_Permutation, <-list_fmap_compose.
      change (fst ∘ prod_map id g) with (@fst string V).
      rewrite (merge_sort_Permutation entryLe (map_to_list m)). apply NoDup_fst_map_to_list.
    + rewrite reverse_Permutation. by rewrite merge_sort_Permutation.
  - rewrite list_to_map_fmap. by rewrite list_to_map_to_list.
Qed.

Lemma coerceNested_fmap {V} (f g : V → V) P Q (m : nested V) :
  shaped P Q m → (∀ t, P t → coerce t = t) → (∀ t id v, look2 t id m = Some v → coerce id = id ∧ f v = g v) →
  coerceNested f m = (fun inner : gmap string V => g <$> inner) <$> m.
Proof.
  intros Hm HP HQ. apply coerceMap_fmap. intros t inner Hi. split.
  - apply HP. by eapply Hm.
  - apply coerceMap_fmap. intros id v Hv. apply (HQ t). apply look2_Some. eauto.
Qed.

(** The ledger without its claims, which the file does not keep. *)
Definition forgetClaims (l : Ledger) : Ledger :=
  withSends (fmap (fun inner : gmap string sendAttempt => clearAdmission <$> inner)) l.

Lemma omitNil_default {V} (m : gmap string V) : default ∅ (omitNil m) = m.
Proof.
  unfold omitNil. case_bool_decide as H; [|done]. simpl. by apply map_size_empty_inv in H.
Qed.

Lemma installed_Some {V} (f : V → V) (m : nested V) :
  installed f (Some <$> m) = (fun inner : gmap string V => f <$> inner) <$> m.
Proof.
  apply map_eq. intros t. unfold installed. rewrite lookup_omap, !lookup_fmap.
  by destruct (m !! t).
Qed.

Lemma fmap_ids {V} (m : nested V) : (fun inner : gmap string V => id <$> inner) <$> m = m.
Proof.
  apply map_eq. intros t. rewrite lookup_fmap. destruct (m !! t) as [i|]; simpl; [|done].
  by rewrite map_fmap_id.
Qed.

Lemma coerceSend_valid id a :
  validSend a = true → sendShape id a → coerceSend a = clearAdmission a.
Proof.
  unfold validSend. intros Hv (_ & Hc & Ht). bools. unfold coerceSend, clearAdmission.
  by rewrite !coerce_valid by eauto using digest_unicode, effective_unicode, state_unicode.
Qed.

Lemma dumpLedger_clean l :
  storable l →
  dumpLedger l = mkRaw 3 (Some (Some <$> queueAttempts l))
    (omitNil (Some <$> sendAttempts (forgetClaims l)))
    (omitNil (Some <$> queueDeletions l)) (omitNil (operations l)).
Proof.
  intros [Hw Hl]. unfold dumpLedger. f_equal.
  - do 2 f_equal. rewrite (coerceNested_fmap coerce id threadKey queueShape), fmap_ids; [done|apply Hl| |].
    { intros t [_ Ht]. by apply coerce_valid. }
    intros t id d Hd. destruct (shaped_look _ _ _ _ _ _ (shape_queue l Hl) Hd) as [_ Hid].
    split; [by apply coerce_valid|]. apply coerce_valid, digest_unicode. by eapply wf_queue.
  - do 2 f_equal. rewrite (coerceNested_fmap coerceSend clearAdmission threadKey sendShape); [done|apply Hl| |].
    { intros t [_ Ht]. by apply coerce_valid. }
    intros t id a Ha. destruct (shaped_look _ _ _ _ _ _ (shape_sends l Hl) Ha) as [_ Hid].
    split; [by apply coerce_valid, Hid|]. eapply coerceSend_valid, Hid. by eapply wf_send.
  - do 2 f_equal. rewrite (coerceNested_fmap coerceDeletion id threadKey deletionShape), fmap_ids; [done|apply Hl| |].
    { intros t [_ Ht]. by apply coerce_valid. }
    intros t id d Hd. destruct (shaped_look _ _ _ _ _ _ (shape_deletions l Hl) Hd) as [_ [Hid Hc]].
    split; [by apply coerce_valid|]. destruct (wf_deletion l Hw _ _ _ Hd) as (_ & _ & Hv).
    unfold validDeletion in Hv. bools. destruct d. unfold coerceDeletion; simpl in *.
    by rewrite !coerce_valid by eauto using digest_unicode.
  - f_equal. rewrite (coerceMap_fmap coerce id), map_fmap_id; [done|].
    intros d t Hd. destruct (shape_operations l Hl _ _ Hd). by rewrite !coerce_valid.
Qed.

Lemma checkOuter_nested {V} e inner (m : nested V) :
  (∀ t i, m !! t = Some i → t ≠ "" ∧ inner (map_to_list i) = Ok tt) →
  checkOuter e inner (map_to_list (Some <$> m)) = Ok tt.
Proof.
  intros H. apply checkOuter_ok. intros t o. rewrite lookup_fmap.
  intros (i & Hi & ->)%fmap_Some. destruct (H _ _ Hi). eauto.
Qed.

Lemma storable_forget l : storable l → storable (forgetClaims l).
Proof.
  intros [Hw [Hq Hs Hd Ho]]. split.
  - eapply (durable_wf false); [|exact Hw]. split_and!; try done. intros t id.
    unfold sendAt, forgetClaims, look2. simpl. rewrite lookup_fmap.
    destruct (sendAttempts l !! t); simpl; [by rewrite lookup_fmap|done].
  - split; try done. apply shaped_fmap; [|done]. by intros id a Ha.
Qed.

Lemma fmap_clear_stored (m : nested sendAttempt) :
  (∀ t id a, look2 t id m = Some a → normalizeStored a = a) →
  (fun inner : gmap string sendAttempt => normalizeStored <$> inner) <$> m = m.
Proof.
  intros H. apply map_eq. intros t. rewrite lookup_fmap. destruct (m !! t) as [i|] eqn:E; simpl; [|done].
  f_equal. apply map_eq. intros id. rewrite lookup_fmap. destruct (i !! id) as [a|] eqn:Ea; simpl; [|done].
  f_equal. apply (H t id). apply look2_Some. eauto.
Qed.

Lemma normalizeStored_id a :
  sa_OptionsDigest a ≠ zeroTurnOptionsDigest → sa_admissionID a = "" → normalizeStored a = a.
Proof.
  intros Hz Ha. unfold normalizeStored. apply str_eqb_neq in Hz. rewrite Hz.
  destruct a; simpl in *; by subst.
Qed.

Definition claimless (l : Ledger) : Prop :=
  ∀ t id a, sendAt t id l = Some a → sa_admissionID a = "".

Lemma validateLedger_clean l :
  storable l → claimless l →
  validateLedger (mkRaw 3 (Some (Some <$> queueAttempts l)) (omitNil (Some <$> sendAttempts l))
    (omitNil (Some <$> queueDeletions l)) (omitNil (operations l))) = Ok l.
Proof.
  intros [Hw Hl] Hc. unfold validateLedger. cbn [rl_Attempts rl_Sends rl_Deletions rl_Operations].
  rewrite !omitNil_default, !installed_Some, !fmap_ids.
  rewrite !checkOuter_nested; cbn [res_bind].
  - rewrite (proj2 (checkInner_ok _ _ _)); cbn [res_bind].
    + rewrite fmap_clear_stored; [by destruct l|]. intros t id a Ha.
      apply normalizeStored_id; [by eapply wf_send|by eapply Hc].
    + intros d t Hd. destruct (wf_operation l Hw _ _ Hd) as [-> Ht]. by apply is_empty_false in Ht.
  - intros t i Hi. split; [by apply (shape_deletions l Hl _ _ Hi)|].
    apply checkInner_ok. intros id d Hd.
    destruct (wf_deletion l Hw t id d) as (_ & Hid & ->); [apply look2_Some; eauto|].
    apply is_empty_false in Hid. by rewrite Hid.
  - intros t i Hi. split; [by apply (shape_sends l Hl _ _ Hi)|].
    apply checkSends_ok. intros id a Ha.
    destruct (wf_send l Hw t id a) as (_ & Hid & Hv & _); [apply look2_Some; eauto|done].
  - intros t i Hi. split; [by apply (shape_queue l Hl _ _ Hi)|].
    apply checkInner_ok. intros id d Hd.
    destruct (wf_queue l Hw t id d) as (_ & Hid & ->); [apply look2_Some; eauto|].
    apply is_empty_false in Hid. by rewrite Hid.
Qed.

Lemma forgetClaims_claimless l : claimless (forgetClaims l).
Proof.
  intros t id a. unfold sendAt, forgetClaims, look2. simpl. rewrite lookup_fmap.
  destruct (sendAttempts l !! t) as [i|]; simpl; [|done]. rewrite lookup_fmap.
  by intros (b & _ & ->)%fmap_Some.
Qed.

Lemma read_fileOf l :
  storable l → len (ledgerText l) + 1 ≤ queueLedgerMaxSize →
  readFile None (fileOf l) = Ok (forgetClaims l).
Proof.
  intros Hl Hsize. unfold readFile, fileOf. cbn [df_private df_size df_document negb guard].
  unfold guard. replace (queueLedgerMaxSize <? _) with false by (symmetry; by apply Z.ltb_ge).
  cbn [res_bind readDocument]. rewrite dumpLedger_clean by done.
  apply (validateLedger_clean (forgetClaims l)); [by apply storable_forget|].
  apply forgetClaims_claimless.
Qed.

(** ** The file store discharges the contract *)

Definition fileSound (s : fileStore) : Prop :=
  ∃ l, storedLedger s = Ok l ∧ ledger_shape l.

Lemma validateLedger_claimless raw l : validateLedger raw = Ok l → claimless l.
Proof.
  unfold validateLedger. destruct (rl_Attempts raw) as [attempts|]; [|done]. intros H.
  unfold res_bind in H. repeat (cases_in H; try discriminate). simplify_eq.
  intros t id x. unfold sendAt. simpl. rewrite look2_installed.
  intros E. repeat (cases_in E; try discriminate). by apply fmap_Some in E as (b & _ & ->).
Qed.

Lemma readFile_wf open f l : readFile open f = Ok l → ledger_wf l ∧ claimless l.
Proof.
  unfold readFile, readDocument, res_bind. intros H. repeat (cases_in H; try discriminate).
  eauto using validateLedger_wf, validateLedger_claimless.
Qed.

Lemma storedLedger_wf s l : storedLedger s = Ok l → ledger_wf l ∧ claimless l.
Proof.
  unfold storedLedger. intros H. repeat (cases_in H; try discriminate).
  - by eapply readFile_wf.
  - simplify_eq. split; [apply empty_wf|]. intros t id a. unfold sendAt. simpl. by rewrite look2_empty.
Qed.

Lemma forget_claimless l : claimless l → forgetClaims l = l.
Proof.
  intros H. unfold forgetClaims, withSends. destruct l as [q s d o]; simpl in *. f_equal.
  apply map_eq. intros t. rewrite lookup_fmap. destruct (s !! t) as [i|] eqn:E; simpl; [|done].
  f_equal. apply map_eq. intros id. rewrite lookup_fmap.
  destruct (i !! id) as [a|] eqn:Ea; simpl; [|done]. f_equal.
  assert (sa_admissionID a = "") as Ha by (apply (H t id), look2_Some; eauto).
  destruct a; simpl in *; by subst.
Qed.

Lemma writeQueueLedger_stored fault l s r s' :
  storable l → writeQueueLedger fault l s = (r, s') →
  (s' = s ∧ is_ok r = false) ∨ storedLedger s' = Ok (forgetClaims l).
Proof.
  intros Hl. unfold writeQueueLedger. destruct (_ <? _) eqn:E; [intros; simplify_eq; by left|].
  bools. assert (storedLedger (mkStore (Some (fileOf l)) (fs_legacy s) (fs_samePath s))
                 = Ok (forgetClaims l)) as Hst.
  { unfold storedLedger. simpl. by apply read_fileOf. }
  destruct fault; intros; simplify_eq; auto.
Qed.

Lemma locate_quiet env s x : locate env s = Ok x → locate quiet s = Ok x.
Proof.
  unfold locate, guard, res_bind. simpl. intros H. repeat (cases_in H; try discriminate);
    simplify_eq; done.
Qed.

(** Loading never changes what is stored, the migration included. *)
Lemma loadQueueLedger_stored env s r s' l :
  storedLedger s = Ok l → ledger_shape l → loadQueueLedger env s = (r, s') →
  storedLedger s' = Ok l ∧ ∀ l', r = Ok l' → l' = l.
Proof.
  intros Hs Hl H. destruct (storedLedger_wf _ _ Hs) as [Hw Hc]. unfold loadQueueLedger in H.
  destruct (fe_closed env); [by simplify_eq|]. destruct (fe_lock env); [by simplify_eq|].
  destruct (locate env s) as [[[f|] legacy]|] eqn:E; [| |by simplify_eq].
  2: { apply locate_quiet in E. pose proof Hs as Hs'. unfold storedLedger in Hs'.
       rewrite E in Hs'. simplify_eq. split; [done|congruence]. }
  pose proof Hs as Hs'. unfold storedLedger in Hs'. rewrite (locate_quiet _ _ _ E) in Hs'.
  destruct (readFile (fe_open env) f) as [l0|] eqn:Er; [|by simplify_eq].
  assert (l0 = l) as ->.
  { unfold readFile, res_bind in Er, Hs'. repeat (cases_in Er; try discriminate). congruence. }
  destruct (negb legacy); [simplify_eq; split; [done|congruence]|].
  destruct (writeQueueLedger (fe_migrate env) l s) as [w s0] eqn:Ew.
  assert (storedLedger s0 = Ok l) as Hs0.
  { destruct (writeQueueLedger_stored _ _ _ _ _ (conj Hw Hl) Ew) as [[-> _]|H']; [done|].
    by rewrite H', forget_claimless. }
  destruct w; simplify_eq; split; auto; congruence.
Qed.

Lemma fileView_stored s l : storedLedger s = Ok l → fileView s = l.
Proof. unfold fileView. by intros ->. Qed.

Lemma forget_durable l : durable false l (forgetClaims l).
Proof.
  split_and!; try done. intros t id. unfold sendAt, forgetClaims, look2. simpl.
  rewrite lookup_fmap. destruct (sendAttempts l !! t) as [i|]; simpl; [|done]. by rewrite lookup_fmap.
Qed.

Lemma claimless_durable l : claimless l → durable false l l.
Proof. intros H. rewrite <-(forget_claimless l H) at 2. apply forget_durable. Qed.

Lemma forget_equiv l next : claimless l → next ≡ l → forgetClaims next ≡ l.
Proof.
  intros Hc E. transitivity next; [|done]. destruct (forget_durable next) as (Hq & Hs & Hd & Ho).
  split_and!; [done| |done..]. intros t id. etrans; [apply Hs|].
  destruct (sendAt t id next) as [a|] eqn:Ea; simpl; [|by symmetry].
  symmetry. etrans; [exact Ea|]. rewrite E in Ea. f_equal.
  pose proof (Hc _ _ _ Ea) as Hca. destruct a; simpl in *; by subst.
Qed.

(** The one statement every law of the contract follows from. *)
Lemma queueLedgerTransaction_spec {A} env (p : Ledger → plan A) s r s' :
  fileSound s → safe p → queueLedgerTransaction env p s = (r, s') →
  fileSound s' ∧
  ((fileView s' = fileView s ∧ is_ok r = false) ∨
   ∃ a next, spec p (fileView s) = Ok (a, next) ∧ durable false next (fileView s') ∧
     (next ≡ fileView s → fileView s' ≡ fileView s) ∧
     match r with Ok b => b = a | Err _ => True end).
Proof.
  intros (l & Hs & Hl) Hp H. destruct (storedLedger_wf _ _ Hs) as [Hw Hc].
  rewrite (fileView_stored _ _ Hs). unfold queueLedgerTransaction in H.
  destruct (loadQueueLedger env s) as [r0 s0] eqn:El.
  destruct (loadQueueLedger_stored _ _ _ _ _ Hs Hl El) as [Hs0 Hr].
  destruct r0 as [l0|e]; [rewrite (Hr l0 eq_refl) in H|]; cycle 1.
  { simplify_eq. split; [by exists l|]. left. by rewrite (fileView_stored _ _ Hs0). }
  unfold spec. destruct (p l) as [e|a|next undo a] eqn:Ep.
  - simplify_eq. split; [by exists l|]. left. by rewrite (fileView_stored _ _ Hs0).
  - simplify_eq. split; [by exists l|]. right. exists a, l. rewrite (fileView_stored _ _ Hs0).
    auto using claimless_durable.
  - destruct (writeQueueLedger (fe_write env) next s0) as [w s1] eqn:Ew.
    assert (storable next) as Hn by (eapply (Hp l); [split|]; eauto).
    assert (s' = s1) as -> by (by destruct w; simplify_eq).
    destruct (writeQueueLedger_stored _ _ _ _ _ Hn Ew) as [[-> Hbad]|Hs1].
    + destruct w; [done|]. simplify_eq. split; [by exists l|].
      left. by rewrite (fileView_stored _ _ Hs0).
    + split; [exists (forgetClaims next); split; [done|by apply storable_forget]|].
      right. exists a, next. rewrite (fileView_stored _ _ Hs1).
      split_and!; [done|apply forget_durable| |by destruct w; simplify_eq].
      intros En. by rewrite (forget_equiv _ _ Hc En).
Qed.

#[export] Instance file_store : SubmissionStore fileStore fileEnv := {|
  keepsClaims := false; stored := fileView; sound := fileSound;
  transact A env s p w := queueLedgerTransaction env p w |}.

#[export] Instance file_store_laws : SubmissionStoreLaws fileStore fileEnv.
Proof.
  split; simpl.
  - intros w (l & Hs & Hl). rewrite (fileView_stored _ _ Hs). split; [|done].
    by eapply storedLedger_wf.
  - intros A env s p w r w' Hw _ Hp H. by eapply queueLedgerTransaction_spec.
  - intros A env s p w a w' Hw _ Hp H.
    destruct (queueLedgerTransaction_spec _ _ _ _ _ Hw Hp H) as [_ [[_ Hb]|(b & next & ? & ? & ? & ->)]];
      [done|]. by exists next.
  - intros A env s p w x w' Hw _ Hp H.
    destruct (queueLedgerTransaction_spec _ _ _ _ _ Hw Hp H) as [_ [[-> _]|(b & next & ? & ? & ? & _)]];
      [by left|]. right. exists b. by exists next.
Qed.
