(* ===== verification/Locality.v ===== *)
(** * Scopes are wide enough

    Every transaction of the ledger, with the scope the code opens it with
    (the calls of [submissionTransaction] and [submissionAction] in
    [src/codex/client.go] and [src/codex/send_delivery.go]), reads and writes
    only rows of that scope, so a store may load just those rows. *)
From S2P Require Import Prelude GoStd GoValue TurnOptions Ledger LedgerFacts Store.
From Stdlib Require Import String.
Open Scope Z_scope.

(** The scope each command's transaction is opened with. *)
Definition opScope (op : ledgerOp) : submissionScope :=
  writable match op with
  | OpRecordQueue t id _ | OpClearQueue t id | OpRecordSend t id _ _ _ _ _
  | OpClaim t id _ _ _ _ _ | OpMarkAccepted t id _ | OpRestore _ t id _
  | OpDiscard t _ id _ _ => attemptScope t [id]
  | OpAcknowledge t _ _ _ => threadScope t
  | OpRecordDeletion t target => attemptScope t [qe_ID target]
  | OpClearDeletion t qid id => attemptScope t [id; qid]
  | OpRecordOperation directory _ => operationScope directory
  | OpClearConversation t directory => conversationScope t directory
  | OpClearRetired t => threadScope t
  | OpCompact _ => mkScope "" "" [] true false
  end.

(** ** Reading inside the scope *)

(** The keys a scope means to cover; an empty thread covers no stored row. *)
Definition covers (s : submissionScope) (t id : string) : Prop :=
  t = sc_thread s ∧ (sc_ids s = [] ∨ id ∈ sc_ids s).

Lemma covers_inScope s t id : covers s t id → t ≠ "" → inScope s t id = true.
Proof.
  intros [-> Hid] Ht. unfold inScope. apply is_empty_false in Ht. rewrite Ht, str_eqb_refl. simpl.
  apply orb_true_iff. right. apply orb_true_iff.
  rewrite bool_decide_eq_true, str_in_true. done.
Qed.

Section reading.
Context (s : submissionScope) (l l' : Ledger).
Hypothesis (Hl : storable l) (Hl' : storable l') (Hag : agree s l l').

Lemma covered_send t id : covers s t id → sendAt t id l = sendAt t id l'.
Proof.
  intros Hc. destruct (decide (t = "")) as [->|Ht]; [|by apply Hag, covers_inScope].
  destruct (sendAt "" id l) as [a|] eqn:E; [by destruct (wf_send l (proj1 Hl) _ _ _ E)|].
  destruct (sendAt "" id l') as [a|] eqn:E'; [by destruct (wf_send l' (proj1 Hl') _ _ _ E')|done].
Qed.

Lemma covered_queue t id : covers s t id → queueAt t id l = queueAt t id l'.
Proof.
  intros Hc. destruct (decide (t = "")) as [->|Ht]; [|by apply Hag, covers_inScope].
  destruct (queueAt "" id l) as [a|] eqn:E; [by destruct (wf_queue l (proj1 Hl) _ _ _ E)|].
  destruct (queueAt "" id l') as [a|] eqn:E'; [by destruct (wf_queue l' (proj1 Hl') _ _ _ E')|done].
Qed.

Lemma covered_deletion t id : covers s t id → deletionAt t id l = deletionAt t id l'.
Proof.
  intros Hc. destruct (decide (t = "")) as [->|Ht]; [|by apply Hag, covers_inScope].
  destruct (deletionAt "" id l) as [a|] eqn:E; [by destruct (wf_deletion l (proj1 Hl) _ _ _ E)|].
  destruct (deletionAt "" id l') as [a|] eqn:E'; [by destruct (wf_deletion l' (proj1 Hl') _ _ _ E')|done].
Qed.

Lemma covered_operation : operations l !! sc_directory s = operations l' !! sc_directory s.
Proof.
  destruct (decide (sc_directory s = "")) as [E|Hd].
  - rewrite E.
    destruct (operations l !! "") as [a|] eqn:E1; [by destruct (wf_operation l (proj1 Hl) _ _ E1)|].
    destruct (operations l' !! "") as [a|] eqn:E2; [by destruct (wf_operation l' (proj1 Hl') _ _ E2)|done].
  - apply Hag. unfold inOperations. apply is_empty_false in Hd. rewrite Hd, str_eqb_refl.
    by rewrite orb_true_r.
Qed.
End reading.

(** ** Writing inside the scope *)

Section writing.
Context (s : submissionScope).

Lemma agree_withSends f l l' :
  agree s l l' →
  (∀ t id, sendAt t id l = sendAt t id l' →
     look2 t id (f (sendAttempts l)) = look2 t id (f (sendAttempts l'))) →
  agree s (withSends f l) (withSends f l').
Proof. intros (Hq & Hs & Hd & Ho) Hf. split_and!; [done| |done..]. intros t id H. apply Hf, Hs, H. Qed.

Lemma agree_withQueue f l l' :
  agree s l l' →
  (∀ t id, queueAt t id l = queueAt t id l' →
     look2 t id (f (queueAttempts l)) = look2 t id (f (queueAttempts l'))) →
  agree s (withQueue f l) (withQueue f l').
Proof. intros (Hq & Hs & Hd & Ho) Hf. split_and!; [|done..]. intros t id H. apply Hf, Hq, H. Qed.

Lemma agree_withDeletions f l l' :
  agree s l l' →
  (∀ t id, deletionAt t id l = deletionAt t id l' →
     look2 t id (f (queueDeletions l)) = look2 t id (f (queueDeletions l'))) →
  agree s (withDeletions f l) (withDeletions f l').
Proof. intros (Hq & Hs & Hd & Ho) Hf. split_and!; [done..| |done]. intros t id H. apply Hf, Hd, H. Qed.

Lemma frame_withSends f l k :
  frame s l k →
  (∀ t id, inScope s t id = false →
     look2 t id (f (sendAttempts k)) = look2 t id (sendAttempts k)) →
  frame s l (withSends f k).
Proof.
  intros (Hq & Hs & Hd & Ho) Hf. split_and!; [done| |done..]. intros t id H.
  etrans; [by apply Hf|by apply Hs].
Qed.

Lemma frame_withQueue f l k :
  frame s l k →
  (∀ t id, inScope s t id = false →
     look2 t id (f (queueAttempts k)) = look2 t id (queueAttempts k)) →
  frame s l (withQueue f k).
Proof.
  intros (Hq & Hs & Hd & Ho) Hf. split_and!; [|done..]. intros t id H.
  etrans; [by apply Hf|by apply Hq].
Qed.

Lemma frame_withDeletions f l k :
  frame s l k →
  (∀ t id, inScope s t id = false →
     look2 t id (f (queueDeletions k)) = look2 t id (queueDeletions k)) →
  frame s l (withDeletions f k).
Proof.
  intros (Hq & Hs & Hd & Ho) Hf. split_and!; [done..| |done]. intros t id H.
  etrans; [by apply Hf|by apply Hd].
Qed.

(** Single-entry updates. *)
Lemma put_same {V} t id (v : V) m m' t' id' :
  look2 t' id' m = look2 t' id' m' → look2 t' id' (put2 t id v m) = look2 t' id' (put2 t id v m').
Proof. intros H. autorewrite with codex. by destruct (decide _). Qed.
Lemma del_same {V} t id (m m' : nested V) t' id' :
  look2 t' id' m = look2 t' id' m' → look2 t' id' (del2 t id m) = look2 t' id' (del2 t id m').
Proof. intros H. autorewrite with codex. by destruct (decide _). Qed.
Lemma prune_same {V} t (m m' : nested V) t' id' :
  look2 t' id' m = look2 t' id' m' → look2 t' id' (prune t m) = look2 t' id' (prune t m').
Proof. intros H. by autorewrite with codex. Qed.
Lemma put_outside {V} t id (v : V) m t' id' :
  inScope s t id = true → inScope s t' id' = false →
  look2 t' id' (put2 t id v m) = look2 t' id' m.
Proof. intros H H'. autorewrite with codex. rewrite decide_False; [done|]. intros [-> ->]. congruence. Qed.
Lemma del_outside {V} t id (m : nested V) t' id' :
  inScope s t id = true → inScope s t' id' = false →
  look2 t' id' (del2 t id m) = look2 t' id' m.
Proof. intros H H'. autorewrite with codex. rewrite decide_False; [done|]. intros [-> ->]. congruence. Qed.
Lemma prune_outside {V} t (m k : nested V) t' id' :
  look2 t' id' m = look2 t' id' k → look2 t' id' (prune t m) = look2 t' id' k.
Proof. intros H. by autorewrite with codex. Qed.
End writing.
#[export] Hint Resolve agree_withSends agree_withQueue agree_withDeletions frame_withSends
  frame_withQueue frame_withDeletions put_same del_same prune_same put_outside del_outside prune_outside : codex.

(** ** One transaction at a time *)

Lemma covers_attempt t id : covers (writable (attemptScope t [id])) t id.
Proof. split; [done|]. right. by left. Qed.

Lemma inScope_attempt t id : t ≠ "" → inScope (writable (attemptScope t [id])) t id = true.
Proof. apply covers_inScope, covers_attempt. Qed.

Lemma inScope_found t id l a :
  storable l → sendAt t id l = Some a → inScope (writable (attemptScope t [id])) t id = true.
Proof. intros [Hw _] Ha. apply inScope_attempt. by destruct (wf_send l Hw _ _ _ Ha). Qed.
#[export] Hint Resolve inScope_attempt inScope_found : codex.

(** Equal lookups on both sides, then the outcomes side by side. *)
Ltac same_lookups Hl Hl' Hag :=
  repeat match goal with
  | |- context [sendAt ?t ?id ?l'] =>
    match type of Hl' with storable l' =>
      rewrite <-(covered_send _ _ _ Hl Hl' Hag t id) by (split; [done|set_solver]) end
  | |- context [queueAt ?t ?id ?l'] =>
    match type of Hl' with storable l' =>
      rewrite <-(covered_queue _ _ _ Hl Hl' Hag t id) by (split; [done|set_solver]) end
  | |- context [deletionAt ?t ?id ?l'] =>
    match type of Hl' with storable l' =>
      rewrite <-(covered_deletion _ _ _ Hl Hl' Hag t id) by (split; [done|set_solver]) end
  end.

Lemma runOp_local_attempt op :
  opWellFormed op →
  match op with
  | OpRecordQueue _ _ _ | OpClearQueue _ _ | OpRecordSend _ _ _ _ _ _ _
  | OpClaim _ _ _ _ _ _ _ | OpMarkAccepted _ _ _ | OpRestore _ _ _ _
  | OpDiscard _ _ _ _ _ => True
  | _ => False end →
  localTo (opScope op) (runOp op).
Proof.
  intros Hop Hk l l' Hl Hl' Hag. destruct op; try done;
    simpl in Hop; unfold spec; cbn [runOp opScope] in *.
  - unfold recordQueueAttempt. same_lookups Hl Hl' Hag.
    destruct Hop. repeat cases; split_and?; eauto 8 with codex.
  - unfold clearQueueAttempt. same_lookups Hl Hl' Hag.
    destruct (queueAt t id l) as [d|] eqn:E; split_and?; auto with codex.
    all: assert (t ≠ "") by (by destruct (wf_queue l (proj1 Hl) _ _ _ E)); eauto 8 with codex.
  - unfold recordSendAttemptWithReceipt. same_lookups Hl Hl' Hag.
    destruct Hop. repeat cases; split_and?; eauto 8 with codex.
  - unfold claimSendSubmissionExact, claimSendSubmissionIf, ignore, isQueued.
    same_lookups Hl Hl' Hag. repeat cases; split_and?; eauto 8 with codex.
  - unfold markSendAccepted. same_lookups Hl Hl' Hag. repeat cases; split_and?; eauto 8 with codex.
  - unfold restoreRejectedSendClaim. same_lookups Hl Hl' Hag.
    repeat cases; split_and?; eauto 8 with codex.
  - unfold DiscardPreparedSend, ignore, isQueued. same_lookups Hl Hl' Hag.
    repeat cases; split_and?; eauto 8 with codex.
Qed.

(** ** Transactions over a whole thread *)

Lemma inScope_thread t d id w :
  t ≠ "" → inScope (mkScope t d [] false w) t id = true.
Proof. intros Ht. apply covers_inScope; [split; auto|done]. Qed.
#[export] Hint Resolve inScope_thread : codex.

Lemma acknowledgeRemove_local s t proven digests l l' removed :
  storable l → storable l' → agree s l l' → sc_thread s = t → sc_ids s = [] →
  match acknowledgeRemove t proven digests l removed, acknowledgeRemove t proven digests l' removed with
  | Err e, Err e' => e = e'
  | Ok (n, r), Ok (n', r') => r = r' ∧ agree s n n' ∧ frame s l n ∧ frame s l' n'
  | _, _ => False
  end.
Proof.
  intros Hl Hl' Hag Ht Hids.
  assert (∀ k k', storable k → storable k' → agree s k k' → frame s l k → frame s l' k' →
    match acknowledgeRemove t proven digests k removed, acknowledgeRemove t proven digests k' removed with
    | Err e, Err e' => e = e'
    | Ok (n, r), Ok (n', r') => r = r' ∧ agree s n n' ∧ frame s l n ∧ frame s l' n'
    | _, _ => False
    end) as H; [|by apply H; eauto with codex].
  clear Hag. revert removed. induction proven as [|[id turn] proven IH];
    intros removed k k' Hk Hk' Hag Hf Hf'; simpl; [done|].
  rewrite <-(covered_send s k k' Hk Hk' Hag t id) by (split; auto).
  destruct (sendAt t id k) as [a|] eqn:E; [|by apply IH].
  repeat (cases; [done|]).
  assert (inScope s t id = true).
  { apply covers_inScope; [split; auto|]. by destruct (wf_send k (proj1 Hk) _ _ _ E). }
  assert (∀ j, storable j → storable (withSends (del2 t id) j)) as Hst.
  { intros j [[Wq Ws Wd Wo] [Sq Ss Sd So]]. split; split; simpl; auto with codex.
    unfold sendAt. simpl. intros t' id' x. autorewrite with codex.
    destruct (decide _); [done|]. apply Ws. }
  apply IH; eauto 8 with codex.
Qed.

(** The successor of the two cleanups, whatever they found. *)
Definition cleared (t : string) (l : Ledger) : Ledger :=
  mkLedger (delete t (queueAttempts l)) (delete t (sendAttempts l)) (delete t (queueDeletions l))
    (operations l).

Lemma cleared_agree s t l l' : agree s l l' → agree s (cleared t l) (cleared t l').
Proof.
  intros (Hq & Hs & Hd & Ho). unfold queueAt, sendAt, deletionAt in *.
  split_and!; [intros t' id H..|done]; unfold queueAt, sendAt, deletionAt; simpl;
    autorewrite with codex; destruct (decide _); auto.
Qed.

Lemma cleared_frame s t l :
  storable l → sc_thread s = t → sc_ids s = [] → frame s l (cleared t l).
Proof.
  intros [[Wq Ws Wd _] _] Ht Hids.
  assert (∀ t' id, inScope s t' id = false → t' ≠ "" → t' ≠ t) as Hout.
  { intros t' id H Hne ->. rewrite covers_inScope in H; [done|split; auto|done]. }
  split_and!; try done; intros t' id H; unfold queueAt, sendAt, deletionAt in *; simpl;
    autorewrite with codex; destruct (decide (t' = t)) as [->|]; try done; symmetry;
    apply eq_None_not_Some; intros [v Hv].
  - destruct (Wq _ _ _ Hv). by eapply Hout.
  - destruct (Ws _ _ _ Hv). by eapply Hout.
  - destruct (Wd _ _ _ Hv). by eapply Hout.
Qed.

Lemma frame_proper s l n n' : n ≡ n' → frame s l n → frame s l n'.
Proof.
  intros (Eq & Es & Ed & Eo) (Fq & Fs & Fd & Fo).
  unfold queueAt, sendAt, deletionAt in *. split_and!; unfold queueAt, sendAt, deletionAt; intros.
  - rewrite <-Eq. auto.
  - rewrite <-Es. auto.
  - rewrite <-Ed. auto.
  - rewrite <-Eo. auto.
Qed.

Lemma agree_proper s n n' k k' : n ≡ k → n' ≡ k' → agree s n n' → agree s k k'.
Proof.
  intros (Eq & Es & Ed & Eo) (Fq & Fs & Fd & Fo) (Aq & As & Ad & Ao).
  unfold queueAt, sendAt, deletionAt in *. split_and!; unfold queueAt, sendAt, deletionAt; intros.
  - rewrite <-Eq, <-Fq. auto.
  - rewrite <-Es, <-Fs. auto.
  - rewrite <-Ed, <-Fd. auto.
  - rewrite <-Eo, <-Fo. auto.
Qed.

Lemma ClearRetired_spec t l :
  ∃ n, spec (ClearRetiredThreadAttempts t) l = Ok (tt, n) ∧ n ≡ cleared t l.
Proof.
  unfold spec, ClearRetiredThreadAttempts. repeat cases; eexists; split; try done.
  unfold cleared. split_and!; try done; intros; simpl; by rewrite delete_id.
Qed.

Lemma ClearConversation_spec t d l :
  match operations l !! d with Some v => negb (str_eqb v t) | None => false end = false →
  ∃ n, spec (ClearConversationAttempts t d) l = Ok (tt, n) ∧
       n ≡ withOperations (delete d) (cleared t l).
Proof.
  intros H. unfold spec, ClearConversationAttempts. rewrite H.
  destruct (queueAttempts l !! t) eqn:E1, (sendAttempts l !! t) eqn:E2,
    (queueDeletions l !! t) eqn:E3, (operations l !! d) eqn:E4;
    eexists; split; try done.
  unfold cleared, withOperations. split_and!; try done; intros; simpl; by rewrite delete_id.
Qed.

(** ** The remaining transactions *)

Lemma del_covered {V} s t id (m : nested V) t' id' :
  (∀ i, look2 "" i m = None) → covers s t id → inScope s t' id' = false →
  look2 t' id' (del2 t id m) = look2 t' id' m.
Proof.
  intros Hm Hc H. autorewrite with codex. destruct (decide _) as [[-> ->]|]; [|done].
  destruct (decide (t = "")) as [->|Ht]; [by rewrite Hm|]. by rewrite covers_inScope in H.
Qed.

Lemma storable_blank l :
  storable l → (∀ i, look2 "" i (queueAttempts l) = None) ∧
  (∀ i, look2 "" i (sendAttempts l) = None) ∧ (∀ i, look2 "" i (queueDeletions l) = None).
Proof.
  intros [[Wq Ws Wd _] _].
  split_and!; intros i; apply eq_None_not_Some; intros [v Hv].
  - by destruct (Wq _ _ _ Hv).
  - by destruct (Ws _ _ _ Hv).
  - by destruct (Wd _ _ _ Hv).
Qed.

Lemma agree_withOperations s f l l' :
  agree s l l' →
  (∀ d, operations l !! d = operations l' !! d → f (operations l) !! d = f (operations l') !! d) →
  agree s (withOperations f l) (withOperations f l').
Proof. intros (Hq & Hs & Hd & Ho) Hf. split_and!; [done..|]. intros d H. apply Hf, Ho, H. Qed.

Lemma frame_withOperations s f l k :
  frame s l k →
  (∀ d, inOperations s d = false → f (operations k) !! d = operations k !! d) →
  frame s l (withOperations f k).
Proof.
  intros (Hq & Hs & Hd & Ho) Hf. split_and!; [done..|]. intros d H.
  etrans; [by apply Hf|by apply Ho].
Qed.

Lemma inOperations_own s d :
  sc_directory s ≠ "" → inOperations s d = false → d ≠ sc_directory s.
Proof.
  unfold inOperations. intros Hd H ->. apply is_empty_false in Hd.
  by rewrite Hd, str_eqb_refl, orb_true_r in H.
Qed.

Lemma clearDeletion_local t qid id :
  localTo (writable (attemptScope t [id; qid])) (clearQueueDeletionAndAttempt t qid id).
Proof.
  intros l l' Hl Hl' Hag. unfold spec, clearQueueDeletionAndAttempt. same_lookups Hl Hl' Hag.
  assert (covers (writable (attemptScope t [id; qid])) t id) as C1 by (split; [done|set_solver]).
  assert (covers (writable (attemptScope t [id; qid])) t qid) as C2 by (split; [done|set_solver]).
  destruct (storable_blank _ Hl) as (B1 & B2 & B3), (storable_blank _ Hl') as (B1' & B2' & B3').
  match goal with |- context [if ?b then _ else _] => destruct b; [done|] end.
  match goal with |- context [match ?x with Some _ => withSends _ _ | None => _ end] =>
    destruct x end; split_and!; try done.
  all: repeat match goal with
    | |- agree _ (withSends _ _) _ => apply agree_withSends; [|intros; by apply del_same]
    | |- agree _ (withQueue _ _) _ => apply agree_withQueue; [|intros; by apply prune_same, del_same]
    | |- agree _ (withDeletions _ _) _ => apply agree_withDeletions; [|intros; by apply prune_same, del_same]
    | |- frame _ _ (withSends _ _) => apply frame_withSends; [|intros; by eapply del_covered]
    | |- frame _ _ (withQueue _ _) => apply frame_withQueue; [|intros; by eapply prune_outside, del_covered]
    | |- frame _ _ (withDeletions _ _) =>
        apply frame_withDeletions; [|intros; by eapply prune_outside, del_covered]
    end; auto with codex.
Qed.

Lemma compact_exists prefix l :
  existsb (fun inner : gmap string sendAttempt => existsb (compactable prefix) (map_to_list inner).*2)
    (map_to_list (sendAttempts l)).*2 = true ↔
  ∃ t id a, sendAt t id l = Some a ∧ compactable prefix a = true.
Proof.
  rewrite existsb_exists. split.
  - intros (inner & Hin & H). apply existsb_exists in H as (a & Ha & Hc).
    apply list_elem_of_In, list_elem_of_fmap in Hin as ([t i] & -> & Hin).
    apply list_elem_of_In, list_elem_of_fmap in Ha as ([id b] & -> & Ha).
    apply elem_of_map_to_list in Hin, Ha. exists t, id, b. split; [|done]. apply look2_Some. eauto.
  - intros (t & id & a & (inner & Hi & Ha)%look2_Some & Hc). exists inner. split.
    + apply list_elem_of_In, list_elem_of_fmap. exists (t, inner). by rewrite elem_of_map_to_list.
    + apply existsb_exists. exists a. split; [|done].
      apply list_elem_of_In, list_elem_of_fmap. exists (id, a). by rewrite elem_of_map_to_list.
Qed.

Lemma compact_local prefix : localTo (writable (mkScope "" "" [] true false)) (CompactAcceptedSendOptions prefix).
Proof.
  intros l l' Hl Hl' Hag. unfold spec, CompactAcceptedSendOptions.
  assert (∀ t id, sendAt t id l = sendAt t id l') as E by (intros; by apply Hag).
  match goal with |- context [if negb ?b then _ else _] =>
    match goal with |- context [if negb ?b' then PDone _ else PWrite (withSends _ l') _ _] =>
      assert (b = b') as -> end end.
  { apply eq_true_iff_eq. rewrite !compact_exists. setoid_rewrite E. done. }
  destruct (negb _); split_and!; auto with codex.
  - apply agree_withSends; [done|]. intros t id H. unfold sendAt in *. autorewrite with codex. by rewrite H.
  - by split_and!.
  - by split_and!.
Qed.

Lemma cleared_operations_frame s t l :
  storable l → sc_thread s = t → sc_ids s = [] →
  frame s l (withOperations (delete (sc_directory s)) (cleared t l)).
Proof.
  intros Hl Ht Hids. apply frame_withOperations; [by apply cleared_frame|]. intros d Hd. simpl.
  destruct (decide (sc_directory s = "")) as [E|Hne].
  - rewrite E, delete_id; [done|]. apply eq_None_not_Some. intros [v Hv].
    by destruct (wf_operation l (proj1 Hl) _ _ Hv).
  - by rewrite lookup_delete_ne by (symmetry; by eapply inOperations_own in Hd).
Qed.

Lemma clearConversation_local t directory :
  localTo (writable (conversationScope t directory)) (ClearConversationAttempts t directory).
Proof.
  intros l l' Hl Hl' Hag. pose proof (covered_operation _ _ _ Hl Hl' Hag) as Ho. simpl in Ho.
  pose proof (ClearConversation_spec t directory l) as Hn.
  pose proof (ClearConversation_spec t directory l') as Hn'. rewrite <-Ho in Hn'.
  destruct (match operations l !! directory with Some v => negb (str_eqb v t) | None => false end) eqn:E.
  { unfold spec, ClearConversationAttempts. by rewrite <-Ho, E. }
  destruct (Hn eq_refl) as (n & -> & En), (Hn' eq_refl) as (n' & -> & En'). split; [done|].
  split_and!.
  - eapply agree_proper; [by symmetry..|]. apply agree_withOperations; [by apply cleared_agree|].
    intros d Hd. simpl in *. destruct (decide (d = directory)) as [->|];
      [by rewrite !lookup_delete_eq|by rewrite !lookup_delete_ne].
  - eapply frame_proper; [by symmetry|]. by apply (cleared_operations_frame (writable (conversationScope t directory))).
  - eapply frame_proper; [by symmetry|]. by apply (cleared_operations_frame (writable (conversationScope t directory))).
Qed.

Lemma runOp_local op : opWellFormed op → localTo (opScope op) (runOp op).
Proof.
  intros Hop. destruct op as [| | | | | | |t acks digests proven|t target|t qid id|directory t
    |t directory|t|prefix]; try (by apply runOp_local_attempt);
    [| |by apply clearDeletion_local| |by apply clearConversation_local| |by apply compact_local];
    intros l l' Hl Hl' Hag; simpl in Hop; unfold spec; cbn [runOp opScope] in *.
  - unfold acknowledgeProven, ignore.
    pose proof (acknowledgeRemove_local _ t (map_to_list proven) digests l l' [] Hl Hl' Hag
                  eq_refl eq_refl) as H.
    destruct (acknowledgeRemove _ _ _ l _) as [[n r]|], (acknowledgeRemove _ _ _ l' _) as [[n' r']|];
      try done. destruct H as (<- & Ha & Hf & Hf').
    case_bool_decide; split_and?; eauto 8 with codex.
  - unfold recordQueueDeletionAttempt, ignore. same_lookups Hl Hl' Hag.
    destruct Hop as (Ht & _). repeat cases; split_and?; eauto 8 with codex.
  - unfold RecordThreadOperationAttempt.
    pose proof (covered_operation _ _ _ Hl Hl' Hag) as Ho. simpl in Ho. rewrite <-Ho.
    assert (directory ≠ "") by (by destruct Hop as [? _]; intros ->).
    repeat cases; split_and?; auto with codex;
      [apply agree_withOperations|apply frame_withOperations..]; auto with codex; intros d Hd.
    + destruct (decide (d = directory)) as [->|]; by simplify_map_eq.
    + by rewrite lookup_insert_ne by (symmetry; by eapply inOperations_own in Hd).
    + by rewrite lookup_insert_ne by (symmetry; by eapply inOperations_own in Hd).
  - destruct (ClearRetired_spec t l) as (n & Hn & En), (ClearRetired_spec t l') as (n' & Hn' & En').
    unfold spec in Hn, Hn'. rewrite Hn, Hn'. split; [done|].
    split_and!; [by eapply agree_proper, cleared_agree|eapply frame_proper; [done|by apply cleared_frame]..].
Qed.

(** ** Histories of a store *)

(** The commands an application may issue: identities are nonempty and every
    string is Unicode. *)
Definition opStorable (op : ledgerOp) : Prop := opWellFormed op ∧ opUnicode op.

Lemma runOp_claimStable op l next undo a : runOp op l = PWrite next undo a → claimStable l next.
Proof.
  intros H t id x y Hy Hx E. pose proof (runOp_change _ _ _ _ _ t id H) as Hc.
  rewrite Hx, Hy in Hc. unfold clearAdmission in E.
  inversion Hc as [| |? ? ? ? ? r o _ _ _ Hsame| | | |prefix| | |]; subst; try done;
    simplify_eq/=; try congruence.
  - destruct (Hsame y eq_refl) as [Hne _]. congruence.
  - unfold compactOne in *. destruct (compactable prefix y) eqn:Ec; [|done].
    unfold compactable in Ec. bools. simplify_eq/=. destruct (sa_Options y); [done|by destruct H1].
Qed.

Lemma runOp_safe op : opStorable op → safe (runOp op).
Proof.
  intros [Hw Hu] l next undo [] [Hl Hs] H.
  split_and!; [split; [by eapply runOp_wf|by eapply runOp_shape]|by eapply runOp_claimStable].
Qed.

Section histories.
Context `{SubmissionStoreLaws W E}.

Definition storeOp (w : W) (x : E * ledgerOp) : W :=
  snd (transact (fst x) (opScope (snd x)) (runOp (snd x)) w).
Definition storeRun (w : W) (xs : list (E * ledgerOp)) : W := foldl storeOp w xs.

Lemma storeOp_lstep w x :
  sound w → opStorable (snd x) →
  sound (storeOp w x) ∧ ∃ b, lstep (stored w) (snd x, b) (stored (storeOp w x)).
Proof.
  intros Hw Hop. destruct x as [e op]. unfold storeOp. simpl in *.
  destruct (transact e (opScope op) (runOp op) w) as [r w'] eqn:Et. simpl.
  pose proof (runOp_local op (proj1 Hop)) as Hloc. pose proof (runOp_safe op Hop) as Hsafe.
  split; [by eapply transact_sound|].
  assert (∀ a, committed (runOp op) w w' a → ∃ b, lstep (stored w) (op, b) (stored w')) as Hc.
  { intros [] (next & Hs & Hd & Heq). unfold spec in Hs.
    destruct (runOp op (stored w)) as [|[]|n undo []] eqn:Er; simplify_eq.
    - exists false. apply step_skip. by apply Heq.
    - exists true. eapply step_commit; [apply Hop|done|done]. }
  destruct r as [a|x].
  - by eapply Hc, transact_ok.
  - destruct (transact_err _ _ _ _ _ _ Hw Hloc Hsafe Et) as [Heq|[a Ha]]; [|by eapply Hc].
    exists false. by apply step_skip.
Qed.

Lemma storeRun_lsteps w xs :
  sound w → Forall (fun x => opStorable (snd x)) xs →
  sound (storeRun w xs) ∧
  ∃ tr, tr.*1 = xs.*2 ∧ lsteps (stored w) tr (stored (storeRun w xs)).
Proof.
  revert w. induction xs as [|x xs IH]; intros w Hw Hx; simpl.
  - split; [done|]. exists []. split; [done|constructor].
  - inversion Hx as [|? ? Hop Hrest]; subst. destruct (storeOp_lstep w x Hw Hop) as (Hw' & b & Hb).
    destruct (IH _ Hw' Hrest) as (Hs & tr & Htr & Hl). split; [done|].
    exists ((snd x, b) :: tr). split; [by simpl; f_equal|]. by eapply lsteps_cons.
Qed.
End histories.
