(* ===== verification/SubmissionDb.v ===== *)
(** * The submission ledger as database rows

    [src/codex/submission_database.go]: one row per attempt in the table
    [submission_records], transactions that load only the rows of their scope,
    rebuild the maps from them, and write back the difference inside one SQL
    transaction.

    A payload is kept as the value its JSON text decodes to. *)
From S2P Require Import Prelude GoStd GoValue TurnOptions Ledger LedgerFacts Store LedgerFile.
From Stdlib Require Import String.
Open Scope Z_scope.

(** ** Rows *)

Inductive payload :=
| PayString (s : string)
| PaySend (a : sendAttempt)
| PayDeletion (d : queueDeletionAttempt)
| PayInvalid (e : err).

#[export] Instance payload_eq_string_dec : ∀ (a b : payload), Decision (a = b ∧ ∀ e, a ≠ PayInvalid e).
Proof.
  intros [s|a|d|e] [s'|a'|d'|e'];
    try (right; naive_solver); [destruct (decide (s = s')) as [->|]|destruct (decide (a = a')) as [->|]
    |destruct (decide (d = d')) as [->|]]; (left; naive_solver) || (right; naive_solver).
Defined.

(** [bytes.Equal] of two encodings of the same kind of value. *)
Definition samePayload (a b : payload) : bool := bool_decide (a = b ∧ ∀ e, a ≠ PayInvalid e).

(** [kind], [thread_id], [attempt_id]: the primary key. *)
Abbreviation submissionKey := (string * string * string)%type.

Record submissionRow := mkRow {
  row_payload : payload; row_claim : string;
  row_state : string; row_action : string; row_hasOptions : bool }.

Abbreviation database := (gmap submissionKey submissionRow).

(** ** Reading *)

(** The WHERE clause of [readSubmissionRecordsLocked]. *)
Definition rowInScope (s : submissionScope) (k : submissionKey) : bool :=
  let '(kind, thread, id) := k in
  sc_all s
  || (negb (is_empty (sc_thread s)) && str_eqb thread (sc_thread s)
      && (bool_decide (sc_ids s = []) || str_in id (sc_ids s)))
  || (negb (is_empty (sc_directory s)) && str_eqb kind "retirements" && is_empty thread
      && str_eqb id (sc_directory s)).

Definition installSubmissionRecord (k : submissionKey) (data : payload) (l : Ledger) : res err Ledger :=
  let '(kind, thread, id) := k in
  if is_empty id then Err (EMsg "submission has no attempt identity") else
  if str_eqb kind "attempts" then
    match data with
    | PayString digest =>
      if is_empty thread || negb (validSubmissionDigest digest)
      then Err (EMsg "invalid queued submission")
      else Ok (withQueue (put2 thread id digest) l)
    | PayInvalid e => Err e
    | _ => Err (EMsg "json: cannot unmarshal object")
    end
  else if str_eqb kind "sends" then
    match data with
    | PaySend attempt =>
      if is_empty thread || negb (validSubmissionDigest (sa_Digest attempt))
         || negb (validSubmissionDigest (effectiveTurnOptionsDigest (sa_OptionsDigest attempt)))
         || negb (validSendAttemptState attempt)
      then Err (EMsg "invalid send attempt")
      else if negb (optionsAgree attempt) then Err (EMsg "invalid stored send options")
      else Ok (withSends (put2 thread id (normalizeStored attempt)) l)
    | PayInvalid e => Err e
    | _ => Err (EMsg "json: cannot unmarshal value")
    end
  else if str_eqb kind "deletions" then
    match data with
    | PayDeletion attempt =>
      if is_empty thread || negb (validDeletion attempt)
      then Err (EMsg "invalid deletion intent")
      else Ok (withDeletions (put2 thread id attempt) l)
    | PayInvalid e => Err e
    | _ => Err (EMsg "json: cannot unmarshal value")
    end
  else if str_eqb kind "retirements" then
    match data with
    | PayString target =>
      if negb (is_empty thread) || negb (isAbs id) || is_empty target
      then Err (EMsg "invalid retirement marker")
      else Ok (withOperations <[id := target]> l)
    | PayInvalid e => Err e
    | _ => Err (EMsg "json: cannot unmarshal object")
    end
  else Err (EMsg "unknown submission record kind").

Definition setAdmission (claim : string) (a : sendAttempt) : sendAttempt :=
  mkSend claim (sa_Digest a) (sa_State a) (sa_Context a) (sa_OptionsDigest a) (sa_Options a)
    (sa_Steered a) (sa_TurnID a).

(** The claim column of a send is read into the attempt. *)
Definition attachClaim (k : submissionKey) (claim : string) (l : Ledger) : Ledger :=
  let '(kind, thread, id) := k in
  if str_eqb kind "sends"
  then withSends (put2 thread id (setAdmission claim (default zeroSend (sendAt thread id l)))) l
  else l.

Fixpoint installRows (rows : list (submissionKey * submissionRow)) (l : Ledger) : res err Ledger :=
  match rows with
  | [] => Ok l
  | (k, row) :: rest =>
    (let? l := installSubmissionRecord k (row_payload row) l in
     installRows rest (attachClaim k (row_claim row) l))%codex
  end.

Definition scopeRows (s : submissionScope) (db : database) : database :=
  filter (fun '(k, _) => rowInScope s k = true) db.

Definition readSubmissionRecords (s : submissionScope) (db : database) : res err Ledger :=
  if negb (sc_all s) && is_empty (sc_thread s) && is_empty (sc_directory s)
  then Err (EMsg "submission transaction has no scope")
  else installRows (map_to_list (scopeRows s db)) emptyLedger.

(** ** Writing *)

Definition keyed {V} (kind : string) (f : V → payload) (m : nested V)
    : list (submissionKey * payload) :=
  '(thread, entries) ← map_to_list m;
  (fun '(id, v) => ((kind, thread, id), f v)) <$> map_to_list entries.

(** [submissionRecords]: what encoding the maps yields, one payload per key. *)
Definition submissionRecords (l : Ledger) : gmap submissionKey payload :=
  list_to_map (keyed "attempts" (fun d => PayString (coerce d)) (queueAttempts l)
    ++ keyed "sends" (fun a => PaySend (coerceSend a)) (sendAttempts l)
    ++ keyed "deletions" (fun d => PayDeletion (coerceDeletion d)) (queueDeletions l)
    ++ ((fun '(directory, thread) => (("retirements", "", directory), PayString (coerce thread)))
          <$> map_to_list (operations l))).

(** [writeSubmissionRecord]: the derived columns come from the payload. *)
Definition rowOf (k : submissionKey) (data : payload) (claim : string) : submissionRow :=
  match data with
  | PaySend a => mkRow data claim (sa_State a) (sa_Context a) (bool_decide (is_Some (sa_Options a)))
  | _ => mkRow data claim "" "" false
  end.

Definition claimFor (k : submissionKey) (l : Ledger) : string :=
  let '(_, thread, id) := k in
  match sendAt thread id l with Some a => sa_admissionID a | None => "" end.

(** [writeSubmissionRecordsLocked]: delete the loaded rows that are gone, insert
    or replace those whose encoding changed. *)
Definition writeSubmissionRecords (before : database) (l : Ledger) (db : database) : database :=
  let records := submissionRecords l in
  let kept := filter (fun '(k, _) => is_Some (records !! k) ∨ before !! k = None) db in
  map_imap (fun k data => Some
    match before !! k, kept !! k with
    | Some row, Some present => if samePayload (row_payload row) data then present
                                else rowOf k data (claimFor k l)
    | _, _ => rowOf k data (claimFor k l)
    end) records ∪ kept.

(** ** Transactions *)

(** The faults of one transaction; a COMMIT may fail before or after taking effect. *)
Inductive commitFault := CommitFine | CommitLost (e : err) | CommitUnreported (e : err).
Record dbEnv := mkDbEnv {
  de_closed : bool; de_begin : option err; de_read : option err; de_write : option err;
  de_commit : commitFault }.

Definition submissionTransaction {A} (env : dbEnv) (s : submissionScope) (p : Ledger → plan A)
    (db : database) : res err A * database :=
  if de_closed env then (Err (EMsg "Codex client is closed"), db) else
  let commit (a : A) (db' : database) : res err A * database :=
    match de_commit env with
    | CommitFine => (Ok a, db')
    | CommitLost e => (Err e, db)
    | CommitUnreported e => (Err e, db')
    end in
  match de_begin env, de_read env with
  | Some e, _ | None, Some e => (Err e, db)
  | None, None =>
    match readSubmissionRecords s db with
    | Err e => (Err e, db)
    | Ok l =>
      match p l with
      | PFail e => (Err e, db)
      | PDone a => commit a db
      | PWrite next _ a =>
        match de_write env with
        | Some e => (Err e, db)
        | None => commit a (writeSubmissionRecords (scopeRows s db) next db)
        end
      end
    end
  end.

Definition everything : submissionScope := mkScope "" "" [] true false.

Definition dbView (db : database) : Ledger :=
  match readSubmissionRecords everything db with Ok l => l | Err _ => emptyLedger end.

(** ** The entries a database denotes *)

Definition payString (p : payload) : option string :=
  match p with PayString s => Some s | _ => None end.
Definition paySend (claim : string) (p : payload) : option sendAttempt :=
  match p with PaySend a => Some (setAdmission claim (normalizeStored a)) | _ => None end.
Definition payDeletion (p : payload) : option queueDeletionAttempt :=
  match p with PayDeletion d => Some d | _ => None end.

(** [l] holds exactly the entries of [db], over what [l0] held before. *)
Record denotes (db : database) (l0 l : Ledger) : Prop := {
  den_queue t id : queueAt t id l =
    match db !! ("attempts", t, id) with
    | Some row => payString (row_payload row) | None => queueAt t id l0 end;
  den_send t id : sendAt t id l =
    match db !! ("sends", t, id) with
    | Some row => paySend (row_claim row) (row_payload row) | None => sendAt t id l0 end;
  den_deletion t id : deletionAt t id l =
    match db !! ("deletions", t, id) with
    | Some row => payDeletion (row_payload row) | None => deletionAt t id l0 end;
  den_operation d : operations l !! d =
    match db !! ("retirements", "", d) with
    | Some row => payString (row_payload row) | None => operations l0 !! d end }.

Definition validRow (k : submissionKey) (row : submissionRow) : bool :=
  is_ok (installSubmissionRecord k (row_payload row) emptyLedger).

Lemma install_ok k data l l' :
  is_ok (installSubmissionRecord k data l) = is_ok (installSubmissionRecord k data l').
Proof. destruct k as [[kind t] id]. unfold installSubmissionRecord. repeat cases; done. Qed.

Lemma install_denotes k row l l1 :
  installSubmissionRecord k (row_payload row) l = Ok l1 →
  denotes {[k := row]} l (attachClaim k (row_claim row) l1).
Proof.
  destruct k as [[kind t] id]. unfold installSubmissionRecord, attachClaim. intros H.
  repeat (cases_in H; try discriminate); bools; simplify_eq/=;
    split; intros; unfold queueAt, sendAt, deletionAt; simpl;
    rewrite ?lookup_singleton, ?lookup_insert; autorewrite with codex; repeat case_decide;
    simplify_eq/=; try done; try naive_solver;
    match goal with E : row_payload row = _ |- _ => by rewrite E end.
Qed.

Lemma denotes_cons k row rest l l1 l2 :
  k ∉ rest.*1 → denotes {[k := row]} l l1 → denotes (list_to_map rest) l1 l2 →
  denotes (list_to_map ((k, row) :: rest)) l l2.
Proof.
  intros Hk [Q1 S1 D1 O1] [Q2 S2 D2 O2].
  pose proof (not_elem_of_list_to_map_1 (M := gmap submissionKey) rest k Hk) as Hn.
  split; intros; simpl.
  - rewrite Q2, Q1, lookup_insert, lookup_singleton. case_decide as E; [by rewrite <-E, Hn|done].
  - rewrite S2, S1, lookup_insert, lookup_singleton. case_decide as E; [by rewrite <-E, Hn|done].
  - rewrite D2, D1, lookup_insert, lookup_singleton. case_decide as E; [by rewrite <-E, Hn|done].
  - rewrite O2, O1, lookup_insert, lookup_singleton. case_decide as E; [by rewrite <-E, Hn|done].
Qed.

Lemma installRows_denotes rows l0 l :
  NoDup rows.*1 → installRows rows l0 = Ok l →
  Forall (fun '(k, row) => validRow k row = true) rows ∧ denotes (list_to_map rows) l0 l.
Proof.
  revert l0. induction rows as [|[k row] rows IH]; intros l0 Hnd H; simpl in *.
  - simplify_eq. split; [constructor|]. split; intros; by rewrite lookup_empty.
  - apply NoDup_cons in Hnd as [Hk Hnd].
    destruct (installSubmissionRecord k (row_payload row) l0) as [l1|] eqn:E; [|done]. simpl in H.
    destruct (IH _ Hnd H) as [Hv Hd]. split.
    + constructor; [|done]. unfold validRow. by rewrite (install_ok k _ _ l0), E.
    + eapply denotes_cons; [done|by apply install_denotes|done].
Qed.

Lemma installRows_total rows l0 :
  Forall (fun '(k, row) => validRow k row = true) rows → ∃ l, installRows rows l0 = Ok l.
Proof.
  revert l0. induction rows as [|[k row] rows IH]; intros l0 H; simpl; [by eexists|].
  inversion H as [|? ? Hv Hr]; subst. unfold validRow in Hv. rewrite (install_ok k _ _ l0) in Hv.
  destruct (installSubmissionRecord k (row_payload row) l0); [|done]. simpl. by apply IH.
Qed.

Definition rowsValid (db : database) : Prop := ∀ k row, db !! k = Some row → validRow k row = true.

Lemma rowsValid_list db :
  rowsValid db ↔ Forall (fun '(k, row) => validRow k row = true) (map_to_list db).
Proof.
  rewrite Forall_forall. split.
  - intros H [k row] Hin. apply H. by apply elem_of_map_to_list.
  - intros H k row Hk. apply (H (k, row)). by apply elem_of_map_to_list.
Qed.

(** Reading a scope: it fails only on a bad row, and denotes the rows in scope. *)
Lemma readSubmissionRecords_denotes s db l :
  readSubmissionRecords s db = Ok l → denotes (scopeRows s db) emptyLedger l.
Proof.
  unfold readSubmissionRecords. destruct (_ && _); [done|]. intros H.
  apply installRows_denotes in H as [_ H]; [|apply NoDup_fst_map_to_list].
  by rewrite list_to_map_to_list in H.
Qed.

Lemma scopeRows_everything db : scopeRows everything db = db.
Proof. apply map_filter_id. intros [[kind t] id] row _. done. Qed.

Lemma read_everything db :
  rowsValid db ↔ ∃ l, readSubmissionRecords everything db = Ok l.
Proof.
  unfold readSubmissionRecords. simpl. rewrite scopeRows_everything, rowsValid_list. split.
  - apply installRows_total.
  - intros [l H]. by apply installRows_denotes in H as [H _]; [|apply NoDup_fst_map_to_list].
Qed.

(** ** What is written *)

(** The payload a ledger entry is encoded to. *)
Inductive entry (l : Ledger) : submissionKey → payload → Prop :=
| entry_queue t id d : queueAt t id l = Some d → entry l ("attempts", t, id) (PayString (coerce d))
| entry_send t id a : sendAt t id l = Some a → entry l ("sends", t, id) (PaySend (coerceSend a))
| entry_deletion t id d :
    deletionAt t id l = Some d → entry l ("deletions", t, id) (PayDeletion (coerceDeletion d))
| entry_operation d t :
    operations l !! d = Some t → entry l ("retirements", "", d) (PayString (coerce t)).

Lemma entry_unique l k p q : entry l k p → entry l k q → p = q.
Proof. intros H H'. inversion H; subst; inversion H'; subst; congruence. Qed.

Lemma elem_of_keyed {V} kind (f : V → payload) m k p :
  (k, p) ∈ keyed kind f m ↔ ∃ t id v, k = (kind, t, id) ∧ p = f v ∧ look2 t id m = Some v.
Proof.
  unfold keyed. rewrite list_elem_of_bind. split.
  - intros ([t i] & Hin & Hm). apply list_elem_of_fmap in Hin as ([id v] & E & Hv). simplify_eq.
    apply elem_of_map_to_list in Hm, Hv. exists t, id, v. split_and!; try done. apply look2_Some. eauto.
  - intros (t & id & v & -> & -> & (i & Hi & Hv)%look2_Some). exists (t, i). split.
    + apply list_elem_of_fmap. exists (id, v). by rewrite elem_of_map_to_list.
    + by apply elem_of_map_to_list.
Qed.

Lemma submissionRecords_lookup l k p : submissionRecords l !! k = Some p ↔ entry l k p.
Proof.
  assert (∀ k p, (k, p) ∈ (keyed "attempts" (fun d => PayString (coerce d)) (queueAttempts l)
    ++ keyed "sends" (fun a => PaySend (coerceSend a)) (sendAttempts l)
    ++ keyed "deletions" (fun d => PayDeletion (coerceDeletion d)) (queueDeletions l)
    ++ ((fun '(directory, thread) => (("retirements", "", directory), PayString (coerce thread)))
          <$> map_to_list (operations l))) ↔ entry l k p) as H.
  { intros k' p'. rewrite !elem_of_app, !elem_of_keyed, list_elem_of_fmap. split.
    - intros [(t & id & v & -> & -> & ?)|[(t & id & v & -> & -> & ?)
        |[(t & id & v & -> & -> & ?)|([d t] & E & Hd)]]]; [by constructor..|].
      apply elem_of_map_to_list in Hd. simplify_eq. by constructor.
    - intros []; [left|right; left|right; right; left|right; right; right]; [eauto 7..|].
      exists (d, t). by rewrite elem_of_map_to_list. }
  unfold submissionRecords. split.
  - intros Hp. apply H. by apply elem_of_list_to_map_2.
  - intros Hp. apply elem_of_list_to_map_1'; [|by apply H].
    intros q Hq. apply H in Hq. by eapply entry_unique.
Qed.

Lemma records_None l k : (∀ p, ¬ entry l k p) → submissionRecords l !! k = None.
Proof. intros H. apply eq_None_not_Some. intros [p Hp%submissionRecords_lookup]. by eapply H. Qed.

(** A key after a write of [l], all of whose entries are in scope. *)
Lemma write_lookup s l db k :
  (∀ p, entry l k p → rowInScope s k = true) →
  writeSubmissionRecords (scopeRows s db) l db !! k =
  if rowInScope s k then
    (fun data => match db !! k with
     | Some row => if samePayload (row_payload row) data then row else rowOf k data (claimFor k l)
     | None => rowOf k data (claimFor k l) end) <$> submissionRecords l !! k
  else db !! k.
Proof.
  intros Hin. unfold writeSubmissionRecords. rewrite lookup_union, map_lookup_imap.
  assert (scopeRows s db !! k = if rowInScope s k then db !! k else None) as Hscope.
  { unfold scopeRows. rewrite map_lookup_filter. destruct (db !! k); simpl; [|by cases].
    destruct (rowInScope s k) eqn:E; case_guard; naive_solver. }
  set (kept := filter _ db).
  assert (kept !! k = match submissionRecords l !! k with
                      | Some _ => db !! k
                      | None => if rowInScope s k then None else db !! k end) as ->.
  { unfold kept. rewrite map_lookup_filter. destruct (db !! k) as [row|] eqn:Ed; simpl; [|by repeat cases].
    case_guard as Hg; simpl in *; rewrite Hscope in Hg; repeat cases; naive_solver. }
  rewrite Hscope. destruct (submissionRecords l !! k) as [data|] eqn:Er; simpl.
  - rewrite (Hin data) by (by apply submissionRecords_lookup). by destruct (db !! k).
  - destruct (rowInScope s k); simpl; [done|]. by rewrite (left_id_L None (∪)).
Qed.

Lemma rowInScope_inScope s kind t id :
  kind ≠ "retirements" → rowInScope s (kind, t, id) = inScope s t id.
Proof.
  intros H. unfold rowInScope, inScope. apply str_eqb_neq in H. rewrite H.
  by rewrite andb_false_r, !orb_false_r.
Qed.

Lemma rowInScope_operations s d : rowInScope s ("retirements", "", d) = inOperations s d.
Proof.
  unfold rowInScope, inOperations. rewrite !str_eqb_refl, andb_true_r. simpl.
  destruct (sc_all s); [done|]. destruct (is_empty (sc_thread s)) eqn:E; simpl; [by rewrite ?andb_true_r|].
  bools. assert (str_eqb "" (sc_thread s) = false) as -> by (apply str_eqb_neq; congruence).
  simpl. by rewrite ?andb_true_r.
Qed.

(** ** The database store discharges the contract *)

Definition dbQueue (db : database) t id := db !! ("attempts", t, id) ≫= (λ row, payString (row_payload row)).
Definition dbSend (db : database) t id :=
  db !! ("sends", t, id) ≫= (λ row, paySend (row_claim row) (row_payload row)).
Definition dbDeletion (db : database) t id :=
  db !! ("deletions", t, id) ≫= (λ row, payDeletion (row_payload row)).
Definition dbOperation (db : database) d :=
  db !! ("retirements", "", d) ≫= (λ row, payString (row_payload row)).

Lemma denotes_db db l :
  denotes db emptyLedger l →
  (∀ t id, queueAt t id l = dbQueue db t id) ∧ (∀ t id, sendAt t id l = dbSend db t id) ∧
  (∀ t id, deletionAt t id l = dbDeletion db t id) ∧ (∀ d, operations l !! d = dbOperation db d).
Proof.
  intros [Q S D O]. unfold dbQueue, dbSend, dbDeletion, dbOperation.
  split_and!; intros; [rewrite Q|rewrite S|rewrite D|rewrite O]; destruct (db !! _); done.
Qed.

Lemma dbView_denotes db : rowsValid db → denotes db emptyLedger (dbView db).
Proof.
  intros [l H]%read_everything. unfold dbView. rewrite H.
  apply readSubmissionRecords_denotes in H. by rewrite scopeRows_everything in H.
Qed.

Lemma scopeRows_lookup s db k :
  scopeRows s db !! k = if rowInScope s k then db !! k else None.
Proof.
  unfold scopeRows. rewrite map_lookup_filter. destruct (db !! k); simpl; [|by cases].
  destruct (rowInScope s k) eqn:E; case_guard; naive_solver.
Qed.

Lemma scoped_agree s db l :
  rowsValid db → denotes (scopeRows s db) emptyLedger l →
  agree s (dbView db) l ∧
  (∀ t id, inScope s t id = false →
     queueAt t id l = None ∧ sendAt t id l = None ∧ deletionAt t id l = None) ∧
  (∀ d, inOperations s d = false → operations l !! d = None).
Proof.
  intros Hv Hl. destruct (denotes_db _ _ (dbView_denotes db Hv)) as (Q & S & D & O).
  destruct (denotes_db _ _ Hl) as (Q' & S' & D' & O').
  unfold dbQueue, dbSend, dbDeletion, dbOperation in *.
  split; [split_and!|split].
  - intros t id H. by rewrite Q, Q', scopeRows_lookup, rowInScope_inScope, H.
  - intros t id H. by rewrite S, S', scopeRows_lookup, rowInScope_inScope, H.
  - intros t id H. by rewrite D, D', scopeRows_lookup, rowInScope_inScope, H.
  - intros d H. by rewrite O, O', scopeRows_lookup, rowInScope_operations, H.
  - intros t id H. by rewrite Q', S', D', !scopeRows_lookup, !rowInScope_inScope, H.
  - intros d H. by rewrite O', scopeRows_lookup, rowInScope_operations, H.
Qed.

Lemma validRow_queue t id d claim :
  t ≠ "" → id ≠ "" → validSubmissionDigest d = true →
  validRow ("attempts", t, id) (rowOf ("attempts", t, id) (PayString d) claim) = true.
Proof.
  intros Ht Hid Hd. apply is_empty_false in Ht, Hid. unfold validRow. simpl. by rewrite Ht, Hid, Hd.
Qed.
Lemma validRow_send t id a claim :
  t ≠ "" → id ≠ "" → validSend a = true →
  validRow ("sends", t, id) (rowOf ("sends", t, id) (PaySend (clearAdmission a)) claim) = true.
Proof.
  intros Ht Hid Ha. unfold validSend in Ha. bools. apply is_empty_false in Ht, Hid.
  unfold validRow. simpl. change (validSendAttemptState (clearAdmission a)) with (validSendAttemptState a).
  change (optionsAgree (clearAdmission a)) with (optionsAgree a).
  rewrite Ht, Hid. by repeat match goal with E : _ = true |- _ => rewrite E; clear E end.
Qed.
Lemma validRow_deletion t id d claim :
  t ≠ "" → id ≠ "" → validDeletion d = true →
  validRow ("deletions", t, id) (rowOf ("deletions", t, id) (PayDeletion d) claim) = true.
Proof.
  intros Ht Hid Hd. apply is_empty_false in Ht, Hid. unfold validRow. simpl. by rewrite Ht, Hid, Hd.
Qed.
Lemma validRow_operation d t claim :
  isAbs d = true → t ≠ "" →
  validRow ("retirements", "", d) (rowOf ("retirements", "", d) (PayString t) claim) = true.
Proof.
  intros Hd Ht. apply is_empty_false in Ht. unfold validRow. simpl.
  destruct (is_empty d) eqn:E; [bools; by subst|]. by rewrite Hd, Ht.
Qed.

(** Encoding a storable entry loses only the claim. *)
Section records.
Context (l : Ledger) (Hl : storable l).

Lemma records_queue t id :
  submissionRecords l !! ("attempts", t, id) = PayString <$> queueAt t id l.
Proof.
  destruct (queueAt t id l) as [d|] eqn:E; simpl.
  - apply submissionRecords_lookup.
    replace (PayString d) with (PayString (coerce d)); [by constructor|]. rewrite coerce_valid; [done|].
    apply digest_unicode. by destruct (wf_queue l (proj1 Hl) _ _ _ E) as (_ & _ & ?).
  - apply records_None. intros p H. inversion H; congruence.
Qed.

Lemma records_send t id :
  submissionRecords l !! ("sends", t, id) = (fun a => PaySend (clearAdmission a)) <$> sendAt t id l.
Proof.
  destruct (sendAt t id l) as [a|] eqn:E; simpl.
  - apply submissionRecords_lookup. rewrite <-(coerceSend_valid id a); [by constructor| |].
    + by destruct (wf_send l (proj1 Hl) _ _ _ E) as (_ & _ & ? & _).
    + by destruct (shaped_look _ _ _ _ _ _ (shape_sends l (proj2 Hl)) E).
  - apply records_None. intros p H. inversion H; congruence.
Qed.

Lemma records_deletion t id :
  submissionRecords l !! ("deletions", t, id) = PayDeletion <$> deletionAt t id l.
Proof.
  destruct (deletionAt t id l) as [d|] eqn:E; simpl.
  - apply submissionRecords_lookup.
    destruct (wf_deletion l (proj1 Hl) _ _ _ E) as (_ & _ & Hv).
    destruct (shaped_look _ _ _ _ _ _ (shape_deletions l (proj2 Hl)) E) as [_ [_ Hc]].
    replace (PayDeletion d) with (PayDeletion (coerceDeletion d)); [by constructor|].
    unfold validDeletion in Hv. bools. destruct d. unfold coerceDeletion; simpl in *.
    by rewrite !coerce_valid by eauto using digest_unicode.
  - apply records_None. intros p H. inversion H; congruence.
Qed.

Lemma records_operation d :
  submissionRecords l !! ("retirements", "", d) = PayString <$> operations l !! d.
Proof.
  destruct (operations l !! d) as [t|] eqn:E; simpl.
  - apply submissionRecords_lookup.
    replace (PayString t) with (PayString (coerce t)); [by constructor|]. rewrite coerce_valid; [done|].
    by destruct (shape_operations l (proj2 Hl) _ _ E).
  - apply records_None. intros p H. inversion H; congruence.
Qed.

Lemma entry_valid k p claim : entry l k p → validRow k (rowOf k p claim) = true.
Proof.
  intros H. pose proof (proj2 (submissionRecords_lookup l k p) H) as Hr. destruct Hl as [Hw _].
  destruct H as [t id d Hd|t id a Ha|t id d Hd|d t Hd].
  - rewrite records_queue, Hd in Hr.
    assert (PayString (coerce d) = PayString d) as -> by (simpl in Hr; congruence).
    by apply validRow_queue; apply (wf_queue l Hw _ _ _ Hd).
  - rewrite records_send, Ha in Hr.
    assert (PaySend (coerceSend a) = PaySend (clearAdmission a)) as -> by (simpl in Hr; congruence).
    by apply validRow_send; apply (wf_send l Hw _ _ _ Ha).
  - rewrite records_deletion, Hd in Hr.
    assert (PayDeletion (coerceDeletion d) = PayDeletion d) as -> by (simpl in Hr; congruence).
    by apply validRow_deletion; apply (wf_deletion l Hw _ _ _ Hd).
  - rewrite records_operation, Hd in Hr.
    assert (PayString (coerce t) = PayString t) as -> by (simpl in Hr; congruence).
    by apply validRow_operation; apply (wf_operation l Hw _ _ Hd).
Qed.
End records.

Lemma paySend_clear claim a :
  sa_OptionsDigest a ≠ zeroTurnOptionsDigest →
  paySend claim (PaySend (clearAdmission a)) = Some (setAdmission claim a).
Proof. intros Hz. simpl. by rewrite normalizeStored_id. Qed.

Lemma samePayload_eq a b : samePayload a b = true → a = b.
Proof. unfold samePayload. by intros [? _]%bool_decide_eq_true. Qed.

Section write.
Context (s : submissionScope) (db : database) (l next : Ledger).
Hypothesis (Hdb : rowsValid db) (Hl : denotes (scopeRows s db) emptyLedger l).
Hypothesis (Hnext : storable next) (Hclaim : claimStable l next) (Hframe : frame s l next).
Let db' := writeSubmissionRecords (scopeRows s db) next db.

Lemma entries_in_scope k p : entry next k p → rowInScope s k = true.
Proof using Hdb Hl Hframe.
  destruct (scoped_agree s db l Hdb Hl) as (_ & Hout & Hops). destruct Hframe as (Fq & Fs & Fd & Fo).
  intros [t id d H|t id a H|t id d H|d t H]; apply not_false_is_true; intros Hn.
  - rewrite rowInScope_inScope in Hn by done. rewrite Fq in H by done.
    destruct (Hout _ _ Hn) as (? & _). congruence.
  - rewrite rowInScope_inScope in Hn by done. rewrite Fs in H by done.
    destruct (Hout _ _ Hn) as (_ & ? & _). congruence.
  - rewrite rowInScope_inScope in Hn by done. rewrite Fd in H by done.
    destruct (Hout _ _ Hn) as (_ & _ & ?). congruence.
  - rewrite rowInScope_operations in Hn. rewrite Fo in H by done. rewrite Hops in H; done.
Qed.

Lemma written k : db' !! k =
  if rowInScope s k then
    (fun data => match db !! k with
     | Some row => if samePayload (row_payload row) data then row else rowOf k data (claimFor k next)
     | None => rowOf k data (claimFor k next) end) <$> submissionRecords next !! k
  else db !! k.
Proof using Hdb Hl Hframe. apply write_lookup. intros p. apply entries_in_scope. Qed.

Lemma written_valid : rowsValid db'.
Proof using Hdb Hl Hframe Hnext.
  intros k row. rewrite written. destruct (rowInScope s k); [|apply Hdb].
  intros (p & Hp & ->)%fmap_Some. apply submissionRecords_lookup in Hp.
  destruct (db !! k) as [r|] eqn:E; [|by apply (entry_valid next)].
  destruct (samePayload _ _); [by apply Hdb|by apply (entry_valid next)].
Qed.

Lemma written_queue t id :
  dbQueue db' t id = if inScope s t id then queueAt t id next else dbQueue db t id.
Proof using Hdb Hl Hframe Hnext.
  unfold dbQueue. rewrite written, rowInScope_inScope by done. destruct (inScope s t id); [|done].
  rewrite records_queue by done. destruct (queueAt t id next) as [d|]; simpl; [|done].
  destruct (db !! _) as [row|]; [|done]. destruct (samePayload _ _) eqn:E; [|done].
  by rewrite (samePayload_eq _ _ E).
Qed.

Lemma written_deletion t id :
  dbDeletion db' t id = if inScope s t id then deletionAt t id next else dbDeletion db t id.
Proof using Hdb Hl Hframe Hnext.
  unfold dbDeletion. rewrite written, rowInScope_inScope by done. destruct (inScope s t id); [|done].
  rewrite records_deletion by done. destruct (deletionAt t id next) as [d|]; simpl; [|done].
  destruct (db !! _) as [row|]; [|done]. destruct (samePayload _ _) eqn:E; [|done].
  by rewrite (samePayload_eq _ _ E).
Qed.

Lemma written_operation d :
  dbOperation db' d = if inOperations s d then operations next !! d else dbOperation db d.
Proof using Hdb Hl Hframe Hnext.
  unfold dbOperation. rewrite written, rowInScope_operations. destruct (inOperations s d); [|done].
  rewrite records_operation by done. destruct (operations next !! d) as [t|]; simpl; [|done].
  destruct (db !! _) as [row|]; [|done]. destruct (samePayload _ _) eqn:E; [|done].
  by rewrite (samePayload_eq _ _ E).
Qed.

Lemma written_send t id :
  dbSend db' t id = if inScope s t id then sendAt t id next else dbSend db t id.
Proof using Hdb Hl Hframe Hnext Hclaim.
  unfold dbSend. rewrite written, rowInScope_inScope by done.
  destruct (inScope s t id) eqn:Hin; [|done].
  rewrite records_send by done. destruct (sendAt t id next) as [a|] eqn:Ea; simpl; [|done].
  assert (sa_OptionsDigest a ≠ zeroTurnOptionsDigest) as Hz.
  { by destruct (wf_send next (proj1 Hnext) _ _ _ Ea) as (_ & _ & _ & ?). }
  assert (paySend (sa_admissionID a) (PaySend (clearAdmission a)) = Some a) as Hself.
  { rewrite paySend_clear by done. by destruct a. }
  destruct (db !! ("sends", t, id)) as [row|] eqn:Er; simpl; [|by rewrite Ea].
  destruct (samePayload _ _) eqn:E; [|by simpl; rewrite Ea].
  rewrite (samePayload_eq _ _ E), paySend_clear by done. f_equal. symmetry.
  apply (Hclaim t id); [|done|done].
  destruct (denotes_db _ _ Hl) as (_ & -> & _). unfold dbSend.
  rewrite scopeRows_lookup, rowInScope_inScope, Hin, Er by done. simpl.
  by rewrite (samePayload_eq _ _ E), paySend_clear.
Qed.
End write.

(** ** Maps rebuilt from rows have no empty inner map *)

Definition filled {V} (m : nested V) : Prop := ∀ t inner, m !! t = Some inner → ∃ id v, inner !! id = Some v.

Record dense (l : Ledger) : Prop := {
  dense_queue : filled (queueAttempts l);
  dense_sends : filled (sendAttempts l);
  dense_deletions : filled (queueDeletions l) }.

Lemma filled_put2 {V} t id (v : V) m : filled m → filled (put2 t id v m).
Proof.
  unfold put2. intros H t' inner [[-> <-]|[_ Hi]]%lookup_insert_Some; [|by eapply H].
  exists id, v. apply lookup_insert_eq.
Qed.

Lemma installRows_dense rows l0 l : dense l0 → installRows rows l0 = Ok l → dense l.
Proof.
  revert l0. induction rows as [|[k row] rows IH]; intros l0 Hd H; simpl in H; [by simplify_eq|].
  destruct (installSubmissionRecord _ _ _) as [l1|] eqn:E; [|done]. simpl in H.
  eapply IH; [|done]. destruct k as [[kind t] id], Hd. unfold installSubmissionRecord, attachClaim in *.
  repeat (cases_in E; try discriminate); simplify_eq/=; split; repeat cases; simpl;
    auto using filled_put2.
Qed.

Lemma read_dense s db l : readSubmissionRecords s db = Ok l → dense l.
Proof.
  unfold readSubmissionRecords. destruct (_ && _); [done|]. apply installRows_dense.
  split; intros t inner H; simpl in H; by rewrite lookup_empty in H.
Qed.

Lemma filled_shaped {V} P Q (m m' : nested V) :
  filled m → (∀ t id v, look2 t id m = Some v → look2 t id m' = Some v) → shaped P Q m' → shaped P Q m.
Proof.
  intros Hf Hsub Hm t inner Hi. destruct (Hf _ _ Hi) as (id & v & Hv).
  assert (∀ id v, inner !! id = Some v → P t ∧ Q id v) as H.
  { intros id' v' Hv'. eapply shaped_look; [done|]. apply Hsub, look2_Some. eauto. }
  split; [by eapply H|]. intros. by eapply H.
Qed.

(** A dense ledger inside a storable one is storable. *)
Lemma dense_storable l k :
  dense l → storable k →
  (∀ t id v, queueAt t id l = Some v → queueAt t id k = Some v) →
  (∀ t id v, sendAt t id l = Some v → sendAt t id k = Some v) →
  (∀ t id v, deletionAt t id l = Some v → deletionAt t id k = Some v) →
  (∀ d v, operations l !! d = Some v → operations k !! d = Some v) → storable l.
Proof.
  intros [Fq Fs Fd] [[Wq Ws Wd Wo] [Sq Ss Sd So]] Hq Hs Hd Ho. split; split; eauto.
  - eapply filled_shaped; [done|apply Hq|done].
  - eapply filled_shaped; [done|apply Hs|done].
  - eapply filled_shaped; [done|apply Hd|done].
Qed.

(** Every row is readable and the ledger the rows denote is storable. *)
Definition dbSound (db : database) : Prop := rowsValid db ∧ storable (dbView db).

Lemma dbView_dense db : rowsValid db → dense (dbView db).
Proof. intros [l H]%read_everything. unfold dbView. rewrite H. by eapply read_dense. Qed.

Lemma dbSound_equiv db n : rowsValid db → dbView db ≡ n → storable n → dbSound db.
Proof.
  intros Hv E Hn. split; [done|]. eapply dense_storable; [by apply dbView_dense|exact Hn|..];
    intros; [by rewrite <-E..|]. by rewrite <-E.
Qed.

Lemma scoped_storable s db l :
  dbSound db → readSubmissionRecords s db = Ok l → storable l.
Proof.
  intros [Hv Hs] Hr. pose proof (read_dense _ _ _ Hr) as Hd. apply readSubmissionRecords_denotes in Hr.
  destruct (scoped_agree s db l Hv Hr) as ((Aq & As & Ad & Ao) & Hout & Hops).
  eapply dense_storable; [exact Hd|exact Hs|..].
  - intros t id v H. destruct (inScope s t id) eqn:E; [by rewrite Aq|]. destruct (Hout _ _ E). congruence.
  - intros t id v H. destruct (inScope s t id) eqn:E; [by rewrite As|]. destruct (Hout _ _ E) as (_ & ? & _). congruence.
  - intros t id v H. destruct (inScope s t id) eqn:E; [by rewrite Ad|]. destruct (Hout _ _ E) as (_ & _ & ?). congruence.
  - intros d v H. destruct (inOperations s d) eqn:E; [by rewrite Ao|]. rewrite Hops in H; done.
Qed.

Lemma written_equiv s db l next n :
  dbSound db → denotes (scopeRows s db) emptyLedger l → storable next → claimStable l next →
  frame s l next → agree s n next → frame s (dbView db) n →
  let db' := writeSubmissionRecords (scopeRows s db) next db in
  rowsValid db' ∧ dbView db' ≡ n.
Proof.
  intros [Hv Hs] Hl Hn Hc Hf (Aq & As & Ad & Ao) (Fq & Fs & Fd & Fo) db'.
  assert (rowsValid db') as Hv' by (by eapply written_valid). split; [done|].
  destruct (denotes_db _ _ (dbView_denotes _ Hv)) as (Q & S & D & O).
  destruct (denotes_db _ _ (dbView_denotes _ Hv')) as (Q' & S' & D' & O').
  split_and!; [intros t id..|apply map_eq; intros d].
  - etrans; [apply Q'|]. unfold db'. erewrite written_queue by done.
    destruct (inScope s t id) eqn:E; [by symmetry; apply Aq|]. rewrite <-Q. symmetry. by apply Fq.
  - etrans; [apply S'|]. unfold db'. erewrite written_send by done.
    destruct (inScope s t id) eqn:E; [by symmetry; apply As|]. rewrite <-S. symmetry. by apply Fs.
  - etrans; [apply D'|]. unfold db'. erewrite written_deletion by done.
    destruct (inScope s t id) eqn:E; [by symmetry; apply Ad|]. rewrite <-D. symmetry. by apply Fd.
  - rewrite O'. unfold db'. erewrite written_operation by done.
    destruct (inOperations s d) eqn:E; [by symmetry; apply Ao|]. rewrite <-O. symmetry. by apply Fo.
Qed.

Lemma submissionTransaction_spec {A} env s (p : Ledger → plan A) db r db' :
  dbSound db → localTo s p → safe p → submissionTransaction env s p db = (r, db') →
  dbSound db' ∧
  ((db' = db ∧ is_ok r = false) ∨
   ∃ a n, spec p (dbView db) = Ok (a, n) ∧ dbView db' ≡ n ∧
     match r with Ok b => b = a | Err _ => True end).
Proof.
  intros Hdb Hloc Hsafe H. unfold submissionTransaction in H.
  destruct (de_closed env); [simplify_eq; auto|].
  destruct (de_begin env); [simplify_eq; auto|]. destruct (de_read env); [simplify_eq; auto|].
  destruct (readSubmissionRecords s db) as [l|e] eqn:Er; [|simplify_eq; auto].
  pose proof (scoped_storable _ _ _ Hdb Er) as Hl. apply readSubmissionRecords_denotes in Er.
  pose proof Hdb as [Hv Hs]. destruct (scoped_agree s db l Hv Er) as (Hag & _ & _).
  pose proof (Hloc (dbView db) l Hs Hl Hag) as Hlocal.
  destruct (p l) as [e|a|next undo a] eqn:Ep; [simplify_eq; auto|..].
  - assert (spec p l = Ok (a, l)) as Espec by (unfold spec; by rewrite Ep). rewrite Espec in Hlocal.
    destruct (spec p (dbView db)) as [[a' n]|]; [|done].
    destruct Hlocal as (-> & Han & Hfn & _).
    assert (dbView db ≡ n) as En.
    { eapply agree_frame_equiv; [|apply frame_refl|exact Hfn].
      eapply agree_trans; [exact Hag|by apply agree_sym]. }
    destruct (de_commit env); simplify_eq; split; auto; right; eauto.
  - destruct (de_write env); [simplify_eq; auto|].
    assert (spec p l = Ok (a, next)) as Espec by (unfold spec; by rewrite Ep). rewrite Espec in Hlocal.
    destruct (spec p (dbView db)) as [[a' n]|] eqn:En; [|done].
    destruct Hlocal as (-> & Han & Hfn & Hfl).
    destruct (Hsafe _ _ _ _ Hl Ep) as [Hnext Hcs].
    destruct (written_equiv s db l next n Hdb Er Hnext Hcs Hfl Han Hfn) as [Hv' Heq].
    assert (storable n) as Hsn.
    { unfold spec in En. destruct (p (dbView db)) as [|x|m u x] eqn:Epd; simplify_eq; [done|].
      by destruct (Hsafe _ _ _ _ Hs Epd). }
    pose proof (dbSound_equiv _ _ Hv' Heq Hsn) as Hsound.
    destruct (de_commit env); simplify_eq; split; auto; right; eauto.
Qed.

#[export] Instance db_store : SubmissionStore database dbEnv := {|
  keepsClaims := true; stored := dbView; sound := dbSound;
  transact A env s p w := submissionTransaction env s p w |}.

Lemma equiv_durable l l' : l' ≡ l → durable true l l'.
Proof.
  intros (Hq & Hs & Hd & Ho). split_and!; try done. intros t id. unfold sendAt.
  rewrite Hs. by destruct (look2 t id (sendAttempts l)).
Qed.

#[export] Instance db_store_laws : SubmissionStoreLaws database dbEnv.
Proof.
  split; simpl.
  - by intros w [_ ?].
  - intros A env s p w r w' Hw Hloc Hp H. by eapply submissionTransaction_spec.
  - intros A env s p w a w' Hw Hloc Hp H.
    destruct (submissionTransaction_spec _ _ _ _ _ _ Hw Hloc Hp H) as [_ [[_ ?]|(b & n & Hs & Hn & ->)]];
      [done|]. exists n. simpl. split_and!; [done|by apply equiv_durable|]. intros E. by rewrite Hn.
  - intros A env s p w x w' Hw Hloc Hp H.
    destruct (submissionTransaction_spec _ _ _ _ _ _ Hw Hloc Hp H) as [_ [[-> _]|(b & n & Hs & Hn & _)]];
      [by left|]. right. exists b, n. simpl. split_and!; [done|by apply equiv_durable|]. intros E. by rewrite Hn.
Qed.

(** ** [compactSubmissionOptions]: one UPDATE over the derived columns *)

(** [prefix + U+10FFFF]; the database compares text by bytes. *)
Definition lastRune : string := string_of [244; 143; 191; 191].
Definition actionInRange (prefix action : string) : bool :=
  String.leb prefix action && String.ltb action (prefix ++ lastRune)%string.

Definition compactRow (prefix : string) (k : submissionKey) (row : submissionRow) : submissionRow :=
  let '(kind, _, _) := k in
  if str_eqb kind "sends" && str_eqb (row_state row) "accepted" && row_hasOptions row
     && actionInRange prefix (row_action row)
  then mkRow (match row_payload row with PaySend a => PaySend (dropOptions a) | p => p end)
         (row_claim row) (row_state row) (row_action row) false
  else row.

Definition compactSubmissionOptions (prefix : string) (db : database) : database :=
  map_imap (fun k row => Some (compactRow prefix k row)) db.

(** The derived columns agree with the payload. *)
Definition consistent (db : database) : Prop :=
  ∀ k row, db !! k = Some row → row = rowOf k (row_payload row) (row_claim row).

Lemma rowOf_consistent k data claim :
  rowOf k data claim = rowOf k (row_payload (rowOf k data claim)) (row_claim (rowOf k data claim)).
Proof. by destruct data. Qed.

Lemma write_consistent before l db :
  consistent db → consistent (writeSubmissionRecords before l db).
Proof.
  intros H k row. unfold writeSubmissionRecords. rewrite lookup_union.
  set (kept := filter _ db).
  assert (∀ r, kept !! k = Some r → r = rowOf k (row_payload r) (row_claim r)) as Hk.
  { intros r [Hr _]%map_lookup_filter_Some. by apply H. }
  rewrite map_lookup_imap. destruct (submissionRecords l !! k) as [data|]; simpl.
  - rewrite union_Some_l. intros [= <-].
    destruct (before !! k) as [b|]; [|apply rowOf_consistent].
    destruct (kept !! k) as [r|]; [|apply rowOf_consistent].
    destruct (samePayload _ _); [by apply Hk|apply rowOf_consistent].
  - rewrite (left_id_L None (∪)). apply Hk.
Qed.

Lemma submissionTransaction_consistent {A} env s (p : Ledger → plan A) db :
  consistent db → consistent (snd (submissionTransaction env s p db)).
Proof.
  intros H. unfold submissionTransaction.
  repeat (cases; simpl; auto using write_consistent).
Qed.

Lemma ascii_compare_refl c : Ascii.compare c c = Eq.
Proof. apply N.compare_refl. Qed.

(** The range of the UPDATE is the prefix test, short of the last code point. *)
Lemma actionInRange_prefix prefix action :
  actionInRange prefix action = true ↔
  ∃ rest, action = (prefix ++ rest)%string ∧ String.ltb rest lastRune = true.
Proof.
  unfold actionInRange, String.leb, String.ltb. generalize lastRune as x. intros x.
  revert action. induction prefix as [|c prefix IH]; intros [|d action].
  - split; [intros H; by exists ""|]. intros (rest & E & H). change ("" = rest) in E. by subst.
  - split; [intros H; by exists (String d action)|].
    intros (rest & E & H). change (String d action = rest) in E. by subst.
  - split; [done|]. by intros (rest & ? & _).
  - change (String c prefix ++ x)%string with (String c (prefix ++ x)).
    simpl. destruct (Ascii.compare c d) eqn:E.
    + apply Ascii.compare_eq_iff in E as ->.
      rewrite ascii_compare_refl.
      rewrite IH. split; intros (rest & H & Hr); exists rest; (split; [|done]).
      * by rewrite H.
      * change (String d action = String d (prefix ++ rest)) in H. congruence.
    + rewrite Ascii.compare_antisym, E. simpl. split; [done|].
      intros (rest & H & _). change (String d action = String c (prefix ++ rest)) in H. simplify_eq.
      by rewrite ascii_compare_refl in E.
    + split; [done|].
      intros (rest & H & _). change (String d action = String c (prefix ++ rest)) in H. simplify_eq.
      by rewrite ascii_compare_refl in E.
Qed.

