(* ===== verification/StoreFacts.v ===== *)
(** * Properties of the two submission stores

    Both stores implement the abstract ledger: their histories, under any
    faults, are traces of it, so what holds of every trace holds of them. The
    file reads back what it wrote and migrates a legacy file; the database
    writes only rows of the scope, and compacts as the file does. *)
From S2P Require Import Prelude GoStd GoValue TurnOptions Ledger LedgerFacts Store LedgerFile Locality SubmissionDb.
From Stdlib Require Import String.
Open Scope Z_scope.

(** ** The file *)

(** C5. Round trip: after a successful write the next load succeeds and yields
    the ledger that was written, its admission claims aside. *)
Theorem ledger_file_roundtrip fault l s s' :
  storable l → writeQueueLedger fault l s = (Ok tt, s') →
  loadQueueLedger quiet s' = (Ok (forgetClaims l), s').
Proof.
  intros Hl. unfold writeQueueLedger. destruct (_ <? _) eqn:E; [done|]. bools.
  destruct fault; intros; simplify_eq. unfold loadQueueLedger, locate.
  cbn [quiet fe_closed fe_lock fe_stat fe_open fs_current]. by rewrite read_fileOf.
Qed.

(** Nothing unchecked gets in: whatever bytes are on disk, a load that
    succeeds yields a well-formed ledger without claims, and one that fails
    without a migration leaves the store as it was. *)
Theorem ledger_load_validates env s r s' :
  loadQueueLedger env s = (r, s') →
  match r with
  | Ok l => ledger_wf l ∧ claimless l
  | Err _ => s' = s ∨ fs_current s = None ∧ fs_legacy s' = fs_legacy s
  end.
Proof.
  unfold loadQueueLedger. intros H.
  destruct (fe_closed env); [simplify_eq; auto|]. destruct (fe_lock env); [simplify_eq; auto|].
  destruct (locate env s) as [[[f|] legacy]|] eqn:El; [| |simplify_eq; auto].
  - destruct (readFile (fe_open env) f) as [l|] eqn:Er; [|simplify_eq; auto].
    apply readFile_wf in Er. destruct (negb legacy) eqn:Eg; [by simplify_eq|].
    assert (fs_current s = None) as Hnone.
    { bools. subst. unfold locate, guard, res_bind in El. repeat (cases_in El; try discriminate); done. }
    destruct (writeQueueLedger (fe_migrate env) l s) as [w s0] eqn:Ew.
    unfold writeQueueLedger in Ew. destruct w; simplify_eq; [done|].
    destruct (_ <? _); [simplify_eq; auto|]. destruct (fe_migrate env); simplify_eq; auto.
  - simplify_eq. split; [apply empty_wf|]. intros t id a. unfold sendAt. simpl. by rewrite look2_empty.
Qed.

(** Migration: with no ledger at the current path, a readable legacy file is
    adopted whole, is written to the current path, stays where it was, and the
    next transaction reads the same ledger from the new place. *)
Theorem legacy_ledger_migrates s f l :
  fs_current s = None → fs_legacy s = Some (Some f) → fs_samePath s = false →
  readFile None f = Ok l → ledger_shape l → len (ledgerText l) + 1 ≤ queueLedgerMaxSize →
  ∃ s', loadQueueLedger quiet s = (Ok l, s') ∧ fs_current s' = Some (fileOf l) ∧
        fs_legacy s' = Some (Some f) ∧ loadQueueLedger quiet s' = (Ok l, s').
Proof.
  intros Hc Hl Hp Hr Hs Hsize. pose proof (readFile_wf _ _ _ Hr) as [Hw Hclaim].
  exists (mkStore (Some (fileOf l)) (Some (Some f)) false).
  split_and!; try done.
  - unfold loadQueueLedger, locate. cbn [quiet fe_closed fe_lock fe_stat fe_legacyStat fe_open fe_migrate].
    rewrite Hc, Hl, Hp. cbn [guard res_bind]. rewrite Hr. cbn [negb].
    unfold writeQueueLedger. replace (queueLedgerMaxSize <? _) with false by (symmetry; by apply Z.ltb_ge).
    by rewrite Hl, Hp.
  - unfold loadQueueLedger, locate. cbn [quiet fe_closed fe_lock fe_stat fe_open fs_current].
    by rewrite read_fileOf, forget_claimless by (done || by split).
Qed.

(** C6. The file refines the ledger: whatever commands run and whatever faults
    the system shows at each of them (locks, reads, writes before or after the
    rename), the file stays readable and its contents move along a trace of the
    abstract ledger with exactly those commands. *)
Theorem file_history_refines (w : fileStore) (xs : list (fileEnv * ledgerOp)) :
  fileSound w → Forall (fun x => opStorable (snd x)) xs →
  fileSound (storeRun w xs) ∧
  ∃ tr, tr.*1 = xs.*2 ∧ lsteps (fileView w) tr (fileView (storeRun w xs)).
Proof. exact (@storeRun_lsteps fileStore fileEnv file_store file_store_laws w xs). Qed.

(** ** The database *)

(** C7. The database refines the ledger: each transaction loads only the rows
    of its scope, yet under any faults (BEGIN, reads, writes, a COMMIT that
    fails before or after it takes effect) the rows stay readable and the
    ledger they denote moves along a trace of the abstract ledger. *)
Theorem database_history_refines (db : database) (xs : list (dbEnv * ledgerOp)) :
  dbSound db → Forall (fun x => opStorable (snd x)) xs →
  dbSound (storeRun db xs) ∧
  ∃ tr, tr.*1 = xs.*2 ∧ lsteps (dbView db) tr (dbView (storeRun db xs)).
Proof. exact (@storeRun_lsteps database dbEnv db_store db_store_laws db xs). Qed.

(** Scopes suffice: every transaction of the ledger answers alike, makes
    the same changes and touches no other entry on any two storable ledgers
    that agree on the scope the code opens it with. *)
Theorem transaction_scope_sufficient op : opWellFormed op → localTo (opScope op) (runOp op).
Proof. apply runOp_local. Qed.

(** A database transaction is atomic and stays in its scope: it either
    leaves every row as it was, or all of its changes are in, and rows outside
    the scope are the same rows in both cases; a reported failure of anything
    but the COMMIT leaves every row as it was. *)
Theorem database_transaction_atomic env op db r db' k :
  dbSound db → opStorable op →
  submissionTransaction env (opScope op) (runOp op) db = (r, db') →
  (rowInScope (opScope op) k = false → db' !! k = db !! k) ∧
  (db' = db ∨ ∃ n, spec (runOp op) (dbView db) = Ok (tt, n) ∧ dbView db' ≡ n) ∧
  (is_ok r = false → (∀ e, de_commit env ≠ CommitUnreported e) → db' = db).
Proof.
  intros Hdb Hop H. split_and!.
  - intros Hk. unfold submissionTransaction in H.
    repeat (cases_in H; try (by simplify_eq)); simplify_eq.
    all: pose proof (scoped_storable _ _ _ Hdb Heqr0) as Hl.
    all: pose proof (readSubmissionRecords_denotes _ _ _ Heqr0) as Hden.
    all: destruct (scoped_agree _ db a (proj1 Hdb) Hden) as (Hag & _).
    all: pose proof (runOp_local op (proj1 Hop) _ _ (proj2 Hdb) Hl Hag) as Hloc.
    all: assert (frame (opScope op) a next) as Hf by
      (rewrite (spec_write _ _ _ _ _ Heqp) in Hloc;
       destruct (spec (runOp op) (dbView db)) as [[? ?]|]; [by destruct Hloc as (_ & _ & _ & ?)|done]).
    all: rewrite write_lookup; [by rewrite Hk|].
    all: intros p Hp; exact (entries_in_scope _ _ _ _ (proj1 Hdb) Hden Hf _ _ Hp).
  - destruct (submissionTransaction_spec _ _ _ _ _ _ Hdb (runOp_local op (proj1 Hop))
      (runOp_safe op Hop) H) as [_ [[-> _]|([] & n & Hs & Hn & _)]]; eauto.
  - intros Hr Hc. unfold submissionTransaction in H.
    repeat (cases_in H; try (by simplify_eq)); simplify_eq; try done; by edestruct Hc.
Qed.

(** Rows of sends after the UPDATE. *)
Lemma compact_lookup prefix db k :
  compactSubmissionOptions prefix db !! k = compactRow prefix k <$> db !! k.
Proof. unfold compactSubmissionOptions. rewrite map_lookup_imap. by destruct (db !! k). Qed.

Lemma compactRow_other prefix kind t id row :
  kind ≠ "sends" → compactRow prefix (kind, t, id) row = row.
Proof. intros H. unfold compactRow. apply str_eqb_neq in H. by rewrite H. Qed.

Lemma compactRow_valid prefix k row : validRow k row = true → validRow k (compactRow prefix k row) = true.
Proof.
  destruct k as [[kind t] id]. unfold compactRow. destruct (_ && _) eqn:E; [|done].
  apply andb_true_iff in E as [[[Hk _]%andb_true_iff _]%andb_true_iff _]. bools. subst.
  unfold validRow. simpl. destruct (is_empty id); [done|]. destruct (row_payload row) as [|a| |]; try done.
  change (validSendAttemptState (dropOptions a)) with (validSendAttemptState a). simpl.
  destruct (_ || _); [done|]. unfold optionsAgree. simpl. by repeat cases.
Qed.

(** The actions a prefix test and the range of the UPDATE treat alike. *)
Definition belowLastRune (prefix : string) (l : Ledger) : Prop :=
  ∀ t id a rest, sendAt t id l = Some a → sa_Context a = (prefix ++ rest)%string →
    String.ltb rest lastRune = true.

Lemma compactRow_send prefix t id a claim :
  (∀ rest, sa_Context a = (prefix ++ rest)%string → String.ltb rest lastRune = true) →
  let row := compactRow prefix ("sends", t, id) (rowOf ("sends", t, id) (PaySend a) claim) in
  paySend (row_claim row) (row_payload row) =
  compactOne prefix <$> paySend claim (PaySend a).
Proof.
  intros Hb. unfold compactRow, compactOne, compactable. simpl.
  assert (actionInRange prefix (sa_Context a) = hasPrefix (sa_Context a) prefix) as ->.
  { apply eq_true_iff_eq. rewrite actionInRange_prefix, hasPrefix_app. naive_solver. }
  destruct (str_eqb (sa_State a) "accepted" && _ && _) eqn:E; done.
Qed.

(** Compaction agrees between the stores: on rows whose derived columns are
    consistent, the single UPDATE drops the stored options of exactly the
    attempts the file's walk would, as long as no context continues the prefix
    with the last Unicode code point. *)
Theorem database_compaction_matches prefix db :
  rowsValid db → consistent db → belowLastRune prefix (dbView db) →
  rowsValid (compactSubmissionOptions prefix db) ∧
  dbView (compactSubmissionOptions prefix db) ≡ withSends (compactAll prefix) (dbView db).
Proof.
  intros Hv Hc Hb.
  assert (rowsValid (compactSubmissionOptions prefix db)) as Hv'.
  { intros k row. rewrite compact_lookup. intros (r & Hr & ->)%fmap_Some. by apply compactRow_valid, Hv. }
  split; [done|].
  destruct (denotes_db _ _ (dbView_denotes _ Hv)) as (Q & S & D & O).
  destruct (denotes_db _ _ (dbView_denotes _ Hv')) as (Q' & S' & D' & O').
  split_and!; [intros t id..|apply map_eq; intros d].
  - etrans; [apply Q'|]. etrans; [|symmetry; apply Q]. unfold dbQueue. rewrite compact_lookup.
    by destruct (db !! _).
  - etrans; [apply S'|]. etrans; [|symmetry; apply look2_compactAll].
    change (look2 t id (sendAttempts (dbView db))) with (sendAt t id (dbView db)). rewrite S.
    unfold dbSend. rewrite compact_lookup. destruct (db !! ("sends", t, id)) as [row|] eqn:E; [|done].
    pose proof (Hc _ _ E) as Hrow. pose proof (Hv _ _ E) as Hrv. unfold validRow in Hrv. simpl in Hrv.
    destruct (row_payload row) as [|a| |] eqn:Ep; try (by destruct (is_empty id)).
    cbn [fmap option_fmap option_map mbind option_bind]. rewrite Ep.
    pose proof (compactRow_send prefix t id a (row_claim row)) as Hcr. cbv zeta in Hcr.
    rewrite <-Hrow in Hcr. apply Hcr. intros rest Hr.
    eapply (Hb t id); [rewrite S; unfold dbSend; rewrite E; simpl; by rewrite Ep|done].
  - etrans; [apply D'|]. etrans; [|symmetry; apply D]. unfold dbDeletion. rewrite compact_lookup.
    by destruct (db !! _).
  - rewrite O'. simpl. rewrite O. unfold dbOperation. rewrite compact_lookup.
    by destruct (db !! _).
Qed.

(** ** Concrete runs, for the witnesses *)

Lemma empty_shape : ledger_shape emptyLedger.
Proof. split; simpl; auto with codex. intros d t H. by rewrite lookup_empty in H. Qed.

Lemma empty_storable : storable emptyLedger.
Proof. split; [apply empty_wf|apply empty_shape]. Qed.

Lemma demoPrepare_storable : opStorable demoPrepare.
Proof. split; [split; discriminate|]. split_and!; vm_compute; done. Qed.
Lemma demoClaim_storable claim : opStorable (demoClaim claim).
Proof. by split. Qed.
Lemma demoRestore_storable : opStorable demoRestore.
Proof. by split. Qed.

Lemma commit_storable op l l' :
  storable l → opStorable op → commitAll [op] l = Some l' → storable l'.
Proof.
  intros Hl Hop H. simpl in H. destruct (runOp op l) as [| |next undo u] eqn:E; try done. simplify_eq.
  by destruct (runOp_safe op Hop _ _ _ _ Hl E).
Qed.

Lemma demoPrepared_storable : storable demoPrepared.
Proof.
  apply (commit_storable demoPrepare emptyLedger); [apply empty_storable|apply demoPrepare_storable|].
  vm_compute. reflexivity.
Qed.

Definition blankStore : fileStore := mkStore None None false.

Lemma blank_sound : fileSound blankStore.
Proof. exists emptyLedger. split; [reflexivity|apply empty_shape]. Qed.

Lemma ledger_file_roundtrip_witness :
  loadQueueLedger quiet (mkStore (Some (fileOf demoPrepared)) None false)
  = (Ok (forgetClaims demoPrepared), mkStore (Some (fileOf demoPrepared)) None false).
Proof.
  apply (ledger_file_roundtrip WriteFine demoPrepared blankStore); [apply demoPrepared_storable|].
  unfold writeQueueLedger.
  assert ((queueLedgerMaxSize <? len (ledgerText demoPrepared) + 1) = false) as -> by (vm_compute; reflexivity).
  reflexivity.
Defined.

Lemma ledger_load_validates_witness : ledger_wf emptyLedger ∧ claimless emptyLedger.
Proof.
  apply (ledger_load_validates quiet blankStore (Ok emptyLedger) blankStore). reflexivity.
Defined.

Lemma legacy_ledger_migrates_witness :
  ∃ s', loadQueueLedger quiet (mkStore None (Some (Some (fileOf demoPrepared))) false)
        = (Ok (forgetClaims demoPrepared), s') ∧ fs_current s' = Some (fileOf (forgetClaims demoPrepared)).
Proof.
  assert (len (ledgerText demoPrepared) + 1 ≤ queueLedgerMaxSize) as Hsize by (by apply Z.leb_le; vm_compute).
  destruct (legacy_ledger_migrates (mkStore None (Some (Some (fileOf demoPrepared))) false)
    (fileOf demoPrepared) (forgetClaims demoPrepared)) as (s' & H1 & H2 & _).
  - reflexivity.
  - reflexivity.
  - reflexivity.
  - apply read_fileOf; [apply demoPrepared_storable|exact Hsize].
  - apply storable_forget, demoPrepared_storable.
  - by apply Z.leb_le; vm_compute.
  - exists s'. split; [exact H1|exact H2].
Defined.

Definition demoCommands : list ledgerOp := [demoPrepare; demoClaim "first"; demoRestore; demoClaim "second"].

Lemma demoCommands_storable {X} (f : ledgerOp → X * ledgerOp) :
  (∀ op, snd (f op) = op) → Forall (fun x => opStorable (snd x)) (f <$> demoCommands).
Proof.
  intros H. unfold demoCommands. simpl. rewrite !Forall_cons, !H. split_and!; [..|by apply Forall_nil];
    auto using demoPrepare_storable, demoClaim_storable, demoRestore_storable.
Qed.

(** The third command meets a failed write, the others none. *)
Definition demoFileRun : list (fileEnv * ledgerOp) :=
  (fun op => (mkFileEnv false None None None None WriteFine
     (match op with OpRestore _ _ _ _ => WriteBefore (EMsg "disk full") | _ => WriteFine end), op)) <$> demoCommands.

Lemma file_history_refines_witness :
  ∃ tr, tr.*1 = demoCommands ∧ lsteps (fileView blankStore) tr (fileView (storeRun blankStore demoFileRun)).
Proof.
  destruct (file_history_refines blankStore demoFileRun blank_sound) as (_ & tr & Htr & H).
  - by apply demoCommands_storable.
  - exists tr. split; [exact Htr|exact H].
Defined.

Lemma empty_dbSound : dbSound ∅.
Proof. split; [intros k row H; by rewrite lookup_empty in H|apply empty_storable]. Qed.

Definition calm : dbEnv := mkDbEnv false None None None CommitFine.
Definition demoDbRun : list (dbEnv * ledgerOp) :=
  (fun op => (mkDbEnv false None None None
     (match op with OpRestore _ _ _ _ => CommitLost (EMsg "disk full") | _ => CommitFine end), op)) <$> demoCommands.

Lemma database_history_refines_witness :
  ∃ tr, tr.*1 = demoCommands ∧ lsteps (dbView ∅) tr (dbView (storeRun (∅ : database) demoDbRun)).
Proof.
  destruct (database_history_refines ∅ demoDbRun empty_dbSound) as (_ & tr & Htr & H).
  - by apply demoCommands_storable.
  - exists tr. split; [exact Htr|exact H].
Defined.

Lemma transaction_scope_sufficient_witness : localTo (opScope demoPrepare) (runOp demoPrepare).
Proof. apply transaction_scope_sufficient. split; discriminate. Defined.

Lemma database_transaction_atomic_witness :
  let '(r, db) := submissionTransaction calm (opScope demoPrepare) (runOp demoPrepare) ∅ in
  db !! ("sends", "other", "message") = None ∧ is_ok r = true.
Proof.
  destruct (submissionTransaction calm _ _ ∅) as [r db] eqn:E. split.
  - apply (database_transaction_atomic calm demoPrepare ∅ r db ("sends", "other", "message") empty_dbSound
             demoPrepare_storable E).
    vm_compute. reflexivity.
  - assert (is_ok (fst (submissionTransaction calm (opScope demoPrepare) (runOp demoPrepare) ∅)) = true) as Hok
      by (vm_compute; reflexivity).
    rewrite E in Hok. exact Hok.
Defined.

Definition compactDb : database :=
  {[("sends", "thread", "message") :=
      rowOf ("sends", "thread", "message")
        (PaySend (mkSend "" (queueTextDigest "hello") "accepted" "send:1"
                    (default "" (match normalizeTurnOptions (mkOptions "m" "" ∅ zeroPolicy) with
                                 | Ok n => Some (nt_Digest n) | Err _ => None end))
                    (Some (mkOptions "m" "" ∅ zeroPolicy)) false "turn")) "claim"]}.

Lemma compactDb_rows k row :
  compactDb !! k = Some row → k = ("sends", "thread", "message") ∧
  Some row = compactDb !! ("sends", "thread", "message").
Proof.
  intros H. unfold compactDb in H. apply lookup_singleton_Some in H as [<- <-].
  split; [done|]. unfold compactDb. by rewrite lookup_singleton_eq.
Qed.

Lemma database_compaction_matches_witness :
  dbView (compactSubmissionOptions "send:" compactDb) ≡ withSends (compactAll "send:") (dbView compactDb).
Proof.
  assert (rowsValid compactDb) as Hv.
  { intros k row [-> Hr]%compactDb_rows. unfold compactDb in Hr. rewrite lookup_singleton_eq in Hr.
    injection Hr as ->. vm_compute. reflexivity. }
  apply (database_compaction_matches "send:" compactDb).
  - exact Hv.
  - intros k row [-> Hr]%compactDb_rows. unfold compactDb in Hr. rewrite lookup_singleton_eq in Hr.
    injection Hr as ->. reflexivity.
  - intros t id a rest Ha Hr. destruct (denotes_db _ _ (dbView_denotes _ Hv)) as (_ & S & _).
    rewrite S in Ha. unfold dbSend in Ha. destruct (compactDb !! _) as [row|] eqn:E; [|discriminate Ha].
    apply compactDb_rows in E as [_ E]. unfold compactDb in E. rewrite lookup_singleton_eq in E.
    injection E as ->. simpl in Ha. injection Ha as <-. simpl in Hr.
    injection Hr as Hr. change ("1" = rest) in Hr. subst rest. reflexivity.
Defined.
