(* ===== verification/Migration.v ===== *)
(** * From the ledger file to the database

    [src/codex/submission_migration.go]: a database that is opened for the first
    time takes over the ledger of its predecessor files, keeps a copy of each,
    and replaces each by a fence that older programs refuse to read.

    A file is kept as its bytes together with what the two decoders make of them.
    Every change that outlives the process is one [lasting] step, and a run may
    end before any of them: a run is given the number of steps it may take. An
    error of the file system or the database ends it at such a point too. The
    steps under the files' locks are one run; two runs do not overlap. *)
From S2P Require Import Prelude GoStd GoValue TurnOptions Ledger LedgerFacts Store LedgerFile Locality SubmissionDb.
From Stdlib Require Import String.
Open Scope Z_scope.

(** ** Files *)

Record submissionFence := mkFence { sf_Schema : Z; sf_Storage : string; sf_Database : string }.
Record predecessor := mkPredecessor {
  pd_private : bool; pd_bytes : string; pd_fence : option submissionFence; pd_document : document }.
Record submissionImportSource := mkSource { is_Path : string; is_Digest : string; is_Backup : string }.

(** The disk and the tables of the database. *)
Record migration := mkMigration {
  mg_files : gmap string predecessor;
  mg_version : Z;
  mg_phase : string;
  mg_sources : option (list submissionImportSource);
  mg_rows : database }.

Definition fenceText (db : string) : string :=
  jsonObject [("schema", jsonInt 4); ("storage", jsonString "sqlite"); ("database", jsonString db)].
(** A decoder of ledgers knows no field [storage]. *)
Definition fenceFile (db : string) : predecessor :=
  mkPredecessor true (fenceText db) (Some (mkFence 4 "sqlite" db))
    (Undecodable (EMsg ("json: unknown field " ++ quote ++ "storage" ++ quote))).

Definition diskOf (f : predecessor) : diskFile := mkFile (pd_private f) (len (pd_bytes f)) (pd_document f).

Definition backupPrefix (db : string) : string := (db ++ ".schema3-backup-")%string.
Definition backupPath (db digest : string) : string := (backupPrefix db ++ digest)%string.

(** ** Runs *)

Inductive attempt (A : Type) := Finished (a : A) | Failed (e : err) | Interrupted.
Arguments Finished {A} a.
Arguments Failed {A} e.
Arguments Interrupted {A}.

(** The steps that are left and the disk. *)
Definition run (A : Type) : Type := nat * migration → attempt A * (nat * migration).
Definition ret {A} (a : A) : run A := fun s => (Finished a, s).
Definition throw {A} (e : err) : run A := fun s => (Failed e, s).
Definition andThen {A B} (p : run A) (f : A → run B) : run B := fun s =>
  match p s with
  | (Finished a, s) => f a s
  | (Failed e, s) => (Failed e, s)
  | (Interrupted, s) => (Interrupted, s)
  end.
Definition look {A} (f : migration → A) : run A := fun s => (Finished (f (snd s)), s).
Definition lasting (f : migration → migration) : run unit := fun s =>
  match s with
  | (O, m) => (Interrupted, (O, m))
  | (S n, m) => (Finished tt, (n, f m))
  end.
Definition check (bad : bool) (e : err) : run unit := if bad then throw e else ret tt.

Declare Scope run_scope.
Delimit Scope run_scope with run.
Notation "'let*' x := p 'in' q" := (andThen p (fun x => q)) (at level 10, x name, p at level 100, q at level 200) : run_scope.

Definition writeFile (path : string) (f : predecessor) : run unit :=
  lasting (fun m => mkMigration (<[path := f]> (mg_files m)) (mg_version m) (mg_phase m) (mg_sources m) (mg_rows m)).

(** ** Importing a ledger *)

Section import.
Context {V : Type} (kind : string) (encode : V → payload).

Fixpoint importEntries (thread : string) (entries : list (string * V)) (l : Ledger) : res err Ledger :=
  match entries with
  | [] => Ok l
  | (id, v) :: rest => (let? l := installSubmissionRecord (kind, thread, id) (encode v) l in importEntries thread rest l)%codex
  end.

Fixpoint importGroups (invalid : err) (groups : list (string * option (gmap string V))) (l : Ledger) : res err Ledger :=
  match groups with
  | [] => Ok l
  | (thread, entries) :: rest =>
    match entries with
    | None => Err invalid
    | Some entries =>
      (let? _ := guard (is_empty thread) invalid in
       let? l := importEntries thread (map_to_list entries) l in
       importGroups invalid rest l)%codex
    end
  end.
End import.

(** What was decoded is valid Unicode, so that encoding it again changes nothing
    but the unexported claim. *)
Definition importLedger (raw : rawLedger) : res err Ledger :=
  (let? l := importGroups "attempts" PayString (EMsg "invalid queued submission group")
               (map_to_list (default ∅ (rl_Attempts raw))) emptyLedger in
   let? l := importGroups "sends" (fun a => PaySend (clearAdmission a)) (EMsg "invalid send submission group")
               (map_to_list (default ∅ (rl_Sends raw))) l in
   let? l := importGroups "deletions" PayDeletion (EMsg "invalid deletion submission group")
               (map_to_list (default ∅ (rl_Deletions raw))) l in
   importEntries "retirements" PayString "" (map_to_list (default ∅ (rl_Operations raw))) l)%codex.

(** Of the chosen file, or of none. *)
Definition decodeImport (chosen : option predecessor) : res err Ledger :=
  match chosen with
  | None => Ok emptyLedger
  | Some f =>
    (let? _ := guard (queueLedgerMaxSize <? len (pd_bytes f)) ELedgerTooLarge in
     match pd_document f with
     | Undecodable e => Err e
     | Decoded raw trailing =>
       let? _ := guard trailing (EMsg "submission import contains trailing data") in
       let? _ := guard (negb (rl_Schema raw =? 3) || negb (bool_decide (is_Some (rl_Attempts raw))))
         (EMsg "submission import has an invalid schema") in
       importLedger raw
     end)%codex
  end.

Definition importRows (l : Ledger) : database := map_imap (fun k data => Some (rowOf k data "")) (submissionRecords l).

(** ** Initialising *)

Section initialise.
Context (primary legacy db : string).

Definition pathsOf : list string := primary :: (if negb (is_empty legacy) && negb (str_eqb legacy primary) then [legacy] else []).

Definition createSubmissionSchema : run unit :=
  lasting (fun m => mkMigration (mg_files m) 1 (mg_phase m) (mg_sources m) (mg_rows m)).

Definition preserveSubmissionBackup (path : string) (f : predecessor) : run unit :=
  (let* previous := look (fun m => mg_files m !! path) in
   match previous with
   | Some g => check (negb (str_eqb (pd_bytes g) (pd_bytes f))) (EMsg "submission migration backup changed")
   | None => writeFile path (mkPredecessor true (pd_bytes f) (pd_fence f) (pd_document f))
   end)%run.

(** The predecessors in order, each copied, and the first that exists. *)
Fixpoint collectSources (paths : list string) : run (list submissionImportSource * option predecessor) :=
  match paths with
  | [] => ret ([], None)
  | path :: rest =>
    (let* file := look (fun m => mg_files m !! path) in
     match file with
     | None => let* found := collectSources rest in ret (mkSource path "" "" :: fst found, snd found)
     | Some f =>
       let* _ := check (negb (pd_private f)) (EMsg "submission import must be a mode-0600 regular file") in
       let* _ := check (queueLedgerMaxSize <? len (pd_bytes f)) ELedgerTooLarge in
       let* _ := check (match pd_fence f with Some fence => sf_Schema fence =? 4 | None => false end)
         (EMsg "submission fence exists without its migration journal") in
       let digest := sha256_hex (pd_bytes f) in
       let* _ := preserveSubmissionBackup (backupPath db digest) f in
       let* found := collectSources rest in ret (mkSource path digest (backupPath db digest) :: fst found, Some f)
     end)%run
  end.

Definition backupsRemain (m : migration) : bool :=
  existsb (fun kv => String.prefix (backupPrefix db) kv.1) (map_to_list (mg_files m)).

Definition importSources : run (list submissionImportSource) :=
  (let* found := collectSources pathsOf in
   let chosen := snd found in
   let* remain := look backupsRemain in
   let* _ := check (negb (bool_decide (is_Some chosen)) && remain)
     (EMsg "submission sources are missing while migration backups remain; restore the authoritative predecessor before retrying") in
   match decodeImport chosen with
   | Err e => throw e
   | Ok l =>
     let* rows := look mg_rows in
     let* _ := check (negb (bool_decide (rows = ∅))) (EMsg "uninitialized submission database contains records") in
     let* _ := lasting (fun m => mkMigration (mg_files m) 1 "imported" (Some (fst found)) (importRows l)) in
     ret (fst found)
   end)%run.

(** One predecessor is fenced when it is as it was imported, or gone and its copy is there. *)
Definition fenceSource (source : submissionImportSource) : run unit :=
  (let* file := look (fun m => mg_files m !! is_Path source) in
   let* copy := look (fun m => mg_files m !! is_Backup source) in
   match file with
   | Some f =>
     if str_eqb (pd_bytes f) (fenceText db) then ret tt else
     let* _ := check (is_empty (is_Digest source) || negb (str_eqb (sha256_hex (pd_bytes f)) (is_Digest source)))
       (EMsg "submission source changed during interrupted migration") in
     writeFile (is_Path source) (fenceFile db)
   | None =>
     if is_empty (is_Digest source) then writeFile (is_Path source) (fenceFile db) else
     let* _ := check (negb (str_eqb (is_Backup source) (backupPath db (is_Digest source)))) (EMsg "submission backup identity changed") in
     let* _ := check (match copy with Some g => negb (str_eqb (sha256_hex (pd_bytes g)) (is_Digest source)) | None => true end)
       (EMsg "submission backup missing or changed during interrupted migration") in
     writeFile (is_Path source) (fenceFile db)
   end)%run.

Fixpoint fenceSources (sources : list submissionImportSource) (paths : list string) : run unit :=
  match sources, paths with
  | source :: sources, path :: paths =>
    (let* _ := check (negb (str_eqb (is_Path source) path)) (EMsg "submission import source identity changed") in
     let* _ := fenceSource source in
     fenceSources sources paths)%run
  | _, _ => ret tt
  end.

(** The fences of a database in use; missing ones are returned. *)
Fixpoint checkFences (sources : list submissionImportSource) (paths : list string) : run (list string) :=
  match sources, paths with
  | source :: sources, path :: paths =>
    (let* _ := check (negb (str_eqb (is_Path source) path)) (EMsg "submission database import identities changed") in
     let* file := look (fun m => mg_files m !! is_Path source) in
     match file with
     | None => let* missing := checkFences sources paths in ret (is_Path source :: missing)
     | Some f =>
       let* _ := check (match pd_fence f with
                        | Some fence => negb (sf_Schema fence =? 4) || negb (str_eqb (sf_Storage fence) "sqlite") || negb (str_eqb (sf_Database fence) db)
                        | None => true end) (EMsg "submission database predecessor fence changed") in
       checkFences sources paths
     end)%run
  | _, _ => ret []
  end.

Fixpoint restoreFences (missing : list string) : run unit :=
  match missing with
  | [] => ret tt
  | path :: rest => (let* _ := writeFile path (fenceFile db) in restoreFences rest)%run
  end.

Definition verifySubmissionFences : run unit :=
  (let* journal := look mg_sources in
   match journal with
   | None | Some [] => throw (EMsg "submission import journal is missing")
   | Some sources =>
     let* _ := check (negb (Datatypes.length pathsOf =? Datatypes.length sources)%nat) (EMsg "submission database import identities changed") in
     let* missing := checkFences sources pathsOf in
     restoreFences missing
   end)%run.

Definition finishImport (sources : list submissionImportSource) : run unit :=
  (let* _ := check (negb (Datatypes.length sources =? Datatypes.length pathsOf)%nat) (EMsg "submission import sources changed") in
   let* _ := fenceSources sources pathsOf in
   lasting (fun m => mkMigration (mg_files m) (mg_version m) "ready" (mg_sources m) (mg_rows m)))%run.

Definition initializeSubmissionDatabase : run unit :=
  (let* _ := check (str_eqb primary db || str_eqb legacy db) (EMsg "submission database must differ from predecessor paths") in
   let* version := look mg_version in
   let* _ := check (negb (version =? 0) && negb (version =? 1)) (EMsg "unsupported submission database schema") in
   let* _ := if version =? 0 then createSubmissionSchema else ret tt in
   let* phase := look mg_phase in
   if str_eqb phase "ready" then verifySubmissionFences
   else if str_eqb phase "imported" then
     let* journal := look mg_sources in
     match journal with
     | None | Some [] => throw (EMsg "submission migration journal is invalid")
     | Some sources => finishImport sources
     end
   else if is_empty phase then let* sources := importSources in finishImport sources
   else throw (EMsg "unknown submission migration phase"))%run.
End initialise.
