(* ===== verification/MigrationFacts.v ===== *)
(** * Properties of the migration to the database

    The ledger that counts, that of the files before the import and that of the
    database after it, is the same at every point where a run may end; a run that
    was cut short is completed by the next one; and a predecessor that changed
    after the import is never fenced away. *)
From S2P Require Import Prelude GoStd GoValue TurnOptions Ledger LedgerFacts Store LedgerFile Locality SubmissionDb StoreFacts Migration.
From Stdlib Require Import String.
Open Scope Z_scope.

(** ** The import reads what the file store reads *)

Lemma rowOf_payload k data claim : row_payload (rowOf k data claim) = data ∧ row_claim (rowOf k data claim) = claim.
Proof. by destruct data. Qed.

(** Installing leaves no claim, so that attaching the empty one changes nothing. *)
Lemma attach_nothing k data l l' : installSubmissionRecord k data l = Ok l' → attachClaim k "" l' = l'.
Proof.
  destruct k as [[kind t] id]. unfold installSubmissionRecord, attachClaim. intros H.
  destruct (str_eqb kind "sends") eqn:Es; [|done]. bools. subst kind. simpl in H.
  destruct (is_empty id); [done|]. destruct data as [|a| |]; try done.
  repeat (cases_in H; try discriminate). simplify_eq/=. unfold withSends, sendAt. simpl. f_equal.
  rewrite look2_put2, decide_True by done. simpl. unfold put2. rewrite lookup_insert_eq. simpl. by rewrite !insert_insert_eq.
Qed.

Lemma installRows_app a b l : installRows (a ++ b) l = (let? l := installRows a l in installRows b l)%codex.
Proof. revert l. induction a as [|[k row] a IH]; intros l; simpl; [done|]. by destruct (installSubmissionRecord _ _ _); simpl. Qed.

Section groups.
Context {V : Type} (kind : string) (encode : V → payload).

Definition entryRows (thread : string) (entries : list (string * V)) : list (submissionKey * submissionRow) :=
  (fun '(id, v) => ((kind, thread, id), rowOf (kind, thread, id) (encode v) "")) <$> entries.
(** The rows of the groups of a document. *)
Definition groupRows (groups : list (string * option (gmap string V))) : list (submissionKey * submissionRow) :=
  '(thread, entries) ← groups; entryRows thread (map_to_list (default ∅ entries)).

Lemma importEntries_rows thread entries l : importEntries kind encode thread entries l = installRows (entryRows thread entries) l.
Proof.
  revert l. induction entries as [|[id v] entries IH]; intros l; [done|].
  cbn -[rowOf installSubmissionRecord attachClaim res_bind]. destruct (rowOf_payload (kind, thread, id) (encode v) "") as [-> ->].
  destruct (installSubmissionRecord (kind, thread, id) (encode v) l) as [l'|] eqn:E; [|done].
  cbn [res_bind]. rewrite (attach_nothing _ _ _ _ E). apply IH.
Qed.

Definition sound (groups : list (string * option (gmap string V))) : Prop :=
  ∀ t o, (t, o) ∈ groups → t ≠ "" ∧ is_Some o.
Lemma importGroups_rows invalid groups l l' :
  importGroups kind encode invalid groups l = Ok l' ↔ sound groups ∧ installRows (groupRows groups) l = Ok l'.
Proof.
  revert l. induction groups as [|[t o] groups IH]; intros l; simpl.
  { split; [intros [= ->]; split; [by intros ? ? ?%not_elem_of_nil|done]|by intros [_ ?]]. }
  assert (sound ((t, o) :: groups) ↔ (t ≠ "" ∧ is_Some o) ∧ sound groups) as Hs.
  { split.
    - intros H. split; [apply (H t o); by left|]. intros t' o' Hin. apply H. by right.
    - intros [H1 H2] t' o' [E|Hin]%elem_of_cons; [by simplify_eq|by apply H2]. }
  rewrite Hs, installRows_app. destruct o as [entries|]; [|split; [done|by intros [[[_ []] _] _]]].
  unfold guard. destruct (is_empty t) eqn:Et; simpl; bools; [split; [done|by intros [[[? _] _] _]]|].
  rewrite importEntries_rows. destruct (installRows (entryRows t (map_to_list entries)) l) as [l1|]; simpl; [|split; [done|by intros [_ ?]]].
  rewrite IH. split; [intros [? ?]; split_and!; eauto|by intros [[_ ?] ?]].
Qed.

Lemma groupRows_elem groups k row :
  (k, row) ∈ groupRows groups ↔
  ∃ t o id v, (t, o) ∈ groups ∧ default ∅ o !! id = Some v ∧ k = (kind, t, id) ∧ row = rowOf k (encode v) "".
Proof.
  unfold groupRows. rewrite list_elem_of_bind. split.
  - intros ([t o] & Hin & Hg). unfold entryRows in Hin. apply list_elem_of_fmap in Hin as ([id v] & E & Hv). simplify_eq.
    apply elem_of_map_to_list in Hv. by exists t, o, id, v.
  - intros (t & o & id & v & Hg & Hv & -> & ->). exists (t, o). split; [|done]. apply list_elem_of_fmap. exists (id, v).
    by rewrite elem_of_map_to_list.
Qed.
Lemma entryRows_keys t entries : (entryRows t entries).*1 = (fun id => (kind, t, id)) <$> entries.*1.
Proof. induction entries as [|[id v] entries IH]; [done|]. simpl. f_equal. exact IH. Qed.
Lemma groupRows_NoDup groups : NoDup groups.*1 → NoDup (groupRows groups).*1.
Proof.
  induction groups as [|[t o] groups IH]; simpl; [constructor|]. intros [Hn Hnd]%NoDup_cons. rewrite fmap_app.
  apply NoDup_app. split_and!; [|intros [[k' t'] id] H1 H2|by apply IH].
  - rewrite entryRows_keys. apply NoDup_fmap; [intros ? ? [=]; done|]. apply NoDup_fst_map_to_list.
  - apply list_elem_of_fmap in H1 as ([k1 row1] & E1 & H1). apply list_elem_of_fmap in H2 as ([k2 row2] & E2 & H2).
    unfold entryRows in H1. apply list_elem_of_fmap in H1 as ([id1 v1] & E & _). simplify_eq/=.
    apply groupRows_elem in H2 as (t2 & o2 & id2 & v2 & Hg & _ & E & _). simplify_eq/=.
    apply Hn. apply list_elem_of_fmap. by exists (t2, o2).
Qed.
End groups.

(** ** The rows of a document *)

Lemma valid_queue t id d :
  validRow ("attempts", t, id) (rowOf ("attempts", t, id) (PayString d) "") = true ↔ t ≠ "" ∧ id ≠ "" ∧ validSubmissionDigest d = true.
Proof.
  split; [|intros (? & ? & ?); by apply validRow_queue]. unfold validRow. simpl.
  destruct (is_empty id) eqn:E1; [done|]. destruct (is_empty t) eqn:E2; [done|]. destruct (validSubmissionDigest d); [|done]. by bools.
Qed.
Lemma valid_send t id a :
  validRow ("sends", t, id) (rowOf ("sends", t, id) (PaySend (clearAdmission a)) "") = true ↔ t ≠ "" ∧ id ≠ "" ∧ validSend a = true.
Proof.
  split; [|intros (? & ? & ?); by apply validRow_send]. unfold validRow, validSend. simpl.
  change (validSendAttemptState (clearAdmission a)) with (validSendAttemptState a).
  change (optionsAgree (clearAdmission a)) with (optionsAgree a).
  destruct (is_empty id) eqn:E1; [done|]. destruct (is_empty t) eqn:E2; [done|].
  destruct (validSubmissionDigest (sa_Digest a)), (validSubmissionDigest (effectiveTurnOptionsDigest _)), (validSendAttemptState a), (optionsAgree a);
    simpl; try done. by bools.
Qed.
Lemma valid_deletion t id d :
  validRow ("deletions", t, id) (rowOf ("deletions", t, id) (PayDeletion d) "") = true ↔ t ≠ "" ∧ id ≠ "" ∧ validDeletion d = true.
Proof.
  split; [|intros (? & ? & ?); by apply validRow_deletion]. unfold validRow. simpl.
  destruct (is_empty id) eqn:E1; [done|]. destruct (is_empty t) eqn:E2; [done|]. destruct (validDeletion d); [|done]. by bools.
Qed.
Lemma valid_operation d t :
  validRow ("retirements", "", d) (rowOf ("retirements", "", d) (PayString t) "") = true ↔ isAbs d = true ∧ t ≠ "".
Proof.
  split; [|intros (? & ?); by apply validRow_operation]. unfold validRow. simpl.
  destruct (is_empty d) eqn:E1; [done|]. destruct (isAbs d); [|done]. destruct (is_empty t) eqn:E2; [done|]. by bools.
Qed.

Section document.
Context (raw : rawLedger).
Let A := default ∅ (rl_Attempts raw).
Let S := default ∅ (rl_Sends raw).
Let D := default ∅ (rl_Deletions raw).
Let O := default ∅ (rl_Operations raw).

Definition allRows : list (submissionKey * submissionRow) :=
  groupRows "attempts" PayString (map_to_list A) ++ groupRows "sends" (fun a => PaySend (clearAdmission a)) (map_to_list S)
  ++ groupRows "deletions" PayDeletion (map_to_list D) ++ entryRows "retirements" PayString "" (map_to_list O).

Lemma importLedger_rows l :
  importLedger raw = Ok l ↔
  (sound (map_to_list A) ∧ sound (map_to_list S) ∧ sound (map_to_list D)) ∧ installRows allRows emptyLedger = Ok l.
Proof.
  unfold importLedger, allRows. rewrite !installRows_app. fold A S D O. split.
  - intros H. destruct (importGroups "attempts" _ _ _ _) as [l1|] eqn:E1; [|done]. apply importGroups_rows in E1 as [S1 ->]. simpl in *.
    destruct (importGroups "sends" _ _ _ _) as [l2|] eqn:E2; [|done]. apply importGroups_rows in E2 as [S2 E2]. rewrite installRows_app, E2. simpl in *.
    destruct (importGroups "deletions" _ _ _ _) as [l3|] eqn:E3; [|done]. apply importGroups_rows in E3 as [S3 E3]. rewrite installRows_app, E3. simpl in *.
    by rewrite importEntries_rows in H.
  - intros [(S1 & S2 & S3) H]. destruct (installRows (groupRows "attempts" _ _) _) as [l1|] eqn:E1; [|done]. simpl in H.
    rewrite installRows_app in H. destruct (installRows (groupRows "sends" _ _) _) as [l2|] eqn:E2; [|done]. simpl in H.
    rewrite installRows_app in H. destruct (installRows (groupRows "deletions" _ _) _) as [l3|] eqn:E3; [|done]. simpl in H.
    rewrite (proj2 (importGroups_rows _ _ _ _ _ _) (conj S1 E1)). simpl. rewrite (proj2 (importGroups_rows _ _ _ _ _ _) (conj S2 E2)). simpl.
    rewrite (proj2 (importGroups_rows _ _ _ _ _ _) (conj S3 E3)). simpl. by rewrite importEntries_rows.
Qed.

Lemma allRows_NoDup : NoDup allRows.*1.
Proof.
  assert (∀ {V} kind (f : V → payload) groups k, k ∈ (groupRows kind f groups).*1 → k.1.1 = kind) as Hg.
  { intros V kind f groups k ([k' row] & -> & H)%list_elem_of_fmap. by apply groupRows_elem in H as (? & ? & ? & ? & _ & _ & -> & _). }
  assert (∀ k, k ∈ (entryRows "retirements" PayString "" (map_to_list O)).*1 → k.1.1 = "retirements") as He.
  { intros k. rewrite entryRows_keys. by intros (? & -> & _)%list_elem_of_fmap. }
  unfold allRows. rewrite !fmap_app, !NoDup_app. split_and!; try (apply groupRows_NoDup, NoDup_fst_map_to_list).
  - intros k H1 H2. apply Hg in H1. rewrite !elem_of_app in H2. destruct H2 as [H2|[H2|H2]]; [apply Hg in H2..|apply He in H2]; congruence.
  - intros k H1 H2. apply Hg in H1. rewrite !elem_of_app in H2. destruct H2 as [H2|H2]; [apply Hg in H2|apply He in H2]; congruence.
  - intros k H1 H2. apply Hg in H1. apply He in H2. congruence.
  - rewrite entryRows_keys. apply NoDup_fmap; [intros ? ? [=]; done|]. apply NoDup_fst_map_to_list.
Qed.

Lemma allRows_elem k row : (k, row) ∈ allRows ↔
  (∃ t o id v, A !! t = Some o ∧ default ∅ o !! id = Some v ∧ k = ("attempts", t, id) ∧ row = rowOf k (PayString v) "") ∨
  (∃ t o id v, S !! t = Some o ∧ default ∅ o !! id = Some v ∧ k = ("sends", t, id) ∧ row = rowOf k (PaySend (clearAdmission v)) "") ∨
  (∃ t o id v, D !! t = Some o ∧ default ∅ o !! id = Some v ∧ k = ("deletions", t, id) ∧ row = rowOf k (PayDeletion v) "") ∨
  (∃ d v, O !! d = Some v ∧ k = ("retirements", "", d) ∧ row = rowOf k (PayString v) "").
Proof.
  unfold allRows. rewrite !elem_of_app, !groupRows_elem. unfold entryRows. rewrite list_elem_of_fmap.
  setoid_rewrite elem_of_map_to_list. split.
  - intros [?|[?|[?|([d v] & [= -> ->] & Hd%elem_of_map_to_list)]]]; [auto..|]. right. right. right. by exists d, v.
  - intros [?|[?|[?|(d & v & ? & -> & ->)]]]; [auto..|]. right. right. right. exists (d, v). by rewrite elem_of_map_to_list.
Qed.

(** What both readers require of a document. *)
Definition groupsValid {V} (m : gmap string (option (gmap string V))) (ok : V → bool) : Prop :=
  ∀ t o, m !! t = Some o → t ≠ "" ∧ ∃ i, o = Some i ∧ ∀ id v, i !! id = Some v → id ≠ "" ∧ ok v = true.
Definition documentValid : Prop :=
  groupsValid A validSubmissionDigest ∧ groupsValid S validSend ∧ groupsValid D validDeletion ∧
  ∀ d t, O !! d = Some t → isAbs d = true ∧ t ≠ "".

Lemma sound_valid {V} (m : gmap string (option (gmap string V))) (ok : V → bool) :
  groupsValid m ok ↔ sound (map_to_list m) ∧
    ∀ t o id v, m !! t = Some o → default ∅ o !! id = Some v → t ≠ "" ∧ id ≠ "" ∧ ok v = true.
Proof.
  split.
  - intros H. split.
    + intros t o Hin%elem_of_map_to_list. destruct (H _ _ Hin) as (? & i & -> & _). eauto.
    + intros t o id v Ho Hv. destruct (H _ _ Ho) as (? & i & -> & Hi). destruct (Hi _ _ Hv). done.
  - intros [Hs Hv] t o Ho. destruct (Hs t o) as [Ht [i ->]]; [by apply elem_of_map_to_list|]. split; [done|]. exists i. split; [done|].
    intros id v Hi. by destruct (Hv t (Some i) id v Ho Hi) as (_ & ? & ?).
Qed.

Lemma import_total : documentValid ↔ ∃ l, importLedger raw = Ok l.
Proof.
  unfold documentValid. rewrite !sound_valid. setoid_rewrite importLedger_rows. split.
  - intros ((S1 & H1) & (S2 & H2) & (S3 & H3) & H4).
    destruct (installRows_total allRows emptyLedger) as [l Hl]; [|by exists l]. apply Forall_forall. intros [k row].
    rewrite allRows_elem.
    intros [(t & o & id & v & ? & ? & -> & ->)|[(t & o & id & v & ? & ? & -> & ->)|[(t & o & id & v & ? & ? & -> & ->)|(d & v & ? & -> & ->)]]].
    + apply valid_queue. eauto.
    + apply valid_send. eauto.
    + apply valid_deletion. eauto.
    + apply valid_operation. eauto.
  - intros (l & (S1 & S2 & S3) & Hl). apply installRows_denotes in Hl as [Hv _]; [|apply allRows_NoDup]. rewrite Forall_forall in Hv.
    assert (∀ k row, (k, row) ∈ allRows → validRow k row = true) as Hrow by (intros k row Hin; by apply (Hv (k, row))).
    setoid_rewrite allRows_elem in Hrow. split_and!; try done.
    + intros t o id v Ho Hi. apply valid_queue, Hrow. left. by exists t, o, id, v.
    + intros t o id v Ho Hi. apply valid_send, Hrow. right. left. by exists t, o, id, v.
    + intros t o id v Ho Hi. apply valid_deletion, Hrow. right. right. left. by exists t, o, id, v.
    + intros d t Ho. apply valid_operation, Hrow. right. right. right. by exists d, t.
Qed.

Lemma validate_total : is_Some (rl_Attempts raw) → documentValid ↔ ∃ l, validateLedger raw = Ok l.
Proof.
  intros [attempts Ea]. unfold documentValid, validateLedger, groupsValid. subst A S D O. rewrite Ea. simpl.
  set (bad1 := fun (id digest : string) => _). set (bad3 := fun (id : string) (d : queueDeletionAttempt) => _).
  set (bad4 := fun (key value : string) => _).
  split.
  - intros (H1 & H2 & H3 & H4).
    rewrite (proj2 (checkOuter_ok _ (checkInner bad1 _) attempts)); [simpl|].
    2: { intros t o Ho. destruct (H1 _ _ Ho) as (? & i & -> & Hi). split; [done|]. exists i. split; [done|]. apply checkInner_ok.
         intros id v Hv. destruct (Hi _ _ Hv) as [Hne Hok]. subst bad1. simpl. apply is_empty_false in Hne. by rewrite Hne, Hok. }
    rewrite (proj2 (checkOuter_ok _ checkSends _)); [simpl|].
    2: { intros t o Ho. destruct (H2 _ _ Ho) as (? & i & -> & Hi). split; [done|]. exists i. split; [done|]. by apply checkSends_ok. }
    rewrite (proj2 (checkOuter_ok _ (checkInner bad3 _) _)); [simpl|].
    2: { intros t o Ho. destruct (H3 _ _ Ho) as (? & i & -> & Hi). split; [done|]. exists i. split; [done|]. apply checkInner_ok.
         intros id v Hv. destruct (Hi _ _ Hv) as [Hne Hok]. subst bad3. simpl. apply is_empty_false in Hne. by rewrite Hne, Hok. }
    rewrite (proj2 (checkInner_ok bad4 _ _)); [simpl; eauto|].
    intros d t Ho. destruct (H4 _ _ Ho) as [Hab Hne]. subst bad4. simpl. apply is_empty_false in Hne. by rewrite Hab, Hne.
  - intros [l H].
    destruct (checkOuter _ (checkInner bad1 _) _) as [[]|] eqn:E1; [|done]. simpl in H.
    destruct (checkOuter _ checkSends _) as [[]|] eqn:E2; [|done]. simpl in H.
    destruct (checkOuter _ (checkInner bad3 _) _) as [[]|] eqn:E3; [|done]. simpl in H.
    destruct (checkInner bad4 _ _) as [[]|] eqn:E4; [|done]. clear H.
    rewrite checkOuter_ok in E1. rewrite checkOuter_ok in E2. rewrite checkOuter_ok in E3. rewrite checkInner_ok in E4. split_and!.
    + intros t o Ho. destruct (E1 _ _ Ho) as (? & i & -> & Hi). split; [done|]. exists i. split; [done|]. rewrite checkInner_ok in Hi.
      intros id v Hv. specialize (Hi _ _ Hv). subst bad1. simpl in Hi. by bools.
    + intros t o Ho. destruct (E2 _ _ Ho) as (? & i & -> & Hi). split; [done|]. exists i. split; [done|]. by rewrite checkSends_ok in Hi.
    + intros t o Ho. destruct (E3 _ _ Ho) as (? & i & -> & Hi). split; [done|]. exists i. split; [done|]. rewrite checkInner_ok in Hi.
      intros id v Hv. specialize (Hi _ _ Hv). subst bad3. simpl in Hi. by bools.
    + intros d t Ho. specialize (E4 _ _ Ho). subst bad4. simpl in E4. by bools.
Qed.

(** The entries of the imported ledger. *)
Lemma import_denotes l : importLedger raw = Ok l →
  (∀ t id, queueAt t id l = match A !! t with Some (Some i) => i !! id | _ => None end) ∧
  (∀ t id, sendAt t id l = match S !! t with Some (Some i) => normalizeStored <$> i !! id | _ => None end) ∧
  (∀ t id, deletionAt t id l = match D !! t with Some (Some i) => i !! id | _ => None end) ∧
  (∀ d, operations l !! d = O !! d).
Proof.
  intros [_ Hl]%importLedger_rows. apply installRows_denotes in Hl as [_ Hd]; [|apply allRows_NoDup].
  assert (∀ k row, (list_to_map allRows : database) !! k = Some row ↔ (k, row) ∈ allRows) as Hk.
  { intros k row. symmetry. apply elem_of_list_to_map, allRows_NoDup. }
  destruct (denotes_db _ _ Hd) as (Q & Se & De & Op).
  split_and!; [intros t id..|intros d]; [rewrite Q|rewrite Se|rewrite De|rewrite Op];
    unfold dbQueue, dbSend, dbDeletion, dbOperation; match goal with |- ?m !! ?k ≫= _ = _ => destruct (m !! k) as [row|] eqn:E end; simpl.
  - apply Hk, allRows_elem in E as [(t' & o & id' & v & Ho & Hi & [= <- <-] & ->)|[(? & ? & ? & ? & _ & _ & [=] & _)|[(? & ? & ? & ? & _ & _ & [=] & _)|(? & ? & _ & [=] & _)]]].
    rewrite Ho. by destruct o.
  - destruct (A !! t) as [[i|]|] eqn:Et; [|done..]. destruct (i !! id) as [v|] eqn:Ei; [|done].
    exfalso. assert (is_Some ((list_to_map allRows : database) !! ("attempts", t, id))) as [? ?]; [|congruence].
    eexists. apply Hk, allRows_elem. left. by exists t, (Some i), id, v.
  - apply Hk, allRows_elem in E as [(? & ? & ? & ? & _ & _ & [=] & _)|[(t' & o & id' & v & Ho & Hi & [= <- <-] & ->)|[(? & ? & ? & ? & _ & _ & [=] & _)|(? & ? & _ & [=] & _)]]].
    rewrite Ho. destruct o as [i|]; [|done]. simpl in Hi. by rewrite Hi.
  - destruct (S !! t) as [[i|]|] eqn:Et; [|done..]. destruct (i !! id) as [v|] eqn:Ei; [|done].
    exfalso. assert (is_Some ((list_to_map allRows : database) !! ("sends", t, id))) as [? ?]; [|congruence].
    eexists. apply Hk, allRows_elem. right. left. by exists t, (Some i), id, v.
  - apply Hk, allRows_elem in E as [(? & ? & ? & ? & _ & _ & [=] & _)|[(? & ? & ? & ? & _ & _ & [=] & _)|[(t' & o & id' & v & Ho & Hi & [= <- <-] & ->)|(? & ? & _ & [=] & _)]]].
    rewrite Ho. by destruct o.
  - destruct (D !! t) as [[i|]|] eqn:Et; [|done..]. destruct (i !! id) as [v|] eqn:Ei; [|done].
    exfalso. assert (is_Some ((list_to_map allRows : database) !! ("deletions", t, id))) as [? ?]; [|congruence].
    eexists. apply Hk, allRows_elem. right. right. left. by exists t, (Some i), id, v.
  - apply Hk, allRows_elem in E as [(? & ? & ? & ? & _ & _ & [=] & _)|[(? & ? & ? & ? & _ & _ & [=] & _)|[(? & ? & ? & ? & _ & _ & [=] & _)|(d' & v & Hd' & [= <-] & ->)]]].
    by rewrite Hd'.
  - destruct (O !! d) as [v|] eqn:Et; [|done].
    exfalso. assert (is_Some ((list_to_map allRows : database) !! ("retirements", "", d))) as [? ?]; [|congruence].
    eexists. apply Hk, allRows_elem. right. right. right. by exists d, v.
Qed.
End document.

(** The two readers accept the same documents and find the same entries. *)
Lemma import_agrees raw : is_Some (rl_Attempts raw) →
  match validateLedger raw, importLedger raw with
  | Ok l, Ok l' => l' ≡ l
  | Err _, Err _ => True
  | _, _ => False
  end.
Proof.
  intros Ha. pose proof (validate_total raw Ha) as Hv. pose proof (import_total raw) as Hi.
  destruct (validateLedger raw) as [l|e] eqn:Ev, (importLedger raw) as [l'|e'] eqn:Ei; [| | |done].
  - destruct (import_denotes raw l' Ei) as (Q & Se & De & Op). destruct Ha as [attempts Ea].
    unfold validateLedger in Ev. rewrite Ea in *. simpl in *.
    destruct (checkOuter _ _ (map_to_list attempts)) as [[]|]; [|done]. simpl in Ev.
    destruct (checkOuter _ checkSends _) as [[]|]; [|done]. simpl in Ev. destruct (checkOuter _ _ _) as [[]|]; [|done]. simpl in Ev.
    destruct (checkInner _ _ _) as [[]|]; [|done]. injection Ev as <-.
    split_and!; [intros t id..|].
    + etrans; [apply Q|]. simpl. rewrite look2_installed. destruct (attempts !! t) as [[i|]|]; [|done..]. by destruct (i !! id).
    + etrans; [apply Se|]. simpl. by rewrite look2_installed.
    + etrans; [apply De|]. simpl. rewrite look2_installed. destruct (default ∅ (rl_Deletions raw) !! t) as [[i|]|]; [|done..]. by destruct (i !! id).
    + apply map_eq. intros d. by rewrite Op.
  - destruct (proj1 Hi) as [? ?]; [|done]. apply Hv. eauto.
  - destruct (proj1 Hv) as [? ?]; [|done]. apply Hi. eauto.
Qed.

(** ** The imported rows *)

Lemma importRows_written l : claimless l → importRows l = writeSubmissionRecords ∅ l ∅.
Proof.
  intros Hc. apply map_eq. intros k. unfold importRows, writeSubmissionRecords.
  rewrite map_filter_empty, map_union_empty, !map_lookup_imap. destruct (submissionRecords l !! k) as [data|]; [|done]. simpl.
  rewrite !lookup_empty. do 2 f_equal. destruct k as [[kind t] id]. simpl. destruct (sendAt t id l) as [a|] eqn:E; [|done].
  symmetry. by apply (Hc t id).
Qed.

Lemma importRows_view l : storable l → claimless l → dbView (importRows l) ≡ l.
Proof.
  intros Hl Hc. rewrite importRows_written by done.
  assert (rowsValid ∅) as Hv by (intros k row; by rewrite lookup_empty).
  assert (dbSound ∅) as Hs.
  { split; [done|]. assert (dbView ∅ = emptyLedger) as -> by done. split; [apply empty_wf|]. split; try (intros ? ?; simpl; by rewrite lookup_empty). }
  pose proof (written_equiv everything ∅ emptyLedger l l Hs) as H. rewrite scopeRows_everything in H. by apply H.
Qed.

Lemma import_storable raw l l' : importLedger raw = Ok l' → l' ≡ l → storable l → storable l' ∧ claimless l'.
Proof.
  intros Hi (Eq & Es & Ed & Eo) Hl. split.
  - eapply dense_storable; [|exact Hl|..].
    + apply importLedger_rows in Hi as [_ Hi]. eapply installRows_dense, Hi. split; intros t inner; simpl; by rewrite lookup_empty.
    + intros t id v <-. symmetry. apply Eq.
    + intros t id v <-. symmetry. apply Es.
    + intros t id v <-. symmetry. apply Ed.
    + intros d v. by rewrite Eo.
  - destruct (import_denotes raw l' Hi) as (_ & Se & _). intros t id a. rewrite Se.
    destruct (_ !! t) as [[i|]|]; [|done..]. by intros (x & _ & ->)%fmap_Some.
Qed.

(** ** Runs from point to point *)

(** A run that ends without a change, and one that goes on as another would start. *)
Definition still {A} (p : run A) (m : migration) (o : attempt A) : Prop := ∀ k, p (k, m) = (o, (k, m)).
Definition goesOn {A} (p : run A) (m m1 : migration) (r : run A) : Prop :=
  p (0%nat, m) = (Interrupted, (0%nat, m)) ∧ ∀ k, p (S k, m) = r (k, m1).

Lemma still_then {A B} (p : run A) (q : A → run B) m a k : still p m (Finished a) → andThen p q (k, m) = q a (k, m).
Proof. intros H. unfold andThen. by rewrite H. Qed.
Lemma still_failed {A B} (p : run A) (q : A → run B) m e : still p m (Failed e) → still (andThen p q) m (Failed e).
Proof. intros H k. unfold andThen. by rewrite H. Qed.
Lemma goesOn_then {A B} (p : run A) (q : A → run B) m m1 r : goesOn p m m1 r → goesOn (andThen p q) m m1 (andThen r q).
Proof. intros [H1 H2]. split; [unfold andThen; by rewrite H1|]. intros k. unfold andThen. by rewrite H2. Qed.
Lemma goesOn_ext {A} (p p' : run A) m m1 r r' :
  (∀ k, p (k, m) = p' (k, m)) → (∀ k, r (k, m1) = r' (k, m1)) → goesOn p m m1 r → goesOn p' m m1 r'.
Proof. intros Hp Hr [H1 H2]. split; [by rewrite <- Hp|]. intros k. by rewrite <- Hp, H2, Hr. Qed.
Lemma still_check b e m : still (check b e) m (if b then Failed e else Finished tt).
Proof. by destruct b. Qed.
Lemma goesOn_lasting f m : goesOn (lasting f) m (f m) (ret tt).
Proof. by split. Qed.

Section runs.
Context (primary legacy db : string).
Abbreviation paths := (pathsOf primary legacy).
Abbreviation collect := (collectSources db).

(** What the two decoders and the configuration give. *)
Record configured : Prop := {
  cf_database : primary ≠ db ∧ legacy ≠ db;
  cf_legacy : legacy ≠ primary;
  cf_paths path digest : path ∈ paths → path ≠ backupPath db digest }.
Record decoded (m : migration) : Prop := {
  dc_fence path f : mg_files m !! path = Some f → pd_bytes f = fenceText db → pd_fence f = Some (mkFence 4 "sqlite" db);
  dc_schema path f fence raw trailing : mg_files m !! path = Some f → pd_fence f = Some fence → sf_Schema fence = 4 →
    pd_document f = Decoded raw trailing → rl_Schema raw ≠ 3 }.

Definition withFile (path : string) (f : predecessor) (m : migration) : migration :=
  mkMigration (<[path := f]> (mg_files m)) (mg_version m) (mg_phase m) (mg_sources m) (mg_rows m).
Definition copyOf (f : predecessor) : predecessor := mkPredecessor true (pd_bytes f) (pd_fence f) (pd_document f).
Definition backupOf (f : predecessor) : string := backupPath db (sha256_hex (pd_bytes f)).

(** What collecting finds at the paths. *)
Definition sourceAt (m : migration) (path : string) : submissionImportSource :=
  match mg_files m !! path with
  | Some f => mkSource path (sha256_hex (pd_bytes f)) (backupOf f)
  | None => mkSource path "" ""
  end.
Definition chosenOf (m : migration) (ps : list string) : option predecessor := head (omap (fun path => mg_files m !! path) ps).

(** A copy that is made. *)
Definition copies (ps : list string) (m m1 : migration) : Prop :=
  ∃ path f, path ∈ ps ∧ mg_files m !! path = Some f ∧ mg_files m !! backupOf f = None ∧ m1 = withFile (backupOf f) (copyOf f) m.

Lemma preserve_cases f m :
  (mg_files m !! backupOf f = None ∧ goesOn (preserveSubmissionBackup (backupOf f) f) m (withFile (backupOf f) (copyOf f) m) (ret tt)) ∨
  (∃ g, mg_files m !! backupOf f = Some g ∧
     still (preserveSubmissionBackup (backupOf f) f) m
       (if str_eqb (pd_bytes g) (pd_bytes f) then Finished tt else Failed (EMsg "submission migration backup changed"))).
Proof.
  unfold preserveSubmissionBackup. destruct (mg_files m !! backupOf f) as [g|] eqn:E.
  - right. exists g. split; [done|]. intros k. unfold andThen, look. simpl. rewrite E. by destruct (str_eqb _ _).
  - left. split; [done|]. split; [|intros k]; unfold andThen, look; simpl; by rewrite E.
Qed.

(** One path, and the rest. *)
Definition headOK (f : predecessor) : bool :=
  pd_private f && negb (queueLedgerMaxSize <? len (pd_bytes f))
  && negb (match pd_fence f with Some fence => sf_Schema fence =? 4 | None => false end).
Definition addNone (path : string) (found : list submissionImportSource * option predecessor) :=
  (mkSource path "" "" :: fst found, snd found).
Definition addSome (path : string) (f : predecessor) (found : list submissionImportSource * option predecessor) :=
  (mkSource path (sha256_hex (pd_bytes f)) (backupOf f) :: fst found, Some f).

Lemma collect_none path ps m k : mg_files m !! path = None →
  collect (path :: ps) (k, m) = andThen (collect ps) (fun found => ret (addNone path found)) (k, m).
Proof. intros E. simpl. unfold andThen at 1, look. simpl. by rewrite E. Qed.
Lemma collect_bad path ps m f : mg_files m !! path = Some f → headOK f = false → ∃ e, still (collect (path :: ps)) m (Failed e).
Proof.
  intros E Hb. unfold headOK in Hb. simpl. unfold still, andThen, look, check. simpl. rewrite E.
  destruct (pd_private f); [|by eexists]. destruct (queueLedgerMaxSize <? _); simpl in *; [by eexists|].
  destruct (match pd_fence f with Some _ => _ | None => _ end); simpl in *; [by eexists|done].
Qed.
Lemma collect_some path ps m k f : mg_files m !! path = Some f → headOK f = true →
  collect (path :: ps) (k, m) =
  andThen (preserveSubmissionBackup (backupOf f) f) (fun _ => andThen (collect ps) (fun found => ret (addSome path f found))) (k, m).
Proof.
  intros E Hb. unfold headOK in Hb. bools. simpl. unfold andThen at 1, look. simpl. rewrite E.
  unfold check. rewrite H, H0, (proj2 (Z.ltb_ge _ _) H1). done.
Qed.

(** A copy of the file is there. *)
Definition copied (m : migration) (f : predecessor) : Prop := ∃ g, mg_files m !! backupOf f = Some g ∧ pd_bytes g = pd_bytes f.

Lemma collect_cases ps m : (∀ path digest, path ∈ ps → path ≠ backupPath db digest) →
  (∃ e, still (collect ps) m (Failed e)) ∨
  (still (collect ps) m (Finished (sourceAt m <$> ps, chosenOf m ps)) ∧
     ∀ path f, path ∈ ps → mg_files m !! path = Some f → headOK f = true ∧ copied m f) ∨
  (∃ m1, copies ps m m1 ∧ goesOn (collect ps) m m1 (collect ps)).
Proof.
  induction ps as [|path ps IH]; intros Hps.
  { right. left. split; [done|]. by intros ? ? ?%not_elem_of_nil. }
  assert (∀ p digest, p ∈ ps → p ≠ backupPath db digest) as Hps' by (intros; apply Hps; by right).
  specialize (IH Hps'). assert (∀ digest, path ≠ backupPath db digest) as Hhead by (intros; apply Hps; by left). clear Hps.
  assert (∀ m1, copies ps m m1 → copies (path :: ps) m m1 ∧ mg_files m1 !! path = mg_files m !! path) as Hcopy.
  { intros m1 (p & f & Hp & Hf & Hn & ->). split; [exists p, f; split_and!; [by right|done..]|].
    simpl. rewrite lookup_insert_ne; [done|]. intros E. by apply (Hhead (sha256_hex (pd_bytes f))). }
  destruct (mg_files m !! path) as [f|] eqn:Ef.
  - destruct (headOK f) eqn:Eh; [|left; by eapply collect_bad].
    pose proof (fun k => collect_some path ps m k f Ef Eh) as Hc. set (q := fun found => ret (addSome path f found)) in *.
    destruct (preserve_cases f m) as [[En Hg]|(g & Eg & Hg)].
    + right. right. exists (withFile (backupOf f) (copyOf f) m). split; [exists path, f; split_and!; [by left|done..]|].
      apply (goesOn_then _ (fun _ => andThen (collect ps) q)) in Hg. eapply goesOn_ext; [|..|exact Hg]; [done|].
      intros k. rewrite (collect_some path ps _ k f).
      * symmetry. etrans; [apply (still_then _ (fun _ => andThen (collect ps) q) _ tt k)|done]. destruct (preserve_cases f (withFile (backupOf f) (copyOf f) m)) as [[En' _]|(g & Eg & Hg')].
        { simpl in En'. by rewrite lookup_insert_eq in En'. }
        simpl in Eg. rewrite lookup_insert_eq in Eg. injection Eg as <-. simpl in Hg'. by rewrite str_eqb_refl in Hg'.
      * simpl. rewrite lookup_insert_ne; [done|]. intros E. by apply (Hhead (sha256_hex (pd_bytes f))).
      * done.
    + destruct (str_eqb (pd_bytes g) (pd_bytes f)) eqn:Eb.
      2: { left. eexists. intros k. rewrite Hc. by apply still_failed. }
      assert (∀ m1 k, mg_files m1 !! path = Some f → mg_files m1 !! backupOf f = Some g →
        collect (path :: ps) (k, m1) = andThen (collect ps) q (k, m1)) as Hskip.
      { intros m1 k E1 E2. rewrite (collect_some path ps m1 k f E1 Eh). apply (still_then _ (fun _ => andThen (collect ps) q) m1 tt k).
        destruct (preserve_cases f m1) as [[En' _]|(g' & Eg' & Hg')]; [congruence|]. rewrite E2 in Eg'. injection Eg' as <-. by rewrite Eb in Hg'. }
      destruct IH as [[e He]|[[Hs Hok]|(m1 & Hm1 & Hg1)]].
      * left. exists e. intros k. rewrite Hskip by done. by apply still_failed.
      * right. left. split.
        { intros k. rewrite Hskip by done. rewrite (still_then _ _ _ _ k Hs). unfold q, addSome, sourceAt, chosenOf, ret. simpl. by rewrite Ef. }
        intros p x [->|Hp]%elem_of_cons Hx; [|by eapply Hok]. assert (x = f) as -> by congruence.
        split; [done|]. exists g. split; [done|]. by apply str_eqb_eq.
      * right. right. exists m1. destruct (Hcopy _ Hm1) as [Hc1 Hp1]. split; [done|].
        eapply goesOn_ext; [..|exact (goesOn_then _ q _ _ _ Hg1)]; intros k; symmetry.
        { by apply Hskip. }
        apply Hskip; [congruence|]. destruct Hm1 as (p & f' & _ & _ & Hn & ->). simpl. rewrite lookup_insert_ne; [done|]. congruence.
  - pose proof (fun k => collect_none path ps m k Ef) as Hc. set (q := fun found => ret (addNone path found)) in *.
    destruct IH as [[e He]|[[Hs Hok]|(m1 & Hm1 & Hg1)]].
    + left. exists e. intros k. rewrite Hc. by apply still_failed.
    + right. left. split.
      { intros k. rewrite Hc, (still_then _ _ _ _ k Hs). unfold q, addNone, sourceAt, chosenOf, ret. simpl. by rewrite Ef. }
      intros p x [->|Hp]%elem_of_cons Hx; [congruence|by eapply Hok].
    + right. right. exists m1. destruct (Hcopy _ Hm1) as [Hc1 Hp1]. split; [done|].
      eapply goesOn_ext; [..|exact (goesOn_then _ q _ _ _ Hg1)]; intros k; symmetry; [done|]. apply collect_none. congruence.
Qed.

(** ** Fences *)

Definition fencedAt (path : string) (m : migration) : Prop :=
  ∃ f, mg_files m !! path = Some f ∧ pd_bytes f = fenceText db.
(** A predecessor as it was imported, or gone while its copy is there. *)
Definition unchanged (source : submissionImportSource) (m : migration) : Prop :=
  match mg_files m !! is_Path source with
  | Some f => is_Digest source ≠ "" ∧ sha256_hex (pd_bytes f) = is_Digest source
  | None => is_Digest source = "" ∨
      ∃ g, mg_files m !! is_Backup source = Some g ∧ is_Backup source = backupPath db (is_Digest source) ∧
           sha256_hex (pd_bytes g) = is_Digest source
  end.

Lemma fenceSource_cases source m :
  (fencedAt (is_Path source) m ∧ still (fenceSource db source) m (Finished tt)) ∨
  (¬ fencedAt (is_Path source) m ∧ ∃ e, still (fenceSource db source) m (Failed e)) ∨
  (¬ fencedAt (is_Path source) m ∧ unchanged source m ∧
     goesOn (fenceSource db source) m (withFile (is_Path source) (fenceFile db) m) (ret tt)).
Proof.
  unfold fenceSource, fencedAt, unchanged, goesOn, still, andThen, look, check. simpl.
  destruct (mg_files m !! is_Path source) as [f|] eqn:E; simpl.
  - destruct (str_eqb (pd_bytes f) (fenceText db)) eqn:Eb; bools; [left; eauto|right].
    assert (¬ ∃ f0, Some f = Some f0 ∧ pd_bytes f0 = fenceText db) as Hn by naive_solver.
    destruct (is_empty (is_Digest source)) eqn:Ed; simpl; [left; eauto|].
    destruct (str_eqb (sha256_hex (pd_bytes f)) (is_Digest source)) eqn:Eh; simpl; bools; [right; done|left; eauto].
  - assert (¬ ∃ f0, None = Some f0 ∧ pd_bytes f0 = fenceText db) as Hn by naive_solver. right.
    destruct (is_empty (is_Digest source)) eqn:Ed; simpl; bools; [right; auto|].
    destruct (str_eqb (is_Backup source) _) eqn:Ek; simpl; bools; [|left; eauto].
    destruct (mg_files m !! is_Backup source) as [g|] eqn:Eg; simpl; [|left; eauto].
    destruct (str_eqb (sha256_hex (pd_bytes g)) _) eqn:Eh; simpl; bools; [right|left; eauto].
    split_and!; try done. right. by exists g.
Qed.

(** The sources of a journal at the configured paths. *)
Definition journalOf (sources : list submissionImportSource) (ps : list string) : Prop := is_Path <$> sources = ps.

Lemma fenceSources_cases sources ps m :
  (∃ e, still (fenceSources db sources ps) m (Failed e)) ∨
  (still (fenceSources db sources ps) m (Finished tt) ∧
     (Datatypes.length sources = Datatypes.length ps → journalOf sources ps ∧ ∀ path, path ∈ ps → fencedAt path m)) ∨
  (∃ source, source ∈ sources ∧ is_Path source ∈ ps ∧ ¬ fencedAt (is_Path source) m ∧ unchanged source m ∧
     goesOn (fenceSources db sources ps) m (withFile (is_Path source) (fenceFile db) m) (fenceSources db sources ps)).
Proof.
  revert ps. induction sources as [|source sources IH]; intros [|path ps].
  { right. left. split; [done|]. intros _. split; [done|]. by intros ? ?%not_elem_of_nil. }
  1-2: right; left; by split.
  destruct (str_eqb (is_Path source) path) eqn:Ep.
  2: { left. eexists. intros k. simpl. rewrite Ep. simpl. reflexivity. }
  assert (∀ m1 k, fenceSources db (source :: sources) (path :: ps) (k, m1) =
    andThen (fenceSource db source) (fun _ => fenceSources db sources ps) (k, m1)) as Hhead by (intros m1 k; simpl; by rewrite Ep).
  bools. subst path. destruct (fenceSource_cases source m) as [[Hf Hs]|[[Hnf [e Hs]]|(Hnf & Hu & Hg)]].
  - assert (∀ m1 k, fencedAt (is_Path source) m1 →
      fenceSources db (source :: sources) (is_Path source :: ps) (k, m1) = fenceSources db sources ps (k, m1)) as Hskip.
    { intros m1 k Hf1. rewrite Hhead. destruct (fenceSource_cases source m1) as [[_ Hs1]|[[? _]|[? _]]]; [|done..].
      by apply (still_then _ (fun _ => fenceSources db sources ps) m1 tt k). }
    destruct (IH ps) as [[e He]|[[Hs1 Hall]|(src & Hin & Hp & Hn & Hu & Hg)]].
    + left. exists e. intros k. by rewrite Hskip.
    + right. left. split; [intros k; by rewrite Hskip|]. intros Hlen. simpl in Hlen. destruct Hall as [Hj Hall]; [lia|]. split.
      * unfold journalOf in *. rewrite fmap_cons. by f_equal.
      * intros p [->|Hp]%elem_of_cons; auto.
    + right. right. exists src. split_and!; [by right|by right|done|done|].
      eapply goesOn_ext; [..|exact Hg]; intros k; symmetry; apply Hskip; [done|].
      unfold fencedAt. simpl. destruct (decide (is_Path src = is_Path source)) as [->|Hne].
      * exists (fenceFile db). by rewrite lookup_insert_eq.
      * by rewrite lookup_insert_ne by done.
  - left. exists e. intros k. rewrite Hhead. by apply still_failed.
  - right. right. exists source. split_and!; [by left|by left|done|done|].
    eapply goesOn_ext; [intros k; symmetry; apply Hhead| |exact (goesOn_then _ _ _ _ _ Hg)].
    intros k. rewrite Hhead. symmetry. etrans; [apply (still_then _ (fun _ => fenceSources db sources ps) _ tt k)|done].
    destruct (fenceSource_cases source (withFile (is_Path source) (fenceFile db) m)) as [[_ Hs1]|[[Hx _]|[Hx _]]]; [done|exfalso; apply Hx..];
      exists (fenceFile db); simpl; by rewrite lookup_insert_eq.
Qed.

(** ** Fences of a database in use *)

Definition fenceRead (f : predecessor) : bool :=
  match pd_fence f with
  | Some fence => (sf_Schema fence =? 4) && str_eqb (sf_Storage fence) "sqlite" && str_eqb (sf_Database fence) db
  | None => false end.
Definition missingAt (m : migration) (ps : list string) : list string := filter (fun path => mg_files m !! path = None) ps.

Definition fencesRead (sources : list submissionImportSource) (ps : list string) (m : migration) : Prop :=
  journalOf sources ps ∧ ∀ path f, path ∈ ps → mg_files m !! path = Some f → fenceRead f = true.

Lemma checkFences_cases sources ps m : Datatypes.length sources = Datatypes.length ps →
  ((∃ e, still (checkFences db sources ps) m (Failed e)) ∧ ¬ fencesRead sources ps m) ∨
  (still (checkFences db sources ps) m (Finished (missingAt m ps)) ∧ fencesRead sources ps m).
Proof.
  revert ps. induction sources as [|source sources IH]; intros [|path ps] Hlen; try done.
  { right. split; [done|]. split; [done|]. by intros ? ? ?%not_elem_of_nil. }
  simpl in Hlen. destruct (str_eqb (is_Path source) path) eqn:Ep.
  2: { left. split; [eexists; intros k; simpl; rewrite Ep; simpl; reflexivity|]. intros [[= Hj _] _]. bools. congruence. }
  assert (∀ k, checkFences db (source :: sources) (path :: ps) (k, m) =
    match mg_files m !! path with
    | None => andThen (checkFences db sources ps) (fun missing => ret (path :: missing)) (k, m)
    | Some f => andThen (check (negb (fenceRead f)) (EMsg "submission database predecessor fence changed")) (fun _ => checkFences db sources ps) (k, m)
    end) as Hhead.
  { intros k. simpl. rewrite Ep. bools. subst path. unfold andThen at 1. simpl. unfold andThen at 1, look. simpl.
    destruct (mg_files m !! is_Path source) as [f|]; [|done]. unfold fenceRead. destruct (pd_fence f) as [fence|]; [|done].
    by destruct (sf_Schema fence =? 4), (str_eqb (sf_Storage fence) "sqlite"), (str_eqb (sf_Database fence) db). }
  bools. subst path. unfold missingAt in *. rewrite filter_cons.
  assert (¬ fencesRead sources ps m → ¬ fencesRead (source :: sources) (is_Path source :: ps) m) as Hdown.
  { intros Hn [[= Hj] Hr]. apply Hn. split; [done|]. intros p f Hp. apply Hr. by right. }
  destruct (mg_files m !! is_Path source) as [f|] eqn:Ef.
  - destruct (fenceRead f) eqn:Er.
    2: { left. split; [eexists; intros k; rewrite Hhead; reflexivity|]. intros [_ Hr]. rewrite (Hr (is_Path source) f) in Er; [done|by left|done]. }
    destruct (IH ps) as [[[e He] Hn]|(Hs & Hj & Hr)]; [lia|left; split; [exists e; intros k; rewrite Hhead; apply He|by apply Hdown]|].
    right. split; [|split].
    + intros k. rewrite Hhead. apply Hs.
    + unfold journalOf in *. rewrite fmap_cons. by f_equal.
    + intros p x [->|Hp]%elem_of_cons Hx; [congruence|by eapply Hr].
  - destruct (IH ps) as [[[e He] Hn]|(Hs & Hj & Hr)];
      [lia|left; split; [exists e; intros k; rewrite Hhead; by apply still_failed|by apply Hdown]|]. right. split; [|split].
    + intros k. rewrite Hhead. by rewrite (still_then _ _ _ _ k Hs).
    + unfold journalOf in *. rewrite fmap_cons. by f_equal.
    + intros p x [->|Hp]%elem_of_cons Hx; [congruence|by eapply Hr].
Qed.

(** ** The changes a run makes *)

Abbreviation exec := (initializeSubmissionDatabase primary legacy db).

Inductive change (m : migration) : migration → Prop :=
| change_schema : mg_version m = 0 →
  change m (mkMigration (mg_files m) 1 (mg_phase m) (mg_sources m) (mg_rows m))
| change_copy m1 : mg_phase m = "" → copies paths m m1 → change m m1
| change_import l : mg_version m = 1 → mg_phase m = "" → mg_rows m = ∅ →
  (∀ path f, path ∈ paths → mg_files m !! path = Some f → headOK f = true ∧ copied m f) →
  decodeImport (chosenOf m paths) = Ok l →
  change m (mkMigration (mg_files m) 1 "imported" (Some (sourceAt m <$> paths)) (importRows l))
| change_fence sources source : mg_phase m = "imported" → mg_sources m = Some sources → source ∈ sources →
  is_Path source ∈ paths → ¬ fencedAt (is_Path source) m → unchanged source m →
  change m (withFile (is_Path source) (fenceFile db) m)
| change_ready sources : mg_phase m = "imported" → mg_sources m = Some sources → journalOf sources paths →
  (∀ path, path ∈ paths → fencedAt path m) →
  change m (mkMigration (mg_files m) (mg_version m) "ready" (mg_sources m) (mg_rows m))
| change_restore path : mg_phase m = "ready" → path ∈ paths → mg_files m !! path = None →
  change m (withFile path (fenceFile db) m).

(** A run at a point ends there, or goes on as a run that starts after its next change. *)
Definition steps (m : migration) : Prop :=
  (∃ o, o ≠ Interrupted ∧ still exec m o ∧ (o = Finished tt → mg_phase m = "ready" ∧
      (∀ path, path ∈ paths → ∃ f, mg_files m !! path = Some f ∧ fenceRead f = true))) ∨
  (∃ m1, change m m1 ∧ goesOn exec m m1 exec).

Lemma paths_NoDup : NoDup paths.
Proof.
  unfold pathsOf. destruct (negb (is_empty legacy) && negb (str_eqb legacy primary)) eqn:E.
  - bools. apply NoDup_cons. split; [|apply NoDup_singleton]. rewrite list_elem_of_singleton. congruence.
  - apply NoDup_singleton.
Qed.

(** The run once the schema is there. *)
Definition dispatch : run unit :=
  (let* phase := look mg_phase in
   if str_eqb phase "ready" then verifySubmissionFences primary legacy db
   else if str_eqb phase "imported" then
     let* journal := look mg_sources in
     match journal with
     | None | Some [] => throw (EMsg "submission migration journal is invalid")
     | Some sources => finishImport primary legacy db sources
     end
   else if is_empty phase then let* sources := importSources primary legacy db in finishImport primary legacy db sources
   else throw (EMsg "unknown submission migration phase"))%run.

Lemma exec_dispatch m k : configured → mg_version m = 1 → exec (k, m) = dispatch (k, m).
Proof.
  intros [[H1 H2] _ _] Hv. unfold initializeSubmissionDatabase. apply str_eqb_neq in H1, H2. rewrite H1, H2.
  unfold check at 1. unfold andThen at 1, ret. simpl. unfold andThen at 1, look. simpl. rewrite Hv. done.
Qed.

Lemma restore_cases missing m :
  match missing with
  | [] => still (restoreFences db []) m (Finished tt)
  | path :: rest => goesOn (restoreFences db (path :: rest)) m (withFile path (fenceFile db) m) (restoreFences db rest)
  end.
Proof. destruct missing as [|path rest]; [done|]. split; [done|]. done. Qed.

Lemma fenceRead_fence : fenceRead (fenceFile db) = true.
Proof. unfold fenceRead. simpl. by rewrite str_eqb_refl. Qed.

(** *** A database in use *)

(** The run, once its journal is found to name the paths. *)
Lemma verify_journal m k sources : mg_sources m = Some sources → sources ≠ [] →
  verifySubmissionFences primary legacy db (k, m) =
  andThen (check (negb (Datatypes.length paths =? Datatypes.length sources)%nat) (EMsg "submission database import identities changed"))
    (fun _ => andThen (checkFences db sources paths) (restoreFences db)) (k, m).
Proof.
  intros E Hne. unfold verifySubmissionFences. unfold andThen at 1, look. simpl. rewrite E. by destruct sources.
Qed.

Lemma verify_read m k sources : mg_sources m = Some sources → fencesRead sources paths m →
  verifySubmissionFences primary legacy db (k, m) = restoreFences db (missingAt m paths) (k, m).
Proof.
  intros E Hr. assert (Datatypes.length sources = Datatypes.length paths) as Hlen.
  { destruct Hr as [<- _]. by rewrite length_fmap. }
  rewrite (verify_journal m k sources E) by (by intros ->). rewrite Hlen, Nat.eqb_refl. cbn [negb check].
  unfold andThen at 1, ret. destruct (checkFences_cases sources paths m Hlen) as [[_ Hn]|[Hs _]]; [done|].
  apply (still_then _ _ _ _ k Hs).
Qed.

Lemma filter_ext_in {A} (P Q : A → Prop) `{∀ x, Decision (P x)} `{∀ x, Decision (Q x)} (l : list A) :
  (∀ x, x ∈ l → P x ↔ Q x) → filter P l = filter Q l.
Proof.
  induction l as [|x l IH]; intros Hl; [done|]. rewrite !filter_cons.
  rewrite (decide_ext (P x) (Q x)) by (apply Hl; by left). by rewrite IH by (intros y Hy; apply Hl; by right).
Qed.

Lemma missing_restored m path rest : missingAt m paths = path :: rest → missingAt (withFile path (fenceFile db) m) paths = rest.
Proof.
  unfold missingAt. pose proof paths_NoDup as Hnd. induction paths as [|p ps IH]; [done|]. apply NoDup_cons in Hnd as [Hp Hnd].
  rewrite !filter_cons. destruct (decide (mg_files m !! p = None)) as [Em|Em].
  - intros [= <- <-]. rewrite decide_False by (simpl; by rewrite lookup_insert_eq).
    apply filter_ext_in. intros q Hq. simpl. by rewrite lookup_insert_ne by (intros ->; done).
  - intros Hf. rewrite decide_False; [by apply IH|]. simpl. destruct (decide (path = p)) as [->|Hne]; [by rewrite lookup_insert_eq|].
    by rewrite lookup_insert_ne.
Qed.

Lemma ready_steps m : configured → mg_version m = 1 → mg_phase m = "ready" → steps m.
Proof.
  intros Hc Hv Hp. assert (∀ m1, mg_version m1 = 1 → mg_phase m1 = "ready" → ∀ k, exec (k, m1) = verifySubmissionFences primary legacy db (k, m1)) as He.
  { intros m1 Hv1 Hp1 k. rewrite exec_dispatch by done. unfold dispatch, andThen at 1, look. simpl. by rewrite Hp1. }
  destruct (mg_sources m) as [sources|] eqn:Es.
  2: { left. exists (Failed (EMsg "submission import journal is missing")). split; [done|]. split; [|done].
    intros k. rewrite He by done. unfold verifySubmissionFences, andThen, look. simpl. by rewrite Es. }
  destruct (decide (sources = [])) as [->|Hne].
  { left. exists (Failed (EMsg "submission import journal is missing")). split; [done|]. split; [|done].
    intros k. rewrite He by done. unfold verifySubmissionFences, andThen, look. simpl. by rewrite Es. }
  destruct (Datatypes.length paths =? Datatypes.length sources)%nat eqn:Hlen.
  2: { left. exists (Failed (EMsg "submission database import identities changed")). split; [done|]. split; [|done].
    intros k. rewrite He, (verify_journal m k sources) by done. by rewrite Hlen. }
  apply Nat.eqb_eq in Hlen. symmetry in Hlen.
  destruct (checkFences_cases sources paths m Hlen) as [[[e Hs] _]|[_ Hr]].
  { left. exists (Failed e). split; [done|]. split; [|done]. intros k. rewrite He, (verify_journal m k sources) by done.
    rewrite Hlen, Nat.eqb_refl. cbn [negb check]. unfold andThen at 1, ret. by apply (still_failed _ (restoreFences db)). }
  pose proof (fun k => verify_read m k sources Es Hr) as Hv1. pose proof (restore_cases (missingAt m paths) m) as Hrest.
  assert (∀ path, path ∈ missingAt m paths ↔ mg_files m !! path = None ∧ path ∈ paths) as Hm by (intros path; unfold missingAt; by rewrite list_elem_of_filter).
  destruct (missingAt m paths) as [|path rest] eqn:Em.
  - left. exists (Finished tt). split; [done|]. split; [intros k; rewrite He, Hv1 by done; apply Hrest|]. intros _. split; [done|].
    intros path Hin. destruct (mg_files m !! path) as [f|] eqn:Ef; [|exfalso; by apply (not_elem_of_nil path), Hm].
    exists f. split; [done|]. by eapply Hr.
  - right. exists (withFile path (fenceFile db) m). destruct (proj1 (Hm path)) as [Hn Hin]; [by left|]. split; [by apply change_restore|].
    eapply goesOn_ext; [intros k; symmetry; rewrite He, Hv1 by done; reflexivity| |exact Hrest]. intros k. rewrite He by done.
    rewrite (verify_read _ k sources); [by rewrite (missing_restored _ _ _ Em)|done|].
    destruct Hr as [Hj Hr]. split; [done|]. intros p f Hpp. simpl. rewrite lookup_insert_Some. intros [[_ <-]|[_ Hf]]; [apply fenceRead_fence|eauto].
Qed.

(** *** An imported ledger *)

Lemma imported_steps m : configured → decoded m → mg_version m = 1 → mg_phase m = "imported" → steps m.
Proof.
  intros Hc Hd Hv Hp.
  assert (∀ m1 k, mg_version m1 = 1 → mg_phase m1 = "imported" → exec (k, m1) =
    match mg_sources m1 with
    | None | Some [] => (Failed (EMsg "submission migration journal is invalid"), (k, m1))
    | Some sources => finishImport primary legacy db sources (k, m1)
    end) as He.
  { intros m1 k Hv1 Hp1. rewrite exec_dispatch by done. unfold dispatch, andThen at 1, look. simpl. rewrite Hp1. simpl.
    unfold andThen at 1, look. simpl. by destruct (mg_sources m1) as [[|]|]. }
  destruct (mg_sources m) as [[|s0 sources0]|] eqn:Es.
  1,3: left; exists (Failed (EMsg "submission migration journal is invalid")); split; [done|]; split; [|done]; intros k; by rewrite He, Es.
  set (sources := s0 :: sources0) in *.
  assert (∀ m1 k, mg_version m1 = 1 → mg_phase m1 = "imported" → mg_sources m1 = Some sources →
    exec (k, m1) = finishImport primary legacy db sources (k, m1)) as He' by (intros m1 k H1 H2 H3; by rewrite He, H3).
  clear He. destruct (Datatypes.length sources =? Datatypes.length paths)%nat eqn:Hlen.
  2: { left. exists (Failed (EMsg "submission import sources changed")). split; [done|]. split; [|done].
    intros k. rewrite He' by done. unfold finishImport. by rewrite Hlen. }
  assert (∀ k m1, finishImport primary legacy db sources (k, m1) = andThen (fenceSources db sources paths)
    (fun _ => lasting (fun m => mkMigration (mg_files m) (mg_version m) "ready" (mg_sources m) (mg_rows m))) (k, m1)) as Hf
    by (intros k m1; unfold finishImport; by rewrite Hlen).
  apply Nat.eqb_eq in Hlen.
  destruct (fenceSources_cases sources paths m) as [[e Hs]|[[Hs Hall]|(src & Hin & Hpath & Hn & Hu & Hg)]].
  - left. exists (Failed e). split; [done|]. split; [|done]. intros k. rewrite He', Hf by done. by apply still_failed.
  - destruct (Hall Hlen) as [Hj Hfen]. right. eexists. split; [by eapply change_ready|].
    eapply goesOn_ext; [intros k; symmetry; rewrite He', Hf by done; apply (still_then _ _ _ _ k Hs)| |apply goesOn_lasting].
    intros k. unfold ret. rewrite exec_dispatch by done. unfold dispatch, andThen at 1, look. simpl. 
    rewrite (verify_read _ k sources); [|done|].
    + unfold missingAt. simpl. replace (filter _ paths) with (@nil string); [done|]. symmetry.
      destruct (filter _ paths) as [|p rest] eqn:E; [done|]. assert (p ∈ p :: rest) as Hp1 by (by left). rewrite <- E in Hp1.
      apply list_elem_of_filter in Hp1 as [H1 H2]. destruct (Hfen p H2) as (f & Hff & _). simpl in H1. congruence.
    + split; [done|]. intros p f Hpp Hff. simpl in Hff. destruct (Hfen p Hpp) as (f' & Hf' & Hb). rewrite Hff in Hf'. injection Hf' as <-.
      unfold fenceRead. rewrite (dc_fence _ Hd _ _ Hff Hb). simpl. by rewrite str_eqb_refl.
  - right. eexists. split; [by eapply change_fence|].
    eapply goesOn_ext; [intros k; symmetry; rewrite He', Hf by done; reflexivity| |exact (goesOn_then _ _ _ _ _ Hg)].
    intros k. by rewrite He', Hf.
Qed.

(** *** A new database *)

Definition afterCollect (found : list submissionImportSource * option predecessor) : run (list submissionImportSource) :=
  (let* remain := look (backupsRemain db) in
   let* _ := check (negb (bool_decide (is_Some (snd found))) && remain)
     (EMsg "submission sources are missing while migration backups remain; restore the authoritative predecessor before retrying") in
   match decodeImport (snd found) with
   | Err e => throw e
   | Ok l =>
     let* rows := look mg_rows in
     let* _ := check (negb (bool_decide (rows = ∅))) (EMsg "uninitialized submission database contains records") in
     let* _ := lasting (fun m => mkMigration (mg_files m) 1 "imported" (Some (fst found)) (importRows l)) in
     ret (fst found)
   end)%run.

Lemma afterCollect_cases found m :
  (∃ e, still (afterCollect found) m (Failed e)) ∨
  (∃ l, decodeImport (snd found) = Ok l ∧ mg_rows m = ∅ ∧
    goesOn (afterCollect found) m (mkMigration (mg_files m) 1 "imported" (Some (fst found)) (importRows l)) (ret (fst found))).
Proof.
  unfold afterCollect, still, goesOn, andThen, look, check. simpl.
  destruct (negb (bool_decide (is_Some found.2)) && backupsRemain db m); [left; by eexists|]. simpl.
  destruct (decodeImport found.2) as [l|e]; [|left; by eexists]. simpl.
  destruct (decide (mg_rows m = ∅)) as [Er|Er]; [right; exists l; by rewrite bool_decide_true|left; eexists; intros k; by rewrite bool_decide_false].
Qed.

Lemma new_steps m : configured → mg_version m = 1 → mg_phase m = "" → steps m.
Proof.
  intros Hc Hv Hp. set (finish := finishImport primary legacy db).
  assert (∀ m1 k, mg_version m1 = 1 → mg_phase m1 = "" →
    exec (k, m1) = andThen (andThen (collect paths) afterCollect) finish (k, m1)) as He.
  { intros m1 k Hv1 Hp1. rewrite exec_dispatch by done. unfold dispatch, andThen at 1, look. simpl. by rewrite Hp1. }
  destruct (collect_cases paths m (cf_paths Hc)) as [[e Hs]|[[Hs Hok]|(m1 & Hm1 & Hg)]].
  - left. exists (Failed e). split; [done|]. split; [|done]. intros k. rewrite He by done. by apply still_failed, still_failed.
  - set (found := (sourceAt m <$> paths, chosenOf m paths)) in *.
    assert (∀ k, exec (k, m) = andThen (afterCollect found) finish (k, m)) as He'.
    { intros k. rewrite He by done. unfold andThen at 1. rewrite (still_then _ afterCollect _ _ k Hs). done. }
    destruct (afterCollect_cases found m) as [[e He1]|(l & Hl & Hr & Hg)].
    + left. exists (Failed e). split; [done|]. split; [|done]. intros k. rewrite He'. by apply still_failed.
    + right. eexists. split; [by apply (change_import m l)|].
      eapply goesOn_ext; [intros k; symmetry; apply He'| |exact (goesOn_then _ finish _ _ _ Hg)].
      intros k. unfold andThen at 1, ret. rewrite exec_dispatch by done. unfold dispatch, andThen at 1, look. simpl.
      unfold andThen at 1, look. simpl. done.
  - right. exists m1. split; [by apply change_copy|].
    eapply goesOn_ext; [intros k; symmetry; by apply He| |exact (goesOn_then _ finish _ _ _ (goesOn_then _ afterCollect _ _ _ Hg))].
    intros k. symmetry. destruct Hm1 as (path & f & _ & _ & _ & ->). by apply He.
Qed.

Lemma run_steps m : configured → decoded m → steps m.
Proof.
  intros Hc Hd. destruct (decide (mg_version m = 1)) as [Hv|Hv].
  - destruct (decide (mg_phase m = "ready")); [by apply ready_steps|]. destruct (decide (mg_phase m = "imported")); [by apply imported_steps|].
    destruct (decide (mg_phase m = "")); [by apply new_steps|]. left. exists (Failed (EMsg "unknown submission migration phase")).
    split; [done|]. split; [|done]. intros k. rewrite exec_dispatch by done. unfold dispatch, andThen at 1, look. simpl.
    rewrite (proj2 (str_eqb_neq _ _)), (proj2 (str_eqb_neq _ _)) by done. by rewrite (proj2 (is_empty_false _)).
  - assert (∀ k, exec (k, m) = (if negb (mg_version m =? 0) then (Failed (EMsg "unsupported submission database schema"), (k, m))
      else andThen (createSubmissionSchema) (fun _ => dispatch) (k, m))) as He.
    { intros k. destruct (cf_database Hc) as [H1 H2]. apply str_eqb_neq in H1, H2. unfold initializeSubmissionDatabase. rewrite H1, H2.
      unfold check at 1. unfold andThen at 1, ret. simpl. unfold andThen at 1, look. simpl. apply Z.eqb_neq in Hv. rewrite Hv.
      by destruct (mg_version m =? 0). }
    destruct (mg_version m =? 0) eqn:E0; simpl in He.
    2: { left. eexists. split; [|split; [exact He|]]; done. }
    bools. right. eexists. split; [by apply change_schema|].
    eapply goesOn_ext; [intros k; symmetry; apply He| |exact (goesOn_then _ (fun _ => dispatch) _ _ _ (goesOn_lasting _ m))].
    intros k. unfold andThen, ret. by rewrite exec_dispatch.
Qed.

Lemma change_decoded m m1 : change m m1 → decoded m → decoded m1.
Proof.
  intros Hch [H1 H2].
  assert (∀ path f, (pd_bytes f = fenceText db → pd_fence f = Some (mkFence 4 "sqlite" db)) →
    (∀ fence raw trailing, pd_fence f = Some fence → sf_Schema fence = 4 → pd_document f = Decoded raw trailing → rl_Schema raw ≠ 3) →
    decoded (withFile path f m)) as Hw.
  { intros path f F1 F2. split; simpl.
    - intros p g. rewrite lookup_insert_Some. intros [[_ <-]|[_ Hg]]; [done|eauto].
    - intros p g fence raw trailing. rewrite lookup_insert_Some. intros [[_ <-]|[_ Hg]]; [apply F2|eauto]. }
  destruct Hch; try (by split); try (by apply Hw).
  match goal with H : copies _ _ _ |- _ => destruct H as (path & f & _ & Hf & _ & ->) end. apply Hw; simpl; eauto.
Qed.

(** ** How many changes there can be *)

Definition tally (f : string → bool) : nat := Datatypes.length (filter (fun path => f path = true) paths).
Definition uncopied (m : migration) (path : string) : bool :=
  match mg_files m !! path with Some f => bool_decide (mg_files m !! backupOf f = None) | None => false end.
Definition unfenced (m : migration) (path : string) : bool :=
  match mg_files m !! path with Some f => negb (str_eqb (pd_bytes f) (fenceText db)) | None => true end.
Definition absent (m : migration) (path : string) : bool := bool_decide (mg_files m !! path = None).
Definition changesLeft (m : migration) : nat :=
  ((if (mg_version m =? 0)%Z then 1 else 0) +
  (if is_empty (mg_phase m) then tally (uncopied m) + 2 + Datatypes.length paths
   else if str_eqb (mg_phase m) "imported" then tally (unfenced m) + 1
   else if str_eqb (mg_phase m) "ready" then tally (absent m) else 0))%nat.

Lemma tally_le f : (tally f ≤ Datatypes.length paths)%nat.
Proof. apply length_filter. Qed.
Lemma tally_none f : (∀ path, path ∈ paths → f path = false) → tally f = 0%nat.
Proof.
  intros H. unfold tally. destruct (filter _ _) as [|p rest] eqn:E; [done|]. assert (p ∈ p :: rest) as Hp by (by left).
  rewrite <- E in Hp. apply list_elem_of_filter in Hp as [H1 H2]. rewrite H in H1; done.
Qed.
Lemma tally_less f g path : (∀ p, p ∈ paths → g p = true → f p = true) → path ∈ paths → f path = true → g path = false →
  (tally g < tally f)%nat.
Proof.
  unfold tally. intros Hle Hin Hf Hg. induction paths as [|p ps IH]; [by apply not_elem_of_nil in Hin|].
  rewrite !filter_cons.
  assert (Datatypes.length (filter (fun p => g p = true) ps) ≤ Datatypes.length (filter (fun p => f p = true) ps))%nat as Hmono.
  { clear IH Hin Hf Hg. assert (∀ q, q ∈ ps → g q = true → f q = true) as H by (intros; apply Hle; [by right|done]). clear Hle.
    induction ps as [|q qs IHq]; [done|]. rewrite !filter_cons. pose proof (H q ltac:(by left)) as Hq.
    specialize (IHq ltac:(intros; apply H; [by right|done])). repeat case_decide; simpl; try lia. exfalso. auto. }
  apply elem_of_cons in Hin as [->|Hin].
  - rewrite decide_False by congruence. rewrite decide_True by done. simpl. lia.
  - specialize (IH ltac:(intros; apply Hle; [by right|done]) Hin). pose proof (Hle p ltac:(by left)).
    repeat case_decide; simpl; try lia. exfalso. auto.
Qed.

Lemma lookup_withFile path f m p : mg_files (withFile path f m) !! p = if decide (path = p) then Some f else mg_files m !! p.
Proof. unfold withFile. cbn [mg_files]. apply lookup_insert. Qed.
Lemma unfenced_with path m p : unfenced (withFile path (fenceFile db) m) p = if decide (path = p) then false else unfenced m p.
Proof.
  unfold unfenced. rewrite lookup_withFile. case_decide; [|done]. cbn [fenceFile pd_bytes]. by rewrite str_eqb_refl.
Qed.
Lemma absent_with path f m p : absent (withFile path f m) p = if decide (path = p) then false else absent m p.
Proof. unfold absent. rewrite lookup_withFile. by case_decide. Qed.

Lemma left_new m : mg_phase m = "" →
  changesLeft m = ((if (mg_version m =? 0)%Z then 1 else 0) + (tally (uncopied m) + 2 + Datatypes.length paths))%nat.
Proof. unfold changesLeft. by intros ->. Qed.
Lemma left_imported m : mg_phase m = "imported" → changesLeft m = ((if (mg_version m =? 0)%Z then 1 else 0) + (tally (unfenced m) + 1))%nat.
Proof. unfold changesLeft. by intros ->. Qed.
Lemma left_ready m : mg_phase m = "ready" → changesLeft m = ((if (mg_version m =? 0)%Z then 1 else 0) + tally (absent m))%nat.
Proof. unfold changesLeft. by intros ->. Qed.

Lemma change_left m m1 : configured → change m m1 → (changesLeft m1 < changesLeft m)%nat.
Proof.
  intros Hc Hch. destruct Hch as
    [Hv|m1 Hp (path & f & Hin & Hf & Hn & ->)|l Hv Hp|sources source Hp Hs _ Hin Hn _|sources Hp _ _ Hf|path Hp Hin Hn].
  - unfold changesLeft. rewrite Hv. simpl. unfold uncopied, unfenced, absent. simpl. lia.
  - rewrite !left_new by done. change (mg_version (withFile (backupOf f) (copyOf f) m)) with (mg_version m).
    assert (tally (uncopied (withFile (backupOf f) (copyOf f) m)) < tally (uncopied m))%nat; [|lia].
    assert (∀ p, p ∈ paths → mg_files (withFile (backupOf f) (copyOf f) m) !! p = mg_files m !! p) as Hsame.
    { intros p Hp'. simpl. apply lookup_insert_ne. intros E. by apply (cf_paths Hc p (sha256_hex (pd_bytes f)) Hp'). }
    apply (tally_less _ _ path); [|done|unfold uncopied; rewrite Hf; by rewrite bool_decide_true|].
    + intros p Hp'. unfold uncopied. rewrite (Hsame p Hp'). destruct (mg_files m !! p) as [g|]; [|done]. simpl.
      rewrite !bool_decide_eq_true. destruct (decide (backupOf f = backupOf g)) as [<-|Hne]; [by rewrite lookup_insert_eq|by rewrite lookup_insert_ne].
    + unfold uncopied. rewrite (Hsame path Hin), Hf. simpl. rewrite lookup_insert_eq. by rewrite bool_decide_false.
  - rewrite left_imported, (left_new m) by done. match goal with |- context [tally (unfenced ?x)] => pose proof (tally_le (unfenced x)) end.
    rewrite Hv. cbn [mg_version]. change (1 =? 0)%Z with false. cbv iota. lia.
  - rewrite !left_imported by done. change (mg_version (withFile (is_Path source) (fenceFile db) m)) with (mg_version m).
    assert (tally (unfenced (withFile (is_Path source) (fenceFile db) m)) < tally (unfenced m))%nat; [|lia].
    apply (tally_less _ _ (is_Path source)); [|done| |].
    + intros p _. rewrite unfenced_with. by case_decide.
    + unfold unfenced, fencedAt in *. destruct (mg_files m !! is_Path source) as [f|]; [|done]. apply negb_true_iff, str_eqb_neq. naive_solver.
    + rewrite unfenced_with. by case_decide.
  - rewrite left_ready, (left_imported m) by done. rewrite tally_none; [simpl; lia|].
    intros p Hp'. destruct (Hf p Hp') as (f & E & _). unfold absent. simpl. rewrite E. by rewrite bool_decide_false.
  - rewrite !left_ready by done. change (mg_version (withFile path (fenceFile db) m)) with (mg_version m).
    assert (tally (absent (withFile path (fenceFile db) m)) < tally (absent m))%nat; [|lia].
    apply (tally_less _ _ path); [|done|unfold absent; by rewrite bool_decide_true|].
    + intros p _. rewrite absent_with. by case_decide.
    + rewrite absent_with. by case_decide.
Qed.

Lemma changesLeft_bound m : (changesLeft m ≤ 7)%nat.
Proof.
  assert (Datatypes.length paths ≤ 2)%nat by (unfold pathsOf; destruct (_ && _); simpl; lia).
  pose proof (tally_le (uncopied m)). pose proof (tally_le (unfenced m)). pose proof (tally_le (absent m)).
  unfold changesLeft. destruct (mg_version m =? 0), (is_empty (mg_phase m)), (str_eqb (mg_phase m) "imported"), (str_eqb (mg_phase m) "ready"); lia.
Qed.

(** ** Runs to their end *)

(** Every run is a sequence of changes; what each change keeps, every cut of the run keeps. *)
Lemma run_induction (Q : migration → Prop) (R : nat → migration → attempt unit * (nat * migration) → Prop) :
  configured → (∀ m m1, decoded m → Q m → change m m1 → Q m1) →
  (∀ n m o, decoded m → Q m → o ≠ Interrupted → (o = Finished tt → mg_phase m = "ready" ∧
      (∀ path, path ∈ paths → ∃ f, mg_files m !! path = Some f ∧ fenceRead f = true)) → R n m (o, (n, m))) →
  (∀ m m1, decoded m → Q m → change m m1 → R 0%nat m (Interrupted, (0%nat, m))) →
  (∀ n m m1 r, decoded m → Q m → change m m1 → R n m1 r → R (S n) m r) →
  ∀ n m, decoded m → Q m → R n m (exec (n, m)).
Proof.
  intros Hc Hpres Hend Hcut Hstep n. induction n as [|n IH]; intros m Hd Hq;
    destruct (run_steps m Hc Hd) as [(o & Ho & Hs & Hfin)|(m1 & Hch & Hg0 & Hg)].
  - rewrite Hs. by apply Hend.
  - rewrite Hg0. by eapply Hcut.
  - rewrite Hs. by apply Hend.
  - rewrite Hg. eapply Hstep; [done..|]. apply IH; [by eapply change_decoded|by eapply Hpres].
Qed.

(** Initialising the database never runs without end: whatever the disk and the database
    hold, seven steps that outlive the process are enough for the run to finish or fail. *)
Theorem migration_bounded m : configured → decoded m → fst (exec (7%nat, m)) ≠ Interrupted.
Proof.
  intros Hc Hd. pose proof (changesLeft_bound m) as Hb. revert Hb.
  apply (run_induction (fun _ => True) (fun n m r => (changesLeft m ≤ n)%nat → fst r ≠ Interrupted) Hc); try done.
  - intros m0 m1 Hd0 _ Hch Hle. pose proof (change_left m0 m1 Hc Hch). lia.
  - intros n m0 m1 r Hd0 _ Hch IH Hle. apply IH. pose proof (change_left m0 m1 Hc Hch). lia.
Qed.

(** C24. A run that ends early is completed by the next one: opening the database again with
    [k] more steps gives the outcome, the disk and the tables of a run of [n + k] steps that was never cut. *)
Theorem migration_resumes m n j m1 : configured → decoded m → exec (n, m) = (Interrupted, (j, m1)) →
  ∀ k, exec (k, m1) = exec ((n + k)%nat, m).
Proof.
  intros Hc. revert m. induction n as [|n IH]; intros m Hd; destruct (run_steps m Hc Hd) as [(o & Ho & Hs & _)|(m2 & Hch & Hg0 & Hg)].
  1,3: rewrite Hs; congruence.
  - rewrite Hg0. intros [= _ <-] k. done.
  - rewrite Hg. intros H k. rewrite (IH m2 (change_decoded _ _ Hch Hd) H k). symmetry. apply Hg.
Qed.

(** ** The ledger that counts *)

(** The files as the file store sees them. *)
Definition storeOf (m : migration) : fileStore :=
  mkStore (diskOf <$> mg_files m !! primary) (if is_empty legacy then None else Some (diskOf <$> mg_files m !! legacy))
    (str_eqb legacy primary).
(** The files' ledger before the import, the database's after it. *)
Definition authority (m : migration) : res err Ledger :=
  if is_empty (mg_phase m) then storedLedger (storeOf m) else Ok (dbView (mg_rows m)).
Definition sameLedger (a b : res err Ledger) : Prop :=
  match a, b with
  | Ok l, Ok l' => l ≡ l'
  | Err e, Err e' => e = e'
  | _, _ => False
  end.
(** What a decoder yields is valid Unicode. *)
Definition unicode (m : migration) : Prop := mg_phase m = "" → ∀ l, storedLedger (storeOf m) = Ok l → ledger_shape l.

Lemma sameLedger_refl a : sameLedger a a.
Proof. by destruct a; simpl. Qed.
Lemma sameLedger_trans a b c : sameLedger a b → sameLedger b c → sameLedger a c.
Proof. destruct a, b, c; simpl; try done; [by intros -> ->|congruence]. Qed.

Lemma stored_chosen m : configured →
  storedLedger (storeOf m) = match chosenOf m paths with Some f => readFile None (diskOf f) | None => Ok emptyLedger end.
Proof.
  intros Hc. pose proof (cf_legacy Hc) as Hl. apply str_eqb_neq in Hl. unfold storedLedger, storeOf, locate, chosenOf, pathsOf, guard.
  rewrite Hl. simpl. destruct (mg_files m !! primary) as [f|]; simpl; [done|]. destruct (is_empty legacy); simpl; [done|].
  by destruct (mg_files m !! legacy).
Qed.

Lemma storeOf_paths m m1 : (∀ path, path ∈ paths → mg_files m1 !! path = mg_files m !! path) → storeOf m1 = storeOf m.
Proof.
  intros H. unfold storeOf. rewrite (H primary) by (by left). destruct (is_empty legacy) eqn:E; [done|].
  destruct (decide (legacy = primary)) as [->|Hne]; [by rewrite (H primary) by (by left)|].
  rewrite (H legacy); [done|]. unfold pathsOf. rewrite E, (proj2 (str_eqb_neq _ _)) by done. simpl. right. by left.
Qed.

(** A file that the import reads and the file store does not, or the other way round, there is none. *)
Lemma decode_reads f : headOK f = true →
  match readFile None (diskOf f), decodeImport (Some f) with
  | Ok l, Ok l' => l' ≡ l ∧ (ledger_shape l → storable l' ∧ claimless l')
  | Err _, Err _ => True
  | _, _ => False
  end.
Proof.
  unfold headOK. intros H. bools. unfold readFile, decodeImport, diskOf, guard. cbn [df_private df_size df_document].
  rewrite (proj2 (Z.ltb_ge _ _) H1), H. cbn [negb res_bind]. unfold readDocument.
  destruct (pd_document f) as [e|raw trailing]; [done|]. unfold guard. destruct trailing; simpl.
  { by destruct (negb (rl_Schema raw =? 3) || _). }
  destruct (rl_Schema raw =? 3); simpl; [|done]. destruct (decide (is_Some (rl_Attempts raw))) as [Ha|Ha];
    [rewrite bool_decide_true by done|by rewrite bool_decide_false by done]. simpl.
  pose proof (import_agrees raw Ha) as Hag. destruct (validateLedger raw) as [l|] eqn:Ev, (importLedger raw) as [l'|] eqn:Ei; try done.
  split; [done|]. intros Hsh. eapply import_storable; [done..|]. split; [by eapply validateLedger_wf|done].
Qed.

Lemma import_authority m l : configured → unicode m → mg_phase m = "" →
  (∀ path f, path ∈ paths → mg_files m !! path = Some f → headOK f = true ∧ copied m f) → decodeImport (chosenOf m paths) = Ok l →
  sameLedger (storedLedger (storeOf m)) (Ok (dbView (importRows l))).
Proof.
  intros Hc Hu Hp Hok Hl. specialize (Hu Hp). rewrite stored_chosen in * by done.
  destruct (chosenOf m paths) as [f|] eqn:Ef.
  - assert (headOK f = true) as Hf.
    { unfold chosenOf in Ef. apply head_Some_elem_of, list_elem_of_omap in Ef as (path & Hin & Hf). by eapply Hok. }
    pose proof (decode_reads f Hf) as Hr. rewrite Hl in Hr. destruct (readFile None (diskOf f)) as [l0|]; [|done].
    destruct Hr as [He Hs]. destruct (Hs (Hu _ eq_refl)) as [Hst Hcl]. simpl. by rewrite importRows_view.
  - simpl in Hl. injection Hl as <-. simpl. symmetry. apply importRows_view; [split; [apply empty_wf|by apply Hu]|].
    intros t id a. unfold sendAt. simpl. by rewrite look2_empty.
Qed.

Lemma change_authority m m1 : configured → unicode m → change m m1 → sameLedger (authority m) (authority m1) ∧ unicode m1.
Proof.
  intros Hc Hu Hch. assert (∀ m1, mg_phase m1 = mg_phase m → storeOf m1 = storeOf m → mg_rows m1 = mg_rows m →
    sameLedger (authority m) (authority m1) ∧ unicode m1) as Hsame.
  { intros m2 E1 E2 E3. unfold authority, unicode. rewrite E1, E2, E3. split; [apply sameLedger_refl|done]. }
  assert (∀ m1, mg_phase m ≠ "" → mg_phase m1 ≠ "" → mg_rows m1 = mg_rows m → sameLedger (authority m) (authority m1) ∧ unicode m1) as Hlate.
  { intros m2 H1 H2 E3. unfold authority, unicode. rewrite !(proj2 (is_empty_false _)), E3 by done. split; [apply sameLedger_refl|done]. }
  destruct Hch as [Hv|m1 Hp (path & f & Hin & Hf & Hn & ->)|l Hv Hp Hr Hok Hl|sources source Hp _ _ _ _ _|sources Hp _ _ _|path Hp _ _].
  - by apply Hsame.
  - apply Hsame; try done. apply storeOf_paths. intros p Hin'. rewrite lookup_withFile. rewrite decide_False; [done|].
    intros E. by apply (cf_paths Hc p (sha256_hex (pd_bytes f)) Hin').
  - unfold authority, unicode. rewrite Hp. simpl. split; [by apply import_authority|done].
  - assert (mg_phase m ≠ "") by (by rewrite Hp). by apply Hlate.
  - apply Hlate; [by rewrite Hp|done|done].
  - assert (mg_phase m ≠ "") by (by rewrite Hp). by apply Hlate.
Qed.

(** C22. Wherever a run of the migration ends, finished, failed or cut short between two
    steps, the ledger that counts (the files' before the import is committed, the
    database's after it) holds exactly the entries it held before: no receipt is lost, none
    appears, and a file that could not be read stays the authority. *)
Theorem migration_preserves_ledger m n : configured → decoded m → unicode m →
  sameLedger (authority m) (authority (snd (snd (exec (n, m))))).
Proof.
  intros Hc Hd Hu. pose proof (run_induction unicode (fun _ m r => sameLedger (authority m) (authority (snd (snd r)))) Hc) as H.
  apply H; try done; clear H.
  - intros m0 m1 _ Hu0 Hch. by destruct (change_authority m0 m1 Hc Hu0 Hch).
  - intros *. intros. apply sameLedger_refl.
  - intros *. intros. apply sameLedger_refl.
  - intros k m0 m1 r _ Hu0 Hch. destruct (change_authority m0 m1 Hc Hu0 Hch). by apply sameLedger_trans.
Qed.

(** ** What a run leaves at the predecessors' paths *)

Lemma fence_refused m path f : decoded m → mg_files m !! path = Some f → fenceRead f = true → ∀ open, is_ok (readFile open (diskOf f)) = false.
Proof.
  intros Hd Hf Hr open. unfold fenceRead in Hr. destruct (pd_fence f) as [fence|] eqn:Ef; [|done]. bools.
  unfold readFile, diskOf, guard. cbn [df_private df_size df_document]. destruct (pd_private f); [|done]. simpl.
  destruct (queueLedgerMaxSize <? _); [done|]. simpl. destruct open; [done|]. unfold readDocument, guard.
  destruct (pd_document f) as [|raw trailing] eqn:Ed; [done|].
  assert (rl_Schema raw ≠ 3) as Hs by (by eapply (dc_schema _ Hd)). apply Z.eqb_neq in Hs. by rewrite Hs.
Qed.

(** A predecessor is in place until the import, and copied from then on. *)
Definition safeAt (f : predecessor) (path : string) (m : migration) : Prop :=
  if is_empty (mg_phase m) then mg_files m !! path = Some f else copied m f.

Lemma change_safe f path m m1 : configured → path ∈ paths → change m m1 → safeAt f path m → safeAt f path m1.
Proof.
  intros Hc Hin Hch. unfold safeAt.
  assert (∀ p g, p ∈ paths → copied m f → copied (withFile p g m) f) as Hkeep.
  { intros p g Hp (c & Hf & Hb). exists c. rewrite lookup_withFile, decide_False; [done|]. by apply (cf_paths Hc). }
  destruct Hch as [Hv|m1 Hp (p & g & Hpin & Hf & Hn & ->)|l Hv Hp Hr Hok Hl|sources source Hp _ _ Hp1 _ _|sources Hp _ _ _|p Hp Hp1 _].
  - done.
  - change (mg_phase (withFile _ _ m)) with (mg_phase m). rewrite Hp, lookup_withFile. intros H. rewrite decide_False; [done|].
    intros E. by apply (cf_paths Hc path (sha256_hex (pd_bytes g)) Hin).
  - rewrite Hp. cbn. intros H. by destruct (Hok _ _ Hin H) as [_ Hcp].
  - change (mg_phase (withFile _ _ m)) with (mg_phase m). rewrite Hp. by apply Hkeep.
  - rewrite Hp. done.
  - change (mg_phase (withFile _ _ m)) with (mg_phase m). rewrite Hp. by apply Hkeep.
Qed.

(** C23. A migration that finishes has marked the database ready, every predecessor path holds
    a file that a program reading ledger files refuses, and of every predecessor that was there
    a copy of its bytes is kept under the name of its digest. *)
Theorem migration_fences m n j m1 : configured → decoded m → mg_phase m = "" → exec (n, m) = (Finished tt, (j, m1)) →
  mg_phase m1 = "ready" ∧ ∀ path, path ∈ paths →
    (∃ g, mg_files m1 !! path = Some g ∧ ∀ open, is_ok (readFile open (diskOf g)) = false) ∧
    (∀ f, mg_files m !! path = Some f → copied m1 f).
Proof.
  intros Hc Hd Hp Hx.
  pose proof (run_induction (fun m' => ∀ path f, path ∈ paths → mg_files m !! path = Some f → safeAt f path m')
    (fun _ _ r => fst r = Finished tt → ∃ m1, snd (snd r) = m1 ∧ decoded m1 ∧ mg_phase m1 = "ready" ∧
       (∀ path, path ∈ paths → ∃ f, mg_files m1 !! path = Some f ∧ fenceRead f = true) ∧
       ∀ path f, path ∈ paths → mg_files m !! path = Some f → safeAt f path m1) Hc) as H.
  destruct (H) with (n := n) (m := m) as (m2 & E & Hd1 & Hr & Hf & Hs); clear H; try done.
  - intros m0 m2 _ Hq Hch path f Hin Hff. eapply change_safe; eauto.
  - intros k m0 o Hd0 Hq _ Hfin Ho. simpl in Ho. destruct (Hfin Ho) as [H1 H2]. by exists m0.
  - intros path f Hin Hf. unfold safeAt. by rewrite Hp.
  - by rewrite Hx.
  - rewrite Hx in E. simpl in E. subst m2. split; [done|]. intros path Hin. split.
    + destruct (Hf path Hin) as (g & Hg & Hgr). exists g. split; [done|]. by eapply fence_refused.
    + intros f Hff. specialize (Hs path f Hin Hff). unfold safeAt in Hs. by rewrite Hr in Hs.
Qed.

(** A predecessor at [path] that is not what the journal says was imported. *)
Definition tampered (sources : list submissionImportSource) (path : string) (f : predecessor) (m : migration) : Prop :=
  mg_phase m = "imported" ∧ mg_sources m = Some sources ∧ journalOf sources paths ∧ mg_files m !! path = Some f.

Lemma change_tampered sources path f m m1 : path ∈ paths → pd_bytes f ≠ fenceText db →
  (∀ source, source ∈ sources → is_Path source = path → sha256_hex (pd_bytes f) ≠ is_Digest source) →
  change m m1 → tampered sources path f m → tampered sources path f m1.
Proof.
  intros Hin Hb Hdig Hch (Hp & Hs & Hj & Hf). unfold tampered.
  assert (mg_phase m ≠ "" ∧ mg_phase m ≠ "ready") as [Hn1 Hn2] by (by rewrite Hp).
  destruct Hch as [Hv|m1 Hp' _|l Hv Hp'|sources' source _ Hs' Hsrc Hp1 _ Hu|sources' _ _ _ Hfen|p Hp' _ _]; try done.
  - split_and!; try done. rewrite lookup_withFile. destruct (decide (is_Path source = path)) as [E|E]; [|done]. exfalso.
    assert (sources' = sources) as -> by congruence. unfold unchanged in Hu. rewrite E, Hf in Hu. destruct Hu as [_ Hu]. by apply (Hdig source Hsrc E).
  - destruct (Hfen path Hin) as (g & Hg & Hgb). congruence.
Qed.

(** A predecessor that was changed after the import, by a program that still writes
    ledger files, is never replaced by a fence: no run finishes, the file stays as that
    program left it and the database does not become ready. *)
Theorem migration_refuses_changes m sources path f n : configured → decoded m → tampered sources path f m →
  path ∈ paths → pd_bytes f ≠ fenceText db →
  (∀ source, source ∈ sources → is_Path source = path → sha256_hex (pd_bytes f) ≠ is_Digest source) →
  fst (exec (n, m)) ≠ Finished tt ∧ tampered sources path f (snd (snd (exec (n, m)))).
Proof.
  intros Hc Hd Ht Hin Hb Hdig.
  apply (run_induction (tampered sources path f) (fun _ _ r => fst r ≠ Finished tt ∧ tampered sources path f (snd (snd r))) Hc); try done.
  - intros m0 m1 _ Hq Hch. by eapply change_tampered.
  - intros k m0 o _ Hq _ Hfin. split; [|done]. simpl. intros Ho. destruct (Hfin Ho) as [Hr _]. destruct Hq as [Hp _]. congruence.
Qed.
End runs.

(** ** A concrete migration *)

Definition demoPrimary : string := "/state/ledger.json".
Definition demoLegacy : string := "/run/ledger.json".
Definition demoDatabase : string := "/state/ledger.db".
Definition demoFile : predecessor :=
  mkPredecessor true (ledgerText demoPrepared ++ string_of [10]) (Some (mkFence 3 "" "")) (Decoded (dumpLedger demoPrepared) false).
(** The ledger of the older program, and no database yet. *)
Definition demoDisk : migration := mkMigration {[demoLegacy := demoFile]} 0 "" None ∅.
(** The same after the import, the predecessor written once more by the older program. *)
Definition demoRewritten : migration :=
  mkMigration {[demoLegacy := demoFile]} 1 "imported"
    (Some [mkSource demoPrimary "" ""; mkSource demoLegacy (sha256_hex "{}") (backupPath demoDatabase (sha256_hex "{}"))]) ∅.

Lemma demo_configured : configured demoPrimary demoLegacy demoDatabase.
Proof.
  split; [done..|]. intros path digest Hin. replace (pathsOf demoPrimary demoLegacy) with [demoPrimary; demoLegacy] in Hin by reflexivity.
  apply elem_of_cons in Hin as [E|E%list_elem_of_singleton]; intros H; rewrite H in E; done.
Qed.
Lemma demo_decoded version phase sources rows :
  decoded demoDatabase (mkMigration {[demoLegacy := demoFile]} version phase sources rows).
Proof.
  split; cbn [mg_files].
  - intros path f [<- <-]%lookup_singleton_Some H. exfalso. apply (f_equal (str_eqb (fenceText demoDatabase))) in H. revert H. vm_compute. done.
  - intros path f fence raw trailing [<- <-]%lookup_singleton_Some. by intros [= <-].
Qed.
Lemma demo_unicode : unicode demoPrimary demoLegacy demoDisk.
Proof.
  intros _ l Hl. rewrite (stored_chosen demoPrimary demoLegacy demoDatabase) in Hl by apply demo_configured.
  replace (chosenOf demoDisk (pathsOf demoPrimary demoLegacy)) with (Some demoFile) in Hl by reflexivity.
  assert (diskOf demoFile = fileOf demoPrepared) as E.
  { unfold diskOf, fileOf, demoFile. cbn [pd_private pd_bytes pd_document]. by f_equal; vm_compute. }
  rewrite E, read_fileOf in Hl; [|apply demoPrepared_storable|by apply Z.leb_le; vm_compute]. injection Hl as <-.
  apply storable_forget, demoPrepared_storable.
Qed.
Lemma outcome_pair {A B C} (r : A * (B * C)) a : fst r = a → r = (a, (fst (snd r), snd (snd r))).
Proof. intros <-. by destruct r as [? []]. Qed.

Lemma migration_bounded_witness : fst (initializeSubmissionDatabase demoPrimary demoLegacy demoDatabase (7%nat, demoDisk)) ≠ Interrupted.
Proof. apply migration_bounded; [apply demo_configured|apply demo_decoded]. Defined.

Lemma migration_resumes_witness :
  initializeSubmissionDatabase demoPrimary demoLegacy demoDatabase
    (4%nat, snd (snd (initializeSubmissionDatabase demoPrimary demoLegacy demoDatabase (3%nat, demoDisk)))) =
  initializeSubmissionDatabase demoPrimary demoLegacy demoDatabase ((3 + 4)%nat, demoDisk).
Proof.
  apply (migration_resumes demoPrimary demoLegacy demoDatabase demoDisk 3
    (fst (snd (initializeSubmissionDatabase demoPrimary demoLegacy demoDatabase (3%nat, demoDisk))))).
  - apply demo_configured.
  - apply demo_decoded.
  - apply outcome_pair. vm_compute. reflexivity.
Defined.

Lemma migration_preserves_ledger_witness :
  sameLedger (authority demoPrimary demoLegacy demoDisk)
    (authority demoPrimary demoLegacy (snd (snd (initializeSubmissionDatabase demoPrimary demoLegacy demoDatabase (7%nat, demoDisk))))).
Proof. apply migration_preserves_ledger; [apply demo_configured|apply demo_decoded|apply demo_unicode]. Defined.

Lemma migration_fences_witness :
  mg_phase (snd (snd (initializeSubmissionDatabase demoPrimary demoLegacy demoDatabase (7%nat, demoDisk)))) = "ready".
Proof.
  set (r := initializeSubmissionDatabase demoPrimary demoLegacy demoDatabase (7%nat, demoDisk)).
  apply (migration_fences demoPrimary demoLegacy demoDatabase demoDisk 7 (fst (snd r)) (snd (snd r))).
  - apply demo_configured.
  - apply demo_decoded.
  - reflexivity.
  - apply outcome_pair. vm_compute. reflexivity.
Defined.

Lemma migration_refuses_changes_witness :
  fst (initializeSubmissionDatabase demoPrimary demoLegacy demoDatabase (7%nat, demoRewritten)) ≠ Finished tt.
Proof.
  apply (migration_refuses_changes demoPrimary demoLegacy demoDatabase demoRewritten (default [] (mg_sources demoRewritten)) demoLegacy demoFile 7).
  - apply demo_configured.
  - apply demo_decoded.
  - split_and!; reflexivity.
  - right. left.
  - intros H. apply (f_equal (str_eqb (fenceText demoDatabase))) in H. revert H. vm_compute. done.
  - intros source Hin _ H. apply (f_equal (fun s => existsb (fun x => str_eqb s (is_Digest x)) (default [] (mg_sources demoRewritten)))) in H.
    assert (existsb (fun x => str_eqb (is_Digest source) (is_Digest x)) (default [] (mg_sources demoRewritten)) = true) as E.
    { apply existsb_exists. exists source. split; [by apply list_elem_of_In|apply str_eqb_refl]. }
    rewrite E in H. revert H. vm_compute. done.
Defined.
