(* ===== verification/Program.v ===== *)
(** * Programs that talk to the ledger and to App Server

    The delivery code interleaves ledger transactions, waits on contexts and
    App Server requests. Such code is a value of [prog]: a tree that branches on
    every answer its environment may give. [wp] gives the meaning: a
    postcondition holds on every path, whatever the answers are and whatever
    other processes do to the shared store in between ([rely]). *)
From S2P Require Import Prelude GoStd GoValue TurnOptions Ledger LedgerFacts Store.
From Stdlib Require Import String.
Open Scope Z_scope.

(** ** The environment of one request *)

(** What the connection and the contexts answer before anything is written;
    [None] is no error. *)
Record netEnv := mkNet {
  ne_cause : option err;        (** [ctx.Err()] when the request returns *)
  ne_ensure : option err;       (** [Ensure]: connect and initialize *)
  ne_ready : bool;              (** connected, and ready at this generation *)
  ne_slot : option err;         (** the observer's request slot *)
  ne_encode : option err;       (** encoding the message *)
  ne_writer : option err;       (** the writer lock *)
  ne_current : bool;            (** the connection is still the current one *)
  ne_before : option err;       (** [ctx.Err()] before admission *)
  ne_after : option err;        (** [ctx.Err()] after admission *)
  ne_acquire : option err }.    (** [connection.Writer] *)

(** What follows the hand-over of the bytes. *)
Inductive wireReply :=
| WriteError (e : err)          (** the writer failed; bytes may have left *)
| ReplyLost (e : err)           (** no answer before the context ended *)
| Disconnected (e : err)        (** the connection was lost while waiting *)
| Refused (code : Z) (message : string) (** an error response *)
| Replied (result : any).

(** ** Programs *)

Inductive prog (A : Type) : Type :=
| Ret (a : A)
| Tx {B} (op : option ledgerOp) (s : submissionScope) (p : Ledger → plan B) (k : res err B → prog A)
| Ctx (k : option err → prog A)          (** acquire a lock or wait under a context *)
| Fresh (k : string → prog A)            (** draw a random token *)
| Net (k : netEnv → prog A)              (** look at the connection *)
| Wire (method : string) (params : any) (k : wireReply → prog A). (** hand bytes to the writer *)
Arguments Ret {A} a.
Arguments Tx {A B} op s p k.
Arguments Ctx {A} k.
Arguments Fresh {A} k.
Arguments Net {A} k.
Arguments Wire {A} method params k.

Fixpoint bind {A C} (m : prog A) (f : A → prog C) : prog C :=
  match m with
  | Ret a => f a
  | Tx op s p k => Tx op s p (fun r => bind (k r) f)
  | Ctx k => Ctx (fun r => bind (k r) f)
  | Fresh k => Fresh (fun r => bind (k r) f)
  | Net k => Net (fun r => bind (k r) f)
  | Wire m ps k => Wire m ps (fun r => bind (k r) f)
  end.

Notation "'let!' x ':=' m 'in' k" := (bind m (fun x => k))
  (at level 10, x name, m at level 100, k at level 200) : codex_scope.
Notation "'let!' ' p ':=' m 'in' k" := (bind m (fun x => match x with p => k end))
  (at level 10, p strict pattern, m at level 100, k at level 200) : codex_scope.

(** [x, err := m; if err != nil { return err }] *)
Definition bindOk {A C} (m : prog (res err A)) (f : A → prog (res err C)) : prog (res err C) :=
  bind m (fun r => match r with Ok a => f a | Err e => Ret (Err e) end).
Notation "'try!' x ':=' m 'in' k" := (bindOk m (fun x => k))
  (at level 10, x name, m at level 100, k at level 200) : codex_scope.
Notation "'try!' ' p ':=' m 'in' k" := (bindOk m (fun x => match x with p => k end))
  (at level 10, p strict pattern, m at level 100, k at level 200) : codex_scope.

(** A transaction that only reads, and one that runs a command of the ledger. *)
Definition readTx {B} (s : submissionScope) (p : Ledger → plan B) : prog (res err B) :=
  Tx None s p (@Ret (res err B)).
Definition runTx {B} (op : ledgerOp) (s : submissionScope) (p : Ledger → plan B) : prog (res err B) :=
  Tx (Some op) (writable s) p (@Ret (res err B)).
Definition lockContext : prog (res err unit) :=
  Ctx (fun e => Ret (match e with Some e => Err e | None => Ok tt end)).

(** ** Events *)

Inductive event :=
| EvTx (op : option ledgerOp) (ok : bool)
| EvWire (method : string) (params : any) (reply : wireReply).

(** Environment errors carry no delivery verdict: those are made by the code. *)
Fixpoint plain (e : err) : bool :=
  match e with
  | EUnknownSend _ | ENotSent _ _ | EUnwritten _ | ERpc _ _ | EPrompt _ _ _ => false
  | EWrap _ c | ETransport c | EThreadNotFound _ c | EProjectNotFound _ c => plain c
  | EJoin a b => plain a && plain b
  | _ => true
  end.

(** Connecting runs a request of its own, so its error may be a refusal. *)
Fixpoint verdictFree (e : err) : bool :=
  match e with
  | EUnknownSend _ | ENotSent _ _ => false
  | EWrap _ c | ETransport c | EUnwritten c | EPrompt _ _ c
  | EThreadNotFound _ c | EProjectNotFound _ c => verdictFree c
  | EJoin a b => verdictFree a && verdictFree b
  | _ => true
  end.

Lemma plain_verdictFree e : plain e = true → verdictFree e = true.
Proof.
  induction e; simpl; try done; auto. intros H. apply andb_true_iff in H as [? ?].
  apply andb_true_iff. auto.
Qed.

Definition plainOpt (o : option err) : Prop := match o with Some e => plain e = true | None => True end.
Definition plainRes {A} (r : res err A) : Prop := match r with Err e => plain e = true | Ok _ => True end.
Definition plainNet (n : netEnv) : Prop :=
  plainOpt (ne_cause n) ∧
  match ne_ensure n with Some e => verdictFree e = true | None => True end ∧ plainOpt (ne_slot n) ∧ plainOpt (ne_encode n) ∧
  plainOpt (ne_writer n) ∧ plainOpt (ne_before n) ∧ plainOpt (ne_after n) ∧ plainOpt (ne_acquire n).

(** Strings that came out of a JSON decoder are Unicode. *)
Fixpoint anyUnicode (v : any) : bool :=
  match v with
  | AStr s => validString s
  | AArr l => forallb anyUnicode l
  | AObj o => forallb (fun '(k, v) => validString k && anyUnicode v) o
  | _ => true
  end.

Definition plainReply (r : wireReply) : Prop :=
  match r with
  | WriteError e | ReplyLost e | Disconnected e => plain e = true
  | Refused _ _ => True
  | Replied v => anyUnicode v = true
  end.

(** ** Meaning *)

Section meaning.
Context {W E : Type} `{SubmissionStore W E} (rely : W → W → Prop).

Fixpoint wp {A} (m : prog A) (w : W) (tr : list event) (Q : W → list event → A → Prop) : Prop :=
  match m with
  | Ret a => Q w tr a
  | Tx op s p k => ∀ w1 e r w2, rely w w1 → transact e s p w1 = (r, w2) → plainRes r →
      wp (k r) w2 (tr ++ [EvTx op (is_ok r)]) Q
  | Ctx k => ∀ o, plainOpt o → wp (k o) w tr Q
  | Fresh k => ∀ x, wp (k x) w tr Q
  | Net k => ∀ n, plainNet n → wp (k n) w tr Q
  | Wire m ps k => ∀ r, plainReply r → wp (k r) w (tr ++ [EvWire m ps r]) Q
  end.

Lemma wp_bind {A C} (m : prog A) (f : A → prog C) w tr Q :
  wp (bind m f) w tr Q ↔ wp m w tr (fun w' tr' a => wp (f a) w' tr' Q).
Proof.
  revert w tr. induction m as [a|B op s p k IH|k IH|k IH|k IH|me ps k IH]; intros w tr; simpl; [done|..].
  - split; intros HH w1 e r w2 H1 H2 H3; apply IH; by eapply HH.
  - split; intros HH o Ho; apply IH; by apply HH.
  - split; intros HH o; apply IH; by apply HH.
  - split; intros HH o Ho; apply IH; by apply HH.
  - split; intros HH o Ho; apply IH; by apply HH.
Qed.

Lemma wp_mono {A} (m : prog A) w tr (Q Q' : W → list event → A → Prop) :
  (∀ w' tr' a, Q w' tr' a → Q' w' tr' a) → wp m w tr Q → wp m w tr Q'.
Proof.
  intros HQ. revert w tr. induction m as [a|B op s p k IH|k IH|k IH|k IH|me ps k IH];
    intros w tr; simpl; eauto.
Qed.

Lemma wp_and {A} (m : prog A) w tr (Q Q' : W → list event → A → Prop) :
  wp m w tr Q → wp m w tr Q' → wp m w tr (fun w' tr' a => Q w' tr' a ∧ Q' w' tr' a).
Proof.
  revert w tr. induction m as [a|B op s p k IH|k IH|k IH|k IH|me ps k IH];
    intros w tr H1 H2; simpl in *; eauto.
Qed.

Lemma wp_true {A} (m : prog A) w tr : wp m w tr (fun _ _ _ => True).
Proof. revert w tr. induction m; intros; simpl; auto. Qed.

Lemma wp_bindOk {A C} (m : prog (res err A)) (f : A → prog (res err C)) w tr Q :
  wp m w tr (fun w' tr' r => match r with Ok a => wp (f a) w' tr' Q | Err e => Q w' tr' (Err e) end) →
  wp (bindOk m f) w tr Q.
Proof. intros HH. apply wp_bind. eapply wp_mono, HH. by intros w' tr' [a|e]. Qed.
End meaning.

(** ** Running a program *)

(** A script of answers drives a program to its result. *)
Section driving.
Context {W E : Type} `{SubmissionStore W E}.

Inductive answer :=
| OnTx (e : E) | OnCtx (o : option err) | OnFresh (x : string) | OnNet (n : netEnv) | OnWire (r : wireReply).

Fixpoint drive {A} (m : prog A) (answers : list answer) (w : W) (tr : list event)
    : option (A * W * list event) :=
  match m, answers with
  | Ret a, [] => Some (a, w, tr)
  | Tx op s p k, OnTx e :: rest =>
    let '(r, w') := transact e s p w in drive (k r) rest w' (tr ++ [EvTx op (is_ok r)])
  | Ctx k, OnCtx o :: rest => drive (k o) rest w tr
  | Fresh k, OnFresh x :: rest => drive (k x) rest w tr
  | Net k, OnNet n :: rest => drive (k n) rest w tr
  | Wire m ps k, OnWire r :: rest => drive (k r) rest w (tr ++ [EvWire m ps r])
  | _, _ => None
  end.

(** Whether the environment errors a run met are plain. *)
Fixpoint plainRun {A} (m : prog A) (answers : list answer) (w : W) : Prop :=
  match m, answers with
  | Tx op s p k, OnTx e :: rest =>
    plainRes (fst (transact e s p w)) ∧ plainRun (k (fst (transact e s p w))) rest (snd (transact e s p w))
  | Ctx k, OnCtx o :: rest => plainOpt o ∧ plainRun (k o) rest w
  | Fresh k, OnFresh x :: rest => plainRun (k x) rest w
  | Net k, OnNet n :: rest => plainNet n ∧ plainRun (k n) rest w
  | Wire _ _ k, OnWire r :: rest => plainReply r ∧ plainRun (k r) rest w
  | _, _ => True
  end.

(** What is proved of every path holds of every run. *)
Lemma drive_sound (rely : W → W → Prop) {A} (m : prog A) answers w tr Q a w' tr' :
  (∀ w, rely w w) → wp rely m w tr Q → plainRun m answers w →
  drive m answers w tr = Some (a, w', tr') → Q w' tr' a.
Proof.
  intros Hr. revert answers w tr.
  induction m as [x|B op s p k IH|k IH|k IH|k IH|me ps k IH]; intros [|[] answers] w tr Hwp Hp Hd;
    simpl in *; try done; simplify_eq; try done.
  - destruct (transact e s p w) as [r w1] eqn:Et. simpl in Hp. destruct Hp as [Hp1 Hp2].
    eapply IH; [|exact Hp2|exact Hd]. by eapply Hwp.
  - destruct Hp as [Hp1 Hp2]. eapply IH; [|exact Hp2|exact Hd]. by apply Hwp.
  - eapply IH; [|exact Hp|exact Hd]. by apply Hwp.
  - destruct Hp as [Hp1 Hp2]. eapply IH; [|exact Hp2|exact Hd]. by apply Hwp.
  - destruct Hp as [Hp1 Hp2]. eapply IH; [|exact Hp2|exact Hd]. by apply Hwp.
Qed.
End driving.
Arguments answer E : clear implicits.
