(* ===== verification/Wire.v ===== *)
(** * Requests to App Server

    [requestWithAdmission], [requestConnectedAdmission], [requestOnAdmission]
    and [writeOfferAdmission] of [src/codex/client.go] (1078-1310) for a request
    of the client's own (no prompt offer), and [lifecycleParams] of
    [src/codex/lifecycle.go]. The admission callback runs between the last
    check that nothing was written and the hand-over of the bytes. *)
From S2P Require Import Prelude GoStd GoValue TurnOptions Ledger LedgerFacts Store Program.
From Stdlib Require Import String.
Open Scope Z_scope.

(** ** Options of the client *)

Record ThreadSettings := mkSettings {
  ts_Model : string; ts_ModelProvider : string; ts_ReasoningEffort : string;
  ts_CollaborationMode : string; ts_Policy : ThreadPolicy; ts_ProjectID : string }.

Record LifecycleRequest := mkLifecycle { lr_Method : string; lr_ThreadID : string; lr_Cwd : string }.

(** The callbacks belong to the application. *)
Record clientOptions := mkClientOptions {
  co_ObserverOnly : bool;
  co_DeveloperInstructions : string;
  co_PreserveThreadInstructionsOnResume : bool;
  co_database : bool;               (** [SubmissionDatabasePath != ""] *)
  co_LifecycleSettings : option (string → res err ThreadSettings);
  co_LifecycleRequestSettings : option (LifecycleRequest → res err ThreadSettings) }.

(** ** [map[string]any] *)

Definition object := list (string * any).
(** [m[key] = value] *)
Definition setField (key : string) (value : any) (m : object) : object :=
  filter (fun kv => kv.1 ≠ key) m ++ [(key, value)].
Definition setText (key value : string) (m : object) : object :=
  if is_empty value then m else setField key (AStr value) m.

Section wire.
Context (options : clientOptions).

Definition lifecycleParams (method : string) (value : any) : res err (any * string) :=
  if negb (str_in method ["thread/start"; "thread/resume"; "thread/fork"]) then Ok (value, "") else
  let resolve (params : object) : option (res err ThreadSettings) :=
    match co_LifecycleRequestSettings options, co_LifecycleSettings options with
    | Some f, _ => Some (f (mkLifecycle method (stringValue (field "threadId" params))
                              (stringValue (field "cwd" params))))
    | None, Some f => Some (f (stringValue (field "threadId" params)))
    | None, None => None
    end in
  match value with
  | AObj params =>
    let done (params : object) := Ok (AObj params, stringValue (field "modelProvider" params)) in
    match resolve params with
    | None => done params
    | Some (Err e) => Err e
    | Some (Ok settings) =>
      let params := setText "modelProvider" (ts_ModelProvider settings) params in
      let params := if negb (is_empty (ts_Model settings))
                       && is_empty (stringValue (field "model" params))
                    then setField "model" (AStr (ts_Model settings)) params else params in
      let params :=
        if is_empty (ts_ReasoningEffort settings) then params else
        let config := objectOrNil (field "config" params) in
        let config := match assoc "model_reasoning_effort" config with
                      | Some _ => config
                      | None => setField "model_reasoning_effort" (AStr (ts_ReasoningEffort settings)) config
                      end in
        setField "config" (AObj config) params in
      done params
    end
  | _ =>
    match co_LifecycleRequestSettings options, co_LifecycleSettings options with
    | None, None => Ok (value, "")
    | _, _ => Err (EMsg "Codex lifecycle parameters must be an object")
    end
  end.

(** ** Writing *)

(** The writer's part: checks under the writer lock, the admission, the
    hand-over. The first component is what the admission answered. *)
Definition writeOfferAdmission {B} (net : netEnv) (method : string) (params : any)
    (admitting : option (prog (res err B))) : prog (option B * res err wireReply) :=
  match ne_writer net with
  | Some e => Ret (None, Err (ETransport e))
  | None =>
    if negb (ne_current net) then Ret (None, Err (ETransport EConnectionChanged)) else
    match ne_before net with
    | Some e => Ret (None, Err (ETransport e))
    | None =>
      let transmit (b : option B) : prog (option B * res err wireReply) :=
        match ne_after net, ne_acquire net with
        | Some e, _ => Ret (b, Err (EUnwritten (ETransport e)))
        | None, Some e => Ret (b, Err (EUnwritten (ETransport e)))
        | None, None =>
          Wire method params (fun r => Ret (b, match r with
                                               | WriteError e => Err (ETransport e)
                                               | _ => Ok r end))
        end in
      match admitting with
      | None => transmit None
      | Some admitting =>
        bind admitting (fun r => match r with Err e => Ret (None, Err e) | Ok b => transmit (Some b) end)
      end
    end
  end.

(** The reader's part: what the answer means to the caller. *)
Definition awaitReply {T} (method : string) (decode : any → res err T) (r : wireReply) : res err T :=
  match r with
  | WriteError e | ReplyLost e => Err (ETransport e)
  | Disconnected e => Err (ETransport (EWrap "Codex App Server disconnected" e))
  | Refused code message => Err (ERpc code message)
  | Replied v =>
    match decode v with
    | Ok t => Ok t
    | Err e => Err (EWrap ("decode " ++ method ++ " response")%string e)
    end
  end.

Definition requestOnAdmission {B T} (net : netEnv) (method : string) (params : any)
    (decode : any → res err T) (admitting : option (prog (res err B))) : prog (option B * res err T) :=
  match ne_encode net with
  | Some e => Ret (None, Err e)
  | None =>
    bind (writeOfferAdmission net method params admitting) (fun '(b, r) =>
      Ret (b, match r with Err e => Err e | Ok reply => awaitReply method decode reply end))
  end.

(** [json.Unmarshal] into the struct with [modelProvider]. *)
Definition routingProvider (v : any) : option string :=
  match v with
  | ANull => Some ""
  | AObj fields => match field "modelProvider" fields with
                   | AStr s => Some s | ANull => Some "" | _ => None end
  | _ => None
  end.

Definition requestConnectedAdmission {B T} (net : netEnv) (method : string) (params : any)
    (decode : any → res err T) (admitting : option (prog (res err B))) : prog (option B * res err T) :=
  if negb (ne_ready net)
  then Ret (None, Err (ETransport (EMsg "Codex App Server is disconnected or initializing"))) else
  match (if co_ObserverOnly options then ne_slot net else None) with
  | Some e => Ret (None, Err (ETransport e))
  | None =>
    match lifecycleParams method params with
    | Err e => Ret (None, Err e)
    | Ok (params, provider) =>
      if is_empty provider then requestOnAdmission net method params decode admitting else
      bind (requestOnAdmission net method params (fun v => Ok v) admitting) (fun '(b, r) =>
        Ret (b, match r with
                | Err e => Err e
                | Ok v =>
                  match routingProvider v with
                  | None => Err (EMsg "decode Codex lifecycle routing")
                  | Some effective =>
                    if negb (str_eqb effective provider)
                    then Err (EMsg "Codex lifecycle provider mismatch") else decode v
                  end
                end))
    end
  end.

(** The deferred join of the context's cause with another error. *)
Definition joinCause {T} (cause : option err) (r : res err T) : res err T :=
  match r, cause with
  | Err e, Some c => if errIs c e then r else Err (EJoin e c)
  | _, _ => r
  end.

Definition observerMethods : list string :=
  ["thread/read"; "thread/turns/list"; "thread/items/list"; "thread/list"; "thread/queue/list"].

Definition requestWithAdmission {B T} (method : string) (params : any)
    (decode : any → res err T) (admitting : option (prog (res err B))) : prog (option B * res err T) :=
  Net (fun net =>
    bind
      (if co_ObserverOnly options && negb (str_in method observerMethods)
       then Ret (None, Err (EMsg "observer client cannot mutate or answer a thread"))
       else match ne_ensure net with
            | Some e => Ret (None, Err e)
            | None => requestConnectedAdmission net method params decode admitting
            end)
      (fun '(b, r) => Ret (b, joinCause (ne_cause net) r))).

Definition Request {T} (method : string) (params : object) (decode : any → res err T)
    : prog (res err T) :=
  bind (requestWithAdmission (B := unit) method (AObj params) decode None) (fun '(_, r) => Ret r).
End wire.
