(* ===== verification/History.v ===== *)
(** * Reading history and the native queue

    The paginated readers of [src/codex/client.go]: [walkThreadItems]
    (2338-2390), [ListQueue] (4641-4691), and what the delivery code looks up
    with them (4767-4894, 5015-5070, 5818-5837).

    The readers loop until App Server ends the pages. [fuel] is the number of
    requests the caller's context allows: when it is spent the next request
    fails with the context's deadline, as [Request] does. *)
From S2P Require Import Prelude GoStd GoValue TurnOptions Ledger LedgerFacts Store Program Wire.
From Stdlib Require Import String.
Open Scope Z_scope.

(** ** Decoding into Go structs *)

Definition decodeError : err := EMsg "json: cannot unmarshal value".
Definition decString (v : any) : res err string :=
  match v with ANull => Ok "" | AStr s => Ok s | _ => Err decodeError end.
Definition decBool (v : any) : res err bool :=
  match v with ANull => Ok false | ABool b => Ok b | _ => Err decodeError end.
Definition decObject (v : any) : res err object :=
  match v with ANull => Ok [] | AObj o => Ok o | _ => Err decodeError end.
(** A pointer, a slice or a map: null is nil. *)
Definition decNil {T} (f : any → res err T) (v : any) : res err (option T) :=
  match v with ANull => Ok None | _ => match f v with Ok t => Ok (Some t) | Err e => Err e end end.
Fixpoint decList {T} (f : any → res err T) (l : list any) : res err (list T) :=
  match l with
  | [] => Ok []
  | v :: rest => (let? t := f v in let? ts := decList f rest in Ok (t :: ts))%codex
  end.
Definition decArray {T} (f : any → res err T) (v : any) : res err (list T) :=
  match v with ANull => Ok [] | AArr l => decList f l | _ => Err decodeError end.
Definition decField {T} (key : string) (f : any → res err T) (v : any) : res err T :=
  (let? o := decObject v in f (field key o))%codex.

(** [struct { Data *[]T; NextCursor *string }] *)
Definition decPage {T} (f : any → res err T) (v : any) : res err (option (list T) * option string) :=
  (let? o := decObject v in
   let? data := decNil (decArray f) (field "data" o) in
   let? next := decNil decString (field "nextCursor" o) in
   Ok (data, next))%codex.

Record threadItemEntry := mkItemEntry { ti_TurnID : string; ti_Item : option object }.
Definition decItemEntry (v : any) : res err threadItemEntry :=
  (let? o := decObject v in
   let? turn := decString (field "turnId" o) in
   let? item := decNil decObject (field "item" o) in
   Ok (mkItemEntry turn item))%codex.

(** [entry.Item[key]]; a nil map reads as absent. *)
Definition itemField (key : string) (e : threadItemEntry) : any := field key (default [] (ti_Item e)).

Record submissionEntry := mkSubmission { su_ID : string; su_Input : list object; su_ClientUserMessageID : string }.
Definition decSubmission (v : any) : res err submissionEntry :=
  (let? o := decObject v in
   let? id := decString (field "id" o) in
   let? input := decArray decObject (field "input" o) in
   let? client := decString (field "clientUserMessageId" o) in
   Ok (mkSubmission id input client))%codex.

Record turnHead := mkTurnHead { th_ID : string; th_Status : string }.
Definition decTurnHead (v : any) : res err turnHead :=
  (let? o := decObject v in
   let? id := decString (field "id" o) in
   let? status := decString (field "status" o) in
   Ok (mkTurnHead id status))%codex.

Section history.
Context (options : clientOptions) (fuel : nat).

Definition outOfTime : err := ETransport EDeadline.

(** ** [walkThreadItems] *)

(** The entries of one page; the visitor's captured variables are [st]. *)
Fixpoint walkEntries {S} (visit : S → threadItemEntry → res err (bool * S))
    (entries : list threadItemEntry) (seen : list string) (st : S)
    : res err (bool * list string * S) :=
  match entries with
  | [] => Ok (false, seen, st)
  | entry :: rest =>
    let id := stringValue (itemField "id" entry) in
    if is_empty (ti_TurnID entry) || negb (bool_decide (is_Some (ti_Item entry))) || is_empty id
    then Err (EMsg "thread/items/list returned an invalid item entry")
    else if str_in id seen
    then Err (EMsg ("thread/items/list repeated item " ++ id))
    else match visit st entry with
         | Err e => Err e
         | Ok (true, st) => Ok (true, id :: seen, st)
         | Ok (false, st) => walkEntries visit rest (id :: seen) st
         end
  end.

Definition pageParams (threadID cursor : string) (extra : object) : object :=
  setText "cursor" cursor ([("threadId", AStr threadID); ("limit", ANum 100 0)] ++ extra).

Fixpoint walkPages {S} (n : nat) (threadID : string)
    (visit : S → threadItemEntry → res err (bool * S))
    (cursor : string) (cursors seen : list string) (st : S) : prog (res err S) :=
  match n with
  | O => Ret (Err outOfTime)
  | Datatypes.S n =>
    bindOk (Request options "thread/items/list"
              (pageParams threadID cursor [("sortDirection", AStr "desc")]) (decPage decItemEntry))
      (fun '(data, next) =>
        match data with
        | None => Ret (Err (EMsg "thread/items/list returned no data"))
        | Some entries =>
          match walkEntries visit entries seen st with
          | Err e => Ret (Err e)
          | Ok (true, _, st) => Ret (Ok st)
          | Ok (false, seen, st) =>
            match next with
            | None => Ret (Ok st)
            | Some next =>
              if is_empty next then Ret (Err (EMsg "thread/items/list returned an empty pagination cursor"))
              else if str_in next cursors
              then Ret (Err (EMsg "thread/items/list repeated a pagination cursor"))
              else walkPages n threadID visit next (next :: cursors) seen st
            end
          end
        end)
  end.

Definition walkThreadItems {S} (threadID : string) (visit : S → threadItemEntry → res err (bool * S))
    (st : S) : prog (res err S) := walkPages fuel threadID visit "" [] [] st.

(** ** [ListQueue] *)

Fixpoint queueEntries (data : list submissionEntry) (seen : list string) (entries : list QueueEntry)
    : res err (list string * list QueueEntry) :=
  match data with
  | [] => Ok (seen, entries)
  | submission :: rest =>
    if is_empty (su_ID submission) || is_empty (su_ClientUserMessageID submission)
    then Err (EMsg "thread/queue/list returned an invalid submission")
    else if str_in (su_ID submission) seen
    then Err (EMsg ("thread/queue/list repeated submission " ++ su_ID submission))
    else queueEntries rest (su_ID submission :: seen)
           (entries ++ [mkQueueEntry (su_ID submission) (inputText (su_Input submission))
                          (su_ClientUserMessageID submission)])
  end.

Fixpoint queuePages (n : nat) (threadID cursor : string) (cursors seen : list string)
    (entries : list QueueEntry) : prog (res err (list QueueEntry)) :=
  match n with
  | O => Ret (Err outOfTime)
  | Datatypes.S n =>
    bindOk (Request options "thread/queue/list" (pageParams threadID cursor []) (decPage decSubmission))
      (fun '(data, next) =>
        match data with
        | None => Ret (Err (EMsg "thread/queue/list returned no data"))
        | Some data =>
          match queueEntries data seen entries with
          | Err e => Ret (Err e)
          | Ok (seen, entries) =>
            match next with
            | None => Ret (Ok entries)
            | Some next =>
              if is_empty next then Ret (Err (EMsg "thread/queue/list returned an empty pagination cursor"))
              else if str_in next cursors
              then Ret (Err (EMsg "thread/queue/list repeated a pagination cursor"))
              else queuePages n threadID next (next :: cursors) seen entries
            end
          end
        end)
  end.

Definition ListQueue (threadID : string) : prog (res err (list QueueEntry)) :=
  queuePages fuel threadID "" [] [] [].

(** ** Lookups by client identity *)

(** The test every visitor starts with. *)
Definition userMessageOf (clientID : string) (entry : threadItemEntry) : bool :=
  str_eqb (stringValue (itemField "type" entry)) "userMessage"
  && str_eqb (stringValue (itemField "clientId" entry)) clientID.

Definition entryText (what : string) (entry : threadItemEntry) : res err string :=
  match userMessageText (default [] (ti_Item entry)) with
  | Ok text => Ok text
  | Err e => Err (EWrap what e)
  end.

Definition visitStarted (clientID text : string) (st : option QueueEntry) (entry : threadItemEntry)
    : res err (bool * option QueueEntry) :=
  if negb (userMessageOf clientID entry) then Ok (false, st) else
  (let? started := entryText "started queued message is invalid" entry in
   let? _ := guard (negb (str_eqb started text))
               (EMsg "queued message identity was reused with different text") in
   Ok (true, Some (mkQueueEntry (stringValue (itemField "id" entry)) started clientID)))%codex.

Definition startedByClientID (threadID clientID text : string) : prog (res err (option QueueEntry)) :=
  walkThreadItems threadID (visitStarted clientID text) None.

Definition queuedOrStartedByClientID (threadID clientID text : string)
    : prog (res err (option QueueEntry)) :=
  (try! entries := ListQueue threadID in
   match find (fun e => str_eqb (qe_ClientUserMessageID e) clientID) entries with
   | Some entry =>
     if negb (str_eqb (qe_Text entry) text)
     then Ret (Err (EMsg "queued message identity was reused with different text"))
     else Ret (Ok (Some entry))
   | None => startedByClientID threadID clientID text
   end)%codex.

(** The next older item of the same turn tells a steered message. *)
Definition visitSent (clientID text : string) (st : option SendReceipt) (entry : threadItemEntry)
    : res err (bool * option SendReceipt) :=
  match st with
  | Some receipt =>
    Ok (true, Some (if str_eqb (ti_TurnID entry) (sr_TurnID receipt)
                    then mkReceipt (sr_QueuedSubmissionID receipt) (sr_TurnID receipt)
                           (sr_ClientUserMessageID receipt) true
                    else receipt))
  | None =>
    if negb (userMessageOf clientID entry) then Ok (false, None) else
    (let? sent := entryText "sent message is invalid" entry in
     let? _ := guard (negb (str_eqb sent text))
                 (EMsg "message identity was reused with different text") in
     let? _ := guard (is_empty (ti_TurnID entry)) (EMsg "sent message has no turn identity") in
     Ok (false, Some (mkReceipt "" (ti_TurnID entry) clientID false)))%codex
  end.

Definition sentByClientID (threadID clientID text : string) : prog (res err (option SendReceipt)) :=
  walkThreadItems threadID (visitSent clientID text) None.

(** Up to six looks, with a context-bounded pause between them. *)
Fixpoint waitFor {T} (n : nat) (look : prog (res err (option T))) : prog (res err (option T)) :=
  match n with
  | O => Ret (Ok None)
  | Datatypes.S n =>
    bind look (fun r =>
      match r with
      | Err e => Ret (Err e)
      | Ok (Some t) => Ret (Ok (Some t))
      | Ok None =>
        match n with
        | O => Ret (Ok None)
        | _ => Ctx (fun o => match o with Some e => Ret (Err e) | None => waitFor n look end)
        end
      end)
  end.

Definition waitForStartedByClientID (threadID clientID text : string) : prog (res err (option QueueEntry)) :=
  waitFor 6 (startedByClientID threadID clientID text).
Definition waitForSentByClientID (threadID clientID text : string) : prog (res err (option SendReceipt)) :=
  waitFor 6 (sentByClientID threadID clientID text).

Definition ActiveTurnID (threadID : string) : prog (res err string) :=
  (try! data := Request options "thread/turns/list"
       [("threadId", AStr threadID); ("limit", ANum 1 0); ("sortDirection", AStr "desc");
        ("itemsView", AStr "notLoaded")] (decField "data" (decNil (decArray decTurnHead))) in
   match data with
   | None => Ret (Err (EMsg "thread/turns/list returned no data"))
   | Some [turn] => Ret (Ok (if str_eqb (th_Status turn) "inProgress" then th_ID turn else ""))
   | Some _ => Ret (Ok "")
   end)%codex.

Definition queueContainsSubmission (entries : list QueueEntry) (id : string) : bool :=
  existsb (fun e => str_eqb (qe_ID e) id) entries.

Definition visitDeleted (attempt : queueDeletionAttempt) (st : bool) (entry : threadItemEntry)
    : res err (bool * bool) :=
  if negb (userMessageOf (qd_ClientUserMessageID attempt) entry) then Ok (false, st) else
  (let? text := entryText "deleted queued message has invalid history" entry in
   let? _ := guard (negb (str_eqb (queueTextDigest text) (qd_Digest attempt)))
               (EMsg "deleted queued message identity was reused with different text") in
   Ok (true, true))%codex.

Definition queueDeletionWasStarted (threadID : string) (attempt : queueDeletionAttempt)
    : prog (res err bool) :=
  bind (walkThreadItems threadID (visitDeleted attempt) false)
    (fun r => Ret (match r with
                   | Ok found => Ok found
                   | Err e => Err (EWrap "inspect deleted queued message history" e) end)).
End history.
