(* ===== verification/Delivery.v ===== *)
(** * Delivering messages

    The operations of [src/codex/client.go] that put a user message into a
    thread exactly once: [SendWithOptions] and its reconciliation
    (5185-5445, 5500-5537), [src/codex/send_delivery.go], the native queue
    (4693-4765, 4896-5133), acknowledgement (3003-3105), the resolution check
    (3216-3358), and the resume they start with (3536-3569, 4571-4639). *)
From S2P Require Import Prelude GoStd GoValue TurnOptions Ledger LedgerFacts Store Program Wire History.
From Stdlib Require Import String.
Open Scope Z_scope.

Section delivery.
Context (options : clientOptions) (fuel : nat).
Let Request {T} := @Request options T.

(** ** Resuming with a policy *)

Definition applyThreadPolicy (params : object) (policy : ThreadPolicy) (explicit : bool) : object :=
  if negb explicit && co_PreserveThreadInstructionsOnResume options then params else
  let own := co_DeveloperInstructions options in
  let theirs := tp_DeveloperInstructions policy in
  let params :=
    if negb (is_empty theirs) && negb (is_empty own)
    then setField "developerInstructions" (AStr (own ++ newline ++ newline ++ theirs)) params
    else if negb (is_empty theirs) then setField "developerInstructions" (AStr theirs) params
    else if negb (is_empty own) then setField "developerInstructions" (AStr own) params
    else params in
  setText "approvalPolicy" (tp_ApprovalPolicy policy) (setText "sandbox" (tp_Sandbox policy) params).

Definition applyThreadMCP (config : object) (policy : ThreadPolicy) : object :=
  match tp_MCPServer policy with
  | None => config
  | Some server =>
    setField "mcp_servers"
      (AObj [(mcp_Name server,
              AObj [("command", AStr (mcp_Command server)); ("args", AArr (AStr <$> mcp_Args server));
                    ("required", ABool true); ("enabled_tools", AArr [AStr (mcp_Tool server)]);
                    ("tools", AObj [(mcp_Tool server, AObj [("approval_mode", AStr "approve")])])])])
      config
  end.

Definition threadResumeParams (threadID : string) : object :=
  let params := [("threadId", AStr threadID); ("excludeTurns", ABool true)] in
  if co_ObserverOnly options then params else applyThreadPolicy params zeroPolicy false.

(** The update without its [threadId]; empty means no update. *)
Definition executionPolicyFields (policy : ThreadPolicy) : object :=
  (if str_eqb (tp_Sandbox policy) "danger-full-access"
   then [("sandboxPolicy", AObj [("type", AStr "dangerFullAccess")])] else [])
  ++ (if is_empty (tp_ApprovalPolicy policy) then []
      else [("approvalPolicy", AStr (tp_ApprovalPolicy policy))]).

Definition executionPolicyUpdate (threadID : string) (policy : ThreadPolicy) : object :=
  match executionPolicyFields policy with [] => [] | fields => ("threadId", AStr threadID) :: fields end.

(** [int64]: an integer of the width. *)
Definition decInt64 (v : any) : res err Z :=
  match v with
  | ANull => Ok 0
  | ANum m e => match float_int m e with
                | Some z => if (- 2 ^ 63 <=? z) && (z <? 2 ^ 63) then Ok z else Err decodeError
                | None => Err decodeError end
  | _ => Err decodeError
  end.

Record ThreadMetadata := mkMetadata {
  tm_ID : string; tm_Cwd : string; tm_ProjectID : option string; tm_ForkedFromID : string;
  tm_Source : any; tm_UpdatedAt : Z; tm_Path : option string; tm_Preview : string;
  tm_Ephemeral : option bool; tm_HistoryMode : string; tm_Status : object;
  tm_Turns : option (list object) }.

Definition decMetadata (v : any) : res err ThreadMetadata :=
  (let? o := decObject v in
   let? id := decString (field "id" o) in
   let? cwd := decString (field "cwd" o) in
   let? project := decNil decString (field "projectId" o) in
   let? forked := decString (field "forkedFromId" o) in
   let? updated := decInt64 (field "updatedAt" o) in
   let? path := decNil decString (field "path" o) in
   let? preview := decString (field "preview" o) in
   let? ephemeral := decNil decBool (field "ephemeral" o) in
   let? mode := decString (field "historyMode" o) in
   let? status := decObject (field "status" o) in
   let? turns := decNil (decArray decObject) (field "turns" o) in
   Ok (mkMetadata id cwd project forked (field "source" o) updated path preview ephemeral mode status turns))%codex.

Definition ReadThreadMetadata (threadID : string) (excludeTurns : bool) : prog (res err ThreadMetadata) :=
  (let! r := Request "thread/read"
     ([("threadId", AStr threadID)] ++ (if excludeTurns then [("excludeTurns", ABool true)] else []))
     (decField "thread" decMetadata) in
   match r with
   | Err e => Ret (Err (if IsThreadNotFound e threadID then EThreadNotFound threadID e else e))
   | Ok metadata =>
     if negb (str_eqb (tm_ID metadata) threadID) then Ret (Err (EMsg "thread/read returned the wrong thread"))
     else Ret (Ok metadata)
   end)%codex.

Definition decAnything (v : any) : res err unit := Ok tt.

Definition applyLoadedExecutionPolicy (threadID : string) (update : object) : prog (res err bool) :=
  match update with
  | [] => Ret (Ok false)
  | _ =>
    (try! metadata := ReadThreadMetadata threadID true in
     if str_eqb (stringValue (field "type" (tm_Status metadata))) "notLoaded" then Ret (Ok false) else
     try! _ := Request "thread/settings/update" update decAnything in
     Ret (Ok true))%codex
  end.

Definition resumeApplyingExecutionPolicy {T} (threadID : string) (resume : object) (policy : ThreadPolicy)
    (decode : any → res err T) : prog (res err T) :=
  let update := executionPolicyUpdate threadID policy in
  (try! applied := applyLoadedExecutionPolicy threadID update in
   try! response := Request "thread/resume" resume decode in
   match update with
   | [] => Ret (Ok response)
   | _ => if applied then Ret (Ok response) else
          try! _ := Request "thread/settings/update" update decAnything in Ret (Ok response)
   end)%codex.

Definition resumeThreadWithPolicy (threadID : string) (policy : ThreadPolicy) (explicit : bool)
    : prog (res err unit) :=
  let params := applyThreadPolicy (threadResumeParams threadID) policy explicit in
  let params := match tp_MCPServer policy with
                | Some _ => setField "config" (AObj (applyThreadMCP [] policy)) params
                | None => params end in
  (try! _ := resumeApplyingExecutionPolicy threadID params policy decObject in Ret (Ok tt))%codex.

(** ** Sending *)

Definition sendStateTx (threadID clientID text context optionsDigest : string) : prog (res err sendState) :=
  readTx (attemptScope threadID [clientID]) (sendStateWithOptions threadID clientID text context optionsDigest).
Definition queueAttemptTx (threadID clientID text : string) : prog (res err bool) :=
  readTx (attemptScope threadID [clientID]) (queueAttempt threadID clientID text).
Definition markAcceptedTx (threadID clientID : string) (receipt : SendReceipt) : prog (res err unit) :=
  runTx (OpMarkAccepted threadID clientID receipt) (attemptScope threadID [clientID])
    (markSendAccepted threadID clientID receipt).
Definition recordSendTx (threadID clientID text context : string) (steered : bool) (turn : TurnOptions)
    (receipt : option SendReceipt) : prog (res err unit) :=
  runTx (OpRecordSend threadID clientID text context steered turn receipt) (attemptScope threadID [clientID])
    (recordSendAttemptWithReceipt threadID clientID text context steered turn receipt).
Definition restoreTx (threadID clientID claim : string) : prog (res err unit) :=
  runTx (OpRestore (co_database options) threadID clientID claim) (attemptScope threadID [clientID])
    (restoreRejectedSendClaim (co_database options) threadID clientID claim).
Definition claimTx (threadID clientID text action optionsDigest : string) (steered : bool)
    : prog (res err string) :=
  Fresh (fun claim =>
    runTx (OpClaim threadID clientID claim text action optionsDigest steered) (attemptScope threadID [clientID])
      (claimSendSubmissionExact threadID clientID claim text action optionsDigest steered)).

Definition receiptUnrecorded (e : err) : err :=
  EUnknownSend (EWrap "message was accepted but its receipt could not be recorded" e).

Definition reconcileSend (threadID text clientUserMessageID : string) (attempt : sendAttempt)
    : prog (res err (option SendReceipt)) :=
  if str_eqb (sa_State attempt) "accepted" then
    Ret (Ok (Some (mkReceipt "" (sa_TurnID attempt) clientUserMessageID (sa_Steered attempt))))
  else if str_eqb (sa_State attempt) "submitting" then
    bindOk (sentByClientID options fuel threadID clientUserMessageID text) (fun found =>
      match found with
      | Some receipt =>
        let receipt := mkReceipt (sr_QueuedSubmissionID receipt) (sr_TurnID receipt)
                         (sr_ClientUserMessageID receipt) (sa_Steered attempt) in
        bind (markAcceptedTx threadID clientUserMessageID receipt) (fun r =>
          Ret (match r with Ok _ => Ok (Some receipt) | Err e => Err (receiptUnrecorded e) end))
      | None => Ret (Err (EUnknownSend (EMsg "the earlier attempt is not present in Codex history yet")))
      end)
  else Ret (Ok None).

Definition retryableDeliveryError (e : err) : bool :=
  asTransport e || errIs EDeadline e || errIs ECanceled e
  || match asCode e with
     | Some code => (Z.land code 255 =? 5) || (Z.land code 255 =? 6)
     | None => false end.

Definition unwrittenSendOutcome (threadID text clientID actionContext optionsDigest : string)
    (allowAbsent : bool) (requestErr : err) : prog (res err SendReceipt) :=
  bind (sendStateTx threadID clientID text actionContext optionsDigest) (fun r =>
    match r with
    | Err e => Ret (Err (EUnknownSend e))
    | Ok state =>
      if negb (ss_queued state)
         && ((ss_found state && str_eqb (sa_State (ss_attempt state)) "prepared")
             || (negb (ss_found state) && allowAbsent))
      then Ret (Err (ENotSent requestErr (retryableDeliveryError requestErr)))
      else if ss_found state && negb (ss_queued state) then
        bind (reconcileSend threadID text clientID (ss_attempt state)) (fun r =>
          Ret (match r with
               | Ok (Some receipt) => Ok receipt
               | Ok None => Err (EUnknownSend requestErr)
               | Err e => Err (EUnknownSend e) end))
      else Ret (Err (EUnknownSend requestErr))
    end).

Definition restoreUnwrittenSendOutcome (threadID text id action optionsDigest claim : string)
    (requestErr : err) : prog (res err SendReceipt) :=
  bind (restoreTx threadID id claim) (fun r =>
    let requestErr := match r with Ok _ => requestErr | Err e => EJoin requestErr e end in
    unwrittenSendOutcome threadID text id action optionsDigest false requestErr).

Definition finishAcceptedSend (threadID : string) (receipt : SendReceipt) : prog (res err SendReceipt) :=
  bind (markAcceptedTx threadID (sr_ClientUserMessageID receipt) receipt) (fun r =>
    Ret (match r with Ok _ => Ok receipt | Err e => Err (receiptUnrecorded e) end)).

(** An explicit refusal of the request by App Server. *)
Definition refusal (e : err) : bool :=
  match asRpc e with
  | Some (code, _) => (code =? -32600) || (code =? -32601) || (code =? -32602)
  | None => false
  end.

Definition textInput (text : string) : any := AArr [AObj [("type", AStr "text"); ("text", AStr text)]].

Definition withContext (n : normalizedTurnOptions) (params : object) : object :=
  match additionalContextParameter n with
  | Some c => setField "additionalContext" c params
  | None => params
  end.

Definition steerParams (threadID turnID text clientID : string) (n : normalizedTurnOptions) : object :=
  withContext n [("threadId", AStr threadID); ("expectedTurnId", AStr turnID); ("input", textInput text);
                 ("clientUserMessageId", AStr clientID)].
Definition startParams (threadID text clientID : string) (n : normalizedTurnOptions) : object :=
  withContext n (setText "effort" (nt_ReasoningEffort n) (setText "model" (nt_Model n)
    [("threadId", AStr threadID); ("input", textInput text); ("clientUserMessageId", AStr clientID)])).

(** What is left to do after a request that did not end in an acceptance. *)
Definition reconcileRequest (threadID text id action optionsDigest : string) (steered : bool)
    (admitted : option string) (requestErr : err) : prog (res err SendReceipt) :=
  match admitted with
  | None => unwrittenSendOutcome threadID text id action optionsDigest false requestErr
  | Some claim =>
    if asUnwritten requestErr || refusal requestErr
    then restoreUnwrittenSendOutcome threadID text id action optionsDigest claim requestErr
    else
    bind (waitForSentByClientID options fuel threadID id text) (fun r =>
      match r with
      | Ok (Some receipt) =>
        let receipt := mkReceipt (sr_QueuedSubmissionID receipt) (sr_TurnID receipt)
                         (sr_ClientUserMessageID receipt) steered in
        bind (markAcceptedTx threadID id receipt) (fun r =>
          Ret (match r with Ok _ => Ok receipt | Err e => Err (receiptUnrecorded e) end))
      | Ok None => Ret (Err (EUnknownSend requestErr))
      | Err _ => Ret (Err (EUnknownSend (EWrap "history reconciliation failed" requestErr)))
      end)
  end.

(** The part of [SendWithOptions] that may write to the thread. *)
Definition submitMessage (threadID text id action turnID : string) (n : normalizedTurnOptions)
    : prog (res err SendReceipt) :=
  let steered := negb (is_empty turnID) in
  let admitting := bind (claimTx threadID id text action (nt_Digest n) steered) (fun r =>
    Ret (match r with
         | Ok claim => Ok claim
         | Err e => Err (EWrap "record message attempt before submission" e) end)) in
  let reconcile := reconcileRequest threadID text id action (nt_Digest n) steered in
  if steered then
    bind (requestWithAdmission options "turn/steer" (AObj (steerParams threadID turnID text id n))
            (decField "turnId" decString) (Some admitting)) (fun '(admitted, r) =>
      match r with
      | Err e => reconcile admitted e
      | Ok turn =>
        if negb (str_eqb turn turnID) then reconcile admitted (EMsg "turn/steer returned the wrong turn")
        else finishAcceptedSend threadID (mkReceipt "" turnID id true)
      end)
  else
    bind (requestWithAdmission options "turn/start" (AObj (startParams threadID text id n))
            (decField "turn" (decField "id" decString)) (Some admitting)) (fun '(admitted, r) =>
      match r with
      | Err e => reconcile admitted e
      | Ok turn =>
        if is_empty turn then reconcile admitted (EMsg "turn/start returned no turn")
        else finishAcceptedSend threadID (mkReceipt "" turn id false)
      end).

Definition SendWithOptions (threadID text id action : string) (turn : TurnOptions)
    : prog (res err SendReceipt) :=
  match normalizeTurnOptions turn with
  | Err e => Ret (Err e)
  | Ok n =>
    (try! _ := lockContext in
     try! state := sendStateTx threadID id text action (nt_Digest n) in
     let attempt := ss_attempt state in
     let attempted := ss_found state in
     try! queued := queueAttemptTx threadID id text in
     if queued then
       try! found := queuedOrStartedByClientID options fuel threadID id text in
       match found with
       | None => Ret (Err (EUnknownSend (EMsg "earlier queued send outcome is unknown")))
       | Some entry => Ret (Ok (mkReceipt (qe_ID entry) "" id false))
       end
     else
     try! reconciled := reconcileSend threadID text id attempt in
     match reconciled with
     | Some receipt => Ret (Ok receipt)
     | None =>
       let refuseUnwritten := unwrittenSendOutcome threadID text id action (nt_Digest n) (negb attempted) in
       let! resumed := resumeThreadWithPolicy threadID (nt_ThreadPolicy n)
                         (negb (bool_decide (nt_ThreadPolicy n = zeroPolicy))) in
       match resumed with
       | Err e => refuseUnwritten e
       | Ok _ =>
         let! active := ActiveTurnID options threadID in
         match active with
         | Err e => refuseUnwritten e
         | Ok turnID =>
           let steered := negb (is_empty turnID) in
           if attempted && negb (Bool.eqb (sa_Steered attempt) steered)
           then refuseUnwritten (EMsg "prepared message no longer matches the thread state")
           else if attempted then submitMessage threadID text id action turnID n
           else
             let! recorded := recordSendTx threadID id text action steered turn None in
             match recorded with
             | Err e => Ret (Err (EWrap "record message attempt before submission" e))
             | Ok _ => submitMessage threadID text id action turnID n
             end
         end
       end
     end)%codex
  end.

(** ** Recovering and preparing sends *)

Definition ReconcileSendWithOptions (threadID text id action : string) (turn : TurnOptions)
    : prog (res err (option SendReceipt)) :=
  match normalizeTurnOptions turn with
  | Err e => Ret (Err e)
  | Ok n =>
    (try! _ := lockContext in
     try! state := sendStateTx threadID id text action (nt_Digest n) in
     try! queued := queueAttemptTx threadID id text in
     if queued then
       try! found := queuedOrStartedByClientID options fuel threadID id text in
       match found with
       | None => Ret (Err (EUnknownSend (EMsg "earlier queued send outcome is unknown")))
       | Some entry => Ret (Ok (Some (mkReceipt (qe_ID entry) "" id false)))
       end
     else reconcileSend threadID text id (ss_attempt state))%codex
  end.

Definition SendAttemptedWithOptions (threadID text id action : string) (turn : TurnOptions)
    : prog (res err bool) :=
  match normalizeTurnOptions turn with
  | Err e => Ret (Err e)
  | Ok n =>
    (try! state := sendStateTx threadID id text action (nt_Digest n) in
     if ss_found state then Ret (Ok true) else
     try! found := sentByClientID options fuel threadID id text in
     match found with
     | None => Ret (Ok false)
     | Some receipt =>
       try! _ := recordSendTx threadID id text action (sr_Steered receipt) turn (Some receipt) in
       Ret (Ok true)
     end)%codex
  end.

(** ** The native queue *)

Definition QueueWithPolicy (threadID text clientID : string) (policy : ThreadPolicy)
    : prog (res err QueueEntry) :=
  match validateThreadPolicy policy with
  | Err e => Ret (Err e)
  | Ok _ =>
    (try! _ := lockContext in
     try! attempted := queueAttemptTx threadID clientID text in
     if attempted then
       try! found := queuedOrStartedByClientID options fuel threadID clientID text in
       match found with
       | Some existing => Ret (Ok existing)
       | None => Ret (Err (EMsg "previous queued message outcome is still unknown; refusing to submit it again"))
       end
     else
     try! _ := applyLoadedExecutionPolicy threadID (executionPolicyUpdate threadID policy) in
     let! recorded := runTx (OpRecordQueue threadID clientID text) (attemptScope threadID [clientID])
                        (recordQueueAttempt threadID clientID text) in
     match recorded with
     | Err e => Ret (Err (EWrap "record queue attempt before submission" e))
     | Ok _ =>
       let! added := Request "thread/queue/add"
         [("threadId", AStr threadID); ("input", textInput text); ("clientUserMessageId", AStr clientID)]
         (decField "queuedSubmission" decSubmission) in
       let valid := match added with
         | Ok s => negb (is_empty (su_ID s)) && str_eqb (su_ClientUserMessageID s) clientID
                   && str_eqb (inputText (su_Input s)) text
         | Err _ => false end in
       match added, valid with
       | Ok s, true => Ret (Ok (mkQueueEntry (su_ID s) text clientID))
       | _, _ =>
         let! found := queuedOrStartedByClientID options fuel threadID clientID text in
         match found, added with
         | Err _, Err e => Ret (Err (EWrap "queue reconciliation failed" e))
         | Err e, Ok _ => Ret (Err (EWrap "thread/queue/add returned an invalid submission; reconciliation failed" e))
         | Ok (Some existing), _ => Ret (Ok existing)
         | Ok None, Err e => Ret (Err e)
         | Ok None, Ok _ =>
             Ret (Err (EMsg "thread/queue/add returned an invalid submission; refusing to retry an unknown outcome"))
         end
       end
     end)%codex
  end.

(** [complete] is the application's callback. *)
Definition finishAbsentQueueDeletion (threadID queuedSubmissionID : string)
    (attempt : queueDeletionAttempt) (complete : prog (res err unit)) : prog (res err unit) :=
  (try! started := queueDeletionWasStarted options fuel threadID attempt in
   try! _ := (if started then Ret (Ok tt) else complete) in
   try! _ := runTx (OpClearDeletion threadID queuedSubmissionID (qd_ClientUserMessageID attempt))
               (attemptScope threadID [qd_ClientUserMessageID attempt; queuedSubmissionID])
               (clearQueueDeletionAndAttempt threadID queuedSubmissionID (qd_ClientUserMessageID attempt)) in
   if started then Ret (Err (EMsg "queued message was started before it could be deleted"))
   else Ret (Ok tt))%codex.

Definition DeleteQueueEntryWithCompletion (threadID id : string) (complete : prog (res err unit))
    : prog (res err unit) :=
  (try! recorded := readTx (attemptScope threadID [id]) (queueDeletionAttemptAt threadID id) in
   try! entries := ListQueue options fuel threadID in
   match find (fun e => str_eqb (qe_ID e) id) entries with
   | None =>
     match recorded with
     | Some attempt => finishAbsentQueueDeletion threadID id attempt complete
     | None => Ret (Err (EMsg "queued message was not found"))
     end
   | Some target =>
     if is_empty (qe_ClientUserMessageID target)
     then Ret (Err (EMsg "queued message has no client identity")) else
     let current := mkDeletion (qe_ClientUserMessageID target) (queueTextDigest (qe_Text target)) in
     try! attempt :=
       match recorded with
       | Some attempt =>
         if negb (bool_decide (current = attempt))
         then Ret (Err (EMsg "queued message changed after deletion was requested"))
         else Ret (Ok attempt)
       | None => runTx (OpRecordDeletion threadID target) (attemptScope threadID [qe_ID target])
                   (recordQueueDeletionAttempt threadID target)
       end in
     let! deleted := Request "thread/queue/delete"
       [("threadId", AStr threadID); ("queuedSubmissionId", AStr id)] (decField "deleted" decBool) in
     match deleted with
     | Err e =>
       let! again := ListQueue options fuel threadID in
       match again with
       | Ok entries =>
         if queueContainsSubmission entries id then Ret (Err e)
         else finishAbsentQueueDeletion threadID id attempt complete
       | Err _ => Ret (Err e)
       end
     | Ok false =>
       try! entries := ListQueue options fuel threadID in
       if queueContainsSubmission entries id
       then Ret (Err (EMsg "queued message deletion was not accepted"))
       else finishAbsentQueueDeletion threadID id attempt complete
     | Ok true =>
       try! _ := complete in
       runTx (OpClearDeletion threadID id (qd_ClientUserMessageID attempt))
         (attemptScope threadID [qd_ClientUserMessageID attempt; id])
         (clearQueueDeletionAndAttempt threadID id (qd_ClientUserMessageID attempt))
     end
   end)%codex.

Fixpoint finishDeletions (threadID : string) (entries : list QueueEntry)
    (complete : string → prog (res err unit)) (attempts : list (string * queueDeletionAttempt))
    : prog (res err unit) :=
  match attempts with
  | [] => Ret (Ok tt)
  | (id, attempt) :: rest =>
    if queueContainsSubmission entries id then finishDeletions threadID entries complete rest
    else (try! _ := finishAbsentQueueDeletion threadID id attempt (complete id) in
          finishDeletions threadID entries complete rest)%codex
  end.

Definition ReconcileQueueDeletionsWithCompletion (threadID : string)
    (complete : string → prog (res err unit)) : prog (res err unit) :=
  (try! _ := lockContext in
   try! attempts := readTx (threadScope threadID) (queueDeletionsOf threadID) in
   if bool_decide (attempts = ∅) then Ret (Ok tt) else
   try! entries := ListQueue options fuel threadID in
   finishDeletions threadID entries complete (map_to_list attempts))%codex.

Definition decTurnResponse (v : any) : res err turnHead := decField "turn" decTurnHead v.

Definition StartQueueWithPolicy (threadID queuedSubmissionID : string) (policy : ThreadPolicy)
    : prog (res err unit) :=
  match validateThreadPolicy policy with
  | Err e => Ret (Err e)
  | Ok _ =>
    (try! entries := ListQueue options fuel threadID in
     match entries with
     | [] => Ret (Err (EMsg "queued message was not found"))
     | target :: _ =>
       if negb (str_eqb (qe_ID target) queuedSubmissionID)
       then Ret (Err (EMsg "only the first queued message can be started")) else
       try! _ := resumeThreadWithPolicy threadID policy (negb (bool_decide (policy = zeroPolicy))) in
       try! found := startedByClientID options fuel threadID (qe_ClientUserMessageID target) (qe_Text target) in
       match found with
       | Some _ => Ret (Ok tt)
       | None =>
         let! started := Request "thread/queue/start"
           [("threadId", AStr threadID); ("queuedSubmissionId", AStr queuedSubmissionID)] decTurnResponse in
         let valid := match started with
           | Ok turn => negb (is_empty (th_ID turn)) && str_eqb (th_Status turn) "inProgress"
           | Err _ => false end in
         if valid then Ret (Ok tt) else
         let! found := waitForStartedByClientID options fuel threadID (qe_ClientUserMessageID target)
                         (qe_Text target) in
         match found, started with
         | Ok (Some _), _ => Ret (Ok tt)
         | Err _, Err e => Ret (Err (EWrap "queue start reconciliation failed" e))
         | Err e, Ok _ => Ret (Err (EWrap "queue start reconciliation failed" e))
         | Ok None, Err e => Ret (Err e)
         | Ok None, Ok _ => Ret (Err (EMsg "thread/queue/start returned an invalid turn"))
         end
       end
     end)%codex
  end.

(** ** Acknowledgement and resolution *)

Definition visitAcknowledged (digests expected : gmap string string) (proven : gmap string string)
    (entry : threadItemEntry) : res err (bool * gmap string string) :=
  if negb (str_eqb (stringValue (itemField "type" entry)) "userMessage") then Ok (false, proven) else
  let clientID := stringValue (itemField "clientId" entry) in
  match digests !! clientID with
  | None => Ok (false, proven)
  | Some digest =>
    (let? _ := guard (is_empty (ti_TurnID entry)) (EMsg "acknowledged message has no turn identity") in
     let turn := default "" (expected !! clientID) in
     let? _ := guard (negb (is_empty turn) && negb (str_eqb (ti_TurnID entry) turn))
                 (EMsg "message identity was accepted by another turn") in
     let? text := entryText "acknowledged message has invalid history" entry in
     let? _ := guard (negb (str_eqb (queueTextDigest text) digest))
                 (EMsg "message identity was reused with different text") in
     let proven := <[clientID := ti_TurnID entry]> proven in
     Ok (bool_decide (size proven = size digests), proven))%codex
  end.

Definition AcknowledgeSends (threadID : string) (acks : list SendAcknowledgement)
    : prog (res err (list string)) :=
  (try! _ := lockContext in
   try! '(digests, expected) := readTx (writable (threadScope threadID))
     (fun l => acknowledgeExpectations threadID acks ∅ ∅ l) in
   try! proven := (if bool_decide (digests = ∅) then Ret (Ok ∅)
                   else walkThreadItems options fuel threadID (visitAcknowledged digests expected) ∅) in
   runTx (OpAcknowledge threadID acks digests proven) (threadScope threadID)
     (acknowledgeProven threadID acks digests proven))%codex.

(** The digests resolved from the queue, then from history. *)
Fixpoint resolveQueued (attempts resolved : gmap string string) (entries : list QueueEntry)
    : res err (gmap string string) :=
  match entries with
  | [] => Ok resolved
  | entry :: rest =>
    match attempts !! qe_ClientUserMessageID entry with
    | None => resolveQueued attempts resolved rest
    | Some _ =>
      let digest := queueTextDigest (qe_Text entry) in
      match resolved !! qe_ClientUserMessageID entry with
      | Some existing =>
        if negb (str_eqb existing digest)
        then Err (EMsg "queued message identity was reused with different text")
        else resolveQueued attempts (<[qe_ClientUserMessageID entry := digest]> resolved) rest
      | None => resolveQueued attempts (<[qe_ClientUserMessageID entry := digest]> resolved) rest
      end
    end
  end.

Definition visitResolved (attempts : gmap string string) (resolved : gmap string string)
    (entry : threadItemEntry) : res err (bool * gmap string string) :=
  if negb (str_eqb (stringValue (itemField "type" entry)) "userMessage") then Ok (false, resolved) else
  let clientID := stringValue (itemField "clientId" entry) in
  match attempts !! clientID with
  | None => Ok (false, resolved)
  | Some _ =>
    (let? text := entryText "queued message attempt has invalid history" entry in
     let digest := queueTextDigest text in
     let? _ := guard (match resolved !! clientID with
                      | Some existing => negb (str_eqb existing digest) | None => false end)
                 (EMsg "queued message identity was reused with different text") in
     let resolved := <[clientID := digest]> resolved in
     Ok (bool_decide (size resolved = size attempts), resolved))%codex
  end.

Definition wrapReconcile {T} (r : res err T) : res err T :=
  match r with Ok t => Ok t | Err e => Err (EWrap "reconcile queued message attempts" e) end.

Definition requireSubmissionAttemptsExcept (threadID : string) (allowQueued : bool) (ownPreparedID : string)
    : prog (res err unit) :=
  (try! deletions := readTx (threadScope threadID) (deletionCount threadID) in
   if negb (deletions =? 0) then Ret (Err (EMsg "unresolved queue deletion(s)")) else
   try! '(attempts, unresolved) := readTx (threadScope threadID) (resolutionSnapshot threadID ownPreparedID) in
   if 0 <? unresolved then Ret (Err (EMsg "unresolved message attempt(s)")) else
   if bool_decide (attempts = ∅) then Ret (Ok tt) else
   try! resolved :=
     (if allowQueued then
        let! entries := ListQueue options fuel threadID in
        Ret (match wrapReconcile entries with
             | Err e => Err e | Ok entries => resolveQueued attempts ∅ entries end)
      else Ret (Ok ∅)) in
   let! walked := walkThreadItems options fuel threadID (visitResolved attempts) resolved in
   match wrapReconcile walked with
   | Err e => Ret (Err e)
   | Ok resolved =>
     if bool_decide (map_Forall (fun clientID digest => default digest (resolved !! clientID) = digest) attempts)
     then if bool_decide (map_Forall (fun clientID _ => is_Some (resolved !! clientID)) attempts)
          then Ret (Ok tt) else Ret (Err (EMsg "unresolved queued message attempt(s)"))
     else Ret (Err (EMsg "queued message identity was reused with different text"))
   end)%codex.
End delivery.
