(* ===== verification/DeliveryFacts.v ===== *)
(** * Properties of message delivery

    Whatever the ledger, the connection and other processes answer: a call of
    [SendWithOptions] hands the message to the connection at most once, only
    after its durable claim, and its verdict about the outcome is true. *)
From S2P Require Import Prelude GoStd GoValue TurnOptions Ledger LedgerFacts Store Program Wire History Delivery.
From Stdlib Require Import String.
Open Scope Z_scope.

(** ** Verdicts *)

Definition asNotSent (e : err) : bool :=
  match errAs (fun x => match x with ENotSent _ _ => Some tt | _ => None end) e with
  | Some _ => true | None => false end.

(** No [MessageNotSentError] anywhere in the chain. *)
Fixpoint notSentFree (e : err) : bool :=
  match e with
  | ENotSent _ _ => false
  | EWrap _ c | ETransport c | EUnwritten c | EPrompt _ _ c | EUnknownSend c
  | EThreadNotFound _ c | EProjectNotFound _ c => notSentFree c
  | EJoin a b => notSentFree a && notSentFree b
  | _ => true
  end.

Lemma notSentFree_as e : notSentFree e = true → asNotSent e = false.
Proof.
  unfold asNotSent. induction e as [| |a IHa b IHb| | | | | | | | | | | | | |]; simpl; auto; try done.
  intros [Ha Hb]%andb_true_iff. specialize (IHa Ha). specialize (IHb Hb).
  by destruct (errAs _ a).
Qed.

Lemma verdictFree_notSent e : verdictFree e = true → notSentFree e = true.
Proof.
  induction e; simpl; try done; auto. intros H. apply andb_true_iff in H as [? ?].
  apply andb_true_iff. auto.
Qed.
Lemma plain_notSent e : plain e = true → notSentFree e = true.
Proof. intros. by apply verdictFree_notSent, plain_verdictFree. Qed.
#[export] Hint Resolve plain_notSent verdictFree_notSent : codex.

Definition free {A} (r : res err A) : Prop := match r with Err e => notSentFree e = true | Ok _ => True end.

Lemma free_plain {A} (r : res err A) : plainRes r → free r.
Proof. destruct r; simpl; auto with codex. Qed.
#[export] Hint Resolve free_plain : codex.

(** ** Quiet programs: no message is handed over, no verdict is given *)

Definition isDelivery (ev : event) : bool :=
  match ev with EvWire m _ _ => str_in m ["turn/start"; "turn/steer"] | _ => false end.

(** The commands that take and give back the right to deliver. *)
Definition inert (op : option ledgerOp) : bool :=
  match op with Some (OpClaim _ _ _ _ _ _ _) | Some (OpRestore _ _ _ _) => false | _ => true end.
Definition notable (ev : event) : bool :=
  match ev with
  | EvTx (Some (OpClaim _ _ _ _ _ _ _)) ok => ok
  | EvTx (Some (OpRestore _ _ _ _)) _ => true
  | EvTx _ _ => false
  | EvWire _ _ _ => isDelivery ev
  end.

Definition silent (evs : list event) : Prop := Forall (fun ev => notable ev = false) evs.
Definition quietly (tr tr' : list event) : Prop := ∃ evs, tr' = tr ++ evs ∧ silent evs.

Lemma quietly_refl tr : quietly tr tr.
Proof. exists []. by rewrite app_nil_r; split; [|constructor]. Qed.
Lemma quietly_trans a b c : quietly a b → quietly b c → quietly a c.
Proof.
  intros (x & -> & Hx) (y & -> & Hy). exists (x ++ y). rewrite app_assoc. split; [done|].
  by apply Forall_app.
Qed.
Lemma quietly_one tr ev : notable ev = false → quietly tr (tr ++ [ev]).
Proof. intros H. exists [ev]. split; [done|]. by repeat constructor. Qed.
#[export] Hint Resolve quietly_refl quietly_one : codex.

Section quiet.
Context {W E : Type} `{SubmissionStore W E} (rely : W → W → Prop) (options : clientOptions).

Definition quiet {A} (m : prog (res err A)) : Prop :=
  ∀ w tr, wp rely m w tr (fun _ tr' r => quietly tr tr' ∧ free r).

Lemma quiet_ret {A} (r : res err A) : free r → quiet (Ret r).
Proof. intros Hr w tr. simpl. auto with codex. Qed.

Lemma quiet_bind {A C} (m : prog (res err A)) (f : res err A → prog (res err C)) :
  quiet m → (∀ r, free r → quiet (f r)) → quiet (bind m f).
Proof.
  intros Hm Hf w tr. apply wp_bind. eapply wp_mono, Hm. intros w' tr' r [Ht Hr].
  eapply wp_mono, Hf, Hr. intros w'' tr'' r' [Ht' Hr']. eauto using quietly_trans.
Qed.

Lemma quiet_bindOk {A C} (m : prog (res err A)) (f : A → prog (res err C)) :
  quiet m → (∀ a, quiet (f a)) → quiet (bindOk m f).
Proof. intros Hm Hf. apply quiet_bind; [done|]. intros [a|e] Hr; [apply Hf|by apply quiet_ret]. Qed.

Lemma quiet_ctx {A} (k : option err → prog (res err A)) :
  (∀ o, plainOpt o → quiet (k o)) → quiet (Ctx k).
Proof. intros Hk w tr o Ho. by apply Hk. Qed.

Lemma quiet_tx {A} op s (p : Ledger → plan A) : inert op = true → quiet (Tx op s p (@Ret (res err A))).
Proof.
  intros Ho w tr w1 e r w2 _ _ Hr. simpl. split; [apply quietly_one; by destruct op as [[]|]|auto with codex].
Qed.
Lemma quiet_readTx {A} s (p : Ledger → plan A) : quiet (readTx s p).
Proof. by apply quiet_tx. Qed.
Lemma quiet_runTx {A} op s (p : Ledger → plan A) : inert (Some op) = true → quiet (runTx op s p).
Proof. apply quiet_tx. Qed.
Lemma runTx_free {A} op s (p : Ledger → plan A) w tr :
  wp rely (runTx op s p) w tr (fun _ tr' r => tr' = tr ++ [EvTx (Some op) (is_ok r)] ∧ free r).
Proof. intros w1 e r w2 _ _ Hr. simpl. auto with codex. Qed.
Lemma quiet_lock : quiet lockContext.
Proof. intros w tr [e|] Ho; simpl in *; auto with codex. Qed.

(** ** Requests *)

(** A decoder reports plain errors. *)
Definition decodes {T} (decode : any → res err T) : Prop := ∀ v, plainRes (decode v).

Lemma joinCause_free {T} cause (r : res err T) : plainOpt cause → free r → free (joinCause cause r).
Proof.
  intros Hc Hr. destruct r as [t|e], cause as [c|]; simpl in *; try done.
  destruct (errIs c e); [done|]. simpl. rewrite Hr. simpl. by apply plain_notSent.
Qed.

(** What an answer means, seen from the evidence the code relies on. *)
Record faithful {T} (decode : any → res err T) (reply : wireReply) (r : res err T) : Prop := {
  fa_free : free r;
  fa_plain : plainReply reply;
  fa_ok t : r = Ok t → ∃ v, reply = Replied v ∧ decode v = Ok t;
  fa_unwritten e : r = Err e → asUnwritten e = false;
  fa_rpc e c m : r = Err e → asRpc e = Some (c, m) → reply = Refused c m }.

Lemma plain_evidence e : plain e = true → asUnwritten e = false ∧ asRpc e = None.
Proof.
  unfold asUnwritten, asRpc. induction e as [|t c IH|a IHa b IHb| | | |c IH| | | | | | | | |t c IH|p c IH]; simpl; try done.
  intros [Ha Hb]%andb_true_iff. destruct (IHa Ha) as [Ua Ra], (IHb Hb) as [Ub Rb].
  rewrite Ra, Rb. split; [|done]. by destruct (errAs _ a).
Qed.

Lemma errAs_join {X} (f : err → option X) a b :
  f (EJoin a b) = None → errAs f (EJoin a b) = match errAs f a with Some x => Some x | None => errAs f b end.
Proof. simpl. by intros ->. Qed.

Lemma awaitReply_faithful {T} method (decode : any → res err T) reply :
  decodes decode → plainReply reply → (∀ e, reply ≠ WriteError e) →
  faithful decode reply (awaitReply method decode reply).
Proof.
  intros Hd Hr Hw. destruct reply as [e|e|e|c m|v]; simpl in *; try (by edestruct Hw).
  - destruct (plain_evidence (ETransport e)) as [U R]; [done|].
    split; intros; simplify_eq; simpl; auto with codex; congruence.
  - destruct (plain_evidence (ETransport (EWrap "Codex App Server disconnected" e))) as [U R]; [done|].
    split; intros; simplify_eq; simpl; auto with codex; congruence.
  - split; [done|done|done|by intros ? [= <-]|]. intros e' c' m' [= <-]. by intros [= <- <-].
  - pose proof (Hd v) as Hv. destruct (decode v) as [t|e] eqn:Ed.
    + split; intros; simplify_eq; eauto; done.
    + destruct (plain_evidence (EWrap ("decode " ++ method ++ " response") e)) as [U R]; [done|].
      split; intros; simplify_eq; simpl; auto with codex; congruence.
Qed.

Lemma joinCause_faithful {T} (decode : any → res err T) reply cause r :
  plainOpt cause → faithful decode reply r → faithful decode reply (joinCause cause r).
Proof.
  intros Hc [Hf Hp Hok Hu Hr]. pose proof (joinCause_free _ _ Hc Hf) as Hfree.
  destruct r as [t|e], cause as [c|]; simpl in *; try (by split; eauto).
  destruct (errIs c e); [by split; eauto|]. destruct (plain_evidence c Hc) as [Uc Rc].
  specialize (Hu e eq_refl). split; [done|done|done|..].
  - intros e' [= <-]. unfold asUnwritten in *. rewrite errAs_join by done.
    destruct (errAs _ e); [done|]. exact Uc.
  - intros e' c' m [= <-]. unfold asRpc in *. rewrite errAs_join by done.
    destruct (errAs _ e) as [[c0 m0]|] eqn:Ee; [|congruence]. intros [= -> ->]. by eapply Hr.
Qed.

(** A request with an admission: where it stopped and what it reports. *)
Inductive requested {B T} (method : string) (params : any) (decode : any → res err T)
    (admission : list event → res err B → Prop) (tr : list event)
    : list event → option B → res err T → Prop :=
| rq_unreached e :      (** nothing ran *)
    notSentFree e = true → requested method params decode admission tr tr None (Err e)
| rq_refused evs e e' : (** the admission said no *)
    admission evs (Err e) → notSentFree e' = true →
    requested method params decode admission tr (tr ++ evs) None (Err e')
| rq_unwritten evs b e : (** admitted, nothing written *)
    admission evs (Ok b) → asUnwritten e = true → notSentFree e = true →
    requested method params decode admission tr (tr ++ evs) (Some b) (Err e)
| rq_failed evs b e e' : (** handed over, the writer failed *)
    admission evs (Ok b) → asUnwritten e' = false → asRpc e' = None → notSentFree e' = true →
    requested method params decode admission tr (tr ++ evs ++ [EvWire method params (WriteError e)])
      (Some b) (Err e')
| rq_written evs b reply r : (** handed over and awaited *)
    admission evs (Ok b) → faithful decode reply r →
    requested method params decode admission tr (tr ++ evs ++ [EvWire method params reply]) (Some b) r.

Lemma joinCause_unwritten cause e (T : Type) :
  plainOpt cause → asUnwritten e = true → notSentFree e = true →
  ∃ e', joinCause cause (Err e : res err T) = Err e' ∧ asUnwritten e' = true ∧ notSentFree e' = true.
Proof.
  intros Hc Hu Hf. pose proof (joinCause_free (T := T) cause (Err e) Hc Hf) as Hfree.
  destruct cause as [c|]; simpl in *; [|eauto]. destruct (errIs c e); [eauto|].
  eexists. split_and!; [done| |done]. unfold asUnwritten in *. rewrite errAs_join by done.
  by destruct (errAs _ e).
Qed.

Lemma joinCause_plain cause e (T : Type) :
  plainOpt cause → plain e = true →
  ∃ e', joinCause cause (Err e : res err T) = Err e' ∧ asUnwritten e' = false ∧ asRpc e' = None
        ∧ notSentFree e' = true.
Proof.
  intros Hc He. destruct cause as [c|]; simpl in *.
  - destruct (errIs c e).
    + eexists. split; [done|]. destruct (plain_evidence e He). auto with codex.
    + assert (plain (EJoin e c) = true) as Hp by (simpl; by rewrite He).
      eexists. split; [done|]. destruct (plain_evidence _ Hp). auto with codex.
  - eexists. split; [done|]. destruct (plain_evidence e He). auto with codex.
Qed.

Lemma joinCause_err cause e (T : Type) :
  plainOpt cause → notSentFree e = true →
  ∃ e', joinCause cause (Err e : res err T) = Err e' ∧ notSentFree e' = true.
Proof.
  intros Hc He. pose proof (joinCause_free (T := T) cause (Err e) Hc He) as Hf.
  destruct (joinCause cause (Err e)) as [t|e'] eqn:Ej; [|eauto].
  destruct cause as [c|]; simpl in Ej; [destruct (errIs c e)|]; discriminate.
Qed.

Definition deliveryMethod (method : string) : Prop := method ∈ ["turn/start"; "turn/steer"].

Lemma lifecycle_other method params :
  deliveryMethod method → lifecycleParams options method params = Ok (params, "").
Proof.
  intros Hm. unfold lifecycleParams. replace (str_in method _) with false; [done|].
  symmetry. apply str_in_false. unfold deliveryMethod in Hm. set_solver.
Qed.

Lemma requestWithAdmission_spec {B T} method params (decode : any → res err T)
    (admitting : prog (res err B)) (admission : list event → res err B → Prop) w tr :
  deliveryMethod method → decodes decode →
  (∀ w, wp rely admitting w tr (fun _ tr' r => free r ∧ ∃ evs, tr' = tr ++ evs ∧ admission evs r)) →
  wp rely (requestWithAdmission options method params decode (Some admitting)) w tr
    (fun _ tr' '(b, r) => requested method params decode admission tr tr' b r).
Proof.
  intros Hm Hd Ha. unfold requestWithAdmission. intros net Hn. apply wp_bind.
  destruct Hn as (Ncause & Nensure & Nslot & Nencode & Nwriter & Nbefore & Nafter & Nacquire).
  set (Q := fun w' tr' '(b, r) => wp rely (Ret (b, joinCause (ne_cause net) r)) w' tr'
       (fun _ tr'' '(b', r') => requested method params decode admission tr tr'' b' r')).
  assert (∀ e w', notSentFree e = true → Q w' tr (None, Err e)) as Hstop.
  { intros e w' He.
    change (requested method params decode admission tr tr None (joinCause (ne_cause net) (Err e : res err T))).
    destruct (joinCause_err (ne_cause net) e T Ncause He) as (e' & -> & ?). by apply rq_unreached. }
  destruct (_ && _); [by apply Hstop|].
  destruct (ne_ensure net); [apply Hstop; auto with codex|].
  unfold requestConnectedAdmission. destruct (negb (ne_ready net)); [by apply Hstop|].
  destruct (if co_ObserverOnly options then ne_slot net else None) as [e|] eqn:Eslot.
  { apply Hstop. destruct (co_ObserverOnly options); [|done]. rewrite Eslot in Nslot. simpl. auto with codex. }
  rewrite lifecycle_other by done. replace (is_empty "") with true by done. unfold requestOnAdmission.
  destruct (ne_encode net); [apply Hstop; auto with codex|]. apply wp_bind. unfold writeOfferAdmission.
  destruct (ne_writer net); [apply Hstop; simpl; auto with codex|].
  destruct (negb (ne_current net)); [by apply Hstop|].
  destruct (ne_before net); [apply Hstop; simpl; auto with codex|].
  apply wp_bind. eapply wp_mono, Ha. intros w' tr' r [Hfree (evs & -> & Hadm)].
  destruct r as [b|e].
  - assert (∀ e, plain e = true → requested method params decode admission tr (tr ++ evs) (Some b)
              (joinCause (ne_cause net) (Err (EUnwritten (ETransport e)) : res err T))) as Hun.
    { intros e He. destruct (joinCause_unwritten (ne_cause net) (EUnwritten (ETransport e)) T Ncause)
        as (e' & -> & ? & ?); [done|simpl; auto with codex|]. by apply rq_unwritten. }
    destruct (ne_after net); [by apply Hun|]. destruct (ne_acquire net); [by apply Hun|].
    intros reply Hreply. simpl. rewrite <-app_assoc.
    destruct (match reply with WriteError _ => true | _ => false end) eqn:Ew.
    + destruct reply; try done.
      destruct (joinCause_plain (ne_cause net) (ETransport e) T Ncause) as (e' & -> & ? & ? & ?); [done|].
      by apply rq_failed.
    + replace (match reply with WriteError e => Err (ETransport e) | _ => Ok reply end)
        with (Ok reply : res err wireReply) by (by destruct reply).
      apply rq_written; [done|]. apply joinCause_faithful; [done|].
      apply awaitReply_faithful; [done|done|]. by intros e ->.
  - change (requested method params decode admission tr (tr ++ evs) None
             (joinCause (ne_cause net) (Err e : res err T))).
    destruct (joinCause_err (ne_cause net) e T Ncause Hfree) as (e' & -> & ?). by eapply rq_refused.
Qed.

(** The application's callbacks report plain errors. *)
Definition tame : Prop :=
  (∀ f t, co_LifecycleSettings options = Some f → plainRes (f t)) ∧
  (∀ f q, co_LifecycleRequestSettings options = Some f → plainRes (f q)).

Lemma lifecycle_free method params : tame → free (lifecycleParams options method params).
Proof.
  intros [T1 T2]. unfold lifecycleParams. destruct (negb _); [done|].
  destruct params; try (by repeat cases).
  destruct (co_LifecycleRequestSettings options) as [f|] eqn:E2.
  - pose proof (T2 f (mkLifecycle method (stringValue (field "threadId" fields))
                        (stringValue (field "cwd" fields))) eq_refl) as Hf.
    destruct (f _); simpl in *; auto with codex.
  - destruct (co_LifecycleSettings options) as [f|] eqn:E1; [|done].
    pose proof (T1 f (stringValue (field "threadId" fields)) eq_refl) as Hf.
    destruct (f _); simpl in *; auto with codex.
Qed.

Lemma awaitReply_free {T} method (decode : any → res err T) reply :
  decodes decode → plainReply reply → free (awaitReply method decode reply).
Proof.
  intros Hd Hr. destruct reply; simpl in *; auto with codex.
  pose proof (Hd result) as Hv. destruct (decode result); simpl in *; auto with codex.
Qed.

(** The request without an admission, up to the connection. *)
Lemma quiet_requestOn {B T} net method params (decode : any → res err T) w tr :
  str_in method ["turn/start"; "turn/steer"] = false → decodes decode → plainNet net →
  wp rely (requestOnAdmission (B := B) net method params decode None) w tr
    (fun _ tr' '(_, r) => quietly tr tr' ∧ free r).
Proof.
  intros Hm Hd (_ & _ & _ & Nencode & Nwriter & Nbefore & Nafter & Nacquire).
  unfold requestOnAdmission, writeOfferAdmission.
  destruct (ne_encode net); [simpl in *; auto with codex|].
  destruct (ne_writer net); [simpl in *; auto with codex|].
  destruct (negb (ne_current net)); [simpl in *; auto with codex|].
  destruct (ne_before net); [simpl in *; auto with codex|].
  destruct (ne_after net); [simpl in *; auto with codex|].
  destruct (ne_acquire net); [simpl in *; auto with codex|].
  intros reply Hr. simpl. split; [by apply quietly_one|].
  destruct reply; try (by apply awaitReply_free). simpl in *. auto with codex.
Qed.

Lemma quiet_Request {T} method params (decode : any → res err T) :
  tame → str_in method ["turn/start"; "turn/steer"] = false → decodes decode →
  quiet (Request options method params decode).
Proof.
  intros Ht Hm Hd w tr. unfold Request. apply wp_bind. intros net Hn. apply wp_bind.
  set (Q := fun (w' : W) (tr' : list event) (p : option unit * res err T) => quietly tr tr' ∧ free p.2).
  assert (∀ m, wp rely m w tr (fun w' tr' p => Q w' tr' p) →
    wp rely m w tr (fun w' tr' a => wp rely (let '(b, r) := a in Ret (b, joinCause (ne_cause net) r)) w' tr'
      (fun w'0 tr'0 a0 => wp rely (let '(_, r) := a0 in Ret r) w'0 tr'0 (fun _ tr'1 r => quietly tr tr'1 ∧ free r)))) as Hcont.
  { intros m. apply wp_mono. intros w' tr' [b r] [Hq Hf]. simpl in *. split; [done|].
    apply joinCause_free; [apply Hn|done]. }
  apply Hcont. clear Hcont. destruct (_ && _); [by split; [apply quietly_refl|]|].
  pose proof Hn as (_ & Nensure & Nslot & _).
  destruct (ne_ensure net); [split; [apply quietly_refl|simpl; auto with codex]|].
  unfold requestConnectedAdmission. destruct (negb (ne_ready net)); [by split; [apply quietly_refl|]|].
  destruct (if co_ObserverOnly options then ne_slot net else None) as [e|] eqn:Eslot.
  { split; [apply quietly_refl|]. destruct (co_ObserverOnly options); [|done].
    rewrite Eslot in Nslot. simpl in *. auto with codex. }
  pose proof (lifecycle_free method (AObj params) Ht) as Hl.
  destruct (lifecycleParams options method (AObj params)) as [[ps provider]|e]; [|by split; [apply quietly_refl|]].
  destruct (is_empty provider).
  - eapply wp_mono, quiet_requestOn; [|done..]. by intros w' tr' [b r].
  - apply wp_bind. eapply wp_mono; [|apply quiet_requestOn; [done|by intros v|done]].
    intros w' tr' [b r] [Hq Hf]. simpl. split; [done|]. destruct r as [v|e]; [|done].
    simpl. destruct (routingProvider v); [|done]. destruct (negb _); [done|]. apply free_plain, Hd.
Qed.
End quiet.

(** ** Decoders report plain errors *)

Lemma plain_bind {A C} (m : res err A) (f : A → res err C) :
  plainRes m → (∀ a, plainRes (f a)) → plainRes (res_bind m f).
Proof. destruct m; simpl; auto. Qed.
Lemma plain_guard c e : plain e = true → plainRes (guard c e).
Proof. by destruct c. Qed.

Lemma decString_plain : decodes decString.
Proof. by intros []. Qed.
Lemma decBool_plain : decodes decBool.
Proof. by intros []. Qed.
Lemma decObject_plain : decodes decObject.
Proof. by intros []. Qed.
Lemma decNil_plain {T} (f : any → res err T) : decodes f → decodes (decNil f).
Proof. intros Hf v. unfold decNil. pose proof (Hf v). destruct v, (f _); simpl in *; done. Qed.
Lemma decArray_plain {T} (f : any → res err T) : decodes f → decodes (decArray f).
Proof.
  intros Hf v. destruct v; try done. simpl.
  match goal with |- plainRes (decList f ?l) => induction l as [|x l IH] end; simpl; [done|].
  apply plain_bind; [apply Hf|]. intros t. by apply plain_bind.
Qed.
Lemma decField_plain {T} key (f : any → res err T) : decodes f → decodes (decField key f).
Proof. intros Hf v. apply plain_bind; [apply decObject_plain|]. intros o. apply Hf. Qed.
Lemma decPage_plain {T} (f : any → res err T) : decodes f → decodes (decPage f).
Proof.
  intros Hf v. apply plain_bind; [apply decObject_plain|]. intros o.
  apply plain_bind; [by apply decNil_plain, decArray_plain|]. intros d.
  apply plain_bind; [apply decNil_plain, decString_plain|]. by intros.
Qed.
#[export] Hint Resolve decString_plain decBool_plain decObject_plain decNil_plain decArray_plain
  decField_plain decPage_plain : codex.

Lemma decItemEntry_plain : decodes decItemEntry.
Proof.
  intros v. apply plain_bind; [apply decObject_plain|]. intros o.
  apply plain_bind; [apply decString_plain|]. intros t.
  apply plain_bind; [apply decNil_plain, decObject_plain|]. by intros.
Qed.
Lemma decSubmission_plain : decodes decSubmission.
Proof.
  intros v. apply plain_bind; [apply decObject_plain|]. intros o.
  apply plain_bind; [apply decString_plain|]. intros t.
  apply plain_bind; [apply decArray_plain, decObject_plain|]. intros i.
  apply plain_bind; [apply decString_plain|]. by intros.
Qed.
Lemma decTurnHead_plain : decodes decTurnHead.
Proof.
  intros v. apply plain_bind; [apply decObject_plain|]. intros o.
  apply plain_bind; [apply decString_plain|]. intros t.
  apply plain_bind; [apply decString_plain|]. by intros.
Qed.
Lemma decInt64_plain : decodes decInt64.
Proof. intros []; simpl; try done. destruct (float_int _ _); [|done]. by destruct (_ && _). Qed.
#[export] Hint Resolve decInt64_plain : codex.
Lemma decMetadata_plain : decodes decMetadata.
Proof.
  intros v. apply plain_bind; [apply decObject_plain|]. intros o.
  repeat (apply plain_bind;
    [first [apply decString_plain | apply decObject_plain | apply decInt64_plain
           | apply decNil_plain; first [apply decString_plain | apply decBool_plain
                                       | apply decArray_plain, decObject_plain]]|]; intros ?).
  done.
Qed.
Lemma decAnything_plain : decodes decAnything.
Proof. by intros v. Qed.
#[export] Hint Resolve decItemEntry_plain decSubmission_plain decTurnHead_plain decMetadata_plain
  decAnything_plain : codex.

(** ** Visitors give no verdict *)

Lemma free_bind {A C} (m : res err A) (f : A → res err C) :
  free m → (∀ a, free (f a)) → free (res_bind m f).
Proof. destruct m; simpl; auto. Qed.
Lemma free_guard c e : notSentFree e = true → free (guard c e).
Proof. by destruct c. Qed.
Lemma userMessageText_free item : free (userMessageText item).
Proof. unfold userMessageText. by repeat cases. Qed.
Lemma entryText_free what entry : free (entryText what entry).
Proof.
  unfold entryText. pose proof (userMessageText_free (default [] (ti_Item entry))) as Ht.
  by destruct (userMessageText _).
Qed.

Definition visitFree {S} (visit : S → threadItemEntry → res err (bool * S)) : Prop :=
  ∀ st entry, free (visit st entry).

Lemma visitStarted_free clientID text : visitFree (visitStarted clientID text).
Proof.
  intros st entry. unfold visitStarted. destruct (negb _); [done|].
  apply free_bind; [apply entryText_free|]. intros x. apply free_bind; [by apply free_guard|]. done.
Qed.
Lemma visitSent_free clientID text : visitFree (visitSent clientID text).
Proof.
  intros [r|] entry; simpl; [done|]. destruct (negb _); [done|].
  apply free_bind; [apply entryText_free|]. intros x. apply free_bind; [by apply free_guard|].
  intros _. apply free_bind; [by apply free_guard|]. done.
Qed.
Lemma walkEntries_free {S} (visit : S → threadItemEntry → res err (bool * S)) entries seen st :
  visitFree visit → free (walkEntries visit entries seen st).
Proof.
  intros Hv. revert seen st. induction entries as [|e entries IH]; intros seen st; simpl; [done|].
  destruct (_ || _); [done|]. destruct (str_in _ _); [done|].
  pose proof (Hv st e). destruct (visit st e) as [[[] st']|]; simpl in *; auto.
Qed.
Lemma queueEntries_free data seen entries : free (queueEntries data seen entries).
Proof.
  revert seen entries. induction data as [|s data IH]; intros seen entries; simpl; [done|].
  destruct (_ || _); [done|]. destruct (str_in _ _); [done|]. apply IH.
Qed.

(** ** The readers are quiet *)

Section readers.
Context {W E : Type} `{SubmissionStore W E} (rely : W → W → Prop) (options : clientOptions) (fuel : nat).
Hypothesis (Htame : tame options).
Abbreviation quiet := (quiet rely).

Lemma quiet_walkPages {S} n t (visit : S → threadItemEntry → res err (bool * S)) cursor cursors seen st :
  visitFree visit → quiet (walkPages options n t visit cursor cursors seen st).
Proof using Htame.
  intros Hv. revert cursor cursors seen st. induction n as [|n IH]; intros; simpl; [by apply quiet_ret|].
  apply quiet_bindOk; [apply quiet_Request; auto with codex|]. intros [[data|] next]; [|by apply quiet_ret].
  pose proof (walkEntries_free visit data seen st Hv) as Hw.
  destruct (walkEntries visit data seen st) as [[[[] seen'] st']|]; [by apply quiet_ret| |by apply quiet_ret].
  destruct next as [next|]; [|by apply quiet_ret].
  destruct (is_empty next); [by apply quiet_ret|]. destruct (str_in _ _); [by apply quiet_ret|apply IH].
Qed.

Lemma quiet_walkThreadItems {S} t (visit : S → threadItemEntry → res err (bool * S)) st :
  visitFree visit → quiet (walkThreadItems options fuel t visit st).
Proof using Htame. apply quiet_walkPages. Qed.

Lemma quiet_queuePages n t cursor cursors seen entries :
  quiet (queuePages options n t cursor cursors seen entries).
Proof using Htame.
  revert cursor cursors seen entries.
  induction n as [|n IH]; intros cursor cursors seen entries; simpl; [by apply quiet_ret|].
  apply quiet_bindOk; [apply quiet_Request; auto with codex|]. intros [[data|] next]; [|by apply quiet_ret].
  pose proof (queueEntries_free data seen entries) as Hq.
  destruct (queueEntries data seen entries) as [[seen' entries']|]; [|by apply quiet_ret].
  destruct next as [next|]; [|by apply quiet_ret].
  destruct (is_empty next); [by apply quiet_ret|]. destruct (str_in _ _); [by apply quiet_ret|apply IH].
Qed.

Lemma quiet_ListQueue t : quiet (ListQueue options fuel t).
Proof using Htame. apply quiet_queuePages. Qed.

Lemma quiet_startedByClientID t id text : quiet (startedByClientID options fuel t id text).
Proof using Htame. apply quiet_walkThreadItems, visitStarted_free. Qed.

Lemma quiet_sentByClientID t id text : quiet (sentByClientID options fuel t id text).
Proof using Htame. apply quiet_walkThreadItems, visitSent_free. Qed.

Lemma quiet_queuedOrStarted t id text : quiet (queuedOrStartedByClientID options fuel t id text).
Proof using Htame.
  apply quiet_bindOk; [apply quiet_ListQueue|]. intros entries.
  destruct (find _ entries); [|apply quiet_startedByClientID]. destruct (negb _); by apply quiet_ret.
Qed.

Lemma quiet_waitFor {T} n (look : prog (res err (option T))) : quiet look → quiet (waitFor n look).
Proof.
  intros Hl. induction n as [|n IH]; simpl; [by apply quiet_ret|]. apply quiet_bind; [done|].
  intros [[t|]|e] Hr; [by apply quiet_ret| |by apply quiet_ret].
  destruct n as [|n]; [by apply quiet_ret|]. apply quiet_ctx. intros [e|] Ho; [|apply IH].
  apply quiet_ret. simpl in *. auto with codex.
Qed.

Lemma quiet_ActiveTurnID t : quiet (ActiveTurnID options t).
Proof using Htame.
  apply quiet_bindOk; [apply quiet_Request; auto with codex|].
  intros [[|turn [|]]|]; by apply quiet_ret.
Qed.

Lemma quiet_resumeApplying {T} t resume policy (decode : any → res err T) :
  decodes decode → quiet (resumeApplyingExecutionPolicy options t resume policy decode).
Proof using Htame.
  intros Hd. unfold resumeApplyingExecutionPolicy. apply quiet_bindOk.
  - unfold applyLoadedExecutionPolicy. destruct (executionPolicyUpdate t policy); [by apply quiet_ret|].
    apply quiet_bindOk.
    + unfold ReadThreadMetadata. apply quiet_bind; [apply quiet_Request; auto with codex|].
      intros [metadata|e] Hr; [destruct (negb _); by apply quiet_ret|]. apply quiet_ret.
      by destruct (IsThreadNotFound e t).
    + intros metadata. destruct (str_eqb _ _); [by apply quiet_ret|].
      apply quiet_bindOk; [apply quiet_Request; auto with codex|]. intros _. by apply quiet_ret.
  - intros applied. apply quiet_bindOk; [apply quiet_Request; auto with codex|]. intros o.
    destruct (executionPolicyUpdate t policy); [by apply quiet_ret|].
    destruct applied; [by apply quiet_ret|].
    apply quiet_bindOk; [apply quiet_Request; auto with codex|]. intros _. by apply quiet_ret.
Qed.

Lemma quiet_resume t policy explicit : quiet (resumeThreadWithPolicy options t policy explicit).
Proof using Htame.
  apply quiet_bindOk; [apply quiet_resumeApplying; auto with codex|]. intros o. by apply quiet_ret.
Qed.

Lemma quiet_reconcileSend t text id attempt : quiet (reconcileSend options fuel t text id attempt).
Proof using Htame.
  unfold reconcileSend. destruct (str_eqb _ "accepted"); [by apply quiet_ret|].
  destruct (str_eqb _ _); [|by apply quiet_ret].
  apply quiet_bindOk; [apply quiet_sentByClientID|]. intros [receipt|]; [|by apply quiet_ret].
  apply quiet_bind; [by apply quiet_runTx|]. intros [u|e] Hr; by apply quiet_ret.
Qed.

Lemma quiet_finish t receipt : quiet (finishAcceptedSend t receipt).
Proof. apply quiet_bind; [by apply quiet_runTx|]. intros [u|e] Hr; by apply quiet_ret. Qed.
End readers.

(** ** Sending *)

(** The request names the thread, the message and its text. *)
Definition addressed (t id text : string) (params : any) : Prop :=
  ∃ o, params = AObj o ∧ field "threadId" o = AStr t ∧ field "clientUserMessageId" o = AStr id ∧
       field "input" o = textInput text.

Definition refusalCode (c : Z) : bool := (c =? -32600) || (c =? -32601) || (c =? -32602).
Definition refusedReply (reply : wireReply) : Prop := ∃ c m, reply = Refused c m ∧ refusalCode c = true.

(** The claim is given back, or the attempt to do so fails; then nothing more. *)
Definition restored (t id : string) (evs : list event) : Prop :=
  ∃ db claim ok rest, evs = EvTx (Some (OpRestore db t id claim)) ok :: rest ∧ silent rest.

(** What follows a committed claim. *)
Inductive submitted {A} (t id text : string) (r : res err A) : list event → Prop :=
| sb_unwritten evs :               (** nothing was handed over *)
    restored t id evs → submitted t id text r evs
| sb_refused method params reply evs : (** App Server refused the request *)
    deliveryMethod method → addressed t id text params → refusedReply reply → restored t id evs →
    submitted t id text r (EvWire method params reply :: evs)
| sb_delivered method params reply evs : (** handed over; no claim that it was not *)
    deliveryMethod method → addressed t id text params → free r → silent evs →
    submitted t id text r (EvWire method params reply :: evs).

(** The history of a call: nothing notable, or a claim and what follows it. *)
Definition sendHistory {A} (t id text action : string) (tr tr' : list event) (r : res err A) : Prop :=
  quietly tr tr' ∨
  ∃ pre claim digest steered evs,
    tr' = tr ++ pre ++ EvTx (Some (OpClaim t id claim text action digest steered)) true :: evs ∧
    silent pre ∧ submitted t id text r evs.

(** The same for a request: the claim comes first. *)
Definition submission {A} (t id text action : string) (tr tr' : list event) (r : res err A) : Prop :=
  quietly tr tr' ∨
  ∃ claim digest steered evs,
    tr' = tr ++ EvTx (Some (OpClaim t id claim text action digest steered)) true :: evs ∧ submitted t id text r evs.
Lemma submission_history {A} t id text action tr tr' (r : res err A) :
  submission t id text action tr tr' r → sendHistory t id text action tr tr' r.
Proof.
  intros [Hq|(claim & d & s & evs & -> & Hs)]; [by left|]. right. exists [], claim, d, s, evs. by split_and!; [|constructor|].
Qed.

Lemma quietly_sendHistory {A} t id text action a b c (r : res err A) :
  quietly a b → sendHistory t id text action b c r → sendHistory t id text action a c r.
Proof.
  intros Hq [Hs|(pre & claim & d & s & evs & -> & Hpre & Hsub)];
    [left; by eapply quietly_trans|]. right.
  destruct Hq as (evs' & -> & Hevs). exists (evs' ++ pre), claim, d, s, evs.
  rewrite <-!app_assoc. split_and!; try done. by apply Forall_app.
Qed.

Lemma field_setField key value k (o : object) : k ≠ key → field k (setField key value o) = field k o.
Proof.
  intros Hne. unfold field, setField.
  assert (∀ k', k' ≠ k → str_eqb k' k = false) as Hs by (intros; by apply str_eqb_neq).
  induction o as [|[k' v] o IH]; [simpl; by rewrite Hs|].
  cbn [List.filter filter list_filter app]. destruct (decide _) as [Hk|Hk]; simpl.
  - by destruct (str_eqb k' k).
  - apply dec_stable in Hk. simpl in Hk. subst. by rewrite Hs.
Qed.
Lemma field_setText key value k (o : object) : k ≠ key → field k (setText key value o) = field k o.
Proof. unfold setText. destruct (is_empty value); [done|apply field_setField]. Qed.
Lemma field_withContext n k o : k ≠ "additionalContext" → field k (withContext n o) = field k o.
Proof. unfold withContext. destruct (additionalContextParameter n); [apply field_setField|done]. Qed.

Lemma steer_addressed t turnID text id n : addressed t id text (AObj (steerParams t turnID text id n)).
Proof. eexists. split; [done|]. unfold steerParams. by rewrite !field_withContext. Qed.
Lemma start_addressed t text id n : addressed t id text (AObj (startParams t text id n)).
Proof.
  eexists. split; [done|]. unfold startParams. by rewrite !field_withContext, !field_setText.
Qed.

Section sending.
Context {W E : Type} `{SubmissionStore W E} (rely : W → W → Prop) (options : clientOptions) (fuel : nat).
Hypothesis (Htame : tame options).
Abbreviation quiet := (quiet rely).

Lemma quiet_unwritten t text id action digest absent e w tr :
  wp rely (unwrittenSendOutcome options fuel t text id action digest absent e) w tr
    (fun _ tr' _ => quietly tr tr').
Proof using Htame.
  unfold unwrittenSendOutcome. apply wp_bind. eapply wp_mono, quiet_readTx. intros w' tr' r [Hq _].
  destruct r as [state|x]; [|done]. destruct (_ && _); [done|]. destruct (_ && _); [|done].
  apply wp_bind. eapply wp_mono; [|by apply quiet_reconcileSend].
  intros w'' tr'' r [Hq' _]. destruct r as [[receipt|]|x]; by eapply quietly_trans.
Qed.

Lemma restoreUnwritten_history t text id action digest claim e w tr :
  wp rely (restoreUnwrittenSendOutcome options fuel t text id action digest claim e) w tr
    (fun _ tr' _ => ∃ evs, tr' = tr ++ evs ∧ restored t id evs).
Proof using Htame.
  unfold restoreUnwrittenSendOutcome. apply wp_bind. eapply wp_mono, runTx_free. intros w' tr' r [-> _].
  eapply wp_mono, quiet_unwritten. intros w'' tr'' r' (evs & -> & Hevs).
  eexists. rewrite <-app_assoc. split; [done|]. by do 4 eexists.
Qed.

(** After the request: recovery delivers nothing; it gives the claim back when
    nothing was written or the request was refused, and only then may say that
    nothing was sent. *)
Lemma reconcileRequest_spec t text id action digest steered admitted e w tr :
  notSentFree e = true →
  wp rely (reconcileRequest options fuel t text id action digest steered admitted e) w tr
    (fun _ tr' r => ∃ evs, tr' = tr ++ evs ∧
       match admitted with
       | None => silent evs
       | Some _ => if asUnwritten e || refusal e then restored t id evs else silent evs ∧ free r
       end).
Proof using Htame.
  intros He. unfold reconcileRequest. destruct admitted as [claim|].
  - destruct (asUnwritten e || refusal e) eqn:Eu; [apply restoreUnwritten_history|].
    apply wp_bind. eapply wp_mono; [|by apply quiet_waitFor, quiet_sentByClientID].
    intros w' tr' r [Hq Hf].
    assert (∀ r' : res err SendReceipt, free r' → ∃ evs, tr' = tr ++ evs ∧ silent evs ∧ free r') as Hend.
    { intros r' Hr'. destruct Hq as (evs & -> & Hs). eauto. }
    destruct r as [[receipt|]|x]; [|by apply Hend..].
    apply wp_bind. eapply wp_mono; [|by apply quiet_runTx]. intros w'' tr'' r [Hq' Hf'].
    assert (quietly tr tr'') as (evs & -> & Hs) by (by eapply quietly_trans). destruct r; by exists evs.
  - eapply wp_mono, quiet_unwritten. intros w' tr' r (evs & -> & Hs). by exists evs.
Qed.

(** The admission: one committed claim, or nothing. *)
Definition claimed (t id text action digest : string) (steered : bool) (evs : list event)
    (r : res err string) : Prop :=
  ∃ claim, evs = [EvTx (Some (OpClaim t id claim text action digest steered)) (is_ok r)].

Lemma admit_spec t id text action digest steered w tr :
  wp rely (bind (claimTx t id text action digest steered) (fun r =>
    Ret (match r with
         | Ok claim => Ok claim
         | Err e => Err (EWrap "record message attempt before submission" e) end))) w tr
    (fun _ tr' r => free r ∧ ∃ evs, tr' = tr ++ evs ∧ claimed t id text action digest steered evs r).
Proof.
  apply wp_bind. intros claim w1 e r w2 _ _ Hr. simpl.
  split; [destruct r; simpl in *; auto with codex|].
  eexists. split; [done|]. exists claim. by destruct r.
Qed.

(** The request and what follows it, for either method. *)
Lemma submit_spec {T} method params (decode : any → res err T) t text id action digest steered admitting
    (k : option string * res err T → prog (res err SendReceipt)) w tr :
  deliveryMethod method → addressed t id text params → decodes decode →
  (∀ w tr, wp rely admitting w tr (fun _ tr' r =>
     free r ∧ ∃ evs, tr' = tr ++ evs ∧ claimed t id text action digest steered evs r)) →
  (∀ b x, notSentFree x = true → ∀ w' tr', wp rely (k (b, Err x)) w' tr' (fun _ tr'' r =>
      ∃ evs, tr'' = tr' ++ evs ∧
       match b with
       | None => silent evs
       | Some _ => if asUnwritten x || refusal x then restored t id evs else silent evs ∧ free r
       end)) →
  (∀ b x, quiet (k (Some b, Ok x))) →
  wp rely (bind (requestWithAdmission options method params decode (Some admitting)) k) w tr
    (fun _ tr' r => submission t id text action tr tr' r).
Proof.
  intros Hm Hps Hd Hadm Herr Hok. apply wp_bind.
  eapply wp_mono; [|apply (requestWithAdmission_spec rely options method params decode _
    (claimed t id text action digest steered)); [done|done|intros; apply Hadm]].
  intros w' tr' [b r] Hreq.
  assert (∀ (claim : string) evs (r : res err SendReceipt), submitted t id text r evs →
    submission t id text action tr
      (tr ++ EvTx (Some (OpClaim t id claim text action digest steered)) true :: evs) r) as Hsub.
  { intros claim evs r' Hs. right. by exists claim, digest, steered, evs. }
  destruct Hreq as [x Hx|evs x x' [claim ->] Hx|evs b x [claim ->] Hu Hx
    |evs b x x' [claim ->] Hu Hr Hx|evs b reply r [claim ->] Hfa].
  - eapply wp_mono, Herr, Hx. intros w'' tr'' r (evs & -> & Hs). left. by exists evs.
  - eapply wp_mono, Herr, Hx. intros w'' tr'' r (evs & -> & Hs). left. eexists. rewrite <-app_assoc. split; [done|].
    by repeat constructor.
  - eapply wp_mono, Herr, Hx. intros w'' tr'' r (evs & -> & Hs). rewrite Hu in Hs. rewrite <-app_assoc.
    by apply Hsub, sb_unwritten.
  - eapply wp_mono, Herr, Hx. intros w'' tr'' r (evs & -> & Hs). unfold refusal in Hs. rewrite Hu, Hr in Hs.
    rewrite <-!app_assoc. apply Hsub. by apply sb_delivered; destruct Hs.
  - destruct r as [x|x].
    + eapply wp_mono, Hok. intros w'' tr'' r [(post & -> & Hpost) Hf]. rewrite <-!app_assoc.
      by apply Hsub, sb_delivered.
    + eapply wp_mono, Herr, (fa_free _ _ _ Hfa). intros w'' tr'' r (evs & -> & Hs). rewrite <-!app_assoc. apply Hsub.
      rewrite (fa_unwritten _ _ _ Hfa x eq_refl) in Hs. simpl in Hs.
      destruct (refusal x) eqn:Er; [|by apply sb_delivered; destruct Hs].
      apply sb_refused; [done|done| |done]. unfold refusal in Er. destruct (asRpc x) as [[c m]|] eqn:Ec; [|done].
      exists c, m. split; [by eapply fa_rpc|done].
Qed.

Lemma submitMessage_spec t text id action turnID n w tr :
  wp rely (submitMessage options fuel t text id action turnID n) w tr
    (fun _ tr' r => sendHistory t id text action tr tr' r).
Proof using Htame.
  assert (∀ digest steered b x w' tr', wp rely (reconcileRequest options fuel t text id action digest steered
    (Some b) (EMsg x)) w' tr' (fun _ tr'' r => quietly tr' tr'' ∧ free r)) as Hwrong.
  { intros. eapply wp_mono; [|by apply reconcileRequest_spec]. intros w'' tr'' r (evs & -> & Hs & Hf).
    split; [by exists evs|done]. }
  eapply wp_mono; [intros w' tr' r; apply submission_history|].
  unfold submitMessage. destruct (negb (is_empty turnID)).
  - eapply submit_spec; [by right; left|apply steer_addressed|auto with codex|intros; apply admit_spec| |].
    + intros b x Hx w' tr'. by apply reconcileRequest_spec.
    + intros b turn. destruct (negb _); [intros w' tr'; apply Hwrong|apply quiet_finish].
  - eapply submit_spec; [by left|apply start_addressed|auto with codex|intros; apply admit_spec| |].
    + intros b x Hx w' tr'. by apply reconcileRequest_spec.
    + intros b turn. destruct (is_empty turn); [intros w' tr'; apply Hwrong|apply quiet_finish].
Qed.

(** A quiet step before a program with a history. *)
Lemma history_bind {A C} (m : prog (res err A)) (f : res err A → prog (res err C)) t id text action w tr :
  quiet m →
  (∀ r w' tr', free r → wp rely (f r) w' tr' (fun _ tr'' r' => sendHistory t id text action tr' tr'' r')) →
  wp rely (bind m f) w tr (fun _ tr' r => sendHistory t id text action tr tr' r).
Proof.
  intros Hm Hf. apply wp_bind. eapply wp_mono, Hm. intros w' tr' r [Hq Hr].
  eapply wp_mono, Hf, Hr. intros w'' tr'' r'. by apply quietly_sendHistory.
Qed.

Lemma history_quiet {A} (m : prog (res err A)) t id text action w tr :
  quiet m → wp rely m w tr (fun _ tr' r => sendHistory t id text action tr tr' r).
Proof. intros Hm. eapply wp_mono, Hm. intros w' tr' r [Hq _]. by left. Qed.

Lemma history_unwritten t text id action digest absent e w tr :
  wp rely (unwrittenSendOutcome options fuel t text id action digest absent e) w tr
    (fun _ tr' r => sendHistory t id text action tr tr' r).
Proof using Htame. eapply wp_mono, quiet_unwritten. intros w' tr' r Hq. by left. Qed.

Lemma SendWithOptions_history t text id action turn w tr :
  wp rely (SendWithOptions options fuel t text id action turn) w tr
    (fun _ tr' r => sendHistory t id text action tr tr' r).
Proof using Htame.
  unfold SendWithOptions. destruct (normalizeTurnOptions turn) as [n|e]; [|by left; apply quietly_refl].
  apply history_bind; [apply quiet_lock|]. intros [u|e] w1 tr1 Hr1; [|by left; apply quietly_refl].
  apply history_bind; [apply quiet_readTx|]. intros [state|e] w2 tr2 Hr2; [|by left; apply quietly_refl].
  apply history_bind; [apply quiet_readTx|]. intros [queued|e] w3 tr3 Hr3; [|by left; apply quietly_refl].
  destruct queued.
  { apply history_quiet, quiet_bindOk; [by apply quiet_queuedOrStarted|]. intros [entry|]; by apply quiet_ret. }
  apply history_bind; [by apply quiet_reconcileSend|].
  intros [[receipt|]|e] w4 tr4 Hr4; [by left; apply quietly_refl| |by left; apply quietly_refl].
  apply history_bind; [by apply quiet_resume|]. intros [u'|e] w5 tr5 Hr5; [|apply history_unwritten].
  apply history_bind; [by apply quiet_ActiveTurnID|]. intros [turnID|e] w6 tr6 Hr6; [|apply history_unwritten].
  destruct (_ && _); [apply history_unwritten|]. destruct (ss_found state); [apply submitMessage_spec|].
  apply history_bind; [by apply quiet_runTx|].
  intros [u''|e] w7 tr7 Hr7; [apply submitMessage_spec|by left; apply quietly_refl].
Qed.
End sending.
