(* ===== verification/HistoryReader.v ===== *)
(** * Reading history over another connection

    [HistoryReader] of [src/codex/history_reader.go]: the interface behind which
    an application may put potentially large reads, what its users rely on, and
    the two implementations in the package: none, which reads over the client's
    own connection, and [HistoryPool]. *)
From S2P Require Import Prelude GoStd GoValue TurnOptions Ledger LedgerFacts Store Program Wire History Delivery DeliveryFacts.
From Stdlib Require Import String.
Open Scope Z_scope.

Definition historyMethods : list string := ["thread/read"; "thread/turns/list"; "thread/items/list"].

(** ** The interface *)

Class HistoryReader := {
  historyRequest {T} : string → object → (any → res err T) → prog (res err T) }.

(** A request is shown as one event or none, and an answer was decoded from its reply. *)
Definition asked {T} (method : string) (decode : any → res err T) (tr tr' : list event) (r : res err T) : Prop :=
  (tr' = tr ∧ is_ok r = false) ∨
  ∃ params reply, tr' = tr ++ [EvWire method params reply] ∧
    ∀ x, r = Ok x → ∃ v, reply = Replied v ∧ decode v = Ok x.

(** Programs without transactions. *)
Fixpoint noTx {A} (m : prog A) : Prop :=
  match m with
  | Ret _ => True
  | Tx _ _ _ _ => False
  | Ctx k => ∀ o, noTx (k o)
  | Fresh k => ∀ x, noTx (k x)
  | Net k => ∀ n, noTx (k n)
  | Wire _ _ k => ∀ r, noTx (k r)
  end.

Class HistoryReaderLaws `{HistoryReader} := {
  history_noTx {T} method params (decode : any → res err T) : noTx (historyRequest method params decode);
  history_asked {W E} `{SubmissionStore W E} (rely : W → W → Prop) {T} method params (decode : any → res err T) w tr :
    method ∈ historyMethods → decodes decode →
    wp rely (historyRequest method params decode) w tr (fun _ tr' r => asked method decode tr tr' r ∧ free r) }.

Lemma asked_quietly {T} method (decode : any → res err T) tr tr' r :
  method ∈ historyMethods → asked method decode tr tr' r → quietly tr tr'.
Proof.
  intros Hm [[-> _]|(ps & reply & -> & _)]; [apply quietly_refl|]. apply quietly_one. simpl.
  apply str_in_false. unfold historyMethods in Hm. set_solver.
Qed.

Section readers.
Context `{HistoryReaderLaws} {W E : Type} `{SubmissionStore W E} (rely : W → W → Prop).
Lemma quiet_history {T} method params (decode : any → res err T) :
  method ∈ historyMethods → decodes decode → quiet rely (historyRequest method params decode).
Proof.
  intros Hm Hd w tr. eapply wp_mono; [|by apply history_asked]. intros w' tr' r [Ha Hf].
  split; [by eapply asked_quietly|done].
Qed.
End readers.

(** ** No reader: the client's own connection *)

Definition ownReader (options : clientOptions) : HistoryReader :=
  {| historyRequest T := Request options |}.

(** ** The pool *)

(** A pooled client: passive and without subscriptions. *)
Definition pooled : clientOptions := mkClientOptions true "" false false None None.

(** [closed] is what the request finds once it holds a slot. Retiring a pooled
    connection after a cancelled read concerns no other request. *)
Definition poolRequest (closed : bool) {T} (method : string) (params : object) (decode : any → res err T)
    : prog (res err T) :=
  if negb (str_in method historyMethods)
  then Ret (Err (EMsg "history reader only permits history reads")) else
  Ctx (fun slot =>
    match slot with
    | Some e => Ret (Err e)
    | None => if closed then Ret (Err (EMsg "history reader is closed")) else Request pooled method params decode
    end).

Definition poolReader (closed : bool) : HistoryReader := {| historyRequest T := @poolRequest closed T |}.

(** ** Both keep to the interface *)

Lemma noTx_bind {A C} (m : prog A) (f : A → prog C) : noTx m → (∀ a, noTx (f a)) → noTx (bind m f).
Proof. induction m; simpl; auto. Qed.
Lemma noTx_bindOk {A C} (m : prog (res err A)) (f : A → prog (res err C)) :
  noTx m → (∀ a, noTx (f a)) → noTx (bindOk m f).
Proof. intros Hm Hf. apply noTx_bind; [done|]. by intros [a|e]. Qed.

Lemma noTx_Request options {T} method params (decode : any → res err T) : noTx (Request options method params decode).
Proof.
  unfold Request, requestWithAdmission, requestConnectedAdmission, requestOnAdmission, writeOfferAdmission.
  apply noTx_bind; [|by intros [b r]]. intros net. apply noTx_bind; [|by intros [b r]].
  destruct (_ && _); [done|]. destruct (ne_ensure net); [done|]. destruct (negb (ne_ready net)); [done|].
  destruct (if co_ObserverOnly options then _ else _); [done|].
  destruct (lifecycleParams _ _ _) as [[ps provider]|e]; [|done].
  destruct (is_empty provider).
  - destruct (ne_encode net); [done|]. destruct (ne_writer net); [done|]. destruct (negb (ne_current net)); [done|].
    destruct (ne_before net); [done|]. destruct (ne_after net); [done|]. destruct (ne_acquire net); [done|].
    intros r. by destruct r.
  - apply noTx_bind; [|intros [b r]; by destruct r].
    destruct (ne_encode net); [done|]. destruct (ne_writer net); [done|]. destruct (negb (ne_current net)); [done|].
    destruct (ne_before net); [done|]. destruct (ne_after net); [done|]. destruct (ne_acquire net); [done|].
    intros r. by destruct r.
Qed.

Section own.
Context (options : clientOptions) {W E : Type} `{SubmissionStore W E} (rely : W → W → Prop).

Lemma joinCause_ok {T} cause (r : res err T) x : joinCause cause r = Ok x → r = Ok x.
Proof. destruct r, cause; simpl; try done. by destruct (errIs _ _). Qed.

Lemma requestOn_asked {B T} net method params (decode : any → res err T) w tr :
  wp rely (requestOnAdmission (B := B) net method params decode None) w tr
    (fun _ tr' p => asked method decode tr tr' p.2).
Proof.
  unfold requestOnAdmission, writeOfferAdmission.
  destruct (ne_encode net); [by left|]. destruct (ne_writer net); [by left|].
  destruct (negb (ne_current net)); [by left|]. destruct (ne_before net); [by left|].
  destruct (ne_after net); [by left|]. destruct (ne_acquire net); [by left|].
  intros reply Hr. right. exists params, reply. split; [done|]. intros x Hx.
  destruct reply; try discriminate. simpl in Hx. destruct (decode result) eqn:Ed; [|discriminate].
  injection Hx as <-. by exists result.
Qed.

(** Requests that do not open a thread are not rewritten. *)
Lemma Request_asked {T} method params (decode : any → res err T) w tr :
  str_in method ["thread/start"; "thread/resume"; "thread/fork"] = false →
  wp rely (Request options method params decode) w tr (fun _ tr' r => asked method decode tr tr' r).
Proof.
  intros Hm. unfold Request. apply wp_bind. intros net Hn. apply wp_bind.
  assert (∀ m : prog (option unit * res err T), wp rely m w tr (fun _ tr' p => asked method decode tr tr' p.2) →
    wp rely m w tr (fun w' tr' a => wp rely (let '(b, r) := a in Ret (b, joinCause (ne_cause net) r)) w' tr'
      (fun w'0 tr'0 a0 => wp rely (let '(_, r) := a0 in Ret r) w'0 tr'0 (fun _ tr'1 r => asked method decode tr tr'1 r))))
    as Hcont.
  { intros m. apply wp_mono. intros w' tr' [b r] Ha. simpl in *. destruct Ha as [[-> Ho]|(ps & reply & -> & Hx)].
    - left. split; [done|]. destruct (joinCause _ r) eqn:Ej; [|done]. apply joinCause_ok in Ej. by subst r.
    - right. exists ps, reply. split; [done|]. intros x Ej%joinCause_ok. by apply Hx. }
  apply Hcont. clear Hcont. destruct (_ && _); [by left|]. destruct (ne_ensure net); [by left|].
  unfold requestConnectedAdmission. destruct (negb (ne_ready net)); [by left|].
  destruct (if co_ObserverOnly options then _ else _); [by left|].
  unfold lifecycleParams. rewrite Hm. apply requestOn_asked.
Qed.
End own.

Lemma history_direct method : method ∈ historyMethods →
  str_in method ["turn/start"; "turn/steer"] = false ∧
  str_in method ["thread/start"; "thread/resume"; "thread/fork"] = false.
Proof. unfold historyMethods. intros Hm. split; apply str_in_false; set_solver. Qed.

Lemma pooled_tame : tame pooled.
Proof. by split. Qed.

Lemma request_reads options {W E} `{SubmissionStore W E} (rely : W → W → Prop) {T} method params
    (decode : any → res err T) w tr :
  tame options → method ∈ historyMethods → decodes decode →
  wp rely (Request options method params decode) w tr (fun _ tr' r => asked method decode tr tr' r ∧ free r).
Proof.
  intros Ht [H1 H2]%history_direct Hd.
  eapply wp_and; [by apply Request_asked|]. eapply wp_mono; [|by apply (quiet_Request rely options)].
  by intros w' tr' r [_ Hf].
Qed.

Lemma ownReader_laws options : tame options → @HistoryReaderLaws (ownReader options).
Proof.
  intros Ht. split; [intros T; apply noTx_Request|]. intros W E ? rely T method params decode w tr Hm Hd.
  by apply request_reads.
Qed.

#[export] Instance poolReader_laws closed : @HistoryReaderLaws (poolReader closed).
Proof.
  split.
  - intros T method params decode. simpl. unfold poolRequest. destruct (negb _); [done|].
    intros [e|]; [done|]. destruct closed; [done|apply noTx_Request].
  - intros W E ? rely T method params decode w tr Hm Hd. simpl. unfold poolRequest.
    destruct (negb _); [by split; [left|]|]. intros [e|] He; simpl in *; [by split; [left|auto with codex]|].
    destruct closed; [by split; [left|]|]. by apply request_reads; [apply pooled_tame|..].
Qed.
