(* ===== verification/SendOutcome.v ===== *)
(** * What the ledger holds when a send returns

    The verdict of [SendWithOptions] against the stored ledger, through the
    contract of the store: a message reported as not sent is still merely
    prepared, or absent; a receipt is durable before it is returned. *)
From S2P Require Import Prelude GoStd GoValue TurnOptions Ledger LedgerFacts Store LedgerFile Locality Program Wire History Delivery DeliveryFacts.
From Stdlib Require Import String.
Open Scope Z_scope.

(** ** Reads through the contract *)

Lemma readOnly_safe {A} (p : Ledger → plan A) :
  (∀ l, match p l with PWrite _ _ _ => False | _ => True end) → safe p.
Proof. intros Hp l next undo a _ E. specialize (Hp l). by rewrite E in Hp. Qed.

Lemma sendState_readOnly t id text context digest l :
  match sendStateWithOptions t id text context digest l with PWrite _ _ _ => False | _ => True end.
Proof. unfold sendStateWithOptions. by repeat cases. Qed.
Lemma queueAttempt_readOnly t id text l :
  match queueAttempt t id text l with PWrite _ _ _ => False | _ => True end.
Proof. unfold queueAttempt. by repeat cases. Qed.

Lemma covers_attempt_read t id : covers (attemptScope t [id]) t id.
Proof. split; [done|]. right. by left. Qed.

Lemma sendState_local t id text context digest :
  localTo (attemptScope t [id]) (sendStateWithOptions t id text context digest).
Proof.
  intros l l' Hl Hl' Hag. unfold spec, sendStateWithOptions, isQueued.
  same_lookups Hl Hl' Hag. repeat cases; split_and?; auto with codex.
Qed.
Lemma queueAttempt_local t id text : localTo (attemptScope t [id]) (queueAttempt t id text).
Proof.
  intros l l' Hl Hl' Hag. unfold spec, queueAttempt.
  same_lookups Hl Hl' Hag. repeat cases; split_and?; auto with codex.
Qed.

Lemma normalizeContext_plain entries n : plainRes (normalizeContext entries n).
Proof.
  revert n. induction entries as [|[k v] entries IH]; intros n; simpl; [done|].
  repeat (apply plain_bind; [by apply plain_guard|intros _]). apply plain_bind; [apply IH|]. done.
Qed.
Lemma normalizeTurnOptions_plain turn : plainRes (normalizeTurnOptions turn).
Proof.
  unfold normalizeTurnOptions. apply plain_bind.
  { unfold validateThreadPolicy. repeat (apply plain_bind; [by apply plain_guard|intros _]).
    destruct (tp_MCPServer _); [|done].
    repeat (apply plain_bind; [by apply plain_guard|intros _]). by apply plain_guard. }
  intros _. apply plain_bind; [unfold validateTurnOptionScalar; destruct (is_empty _); [done|by apply plain_guard]|]. intros _.
  apply plain_bind; [unfold validateTurnOptionScalar; destruct (is_empty _); [done|by apply plain_guard]|]. intros _.
  apply plain_bind; [by apply plain_guard|]. intros _.
  apply plain_bind; [apply normalizeContext_plain|]. done.
Qed.

Section outcome.
Context {W E : Type} `{SubmissionStoreLaws W E} (rely : W → W → Prop).
Context (options : clientOptions) (fuel : nat).
Hypothesis (Htame : tame options).
(** Other processes keep the store sound. *)
Hypothesis (Hrely : ∀ w w1, rely w w1 → sound w1).

(** A read that answers leaves what is stored alone and answers from it. *)
Lemma read_spec {A} s (p : Ledger → plan A) e w a w' :
  sound w → localTo s p → (∀ l, match p l with PWrite _ _ _ => False | _ => True end) →
  transact e s p w = (Ok a, w') → p (stored w) = PDone a ∧ stored w' ≡ stored w.
Proof.
  intros Hw Hloc Hro Ht.
  destruct (transact_ok _ _ _ _ _ _ Hw Hloc (readOnly_safe p Hro) Ht) as (next & Hs & _ & Heq).
  specialize (Hro (stored w)). unfold spec in Hs. destruct (p (stored w)); simplify_eq; try done.
  split; [done|]. by apply Heq.
Qed.

(** What [sendStateWithOptions] read. *)
Definition readsAs (t id : string) (state : sendState) (l : Ledger) : Prop :=
  ss_queued state = isQueued t id l ∧
  sendAt t id l = (if ss_found state then Some (ss_attempt state) else None) ∧
  (ss_found state = false → ss_attempt state = zeroSend).

#[local] Instance isQueued_proper t id : Proper ((≡) ==> (=)) (isQueued t id).
Proof. intros a b Hab. unfold isQueued. by rewrite Hab. Qed.

Lemma sendStateTx_spec t id text context digest w tr :
  wp rely (sendStateTx t id text context digest) w tr
    (fun w' _ r => plainRes r ∧ match r with Ok state => readsAs t id state (stored w') | Err _ => True end).
Proof using Hrely H0.
  intros w1 e r w2 Hr Ht Hp. split; [done|]. destruct r as [state|]; [|done].
  apply read_spec in Ht as [Hread Heq]; [|by eapply Hrely|apply sendState_local|apply sendState_readOnly].
  unfold sendStateWithOptions in Hread. unfold readsAs. rewrite Heq.
  repeat (cases_in Hread; try discriminate); by simplify_eq/=.
Qed.

(** ** Not sent *)

(** The message identity is free of any delivery. *)
Definition undelivered (t id : string) (l : Ledger) : Prop :=
  isQueued t id l = false ∧ ∀ a, sendAt t id l = Some a → sa_State a = "prepared".

Definition settled {A} (t id : string) (w : W) (r : res err A) : Prop :=
  ∀ e, r = Err e → asNotSent e = true → undelivered t id (stored w).

Lemma free_settled {A} t id w (r : res err A) : free r → settled t id w r.
Proof. intros Hf e -> Hn. by rewrite (notSentFree_as e Hf) in Hn. Qed.

Lemma unwritten_settled t text id action digest absent e w tr :
  notSentFree e = true →
  wp rely (unwrittenSendOutcome options fuel t text id action digest absent e) w tr
    (fun w' _ r => settled t id w' r).
Proof using Htame Hrely H0.
  intros He. unfold unwrittenSendOutcome. apply wp_bind. eapply wp_mono, sendStateTx_spec.
  intros w' tr' r [Hp Hr]. destruct r as [state|x]; [|apply free_settled; simpl in *; auto with codex].
  destruct Hr as (Hq & Ha & _). destruct (negb (ss_queued state) && _) eqn:Ec.
  - intros x _ _. apply andb_true_iff in Ec as [Hnq Hc]. split.
    + rewrite <-Hq. by apply negb_true_iff.
    + intros a Hs. rewrite Hs in Ha. destruct (ss_found state); [|done]. simplify_eq.
      simpl in Hc. rewrite orb_false_r in Hc. by apply str_eqb_eq.
  - destruct (ss_found state && negb (ss_queued state)).
    + apply wp_bind. eapply wp_mono; [|by apply quiet_reconcileSend].
      intros w'' tr'' r [_ Hf]. destruct r as [[receipt|]|x]; by apply free_settled.
    + by apply free_settled.
Qed.

Lemma restoreUnwritten_settled t text id action digest claim e w tr :
  notSentFree e = true →
  wp rely (restoreUnwrittenSendOutcome options fuel t text id action digest claim e) w tr
    (fun w' _ r => settled t id w' r).
Proof using Htame Hrely H0.
  intros He. unfold restoreUnwrittenSendOutcome. apply wp_bind. eapply wp_mono, runTx_free.
  intros w' tr' r [_ Hf]. apply unwritten_settled. destruct r; [done|]. simpl in *. by rewrite He, Hf.
Qed.

Lemma reconcileRequest_settled t text id action digest steered admitted e w tr :
  notSentFree e = true →
  wp rely (reconcileRequest options fuel t text id action digest steered admitted e) w tr
    (fun w' _ r => settled t id w' r).
Proof using Htame Hrely H0.
  intros He. unfold reconcileRequest. destruct admitted as [claim|]; [|by apply unwritten_settled].
  destruct (asUnwritten e || refusal e) eqn:Eu; [by apply restoreUnwritten_settled|].
  apply wp_bind. eapply wp_mono; [|by apply quiet_waitFor, quiet_sentByClientID].
  intros w' tr' r [_ Hf]. destruct r as [[receipt|]|x]; [|by apply free_settled..].
  apply wp_bind. eapply wp_mono, runTx_free. intros w'' tr'' r [_ Hf']. destruct r; by apply free_settled.
Qed.

Lemma quiet_settled {A} (m : prog (res err A)) t id w tr :
  quiet rely m → wp rely m w tr (fun w' _ r => settled t id w' r).
Proof. intros Hm. eapply wp_mono, Hm. intros w' tr' r [_ Hf]. by apply free_settled. Qed.

Lemma settled_bind {A C} (m : prog (res err A)) (f : res err A → prog (res err C)) t id w tr :
  quiet rely m → (∀ r w' tr', free r → wp rely (f r) w' tr' (fun w'' _ r' => settled t id w'' r')) →
  wp rely (bind m f) w tr (fun w' _ r => settled t id w' r).
Proof. intros Hm Hf. apply wp_bind. eapply wp_mono, Hm. intros w' tr' r [_ Hr]. by apply Hf. Qed.

Lemma request_free {T} method params (decode : any → res err T) t id text action digest steered w tr :
  deliveryMethod method → decodes decode →
  wp rely (requestWithAdmission options method params decode
    (Some (bind (claimTx t id text action digest steered) (fun r =>
       Ret (match r with
            | Ok claim => Ok claim
            | Err e => Err (EWrap "record message attempt before submission" e) end))))) w tr
    (fun _ _ '(_, r) => free r).
Proof.
  intros Hm Hd. eapply wp_mono; [|apply (requestWithAdmission_spec rely options method params decode _
    (claimed t id text action digest steered)); [done|done|intros; apply admit_spec]].
  intros w' tr' [b r] []; try done. by eapply fa_free.
Qed.

Lemma submitMessage_settled t text id action turnID n w tr :
  wp rely (submitMessage options fuel t text id action turnID n) w tr (fun w' _ r => settled t id w' r).
Proof using Htame Hrely H0.
  unfold submitMessage. destruct (negb (is_empty turnID)).
  - apply wp_bind. eapply wp_mono; [|apply request_free; [by right; left|auto with codex]].
    intros w' tr' [b [turn|x]] Hf; [|by apply reconcileRequest_settled].
    destruct (negb _); [by apply reconcileRequest_settled|apply quiet_settled, quiet_finish].
  - apply wp_bind. eapply wp_mono; [|apply request_free; [by left|auto with codex]].
    intros w' tr' [b [turn|x]] Hf; [|by apply reconcileRequest_settled].
    destruct (is_empty turn); [by apply reconcileRequest_settled|apply quiet_settled, quiet_finish].
Qed.

Lemma SendWithOptions_settled t text id action turn w tr :
  wp rely (SendWithOptions options fuel t text id action turn) w tr (fun w' _ r => settled t id w' r).
Proof using Htame Hrely H0.
  unfold SendWithOptions. pose proof (normalizeTurnOptions_plain turn) as Hn.
  destruct (normalizeTurnOptions turn) as [n|e]; [|apply free_settled; simpl in *; auto with codex].
  apply settled_bind; [apply quiet_lock|]. intros [u|e] w1 tr1 Hr1; [|by apply free_settled].
  apply settled_bind; [apply quiet_readTx|]. intros [state|e] w2 tr2 Hr2; [|by apply free_settled].
  apply settled_bind; [apply quiet_readTx|]. intros [queued|e] w3 tr3 Hr3; [|by apply free_settled].
  destruct queued.
  { apply quiet_settled, quiet_bindOk; [by apply quiet_queuedOrStarted|]. intros [entry|]; by apply quiet_ret. }
  apply settled_bind; [by apply quiet_reconcileSend|].
  intros [[receipt|]|e] w4 tr4 Hr4; [by apply free_settled| |by apply free_settled].
  apply settled_bind; [by apply quiet_resume|]. intros [u'|e] w5 tr5 Hr5; [|by apply unwritten_settled].
  apply settled_bind; [by apply quiet_ActiveTurnID|]. intros [turnID|e] w6 tr6 Hr6; [|by apply unwritten_settled].
  destruct (_ && _); [by apply unwritten_settled|]. destruct (ss_found state); [apply submitMessage_settled|].
  apply settled_bind; [by apply quiet_runTx|].
  intros [u''|e] w7 tr7 Hr7; [apply submitMessage_settled|by apply free_settled].
Qed.
End outcome.

(** ** Decoded strings are Unicode *)

Lemma field_unicode key (o : object) : anyUnicode (AObj o) = true → anyUnicode (field key o) = true.
Proof.
  unfold field. induction o as [|[k v] o IH]; simpl; [done|]. intros Ho. bools.
  destruct (str_eqb _ _) || destruct (decide _); simpl; auto.
Qed.

Definition yields {T} (f : any → res err T) (P : T → Prop) : Prop :=
  ∀ v t, anyUnicode v = true → f v = Ok t → P t.

Lemma decString_unicode : yields decString (fun s => validString s = true).
Proof. intros [] t Hv Ht; simpl in *; by simplify_eq. Qed.
Lemma decObject_unicode : yields decObject (fun o => anyUnicode (AObj o) = true).
Proof. intros [] t Hv Ht; simpl in *; by simplify_eq. Qed.
Lemma decField_unicode {T} key (f : any → res err T) P : yields f P → yields (decField key f) P.
Proof.
  intros Hf v t Hv Ht. unfold decField, res_bind in Ht.
  destruct (decObject v) as [o|] eqn:Eo; [|done]. eapply Hf; [|done].
  apply field_unicode. by eapply decObject_unicode.
Qed.
Lemma decList_unicode {T} (f : any → res err T) P l ts :
  yields f P → forallb anyUnicode l = true → decList f l = Ok ts → Forall P ts.
Proof.
  intros Hf. revert ts. induction l as [|v l IH]; intros ts Hl Ht; simpl in *; [by simplify_eq|].
  bools. destruct (f v) as [t|] eqn:Ef; [|done]. simpl in Ht.
  destruct (decList f l) as [rest|]; [|done]. simplify_eq/=. constructor; [by eapply Hf|by apply IH].
Qed.
Lemma decArray_unicode {T} (f : any → res err T) P : yields f P → yields (decArray f) (Forall P).
Proof.
  intros Hf [] t Hv Ht; simpl in *; simplify_eq; [constructor|]. by eapply decList_unicode.
Qed.
Lemma decNil_unicode {T} (f : any → res err T) P :
  yields f P → yields (decNil f) (fun o => ∀ t, o = Some t → P t).
Proof.
  intros Hf v o Hv Ho t ->. unfold decNil in Ho.
  destruct v; try done; destruct (f _) eqn:Ef; simplify_eq; by eapply Hf.
Qed.
Lemma decItemEntry_unicode : yields decItemEntry (fun e => validString (ti_TurnID e) = true).
Proof.
  intros v e Hv He. unfold decItemEntry, res_bind in He.
  destruct (decObject v) as [o|] eqn:Eo; [|done].
  destruct (decString (field "turnId" o)) as [turn|] eqn:Et; [|done].
  destruct (decNil decObject (field "item" o)); [|done]. simplify_eq/=.
  eapply decString_unicode; [|done]. apply field_unicode. by eapply decObject_unicode.
Qed.
Lemma decPage_unicode {T} (f : any → res err T) P :
  yields f P → yields (decPage f) (fun '(data, _) => ∀ l, data = Some l → Forall P l).
Proof.
  intros Hf v [data next] Hv Hp. unfold decPage, res_bind in Hp.
  destruct (decObject v) as [o|] eqn:Eo; [|done].
  destruct (decNil (decArray f) (field "data" o)) as [d|] eqn:Ed; [|done].
  destruct (decNil decString _); [|done]. simplify_eq.
  eapply decNil_unicode; [by apply decArray_unicode| |done].
  apply field_unicode. by eapply decObject_unicode.
Qed.

(** ** Answers a request decoded *)

Section decoded.
Context {W E : Type} `{SubmissionStore W E} (rely : W → W → Prop) (options : clientOptions) (fuel : nat).

Definition decodedBy {T} (decode : any → res err T) (r : res err T) : Prop :=
  ∀ t, r = Ok t → ∃ v, anyUnicode v = true ∧ decode v = Ok t.

Lemma requestOn_decoded {B T} net method params (decode : any → res err T) w tr :
  wp rely (requestOnAdmission (B := B) net method params decode None) w tr (fun _ _ '(_, r) => decodedBy decode r).
Proof.
  unfold requestOnAdmission, writeOfferAdmission.
  destruct (ne_encode net); [done|]. destruct (ne_writer net); [done|].
  destruct (negb (ne_current net)); [done|]. destruct (ne_before net); [done|].
  destruct (ne_after net); [done|]. destruct (ne_acquire net); [done|].
  intros reply Hr t. simpl. destruct reply; simpl; try done.
  destruct (decode result) eqn:Ed; [|done]. intros [= ->]. eauto.
Qed.

Lemma Request_decoded {T} method params (decode : any → res err T) w tr :
  wp rely (Request options method params decode) w tr (fun _ _ r => decodedBy decode r).
Proof.
  unfold Request. apply wp_bind. intros net Hn. apply wp_bind.
  assert (∀ m, wp rely m w tr (fun (_ : W) (_ : list event) (p : option unit * res err T) => decodedBy decode p.2) →
    wp rely m w tr (fun w' tr' a => wp rely (let '(b, r) := a in Ret (b, joinCause (ne_cause net) r)) w' tr'
      (fun w'0 tr'0 a0 => wp rely (let '(_, r) := a0 in Ret r) w'0 tr'0 (fun _ _ r => decodedBy decode r)))) as Hcont.
  { intros m. apply wp_mono. intros w' tr' [b r] Hd. simpl in *. intros t Ht. apply Hd.
    destruct r as [x|e], (ne_cause net) as [c|]; simpl in *; try done. by destruct (errIs c e). }
  apply Hcont. destruct (_ && _); [done|]. destruct (ne_ensure net); [done|].
  unfold requestConnectedAdmission. destruct (negb (ne_ready net)); [done|].
  destruct (if co_ObserverOnly options then ne_slot net else None); [done|].
  destruct (lifecycleParams options method (AObj params)) as [[ps provider]|e]; [|done].
  destruct (is_empty provider).
  - eapply wp_mono, requestOn_decoded. by intros w' tr' [b r].
  - apply wp_bind. eapply wp_mono, requestOn_decoded. intros w' tr' [b r] Hd t. simpl.
    destruct r as [v|e]; [|done]. destruct (Hd v eq_refl) as (v' & Hv & [= ->]).
    destruct (routingProvider v); [|done]. destruct (negb _); [done|]. eauto.
Qed.

(** What the visitor keeps invariant holds of what the walk returns. *)
Lemma walkEntries_invariant {S} (visit : S → threadItemEntry → res err (bool * S)) (I : S → Prop)
    entries seen st b seen' st' :
  (∀ st entry b st', I st → validString (ti_TurnID entry) = true → visit st entry = Ok (b, st') → I st') →
  I st → Forall (fun e => validString (ti_TurnID e) = true) entries →
  walkEntries visit entries seen st = Ok (b, seen', st') → I st'.
Proof.
  intros Hv. revert seen st. induction entries as [|e entries IH]; intros seen st HI Hf Hw; simpl in Hw.
  { by simplify_eq. }
  inversion Hf; subst. destruct (_ || _); [done|]. destruct (str_in _ _); [done|].
  destruct (visit st e) as [[[] st1]|] eqn:Ev; simplify_eq; eauto.
Qed.

Lemma walkPages_invariant {S} (visit : S → threadItemEntry → res err (bool * S)) (I : S → Prop) n t
    cursor cursors seen st w tr :
  (∀ st entry b st', I st → validString (ti_TurnID entry) = true → visit st entry = Ok (b, st') → I st') →
  I st → wp rely (walkPages options n t visit cursor cursors seen st) w tr (fun _ _ r => ∀ st', r = Ok st' → I st').
Proof.
  intros Hv. revert cursor cursors seen st w tr.
  induction n as [|n IH]; intros cursor cursors seen st w tr HI; cbn [walkPages]; [done|].
  apply wp_bindOk. eapply wp_mono, Request_decoded. intros w' tr' [[data next]|e] Hd; [|done].
  destruct (Hd _ eq_refl) as (v & Hu & Hdec).
  pose proof (decPage_unicode decItemEntry _ decItemEntry_unicode v _ Hu Hdec) as Hpage. simpl in Hpage.
  destruct data as [entries|]; [|done].
  destruct (walkEntries visit entries seen st) as [[[b seen'] st']|] eqn:Ew; [|done].
  assert (I st') by (by eapply walkEntries_invariant; [done|done|by apply Hpage|done]).
  destruct b; [by intros ? [= <-]|]. destruct next as [next|]; [|by intros ? [= <-]].
  destruct (is_empty next); [done|]. destruct (str_in _ _); [done|]. by apply IH.
Qed.

Lemma walk_invariant {S} (visit : S → threadItemEntry → res err (bool * S)) (I : S → Prop) t st w tr :
  (∀ st entry b st', I st → validString (ti_TurnID entry) = true → visit st entry = Ok (b, st') → I st') →
  I st → wp rely (walkThreadItems options fuel t visit st) w tr (fun _ _ r => ∀ st', r = Ok st' → I st').
Proof. intros. by apply walkPages_invariant. Qed.

(** A receipt found in history names the message and a Unicode turn. *)
Definition historyReceipt (id : string) (o : option SendReceipt) : Prop :=
  ∀ receipt, o = Some receipt →
    validString (sr_TurnID receipt) = true ∧ sr_ClientUserMessageID receipt = id ∧
    sr_QueuedSubmissionID receipt = "" ∧ sr_TurnID receipt ≠ "".

Lemma visitSent_receipt id text st entry b st' :
  historyReceipt id st → validString (ti_TurnID entry) = true →
  visitSent id text st entry = Ok (b, st') → historyReceipt id st'.
Proof.
  intros HI Hu Hv. unfold visitSent in Hv. destruct st as [receipt|].
  - simplify_eq. intros r [= <-]. destruct (HI receipt eq_refl) as (? & ? & ? & ?). by destruct (str_eqb _ _).
  - destruct (negb _); [by simplify_eq|]. unfold res_bind, guard in Hv.
    repeat (cases_in Hv; try discriminate). simplify_eq. bools. by intros r [= <-].
Qed.

Lemma sentByClientID_receipt t id text w tr :
  wp rely (sentByClientID options fuel t id text) w tr (fun _ _ r => ∀ o, r = Ok o → historyReceipt id o).
Proof. apply walk_invariant; [apply visitSent_receipt|done]. Qed.

Lemma waitFor_result {T} n (look : prog (res err (option T))) (P : option T → Prop) w tr :
  P None → (∀ w tr, wp rely look w tr (fun _ _ r => ∀ o, r = Ok o → P o)) →
  wp rely (waitFor n look) w tr (fun _ _ r => ∀ o, r = Ok o → P o).
Proof.
  intros HN Hl. revert w tr. induction n as [|n IH]; intros w tr; simpl; [by intros o [= <-]|].
  apply wp_bind. eapply wp_mono, Hl. intros w' tr' [[x|]|e] Hr; simpl; [by intros o [= <-]; apply Hr| |done].
  destruct n; [by intros o [= <-]|]. intros [e|] Ho; [done|]. apply IH.
Qed.
End decoded.

(** ** Acceptance is recorded before it is reported *)

Section recorded.
Context {W E : Type} `{SubmissionStoreLaws W E} (rely : W → W → Prop).
Context (options : clientOptions) (fuel : nat) (t id : string).

(** The ledger holds the acceptance the receipt reports. *)
Definition recordedIn (l : Ledger) (receipt : SendReceipt) : Prop :=
  ∃ a, sendAt t id l = Some a ∧ sa_State a = "accepted" ∧ sa_TurnID a = sr_TurnID receipt ∧
       sa_Steered a = sr_Steered receipt.

(** Other processes keep the store sound and leave an acceptance in place. *)
Definition keepsAccepted : Prop :=
  ∀ w w1, rely w w1 → sound w1 ∧ ∀ receipt, recordedIn (stored w) receipt → recordedIn (stored w1) receipt.
Hypothesis (Hkeep : keepsAccepted).

#[local] Instance recordedIn_proper : Proper ((≡) ==> (=) ==> iff) recordedIn.
Proof. intros l l' Hl r r' <-. unfold recordedIn. by setoid_rewrite Hl. Qed.

Definition recorded (w : W) (r : res err SendReceipt) : Prop :=
  ∀ receipt, r = Ok receipt → sr_TurnID receipt ≠ "" → recordedIn (stored w) receipt.

Lemma markAcceptedTx_spec receipt w tr :
  validString (sr_TurnID receipt) = true →
  wp rely (markAcceptedTx t id receipt) w tr
    (fun w' _ r => match r with Ok _ => recordedIn (stored w') receipt | Err e => plain e = true end).
Proof using Hkeep H0.
  intros Hu w1 e r w2 Hr Ht Hp. destruct r as [[]|x]; [|done]. destruct (Hkeep _ _ Hr) as [Hs _].
  pose (op := OpMarkAccepted t id receipt).
  destruct (transact_ok e _ _ _ _ _ Hs (runOp_local op I) (runOp_safe op (conj I Hu)) Ht) as (next & Hsp & Hd & _).
  destruct Hd as (_ & Hsend & _). specialize (Hsend t id).
  change (runOp op) with (markSendAccepted t id receipt) in Hsp. unfold spec, markSendAccepted in Hsp.
  destruct (sendAt t id (stored w1)) as [a|] eqn:Ea; [|by simplify_eq/=].
  repeat (cases_in Hsp; try discriminate); simplify_eq; bools; match goal with Hb : Bool.eqb _ _ = true |- _ => apply Bool.eqb_prop in Hb end.
  - rewrite Ea in Hsend. eexists. split; [exact Hsend|]. by destruct keepsClaims.
  - rewrite sendAt_withSends, look2_put2, decide_True in Hsend by done. eexists.
    split; [exact Hsend|]. by destruct keepsClaims.
Qed.

Lemma recorded_err w e : recorded w (Err e).
Proof. done. Qed.

Lemma mark_recorded receipt w tr :
  validString (sr_TurnID receipt) = true →
  wp rely (bind (markAcceptedTx t id receipt) (fun r =>
    Ret (match r with Ok _ => Ok receipt | Err e => Err (receiptUnrecorded e) end))) w tr
    (fun w' _ r => recorded w' r).
Proof using Hkeep H0.
  intros Hu. apply wp_bind. eapply wp_mono; [|by apply markAcceptedTx_spec].
  intros w' tr' [u|e] Hr; [|done]. by intros receipt' [= <-] _.
Qed.

(** An accepted attempt that was read is still there. *)
Definition attemptIn (a : sendAttempt) (w : W) : Prop :=
  sa_State a = "accepted" → recordedIn (stored w) (mkReceipt "" (sa_TurnID a) id (sa_Steered a)).

Lemma reconcileSend_recorded text a w tr :
  attemptIn a w →
  wp rely (reconcileSend options fuel t text id a) w tr
    (fun w' _ r => ∀ receipt, r = Ok (Some receipt) → sr_TurnID receipt ≠ "" → recordedIn (stored w') receipt).
Proof using Hkeep H0.
  intros Ha. unfold reconcileSend. destruct (str_eqb (sa_State a) "accepted") eqn:Eacc.
  { apply str_eqb_eq in Eacc. intros receipt [= <-] _. by apply Ha. }
  destruct (str_eqb (sa_State a) "submitting"); [|by intros ? [=]]. apply wp_bindOk. eapply wp_mono, sentByClientID_receipt.
  intros w' tr' [[receipt|]|e] Hr; [|by intros ? [=]..].
  destruct (Hr _ eq_refl receipt eq_refl) as (Hu & Hid & Hq & Hne).
  apply wp_bind. eapply wp_mono; [|by apply markAcceptedTx_spec].
  intros w'' tr'' [u|e] Hm; [|done]. by intros receipt' [= <-] _.
Qed.

Let Hsound : ∀ w w1, rely w w1 → sound w1 := λ w w1 Hr, proj1 (Hkeep w w1 Hr).

Lemma readsAs_attempt state w : readsAs t id state (stored w) → attemptIn (ss_attempt state) w.
Proof.
  intros (_ & Ha & Hz). destruct (ss_found state); [|by rewrite Hz]. intros Hs. by eexists.
Qed.

Lemma unwritten_recorded text action digest absent e w tr :
  wp rely (unwrittenSendOutcome options fuel t text id action digest absent e) w tr
    (fun w' _ r => recorded w' r).
Proof using Hkeep H0.
  unfold unwrittenSendOutcome. apply wp_bind. eapply wp_mono; [|apply (sendStateTx_spec rely Hsound)].
  intros w' tr' r [_ Hr]. destruct r as [state|x]; [|done].
  destruct (negb (ss_queued state) && _); [done|].
  destruct (ss_found state && negb (ss_queued state)) eqn:Ef; [|done].
  apply wp_bind. eapply wp_mono; [|by apply reconcileSend_recorded, readsAs_attempt].
  intros w'' tr'' [[receipt|]|x] Hrec; [|done..]. intros receipt' [= <-]. by apply Hrec.
Qed.

Lemma reconcileRequest_recorded text action digest steered admitted e w tr :
  wp rely (reconcileRequest options fuel t text id action digest steered admitted e) w tr
    (fun w' _ r => recorded w' r).
Proof using Hkeep H0.
  unfold reconcileRequest. destruct admitted as [claim|]; [|apply unwritten_recorded].
  destruct (_ || _).
  { unfold restoreUnwrittenSendOutcome. apply wp_bind. intros w1 x r w2 _ _ _. apply unwritten_recorded. }
  apply wp_bind. eapply wp_mono; [|apply (waitFor_result _ _ _ (historyReceipt id)); [done|apply sentByClientID_receipt]].
  intros w' tr' [[receipt|]|x] Hr; [|done..].
  destruct (Hr _ eq_refl receipt eq_refl) as (Hu & Hid & Hq & Hne). by apply mark_recorded.
Qed.

Lemma request_unicode {T} method params (decode : any → res err T) (P : T → Prop)
    action text digest steered w tr :
  deliveryMethod method → decodes decode → yields decode P →
  wp rely (requestWithAdmission options method params decode
    (Some (bind (claimTx t id text action digest steered) (fun r =>
       Ret (match r with
            | Ok claim => Ok claim
            | Err e => Err (EWrap "record message attempt before submission" e) end))))) w tr
    (fun _ _ '(_, r) => ∀ x, r = Ok x → P x).
Proof.
  intros Hm Hd Hy. eapply wp_mono; [|apply (requestWithAdmission_spec rely options method params decode _
    (claimed t id text action digest steered)); [done|done|intros; apply admit_spec]].
  intros w' tr' [b r] Hr x ->. inversion Hr as [| | | |evs b' reply r' _ Hf]; subst.
  destruct (fa_ok _ _ _ Hf x eq_refl) as (v & -> & Hv). pose proof (fa_plain _ _ _ Hf) as Hu.
  by eapply Hy.
Qed.

Lemma submitMessage_recorded text action turnID n w tr :
  wp rely (submitMessage options fuel t text id action turnID n) w tr (fun w' _ r => recorded w' r).
Proof using Hkeep H0.
  unfold submitMessage. destruct (negb (is_empty turnID)).
  - apply wp_bind. eapply wp_mono; [|apply request_unicode;
      [by right; left|auto with codex|apply decField_unicode, decString_unicode]].
    intros w' tr' [b [turn|x]] Hf; [|apply reconcileRequest_recorded].
    destruct (negb _) eqn:Et; [apply reconcileRequest_recorded|]. bools. subst. apply mark_recorded. by apply Hf.
  - apply wp_bind. eapply wp_mono; [|apply request_unicode;
      [by left|auto with codex|apply decField_unicode, decField_unicode, decString_unicode]].
    intros w' tr' [b [turn|x]] Hf; [|apply reconcileRequest_recorded].
    destruct (is_empty turn); [apply reconcileRequest_recorded|]. apply mark_recorded. by apply Hf.
Qed.

Lemma recorded_bind {A} (m : prog (res err A)) (f : res err A → prog (res err SendReceipt)) w tr :
  (∀ r w' tr', wp rely (f r) w' tr' (fun w'' _ r' => recorded w'' r')) →
  wp rely (bind m f) w tr (fun w' _ r => recorded w' r).
Proof. intros Hf. apply wp_bind. induction m in w, tr |- *; simpl; auto. Qed.

(** The attempt read first is still accepted after the second read. *)
Lemma queueAttempt_keeps text a w tr :
  attemptIn a w → wp rely (queueAttemptTx t id text) w tr (fun w' _ _ => attemptIn a w').
Proof using Hkeep H0.
  intros Ha w1 e r w2 Hr Ht _. destruct (Hkeep _ _ Hr) as [Hs Hk]. intros Hacc. specialize (Ha Hacc).
  apply Hk in Ha. simpl.
  destruct r as [b|x].
  - apply read_spec in Ht as [_ ->]; [done|done|apply queueAttempt_local|apply queueAttempt_readOnly].
  - destruct (transact_err _ _ _ _ _ _ Hs (queueAttempt_local t id text)
      (readOnly_safe _ (queueAttempt_readOnly t id text)) Ht) as [->|(b & next & Hsp & _ & ->)]; try done.
    pose proof (queueAttempt_readOnly t id text (stored w1)) as Hro. unfold spec in Hsp.
    by destruct (queueAttempt _ _ _ _); simplify_eq.
Qed.

Lemma SendWithOptions_recorded text action turn w tr :
  wp rely (SendWithOptions options fuel t text id action turn) w tr (fun w' _ r => recorded w' r).
Proof using Hkeep H0.
  unfold SendWithOptions. destruct (normalizeTurnOptions turn) as [n|e]; [|done].
  apply recorded_bind. intros [u|e] w1 tr1; [|done].
  apply wp_bindOk. eapply wp_mono; [|apply (sendStateTx_spec rely Hsound)].
  intros w2 tr2 r [_ Hr]. destruct r as [state|x]; [|done].
  apply wp_bindOk. eapply wp_mono; [|by eapply queueAttempt_keeps, readsAs_attempt].
  intros w3 tr3 [queued|x] Ha; [|done]. destruct queued.
  { apply recorded_bind. intros [[entry|]|x] w4 tr4; [|done..]. by intros receipt [= <-]. }
  apply wp_bindOk. eapply wp_mono; [|by apply reconcileSend_recorded].
  intros w4 tr4 [[receipt|]|x] Hrec; [by intros receipt' [= <-]; apply Hrec| |done].
  apply recorded_bind. intros [u'|x] w5 tr5; [|apply unwritten_recorded].
  apply recorded_bind. intros [turnID|x] w6 tr6; [|apply unwritten_recorded].
  destruct (_ && _); [apply unwritten_recorded|]. destruct (ss_found state); [apply submitMessage_recorded|].
  apply recorded_bind. intros [u''|x] w7 tr7; [apply submitMessage_recorded|done].
Qed.
End recorded.
