(* ===== verification/SendFacts.v ===== *)
(** * Properties of sending a message

    [SendWithOptions] on any path: whatever the ledger, the connection and the
    other processes answer. *)
From S2P Require Import Prelude GoStd GoValue TurnOptions Ledger LedgerFacts Store LedgerFile Locality SubmissionDb StoreFacts Program Wire History Delivery DeliveryFacts SendOutcome.
From Stdlib Require Import String.
Open Scope Z_scope.

(** ** The events of one call *)

Definition isClaimOf (t id : string) (ev : event) : bool :=
  match ev with EvTx (Some (OpClaim t' id' _ _ _ _ _)) true => str_eqb t' t && str_eqb id' id | _ => false end.

Definition deliveries (evs : list event) : list event := filter (fun ev => isDelivery ev = true) evs.

(** Every delivery is addressed to the message and directly follows a committed claim of it. *)
Definition claimedFirst (t id text : string) (evs : list event) : Prop :=
  ∀ i ev, evs !! i = Some ev → isDelivery ev = true →
    (∃ m params reply, ev = EvWire m params reply ∧ addressed t id text params) ∧
    ∃ j claim, i = S j ∧ evs !! j = Some claim ∧ isClaimOf t id claim = true.

Lemma notable_delivery ev : isDelivery ev = true → notable ev = true.
Proof. by destruct ev. Qed.

Lemma silent_deliveries evs : silent evs → deliveries evs = [].
Proof.
  intros Hs. unfold deliveries. induction Hs as [|ev evs Hev _ IH]; [done|].
  rewrite filter_cons_False; [done|]. intros Hd%notable_delivery. congruence.
Qed.
Lemma silent_no_delivery evs i ev : silent evs → evs !! i = Some ev → isDelivery ev = false.
Proof.
  intros Hs Hi. pose proof (Forall_lookup_1 _ _ _ _ Hs Hi) as Hn. simpl in Hn.
  destruct (isDelivery ev) eqn:Ed; [|done]. apply notable_delivery in Ed. congruence.
Qed.
Lemma silent_claimedFirst t id text evs : silent evs → claimedFirst t id text evs.
Proof. intros Hs i ev Hi Hd. by rewrite (silent_no_delivery _ _ _ Hs Hi) in Hd. Qed.

Lemma restored_quiet t id evs : restored t id evs → deliveries evs = [] ∧ ∀ i ev, evs !! i = Some ev → isDelivery ev = false.
Proof.
  intros (db & claim & ok & rest & -> & Hs). split; [|intros [|i] ev Hi; [by simplify_eq/=|by eapply silent_no_delivery]].
  unfold deliveries. rewrite filter_cons_False by done. by apply silent_deliveries.
Qed.

(** What follows the claim: at most one delivery, directly after it. *)
Lemma submitted_deliveries {A} t id text (r : res err A) evs :
  submitted t id text r evs →
  deliveries evs = [] ∧ (∀ i ev, evs !! i = Some ev → isDelivery ev = false) ∨
  ∃ m params reply rest, evs = EvWire m params reply :: rest ∧ deliveries evs = [EvWire m params reply] ∧
    addressed t id text params ∧ (∀ i ev, rest !! i = Some ev → isDelivery ev = false) ∧
    (refusedReply reply ∨ free r).
Proof.
  assert (∀ m ps reply rest, deliveryMethod m → deliveries rest = [] →
    deliveries (EvWire m ps reply :: rest) = [EvWire m ps reply]) as Hone.
  { intros m ps reply rest Hm Hr. unfold deliveries in *. rewrite filter_cons_True by (by apply str_in_true). by rewrite Hr. }
  intros [evs' Hr|m ps reply evs' Hm Ha Hrep Hr|m ps reply evs' Hm Ha Hf Hs].
  - left. by eapply restored_quiet.
  - right. destruct (restored_quiet _ _ _ Hr). exists m, ps, reply, evs'. split_and!; auto.
  - right. exists m, ps, reply, evs'. split_and!; auto using silent_deliveries. intros i ev. by apply silent_no_delivery.
Qed.

Lemma claimed_events {A} t id text action pre claim digest steered (r : res err A) evs :
  silent pre → submitted t id text r evs →
  let all := pre ++ EvTx (Some (OpClaim t id claim text action digest steered)) true :: evs in
  deliveries all = deliveries evs ∧ claimedFirst t id text all.
Proof.
  intros Hpre Hs all. subst all. split.
  - unfold deliveries. rewrite filter_app. fold (deliveries pre). rewrite silent_deliveries by done.
    by rewrite filter_cons_False.
  - intros i ev Hi Hd. apply lookup_app_Some in Hi as [Hi|[Hge Hi]].
    { by rewrite (silent_no_delivery _ _ _ Hpre Hi) in Hd. }
    destruct (i - Datatypes.length pre)%nat as [|j] eqn:Ej; simpl in Hi; [by simplify_eq|].
    destruct (submitted_deliveries _ _ _ _ _ Hs) as [[_ Hn]|(m & ps & reply & rest & -> & _ & Ha & Hn & _)];
      [by rewrite (Hn _ _ Hi) in Hd|]. destruct j as [|j]; simpl in Hi; [|by rewrite (Hn _ _ Hi) in Hd].
    simplify_eq. split; [by do 3 eexists|]. exists (Datatypes.length pre). eexists. split; [lia|].
    rewrite lookup_app_r, Nat.sub_diag by lia. split; [done|]. simpl. by rewrite !str_eqb_refl.
Qed.

(** ** Theorems *)

Section sending.
Context {W E : Type} `{SubmissionStore W E} (rely : W → W → Prop) (options : clientOptions) (fuel : nat).

(** A call hands the message to App Server at most once, and only right
    after it committed the durable claim of that message identity: on every
    path of replies, lost connections, failed writes and failed transactions. *)
Theorem send_delivers_at_most_once t text id action turn w tr :
  tame options →
  wp rely (SendWithOptions options fuel t text id action turn) w tr (fun _ tr' _ =>
    ∃ evs, tr' = tr ++ evs ∧ (Datatypes.length (deliveries evs) ≤ 1)%nat ∧ claimedFirst t id text evs).
Proof.
  intros Ht. eapply wp_mono; [|by apply SendWithOptions_history].
  intros w' tr' r [(evs & -> & Hs)|(pre & claim & d & s & evs & -> & Hpre & Hs)].
  - exists evs. split_and!; [done| |by apply silent_claimedFirst]. rewrite silent_deliveries by done. simpl. lia.
  - eexists. split; [done|]. destruct (claimed_events t id text action pre claim d s r evs Hpre Hs) as [-> Hc].
    split; [|done]. destruct (submitted_deliveries _ _ _ _ _ Hs) as [[-> _]|(? & ? & ? & ? & _ & -> & _)]; simpl; lia.
Qed.

(** C8. "Not sent" is only said when it is known: when the call reports that
    the message was not sent, nothing of it was handed to the connection, or
    App Server refused the request explicitly. *)
Theorem not_sent_is_truthful t text id action turn w tr :
  tame options →
  wp rely (SendWithOptions options fuel t text id action turn) w tr (fun _ tr' r =>
    ∀ e, r = Err e → asNotSent e = true →
    ∃ evs, tr' = tr ++ evs ∧
      ∀ ev, ev ∈ deliveries evs → ∃ m params code msg, ev = EvWire m params (Refused code msg) ∧ refusalCode code = true).
Proof.
  intros Ht. eapply wp_mono; [|by apply SendWithOptions_history].
  intros w' tr' r Hr e He Hn. destruct Hr as [(evs & -> & Hs)|(pre & claim & d & s & evs & -> & Hpre & Hs)].
  - exists evs. split; [done|]. rewrite silent_deliveries by done. by intros ev ?%elem_of_nil.
  - eexists. split; [done|]. destruct (claimed_events t id text action pre claim d s r evs Hpre Hs) as [-> _].
    destruct (submitted_deliveries _ _ _ _ _ Hs) as [[-> _]|(m & ps & reply & rest & _ & -> & _ & _ & Href)];
      [by intros ev ?%elem_of_nil|]. intros ev ->%list_elem_of_singleton.
    destruct Href as [(c & msg & -> & Hc)|Hf]; [eauto 6|]. subst r. by rewrite (notSentFree_as e Hf) in Hn.
Qed.
End sending.

Section ledger.
Context {W E : Type} `{SubmissionStoreLaws W E} (rely : W → W → Prop) (options : clientOptions) (fuel : nat).

(** A message reported as not sent can be sent again: in the store the call
    leaves behind, the identity is not queued and its attempt is absent or
    merely prepared, over any store that keeps the contract. *)
Theorem not_sent_leaves_undelivered t text id action turn w tr :
  tame options → (∀ w w1, rely w w1 → sound w1) →
  wp rely (SendWithOptions options fuel t text id action turn) w tr (fun w' _ r =>
    ∀ e, r = Err e → asNotSent e = true →
    isQueued t id (stored w') = false ∧ ∀ a, sendAt t id (stored w') = Some a → sa_State a = "prepared").
Proof. intros Ht Hr. by apply SendWithOptions_settled. Qed.

(** C9. Acceptance is durable before it is reported: a receipt that names a
    turn is in the store as an accepted attempt of that very turn, when other
    processes do not take acceptances away. *)
Theorem accepted_receipt_durable t text id action turn w tr :
  keepsAccepted rely t id →
  wp rely (SendWithOptions options fuel t text id action turn) w tr (fun w' _ r =>
    ∀ receipt, r = Ok receipt → sr_TurnID receipt ≠ "" →
    ∃ a, sendAt t id (stored w') = Some a ∧ sa_State a = "accepted" ∧
         sa_TurnID a = sr_TurnID receipt ∧ sa_Steered a = sr_Steered receipt).
Proof. intros Hk. by apply SendWithOptions_recorded. Qed.
End ledger.

(** ** Concrete runs *)

Definition demoOptions : clientOptions := mkClientOptions false "" false true None None.
Definition idleNet : netEnv := mkNet None None true None None None true None None None.
Definition demoSend : prog (res err SendReceipt) :=
  SendWithOptions demoOptions 4 "thread" "hello" "message" "send" zeroOptions.

(** Resume, look for an active turn, record, claim, then the reply to [turn/start]. *)
Definition demoScript (reply : wireReply) (rest : list (answer dbEnv)) : list (answer dbEnv) :=
  [OnCtx None; OnTx calm; OnTx calm;
   OnNet idleNet; OnWire (Replied (AObj [("thread", AObj [("id", AStr "thread")])]));
   OnNet idleNet; OnWire (Replied (AObj [("data", AArr [])]));
   OnTx calm; OnNet idleNet; OnFresh "claim"; OnTx calm; OnWire reply] ++ rest.

Definition accepting := demoScript (Replied (AObj [("turn", AObj [("id", AStr "turn")])])) [OnTx calm].
Definition refusing := demoScript (Refused (-32600) "no") [OnTx calm; OnTx calm].

Definition others (w w1 : database) : Prop := w1 = w.
Definition soundly (w w1 : database) : Prop := dbSound w ∧ w1 = w.

Lemma demo_tame : tame demoOptions.
Proof. by split. Qed.

(** What is checked of a run by evaluation. *)
Definition summary (o : option (res err SendReceipt * database * list event)) : option (bool * bool * nat) :=
  match o with
  | Some (r, _, tr) => Some (is_ok r, match r with Err e => asNotSent e | Ok _ => false end, Datatypes.length (deliveries tr))
  | None => None
  end.
Lemma accepting_summary : summary (drive demoSend accepting (∅ : database) []) = Some (true, false, 1%nat).
Proof. vm_compute. reflexivity. Qed.
Lemma refusing_summary : summary (drive demoSend refusing (∅ : database) []) = Some (false, true, 1%nat).
Proof. vm_compute. reflexivity. Qed.

Lemma accepting_plain : plainRun demoSend accepting (∅ : database).
Proof. vm_compute. repeat split. Qed.
Lemma refusing_plain : plainRun demoSend refusing (∅ : database).
Proof. vm_compute. repeat split. Qed.

Lemma send_delivers_at_most_once_witness :
  match drive demoSend accepting (∅ : database) [] with
  | Some (r, _, tr) => is_ok r = true ∧ Datatypes.length (deliveries tr) = 1%nat ∧ claimedFirst "thread" "message" "hello" tr
  | None => False
  end.
Proof.
  pose proof accepting_summary as Hs.
  destruct (drive demoSend accepting (∅ : database) []) as [[[r db] tr]|] eqn:Ed; [|discriminate Hs].
  injection Hs as Hok _ Hlen.
  destruct (drive_sound others _ _ _ _ _ _ _ _ (fun _ => eq_refl)
    (send_delivers_at_most_once others demoOptions 4 "thread" "hello" "message" "send" zeroOptions ∅ [] demo_tame)
    accepting_plain Ed) as (evs & -> & _ & Hc).
  split; [exact Hok|split; [exact Hlen|exact Hc]].
Defined.

Lemma not_sent_is_truthful_witness :
  match drive demoSend refusing (∅ : database) [] with
  | Some (Err e, _, tr) => asNotSent e = true ∧
      ∀ ev, ev ∈ deliveries tr → ∃ m params code msg, ev = EvWire m params (Refused code msg) ∧ refusalCode code = true
  | _ => False
  end.
Proof.
  pose proof refusing_summary as Hs.
  destruct (drive demoSend refusing (∅ : database) []) as [[[[r|e] db] tr]|] eqn:Ed;
    [discriminate Hs| |discriminate Hs].
  injection Hs as Hn _.
  split; [exact Hn|].
  destruct (drive_sound others _ _ _ _ _ _ _ _ (fun _ => eq_refl)
    (not_sent_is_truthful others demoOptions 4 "thread" "hello" "message" "send" zeroOptions ∅ [] demo_tame)
    refusing_plain Ed e eq_refl Hn) as (evs & -> & Hd).
  exact Hd.
Defined.

Lemma soundly_refl w : dbSound w → soundly w w.
Proof. by split. Qed.

Lemma not_sent_leaves_undelivered_witness :
  soundly ∅ ∅ ∧
  wp soundly demoSend ∅ [] (fun w' _ r =>
    ∀ e, r = Err e → asNotSent e = true →
    isQueued "thread" "message" (stored w') = false ∧
    ∀ a, sendAt "thread" "message" (stored w') = Some a → sa_State a = "prepared").
Proof.
  split; [apply soundly_refl, empty_dbSound|].
  apply (@not_sent_leaves_undelivered database dbEnv db_store db_store_laws soundly demoOptions 4 "thread" "hello" "message" "send" zeroOptions ∅ []
           demo_tame).
  intros w w1 [Hs ->]. exact Hs.
Defined.

Lemma accepted_receipt_durable_witness :
  soundly ∅ ∅ ∧
  wp soundly demoSend ∅ [] (fun w' _ r =>
    ∀ receipt, r = Ok receipt → sr_TurnID receipt ≠ "" →
    ∃ a, sendAt "thread" "message" (stored w') = Some a ∧ sa_State a = "accepted" ∧
         sa_TurnID a = sr_TurnID receipt ∧ sa_Steered a = sr_Steered receipt).
Proof.
  split; [apply soundly_refl, empty_dbSound|].
  apply (@accepted_receipt_durable database dbEnv db_store db_store_laws soundly demoOptions 4 "thread" "hello" "message" "send" zeroOptions ∅ []).
  intros w w1 [Hs ->]. split; [exact Hs|]. intros receipt Hr. exact Hr.
Defined.
