(* ===== verification/Prompts.v ===== *)
(** * Pending questions and approvals

    App Server sends requests of its own: approvals and questions for the user.
    [src/codex/client.go] (1424-1660, 1871-2335), [src/codex/prompt_response.go]
    and [src/codex/request_policy.go]: how such a request is normalised,
    admitted under a fresh token, claimed by one responder, answered on the
    connection it came from, resolved, snoozed, answered automatically and
    dropped on disconnect, with the revision that tells readers of a change.

    Each section the code runs under [connectionMu] and [pendingMu] is one
    function on [client]; a responder is a program over those sections
    ([oprog]), so that responders, timers and the reader can interleave. *)
From S2P Require Import Prelude GoStd GoValue TurnOptions Ledger LedgerFacts Store Program Wire History.
From Stdlib Require Import String.
Open Scope Z_scope.

(** ** Data *)

Record PendingRequest := mkPending {
  pr_ID : string;
  pr_token : string;
  pr_Method : string;
  pr_Params : option any;          (** [None]: absent *)
  pr_generation : Z;
  pr_connection : Z;               (** the identity of the connection *)
  pr_claimed : bool;
  pr_receivedAt : option Z;        (** nanoseconds since 1970; [None]: the zero time *)
  pr_snoozed : bool }.

Record PromptOption := mkOption { op_Label : string; op_Description : string }.

Record Question := mkQuestion {
  qu_ID : string; qu_Header : string; qu_Question : string;
  qu_IsSecret : bool; qu_IsOther : bool; qu_Options : list PromptOption }.

Record Prompt := mkPrompt {
  pm_ID : string; pm_Token : string; pm_Method : string; pm_Kind : string;
  pm_ThreadID : string; pm_TurnID : string; pm_ItemID : string;
  pm_Params : object; pm_Item : option object; pm_AuthorityAvailable : bool; pm_Error : option err;
  pm_AvailableDecisions : list string; pm_Questions : list Question; pm_IsBlocking : bool;
  pm_AutoResolutionMS : option Z; pm_AutoResolutionVisibleAtMS : Z; pm_AutoResolutionAtMS : Z;
  pm_AutoResolveSnoozed : bool }.

(** Durations in nanoseconds. *)
Record NonBlockingUserInputPolicy := mkPolicy { nb_HiddenGrace : Z; nb_VisibleCountdown : Z }.

Record requestPolicy := mkRequestPolicy { rp_category : string; rp_blocking : bool }.

Definition requestPolicyFor (method : string) : requestPolicy :=
  if str_in method ["item/commandExecution/requestApproval"; "item/fileChange/requestApproval";
                    "item/permissions/requestApproval"] then mkRequestPolicy "approval" true
  else if str_eqb method "mcpServer/elicitation/request" then mkRequestPolicy "unsupported" false
  else if str_eqb method "item/tool/requestUserInput" then mkRequestPolicy "userInput" true
  else mkRequestPolicy "unknown" false.

(** ** Normalising a request *)

Definition quoted (s : string) : string := (quote ++ s ++ quote)%string.

Fixpoint normalizeOptions (id : string) (l : list any) : res err (list PromptOption) :=
  match l with
  | [] => Ok []
  | raw :: rest =>
    (let option := objectOrNil raw in
     let? _ := guard (negb (bool_decide (is_Some (asObject raw))) || is_empty (stringValue (field "label" option)))
        (EMsg ("request_user_input question " ++ quoted id ++ " has an invalid option")) in
     let? options := normalizeOptions id rest in
     Ok (mkOption (stringValue (field "label" option)) (stringValue (field "description" option)) :: options))%codex
  end.

Definition boolValue (v : any) : bool := default false (asBool v).

Fixpoint normalizeEach (l : list any) (seen : list string) : res err (list Question) :=
  match l with
  | [] => Ok []
  | AObj item :: rest =>
    (let id := stringValue (field "id" item) in
     let header := stringValue (field "header" item) in
     let text := stringValue (field "question" item) in
     let? _ := guard (is_empty id || is_empty header || is_empty text)
        (EMsg "request_user_input question is missing required text") in
     let? _ := guard (str_in id seen) (EMsg ("request_user_input repeats question id " ++ quoted id)) in
     let? options := normalizeOptions id (arrayOrNil (field "options" item)) in
     let? questions := normalizeEach rest (id :: seen) in
     Ok (mkQuestion id header text (boolValue (field "isSecret" item)) (boolValue (field "isOther" item)) options
         :: questions))%codex
  | _ :: _ => Err (EMsg "request_user_input contains an invalid question")
  end.

Definition normalizeQuestions (value : any) : res err (list Question) :=
  match asArray value with
  | None | Some [] => Err (EMsg "request_user_input has no questions")
  | Some raw => normalizeEach raw []
  end.

Definition offeredDecisions : list string := ["accept"; "acceptForSession"; "decline"; "cancel"].

(** [milliseconds < 0 || milliseconds != float64(uint64(milliseconds))] refused. *)
Definition unsignedValue (v : any) : option Z :=
  match v with
  | ANum m e => match float_int m e with
                | Some z => if (0 <=? z) && (z <? 2 ^ 64) then Some z else None
                | None => None end
  | _ => None
  end.

Definition basePrompt (request : PendingRequest) (params : object) (kind : string) (authority : bool)
    (decisions : list string) (questions : list Question) (blocking : bool) (auto : option Z) : Prompt :=
  mkPrompt (pr_ID request) (pr_token request) (pr_Method request) kind (stringValue (field "threadId" params))
    (stringValue (field "turnId" params)) (stringValue (field "itemId" params)) params None authority None
    decisions questions blocking auto 0 0 false.

(** The package-level [normalizePrompt]. *)
Definition normalizeRequest (request : PendingRequest) : res err Prompt :=
  (let? params := match pr_Params request with
     | Some (AObj params) => Ok params
     | Some ANull => Ok []
     | _ => Err decodeError
     end in
   let method := pr_Method request in
   let blocking := rp_blocking (requestPolicyFor method) in
   let? prompt :=
     (if str_eqb method "item/commandExecution/requestApproval" then
        let decisions := match asArray (field "availableDecisions" params) with
          | Some l => filter (fun d => str_in d offeredDecisions = true) (omap asString l)
          | None => offeredDecisions end in
        Ok (basePrompt request params "command" false decisions [] blocking None)
      else if str_eqb method "item/fileChange/requestApproval" then
        Ok (basePrompt request params "fileChange" false offeredDecisions [] blocking None)
      else if str_eqb method "item/permissions/requestApproval" then
        Ok (basePrompt request params "terminalOnly" false [] [] blocking None)
      else if str_eqb method "item/tool/requestUserInput" then
        (let? blocking := match assoc "isBlocking" params with
           | None => Ok blocking
           | Some raw => match asBool raw with
             | Some b => Ok b
             | None => Err (EMsg "request_user_input has an invalid isBlocking value") end
           end in
         let? auto := match assoc "autoResolutionMs" params with
           | None | Some ANull => Ok None
           | Some raw => match unsignedValue raw with
             | Some ms => Ok (Some ms)
             | None => Err (EMsg "request_user_input has an invalid autoResolutionMs value") end
           end in
         let? questions := normalizeQuestions (field "questions" params) in
         Ok (basePrompt request params "userInput" true [] questions blocking auto))
      else Err (EMsg ("unsupported request method " ++ quoted method))) in
   let? _ := guard (is_empty (pm_ThreadID prompt)) (EMsg "request has no thread id") in
   Ok prompt)%codex.

Definition threadIDFromParams (params : option any) : string :=
  match params with Some (AObj o) => stringValue (field "threadId" o) | _ => "" end.
Definition requestThreadID (request : PendingRequest) : string := threadIDFromParams (pr_Params request).

Definition setAutoResolution (visible deadline : Z) (snoozed : bool) (p : Prompt) : Prompt :=
  mkPrompt (pm_ID p) (pm_Token p) (pm_Method p) (pm_Kind p) (pm_ThreadID p) (pm_TurnID p) (pm_ItemID p)
    (pm_Params p) (pm_Item p) (pm_AuthorityAvailable p) (pm_Error p) (pm_AvailableDecisions p)
    (pm_Questions p) (pm_IsBlocking p) (pm_AutoResolutionMS p) visible deadline snoozed.

(** The client's method of the same name, which adds the countdown. *)
Definition normalizePrompt (policy : option NonBlockingUserInputPolicy) (request : PendingRequest)
    : res err Prompt :=
  match normalizeRequest request, policy, pr_receivedAt request with
  | Ok prompt, Some policy, Some received =>
    if negb (str_eqb (pm_Kind prompt) "userInput") || pm_IsBlocking prompt then Ok prompt else
    let visibleAt := received + nb_HiddenGrace policy in
    let deadline := visibleAt + nb_VisibleCountdown policy in
    Ok (setAutoResolution (visibleAt / 1000000) (deadline / 1000000) (pr_snoozed request) prompt)
  | r, _, _ => r
  end.

Definition requiresThreadItem (kind : string) : bool := str_eqb kind "command" || str_eqb kind "fileChange".
Definition itemTypeMatches (kind itemType : string) : bool :=
  (str_eqb kind "command" && str_eqb itemType "commandExecution")
  || (str_eqb kind "fileChange" && str_eqb itemType "fileChange").

(** ** Answers *)

Definition userNotePrefix : string := "user_note: ".
Definition validUserNote (value : string) : bool :=
  hasPrefix value userNotePrefix && negb (is_empty (trimSpace (trimPrefix value userNotePrefix))).

(** One question against [answers[question.ID]]. *)
Definition validateAnswer (question : Question) (answer : option (gmap string (list string))) : res err unit :=
  let about (text : string) := EMsg ("question " ++ quoted (qu_ID question) ++ text)%string in
  match answer with
  | None => Err (about " has an invalid answer")
  | Some answer =>
    let values := default [] (answer !! "answers") in
    (let? _ := guard (negb (Nat.eqb (size answer) 1) || Nat.ltb 2 (Datatypes.length values))
        (about " has an invalid answer") in
     match values with
     | [] => Ok tt
     | first :: rest =>
       let? _ := guard (existsb (fun v => is_empty (trimSpace v)) values) (about " has a blank answer") in
       let single := match rest with [] => true | _ => false end in
       if Nat.eqb (Datatypes.length (qu_Options question)) 0 then
         guard (negb single || negb (validUserNote first)) (about " requires one free-form answer")
       else
       let offered := existsb (fun o => str_eqb (op_Label o) first) (qu_Options question) in
       let? _ := guard (negb offered && negb (qu_IsOther question && single && validUserNote first))
          (EMsg ("answer to question " ++ quoted (qu_ID question) ++ " was not offered")) in
       match rest with
       | [second] => guard (offered && negb (validUserNote second)) (about " has an invalid option note")
       | _ => Ok tt
       end
     end)%codex
  end.

Fixpoint validateEach (questions : list Question) (answers : gmap string (gmap string (list string)))
    : res err unit :=
  match questions with
  | [] => Ok tt
  | question :: rest =>
    (let? _ := validateAnswer question (answers !! qu_ID question) in validateEach rest answers)%codex
  end.

Definition validateAnswers (prompt : Prompt) (answers : gmap string (gmap string (list string))) : res err unit :=
  (let? _ := guard (negb (Nat.eqb (size answers) (Datatypes.length (pm_Questions prompt))))
      (EMsg "answers do not match the offered questions") in
   validateEach (pm_Questions prompt) answers)%codex.

(** ** The client's shared state *)

Record client := mkClient {
  cl_connection : option Z;
  cl_generation : Z;
  cl_ready : Z;
  cl_closed : bool;
  cl_requests : gmap string PendingRequest;
  cl_notices : gmap string (list Prompt);
  cl_pendingSequence : Z;
  cl_pendingReset : Z;
  cl_pendingRevisions : gmap string Z;
  cl_watched : gmap string Z }.

Definition newClient : client := mkClient None 0 0 false ∅ ∅ 0 0 ∅ ∅.

Definition u64 (z : Z) : Z := z mod 2 ^ 64.

Definition withConnection (connection : option Z) (generation ready : Z) (c : client) : client :=
  mkClient connection generation ready (cl_closed c) (cl_requests c) (cl_notices c) (cl_pendingSequence c)
    (cl_pendingReset c) (cl_pendingRevisions c) (cl_watched c).
Definition withRequests (f : gmap string PendingRequest → gmap string PendingRequest) (c : client) : client :=
  mkClient (cl_connection c) (cl_generation c) (cl_ready c) (cl_closed c) (f (cl_requests c)) (cl_notices c)
    (cl_pendingSequence c) (cl_pendingReset c) (cl_pendingRevisions c) (cl_watched c).
Definition withNotices (f : gmap string (list Prompt) → gmap string (list Prompt)) (c : client) : client :=
  mkClient (cl_connection c) (cl_generation c) (cl_ready c) (cl_closed c) (cl_requests c) (f (cl_notices c))
    (cl_pendingSequence c) (cl_pendingReset c) (cl_pendingRevisions c) (cl_watched c).
Definition withRevisions (sequence reset : Z) (revisions : gmap string Z) (c : client) : client :=
  mkClient (cl_connection c) (cl_generation c) (cl_ready c) (cl_closed c) (cl_requests c) (cl_notices c)
    sequence reset revisions (cl_watched c).
Definition withWatched (f : gmap string Z → gmap string Z) (c : client) : client :=
  mkClient (cl_connection c) (cl_generation c) (cl_ready c) (cl_closed c) (cl_requests c) (cl_notices c)
    (cl_pendingSequence c) (cl_pendingReset c) (cl_pendingRevisions c) (f (cl_watched c)).
Definition withClosed (c : client) : client :=
  mkClient (cl_connection c) (cl_generation c) (cl_ready c) true (cl_requests c) (cl_notices c)
    (cl_pendingSequence c) (cl_pendingReset c) (cl_pendingRevisions c) (cl_watched c).

Definition noticesOf (threadID : string) (c : client) : list Prompt := default [] (cl_notices c !! threadID).
Definition watchedCount (threadID : string) (c : client) : Z := default 0 (cl_watched c !! threadID).

(** ** The revision of the pending projection *)

Definition PendingRevision (threadID : string) (c : client) : Z :=
  Z.max (cl_pendingReset c) (default 0 (cl_pendingRevisions c !! threadID)).

Definition bumpPending (threadID : string) (c : client) : client :=
  if is_empty threadID then c else
  let sequence := u64 (cl_pendingSequence c + 1) in
  withRevisions sequence (cl_pendingReset c) (<[threadID := sequence]> (cl_pendingRevisions c)) c.

Definition requestOf (threadID : string) (kv : string * PendingRequest) : bool :=
  str_eqb (requestThreadID (snd kv)) threadID.

Definition prunePendingRevision (threadID : string) (c : client) : client :=
  if negb (watchedCount threadID c =? 0) then c
  else if negb (Nat.eqb (Datatypes.length (noticesOf threadID c)) 0) then c
  else if existsb (requestOf threadID) (map_to_list (cl_requests c)) then c
  else withRevisions (cl_pendingSequence c) (cl_pendingReset c) (delete threadID (cl_pendingRevisions c)) c.

(** ** Connecting and disconnecting *)

(** [Ensure] up to the reader it starts: dial, or the reason not to. *)
Definition dial (connection : Z) (failure : option err) (c : client) : res err (option Z) * client :=
  if cl_closed c then (Err (EMsg "Codex client is closed"), c)
  else match cl_connection c, failure with
  | Some _, _ => if cl_ready c =? cl_generation c then (Ok None, c)
                 else (Err (ETransport (EMsg "Codex App Server connection is still initializing")), c)
  | None, Some e => (Err (ETransport (EWrap "connect to Codex App Server" e)), c)
  | None, None => let generation := u64 (cl_generation c + 1) in
                  (Ok (Some generation), withConnection (Some connection) generation (cl_ready c) c)
  end.

Definition current (connection generation : Z) (c : client) : bool :=
  bool_decide (cl_connection c = Some connection) && (cl_generation c =? generation).

(** The end of [Ensure]. *)
Definition markReady (connection generation : Z) (c : client) : res err unit * client :=
  if negb (current connection generation c)
  then (Err (ETransport (EMsg "Codex App Server connection changed during initialization")), c)
  else (Ok tt, withConnection (cl_connection c) (cl_generation c) generation c).

(** The pending part of [detachConnectionLocked]. *)
Definition detachConnection (generation : Z) (c : client) : client :=
  let sequence := u64 (cl_pendingSequence c + 1) in
  withRequests (filter (fun kv => pr_generation kv.2 ≠ generation))
    (withRevisions sequence sequence ∅ (withConnection None (cl_generation c) 0 c)).

Definition markDisconnected (connection generation : Z) (c : client) : client :=
  if negb (current connection generation c) then c else detachConnection generation c.

(** ** The sections of a request's life *)

Definition setClaimed (claimed : bool) (r : PendingRequest) : PendingRequest :=
  mkPending (pr_ID r) (pr_token r) (pr_Method r) (pr_Params r) (pr_generation r) (pr_connection r) claimed
    (pr_receivedAt r) (pr_snoozed r).
Definition setSnoozed (r : PendingRequest) : PendingRequest :=
  mkPending (pr_ID r) (pr_token r) (pr_Method r) (pr_Params r) (pr_generation r) (pr_connection r) (pr_claimed r)
    (pr_receivedAt r) true.
Definition setToken (token : string) (r : PendingRequest) : PendingRequest :=
  mkPending (pr_ID r) token (pr_Method r) (pr_Params r) (pr_generation r) (pr_connection r) (pr_claimed r)
    (pr_receivedAt r) (pr_snoozed r).

Definition promptError (code message : string) : err := EPrompt code true (EMsg message).

Section client.
Context (policy : option NonBlockingUserInputPolicy).

(** [token] is what [rand.Text] draws. *)
Definition admitPrompt (token : string) (request : PendingRequest) (c : client)
    : option PendingRequest * client :=
  if negb (current (pr_connection request) (pr_generation request) c) then (None, c)
  else if match cl_requests c !! pr_ID request with
          | Some r => pr_generation r =? pr_generation request
          | None => false end then (None, c)
  else let request := setToken token request in
       (Some request, bumpPending (requestThreadID request) (withRequests <[pr_ID request := request]> c)).

(** The offer is on the current connection, and is the one the token names. *)
Definition live (r : PendingRequest) (c : client) : bool := current (pr_connection r) (pr_generation r) c.

Definition putClaimed (id threadID : string) (request : PendingRequest) (c : client) : client :=
  bumpPending threadID (withRequests <[id := setClaimed true request]> c).

Definition claim (id threadID token : string) (c : client) : res err (PendingRequest * Prompt) * client :=
  match cl_requests c !! id with
  | None => (Err (promptError "prompt_changed" "This question is no longer pending."), c)
  | Some request =>
    if pr_claimed request
    then (Err (promptError "prompt_changed" "This question is no longer pending."), c)
    else if negb (live request c) || (negb (is_empty token) && negb (str_eqb (pr_token request) token))
    then (Err (promptError "prompt_changed" "This question needs to be refreshed."), c)
    else match normalizePrompt policy request with
    | Err e => (Err e, c)
    | Ok prompt =>
      if negb (str_eqb (pm_ThreadID prompt) threadID)
      then (Err (EMsg "request belongs to another thread"), c)
      else (Ok (setClaimed true request, prompt), putClaimed id threadID request c)
    end
  end.

Definition claimAutoResolvableUserInput (id threadID token : string) (c : client)
    : option PendingRequest * client :=
  match cl_requests c !! id with
  | None => (None, c)
  | Some request =>
    if pr_claimed request || pr_snoozed request || negb (str_eqb (pr_token request) token) || negb (live request c)
    then (None, c)
    else match normalizePrompt policy request with
    | Err _ => (None, c)
    | Ok prompt =>
      if negb (str_eqb (pm_Kind prompt) "userInput") || negb (str_eqb (pm_ThreadID prompt) threadID)
         || pm_IsBlocking prompt
      then (None, c)
      else (Some (setClaimed true request), putClaimed id threadID request c)
    end
  end.

Definition snoozeUserInput (id threadID token : string) (c : client) : res err unit * client :=
  match cl_requests c !! id with
  | None => (Err (promptError "prompt_changed" "This question is no longer pending."), c)
  | Some request =>
    if pr_claimed request
    then (Err (promptError "prompt_changed" "This question is no longer pending."), c)
    else if negb (live request c) || (negb (is_empty token) && negb (str_eqb (pr_token request) token))
    then (Err (promptError "prompt_changed" "This question needs to be refreshed."), c)
    else match normalizePrompt policy request with
    | Err e => (Err e, c)
    | Ok prompt =>
      if negb (str_eqb (pm_ThreadID prompt) threadID) || negb (str_eqb (pm_Kind prompt) "userInput")
      then (Err (EMsg "this request does not support auto-resolution control"), c)
      else if pr_snoozed request then (Ok tt, c)
      else (Ok tt, bumpPending threadID (withRequests <[id := setSnoozed request]> c))
    end
  end.

Definition releaseClaim (request : PendingRequest) (c : client) : client :=
  match cl_requests c !! pr_ID request with
  | Some r =>
    if (pr_generation r =? pr_generation request) && str_eqb (pr_token r) (pr_token request)
    then bumpPending (requestThreadID request) (withRequests <[pr_ID request := setClaimed false r]> c)
    else c
  | None => c
  end.

(** The section under [pendingMu]; [prunePendingRevision] follows it as a section
    of its own. A missing request reads as the zero value, of generation 0 and no
    thread. *)
Definition handleResolved (id : string) (generation : Z) (c : client) : client :=
  match cl_requests c !! id with
  | Some r => if pr_generation r =? generation then bumpPending (requestThreadID r) (withRequests (delete id) c) else c
  | None => if generation =? 0 then bumpPending "" (withRequests (delete id) c) else c
  end.

(** The notice of [rejectUnsupported]; the error response itself is a plain write. *)
Definition unsupportedNotice (request : PendingRequest) (cause : err) : Prompt :=
  mkPrompt (pr_ID request) "" (pr_Method request) "unsupported" (requestThreadID request) "" ""
    (match pr_Params request with Some v => objectOrNil v | None => [] end) None false (Some cause)
    [] [] false None 0 0 false.

Definition rejectUnsupported (request : PendingRequest) (cause : err) (c : client) : client :=
  let threadID := requestThreadID request in
  if is_empty threadID then c else
  let notices := noticesOf threadID c ++ [unsupportedNotice request cause] in
  let notices := drop (Datatypes.length notices - 20) notices in
  bumpPending threadID (withNotices <[threadID := notices]> c).

Definition watchNotice (threadID : string) (cause : err) : Prompt :=
  mkPrompt ("watch:" ++ threadID) "" "" "connection" threadID "" "" [] None false
    (Some (EWrap "Unable to resume this Codex thread" cause)) [] [] false None 0 0 false.

Definition recordWatchError (threadID : string) (cause : err) (c : client) : client :=
  let message := watchNotice threadID cause in
  let same (p : Prompt) := str_eqb (pm_ID p) (pm_ID message) in
  let notices := noticesOf threadID c in
  let notices := if existsb same notices then (fun p => if same p then message else p) <$> notices
                 else notices ++ [message] in
  bumpPending threadID (withNotices <[threadID := notices]> c).

(** The notices without the first one of the watch, when there is one. *)
Fixpoint removeFirst (id : string) (notices : list Prompt) : option (list Prompt) :=
  match notices with
  | [] => None
  | p :: rest => if str_eqb (pm_ID p) id then Some rest
                 else match removeFirst id rest with Some rest => Some (p :: rest) | None => None end
  end.

(** The section under [pendingMu], before [prunePendingRevision]. *)
Definition clearWatchError (threadID : string) (c : client) : client :=
  let notices := noticesOf threadID c in
  match removeFirst ("watch:" ++ threadID) notices with
  | Some notices => withNotices <[threadID := notices]> (bumpPending threadID c)
  | None => withNotices <[threadID := notices]> c
  end.

(** The counter of [Subscribe], and of [removeWatch] with its pruning. *)
Definition addWatch (threadID : string) (c : client) : client :=
  withWatched (fun w => <[threadID := default 0 (w !! threadID) + 1]> w) c.
Definition removeWatch (threadID : string) (c : client) : client :=
  if watchedCount threadID c <=? 1 then prunePendingRevision threadID (withWatched (delete threadID) c)
  else withWatched (fun w => <[threadID := default 0 (w !! threadID) - 1]> w) c.

(** ** What a reader sees *)

Definition promptLe (a b : Prompt) : Prop := String.leb (pm_ID a) (pm_ID b) = true.
#[export] Instance promptLe_dec : RelDecision promptLe.
Proof. intros a b. unfold promptLe. apply _. Defined.

Definition visiblePrompt (threadID : string) (c : client) (r : PendingRequest) : option Prompt :=
  if pr_claimed r || negb (cl_generation c =? pr_generation r)
     || negb (bool_decide (cl_connection c = Some (pr_connection r))) then None else
  match normalizePrompt policy r with
  | Ok prompt => if str_eqb (pm_ThreadID prompt) threadID then Some prompt else None
  | Err _ => None
  end.

Definition Prompts (threadID : string) (c : client) : list Prompt :=
  merge_sort promptLe
    (noticesOf threadID c ++ omap (fun kv => visiblePrompt threadID c (snd kv)) (map_to_list (cl_requests c))).
End client.

Definition Close (c : client) : client :=
  let closed := withClosed c in
  match cl_connection c with
  | Some connection => markDisconnected connection (cl_generation c) closed
  | None => closed
  end.

(** ** Writing a response: [writeOfferAdmission] with an offer *)

Record writeEnv := mkWriteEnv {
  we_lock : option err;            (** the writer lock *)
  we_before : option err;          (** [ctx.Err()] under the locks *)
  we_after : option err;           (** [ctx.Err()] before the writer *)
  we_acquire : option (err * bool); (** [connection.Writer], and whether the context is still alive *)
  we_write : option err }.         (** [Write] and [Close] *)

Inductive writeOutcome :=
| Withheld (e : err)                   (** nothing reached the writer *)
| Unacquired (e : err) (alive : bool)  (** no writer; nothing was written *)
| WriteFailed (e : err)                (** bytes may have left *)
| Written.

(** [pendingMu] is held from the check of the offer to the removal of the request. *)
Definition writeSection (env : writeEnv) (offer : PendingRequest) (c : client) : writeOutcome * client :=
  match we_lock env with
  | Some e => (Withheld (ETransport e), c)
  | None =>
    if negb (live offer c) then (Withheld (ETransport EConnectionChanged), c)
    else if negb (match cl_requests c !! pr_ID offer with
                  | Some r => pr_claimed r && str_eqb (pr_token r) (pr_token offer)
                              && (pr_generation r =? pr_generation offer)
                              && (pr_connection r =? pr_connection offer)
                  | None => false end)
    then (Withheld (promptError "prompt_changed" "This question is no longer pending."), c)
    else match we_before env, we_after env, we_acquire env, we_write env with
    | Some e, _, _, _ => (Withheld (ETransport e), c)
    | None, Some e, _, _ => (Withheld (EUnwritten (ETransport e)), c)
    | None, None, Some (e, alive), _ => (Unacquired e alive, c)
    | None, None, None, Some e => (WriteFailed e, c)
    | None, None, None, None =>
        (Written, bumpPending (requestThreadID offer) (withRequests (delete (pr_ID offer)) c))
    end
  end.

(** ** Responders *)

(** A responder runs one locked section after another; [OItems] is a walk over
    the thread's history, [OEncode] the JSON of the response. *)
Inductive oprog (A : Type) : Type :=
| ODone (a : A)
| OClaim (id threadID token : string) (k : res err (PendingRequest * Prompt) → oprog A)
| OAuto (id threadID token : string) (k : option PendingRequest → oprog A)
| OSnooze (id threadID token : string) (k : res err unit → oprog A)
| ORelease (r : PendingRequest) (k : oprog A)
| OItems (threadID : string) (itemIDs : list string) (k : res err (gmap string object) → oprog A)
| OEncode (id : string) (result : any) (k : option err → oprog A)
| OWrite (r : PendingRequest) (result : any) (k : writeOutcome → oprog A)
| ODisconnect (connection generation : Z) (k : oprog A)
| OPrune (threadID : string) (k : oprog A).
Arguments ODone {A} a.
Arguments OClaim {A} id threadID token k.
Arguments OAuto {A} id threadID token k.
Arguments OSnooze {A} id threadID token k.
Arguments ORelease {A} r k.
Arguments OItems {A} threadID itemIDs k.
Arguments OEncode {A} id result k.
Arguments OWrite {A} r result k.
Arguments ODisconnect {A} connection generation k.
Arguments OPrune {A} threadID k.

(** What [writeOffer] makes of the outcome of its section, [k] being the rest. *)
Definition writeOffer {A} (request : PendingRequest) (result : any) (k : res err unit → oprog A) : oprog A :=
  OWrite request result (fun outcome =>
    match outcome with
    | Withheld e => k (Err e)
    | Unacquired e alive =>
        let rest := k (Err (EUnwritten (ETransport e))) in
        if alive then ODisconnect (pr_connection request) (pr_generation request) rest else rest
    | WriteFailed e =>
        ODisconnect (pr_connection request) (pr_generation request) (k (Err (ETransport e)))
    | Written => k (Ok tt)
    end).

Section responding.
Context (observer : bool).

Definition finishResponse (request : PendingRequest) (result : any) : oprog (res err unit) :=
  if observer then ODone (Err (EMsg "observer client cannot answer a thread")) else
  OEncode (pr_ID request) result (fun failed =>
    match failed with
    | Some e => ORelease request (ODone (Err e))
    | None =>
      writeOffer request result (fun r =>
        match r with
        | Err e =>
          ORelease request (ODone (Err
            (if asPrompt e then e else EPrompt "prompt_transport" (errIs EConnectionChanged e) e)))
        | Ok _ => OPrune (requestThreadID request) (ODone (Ok tt))
        end)
    end).

Definition respondDecision (id threadID token decision : string) : oprog (res err unit) :=
  OClaim id threadID token (fun claimed =>
    match claimed with
    | Err e => ODone (Err e)
    | Ok (request, prompt) =>
      let refuse (e : err) := ORelease request (ODone (Err e)) in
      if negb (str_in decision (pm_AvailableDecisions prompt))
      then refuse (promptError "invalid_response" "This decision was not offered by Codex.") else
      let finish := if requiresThreadItem (pm_Kind prompt)
                    then finishResponse request (AObj [("decision", AStr decision)])
                    else refuse (EMsg "this request does not accept a decision") in
      if negb (requiresThreadItem (pm_Kind prompt)) then finish else
      OItems threadID [pm_ItemID prompt] (fun items =>
        match items with
        | Err e => refuse (EWrap "load approval authority" e)
        | Ok items =>
          match items !! pm_ItemID prompt with
          | Some item => if itemTypeMatches (pm_Kind prompt) (stringValue (field "type" item)) then finish
                         else refuse (EMsg "matching approval item is unavailable; review this request in the terminal")
          | None => refuse (EMsg "matching approval item is unavailable; review this request in the terminal")
          end
        end)
    end).

(** The answers as the response carries them, in the byte order of the keys. *)
Definition answerValue (m : gmap string (list string)) : any :=
  AObj ((fun '(k, l) => (k, AArr (AStr <$> l))) <$> map_to_list m).
Definition answersValue (m : gmap string (gmap string (list string))) : any :=
  AObj ((fun '(k, v) => (k, answerValue v)) <$> map_to_list m).

Definition respondAnswers (id threadID token : string) (answers : gmap string (gmap string (list string)))
    : oprog (res err unit) :=
  OClaim id threadID token (fun claimed =>
    match claimed with
    | Err e => ODone (Err e)
    | Ok (request, prompt) =>
      if negb (str_eqb (pm_Kind prompt) "userInput")
      then ORelease request (ODone (Err (promptError "invalid_response" "This request does not accept answers.")))
      else match validateAnswers prompt answers with
      | Err e => ORelease request (ODone (Err (EPrompt "invalid_response" true e)))
      | Ok _ => finishResponse request (AObj [("answers", answersValue answers)])
      end
    end).

(** After the delay of its timer. *)
Definition autoResolveUserInput (id threadID token : string) : oprog (res err unit) :=
  OAuto id threadID token (fun claimed =>
    match claimed with
    | None => ODone (Ok tt)
    | Some request => finishResponse request (AObj [("answers", AObj [])])
    end).

Record PromptResponse := mkResponse {
  ps_ID : string; ps_Token : string; ps_Decision : string;
  ps_Answers : gmap string (gmap string (list string)); ps_Snooze : bool }.

Definition RespondPrompt (threadID : string) (response : PromptResponse) : oprog (res err unit) :=
  if is_empty (ps_Token response) || (128 <? len (ps_Token response))
  then ODone (Err (promptError "prompt_changed" "This question needs to be refreshed before it can be answered."))
  else
  let answering := negb (bool_decide (ps_Answers response = ∅)) in
  let actions := Z.b2z (ps_Snooze response) + Z.b2z answering + Z.b2z (negb (is_empty (ps_Decision response))) in
  if negb (actions =? 1) then ODone (Err (promptError "invalid_response" "Choose one response action."))
  else if ps_Snooze response
  then OSnooze (ps_ID response) threadID (ps_Token response) (fun r => ODone r)
  else if answering
  then respondAnswers (ps_ID response) threadID (ps_Token response) (ps_Answers response)
  else respondDecision (ps_ID response) threadID (ps_Token response) (ps_Decision response).
End responding.

(** ** Items behind a prompt *)

Section items.
Context (options : clientOptions) (fuel : nat).

Definition visitWanted (st : list string * gmap string object) (entry : threadItemEntry)
    : res err (bool * (list string * gmap string object)) :=
  let '(wanted, items) := st in
  let id := stringValue (itemField "id" entry) in
  let wanted' := filter (fun w => w ≠ id) wanted in
  let items' := if str_in id wanted then <[id := default [] (ti_Item entry)]> items else items in
  Ok (Nat.eqb (Datatypes.length wanted') 0, (wanted', items')).

Definition threadItems (threadID : string) (itemIDs : list string) : prog (res err (gmap string object)) :=
  if Nat.eqb (Datatypes.length itemIDs) 0 then Ret (Ok ∅) else
  bindOk (walkThreadItems options fuel threadID visitWanted (itemIDs, ∅)) (fun '(_, items) => Ret (Ok items)).

Definition setItem (item : object) (p : Prompt) : Prompt :=
  mkPrompt (pm_ID p) (pm_Token p) (pm_Method p) (pm_Kind p) (pm_ThreadID p) (pm_TurnID p) (pm_ItemID p)
    (pm_Params p) (Some item) true (pm_Error p) (pm_AvailableDecisions p)
    (pm_Questions p) (pm_IsBlocking p) (pm_AutoResolutionMS p) (pm_AutoResolutionVisibleAtMS p)
    (pm_AutoResolutionAtMS p) (pm_AutoResolveSnoozed p).

Definition attachItem (items : gmap string object) (p : Prompt) : Prompt :=
  if negb (requiresThreadItem (pm_Kind p)) then p else
  match items !! pm_ItemID p with
  | Some item => if itemTypeMatches (pm_Kind p) (stringValue (field "type" item)) then setItem item p else p
  | None => p
  end.

(** [prompts] is what [Prompts] returned. *)
Definition PromptsWithItems (threadID : string) (prompts : list Prompt) : prog (res err (list Prompt)) :=
  let itemIDs := omap (fun p => if requiresThreadItem (pm_Kind p) then Some (pm_ItemID p) else None) prompts in
  if Nat.eqb (Datatypes.length itemIDs) 0 then Ret (Ok prompts) else
  bindOk (threadItems threadID itemIDs) (fun items => Ret (Ok (attachItem items <$> prompts))).
End items.
