(* ===== verification/Continuation.v ===== *)
(** * Continuing a failed turn

    [src/codex/continuation.go] and [src/codex/turn_state.go]: a continuation is
    one more message, started only on a loaded, quiescent thread whose latest
    turn is the expected failure. *)
From S2P Require Import Prelude GoStd GoValue TurnOptions Ledger LedgerFacts Store Program Wire History Delivery DeliveryFacts.
From S2P Require Import HistoryReader Prompts.
From Stdlib Require Import String.
Open Scope Z_scope.

(** ** The state of the latest turn *)

Record TerminalFailure := mkFailure { tf_TurnID : string; tf_Code : string; tf_Message : string }.
Record TurnState := mkTurnState {
  ts_ThreadID : string; ts_Status : string; ts_LatestTurnID : string; ts_LatestTurnStatus : string;
  ts_TerminalFailure : option TerminalFailure }.

Definition IsLoadedFailedTurn (s : TurnState) (expectedTurnID : string) : bool :=
  negb (is_empty expectedTurnID) && str_eqb (ts_LatestTurnID s) expectedTurnID
  && str_eqb (ts_LatestTurnStatus s) "failed"
  && (str_eqb (ts_Status s) "idle" || str_eqb (ts_Status s) "systemError").

(** What the client finds outside of App Server during one observation: the
    prompts it holds, and whether a path it is told names nothing. *)
Record observation := mkObservation { ob_prompts : list Prompt; ob_absent : string → bool }.

Definition decThread (v : any) : res err object := decField "thread" decObject v.
Definition decTurns (v : any) : res err (option (list object)) := decField "data" (decNil (decArray decObject)) v.

Section continuation.
Context (options : clientOptions) (sources : list string) (fuel : nat) `{HistoryReader}.

Definition threadSource (value : any) : bool :=
  match value with AStr source => str_in source sources | _ => false end.

Definition freshThreadMissingSourceRollout (absent : string → bool) (thread : object) (threadID : string) (e : err) : bool :=
  match asRpc e with
  | Some (code, message) =>
    if negb (code =? -32600)
       || negb (str_in message
            [("invalid paginated history lineage for " ++ threadID ++ ": missing source rollout")%string;
             ("thread " ++ threadID ++ " is not materialized yet; thread/turns/list is unavailable before first user message")%string])
    then false else
    if negb (str_eqb (stringValue (field "id" thread)) threadID) || negb (threadSource (field "source" thread))
       || negb (str_eqb (stringValue (field "historyMode" thread)) "paginated")
       || negb (is_empty (stringValue (field "preview" thread)))
       || negb (is_empty (stringValue (field "forkedFromId" thread)))
       || negb (str_in (statusValue (field "status" thread)) ["idle"; "notLoaded"])
    then false else
    match field "ephemeral" thread with
    | ABool false =>
      let path := stringValue (field "path" thread) in
      if is_empty path || negb (canonicalPath path) then false else
      match field "turns" thread with
      | AArr [] => absent path
      | _ => false
      end
    | _ => false
    end
  | None => false
  end.

(** The latest turn, once its page is checked. *)
Definition latestTurn (state : TurnState) (turn : object) : res err TurnState :=
  let id := stringValue (field "id" turn) in
  let status := stringValue (field "status" turn) in
  if is_empty id || negb (str_in status ["inProgress"; "completed"; "failed"; "interrupted"])
  then Err (EMsg "thread/turns/list returned invalid latest turn identity or status")
  else
    let failure :=
      if str_eqb status "failed" then
        match field "error" turn with
        | AObj failure => Some (mkFailure id (stringValue (field "codexErrorInfo" failure))
                                  (stringValue (field "message" failure)))
        | _ => None
        end
      else None in
    Ok (mkTurnState (ts_ThreadID state) (ts_Status state) id status failure).

Definition ReadTurnState (absent : string → bool) (threadID : string) : prog (res err TurnState) :=
  (try! thread := historyRequest "thread/read" [("threadId", AStr threadID); ("excludeTurns", ABool true)] decThread in
   if is_empty threadID || negb (str_eqb (stringValue (field "id" thread)) threadID)
   then Ret (Err (EMsg "thread/read returned the wrong thread")) else
   let state := mkTurnState threadID (statusValue (field "status" thread)) "" "" None in
   if negb (str_in (ts_Status state) ["idle"; "notLoaded"; "active"; "systemError"])
   then Ret (Err (EMsg "thread/read returned an unknown thread status")) else
   let! page := historyRequest "thread/turns/list"
     [("threadId", AStr threadID); ("limit", ANum 1 0); ("sortDirection", AStr "desc"); ("itemsView", AStr "notLoaded")]
     decTurns in
   match page with
   | Err e => if freshThreadMissingSourceRollout absent thread threadID e then Ret (Ok state) else Ret (Err e)
   | Ok (Some []) =>
     if str_eqb (ts_Status state) "active" then Ret (Err (EMsg "active thread returned no latest turn"))
     else Ret (Ok state)
   | Ok (Some [turn]) => Ret (latestTurn state turn)
   | Ok _ => Ret (Err (EMsg "thread/turns/list returned invalid latest turn data"))
   end)%codex.

(** ** Continuing *)

Definition continuationIdle (seen : observation) (threadID expected : string) : prog (res err unit) :=
  (try! state := ReadTurnState (ob_absent seen) threadID in
   if negb (IsLoadedFailedTurn state expected)
   then Ret (Err (EMsg "continuation requires the exact latest failed turn on a loaded quiescent thread")) else
   try! prompts := PromptsWithItems options fuel threadID (ob_prompts seen) in
   if negb (Nat.eqb (Datatypes.length prompts) 0)
   then Ret (Err (EMsg "continuation is blocked by pending requests")) else
   try! queue := ListQueue options fuel threadID in
   if negb (Nat.eqb (Datatypes.length queue) 0)
   then Ret (Err (EMsg "continuation is blocked by queued input"))
   else Ret (Ok tt))%codex.

Definition reconcileContinuation (threadID text id : string) (attempt : sendAttempt)
    : prog (res err (option SendReceipt)) :=
  bind (reconcileSend options fuel threadID text id attempt) (fun r =>
    Ret (match r with
         | Ok found => Ok found
         | Err e => if str_eqb (sa_State attempt) "submitting" && negb (asUnknownSend e)
                    then Err (EUnknownSend e) else Err e
         end)).

Definition preflightFailure (threadID text stableID actionContext digest : string) (preflightErr : err)
    : prog (res err SendReceipt) :=
  (try! latest := sendStateTx threadID stableID text actionContext digest in
   try! reconciled := reconcileContinuation threadID text stableID (ss_attempt latest) in
   match reconciled with
   | Some receipt => Ret (Ok receipt)
   | None => Ret (Err preflightErr)
   end)%codex.

(** The request and what follows it. *)
Definition submitContinuation (threadID text stableID actionContext : string) (n : normalizedTurnOptions)
    : prog (res err SendReceipt) :=
  let uncertain (requestErr : err) : prog (res err SendReceipt) :=
    bind (sendStateTx threadID stableID text actionContext (nt_Digest n)) (fun r =>
      match r with
      | Err _ => Ret (Err (EUnknownSend requestErr))
      | Ok state =>
        bind (reconcileContinuation threadID text stableID (ss_attempt state)) (fun r =>
          Ret (match r with Ok (Some receipt) => Ok receipt | _ => Err (EUnknownSend requestErr) end))
      end) in
  bind (requestWithAdmission options "turn/start" (AObj (startParams threadID text stableID n))
          (decField "turn" (decField "id" decString))
          (Some (claimTx threadID stableID text actionContext (nt_Digest n) false))) (fun '(claimed, r) =>
    match r, claimed with
    | Err e, None => preflightFailure threadID text stableID actionContext (nt_Digest n) e
    | Err e, Some claim =>
      if asUnwritten e || refusal e
      then restoreUnwrittenSendOutcome options fuel threadID text stableID actionContext (nt_Digest n) claim e
      else uncertain e
    | Ok turn, _ =>
      if is_empty turn then uncertain (EMsg "turn/start returned no turn")
      else finishAcceptedSend threadID (mkReceipt "" turn stableID false)
    end).

(** [first] and [second] are what the two observations find. *)
Definition ContinueFailedTurn (first second : observation)
    (threadID text stableID actionContext expectedFailedTurnID : string) (turn : TurnOptions)
    : prog (res err SendReceipt) :=
  if is_empty (trimSpace text) || is_empty stableID || is_empty actionContext || is_empty expectedFailedTurnID
  then Ret (Err (EMsg "continuation requires text and exact attempt, action and failed turn identities")) else
  match normalizeTurnOptions turn with
  | Err e => Ret (Err e)
  | Ok n =>
    (try! _ := lockContext in
     try! state := sendStateTx threadID stableID text actionContext (nt_Digest n) in
     if sa_Steered (ss_attempt state)
     then Ret (Err (EMsg "continuation identity belongs to a steered message")) else
     try! queued := queueAttemptTx threadID stableID text in
     if queued then Ret (Err (EMsg "continuation identity belongs to queued input")) else
     try! reconciled := reconcileContinuation threadID text stableID (ss_attempt state) in
     match reconciled with
     | Some receipt => Ret (Ok receipt)
     | None =>
       let failed := preflightFailure threadID text stableID actionContext (nt_Digest n) in
       let! idle := continuationIdle first threadID expectedFailedTurnID in
       match idle with
       | Err e => failed e
       | Ok _ =>
         let! resolved := requireSubmissionAttemptsExcept options fuel threadID false stableID in
         match resolved with
         | Err e => failed e
         | Ok _ =>
           try! _ := (if ss_found state then Ret (Ok tt)
                      else recordSendTx threadID stableID text actionContext false turn None) in
           let! again := continuationIdle second threadID expectedFailedTurnID in
           match again with
           | Err e => failed e
           | Ok _ => submitContinuation threadID text stableID actionContext n
           end
         end
       end
     end)%codex
  end.
End continuation.
