(* ===== verification/ContinuationFacts.v ===== *)
(** * Properties of continuing a failed turn

    A continuation is delivered at most once, only after two observations of
    the expected failure on a quiescent thread, and by [turn/start] alone. *)
From S2P Require Import Prelude GoStd GoValue TurnOptions Ledger LedgerFacts Store LedgerFile Locality SubmissionDb StoreFacts.
From S2P Require Import Program Wire History Delivery DeliveryFacts HistoryReader SendOutcome SendFacts Prompts Continuation.
From Stdlib Require Import String.
Open Scope Z_scope.

Lemma decThread_plain : decodes decThread.
Proof. apply decField_plain, decObject_plain. Qed.
Lemma decTurns_plain : decodes decTurns.
Proof. apply decField_plain, decNil_plain, decArray_plain, decObject_plain. Qed.
#[export] Hint Resolve decThread_plain decTurns_plain : codex.

Lemma resolveQueued_free attempts resolved entries : free (resolveQueued attempts resolved entries).
Proof.
  revert resolved. induction entries as [|e entries IH]; intros resolved; simpl; [done|].
  repeat cases; try done; apply IH.
Qed.
Lemma visitResolved_free attempts : visitFree (visitResolved attempts).
Proof.
  intros st entry. unfold visitResolved. destruct (negb _); [done|]. destruct (attempts !! _); [|done].
  apply free_bind; [apply entryText_free|]. intros x. apply free_bind; [by apply free_guard|]. done.
Qed.
Lemma visitWanted_free : visitFree visitWanted.
Proof. intros [wanted items] entry. done. Qed.
Lemma latestTurn_free state turn : free (latestTurn state turn).
Proof. unfold latestTurn. by destruct (_ || _). Qed.

Section quietness.
Context (options : clientOptions) (sources : list string) (fuel : nat) `{HistoryReaderLaws}.
Context {W E : Type} `{SubmissionStore W E} (rely : W → W → Prop).
Hypothesis (Htame : tame options).
Abbreviation quiet := (quiet rely).

Lemma quiet_ReadTurnState absent t : quiet (ReadTurnState sources absent t).
Proof.
  apply quiet_bindOk; [apply quiet_history; [set_solver|auto with codex]|]. intros thread.
  destruct (_ || _); [by apply quiet_ret|]. cbv zeta. destruct (negb _); [by apply quiet_ret|].
  apply quiet_bind; [apply quiet_history; [set_solver|auto with codex]|].
  intros [[[|turn [|]]|]|e] Hr; try (by apply quiet_ret).
  - destruct (str_eqb _ _); by apply quiet_ret.
  - apply quiet_ret, latestTurn_free.
  - destruct (freshThreadMissingSourceRollout _ _ _ _ _); by apply quiet_ret.
Qed.

Lemma quiet_PromptsWithItems t prompts : quiet (PromptsWithItems options fuel t prompts).
Proof using Htame.
  unfold PromptsWithItems. cbv zeta. destruct (Nat.eqb _ _); [by apply quiet_ret|].
  apply quiet_bindOk; [|intros items; by apply quiet_ret].
  unfold threadItems. destruct (Nat.eqb _ _); [by apply quiet_ret|].
  apply quiet_bindOk; [|intros [wanted items]; by apply quiet_ret].
  apply quiet_walkThreadItems; [done|apply visitWanted_free].
Qed.

Lemma quiet_continuationIdle seen t expected : quiet (continuationIdle options sources fuel seen t expected).
Proof using All.
  apply quiet_bindOk; [apply quiet_ReadTurnState|]. intros state. destruct (negb _); [by apply quiet_ret|].
  apply quiet_bindOk; [apply quiet_PromptsWithItems|]. intros prompts. destruct (negb _); [by apply quiet_ret|].
  apply quiet_bindOk; [by apply quiet_ListQueue|]. intros queue. destruct (negb _); by apply quiet_ret.
Qed.

Lemma quiet_requireSubmission t allowQueued own : quiet (requireSubmissionAttemptsExcept options fuel t allowQueued own).
Proof using Htame.
  apply quiet_bindOk; [apply quiet_readTx|]. intros deletions. destruct (negb _); [by apply quiet_ret|].
  apply quiet_bindOk; [apply quiet_readTx|]. intros [attempts unresolved]. destruct (0 <? unresolved); [by apply quiet_ret|].
  case_bool_decide; [by apply quiet_ret|]. apply quiet_bindOk.
  - destruct allowQueued; [|by apply quiet_ret]. apply quiet_bind; [by apply quiet_ListQueue|].
    intros [entries|e] Hr; apply quiet_ret; [apply resolveQueued_free|done].
  - intros resolved. apply quiet_bind; [apply quiet_walkThreadItems; [done|apply visitResolved_free]|].
    intros [resolved'|e] Hr; [|by apply quiet_ret]. simpl. repeat case_bool_decide; by apply quiet_ret.
Qed.

Lemma quiet_reconcileContinuation t text id attempt : quiet (reconcileContinuation options fuel t text id attempt).
Proof using Htame.
  apply quiet_bind; [by apply quiet_reconcileSend|]. intros [found|e] Hr; apply quiet_ret; [done|].
  by destruct (_ && _).
Qed.

Lemma quiet_preflightFailure t text id action digest e :
  notSentFree e = true → quiet (preflightFailure options fuel t text id action digest e).
Proof using Htame.
  intros He. apply quiet_bindOk; [apply quiet_readTx|]. intros latest.
  apply quiet_bindOk; [apply quiet_reconcileContinuation|]. intros [receipt|]; by apply quiet_ret.
Qed.

Lemma submitContinuation_spec t text id action n w tr :
  wp rely (submitContinuation options fuel t text id action n) w tr (fun _ tr' r => submission t id text action tr tr' r).
Proof using Htame.
  assert (∀ e w' tr', notSentFree e = true →
    wp rely (bind (sendStateTx t id text action (nt_Digest n)) (fun r =>
      match r with
      | Err _ => Ret (Err (EUnknownSend e))
      | Ok state =>
        bind (reconcileContinuation options fuel t text id (ss_attempt state)) (fun r =>
          Ret (match r with Ok (Some receipt) => Ok receipt | _ => Err (EUnknownSend e) end))
      end)) w' tr' (fun _ tr'' r => quietly tr' tr'' ∧ free r)) as Huncertain.
  { intros e w' tr' He. apply quiet_bind; [apply quiet_readTx|]. intros [state|x] Hr; [|by apply quiet_ret].
    apply quiet_bind; [apply quiet_reconcileContinuation|]. intros [[receipt|]|x] Hr'; by apply quiet_ret. }
  unfold submitContinuation. eapply submit_spec; [by left|apply start_addressed|auto with codex|..].
  - intros w' tr' claim w1 e r w2 _ _ Hr. split; [auto with codex|]. eexists. split; [done|]. by exists claim.
  - intros [claim|] x Hx w' tr'.
    + destruct (asUnwritten x || refusal x); [by apply restoreUnwritten_history|].
      eapply wp_mono; [|by apply Huncertain]. intros w'' tr'' r [(evs & -> & Hs) Hf]. by exists evs.
    + eapply wp_mono; [|by apply quiet_preflightFailure]. intros w'' tr'' r [(evs & -> & Hs) _]. by exists evs.
  - intros b turn. destruct (is_empty turn); [intros w' tr'; by apply Huncertain|apply quiet_finish].
Qed.
End quietness.

(** ** What an observation saw *)

(** The client held no prompts; App Server reported the thread idle or in system
    error, its latest turn as the expected failure, and an empty queue. *)
Definition emptyPage (ev : event) : Prop :=
  ∃ params v next, ev = EvWire "thread/queue/list" params (Replied v) ∧ decPage decSubmission v = Ok (Some [], next).
Definition failedTurn (t expected : string) (evs : list event) : Prop :=
  ∃ p1 p2 v1 v2 thread turn,
    evs = [EvWire "thread/read" p1 (Replied v1); EvWire "thread/turns/list" p2 (Replied v2)] ∧
    decThread v1 = Ok thread ∧ stringValue (field "id" thread) = t ∧
    statusValue (field "status" thread) ∈ ["idle"; "systemError"] ∧
    decTurns v2 = Ok (Some [turn]) ∧ stringValue (field "id" turn) = expected ∧
    stringValue (field "status" turn) = "failed".
Definition idleSeen (seen : observation) (t expected : string) (evs : list event) : Prop :=
  ob_prompts seen = [] ∧ ∃ head pages, evs = head ++ pages ∧ failedTurn t expected head ∧ pages ≠ [] ∧ Forall emptyPage pages.

Lemma failedTurn_silent t expected evs : failedTurn t expected evs → silent evs.
Proof. intros (p1 & p2 & v1 & v2 & thread & turn & -> & _). by repeat constructor. Qed.
Lemma idleSeen_silent seen t expected evs : idleSeen seen t expected evs → silent evs.
Proof.
  intros (_ & head & pages & -> & Hh & _ & Hp). apply Forall_app. split; [by eapply failedTurn_silent|].
  eapply Forall_impl; [exact Hp|]. by intros ev (ps & v & next & -> & _).
Qed.

Section observing.
Context (options : clientOptions) (sources : list string) (fuel : nat) `{HistoryReaderLaws}.
Context {W E : Type} `{SubmissionStore W E} (rely : W → W → Prop).
Hypothesis (Htame : tame options).

Lemma latestTurn_ok state turn s :
  latestTurn state turn = Ok s →
  ts_Status s = ts_Status state ∧ ts_LatestTurnID s = stringValue (field "id" turn) ∧
  ts_LatestTurnStatus s = stringValue (field "status" turn).
Proof. unfold latestTurn. destruct (_ || _); [done|]. by intros [= <-]. Qed.

Lemma ReadTurnState_seen absent t expected w tr :
  wp rely (ReadTurnState sources absent t) w tr (fun _ tr' r => ∀ s, r = Ok s → IsLoadedFailedTurn s expected = true →
    ∃ evs, tr' = tr ++ evs ∧ failedTurn t expected evs).
Proof.
  apply wp_bindOk. eapply wp_mono; [|apply history_asked; [set_solver|auto with codex]].
  intros w1 tr1 [thread|e] [[[_ Hn]|(p1 & reply & -> & Hx)] _]; try done.
  destruct (Hx thread eq_refl) as (v1 & -> & Hv1). destruct (_ || _) eqn:Eid; [done|]. bools. cbv zeta.
  destruct (negb _); [done|]. apply wp_bind.
  eapply wp_mono; [|apply history_asked; [set_solver|auto with codex]].
  assert (∀ st, ts_LatestTurnID st = "" → ∀ s, @Ok err TurnState st = Ok s → IsLoadedFailedTurn s expected = true → False) as Hblank.
  { intros st Hst s [= <-]. unfold IsLoadedFailedTurn. rewrite Hst. intros. bools. by subst. }
  intros w2 tr2 [[[|turn [|]]|]|e] [Hask _]; try (by intros s).
  - destruct (str_eqb _ _); [done|]. intros s Hs Hl. by destruct (Hblank (mkTurnState t _ "" "" None) eq_refl s Hs Hl).
  - destruct Hask as [[_ Hn]|(p2 & reply & -> & Hy)]; [done|]. intros s Hs Hl.
    destruct (Hy _ eq_refl) as (v2 & -> & Hv2). destruct (latestTurn_ok _ _ _ Hs) as (E1 & E2 & E3).
    unfold IsLoadedFailedTurn in Hl. rewrite E1, E2, E3 in Hl. bools. simpl in *.
    eexists. rewrite <-app_assoc. split; [done|]. exists p1, p2, v1, v2, thread, turn.
    split_and!; try done.
    match goal with K : _ || _ = true |- _ => apply orb_true_iff in K as [?|?]; bools; set_solver end.
  - destruct (freshThreadMissingSourceRollout _ _ _ _ _); [|done]. intros s Hs Hl. by destruct (Hblank (mkTurnState t _ "" "" None) eq_refl s Hs Hl).
Qed.

Lemma queueEntries_grow data seen entries seen' entries' :
  queueEntries data seen entries = Ok (seen', entries') → entries' = [] → data = [] ∧ entries = [].
Proof.
  revert seen entries. induction data as [|s data IH]; intros seen entries Hq Hn; simpl in Hq; [by simplify_eq|].
  destruct (_ || _); [done|]. destruct (str_in _ _); [done|]. exfalso. destruct (IH _ _ Hq Hn) as [_ Hc].
  by destruct entries.
Qed.

Lemma queuePages_empty n t cursor cursors seen entries w tr :
  wp rely (queuePages options n t cursor cursors seen entries) w tr (fun _ tr' r => r = Ok [] →
    entries = [] ∧ ∃ pages, tr' = tr ++ pages ∧ pages ≠ [] ∧ Forall emptyPage pages).
Proof.
  revert cursor cursors seen entries w tr. induction n as [|n IH]; intros; cbn [queuePages]; [done|].
  apply wp_bindOk. eapply wp_mono; [|by apply Request_asked].
  intros w1 tr1 [[data next]|e] [[_ Hn]|(ps & reply & -> & Hx)]; try done.
  destruct (Hx _ eq_refl) as (v & -> & Hv). destruct data as [data|]; [|done].
  destruct (queueEntries data seen entries) as [[seen' entries']|] eqn:Eq; [|done].
  assert (entries' = [] → emptyPage (EvWire "thread/queue/list" ps (Replied v)) ∧ entries = []) as Hpage.
  { intros Hn. destruct (queueEntries_grow _ _ _ _ _ Eq Hn) as [-> ->]. split; [|done]. by exists ps, v, next. }
  destruct next as [next|].
  - destruct (is_empty next); [done|]. destruct (str_in _ _); [done|]. eapply wp_mono, IH.
    intros w2 tr2 r Hr Hok. destruct (Hr Hok) as (Hn & pages & -> & _ & Hp). destruct (Hpage Hn) as [He ->].
    split; [done|]. eexists (_ :: pages). rewrite <-app_assoc. split_and!; [done|done|]. by constructor.
  - intros [= Hn]. destruct (Hpage Hn) as [He ->]. split; [done|]. eexists [_]. split_and!; [done|done|]. by repeat constructor.
Qed.

(** With prompts to show there is something to wait for. *)
Lemma PromptsWithItems_empty t prompts w tr :
  wp rely (PromptsWithItems options fuel t prompts) w tr (fun _ tr' r => ∀ ps, r = Ok ps →
    Datatypes.length ps = Datatypes.length prompts ∧ (prompts = [] → tr' = tr)).
Proof using Htame.
  unfold PromptsWithItems. cbv zeta. destruct (Nat.eqb _ _) eqn:Ei; [by intros ps [= <-]|].
  apply wp_bindOk. eapply wp_mono; [|by apply wp_true]. intros w1 tr1 [items|e] _; [|done].
  intros ps [= <-]. rewrite length_fmap. split; [done|]. by intros ->.
Qed.

Lemma continuationIdle_seen seen t expected w tr :
  wp rely (continuationIdle options sources fuel seen t expected) w tr (fun _ tr' r => r = Ok tt →
    ∃ evs, tr' = tr ++ evs ∧ idleSeen seen t expected evs).
Proof using All.
  apply wp_bindOk. eapply wp_mono; [|apply (ReadTurnState_seen (ob_absent seen) t expected)].
  intros w1 tr1 [state|e] Hstate; [|done]. destruct (negb _) eqn:El; [done|]. bools.
  destruct (Hstate _ eq_refl El) as (head & -> & Hhead). clear Hstate.
  apply wp_bindOk. eapply wp_mono; [|apply PromptsWithItems_empty].
  intros w2 tr2 [prompts|e] Hp; [|done]. destruct (Hp _ eq_refl) as [Hlen Htr].
  destruct (Nat.eqb _ _) eqn:En; [|done]. simpl negb. cbv iota. apply Nat.eqb_eq in En. rewrite En in Hlen.
  symmetry in Hlen. apply nil_length_inv in Hlen. rewrite Htr by done.
  apply wp_bindOk. eapply wp_mono; [|apply queuePages_empty].
  intros w3 tr3 [queue|e] Hq; [|done]. destruct queue as [|q queue]; [|done]. simpl negb. cbv iota. intros _.
  destruct (Hq eq_refl) as (_ & pages & -> & Hne & Hpages). eexists. rewrite <-app_assoc. split; [done|].
  split; [done|]. by exists head, pages.
Qed.
End observing.

(** ** A whole call *)

(** Nothing notable, or: two observations of the failure, the second directly
    before the claim, and what follows a claim. *)
Definition continued {A} (first second : observation) (t id text action expected : string)
    (tr tr' : list event) (r : res err A) : Prop :=
  quietly tr tr' ∨
  ∃ pre a mid b claim digest steered evs,
    tr' = tr ++ pre ++ a ++ mid ++ b ++ EvTx (Some (OpClaim t id claim text action digest steered)) true :: evs ∧
    silent pre ∧ idleSeen first t expected a ∧ silent mid ∧ idleSeen second t expected b ∧ submitted t id text r evs.

(** The same after the first observation. *)
Definition observed {A} (second : observation) (t id text action expected : string)
    (tr tr' : list event) (r : res err A) : Prop :=
  quietly tr tr' ∨
  ∃ mid b claim digest steered evs,
    tr' = tr ++ mid ++ b ++ EvTx (Some (OpClaim t id claim text action digest steered)) true :: evs ∧
    silent mid ∧ idleSeen second t expected b ∧ submitted t id text r evs.

Lemma quietly_continued {A} first second t id text action expected a b c (r : res err A) :
  quietly a b → continued first second t id text action expected b c r →
  continued first second t id text action expected a c r.
Proof.
  intros Hq [Hs|(pre & x & mid & y & claim & d & s & evs & -> & Hpre & Hx & Hmid & Hy & Hsub)];
    [left; by eapply quietly_trans|]. right.
  destruct Hq as (evs' & -> & Hevs). exists (evs' ++ pre), x, mid, y, claim, d, s, evs.
  rewrite <-!app_assoc. split_and!; try done. by apply Forall_app.
Qed.
Lemma quietly_observed {A} second t id text action expected a b c (r : res err A) :
  quietly a b → observed second t id text action expected b c r → observed second t id text action expected a c r.
Proof.
  intros Hq [Hs|(mid & y & claim & d & s & evs & -> & Hmid & Hy & Hsub)]; [left; by eapply quietly_trans|]. right.
  destruct Hq as (evs' & -> & Hevs). exists (evs' ++ mid), y, claim, d, s, evs.
  rewrite <-!app_assoc. split_and!; try done. by apply Forall_app.
Qed.
Lemma continued_history {A} first second t id text action expected tr tr' (r : res err A) :
  continued first second t id text action expected tr tr' r → sendHistory t id text action tr tr' r.
Proof.
  intros [Hq|(pre & x & mid & y & claim & d & s & evs & -> & Hpre & Hx & Hmid & Hy & Hsub)]; [by left|]. right.
  exists (pre ++ x ++ mid ++ y), claim, d, s, evs. rewrite <-!app_assoc. split_and!; try done.
  repeat (apply Forall_app; split; [done || by eapply idleSeen_silent|]). by eapply idleSeen_silent.
Qed.

Section calls.
Context (options : clientOptions) (sources : list string) (fuel : nat) `{HistoryReaderLaws}.
Context {W E : Type} `{SubmissionStore W E} (rely : W → W → Prop).
Hypothesis (Htame : tame options).

(** Both facts about an observation at once. *)
Lemma continuationIdle_both seen t expected w tr :
  wp rely (continuationIdle options sources fuel seen t expected) w tr (fun _ tr' r =>
    (quietly tr tr' ∧ free r) ∧ (r = Ok tt → ∃ evs, tr' = tr ++ evs ∧ idleSeen seen t expected evs)).
Proof using All. apply wp_and; [by apply quiet_continuationIdle|by apply continuationIdle_seen]. Qed.

Lemma second_observed second t id text action expected n digest w tr :
  wp rely (bind (continuationIdle options sources fuel second t expected) (fun r =>
    match r with
    | Err e => preflightFailure options fuel t text id action digest e
    | Ok _ => submitContinuation options fuel t text id action n
    end)) w tr (fun _ tr' r => observed second t id text action expected tr tr' r).
Proof using All.
  apply wp_bind. eapply wp_mono; [|apply continuationIdle_both]. intros w1 tr1 [[]|e] [[Hq Hf] Hseen].
  - destruct (Hseen eq_refl) as (b & -> & Hb). eapply wp_mono; [|by apply submitContinuation_spec].
    intros w2 tr2 r [Hq'|(claim & d & s & evs & -> & Hsub)]; [left; by eapply quietly_trans|]. right.
    exists [], b, claim, d, s, evs. rewrite <-app_assoc. split_and!; try done. constructor.
  - eapply wp_mono; [|by apply quiet_preflightFailure]. intros w2 tr2 r [Hq' _]. left. by eapply quietly_trans.
Qed.

Lemma observed_bind {A} (m : prog (res err A)) f second t id text action expected w tr :
  quiet rely m →
  (∀ r w' tr', free r → wp rely (f r) w' tr' (fun _ tr'' r' => observed second t id text action expected tr' tr'' r')) →
  wp rely (bind m f) w tr (fun _ tr' (r : res err SendReceipt) => observed second t id text action expected tr tr' r).
Proof.
  intros Hm Hf. apply wp_bind. eapply wp_mono, Hm. intros w' tr' r [Hq Hr].
  eapply wp_mono, Hf, Hr. intros w'' tr'' r'. by apply quietly_observed.
Qed.
Lemma continued_bind {A} (m : prog (res err A)) f first second t id text action expected w tr :
  quiet rely m →
  (∀ r w' tr', free r → wp rely (f r) w' tr' (fun _ tr'' r' => continued first second t id text action expected tr' tr'' r')) →
  wp rely (bind m f) w tr (fun _ tr' (r : res err SendReceipt) => continued first second t id text action expected tr tr' r).
Proof.
  intros Hm Hf. apply wp_bind. eapply wp_mono, Hm. intros w' tr' r [Hq Hr].
  eapply wp_mono, Hf, Hr. intros w'' tr'' r'. by apply quietly_continued.
Qed.

Lemma ContinueFailedTurn_continued first second t text id action expected turn w tr :
  wp rely (ContinueFailedTurn options sources fuel first second t text id action expected turn) w tr
    (fun _ tr' r => continued first second t id text action expected tr tr' r).
Proof using All.
  assert (∀ tr (r : res err SendReceipt), continued first second t id text action expected tr tr r) as Hstop
    by (intros; left; apply quietly_refl).
  unfold ContinueFailedTurn. destruct (_ || _); [apply Hstop|].
  destruct (normalizeTurnOptions turn) as [n|e]; [|apply Hstop].
  apply continued_bind; [apply quiet_lock|]. intros [u|e] w1 tr1 _; [|apply Hstop].
  apply continued_bind; [apply quiet_readTx|]. intros [state|e] w2 tr2 _; [|apply Hstop].
  destruct (sa_Steered (ss_attempt state)); [apply Hstop|].
  apply continued_bind; [apply quiet_readTx|]. intros [queued|e] w3 tr3 _; [|apply Hstop].
  destruct queued; [apply Hstop|].
  apply continued_bind; [by apply quiet_reconcileContinuation|].
  intros [[receipt|]|e] w4 tr4 _; [apply Hstop| |apply Hstop]. cbv zeta.
  apply wp_bind. eapply wp_mono; [|apply continuationIdle_both]. intros w5 tr5 [[]|e] [[Hq Hf] Hseen].
  2: { eapply wp_mono; [|by apply quiet_preflightFailure]. intros w6 tr6 r [Hq' _]. left. by eapply quietly_trans. }
  destruct (Hseen eq_refl) as (a & -> & Ha). eapply (wp_mono _ _ _ _ (fun _ tr' r => observed second t id text action expected (tr4 ++ a) tr' r)).
  { intros w6 tr6 r [Hq'|(mid & b & claim & d & s & evs & -> & Hmid & Hb & Hsub)]; [left; by eapply quietly_trans|]. right.
    exists [], a, mid, b, claim, d, s, evs. rewrite <-app_assoc. split_and!; try done. constructor. }
  apply observed_bind; [by apply quiet_requireSubmission|]. intros [u'|e] w6 tr6 Hf6.
  2: { eapply wp_mono; [|by apply quiet_preflightFailure]. intros w7 tr7 r [Hq' _]. by left. }
  apply observed_bind; [destruct (ss_found state); [by apply quiet_ret|by apply quiet_runTx]|].
  intros [u''|e] w7 tr7 _; [apply second_observed|left; apply quietly_refl].
Qed.
End calls.

(** ** The methods a program uses *)

Definition wireIn (methods : list string) (ev : event) : Prop :=
  match ev with EvWire m _ _ => m ∈ methods | EvTx _ _ => True end.
Definition continuationMethods : list string :=
  ["thread/read"; "thread/turns/list"; "thread/items/list"; "thread/queue/list"; "turn/start"].

Section methods.
Context (options : clientOptions) (sources : list string) (fuel : nat) `{HistoryReaderLaws}.
Context {W E : Type} `{SubmissionStore W E} (rely : W → W → Prop) (methods : list string).
Hypothesis (Hmethods : continuationMethods ⊆ methods).

Definition uses {A} (m : prog A) : Prop :=
  ∀ w tr, wp rely m w tr (fun _ tr' _ => ∃ evs, tr' = tr ++ evs ∧ Forall (wireIn methods) evs).

Lemma uses_ret {A} (a : A) : uses (Ret a).
Proof. intros w tr. exists []. by rewrite app_nil_r; split; [|constructor]. Qed.
Lemma uses_bind {A C} (m : prog A) (f : A → prog C) : uses m → (∀ a, uses (f a)) → uses (bind m f).
Proof.
  intros Hm Hf w tr. apply wp_bind. eapply wp_mono, Hm. intros w1 tr1 a (evs & -> & Hevs).
  eapply wp_mono, Hf. intros w2 tr2 c (evs' & -> & Hevs'). exists (evs ++ evs'). rewrite app_assoc.
  split; [done|]. by apply Forall_app.
Qed.
Lemma uses_bindOk {A C} (m : prog (res err A)) (f : A → prog (res err C)) : uses m → (∀ a, uses (f a)) → uses (bindOk m f).
Proof. intros Hm Hf. apply uses_bind; [done|]. intros [a|e]; [apply Hf|apply uses_ret]. Qed.
Lemma uses_ctx {A} (k : option err → prog A) : (∀ o, uses (k o)) → uses (Ctx k).
Proof. intros Hk w tr o _. apply Hk. Qed.
Lemma uses_tx {A} op s (p : Ledger → plan A) : uses (Tx op s p (@Ret (res err A))).
Proof. intros w tr w1 e r w2 _ _ _. eexists. split; [done|]. by repeat constructor. Qed.
Lemma uses_request {T} method params (decode : any → res err T) :
  method ∈ methods → str_in method ["thread/start"; "thread/resume"; "thread/fork"] = false →
  uses (Request options method params decode).
Proof.
  intros Hm Hd w tr. eapply wp_mono; [|by apply Request_asked].
  intros w' tr' r [[-> _]|(ps & reply & -> & _)]; [apply (uses_ret r w tr)|]. eexists. split; [done|]. by repeat constructor.
Qed.
Lemma uses_history {T} method params (decode : any → res err T) :
  method ∈ historyMethods → decodes decode → uses (historyRequest method params decode).
Proof using All.
  intros Hm Hd w tr. eapply wp_mono; [|by apply history_asked].
  intros w' tr' r [[[-> _]|(ps & reply & -> & _)] _]; [apply (uses_ret r w tr)|]. eexists. split; [done|].
  repeat constructor. simpl. apply Hmethods. unfold historyMethods, continuationMethods in *. set_solver.
Qed.

Lemma uses_walk {S} n t (visit : S → threadItemEntry → res err (bool * S)) cursor cursors seen st :
  uses (walkPages options n t visit cursor cursors seen st).
Proof using All.
  revert cursor cursors seen st. induction n as [|n IH]; intros; cbn [walkPages]; [apply uses_ret|].
  apply uses_bindOk; [apply uses_request; [set_solver|done]|]. intros [[data|] next]; [|apply uses_ret].
  destruct (walkEntries visit data seen st) as [[[[] seen'] st']|]; [apply uses_ret| |apply uses_ret].
  destruct next as [next|]; [|apply uses_ret]. destruct (is_empty next); [apply uses_ret|].
  destruct (str_in _ _); [apply uses_ret|apply IH].
Qed.
Lemma uses_queue n t cursor cursors seen entries : uses (queuePages options n t cursor cursors seen entries).
Proof using All.
  revert cursor cursors seen entries. induction n as [|n IH]; intros; cbn [queuePages]; [apply uses_ret|].
  apply uses_bindOk; [apply uses_request; [set_solver|done]|]. intros [[data|] next]; [|apply uses_ret].
  destruct (queueEntries data seen entries) as [[seen' entries']|]; [|apply uses_ret].
  destruct next as [next|]; [|apply uses_ret]. destruct (is_empty next); [apply uses_ret|].
  destruct (str_in _ _); [apply uses_ret|apply IH].
Qed.

Lemma uses_reconcile t text id attempt : uses (reconcileContinuation options fuel t text id attempt).
Proof using All.
  apply uses_bind; [|intros [found|e]; apply uses_ret]. unfold reconcileSend.
  destruct (str_eqb _ "accepted"); [apply uses_ret|]. destruct (str_eqb _ _); [|apply uses_ret].
  apply uses_bindOk; [apply uses_walk|]. intros [receipt|]; [|apply uses_ret].
  apply uses_bind; [apply uses_tx|]. intros r. apply uses_ret.
Qed.
Lemma uses_preflight t text id action digest e : uses (preflightFailure options fuel t text id action digest e).
Proof using All.
  apply uses_bindOk; [apply uses_tx|]. intros state. apply uses_bindOk; [apply uses_reconcile|]. intros [receipt|]; apply uses_ret.
Qed.

Lemma uses_idle seen t expected : uses (continuationIdle options sources fuel seen t expected).
Proof using All.
  apply uses_bindOk.
  - apply uses_bindOk; [apply uses_history; [set_solver|auto with codex]|]. intros thread.
    destruct (_ || _); [apply uses_ret|]. cbv zeta. destruct (negb _); [apply uses_ret|].
    apply uses_bind; [apply uses_history; [set_solver|auto with codex]|].
    intros [[[|turn [|]]|]|e]; try apply uses_ret; [destruct (str_eqb _ _)|destruct (freshThreadMissingSourceRollout _ _ _ _ _)];
      apply uses_ret.
  - intros state. destruct (negb _); [apply uses_ret|]. apply uses_bindOk.
    + unfold PromptsWithItems. cbv zeta. destruct (Nat.eqb _ _); [apply uses_ret|].
      apply uses_bindOk; [|intros items; apply uses_ret]. unfold threadItems. destruct (Nat.eqb _ _); [apply uses_ret|].
      apply uses_bindOk; [apply uses_walk|]. intros [wanted items]. apply uses_ret.
    + intros prompts. destruct (negb _); [apply uses_ret|]. apply uses_bindOk; [apply uses_queue|].
      intros queue. destruct (negb _); apply uses_ret.
Qed.

Lemma uses_require t allowQueued own : uses (requireSubmissionAttemptsExcept options fuel t allowQueued own).
Proof using All.
  apply uses_bindOk; [apply uses_tx|]. intros deletions. destruct (negb _); [apply uses_ret|].
  apply uses_bindOk; [apply uses_tx|]. intros [attempts unresolved]. destruct (0 <? unresolved); [apply uses_ret|].
  case_bool_decide; [apply uses_ret|]. apply uses_bindOk.
  - destruct allowQueued; [|apply uses_ret]. apply uses_bind; [apply uses_queue|]. intros r. apply uses_ret.
  - intros resolved. apply uses_bind; [apply uses_walk|].
    intros [resolved'|e]; [|apply uses_ret]. simpl. repeat case_bool_decide; apply uses_ret.
Qed.

Lemma uses_unwritten t text id action digest absent e : uses (unwrittenSendOutcome options fuel t text id action digest absent e).
Proof using All.
  apply uses_bind; [apply uses_tx|]. intros [state|x]; [|apply uses_ret]. destruct (_ && _); [apply uses_ret|].
  destruct (_ && _); [|apply uses_ret]. apply uses_bind; [|intros r; apply uses_ret].
  unfold reconcileSend. destruct (str_eqb _ "accepted"); [apply uses_ret|]. destruct (str_eqb _ _); [|apply uses_ret].
  apply uses_bindOk; [apply uses_walk|]. intros [receipt|]; [|apply uses_ret].
  apply uses_bind; [apply uses_tx|]. intros r. apply uses_ret.
Qed.

Lemma uses_submit t text id action n : uses (submitContinuation options fuel t text id action n).
Proof using All.
  assert (∀ e, uses (bind (sendStateTx t id text action (nt_Digest n)) (fun r =>
      match r with
      | Err _ => Ret (Err (EUnknownSend e))
      | Ok state =>
        bind (reconcileContinuation options fuel t text id (ss_attempt state)) (fun r =>
          Ret (match r with Ok (Some receipt) => Ok receipt | _ => Err (EUnknownSend e) end))
      end))) as Huncertain.
  { intros e. apply uses_bind; [apply uses_tx|]. intros [state|x]; [|apply uses_ret].
    apply uses_bind; [apply uses_reconcile|]. intros r. apply uses_ret. }
  apply uses_bind.
  - intros w tr. eapply wp_mono; [|apply (requestWithAdmission_spec rely options "turn/start" _ _ _
      (fun evs _ => Forall (wireIn methods) evs)); [by left|auto with codex|]].
    + intros w' tr' [b r]. destruct 1; [apply (uses_ret tt w tr)|eexists; split; [done|]..];
        try apply Forall_app; split_and?; try done; repeat constructor; simpl; apply Hmethods; set_solver.
    + intros w1 claim w2 e r w3 _ _ Hr. split; [auto with codex|]. eexists. split; [done|]. by repeat constructor.
  - intros [[claim|] [turn'|e]].
    + destruct (is_empty turn'); [apply Huncertain|]. apply uses_bind; [apply uses_tx|]. intros r. apply uses_ret.
    + destruct (_ || _); [|apply Huncertain]. apply uses_bind; [apply uses_tx|]. intros r. apply uses_unwritten.
    + destruct (is_empty turn'); [apply Huncertain|]. apply uses_bind; [apply uses_tx|]. intros r. apply uses_ret.
    + apply uses_preflight.
Qed.

Lemma uses_ContinueFailedTurn first second t text id action expected turn :
  uses (ContinueFailedTurn options sources fuel first second t text id action expected turn).
Proof using All.
  unfold ContinueFailedTurn. destruct (_ || _); [apply uses_ret|].
  destruct (normalizeTurnOptions turn) as [n|e]; [|apply uses_ret].
  apply uses_bindOk; [apply uses_ctx; intros o; apply uses_ret|]. intros _.
  apply uses_bindOk; [apply uses_tx|]. intros state. destruct (sa_Steered (ss_attempt state)); [apply uses_ret|].
  apply uses_bindOk; [apply uses_tx|]. intros queued. destruct queued; [apply uses_ret|].
  apply uses_bindOk; [apply uses_reconcile|]. intros [receipt|]; [apply uses_ret|]. cbv zeta.
  apply uses_bind; [apply uses_idle|]. intros [u|e]; [|apply uses_preflight].
  apply uses_bind; [apply uses_require|]. intros [u'|e]; [|apply uses_preflight].
  apply uses_bindOk; [destruct (ss_found state); [apply uses_ret|apply uses_tx]|]. intros _.
  apply uses_bind; [apply uses_idle|]. intros [u''|e]; [apply uses_submit|apply uses_preflight].
Qed.
End methods.

(** ** Theorems *)

Section theorems.
Context (options : clientOptions) (sources : list string) (fuel : nat) `{HistoryReaderLaws}.
Context {W E : Type} `{SubmissionStore W E} (rely : W → W → Prop).

(** C26. A continuation only follows the failure it names: a call hands over its
    message at most once, and then it had seen, twice, the thread loaded and
    quiescent with exactly the expected failed turn as its latest, no pending
    prompt and an empty queue; the second time directly before the durable
    claim the message was handed over under. *)
Theorem continuation_observed first second t text id action expected turn w tr :
  tame options →
  wp rely (ContinueFailedTurn options sources fuel first second t text id action expected turn) w tr (fun _ tr' _ =>
    ∃ evs, tr' = tr ++ evs ∧ (Datatypes.length (deliveries evs) ≤ 1)%nat ∧
      ∀ ev, ev ∈ evs → isDelivery ev = true →
        ∃ pre a mid b claim post, evs = pre ++ a ++ mid ++ b ++ claim :: ev :: post ∧
          isClaimOf t id claim = true ∧ idleSeen first t expected a ∧ idleSeen second t expected b).
Proof.
  intros Ht. eapply wp_mono; [|by apply ContinueFailedTurn_continued].
  intros w' tr' r [(evs & -> & Hs)|(pre & a & mid & b & claim & d & s & evs & -> & Hpre & Ha & Hmid & Hb & Hsub)].
  { exists evs. split_and!; [done|rewrite silent_deliveries by done; simpl; lia|].
    intros ev (i & Hi)%list_elem_of_lookup_1 Hd. by rewrite (silent_no_delivery _ _ _ Hs Hi) in Hd. }
  eexists. split; [done|].
  assert (silent (pre ++ a ++ mid ++ b)) as Hsil.
  { repeat (apply Forall_app; split; [done || by eapply idleSeen_silent|]). by eapply idleSeen_silent. }
  destruct (claimed_events t id text action _ claim d s r evs Hsil Hsub) as [Hdel _]. rewrite <-!app_assoc in Hdel.
  rewrite Hdel. clear Hdel.
  assert (∀ ev, ev ∈ pre ++ a ++ mid ++ b ++ EvTx (Some (OpClaim t id claim text action d s)) true :: evs →
    isDelivery ev = true → ev ∈ evs) as Hin.
  { intros ev Hev Hd. replace (pre ++ a ++ mid ++ b ++ EvTx (Some (OpClaim t id claim text action d s)) true :: evs) with ((pre ++ a ++ mid ++ b) ++ EvTx (Some (OpClaim t id claim text action d s)) true :: evs) in Hev
      by (by rewrite <-!app_assoc).
    apply elem_of_app in Hev as [(i & Hi)%list_elem_of_lookup_1|Hev]; [by rewrite (silent_no_delivery _ _ _ Hsil Hi) in Hd|].
    apply elem_of_cons in Hev as [->|Hev]; [discriminate|done]. }
  destruct (submitted_deliveries _ _ _ _ _ Hsub) as [[-> Hn]|(m & ps & reply & rest & -> & -> & _ & Hn & _)].
  - split; [simpl; lia|]. intros ev Hev Hd. apply Hin in Hev as (i & Hi)%list_elem_of_lookup_1; [|done].
    by rewrite (Hn _ _ Hi) in Hd.
  - split; [simpl; lia|]. intros ev Hev Hd. apply Hin in Hev; [|done].
    apply elem_of_cons in Hev as [->|(i & Hi)%list_elem_of_lookup_1]; [|by rewrite (Hn _ _ Hi) in Hd].
    exists pre, a, mid, b. eexists. exists rest. split_and!; try done. simpl. by rewrite !str_eqb_refl.
Qed.

(** A continuation never resumes, steers, updates policy or starts queued
    work: whatever happens, the only requests a call makes are reads of the
    thread, its turns, items and queue, and [turn/start]. *)
Theorem continuation_only_starts first second t text id action expected turn w tr :
  wp rely (ContinueFailedTurn options sources fuel first second t text id action expected turn) w tr (fun _ tr' _ =>
    ∃ evs, tr' = tr ++ evs ∧
      ∀ m params reply, EvWire m params reply ∈ evs →
        m ∈ ["thread/read"; "thread/turns/list"; "thread/items/list"; "thread/queue/list"; "turn/start"]).
Proof.
  eapply wp_mono; [|by apply uses_ContinueFailedTurn]. intros w' tr' r (evs & -> & Hevs). exists evs. split; [done|].
  intros m ps reply Hin. rewrite Forall_forall in Hevs. exact (Hevs _ Hin).
Qed.
End theorems.

(** ** A concrete continuation *)

Definition quietThread : observation := mkObservation [] (fun _ => false).
Definition demoContinue : prog (res err SendReceipt) :=
  ContinueFailedTurn (H := ownReader demoOptions) demoOptions ["cli"] 4 quietThread quietThread
    "thread" "go on" "continuation" "continue:turn-1" "turn-1" zeroOptions.
Definition idleAnswers : list (answer dbEnv) :=
  [OnNet idleNet; OnWire (Replied (AObj [("thread", AObj [("id", AStr "thread"); ("status", AObj [("type", AStr "idle")])])]));
   OnNet idleNet; OnWire (Replied (AObj [("data", AArr [AObj [("id", AStr "turn-1"); ("status", AStr "failed")]])]));
   OnNet idleNet; OnWire (Replied (AObj [("data", AArr [])]))].
Definition continuing : list (answer dbEnv) :=
  [OnCtx None; OnTx calm; OnTx calm] ++ idleAnswers ++ [OnTx calm; OnTx calm; OnTx calm] ++ idleAnswers ++
  [OnNet idleNet; OnFresh "claim"; OnTx calm; OnWire (Replied (AObj [("turn", AObj [("id", AStr "turn-2")])])); OnTx calm].

Lemma continuing_summary : summary (drive demoContinue continuing (∅ : database) []) = Some (true, false, 1%nat).
Proof. vm_compute. reflexivity. Qed.
Lemma continuing_plain : plainRun demoContinue continuing (∅ : database).
Proof. vm_compute. repeat split. Qed.

Lemma continuation_observed_witness :
  match drive demoContinue continuing (∅ : database) [] with
  | Some (r, _, tr) => is_ok r = true ∧ Datatypes.length (deliveries tr) = 1%nat ∧
      ∀ ev, ev ∈ tr → isDelivery ev = true →
        ∃ pre a mid b claim post, tr = pre ++ a ++ mid ++ b ++ claim :: ev :: post ∧
          isClaimOf "thread" "continuation" claim = true ∧
          idleSeen quietThread "thread" "turn-1" a ∧ idleSeen quietThread "thread" "turn-1" b
  | None => False
  end.
Proof.
  pose proof continuing_summary as Hs.
  destruct (drive demoContinue continuing (∅ : database) []) as [[[r db] tr]|] eqn:Ed; [|discriminate Hs].
  injection Hs as Hok _ Hlen.
  destruct (drive_sound others _ _ _ _ _ _ _ _ (fun _ => eq_refl)
    (@continuation_observed demoOptions ["cli"] 4 (ownReader demoOptions) (ownReader_laws demoOptions demo_tame)
       database dbEnv db_store others quietThread quietThread
       "thread" "go on" "continuation" "continue:turn-1" "turn-1" zeroOptions ∅ [] demo_tame)
    continuing_plain Ed) as (evs & -> & _ & Hc).
  split; [exact Hok|split; [exact Hlen|exact Hc]].
Defined.

Lemma continuation_only_starts_witness :
  match drive demoContinue continuing (∅ : database) [] with
  | Some (_, _, tr) => ∀ m params reply, EvWire m params reply ∈ tr →
      m ∈ ["thread/read"; "thread/turns/list"; "thread/items/list"; "thread/queue/list"; "turn/start"]
  | None => False
  end.
Proof.
  pose proof continuing_summary as Hs.
  destruct (drive demoContinue continuing (∅ : database) []) as [[[r db] tr]|] eqn:Ed; [|discriminate Hs].
  destruct (drive_sound others _ _ _ _ _ _ _ _ (fun _ => eq_refl)
    (@continuation_only_starts demoOptions ["cli"] 4 (ownReader demoOptions) (ownReader_laws demoOptions demo_tame)
       database dbEnv db_store others quietThread quietThread
       "thread" "go on" "continuation" "continue:turn-1" "turn-1" zeroOptions ∅ [])
    continuing_plain Ed) as (evs & -> & Hc).
  exact Hc.
Defined.
