(* ===== verification/Threads.v ===== *)
(** * Threads, models and projects

    The operations of [src/codex/client.go] that start, resume, fork, list and
    inspect threads (387-393, 464-541, 3521-3534, 3571-3864, 3898-3924,
    4132-4169, 4274-4344, 4512-4569, 5805-5814), the model catalogue and the
    choice of a thread's settings from it (663-781), and projects. Each is a
    program over requests; what it sends and what it accepts is the code's.

    [absent] says whether a rollout is missing when the code looks, and
    [prompts] what the client holds for the thread. *)
From S2P Require Import Prelude GoStd GoValue TurnOptions Ledger LedgerFacts Store Program Wire History Delivery Prompts HistoryReader Continuation.
From Stdlib Require Import String.
Open Scope Z_scope.
Open Scope codex_scope.

(** ** The model catalogue *)

Record ReasoningEffortOption := mkEffort { reo_ReasoningEffort : string; reo_Description : string }.

Record Model := mkModel {
  mo_ID : string; mo_Model : string; mo_DisplayName : string; mo_Description : string; mo_IsDefault : bool;
  mo_DefaultReasoningEffort : string; mo_SupportedReasoningEfforts : list ReasoningEffortOption }.

#[export] Instance ReasoningEffortOption_eq_dec : EqDecision ReasoningEffortOption.
Proof. solve_decision. Defined.
#[export] Instance Model_eq_dec : EqDecision Model.
Proof. solve_decision. Defined.
#[export] Instance ThreadSettings_eq_dec : EqDecision ThreadSettings.
Proof. solve_decision. Defined.

Definition zeroSettings : ThreadSettings := mkSettings "" "" "" "" zeroPolicy "".
(** [ThreadSettings{Model: model, ReasoningEffort: effort}] *)
Definition chosenSettings (model effort : string) : ThreadSettings := mkSettings model "" effort "" zeroPolicy "".

Definition supports (selected : Model) (effort : string) : bool :=
  existsb (fun option => str_eqb (reo_ReasoningEffort option) effort) (mo_SupportedReasoningEfforts selected).

(** The loop over the catalogue: a requested model is the first of its name, and
    the default must be there once. *)
Fixpoint selectNew (models : list Model) (requested default : string) (selected : option Model)
    : res err (option Model) :=
  match models with
  | [] => Ok selected
  | candidate :: rest =>
    if negb (is_empty requested) then
      if str_eqb (mo_Model candidate) requested then Ok (Some candidate)
      else selectNew rest requested default selected
    else if str_eqb (mo_Model candidate) default then
      match selected with
      | Some _ => Err (EMsg "Codex model catalog has more than one model of the name")
      | None => selectNew rest requested default (Some candidate)
      end
    else selectNew rest requested default selected
  end.

Definition ResolveNewThreadSettings (models : list Model) (requested defaults : ThreadSettings)
    : res err ThreadSettings :=
  let? _ := guard (is_empty (ts_Model defaults) || is_empty (ts_ReasoningEffort defaults))
              (EMsg "default Codex model and reasoning effort are required") in
  let? found := selectNew models (ts_Model requested) (ts_Model defaults) None in
  match found with
  | None => Err (EMsg (if is_empty (ts_Model requested) then "required default Codex model is not available"
                       else "Codex model is not available"))
  | Some selected =>
    let effort := ts_ReasoningEffort requested in
    let effort := if is_empty effort && supports selected (ts_ReasoningEffort defaults)
                  then ts_ReasoningEffort defaults else effort in
    let effort := if is_empty effort && negb (is_empty (ts_Model requested))
                     && supports selected (mo_DefaultReasoningEffort selected)
                  then mo_DefaultReasoningEffort selected else effort in
    let? _ := guard (is_empty effort)
                (EMsg "Codex model does not support the required default reasoning effort") in
    let? _ := guard (negb (supports selected effort)) (EMsg "reasoning effort is not available") in
    Ok (chosenSettings (mo_Model selected) effort)
  end.

Fixpoint selectFork (models : list Model) (desired : string) (selected : option Model) : res err (option Model) :=
  match models with
  | [] => Ok selected
  | candidate :: rest =>
    if negb (str_eqb (mo_Model candidate) desired) then selectFork rest desired selected else
    match selected with
    | Some _ => Err (EMsg "Codex model catalog has more than one model of the name")
    | None => selectFork rest desired (Some candidate)
    end
  end.

(** [if value != "" { result = value }] *)
Definition orElse (value fallback : string) : string := if is_empty value then fallback else value.

Definition ResolveForkThreadSettings (models : list Model) (source requested : ThreadSettings)
    : res err ThreadSettings :=
  let model := orElse (ts_Model requested) (ts_Model source) in
  let effort := orElse (ts_ReasoningEffort requested) (ts_ReasoningEffort source) in
  let? _ := guard (is_empty model || is_empty effort) (EMsg "source Codex thread has incomplete settings") in
  let? found := selectFork models model None in
  match found with
  | None => Err (EMsg "Codex model is not available")
  | Some selected =>
    let? _ := guard (negb (supports selected effort)) (EMsg "reasoning effort is not available") in
    Ok (chosenSettings model effort)
  end.

Definition decEffort (v : any) : res err ReasoningEffortOption :=
  let? o := decObject v in
  let? effort := decString (field "reasoningEffort" o) in
  let? description := decString (field "description" o) in
  Ok (mkEffort effort description).

Definition decModel (v : any) : res err Model :=
  let? o := decObject v in
  let? id := decString (field "id" o) in
  let? model := decString (field "model" o) in
  let? display := decString (field "displayName" o) in
  let? description := decString (field "description" o) in
  let? isDefault := decBool (field "isDefault" o) in
  let? effort := decString (field "defaultReasoningEffort" o) in
  let? efforts := decArray decEffort (field "supportedReasoningEfforts" o) in
  Ok (mkModel id model display description isDefault effort efforts).

(** ** Parameters *)

Definition validateProjectID (projectID : string) : res err unit :=
  guard (negb (validString projectID) || (512 <? len projectID)
         || (negb (is_empty projectID) && is_empty (trimSpace projectID)))
    (EMsg "thread project ID must be valid nonblank Unicode and at most 512 bytes").

Definition environmentConfig (environment : gmap string string) : object :=
  [("shell_environment_policy",
    AObj [("set", AObj ((fun kv => (kv.1, AStr kv.2)) <$> map_to_list environment))])].

(** The canonical roots, each once. *)
Fixpoint canonicalRoots (roots kept : list string) : res err (list string) :=
  match roots with
  | [] => Ok kept
  | root :: rest =>
    if negb (isAbs root) || negb (str_eqb (clean root) root)
    then Err (EMsg "runtime workspace root is not canonical")
    else canonicalRoots rest (if str_in root kept then kept else kept ++ [root])
  end.

Record threadIdentity := mkIdentity { id_ID : string; id_Cwd : string; id_ProjectID : option string; id_ForkedFromID : string }.
(** The parts of the response structs of start, resume and fork. *)
Definition decIdentity (project forked : bool) (v : any) : res err threadIdentity :=
  decField "thread" (fun thread =>
    let? o := decObject thread in
    let? id := decString (field "id" o) in
    let? cwd := decString (field "cwd" o) in
    let? p := (if project then decNil decString (field "projectId" o) else Ok None) in
    let? f := (if forked then decString (field "forkedFromId" o) else Ok "") in
    Ok (mkIdentity id cwd p f)) v.

Record ProjectMetadata := mkProject { pj_ID : string; pj_Name : string }.
Definition decProject (v : any) : res err ProjectMetadata :=
  decField "project" (fun project =>
    let? o := decObject project in
    let? id := decString (field "id" o) in
    let? name := decString (field "name" o) in
    Ok (mkProject id name)) v.

Record ThreadListOptions := mkListOptions {
  lo_Cwd : string; lo_ProjectID : string; lo_SourceKinds : list string; lo_Archived : option bool;
  lo_Limit : Z; lo_SortDirection : string; lo_Cursor : string;
  lo_ModelProviders : option (list string); lo_UseStateDBOnly : bool }.

Definition strings (l : list string) : any := AArr (AStr <$> l).
Definition setWhen (c : bool) (key : string) (value : any) (m : object) : object :=
  if c then setField key value m else m.

Definition listParams (o : ThreadListOptions) : object :=
  let p := setText "cwd" (lo_Cwd o) [] in
  let p := setText "projectId" (lo_ProjectID o) p in
  let p := match lo_SourceKinds o with [] => p | kinds => setField "sourceKinds" (strings kinds) p end in
  let p := match lo_Archived o with Some b => setField "archived" (ABool b) p | None => p end in
  let p := setWhen (0 <? lo_Limit o) "limit" (ANum (lo_Limit o) 0) p in
  let p := setText "sortDirection" (lo_SortDirection o) p in
  let p := setText "cursor" (lo_Cursor o) p in
  let p := setWhen (lo_UseStateDBOnly o) "useStateDbOnly" (ABool true) p in
  match lo_ModelProviders o with Some l => setField "modelProviders" (strings l) p | None => p end.

Record CollaborationMode := mkCollaboration { cm_Name : string; cm_Mode : string }.

(** The page of modes: unnamed entries are passed over, a mode is there once. *)
Fixpoint collectModes (entries : list (string * option string)) (seen : list string) (modes : list CollaborationMode)
    : res err (list CollaborationMode) :=
  match entries with
  | [] => Ok modes
  | (name, mode) :: rest =>
    match mode with
    | None => collectModes rest seen modes
    | Some mode =>
      if is_empty mode || is_empty name then collectModes rest seen modes
      else if str_in mode seen then Err (EMsg ("collaborationMode/list repeated mode " ++ mode)%string)
      else collectModes rest (mode :: seen) (modes ++ [mkCollaboration name mode])
    end
  end.

Definition decMode (v : any) : res err (string * option string) :=
  let? o := decObject v in
  let? name := decString (field "name" o) in
  let? mode := decNil decString (field "mode" o) in
  Ok (name, mode).

Record threadGoal := mkGoal { tg_ThreadID : string; tg_Status : string }.
Definition decGoal (v : any) : res err (option threadGoal) :=
  decField "goal" (decNil (fun goal =>
    let? o := decObject goal in
    let? thread := decString (field "threadId" o) in
    let? status := decString (field "status" o) in
    Ok (mkGoal thread status))) v.

(** A map, or nil. *)
Definition decThreadMap (v : any) : res err (option object) := decField "thread" (decNil decObject) v.

Section threads.
Context (options : clientOptions) (roots sources : list string) (fuel : nat).
Let Request {T} := @Request options T.

Definition settingsParams (settings : ThreadSettings) (params config : object) : object * object :=
  let existing := match assoc "threadId" params with Some _ => true | None => false end in
  let params := applyThreadPolicy options params (ts_Policy settings)
                  (negb existing || negb (bool_decide (ts_Policy settings = zeroPolicy))) in
  let config := applyThreadMCP config (ts_Policy settings) in
  let params := setText "modelProvider" (ts_ModelProvider settings) (setText "model" (ts_Model settings) params) in
  (params, setText "model_reasoning_effort" (ts_ReasoningEffort settings) config).

Definition addRuntimeWorkspaceRoots (params : object) : res err object :=
  match roots with
  | [] => Ok params
  | _ => let? kept := canonicalRoots roots [] in Ok (setField "runtimeWorkspaceRoots" (strings kept) params)
  end.

(** A check that sends nothing. *)
Definition checked {A} (r : res err A) : prog (res err A) := Ret r.

(** ** Starting, resuming and opening *)

Definition StartThreadWithSettings (cwd : string) (environment : gmap string string) (settings : ThreadSettings)
    : prog (res err string) :=
  try! _ := checked (validateThreadPolicy (ts_Policy settings)) in
  try! _ := checked (validateProjectID (ts_ProjectID settings)) in
  try! params := checked (addRuntimeWorkspaceRoots [("cwd", AStr cwd)]) in
  let '(params, config) := settingsParams settings params (environmentConfig environment) in
  let params := setText "projectId" (ts_ProjectID settings) (setField "config" (AObj config) params) in
  try! thread := Request "thread/start" params (decIdentity true false) in
  if is_empty (id_ID thread) || negb (str_eqb (id_Cwd thread) cwd)
  then Ret (Err (EMsg "thread/start returned no thread id or the wrong working directory")) else
  if negb (is_empty (ts_ProjectID settings))
     && negb (bool_decide (id_ProjectID thread = Some (ts_ProjectID settings)))
  then Ret (Err (EMsg "thread/start returned the wrong project ID"))
  else Ret (Ok (id_ID thread)).

Definition ResumeThreadWithSettings (threadID cwd : string) (environment : gmap string string)
    (settings : ThreadSettings) : prog (res err string) :=
  try! _ := checked (validateThreadPolicy (ts_Policy settings)) in
  if negb (is_empty (ts_ProjectID settings))
  then Ret (Err (EMsg "thread project ID can only be selected at start")) else
  let params := setField "cwd" (AStr cwd) (threadResumeParams options threadID) in
  let '(params, config) := settingsParams settings params (environmentConfig environment) in
  try! thread := resumeApplyingExecutionPolicy options threadID (setField "config" (AObj config) params)
                   (ts_Policy settings) (decIdentity false false) in
  if negb (str_eqb (id_ID thread) threadID) || negb (str_eqb (id_Cwd thread) cwd)
  then Ret (Err (EMsg "thread/resume returned the wrong thread or working directory"))
  else Ret (Ok (id_ID thread)).

Definition OpenThreadWithSettings (threadID cwd : string) (environment : gmap string string)
    (settings : ThreadSettings) : prog (res err string) :=
  if negb (is_empty threadID) then ResumeThreadWithSettings threadID cwd environment settings
  else StartThreadWithSettings cwd environment settings.

Definition ActivateThreadWithSettings (threadID : string) (settings : ThreadSettings) : prog (res err unit) :=
  let policy := ts_Policy settings in
  try! _ := checked (validateThreadPolicy policy) in
  let '(params, config) := settingsParams settings (threadResumeParams options threadID) [] in
  let config := match tp_MCPServer policy with Some _ => applyThreadMCP config policy | None => config end in
  let params := match config with [] => params | _ => setField "config" (AObj config) params end in
  try! id := resumeApplyingExecutionPolicy options threadID params policy
               (decField "thread" (decField "id" decString)) in
  if negb (str_eqb id threadID) then Ret (Err (EMsg "thread/resume returned another thread")) else Ret (Ok tt).

(** ** What a thread is doing *)

Definition VerifyThread (threadID cwd : string) : prog (res err unit) :=
  try! thread := Request "thread/read" [("threadId", AStr threadID); ("excludeTurns", ABool true)] decThreadMap in
  match thread with
  | None => Ret (Err (EMsg "Codex thread does not match the trusted working directory"))
  | Some thread =>
    if negb (str_eqb (stringValue (field "id" thread)) threadID)
       || negb (str_eqb (stringValue (field "cwd" thread)) cwd)
    then Ret (Err (EMsg "Codex thread does not match the trusted working directory"))
    else Ret (Ok tt)
  end.

Definition latestTurnParams (threadID : string) : object :=
  [("threadId", AStr threadID); ("limit", ANum 1 0); ("sortDirection", AStr "desc"); ("itemsView", AStr "notLoaded")].

Definition RequireThreadTurnsIdle (absent : string → bool) (threadID : string) : prog (res err unit) :=
  let! page := Request "thread/turns/list" (latestTurnParams threadID)
                 (decField "data" (decNil (decArray decTurnHead))) in
  match page with
  | Err e =>
    let! read := Request "thread/read" [("threadId", AStr threadID)] decThread in
    match read with
    | Ok thread => if freshThreadMissingSourceRollout sources absent thread threadID e then Ret (Ok tt) else Ret (Err e)
    | Err _ => Ret (Err e)
    end
  | Ok None => Ret (Err (EMsg "thread/turns/list returned no data"))
  | Ok (Some []) => Ret (Ok tt)
  | Ok (Some (turn :: _)) =>
    if is_empty (th_ID turn) || negb (str_in (th_Status turn) ["completed"; "failed"; "interrupted"])
    then Ret (Err (EMsg "Codex thread is not idle")) else Ret (Ok tt)
  end.

Definition wrapped {A} (text : string) (m : prog (res err A)) : prog (res err A) :=
  let! r := m in Ret (match r with Ok a => Ok a | Err e => Err (EWrap text e) end).

Definition RequireThreadIdle (absent : string → bool) (prompts : list Prompt) (threadID cwd : string)
    : prog (res err unit) :=
  try! _ := VerifyThread threadID cwd in
  try! _ := RequireThreadTurnsIdle absent threadID in
  try! pending := wrapped "inspect pending Codex requests" (PromptsWithItems options fuel threadID prompts) in
  if negb (Nat.eqb (Datatypes.length pending) 0) then Ret (Err (EMsg "Codex thread has pending request(s)")) else
  try! queued := wrapped "inspect queued Codex messages" (ListQueue options fuel threadID) in
  if negb (Nat.eqb (Datatypes.length queued) 0) then Ret (Err (EMsg "Codex thread has queued message(s)")) else
  requireSubmissionAttemptsExcept options fuel threadID false "".

Definition ReconcileThreadInstructionsWithPolicy (absent : string → bool) (threadID : string) (policy : ThreadPolicy)
    : prog (res err unit) :=
  try! _ := checked (validateThreadPolicy policy) in
  try! _ := RequireThreadTurnsIdle absent threadID in
  resumeThreadWithPolicy options threadID policy true.

Definition ForkThread (absent : string → bool) (threadID cwd : string) (environment : gmap string string)
    (settings : ThreadSettings) : prog (res err string) :=
  try! _ := checked (validateThreadPolicy (ts_Policy settings)) in
  if negb (is_empty (ts_ProjectID settings))
  then Ret (Err (EMsg "thread project ID cannot be selected when forking")) else
  try! _ := RequireThreadTurnsIdle absent threadID in
  try! params := checked (addRuntimeWorkspaceRoots
     [("threadId", AStr threadID); ("cwd", AStr cwd); ("excludeTurns", ABool true);
      ("deferGoalContinuation", ABool true)]) in
  let '(params, config) := settingsParams settings params (environmentConfig environment) in
  try! thread := Request "thread/fork" (setField "config" (AObj config) params) (decIdentity false true) in
  if is_empty (id_ID thread) || str_eqb (id_ID thread) threadID || negb (str_eqb (id_Cwd thread) cwd)
     || negb (str_eqb (id_ForkedFromID thread) threadID)
  then Ret (Err (EMsg "thread/fork returned invalid thread metadata"))
  else Ret (Ok (id_ID thread)).

Definition HasActiveGoal (threadID : string) : prog (res err bool) :=
  let! r := Request "thread/goal/get" [("threadId", AStr threadID)] decGoal in
  match r with
  | Err e => match asRpc e with
             | Some (code, message) =>
               if (code =? -32600) && str_eqb message "goals feature is disabled" then Ret (Ok false) else Ret (Err e)
             | None => Ret (Err e)
             end
  | Ok None => Ret (Ok false)
  | Ok (Some goal) =>
    if negb (str_eqb (tg_ThreadID goal) threadID) then Ret (Err (EMsg "thread/goal/get returned another thread"))
    else if str_eqb (tg_Status goal) "active" then Ret (Ok true)
    else if str_in (tg_Status goal) ["paused"; "blocked"; "usageLimited"; "budgetLimited"; "complete"]
    then Ret (Ok false)
    else Ret (Err (EMsg "thread/goal/get returned an unknown goal status"))
  end.

Definition Interrupt (threadID : string) : prog (res err unit) :=
  try! turnID := ActiveTurnID options threadID in
  if is_empty turnID then Ret (Err (EMsg "thread has no active turn"))
  else Request "turn/interrupt" [("threadId", AStr threadID); ("turnId", AStr turnID)] decAnything.

(** ** Listing *)

(** The loop of [LoadedThreadIDs] and [ListModels]: pages until there is no next
    cursor; a cursor must be new. *)
Fixpoint listPages {T} (n : nat) (method : string) (base : object) (decode : any → res err T)
    (accept : list T → res err unit) (cursor : string) (cursors : list string) (found : list T)
    : prog (res err (list T)) :=
  match n with
  | O => Ret (Err outOfTime)
  | Datatypes.S n =>
    try! '(data, next) := Request method (setText "cursor" cursor base) (decPage decode) in
    match data with
    | None => Ret (Err (EMsg (method ++ " returned no data")%string))
    | Some data =>
      try! _ := checked (accept data) in
      match next with
      | None => Ret (Ok (found ++ data))
      | Some next =>
        if is_empty next then Ret (Err (EMsg (method ++ " returned an empty pagination cursor")%string))
        else if str_in next cursors then Ret (Err (EMsg (method ++ " repeated a pagination cursor")%string))
        else listPages n method base decode accept next (next :: cursors) (found ++ data)
      end
    end
  end.

Definition LoadedThreadIDs : prog (res err (list string)) :=
  listPages fuel "thread/loaded/list" [("limit", ANum 100 0)] decString
    (fun ids => guard (existsb is_empty ids) (EMsg "thread/loaded/list returned an empty thread id")) "" [] [].

Definition ListModels : prog (res err (list Model)) :=
  listPages fuel "model/list" [("limit", ANum 100 0); ("includeHidden", ABool false)] decModel
    (fun _ => Ok tt) "" [] [].

Definition ListThreads (o : ThreadListOptions) : prog (res err (list ThreadMetadata * option string)) :=
  try! _ := checked (validateProjectID (lo_ProjectID o)) in
  try! '(data, next) := Request "thread/list" (listParams o) (decPage decMetadata) in
  match data with
  | None => Ret (Err (EMsg "thread/list returned no data"))
  | Some data =>
    if negb (is_empty (lo_ProjectID o))
       && existsb (fun thread => negb (bool_decide (tm_ProjectID thread = Some (lo_ProjectID o)))) data
    then Ret (Err (EMsg "thread/list returned a thread outside the requested project"))
    else Ret (Ok (data, next))
  end.

Definition ListCollaborationModes : prog (res err (list CollaborationMode)) :=
  try! data := Request "collaborationMode/list" [] (decField "data" (decNil (decArray decMode))) in
  match data with
  | None => Ret (Err (EMsg "collaborationMode/list returned no data"))
  | Some entries => Ret (collectModes entries [] [])
  end.

(** ** Archive, names, projects and credits *)

Definition UnarchiveThread (threadID : string) : prog (res err ThreadMetadata) :=
  try! thread := Request "thread/unarchive" [("threadId", AStr threadID)] (decField "thread" decMetadata) in
  if negb (str_eqb (tm_ID thread) threadID) then Ret (Err (EMsg "thread/unarchive returned the wrong thread"))
  else Ret (Ok thread).

Definition ArchiveThread (threadID : string) : prog (res err unit) :=
  Request "thread/archive" [("threadId", AStr threadID)] decAnything.

Definition SetName (threadID name : string) : prog (res err unit) :=
  Request "thread/name/set" [("threadId", AStr threadID); ("name", AStr name)] decAnything.

Definition CreateProject (name idempotencyKey : string) : prog (res err ProjectMetadata) :=
  if is_empty name || is_empty idempotencyKey
  then Ret (Err (EMsg "project name and idempotency key are required")) else
  try! project := Request "project/create"
     [("name", AStr name); ("roots", AArr []); ("idempotencyKey", AStr idempotencyKey)] decProject in
  if is_empty (pj_ID project) then Ret (Err (EMsg "project/create returned no project identity"))
  else Ret (Ok project).

Definition ReadProject (projectID : string) : prog (res err ProjectMetadata) :=
  if is_empty projectID then Ret (Err (EMsg "project ID is required")) else
  let! r := Request "project/read" [("projectId", AStr projectID)] decProject in
  match r with
  | Err e => Ret (Err (if IsProjectNotFound e projectID then EProjectNotFound projectID e else e))
  | Ok project =>
    if negb (str_eqb (pj_ID project) projectID)
    then Ret (Err (EMsg "project/read returned the wrong project identity")) else Ret (Ok project)
  end.

Definition ConsumeRateLimitResetCredit (key creditID : string) : prog (res err string) :=
  if is_empty (trimSpace key) then Ret (Err (EMsg "reset idempotency key is required")) else
  try! outcome := Request "account/rateLimitResetCredit/consume"
     (setText "creditId" creditID [("idempotencyKey", AStr key)]) (decField "outcome" decString) in
  if str_in outcome ["reset"; "alreadyRedeemed"; "nothingToReset"; "noCredit"] then Ret (Ok outcome)
  else Ret (Err (EMsg "unknown reset-credit outcome")).
End threads.
