(* ===== verification/ThreadFacts.v ===== *)
(** * Properties of threads, models and projects

    What a request puts on the wire, the settings a thread may get, and when a
    thread is forked. *)
From S2P Require Import Prelude GoStd GoValue TurnOptions Ledger LedgerFacts Store Program Wire History Delivery DeliveryFacts Prompts HistoryReader Continuation Threads.
From Stdlib Require Import String.
Open Scope Z_scope.

(** ** One request *)

Definition opensThread (method : string) : bool := str_in method ["thread/start"; "thread/resume"; "thread/fork"].

(** Nothing is handed over and there is no answer, or one message is; it has the
    given parameters unless the lifecycle settings complete them, and an answer was
    decoded from its reply. *)
Definition sent {T} (method : string) (params : object) (decode : any → res err T) (tr tr' : list event) (r : res err T) : Prop :=
  (tr' = tr ∧ is_ok r = false) ∨
  ∃ ps reply, tr' = tr ++ [EvWire method ps reply] ∧ (opensThread method = false → ps = AObj params) ∧
    ∀ x, r = Ok x → ∃ v, reply = Replied v ∧ decode v = Ok x.

Section requests.
Context (options : clientOptions) {W E : Type} `{SubmissionStore W E} (rely : W → W → Prop).

Lemma requestOn_sent {B T} net method params (decode : any → res err T) w tr :
  wp rely (requestOnAdmission (B := B) net method params decode None) w tr
    (fun _ tr' p => (tr' = tr ∧ is_ok p.2 = false) ∨
       ∃ reply, tr' = tr ++ [EvWire method params reply] ∧
         ∀ x, p.2 = Ok x → ∃ v, reply = Replied v ∧ decode v = Ok x).
Proof.
  unfold requestOnAdmission, writeOfferAdmission.
  destruct (ne_encode net); [by left|]. destruct (ne_writer net); [by left|].
  destruct (negb (ne_current net)); [by left|]. destruct (ne_before net); [by left|].
  destruct (ne_after net); [by left|]. destruct (ne_acquire net); [by left|].
  intros reply Hr. right. exists reply. split; [done|]. intros x Hx.
  destruct reply; try discriminate. simpl in Hx. destruct (decode result) eqn:Ed; [|discriminate].
  injection Hx as <-. by exists result.
Qed.

Lemma requestConnected_sent {B T} net method params (decode : any → res err T) w tr :
  wp rely (requestConnectedAdmission options (B := B) net method (AObj params) decode None) w tr
    (fun _ tr' p => sent method params decode tr tr' p.2).
Proof.
  unfold requestConnectedAdmission. destruct (negb (ne_ready net)); [by left|].
  destruct (if co_ObserverOnly options then _ else _); [by left|].
  destruct (lifecycleParams options method (AObj params)) as [[ps provider]|e] eqn:El; [|by left].
  assert (opensThread method = false → ps = AObj params) as Hps.
  { intros Ho. unfold lifecycleParams in El. unfold opensThread in Ho. rewrite Ho in El. by simplify_eq/=. }
  destruct (is_empty provider).
  - eapply wp_mono, requestOn_sent. intros w' tr' p [?|(reply & -> & Hx)]; [by left|]. right. by exists ps, reply.
  - apply wp_bind. eapply wp_mono, requestOn_sent. intros w' tr' [b r] [[-> Hr]|(reply & -> & Hx)]; simpl in *.
    + left. by destruct r.
    + right. exists ps, reply. split_and!; [done|done|]. intros x Hok. destruct r as [v|e]; [|done].
      destruct (Hx _ eq_refl) as (v' & -> & [= ->]). destruct (routingProvider v); [|done].
      destruct (negb _); [done|]. by exists v.
Qed.

Lemma Request_sent {T} method params (decode : any → res err T) w tr :
  wp rely (Request options method params decode) w tr (fun _ tr' r => sent method params decode tr tr' r).
Proof.
  unfold Request. apply wp_bind. intros net Hn. apply wp_bind.
  destruct (_ && _); [left; split; [done|]; simpl; by destruct (ne_cause net); simpl; [destruct (errIs _ _)|]|].
  destruct (ne_ensure net) as [e|];
    [left; split; [done|]; simpl; by destruct (ne_cause net); simpl; [destruct (errIs _ _)|]|].
  eapply wp_mono, requestConnected_sent. intros w' tr' [b r] Hs. simpl in *.
  destruct Hs as [[-> Ho]|(ps & reply & -> & Hps & Hx)].
  - left. split; [done|]. destruct (joinCause _ r) eqn:Ej; [|done]. apply joinCause_ok in Ej. by subst r.
  - right. exists ps, reply. split_and!; [done|done|]. intros x Ej%joinCause_ok. by apply Hx.
Qed.

(** A resume without a policy is one request. *)
Lemma resume_sent t w tr :
  wp rely (resumeThreadWithPolicy options t zeroPolicy false) w tr (fun _ tr' r =>
    (tr' = tr ∧ is_ok r = false) ∨
    ∃ ps reply, tr' = tr ++ [EvWire "thread/resume" ps reply] ∧ (is_ok r = true → ∃ v, reply = Replied v)).
Proof.
  unfold resumeThreadWithPolicy. apply wp_bindOk. unfold resumeApplyingExecutionPolicy.
  change (executionPolicyUpdate t zeroPolicy) with ([] : object). apply wp_bindOk.
  cbn [applyLoadedExecutionPolicy wp]. apply wp_bindOk. eapply wp_mono, Request_sent.
  intros w' tr' r [[-> Hr]|(ps & reply & -> & _ & Hx)]; (destruct r as [o|e]; [|..]); try done.
  - left. done.
  - right. exists ps, reply. split; [done|]. intros _. destruct (Hx _ eq_refl) as (v & -> & _). by exists v.
  - right. by exists ps, reply.
Qed.
End requests.

(** ** The settings of a thread *)

Section settings.
Context (models : list Model).

(** The model is the first of its name. *)
Definition firstNamed (name : string) (m : Model) : Prop :=
  ∃ before after, models = before ++ m :: after ∧ mo_Model m = name ∧ Forall (fun c => mo_Model c ≠ name) before.
(** The model is the only one of its name. *)
Definition onlyNamed (name : string) (m : Model) : Prop :=
  ∃ before after, models = before ++ m :: after ∧ mo_Model m = name ∧
    Forall (fun c => mo_Model c ≠ name) (before ++ after).
End settings.

Lemma selectNew_requested models requested default selected m :
  requested ≠ "" → selectNew models requested default selected = Ok (Some m) →
  firstNamed models requested m ∨ selected = Some m ∧ Forall (fun c => mo_Model c ≠ requested) models.
Proof.
  intros Hr. induction models as [|c models IH]; simpl; [intros [= ->]; by right|].
  rewrite (proj2 (is_empty_false _) Hr). simpl. destruct (str_eqb (mo_Model c) requested) eqn:Ec.
  - intros [= <-]. left. apply str_eqb_eq in Ec. by exists [], models.
  - apply str_eqb_neq in Ec. intros Hs. destruct (IH Hs) as [(before & after & -> & Hm & Hf)|[-> Hf]].
    + left. exists (c :: before), after. split_and!; [done|done|]. by constructor.
    + right. split; [done|]. by constructor.
Qed.

Lemma firstNamed_select models requested default m :
  requested ≠ "" → firstNamed models requested m → selectNew models requested default None = Ok (Some m).
Proof.
  intros Hr (before & after & -> & Hm & Hf). induction before as [|c before IH]; simpl;
    rewrite (proj2 (is_empty_false _) Hr); simpl.
  - by rewrite (proj2 (str_eqb_eq _ _) Hm).
  - inversion Hf as [|? ? Hc Hf']; subst. rewrite (proj2 (str_eqb_neq _ _) Hc). by apply IH.
Qed.

(** Both loops look for the only model of a name. *)
Lemma selectNew_fork models default selected :
  selectNew models "" default selected = selectFork models default selected.
Proof.
  revert selected. induction models as [|c models IH]; intros selected; simpl; [done|].
  destruct (str_eqb (mo_Model c) default); simpl; [|apply IH]. by destruct selected.
Qed.

Lemma selectFork_none models name selected :
  Forall (fun c => mo_Model c ≠ name) models → selectFork models name selected = Ok selected.
Proof.
  induction 1 as [|c models Hc _ IH]; simpl; [done|]. by rewrite (proj2 (str_eqb_neq _ _) Hc).
Qed.
Lemma selectFork_taken models name m found :
  selectFork models name (Some m) = Ok found → found = Some m ∧ Forall (fun c => mo_Model c ≠ name) models.
Proof.
  induction models as [|c models IH]; simpl; [by intros [= <-]|].
  destruct (str_eqb (mo_Model c) name) eqn:Ec; simpl; [done|]. apply str_eqb_neq in Ec. intros Hs.
  destruct (IH Hs) as [-> Hf]. split; [done|]. by constructor.
Qed.

Lemma selectFork_only models name m : selectFork models name None = Ok (Some m) ↔ onlyNamed models name m.
Proof.
  split.
  - induction models as [|c models IH]; simpl; [done|]. destruct (str_eqb (mo_Model c) name) eqn:Ec; simpl.
    + intros Hs. destruct (selectFork_taken _ _ _ _ Hs) as [[= ->] Hf]. apply str_eqb_eq in Ec. by exists [], models.
    + apply str_eqb_neq in Ec. intros Hs. destruct (IH Hs) as (before & after & -> & Hm & Hf).
      exists (c :: before), after. split_and!; [done|done|]. by constructor.
  - intros (before & after & -> & Hm & [Hb Ha]%Forall_app). induction Hb as [|c before Hc _ IH]; simpl.
    + rewrite (proj2 (str_eqb_eq _ _) Hm). simpl. by apply selectFork_none.
    + by rewrite (proj2 (str_eqb_neq _ _) Hc).
Qed.

(** The effort of a new thread: the requested one; without one the default, and for
    a model that was asked for and has not the default its own. *)
Definition newEffort (m : Model) (requested defaults : ThreadSettings) (effort : string) : Prop :=
  effort ≠ "" ∧ supports m effort = true ∧
  (effort = ts_ReasoningEffort requested ∨
   ts_ReasoningEffort requested = "" ∧
   (effort = ts_ReasoningEffort defaults ∨
    supports m (ts_ReasoningEffort defaults) = false ∧ ts_Model requested ≠ "" ∧ effort = mo_DefaultReasoningEffort m)).

Lemma chosen_effort m requested defaults effort :
  ts_ReasoningEffort defaults ≠ "" →
  newEffort m requested defaults effort ↔
  (let e := ts_ReasoningEffort requested in
   let e := if is_empty e && supports m (ts_ReasoningEffort defaults) then ts_ReasoningEffort defaults else e in
   let e := if is_empty e && negb (is_empty (ts_Model requested)) && supports m (mo_DefaultReasoningEffort m)
            then mo_DefaultReasoningEffort m else e in
   e = effort ∧ is_empty e = false ∧ supports m e = true).
Proof.
  intros Hd. unfold newEffort. cbv zeta.
  destruct (is_empty (ts_ReasoningEffort requested)) eqn:Er; [apply is_empty_true in Er|apply is_empty_false in Er]; simpl.
  - rewrite Er. destruct (supports m (ts_ReasoningEffort defaults)) eqn:Es; simpl.
    + rewrite (proj2 (is_empty_false _) Hd). simpl. rewrite (proj2 (is_empty_false _) Hd). naive_solver.
    + replace (is_empty "") with true by done. simpl.
      destruct (is_empty (ts_Model requested)) eqn:Em; [apply is_empty_true in Em|apply is_empty_false in Em]; simpl.
      * split; [|by intros (_ & ? & _)]. intros (H0 & H1 & [->|(_ & [->|(_ & H2 & _)])]); congruence.
      * destruct (supports m (mo_DefaultReasoningEffort m)) eqn:Ex.
        -- rewrite is_empty_false. split; [|intros (<- & ? & ?); by auto 10].
           intros (H0 & H1 & [->|(_ & [->|(_ & _ & ->)])]); [done|congruence|done].
        -- split; [|by intros (_ & ? & _)]. intros (H0 & H1 & [->|(_ & [->|(_ & _ & ->)])]); congruence.
  - rewrite (proj2 (is_empty_false _) Er). simpl. rewrite (proj2 (is_empty_false _) Er). naive_solver.
Qed.

(** The settings of a new thread are exactly these: the first model of the
    requested name, or the only one of the default name, with an effort it
    supports: the requested one, else the default one, else, when a model was
    requested, its own. In every other case there is an error. *)
Theorem new_settings_exact models requested defaults s :
  ResolveNewThreadSettings models requested defaults = Ok s ↔
  ts_Model defaults ≠ "" ∧ ts_ReasoningEffort defaults ≠ "" ∧
  ∃ m effort, (if is_empty (ts_Model requested) then onlyNamed models (ts_Model defaults) m
               else firstNamed models (ts_Model requested) m) ∧
    newEffort m requested defaults effort ∧ s = chosenSettings (mo_Model m) effort.
Proof.
  assert (∀ m, selectNew models (ts_Model requested) (ts_Model defaults) None = Ok (Some m) ↔
    (if is_empty (ts_Model requested) then onlyNamed models (ts_Model defaults) m
     else firstNamed models (ts_Model requested) m)) as Hsel.
  { intros m. destruct (is_empty (ts_Model requested)) eqn:Em.
    - apply is_empty_true in Em as ->. rewrite selectNew_fork. apply selectFork_only.
    - apply is_empty_false in Em. split; [|by apply firstNamed_select].
      intros Hs. by destruct (selectNew_requested _ _ _ _ _ Em Hs) as [?|[? _]]. }
  unfold ResolveNewThreadSettings, guard.
  destruct (is_empty (ts_Model defaults)) eqn:Ed; simpl; [apply is_empty_true in Ed; naive_solver|].
  destruct (is_empty (ts_ReasoningEffort defaults)) eqn:Ee; simpl; [apply is_empty_true in Ee; naive_solver|].
  apply is_empty_false in Ed, Ee. destruct (selectNew _ _ _ _) as [[m|]|e] eqn:Es; simpl.
  - pose proof (proj1 (Hsel m) eq_refl) as Hm. assert (∀ m', (if is_empty (ts_Model requested)
      then onlyNamed models (ts_Model defaults) m' else firstNamed models (ts_Model requested) m') → m' = m) as Hu.
    { intros m' Hm'. apply Hsel in Hm'. by simplify_eq. }
    set (e := if is_empty _ && negb _ && _ then _ else _). split.
    + destruct (is_empty e) eqn:E0; simpl; [done|]. destruct (supports m e) eqn:E1; simpl; [|done]. intros [= <-].
      split_and!; [done|done|]. exists m, e. split_and!; [done| |done]. by apply chosen_effort.
    + intros (_ & _ & m' & effort & Hm' & Heff & ->). rewrite (Hu _ Hm') in *.
      apply chosen_effort in Heff as (<- & H0 & H1); [|done]. fold e in H0, H1 |- *. by rewrite H0, H1.
  - split; [done|]. intros (_ & _ & m & effort & Hm & _). apply Hsel in Hm. done.
  - split; [done|]. intros (_ & _ & m & effort & Hm & _). apply Hsel in Hm. done.
Qed.

(** ** Forking *)

Section forking.
Context (options : clientOptions) (roots sources : list string) (absent : string → bool).
Context {W E : Type} `{SubmissionStore W E} (rely : W → W → Prop).

(** Answers that show that no turn of the thread is going on: the latest turn is over
    or there is none, or the thread is fresh and has no history yet. *)
Inductive turnsIdle (t : string) : list event → Prop :=
| idle_page ps v turns :
    decField "data" (decNil (decArray decTurnHead)) v = Ok (Some turns) →
    match turns with
    | [] => True
    | turn :: _ => th_ID turn ≠ "" ∧ th_Status turn ∈ ["completed"; "failed"; "interrupted"]
    end → turnsIdle t [EvWire "thread/turns/list" ps (Replied v)]
| idle_fresh refused ps v thread e :
    decThread v = Ok thread → freshThreadMissingSourceRollout sources absent thread t e = true →
    (Datatypes.length refused ≤ 1)%nat → Forall (fun ev => ∃ ps reply, ev = EvWire "thread/turns/list" ps reply) refused →
    turnsIdle t (refused ++ [EvWire "thread/read" ps (Replied v)]).

Definition isMethod (method : string) (ev : event) : bool :=
  match ev with EvWire m _ _ => str_eqb m method | _ => false end.

Lemma turnsIdle_sent t w :
  wp rely (RequireThreadTurnsIdle options sources absent t) w [] (fun _ tr r =>
    Forall (fun ev => isMethod "thread/fork" ev = false) tr ∧ (r = Ok tt → turnsIdle t tr)).
Proof.
  apply wp_bind. eapply wp_mono, Request_sent. intros w1 tr1 [[turns|]|e] Hs.
  - destruct Hs as [[_ ?]|(ps & reply & -> & _ & Hx)]; [done|]. destruct (Hx _ eq_refl) as (v & -> & Hd).
    destruct turns as [|turn turns]; [|destruct (_ || _) eqn:Eb]; (split; [by repeat constructor|]); intros Hr; try done.
    + by apply (idle_page t ps v []).
    + apply orb_false_iff in Eb as [E1%is_empty_false E2%negb_false_iff%str_in_true]. by eapply idle_page.
  - destruct Hs as [[_ ?]|(ps & reply & -> & _ & Hx)]; [done|]. split; [by repeat constructor|done].
  - assert (Forall (fun ev => ∃ ps reply, ev = EvWire "thread/turns/list" ps reply) tr1 ∧ (Datatypes.length tr1 ≤ 1)%nat)
      as [Hl Hn] by (destruct Hs as [[-> _]|(ps & reply & -> & _)]; simpl; split; try lia; repeat constructor; eauto).
    assert (Forall (fun ev => isMethod "thread/fork" ev = false) tr1) as Hf.
    { eapply Forall_impl; [exact Hl|]. by intros ev (ps & reply & ->). }
    clear Hs. apply wp_bind. eapply wp_mono, Request_sent. intros w2 tr2 [thread|e2] Hs.
    + destruct Hs as [[_ ?]|(ps & reply & -> & _ & Hx)]; [done|]. destruct (Hx _ eq_refl) as (v & -> & Hd).
      destruct (freshThreadMissingSourceRollout _ _ _ _ _) eqn:Ef; (split; [apply Forall_app; split; [done|by repeat constructor]|]); [|done].
      intros _. by eapply idle_fresh.
    + split; [|done]. destruct Hs as [[-> _]|(ps & reply & -> & _)]; [done|]. apply Forall_app; split; [done|by repeat constructor].
Qed.

(** A thread is forked at most once in a call, and only directly after answers
    that show that none of its turns is going on; the answer that is taken is a
    new thread, in the given directory, that says it is forked from this one. *)
Theorem fork_idle t cwd environment settings w :
  wp rely (ForkThread options roots sources absent t cwd environment settings) w [] (fun _ tr r =>
    Forall (fun ev => isMethod "thread/fork" ev = false) tr ∧ is_ok r = false ∨
    ∃ before ps reply, tr = before ++ [EvWire "thread/fork" ps reply] ∧
      Forall (fun ev => isMethod "thread/fork" ev = false) before ∧ turnsIdle t before ∧
      ∀ id, r = Ok id → id ≠ "" ∧ id ≠ t ∧
        ∃ v project, reply = Replied v ∧ decIdentity false true v = Ok (mkIdentity id cwd project t)).
Proof.
  apply wp_bindOk. unfold checked. cbn [wp]. destruct (validateThreadPolicy _); [|left; split; [by constructor|done]].
  destruct (negb _); [left; split; [by constructor|done]|]. apply wp_bindOk. eapply wp_mono, turnsIdle_sent.
  intros w1 tr1 [[]|e] [Hf Hi]; [|by left]. specialize (Hi eq_refl). apply wp_bindOk. cbn [wp].
  destruct (addRuntimeWorkspaceRoots _ _) as [params|e]; [|by left].
  destruct (settingsParams _ _ _ _) as [params' config]. apply wp_bindOk. eapply wp_mono, Request_sent.
  intros w2 tr2 r2 [[-> Hr]|(ps & reply & -> & _ & Hx)]; [destruct r2; [done|by left]|].
  destruct r2 as [thread|e]; [|right; by exists tr1, ps, reply].
  destruct (Hx _ eq_refl) as (v & -> & Hd).
  destruct (_ || _ || _ || _) eqn:Eb; right; exists tr1, ps, (Replied v); split_and!; try done.
  apply orb_false_iff in Eb as [Eb E4]. apply orb_false_iff in Eb as [Eb E3]. apply orb_false_iff in Eb as [E1 E2].
  apply is_empty_false in E1. apply str_eqb_neq in E2. apply negb_false_iff, str_eqb_eq in E3, E4.
  intros id [= <-]. split_and!; [done|done|]. destruct thread as [id cwd' project from]; simpl in *; subst.
  by exists v, project.
Qed.
End forking.
