(* ===== verification/InitialMessage.v ===== *)
(** * The initial message of a thread

    [EnsureInitialMessageWithOptions] of [src/codex/client.go] (5549-5724) and
    [HistoryMaterialized] (5726-5790). The first message of a thread has no entry
    in the ledger: the caller grants its first submission once, and the code looks
    at the thread itself to tell whether the message is there.

    [disk n] is what [os.Stat] finds at the code's [n]-th look, [fuel] how often
    the caller's context lets the waiting loop look. *)
From S2P Require Import Prelude GoStd GoValue TurnOptions Ledger LedgerFacts Store Program Wire History Delivery Prompts HistoryReader Continuation Threads.
From Stdlib Require Import String.
Open Scope Z_scope.
Open Scope codex_scope.

(** ** What is looked at *)

(** [os.Stat]: [os.ErrNotExist], another error, or a file of some kind. *)
Inductive fileStat := StatAbsent | StatFailed (e : err) | StatFound (regular : bool).

(** The thread as [HistoryMaterialized] decodes it. *)
Record storedThread := mkStored {
  st_ID : string; st_Cwd : string; st_Path : option string; st_Preview : string; st_Source : any;
  st_Ephemeral : option bool; st_HistoryMode : string; st_Status : object; st_Turns : option (list object) }.

Definition decStored (thread : any) : res err storedThread :=
  let? o := decObject thread in
  let? id := decString (field "id" o) in
  let? cwd := decString (field "cwd" o) in
  let? path := decNil decString (field "path" o) in
  let? preview := decString (field "preview" o) in
  let? ephemeral := decNil decBool (field "ephemeral" o) in
  let? mode := decString (field "historyMode" o) in
  let? status := decObject (field "status" o) in
  let? turns := decNil (decArray decObject) (field "turns" o) in
  Ok (mkStored id cwd path preview (field "source" o) ephemeral mode status turns).

(** The same with the origin of a fork and no path, as [requireFreshInitialThread] has it. *)
Record idleThread := mkIdle {
  it_ID : string; it_Cwd : string; it_Source : any; it_Ephemeral : option bool; it_HistoryMode : string;
  it_Preview : string; it_ForkedFromID : option string; it_Status : object; it_Turns : option (list object) }.

Definition decIdle (thread : any) : res err idleThread :=
  let? o := decObject thread in
  let? id := decString (field "id" o) in
  let? cwd := decString (field "cwd" o) in
  let? ephemeral := decNil decBool (field "ephemeral" o) in
  let? mode := decString (field "historyMode" o) in
  let? preview := decString (field "preview" o) in
  let? forked := decNil decString (field "forkedFromId" o) in
  let? status := decObject (field "status" o) in
  let? turns := decNil (decArray decObject) (field "turns" o) in
  Ok (mkIdle id cwd (field "source" o) ephemeral mode preview forked status turns).

(** An item of the first turn: its type, and type and text of each content. *)
Record initialItem := mkInitialItem { ii_Type : string; ii_Content : list (string * string) }.

Definition decContent (v : any) : res err (string * string) :=
  let? o := decObject v in
  let? type := decString (field "type" o) in
  let? text := decString (field "text" o) in
  Ok (type, text).
Definition decInitialItem (v : any) : res err initialItem :=
  let? o := decObject v in
  let? type := decString (field "type" o) in
  let? content := decArray decContent (field "content" o) in
  Ok (mkInitialItem type content).
Definition decInitialTurn (v : any) : res err (list initialItem) :=
  decField "items" (decArray decInitialItem) v.

(** The user messages of the first turn; a content that is no text stops. *)
Fixpoint contentTexts (content : list (string * string)) : res err (list string) :=
  match content with
  | [] => Ok []
  | (type, text) :: rest =>
    if negb (str_eqb type "text") then Err (EMsg "Codex thread has a non-text initial request")
    else let? texts := contentTexts rest in Ok (text :: texts)
  end.

Fixpoint initialRequests (items : list initialItem) : res err (list string) :=
  match items with
  | [] => Ok []
  | item :: rest =>
    if negb (str_eqb (ii_Type item) "userMessage") then initialRequests rest else
    let? texts := contentTexts (ii_Content item) in
    let? requests := initialRequests rest in
    Ok (trimSpace (joinWith newline texts) :: requests)
  end.

(** What the first page of turns says: matched, empty. *)
Definition initialVerdict (text : string) (data : option (list (list initialItem))) (next : option string)
    : res err (bool * bool) :=
  match data with
  | None => Err (EMsg "thread/turns/list returned no data")
  | Some [] => Ok (false, is_empty (default "" next))
  | Some (items :: _) =>
    let? requests := initialRequests items in
    match requests with
    | [] => Ok (false, false)
    | [request] =>
      if negb (str_eqb request (trimSpace text)) then Err (EMsg "Codex thread already has a different initial request")
      else Ok (true, false)
    | _ => Err (EMsg "Codex thread already has a different initial request")
    end
  end.

Definition initialRolloutPending (e : err) : bool :=
  match asRpc e with
  | Some (code, message) =>
    (code =? -32603) && hasPrefix message "failed to read thread:" && contains message "rollout at "
    && hasSuffix message " is empty"
  | None => false
  end.

Definition initialHistoryPending (e : err) : bool :=
  match asRpc e with
  | Some (code, message) => (code =? -32601) && str_eqb message "list_turns is not supported yet"
  | None => false
  end.

Section initial.
Context (options : clientOptions) (sources : list string) (fuel : nat) (disk : nat → string → fileStat).
Let Request {T} := @Request options T.

(** [turns != nil && len( *turns ) == 0] *)
Definition noTurns (turns : option (list object)) : bool := match turns with Some [] => true | _ => false end.

(** A thread of the application without any turn. *)
Definition freshStored (thread : storedThread) : bool :=
  threadSource sources (st_Source thread)
  && bool_decide (st_Ephemeral thread = Some false)
  && str_eqb (st_HistoryMode thread) "paginated"
  && is_empty (st_Preview thread)
  && str_eqb (statusValue (AObj (st_Status thread))) "idle"
  && noTurns (st_Turns thread).

(** What follows the answer of [thread/read]. *)
Definition materialized (look : nat) (threadID cwd : string) (thread : storedThread) : res err bool :=
  let? _ := guard (negb (str_eqb (st_ID thread) threadID)) (EMsg "thread/read returned the wrong thread") in
  let? _ := guard (negb (str_eqb (st_Cwd thread) cwd)) (EMsg "thread/read returned the wrong working directory") in
  match st_Path thread with
  | None => Err (EMsg "thread/read returned no rollout path")
  | Some path =>
    let? _ := guard (is_empty path || negb (isAbs path) || negb (str_eqb (clean path) path))
                (EMsg "thread/read returned an invalid rollout path") in
    match disk look path with
    | StatAbsent =>
      let? _ := guard (negb (freshStored thread))
                  (EMsg "unmaterialized Codex thread is not a fresh idle application thread") in
      Ok false
    | StatFailed e => Err (EWrap "inspect Codex thread rollout" e)
    | StatFound regular =>
      let? _ := guard (negb regular) (EMsg "Codex thread rollout is not a regular file") in
      Ok true
    end
  end.

Definition HistoryMaterialized (look : nat) (threadID cwd : string) : prog (res err bool) :=
  try! thread := Request "thread/read" [("threadId", AStr threadID)] (decField "thread" decStored) in
  Ret (materialized look threadID cwd thread).

Definition initialPageParams (threadID : string) : object :=
  [("threadId", AStr threadID); ("limit", ANum 1 0); ("sortDirection", AStr "asc"); ("itemsView", AStr "full")].

Definition initialMessageState (threadID text : string) : prog (res err (bool * bool)) :=
  try! _ := resumeThreadWithPolicy options threadID zeroPolicy false in
  try! '(data, next) := Request "thread/turns/list" (initialPageParams threadID) (decPage decInitialTurn) in
  Ret (initialVerdict text data next).

Definition initialMessageMatches (threadID text : string) : prog (res err bool) :=
  try! '(matched, _) := initialMessageState threadID text in Ret (Ok matched).

Definition freshIdle (threadID cwd : string) (t : idleThread) : bool :=
  negb (negb (str_eqb (it_ID t) threadID) || negb (str_eqb (it_Cwd t) cwd) || negb (threadSource sources (it_Source t))
        || negb (bool_decide (it_Ephemeral t = Some false)) || negb (str_eqb (it_HistoryMode t) "paginated")
        || negb (is_empty (it_Preview t)) || negb (is_empty (default "" (it_ForkedFromID t)))
        || negb (str_eqb (statusValue (AObj (it_Status t))) "idle") || negb (noTurns (it_Turns t))).

Definition requireFreshInitialThread (threadID cwd : string) : prog (res err unit) :=
  try! thread := Request "thread/read" [("threadId", AStr threadID)] (decField "thread" decIdle) in
  Ret (guard (negb (freshIdle threadID cwd thread)) (EMsg "initial request requires a fresh idle application thread")).

(** ** Waiting for the message to show *)

(** One round: [Ok true] when it shows, [Ok false] to look again. *)
Definition waitRound (look : nat) (threadID cwd text : string) : prog (res err bool) :=
  let! r := HistoryMaterialized look threadID cwd in
  match r with
  | Err e => if negb (initialRolloutPending e) then Ret (Err e) else Ret (Ok false)
  | Ok false => Ret (Ok false)
  | Ok true =>
    let! m := initialMessageMatches threadID text in
    match m with
    | Err e => if negb (initialHistoryPending e) then Ret (Err e) else Ret (Ok false)
    | Ok matched => Ret (Ok matched)
    end
  end.

Fixpoint waitForInitialMessage (n : nat) (threadID cwd text : string) : prog (res err unit) :=
  match n with
  | O => Ret (Err (EWrap "wait for persisted initial Codex request" EDeadline))
  | S n =>
    try! matched := waitRound (fuel - n) threadID cwd text in
    if matched then Ret (Ok tt) else
    Ctx (fun o => match o with
                  | Some e => Ret (Err (EWrap "wait for persisted initial Codex request" e))
                  | None => waitForInitialMessage n threadID cwd text
                  end)
  end.

(** ** The whole operation *)

Definition initialParams (threadID text : string) (n : normalizedTurnOptions) : object :=
  withContext n (setText "effort" (nt_ReasoningEffort n) (setText "model" (nt_Model n)
    [("threadId", AStr threadID); ("input", textInput text)])).

(** The message goes out, and is waited for. *)
Definition startInitial (threadID cwd text : string) (n : normalizedTurnOptions) : prog (res err unit) :=
  try! _ := Request "turn/start" (initialParams threadID text n) decAnything in
  waitForInitialMessage fuel threadID cwd text.

Definition EnsureInitialMessageWithOptions (threadID cwd text : string) (allowUnmaterializedStart : bool)
    (turn : TurnOptions) : prog (res err unit) :=
  try! n := checked (normalizeTurnOptions turn) in
  try! there := HistoryMaterialized 0 threadID cwd in
  if there then
    try! '(matched, empty) := initialMessageState threadID text in
    if matched then Ret (Ok tt) else
    if negb allowUnmaterializedStart || negb empty
    then Ret (Err (EMsg "materialized Codex thread has no initial user request")) else
    try! _ := requireFreshInitialThread threadID cwd in
    startInitial threadID cwd text n
  else if negb allowUnmaterializedStart
  then Ret (Err (EMsg "initial request may already have been accepted by the unmaterialized Codex thread"))
  else startInitial threadID cwd text n.

Definition EnsureInitialMessage (threadID cwd text : string) (allowUnmaterializedStart : bool) : prog (res err unit) :=
  EnsureInitialMessageWithOptions threadID cwd text allowUnmaterializedStart zeroOptions.
End initial.
