(* ===== verification/InitialMessageFacts.v ===== *)
(** * Properties of the initial message

    Whatever App Server answers, a call hands the initial message over at most
    once, only with the caller's grant and on an answer that shows a fresh idle
    thread, and it succeeds only on an answer that shows the message. *)
From S2P Require Import Prelude GoStd GoValue TurnOptions Ledger LedgerFacts Store LedgerFile Locality SubmissionDb Program Wire History Delivery DeliveryFacts.
From S2P Require Import Prompts HistoryReader Continuation Threads ThreadFacts InitialMessage.
From Stdlib Require Import String.
Open Scope Z_scope.
Open Scope codex_scope.

(** ** What the answers show *)

(** The first turn holds this one user message. *)
Definition showsMessage (text : string) (v : any) : Prop :=
  ∃ items rest next, decPage decInitialTurn v = Ok (Some (items :: rest), next) ∧
    initialRequests items = Ok [trimSpace text].
(** There is no turn. *)
Definition showsNoTurn (v : any) : Prop :=
  ∃ next, decPage decInitialTurn v = Ok (Some [], next) ∧ default "" next = "".

Lemma verdict_matched text data next empty :
  initialVerdict text data next = Ok (true, empty) →
  ∃ items rest, data = Some (items :: rest) ∧ initialRequests items = Ok [trimSpace text].
Proof.
  destruct data as [[|items rest]|]; simpl; [done| |done].
  destruct (initialRequests items) as [[|q [|]]|e] eqn:Ei; simpl; try done.
  destruct (str_eqb q (trimSpace text)) eqn:Eq; simpl; [|done]. apply str_eqb_eq in Eq as ->. eauto.
Qed.
Lemma verdict_empty text data next matched :
  initialVerdict text data next = Ok (matched, true) → data = Some [] ∧ default "" next = "".
Proof.
  destruct data as [[|items rest]|]; simpl; [|destruct (initialRequests items) as [[|q [|]]|e]; simpl; try done;
    by destruct (negb _)|done].
  intros [= _ He]. split; [done|]. by apply is_empty_true.
Qed.

Section call.
Context (options : clientOptions) (sources : list string) (fuel : nat) (disk : nat → string → fileStat).
Context {W E : Type} `{SubmissionStore W E} (rely : W → W → Prop).

(** What a first submission rests on: the thread is fresh and has no rollout, or
    it has one without a turn and is still fresh and idle afterwards. *)
Inductive grounds (t cwd : string) : list event → Prop :=
| no_rollout ps v thread path :
    decField "thread" decStored v = Ok thread → st_ID thread = t → st_Cwd thread = cwd →
    st_Path thread = Some path → disk 0%nat path = StatAbsent → freshStored sources thread = true →
    grounds t cwd [EvWire "thread/read" ps (Replied v)]
| empty_rollout p1 v1 p2 v2 p3 v3 p4 v4 thread :
    showsNoTurn v3 → decField "thread" decIdle v4 = Ok thread → freshIdle sources t cwd thread = true →
    grounds t cwd [EvWire "thread/read" p1 (Replied v1); EvWire "thread/resume" p2 (Replied v2);
                   EvWire "thread/turns/list" p3 (Replied v3); EvWire "thread/read" p4 (Replied v4)].

Definition silentEvs (evs : list event) : Prop := Forall (fun ev => isDelivery ev = false) evs.
(** The answers end with one that shows the message. *)
Definition endsShown (text : string) (evs : list event) : Prop :=
  ∃ pre ps v, evs = pre ++ [EvWire "thread/turns/list" ps (Replied v)] ∧ showsMessage text v.
Definition watched (text : string) (tr tr' : list event) (r : res err unit) : Prop :=
  ∃ evs, tr' = tr ++ evs ∧ silentEvs evs ∧ (r = Ok tt → endsShown text evs).

Lemma HistoryMaterialized_sent look t cwd w tr :
  wp rely (HistoryMaterialized options sources disk look t cwd) w tr (fun _ tr' r =>
    (tr' = tr ∧ is_ok r = false) ∨
    ∃ ps reply, tr' = tr ++ [EvWire "thread/read" ps reply] ∧
      ∀ b, r = Ok b → ∃ v thread, reply = Replied v ∧ decField "thread" decStored v = Ok thread ∧
        materialized sources disk look t cwd thread = Ok b).
Proof.
  apply wp_bindOk. eapply wp_mono, Request_sent.
  intros w' tr' [thread|e] [[-> Hr]|(ps & reply & -> & _ & Hx)]; try done; [| by left |].
  - right. exists ps, reply. split; [done|]. intros b Hb. destruct (Hx _ eq_refl) as (v & -> & Hv). by exists v, thread.
  - right. by exists ps, reply.
Qed.

Lemma state_sent t text w tr :
  wp rely (initialMessageState options t text) w tr (fun _ tr' r =>
    ∃ evs, tr' = tr ++ evs ∧ silentEvs evs ∧
    ∀ m e, r = Ok (m, e) → ∃ p2 v2 p3 v3 data next,
      evs = [EvWire "thread/resume" p2 (Replied v2); EvWire "thread/turns/list" p3 (Replied v3)] ∧
      decPage decInitialTurn v3 = Ok (data, next) ∧ initialVerdict text data next = Ok (m, e)).
Proof.
  apply wp_bindOk. eapply wp_mono, resume_sent. intros w1 tr1 [u|e] [[-> Hr]|(p2 & reply & -> & Hv)]; try done.
  - destruct (Hv eq_refl) as (v2 & ->). apply wp_bindOk. eapply wp_mono, Request_sent.
    intros w2 tr2 [[data next]|e2] [[-> Hr2]|(p3 & reply3 & -> & _ & Hx)]; try done.
    + destruct (Hx _ eq_refl) as (v3 & -> & Hd). eexists. rewrite <-app_assoc. split_and!; [done|by repeat constructor|].
      intros m e Hm. by exists p2, v2, p3, v3, data, next.
    + eexists. split_and!; [done|by repeat constructor|done].
    + eexists. rewrite <-app_assoc. split_and!; [done|by repeat constructor|done].
  - exists []. rewrite app_nil_r. split_and!; [done|by constructor|done].
  - eexists. split_and!; [done|by repeat constructor|done].
Qed.

Lemma materialized_absent look t cwd thread :
  materialized sources disk look t cwd thread = Ok false →
  ∃ path, st_ID thread = t ∧ st_Cwd thread = cwd ∧ st_Path thread = Some path ∧
    disk look path = StatAbsent ∧ freshStored sources thread = true.
Proof.
  unfold materialized, guard. destruct (str_eqb (st_ID thread) t) eqn:E1; [|done].
  destruct (str_eqb (st_Cwd thread) cwd) eqn:E2; [|done]. simpl. destruct (st_Path thread) as [path|]; [|done].
  destruct (_ || _ || _); simpl; [done|]. destruct (disk look path) as [|e|regular] eqn:Ed; [|done|destruct regular; simpl; done].
  destruct (freshStored sources thread); simpl; [|done]. intros _. apply str_eqb_eq in E1, E2. eauto 6.
Qed.

Lemma round_sent look t cwd text w tr :
  wp rely (waitRound options sources disk look t cwd text) w tr (fun _ tr' r =>
    ∃ evs, tr' = tr ++ evs ∧ silentEvs evs ∧ (r = Ok true → endsShown text evs)).
Proof.
  apply wp_bind. eapply wp_mono, HistoryMaterialized_sent. intros w1 tr1 r1 Hr1.
  assert (∃ evs, tr1 = tr ++ evs ∧ silentEvs evs) as (evs & -> & Hevs).
  { destruct Hr1 as [[-> _]|(ps & reply & -> & _)]; [exists []; rewrite app_nil_r; by split; [|constructor]|].
    eexists. split; [done|]. by repeat constructor. }
  clear Hr1. destruct r1 as [[|]|e].
  - apply wp_bind. apply wp_bindOk. eapply wp_mono, state_sent.
    intros w2 tr2 r2 (evs2 & -> & Hevs2 & Hx). assert (silentEvs (evs ++ evs2)) by by apply Forall_app.
    destruct r2 as [[m e]|e].
    + cbn [wp]. exists (evs ++ evs2). rewrite app_assoc. split_and!; [done|done|]. intros [= ->].
      destruct (Hx _ _ eq_refl) as (p2 & v2 & p3 & v3 & data & next & -> & Hd & Hv).
      destruct (verdict_matched _ _ _ _ Hv) as (items & rest & -> & Hi).
      eexists (evs ++ [_]), p3, v3. rewrite <-app_assoc. split; [done|]. by exists items, rest, next.
    + cbn [wp]. destruct (negb _); exists (evs ++ evs2); by rewrite app_assoc.
  - by exists evs.
  - destruct (negb _); by exists evs.
Qed.

Lemma wait_watched n t cwd text w tr :
  wp rely (waitForInitialMessage options sources fuel disk n t cwd text) w tr (fun _ tr' r => watched text tr tr' r).
Proof.
  revert w tr. induction n as [|n IH]; intros w tr; cbn [waitForInitialMessage].
  { exists []. rewrite app_nil_r. by split_and!; [|constructor|]. }
  apply wp_bindOk. eapply wp_mono, round_sent. intros w1 tr1 [[|]|e] (evs & -> & Hevs & Hs).
  - exists evs. split_and!; [done|done|]. intros _. by apply Hs.
  - intros o _. destruct o as [e|]; [by exists evs|]. eapply wp_mono, IH. intros w2 tr2 r (evs2 & -> & Hevs2 & Hx).
    exists (evs ++ evs2). rewrite app_assoc. split_and!; [done|by apply Forall_app|]. intros Hr.
    destruct (Hx Hr) as (pre & ps & v & -> & Hv). exists (evs ++ pre), ps, v. by rewrite app_assoc.
  - by exists evs.
Qed.

(** ** A whole call *)

(** After the grounds: nothing, or the message and then what waiting finds. *)
Definition started (t text : string) (n : normalizedTurnOptions) (tr tr' : list event) (r : res err unit) : Prop :=
  (tr' = tr ∧ is_ok r = false) ∨
  ∃ reply rest, tr' = tr ++ EvWire "turn/start" (AObj (initialParams t text n)) reply :: rest ∧ silentEvs rest ∧
    (r = Ok tt → endsShown text rest) ∧ (rest ≠ [] ∨ r = Ok tt → ∃ v, reply = Replied v).

Lemma start_started t cwd text n w tr :
  wp rely (startInitial options sources fuel disk t cwd text n) w tr (fun _ tr' r => started t text n tr tr' r).
Proof.
  apply wp_bindOk. eapply wp_mono, Request_sent. intros w1 tr1 [u|e] [[-> Hr]|(ps & reply & -> & Hps & Hx)]; try done.
  - rewrite (Hps eq_refl). destruct (Hx _ eq_refl) as (v & -> & _). eapply wp_mono, wait_watched.
    intros w2 tr2 r (evs & -> & Hevs & Hs). right. exists (Replied v), evs. rewrite <-app_assoc.
    split_and!; [done|done|done|]. by exists v.
  - by left.
  - rewrite (Hps eq_refl). right. exists reply, []. split_and!; [done|by constructor|done|]. by intros [?|?].
Qed.

(** What a call did, and what its answer rests on. *)
Definition ensured (t cwd text : string) (allow : bool) (turn : TurnOptions) (tr : list event) (r : res err unit) : Prop :=
  (r = Ok tt → endsShown text tr) ∧
  (silentEvs tr ∨
   allow = true ∧ ∃ n before reply rest, normalizeTurnOptions turn = Ok n ∧ grounds t cwd before ∧
     tr = before ++ EvWire "turn/start" (AObj (initialParams t text n)) reply :: rest ∧ silentEvs rest ∧
     (rest ≠ [] ∨ r = Ok tt → ∃ v, reply = Replied v)).

Lemma grounds_silent t cwd evs : grounds t cwd evs → silentEvs evs.
Proof. by intros []; repeat constructor. Qed.
Lemma endsShown_app text a b : endsShown text b → endsShown text (a ++ b).
Proof. intros (pre & ps & v & -> & Hv). exists (a ++ pre), ps, v. by rewrite app_assoc. Qed.

Lemma started_ensured t cwd text turn n before tr r :
  normalizeTurnOptions turn = Ok n → grounds t cwd before → started t text n before tr r →
  ensured t cwd text true turn tr r.
Proof.
  intros Hn Hg [[-> Hr]|(reply & rest & -> & Hrest & Hs & Hv)].
  - split; [by intros ->|]. left. by eapply grounds_silent.
  - split; [|right; split; [done|]; by exists n, before, reply, rest].
    intros Hok. apply endsShown_app. change (?x :: rest) with ([x] ++ rest). by apply endsShown_app, Hs.
Qed.

Lemma silent_ensured t cwd text allow turn tr r :
  silentEvs tr → is_ok r = false → ensured t cwd text allow turn tr r.
Proof. intros Hs Hr. split; [by intros ->|by left]. Qed.

(** C10. Whatever App Server answers, a call hands the initial message over at most
    once and with exactly the given text and options, only when the caller granted
    the first submission, and only right after answers that show the thread fresh,
    idle and without a turn; it tells success only when the last answer shows a
    first turn whose one user message is this text. *)
Theorem initial_message_once t cwd text allow turn w :
  wp rely (EnsureInitialMessageWithOptions options sources fuel disk t cwd text allow turn) w []
    (fun _ tr r => ensured t cwd text allow turn tr r).
Proof.
  apply wp_bindOk. unfold checked. cbn [wp]. destruct (normalizeTurnOptions turn) as [n|e] eqn:En; [|by apply silent_ensured; [constructor|]].
  apply wp_bindOk. eapply wp_mono, HistoryMaterialized_sent.
  intros w1 tr1 r1 [[-> Hr]|(ps & reply & -> & Hx)]; (destruct r1 as [[|]|e]; [..|by apply silent_ensured; [repeat constructor|]]); try done.
  - destruct (Hx _ eq_refl) as (v1 & thread & -> & _). apply wp_bindOk. eapply wp_mono, state_sent.
    intros w2 tr2 r2 (evs & -> & Hevs & Hy). assert (silentEvs ([EvWire "thread/read" ps (Replied v1)] ++ evs))
      by (apply Forall_app; split; [by repeat constructor|done]).
    destruct r2 as [[[|] empty]|e]; [..|by apply silent_ensured].
    + destruct (Hy _ _ eq_refl) as (p2 & v2 & p3 & v3 & data & next & -> & Hd & Hv).
      destruct (verdict_matched _ _ _ _ Hv) as (items & rest & -> & Hi). split; [|by left].
      intros _. eexists [_; _], p3, v3. split; [done|]. by exists items, rest, next.
    + destruct allow, empty; cbn [negb orb]; try (by apply silent_ensured). apply wp_bindOk, wp_bindOk.
      eapply wp_mono, Request_sent. intros w3 tr3 [idle|e] Hidle;
        [|apply silent_ensured; [|done]; destruct Hidle as [[-> _]|(? & ? & -> & _)]; [done|];
          apply Forall_app; split; [done|by repeat constructor]].
      destruct Hidle as [[_ ?]|(p4 & reply & -> & _ & Hz)]; [done|]. destruct (Hz _ eq_refl) as (v4 & -> & Hd4).
      unfold guard. destruct (freshIdle sources t cwd idle) eqn:Ef; cbn [negb wp];
        [|apply silent_ensured; [|done]; apply Forall_app; split; [done|by repeat constructor]].
      destruct (Hy _ _ eq_refl) as (p2 & v2 & p3 & v3 & data & next & -> & Hd & Hv).
      destruct (verdict_empty _ _ _ _ Hv) as [-> Hne].
      eapply wp_mono, start_started. intros w4 tr4 r4 Hs. eapply started_ensured; [done| |exact Hs].
      eapply empty_rollout; [by exists next|done|done].
  - destruct (Hx _ eq_refl) as (v1 & thread & -> & Hd & Hm).
    destruct allow; cbn [negb]; [|by apply silent_ensured; [repeat constructor|]].
    destruct (materialized_absent _ _ _ _ Hm) as (path & H1 & H2 & H3 & H4 & H5).
    eapply wp_mono, start_started. intros w4 tr4 r4 Hs. eapply started_ensured; [done| |exact Hs].
    by eapply no_rollout.
Qed.
End call.

(** ** Two runs *)

Definition plainOptions : clientOptions := mkClientOptions false "" false false None None.
Definition calmNet : netEnv := mkNet None None true None None None true None None None.
Definition freshReply : any :=
  AObj [("thread", AObj [("id", AStr "thread"); ("cwd", AStr "/work"); ("path", AStr "/rollout.jsonl");
    ("source", AStr "cli"); ("ephemeral", ABool false); ("historyMode", AStr "paginated"); ("preview", AStr "");
    ("status", AObj [("type", AStr "idle")]); ("turns", AArr [])])].
Definition firstTurnReply : any :=
  AObj [("data", AArr [AObj [("items", AArr [AObj [("type", AStr "userMessage");
    ("content", AArr [AObj [("type", AStr "text"); ("text", AStr "hello ")]])]])]])].
(** The rollout is there from the second look on. *)
Definition laterDisk (look : nat) (path : string) : fileStat :=
  match look with O => StatAbsent | _ => StatFound true end.
Definition say (v : any) : list (answer dbEnv) := [OnNet calmNet; OnWire (Replied v)].

Definition ensureDemo (allow : bool) : prog (res err unit) :=
  EnsureInitialMessageWithOptions plainOptions ["cli"] 3 laterDisk "thread" "/work" "hello" allow zeroOptions.

(** A fresh thread gets the message, which then shows. *)
Example initial_message_sent :
  match drive (ensureDemo true) (say freshReply ++ say (AObj []) ++ say freshReply ++ say (AObj []) ++ say firstTurnReply)
          (∅ : database) [] with
  | Some (r, _, tr) => r = Ok tt ∧ Datatypes.length (filter (fun ev => isDelivery ev = true) tr) = 1%nat
  | None => False
  end.
Proof. vm_compute. by split. Qed.

(** Without the grant nothing is sent. *)
Example initial_message_withheld :
  match drive (ensureDemo false) (say freshReply) (∅ : database) [] with
  | Some (r, _, tr) => is_ok r = false ∧ filter (fun ev => isDelivery ev = true) tr = []
  | None => False
  end.
Proof. vm_compute. by split. Qed.
