(* ===== verification/Subscriptions.v ===== *)
(** * Subscriptions to threads

    [Subscribe], [removeWatch], [restoreWatched], [RefreshThreadSubscription],
    [resumeWatchedGeneration], [unsubscribeThread] and [broadcast] of
    [src/codex/client.go] (1663-1869, 1955-1967), the handling of [thread/closed]
    (1377-1384), and which thread [restoreObserved] of [src/codex/observer.go]
    resumes on which connection.

    Callers, goroutines, the reader and the connection interleave: a call is a
    [job] whose program counter stands between its locked sections, and [act]
    is one section. The per-thread lock [watchLock] is held from [RHeld] on and
    released by the section that ends the job. [w_log] is the order in which App
    Server accepted resumes, was handed unsubscribes and told that it closed a
    thread. Generations count connections; 2^64 of them are not made. *)
From Stdlib Require Import String.
From S2P Require Import Prelude GoStd GoValue.
Open Scope Z_scope.

(** ** State *)

(** What a connection carried, in order. *)
Inductive levent :=
| LResume (t : string) (g : Z)      (** [thread/resume] was accepted *)
| LUnsubscribe (t : string) (g : Z) (** [thread/unsubscribe] was handed over *)
| LClosed (t : string) (g : Z).     (** [thread/closed] came *)

(** Where [resumeWatchedGeneration] stands. *)
Inductive resumePc :=
| RStart                (** before the lock *)
| RHeld                 (** the lock is held *)
| RRead (g : Z)         (** the generation was read *)
| RAsk (g : Z)          (** the thread is watched and not covered *)
| RAnswered (g : Z).    (** the request was accepted *)

(** Where a subscription stands; [SOpen] remembers the generation its thread was
    covered on when [Subscribe] returned. *)
Inductive subPc :=
| SEnsure | SResume (p : resumePc) | SOpen (cover : option Z) | SRemove | SGone.

Inductive job :=
| JSub (t : string) (p : subPc)                    (** [Subscribe] and what it returned; the channel is the job's number *)
| JResume (t : string) (expected : Z) (p : resumePc) (** a goroutine of [restoreWatched], or a refresh *)
| JUnsubscribe (t : string) (held : bool)          (** [unsubscribeThread] *)
| JHold (t : string)                               (** an update of the thread's settings, which holds the lock *)
| JDone.

Record watchState := mkWatch {
  w_watched : gmap string Z; w_covered : gmap string Z; (** [watchedGeneration] *)
  w_subscribers : gmap nat (string * bool);             (** the thread of a channel, and whether its buffer is full *)
  w_locks : gset string;
  w_connected : bool; w_generation : Z; w_ready : Z;
  w_jobs : list job; w_log : list levent }.

Definition newWatch : watchState := mkWatch ∅ ∅ ∅ ∅ false 0 0 [] [].

Definition withWatches (watched covered : gmap string Z) (s : watchState) : watchState :=
  mkWatch watched covered (w_subscribers s) (w_locks s) (w_connected s) (w_generation s) (w_ready s) (w_jobs s) (w_log s).
Definition withSubscribers (m : gmap nat (string * bool)) (s : watchState) : watchState :=
  mkWatch (w_watched s) (w_covered s) m (w_locks s) (w_connected s) (w_generation s) (w_ready s) (w_jobs s) (w_log s).
Definition withLocks (l : gset string) (s : watchState) : watchState :=
  mkWatch (w_watched s) (w_covered s) (w_subscribers s) l (w_connected s) (w_generation s) (w_ready s) (w_jobs s) (w_log s).
Definition withConn (connected : bool) (generation ready : Z) (s : watchState) : watchState :=
  mkWatch (w_watched s) (w_covered s) (w_subscribers s) (w_locks s) connected generation ready (w_jobs s) (w_log s).
Definition withJobs (jobs : list job) (s : watchState) : watchState :=
  mkWatch (w_watched s) (w_covered s) (w_subscribers s) (w_locks s) (w_connected s) (w_generation s) (w_ready s) jobs (w_log s).
Definition logged (e : levent) (s : watchState) : watchState :=
  mkWatch (w_watched s) (w_covered s) (w_subscribers s) (w_locks s) (w_connected s) (w_generation s) (w_ready s)
    (w_jobs s) (w_log s ++ [e]).

Definition watchCount (t : string) (s : watchState) : Z := default 0 (w_watched s !! t).
Definition acquire (t : string) (s : watchState) : watchState := withLocks ({[t]} ∪ w_locks s) s.
Definition release (t : string) (s : watchState) : watchState := withLocks (w_locks s ∖ {[t]}) s.
Definition spawn (j : job) (s : watchState) : watchState := withJobs (w_jobs s ++ [j]) s.
Definition setJob (i : nat) (j : job) (s : watchState) : watchState := withJobs (<[i := j]> (w_jobs s)) s.
(** [if c.watched[t] > 0 { c.watchedGeneration[t] = g }] *)
Definition cover (t : string) (g : Z) (s : watchState) : watchState :=
  if 0 <? watchCount t s then withWatches (w_watched s) (<[t := g]> (w_covered s)) s else s.
Definition uncover (t : string) (s : watchState) : watchState := withWatches (w_watched s) (delete t (w_covered s)) s.
(** Connected, and ready at this generation. *)
Definition connReady (s : watchState) : bool := w_connected s && (w_ready s =? w_generation s).

(** ** Sections *)

Record watchConfig := mkWatchConfig { wc_observer : bool; wc_AllowImplicitResume : option (string → bool) }.

Inductive resumeOut :=
| RGo (p : resumePc)
| REnd (r : res err (option Z)).  (** returned; the generation the thread is covered on, when that is known *)

Section sections.
Context (config : watchConfig).

(** One section of [resumeWatchedGeneration]; [ok] is what the context or App
    Server answers there. The ending sections release the lock. *)
Definition resumeStep (ok : bool) (t : string) (expected : Z) (p : resumePc) (s : watchState)
    : option (resumeOut * watchState) :=
  let failed := Some (REnd (Err (EMsg "resume")), release t s) in
  match p with
  | RStart => if bool_decide (t ∈ w_locks s) then None else Some (RGo RHeld, acquire t s)
  | RHeld =>
    if negb ok then failed
    else if negb (expected =? 0) && negb (w_generation s =? expected) then failed
    else Some (RGo (RRead (w_generation s)), s)
  | RRead g =>
    if watchCount t s =? 0 then Some (REnd (Ok None), release t s)
    else if default 0 (w_covered s !! t) =? g then Some (REnd (Ok (w_covered s !! t)), release t s)
    else Some (RGo (RAsk g), s)
  | RAsk g =>
    let held := match wc_AllowImplicitResume config with Some allowed => negb (allowed t) | None => false end in
    let exact := wc_observer config || match wc_AllowImplicitResume config with Some _ => true | None => false end in
    if held then failed
    else if exact && negb (g =? 0) && negb (w_generation s =? g) then failed
    else if negb (connReady s) then failed
    else if ok then Some (RGo (RAnswered g), logged (LResume t (w_generation s)) s)
    else failed
  | RAnswered g =>
    if negb (w_connected s) || negb (w_generation s =? g) || negb (w_ready s =? g)
    then Some (REnd (Ok None),
               release t (if wc_observer config && (w_generation s =? g) then cover t g s else s))
    else Some (REnd (Ok (Some g)), release t (cover t g s))
  end.

(** ** The calls *)

(** [Subscribe] up to [Ensure]: the thread is counted and the channel registered.
    The two sections are one step: a broadcast that comes between them and misses
    the channel is here one that signals it. *)
Definition Subscribe (t : string) (s : watchState) : watchState :=
  let channel := Datatypes.length (w_jobs s) in
  let s := withWatches (<[t := watchCount t s + 1]> (w_watched s)) (w_covered s) s in
  spawn (JSub t SEnsure) (withSubscribers (<[channel := (t, false)]> (w_subscribers s)) s).

(** The function [Subscribe] returns, also called when it fails: it acts once. *)
Definition unsubscribe (i : nat) (t : string) (s : watchState) : watchState :=
  match w_subscribers s !! i with
  | Some _ => setJob i (JSub t SRemove) (withSubscribers (delete i (w_subscribers s)) s)
  | None => s
  end.

(** [removeWatch] under the lock; the last one starts [unsubscribeThread]. *)
Definition removeWatch (i : nat) (t : string) (s : watchState) : watchState :=
  if watchCount t s <=? 1
  then spawn (JUnsubscribe t false)
         (setJob i (JSub t SGone) (withWatches (delete t (w_watched s)) (delete t (w_covered s)) s))
  else setJob i (JSub t SGone) (withWatches (<[t := watchCount t s - 1]> (w_watched s)) (w_covered s) s).

(** A goroutine for each watched thread; an observer's resumes are for this
    connection only, and there are none unless it is ready. The
    observer's look at [closed] is left out: here a closed client may still start
    resumes, so more runs are considered than the code has. *)
Definition restoreWatched (s : watchState) : watchState :=
  let threads := (map_to_list (w_watched s)).*1 in
  let start (expected : Z) := fold_left (fun s t => spawn (JResume t expected RStart) s) threads s in
  if wc_observer config then if connReady s then start (w_generation s) else s else start 0.

(** The cover goes first; [ensured] is the result of [Ensure]. *)
Definition RefreshThreadSubscription (t : string) (ensured : bool) (s : watchState) : watchState :=
  let watched := 0 <? watchCount t s in
  let s := uncover t s in
  if watched && ensured then spawn (JResume t 0 RStart) s else s.

(** The reader's part of [thread/closed]. *)
Definition handleClosed (t : string) (g : Z) (s : watchState) : watchState := logged (LClosed t g) (uncover t s).

(** A full buffer drops the signal. *)
Definition broadcast (t : string) (s : watchState) : watchState :=
  withSubscribers ((fun '(thread, full) => (thread, full || is_empty t || str_eqb thread t)) <$> w_subscribers s) s.

Inductive action :=
| ASubscribe (t : string)
| AEnsured (i : nat) (ok : bool)           (** the result of [Ensure] in [Subscribe] *)
| AResume (i : nat) (ok : bool)            (** a section of the resume of job [i] *)
| AUnsubscribe (i : nat)                   (** the caller gives its subscription back *)
| ARemove (i : nat)
| AUnsubscribeThread (i : nat) (sent : bool)
| AHold (t : string) | ARelease (i : nat)
| ARestore                                 (** the connection became ready *)
| ARefresh (t : string) (ok : bool)
| AOtherResume (t : string)                (** an accepted resume of another call *)
| ADial | AReady | ADetach
| AClosed (t : string) (g : Z)             (** the reader handles [thread/closed] *)
| ABroadcast (t : string) | AReceive (i : nat).

(** A section of the resume of a subscription or of a goroutine. *)
Definition resumeJob (i : nat) (ok : bool) (s : watchState) : option watchState :=
  match w_jobs s !! i with
  | Some (JSub t (SResume p)) =>
    match resumeStep ok t 0 p s with
    | Some (RGo p', s') => Some (setJob i (JSub t (SResume p')) s')
    | Some (REnd (Ok covered), s') => Some (setJob i (JSub t (SOpen covered)) s')
    | Some (REnd (Err _), s') => Some (unsubscribe i t (setJob i (JSub t (SOpen None)) s'))
    | None => None
    end
  | Some (JResume t expected p) =>
    match resumeStep ok t expected p s with
    | Some (RGo p', s') => Some (setJob i (JResume t expected p') s')
    | Some (REnd _, s') => Some (setJob i JDone s')
    | None => None
    end
  | _ => None
  end.

Definition unsubscribeThread (i : nat) (sent : bool) (s : watchState) : option watchState :=
  match w_jobs s !! i with
  | Some (JUnsubscribe t false) =>
    if bool_decide (t ∈ w_locks s) then None
    else if 0 <? watchCount t s then Some (setJob i JDone s)
    else Some (setJob i (JUnsubscribe t true) (acquire t s))
  | Some (JUnsubscribe t true) =>
    let s' := setJob i JDone (release t s) in
    Some (if sent && connReady s then logged (LUnsubscribe t (w_generation s)) s' else s')
  | _ => None
  end.

Definition act (a : action) (s : watchState) : option watchState :=
  match a with
  | ASubscribe t => Some (Subscribe t s)
  | AEnsured i ok =>
    match w_jobs s !! i with
    | Some (JSub t SEnsure) => Some (if ok then setJob i (JSub t (SResume RStart)) s else unsubscribe i t s)
    | _ => None
    end
  | AResume i ok => resumeJob i ok s
  | AUnsubscribe i =>
    match w_jobs s !! i with Some (JSub t (SOpen _)) => Some (unsubscribe i t s) | _ => None end
  | ARemove i =>
    match w_jobs s !! i with
    | Some (JSub t SRemove) => if bool_decide (t ∈ w_locks s) then None else Some (removeWatch i t s)
    | _ => None
    end
  | AUnsubscribeThread i sent => unsubscribeThread i sent s
  | AHold t => if bool_decide (t ∈ w_locks s) then None else Some (spawn (JHold t) (acquire t s))
  | ARelease i => match w_jobs s !! i with Some (JHold t) => Some (setJob i JDone (release t s)) | _ => None end
  | ARestore => Some (restoreWatched s)
  | ARefresh t ok => Some (RefreshThreadSubscription t ok s)
  | AOtherResume t => if connReady s then Some (logged (LResume t (w_generation s)) s) else None
  | ADial => if w_connected s then None else Some (withConn true (w_generation s + 1) (w_ready s) s)
  | AReady => if w_connected s then Some (withConn true (w_generation s) (w_generation s) s) else None
  | ADetach => if w_connected s then Some (withConn false (w_generation s) 0 s) else None
  | AClosed t g => Some (handleClosed t g s)
  | ABroadcast t => Some (broadcast t s)
  | AReceive i =>
    match w_subscribers s !! i with
    | Some (t, true) => Some (withSubscribers (<[i := (t, false)]> (w_subscribers s)) s)
    | _ => None
    end
  end.
End sections.
