(* ===== verification/SubscriptionFacts.v ===== *)
(** * Properties of subscriptions

    Whatever interleaves, a thread that counts as covered on a connection was
    resumed there and not given up since, and a thread is watched exactly as
    often as subscriptions to it are open. *)
From Stdlib Require Import String.
From S2P Require Import Prelude GoStd GoValue Subscriptions.
Open Scope Z_scope.

(** ** Runs *)

Definition step (config : watchConfig) (s s' : watchState) : Prop := ∃ a, act config a s = Some s'.
Definition reachable (config : watchConfig) (s : watchState) : Prop := rtc (step config) newWatch s.

(** App Server accepted a resume of the thread on this connection, and was not
    asked to unsubscribe it there since. *)
Definition subscribedOn (log : list levent) (t : string) (g : Z) : Prop :=
  ∃ pre post, log = pre ++ LResume t g :: post ∧ LUnsubscribe t g ∉ post.

Lemma subscribedOn_snoc log t g e :
  subscribedOn log t g → e ≠ LUnsubscribe t g → subscribedOn (log ++ [e]) t g.
Proof.
  intros (pre & post & -> & Hn) He. exists pre, (post ++ [e]). rewrite <-app_assoc. split; [done|]. set_solver.
Qed.
Lemma subscribedOn_resumed log t g : subscribedOn (log ++ [LResume t g]) t g.
Proof. exists log, []. split; [done|]. set_solver. Qed.

(** ** Counting jobs *)

Definition countJobs (P : job → bool) (l : list job) : nat := Datatypes.length (List.filter P l).
Definition bit (b : bool) : nat := if b then 1%nat else 0%nat.

Lemma countJobs_insert P l i j j' :
  l !! i = Some j → (countJobs P (<[i := j']> l) + bit (P j) = countJobs P l + bit (P j'))%nat.
Proof.
  unfold countJobs. revert i. induction l as [|x l IH]; intros [|i] Hi; simplify_eq/=.
  - destruct (P j), (P j'); simpl; lia.
  - specialize (IH i Hi). destruct (P x); simpl; lia.
Qed.
Lemma countJobs_snoc P l j : countJobs P (l ++ [j]) = (countJobs P l + bit (P j))%nat.
Proof. unfold countJobs. rewrite List.filter_app, length_app. simpl. by destruct (P j). Qed.
Lemma countJobs_pos P l i j : l !! i = Some j → P j = true → (0 < countJobs P l)%nat.
Proof.
  unfold countJobs. revert i. induction l as [|x l IH]; intros [|i] Hi Hj; simplify_eq/=; [rewrite Hj; simpl; lia|].
  destruct (P x); simpl; [lia|by eapply IH].
Qed.
Lemma countJobs_one P l i k j j' :
  (countJobs P l ≤ 1)%nat → l !! i = Some j → P j = true → l !! k = Some j' → P j' = true → i = k.
Proof.
  unfold countJobs. revert i k. induction l as [|x l IH]; intros [|i] [|k] Hc Hi Hj Hk Hj'; simplify_eq/=; try done.
  - rewrite Hj in Hc. simpl in Hc. pose proof (countJobs_pos P l k j' Hk Hj') as Hp. unfold countJobs in Hp. lia.
  - rewrite Hj' in Hc. simpl in Hc. pose proof (countJobs_pos P l i j Hi Hj) as Hp. unfold countJobs in Hp. lia.
  - f_equal. eapply IH; [|done..]. destruct (P x); simpl in Hc; lia.
Qed.

(** A subscription that is not gone yet. *)
Definition live (t : string) (j : job) : bool :=
  match j with JSub t' p => str_eqb t' t && match p with SGone => false | _ => true end | _ => false end.
Definition heldPc (p : resumePc) : bool := match p with RStart => false | _ => true end.
(** A job that holds the lock of the thread. *)
Definition holds (t : string) (j : job) : bool :=
  match j with
  | JSub t' (SResume p) => str_eqb t' t && heldPc p
  | JResume t' _ p => str_eqb t' t && heldPc p
  | JUnsubscribe t' held => str_eqb t' t && held
  | JHold t' => str_eqb t' t
  | _ => false
  end.

(** ** The invariant *)

(** What a resume knows where it stands. *)
Definition pcOk (s : watchState) (t : string) (p : resumePc) : Prop :=
  match p with
  | RRead g | RAsk g => g ≤ w_generation s
  | RAnswered g => ∃ g', g ≤ g' ≤ w_generation s ∧ subscribedOn (w_log s) t g'
  | _ => True
  end.
Definition jobOk (s : watchState) (j : job) : Prop :=
  match j with
  | JSub t (SResume p) | JResume t _ p => pcOk s t p
  | JSub t (SOpen (Some g)) => subscribedOn (w_log s) t g
  | JUnsubscribe t true => w_covered s !! t = None
  | _ => True
  end.
(** While a thread is being unsubscribed no subscription to it has its cover. *)
Definition exclusive (s : watchState) : Prop :=
  ∀ t i k g, w_jobs s !! i = Some (JUnsubscribe t true) → w_jobs s !! k = Some (JSub t (SOpen (Some g))) → False.

Record watchInv (s : watchState) : Prop := {
  wi_covered : ∀ t g, w_covered s !! t = Some g → subscribedOn (w_log s) t g ∧ 0 < watchCount t s;
  wi_count : ∀ t, watchCount t s = Z.of_nat (countJobs (live t) (w_jobs s));
  wi_locks : ∀ t, countJobs (holds t) (w_jobs s) = bit (bool_decide (t ∈ w_locks s));
  wi_jobs : ∀ i j, w_jobs s !! i = Some j → jobOk s j;
  wi_exclusive : exclusive s }.

Lemma watchInv_new : watchInv newWatch.
Proof.
  split.
  - intros t g Hg. simpl in Hg. by rewrite lookup_empty in Hg.
  - intros t. unfold watchCount. simpl. by rewrite lookup_empty.
  - intros t. simpl. by rewrite bool_decide_false by set_solver.
  - done.
  - intros t i k g Hi. done.
Qed.

(** ** Changes that keep it *)

Definition keepsLog (s s' : watchState) : Prop := ∀ t g, subscribedOn (w_log s) t g → subscribedOn (w_log s') t g.

Lemma jobOk_keep s s' j :
  w_generation s ≤ w_generation s' → keepsLog s s' →
  (∀ t, j = JUnsubscribe t true → w_covered s' !! t = None) → jobOk s j → jobOk s' j.
Proof.
  intros Hg Hl Hc. assert (∀ t p, pcOk s t p → pcOk s' t p) as Hpc.
  { intros t [| |g|g|g]; simpl; try done; try lia. intros (g' & ? & ?). exists g'. split; [lia|]. by apply Hl. }
  destruct j as [t [|p|[g|]| |]|t e p|t [|]|t|]; simpl; auto.
Qed.

(** Two jobs cannot hold the same lock. *)
Lemma holds_unique s t i k j j' : watchInv s →
  w_jobs s !! i = Some j → holds t j = true → w_jobs s !! k = Some j' → holds t j' = true → i = k.
Proof.
  intros Hi Hj Hhj Hk Hhk. eapply (countJobs_one (holds t)); [|done..]. rewrite (wi_locks _ Hi).
  destruct (bool_decide _); simpl; lia.
Qed.

(** One job goes on. *)
Lemma inv_update s s' i j j' : watchInv s → w_jobs s !! i = Some j → w_jobs s' = <[i := j']> (w_jobs s) →
  (∀ t, watchCount t s' + Z.of_nat (bit (live t j)) = watchCount t s + Z.of_nat (bit (live t j'))) →
  (∀ t g, w_covered s' !! t = Some g → 0 < watchCount t s' ∧
     (w_covered s !! t = Some g ∨ subscribedOn (w_log s') t g ∧ holds t j = true)) →
  (∀ t, bit (bool_decide (t ∈ w_locks s')) + bit (holds t j) = bit (bool_decide (t ∈ w_locks s)) + bit (holds t j'))%nat →
  w_generation s ≤ w_generation s' → keepsLog s s' → jobOk s' j' →
  (∀ t g, j' = JSub t (SOpen (Some g)) → holds t j = true) →
  (∀ t, j' = JUnsubscribe t true → watchCount t s = 0) → watchInv s'.
Proof.
  intros Hi Hj Hjobs Hcount Hcov Hlocks Hgen Hlog Hok Hopen Huns. split.
  - intros t g Hg. destruct (Hcov t g Hg) as [Hpos [Hold|[Hs _]]]; [|done]. split; [|done].
    apply Hlog. by apply (wi_covered _ Hi).
  - intros t. rewrite Hjobs. pose proof (countJobs_insert (live t) _ i j j' Hj). pose proof (wi_count _ Hi t).
    specialize (Hcount t). lia.
  - intros t. rewrite Hjobs. pose proof (countJobs_insert (holds t) _ i j j' Hj). pose proof (wi_locks _ Hi t).
    specialize (Hlocks t). lia.
  - intros k x Hk. rewrite Hjobs in Hk. destruct (decide (k = i)) as [->|Hne].
    + rewrite list_lookup_insert_eq in Hk by (by eapply lookup_lt_Some). by simplify_eq.
    + rewrite list_lookup_insert_ne in Hk by done. apply (jobOk_keep s); [done|done| |by eapply (wi_jobs _ Hi)].
      intros t ->. destruct (w_covered s' !! t) as [g|] eqn:Eg; [|done]. exfalso.
      destruct (Hcov t g Eg) as [_ [Hold|[_ Hh]]].
      * pose proof (wi_jobs _ Hi _ _ Hk) as Hn. simpl in Hn. congruence.
      * apply Hne. eapply (holds_unique s t); [done|exact Hk| |exact Hj|done]. simpl. by rewrite str_eqb_refl.
  - intros t a b g Ha Hb. rewrite Hjobs in Ha, Hb.
    destruct (decide (a = i)) as [->|Hna]; [rewrite list_lookup_insert_eq in Ha by (by eapply lookup_lt_Some)|
      rewrite list_lookup_insert_ne in Ha by done];
    (destruct (decide (b = i)) as [->|Hnb]; [rewrite list_lookup_insert_eq in Hb by (by eapply lookup_lt_Some)|
      rewrite list_lookup_insert_ne in Hb by done]); simplify_eq.
    + pose proof (Huns t eq_refl) as Hz. rewrite (wi_count _ Hi) in Hz.
      pose proof (countJobs_pos (live t) _ _ _ Hb ltac:(simpl; by rewrite str_eqb_refl)). lia.
    + apply Hna. eapply (holds_unique s t); [done|exact Ha| |exact Hj|by eapply Hopen]. simpl. by rewrite str_eqb_refl.
    + by eapply (wi_exclusive _ Hi).
Qed.

(** A job is added. *)
Lemma inv_added s s' j : watchInv s → w_jobs s' = w_jobs s ++ [j] →
  (∀ t, watchCount t s' = watchCount t s + Z.of_nat (bit (live t j))) →
  (∀ t g, w_covered s' !! t = Some g → w_covered s !! t = Some g) →
  (∀ t, bit (bool_decide (t ∈ w_locks s')) = bit (bool_decide (t ∈ w_locks s)) + bit (holds t j))%nat →
  w_generation s' = w_generation s → w_log s' = w_log s → jobOk s' j →
  (∀ t g, j ≠ JSub t (SOpen (Some g))) → (∀ t, j ≠ JUnsubscribe t true) → watchInv s'.
Proof.
  intros Hi Hjobs Hcount Hcov Hlocks Hgen Hlog Hok Hopen Huns.
  assert (∀ k x, w_jobs s' !! k = Some x → w_jobs s !! k = Some x ∨ x = j) as Hlook.
  { intros k x. rewrite Hjobs. intros [?|[_ Hx]]%lookup_app_Some; [by left|right]. by apply list_lookup_singleton_Some in Hx as [_ <-]. }
  split.
  - intros t g Hg. rewrite Hlog. destruct (wi_covered _ Hi t g (Hcov _ _ Hg)) as [? ?]. split; [done|]. rewrite Hcount. lia.
  - intros t. rewrite Hjobs, countJobs_snoc, Hcount, (wi_count _ Hi). lia.
  - intros t. rewrite Hjobs, countJobs_snoc, Hlocks, (wi_locks _ Hi). done.
  - intros k x Hk. destruct (Hlook k x Hk) as [Hold | ->]; [|done].
    apply (jobOk_keep s); [lia|by intros t g; rewrite Hlog| |by eapply (wi_jobs _ Hi)].
    intros t ->. pose proof (wi_jobs _ Hi _ _ Hold) as Hn. simpl in Hn.
    destruct (w_covered s' !! t) eqn:E; [|done]. apply Hcov in E. congruence.
  - intros t a b g Ha Hb. destruct (Hlook _ _ Ha) as [Ha'|Heq]; [|by destruct (Huns t)].
    destruct (Hlook _ _ Hb) as [Hb'|Heq]; [|by destruct (Hopen t g)]. by eapply (wi_exclusive _ Hi).
Qed.

(** Nothing but the connection, the log or covers that go. *)
Lemma inv_frame s s' : watchInv s → w_jobs s' = w_jobs s → w_watched s' = w_watched s →
  (∀ t g, w_covered s' !! t = Some g → w_covered s !! t = Some g) → w_locks s' = w_locks s →
  w_generation s ≤ w_generation s' → keepsLog s s' → watchInv s'.
Proof.
  intros Hi Hjobs Hwatched Hcov Hlocks Hgen Hlog. split.
  - intros t g Hg. destruct (wi_covered _ Hi t g (Hcov _ _ Hg)) as [? ?]. split; [by apply Hlog|].
    unfold watchCount in *. by rewrite Hwatched.
  - intros t. unfold watchCount. rewrite Hjobs, Hwatched. apply (wi_count _ Hi).
  - intros t. rewrite Hjobs, Hlocks. apply (wi_locks _ Hi).
  - intros k x Hk. rewrite Hjobs in Hk. apply (jobOk_keep s); [done|done| |by eapply (wi_jobs _ Hi)].
    intros t ->. pose proof (wi_jobs _ Hi _ _ Hk) as Hn. simpl in Hn.
    destruct (w_covered s' !! t) eqn:E; [|done]. apply Hcov in E. congruence.
  - intros t a b g Ha Hb. rewrite Hjobs in Ha, Hb. by eapply (wi_exclusive _ Hi).
Qed.

(** A thread that nobody has is unsubscribed. *)
Lemma inv_unsubscribed s t g : watchInv s → w_covered s !! t = None → t ∉ w_locks s →
  (∀ k g', w_jobs s !! k = Some (JSub t (SOpen (Some g'))) → False) → watchInv (logged (LUnsubscribe t g) s).
Proof.
  intros Hi Hcov Hfree Hopen.
  assert (∀ t' g', t' ≠ t → subscribedOn (w_log s) t' g' → subscribedOn (w_log (logged (LUnsubscribe t g) s)) t' g') as Hkeep.
  { intros t' g' Hne Hs. apply subscribedOn_snoc; [done|]. congruence. }
  assert (∀ k x, w_jobs s !! k = Some x → holds t x = false) as Hheld.
  { intros k x Hk. destruct (holds t x) eqn:E; [|done]. pose proof (countJobs_pos _ _ _ _ Hk E) as Hp.
    rewrite (wi_locks _ Hi), bool_decide_false in Hp by done. simpl in Hp. lia. }
  split; try apply Hi.
  - intros t' g' Hg. destruct (wi_covered _ Hi t' g' Hg) as [? ?]. split; [|done]. apply Hkeep; [|done].
    intros ->. simpl in Hg. congruence.
  - intros k x Hk. pose proof (wi_jobs _ Hi k x Hk) as Hok. specialize (Hheld k x Hk).
    assert (∀ t' p, str_eqb t' t && heldPc p = false → pcOk s t' p → pcOk (logged (LUnsubscribe t g) s) t' p) as Hpc.
    { intros t' [| |?|?|g0] Hf; simpl; try done. intros (g' & ? & ?). exists g'. split; [done|]. apply Hkeep; [|done].
      intros ->. by rewrite str_eqb_refl in Hf. }
    destruct x as [t' [|p|[g'|]| |]|t' e p|t' [|]|t'|]; simpl in *; auto.
    apply Hkeep; [|done]. intros ->. by eapply Hopen.
Qed.

(** ** Every section keeps it *)

Lemma bits_acquire t (L : gset string) t' : t ∉ L →
  bit (bool_decide (t' ∈ {[t]} ∪ L)) = (bit (bool_decide (t' ∈ L)) + bit (str_eqb t t'))%nat.
Proof.
  intros Ht. destruct (str_eqb t t') eqn:E.
  - apply str_eqb_eq in E as ->. rewrite bool_decide_true, bool_decide_false by set_solver. done.
  - apply str_eqb_neq in E. rewrite (bool_decide_ext _ (t' ∈ L)) by set_solver. simpl. lia.
Qed.
Lemma bits_release t (L : gset string) t' : t ∈ L →
  (bit (bool_decide (t' ∈ L ∖ {[t]})) + bit (str_eqb t t') = bit (bool_decide (t' ∈ L)))%nat.
Proof.
  intros Ht. destruct (str_eqb t t') eqn:E.
  - apply str_eqb_eq in E as ->. rewrite bool_decide_false, bool_decide_true by set_solver. done.
  - apply str_eqb_neq in E. rewrite (bool_decide_ext _ (t' ∈ L)) by set_solver. simpl. lia.
Qed.
Lemma holder_locked s t i j : watchInv s → w_jobs s !! i = Some j → holds t j = true → t ∈ w_locks s.
Proof.
  intros Hi Hj Hh. pose proof (countJobs_pos _ _ _ _ Hj Hh) as Hp. rewrite (wi_locks _ Hi) in Hp.
  destruct (decide (t ∈ w_locks s)) as [|Hn]; [done|]. rewrite bool_decide_false in Hp by done. simpl in Hp. lia.
Qed.

Lemma cover_facts t g s : let s' := cover t g s in
  w_jobs s' = w_jobs s ∧ w_watched s' = w_watched s ∧ w_locks s' = w_locks s ∧ w_generation s' = w_generation s ∧
  w_log s' = w_log s ∧
  ∀ t' g', w_covered s' !! t' = Some g' → w_covered s !! t' = Some g' ∨ t' = t ∧ g' = g ∧ 0 < watchCount t s.
Proof.
  unfold cover. destruct (0 <? watchCount t s) eqn:E; simpl; split_and!; try done; [|by left].
  intros t' g' Hg. destruct (decide (t' = t)) as [->|Hne].
  - rewrite lookup_insert_eq in Hg. simplify_eq. right. apply Z.ltb_lt in E. done.
  - rewrite lookup_insert_ne in Hg by done. by left.
Qed.

Section resuming.
Context (config : watchConfig) (t : string) (expected : Z) (mk : resumePc → job) (s : watchState) (i : nat) (p : resumePc).
Hypothesis (Hmk_holds : ∀ t' p, holds t' (mk p) = str_eqb t t' && heldPc p).
Hypothesis (Hmk_live : ∀ t' p p', live t' (mk p) = live t' (mk p')).
Hypothesis (Hmk_ok : ∀ s p, jobOk s (mk p) ↔ pcOk s t p).
Hypothesis (Hmk_open : ∀ p t' g, mk p ≠ JSub t' (SOpen (Some g))).
Hypothesis (Hmk_uns : ∀ p t', mk p ≠ JUnsubscribe t' true).
Hypothesis (Hi : watchInv s) (Hj : w_jobs s !! i = Some (mk p)).

Lemma resume_goes ok p' s1 : resumeStep config ok t expected p s = Some (RGo p', s1) → watchInv (setJob i (mk p') s1).
Proof using Hmk_holds Hmk_live Hmk_ok Hmk_open Hmk_uns Hi Hj.
  pose proof (proj1 (Hmk_ok s p) (wi_jobs _ Hi _ _ Hj)) as Hpc.
  assert (∀ s1, w_jobs s1 = w_jobs s → w_watched s1 = w_watched s → w_covered s1 = w_covered s →
    (∀ t', bit (bool_decide (t' ∈ w_locks s1)) + bit (str_eqb t t' && heldPc p) =
           bit (bool_decide (t' ∈ w_locks s)) + bit (str_eqb t t' && heldPc p'))%nat →
    w_generation s1 = w_generation s → keepsLog s s1 → pcOk s1 t p' → watchInv (setJob i (mk p') s1)) as Hstep.
  { intros s2 Ejobs Ewatch Ecov Elocks Egen Elog Hok. eapply (inv_update s); [done|exact Hj|simpl; by rewrite Ejobs|..].
    - intros t'. unfold watchCount. simpl. rewrite Ewatch, (Hmk_live t' p' p). lia.
    - intros t' g Hg. simpl in Hg. rewrite Ecov in Hg. split; [|by left]. unfold watchCount. simpl. rewrite Ewatch.
      by destruct (wi_covered _ Hi t' g Hg).
    - intros t'. simpl. rewrite !Hmk_holds. apply Elocks.
    - simpl. lia.
    - exact Elog.
    - by apply Hmk_ok.
    - intros t' g Heq. by destruct (Hmk_open p' t' g).
    - intros t' Heq. by destruct (Hmk_uns p' t'). }
  destruct p as [| |g|g|g]; simpl; intros Hr.
  - case_bool_decide as Hl; [done|]. simplify_eq/=. apply Hstep; simpl; try done; [|by intros ? ?].
    intros t'. rewrite bits_acquire by done. rewrite andb_false_r, andb_true_r. simpl. lia.
  - destruct (negb ok); [done|]. destruct (_ && _); [done|]. simplify_eq/=. apply Hstep; simpl; try done; first [lia | by intros ? ?].
  - destruct (_ =? 0); [done|]. destruct (_ =? g); [done|]. simplify_eq/=. apply Hstep; simpl; try done. by intros ? ?.
  - destruct (match wc_AllowImplicitResume config with Some _ => _ | None => _ end); [done|].
    destruct (_ && _ && _); [done|]. destruct (negb _); [done|]. destruct ok; [|done]. simplify_eq/=.
    apply Hstep; simpl; try done.
    + intros t' g' Hs. by apply subscribedOn_snoc.
    + exists (w_generation s). split; [simpl in Hpc; lia|]. apply subscribedOn_resumed.
  - destruct (_ || _); done.
Qed.

Lemma resume_ends ok r s1 je :
  resumeStep config ok t expected p s = Some (REnd r, s1) →
  (∀ t', holds t' je = false) → (∀ t', live t' je = live t' (mk p)) →
  ((∀ g, r = Ok (Some g) → subscribedOn (w_log s1) t g) → jobOk (setJob i je s1) je) →
  (∀ t' g, je = JSub t' (SOpen (Some g)) → t' = t) → (∀ t', je ≠ JUnsubscribe t' true) →
  watchInv (setJob i je s1).
Proof using Hmk_holds Hmk_live Hmk_ok Hi Hj.
  intros Hr Hholds Hlive Hje Hopen Huns. pose proof (proj1 (Hmk_ok s p) (wi_jobs _ Hi _ _ Hj)) as Hpc.
  assert (heldPc p = true) as Hheld.
  { destruct p; try done. simpl in Hr. by case_bool_decide. }
  assert (t ∈ w_locks s) as Hlocked.
  { eapply holder_locked; [done|exact Hj|]. by rewrite Hmk_holds, str_eqb_refl, Hheld. }
  (** The state before the lock is released differs in covers of this thread only. *)
  assert (∃ s0, s1 = release t s0 ∧ w_jobs s0 = w_jobs s ∧ w_watched s0 = w_watched s ∧ w_locks s0 = w_locks s ∧
    w_generation s0 = w_generation s ∧ w_log s0 = w_log s ∧
    (∀ t' g', w_covered s0 !! t' = Some g' →
       w_covered s !! t' = Some g' ∨ t' = t ∧ 0 < watchCount t s ∧ subscribedOn (w_log s) t g') ∧
    ∀ g, r = Ok (Some g) → subscribedOn (w_log s) t g) as (s0 & -> & Ejobs & Ewatch & Elocks & Egen & Elog & Hcov & Hsub).
  { destruct p as [| |g|g|g]; simpl in Hr; [by case_bool_decide|..].
    - exists s. destruct (negb ok); [|destruct (_ && _); [|done]]; simplify_eq/=; split_and!; auto; done.
    - exists s. destruct (_ =? 0); [simplify_eq/=; split_and!; auto; done|].
      destruct (_ =? g); [|done]. simplify_eq/=. split_and!; auto. intros g' [= Hg']. by apply (wi_covered _ Hi).
    - exists s. destruct (match wc_AllowImplicitResume config with Some _ => _ | None => _ end); [simplify_eq/=; split_and!; auto; done|].
      destruct (_ && _ && _); [simplify_eq/=; split_and!; auto; done|].
      destruct (negb _); [simplify_eq/=; split_and!; auto; done|]. destruct ok; [done|]. simplify_eq/=; split_and!; auto; done.
    - destruct Hpc as (g' & Hg' & Hs'). destruct (cover_facts t g s) as (C1 & C2 & C3 & C4 & C5 & C6).
      assert (w_generation s = g → subscribedOn (w_log s) t g) as Hgen by (intros E; by replace g with g' by lia).
      destruct (negb _ || _ || _) eqn:Eb; simplify_eq/=.
      + destruct (wc_observer config && (w_generation s =? g)) eqn:Eo; eexists; (split; [done|]).
        * apply andb_true_iff in Eo as [_ Eo%Z.eqb_eq]. split_and!; try done.
          intros t' g0 Hg. destruct (C6 _ _ Hg) as [?|(-> & -> & ?)]; [by left|right]. split_and!; auto.
        * split_and!; auto. done.
      + apply orb_false_iff in Eb as [[_ Eb]%orb_false_iff _]. apply negb_false_iff, Z.eqb_eq in Eb.
        eexists. split; [done|]. split_and!; try done.
        * intros t' g0 Hg. destruct (C6 _ _ Hg) as [?|(-> & -> & ?)]; [by left|right]. split_and!; auto.
        * intros g0 [= <-]. auto. }
  eapply (inv_update s); [done|exact Hj|simpl; by rewrite Ejobs|..].
  - intros t'. unfold watchCount. simpl. rewrite Ewatch, Hlive. lia.
  - intros t' g Hg. simpl in Hg. unfold watchCount. simpl. rewrite Ewatch, Elog.
    destruct (Hcov _ _ Hg) as [Hold|(-> & Hpos & Hs)].
    + split; [|by left]. by destruct (wi_covered _ Hi t' g Hold).
    + split; [done|]. right. split; [done|]. by rewrite Hmk_holds, str_eqb_refl, Hheld.
  - intros t'. simpl. rewrite Hholds, Hmk_holds, Hheld, andb_true_r, Elocks. pose proof (bits_release t (w_locks s) t' Hlocked).
    simpl. lia.
  - simpl. lia.
  - intros t' g. simpl. by rewrite Elog.
  - apply Hje. simpl. by rewrite Elog.
  - intros t' g Heq. rewrite (Hopen _ _ Heq). by rewrite Hmk_holds, str_eqb_refl, Hheld.
  - intros t' Heq. by destruct (Huns t').
Qed.
End resuming.

Lemma unsubscribe_inv s i t p : watchInv s → w_jobs s !! i = Some (JSub t p) →
  match p with SEnsure | SOpen _ => True | _ => False end → watchInv (unsubscribe i t s).
Proof.
  intros Hi Hj Hp. unfold unsubscribe. destruct (w_subscribers s !! i); [|done].
  eapply (inv_update s); [done|exact Hj|done|..]; simpl; try done; try (by intros ? ?).
  - intros t'. unfold watchCount. simpl. destruct p; simpl; try done; lia.
  - intros t' g Hg. split; [|by left]. by destruct (wi_covered _ Hi t' g Hg).
  - intros t'. by destruct p.
Qed.

Lemma Subscribe_inv s t : watchInv s → watchInv (Subscribe t s).
Proof.
  intros Hi. eapply (inv_added s); [done|done|..]; simpl; try done; try (by intros ? ?).
  - intros t'. unfold watchCount. simpl. destruct (str_eqb t t') eqn:E.
    + apply str_eqb_eq in E as ->. rewrite lookup_insert_eq. unfold watchCount. simpl. lia.
    + apply str_eqb_neq in E. rewrite lookup_insert_ne by done. simpl. lia.
Qed.

Lemma removeWatch_inv s i t : watchInv s → w_jobs s !! i = Some (JSub t SRemove) → watchInv (removeWatch i t s).
Proof.
  intros Hi Hj. assert (watchCount t s > 0) as Hpos.
  { rewrite (wi_count _ Hi). pose proof (countJobs_pos (live t) _ _ _ Hj ltac:(simpl; by rewrite str_eqb_refl)). lia. }
  assert (∀ s1, w_jobs s1 = <[i := JSub t SGone]> (w_jobs s) →
    (∀ t', watchCount t' s1 = watchCount t' s - Z.of_nat (bit (str_eqb t t'))) →
    (∀ t' g, w_covered s1 !! t' = Some g → w_covered s !! t' = Some g ∧ 0 < watchCount t' s1) → w_locks s1 = w_locks s →
    w_generation s1 = w_generation s → w_log s1 = w_log s → watchInv s1) as Hgone.
  { intros s1 Ejobs Ecount Ecov Elocks Egen Elog. eapply (inv_update s); [done|exact Hj|done|..]; simpl; try done; try (by intros ? ?).
    - intros t'. rewrite Ecount, andb_true_r, andb_false_r. simpl. lia.
    - intros t' g Hg. destruct (Ecov _ _ Hg). auto.
    - intros t'. by rewrite Elocks.
    - lia.
    - intros t' g. by rewrite Elog. }
  unfold removeWatch. destruct (watchCount t s <=? 1) eqn:E1.
  - apply Z.leb_le in E1. eapply (inv_added (setJob i (JSub t SGone) (withWatches (delete t (w_watched s)) (delete t (w_covered s)) s)));
      simpl; try done; [|intros t'; unfold watchCount; simpl; lia|intros t'; simpl; destruct (str_eqb t t'); simpl; lia].
    apply Hgone; simpl; try done.
    + intros t'. unfold watchCount in *. simpl. destruct (str_eqb t t') eqn:E.
      * apply str_eqb_eq in E as ->. rewrite lookup_delete_eq. simpl. lia.
      * apply str_eqb_neq in E. rewrite lookup_delete_ne by done. simpl. lia.
    + intros t' g [Hne Hg]%lookup_delete_Some. split; [done|]. unfold watchCount. simpl. rewrite lookup_delete_ne by done.
      by destruct (wi_covered _ Hi t' g Hg).
  - apply Z.leb_gt in E1. apply Hgone; simpl; try done.
    + intros t'. unfold watchCount in *. simpl. destruct (str_eqb t t') eqn:E.
      * apply str_eqb_eq in E as ->. rewrite lookup_insert_eq. simpl. lia.
      * apply str_eqb_neq in E. rewrite lookup_insert_ne by done. simpl. lia.
    + intros t' g Hg. split; [done|]. destruct (wi_covered _ Hi t' g Hg) as [_ Hp]. unfold watchCount in *. simpl.
      destruct (decide (t' = t)) as [->|Hne]; [rewrite lookup_insert_eq; simpl; lia|by rewrite lookup_insert_ne].
Qed.

Lemma resumeJob_inv config s i ok s' : watchInv s → resumeJob config i ok s = Some s' → watchInv s'.
Proof.
  intros Hi. unfold resumeJob. destruct (w_jobs s !! i) as [[t [|p| | |]|t e p| | |]|] eqn:Hj; try done.
  - destruct (resumeStep config ok t 0 p s) as [[[p'|[covered|x]] s1]|] eqn:Hr; [..|done]; intros [= <-].
    + eapply (resume_goes config t 0 (fun p => JSub t (SResume p))); try done.
    + eapply (resume_ends config t 0 (fun p => JSub t (SResume p))); try done; [|by intros t' g [= -> _]].
      simpl. intros Hs. destruct covered as [g|]; [by apply Hs|done].
    + eapply (unsubscribe_inv _ i t (SOpen None)); [|simpl; apply list_lookup_insert_eq|done].
      * eapply (resume_ends config t 0 (fun p => JSub t (SResume p))); done.
      * assert (w_jobs s1 = w_jobs s) as ->; [|by eapply lookup_lt_Some].
        destruct p; simpl in Hr; repeat case_match; by simplify_eq.
  - destruct (resumeStep config ok t e p s) as [[[p'|r] s1]|] eqn:Hr; [..|done]; intros [= <-].
    + eapply (resume_goes config t e (fun p => JResume t e p)); try done.
    + eapply (resume_ends config t e (fun p => JResume t e p)); done.
Qed.

Lemma unsubscribeThread_inv s i sent s' : watchInv s → unsubscribeThread i sent s = Some s' → watchInv s'.
Proof.
  intros Hi. unfold unsubscribeThread. destruct (w_jobs s !! i) as [[| |t [|]| |]|] eqn:Hj; try done.
  - intros [= <-]. pose proof (wi_jobs _ Hi _ _ Hj) as Hcov. simpl in Hcov.
    assert (t ∈ w_locks s) as Hlocked by (eapply holder_locked; [done|exact Hj|]; simpl; by rewrite str_eqb_refl).
    assert (watchInv (setJob i JDone (release t s))) as Hdone.
    { eapply (inv_update s); [done|exact Hj|done|..]; simpl; try done; try (by intros ? ?).
      - intros t' g Hg. split; [|by left]. by destruct (wi_covered _ Hi t' g Hg).
      - intros t'. rewrite andb_true_r. pose proof (bits_release t (w_locks s) t' Hlocked). lia. }
    destruct (sent && connReady s); [|done]. apply inv_unsubscribed; [done|done|simpl; set_solver|].
    intros k g Hk. simpl in Hk. destruct (decide (k = i)) as [->|Hne].
    + rewrite list_lookup_insert_eq in Hk by (by eapply lookup_lt_Some). done.
    + rewrite list_lookup_insert_ne in Hk by done. by eapply (wi_exclusive _ Hi).
  - case_bool_decide as Hfree; [done|]. destruct (0 <? watchCount t s) eqn:E; intros [= <-].
    + eapply (inv_update s); [done|exact Hj|done|..]; simpl; try done; try (by intros ? ?).
      * intros t' g Hg. split; [|by left]. by destruct (wi_covered _ Hi t' g Hg).
      * intros t'. by rewrite andb_false_r.
    + apply Z.ltb_ge in E. assert (watchCount t s = 0) as Hz by (rewrite (wi_count _ Hi) in *; lia).
      eapply (inv_update s); [done|exact Hj|done|..]; simpl; try done; try (by intros ? ?).
      * intros t' g Hg. split; [|by left]. by destruct (wi_covered _ Hi t' g Hg).
      * intros t'. rewrite bits_acquire, andb_true_r, andb_false_r by done. simpl. lia.
      * destruct (w_covered s !! t) as [g|] eqn:Eg; [|done]. destruct (wi_covered _ Hi t g Eg). lia.
      * by intros t' [= <-].
Qed.

Lemma spawned_inv s threads expected : watchInv s →
  watchInv (fold_left (fun s t => spawn (JResume t expected RStart) s) threads s).
Proof.
  revert s. induction threads as [|t threads IH]; intros s Hi; cbn [fold_left]; [done|]. apply IH.
  eapply (inv_added s); simpl; try done.
  - intros t'. unfold watchCount. simpl. lia.
  - intros t'. simpl. destruct (str_eqb t t'); simpl; lia.
Qed.

Lemma act_inv config a s s' : watchInv s → act config a s = Some s' → watchInv s'.
Proof.
  intros Hi. assert (∀ s1 t', w_log s1 = w_log s → w_covered s1 = delete t' (w_covered s) ∨ w_covered s1 = w_covered s →
    w_jobs s1 = w_jobs s → w_watched s1 = w_watched s → w_locks s1 = w_locks s → w_generation s ≤ w_generation s1 → watchInv s1) as Hframe.
  { intros s1 t' Elog Ecov Ejobs Ewatch Elocks Egen. apply (inv_frame s); try done.
    - intros t g Hg. destruct Ecov as [Ec|Ec]; rewrite Ec in Hg; [by apply lookup_delete_Some in Hg as [_ ?]|done].
    - intros t g. by rewrite Elog. }
  destruct a as [t|i ok|i ok|i|i|i sent|t|i| |t ok|t| | | |t g|t|i]; simpl.
  - intros [= <-]. by apply Subscribe_inv.
  - destruct (w_jobs s !! i) as [[t []| | | |]|] eqn:Hj; try done. intros [= <-]. destruct ok; [|by eapply unsubscribe_inv].
    eapply (inv_update s); [done|exact Hj|done|..]; simpl; try done; try (by intros ? ?).
    + intros t' g Hg. split; [|by left]. by destruct (wi_covered _ Hi t' g Hg).
    + intros t'. by rewrite andb_false_r.
  - by apply resumeJob_inv.
  - destruct (w_jobs s !! i) as [[t []| | | |]|] eqn:Hj; try done. intros [= <-]. by eapply unsubscribe_inv.
  - destruct (w_jobs s !! i) as [[t []| | | |]|] eqn:Hj; try done. case_bool_decide; [done|]. intros [= <-]. by apply removeWatch_inv.
  - by apply unsubscribeThread_inv.
  - case_bool_decide as Hfree; [done|]. intros [= <-]. eapply (inv_added s); simpl; try done.
    + intros t'. unfold watchCount. simpl. lia.
    + intros t'. by apply bits_acquire.
  - destruct (w_jobs s !! i) as [[| | |t|]|] eqn:Hj; try done. intros [= <-].
    eapply (inv_update s); [done|exact Hj|done|..]; simpl; try done; try (by intros ? ?).
    + intros t' g Hg. split; [|by left]. by destruct (wi_covered _ Hi t' g Hg).
    + intros t'. pose proof (bits_release t (w_locks s) t' (holder_locked _ _ _ _ Hi Hj (str_eqb_refl t))). lia.
  - intros [= <-]. unfold restoreWatched. destruct (wc_observer config); [destruct (connReady s); [|done]|]; by apply spawned_inv.
  - intros [= <-]. assert (watchInv (uncover t s)) as Hu by (apply (Hframe _ t); auto; simpl; lia).
    unfold RefreshThreadSubscription. destruct (_ && _); [|done]. by apply (spawned_inv _ [t] 0).
  - destruct (connReady s); [|done]. intros [= <-]. apply (inv_frame s); try done. intros t' g Hs. by apply subscribedOn_snoc.
  - destruct (w_connected s); [done|]. intros [= <-]. apply (Hframe _ ""); auto. simpl. lia.
  - destruct (w_connected s); [|done]. intros [= <-]. apply (Hframe _ ""); auto. simpl. lia.
  - destruct (w_connected s); [|done]. intros [= <-]. apply (Hframe _ ""); auto. simpl. lia.
  - intros [= <-]. apply (inv_frame s); try done; [|intros t' g' Hs; by apply subscribedOn_snoc].
    intros t' g' Hg. simpl in Hg. by apply lookup_delete_Some in Hg as [_ ?].
  - intros [= <-]. apply (Hframe _ ""); auto. simpl. lia.
  - destruct (w_subscribers s !! i) as [[t [|]]|]; try done. intros [= <-]. apply (Hframe _ ""); auto. simpl. lia.
Qed.

(** C20. However callers, goroutines, connections and the reader interleave: a
    thread is watched as often as there are subscriptions to it that were not given
    back; a thread that counts as covered on a connection was resumed there, and no
    unsubscribe of it was handed to that connection since; and the same holds for
    every open subscription and the connection its [Subscribe] found it covered on. *)
Theorem subscriptions_covered config s : reachable config s →
  (∀ t, watchCount t s = Z.of_nat (countJobs (live t) (w_jobs s))) ∧
  (∀ t g, w_covered s !! t = Some g → subscribedOn (w_log s) t g ∧ 0 < watchCount t s) ∧
  (∀ i t g, w_jobs s !! i = Some (JSub t (SOpen (Some g))) → subscribedOn (w_log s) t g).
Proof.
  intros Hr. assert (watchInv s) as Hi.
  { refine (rtc_ind_r (fun s => watchInv s) newWatch watchInv_new _ s Hr). intros x y _ [a Ha] Hx. by eapply act_inv. }
  split_and!; [apply Hi|apply Hi|]. intros i t g Hj. exact (wi_jobs _ Hi _ _ Hj).
Qed.

(** ** Runs of concrete sections *)

Fixpoint runActs (config : watchConfig) (l : list action) (s : watchState) : option watchState :=
  match l with
  | [] => Some s
  | a :: l => match act config a s with Some s' => runActs config l s' | None => None end
  end.
Lemma runActs_reachable config l s s' : reachable config s → runActs config l s = Some s' → reachable config s'.
Proof.
  revert s. induction l as [|a l IH]; intros s Hs; simpl; [by intros [= <-]|].
  destruct (act config a s) as [s1|] eqn:Ea; [|done]. apply IH. eapply rtc_r; [exact Hs|]. by exists a.
Qed.

Definition interactive : watchConfig := mkWatchConfig false None.
(** A subscription of job [i], up to the answer of its resume. *)
Definition subscribing (i : nat) : list action :=
  [ASubscribe "thread"; AEnsured i true; AResume i true; AResume i true; AResume i true].
Definition opened : list action := [ADial; AReady] ++ subscribing 0 ++ [AResume 0 true; AResume 0 true].
(** The subscription is given back while another begins, which has to wait for the
    unsubscribe and resumes again. *)
Definition handedOver : list action :=
  opened ++ [AUnsubscribe 0; ARemove 0; AUnsubscribeThread 1 true; ASubscribe "thread"; AEnsured 2 true;
             AUnsubscribeThread 1 true; AResume 2 true; AResume 2 true; AResume 2 true; AResume 2 true; AResume 2 true].

Lemma subscriptions_covered_witness :
  match runActs interactive handedOver newWatch with
  | Some s => w_log s = [LResume "thread" 1; LUnsubscribe "thread" 1; LResume "thread" 1] ∧
      watchCount "thread" s = 1 ∧ subscribedOn (w_log s) "thread" 1
  | None => False
  end.
Proof.
  destruct (runActs interactive handedOver newWatch) as [s|] eqn:Er; [|vm_compute in Er; discriminate Er].
  destruct (subscriptions_covered interactive s) as (_ & Hcovered & _).
  { eapply runActs_reachable; [apply rtc_refl|exact Er]. }
  vm_compute in Er. injection Er as <-. split; [reflexivity|]. split; [reflexivity|].
  apply Hcovered. vm_compute. reflexivity.
Defined.

(** The reader handles [thread/closed] between the answer to a resume and the section
    that records it: the thread then counts as covered although it was closed, and the
    next subscription returns without a resume. *)
Example closed_counts_as_covered :
  match runActs interactive ([ADial; AReady] ++ subscribing 0 ++ [AResume 0 true; AClosed "thread" 1; AResume 0 true]
                             ++ subscribing 1) newWatch with
  | Some s => w_covered s !! "thread" = Some 1 ∧ w_jobs s !! 1%nat = Some (JSub "thread" (SOpen (Some 1))) ∧
      w_log s = [LResume "thread" 1; LClosed "thread" 1]
  | None => False
  end.
Proof. vm_compute. done. Qed.
