(* ===== verification/Reader.v ===== *)
(** * The reader and the observer of a connection

    [readLoop] of [src/codex/client.go] on a connection without an ephemeral sink:
    which sections run for a decoded message, in which order. The sections
    themselves are [observe] ([Activity.v]), [admitPrompt], [handleResolved] and
    [rejectUnsupported] ([Prompts.v]), [handleThreadSettingsUpdated]
    ([Settings.v]), [handleClosed] and [broadcast] ([Subscriptions.v]) and
    [observeItemTimestamp] ([Transcript.v]); a reply goes to the call that waits
    for it ([Wire.v]). A frame that is no JSON is skipped.

    [src/codex/observer.go]: after a connection is ready, the threads that are
    watched are resumed by four workers that share one queue. The queue belongs to
    the connection it was made for and is replaced by the next one. The sections
    under the observer's mutex are functions on its state; [restoreStep] lets the
    workers, new connections and lost ones run in any order. What a worker does
    with a thread is [resumeStep] of [Subscriptions.v]; an error is published only
    under [publishes]. *)
From Stdlib Require Import Ascii String.
From S2P Require Import Prelude GoStd GoValue TurnOptions Ledger Prompts.
Open Scope Z_scope.

(** An absent raw member is empty; [Params] are decoded. *)
Record rpcMessage := mkRpcMessage {
  rp_ID : string; rp_Method : string; rp_Params : option any; rp_Result : any; rp_Error : option (Z * string) }.
Inductive reply := ReplyError (code : Z) (message : string) | ReplyResult (result : any).

Inductive readerAction :=
| RObserve (message : rpcMessage)
| RBroadcast (threadID : string)
| RReject (request : PendingRequest) (cause : err)
| RAdmit (request : PendingRequest)
| RAutoResolve (id threadID : string) (after : Z)
| RResolved (params : option any)
| RSettings (params : option any)
| RClosed (threadID : string)
| RTimestamp (method : string) (params : option any)
| RReply (id : Z) (r : reply).

(** What the reader looks at: the options, who is watched, and the calls that wait
    with the generation they were made on. *)
Record readerView := mkReaderView {
  rv_recorder : bool; rv_observerOnly : bool; rv_policy : option NonBlockingUserInputPolicy;
  rv_watched : gmap string Z; rv_pending : gmap Z Z }.

Section reader.
Context (decodeID : string → option Z).   (** [json.Unmarshal] into a [uint64] *)
Context (v : readerView) (connection generation now : Z).

(** A request of App Server; [admitted] is what [admitPrompt] answers. *)
Definition readRequest (admitted : bool) (m : rpcMessage) : list readerAction :=
  if rv_observerOnly v then [RBroadcast (threadIDFromParams (rp_Params m))] else
  let request := mkPending (rp_ID m) "" (rp_Method m) (rp_Params m) generation connection false (Some now) false in
  match normalizePrompt (rv_policy v) request with
  | Err cause => [RReject request cause]
  | Ok prompt =>
    RAdmit request ::
    (if negb admitted then [] else
     match rv_policy v with
     | Some policy => if str_eqb (pm_Kind prompt) "userInput" && negb (pm_IsBlocking prompt)
                      then [RAutoResolve (rp_ID m) (pm_ThreadID prompt) (nb_HiddenGrace policy + nb_VisibleCountdown policy)] else []
     | None => []
     end ++ [RBroadcast (pm_ThreadID prompt)])
  end.

(** A reply, for the call that waits for it on this connection. *)
Definition readReply (m : rpcMessage) : list readerAction :=
  if is_empty (rp_ID m) then [] else
  match decodeID (rp_ID m) with
  | None => []
  | Some id =>
    if bool_decide (rv_pending v !! id = Some generation)
    then [RReply id (match rp_Error m with Some (code, message) => ReplyError code message | None => ReplyResult (rp_Result m) end)]
    else []
  end.

Definition readMessage (admitted : bool) (m : rpcMessage) : list readerAction :=
  let threadID := threadIDFromParams (rp_Params m) in
  let method := rp_Method m in
  (if rv_recorder v && (0 <? default 0 (rv_watched v !! threadID)) then [RObserve m] else []) ++
  if negb (is_empty method) && negb (is_empty (rp_ID m)) then readRequest admitted m else
  (if str_eqb method "serverRequest/resolved" then [RResolved (rp_Params m)] else []) ++
  (if str_eqb method "thread/settings/updated" then [RSettings (rp_Params m)] else []) ++
  (if str_eqb method "thread/closed" then [RClosed threadID] else []) ++
  (if str_eqb method "item/started" || str_eqb method "item/completed" then [RTimestamp method (rp_Params m)] else []) ++
  (if negb (is_empty method) then [RBroadcast threadID] else []) ++
  readReply m.

(** ** What a frame can do *)

Definition replies (l : list readerAction) : list (Z * reply) := omap (fun a => match a with RReply id r => Some (id, r) | _ => None end) l.

Lemma replies_app a b : replies (a ++ b) = replies a ++ replies b. Proof. apply omap_app. Qed.
Lemma replies_request admitted m : replies (readRequest admitted m) = [].
Proof.
  unfold readRequest. cbv zeta. destruct (rv_observerOnly v); [done|]. destruct (normalizePrompt _ _) as [prompt|]; [|done].
  destruct admitted; [|done]. cbn [negb]. destruct (rv_policy v); [destruct (_ && _)|]; done.
Qed.

(** A frame completes a call only when it is a reply that names the call, made on
    this connection, and then that call alone; a request or a notification of App
    Server never does. *)
Theorem replies_exact admitted m : replies (readMessage admitted m) =
  match decodeID (rp_ID m) with
  | Some id => if is_empty (rp_Method m) && negb (is_empty (rp_ID m)) && bool_decide (rv_pending v !! id = Some generation)
               then [(id, match rp_Error m with Some (code, message) => ReplyError code message | None => ReplyResult (rp_Result m) end)] else []
  | None => []
  end.
Proof.
  unfold readMessage. cbv zeta. rewrite replies_app.
  assert (∀ b a, (∀ id r, a ≠ RReply id r) → replies (if (b : bool) then [a] else []) = []) as Hno.
  { intros b a Ha. destruct b; [|done]. destruct a; try done. by destruct (Ha id r). }
  rewrite Hno by done. cbn [app]. destruct (is_empty (rp_Method m)) eqn:Em.
  - apply is_empty_true in Em. rewrite Em. cbn [negb andb]. rewrite !replies_app, !Hno by done. cbn [app].
    unfold readReply. destruct (is_empty (rp_ID m)) eqn:Ei; cbn [negb andb]; [by destruct (decodeID _)|]. destruct (decodeID (rp_ID m)); [|done].
    by destruct (bool_decide _).
  - cbn [negb andb]. destruct (is_empty (rp_ID m)) eqn:Ei; cbn [negb].
    + rewrite !replies_app, !Hno by done. cbn [app]. unfold readReply. rewrite Ei. by destruct (decodeID _).
    + rewrite replies_request. by destruct (decodeID _).
Qed.
End reader.

(** ** Restoring the subscriptions of an observer *)

Definition observerRPCConcurrency : nat := 4.

(** A queue with the generation it is for; [ob_canceled] is the end of its
    connection's context. *)
Record observerState := mkObserver {
  ob_queue : list string; ob_next : nat; ob_generation : Z; ob_canceled : bool }.
(** What the client knows of its connection. *)
Record connectionView := mkView { cv_connected : bool; cv_generation : Z; cv_ready : Z; cv_closed : bool }.

Definition clearQueue (o : observerState) : observerState := mkObserver [] 0 (ob_generation o) (ob_canceled o).

(** A queue is only made for a connection that is ready. *)
Definition restoreObserved (v : connectionView) (threadIDs : list string) (o : observerState) : observerState :=
  if negb (cv_connected v) || negb (cv_ready v =? cv_generation v) || cv_closed v then o
  else mkObserver threadIDs 0 (cv_generation v) false.

(** A worker takes the next thread, with the generation and whether its context
    has ended; at the end it drops the queue. *)
Definition takeNext (o : observerState) : option (string * Z * bool) * observerState :=
  if (ob_next o =? Datatypes.length (ob_queue o))%nat then (None, clearQueue o)
  else match ob_queue o !! ob_next o with
       | Some id => (Some (id, ob_generation o, ob_canceled o), mkObserver (ob_queue o) (S (ob_next o)) (ob_generation o) (ob_canceled o))
       | None => (None, o)   (** out of range *)
       end.

(** When an error of a worker is published. *)
Definition publishes (v : connectionView) (generation : Z) (canceled watched : bool) : bool :=
  negb canceled && cv_connected v && (cv_generation v =? generation) && (cv_ready v =? generation) && watched.

(** Any order of workers and connections: *)

(** What has been taken of the queue that is there. *)
Record observation := mkObservation { on_state : observerState; on_listed : list string; on_taken : list string }.

Inductive restoreStep : observation → observation → Prop :=
| step_take o listed taken id generation canceled o' : takeNext o = (Some (id, generation, canceled), o') →
    restoreStep (mkObservation o listed taken) (mkObservation o' listed (taken ++ [id]))
| step_drained o listed taken o' : takeNext o = (None, o') →
    restoreStep (mkObservation o listed taken) (mkObservation o' listed taken)
| step_restored o listed taken v ids : cv_connected v = true → cv_ready v = cv_generation v → cv_closed v = false →
    restoreStep (mkObservation o listed taken) (mkObservation (restoreObserved v ids o) ids [])
| step_cleared o listed taken : restoreStep (mkObservation o listed taken) (mkObservation (clearQueue o) [] [])
| step_lost o listed taken : restoreStep (mkObservation o listed taken)
    (mkObservation (mkObserver (ob_queue o) (ob_next o) (ob_generation o) true) listed taken).

Definition observerStart : observation := mkObservation (mkObserver [] 0 0 false) [] [].
(** The queue is being taken from the front, or was taken to its end. *)
Definition queueInv (s : observation) : Prop :=
  let o := on_state s in
  (ob_queue o = on_listed s ∧ on_taken s = take (ob_next o) (on_listed s) ∧ (ob_next o ≤ Datatypes.length (on_listed s))%nat) ∨
  (ob_queue o = [] ∧ ob_next o = 0%nat ∧ on_taken s = on_listed s).

Lemma restore_inv s s' : restoreStep s s' → queueInv s → queueInv s'.
Proof.
  unfold queueInv. intros Hs Hi.
  destruct Hs as [o listed taken id g c o' Ht|o listed taken o' Ht|o listed taken v ids H1 H2 H3|o listed taken|o listed taken]; simpl in *.
  - unfold takeNext in Ht. destruct Hi as [(Hq & Htk & Hle)|(Hq & Hn & Htk)]; [|by rewrite Hq, Hn in Ht].
    destruct (_ =? _)%nat eqn:E; [done|]. destruct (ob_queue o !! ob_next o) as [x|] eqn:El; simplify_eq. simpl. left.
    split_and!; [done|by rewrite (take_S_r _ _ _ El)|by apply lookup_lt_Some in El].
  - unfold takeNext in Ht. destruct (_ =? _)%nat eqn:E.
    + simplify_eq. simpl. right. apply Nat.eqb_eq in E. destruct Hi as [(Hq & Htk & Hle)|(Hq & Hn & Htk)]; [|done].
      split_and!; [done|done|]. rewrite Htk, E, Hq. by apply take_ge.
    + destruct (ob_queue o !! ob_next o) as [x|] eqn:El; simplify_eq. done.
  - unfold restoreObserved. rewrite H1, H2, H3, Z.eqb_refl. simpl. left. rewrite take_0. split_and!; [done|done|lia].
  - left. by split_and!.
  - done.
Qed.

(** Whatever workers, connections and losses do: what was taken of the threads of
    the last connection is a beginning of their list, in order and each as often as
    it is there; and a worker that finds nothing finds that all of them were taken. *)
Theorem observed_in_order s : rtc restoreStep observerStart s →
  on_taken s `prefix_of` on_listed s ∧ (fst (takeNext (on_state s)) = None → on_taken s = on_listed s).
Proof.
  intros Hs. assert (queueInv s) as Hi.
  { assert (queueInv observerStart) as H0 by (left; by split_and!). revert H0. induction Hs as [|s1 s2 s3 Hst _ IH]; [done|].
    intros H0. by eapply IH, restore_inv. }
  destruct s as [o listed taken]. unfold queueInv in Hi. simpl in *. destruct Hi as [(Hq & -> & Hle)|(Hq & Hn & ->)]; [|done].
  split; [exists (drop (ob_next o) listed); by rewrite take_drop|]. unfold takeNext. rewrite Hq. destruct (_ =? _)%nat eqn:E.
  - intros _. apply Nat.eqb_eq in E. rewrite E. by apply take_ge.
  - apply Nat.eqb_neq in E. destruct (lookup_lt_is_Some_2 listed (ob_next o)) as [x ->]; [lia|done].
Qed.
