(* ===== verification/Concurrent.v ===== *)
(** * Many callers, one message

    Any number of calls of [SendWithOptions] and [ContinueFailedTurn], by any
    processes on one store, interleave at every transaction, wait, request and
    reply, together with other transactions on the same store. For each message identity, at most one
    request is ever handed to App Server that it does not refuse explicitly. *)
From S2P Require Import Prelude GoStd GoValue TurnOptions Ledger LedgerFacts Store LedgerFile Locality SubmissionDb StoreFacts.
From S2P Require Import Program Wire History Delivery DeliveryFacts HistoryReader SendOutcome SendFacts Prompts Continuation ContinuationFacts.
From Stdlib Require Import String.
Open Scope Z_scope.

(** ** The balance of a call

    A committed claim is a credit; giving it back, or a delivery that App Server
    does not refuse, spends it. *)
Definition addressee (t id : string) (params : any) : bool :=
  match params with
  | AObj o => str_eqb (stringValue (field "threadId" o)) t && str_eqb (stringValue (field "clientUserMessageId" o)) id
  | _ => false
  end.
Definition refusedBy (reply : wireReply) : bool := match reply with Refused c _ => refusalCode c | _ => false end.

(** A request for the message that App Server did not refuse. *)
Definition stands (t id : string) (ev : event) : bool :=
  match ev with
  | EvWire m params reply => isDelivery ev && addressee t id params && negb (refusedBy reply)
  | _ => false
  end.
Definition isRestoreOf (t id : string) (ev : event) : bool :=
  match ev with EvTx (Some (OpRestore _ t' id' _)) _ => str_eqb t' t && str_eqb id' id | _ => false end.

Fixpoint sober (t id : string) (credit : nat) (evs : list event) : Prop :=
  match evs with
  | [] => True
  | ev :: rest =>
    if isClaimOf t id ev then sober t id (S credit) rest
    else if stands t id ev || isRestoreOf t id ev
    then match credit with O => False | S credit => sober t id credit rest end
    else sober t id credit rest
  end.

Definition tally {X} (f : X → bool) (xs : list X) : nat :=
  Datatypes.length (filter (fun x => f x = true) xs).

Lemma tally_nil {X} (f : X → bool) : tally f [] = 0%nat.
Proof. done. Qed.
Lemma tally_app {X} (f : X → bool) a b : tally f (a ++ b) = (tally f a + tally f b)%nat.
Proof. unfold tally. by rewrite filter_app, length_app. Qed.
Lemma tally_cons {X} (f : X → bool) ev evs : tally f (ev :: evs) = ((if f ev then 1 else 0) + tally f evs)%nat.
Proof.
  unfold tally. destruct (f ev) eqn:E; [by rewrite filter_cons_True|]. rewrite filter_cons_False; [done|congruence].
Qed.

Lemma sober_balance t id credit evs :
  sober t id credit evs →
  (tally (stands t id) evs + tally (isRestoreOf t id) evs ≤ credit + tally (isClaimOf t id) evs)%nat.
Proof.
  revert credit. induction evs as [|ev evs IH]; intros credit Hs; [unfold tally; rewrite !filter_nil; simpl; lia|]. rewrite !tally_cons. simpl in Hs.
  assert (isClaimOf t id ev = true → stands t id ev = false ∧ isRestoreOf t id ev = false) as Hc.
  { destruct ev as [[[]|] ?|]; done. }
  assert (stands t id ev = true → isRestoreOf t id ev = false) as Hst by (by destruct ev).
  destruct (isClaimOf t id ev).
  - destruct Hc as [-> ->]; [done|]. apply IH in Hs. lia.
  - destruct (stands t id ev), (isRestoreOf t id ev); simpl in Hs; try (by specialize (Hst eq_refl));
      [destruct credit as [|credit]; [done|]..|]; apply IH in Hs; lia.
Qed.

Lemma sober_prefix t id credit a b : sober t id credit (a ++ b) → sober t id credit a.
Proof.
  revert credit. induction a as [|ev a IH]; intros credit Hs; [done|]. simpl in *.
  destruct (isClaimOf t id ev); [auto|]. destruct (_ || _); [destruct credit; auto|auto].
Qed.

Lemma notable_counts t id ev : notable ev = false →
  isClaimOf t id ev = false ∧ stands t id ev = false ∧ isRestoreOf t id ev = false.
Proof.
  destruct ev as [[[]|] ok|m ps reply]; simpl; try done; intros Hn; [by destruct ok|]. by rewrite Hn.
Qed.

Lemma sober_silent t id credit evs rest : silent evs → sober t id credit rest → sober t id credit (evs ++ rest).
Proof.
  intros Hs Hr. induction Hs as [|ev evs Hn _ IH]; [done|]. simpl.
  destruct (notable_counts t id ev Hn) as (-> & -> & ->). exact IH.
Qed.
Lemma silent_sober t id credit evs : silent evs → sober t id credit evs.
Proof. intros Hs. rewrite <-(app_nil_r evs). by apply sober_silent. Qed.

Lemma addressed_addressee t id text params t' id' :
  addressed t id text params → addressee t' id' params = str_eqb t t' && str_eqb id id'.
Proof. intros (o & -> & Ht & Hi & _). simpl. by rewrite Ht, Hi. Qed.

Lemma restored_sober t id t' id' credit evs :
  restored t id evs → (str_eqb t t' && str_eqb id id' = true → credit = 1%nat) → sober t' id' credit evs.
Proof.
  intros (db & claim & ok & rest & -> & Hs) Hc. simpl. destruct (_ && _); [|by apply silent_sober].
  rewrite Hc by done. by apply silent_sober.
Qed.

Lemma submitted_sober {A} t id text (r : res err A) evs t' id' credit :
  submitted t id text r evs → (str_eqb t t' && str_eqb id id' = true → credit = 1%nat) → sober t' id' credit evs.
Proof.
  intros [evs' Hr|m ps reply evs' Hm Ha (c & msg & -> & Hc) Hr|m ps reply evs' Hm Ha Hf Hs] Hcr.
  - by eapply restored_sober.
  - simpl. rewrite Hc, andb_false_r. simpl. by eapply restored_sober.
  - simpl. rewrite (addressed_addressee _ _ _ _ t' id' Ha). rewrite orb_false_r.
    destruct (str_eqb t t' && str_eqb id id'); [|rewrite andb_false_r; simpl; by apply silent_sober].
    rewrite Hcr by done. destruct (_ && _); by apply silent_sober.
Qed.

Lemma history_sober {A} t id text action tr (r : res err A) t' id' :
  sendHistory t id text action [] tr r → sober t' id' 0 tr.
Proof.
  intros [(evs & -> & Hs)|(pre & claim & d & s & evs & -> & Hpre & Hs)]; [by apply silent_sober|]. simpl.
  apply sober_silent; [done|]. simpl. destruct (str_eqb t t' && str_eqb id id') eqn:E.
  - by eapply submitted_sober.
  - eapply submitted_sober; [done|]. congruence.
Qed.

(** ** The transactions of a program are those of the ledger *)

(** A look at a whole thread stays in the thread's scope. *)
Lemma thread_entries {V} t (m m' : nested V) :
  (∀ id, look2 t id m = look2 t id m') → default ∅ (m !! t) = default ∅ (m' !! t).
Proof.
  intros Heq. apply map_eq. intros id. specialize (Heq id). unfold look2 in Heq.
  destruct (m !! t), (m' !! t); simpl in *; by rewrite ?lookup_empty.
Qed.
Lemma covers_thread t id : covers (threadScope t) t id.
Proof. split; [done|]. by left. Qed.
Lemma deletionCount_local t : localTo (threadScope t) (deletionCount t).
Proof.
  intros l l' Hl Hl' Hag. unfold spec, deletionCount.
  rewrite (thread_entries t (queueDeletions l) (queueDeletions l')) by
    (intros id; exact (covered_deletion _ _ _ Hl Hl' Hag t id (covers_thread t id))). auto with codex.
Qed.
Lemma resolutionSnapshot_local t own : localTo (threadScope t) (resolutionSnapshot t own).
Proof.
  intros l l' Hl Hl' Hag. unfold spec, resolutionSnapshot.
  rewrite (thread_entries t (queueAttempts l) (queueAttempts l')) by
    (intros id; exact (covered_queue _ _ _ Hl Hl' Hag t id (covers_thread t id))).
  rewrite (thread_entries t (sendAttempts l) (sendAttempts l')) by
    (intros id; exact (covered_send _ _ _ Hl Hl' Hag t id (covers_thread t id))). auto with codex.
Qed.

(** Commands that neither take nor give back a right to deliver. *)
Definition harmless (op : ledgerOp) : bool :=
  match op with
  | OpClaim _ _ _ _ _ _ _ | OpRestore _ _ _ _ | OpAcknowledge _ _ _ _ | OpClearRetired _
  | OpClearConversation _ _ => false
  | _ => true
  end.
Definition ownOp (op : ledgerOp) : bool :=
  match op with OpAcknowledge _ _ _ _ | OpClearRetired _ | OpClearConversation _ _ => false | _ => true end.

(** The plan under a label is the command the label names, in the scope the
    command needs; an unlabelled plan only reads. *)
Definition fits {B} (op : option ledgerOp) (s : submissionScope) (p : Ledger → plan B) : Prop :=
  localTo s p ∧
  match op with
  | None => ∀ l, match p l with PWrite _ _ _ => False | _ => True end
  | Some op => opStorable op ∧ ownOp op = true ∧ ∀ l, ignore (p l) = runOp op l
  end.

Fixpoint wpf {A} (m : prog A) (Q : A → Prop) : Prop :=
  match m with
  | Ret a => Q a
  | Tx op s p k => fits op s p ∧ ∀ r, plainRes r → wpf (k r) Q
  | Ctx k => ∀ o, plainOpt o → wpf (k o) Q
  | Fresh k => ∀ x, wpf (k x) Q
  | Net k => ∀ n, plainNet n → wpf (k n) Q
  | Wire m ps k => ∀ r, plainReply r → wpf (k r) Q
  end.

Lemma wpf_bind {A C} (m : prog A) (f : A → prog C) Q : wpf m (fun a => wpf (f a) Q) → wpf (bind m f) Q.
Proof. induction m; simpl; try (by auto). intros [Hf Hk]. split; [done|]. auto. Qed.
Lemma wpf_mono {A} (m : prog A) (Q Q' : A → Prop) : (∀ a, Q a → Q' a) → wpf m Q → wpf m Q'.
Proof. intros HQ. induction m; simpl; eauto. intros [Hf Hk]. split; [done|]. eauto. Qed.
Lemma wpf_bindOk {A C} (m : prog (res err A)) (f : A → prog (res err C)) Q :
  wpf m (fun r => match r with Ok a => wpf (f a) Q | Err e => Q (Err e) end) → wpf (bindOk m f) Q.
Proof. intros Hm. apply wpf_bind. eapply wpf_mono, Hm. by intros [a|e]. Qed.

(** For programs without transactions, what holds on every path over a store holds here. *)
Lemma noTx_wpf `{SubmissionStore W E} {A} (m : prog A) (Q : A → Prop) (w : W) tr :
  noTx m → wp (fun _ _ => True) m w tr (fun _ _ a => Q a) → wpf m Q.
Proof.
  revert tr. induction m as [a|B op s p k IH|k IH|k IH|k IH|me ps k IH]; intros tr Hn Hw; simpl in *; eauto. done.
Qed.

Section noTx.
Context (options : clientOptions) (fuel : nat).

Lemma noTx_walkPages {S} n t (visit : S → threadItemEntry → res err (bool * S)) cursor cursors seen st :
  noTx (walkPages options n t visit cursor cursors seen st).
Proof.
  revert cursor cursors seen st. induction n as [|n IH]; intros; cbn [walkPages]; [done|].
  apply noTx_bindOk; [apply noTx_Request|]. intros [[data|] next]; [|done].
  destruct (walkEntries visit data seen st) as [[[[] seen'] st']|]; [done| |done].
  destruct next as [next|]; [|done]. destruct (is_empty next); [done|]. destruct (str_in _ _); [done|apply IH].
Qed.
Lemma noTx_queuePages n t cursor cursors seen entries : noTx (queuePages options n t cursor cursors seen entries).
Proof.
  revert cursor cursors seen entries. induction n as [|n IH]; intros; cbn [queuePages]; [done|].
  apply noTx_bindOk; [apply noTx_Request|]. intros [[data|] next]; [|done].
  destruct (queueEntries data seen entries) as [[seen' entries']|]; [|done].
  destruct next as [next|]; [|done]. destruct (is_empty next); [done|]. destruct (str_in _ _); [done|apply IH].
Qed.
Lemma noTx_queuedOrStarted t id text : noTx (queuedOrStartedByClientID options fuel t id text).
Proof.
  apply noTx_bindOk; [apply noTx_queuePages|]. intros entries.
  destruct (find _ entries); [by destruct (negb _)|apply noTx_walkPages].
Qed.
Lemma noTx_waitFor {T} n (look : prog (res err (option T))) : noTx look → noTx (waitFor n look).
Proof.
  intros Hl. induction n as [|n IH]; simpl; [done|]. apply noTx_bind; [done|].
  intros [[x|]|e]; [done| |done]. destruct n; [done|]. intros [e|]; [done|apply IH].
Qed.
Lemma noTx_ActiveTurnID t : noTx (ActiveTurnID options t).
Proof. apply noTx_bindOk; [apply noTx_Request|]. by intros [[|turn [|]]|]. Qed.
Lemma noTx_resumeApplying {T} t resume policy (decode : any → res err T) :
  noTx (resumeApplyingExecutionPolicy options t resume policy decode).
Proof.
  unfold resumeApplyingExecutionPolicy. apply noTx_bindOk.
  - unfold applyLoadedExecutionPolicy. destruct (executionPolicyUpdate t policy); [done|]. apply noTx_bindOk.
    + unfold ReadThreadMetadata. apply noTx_bind; [apply noTx_Request|]. intros [metadata|e]; [by destruct (negb _)|done].
    + intros metadata. destruct (str_eqb _ _); [done|]. apply noTx_bindOk; [apply noTx_Request|done].
  - intros applied. apply noTx_bindOk; [apply noTx_Request|]. intros o.
    destruct (executionPolicyUpdate t policy); [done|]. destruct applied; [done|].
    apply noTx_bindOk; [apply noTx_Request|done].
Qed.
Lemma noTx_resume t policy explicit : noTx (resumeThreadWithPolicy options t policy explicit).
Proof. apply noTx_bindOk; [apply noTx_resumeApplying|done]. Qed.
End noTx.

Section fitting.
Context (options : clientOptions) (fuel : nat) (t id text action : string) (turn : TurnOptions).
(** What the caller has to provide. *)
Definition callable : Prop :=
  t ≠ "" ∧ id ≠ "" ∧ validString t = true ∧ validString id = true ∧ validString action = true.
Hypothesis (Hcall : callable).

Lemma fits_op op s :
  opStorable op → ownOp op = true → localTo s (runOp op) → fits (Some op) (writable s) (runOp op).
Proof. intros Hs Ho Hl. split_and!; [done|done|done|]. intros l. by destruct (runOp op l) as [|[]|? ? []]. Qed.

Lemma fits_mark receipt :
  validString (sr_TurnID receipt) = true →
  fits (Some (OpMarkAccepted t id receipt)) (writable (attemptScope t [id])) (markSendAccepted t id receipt).
Proof. intros Hu. apply (fits_op (OpMarkAccepted t id receipt)); [by split|done|exact (runOp_local (OpMarkAccepted t id receipt) I)]. Qed.
Lemma fits_restore db claim :
  fits (Some (OpRestore db t id claim)) (writable (attemptScope t [id])) (restoreRejectedSendClaim db t id claim).
Proof. apply (fits_op (OpRestore db t id claim)); [by split|done|exact (runOp_local (OpRestore db t id claim) I)]. Qed.
Lemma fits_record steered :
  fits (Some (OpRecordSend t id text action steered turn None)) (writable (attemptScope t [id]))
    (recordSendAttemptWithReceipt t id text action steered turn None).
Proof using Hcall.
  destruct Hcall as (? & ? & ? & ? & ?). apply (fits_op (OpRecordSend t id text action steered turn None)); [by split|done|].
  by apply (runOp_local (OpRecordSend t id text action steered turn None)).
Qed.
Lemma fits_claim claim digest steered :
  fits (Some (OpClaim t id claim text action digest steered)) (writable (attemptScope t [id]))
    (claimSendSubmissionExact t id claim text action digest steered).
Proof.
  split_and!; [|done|done|done].
  intros l l' Hl Hl' Hag. unfold spec, claimSendSubmissionExact, claimSendSubmissionIf, isQueued.
  same_lookups Hl Hl' Hag. repeat cases; split_and?; eauto 8 with codex.
Qed.

Lemma wpf_run {B} op s (p : Ledger → plan B) Q : fits (Some op) (writable s) p → (∀ r, plainRes r → Q r) → wpf (runTx op s p) Q.
Proof. by split. Qed.

Abbreviation reader m := (noTx_wpf (W := database) (E := dbEnv) m _ ∅ []).

Lemma wpf_sent : wpf (sentByClientID options fuel t id text) (fun r => ∀ o, r = Ok o → historyReceipt id o).
Proof. apply (reader _); [apply noTx_walkPages|apply sentByClientID_receipt]. Qed.
Lemma wpf_noTx {A} (m : prog A) : noTx m → wpf m (fun _ => True).
Proof.
  induction m; simpl; auto; done.
Qed.

Lemma wpf_sendState digest Q : (∀ r, Q r) → wpf (sendStateTx t id text action digest) Q.
Proof. intros HQ. split; [split; [apply sendState_local|apply sendState_readOnly]|]. intros r _. apply HQ. Qed.

Lemma wpf_mark receipt Q : validString (sr_TurnID receipt) = true → (∀ r, Q r) → wpf (markAcceptedTx t id receipt) Q.
Proof. intros Hu HQ. apply wpf_run; [by apply fits_mark|auto]. Qed.

Lemma wpf_reconcileSend a : wpf (reconcileSend options fuel t text id a) (fun _ => True).
Proof.
  unfold reconcileSend. destruct (str_eqb (sa_State a) "accepted"); [done|].
  destruct (str_eqb (sa_State a) "submitting"); [|done].
  apply wpf_bindOk. eapply wpf_mono, wpf_sent. intros [[receipt|]|e] Hr; [|done..].
  destruct (Hr _ eq_refl receipt eq_refl) as (Hu & _). apply wpf_bind, wpf_mark; [done|]. by intros.
Qed.

Lemma wpf_unwritten digest absent e :
  wpf (unwrittenSendOutcome options fuel t text id action digest absent e) (fun _ => True).
Proof.
  unfold unwrittenSendOutcome. apply wpf_bind, wpf_sendState. intros [state|x]; [|done].
  destruct (_ && _); [done|]. destruct (_ && _); [|done].
  apply wpf_bind. eapply wpf_mono, wpf_reconcileSend. intros [[receipt|]|x] _; done.
Qed.

Lemma wpf_reconcileRequest digest steered admitted e :
  wpf (reconcileRequest options fuel t text id action digest steered admitted e) (fun _ => True).
Proof.
  unfold reconcileRequest. destruct admitted as [claim|]; [|apply wpf_unwritten].
  destruct (_ || _).
  { unfold restoreUnwrittenSendOutcome. apply wpf_bind, wpf_run; [apply fits_restore|]. intros. apply wpf_unwritten. }
  apply wpf_bind. eapply wpf_mono.
  2: { apply (reader _); [apply noTx_waitFor, noTx_walkPages|].
       apply (waitFor_result _ _ _ (historyReceipt id)); [done|apply sentByClientID_receipt]. }
  intros [[receipt|]|x] Hr; [|done..]. destruct (Hr _ eq_refl receipt eq_refl) as (Hu & _).
  apply wpf_bind, wpf_mark; [done|]. by intros.
Qed.

Lemma wpf_claim digest steered : wpf (claimTx t id text action digest steered) (fun _ => True).
Proof. intros claim. split; [apply fits_claim|done]. Qed.
Lemma wpf_admit digest steered :
  wpf (bind (claimTx t id text action digest steered) (fun r =>
    Ret (match r with
         | Ok claim => Ok claim
         | Err e => Err (EWrap "record message attempt before submission" e) end))) (fun _ => True).
Proof. apply wpf_bind. eapply wpf_mono, wpf_claim. done. Qed.

Lemma wpf_request {T} method params (decode : any → res err T) (P : T → Prop) admitting :
  deliveryMethod method → yields decode P → wpf admitting (fun _ : res err string => True) →
  wpf (requestWithAdmission options method params decode (Some admitting)) (fun '(_, r) => ∀ x, r = Ok x → P x).
Proof.
  intros Hm Hy Ha. unfold requestWithAdmission, requestConnectedAdmission, requestOnAdmission, writeOfferAdmission.
  intros net Hnet. apply wpf_bind. match goal with |- wpf _ ?q => set (Q := q) end.
  assert (∀ b e, Q (b, Err e)) as Herr by (intros b e x; simpl; by destruct (ne_cause net) as [c|]; [destruct (errIs c e)|]).
  destruct (_ && _); [apply Herr|]. destruct (ne_ensure net); [apply Herr|]. destruct (negb (ne_ready net)); [apply Herr|].
  destruct (if co_ObserverOnly options then _ else _); [apply Herr|].
  rewrite lifecycle_other by done. replace (is_empty "") with true by done.
  destruct (ne_encode net); [apply Herr|]. apply wpf_bind.
  destruct (ne_writer net); [apply Herr|]. destruct (negb (ne_current net)); [apply Herr|].
  destruct (ne_before net); [apply Herr|]. apply wpf_bind. eapply wpf_mono, Ha. intros [b|e] _; [|apply Herr]. destruct (ne_after net); [apply Herr|]. destruct (ne_acquire net); [apply Herr|].
  intros [e|e|e|c m|v] Hv; try apply Herr. intros x. simpl.
  destruct (decode v) as [y|e] eqn:Ed; [|apply (Herr (Some b))]. intros [= <-]. by eapply Hy.
Qed.

Lemma wpf_submitMessage turnID n : wpf (submitMessage options fuel t text id action turnID n) (fun _ => True).
Proof.
  unfold submitMessage. destruct (negb (is_empty turnID)).
  - apply wpf_bind. eapply wpf_mono; [|apply wpf_request; [by right; left|apply decField_unicode, decString_unicode|apply wpf_admit]].
    intros [b [x|e]] Hx; [|apply wpf_reconcileRequest]. destruct (negb _) eqn:Et; [apply wpf_reconcileRequest|].
    bools. subst. apply wpf_bind, wpf_mark; [by apply Hx|]. by intros.
  - apply wpf_bind. eapply wpf_mono; [|apply wpf_request;
      [by left|apply decField_unicode, decField_unicode, decString_unicode|apply wpf_admit]].
    intros [b [x|e]] Hx; [|apply wpf_reconcileRequest]. destruct (is_empty x); [apply wpf_reconcileRequest|].
    apply wpf_bind, wpf_mark; [by apply Hx|]. by intros.
Qed.

Lemma wpf_SendWithOptions : wpf (SendWithOptions options fuel t text id action turn) (fun _ => True).
Proof using Hcall.
  unfold SendWithOptions. destruct (normalizeTurnOptions turn) as [n|e]; [|done].
  apply wpf_bindOk. intros [e|] _; [done|]. apply wpf_bindOk, wpf_sendState. intros [state|e]; [|done].
  apply wpf_bindOk. split; [split; [apply queueAttempt_local|apply queueAttempt_readOnly]|]. intros [queued|e] _; [|done].
  destruct queued.
  { apply wpf_bindOk. eapply wpf_mono, wpf_noTx, noTx_queuedOrStarted. intros [[entry|]|e] _; done. }
  apply wpf_bindOk. eapply wpf_mono, wpf_reconcileSend. intros [[receipt|]|e] _; [done| |done].
  apply wpf_bind. eapply wpf_mono, wpf_noTx, noTx_resume. intros [u|e] _; [|apply wpf_unwritten].
  apply wpf_bind. eapply wpf_mono, wpf_noTx, noTx_ActiveTurnID. intros [turnID|e] _; [|apply wpf_unwritten].
  destruct (_ && _); [apply wpf_unwritten|]. destruct (ss_found state); [apply wpf_submitMessage|].
  apply wpf_bind, wpf_run; [apply fits_record|]. intros [u'|e] _; [apply wpf_submitMessage|done].
Qed.

Lemma wpf_reconcileContinuation a : wpf (reconcileContinuation options fuel t text id a) (fun _ => True).
Proof. apply wpf_bind. eapply wpf_mono, wpf_reconcileSend. done. Qed.
Lemma wpf_preflight digest e : wpf (preflightFailure options fuel t text id action digest e) (fun _ => True).
Proof.
  apply wpf_bindOk, wpf_sendState. intros [latest|x]; [|done]. apply wpf_bindOk.
  eapply wpf_mono, wpf_reconcileContinuation. by intros [[receipt|]|x] _.
Qed.

Lemma wpf_submitContinuation n : wpf (submitContinuation options fuel t text id action n) (fun _ => True).
Proof.
  assert (∀ e, wpf (bind (sendStateTx t id text action (nt_Digest n)) (fun r =>
      match r with
      | Err _ => Ret (Err (EUnknownSend e))
      | Ok state =>
        bind (reconcileContinuation options fuel t text id (ss_attempt state)) (fun r =>
          Ret (match r with Ok (Some receipt) => Ok receipt | _ => Err (EUnknownSend e) end))
      end)) (fun _ => True)) as Huncertain.
  { intros e. apply wpf_bind, wpf_sendState. intros [state|x]; [|done]. apply wpf_bind.
    eapply wpf_mono, wpf_reconcileContinuation. done. }
  apply wpf_bind. eapply wpf_mono; [|apply wpf_request;
    [by left|apply decField_unicode, decField_unicode, decString_unicode|apply wpf_claim]].
  intros [b [x|e]] Hx.
  - destruct b; (destruct (is_empty x); [apply Huncertain|]; apply wpf_bind, wpf_mark; [by apply Hx|]; by intros).
  - destruct b as [claim|]; [|apply wpf_preflight]. destruct (_ || _); [|apply Huncertain].
    apply wpf_bind, wpf_run; [apply fits_restore|]. intros. apply wpf_unwritten.
Qed.

Context (sources : list string) `{HistoryReaderLaws}.
Lemma noTx_idle seen expected : noTx (continuationIdle options sources fuel seen t expected).
Proof.
  apply noTx_bindOk.
  - apply noTx_bindOk; [apply history_noTx|]. intros thread. destruct (_ || _); [done|]. cbv zeta. destruct (negb _); [done|].
    apply noTx_bind; [apply history_noTx|]. intros [[[|x [|]]|]|e]; try done;
      [by destruct (str_eqb _ _)|by destruct (freshThreadMissingSourceRollout _ _ _ _ _)].
  - intros state. destruct (negb _); [done|]. apply noTx_bindOk.
    + unfold PromptsWithItems. cbv zeta. destruct (Nat.eqb _ _); [done|].
      apply noTx_bindOk; [|done]. unfold threadItems. destruct (Nat.eqb _ _); [done|].
      apply noTx_bindOk; [apply noTx_walkPages|]. by intros [wanted items].
    + intros prompts. destruct (negb _); [done|]. apply noTx_bindOk; [apply noTx_queuePages|].
      intros queue. by destruct (negb _).
Qed.

Lemma wpf_require own : wpf (requireSubmissionAttemptsExcept options fuel t false own) (fun _ => True).
Proof.
  apply wpf_bindOk. split; [by split; [apply deletionCount_local|]|]. intros [deletions|e] _; [|done].
  cbn [wpf]. destruct (negb (deletions =? 0)); [done|]. apply wpf_bindOk. split; [by split; [apply resolutionSnapshot_local|]|].
  intros [[attempts unresolved]|e] _; [|done]. cbn [wpf]. destruct (0 <? unresolved); [done|]. case_bool_decide; [done|].
  apply wpf_bindOk. simpl. apply wpf_bind. eapply wpf_mono, wpf_noTx, noTx_walkPages.
  intros [resolved|e] _; [|done]. simpl. by repeat case_bool_decide.
Qed.

Lemma wpf_ContinueFailedTurn first second expected :
  wpf (ContinueFailedTurn options sources fuel first second t text id action expected turn) (fun _ => True).
Proof using All.
  unfold ContinueFailedTurn. destruct (_ || _); [done|]. destruct (normalizeTurnOptions turn) as [n|e]; [|done].
  apply wpf_bindOk. intros [e|] _; [done|]. apply wpf_bindOk, wpf_sendState. intros [state|e]; [|done].
  destruct (sa_Steered (ss_attempt state)); [done|].
  apply wpf_bindOk. split; [split; [apply queueAttempt_local|apply queueAttempt_readOnly]|]. intros [queued|e] _; [|done].
  destruct queued; [done|].
  apply wpf_bindOk. eapply wpf_mono, wpf_reconcileContinuation. intros [[receipt|]|e] _; [done| |done]. cbv zeta.
  apply wpf_bind. eapply wpf_mono, wpf_noTx, noTx_idle. intros [u|e] _; [|apply wpf_preflight].
  apply wpf_bind. eapply wpf_mono, wpf_require. intros [u'|e] _; [|apply wpf_preflight].
  apply wpf_bindOk.
  assert (∀ r : res err unit, match r with
    | Ok _ => wpf (bind (continuationIdle options sources fuel second t expected) (fun again =>
        match again with
        | Err e => preflightFailure options fuel t text id action (nt_Digest n) e
        | Ok _ => submitContinuation options fuel t text id action n
        end)) (fun _ => True)
    | Err _ => True end) as Hrest.
  { intros [u''|e]; [|done]. apply wpf_bind. eapply wpf_mono, wpf_noTx, noTx_idle.
    intros [u3|e] _; [apply wpf_submitContinuation|apply wpf_preflight]. }
  destruct (ss_found state); [apply (Hrest (Ok tt))|]. apply wpf_run; [apply fits_record|]. intros r _. apply Hrest.
Qed.
End fitting.

(** ** A call that has not finished yet

    The histories are those of finished calls; a call can always be finished,
    by a store that fails and a connection that answers nothing, so what it has
    done so far begins such a history. *)
Section completion.
Context {W E : Type} `{SubmissionStore W E}.

Definition failing_store : SubmissionStore W (option E) := {|
  keepsClaims := keepsClaims; stored := stored; sound := sound;
  transact A e s p w :=
    match e with Some e => transact e s p w | None => (Err (EMsg "the store is not available"), w) end |}.

(** The history of every way to finish. *)
Definition finishes {A} (m : prog A) (tr : list event) (Q : list event → A → Prop) : Prop :=
  ∀ w, wp (H := failing_store) (fun _ _ => True) m w tr (fun _ tr' a => Q tr' a).

Lemma wp_anywhere {A} (m : prog A) w w' tr (Q : list event → A → Prop) :
  wp (H := failing_store) (fun _ _ => True) m w tr (fun _ tr' a => Q tr' a) →
  wp (H := failing_store) (fun _ _ => True) m w' tr (fun _ tr' a => Q tr' a).
Proof.
  revert w w' tr. induction m as [a|B op s p k IH|k IH|k IH|k IH|me ps k IH]; intros w w' tr Hm; simpl in *; eauto.
Qed.

Lemma finishes_can {A} (m : prog A) tr Q (w : W) :
  finishes m tr Q → ∃ evs a, Q (tr ++ evs) a.
Proof.
  intros Hm. specialize (Hm w). revert w tr Hm.
  induction m as [a|B op s p k IH|k IH|k IH|k IH|me ps k IH]; intros w tr Hm; simpl in *.
  - exists [], a. by rewrite app_nil_r.
  - destruct (IH _ _ _ (Hm w None _ w I eq_refl eq_refl)) as (evs & a & Hq). eexists (_ :: evs), a. by rewrite <-app_assoc in Hq.
  - by apply (IH None w), Hm.
  - by apply (IH "" w), Hm.
  - apply (IH idleNet w), Hm. done.
  - destruct (IH (ReplyLost ECanceled) w _ (Hm (ReplyLost ECanceled) eq_refl)) as (evs & a & Hq).
    eexists (_ :: evs), a. by rewrite <-app_assoc in Hq.
Qed.
End completion.

(** ** The ledger's account *)

Definition claimStep (t id : string) (x : ledgerOp * bool) : bool :=
  match x with (OpClaim t' id' _ _ _ _ _, true) => str_eqb t' t && str_eqb id' id | _ => false end.
Definition restoreStep (t id : string) (x : ledgerOp * bool) : bool :=
  match x with (OpRestore _ t' id' _, true) => str_eqb t' t && str_eqb id' id | _ => false end.

Definition taken (o : option sendAttempt) : nat := if str_in (phase o) ["submitting"; "accepted"] then 1 else 0.
Lemma taken_admitted o : admitted o ↔ taken o = 1%nat.
Proof. unfold admitted, taken. rewrite <-str_in_true. by destruct (str_in _ _). Qed.
Lemma taken_le o : (taken o ≤ 1)%nat.
Proof. unfold taken. destruct (str_in _ _); lia. Qed.

Lemma lstep_balance l x l' t id :
  lstep l x l' → ownOp x.1 = true →
  ((if claimStep t id x then 1 else 0) + taken (sendAt t id l)
     ≤ (if restoreStep t id x then 1 else 0) + taken (sendAt t id l'))%nat.
Proof.
  intros Hx Ho. pose proof (taken_le (sendAt t id l)).
  destruct (claimStep t id x) eqn:Ec.
  - assert (claims t id x) as Hc by (destruct x as [[] []]; simpl in Ec; try done; bools; split; [done|by subst; do 5 eexists]).
    destruct (lstep_claim _ _ _ _ _ Hx Hc) as [Hp Ha%taken_admitted]. rewrite Ha.
    unfold taken at 1. rewrite Hp. simpl. destruct (restoreStep _ _ _); lia.
  - destruct (restoreStep t id x) eqn:Er; [lia|].
    destruct (decide (taken (sendAt t id l) = 1%nat)) as [Ht|]; [|lia].
    apply taken_admitted in Ht. eapply lstep_admitted in Ht; [|done|]; [apply taken_admitted in Ht; lia|].
    intros [Hb Hr]. destruct x as [[] b]; simpl in *; subst; try done.
    destruct Hr as [-> ->]. by rewrite !str_eqb_refl in Er.
Qed.

Lemma lsteps_balance l tr l' t id :
  lsteps l tr l' → Forall (fun x => ownOp x.1 = true) tr →
  (tally (claimStep t id) tr + taken (sendAt t id l) ≤ tally (restoreStep t id) tr + taken (sendAt t id l'))%nat.
Proof.
  induction 1 as [|l x l' tr l'' Hx _ IH]; intros Ho; [done|]. rewrite !tally_cons.
  inversion Ho as [|? ? Hox Ho']; subst. pose proof (lstep_balance _ _ _ t id Hx Hox). specialize (IH Ho'). lia.
Qed.
Lemma lsteps_snoc l tr l' x l'' : lsteps l tr l' → lstep l' x l'' → lsteps l (tr ++ [x]) l''.
Proof.
  induction 1 as [|l y l1 tr l2 Hy _ IH]; intros Hx; simpl; [by eapply lsteps_cons, lsteps_nil|].
  eapply lsteps_cons; [done|]. by apply IH.
Qed.

Section store.
Context {W E : Type} `{SubmissionStoreLaws W E}.

(** One transaction of a call is one step of the ledger, and a committed claim
    is a committed claim there. *)
Lemma fits_lstep {B} e op s (p : Ledger → plan B) w r w' :
  sound w → fits (Some op) s p → transact e s p w = (r, w') →
  sound w' ∧ ∃ b, lstep (stored w) (op, b) (stored w') ∧
    (is_ok r = true → ∀ t id, isClaimOf t id (EvTx (Some op) true) = true → b = true).
Proof.
  intros Hw (Hloc & Hop & _ & Hrun) Et.
  assert (∀ l n u a, p l = PWrite n u a → runOp op l = PWrite n u tt) as Hwrite by (intros l n u a Hp; by rewrite <-Hrun, Hp).
  assert (safe p) as Hsafe by (intros l n u a Hl Hp; eapply (runOp_safe op Hop); eauto).
  assert (∀ a, committed p w w' a → ∃ b, lstep (stored w) (op, b) (stored w') ∧
    ∀ t id, isClaimOf t id (EvTx (Some op) true) = true → b = true) as Hc.
  { intros a (next & Hs & Hd & Heq). unfold spec in Hs.
    destruct (p (stored w)) as [|x|n undo x] eqn:Er; simplify_eq.
    - exists false. split; [apply step_skip; by apply Heq|]. intros t id Hcl. exfalso.
      specialize (Hrun (stored w)). rewrite Er in Hrun. destruct op; try done. simpl in Hrun.
      unfold claimSendSubmissionExact, claimSendSubmissionIf in Hrun. repeat (cases_in Hrun; try done).
    - exists true. split; [|done]. eapply step_commit; [apply Hop|by eapply Hwrite|done]. }
  split; [by eapply transact_sound|]. destruct r as [a|x].
  - destruct (Hc a) as (b & Hb & Hcl); [by eapply transact_ok|]. eauto.
  - destruct (transact_err _ _ _ _ _ _ Hw Hloc Hsafe Et) as [Heq|[a Ha]].
    + exists false. split; [by apply step_skip|done].
    + destruct (Hc a Ha) as (b & Hb & _). by exists b.
Qed.

Lemma reads_lstep {B} e s (p : Ledger → plan B) w r w' :
  sound w → fits None s p → transact e s p w = (r, w') → sound w' ∧ stored w' ≡ stored w.
Proof.
  intros Hw (Hloc & Hro) Et.
  assert (safe p) as Hsafe by (intros l n u a _ Hp; specialize (Hro l); by rewrite Hp in Hro).
  split; [by eapply transact_sound|].
  assert (∀ a, committed p w w' a → stored w' ≡ stored w) as Hc.
  { intros a (next & Hs & _ & Heq). unfold spec in Hs. specialize (Hro (stored w)).
    destruct (p (stored w)); try done; simplify_eq. by apply Heq. }
  destruct r as [a|x]; [by eapply Hc, transact_ok|].
  destruct (transact_err _ _ _ _ _ _ Hw Hloc Hsafe Et) as [Heq|[a Ha]]; [done|by eapply Hc].
Qed.
End store.

(** ** The pool of calls *)

(** The events of one call, and those of the first calls. *)
Definition proj (i : nat) (log : list (nat * event)) : list event := snd <$> filter (fun x => x.1 = i) log.
Definition below (n : nat) (log : list (nat * event)) : list event := snd <$> filter (fun x => (x.1 < n)%nat) log.

Lemma proj_snoc i log j ev : proj i (log ++ [(j, ev)]) = proj i log ++ if decide (j = i) then [ev] else [].
Proof.
  unfold proj. rewrite filter_app, fmap_app. f_equal. destruct (decide (j = i)) as [->|].
  - by rewrite filter_cons_True.
  - by rewrite filter_cons_False.
Qed.
Lemma proj_fresh n log : Forall (fun x => (x.1 < n)%nat) log → proj n log = [].
Proof.
  unfold proj. induction 1 as [|x log Hx _ IH]; [done|]. rewrite filter_cons_False; [done|]. simpl in *. lia.
Qed.
Lemma below_all n log : Forall (fun x => (x.1 < n)%nat) log → below n log = snd <$> log.
Proof. unfold below. induction 1 as [|x log Hx _ IH]; [done|]. rewrite filter_cons_True by done. by rewrite !fmap_cons, IH. Qed.
Lemma tally_below f n log : tally f (below (S n) log) = (tally f (below n log) + tally f (proj n log))%nat.
Proof.
  unfold below, proj. induction log as [|[j ev] log IH]; [done|].
  destruct (decide (j = n)) as [->|Hne].
  - rewrite filter_cons_True by (simpl; lia). rewrite (filter_cons_False _ _ log) by (simpl; lia).
    rewrite filter_cons_True by done. rewrite !fmap_cons, !tally_cons, IH. lia.
  - rewrite (filter_cons_False (fun x => x.1 = n)) by done. destruct (decide (j < n)%nat).
    + rewrite !filter_cons_True by (simpl; lia). rewrite !fmap_cons, !tally_cons, IH. lia.
    + by rewrite !filter_cons_False by (simpl; lia).
Qed.

(** What holds of each call's events adds up. *)
Lemma tally_sum f g h n log :
  (∀ i, tally f (proj i log) + tally g (proj i log) ≤ tally h (proj i log))%nat →
  (tally f (below n log) + tally g (below n log) ≤ tally h (below n log))%nat.
Proof.
  intros Hi. induction n as [|n IH].
  - assert (below 0 log = []) as ->; [|done]. unfold below. clear. induction log as [|x log IH]; [done|].
    rewrite filter_cons_False; [done|lia].
  - rewrite !tally_below. specialize (Hi n). lia.
Qed.

Section pool.
Context {W E : Type} `{SubmissionStoreLaws W E}.

Record mpool := mkPool {
  mp_store : W;
  mp_calls : list (prog (res err SendReceipt));  (** the calls so far, as what is left of them *)
  mp_log : list (nat * event) }.

(** The calls that deliver messages under a durable identity. *)
Inductive delivers : prog (res err SendReceipt) → Prop :=
| dv_send options fuel t text id action turn :
    tame options → callable t id action → delivers (SendWithOptions options fuel t text id action turn)
| dv_continue options fuel t text id action turn sources reader first second expected :
    tame options → callable t id action → @HistoryReaderLaws reader →
    delivers (ContinueFailedTurn options sources fuel first second t text id action expected turn).

(** A new call, by any process; a step of a call; a transaction of other code. A
    call that crashes takes no more steps. *)
Inductive mstep : mpool → mpool → Prop :=
| ms_call m w calls log : delivers m → mstep (mkPool w calls log) (mkPool w (calls ++ [m]) log)
| ms_other e op w r w' calls log :
    harmless op = true → opStorable op → transact e (opScope op) (runOp op) w = (r, w') →
    mstep (mkPool w calls log) (mkPool w' calls log)
| ms_tx i B op s (p : Ledger → plan B) k e r w w' calls log :
    calls !! i = Some (Tx op s p k) → transact e s p w = (r, w') → plainRes r →
    mstep (mkPool w calls log) (mkPool w' (<[i := k r]> calls) (log ++ [(i, EvTx op (is_ok r))]))
| ms_ctx i k o w calls log :
    calls !! i = Some (Ctx k) → plainOpt o → mstep (mkPool w calls log) (mkPool w (<[i := k o]> calls) log)
| ms_fresh i k x w calls log :
    calls !! i = Some (Fresh k) → mstep (mkPool w calls log) (mkPool w (<[i := k x]> calls) log)
| ms_net i k n w calls log :
    calls !! i = Some (Net k) → plainNet n → mstep (mkPool w calls log) (mkPool w (<[i := k n]> calls) log)
| ms_wire i method params k reply w calls log :
    calls !! i = Some (Wire method params k) → plainReply reply →
    mstep (mkPool w calls log) (mkPool w (<[i := k reply]> calls) (log ++ [(i, EvWire method params reply)])).

(** What is left of a call, after the events it has shown. *)
Definition underway (m : prog (res err SendReceipt)) (tr : list event) : Prop :=
  wpf m (fun _ => True) ∧ finishes m tr (fun tr' _ => ∀ t id, sober t id 0 tr').

(** The ledger's steps account for the log. *)
Definition accounted (w0 w : W) (log : list (nat * event)) : Prop :=
  ∃ ltr, lsteps (stored w0) ltr (stored w) ∧ Forall (fun x => ownOp x.1 = true) ltr ∧
    ∀ t id, (tally (isClaimOf t id) log.*2 ≤ tally (claimStep t id) ltr)%nat ∧
            (tally (restoreStep t id) ltr ≤ tally (isRestoreOf t id) log.*2)%nat.

Record minv (w0 : W) (st : mpool) : Prop := {
  mi_sound : sound (mp_store st);
  mi_log : Forall (fun x => (x.1 < Datatypes.length (mp_calls st))%nat) (mp_log st);
  mi_calls : ∀ i m, mp_calls st !! i = Some m → underway m (proj i (mp_log st));
  mi_account : accounted w0 (mp_store st) (mp_log st) }.

Lemma underway_call m : delivers m → underway m [].
Proof.
  intros [options fuel t text id action turn Ht Hc|options fuel t text id action turn sources reader first second expected Ht Hc Hr].
  - split; [by apply wpf_SendWithOptions|]. intros w.
    eapply wp_mono; [|by apply (SendWithOptions_history (H := failing_store))]. intros w' tr' r Hh t' id'. eapply history_sober, Hh.
  - split; [by apply wpf_ContinueFailedTurn|]. intros w.
    eapply wp_mono; [|by apply (@ContinueFailedTurn_continued options sources fuel reader Hr W (option E) failing_store)].
    intros w' tr' r Hh t' id'. eapply history_sober, continued_history, Hh.
Qed.

Lemma underway_sober m tr t id (w : W) : underway m tr → sober t id 0 tr.
Proof. intros [_ Hf]. destruct (finishes_can _ _ _ w Hf) as (evs & a & Hs). by eapply sober_prefix. Qed.

(** A step of one call that leaves the account in order. *)
Lemma minv_advance w0 w w' calls log i m m' evs :
  minv w0 (mkPool w calls log) → calls !! i = Some m →
  (underway m (proj i log) → underway m' (proj i log ++ evs)) →
  sound w' → accounted w0 w' (log ++ (pair i <$> evs)) →
  minv w0 (mkPool w' (<[i := m']> calls) (log ++ (pair i <$> evs))).
Proof.
  intros [Hs Hl Hc Ha] Hi Hm Hs' Ha'. simpl in *.
  assert (∀ j, proj j (log ++ (pair i <$> evs)) = proj j log ++ if decide (i = j) then evs else []) as Hproj.
  { intros j. clear -j. induction evs as [|ev evs IH] using rev_ind; [by destruct (decide _); rewrite !app_nil_r|].
    rewrite fmap_app, app_assoc. simpl. rewrite proj_snoc, IH. destruct (decide _); by rewrite <-app_assoc. }
  split; simpl; [done| | |done].
  - rewrite length_insert. apply Forall_app. split; [done|]. apply Forall_fmap, Forall_true. intros ev. simpl.
    by eapply lookup_lt_Some.
  - intros j m1. rewrite Hproj. destruct (decide (i = j)) as [->|Hne].
    + rewrite list_lookup_insert_eq by (by eapply lookup_lt_Some). intros [= <-]. eauto.
    + rewrite list_lookup_insert_ne by done. rewrite app_nil_r. apply Hc.
Qed.

Lemma accounted_step w0 w w' log x evs :
  accounted w0 w log → lstep (stored w) x (stored w') → ownOp x.1 = true →
  (∀ t id, (tally (isClaimOf t id) evs.*2 ≤ if claimStep t id x then 1 else 0)%nat) →
  (∀ t id, ((if restoreStep t id x then 1 else 0) ≤ tally (isRestoreOf t id) evs.*2)%nat) →
  accounted w0 w' (log ++ evs).
Proof.
  intros (ltr & Hl & Ho & Hc) Hx Hox H1 H2. exists (ltr ++ [x]). split_and!; [by eapply lsteps_snoc| |].
  - apply Forall_app. split; [done|]. by repeat constructor.
  - intros t id. rewrite fmap_app, !tally_app, !tally_cons, !tally_nil.
    specialize (Hc t id). specialize (H1 t id). specialize (H2 t id). lia.
Qed.

Lemma accounted_quiet w0 w w' log : accounted w0 w log → stored w' ≡ stored w → accounted w0 w' log.
Proof.
  intros Ha Heq. rewrite <-(app_nil_r log).
  by apply (accounted_step w0 w w' log (OpCompact "", false) [] Ha); [by apply step_skip|..].
Qed.

Lemma transaction_accounted {B} w0 w w' log i e op s (p : Ledger → plan B) r :
  sound w → accounted w0 w log → fits op s p → transact e s p w = (r, w') →
  sound w' ∧ accounted w0 w' (log ++ [(i, EvTx op (is_ok r))]).
Proof.
  intros Hw Ha Hf Et. destruct op as [op|].
  - destruct (fits_lstep _ _ _ _ _ _ _ Hw Hf Et) as (Hw' & b & Hb & Hcl). split; [done|].
    eapply accounted_step; [done|exact Hb|by destruct Hf as (_ & _ & ? & _)|..]; intros t id;
      simpl; rewrite tally_cons, tally_nil.
    + destruct op; try (simpl; lia). destruct (is_ok r) eqn:Er; [|simpl; lia]. simpl.
      destruct (_ && _) eqn:Em; [|destruct b; lia]. rewrite (Hcl eq_refl t id Em). lia.
    + destruct op; try (simpl; lia). simpl. destruct b, (_ && _); lia.
  - destruct (reads_lstep _ _ _ _ _ _ Hw Hf Et) as (Hw' & Heq). split; [done|].
    apply (accounted_step w0 w w' log (OpCompact "", false)); [done|by apply step_skip|done|..]; intros t id;
      simpl; rewrite tally_cons, tally_nil; simpl; lia.
Qed.

Lemma harmless_accounted w0 w w' log e op r :
  sound w → accounted w0 w log → harmless op = true → opStorable op →
  transact e (opScope op) (runOp op) w = (r, w') → sound w' ∧ accounted w0 w' log.
Proof.
  intros Hw Ha Hh Hop Et. destruct (storeOp_lstep w (e, op) Hw Hop) as (Hw' & b & Hb).
  unfold storeOp in *. simpl in *. rewrite Et in *. simpl in *. split; [done|]. rewrite <-(app_nil_r log).
  eapply accounted_step; [done|exact Hb|by destruct op|..]; intros t id; simpl; rewrite tally_nil; [lia|].
  by destruct op.
Qed.

Lemma mstep_inv w0 st st' : minv w0 st → mstep st st' → minv w0 st'.
Proof.
  intros Hinv Hstep. pose proof Hinv as [Hs Hl Hc Ha].
  destruct Hstep as [m w calls log Hm|e op w r w' calls log Hh Hop Et
    |i B op s p k e r w w' calls log Hi Et Hr|i k o w calls log Hi Ho|i k x w calls log Hi
    |i k n w calls log Hi Hn|i method params k reply w calls log Hi Hr]; simpl in *.
  - split; simpl; [done| | |done].
    + rewrite length_app. simpl. eapply Forall_impl; [exact Hl|]. simpl. intros; lia.
    + intros i m' [Hi|[Hge Hi]]%lookup_app_Some; [by apply Hc|].
      apply list_lookup_singleton_Some in Hi as [Hz <-].
      assert (i = Datatypes.length calls) as -> by lia. rewrite proj_fresh by done. by apply underway_call.
  - destruct (harmless_accounted _ _ _ _ _ _ _ Hs Ha Hh Hop Et). by split.
  - destruct (transaction_accounted w0 w w' log i e op s p r Hs Ha (proj1 (proj1 (Hc _ _ Hi))) Et) as [Hs' Ha'].
    apply (minv_advance w0 w w' calls log i _ (k r) [EvTx op (is_ok r)] Hinv Hi); [|done|exact Ha'].
    intros [[_ Hf] Hw]. split; [by apply Hf|]. intros w1. exact (wp_anywhere _ w' w1 _ _ (Hw w w (Some e) r w' I Et Hr)).
  - rewrite <-(app_nil_r log). apply (minv_advance w0 w w calls log i _ (k o) [] Hinv Hi); [|done|by rewrite app_nil_r].
    intros [Hf Hw]. rewrite app_nil_r. split; [by apply Hf|]. intros w1. by apply Hw.
  - rewrite <-(app_nil_r log). apply (minv_advance w0 w w calls log i _ (k x) [] Hinv Hi); [|done|by rewrite app_nil_r].
    intros [Hf Hw]. rewrite app_nil_r. split; [by apply Hf|]. intros w1. by apply Hw.
  - rewrite <-(app_nil_r log). apply (minv_advance w0 w w calls log i _ (k n) [] Hinv Hi); [|done|by rewrite app_nil_r].
    intros [Hf Hw]. rewrite app_nil_r. split; [by apply Hf|]. intros w1. by apply Hw.
  - apply (minv_advance w0 w w calls log i _ (k reply) [EvWire method params reply] Hinv Hi); [|done|].
    + intros [Hf Hw]. split; [by apply Hf|]. intros w1. by apply Hw.
    + simpl. destruct Ha as (ltr & Hlt & Ho & Hcnt). exists ltr. split_and!; [done|done|]. intros t id.
      rewrite fmap_app, !tally_app. simpl. rewrite !tally_cons, !tally_nil. simpl. specialize (Hcnt t id). lia.
Qed.

Lemma minv_start w : sound w → minv w (mkPool w [] []).
Proof.
  intros Hw. split; simpl; [done|constructor|done|]. exists []. split_and!; [constructor|constructor|].
  intros t id. by rewrite !tally_nil.
Qed.

Lemma minv_balance w0 st t id :
  minv w0 st → (tally (stands t id) (mp_log st).*2 + taken (sendAt t id (stored w0)) ≤ 1)%nat.
Proof.
  intros [Hs Hl Hc (ltr & Hlt & Ho & Hcnt)]. destruct (Hcnt t id) as [H1 H2].
  pose proof (lsteps_balance _ _ _ t id Hlt Ho) as Hb. pose proof (taken_le (sendAt t id (stored (mp_store st)))).
  rewrite <-(below_all _ _ Hl) in *.
  assert (tally (stands t id) (below (Datatypes.length (mp_calls st)) (mp_log st)) +
    tally (isRestoreOf t id) (below (Datatypes.length (mp_calls st)) (mp_log st)) ≤
    tally (isClaimOf t id) (below (Datatypes.length (mp_calls st)) (mp_log st)))%nat; [|lia].
  apply tally_sum. intros i. destruct (mp_calls st !! i) as [m|] eqn:Ei.
  - apply (sober_balance t id 0). by eapply underway_sober, Hc.
  - rewrite proj_fresh; [done|]. apply lookup_ge_None_1 in Ei. eapply Forall_impl; [exact Hl|]. simpl. intros; lia.
Qed.


(** A scripted run of one call is a path of the pool. *)
Lemma drive_pool m answers w tr a w' tr' i calls log :
  drive m answers w tr = Some (a, w', tr') → plainRun m answers w → calls !! i = Some m →
  ∃ evs, tr' = tr ++ evs ∧
    rtc mstep (mkPool w calls log) (mkPool w' (<[i := Ret a]> calls) (log ++ (pair i <$> evs))).
Proof.
  revert answers w tr calls log.
  induction m as [x|B op s p k IH|k IH|k IH|k IH|me ps k IH]; intros [|[] answers] w tr calls log Hd Hp Hi;
    simpl in *; try done.
  - simplify_eq. exists []. rewrite !app_nil_r, list_insert_id by done. by split; [|constructor].
  - destruct (transact e s p w) as [r w1] eqn:Et. simpl in Hp. destruct Hp as [Hp1 Hp2].
    destruct (IH _ _ _ _ (<[i := k r]> calls) (log ++ [(i, EvTx op (is_ok r))]) Hd Hp2) as (evs & -> & Hr).
    { apply list_lookup_insert_eq. by eapply lookup_lt_Some. }
    eexists. split; [by rewrite <-app_assoc|]. eapply rtc_l; [by eapply ms_tx|].
    by rewrite list_insert_insert_eq, <-app_assoc in Hr.
  - destruct Hp as [Hp1 Hp2]. destruct (IH _ _ _ _ (<[i := k o]> calls) log Hd Hp2) as (evs & -> & Hr).
    { apply list_lookup_insert_eq. by eapply lookup_lt_Some. }
    eexists. split; [done|]. eapply rtc_l; [by eapply ms_ctx|]. by rewrite list_insert_insert_eq in Hr.
  - destruct (IH _ _ _ _ (<[i := k x]> calls) log Hd Hp) as (evs & -> & Hr).
    { apply list_lookup_insert_eq. by eapply lookup_lt_Some. }
    eexists. split; [done|]. eapply rtc_l; [by eapply ms_fresh|]. by rewrite list_insert_insert_eq in Hr.
  - destruct Hp as [Hp1 Hp2]. destruct (IH _ _ _ _ (<[i := k n]> calls) log Hd Hp2) as (evs & -> & Hr).
    { apply list_lookup_insert_eq. by eapply lookup_lt_Some. }
    eexists. split; [done|]. eapply rtc_l; [by eapply ms_net|]. by rewrite list_insert_insert_eq in Hr.
  - destruct Hp as [Hp1 Hp2].
    destruct (IH _ _ _ _ (<[i := k r]> calls) (log ++ [(i, EvWire me ps r)]) Hd Hp2) as (evs & -> & Hr).
    { apply list_lookup_insert_eq. by eapply lookup_lt_Some. }
    eexists. split; [by rewrite <-app_assoc|]. eapply rtc_l; [by eapply ms_wire|].
    by rewrite list_insert_insert_eq, <-app_assoc in Hr.
Qed.
End pool.

(** ** A concrete pool: two calls for one message; the first delivers it *)

Definition standing (o : option (res err SendReceipt * database * list event)) : option nat :=
  match o with Some (_, _, tr) => Some (tally (stands "thread" "message") tr) | None => None end.
Lemma accepting_standing : standing (drive demoSend accepting (∅ : database) []) = Some 1%nat.
Proof. vm_compute. reflexivity. Qed.
Lemma demo_callable : callable "thread" "message" "send".
Proof. by split_and!. Qed.

