(* ===== verification/PromptFacts.v ===== *)
(** * Properties of pending questions

    Any number of responders, timers, reader events, connections and
    disconnections interleave, one locked section at a time. *)
From S2P Require Import Prelude GoStd GoValue TurnOptions Ledger LedgerFacts Store Program Wire History Prompts.
From Stdlib Require Import String.
Open Scope Z_scope.

(** ** The interleaving *)

(** A response that was handed to the writer: by which responder, for which offer. *)
Record attempt := mkAttempt { at_proc : nat; at_offer : PendingRequest; at_result : any; at_ok : bool }.

Record pool := mkPool {
  po_client : client;
  po_procs : list (oprog (res err unit));
  po_issued : list string;          (** the tokens drawn so far *)
  po_log : list attempt }.

Definition withClient (c : client) (p : pool) : pool := mkPool c (po_procs p) (po_issued p) (po_log p).
Definition withProc (i : nat) (m : oprog (res err unit)) (c : client) (p : pool) : pool :=
  mkPool c (<[i := m]> (po_procs p)) (po_issued p) (po_log p).

Section pool.
Context (policy : option NonBlockingUserInputPolicy).

(** The calls that may be under way, of a client that is not an observer. *)
Inductive call : oprog (res err unit) → Prop :=
| call_decision id t token d : call (respondDecision false id t token d)
| call_answers id t token a : call (respondAnswers false id t token a)
| call_auto id t token : call (autoResolveUserInput false id t token)
| call_prompt t r : call (RespondPrompt false t r).

(** Sections run by the reader, by subscriptions and by [Ensure] and [Close]. *)
Inductive reader : client → client → Prop :=
| rd_dial k e c : reader c (dial k e c).2
| rd_ready k g c : reader c (markReady k g c).2
| rd_disconnected k g c : reader c (markDisconnected k g c)
| rd_close c : reader c (Close c)
| rd_resolved id g c : reader c (handleResolved id g c)
| rd_reject r e c : reader c (rejectUnsupported r e c)
| rd_watchError t e c : reader c (recordWatchError t e c)
| rd_clearError t c : reader c (clearWatchError t c)
| rd_prune t c : reader c (prunePendingRevision t c)
| rd_watch t c : reader c (addWatch t c)
| rd_unwatch t c : reader c (removeWatch t c).

(** One section of a responder. *)
Inductive section : nat → pool → pool → Prop :=
| se_claim i id t token k p :
    po_procs p !! i = Some (OClaim id t token k) →
    section i p (let '(r, c) := claim policy id t token (po_client p) in withProc i (k r) c p)
| se_auto i id t token k p :
    po_procs p !! i = Some (OAuto id t token k) →
    section i p (let '(r, c) := claimAutoResolvableUserInput policy id t token (po_client p) in withProc i (k r) c p)
| se_snooze i id t token k p :
    po_procs p !! i = Some (OSnooze id t token k) →
    section i p (let '(r, c) := snoozeUserInput policy id t token (po_client p) in withProc i (k r) c p)
| se_release i r k p :
    po_procs p !! i = Some (ORelease r k) → section i p (withProc i k (releaseClaim r (po_client p)) p)
| se_items i t ids k x p :
    po_procs p !! i = Some (OItems t ids k) → section i p (withProc i (k x) (po_client p) p)
| se_encode i id v k x p :
    po_procs p !! i = Some (OEncode id v k) → section i p (withProc i (k x) (po_client p) p)
| se_write i r v k env o c p :
    po_procs p !! i = Some (OWrite r v k) → writeSection env r (po_client p) = (o, c) →
    section i p (mkPool c (<[i := k o]> (po_procs p)) (po_issued p)
      (po_log p ++ match o with
                   | Written => [mkAttempt i r v true]
                   | WriteFailed _ => [mkAttempt i r v false]
                   | _ => [] end))
| se_disconnect i conn gen k p :
    po_procs p !! i = Some (ODisconnect conn gen k) →
    section i p (withProc i k (markDisconnected conn gen (po_client p)) p)
| se_prune i t k p :
    po_procs p !! i = Some (OPrune t k) → section i p (withProc i k (prunePendingRevision t (po_client p)) p).

(** A new token has not been drawn before: [rand.Text] has 128 bits of entropy. *)
Inductive pstep : pool → pool → Prop :=
| ps_reader c p : reader (po_client p) c → pstep p (withClient c p)
| ps_admit token request p :
    token ∉ po_issued p → pr_claimed request = false →
    pstep p (mkPool (admitPrompt token request (po_client p)).2 (po_procs p) (token :: po_issued p) (po_log p))
| ps_call m p : call m → pstep p (mkPool (po_client p) (po_procs p ++ [m]) (po_issued p) (po_log p))
| ps_section i p p' : section i p p' → pstep p p'.

Inductive reachable : pool → Prop :=
| reach_new : reachable (mkPool newClient [] [] [])
| reach_step p p' : reachable p → pstep p p' → reachable p'.

(** ** The protocol of a responder *)

Inductive hold := Free | Held (r : PendingRequest) | Failed (r : PendingRequest).

Definition heldBy (h : hold) : option PendingRequest :=
  match h with Free => None | Held r | Failed r => Some r end.

(** A claimed offer is written at most once or released; after a write that may
    have left bytes, the connection is given up before the claim. *)
Fixpoint obeys {A} (h : hold) (m : oprog A) : Prop :=
  match m with
  | ODone _ => h = Free
  | OClaim _ _ _ k => h = Free ∧ (∀ e, obeys Free (k (Err e))) ∧ ∀ r p, obeys (Held r) (k (Ok (r, p)))
  | OAuto _ _ _ k => h = Free ∧ obeys Free (k None) ∧ ∀ r, obeys (Held r) (k (Some r))
  | OSnooze _ _ _ k => h = Free ∧ ∀ r, obeys Free (k r)
  | ORelease r k => h = Held r ∧ obeys Free k
  | OItems _ _ k => (∃ r, h = Held r) ∧ ∀ x, obeys h (k x)
  | OEncode _ _ k => (∃ r, h = Held r) ∧ ∀ x, obeys h (k x)
  | OWrite r _ k => h = Held r ∧ (∀ e, obeys (Held r) (k (Withheld e)))
      ∧ (∀ e alive, obeys (Held r) (k (Unacquired e alive)))
      ∧ (∀ e, obeys (Failed r) (k (WriteFailed e))) ∧ obeys Free (k Written)
  | ODisconnect conn gen k => ∃ r, heldBy h = Some r ∧ conn = pr_connection r ∧ gen = pr_generation r
      ∧ obeys (Held r) k
  | OPrune _ k => h = Free ∧ obeys Free k
  end.

Lemma writeOffer_obeys {A} r v (k : res err unit → oprog A) :
  (∀ e, obeys (Held r) (k (Err e))) → obeys Free (k (Ok tt)) → obeys (Held r) (writeOffer r v k).
Proof.
  intros He Hk. simpl. split_and!; [done|done| | |done].
  - intros e [|]; simpl; eauto 10.
  - intros e. simpl. eauto 10.
Qed.

Lemma finish_obeys r v : obeys (Held r) (finishResponse false r v).
Proof.
  simpl. split; [eauto|]. intros [e|]; [done|]. apply writeOffer_obeys; done.
Qed.

Lemma call_obeys m : call m → obeys Free m.
Proof.
  assert (∀ id t token d, obeys Free (respondDecision false id t token d)) as Hd.
  { intros. simpl. split_and!; [done|done|]. intros r p.
    destruct (negb _); [done|]. destruct (requiresThreadItem _); [|done].
    simpl. split; [eauto|]. intros [items|e]; [|done].
    destruct (items !! _); [|done]. destruct (itemTypeMatches _ _); [apply finish_obeys|done]. }
  assert (∀ id t token a, obeys Free (respondAnswers false id t token a)) as Ha.
  { intros. simpl. split_and!; [done|done|]. intros r p.
    destruct (negb _); [done|]. destruct (validateAnswers p a); [apply finish_obeys|done]. }
  intros []; [apply Hd|apply Ha| |].
  - simpl. split_and!; [done|done|]. intros r. apply finish_obeys.
  - unfold RespondPrompt. destruct (_ || _); [done|]. destruct (negb (_ =? _)); [done|].
    destruct (ps_Snooze r); [by simpl|]. destruct (negb _); [apply Ha|apply Hd].
Qed.

(** ** The invariant *)

Definition tokens (log : list attempt) : list string := (fun a => pr_token (at_offer a)) <$> log.
Definition entry (c : client) (id : string) (r : PendingRequest) : Prop := cl_requests c !! id = Some r.
Definition holds (hs : list hold) (i : nat) (r : PendingRequest) : Prop :=
  ∃ h, hs !! i = Some h ∧ heldBy h = Some r.

(** The parts of an offer that never change. *)
Definition sameOffer (a b : PendingRequest) : Prop :=
  pr_ID a = pr_ID b ∧ pr_Params a = pr_Params b ∧ pr_generation a = pr_generation b
  ∧ pr_connection a = pr_connection b.

(** The requests of the client, its issued tokens, the holders and the log. *)
Record inv (c : client) (issued : list string) (hs : list hold) (done : list string) : Prop := {
  inv_live id r : entry c id r → pr_ID r = id ∧ live r c = true;
  inv_issued id r : entry c id r → pr_token r ∈ issued;
  inv_unique id id' r r' : entry c id r → entry c id' r' → pr_token r = pr_token r' → id = id';
  inv_heldIssued i r : holds hs i r → pr_token r ∈ issued;
  inv_heldEntry i r id r' : holds hs i r → entry c id r' → pr_token r' = pr_token r →
    pr_claimed r' = true ∧ sameOffer r' r;
  inv_heldUnique i j r r' : holds hs i r → holds hs j r' → pr_token r = pr_token r' → i = j;
  inv_claimed id r : entry c id r → pr_claimed r = true → ∃ i r', holds hs i r' ∧ pr_token r' = pr_token r;
  inv_log τ : τ ∈ done → τ ∈ issued;
  inv_attempted id r : entry c id r → pr_token r ∈ done →
    ∃ i r', hs !! i = Some (Failed r') ∧ pr_token r' = pr_token r;
  inv_once : NoDup done }.

(** Sections that touch neither the connection nor the requests keep it. *)
Lemma inv_same c c' issued hs done :
  cl_requests c' = cl_requests c → cl_connection c' = cl_connection c → cl_generation c' = cl_generation c →
  inv c issued hs done → inv c' issued hs done.
Proof.
  intros Hr Hc Hg []. split; unfold entry, live, current in *; rewrite ?Hr, ?Hc, ?Hg; auto.
Qed.

(** Fewer requests, on the same connection or with no request left. *)
Lemma inv_fewer c c' issued hs done :
  (∀ id r, entry c' id r → entry c id r ∧ cl_connection c' = cl_connection c ∧ cl_generation c' = cl_generation c) →
  inv c issued hs done → inv c' issued hs done.
Proof.
  intros Hsub []. split; eauto.
  - intros id r He. destruct (Hsub _ _ He) as (He' & Hc & Hg).
    unfold live, current. rewrite Hc, Hg. by apply inv_live0.
  - intros id r He. apply Hsub in He as [He _]. eauto.
  - intros id id' r r' He He'. apply Hsub in He as [He _]. apply Hsub in He' as [He' _]. eauto.
  - intros i r id r' Hh He. apply Hsub in He as [He _]. eauto.
  - intros id r He. apply Hsub in He as [He _]. eauto.
  - intros id r He. apply Hsub in He as [He _]. eauto.
Qed.

Lemma bump_same t c :
  cl_requests (bumpPending t c) = cl_requests c ∧ cl_connection (bumpPending t c) = cl_connection c
  ∧ cl_generation (bumpPending t c) = cl_generation c.
Proof. unfold bumpPending. by destruct (is_empty t). Qed.
Lemma prune_kept t c :
  cl_requests (prunePendingRevision t c) = cl_requests c ∧ cl_connection (prunePendingRevision t c) = cl_connection c
  ∧ cl_generation (prunePendingRevision t c) = cl_generation c.
Proof. unfold prunePendingRevision. by repeat cases. Qed.

Lemma inv_bump t c issued hs done : inv c issued hs done → inv (bumpPending t c) issued hs done.
Proof. destruct (bump_same t c) as (? & ? & ?). by apply inv_same. Qed.
Lemma inv_prune t c issued hs done : inv c issued hs done → inv (prunePendingRevision t c) issued hs done.
Proof. destruct (prune_kept t c) as (? & ? & ?). by apply inv_same. Qed.

Lemma entry_none c id r : cl_requests c = ∅ → ¬ entry c id r.
Proof. intros Hn He. unfold entry in He. by rewrite Hn, lookup_empty in He. Qed.

(** All requests are of the current connection, so a disconnection leaves none. *)
Lemma detach_empty c issued hs done :
  inv c issued hs done → ∀ id r, ¬ entry (detachConnection (cl_generation c) c) id r.
Proof.
  intros Hi id r He. unfold entry in He. simpl in He.
  apply map_lookup_filter_Some in He as [He Hg]. simpl in Hg. apply (inv_live _ _ _ _ Hi) in He as [_ Hl].
  apply Hg. unfold live, current in Hl. apply andb_true_iff in Hl as [_ Hl]. by apply Z.eqb_eq in Hl.
Qed.

Lemma inv_disconnect k g c issued hs done : inv c issued hs done → inv (markDisconnected k g c) issued hs done.
Proof.
  intros Hi. unfold markDisconnected. destruct (negb _) eqn:Ec; [done|]. apply negb_false_iff in Ec. unfold current in Ec.
  apply andb_true_iff in Ec as [_ Eg]. apply Z.eqb_eq in Eg as <-.
  eapply inv_fewer; [|exact Hi]. intros id r He. by apply (detach_empty _ _ _ _ Hi) in He.
Qed.

Lemma reader_inv c c' issued hs done : reader c c' → inv c issued hs done → inv c' issued hs done.
Proof.
  intros [] Hi.
  - unfold dial. destruct (cl_closed c0); [done|]. destruct (cl_connection c0) as [k0|] eqn:Ek.
    + by destruct (_ =? _).
    + destruct e; [done|]. eapply inv_fewer; [|exact Hi]. intros id r He. exfalso.
      apply (inv_live _ _ _ _ Hi) in He as [_ Hl]. unfold live, current in Hl. by rewrite Ek in Hl.
  - unfold markReady. destruct (negb _); [done|]. by eapply inv_same; [..|exact Hi].
  - by apply inv_disconnect.
  - unfold Close. destruct (cl_connection c0); [apply inv_disconnect|]; by eapply inv_same; [..|exact Hi].
  - unfold handleResolved. destruct (cl_requests c0 !! id) as [r|] eqn:Er.
    + destruct (_ =? _); [|done]. apply inv_bump. eapply inv_fewer; [|exact Hi].
      intros id' r' He. unfold entry in *. simpl in *. by apply lookup_delete_Some in He as [_ He].
    + destruct (_ =? _); [|done]. apply inv_bump. eapply inv_fewer; [|exact Hi].
      intros id' r' He. unfold entry in *. simpl in *. by apply lookup_delete_Some in He as [_ He].
  - unfold rejectUnsupported. destruct (is_empty _); [done|]. apply inv_bump. by eapply inv_same; [..|exact Hi].
  - apply inv_bump. by eapply inv_same; [..|exact Hi].
  - unfold clearWatchError. destruct (removeFirst _ _).
    + eapply (inv_same (bumpPending t c0)); [done..|]. by apply inv_bump.
    + by eapply inv_same; [..|exact Hi].
  - by apply inv_prune.
  - by eapply inv_same; [..|exact Hi].
  - unfold removeWatch. destruct (_ <=? _); [apply inv_prune|]; by eapply inv_same; [..|exact Hi].
Qed.

Lemma holds_insert hs i h h0 j r :
  hs !! i = Some h0 →
  (holds (<[i := h]> hs) j r ↔ (j = i ∧ heldBy h = Some r) ∨ (j ≠ i ∧ holds hs j r)).
Proof.
  intros Hi. assert (i < Datatypes.length hs)%nat as Hlt by (by eapply lookup_lt_Some).
  unfold holds. destruct (decide (j = i)) as [->|Hne].
  - rewrite list_lookup_insert_eq by done. naive_solver.
  - rewrite list_lookup_insert_ne by done. naive_solver.
Qed.

Lemma holds_same hs i h h0 j r :
  hs !! i = Some h0 → heldBy h0 = heldBy h → (holds (<[i := h]> hs) j r ↔ holds hs j r).
Proof.
  intros Hi Hb. rewrite (holds_insert _ _ _ _ _ _ Hi), <-Hb. unfold holds. split.
  - intros [[-> Hr]|[_ ?]]; [by exists h0|done].
  - intros (h1 & Hj & Hr). destruct (decide (j = i)) as [->|]; [left|right; eauto]. by simplify_eq.
Qed.

Lemma entry_insert c id r id' r' :
  entry (withRequests <[id := r]> c) id' r' ↔ (id' = id ∧ r' = r) ∨ (id' ≠ id ∧ entry c id' r').
Proof. unfold entry. simpl. rewrite lookup_insert_Some. naive_solver. Qed.

Lemma live_with f r c : live r (withRequests f c) = live r c.
Proof. done. Qed.

Lemma sameOffer_trans a b c : sameOffer a b → sameOffer b c → sameOffer a c.
Proof. intros (? & ? & ? & ?) (? & ? & ? & ?). repeat split; congruence. Qed.
Lemma sameOffer_live a b c : sameOffer a b → live a c = live b c.
Proof. intros (_ & _ & Hg & Hc). unfold live. by rewrite Hg, Hc. Qed.

Section responder.
Context (c : client) (issued : list string) (hs : list hold) (attempted : list string) (i : nat).
Hypothesis (Hinv : inv c issued hs attempted).

Lemma inv_admit token request :
  token ∉ issued → pr_claimed request = false →
  inv (admitPrompt token request c).2 (token :: issued) hs attempted.
Proof using Hinv.
  intros Ht Hc. destruct Hinv. unfold admitPrompt.
  assert (inv c (token :: issued) hs attempted) as Hmore by (split; eauto; intros; right; eauto).
  destruct (negb _) eqn:El; [done|]. match goal with |- inv (if ?b then _ else _).2 _ _ _ => destruct b; [done|] end.
  apply inv_bump. simpl.
  assert (∀ id r, entry c id r → pr_token r ≠ token) as Hfresh by (intros ? ? ? <-; eauto).
  assert (∀ j r, holds hs j r → pr_token r ≠ token) as Hfresh' by (intros ? ? ? <-; eauto).
  split; try (by apply Hmore).
  - intros id r [[-> ->]|[_ He]]%entry_insert; [|by apply inv_live0]. split; [done|]. by bools.
  - intros id r [[-> ->]|[_ He]]%entry_insert; [by left|right; eauto].
  - intros id id' r r' [[-> ->]|[_ He]]%entry_insert [[-> ->]|[_ He']]%entry_insert Heq; simpl in *; eauto.
    + by edestruct Hfresh.
    + by edestruct Hfresh.
  - intros j r id r' Hh [[-> ->]|[_ He]]%entry_insert Heq; [by edestruct Hfresh'|eauto].
  - intros id r [[-> ->]|[_ He]]%entry_insert; [by simpl; rewrite Hc|eauto].
  - intros id r [[-> ->]|[_ He]]%entry_insert Hd; [|eauto]. by apply inv_log0 in Hd.
Qed.

Lemma inv_claiming id r :
  entry c id r → pr_claimed r = false → hs !! i = Some Free →
  inv (withRequests <[id := setClaimed true r]> c) issued (<[i := Held (setClaimed true r)]> hs) attempted.
Proof using Hinv.
  intros He Hc Hi. destruct Hinv. destruct (inv_live0 _ _ He) as [Hid Hlive].
  assert (∀ j r', holds hs j r' → pr_token r' ≠ pr_token r) as Hnew.
  { intros j r' Hh Heq. destruct (inv_heldEntry0 _ _ _ _ Hh He (eq_sym Heq)) as [? _]. congruence. }
  assert (∀ id' r', entry (withRequests <[id := setClaimed true r]> c) id' r' →
            ∃ r0, entry c id' r0 ∧ pr_token r0 = pr_token r' ∧ (id' = id ∨ r0 = r')) as Hback.
  { intros id' r' [[-> ->]|[? ?]]%entry_insert; [exists r; auto|exists r'; auto]. }
  split; auto.
  - intros id' r' [[-> ->]|[_ He']]%entry_insert; [by split|by apply inv_live0].
  - intros id' r' (r0 & H1 & <- & _)%Hback. eauto.
  - intros id1 id2 r1 r2 (? & H1 & E1 & _)%Hback (? & H2 & E2 & _)%Hback Heq. eapply inv_unique0; eauto. congruence.
  - intros j r' [[-> [= <-]]|[_ Hh]]%(holds_insert _ _ _ _ _ _ Hi); simpl; eauto.
  - intros j r1 id' r2 [[-> [= <-]]|[Hj Hh]]%(holds_insert _ _ _ _ _ _ Hi) [[-> ->]|[Hne He']]%entry_insert Heq.
    + by split.
    + destruct Hne. by eapply inv_unique0.
    + simpl in Heq. by edestruct Hnew.
    + eauto.
  - intros j j' r1 r2 [[-> [= <-]]|[Hj Hh]]%(holds_insert _ _ _ _ _ _ Hi)
      [[-> [= <-]]|[Hj' Hh']]%(holds_insert _ _ _ _ _ _ Hi) Heq; simpl in *; eauto.
    + by edestruct Hnew.
    + by edestruct Hnew.
  - intros id' r' [[-> ->]|[Hne He']]%entry_insert Hcl.
    + exists i, (setClaimed true r). split; [|done]. apply (holds_insert _ _ _ _ _ _ Hi). by left.
    + destruct (inv_claimed0 _ _ He' Hcl) as (j & r1 & Hh & Heq). exists j, r1. split; [|done].
      apply (holds_insert _ _ _ _ _ _ Hi). right. split; [|done]. intros ->. destruct Hh as (h & Hh & Hb). by simplify_eq.
  - intros id' r' (r0 & H1 & <- & _)%Hback Hd. destruct (inv_attempted0 _ _ H1 Hd) as (j & r1 & Hf & Heq).
    exists j, r1. split; [|done]. rewrite list_lookup_insert_ne; [done|]. intros ->. by simplify_eq.
Qed.

(** The holder of a claim is the only one that may act on it. *)
Lemma held_not_attempted r r' :
  hs !! i = Some (Held r) → entry c (pr_ID r) r' → pr_token r' = pr_token r → pr_token r ∉ attempted.
Proof using Hinv.
  intros Hi He Ht Hd. rewrite <-Ht in Hd. destruct (inv_attempted _ _ _ _ Hinv _ _ He Hd) as (j & r1 & Hf & Heq).
  assert (j = i) as ->.
  { eapply (inv_heldUnique _ _ _ _ Hinv j i r1 r); [by eexists|by eexists|congruence]. }
  by simplify_eq.
Qed.

(** The holder lets go: the entry it held, if still there, is no longer claimed or gone. *)
Lemma inv_letting_go c' r :
  hs !! i = Some (Held r) →
  (∀ id r', entry c' id r' → ∃ r0, entry c id r0 ∧ pr_token r' = pr_token r0 ∧ sameOffer r' r0 ∧
     (pr_token r0 = pr_token r ∧ pr_claimed r' = false ∨ pr_token r0 ≠ pr_token r ∧ r' = r0)) →
  cl_connection c' = cl_connection c → cl_generation c' = cl_generation c →
  inv c' issued (<[i := Free]> hs) attempted.
Proof using Hinv.
  intros Hi Hback Hcon Hgen. destruct Hinv.
  assert (∀ j r', holds (<[i := Free]> hs) j r' → j ≠ i ∧ holds hs j r') as Hh.
  { intros j r' [[_ [=]]|?]%(holds_insert _ _ _ _ _ _ Hi). done. }
  assert (holds hs i r) as Hir by (by eexists).
  split; auto.
  - intros id r' (r0 & He & _ & Hs & _)%Hback. destruct (inv_live0 _ _ He) as [Hid Hl].
    split; [by destruct Hs as [-> _]|]. rewrite (sameOffer_live _ _ _ Hs). unfold live, current in *.
    by rewrite Hcon, Hgen.
  - intros id r' (r0 & He & -> & _)%Hback. eauto.
  - intros id id' r1 r2 (x & Hx & -> & _)%Hback (y & Hy & -> & _)%Hback. eauto.
  - intros j r1 [_ Hj]%Hh. eauto.
  - intros j r1 id r' [Hne Hj]%Hh (r0 & He & Ht & Hs & Hor)%Hback Heq. rewrite Ht in Heq.
    destruct (inv_heldEntry0 _ _ _ _ Hj He Heq) as [Hc Ho].
    destruct Hor as [[Htr _]|[_ ->]]; [|done]. destruct Hne. apply (inv_heldUnique0 j i r1 r); [done|done|congruence].
  - intros j j' r1 r2 [_ H1]%Hh [_ H2]%Hh. eauto.
  - intros id r' (r0 & He & Ht & Hs & [[_ Hc]|[Hne ->]])%Hback Hcl; [congruence|].
    destruct (inv_claimed0 _ _ He Hcl) as (j & r1 & Hj & Heq). exists j, r1. split; [|done].
    apply (holds_insert _ _ _ _ _ _ Hi). right. split; [|done]. intros ->.
    destruct Hj as (h & Hj & Hb). simplify_eq/=.
  - intros id r' (r0 & He & Ht & Hs & _)%Hback Hd. rewrite Ht in *.
    destruct (inv_attempted0 _ _ He Hd) as (j & r1 & Hf & Heq). exists j, r1. split; [|done].
    rewrite list_lookup_insert_ne; [done|]. intros ->. by simplify_eq.
Qed.

Lemma sameOffer_refl a : sameOffer a a.
Proof. by repeat split. Qed.

Lemma inv_release r : hs !! i = Some (Held r) → inv (releaseClaim r c) issued (<[i := Free]> hs) attempted.
Proof using Hinv.
  intros Hi. unfold releaseClaim. destruct Hinv.
  assert (∀ id r', entry c id r' → (id ≠ pr_ID r ∨ pr_token r' ≠ pr_token r) → pr_token r' ≠ pr_token r) as Hother.
  { intros id r' He [Hne|?]; [|done]. intros Heq. apply Hne.
    destruct (inv_heldEntry0 i r id r' ltac:(by eexists) He Heq) as [_ [Hid _]].
    destruct (inv_live0 _ _ He). congruence. }
  assert (∀ c', (∀ id r', entry c' id r' → entry c id r' ∧ pr_token r' ≠ pr_token r) →
    cl_connection c' = cl_connection c → cl_generation c' = cl_generation c →
    inv c' issued (<[i := Free]> hs) attempted) as Hgone.
  { intros c' Hc'. apply (inv_letting_go _ r Hi). intros id r' [He Hne]%Hc'.
    exists r'. split_and!; auto using sameOffer_refl. }
  destruct (cl_requests c !! pr_ID r) as [r0|] eqn:E0.
  - destruct (_ && _) eqn:Em.
    + bools. apply inv_bump. apply (inv_letting_go _ r Hi); [|done..].
      intros id r' [[-> ->]|[Hne He]]%entry_insert.
      * exists r0. split_and!; [done|done|by repeat split|]. left. by split.
      * exists r'. split_and!; auto using sameOffer_refl. right. split; [|done]. eauto.
    + apply Hgone; [|done..]. intros id r' He. split; [done|]. apply (Hother id); [done|].
      destruct (decide (id = pr_ID r)) as [->|]; [|by left]. right.
      assert (r' = r0) as -> by (unfold entry in He; congruence).
      intros Heq. destruct (inv_heldEntry0 i r (pr_ID r) r0 ltac:(by eexists) E0 Heq) as [_ (_ & _ & Hg & _)].
      rewrite Hg, Z.eqb_refl, Heq, str_eqb_refl in Em. done.
  - apply Hgone; [|done..]. intros id r' He. split; [done|]. apply (Hother id); [done|]. left. intros ->.
    unfold entry in He. congruence.
Qed.

Lemma inv_snoozing id r :
  entry c id r → pr_claimed r = false → inv (withRequests <[id := setSnoozed r]> c) issued hs attempted.
Proof using Hinv.
  intros He Hc. destruct Hinv.
  assert (∀ id' r', entry (withRequests <[id := setSnoozed r]> c) id' r' →
            ∃ r0, entry c id' r0 ∧ pr_token r' = pr_token r0 ∧ sameOffer r' r0 ∧ pr_claimed r' = pr_claimed r0) as Hback.
  { intros id' r' [[-> ->]|[? ?]]%entry_insert; [exists r; split_and!; auto using sameOffer_refl; by repeat split
      |exists r'; auto using sameOffer_refl]. }
  split; auto.
  - intros id' r' (r0 & H1 & _ & Hs & _)%Hback. destruct (inv_live0 _ _ H1) as [<- Hl].
    split; [by destruct Hs|]. rewrite live_with, (sameOffer_live _ _ _ Hs). done.
  - intros id' r' (r0 & H1 & -> & _)%Hback. eauto.
  - intros id1 id2 r1 r2 (x & Hx & -> & _)%Hback (y & Hy & -> & _)%Hback. eauto.
  - intros j r1 id' r' Hh (r0 & H1 & -> & Hs & ->)%Hback Heq. destruct (inv_heldEntry0 _ _ _ _ Hh H1 Heq) as [? Ho].
    split; [done|]. by eapply sameOffer_trans.
  - intros id' r' (r0 & H1 & -> & _ & ->)%Hback. eauto.
  - intros id' r' (r0 & H1 & -> & _)%Hback. eauto.
Qed.

Lemma inv_wrote r r' :
  hs !! i = Some (Held r) → entry c (pr_ID r) r' → pr_token r' = pr_token r →
  inv (withRequests (delete (pr_ID r)) c) issued (<[i := Free]> hs) (attempted ++ [pr_token r]).
Proof using Hinv.
  intros Hi He Ht. pose proof (held_not_attempted r r' Hi He Ht) as Hfresh.
  assert (inv (withRequests (delete (pr_ID r)) c) issued (<[i := Free]> hs) attempted) as Hgo.
  { apply (inv_letting_go _ r Hi); [|done..]. intros id x Hx. unfold entry in Hx. simpl in Hx.
    apply lookup_delete_Some in Hx as [Hne Hx]. exists x. split_and!; auto using sameOffer_refl. right. split; [|done].
    intros Heq. apply Hne. eapply (inv_unique _ _ _ _ Hinv); [exact He|exact Hx|congruence]. }
  destruct Hgo. split; auto.
  - intros τ [Hd|Hd]%elem_of_app; [eauto|]. apply list_elem_of_singleton in Hd as ->. rewrite <-Ht.
    by eapply (inv_issued _ _ _ _ Hinv).
  - intros id x Hx [Hd|Hd]%elem_of_app; [eauto|]. apply list_elem_of_singleton in Hd.
    unfold entry in Hx. simpl in Hx. apply lookup_delete_Some in Hx as [Hne Hx]. destruct Hne.
    eapply (inv_unique _ _ _ _ Hinv); [exact He|exact Hx|congruence].
  - apply NoDup_app. split_and!; [done| |apply NoDup_singleton]. by intros x Hx ->%list_elem_of_singleton.
Qed.

Lemma inv_write_failed r r' :
  hs !! i = Some (Held r) → entry c (pr_ID r) r' → pr_token r' = pr_token r →
  inv c issued (<[i := Failed r]> hs) (attempted ++ [pr_token r]).
Proof using Hinv.
  intros Hi He Ht. pose proof (held_not_attempted r r' Hi He Ht) as Hfresh. destruct Hinv.
  assert (∀ j x, holds (<[i := Failed r]> hs) j x ↔ holds hs j x) as Hh by (intros; by eapply holds_same).
  split; auto.
  - intros j x Hx%Hh. eauto.
  - intros j x id y Hx%Hh. eauto.
  - intros j j' x y Hx%Hh Hy%Hh. eauto.
  - intros id x Hx Hc. destruct (inv_claimed0 _ _ Hx Hc) as (j & y & Hj & ?). exists j, y. by rewrite Hh.
  - intros τ [Hd|Hd]%elem_of_app; [eauto|]. apply list_elem_of_singleton in Hd as ->. rewrite <-Ht. eauto.
  - assert (i < Datatypes.length hs)%nat by (by eapply lookup_lt_Some).
    intros id x Hx [Hd|Hd]%elem_of_app.
    + destruct (inv_attempted0 _ _ Hx Hd) as (j & y & Hf & Heq). exists j, y. split; [|done].
      rewrite list_lookup_insert_ne; [done|]. intros ->. by simplify_eq.
    + apply list_elem_of_singleton in Hd. exists i, r. rewrite list_lookup_insert_eq by done. by split.
  - apply NoDup_app. split_and!; [done| |apply NoDup_singleton]. by intros x Hx ->%list_elem_of_singleton.
Qed.

Lemma inv_disconnecting h r :
  hs !! i = Some h → heldBy h = Some r →
  inv (markDisconnected (pr_connection r) (pr_generation r) c) issued (<[i := Held r]> hs) attempted.
Proof using Hinv.
  intros Hi Hb. pose proof (inv_disconnect (pr_connection r) (pr_generation r) _ _ _ _ Hinv) as Hd.
  assert (∀ id x, entry (markDisconnected (pr_connection r) (pr_generation r) c) id x → pr_token x ≠ pr_token r) as Hgone.
  { intros id x Hx Heq. unfold markDisconnected in Hx. destruct (negb _) eqn:Ec.
    - destruct (inv_heldEntry _ _ _ _ Hinv i r id x ltac:(by eexists) Hx Heq) as [_ Hs].
      apply (inv_live _ _ _ _ Hinv) in Hx as [_ Hl]. rewrite (sameOffer_live _ _ _ Hs) in Hl.
      apply negb_true_iff in Ec. unfold live in Hl. congruence.
    - apply negb_false_iff in Ec. unfold current in Ec. apply andb_true_iff in Ec as [_ Eg].
      apply Z.eqb_eq in Eg. rewrite <-Eg in Hx. by apply (detach_empty _ _ _ _ Hinv) in Hx. }
  assert (∀ j x, holds (<[i := Held r]> hs) j x ↔ holds hs j x) as Hh by (intros; by eapply holds_same).
  destruct Hd. split; auto.
  - intros j x Hx%Hh. eauto.
  - intros j x id y Hx%Hh. eauto.
  - intros j j' x y Hx%Hh Hy%Hh. eauto.
  - intros id x Hx Hc. destruct (inv_claimed0 _ _ Hx Hc) as (j & y & Hj & ?). exists j, y. by rewrite Hh.
  - intros id x Hx Ha. destruct (inv_attempted0 _ _ Hx Ha) as (j & y & Hf & Heq). exists j, y. split; [|done].
    rewrite list_lookup_insert_ne; [done|]. intros ->. simplify_eq. simpl in Hb. simplify_eq. by edestruct Hgone.
Qed.
End responder.

Lemma inv_spawn c issued hs done : inv c issued hs done → inv c issued (hs ++ [Free]) done.
Proof.
  intros [].
  assert (∀ j h, h ≠ Free → ((hs ++ [Free]) !! j = Some h ↔ hs !! j = Some h)) as Hl.
  { intros j h Hne. split; [|apply lookup_app_l_Some].
    intros [?|[_ Hj]]%lookup_app_Some; [done|]. by apply list_lookup_singleton_Some in Hj as [_ <-]. }
  assert (∀ j x, holds (hs ++ [Free]) j x ↔ holds hs j x) as Hh.
  { intros j x. unfold holds. split; intros (h & Hj & Hb); exists h; (split; [|done]);
      (apply Hl; [by intros ->|done]). }
  split; auto.
  - intros j x Hx%Hh. eauto.
  - intros j x id y Hx%Hh. eauto.
  - intros j j' x y Hx%Hh Hy%Hh. eauto.
  - intros id x Hx Hc. destruct (inv_claimed0 _ _ Hx Hc) as (j & y & Hj & ?). exists j, y. by rewrite Hh.
  - intros id x Hx Ha. destruct (inv_attempted0 _ _ Hx Ha) as (j & y & Hf & Heq). exists j, y. by rewrite Hl.
Qed.

Definition pinv (p : pool) : Prop :=
  ∃ hs, Forall2 obeys hs (po_procs p) ∧ inv (po_client p) (po_issued p) hs (tokens (po_log p)).

(** A responder that continues, with what it holds now. *)
Lemma pinv_continue hs procs i m h c issued log :
  Forall2 obeys hs procs → obeys h m → inv c issued (<[i := h]> hs) (tokens log) →
  pinv (mkPool c (<[i := m]> procs) issued log).
Proof. intros Hf Ho Hi. exists (<[i := h]> hs). split; [by apply Forall2_insert|done]. Qed.

Lemma inv_keep_hold c issued hs done i h : hs !! i = Some h → inv c issued hs done → inv c issued (<[i := h]> hs) done.
Proof. intros Hi. by rewrite list_insert_id. Qed.

Lemma claim_inv id t token c r c' issued hs done i :
  claim policy id t token c = (r, c') → hs !! i = Some Free → inv c issued hs done →
  inv c' issued (<[i := match r with Ok (x, _) => Held x | Err _ => Free end]> hs) done.
Proof.
  intros Hc Hi Hinv. pose proof (inv_keep_hold _ _ _ _ _ _ Hi Hinv) as Hsame. unfold claim in Hc.
  destruct (cl_requests c !! id) as [x|] eqn:Ex; [|by simplify_eq].
  destruct (pr_claimed x) eqn:Ecl; [by simplify_eq|]. destruct (_ || _); [by simplify_eq|].
  destruct (normalizePrompt policy x); [|by simplify_eq]. destruct (negb _); simplify_eq; [done|].
  apply inv_bump. by apply inv_claiming.
Qed.

Lemma auto_inv id t token c r c' issued hs done i :
  claimAutoResolvableUserInput policy id t token c = (r, c') → hs !! i = Some Free → inv c issued hs done →
  inv c' issued (<[i := match r with Some x => Held x | None => Free end]> hs) done.
Proof.
  intros Hc Hi Hinv. pose proof (inv_keep_hold _ _ _ _ _ _ Hi Hinv) as Hsame.
  unfold claimAutoResolvableUserInput in Hc. destruct (cl_requests c !! id) as [x|] eqn:Ex; [|by simplify_eq].
  destruct (pr_claimed x) eqn:Ecl; simpl in Hc; [by simplify_eq|]. destruct (_ || _); [by simplify_eq|].
  destruct (normalizePrompt policy x); [|by simplify_eq]. destruct (_ || _); simplify_eq; [done|].
  apply inv_bump. by apply inv_claiming.
Qed.

Lemma snooze_inv id t token c issued hs done :
  inv c issued hs done → inv (snoozeUserInput policy id t token c).2 issued hs done.
Proof.
  intros Hinv. unfold snoozeUserInput. destruct (cl_requests c !! id) as [x|] eqn:Ex; [|done].
  destruct (pr_claimed x) eqn:Ecl; [done|]. destruct (_ || _); [done|].
  destruct (normalizePrompt policy x); [|done]. destruct (_ || _); [done|].
  destruct (pr_snoozed x); [done|]. apply inv_bump. by apply inv_snoozing.
Qed.

(** What the writer section did. *)
Lemma writeSection_spec env r c o c' :
  writeSection env r c = (o, c') →
  match o with
  | Withheld _ | Unacquired _ _ => c' = c
  | WriteFailed _ => c' = c ∧ ∃ r', entry c (pr_ID r) r' ∧ pr_token r' = pr_token r
  | Written => c' = bumpPending (requestThreadID r) (withRequests (delete (pr_ID r)) c) ∧
               ∃ r', entry c (pr_ID r) r' ∧ pr_token r' = pr_token r
  end.
Proof.
  unfold writeSection. intros Hw. destruct (we_lock env); [by simplify_eq|].
  destruct (negb (live r c)); [by simplify_eq|]. destruct (negb _) eqn:Eo; [by simplify_eq|].
  apply negb_false_iff in Eo. destruct (cl_requests c !! pr_ID r) as [r'|] eqn:Er; [|done].
  bools. assert (∃ r', entry c (pr_ID r) r' ∧ pr_token r' = pr_token r) by eauto.
  destruct (we_before env); [by simplify_eq|]. destruct (we_after env); [by simplify_eq|].
  destruct (we_acquire env) as [[e alive]|]; [by simplify_eq|]. destruct (we_write env); by simplify_eq.
Qed.

Lemma section_pinv i p p' : section i p p' → pinv p → pinv p'.
Proof.
  intros Hs (hs & Hf & Hi).
  assert (∀ m, po_procs p !! i = Some m → ∃ h, hs !! i = Some h ∧ obeys h m) as Hlook.
  { intros m Hm. by apply (Forall2_lookup_r _ _ _ _ _ Hf). }
  destruct Hs as [i id t token k p Hm|i id t token k p Hm|i id t token k p Hm|i r k p Hm|i t ids k x p Hm
    |i id v k x p Hm|i r v k env o c p Hm Hw|i conn gen k p Hm|i t k p Hm];
    destruct (Hlook _ Hm) as (h & Hh & Ho); simpl in Ho.
  - destruct Ho as (-> & He & Hk). destruct (claim _ _ _ _ _) as [r c] eqn:Ec.
    eapply (claim_inv _ _ _ _ _ _ _ _ _ _ Ec Hh) in Hi.
    eapply (pinv_continue _ _ _ _ _ _ _ _ Hf); [|exact Hi]. destruct r as [[x pr]|e]; auto.
  - destruct Ho as (-> & He & Hk). destruct (claimAutoResolvableUserInput _ _ _ _ _) as [r c] eqn:Ec.
    eapply (auto_inv _ _ _ _ _ _ _ _ _ _ Ec Hh) in Hi.
    eapply (pinv_continue _ _ _ _ _ _ _ _ Hf); [|exact Hi]. destruct r; auto.
  - destruct Ho as (-> & Hk). pose proof (snooze_inv id t token _ _ _ _ Hi) as Hi'.
    destruct (snoozeUserInput _ _ _ _ _) as [r c] eqn:Ec.
    eapply (pinv_continue _ _ _ _ _ _ _ _ Hf); [apply Hk|]. by apply inv_keep_hold.
  - destruct Ho as (-> & Hk). eapply (pinv_continue _ _ _ _ _ _ _ _ Hf); [apply Hk|]. by apply inv_release.
  - destruct Ho as (_ & Hk). eapply (pinv_continue _ _ _ _ _ _ _ _ Hf); [apply Hk|]. by apply inv_keep_hold.
  - destruct Ho as (_ & Hk). eapply (pinv_continue _ _ _ _ _ _ _ _ Hf); [apply Hk|]. by apply inv_keep_hold.
  - destruct Ho as (-> & H1 & H2 & H3 & H4). apply writeSection_spec in Hw.
    destruct o as [e|e alive|e|].
    + subst c. eapply (pinv_continue _ _ _ _ _ _ _ _ Hf); [apply H1|]. rewrite app_nil_r. by apply inv_keep_hold.
    + subst c. eapply (pinv_continue _ _ _ _ _ _ _ _ Hf); [apply H2|]. rewrite app_nil_r. by apply inv_keep_hold.
    + destruct Hw as (-> & r' & He & Ht). eapply (pinv_continue _ _ _ _ _ _ _ _ Hf); [apply H3|].
      unfold tokens. rewrite fmap_app. by eapply inv_write_failed.
    + destruct Hw as (-> & r' & He & Ht). eapply (pinv_continue _ _ _ _ _ _ _ _ Hf); [apply H4|].
      unfold tokens. rewrite fmap_app. by eapply inv_bump, inv_wrote.
  - destruct Ho as (r & Hb & -> & -> & Hk). eapply (pinv_continue _ _ _ _ _ _ _ _ Hf); [apply Hk|].
    by eapply inv_disconnecting.
  - destruct Ho as (-> & Hk). eapply (pinv_continue _ _ _ _ _ _ _ _ Hf); [apply Hk|].
    by apply inv_keep_hold, inv_prune.
Qed.

Lemma pstep_pinv p p' : pstep p p' → pinv p → pinv p'.
Proof.
  intros [c p0 Hr|token request p0 Ht Hc|m p0 Hm|i p0 p1 Hs] Hp; [..|by eapply section_pinv];
    destruct Hp as (hs & Hf & Hi).
  - exists hs. split; [done|]. by eapply reader_inv.
  - exists hs. split; [done|]. by apply inv_admit.
  - exists (hs ++ [Free]). split; [|by apply inv_spawn]. apply Forall2_app; [done|].
    repeat constructor. by apply call_obeys.
Qed.

Lemma reachable_pinv p : reachable p → pinv p.
Proof.
  induction 1; [|by eapply pstep_pinv]. exists []. split; [done|].
  assert (∀ id r, ¬ entry newClient id r) by (intros; by apply entry_none).
  assert (∀ i r, ¬ holds [] i r) by (intros i r (h & Hh & _); by rewrite lookup_nil in Hh).
  split; try (intros; exfalso; naive_solver); [|constructor]. by intros τ ?%elem_of_nil.
Qed.

(** ** Responses are the ones the prompt allows *)

(** A note carries text that is not only white space after its prefix. *)
Definition note (value : string) : Prop :=
  ∃ text, value = (userNotePrefix ++ text)%string ∧ trimSpace text ≠ "".

(** The values a question can be answered with: none (it is skipped), one note
    where it offers no options or allows another answer, or the label of one
    of its options with at most one note beside it. *)
Inductive fits (q : Question) : list string → Prop :=
| fits_skipped : fits q []
| fits_free v : qu_Options q = [] → note v → fits q [v]
| fits_other v : qu_IsOther q = true → note v → fits q [v]
| fits_option o : o ∈ qu_Options q → trimSpace (op_Label o) ≠ "" → fits q [op_Label o]
| fits_noted o v : o ∈ qu_Options q → trimSpace (op_Label o) ≠ "" → note v → fits q [op_Label o; v].

(** The object sent for a question: its values under [answers]; or one other
    member, which the code takes for a skipped question and sends as it is
    (see [unnamed_member_sent]). *)
Inductive entryFits (q : Question) : gmap string (list string) → Prop :=
| entry_values values : fits q values → entryFits q {["answers" := values]}
| entry_other key values : key ≠ "answers" → entryFits q {[key := values]}.

(** Exactly the offered questions are answered, each once and with an answer
    that fits it. *)
Record answered (questions : list Question) (answers : gmap string (gmap string (list string))) : Prop := {
  an_distinct : NoDup (qu_ID <$> questions);
  an_offered : dom answers = list_to_set (qu_ID <$> questions);
  an_fits q : q ∈ questions → ∃ entry, answers !! qu_ID q = Some entry ∧ entryFits q entry }.

(** What may be handed to the connection for an offer. *)
Inductive allowed (offer : PendingRequest) : any → Prop :=
| al_decision prompt d :
    normalizePrompt policy offer = Ok prompt → pm_Kind prompt = "command" ∨ pm_Kind prompt = "fileChange" →
    d ∈ pm_AvailableDecisions prompt → d ∈ ["accept"; "acceptForSession"; "decline"; "cancel"] →
    allowed offer (AObj [("decision", AStr d)])
| al_answers prompt answers :
    normalizePrompt policy offer = Ok prompt → pm_Kind prompt = "userInput" →
    answered (pm_Questions prompt) answers → allowed offer (AObj [("answers", answersValue answers)])
| al_auto prompt :
    normalizePrompt policy offer = Ok prompt → pm_Kind prompt = "userInput" → pm_IsBlocking prompt = false →
    allowed offer (AObj [("answers", AObj [])]).

Lemma size_one (entry : gmap string (list string)) : size entry = 1%nat → ∃ key values, entry = {[key := values]}.
Proof.
  intros Hs. rewrite <- size_dom in Hs. apply size_1_elem_of in Hs as [key Hk].
  apply leibniz_equiv, dom_singleton_inv_L in Hk as [values ->]. eauto.
Qed.

Lemma note_valid v : validUserNote v = true → note v.
Proof.
  unfold validUserNote. intros [Hp Hb]%andb_true_iff. apply negb_true_iff in Hb.
  apply hasPrefix_app in Hp as (text & ->). exists text. split; [done|].
  rewrite trimPrefix_app in Hb. intros He. by rewrite He in Hb.
Qed.

(** The code's check of one answer against the specification. *)
Lemma validateAnswer_fits q answer :
  validateAnswer q answer = Ok tt → ∃ entry, answer = Some entry ∧ entryFits q entry.
Proof.
  unfold validateAnswer. destruct answer as [entry|]; [|done]. intros Hv. exists entry. split; [done|].
  destruct (negb (Nat.eqb (size entry) 1)) eqn:Es; [done|]. apply negb_false_iff, Nat.eqb_eq in Es.
  apply size_one in Es as (key & values & ->).
  destruct (decide (key = "answers")) as [->|Hk]; [|by constructor]. constructor.
  rewrite lookup_singleton_eq in Hv. simpl in Hv.
  destruct values as [|v rest]; [constructor|]. destruct (Nat.ltb _ _) eqn:El in Hv; [done|].
  simpl in Hv. destruct (is_empty (trimSpace v)) eqn:Ev; [done|]. simpl in Hv.
  assert (trimSpace v ≠ "") by (by intros He; rewrite He in Ev).
  destruct (qu_Options q) as [|o0 os] eqn:Eo.
  { destruct rest; [|by destruct (existsb _ _)]. simpl in Hv.
    destruct (validUserNote v) eqn:En; [|done]. apply fits_free; [done|by apply note_valid]. }
  rewrite <- Eo in Hv. assert (Nat.eqb (Datatypes.length (qu_Options q)) 0 = false) as El0 by (by rewrite Eo).
  rewrite El0 in Hv. destruct (existsb (fun v0 => is_empty (trimSpace v0)) rest); [done|]. simpl in Hv.
  destruct (existsb _ (qu_Options q)) eqn:Ef; simpl in Hv.
  - apply existsb_exists in Ef as (o & Ho & Hl). apply list_elem_of_In in Ho. apply str_eqb_eq in Hl as <-.
    destruct rest as [|w [|]]; [by constructor| |done].
    destruct (validUserNote w) eqn:Ew; [|done]. constructor; [done..|by apply note_valid].
  - destruct (qu_IsOther q) eqn:Eq; [|done]. destruct rest; [|done]. simpl in Hv.
    destruct (validUserNote v) eqn:En; [|done]. apply fits_other; [done|by apply note_valid].
Qed.

Lemma validateEach_fits questions answers q :
  validateEach questions answers = Ok tt → q ∈ questions → validateAnswer q (answers !! qu_ID q) = Ok tt.
Proof.
  induction questions as [|q0 rest IH]; simpl; [by intros _ ?%elem_of_nil|].
  destruct (validateAnswer q0 _) as [[]|] eqn:E; [|done]. intros Hr [->|Hin]%elem_of_cons; auto.
Qed.

(** Normalised questions have distinct identities. *)
Lemma normalizeEach_distinct l seen questions :
  normalizeEach l seen = Ok questions →
  NoDup (qu_ID <$> questions) ∧ ∀ q, q ∈ questions → qu_ID q ∉ seen.
Proof.
  revert seen questions. induction l as [|x l IH]; intros seen questions Hn; simpl in Hn.
  { simplify_eq. split; [constructor|]. by intros q ?%elem_of_nil. }
  destruct x as [| | | | |item]; try done.
  destruct (_ || _) in Hn; [done|]. destruct (str_in _ _) eqn:Es in Hn; [done|]. simpl in Hn.
  destruct (normalizeOptions _ _) as [options|]; [|done]. simpl in Hn.
  destruct (normalizeEach l _) as [rest|] eqn:Er; [|done]. simpl in Hn. simplify_eq. simpl.
  destruct (IH _ _ Er) as [Hd Hs]. split.
  - constructor; [|done]. intros (q & Hq & Hin)%list_elem_of_fmap. apply (Hs q Hin). rewrite <- Hq. by left.
  - intros q [->|Hin]%elem_of_cons; simpl; [|by intros Hx; apply (Hs q Hin); right].
    intros Hx%str_in_true. congruence.
Qed.

Lemma offered_decision params d :
  d ∈ match asArray (field "availableDecisions" params) with
      | Some l => filter (fun d => str_in d offeredDecisions = true) (omap asString l)
      | None => offeredDecisions end → d ∈ offeredDecisions.
Proof. destruct (asArray _) as [l|]; [|done]. by intros [Hd%str_in_true _]%list_elem_of_filter. Qed.

Lemma normalized_request r q :
  normalizeRequest r = Ok q →
  NoDup (qu_ID <$> pm_Questions q) ∧ ∀ d, d ∈ pm_AvailableDecisions q → d ∈ offeredDecisions.
Proof.
  assert (NoDup (qu_ID <$> ([] : list Question))) as Hnil by constructor.
  unfold normalizeRequest. intros Hq. destruct (pr_Params r) as [[]|]; try done; simpl in Hq;
    repeat match type of Hq with
    | context [if str_eqb ?a ?b then _ else _] => destruct (str_eqb a b); simpl in Hq
    end; try done;
    try (destruct (is_empty _) in Hq; simpl in Hq; [done|]; simplify_eq; split; [exact Hnil|];
         intros d; simpl; try (by intros ?%elem_of_nil); try done; apply offered_decision).
  repeat match type of Hq with
  | (let? _ := ?x in _)%codex = _ => destruct x eqn:?; simpl in Hq; [|done]
  end.
  injection Hq as ->.
  repeat match goal with
  | H : (let? _ := ?x in _)%codex = Ok q |- _ => destruct x eqn:?; simpl in H; [|done]
  end.
  simplify_eq. simpl. split; [|by intros d ?%elem_of_nil]. simpl.
  unfold normalizeQuestions in *. destruct (asArray _) as [[|x l]|]; try done. by eapply normalizeEach_distinct.
Qed.

Lemma normalized_prompt r prompt :
  normalizePrompt policy r = Ok prompt →
  NoDup (qu_ID <$> pm_Questions prompt) ∧ ∀ d, d ∈ pm_AvailableDecisions prompt → d ∈ offeredDecisions.
Proof.
  unfold normalizePrompt. destruct (normalizeRequest r) as [q|] eqn:Eq; [|done].
  pose proof (normalized_request r q Eq) as Hq.
  destruct policy, (pr_receivedAt r); intros Hn; simplify_eq; try done. destruct (_ || _) in Hn; by simplify_eq.
Qed.

(** Accepted answers are one for each offered question and fit it: a map with
    as many entries as there are distinct questions, all of them present, has
    no other. *)
Lemma validateAnswers_answered r prompt answers :
  normalizePrompt policy r = Ok prompt → validateAnswers prompt answers = Ok tt →
  answered (pm_Questions prompt) answers.
Proof.
  intros [Hd _]%normalized_prompt. unfold validateAnswers.
  destruct (Nat.eqb _ _) eqn:Es; [|done]. apply Nat.eqb_eq in Es. simpl. intros Hv.
  assert (∀ q, q ∈ pm_Questions prompt → ∃ entry, answers !! qu_ID q = Some entry ∧ entryFits q entry) as Hf.
  { intros q Hq. by apply validateAnswer_fits, (validateEach_fits _ _ _ Hv). }
  split; [done| |done]. symmetry. apply leibniz_equiv, set_subseteq_size_equiv.
  - intros id (q & -> & Hq)%elem_of_list_to_set%list_elem_of_fmap. destruct (Hf q Hq) as (entry & He & _).
    by eapply elem_of_dom_2.
  - rewrite size_dom, Es, size_list_to_set, length_fmap; done.
Qed.

Lemma requires_kind kind : requiresThreadItem kind = true → kind = "command" ∨ kind = "fileChange".
Proof. unfold requiresThreadItem. intros [?|?]%orb_true_iff; bools; auto. Qed.

(** The program claims under the token [τ] (any, when empty) and writes only
    what the claimed prompt allows. *)
Fixpoint proper {A} (τ : string) (m : oprog A) : Prop :=
  match m with
  | ODone _ => True
  | OClaim _ t token k => token = τ ∧ (∀ e, proper τ (k (Err e))) ∧
      ∀ r p, (τ ≠ "" → pr_token r = τ) → normalizePrompt policy r = Ok p → proper τ (k (Ok (r, p)))
  | OAuto _ t token k => token = τ ∧ proper τ (k None) ∧
      ∀ r p, pr_token r = τ → normalizePrompt policy r = Ok p → pm_Kind p = "userInput" → pm_IsBlocking p = false →
        proper τ (k (Some r))
  | OSnooze _ _ _ k => ∀ r, proper τ (k r)
  | ORelease _ k | ODisconnect _ _ k | OPrune _ k => proper τ k
  | OItems _ _ k => ∀ x, proper τ (k x)
  | OEncode _ _ k => ∀ x, proper τ (k x)
  | OWrite r v k => (τ ≠ "" → pr_token r = τ) ∧ allowed r v ∧ ∀ o, proper τ (k o)
  end.

Lemma finish_proper τ r v :
  (τ ≠ "" → pr_token r = τ) → allowed r v → proper τ (finishResponse false r v).
Proof.
  intros Ht Ha. simpl. intros [e|]; [done|]. split_and!; [done|done|].
  intros [e|e [|]|e|]; simpl; by try destruct (asPrompt _).
Qed.

Lemma decision_proper id t token d : proper token (respondDecision false id t token d).
Proof.
  simpl. split_and!; [done|done|]. intros r p Ht Hp. destruct (negb _) eqn:Ed; [done|].
  destruct (requiresThreadItem (pm_Kind p)) eqn:Ek; [|done]. simpl. intros [items|e]; [|done].
  destruct (items !! _); [|done]. destruct (itemTypeMatches _ _); [|done]. apply finish_proper; [done|].
  bools. eapply al_decision; [done|by apply requires_kind|done|]. by eapply normalized_prompt.
Qed.
Lemma answers_proper id t token a : proper token (respondAnswers false id t token a).
Proof.
  simpl. split_and!; [done|done|]. intros r p Ht Hp. destruct (negb _) eqn:Ek; [done|]. bools.
  destruct (validateAnswers p a) as [[]|e] eqn:Ev; [|done]. apply finish_proper; [done|]. by eapply al_answers, validateAnswers_answered.
Qed.
Lemma auto_proper id t token : proper token (autoResolveUserInput false id t token).
Proof.
  simpl. split_and!; [done|done|]. intros r p Ht Hp Hk Hb. apply finish_proper; [done|]. by eapply al_auto.
Qed.
Lemma prompt_proper t r : proper (ps_Token r) (RespondPrompt false t r).
Proof.
  unfold RespondPrompt. destruct (_ || _); [done|]. destruct (negb (_ =? _)); [done|].
  destruct (ps_Snooze r); [done|]. destruct (negb _); [apply answers_proper|apply decision_proper].
Qed.
Lemma call_proper m : call m → ∃ τ, proper τ m.
Proof.
  intros []; eexists; [apply decision_proper|apply answers_proper|apply auto_proper|apply prompt_proper].
Qed.

Lemma normalize_claimed b r : normalizePrompt policy (setClaimed b r) = normalizePrompt policy r.
Proof. done. Qed.

(** A section of a proper responder leaves it proper and logs only its own writes. *)
Lemma section_proper i p p' τ m :
  section i p p' → po_procs p !! i = Some m → proper τ m →
  ∃ m' new, po_procs p' = <[i := m']> (po_procs p) ∧ proper τ m' ∧ po_log p' = po_log p ++ new ∧
    ∀ a, a ∈ new → at_proc a = i ∧ (τ ≠ "" → pr_token (at_offer a) = τ) ∧ allowed (at_offer a) (at_result a).
Proof.
  intros Hs Hm Hp.
  assert (∀ m' c, proper τ m' → ∃ m'' new, po_procs (withProc i m' c p) = <[i := m'']> (po_procs p) ∧ proper τ m'' ∧
    po_log (withProc i m' c p) = po_log p ++ new ∧ ∀ a, a ∈ new →
      at_proc a = i ∧ (τ ≠ "" → pr_token (at_offer a) = τ) ∧ allowed (at_offer a) (at_result a)) as Hq.
  { intros m' c Hm'. exists m', []. rewrite app_nil_r. split_and!; try done. by intros a ?%elem_of_nil. }
  destruct Hs as [i id t token k p Hk|i id t token k p Hk|i id t token k p Hk|i r k p Hk|i t ids k x p Hk
    |i id v k x p Hk|i r v k env o c p Hk Hw|i conn gen k p Hk|i t k p Hk]; simplify_eq/=.
  - destruct Hp as (<- & He & Ho). destruct (claim _ _ _ _ _) as [r c] eqn:Ec. apply (Hq _ (po_client p)).
    unfold claim in Ec. destruct (cl_requests (po_client p) !! id) as [x|] eqn:Ex; [|simplify_eq; auto].
    match type of Ec with (if ?b then _ else _) = _ => destruct b eqn:Ecl; [simplify_eq; auto|] end.
    match type of Ec with (if ?b then _ else _) = _ => destruct b eqn:El; [simplify_eq; auto|] end.
    destruct (normalizePrompt policy x) as [pr|] eqn:En; [|simplify_eq; auto].
    match type of Ec with (if ?b then _ else _) = _ => destruct b eqn:Et; [simplify_eq; auto|] end. simplify_eq. bools.
    apply Ho; [|by rewrite normalize_claimed]. intros Hne. simpl.
    apply andb_false_iff in H0 as [Hx|Hx]; bools; [done|done].
  - destruct Hp as (<- & He & Ho). destruct (claimAutoResolvableUserInput _ _ _ _ _) as [r c] eqn:Ec. apply (Hq _ (po_client p)).
    unfold claimAutoResolvableUserInput in Ec. destruct (cl_requests (po_client p) !! id) as [x|] eqn:Ex; [|simplify_eq; auto].
    match type of Ec with (if ?b then _ else _) = _ => destruct b eqn:El; [simplify_eq; auto|] end.
    destruct (normalizePrompt policy x) as [pr|] eqn:En; [|simplify_eq; auto].
    match type of Ec with (if ?b then _ else _) = _ => destruct b eqn:Ek; [simplify_eq; auto|] end. simplify_eq. bools. by eapply Ho; [..|by rewrite normalize_claimed| |].
  - destruct (snoozeUserInput _ _ _ _ _) as [r c]. by apply (Hq _ (po_client p)).
  - by apply (Hq _ (po_client p)).
  - by apply (Hq _ (po_client p)).
  - by apply (Hq _ (po_client p)).
  - destruct Hp as (Ht & Ha & Ho). eexists _, _. split_and!; [done|apply Ho|done|].
    intros a. destruct o; simpl; try (by intros ?%elem_of_nil); by intros ->%list_elem_of_singleton.
  - by apply (Hq _ (po_client p)).
  - by apply (Hq _ (po_client p)).
Qed.

(** ** Theorems *)

(** C11. A question is answered at most once: however responders, timers,
    reader events and connection changes interleave, at most one response is
    handed to the connection for each offer, even when that write fails. *)
Theorem prompt_answered_at_most_once p : reachable p → NoDup (tokens (po_log p)).
Proof. intros Hp. by destruct (reachable_pinv p Hp) as (hs & _ & []). Qed.

(** C12. No question is lost: once every responder has returned, each pending
    request is unclaimed, is shown to readers of its thread, and can be claimed
    under its token. *)
Theorem prompt_claim_not_lost p id r prompt :
  reachable p → Forall (fun m => ∃ a, m = ODone a) (po_procs p) →
  cl_requests (po_client p) !! id = Some r → normalizePrompt policy r = Ok prompt →
  pr_claimed r = false ∧ prompt ∈ Prompts policy (pm_ThreadID prompt) (po_client p) ∧
  is_ok (claim policy id (pm_ThreadID prompt) (pr_token r) (po_client p)).1 = true.
Proof.
  intros Hp Hdone He Hn. destruct (reachable_pinv p Hp) as (hs & Hf & Hi).
  assert (pr_claimed r = false) as Hc.
  { destruct (pr_claimed r) eqn:Ec; [|done]. exfalso.
    destruct (inv_claimed _ _ _ _ Hi _ _ He Ec) as (i & r' & (h & Hh & Hb) & _).
    destruct (Forall2_lookup_l _ _ _ _ _ Hf Hh) as (m & Hm & Ho).
    destruct (Forall_lookup_1 _ _ _ _ Hdone Hm) as [a ->]. simpl in Ho. by subst. }
  destruct (inv_live _ _ _ _ Hi _ _ He) as [_ Hl]. split_and!; [done| |].
  - unfold Prompts. rewrite merge_sort_Permutation. apply elem_of_app. right.
    apply list_elem_of_omap. exists (id, r). split; [by apply elem_of_map_to_list|]. unfold visiblePrompt. simpl.
    unfold live, current in Hl. apply andb_true_iff in Hl as [Hk Hg]. rewrite Hc, Hk, Hg, Hn. simpl.
    by rewrite str_eqb_refl.
  - unfold claim. rewrite He, Hc, Hl, Hn, !str_eqb_refl. simpl. by rewrite andb_false_r.
Qed.

Lemma reachable_proper p :
  reachable p → Forall (fun m => ∃ τ, proper τ m) (po_procs p) ∧
    ∀ a, a ∈ po_log p → allowed (at_offer a) (at_result a).
Proof.
  induction 1 as [|p p' _ [Hf Ha] Hs]; [by split; [|by intros a ?%elem_of_nil]|].
  destruct Hs as [c p Hr|token request p Ht Hc|m p Hm|i p p' Hs]; simpl; [by split..| |].
  - split; [|done]. apply Forall_app. split; [done|]. repeat constructor. by apply call_proper.
  - assert (∃ m, po_procs p !! i = Some m) as [m Hm] by (destruct Hs; eauto).
    destruct (Forall_lookup_1 _ _ _ _ Hf Hm) as [τ Hp].
    destruct (section_proper _ _ _ _ _ Hs Hm Hp) as (m' & new & -> & Hm' & -> & Hnew). split.
    + apply Forall_insert; eauto.
    + intros a [?|?]%elem_of_app; [auto|]. by apply Hnew.
Qed.

(** C13. Only what was offered is answered: every response handed to the
    connection is, for an approval, one of the decisions its prompt offers; for
    a question set, exactly one entry for each offered question, whose values
    are none (skipped), one note with text where the question has no options or
    allows another answer, or the label of one of its options with at most one
    note; or the empty automatic answer to a nonblocking question. One case the
    code means to refuse gets through and is part of the statement: an entry
    whose only member is not called [answers] ([entry_other]). *)
Theorem prompt_responses_valid p a :
  reachable p → a ∈ po_log p → allowed (at_offer a) (at_result a).
Proof. intros Hp. by apply reachable_proper. Qed.

Inductive psteps : pool → pool → Prop :=
| psteps_refl p : psteps p p
| psteps_step p p' p'' : psteps p p' → pstep p' p'' → psteps p p''.

(** A response is bound to its token: whatever else happens, a call of
    [RespondPrompt] answers no offer but the one whose token it carries, also
    when the same request id was offered again meanwhile. *)
Theorem prompt_response_token_bound p p' i t response a :
  psteps p p' → po_procs p !! i = Some (RespondPrompt false t response) → ps_Token response ≠ "" →
  a ∈ po_log p' → at_proc a = i → a ∈ po_log p ∨ pr_token (at_offer a) = ps_Token response.
Proof.
  intros Hs Hi Hne Ha Hproc.
  cut ((∃ m, po_procs p' !! i = Some m ∧ proper (ps_Token response) m) ∧
       ∀ a, a ∈ po_log p' → at_proc a = i → a ∈ po_log p ∨ pr_token (at_offer a) = ps_Token response).
  { intros [_ H]. by apply H. }
  clear a Ha Hproc. induction Hs as [p|p p' p'' _ IH Hs].
  { split; [|by left]. eexists. split; [done|]. apply prompt_proper. }
  destruct (IH Hi) as [(m & Hm & Hp) Hlog]. clear IH.
  destruct Hs as [c p0 Hr|token request p0 Ht Hc|m0 p0 Hm0|j p0 p1 Hs]; simpl; [by split; [eauto|]..| |].
  - split; [|done]. exists m. split; [by apply lookup_app_l_Some|done].
  - assert (∃ mj, po_procs p0 !! j = Some mj) as [mj Hj] by (destruct Hs; eauto).
    destruct (decide (j = i)) as [->|Hji].
    + destruct (section_proper _ _ _ _ _ Hs Hm Hp) as (m' & new & -> & Hm' & -> & Hnew).
      split; [exists m'; split; [|done]; apply list_lookup_insert_eq; by eapply lookup_lt_Some|].
      intros a [?|Ha]%elem_of_app Hai; [auto|]. destruct (Hnew a Ha) as (_ & Htok & _). auto.
    + assert (po_procs p1 !! i = po_procs p0 !! i ∧ ∀ a, a ∈ po_log p1 → at_proc a = i → a ∈ po_log p0) as [-> Hold].
      { destruct Hs; simpl; repeat cases; simpl; rewrite ?list_lookup_insert_ne by done; (split; [done|]);
          intros a; rewrite ?app_nil_r; try done; intros [?|Ha]%elem_of_app Hai; try done;
          apply list_elem_of_singleton in Ha; by subst a. }
      split; [eauto|]. eauto.
Qed.
End pool.

(** ** Concrete runs *)

(** What the environment answers to the next section of a responder. *)
Inductive nudge := NGo | NItems (x : res err (gmap string object)) | NEncode (x : option err) | NWrite (env : writeEnv).

Definition advance (policy : option NonBlockingUserInputPolicy) (i : nat) (n : nudge) (p : pool) : option pool :=
  match po_procs p !! i, n with
  | Some (OClaim id t token k), NGo =>
      Some (let '(r, c) := claim policy id t token (po_client p) in withProc i (k r) c p)
  | Some (OAuto id t token k), NGo =>
      Some (let '(r, c) := claimAutoResolvableUserInput policy id t token (po_client p) in withProc i (k r) c p)
  | Some (OSnooze id t token k), NGo =>
      Some (let '(r, c) := snoozeUserInput policy id t token (po_client p) in withProc i (k r) c p)
  | Some (ORelease r k), NGo => Some (withProc i k (releaseClaim r (po_client p)) p)
  | Some (OItems t ids k), NItems x => Some (withProc i (k x) (po_client p) p)
  | Some (OEncode id v k), NEncode x => Some (withProc i (k x) (po_client p) p)
  | Some (OWrite r v k), NWrite env =>
      Some (let '(o, c) := writeSection env r (po_client p) in
            mkPool c (<[i := k o]> (po_procs p)) (po_issued p)
              (po_log p ++ match o with
                           | Written => [mkAttempt i r v true]
                           | WriteFailed _ => [mkAttempt i r v false]
                           | _ => [] end))
  | Some (ODisconnect conn gen k), NGo => Some (withProc i k (markDisconnected conn gen (po_client p)) p)
  | Some (OPrune t k), NGo => Some (withProc i k (prunePendingRevision t (po_client p)) p)
  | _, _ => None
  end.

Lemma advance_section policy i n p p' : advance policy i n p = Some p' → section policy i p p'.
Proof.
  unfold advance. destruct (po_procs p !! i) as [m|] eqn:Em; [|by destruct n].
  destruct m, n; intros Ha; try discriminate Ha; injection Ha as <-; try (by constructor).
  - by eapply se_items.
  - by eapply se_encode.
  - match goal with |- context [writeSection ?e ?r ?c] => destruct (writeSection e r c) as [o c'] eqn:Ew end.
    by eapply se_write.
Qed.

Fixpoint advanceAll (policy : option NonBlockingUserInputPolicy) (l : list (nat * nudge)) (p : pool) : option pool :=
  match l with
  | [] => Some p
  | (i, n) :: l => match advance policy i n p with Some p' => advanceAll policy l p' | None => None end
  end.

Lemma advanceAll_steps policy l p0 p p' :
  psteps policy p0 p → advanceAll policy l p = Some p' → psteps policy p0 p'.
Proof.
  revert p. induction l as [|[i n] l IH]; intros p Hs Ha; simpl in Ha; [by simplify_eq|].
  destruct (advance policy i n p) as [p1|] eqn:E; [|done]. eapply IH; [|exact Ha].
  eapply psteps_step; [exact Hs|]. eapply ps_section. by eapply advance_section.
Qed.

Lemma psteps_reachable policy p p' : psteps policy p p' → reachable policy p → reachable policy p'.
Proof. induction 1 as [|p p' p'' _ IH Hs]; [done|]. intros Hp. eapply reach_step; [by apply IH|exact Hs]. Qed.

(** A question arrives on a fresh connection, and two clients answer it. *)
Definition demoRequest : PendingRequest :=
  mkPending "7" "" "item/tool/requestUserInput"
    (Some (AObj [("threadId", AStr "thread");
                 ("questions", AArr [AObj [("id", AStr "q"); ("header", AStr "Name"); ("question", AStr "Which?");
                                           ("options", AArr [AObj [("label", AStr "a")]])]])]))
    1 100 false (Some 0) false.
Definition demoResponse : PromptResponse :=
  mkResponse "7" "token" "" {["q" := {["answers" := ["a"]]}]} false.

Definition demoAdmitted : pool :=
  mkPool (admitPrompt "token" demoRequest (dial 100 None newClient).2).2 [] ["token"] [].
Definition demoCalls : pool :=
  mkPool (po_client demoAdmitted) [RespondPrompt false "thread" demoResponse; RespondPrompt false "thread" demoResponse]
    ["token"] [].
Definition fine : writeEnv := mkWriteEnv None None None None None.
Definition demoSteps : list (nat * nudge) :=
  [(0%nat, NGo); (1%nat, NGo); (0%nat, NEncode None); (0%nat, NWrite fine); (0%nat, NGo)].
Definition demoAnswered : pool := default demoCalls (advanceAll None demoSteps demoCalls).

Lemma demoAdmitted_reachable : reachable None demoAdmitted.
Proof.
  eapply reach_step; [eapply reach_step; [apply reach_new|apply ps_reader, (rd_dial 100 None)]|].
  apply (ps_admit None "token" demoRequest); [|reflexivity]. apply not_elem_of_nil.
Qed.
Lemma demoCalls_reachable : reachable None demoCalls.
Proof.
  eapply reach_step; [eapply reach_step; [apply demoAdmitted_reachable|]|].
  - apply ps_call, (call_prompt "thread" demoResponse).
  - apply (ps_call None (RespondPrompt false "thread" demoResponse)), call_prompt.
Qed.
Lemma demo_run : advanceAll None demoSteps demoCalls = Some demoAnswered.
Proof.
  assert (is_Some (advanceAll None demoSteps demoCalls)) as [p Hp] by (vm_compute; eauto).
  unfold demoAnswered. by rewrite Hp.
Qed.
Lemma demoAnswered_reachable : reachable None demoAnswered.
Proof.
  eapply psteps_reachable; [|apply demoCalls_reachable]. eapply advanceAll_steps; [apply psteps_refl|apply demo_run].
Qed.

Lemma prompt_answered_at_most_once_witness :
  tokens (po_log demoAnswered) = ["token"] ∧ NoDup (tokens (po_log demoAnswered)).
Proof.
  split; [vm_compute; reflexivity|].
  apply (prompt_answered_at_most_once None demoAnswered). exact demoAnswered_reachable.
Defined.

Lemma prompt_responses_valid_witness :
  ∃ a, a ∈ po_log demoAnswered ∧ allowed None (at_offer a) (at_result a).
Proof.
  destruct (po_log demoAnswered) as [|a l] eqn:El; [vm_compute in El; discriminate El|].
  exists a. split; [by left|].
  apply (prompt_responses_valid None demoAnswered a demoAnswered_reachable). rewrite El. by left.
Defined.

Lemma prompt_response_token_bound_witness :
  ∃ a, a ∈ po_log demoAnswered ∧ pr_token (at_offer a) = ps_Token demoResponse.
Proof.
  destruct (po_log demoAnswered) as [|a l] eqn:El; [vm_compute in El; discriminate El|].
  exists a. split; [by left|].
  assert (at_proc a = 0%nat) as Hproc.
  { assert (at_proc <$> po_log demoAnswered = [0%nat]) as H by (vm_compute; reflexivity).
    rewrite El in H. by injection H. }
  destruct (prompt_response_token_bound None demoCalls demoAnswered 0 "thread" demoResponse a) as [H|H].
  - eapply advanceAll_steps; [apply psteps_refl|apply demo_run].
  - reflexivity.
  - discriminate.
  - rewrite El. by left.
  - exact Hproc.
  - exfalso. change (po_log demoCalls) with (@nil attempt) in H. exact (proj1 (elem_of_nil a) H).
  - exact H.
Defined.

(** The same question, claimed with an answer it does not accept, and released. *)
Definition demoBad : PromptResponse := mkResponse "7" "token" "" {["q" := {["answers" := ["b"]]}]} false.
Definition demoRefused : pool :=
  mkPool (po_client demoAdmitted) [RespondPrompt false "thread" demoBad] ["token"] [].
Definition demoReleased : pool := default demoRefused (advanceAll None [(0%nat, NGo); (0%nat, NGo)] demoRefused).
Definition demoTokened : PendingRequest := setToken "token" demoRequest.

Lemma demoReleased_reachable : reachable None demoReleased.
Proof.
  assert (advanceAll None [(0%nat, NGo); (0%nat, NGo)] demoRefused = Some demoReleased) as Hr.
  { assert (is_Some (advanceAll None [(0%nat, NGo); (0%nat, NGo)] demoRefused)) as [p Hp] by (vm_compute; eauto).
    unfold demoReleased. by rewrite Hp. }
  eapply psteps_reachable; [eapply advanceAll_steps; [apply psteps_refl|exact Hr]|].
  eapply reach_step; [apply demoAdmitted_reachable|].
  apply (ps_call None (RespondPrompt false "thread" demoBad)), call_prompt.
Qed.

Lemma prompt_claim_not_lost_witness :
  ∃ prompt, normalizePrompt None demoTokened = Ok prompt ∧
    prompt ∈ Prompts None (pm_ThreadID prompt) (po_client demoReleased).
Proof.
  destruct (normalizePrompt None demoTokened) as [prompt|e] eqn:En; [|vm_compute in En; discriminate En].
  exists prompt. split; [reflexivity|].
  apply (prompt_claim_not_lost None demoReleased "7" demoTokened prompt demoReleased_reachable).
  - vm_compute. repeat constructor. eexists. reflexivity.
  - vm_compute. reflexivity.
  - exact En.
Defined.

(** An entry whose only member is not called [answers] passes the check as a
    skipped question, and what it holds is sent to App Server. *)
Definition demoUnnamed : PromptResponse := mkResponse "7" "token" "" {["q" := {["other" := ["not offered"]]}]} false.
Definition demoSent : pool :=
  mkPool (po_client demoAdmitted) [RespondPrompt false "thread" demoUnnamed] ["token"] [].
Example unnamed_member_sent :
  (at_result <$>
     po_log (default demoSent (advanceAll None [(0%nat, NGo); (0%nat, NEncode None); (0%nat, NWrite fine)] demoSent)))
  = [AObj [("answers", AObj [("q", AObj [("other", AArr [AStr "not offered"])])])]].
Proof. vm_compute. reflexivity. Qed.
