(* ===== verification/PromptRevision.v ===== *)
(** * The revision of the pending projection

    [PendingRevision] is what readers compare to learn that [Prompts] changed:
    while a thread is watched, no step changes what its readers see without
    advancing the revision. *)
From S2P Require Import Prelude GoStd GoValue TurnOptions Ledger LedgerFacts Store Program Wire History Prompts PromptFacts.
From Stdlib Require Import String.
Open Scope Z_scope.

(** The counters are ordered; [newClient] has them so. *)
Record counters (c : client) : Prop := {
  cn_reset : 0 ≤ cl_pendingReset c ≤ cl_pendingSequence c;
  cn_revisions t n : cl_pendingRevisions c !! t = Some n → n ≤ cl_pendingSequence c }.

Lemma revision_bounded c t : counters c → PendingRevision t c ≤ cl_pendingSequence c.
Proof.
  intros [Hr Hv]. unfold PendingRevision. destruct (_ !! t) as [n|] eqn:E; simpl; [apply Hv in E|]; lia.
Qed.

Section revision.
Context (policy : option NonBlockingUserInputPolicy).

(** What readers of [t] see, up to the order of equal ids. *)
Definition visible (t : string) (c : client) : list Prompt :=
  omap (fun kv => visiblePrompt policy t c (snd kv)) (map_to_list (cl_requests c)).

Lemma Prompts_visible t c : Prompts policy t c ≡ₚ noticesOf t c ++ visible t c.
Proof. apply merge_sort_Permutation. Qed.

Lemma normalize_thread r prompt :
  normalizePrompt policy r = Ok prompt → pm_ThreadID prompt = requestThreadID r ∧ pm_ThreadID prompt ≠ "".
Proof.
  intros Hn. assert (∃ q, normalizeRequest r = Ok q ∧ pm_ThreadID q = pm_ThreadID prompt) as (q & Hq & <-).
  { unfold normalizePrompt in Hn. destruct (normalizeRequest r) as [q|]; [|done].
    exists q. split; [done|]. by repeat (cases_in Hn; try done); simplify_eq/=. }
  clear Hn. unfold normalizeRequest, res_bind, guard, requestThreadID, threadIDFromParams in *.
  destruct (pr_Params r) as [[| | | | |params]|]; try discriminate Hq.
  all: repeat (cases_in Hq; try discriminate Hq); simplify_eq/=; bools; try done.
Qed.

Lemma visible_thread t c r prompt : visiblePrompt policy t c r = Some prompt → requestThreadID r = t ∧ t ≠ "".
Proof.
  unfold visiblePrompt. destruct (_ || _); [done|]. destruct (normalizePrompt policy r) as [p|] eqn:En; [|done].
  destruct (str_eqb _ _) eqn:Et; [|done]. intros [= ->]. bools. destruct (normalize_thread _ _ En). by subst.
Qed.

(** The results of a partial function over the values of a map. *)
Definition shown (f : PendingRequest → option Prompt) (m : gmap string PendingRequest) : list Prompt :=
  omap (fun kv => f (snd kv)) (map_to_list m).

Lemma shown_ext f g m : (∀ x, f x = g x) → shown f m = shown g m.
Proof. intros Hfg. unfold shown. induction (map_to_list m) as [|kv l IH]; simpl; [done|].
  rewrite Hfg. destruct (g _); [f_equal|]; exact IH.
Qed.
Lemma shown_delete f m id :
  (∀ r, m !! id = Some r → f r = None) → shown f (delete id m) ≡ₚ shown f m.
Proof.
  intros Hn. destruct (m !! id) as [r|] eqn:Er; [|by rewrite delete_id].
  unfold shown. rewrite <-(map_to_list_delete m id r) by done. simpl. by rewrite (Hn r eq_refl).
Qed.
Lemma shown_insert f m id r :
  f r = None → (∀ r0, m !! id = Some r0 → f r0 = None) → shown f (<[id := r]> m) ≡ₚ shown f m.
Proof.
  intros Hr Hold. rewrite <-(shown_delete f (<[id := r]> m) id).
  - rewrite delete_insert_eq. by apply shown_delete.
  - intros r0. rewrite lookup_insert_eq. by intros [= <-].
Qed.

Lemma shown_other t c r : requestThreadID r ≠ t → visiblePrompt policy t c r = None.
Proof.
  intros Hr. destruct (visiblePrompt policy t c r) eqn:Ev; [|done]. by apply visible_thread in Ev as [? _].
Qed.

(** Nothing changes for readers of [t], or its revision advances. *)
Definition told (t : string) (c c' : client) : Prop :=
  Prompts policy t c' ≡ₚ Prompts policy t c ∨ PendingRevision t c < PendingRevision t c'.

Lemma told_same t c c' m :
  noticesOf t c' = noticesOf t c → cl_connection c' = cl_connection c → cl_generation c' = cl_generation c →
  cl_requests c' = m → shown (visiblePrompt policy t c) m ≡ₚ shown (visiblePrompt policy t c) (cl_requests c) →
  told t c c'.
Proof.
  intros Hn Hc Hg Hr Hs. left. rewrite !Prompts_visible, Hn. f_equiv. unfold visible. rewrite Hr.
  change (shown (visiblePrompt policy t c') m ≡ₚ shown (visiblePrompt policy t c) (cl_requests c)).
  rewrite (shown_ext _ (visiblePrompt policy t c)); [done|]. intros x. unfold visiblePrompt. by rewrite Hc, Hg.
Qed.

Lemma told_nothing t c c' :
  noticesOf t c' = noticesOf t c → cl_connection c' = cl_connection c → cl_generation c' = cl_generation c →
  cl_requests c' = cl_requests c → told t c c'.
Proof. intros. by eapply told_same. Qed.

(** A bump after a change that only concerns one thread. *)
Lemma bump_told t t' c c' :
  counters c → cl_pendingSequence c + 1 < 2 ^ 64 → t ≠ "" →
  cl_pendingSequence c' = cl_pendingSequence c → cl_pendingReset c' = cl_pendingReset c →
  cl_pendingRevisions c' = cl_pendingRevisions c →
  (t ≠ t' → told t c c') → told t c (bumpPending t' c').
Proof.
  intros Hc Hlt Hne Hs Hr Hv Ht. destruct (decide (t = t')) as [<-|Hneq].
  - right. unfold bumpPending. destruct (is_empty t) eqn:Ee; [by apply is_empty_true in Ee|].
    pose proof (revision_bounded c t Hc). pose proof (cn_reset c Hc). unfold PendingRevision. simpl. unfold u64.
    rewrite lookup_insert_eq, Hs, Z.mod_small by lia. simpl. unfold PendingRevision in *. lia.
  - destruct (Ht Hneq) as [Hp|Hp]; [left|right].
    + rewrite <-Hp. rewrite !Prompts_visible. unfold bumpPending. destruct (is_empty t'); done.
    + eapply Z.lt_le_trans; [exact Hp|]. unfold bumpPending. destruct (is_empty t'); [reflexivity|].
      unfold PendingRevision. simpl. by rewrite lookup_insert_ne.
Qed.

Lemma prune_told t t' c c' : watchedCount t c' ≠ 0 → told t c c' → told t c (prunePendingRevision t' c').
Proof.
  intros Hw Ht. unfold prunePendingRevision. destruct (negb (_ =? 0)) eqn:E1; [done|].
  destruct (negb (Nat.eqb _ _)); [done|]. destruct (existsb _ _); [done|]. apply negb_false_iff, Z.eqb_eq in E1.
  assert (t ≠ t') by congruence. destruct Ht as [Hp|Hp]; [left|right].
  - rewrite <-Hp. by rewrite !Prompts_visible.
  - eapply Z.lt_le_trans; [exact Hp|]. unfold PendingRevision. simpl. by rewrite lookup_delete_ne.
Qed.

Lemma prune_watched t t' c : watchedCount t (prunePendingRevision t' c) = watchedCount t c.
Proof. unfold prunePendingRevision. by repeat cases. Qed.

Lemma detach_told t c : counters c → cl_pendingSequence c + 1 < 2 ^ 64 → told t c (detachConnection (cl_generation c) c).
Proof.
  intros Hc Hlt. right. pose proof (revision_bounded c t Hc). pose proof (cn_reset c Hc).
  unfold PendingRevision at 2. simpl. rewrite lookup_empty. simpl. unfold u64. rewrite Z.mod_small by lia. lia.
Qed.

Lemma told_refl t c : told t c c.
Proof. by left. Qed.

Lemma disconnect_told t k g c :
  counters c → cl_pendingSequence c + 1 < 2 ^ 64 → told t c (markDisconnected k g c).
Proof.
  intros Hc Hlt. unfold markDisconnected. destruct (negb _) eqn:E; [apply told_refl|].
  apply negb_false_iff, andb_true_iff in E as [_ Eg]. apply Z.eqb_eq in Eg as <-. by apply detach_told.
Qed.

(** ** The counters stay ordered *)

Lemma counters_same c c' :
  cl_pendingSequence c' = cl_pendingSequence c → cl_pendingReset c' = cl_pendingReset c →
  cl_pendingRevisions c' = cl_pendingRevisions c → counters c → counters c'.
Proof. intros Hs Hr Hv []. split; rewrite ?Hs, ?Hr, ?Hv; auto. Qed.
Lemma counters_bump t c : cl_pendingSequence c + 1 < 2 ^ 64 → counters c → counters (bumpPending t c).
Proof.
  intros Hlt [Hr Hv]. unfold bumpPending. destruct (is_empty t); [done|]. split; simpl; unfold u64;
    rewrite Z.mod_small by lia; [lia|]. intros t' n [[<- <-]|[_ Hn]]%lookup_insert_Some; [lia|]. apply Hv in Hn. lia.
Qed.
Lemma counters_prune t c : counters c → counters (prunePendingRevision t c).
Proof.
  intros Hc. unfold prunePendingRevision. repeat (cases; [done|]). destruct Hc. split; simpl; [done|].
  intros t' n [_ Hn]%lookup_delete_Some. eauto.
Qed.
Lemma counters_disconnect k g c :
  cl_pendingSequence c + 1 < 2 ^ 64 → counters c → counters (markDisconnected k g c).
Proof.
  intros Hlt Hc. unfold markDisconnected. destruct (negb _); [done|]. destruct Hc.
  split; simpl; unfold u64; rewrite Z.mod_small by lia; [lia|]. intros t n Hn. by rewrite lookup_empty in Hn.
Qed.
#[local] Hint Resolve counters_bump counters_prune counters_disconnect : codex.

Lemma reader_counters c c' : reader c c' → cl_pendingSequence c + 1 < 2 ^ 64 → counters c → counters c'.
Proof.
  intros [] Hlt Hc.
  - unfold dial. by repeat cases; try (by eapply counters_same; [..|exact Hc]).
  - unfold markReady. by cases; try (by eapply counters_same; [..|exact Hc]).
  - auto with codex.
  - unfold Close. destruct (cl_connection c0); [apply counters_disconnect; [done|]|];
      by eapply counters_same; [..|exact Hc].
  - unfold handleResolved. destruct (_ !! id); (destruct (_ =? _); [|done]);
      apply counters_bump; (done || by eapply counters_same; [..|exact Hc]).
  - unfold rejectUnsupported. destruct (is_empty _); [done|].
    apply counters_bump; (done || by eapply counters_same; [..|exact Hc]).
  - apply counters_bump; (done || by eapply counters_same; [..|exact Hc]).
  - unfold clearWatchError. destruct (removeFirst _ _).
    + eapply (counters_same (bumpPending t c0)); [done..|]. auto with codex.
    + by eapply counters_same; [..|exact Hc].
  - by apply counters_prune.
  - by eapply counters_same; [..|exact Hc].
  - unfold removeWatch. destruct (_ <=? _); [apply counters_prune|]; by eapply counters_same; [..|exact Hc].
Qed.

(** ** Steps of the reader *)

Lemma notices_insert t t' l c : t ≠ t' → noticesOf t (withNotices <[t' := l]> c) = noticesOf t c.
Proof. intros Hne. unfold noticesOf. simpl. by rewrite lookup_insert_ne. Qed.

Lemma notices_told t t' l c : t ≠ t' → told t c (withNotices <[t' := l]> c).
Proof. intros Hne. apply told_nothing; [by apply notices_insert|done..]. Qed.

Lemma delete_told t c id :
  (∀ r, cl_requests c !! id = Some r → requestThreadID r ≠ t) → told t c (withRequests (delete id) c).
Proof.
  intros Hr. eapply told_same; [done..|]. apply shown_delete. intros r E. apply shown_other, Hr, E.
Qed.
Lemma insert_told t c id r :
  requestThreadID r ≠ t → (∀ r0, cl_requests c !! id = Some r0 → requestThreadID r0 ≠ t) →
  told t c (withRequests <[id := r]> c).
Proof.
  intros Hr H0. eapply told_same; [done..|]. apply shown_insert; [by apply shown_other|].
  intros r0 E. apply shown_other, H0, E.
Qed.

Lemma reader_told t c c' issued hs done :
  reader c c' → inv c issued hs done → counters c → cl_pendingSequence c + 1 < 2 ^ 64 → t ≠ "" →
  watchedCount t c' ≠ 0 → told t c c'.
Proof.
  intros [] Hi Hc Hlt Hne Hw.
  - unfold dial in *. destruct (cl_closed c0); [apply told_refl|]. destruct (cl_connection c0) as [k0|] eqn:Ek.
    + destruct (_ =? _); apply told_refl.
    + destruct e; [apply told_refl|].
      assert (cl_requests c0 = ∅) as He.
      { apply map_empty. intros id. destruct (cl_requests c0 !! id) as [r|] eqn:Er; [|done].
        apply (inv_live _ _ _ _ Hi) in Er as [_ Hl]. unfold live, current in Hl. by rewrite Ek in Hl. }
      left. cbn [snd]. rewrite !Prompts_visible. apply Permutation_app; [done|]. unfold visible, withConnection. cbn [cl_requests].
      by rewrite He.
  - unfold markReady. destruct (negb _); [apply told_refl|]. by apply told_nothing.
  - by apply disconnect_told.
  - unfold Close. destruct (cl_connection c0) as [k|] eqn:Ek; [|by apply told_nothing].
    unfold markDisconnected, current. simpl. rewrite Ek, bool_decide_true, Z.eqb_refl by done. simpl.
    destruct (detach_told t c0 Hc Hlt) as [Hp|Hp]; [left|right]; [|exact Hp].
    rewrite <-Hp, !Prompts_visible. done.
  - unfold handleResolved in *. destruct (cl_requests c0 !! id) as [r|] eqn:Er;
      (destruct (_ =? _); [|apply told_refl]); apply bump_told; auto; intros Hneq;
      apply delete_told; intros r0 E0; rewrite Er in E0; simplify_eq; congruence.
  - unfold rejectUnsupported in *. destruct (is_empty _); [apply told_refl|].
    apply bump_told; auto. intros. by apply notices_told.
  - apply bump_told; auto. intros. by apply notices_told.
  - unfold clearWatchError in *. destruct (removeFirst _ _) as [l|] eqn:El.
    + assert (withNotices <[t0 := l]> (bumpPending t0 c0) = bumpPending t0 (withNotices <[t0 := l]> c0)) as ->.
      { unfold bumpPending. by destruct (is_empty t0). }
      apply bump_told; auto. intros. by apply notices_told.
    + apply told_nothing; try done. unfold noticesOf. simpl. destruct (decide (t = t0)) as [->|].
      * by rewrite lookup_insert_eq.
      * by rewrite lookup_insert_ne.
  - rewrite prune_watched in Hw. apply prune_told; [done|apply told_refl].
  - by apply told_nothing.
  - unfold removeWatch in *. destruct (_ <=? _); [|by apply told_nothing]. rewrite prune_watched in Hw.
    apply prune_told; [done|]. by apply told_nothing.
Qed.

(** ** Steps of admissions and responders *)

Section steps.
Context (t : string) (c : client) (issued : list string) (hs : list hold) (attempted : list string).
Hypothesis (Hi : inv c issued hs attempted).
Hypothesis (Hc : counters c) (Hlt : cl_pendingSequence c + 1 < 2 ^ 64) (Hne : t ≠ "").

Lemma admit_told token request : told t c (admitPrompt token request c).2.
Proof using Hi Hc Hlt Hne.
  unfold admitPrompt. destruct (negb _) eqn:El; [apply told_refl|]. bools.
  destruct (cl_requests c !! pr_ID request) as [r0|] eqn:E0.
  - apply (inv_live _ _ _ _ Hi) in E0 as [_ Hl]. unfold live, current in *. bools.
    replace (pr_generation r0 =? pr_generation request) with true by (symmetry; apply Z.eqb_eq; congruence).
    apply told_refl.
  - apply bump_told; auto. intros Hneq. apply insert_told; [done|]. intros r E. simpl in E. congruence.
Qed.

Lemma putClaimed_told id threadID r prompt :
  cl_requests c !! id = Some r → normalizePrompt policy r = Ok prompt → pm_ThreadID prompt = threadID →
  told t c (putClaimed id threadID r c).
Proof using Hc Hlt Hne.
  intros Er En <-. destruct (normalize_thread _ _ En) as [Ht _]. unfold putClaimed.
  apply bump_told; auto. intros Hneq. apply insert_told; [|intros r0 E0]; simpl; unfold requestThreadID in *; simpl; congruence.
Qed.

Lemma claim_told id threadID token : told t c (claim policy id threadID token c).2.
Proof using Hc Hlt Hne.
  unfold claim. destruct (cl_requests c !! id) as [r|] eqn:Er; [|apply told_refl].
  destruct (pr_claimed r); [apply told_refl|]. destruct (_ || _); [apply told_refl|].
  destruct (normalizePrompt policy r) eqn:En; [|apply told_refl].
  destruct (negb _) eqn:Et; [apply told_refl|]. bools. by eapply putClaimed_told.
Qed.
Lemma auto_told id threadID token : told t c (claimAutoResolvableUserInput policy id threadID token c).2.
Proof using Hc Hlt Hne.
  unfold claimAutoResolvableUserInput. destruct (cl_requests c !! id) as [r|] eqn:Er; [|apply told_refl].
  destruct (_ || _); [apply told_refl|]. destruct (normalizePrompt policy r) eqn:En; [|apply told_refl].
  destruct (_ || _) eqn:Et; [apply told_refl|]. bools. by eapply putClaimed_told.
Qed.
Lemma snooze_told id threadID token : told t c (snoozeUserInput policy id threadID token c).2.
Proof using Hc Hlt Hne.
  unfold snoozeUserInput. destruct (cl_requests c !! id) as [r|] eqn:Er; [|apply told_refl].
  destruct (pr_claimed r); [apply told_refl|]. destruct (_ || _); [apply told_refl|].
  destruct (normalizePrompt policy r) eqn:En; [|apply told_refl].
  destruct (_ || _) eqn:Et; [apply told_refl|]. bools. subst threadID.
  destruct (pr_snoozed r); [apply told_refl|]. destruct (normalize_thread _ _ En) as [Ht _].
  apply bump_told; auto. intros Hneq.
  apply insert_told; [|intros r0 E0]; simpl; unfold requestThreadID in *; simpl; congruence.
Qed.

Lemma sameOffer_thread a b : sameOffer a b → requestThreadID a = requestThreadID b.
Proof. intros (_ & Hp & _). unfold requestThreadID. by rewrite Hp. Qed.

Lemma release_told i r : hs !! i = Some (Held r) → told t c (releaseClaim r c).
Proof using Hi Hc Hlt Hne.
  intros Hh. unfold releaseClaim. destruct (cl_requests c !! pr_ID r) as [r0|] eqn:E0; [|apply told_refl].
  destruct (_ && _) eqn:Em; [|apply told_refl]. bools.
  destruct (inv_heldEntry _ _ _ _ Hi i r _ r0 ltac:(by eexists) E0 H0) as [_ Hs].
  apply sameOffer_thread in Hs. apply bump_told; auto. intros Hneq.
  apply insert_told; [|intros r1 E1]; simpl; unfold requestThreadID in *; simpl; congruence.
Qed.

Lemma write_told env i r o c' : hs !! i = Some (Held r) → writeSection env r c = (o, c') → told t c c'.
Proof using Hi Hc Hlt Hne.
  intros Hh Hw. apply writeSection_spec in Hw. destruct o as [e|e a|e|].
  - subst. apply told_refl.
  - subst. apply told_refl.
  - destruct Hw as [-> _]. apply told_refl.
  - destruct Hw as (-> & r' & He & Ht).
    destruct (inv_heldEntry _ _ _ _ Hi i r _ r' ltac:(by eexists) He Ht) as [_ Hs]. apply sameOffer_thread in Hs.
    apply bump_told; auto. intros Hneq. apply delete_told. intros r0 E0. unfold entry in He. congruence.
Qed.
End steps.

Lemma section_counters i p p' :
  section policy i p p' → cl_pendingSequence (po_client p) + 1 < 2 ^ 64 → counters (po_client p) → counters (po_client p').
Proof.
  assert (∀ f c, cl_pendingSequence c + 1 < 2 ^ 64 → counters c → ∀ t, counters (bumpPending t (withRequests f c))) as Hb.
  { intros f c Hlt Hc t. apply counters_bump; [done|]. by eapply counters_same; [..|exact Hc]. }
  intros [i0 id t token k p0 Hm|i0 id t token k p0 Hm|i0 id t token k p0 Hm|i0 r k p0 Hm|
    |  |i0 r v k env o c p0 Hm Hw|i0 conn gen k p0 Hm|i0 t k p0 Hm] Hlt Hc; try done.
  - destruct (claim _ _ _ _ _) as [x c] eqn:E. simpl. unfold claim, putClaimed in E.
    repeat (cases_in E; try (by simplify_eq)); simplify_eq; by apply Hb.
  - destruct (claimAutoResolvableUserInput _ _ _ _ _) as [x c] eqn:E. simpl.
    unfold claimAutoResolvableUserInput, putClaimed in E.
    repeat (cases_in E; try (by simplify_eq)); simplify_eq; by apply Hb.
  - destruct (snoozeUserInput _ _ _ _ _) as [x c] eqn:E. simpl. unfold snoozeUserInput in E.
    repeat (cases_in E; try (by simplify_eq)); simplify_eq; by apply Hb.
  - simpl. unfold releaseClaim. repeat cases; try done; by apply Hb.
  - simpl. apply writeSection_spec in Hw. destruct o; [by subst..|by destruct Hw as [-> _]|].
    destruct Hw as [-> _]. by apply Hb.
  - by apply counters_disconnect.
  - by apply counters_prune.
Qed.

Lemma section_told i p p' t :
  section policy i p p' → pinv p → counters (po_client p) → cl_pendingSequence (po_client p) + 1 < 2 ^ 64 → t ≠ "" →
  watchedCount t (po_client p') ≠ 0 → told t (po_client p) (po_client p').
Proof.
  intros Hs (hs & Hf & Hi) Hc Hlt Hne Hw.
  assert (∀ m, po_procs p !! i = Some m → ∃ h, hs !! i = Some h ∧ obeys h m) as Hlook.
  { intros m Hm. by apply (Forall2_lookup_r _ _ _ _ _ Hf). }
  destruct Hs as [i id t0 token k p Hm|i id t0 token k p Hm|i id t0 token k p Hm|i r k p Hm|
    | |i r v k env o c p Hm Hw'|i conn gen k p Hm|i t0 k p Hm]; try apply told_refl.
  - pose proof (claim_told t _ Hc Hlt Hne id t0 token) as Ht. by destruct (claim _ _ _ _ _).
  - pose proof (auto_told t _ Hc Hlt Hne id t0 token) as Ht. by destruct (claimAutoResolvableUserInput _ _ _ _ _).
  - pose proof (snooze_told t _ Hc Hlt Hne id t0 token) as Ht. by destruct (snoozeUserInput _ _ _ _ _).
  - destruct (Hlook _ Hm) as (h & Hh & Ho). simpl in Ho. destruct Ho as [-> _]. by eapply release_told.
  - destruct (Hlook _ Hm) as (h & Hh & Ho). simpl in Ho. destruct Ho as [-> _]. by eapply write_told.
  - by apply disconnect_told.
  - simpl in *. rewrite prune_watched in Hw. apply prune_told; [done|apply told_refl].
Qed.

End revision.

(** ** A concrete step *)

Lemma newClient_counters : counters newClient.
Proof. split; simpl; [lia|]. intros t n Hn. by rewrite lookup_empty in Hn. Qed.

(** A watched thread, connected; then its question arrives. *)
Definition demoWatched : pool := mkPool (addWatch "thread" (dial 100 None newClient).2) [] [] [].
Definition demoAsked : pool := mkPool (admitPrompt "token" demoRequest (po_client demoWatched)).2 [] ["token"] [].

