(* ===== verification/Connecting.v ===== *)
(** * Connecting to App Server

    [Ensure] of [src/codex/client.go] (974-1046) as one call with the faults it
    may meet: dialling, the [initialize] request and the [initialized]
    notification; and whether a later call can still succeed. *)
From S2P Require Import Prelude GoStd GoValue TurnOptions Ledger LedgerFacts Store Program Wire History Prompts.
From Stdlib Require Import String.
Open Scope Z_scope.

(** How the write of the notification failed: [writeOn] gives the connection up
    after a failed write, and keeps it when the context ended before the write. *)
Inductive notifyFault := Given (e : err) | Kept (e : err).

Record ensureEnv := mkEnsureEnv {
  ee_connection : Z;
  ee_dial : option err;
  ee_initialize : option err;
  ee_initialized : option notifyFault }.

Definition Ensure (env : ensureEnv) (c : client) : res err unit * client :=
  match dial (ee_connection env) (ee_dial env) c with
  | (Err e, c) => (Err e, c)
  | (Ok None, c) => (Ok tt, c)
  | (Ok (Some generation), c) =>
    match ee_initialize env, ee_initialized env with
    | Some e, _ => (Err e, markDisconnected (ee_connection env) generation c)
    | None, Some (Given e) => (Err (EWrap "send initialized notification" e),
                               markDisconnected (ee_connection env) generation c)
    | None, Some (Kept e) => (Err (EWrap "send initialized notification" e), c)
    | None, None => markReady (ee_connection env) generation c
    end
  end.

Definition connected (c : client) : Prop :=
  is_Some (cl_connection c) ∧ cl_ready c = cl_generation c ∧ cl_closed c = false.

Lemma current_self k g r c : current k g (withConnection (Some k) g r c) = true.
Proof. unfold current. simpl. by rewrite bool_decide_true, Z.eqb_refl. Qed.

(** A call on a client that is not connected. *)
Lemma Ensure_fresh env c :
  cl_connection c = None → cl_closed c = false →
  Ensure env c =
  let g := u64 (cl_generation c + 1) in
  let c1 := withConnection (Some (ee_connection env)) g (cl_ready c) c in
  match ee_dial env, ee_initialize env, ee_initialized env with
  | Some e, _, _ => (Err (ETransport (EWrap "connect to Codex App Server" e)), c)
  | None, Some e, _ => (Err e, detachConnection g c1)
  | None, None, Some (Given e) => (Err (EWrap "send initialized notification" e), detachConnection g c1)
  | None, None, Some (Kept e) => (Err (EWrap "send initialized notification" e), c1)
  | None, None, None => (Ok tt, withConnection (Some (ee_connection env)) g g c)
  end.
Proof.
  intros Hn Hc. unfold Ensure, dial. rewrite Hc, Hn. destruct (ee_dial env); [done|].
  unfold markDisconnected, markReady. rewrite current_self. by repeat cases.
Qed.

(** A call while another one's connection is not ready. *)
Lemma Ensure_wedged env c :
  is_Some (cl_connection c) → cl_ready c ≠ cl_generation c → cl_closed c = false →
  Ensure env c = (Err (ETransport (EMsg "Codex App Server connection is still initializing")), c).
Proof.
  intros [k Hk] Hr Hc. unfold Ensure, dial. rewrite Hc, Hk. by rewrite (proj2 (Z.eqb_neq _ _) Hr).
Qed.

(** C19. When a retry can help: after a call that failed on a disconnected
    client, another call can connect unless the failure was a context that ended
    between the answer to [initialize] and the [initialized] notification; that
    connection is kept, never becomes ready, and every later call fails. *)
Theorem ensure_retry env c e c' :
  cl_connection c = None → cl_ready c = 0 → cl_closed c = false → 0 ≤ cl_generation c < 2 ^ 64 - 1 →
  Ensure env c = (Err e, c') →
  match ee_dial env, ee_initialize env, ee_initialized env with
  | None, None, Some (Kept _) => ∀ env', (Ensure env' c').1 =
      Err (ETransport (EMsg "Codex App Server connection is still initializing")) ∧ (Ensure env' c').2 = c'
  | _, _, _ => ∀ k, (Ensure (mkEnsureEnv k None None None) c').1 = Ok tt ∧
      connected (Ensure (mkEnsureEnv k None None None) c').2
  end.
Proof.
  intros Hn Hz Hc Hg HE. rewrite Ensure_fresh in HE by done. cbv zeta in HE.
  assert (∀ c' k, cl_connection c' = None → cl_closed c' = false →
    (Ensure (mkEnsureEnv k None None None) c').1 = Ok tt ∧ connected (Ensure (mkEnsureEnv k None None None) c').2) as Hok.
  { intros d k Hdn Hdc. rewrite Ensure_fresh by done. simpl. split; [done|]. split_and!; simpl; eauto. }
  destruct (ee_dial env); [simplify_eq; auto|]. destruct (ee_initialize env); [simplify_eq; auto|].
  destruct (ee_initialized env) as [[x|x]|]; [simplify_eq; auto| |discriminate HE]. simplify_eq.
  intros env'. assert (u64 (cl_generation c + 1) ≠ 0) by (unfold u64; rewrite Z.mod_small by lia; lia).
  rewrite Ensure_wedged; [done|by eexists| |done]. simpl. congruence.
Qed.

Lemma ensure_retry_witness :
  (Ensure (mkEnsureEnv 2 None None None)
     (Ensure (mkEnsureEnv 1 None None (Some (Kept ECanceled))) newClient).2).1 =
  Err (ETransport (EMsg "Codex App Server connection is still initializing")).
Proof.
  refine (proj1 (ensure_retry (mkEnsureEnv 1 None None (Some (Kept ECanceled))) newClient
    (EWrap "send initialized notification" ECanceled) _ _ _ _ _ _ (mkEnsureEnv 2 None None None))).
  - reflexivity.
  - reflexivity.
  - reflexivity.
  - simpl. lia.
  - reflexivity.
Defined.
