(* ===== verification/Activity.v ===== *)
(** * Recording activity

    [src/codex/activity.go], [src/codex/activity_recording.go] and
    [turnMetadata] of [src/codex/turn_history.go]: what the recorder of one
    thread learns from App Server's messages, and how it turns the clock into
    working and waiting time of turns.

    Each function is one section under the thread's mutex, from its [Lock] to
    its [Unlock], on the thread's state. Times are milliseconds since 1970; a
    message's parameters are the struct the decoder fills. *)
From S2P Require Import Prelude GoStd GoValue TurnOptions Ledger LedgerFacts Store Program Wire History Prompts.
From Stdlib Require Import String.
Open Scope Z_scope.

Definition activityPendingLimit : nat := 128.

(** ** Data *)

Record activityTurnRecord := mkRecord {
  ar_ID : string; ar_Sequence : Z; ar_StartedAtMS : Z; ar_CompletedAtMS : Z;
  ar_WorkingMS : Z; ar_WaitingMS : Z; ar_FirstMS : Z; ar_ThroughMS : Z;
  ar_TailSecondMS : Z; ar_TailWorkMS : Z; ar_TailWaitMS : Z;
  ar_Final : bool; ar_BoundsUnknown : bool }.
Definition zeroRecord : activityTurnRecord := mkRecord "" 0 0 0 0 0 0 0 0 0 0 false false.

Record activityRequest := mkRequest {
  aq_ItemID : string; aq_Method : string; aq_TurnID : string;
  aq_Blocking : bool; aq_Category : string; aq_OpenedAtMS : Z }.
Definition zeroRequest : activityRequest := mkRequest "" "" "" false "" 0.

Record activityToolWait := mkWait { aw_TurnID : string; aw_Reason : string; aw_UntilMS : Z }.

Record activityObservation := mkObserved {
  ao_Connection : string; ao_Connected : bool; ao_Ready : bool;
  ao_TurnStartObserved : bool; ao_WorkObserved : bool;
  ao_TurnID : string; ao_Active : bool; ao_Flags : list string;
  ao_Requests : gmap string activityRequest; ao_ToolWaits : gmap string activityToolWait;
  ao_State : string; ao_SinceMS : Z; ao_ThroughMS : Z; ao_OpenWaitingMS : Z;
  ao_Revision : Z; ao_Overflow : bool }.

Record TurnMetadata := mkTurn {
  tm_ID : string; tm_Status : string; tm_StartedAtMS : Z; tm_CompletedAtMS : Z; tm_DurationMS : Z;
  tm_Messages : Z; tm_ReceivedMessages : Z; tm_ToolCalls : Z; tm_CountsKnown : bool;
  tm_HasSleep : bool; tm_AutomaticWaits : gmap string activityToolWait }.

Record activityCheckpoint := mkCheckpoint {
  ac_Schema : Z; ac_ThreadID : string; ac_Current : option activityObservation;
  ac_Turns : gmap string activityTurnRecord }.

(** A thread's recorder; channels that are closed once are flags. *)
Record activityThread := mkThread {
  at_hot : activityCheckpoint;
  at_durable : activityCheckpoint;
  at_live : option activityObservation;
  at_revision : Z;
  at_saved : Z;
  at_lastError : option err;
  at_loadError : option err;
  at_closing : bool;
  at_readers : Z;
  at_watchers : Z;
  at_loaded : bool;
  at_wake : bool;
  at_history : gmap string activityTurnRecord }.

(** *** Assignments to single fields *)

Definition withTurns (f : gmap string activityTurnRecord → gmap string activityTurnRecord) (t : activityThread) : activityThread :=
  mkThread (mkCheckpoint (ac_Schema (at_hot t)) (ac_ThreadID (at_hot t)) (ac_Current (at_hot t)) (f (ac_Turns (at_hot t))))
    (at_durable t) (at_live t) (at_revision t) (at_saved t) (at_lastError t) (at_loadError t) (at_closing t)
    (at_readers t) (at_watchers t) (at_loaded t) (at_wake t) (at_history t).
Definition withCurrent (c : option activityObservation) (t : activityThread) : activityThread :=
  mkThread (mkCheckpoint (ac_Schema (at_hot t)) (ac_ThreadID (at_hot t)) c (ac_Turns (at_hot t)))
    (at_durable t) (at_live t) (at_revision t) (at_saved t) (at_lastError t) (at_loadError t) (at_closing t)
    (at_readers t) (at_watchers t) (at_loaded t) (at_wake t) (at_history t).
Definition withLive (live : option activityObservation) (t : activityThread) : activityThread :=
  mkThread (at_hot t) (at_durable t) live (at_revision t) (at_saved t) (at_lastError t) (at_loadError t) (at_closing t)
    (at_readers t) (at_watchers t) (at_loaded t) (at_wake t) (at_history t).
Definition withLastError (e : option err) (t : activityThread) : activityThread :=
  mkThread (at_hot t) (at_durable t) (at_live t) (at_revision t) (at_saved t) e (at_loadError t) (at_closing t)
    (at_readers t) (at_watchers t) (at_loaded t) (at_wake t) (at_history t).
Definition withClosing (t : activityThread) : activityThread :=
  mkThread (at_hot t) (at_durable t) (at_live t) (at_revision t) (at_saved t) (at_lastError t) (at_loadError t) true
    (at_readers t) (at_watchers t) (at_loaded t) (at_wake t) (at_history t).

(** The revision counts up and the writer is woken, once. *)
Definition signalLocked (t : activityThread) : activityThread :=
  mkThread (at_hot t) (at_durable t) (at_live t) (u64 (at_revision t + 1)) (at_saved t) (at_lastError t) (at_loadError t)
    (at_closing t) (at_readers t) (at_watchers t) (at_loaded t) true (at_history t).

Definition setReady (ready : bool) (o : activityObservation) : activityObservation :=
  mkObserved (ao_Connection o) (ao_Connected o) ready (ao_TurnStartObserved o) (ao_WorkObserved o) (ao_TurnID o)
    (ao_Active o) (ao_Flags o) (ao_Requests o) (ao_ToolWaits o) (ao_State o) (ao_SinceMS o) (ao_ThroughMS o)
    (ao_OpenWaitingMS o) (ao_Revision o) (ao_Overflow o).
Definition setConnected (o : activityObservation) : activityObservation :=
  mkObserved (ao_Connection o) true (ao_Ready o) (ao_TurnStartObserved o) (ao_WorkObserved o) (ao_TurnID o)
    (ao_Active o) (ao_Flags o) (ao_Requests o) (ao_ToolWaits o) (ao_State o) (ao_SinceMS o) (ao_ThroughMS o)
    (ao_OpenWaitingMS o) (ao_Revision o) (ao_Overflow o).
Definition setThrough (through : Z) (o : activityObservation) : activityObservation :=
  mkObserved (ao_Connection o) (ao_Connected o) (ao_Ready o) (ao_TurnStartObserved o) (ao_WorkObserved o) (ao_TurnID o)
    (ao_Active o) (ao_Flags o) (ao_Requests o) (ao_ToolWaits o) (ao_State o) (ao_SinceMS o) through
    (ao_OpenWaitingMS o) (ao_Revision o) (ao_Overflow o).
Definition setActivityState (state : string) (since : Z) (o : activityObservation) : activityObservation :=
  mkObserved (ao_Connection o) (ao_Connected o) (ao_Ready o) (ao_TurnStartObserved o) (ao_WorkObserved o) (ao_TurnID o)
    (ao_Active o) (ao_Flags o) (ao_Requests o) (ao_ToolWaits o) state since (ao_ThroughMS o)
    (ao_OpenWaitingMS o) (ao_Revision o) (ao_Overflow o).
Definition setOpenWaiting (ms : Z) (o : activityObservation) : activityObservation :=
  mkObserved (ao_Connection o) (ao_Connected o) (ao_Ready o) (ao_TurnStartObserved o) (ao_WorkObserved o) (ao_TurnID o)
    (ao_Active o) (ao_Flags o) (ao_Requests o) (ao_ToolWaits o) (ao_State o) (ao_SinceMS o) (ao_ThroughMS o)
    ms (ao_Revision o) (ao_Overflow o).
Definition setToolWaits (waits : gmap string activityToolWait) (o : activityObservation) : activityObservation :=
  mkObserved (ao_Connection o) (ao_Connected o) (ao_Ready o) (ao_TurnStartObserved o) (ao_WorkObserved o) (ao_TurnID o)
    (ao_Active o) (ao_Flags o) (ao_Requests o) waits (ao_State o) (ao_SinceMS o) (ao_ThroughMS o)
    (ao_OpenWaitingMS o) (ao_Revision o) (ao_Overflow o).
Definition setRequests (requests : gmap string activityRequest) (o : activityObservation) : activityObservation :=
  mkObserved (ao_Connection o) (ao_Connected o) (ao_Ready o) (ao_TurnStartObserved o) (ao_WorkObserved o) (ao_TurnID o)
    (ao_Active o) (ao_Flags o) requests (ao_ToolWaits o) (ao_State o) (ao_SinceMS o) (ao_ThroughMS o)
    (ao_OpenWaitingMS o) (ao_Revision o) (ao_Overflow o).
Definition setFlags (flags : list string) (o : activityObservation) : activityObservation :=
  mkObserved (ao_Connection o) (ao_Connected o) (ao_Ready o) (ao_TurnStartObserved o) (ao_WorkObserved o) (ao_TurnID o)
    (ao_Active o) flags (ao_Requests o) (ao_ToolWaits o) (ao_State o) (ao_SinceMS o) (ao_ThroughMS o)
    (ao_OpenWaitingMS o) (ao_Revision o) (ao_Overflow o).
Definition setOverflow (o : activityObservation) : activityObservation :=
  mkObserved (ao_Connection o) (ao_Connected o) (ao_Ready o) (ao_TurnStartObserved o) (ao_WorkObserved o) (ao_TurnID o)
    (ao_Active o) (ao_Flags o) (ao_Requests o) (ao_ToolWaits o) (ao_State o) (ao_SinceMS o) (ao_ThroughMS o)
    (ao_OpenWaitingMS o) (ao_Revision o) true.
Definition setTurn (started worked : bool) (turn : string) (active : bool) (o : activityObservation) : activityObservation :=
  mkObserved (ao_Connection o) (ao_Connected o) (ao_Ready o) started worked turn
    active (ao_Flags o) (ao_Requests o) (ao_ToolWaits o) (ao_State o) (ao_SinceMS o) (ao_ThroughMS o)
    (ao_OpenWaitingMS o) (ao_Revision o) (ao_Overflow o).
Definition bumpRevision (o : activityObservation) : activityObservation :=
  mkObserved (ao_Connection o) (ao_Connected o) (ao_Ready o) (ao_TurnStartObserved o) (ao_WorkObserved o) (ao_TurnID o)
    (ao_Active o) (ao_Flags o) (ao_Requests o) (ao_ToolWaits o) (ao_State o) (ao_SinceMS o) (ao_ThroughMS o)
    (ao_OpenWaitingMS o) (u64 (ao_Revision o + 1)) (ao_Overflow o).

(** ** States *)

Definition anyOf {V} (f : V → bool) (m : gmap string V) : bool := existsb (fun kv => f kv.2) (map_to_list m).

(** The category a flag of the thread's status stands for. *)
Definition flagCategory (flag : string) : string :=
  if str_eqb flag "waitingOnApproval" then "approval"
  else if str_eqb flag "waitingOnUserInput" then "userInput" else "".

Definition activityState (o : activityObservation) : string :=
  if ao_Overflow o then "unclassified"
  else if anyOf (fun q => str_eqb (aq_Category q) "unknown") (ao_Requests o) then "unclassified"
  else if anyOf aq_Blocking (ao_Requests o) then "waiting"
  else if ao_Active o && negb (bool_decide (ao_ToolWaits o = ∅)) then "waiting"
  else if negb (ao_Ready o) then "unclassified"
  else if existsb (fun flag => negb (is_empty (flagCategory flag))
                     && negb (anyOf (fun q => str_eqb (aq_Category q) (flagCategory flag)) (ao_Requests o))) (ao_Flags o)
  then "unclassified"
  else if ao_Active o then "working" else "idle".

(** ** Turn metadata *)

Definition settled : list string := ["completed"; "failed"; "interrupted"].

Definition tools : list string :=
  ["commandExecution"; "fileChange"; "mcpToolCall"; "dynamicToolCall"; "webSearch"; "imageView"; "imageGeneration"].

Definition isStr (s : string) (v : any) : bool := match v with AStr x => str_eqb x s | _ => false end.

(** One item of a turn, once per identity. *)
Definition countItem (threadID : string) (t : TurnMetadata) (id : string) (item : object) : TurnMetadata :=
  let kind := stringValue (field "type" item) in
  let counted (messages received calls : Z) (sleeps : bool) (waits : gmap string activityToolWait) :=
    mkTurn (tm_ID t) (tm_Status t) (tm_StartedAtMS t) (tm_CompletedAtMS t) (tm_DurationMS t)
      (tm_Messages t + messages) (tm_ReceivedMessages t + received) (tm_ToolCalls t + calls) (tm_CountsKnown t)
      (tm_HasSleep t || sleeps) waits in
  if str_eqb kind "userMessage" then counted 0 1 0 false (tm_AutomaticWaits t)
  else if str_in kind ["agentMessage"; "plan"] then counted 1 0 0 false (tm_AutomaticWaits t)
  else if str_eqb kind "collabAgentToolCall" then
    if str_eqb (stringValue (field "senderThreadId" item)) threadID then
      counted 0 0 1 false
        (if isStr "wait" (field "tool" item) && isStr "inProgress" (field "status" item)
         then <[id := mkWait (tm_ID t) "subagents" 0]> (tm_AutomaticWaits t) else tm_AutomaticWaits t)
    else t
  else if str_eqb kind "sleep" then counted 0 0 1 true (tm_AutomaticWaits t)
  else if str_in kind tools then counted 0 0 1 false (tm_AutomaticWaits t)
  else t.

Fixpoint countItems (threadID : string) (items : list any) (seen : list string) (t : TurnMetadata) : TurnMetadata :=
  match items with
  | [] => t
  | raw :: rest =>
    let item := objectOrNil raw in
    let id := stringValue (field "id" item) in
    if is_empty id || str_in id seen then countItems threadID rest seen t
    else countItems threadID rest (id :: seen) (countItem threadID t id item)
  end.

(** Of a turn as App Server reports it; a turn that was counted before carries its
    metadata ([metadata] of [ActivityHistory.v]) and is not counted again. *)
Definition turnMetadata (turn : object) (threadID : string) : TurnMetadata :=
  let view := stringValue (field "itemsView" turn) in
  let known := is_empty view || str_eqb view "full" in
  countItems threadID (if known then arrayOrNil (field "items" turn) else []) []
    (mkTurn (stringValue (field "id" turn)) (statusValue (field "status" turn))
       (integerValue (field "startedAt" turn) * 1000) (integerValue (field "completedAt" turn) * 1000)
       (integerValue (field "durationMs" turn)) 0 0 0 known false ∅).

(** ** Time of a turn *)

Definition add (state : string) (from to : Z) (r : activityTurnRecord) : activityTurnRecord :=
  let working := str_eqb state "working" in
  let second := Z.quot to 1000 * 1000 in
  let fresh := negb (second =? ar_TailSecondMS r) in
  let tail := to - Z.max from second in
  let tailWork := if fresh then 0 else ar_TailWorkMS r in
  let tailWait := if fresh then 0 else ar_TailWaitMS r in
  mkRecord (ar_ID r) (u64 (ar_Sequence r + 1)) (ar_StartedAtMS r) (ar_CompletedAtMS r)
    (if working then ar_WorkingMS r + (to - from) else ar_WorkingMS r)
    (if working then ar_WaitingMS r else ar_WaitingMS r + (to - from))
    (if ar_FirstMS r =? 0 then from else ar_FirstMS r) to second
    (if working then tailWork + tail else tailWork) (if working then tailWait else tailWait + tail)
    (ar_Final r) (ar_BoundsUnknown r).

(** The completion: bounds have second precision, so a started second is dropped. *)
Definition complete (completedAt : Z) (r : activityTurnRecord) : activityTurnRecord :=
  let cut := (completedAt <? ar_ThroughMS r) && (ar_TailSecondMS r =? completedAt) in
  let unknown := (completedAt <? ar_ThroughMS r) && negb (ar_TailSecondMS r =? completedAt) in
  let working := if cut then ar_WorkingMS r - ar_TailWorkMS r else ar_WorkingMS r in
  let waiting := if cut then ar_WaitingMS r - ar_TailWaitMS r else ar_WaitingMS r in
  let first := if cut && (working + waiting =? 0) then completedAt else ar_FirstMS r in
  mkRecord (ar_ID r) (ar_Sequence r) (ar_StartedAtMS r) completedAt working waiting first
    (if cut then completedAt else ar_ThroughMS r) (ar_TailSecondMS r)
    (if cut then 0 else ar_TailWorkMS r) (if cut then 0 else ar_TailWaitMS r)
    (0 <? ar_StartedAtMS r)
    (ar_BoundsUnknown r || unknown || ((0 <? first) && (first <? ar_StartedAtMS r))).

Definition applyMetadata (turn : TurnMetadata) (r : activityTurnRecord) : activityTurnRecord :=
  if ar_Final r then r else
  let r := mkRecord (tm_ID turn) (u64 (ar_Sequence r + 1))
             (if 0 <? tm_StartedAtMS turn then tm_StartedAtMS turn else ar_StartedAtMS r) (ar_CompletedAtMS r)
             (ar_WorkingMS r) (ar_WaitingMS r) (ar_FirstMS r) (ar_ThroughMS r) (ar_TailSecondMS r)
             (ar_TailWorkMS r) (ar_TailWaitMS r) (ar_Final r) (ar_BoundsUnknown r) in
  if negb (str_in (tm_Status turn) settled) || (tm_CompletedAtMS turn =? 0) then r
  else complete (tm_CompletedAtMS turn) r.

(** ** The current observation *)

Definition freshObservation (connection : string) (now : Z) : activityObservation :=
  mkObserved connection false false false false "" false [] ∅ ∅ "unclassified" now now 0 0 false.

(** [thread.observation]: the live observation of a connection, a new one when there is none. *)
Definition liveFor (connection : string) (now : Z) (t : activityThread) : activityObservation :=
  match at_live t with
  | Some live => if str_eqb (ao_Connection live) connection then live else freshObservation connection now
  | None => freshObservation connection now
  end.

Definition atLimit {V} (m : gmap string V) : bool := (activityPendingLimit <=? size m)%nat.

Definition accrue (now : Z) (t : activityThread) : activityThread :=
  match at_live t with
  | Some live =>
    if negb (ao_Connected live) then t else
    let now := Z.max now (ao_ThroughMS live) in
    if ao_Active live && negb (is_empty (ao_TurnID live)) && str_in (ao_State live) ["working"; "waiting"] then
      let found := ac_Turns (at_hot t) !! ao_TurnID live in
      let record := default zeroRecord found in
      if negb (bool_decide (is_Some found)) && atLimit (ac_Turns (at_hot t)) then
        withLive (Some (setThrough now (setActivityState "unclassified" (ao_SinceMS live) (setReady false live))))
          (withLastError (Some (EMsg "activity summaries are waiting for storage")) t)
      else if ar_Final record then withLive (Some (setThrough now live)) t
      else
        let record := mkRecord (ao_TurnID live) (ar_Sequence record) (ar_StartedAtMS record) (ar_CompletedAtMS record)
                        (ar_WorkingMS record) (ar_WaitingMS record) (ar_FirstMS record) (ar_ThroughMS record)
                        (ar_TailSecondMS record) (ar_TailWorkMS record) (ar_TailWaitMS record) (ar_Final record)
                        (ar_BoundsUnknown record) in
        let from := Z.max (ao_ThroughMS live) (ar_StartedAtMS record) in
        let spent := from <? now in
        let record := if spent then add (ao_State live) from now record else record in
        let live := if spent && str_eqb (ao_State live) "waiting"
                    then setOpenWaiting (ao_OpenWaitingMS live + (now - from)) live else live in
        withLive (Some (setThrough now live)) (withTurns <[ao_TurnID live := record]> t)
    else withLive (Some (setThrough now live)) t
  | None => t
  end.

Definition updateState (now : Z) (t : activityThread) : activityThread :=
  match at_live t with
  | Some live =>
    let state := activityState live in
    let live := if str_eqb state (ao_State live) then live else setActivityState state now (setOpenWaiting 0 live) in
    let live := setThrough (Z.max (ao_ThroughMS live) now) live in
    signalLocked (withCurrent (Some live) (withLive (Some live) t))
  | None => t (* not reached: the callers hold an observation *)
  end.

(** ** Events *)

(** [connected], once the thread is looked up. *)
Definition connected (connection : string) (now : Z) (t : activityThread) : activityThread :=
  if at_closing t then t else
  updateState now (withLive (Some (setConnected (liveFor connection now t))) t).

Definition disconnected (connection : string) (t : activityThread) : activityThread :=
  match at_live t with
  | Some live => if str_eqb (ao_Connection live) connection
                 then signalLocked (withCurrent None (withLive None t)) else t
  | None => t
  end.

Record activityParams := mkParams {
  px_ThreadID : string; px_TurnID : string; px_ItemID : string; px_IsBlocking : option bool;
  px_RequestID : string; px_Turn : object; px_Item : object; px_StartedAtMS : Z;
  px_StatusType : string; px_ActiveFlags : list string }.

Definition lifecycleMethods : list string :=
  ["serverRequest/resolved"; "turn/started"; "turn/completed"; "thread/status/changed"; "item/started"; "item/completed"].

(** The items whose lifetime is a wait. *)
Definition waitItem (p : activityParams) : bool :=
  isStr "sleep" (field "type" (px_Item p))
  || (isStr "collabAgentToolCall" (field "type" (px_Item p)) && isStr "wait" (field "tool" (px_Item p))
      && isStr (px_ThreadID p) (field "senderThreadId" (px_Item p))).

Definition isItem (method : string) : bool := str_in method ["item/started"; "item/completed"].

(** The instant up to which the old state lasted. *)
Definition boundaryOf (method : string) (p : activityParams) (now : Z) (live : activityObservation) : Z :=
  let started := integerValue (field "startedAt" (px_Turn p)) * 1000 in
  let boundary :=
    if str_eqb method "turn/started" && ao_Connected live && ao_Ready live && str_eqb (ao_State live) "idle"
       && (0 <? started) && (started <=? now)
    then Z.max started (ao_ThroughMS live) else now in
  let ended := integerValue (field "completedAt" (px_Turn p)) * 1000 in
  if str_eqb method "turn/completed" && str_eqb (ao_TurnID live) (stringValue (field "id" (px_Turn p)))
     && (0 <? ended) && (ended <? boundary)
  then Z.max ended (ao_ThroughMS live) else boundary.

Definition toolWait (p : activityParams) (now : Z) : activityToolWait :=
  if isStr "sleep" (field "type" (px_Item p)) then
    let start := if (px_StartedAtMS p <=? 0) || (now <? px_StartedAtMS p) then now else px_StartedAtMS p in
    let duration := integerValue (field "durationMs" (px_Item p)) in
    mkWait (px_TurnID p) "sleep" (if (0 <? duration) && (duration <=? 43200000) then start + duration else 0)
  else mkWait (px_TurnID p) "subagents" 0.

Definition resolvedFlag (category : string) : string :=
  if str_eqb category "userInput" then "waitingOnUserInput" else "waitingOnApproval".

(** What a message changes in the observation. *)
Definition observeLive (method id : string) (p : activityParams) (now : Z) (o : activityObservation) : activityObservation :=
  let itemID := stringValue (field "id" (px_Item p)) in
  let turnID := stringValue (field "id" (px_Turn p)) in
  if str_eqb method "item/started" then
    if atLimit (ao_ToolWaits o) then setOverflow o
    else setToolWaits (<[itemID := toolWait p now]> (ao_ToolWaits o)) o
  else if str_eqb method "item/completed" then setToolWaits (delete itemID (ao_ToolWaits o)) o
  else if str_eqb method "serverRequest/resolved" then
    let category := aq_Category (default zeroRequest (ao_Requests o !! px_RequestID p)) in
    let requests := delete (px_RequestID p) (ao_Requests o) in
    let remaining := anyOf (fun q => str_eqb (aq_Category q) category) requests in
    let flags := if negb remaining && negb (is_empty category)
                 then filter (fun flag => flag ≠ resolvedFlag category) (ao_Flags o) else ao_Flags o in
    setFlags flags (setRequests requests o)
  else if str_eqb method "turn/started" then
    setReady true (setTurn true false turnID true (setOpenWaiting 0 (setToolWaits ∅ o)))
  else if str_eqb method "turn/completed" then
    let o := if str_eqb (ao_TurnID o) turnID
             then setToolWaits ∅ (setOpenWaiting 0 (setTurn (ao_TurnStartObserved o) (ao_WorkObserved o) (ao_TurnID o) false o))
             else o in
    setFlags [] (setRequests (filter (fun kv => aq_TurnID kv.2 ≠ turnID) (ao_Requests o)) o)
  else if str_eqb method "thread/status/changed" then
    let o := setFlags (px_ActiveFlags p) o in
    if ao_Active o && str_eqb (px_StatusType p) "active"
    then setReady true (setTurn (ao_TurnStartObserved o) true (ao_TurnID o) (ao_Active o) o) else o
  else
    match ao_Requests o !! id with
    | Some _ => o
    | None =>
      if atLimit (ao_Requests o) || (256 <? len id) then setOverflow (setReady false o)
      else
        let policy := requestPolicyFor method in
        let blocking := match px_IsBlocking p with
                        | Some b => if str_eqb method "item/tool/requestUserInput" then b else rp_blocking policy
                        | None => rp_blocking policy end in
        setRequests (<[id := mkRequest (px_ItemID p) method (px_TurnID p) blocking (rp_category policy) now]> (ao_Requests o)) o
    end.

(** What it changes in the turn summaries. *)
Definition observeTurns (method : string) (p : activityParams) (turns : gmap string activityTurnRecord)
    : gmap string activityTurnRecord :=
  let turnID := stringValue (field "id" (px_Turn p)) in
  let metadata := turnMetadata (px_Turn p) (px_ThreadID p) in
  if str_eqb method "turn/started" then
    if bool_decide (is_Some (turns !! turnID)) || negb (atLimit turns)
    then <[turnID := applyMetadata metadata (default zeroRecord (turns !! turnID))]> turns else turns
  else if str_eqb method "turn/completed" then
    match turns !! turnID with
    | Some record => <[turnID := applyMetadata metadata record]> turns
    | None => turns
    end
  else turns.

Definition mapLive (f : activityObservation → activityObservation) (t : activityThread) : activityThread :=
  withLive (f <$> at_live t) t.

(** [observe] of the thread the message names; [params] is [None] when they do
    not decode, [id] is the raw identity, empty for a notification. *)
Definition observe (connection method id : string) (params : option activityParams) (now : Z) (t : activityThread)
    : activityThread :=
  match params with
  | None => t
  | Some p =>
    if is_empty method || is_empty (px_ThreadID p) || (negb (str_in method lifecycleMethods) && is_empty id)
       || negb (at_loaded t) || at_closing t then t else
    let live := liveFor connection now t in
    let t := withLive (Some live) t in
    if isItem method
       && (negb (str_eqb (px_TurnID p) (ao_TurnID live)) || negb (ao_Active live)
           || is_empty (stringValue (field "id" (px_Item p))) || negb (waitItem p))
    then t else
    let boundary := boundaryOf method p now live in
    let t := accrue boundary t in
    let t := withTurns (observeTurns method p) (mapLive (fun o => bumpRevision (observeLive method id p now o)) t) in
    let t := updateState boundary t in
    if boundary <? now then let t := accrue now t in withCurrent (at_live t) t else t
  end.

(** A locally rejected request is resolved like App Server resolves one. *)
Definition resolveRequest (connection threadID requestID : string) (valid : bool) (now : Z) (t : activityThread) : activityThread :=
  if is_empty threadID || is_empty requestID || negb valid then t
  else observe connection "serverRequest/resolved" "" (Some (mkParams threadID "" "" None requestID [] [] 0 "" [])) now t.

Definition revision (t : activityThread) : Z := match at_live t with Some live => ao_Revision live | None => 0 end.

(** ** Reconciling with history *)

(** The last entry of a turn's identity, as the map built from the list holds. *)
Definition metadataOf (turns : list TurnMetadata) : gmap string TurnMetadata :=
  foldl (fun m turn => <[tm_ID turn := turn]> m) ∅ turns.

Definition reconcileLive (turns : list TurnMetadata) (status : object) (o : activityObservation) : activityObservation :=
  let metadata := metadataOf turns in
  let latest := last turns in
  let turnID := match latest with Some turn => tm_ID turn | None => "" end in
  let active := match latest with Some turn => str_eqb (tm_Status turn) "inProgress" | None => false end in
  let same := str_eqb (ao_TurnID o) turnID in
  let waits := if same && active then ao_ToolWaits o else ∅ in
  let started := same && ao_TurnStartObserved o in
  let worked := same && ao_WorkObserved o in
  let opened := if same then ao_OpenWaitingMS o else 0 in
  let o := setOpenWaiting opened (setFlags (stringValues (field "activeFlags" status)) o) in
  let o :=
    match latest with
    | Some turn =>
      if active then
        let worked := worked || str_eqb (statusValue (AObj status)) "active" in
        let kept := if tm_CountsKnown turn
                    then filter (fun kv : string * activityToolWait => aw_Reason kv.2 ≠ "subagents") waits else waits in
        setReady (negb (tm_HasSleep turn) || started || worked)
          (setTurn started worked turnID true (setToolWaits (tm_AutomaticWaits turn ∪ kept) o))
      else setReady true (setTurn started worked turnID false (setToolWaits ∅ o))
    | None => setReady true (setTurn started worked turnID false (setToolWaits ∅ o))
    end in
  let over (q : activityRequest) := match metadata !! aq_TurnID q with
                                    | Some turn => str_in (tm_Status turn) settled | None => false end in
  setRequests (filter (fun kv => over kv.2 = false) (ao_Requests o)) o.

Definition finalise (r : activityTurnRecord) : activityTurnRecord :=
  mkRecord (ar_ID r) (u64 (ar_Sequence r + 1)) (ar_StartedAtMS r) (ar_CompletedAtMS r) (ar_WorkingMS r) (ar_WaitingMS r)
    (ar_FirstMS r) (ar_ThroughMS r) (ar_TailSecondMS r) (ar_TailWorkMS r) (ar_TailWaitMS r) true (ar_BoundsUnknown r).

Definition reconcileTurns (turns : list TurnMetadata) (turnID : string) (active : bool)
    (hot : gmap string activityTurnRecord) : gmap string activityTurnRecord :=
  let metadata := metadataOf turns in
  let hot := map_imap (fun id record => Some (match metadata !! id with
                                              | Some turn => applyMetadata turn record
                                              | None => finalise record end)) hot in
  match metadata !! turnID with
  | Some turn =>
    let present := bool_decide (is_Some (hot !! turnID)) in
    if (present || negb (atLimit hot)) && (present || active)
    then <[turnID := applyMetadata turn (default zeroRecord (hot !! turnID))]> hot else hot
  | None => hot
  end.

Definition reconcile (connection : string) (turns : list TurnMetadata) (status : object) (now revision : Z)
    (t : activityThread) : activityThread :=
  match at_live t with
  | None => t
  | Some live =>
    if negb (str_eqb (ao_Connection live) connection) || negb (ao_Connected live) || at_closing t then t else
    let boundary :=
      match metadataOf turns !! ao_TurnID live with
      | Some turn => if (0 <? tm_CompletedAtMS turn) && (tm_CompletedAtMS turn <? now)
                     then Z.max (tm_CompletedAtMS turn) (ao_ThroughMS live) else now
      | None => now
      end in
    let t := accrue boundary t in
    let t :=
      if ao_Revision live =? revision then
        let live' := reconcileLive turns status (default live (at_live t)) in
        withTurns (reconcileTurns turns (ao_TurnID live') (ao_Active live')) (withLive (Some live') t)
      else t in
    updateState now t
  end.
