(* ===== verification/ActivityStore.v ===== *)
(** * Storing activity

    [src/codex/activity_store.go] and [seedCurrent] of
    [src/codex/activity_snapshot.go]: the checkpoint of a thread's current state
    and the summaries of its finished turns, the writer that moves one to disk
    behind the other, and what a restart reads back.

    A file is kept as the value its JSON text decodes to. The file of a summary
    is named by the SHA-256 of the turn's identity and holds that identity, which
    its reader checks; here summaries are keyed by it. *)
From S2P Require Import Prelude GoStd GoValue TurnOptions Ledger LedgerFacts Store Program Wire History Prompts Activity.
From Stdlib Require Import String.
Open Scope Z_scope.

(** ** Files *)

Inductive activityFile (A : Type) := Damaged | Holds (a : A).
Arguments Damaged {A}.
Arguments Holds {A} a.

Record activityDisk := mkDisk {
  dk_current : option (activityFile activityCheckpoint);
  dk_turns : gmap string (activityFile activityTurnRecord) }.

(** The fields that are not marshalled read back as zero. *)
Definition persistObservation (o : activityObservation) : activityObservation :=
  mkObserved (ao_Connection o) false false false false (ao_TurnID o) (ao_Active o) [] (ao_Requests o) (ao_ToolWaits o)
    (ao_State o) (ao_SinceMS o) (ao_ThroughMS o) (ao_OpenWaitingMS o) 0 (ao_Overflow o).
Definition persist (c : activityCheckpoint) : activityCheckpoint :=
  mkCheckpoint (ac_Schema c) (ac_ThreadID c) (persistObservation <$> ac_Current c) (ac_Turns c).

Definition validActivityRecord (r : activityTurnRecord) : bool :=
  negb (is_empty (ar_ID r)) && (0 <=? ar_WorkingMS r) && (0 <=? ar_WaitingMS r) && (0 <=? ar_FirstMS r)
  && (ar_FirstMS r <=? ar_ThroughMS r) && (0 <=? ar_TailWorkMS r) && (0 <=? ar_TailWaitMS r)
  && (ar_TailWorkMS r <=? ar_WorkingMS r) && (ar_TailWaitMS r <=? ar_WaitingMS r).

Definition blankCheckpoint (threadID : string) : activityCheckpoint := mkCheckpoint 1 threadID None ∅.

(** [fault] is an error of reading the file other than its absence. *)
Definition loadActivityCheckpoint (fault : option err) (file : option (activityFile activityCheckpoint)) (threadID : string)
    : res err activityCheckpoint :=
  match fault, file with
  | Some e, _ => Err e
  | None, None => Ok (blankCheckpoint threadID)
  | None, Some Damaged => Err (EMsg "invalid activity checkpoint")
  | None, Some (Holds c) =>
    if negb (ac_Schema c =? 1) || negb (str_eqb (ac_ThreadID c) threadID)
       || (activityPendingLimit <? size (ac_Turns c))%nat
    then Err (EMsg "invalid activity checkpoint")
    else if existsb (fun kv => negb (str_eqb kv.1 (ar_ID kv.2)) || negb (validActivityRecord kv.2)) (map_to_list (ac_Turns c))
    then Err (EMsg "invalid activity turn summary")
    else match ac_Current c with
         | Some o =>
           if (activityPendingLimit <? size (ao_Requests o))%nat || (activityPendingLimit <? size (ao_ToolWaits o))%nat
              || (ao_ThroughMS o <? ao_SinceMS o)
           then Err (EMsg "invalid activity observation") else Ok c
         | None => Ok c
         end
  end.

(** ** Summaries *)

Definition withHistory (f : gmap string activityTurnRecord → gmap string activityTurnRecord) (t : activityThread) : activityThread :=
  mkThread (at_hot t) (at_durable t) (at_live t) (at_revision t) (at_saved t) (at_lastError t) (at_loadError t) (at_closing t)
    (at_readers t) (at_watchers t) (at_loaded t) (at_wake t) (f (at_history t)).

(** The cached summary, or the one on disk; [fault] is an ended context or a
    failed read. Absence is cached as the zero record. Both looks at the cache
    and the read between them are one step: where the code finds a summary at the
    second look that the writer cached meanwhile, this is the step after it. *)
Definition summary (fault : bool) (d : activityDisk) (id : string) (t : activityThread)
    : option activityTurnRecord * activityThread :=
  match at_history t !! id with
  | Some record => (if is_empty (ar_ID record) then None else Some record, t)
  | None =>
    if fault then (None, t) else
    match dk_turns d !! id with
    | None => (None, withHistory <[id := zeroRecord]> t)
    | Some Damaged => (None, t)
    | Some (Holds record) =>
      if negb (str_eqb (ar_ID record) id) || negb (ar_Final record) || negb (validActivityRecord record) then (None, t)
      else (Some record, withHistory <[id := record]> t)
    end
  end.

(** ** Starting *)

Definition newThread (threadID : string) : activityThread :=
  mkThread (blankCheckpoint threadID) (mkCheckpoint 0 "" None ∅) None 0 0 None None false 0 0 false false ∅.

(** Drops the turns whose summary is at least as recent. *)
Fixpoint replay (faults : string → bool) (d : activityDisk) (records : list (string * activityTurnRecord))
    (turns : gmap string activityTurnRecord) (t : activityThread) : gmap string activityTurnRecord * activityThread :=
  match records with
  | [] => (turns, t)
  | (id, record) :: rest =>
    let '(saved, t) := summary (faults id) d id t in
    let turns := match saved with
                 | Some saved => if ar_Sequence record <=? ar_Sequence saved then delete id turns else turns
                 | None => turns end in
    replay faults d rest turns t
  end.

(** The writer's first section. *)
Definition load (fault : option err) (faults : string → bool) (d : activityDisk) (t : activityThread) : activityThread :=
  let finish (hot : activityCheckpoint) (e : option err) (t : activityThread) :=
    mkThread hot hot (at_live t) (at_revision t) (at_saved t) e e (at_closing t)
      (at_readers t) (at_watchers t) true (at_wake t) (at_history t) in
  match loadActivityCheckpoint fault (dk_current d) (ac_ThreadID (at_hot t)) with
  | Err e => finish (at_hot t) (Some e) t
  | Ok c =>
    let '(turns, t) := replay faults d (map_to_list (ac_Turns c)) (ac_Turns c) t in
    finish (mkCheckpoint (ac_Schema c) (ac_ThreadID c) (ac_Current c) turns) None t
  end.

(** ** Writing *)

(** What the writer holds between its sections: the checkpoint it copied, what
    is left of it, the revision it saw and whether the thread was closing. *)
Record writing := mkWriting { wr_checkpoint : activityCheckpoint; wr_left : activityCheckpoint; wr_revision : Z; wr_closing : bool }.

Definition copyHot (t : activityThread) : writing :=
  mkWriting (at_hot t) (at_hot t) (at_revision t) (at_closing t).

Definition dropTurn (id : string) (c : activityCheckpoint) : activityCheckpoint :=
  mkCheckpoint (ac_Schema c) (ac_ThreadID c) (ac_Current c) (delete id (ac_Turns c)).
Definition leave (left : activityCheckpoint) (w : writing) : writing :=
  mkWriting (wr_checkpoint w) left (wr_revision w) (wr_closing w).

(** A file write may fail before the rename or after it. *)
Inductive writeFault := Written | FailedBefore (e : err) | FailedAfter (e : err).

(** One finished turn of [writeCheckpoint]'s loop. *)
Definition writeSummary (readFault : bool) (fault : writeFault) (id : string) (record : activityTurnRecord)
    (w : writing) (d : activityDisk) (t : activityThread) : res err writing * activityDisk * activityThread :=
  let '(saved, t) := summary readFault d id t in
  let done := leave (dropTurn id (wr_left w)) w in
  let stored := mkDisk (dk_current d) (<[id := Holds record]> (dk_turns d)) in
  if match saved with Some saved => ar_Sequence record <? ar_Sequence saved | None => false end
  then (Ok done, d, t)
  else match fault with
       | Written => (Ok done, stored, withHistory <[id := record]> t)
       | FailedBefore e => (Err e, d, t)
       | FailedAfter e => (Err e, stored, t)
       end.

(** Its last write, once no finished turn is left. *)
Definition writeCurrent (fault : writeFault) (w : writing) (d : activityDisk) : option err * activityDisk :=
  let stored := mkDisk (Some (Holds (persist (wr_left w)))) (dk_turns d) in
  match fault with
  | Written => (None, stored)
  | FailedBefore e => (Some e, d)
  | FailedAfter e => (Some e, stored)
  end.

#[global] Instance activityTurnRecord_eq : EqDecision activityTurnRecord.
Proof. solve_decision. Defined.

(** The section after the write. *)
Definition finishWrite (e : option err) (w : writing) (t : activityThread) : activityThread :=
  match e with
  | Some _ => withLastError e t
  | None =>
    let cp := wr_checkpoint w in
    let hot := filter (fun kv => ¬ (ar_Final kv.2 = true ∧ ac_Turns cp !! kv.1 = Some kv.2)) (ac_Turns (at_hot t)) in
    let durable := filter (fun kv => ar_Final kv.2 = false) (ac_Turns cp) in
    mkThread (mkCheckpoint (ac_Schema (at_hot t)) (ac_ThreadID (at_hot t)) (ac_Current (at_hot t)) hot)
      (mkCheckpoint (ac_Schema cp) (ac_ThreadID cp) (ac_Current cp) durable)
      (at_live t) (at_revision t) (wr_revision w) None (at_loadError t) (at_closing t)
      (at_readers t) (at_watchers t) (at_loaded t) (at_wake t) (at_history t)
  end.

(** ** Lifetime *)

Definition closeLocked (t : activityThread) : activityThread :=
  signalLocked (withTurns (fmap (fun r => if ar_Final r then r else finalise r)) (withCurrent None (withClosing t))).

Definition count (watch : bool) (by' : Z) (t : activityThread) : activityThread :=
  mkThread (at_hot t) (at_durable t) (at_live t) (at_revision t) (at_saved t) (at_lastError t) (at_loadError t) (at_closing t)
    (if watch then at_readers t else at_readers t + by') (if watch then at_watchers t + by' else at_watchers t)
    (at_loaded t) (at_wake t) (at_history t).

Definition unused (t : activityThread) : bool :=
  (at_readers t =? 0) && (at_watchers t =? 0) && negb (bool_decide (is_Some (at_live t))) && negb (at_closing t).

(** [retain] once the thread is loaded; it tries again when it is closing. *)
Definition retain (watch : bool) (t : activityThread) : option activityThread :=
  if at_closing t then None else Some (count watch 1 t).
Definition release (watch : bool) (t : activityThread) : activityThread :=
  let t := count watch (-1) t in if unused t then closeLocked t else t.
Definition retire (t : activityThread) : activityThread := if unused t then closeLocked t else t.
(** [Close] of the recorder, for this thread. *)
Definition closeThread (t : activityThread) : activityThread := closeLocked (withLive None t).

(** What [flush] waits for: the error it returns, or whether it returns. *)
Definition flushed (target : Z) (t : activityThread) : option (option err) :=
  match at_lastError t with
  | Some e => Some (Some e)
  | None => if target <=? at_saved t then Some None else None
  end.

(** ** Continuing a turn that was summarised *)

(** [seedCurrent] after it has read the summary of the latest turn. *)
Definition seedCurrent (id : string) (saved : activityTurnRecord) (t : activityThread) : activityThread :=
  let turns := ac_Turns (at_hot t) in
  let present := bool_decide (is_Some (turns !! id)) in
  let current := default zeroRecord (turns !! id) in
  if present && (0 <? ar_FirstMS current) && (ar_FirstMS current <=? ar_ThroughMS saved) then t
  else if negb present && atLimit turns then t
  else
    let spent := 0 <? ar_WorkingMS current + ar_WaitingMS current in
    let from (f : activityTurnRecord → Z) := if spent then f current else f saved in
    withTurns <[id :=
      mkRecord (ar_ID saved) (u64 (Z.max (ar_Sequence saved) (ar_Sequence current) + 1)) (ar_StartedAtMS saved) (ar_CompletedAtMS saved)
        (if spent then ar_WorkingMS saved + ar_WorkingMS current else ar_WorkingMS saved)
        (if spent then ar_WaitingMS saved + ar_WaitingMS current else ar_WaitingMS saved)
        (ar_FirstMS saved) (from ar_ThroughMS) (from ar_TailSecondMS) (from ar_TailWorkMS) (from ar_TailWaitMS)
        false (ar_BoundsUnknown saved)]> t.
