(* ===== verification/ActivityFacts.v ===== *)
(** * Properties of activity recording

    Whatever events, reconciliations, writes, failures and restarts interleave:
    no millisecond is counted twice, what is written can be read back, and what
    is durable is never replaced by something older. *)
From S2P Require Import Prelude GoStd GoValue TurnOptions Ledger LedgerFacts Store Program Wire History Prompts Activity ActivityStore.
From Stdlib Require Import String.
Open Scope Z_scope.

(** ** Records *)

(** The time of a record fits between its first and last instant, and so do the
    parts before and within its last second. *)
Record honest (r : activityTurnRecord) : Prop := {
  ho_work : 0 ≤ ar_TailWorkMS r ≤ ar_WorkingMS r;
  ho_wait : 0 ≤ ar_TailWaitMS r ≤ ar_WaitingMS r;
  ho_span : 0 ≤ ar_FirstMS r ≤ ar_ThroughMS r;
  ho_total : ar_WorkingMS r + ar_WaitingMS r ≤ ar_ThroughMS r - ar_FirstMS r;
  ho_second : ∃ q, ar_TailSecondMS r = 1000 * q ∧ 1000 * q ≤ ar_ThroughMS r < 1000 * q + 1000;
  ho_tail : ar_TailWorkMS r + ar_TailWaitMS r ≤ ar_ThroughMS r - Z.max (ar_FirstMS r) (ar_TailSecondMS r);
  ho_before : (ar_WorkingMS r - ar_TailWorkMS r) + (ar_WaitingMS r - ar_TailWaitMS r)
              ≤ Z.max 0 (ar_TailSecondMS r - ar_FirstMS r);
  ho_unset : ar_FirstMS r = 0 → ar_ThroughMS r = 0 }.

Lemma honest_zero : honest zeroRecord.
Proof. split; simpl; try lia. by exists 0. Qed.

Lemma honest_same r r' :
  ar_WorkingMS r' = ar_WorkingMS r → ar_WaitingMS r' = ar_WaitingMS r → ar_FirstMS r' = ar_FirstMS r →
  ar_ThroughMS r' = ar_ThroughMS r → ar_TailSecondMS r' = ar_TailSecondMS r → ar_TailWorkMS r' = ar_TailWorkMS r →
  ar_TailWaitMS r' = ar_TailWaitMS r → honest r → honest r'.
Proof. intros E1 E2 E3 E4 E5 E6 E7 []. split; rewrite ?E1, ?E2, ?E3, ?E4, ?E5, ?E6, ?E7; done. Qed.

Lemma honest_add state from to r :
  honest r → 0 < from → ar_ThroughMS r ≤ from → from < to → honest (add state from to r).
Proof.
  intros [Hw Ht Hs Htot (q & Eq & Hq) Htail Hbef Hun] Hf Hr Hto. unfold add.
  rewrite Z.quot_div_nonneg by lia.
  set (p := to / 1000). assert (1000 * p ≤ to < 1000 * p + 1000) as Hp.
  { subst p. pose proof (Z.mul_div_le to 1000). pose proof (Z.mul_succ_div_gt to 1000). lia. }
  assert (q ≤ p) as Hqp by lia.
  assert ((ar_FirstMS r = 0 ∧ ar_ThroughMS r = 0) ∨ 0 < ar_FirstMS r) as Hfirst by (destruct (decide (ar_FirstMS r = 0)); [left; auto|lia]).
  destruct (p * 1000 =? ar_TailSecondMS r) eqn:Efresh; destruct (str_eqb state "working");
    (destruct (ar_FirstMS r =? 0) eqn:E0; bools); split; simpl; try (exists p); lia.
Qed.

Lemma honest_complete at' r : honest r → 0 < at' → honest (complete at' r).
Proof.
  intros [Hw Ht Hs Htot (q & Eq & Hq) Htail Hbef Hun] Ha. unfold complete.
  destruct (at' <? ar_ThroughMS r) eqn:Ec; simpl; [|split; simpl; try lia; by exists q].
  destruct (ar_TailSecondMS r =? at') eqn:Et; simpl; [|split; simpl; try lia; by exists q]. bools.
  destruct (_ =? 0) eqn:Ez; bools; split; simpl; try (exists q); lia.
Qed.

Definition plausible (turn : TurnMetadata) : Prop := tm_ID turn ≠ "" ∧ 0 ≤ tm_CompletedAtMS turn.

Lemma honest_apply turn r : honest r → plausible turn → honest (applyMetadata turn r).
Proof.
  intros Hr [_ Hc]. unfold applyMetadata. destruct (ar_Final r); [done|].
  destruct (negb _ || (tm_CompletedAtMS turn =? 0)) eqn:E; [by apply (honest_same r)|].
  bools. apply honest_complete; [by apply (honest_same r)|lia].
Qed.
Lemma honest_finalise r : honest r → honest (finalise r).
Proof. by apply honest_same. Qed.

Lemma apply_through turn r : honest r → plausible turn → ar_ThroughMS (applyMetadata turn r) ≤ ar_ThroughMS r.
Proof.
  intros Hr [_ Hc]. unfold applyMetadata. destruct (ar_Final r); [done|]. destruct (_ || _); [done|].
  unfold complete. simpl. destruct (tm_CompletedAtMS turn <? ar_ThroughMS r) eqn:E; simpl; [|lia].
  bools. destruct (_ =? _); simpl; lia.
Qed.
Lemma apply_ID turn r : (ar_Final r = true → ar_ID r = tm_ID turn) → ar_ID (applyMetadata turn r) = tm_ID turn.
Proof. intros E. unfold applyMetadata. destruct (ar_Final r); [auto|]. by destruct (_ || _). Qed.

Lemma honest_valid r : honest r → ar_ID r ≠ "" → validActivityRecord r = true.
Proof.
  intros [] Hid. apply is_empty_false in Hid. unfold validActivityRecord. rewrite Hid. simpl.
  rewrite !andb_true_iff, !Z.leb_le. lia.
Qed.

(** ** Threads *)

(** A record under its identity, ended by [top]. *)
Definition recordOK (top : Z) (id : string) (r : activityTurnRecord) : Prop :=
  id ≠ "" ∧ ar_ID r = id ∧ honest r ∧ ar_ThroughMS r ≤ top.
Definition recorded (top : Z) (m : gmap string activityTurnRecord) : Prop := map_Forall (recordOK top) m.

(** An observation the loader accepts. *)
Definition boundedObservation (o : activityObservation) : Prop :=
  (size (ao_Requests o) ≤ activityPendingLimit)%nat ∧ (size (ao_ToolWaits o) ≤ activityPendingLimit)%nat ∧
  ao_SinceMS o ≤ ao_ThroughMS o.

Lemma recordOK_mono top top' id r : top ≤ top' → recordOK top id r → recordOK top' id r.
Proof. intros Hle (? & ? & ? & ?). split_and!; try done. lia. Qed.
Lemma recorded_mono top top' m : top ≤ top' → recorded top m → recorded top' m.
Proof. intros Hle Hm id r Hr. eapply recordOK_mono, Hm; done. Qed.
Lemma recorded_insert top m id r : recorded top m → recordOK top id r → recorded top (<[id := r]> m).
Proof. intros Hm Hr. by apply map_Forall_insert_2. Qed.
Lemma recorded_delete top m id : recorded top m → recorded top (delete id m).
Proof. intros Hm. by apply map_Forall_delete. Qed.
Lemma recorded_subset top m m' : m' ⊆ m → recorded top m → recorded top m'.
Proof. intros Hs Hm id r Hr. apply Hm. by eapply lookup_weaken. Qed.

Lemma size_insert_limit {V} (m : gmap string V) id v :
  (size m ≤ activityPendingLimit)%nat → is_Some (m !! id) ∨ atLimit m = false →
  (size (<[id := v]> m) ≤ activityPendingLimit)%nat.
Proof.
  intros Hs Hid. destruct (m !! id) as [x|] eqn:E.
  - rewrite map_size_insert_Some by eauto. done.
  - destruct Hid as [[? [=]]|Hl]. rewrite map_size_insert_None by done. unfold atLimit in Hl.
    apply Nat.leb_gt in Hl. lia.
Qed.
Lemma size_filter_limit {V} (P : string * V → Prop) `{∀ x, Decision (P x)} (m : gmap string V) :
  (size (filter P m) ≤ size m)%nat.
Proof. apply map_subseteq_size, map_filter_subseteq. Qed.

Section threads.
(** No clock reading is later than this. *)
Context (limit : Z).

(** The instant up to which a thread has recorded. *)
Definition topOf (t : activityThread) : Z := match at_live t with Some o => ao_ThroughMS o | None => limit end.

Record threadOK (t : activityThread) : Prop := {
  ok_turns : recorded (topOf t) (ac_Turns (at_hot t));
  ok_size : (size (ac_Turns (at_hot t)) ≤ activityPendingLimit)%nat;
  ok_live o : at_live t = Some o → boundedObservation o ∧ 0 < ao_ThroughMS o ≤ limit;
  ok_current o : ac_Current (at_hot t) = Some o → boundedObservation o;
  ok_schema : ac_Schema (at_hot t) = 1 }.

Lemma top_limit t : threadOK t → topOf t ≤ limit.
Proof. intros Ht. unfold topOf. destruct (at_live t) as [o|] eqn:E; [|done]. destruct (ok_live t Ht o E). lia. Qed.

(** Changes that leave the checkpoint alone. *)
Lemma threadOK_live t o :
  threadOK t → boundedObservation o → 0 < ao_ThroughMS o ≤ limit → recorded (ao_ThroughMS o) (ac_Turns (at_hot t)) →
  threadOK (withLive (Some o) t).
Proof. intros [] Ho Hl Hr. split; simpl; try done. by intros ? [= <-]. Qed.

Lemma threadOK_turns t f :
  threadOK t → recorded (topOf t) (f (ac_Turns (at_hot t))) → (size (f (ac_Turns (at_hot t))) ≤ activityPendingLimit)%nat →
  threadOK (withTurns f t).
Proof. intros [] Hr Hs. by split. Qed.
Lemma threadOK_signal t : threadOK t → threadOK (signalLocked t).
Proof. intros []. by split. Qed.
Lemma threadOK_current t c : threadOK t → (∀ o, c = Some o → boundedObservation o) → threadOK (withCurrent c t).
Proof. intros [] Hc. by split. Qed.

Lemma accrue_ok now t : threadOK t → now ≤ limit → threadOK (accrue now t) ∧ topOf t ≤ topOf (accrue now t).
Proof.
  intros Ht Hn. unfold accrue. destruct (at_live t) as [live|] eqn:El; [|done].
  destruct (negb (ao_Connected live)); [done|].
  destruct (ok_live t Ht live El) as [(Hb1 & Hb2 & Hb3) Hl]. pose proof (ok_turns t Ht) as Hr.
  assert (topOf t = ao_ThroughMS live) as Htop by (unfold topOf; by rewrite El). rewrite Htop in *.
  assert (∀ live' : activityObservation,
    ao_Requests live' = ao_Requests live → ao_ToolWaits live' = ao_ToolWaits live → ao_SinceMS live' = ao_SinceMS live →
    threadOK (withLive (Some (setThrough (Z.max now (ao_ThroughMS live)) live')) t)) as Hset.
  { intros live' E1 E2 E3. apply threadOK_live; [done| |simpl; lia|]; simpl.
    - unfold boundedObservation. simpl. rewrite E1, E2, E3. split_and!; [done|done|lia].
    - eapply recorded_mono, Hr. lia. }
  destruct (_ && _) eqn:Eact; [|split; [by apply Hset|unfold topOf; simpl; lia]]. bools.
  destruct (negb _ && atLimit _) eqn:Elim.
  { split; [|unfold topOf; simpl; lia]. pose proof (Hset (setActivityState "unclassified" (ao_SinceMS live) (setReady false live)) eq_refl eq_refl eq_refl) as [].
    by split. }
  set (record := default zeroRecord (ac_Turns (at_hot t) !! ao_TurnID live)) in *.
  assert (honest record ∧ ar_ThroughMS record ≤ ao_ThroughMS live) as [Hh Hthrough].
  { subst record. destruct (_ !! _) as [r|] eqn:Er; simpl; [by destruct (Hr _ _ Er) as (_ & _ & ? & ?)|].
    split; [apply honest_zero|lia]. }
  destruct (ar_Final record); [split; [by apply Hset|unfold topOf; simpl; lia]|].
  assert (ao_TurnID live ≠ "") as Hid by done.
  match goal with |- context [withTurns <[_ := ?r]>] => set (r' := r) end.
  assert (recordOK (Z.max now (ao_ThroughMS live)) (ao_TurnID live) r') as Hr'.
  { subst r'. destruct (_ <? Z.max now _) eqn:Esp; bools; simpl in Esp.
    - split_and!; [done|done| |simpl; lia]. apply honest_add; simpl; try lia. by apply (honest_same record).
    - split_and!; [done|done|by apply (honest_same record)|simpl; lia]. }
  match goal with |- context [setThrough _ ?l] => set (live' := l) end.
  assert (ao_Requests live' = ao_Requests live ∧ ao_ToolWaits live' = ao_ToolWaits live ∧ ao_SinceMS live' = ao_SinceMS live ∧
    ao_TurnID live' = ao_TurnID live) as (E1 & E2 & E3 & E4)
    by (subst live'; destruct (_ <? _), (str_eqb (ao_State live) "waiting"); done).
  pose proof (Hset live' E1 E2 E3) as [J1 J2 J3 J4 J5]. split; [|unfold topOf; simpl; lia]. split; simpl in *; try done.
  - apply recorded_insert; [exact J1|]. by rewrite E4.
  - rewrite E4. apply size_insert_limit; [done|]. apply andb_false_iff in Elim as [Elim|Elim]; [left|by right]. by bools.
Qed.

Lemma updateState_ok now t : threadOK t → now ≤ limit → threadOK (updateState now t) ∧ topOf t ≤ topOf (updateState now t).
Proof.
  intros Ht Hn. unfold updateState. destruct (at_live t) as [live|] eqn:El; [|done].
  destruct (ok_live t Ht live El) as [(Hb1 & Hb2 & Hb3) Hl]. pose proof (ok_turns t Ht) as Hr.
  assert (topOf t = ao_ThroughMS live) as Htop by (unfold topOf; by rewrite El). rewrite Htop in *.
  match goal with |- context [withLive (Some ?l)] => set (live' := l) end.
  assert (boundedObservation live' ∧ ao_ThroughMS live' = Z.max (ao_ThroughMS live) now) as [Hb Ht'].
  { subst live'. unfold boundedObservation. destruct (str_eqb _ _); simpl; split_and!; try done; lia. }
  split; [|change (ao_ThroughMS live ≤ ao_ThroughMS live'); lia].
  apply threadOK_signal, threadOK_current; [|by intros o [= <-]].
  apply threadOK_live; [done|done|lia|]. eapply recorded_mono, Hr. lia.
Qed.

(** Whether an event of this connection begins a new observation. *)
Definition opensAt (connection : string) (t : activityThread) : bool :=
  match at_live t with Some live => negb (str_eqb (ao_Connection live) connection) | None => true end.
(** The instant all of the past stays before. *)
Definition floorOf (connection : string) (now : Z) (t : activityThread) : Z :=
  if opensAt connection t then Z.min now (topOf t) else topOf t.

Lemma liveFor_ok connection now t :
  threadOK t → 0 < now ≤ limit → (opensAt connection t = true → recorded now (ac_Turns (at_hot t))) →
  threadOK (withLive (Some (liveFor connection now t)) t) ∧
  floorOf connection now t ≤ topOf (withLive (Some (liveFor connection now t)) t).
Proof.
  intros Ht Hn Hopen. unfold floorOf, opensAt, liveFor in *.
  assert (boundedObservation (freshObservation connection now)) as Hfresh.
  { unfold boundedObservation. simpl. rewrite !map_size_empty. unfold activityPendingLimit. lia. }
  destruct (at_live t) as [live|] eqn:El.
  - destruct (ok_live t Ht live El) as [Hb Hl]. destruct (str_eqb _ _); simpl in *.
    + split; [|unfold topOf; simpl; by rewrite El]. apply threadOK_live; [done|done|done|].
      pose proof (ok_turns t Ht) as Hr. unfold topOf in Hr. by rewrite El in Hr.
    + split; [|unfold topOf; simpl; lia]. apply threadOK_live; simpl; auto.
  - split; [|unfold topOf; simpl; lia]. apply threadOK_live; simpl; auto.
Qed.

Lemma connected_ok connection now t :
  threadOK t → 0 < now ≤ limit → (opensAt connection t = true → recorded now (ac_Turns (at_hot t))) →
  threadOK (connected connection now t) ∧ floorOf connection now t ≤ topOf (connected connection now t).
Proof.
  intros Ht Hn Hopen. unfold connected.
  destruct (at_closing t); [split; [done|]; unfold floorOf; destruct (opensAt _ _); lia|].
  destruct (liveFor_ok connection now t Ht Hn Hopen) as [Hok Hfl].
  assert (threadOK (withLive (Some (setConnected (liveFor connection now t))) t)) as Hok'.
  { destruct (ok_live _ Hok _ eq_refl) as [Hb Hl]. apply threadOK_live; [done|done|done|]. exact (ok_turns _ Hok). }
  destruct (updateState_ok now _ Hok') as [H1 H2]; [lia|]. split; [done|]. etrans; [exact Hfl|exact H2].
Qed.

Lemma disconnected_ok connection t : threadOK t → threadOK (disconnected connection t) ∧ topOf t ≤ topOf (disconnected connection t).
Proof.
  intros Ht. pose proof (top_limit t Ht) as Hlim. unfold disconnected. destruct (at_live t) as [live|] eqn:El; [|done].
  destruct (str_eqb _ _); [|done]. split; [|done]. destruct Ht. split; simpl; try done.
  by eapply recorded_mono.
Qed.

Lemma countItems_head thread items seen t :
  tm_ID (countItems thread items seen t) = tm_ID t ∧ tm_CompletedAtMS (countItems thread items seen t) = tm_CompletedAtMS t.
Proof.
  revert seen t. induction items as [|raw items IH]; intros seen t; simpl; [done|]. destruct (_ || _); [apply IH|].
  destruct (IH (stringValue (field "id" (objectOrNil raw)) :: seen)
    (countItem thread t (stringValue (field "id" (objectOrNil raw))) (objectOrNil raw))) as [-> ->].
  unfold countItem. by repeat (destruct (str_eqb _ _) || destruct (str_in _ _)).
Qed.
Lemma turnMetadata_ID turn thread : tm_ID (turnMetadata turn thread) = stringValue (field "id" turn).
Proof. unfold turnMetadata. by rewrite (proj1 (countItems_head _ _ _ _)). Qed.
Lemma turnMetadata_plausible turn thread : stringValue (field "id" turn) ≠ "" → plausible (turnMetadata turn thread).
Proof.
  intros Hid. split; [by rewrite turnMetadata_ID|]. unfold turnMetadata. rewrite (proj2 (countItems_head _ _ _ _)). simpl.
  pose proof (integerValue_bound (field "completedAt" turn)). lia.
Qed.

(** ** Messages *)

Definition messageOK (method : string) (p : activityParams) : Prop :=
  method = "turn/started" → stringValue (field "id" (px_Turn p)) ≠ "".

Lemma observeLive_same method id p now o :
  ao_SinceMS (observeLive method id p now o) = ao_SinceMS o ∧ ao_ThroughMS (observeLive method id p now o) = ao_ThroughMS o.
Proof. unfold observeLive. by repeat (destruct (str_eqb _ _) || destruct (atLimit _) || destruct (_ !! _) || destruct (_ && _) || destruct (_ || _)). Qed.

Lemma observeLive_bounded method id p now o : boundedObservation o → boundedObservation (observeLive method id p now o).
Proof.
  intros (H1 & H2 & H3). destruct (observeLive_same method id p now o) as [E1 E2].
  unfold boundedObservation. rewrite E1, E2. clear E1 E2.
  cut ((size (ao_Requests (observeLive method id p now o)) ≤ activityPendingLimit)%nat ∧
       (size (ao_ToolWaits (observeLive method id p now o)) ≤ activityPendingLimit)%nat); [by intros [? ?]|].
  unfold observeLive.
  destruct (str_eqb method "item/started").
  { destruct (atLimit (ao_ToolWaits o)) eqn:El; simpl; [done|]. split; [done|]. apply size_insert_limit; auto. }
  destruct (str_eqb method "item/completed"); [simpl; split; [done|]; etrans; [apply map_subseteq_size, delete_subseteq|done]|].
  destruct (str_eqb method "serverRequest/resolved"); [simpl; split; [etrans; [apply map_subseteq_size, delete_subseteq|done]|done]|].
  destruct (str_eqb method "turn/started"); [simpl; rewrite map_size_empty; split; [done|unfold activityPendingLimit; lia]|].
  destruct (str_eqb method "turn/completed").
  { destruct (str_eqb _ _); simpl; rewrite ?map_size_empty; (split; [etrans; [apply size_filter_limit|done]|done || (unfold activityPendingLimit; lia)]). }
  destruct (str_eqb method "thread/status/changed"); [by destruct (_ && _)|].
  destruct (ao_Requests o !! id) eqn:Er; [done|]. destruct (atLimit (ao_Requests o) || _) eqn:El; [done|]. bools.
  simpl. split; [|done]. apply size_insert_limit; auto.
Qed.

Lemma observeTurns_ok top method p turns :
  messageOK method p → 0 ≤ top → recorded top turns → (size turns ≤ activityPendingLimit)%nat →
  recorded top (observeTurns method p turns) ∧ (size (observeTurns method p turns) ≤ activityPendingLimit)%nat.
Proof.
  intros Hm Htop Hr Hs. unfold observeTurns. set (turnID := stringValue (field "id" (px_Turn p))).
  set (metadata := turnMetadata (px_Turn p) (px_ThreadID p)).
  assert (∀ r, turnID ≠ "" → honest r → ar_ThroughMS r ≤ top → (ar_Final r = true → ar_ID r = turnID) →
    recordOK top turnID (applyMetadata metadata r)) as Happ.
  { intros r Hid Hh Ht Hf. assert (plausible metadata) as Hp by (by apply turnMetadata_plausible).
    split_and!; [done|rewrite apply_ID; [apply turnMetadata_ID|intros Hx; rewrite (Hf Hx); symmetry; apply turnMetadata_ID]|by apply honest_apply|].
    etrans; [by apply apply_through|done]. }
  destruct (str_eqb method "turn/started") eqn:E1; bools.
  - destruct (_ || _) eqn:El; [|done]. specialize (Hm E1). split.
    + apply recorded_insert; [done|]. destruct (turns !! turnID) as [r|] eqn:Er; simpl.
      * destruct (Hr _ _ Er) as (_ & ? & ? & ?). by apply Happ.
      * apply Happ; [done|apply honest_zero|done|done].
    + apply size_insert_limit; [done|]. apply orb_true_iff in El as [El|El]; bools; [by left|by right].
  - destruct (str_eqb method "turn/completed"); [|done]. destruct (turns !! turnID) as [r|] eqn:Er; [|done].
    destruct (Hr _ _ Er) as (? & ? & ? & ?). split; [apply recorded_insert; [done|by apply Happ]|].
    apply size_insert_limit; eauto.
Qed.

Lemma boundary_limit method p now live : now ≤ limit → ao_ThroughMS live ≤ limit → boundaryOf method p now live ≤ limit.
Proof.
  intros Hn Hl. unfold boundaryOf. cbv zeta.
  destruct (str_eqb method "turn/started" && _ && _ && _ && _ && _) eqn:E1;
    [apply andb_true_iff in E1 as [_ E1%Z.leb_le]|clear E1];
    match goal with |- (if ?b then _ else _) ≤ _ => destruct b eqn:E2; [apply andb_true_iff in E2 as [_ E2%Z.ltb_lt]|] end; lia.
Qed.

Lemma mapLive_ok f t :
  threadOK t → (∀ o, boundedObservation o → boundedObservation (f o)) → (∀ o, ao_ThroughMS (f o) = ao_ThroughMS o) →
  threadOK (mapLive f t) ∧ topOf (mapLive f t) = topOf t.
Proof.
  intros Ht Hb Hth. unfold mapLive, topOf. simpl. destruct (at_live t) as [o|] eqn:El; simpl.
  - destruct (ok_live t Ht o El). split; [|done]. apply threadOK_live; [done|auto|by rewrite Hth|]. rewrite Hth.
    pose proof (ok_turns t Ht) as Hr. unfold topOf in Hr. by rewrite El in Hr.
  - split; [|done]. pose proof Ht as [H1 H2 H3 H4 H5]. split; simpl; try done. unfold topOf in *. simpl. by rewrite El in H1.
Qed.

Lemma withTurns_ok f t :
  threadOK t → (∀ m, recorded (topOf t) m → (size m ≤ activityPendingLimit)%nat →
     recorded (topOf t) (f m) ∧ (size (f m) ≤ activityPendingLimit)%nat) →
  threadOK (withTurns f t) ∧ topOf (withTurns f t) = topOf t.
Proof. intros Ht Hf. destruct (Hf _ (ok_turns t Ht) (ok_size t Ht)). split; [by apply threadOK_turns|done]. Qed.

Lemma top_positive t : threadOK t → 0 < limit → 0 < topOf t.
Proof. intros Ht Hl. unfold topOf. destruct (at_live t) as [o|] eqn:E; [|done]. destruct (ok_live t Ht o E). lia. Qed.

Lemma observe_ok connection method id params now t :
  threadOK t → 0 < now ≤ limit → (opensAt connection t = true → recorded now (ac_Turns (at_hot t))) →
  (∀ p, params = Some p → messageOK method p) →
  threadOK (observe connection method id params now t) ∧
  floorOf connection now t ≤ topOf (observe connection method id params now t).
Proof.
  intros Ht Hn Hopen Hmsg.
  assert (floorOf connection now t ≤ topOf t) as Hsame by (unfold floorOf; destruct (opensAt _ _); lia).
  unfold observe. destruct params as [p|]; [|done]. specialize (Hmsg p eq_refl).
  destruct (_ || _); [done|]. cbv zeta.
  destruct (liveFor_ok connection now t Ht Hn Hopen) as [Hok Hfl].
  set (live := liveFor connection now t) in *. set (t1 := withLive (Some live) t) in *.
  destruct (isItem method && _); [done|].
  destruct (ok_live t1 Hok live eq_refl) as [_ Hl].
  set (boundary := boundaryOf method p now live).
  assert (boundary ≤ limit) as Hb by (apply boundary_limit; lia).
  destruct (accrue_ok boundary t1 Hok Hb) as [H1 T1]. set (t2 := accrue boundary t1) in *.
  set (f := fun o => bumpRevision (observeLive method id p now o)).
  destruct (mapLive_ok f t2 H1) as [H2 T2].
  { intros o Ho. by apply observeLive_bounded. }
  { intros o. exact (proj2 (observeLive_same method id p now o)). }
  destruct (withTurns_ok (observeTurns method p) _ H2) as [H3 T3].
  { intros m Hm Hs. apply observeTurns_ok; [done| |done|done]. pose proof (top_positive _ H2). lia. }
  destruct (updateState_ok boundary _ H3 Hb) as [H4 T4].
  assert (floorOf connection now t ≤ topOf (updateState boundary (withTurns (observeTurns method p) (mapLive f t2)))) as Hfloor by lia.
  destruct (boundary <? now); [|done].
  destruct (accrue_ok now _ H4) as [H5 T5]; [lia|]. split; [|].
  - apply threadOK_current; [done|]. intros o Ho. by destruct (ok_live _ H5 o Ho).
  - change (floorOf connection now t ≤ topOf (accrue now (updateState boundary (withTurns (observeTurns method p) (mapLive f t2))))). lia.
Qed.

Lemma resolveRequest_ok connection thread request valid now t :
  threadOK t → 0 < now ≤ limit → (opensAt connection t = true → recorded now (ac_Turns (at_hot t))) →
  threadOK (resolveRequest connection thread request valid now t) ∧
  floorOf connection now t ≤ topOf (resolveRequest connection thread request valid now t).
Proof.
  intros Ht Hn Hopen. unfold resolveRequest. destruct (_ || _).
  - split; [done|]. unfold floorOf; destruct (opensAt _ _); lia.
  - apply observe_ok; try done.
Qed.

(** ** Reconciliation *)

Lemma metadataOf_ID turns id turn : metadataOf turns !! id = Some turn → tm_ID turn = id ∧ turn ∈ turns.
Proof.
  unfold metadataOf. revert turn. induction turns as [|x turns IH] using rev_ind; intros turn; [simpl; by rewrite lookup_empty|].
  rewrite foldl_app. simpl. rewrite lookup_insert_Some, elem_of_app. intros [[<- <-]|[_ H]]; [split; [done|right; by left]|].
  destruct (IH turn H). auto.
Qed.

Lemma size_imap_total {A B} (f : string → A → B) (m : gmap string A) : size (map_imap (fun k v => Some (f k v)) m) = size m.
Proof.
  rewrite <- !(size_dom (D := gset string)). f_equal. apply dom_imap_L. intros i. rewrite elem_of_dom. split.
  - intros [x Hx]. eauto.
  - intros (x & Hx & _). eauto.
Qed.
Lemma size_union_le {V} (m1 m2 : gmap string V) : (size (m1 ∪ m2) ≤ size m1 + size m2)%nat.
Proof.
  rewrite <- !(size_dom (D := gset string)), dom_union_L. rewrite size_union_alt.
  apply Nat.add_le_mono_l. apply subseteq_size. set_solver.
Qed.

(** The waits of the latest turn that are reconciled fit beside the known ones. *)
Definition roomFor (turns : list TurnMetadata) (o : activityObservation) : Prop :=
  ∀ turn, last turns = Some turn → (size (tm_AutomaticWaits turn) + size (ao_ToolWaits o) ≤ activityPendingLimit)%nat.

Lemma reconcileLive_bounded turns status o : boundedObservation o → roomFor turns o → boundedObservation (reconcileLive turns status o).
Proof.
  intros (H1 & H2 & H3) Hroom. unfold reconcileLive. unfold roomFor in Hroom.
  destruct (last turns) as [turn|]; [specialize (Hroom turn eq_refl)|].
  - destruct (str_eqb (tm_Status turn) "inProgress"); unfold boundedObservation; simpl.
    + split_and!; [etrans; [apply size_filter_limit|done]| |done]. etrans; [apply size_union_le|].
      destruct (str_eqb _ _); simpl; destruct (tm_CountsKnown turn);
        (etrans; [apply Nat.add_le_mono_l; first [apply size_filter_limit|reflexivity]|]); rewrite ?map_size_empty; unfold activityPendingLimit in *; lia.
    + rewrite map_size_empty. split_and!; [etrans; [apply size_filter_limit|done]|unfold activityPendingLimit; lia|done].
  - unfold boundedObservation; simpl. rewrite map_size_empty.
    split_and!; [etrans; [apply size_filter_limit|done]|unfold activityPendingLimit; lia|done].
Qed.
Lemma reconcileLive_through turns status o : ao_ThroughMS (reconcileLive turns status o) = ao_ThroughMS o.
Proof. unfold reconcileLive. destruct (last turns); [|done]. by destruct (str_eqb (tm_Status _) _). Qed.

Lemma recordOK_apply top id turn r :
  tm_ID turn = id → plausible turn → 0 ≤ top → r = zeroRecord ∨ recordOK top id r → recordOK top id (applyMetadata turn r).
Proof.
  intros <- Hp Htop [->|(? & Hid & Hh & Ht)].
  - destruct Hp as [Hne Hc]. split_and!; [done|by rewrite apply_ID|apply honest_apply; [apply honest_zero|done]|].
    etrans; [apply apply_through; [apply honest_zero|done]|done].
  - split_and!; [done|by rewrite apply_ID|by apply honest_apply|]. etrans; [by apply apply_through|done].
Qed.

Lemma reconcileTurns_ok top turns turnID active m :
  Forall plausible turns → 0 ≤ top → recorded top m → (size m ≤ activityPendingLimit)%nat →
  recorded top (reconcileTurns turns turnID active m) ∧ (size (reconcileTurns turns turnID active m) ≤ activityPendingLimit)%nat.
Proof.
  intros Hp Htop Hm Hs. unfold reconcileTurns. rewrite Forall_forall in Hp.
  set (m' := map_imap _ m).
  assert (recorded top m') as Hm'.
  { intros id r. subst m'. rewrite map_lookup_imap. destruct (m !! id) as [x|] eqn:Ex; [|done]. simpl. intros [= <-].
    destruct (metadataOf turns !! id) as [turn|] eqn:Et.
    - destruct (metadataOf_ID _ _ _ Et). apply recordOK_apply; auto.
    - destruct (Hm _ _ Ex) as (? & ? & ? & ?). split_and!; [done|done|by apply honest_finalise|done]. }
  assert (size m' ≤ activityPendingLimit)%nat as Hs' by (subst m'; by rewrite size_imap_total).
  destruct (metadataOf turns !! turnID) as [turn|] eqn:Et; [|done]. destruct (_ && _) eqn:Eg; [|done]. bools.
  destruct (metadataOf_ID _ _ _ Et). split.
  - apply recorded_insert; [done|]. apply recordOK_apply; auto. destruct (m' !! turnID) eqn:E; simpl; auto.
  - apply size_insert_limit; [done|]. apply orb_true_iff in H as [H|H]; bools; auto.
Qed.

Lemma accrue_waits now t o : at_live (accrue now t) = Some o → ∃ live, at_live t = Some live ∧ ao_ToolWaits o = ao_ToolWaits live.
Proof.
  unfold accrue. destruct (at_live t) as [live|] eqn:El; [|rewrite El; eauto].
  destruct (negb (ao_Connected live)); [rewrite El; eauto|]. cbv zeta.
  destruct (ao_Active live && _ && _); [|intros [= <-]; eauto]. destruct (negb (bool_decide _) && _); [intros [= <-]; eauto|].
  destruct (ar_Final _); [intros [= <-]; eauto|]. destruct (_ && str_eqb _ _); intros [= <-]; eauto.
Qed.
Lemma accrue_live now t live : at_live t = Some live → ∃ o, at_live (accrue now t) = Some o.
Proof.
  intros El. unfold accrue. rewrite El. destruct (negb (ao_Connected live)); [eauto|]. cbv zeta.
  destruct (ao_Active live && _ && _); [|simpl; eauto]. destruct (negb (bool_decide _) && _); [simpl; eauto|].
  destruct (ar_Final _); simpl; eauto.
Qed.

Lemma reconcile_ok connection turns status now rev t :
  threadOK t → 0 < now ≤ limit → Forall plausible turns → (∀ live, at_live t = Some live → roomFor turns live) →
  threadOK (reconcile connection turns status now rev t) ∧ topOf t ≤ topOf (reconcile connection turns status now rev t).
Proof.
  intros Ht Hn Hp Hroom. unfold reconcile. destruct (at_live t) as [live|] eqn:El; [|done].
  destruct (_ || _ || _); [done|]. destruct (ok_live t Ht live El) as [_ Hl]. cbv zeta.
  match goal with |- context [accrue ?b t] => set (boundary := b) end.
  assert (boundary ≤ limit) as Hb.
  { subst boundary. destruct (_ !! _) as [turn|]; [|lia]. destruct (_ && _) eqn:E; bools; lia. }
  destruct (accrue_ok boundary t Ht Hb) as [H1 T1]. set (t1 := accrue boundary t) in *.
  match goal with |- context [updateState now ?x] => set (t2 := x) end.
  cut (threadOK t2 ∧ topOf t2 = topOf t1).
  { intros [H2 T2]. destruct (updateState_ok now t2 H2) as [H3 T3]; [lia|]. split; [done|lia]. }
  subst t2. destruct (_ =? _); [|done].
  destruct (accrue_live boundary t live El) as [o Eo]. fold t1 in Eo. rewrite Eo. cbn [default].
  set (live' := reconcileLive turns status o). destruct (ok_live t1 H1 o Eo) as [Ho1 Ho2].
  assert (topOf t1 = ao_ThroughMS o) as Etop by (unfold topOf; by rewrite Eo).
  assert (roomFor turns o) as Hroom'.
  { destruct (accrue_waits _ _ _ Eo) as (live0 & E0 & E1). rewrite El in E0. injection E0 as <-. unfold roomFor. rewrite E1. by apply Hroom. }
  assert (threadOK (withLive (Some live') t1)) as H2.
  { apply threadOK_live; [done|by apply reconcileLive_bounded| |]; subst live'; rewrite reconcileLive_through; [done|].
    rewrite <- Etop. apply (ok_turns t1 H1). }
  destruct (withTurns_ok (reconcileTurns turns (ao_TurnID live') (ao_Active live')) _ H2) as [H3 T3].
  - intros m Hm Hs. apply reconcileTurns_ok; [done| |done|done]. pose proof (top_positive _ H2). lia.
  - split; [exact H3|]. etrans; [exact T3|]. rewrite Etop. exact (reconcileLive_through turns status o).
Qed.

(** ** Lifetime *)

Lemma closeLocked_ok t : threadOK t → threadOK (closeLocked t).
Proof.
  intros Ht. unfold closeLocked. apply threadOK_signal, threadOK_turns.
  - apply threadOK_current; [|done]. by destruct Ht.
  - change (topOf (withCurrent None (withClosing t))) with (topOf t). intros id r. simpl. rewrite lookup_fmap_Some.
    intros (x & <- & Hx). destruct (ok_turns t Ht _ _ Hx) as (? & ? & ? & ?).
    destruct (ar_Final x); [done|]. split_and!; [done|done|by apply honest_finalise|done].
  - simpl. rewrite map_size_fmap. apply (ok_size t Ht).
Qed.
Lemma count_ok watch by' t : threadOK t → threadOK (count watch by' t).
Proof. by intros []. Qed.
Lemma release_ok watch t : threadOK t → threadOK (release watch t).
Proof. intros Ht. unfold release. destruct (unused _); [apply closeLocked_ok|]; by apply count_ok. Qed.
Lemma retire_ok t : threadOK t → threadOK (retire t).
Proof. intros Ht. unfold retire. destruct (unused _); [by apply closeLocked_ok|done]. Qed.
Lemma closeThread_ok t : threadOK t → threadOK (closeThread t).
Proof.
  intros Ht. apply closeLocked_ok. pose proof (top_limit t Ht). destruct Ht. split; simpl; try done. by eapply recorded_mono.
Qed.

(** What was summarised has time, which ends in an earlier second than what
    follows begins; needed where that has time too. *)
Definition resumable (saved : activityTurnRecord) (current : activityTurnRecord) : Prop :=
  0 < ar_WorkingMS current + ar_WaitingMS current →
  0 < ar_FirstMS saved ∧
  (ar_TailSecondMS current < ar_FirstMS current → ar_ThroughMS saved ≤ ar_TailSecondMS current).

Lemma seed_honest saved current sequence :
  honest saved → honest current → resumable saved current → 
  0 < ar_WorkingMS current + ar_WaitingMS current → ar_ThroughMS saved < ar_FirstMS current →
  honest (mkRecord (ar_ID saved) sequence (ar_StartedAtMS saved) (ar_CompletedAtMS saved)
    (ar_WorkingMS saved + ar_WorkingMS current) (ar_WaitingMS saved + ar_WaitingMS current) (ar_FirstMS saved)
    (ar_ThroughMS current) (ar_TailSecondMS current) (ar_TailWorkMS current) (ar_TailWaitMS current) false (ar_BoundsUnknown saved)).
Proof.
  intros [] [] Hr Hsp Hlt. specialize (Hr Hsp). split; simpl; try done; try lia.
Qed.

Lemma seedCurrent_ok id saved t :
  threadOK t → recordOK (topOf t) id saved →
  resumable saved (default zeroRecord (ac_Turns (at_hot t) !! id)) →
  threadOK (seedCurrent id saved t) ∧ topOf (seedCurrent id saved t) = topOf t.
Proof.
  intros Ht (Hid & Hsid & Hh & Hth) Hres. unfold seedCurrent. cbv zeta.
  set (current := default zeroRecord _) in *.
  destruct (_ && _ && _) eqn:E1; [done|]. destruct (_ && atLimit _) eqn:E2; [done|]. split; [|done].
  assert (honest current ∧ ar_ThroughMS current ≤ topOf t ∨ current = zeroRecord) as Hcur.
  { subst current. destruct (_ !! id) as [r|] eqn:Er; [|by right]. destruct (ok_turns t Ht _ _ Er) as (_ & _ & ? & ?). by left. }
  assert (honest current) as Hhc by (destruct Hcur as [[? _]| ->]; [done|apply honest_zero]).
  apply threadOK_turns; [done| |].
  - apply recorded_insert; [apply (ok_turns t Ht)|].
    destruct (0 <? ar_WorkingMS current + ar_WaitingMS current) eqn:Esp; bools.
    + destruct Hcur as [[_ Htc]|Hz]; [|rewrite Hz in Esp; simpl in Esp; lia]. split_and!; [done|done| |done].
      apply seed_honest; auto. destruct Hhc. destruct (ac_Turns (at_hot t) !! id) as [r|] eqn:Er; [|simpl in Esp; lia].
      simpl in E1. apply andb_false_iff in E1 as [E1|E1]; bools; lia.
    + split_and!; [done|done|by apply (honest_same saved)|done].
  - apply size_insert_limit; [apply (ok_size t Ht)|]. apply andb_false_iff in E2 as [E2|E2]; [left|by right]. by bools.
Qed.

Lemma finishWrite_ok e w t : threadOK t → threadOK (finishWrite e w t) ∧ topOf (finishWrite e w t) = topOf t.
Proof.
  intros Ht. destruct e as [e|]; simpl.
  - split; [by destruct Ht|done].
  - split; [|done]. destruct Ht as [H1 H2 H3 H4 H5]. split; simpl; try done.
    + eapply recorded_subset; [apply map_filter_subseteq|]. exact H1.
    + etrans; [apply size_filter_limit|done].
Qed.

Lemma replay_turns faults d records turns t : (replay faults d records turns t).1 ⊆ turns.
Proof.
  revert turns t. induction records as [|[id r] records IH]; intros turns t; simpl; [done|].
  destruct (summary _ _ _ _) as [[saved|] t']; [|apply IH]. etrans; [apply IH|]. destruct (_ <=? _); [apply delete_subseteq|done].
Qed.
End threads.

Lemma threadOK_mono limit limit' t : limit ≤ limit' → threadOK limit t → threadOK limit' t.
Proof.
  intros Hle [H1 H2 H3 H4 H5]. split; try done.
  - unfold topOf in *. destruct (at_live t); [done|]. by eapply recorded_mono.
  - intros o Ho. destruct (H3 o Ho). split; [done|lia].
Qed.
