(* ===== verification/ActivitySystem.v ===== *)
(** * The recorder of a thread over its whole life

    The sections of [src/codex/activity_recording.go], the reads of
    [src/codex/activity_snapshot.go] and the writer of
    [src/codex/activity_store.go] interleaved in any order, with failing reads
    and writes and with the process ending and starting again at any point. *)
From S2P Require Import Prelude GoStd GoValue TurnOptions Ledger LedgerFacts Store Program Wire History Prompts Activity ActivityStore ActivityFacts.
From Stdlib Require Import String.
Open Scope Z_scope.

(** ** Sections *)

Inductive activitySection :=
| Connected (connection : string) (now : Z)
| Disconnected (connection : string)
| Observed (connection method id : string) (params : option activityParams) (now : Z)
| Resolved (connection thread request : string) (valid : bool) (now : Z)
| Reconciled (connection : string) (turns : list TurnMetadata) (status : object) (now revision : Z)
| Looked (fault : bool) (id : string)
| Seeded (fault : bool) (id : string)
| Retained (watch : bool)
| Released (watch : bool)
| Retired
| Closed.

(** [seedCurrent] for the turn in progress, from the summary it reads. *)
Definition seed (fault : bool) (d : activityDisk) (id : string) (t : activityThread) : activityThread :=
  match summary fault d id t with
  | (Some saved, t) => seedCurrent id saved t
  | (None, t) => t
  end.

Definition runSection (e : activitySection) (d : activityDisk) (t : activityThread) : activityThread :=
  match e with
  | Connected connection now => connected connection now t
  | Disconnected connection => disconnected connection t
  | Observed connection method id params now => observe connection method id params now t
  | Resolved connection thread request valid now => resolveRequest connection thread request valid now t
  | Reconciled connection turns status now revision => reconcile connection turns status now revision t
  | Looked fault id => (summary fault d id t).2
  | Seeded fault id => seed fault d id t
  | Retained watch => default t (retain watch t)
  | Released watch => release watch t
  | Retired => retire t
  | Closed => closeThread t
  end.

(** The reading of the clock a section works with. *)
Definition reading (e : activitySection) : option Z :=
  match e with
  | Connected _ now | Observed _ _ _ _ now | Resolved _ _ _ _ now | Reconciled _ _ _ now _ => Some now
  | _ => None
  end.

(** What the sections are given, so that their records stay well formed:
    - the clock reads after 1970 and, though it may be read in any order while a
      connection lasts, is not set back between two connections: an observation
      begins after everything recorded ([opensAfter]);
    - App Server starts turns and lists turns that have an identity
      ([messageOK], [plausible]);
    - the waits in progress of the latest turn fit the limit of 128 ([roomFor]);
    - a turn that was summarised is not resumed and completed within the second
      of its summary ([resumable]).
    [clock_set_back], [too_many_waits] and [resumed_within_a_second] of
    ActivityDurable.v show what the code does without them. *)
Definition opensAfter (clock : Z) (connection : string) (now : Z) (t : activityThread) : Prop :=
  opensAt connection t = true → clock ≤ now.
Definition acceptable (clock : Z) (e : activitySection) (d : activityDisk) (t : activityThread) : Prop :=
  (∀ now, reading e = Some now → 0 < now) ∧
  match e with
  | Connected connection now => opensAfter clock connection now t
  | Observed connection method _ params now =>
    opensAfter clock connection now t ∧ ∀ p, params = Some p → messageOK method p
  | Resolved connection _ _ _ now => opensAfter clock connection now t
  | Reconciled _ turns _ _ _ => Forall plausible turns ∧ ∀ live, at_live t = Some live → roomFor turns live
  | Seeded fault id =>
    ∀ saved, (summary fault d id t).1 = Some saved → resumable saved (default zeroRecord (ac_Turns (at_hot t) !! id))
  | _ => True
  end.

(** ** The whole *)

(** Where the writer is: waiting for a wake, in [writeCheckpoint], or about to
    take the mutex again. *)
Inductive writerPhase := Idle | Writing (w : writing) | Wrote (w : writing) (e : option err).

(** The clock is the latest reading used, and events are counted; the program
    has neither. *)
Record recorder := mkRecorder {
  rc_thread : activityThread; rc_disk : activityDisk; rc_phase : writerPhase; rc_clock : Z; rc_events : Z }.

(** The steps, with sections given inputs for which [given] holds. *)
Definition inputs : Type := Z → activitySection → activityDisk → activityThread → Prop.
Inductive step (given : inputs) : recorder → recorder → Prop :=
| step_load t d clock n fault faults :
  at_loaded t = false →
  step given (mkRecorder t d Idle clock n) (mkRecorder (load fault faults d t) d Idle clock (n + 1))
| step_section t d phase clock n e :
  at_loaded t = true → given clock e d t →
  step given (mkRecorder t d phase clock n)
       (mkRecorder (runSection e d t) d phase (Z.max clock (default 0 (reading e))) (n + 1))
| step_copy t d clock n :
  at_loaded t = true → at_loadError t = None →
  step given (mkRecorder t d Idle clock n) (mkRecorder t d (Writing (copyHot t)) clock (n + 1))
| step_refused t d clock n e :
  at_loaded t = true → at_loadError t = Some e →
  step given (mkRecorder t d Idle clock n) (mkRecorder t d (Wrote (copyHot t) (Some e)) clock (n + 1))
| step_summary t d clock n w id record fault w' d' t' :
  ac_Turns (wr_left w) !! id = Some record → ar_Final record = true →
  writeSummary false fault id record w d t = (Ok w', d', t') →
  step given (mkRecorder t d (Writing w) clock n) (mkRecorder t' d' (Writing w') clock (n + 1))
| step_summary_failed t d clock n w id record fault e d' t' :
  ac_Turns (wr_left w) !! id = Some record → ar_Final record = true →
  writeSummary false fault id record w d t = (Err e, d', t') →
  step given (mkRecorder t d (Writing w) clock n) (mkRecorder t' d' (Wrote w (Some e)) clock (n + 1))
| step_current t d clock n w fault e d' :
  map_Forall (fun _ r => ar_Final r = false) (ac_Turns (wr_left w)) →
  writeCurrent fault w d = (e, d') →
  step given (mkRecorder t d (Writing w) clock n) (mkRecorder t d' (Wrote w e) clock (n + 1))
| step_finish t d clock n w e :
  step given (mkRecorder t d (Wrote w e) clock n) (mkRecorder (finishWrite e w t) d Idle clock (n + 1))
| step_restart t d phase clock n :
  step given (mkRecorder t d phase clock n) (mkRecorder (newThread (ac_ThreadID (at_hot t))) d Idle clock (n + 1)).

Definition emptyDisk : activityDisk := mkDisk None ∅.
Definition started (threadID : string) : recorder := mkRecorder (newThread threadID) emptyDisk Idle 0 0.

Inductive reachable (given : inputs) (threadID : string) : recorder → Prop :=
| reachable_start : reachable given threadID (started threadID)
| reachable_step s s' : reachable given threadID s → step given s s' → reachable given threadID s'.

(** ** Well kept *)

Definition summaryOK (clock : Z) (id : string) (r : activityTurnRecord) : Prop := recordOK clock id r ∧ ar_Final r = true.
Definition checkpointOK (threadID : string) (clock : Z) (c : activityCheckpoint) : Prop :=
  ac_Schema c = 1 ∧ ac_ThreadID c = threadID ∧ (size (ac_Turns c) ≤ activityPendingLimit)%nat ∧
  recorded clock (ac_Turns c) ∧ ∀ o, ac_Current c = Some o → boundedObservation o.

Definition historyOK (clock : Z) (t : activityThread) : Prop :=
  ∀ id r, at_history t !! id = Some r → r = zeroRecord ∨ summaryOK clock id r.
Record diskOK (threadID : string) (clock : Z) (d : activityDisk) : Prop := {
  dk_turns_ok id f : dk_turns d !! id = Some f → ∃ r, f = Holds r ∧ summaryOK clock id r;
  dk_current_ok f : dk_current d = Some f → ∃ c, f = Holds c ∧ checkpointOK threadID clock c }.

Definition writingOf (phase : writerPhase) : option writing := match phase with Writing w => Some w | _ => None end.

(** The instant everything stored ends by. *)
Definition pastOf (s : recorder) : Z := topOf (rc_clock s) (rc_thread s).

Record wellKept (threadID : string) (s : recorder) : Prop := {
  wk_clock : 0 ≤ rc_clock s;
  wk_thread : threadOK (rc_clock s) (rc_thread s);
  wk_id : ac_ThreadID (at_hot (rc_thread s)) = threadID;
  wk_unloaded : at_loaded (rc_thread s) = false → at_live (rc_thread s) = None;
  wk_history : historyOK (pastOf s) (rc_thread s);
  wk_disk : diskOK threadID (pastOf s) (rc_disk s);
  wk_left w : writingOf (rc_phase s) = Some w → checkpointOK threadID (pastOf s) (wr_left w) }.

Lemma summaryOK_mono clock clock' id r : clock ≤ clock' → summaryOK clock id r → summaryOK clock' id r.
Proof. intros Hle [H1 H2]. split; [by eapply recordOK_mono|done]. Qed.
Lemma checkpointOK_mono threadID clock clock' c : clock ≤ clock' → checkpointOK threadID clock c → checkpointOK threadID clock' c.
Proof. intros Hle (? & ? & ? & ? & ?). split_and!; try done. by eapply recorded_mono. Qed.
Lemma diskOK_mono threadID clock clock' d : clock ≤ clock' → diskOK threadID clock d → diskOK threadID clock' d.
Proof.
  intros Hle [H1 H2]. split.
  - intros id f Hf. destruct (H1 id f Hf) as (r & ? & ?). exists r. split; [done|by eapply summaryOK_mono].
  - intros f Hf. destruct (H2 f Hf) as (c & ? & ?). exists c. split; [done|by eapply checkpointOK_mono].
Qed.
Lemma historyOK_mono clock clock' t : clock ≤ clock' → historyOK clock t → historyOK clock' t.
Proof. intros Hle H id r Hr. destruct (H id r Hr); [by left|right; by eapply summaryOK_mono]. Qed.

Lemma hotOK threadID clock t :
  threadOK clock t → ac_ThreadID (at_hot t) = threadID → checkpointOK threadID (topOf clock t) (at_hot t).
Proof. intros [] Hid. by split_and!. Qed.

(** ** What the sections leave alone *)

Definition frame (t : activityThread) : gmap string activityTurnRecord * string * bool * option err :=
  (at_history t, ac_ThreadID (at_hot t), at_loaded t, at_loadError t).

Lemma withCurrent_frame c t : frame (withCurrent c t) = frame t.
Proof. done. Qed.
Lemma withLive_frame o t : frame (withLive o t) = frame t.
Proof. done. Qed.
Lemma withTurns_frame f t : frame (withTurns f t) = frame t.
Proof. done. Qed.
Lemma mapLive_frame f t : frame (mapLive f t) = frame t.
Proof. done. Qed.
Lemma accrue_frame now t : frame (accrue now t) = frame t.
Proof.
  unfold accrue. destruct (at_live t) as [live|]; [|done]. destruct (negb (ao_Connected live)); [done|]. cbv zeta.
  destruct (ao_Active live && _ && _); [|done]. destruct (negb (bool_decide _) && _); [done|]. by destruct (ar_Final _).
Qed.
Lemma updateState_frame now t : frame (updateState now t) = frame t.
Proof. unfold updateState. by destruct (at_live t). Qed.
Lemma observe_frame connection method id params now t : frame (observe connection method id params now t) = frame t.
Proof.
  unfold observe. destruct params as [p|]; [|done]. destruct (_ || at_closing t); [done|]. cbv zeta.
  destruct (isItem method && _); [done|].
  destruct (_ <? now); rewrite ?withCurrent_frame, ?accrue_frame, updateState_frame, withTurns_frame, mapLive_frame, accrue_frame; done.
Qed.
Lemma reconcile_frame connection turns status now rev t : frame (reconcile connection turns status now rev t) = frame t.
Proof.
  unfold reconcile. destruct (at_live t) as [live|]; [|done]. destruct (_ || at_closing t); [done|]. cbv zeta.
  rewrite updateState_frame. destruct (_ =? rev); [|apply accrue_frame].
  rewrite withTurns_frame, withLive_frame. apply accrue_frame.
Qed.

Lemma summary_hot fault d id t : at_hot (summary fault d id t).2 = at_hot t ∧ at_live (summary fault d id t).2 = at_live t ∧
  at_loaded (summary fault d id t).2 = at_loaded t ∧ at_loadError (summary fault d id t).2 = at_loadError t.
Proof.
  unfold summary. destruct (at_history t !! id); [done|]. destruct fault; [done|]. destruct (dk_turns d !! id) as [[|r]|]; try done.
  by destruct (_ || _).
Qed.
Lemma seedCurrent_frame id saved t : frame (seedCurrent id saved t) = frame t.
Proof. unfold seedCurrent. cbv zeta. destruct (_ && _ && _); [done|]. by destruct (negb _ && _). Qed.

Lemma runSection_frame e d t :
  ac_ThreadID (at_hot (runSection e d t)) = ac_ThreadID (at_hot t) ∧ at_loaded (runSection e d t) = at_loaded t ∧
  at_loadError (runSection e d t) = at_loadError t.
Proof.
  assert (∀ t', frame t' = frame t → ac_ThreadID (at_hot t') = ac_ThreadID (at_hot t) ∧ at_loaded t' = at_loaded t ∧
    at_loadError t' = at_loadError t) as Hf by (intros t' E; unfold frame in E; injection E; auto).
  destruct e; simpl. 1-5,8-11: apply Hf.
  - unfold connected. destruct (at_closing t); [done|]. by rewrite updateState_frame.
  - unfold disconnected. destruct (at_live t); [|done]. by destruct (str_eqb _ _).
  - apply observe_frame.
  - unfold resolveRequest. destruct (_ || _); [done|]. apply observe_frame.
  - apply reconcile_frame.
  - unfold retain. by destruct (at_closing t).
  - unfold release. by destruct (unused _).
  - unfold retire. by destruct (unused _).
  - done.
  - destruct (summary_hot fault d id t) as (-> & _ & -> & ->). done.
  - unfold seed. destruct (summary_hot fault d id t) as (E1 & _ & E2 & E3). destruct (summary fault d id t) as [[saved|] t']; simpl in *.
    + rewrite <- E1, <- E2, <- E3. pose proof (seedCurrent_frame id saved t') as E. unfold frame in E. injection E. auto.
    + by rewrite E1, E2, E3.
Qed.

Lemma summary_sound threadID clock fault d id t :
  diskOK threadID clock d → historyOK clock t →
  historyOK clock (summary fault d id t).2 ∧ ∀ saved, (summary fault d id t).1 = Some saved → summaryOK clock id saved.
Proof.
  intros Hd Hh. unfold summary. destruct (at_history t !! id) as [r|] eqn:Er.
  { split; [done|]. simpl. destruct (is_empty (ar_ID r)) eqn:Ei; [done|]. intros ? [= <-]. by destruct (Hh _ _ Er) as [->|?]. }
  destruct fault; [done|]. destruct (dk_turns d !! id) as [[|r]|] eqn:Ef; [done| |].
  - destruct (dk_turns_ok _ _ _ Hd _ _ Ef) as (? & [= <-] & Hs). destruct (_ || _); [done|]. simpl.
    split; [|by intros ? [= <-]]. intros id' r'. simpl. rewrite lookup_insert_Some. intros [[<- <-]|[_ H]]; auto.
  - split; [|done]. intros id' r'. simpl. rewrite lookup_insert_Some. intros [[<- <-]|[_ H]]; auto.
Qed.

Lemma seed_history fault d id t : at_history (seed fault d id t) = at_history (summary fault d id t).2.
Proof.
  unfold seed. destruct (summary _ _ _ _) as [[saved|] t']; [|done].
  pose proof (seedCurrent_frame id saved t') as E. unfold frame in E. injection E. auto.
Qed.
Lemma runSection_history e d t :
  at_history (runSection e d t) = match e with
                                  | Looked fault id | Seeded fault id => at_history (summary fault d id t).2
                                  | _ => at_history t end.
Proof.
  assert (∀ t', frame t' = frame t → at_history t' = at_history t) as Hf by (intros t' E; unfold frame in E; injection E; auto).
  destruct e; simpl; try done. 1-5,7-9: apply Hf.
  - unfold connected. destruct (at_closing t); [done|]. by rewrite updateState_frame.
  - unfold disconnected. destruct (at_live t); [|done]. by destruct (str_eqb _ _).
  - apply observe_frame.
  - unfold resolveRequest. destruct (_ || _); [done|]. apply observe_frame.
  - apply reconcile_frame.
  - unfold retain. by destruct (at_closing t).
  - unfold release. by destruct (unused _).
  - unfold retire. by destruct (unused _).
  - apply seed_history.
Qed.

(** ** Sections keep the thread well *)

Lemma top_grows clock clock' t : threadOK clock t → clock ≤ clock' → topOf clock t ≤ topOf clock' t.
Proof. intros Ht Hle. unfold topOf. by destruct (at_live t). Qed.

Lemma threadOK_same clock t t' : at_hot t' = at_hot t → at_live t' = at_live t → threadOK clock t → threadOK clock t'.
Proof. intros E1 E2 []. split; unfold topOf in *; rewrite ?E1, ?E2; done. Qed.

Lemma floor_top clock connection now t :
  threadOK clock t → opensAfter clock connection now t → floorOf clock connection now t = topOf clock t.
Proof.
  intros Ht Ho. unfold floorOf. pose proof (top_limit _ _ Ht). unfold opensAfter in Ho.
  destruct (opensAt connection t); [|done]. specialize (Ho eq_refl). lia.
Qed.

Lemma opening_recorded clock connection now t :
  threadOK clock t → opensAfter clock connection now t → opensAt connection t = true → recorded now (ac_Turns (at_hot t)).
Proof.
  intros Ht Ho E. specialize (Ho E). eapply recorded_mono, (ok_turns _ _ Ht). pose proof (top_limit _ _ Ht). lia.
Qed.

Lemma runSection_ok threadID clock e d t :
  threadOK clock t → 0 ≤ clock → historyOK (topOf clock t) t → diskOK threadID (topOf clock t) d → acceptable clock e d t →
  threadOK (Z.max clock (default 0 (reading e))) (runSection e d t) ∧
  topOf clock t ≤ topOf (Z.max clock (default 0 (reading e))) (runSection e d t).
Proof.
  intros Ht Hc Hh Hd [Hnow Ha]. set (clock' := Z.max clock (default 0 (reading e))).
  assert (clock ≤ clock') as Hle by (subst clock'; lia).
  pose proof (threadOK_mono _ _ _ Hle Ht) as Ht'. pose proof (top_grows _ _ _ Ht Hle) as Htop.
  assert (∀ connection now, reading e = Some now → opensAfter clock connection now t →
    0 < now ≤ clock' ∧ (opensAt connection t = true → recorded now (ac_Turns (at_hot t))) ∧
    topOf clock t ≤ floorOf clock' connection now t) as Hopen.
  { intros connection now Er Ho. specialize (Hnow _ Er). split; [subst clock'; rewrite Er; simpl; lia|].
    split; [exact (opening_recorded _ _ _ _ Ht Ho)|]. rewrite <- (floor_top _ _ _ _ Ht Ho). unfold floorOf. destruct (opensAt _ _); lia. }
  destruct e; simpl in Ha |- *.
  - destruct (Hopen _ _ eq_refl Ha) as (? & ? & ?). destruct (connected_ok clock' connection now t) as [? ?]; try done. split; [done|lia].
  - destruct (disconnected_ok clock' connection t Ht') as [? ?]. split; [done|lia].
  - destruct Ha as [Ha Hm]. destruct (Hopen _ _ eq_refl Ha) as (? & ? & ?).
    destruct (observe_ok clock' connection method id params now t) as [? ?]; try done. split; [done|lia].
  - destruct (Hopen _ _ eq_refl Ha) as (? & ? & ?).
    destruct (resolveRequest_ok clock' connection thread request valid now t) as [? ?]; try done. split; [done|lia].
  - destruct Ha as [Hp Hroom]. destruct (reconcile_ok clock' connection turns status now revision t) as [? ?]; try done.
    { specialize (Hnow _ eq_refl). subst clock'. simpl. lia. }
    split; [done|lia].
  - destruct (summary_hot fault d id t) as (E1 & E2 & _). split; [by apply (threadOK_same _ t)|]. unfold topOf in *. by rewrite E2.
  - destruct (summary_hot fault d id t) as (E1 & E2 & _). destruct (summary_sound _ _ fault d id t Hd Hh) as [_ Hs].
    unfold seed. destruct (summary fault d id t) as [[saved|] t1]; simpl in *.
    + assert (threadOK clock' t1) as H1 by (by apply (threadOK_same _ t)).
      assert (topOf clock' t1 = topOf clock' t) as E3 by (unfold topOf; by rewrite E2).
      destruct (Hs _ eq_refl) as [Hr _]. destruct (seedCurrent_ok clock' id saved t1) as [H2 T2]; try done.
      * rewrite E3. by eapply recordOK_mono.
      * rewrite E1. by apply Ha.
      * split; [done|]. rewrite T2, E3. done.
    + split; [by apply (threadOK_same _ t)|]. unfold topOf in *. by rewrite E2.
  - unfold retain. destruct (at_closing t); [done|]. split; [by apply count_ok|done].
  - split; [by apply release_ok|]. unfold release. by destruct (unused _).
  - split; [by apply retire_ok|]. unfold retire. by destruct (unused _).
  - split; [by apply closeThread_ok|]. etrans; [exact Htop|]. exact (top_limit _ _ Ht').
Qed.

(** ** Starting and writing *)

Lemma replay_sound threadID top faults d records turns t :
  diskOK threadID top d → historyOK top t → historyOK top (replay faults d records turns t).2 ∧
  at_hot (replay faults d records turns t).2 = at_hot t ∧ at_live (replay faults d records turns t).2 = at_live t.
Proof.
  intros Hd. revert turns t. induction records as [|[id r] records IH]; intros turns t Hh; simpl; [done|].
  destruct (summary_sound _ _ (faults id) d id t Hd Hh) as [Hh' _]. destruct (summary_hot (faults id) d id t) as (E1 & E2 & _).
  destruct (summary (faults id) d id t) as [saved t']. simpl in *. rewrite <- E1, <- E2. by apply IH.
Qed.

Lemma loadActivityCheckpoint_ok threadID top d c :
  diskOK threadID top d → loadActivityCheckpoint None (dk_current d) threadID = Ok c → checkpointOK threadID top c.
Proof.
  intros Hd. unfold loadActivityCheckpoint. destruct (dk_current d) as [[|c']|] eqn:Ec.
  - done.
  - destruct (dk_current_ok _ _ _ Hd _ Ec) as (? & [= <-] & Hc).
    destruct (_ || _); [done|]. destruct (existsb _ _); [done|]. destruct (ac_Current c'); [destruct (_ || _); [done|]|]; by intros [= <-].
  - intros [= <-]. split_and!; simpl; try done. rewrite map_size_empty. unfold activityPendingLimit. lia.
Qed.

Lemma load_ok threadID clock fault faults d t :
  threadOK clock t → ac_ThreadID (at_hot t) = threadID → at_live t = None → historyOK (topOf clock t) t → diskOK threadID (topOf clock t) d →
  threadOK clock (load fault faults d t) ∧ historyOK (topOf clock t) (load fault faults d t) ∧
  ac_ThreadID (at_hot (load fault faults d t)) = threadID ∧ at_live (load fault faults d t) = None.
Proof.
  intros Ht Hid Hl Hh Hd. unfold load. rewrite Hid.
  assert (threadOK clock t → ∀ hot e, checkpointOK threadID (topOf clock t) hot → ∀ history,
    threadOK clock (mkThread hot hot None (at_revision t) (at_saved t) e e (at_closing t) (at_readers t) (at_watchers t) true (at_wake t) history)) as Hmk.
  { intros _ hot e (H1 & H2 & H3 & H4 & H5) history. split; simpl; try done. unfold topOf in *. by rewrite Hl in H4. }
  destruct (loadActivityCheckpoint fault (dk_current d) threadID) as [c|e] eqn:El.
  - assert (fault = None) as -> by (destruct fault; done). pose proof (loadActivityCheckpoint_ok _ _ _ _ Hd El) as (H1 & H2 & H3 & H4 & H5).
    pose proof (replay_turns faults d (map_to_list (ac_Turns c)) (ac_Turns c) t) as Hsub.
    destruct (replay_sound _ _ faults d (map_to_list (ac_Turns c)) (ac_Turns c) t Hd Hh) as (Hh' & E1 & E2).
    destruct (replay _ _ _ _ _) as [turns t']. simpl in *. rewrite E2, Hl. split_and!; try done.
    split; simpl; try done.
    + unfold topOf in *. simpl. rewrite Hl in H4. by eapply recorded_subset.
    + etrans; [by apply map_subseteq_size|done].
  - simpl. rewrite Hl. split_and!; try done. apply Hmk; [done|]. by apply hotOK.
Qed.

Lemma writeSummary_ok threadID top fault id record w d t result d' t' :
  ac_Turns (wr_left w) !! id = Some record → ar_Final record = true →
  checkpointOK threadID top (wr_left w) → diskOK threadID top d → historyOK top t →
  writeSummary false fault id record w d t = (result, d', t') →
  diskOK threadID top d' ∧ historyOK top t' ∧ at_hot t' = at_hot t ∧ at_live t' = at_live t ∧ at_loaded t' = at_loaded t ∧
  ∀ w', result = Ok w' → w' = leave (dropTurn id (wr_left w)) w ∧ checkpointOK threadID top (wr_left w').
Proof.
  intros Hr Hf Hw Hd Hh. unfold writeSummary.
  destruct (summary_sound _ _ false d id t Hd Hh) as [Hh' _]. destruct (summary_hot false d id t) as (E1 & E2 & E3 & _).
  destruct (summary false d id t) as [saved t1]. simpl in *.
  assert (checkpointOK threadID top (dropTurn id (wr_left w))) as Hleft.
  { destruct Hw as (? & ? & ? & ? & ?). split_and!; simpl; try done.
    - etrans; [apply map_subseteq_size, delete_subseteq|done].
    - by apply recorded_delete. }
  assert (summaryOK top id record) as Hrec by (split; [by apply Hw|done]).
  assert (diskOK threadID top (mkDisk (dk_current d) (<[id := Holds record]> (dk_turns d)))) as Hd'.
  { destruct Hd as [H1 H2]. split; simpl; [|done]. intros i f. rewrite lookup_insert_Some. intros [[<- <-]|[_ H]]; eauto. }
  destruct (match saved with Some _ => _ | None => _ end).
  { intros [= <- <- <-]. split_and!; try done. by intros w' [= <-]. }
  destruct fault as [|e|e]; intros [= <- <- <-]; split_and!; try done.
  - intros i r. simpl. rewrite lookup_insert_Some. intros [[<- <-]|[_ H]]; auto.
  - by intros w' [= <-].
Qed.

Lemma persist_ok threadID top c : checkpointOK threadID top c → checkpointOK threadID top (persist c).
Proof.
  intros (? & ? & ? & ? & Hc). split_and!; simpl; try done. intros o. rewrite fmap_Some. intros (o' & E & ->). exact (Hc o' E).
Qed.

Lemma step_wellKept threadID s s' : step acceptable s s' → wellKept threadID s → wellKept threadID s' ∧ pastOf s ≤ pastOf s'.
Proof.
  intros Hs [Hc Ht Hid Hun Hh Hd Hw]. destruct Hs; simpl in *; unfold pastOf in *; simpl in *.
  - destruct (load_ok threadID clock fault faults d t) as (H1 & H2 & H3 & H4); auto.
    assert (topOf clock (load fault faults d t) = topOf clock t) as Et by (unfold topOf; by rewrite H4, Hun).
    split; [|by rewrite Et]. split; unfold pastOf; simpl; rewrite ?Et; try done.
  - destruct (runSection_ok threadID clock e d t) as [H1 H2]; try done.
    destruct (runSection_frame e d t) as (E1 & E2 & _). split; [|done]. split; unfold pastOf; simpl; try done.
    + lia.
    + by rewrite E1.
    + rewrite E2. congruence.
    + intros i r. rewrite runSection_history.
      intros Hr. cut (r = zeroRecord ∨ summaryOK (topOf clock t) i r); [intros [?|?]; [by left|right; by eapply summaryOK_mono]|].
      destruct e; try (by apply Hh); by eapply (proj1 (summary_sound _ _ _ _ _ _ Hd Hh)).
    + by eapply diskOK_mono.
    + intros w Hw'. eapply checkpointOK_mono, Hw, Hw'. done.
  - split; [|done]. split; try done. intros w [= <-]. by apply hotOK.
  - split; [|done]. by split.
  - destruct (writeSummary_ok _ _ _ _ _ _ _ _ _ _ _ H H0 (Hw w eq_refl) Hd Hh H1) as (G1 & G2 & G3 & G4 & G5 & G6).
    assert (topOf clock t' = topOf clock t) as Et by (unfold topOf; by rewrite G4). rewrite <- Et in *.
    split; [|done]. split; simpl; try done; [by apply (threadOK_same _ t)|by rewrite G3|rewrite G4, G5; exact Hun|unfold pastOf; simpl; by rewrite Et..|].
    intros w'' [= <-]. by apply G6.
  - destruct (writeSummary_ok _ _ _ _ _ _ _ _ _ _ _ H H0 (Hw w eq_refl) Hd Hh H1) as (G1 & G2 & G3 & G4 & G5 & G6).
    assert (topOf clock t' = topOf clock t) as Et by (unfold topOf; by rewrite G4). rewrite <- Et in *.
    split; [|done]. split; simpl; try done; [by apply (threadOK_same _ t)|by rewrite G3|by rewrite G4, G5].
  - split; [|done]. split; simpl; try done. unfold pastOf. simpl.
    assert (diskOK threadID (topOf clock t) (mkDisk (Some (Holds (persist (wr_left w)))) (dk_turns d))) as Hd'.
    { destruct Hd as [D1 D2]. split; simpl; [done|]. intros f [= <-]. exists (persist (wr_left w)). split; [done|]. by apply persist_ok, Hw. }
    unfold writeCurrent in H0. destruct fault; injection H0 as <- <-; done.
  - destruct (finishWrite_ok clock e w t Ht) as [H1 H2]. rewrite <- H2 in *. split; [|done].
    split; simpl; try done; unfold pastOf; simpl; try (by destruct e).
  - pose proof (top_limit _ _ Ht). split; [|done]. unfold pastOf in *. split; simpl; try done; unfold pastOf, topOf; simpl.
    + split; simpl; try done. rewrite map_size_empty. unfold activityPendingLimit. lia.
    + by eapply diskOK_mono.
Qed.

Lemma reachable_wellKept threadID s : reachable acceptable threadID s → wellKept threadID s.
Proof.
  induction 1 as [|s s' _ IH Hs].
  - split; simpl; try done; unfold pastOf; simpl.
    split; simpl; try done. rewrite map_size_empty. unfold activityPendingLimit. lia.
  - by destruct (step_wellKept threadID s s' Hs IH).
Qed.

(** ** Reading back *)

Lemma recordOK_valid top id r : recordOK top id r → str_eqb id (ar_ID r) = true ∧ validActivityRecord r = true.
Proof. intros (Hid & <- & Hh & _). split; [by rewrite str_eqb_refl|by apply honest_valid]. Qed.

Lemma checkpointOK_loads threadID top c :
  checkpointOK threadID top c → loadActivityCheckpoint None (Some (Holds c)) threadID = Ok c.
Proof.
  intros (H1 & H2 & H3 & H4 & H5). unfold loadActivityCheckpoint. rewrite H1, H2, str_eqb_refl. simpl.
  rewrite (proj2 (Nat.ltb_ge _ _) H3).
  destruct (existsb _ _) eqn:E.
  { apply existsb_exists in E as ([id r] & Hin & E). apply list_elem_of_In, elem_of_map_to_list in Hin.
    destruct (recordOK_valid _ _ _ (H4 _ _ Hin)) as [E1 E2]. simpl in E. by rewrite E1, E2 in E. }
  destruct (ac_Current c) as [o|] eqn:Ec; [|done]. destruct (H5 o eq_refl) as (Hr & Hw & Ht).
  rewrite (proj2 (Nat.ltb_ge _ _) Hr), (proj2 (Nat.ltb_ge _ _) Hw), (proj2 (Z.ltb_ge _ _) Ht). done.
Qed.

Lemma summary_reads top d id r t :
  at_history t !! id = None → dk_turns d !! id = Some (Holds r) → summaryOK top id r → (summary false d id t).1 = Some r.
Proof.
  intros Hh Hr [(Hne & Hid & Hho & Hth) Hf]. unfold summary. rewrite Hh, Hr, Hid, str_eqb_refl, Hf. simpl.
  rewrite honest_valid; [done|done|by rewrite Hid].
Qed.

(** Whatever happened to the recorder of a thread, down to failed and
    half-finished writes and ended processes, what is on disk is accepted when the
    thread is next recorded: the checkpoint loads and every summary is found. *)
Theorem activity_readable threadID s :
  reachable acceptable threadID s →
  (∃ c, loadActivityCheckpoint None (dk_current (rc_disk s)) threadID = Ok c) ∧
  ∀ id f, dk_turns (rc_disk s) !! id = Some f →
    ∃ r, f = Holds r ∧ (summary false (rc_disk s) id (newThread threadID)).1 = Some r.
Proof.
  intros Hr. apply reachable_wellKept in Hr as [Hc Ht Hid Hun Hh Hd Hw]. split.
  - destruct (dk_current (rc_disk s)) as [f|] eqn:E; [|by eexists]. destruct (dk_current_ok _ _ _ Hd _ E) as (c & -> & Hok).
    exists c. by eapply checkpointOK_loads.
  - intros id f Hf. destruct (dk_turns_ok _ _ _ Hd _ _ Hf) as (r & -> & Hok). exists r. split; [done|]. by eapply summary_reads.
Qed.

(** The records the recorder has, in memory and on disk. *)
Inductive hasRecord (s : recorder) (id : string) (r : activityTurnRecord) : Prop :=
| has_hot : ac_Turns (at_hot (rc_thread s)) !! id = Some r → hasRecord s id r
| has_summary : dk_turns (rc_disk s) !! id = Some (Holds r) → hasRecord s id r
| has_current c : dk_current (rc_disk s) = Some (Holds c) → ac_Turns c !! id = Some r → hasRecord s id r.

