(* ===== verification/ActivityDurable.v ===== *)
(** * What is recorded once is never lost

    Each change of a turn's record raises its sequence number, and the writer
    uses it to tell which of two copies is the newer. Over every interleaving of
    sections, writes, failures and restarts, what a restart would restore of a
    turn never becomes older, and what a finished write covered is restored. *)
From S2P Require Import Prelude GoStd GoValue TurnOptions Ledger LedgerFacts Store Program Wire History Prompts Activity ActivityStore ActivityFacts ActivitySystem.
From Stdlib Require Import String.
Open Scope Z_scope.

(** ** Sequence numbers *)

Definition seqs (N : Z) (m : gmap string activityTurnRecord) : Prop := map_Forall (fun _ r => 0 ≤ ar_Sequence r ≤ N) m.
Definition keeps (m m' : gmap string activityTurnRecord) : Prop :=
  ∀ id r, m !! id = Some r → ∃ r', m' !! id = Some r' ∧ ar_Sequence r ≤ ar_Sequence r'.
Definition grown (k N : Z) (m m' : gmap string activityTurnRecord) : Prop := seqs (N + k) m' ∧ keeps m m'.

#[global] Instance keeps_preorder : PreOrder keeps.
Proof.
  split.
  - intros m id r Hr. exists r. split; [done|lia].
  - intros m1 m2 m3 H1 H2 id r Hr. destruct (H1 _ _ Hr) as (r2 & E2 & ?). destruct (H2 _ _ E2) as (r3 & E3 & ?).
    exists r3. split; [done|lia].
Qed.

Lemma seqs_mono N N' m : N ≤ N' → seqs N m → seqs N' m.
Proof. intros Hle H id r Hr. specialize (H id r Hr). simpl in H. lia. Qed.
Lemma seqs_subset N m m' : m' ⊆ m → seqs N m → seqs N m'.
Proof. intros Hs H id r Hr. apply (H id r). by eapply lookup_weaken. Qed.
Lemma grown_refl k N m : 0 ≤ k → seqs N m → grown k N m m.
Proof. intros Hk H. split; [eapply seqs_mono, H; lia|reflexivity]. Qed.
Lemma grown_trans k1 k2 N m1 m2 m3 : grown k1 N m1 m2 → grown k2 (N + k1) m2 m3 → grown (k1 + k2) N m1 m3.
Proof. intros [_ H1] [H2 H3]. split; [by rewrite Z.add_assoc|by etrans]. Qed.
Lemma grown_mono k k' N m m' : k ≤ k' → grown k N m m' → grown k' N m m'.
Proof. intros Hle [H1 H2]. split; [eapply seqs_mono, H1; lia|done]. Qed.

Lemma grown_insert k N m id r :
  0 ≤ k → seqs N m → 0 ≤ ar_Sequence r ≤ N + k → (∀ x, m !! id = Some x → ar_Sequence x ≤ ar_Sequence r) →
  grown k N m (<[id := r]> m).
Proof.
  intros Hk Hm Hr Hx. split.
  - intros i x. rewrite lookup_insert_Some. intros [[<- <-]|[_ H]]; [done|]. specialize (Hm _ _ H). simpl in *. lia.
  - intros i x Hi. destruct (decide (id = i)) as [<-|Hne].
    + exists r. split; [by rewrite lookup_insert_eq|auto].
    + exists x. split; [by rewrite lookup_insert_ne|lia].
Qed.

(** A change of a record that raises its sequence by at most one. *)
Definition raises (f : activityTurnRecord → activityTurnRecord) : Prop :=
  ∀ r, 0 ≤ ar_Sequence r → ar_Sequence r + 1 < 2 ^ 64 → ar_Sequence r ≤ ar_Sequence (f r) ≤ ar_Sequence r + 1.

Lemma add_raises state from to : raises (add state from to).
Proof. intros r H1 H2. simpl. rewrite u64_id by lia. lia. Qed.
Lemma finalise_raises : raises finalise.
Proof. intros r H1 H2. simpl. rewrite u64_id by lia. lia. Qed.
Lemma apply_raises turn : raises (applyMetadata turn).
Proof.
  intros r H1 H2. unfold applyMetadata. destruct (ar_Final r); [lia|].
  destruct (_ || _); simpl; rewrite u64_id by lia; lia.
Qed.

Lemma raises_insert f N m id :
  raises f → seqs N m → 0 ≤ N → N + 1 < 2 ^ 64 → grown 1 N m (<[id := f (default zeroRecord (m !! id))]> m).
Proof.
  intros Hf Hm HN Hlt. destruct (m !! id) as [r|] eqn:E; simpl.
  - pose proof (Hm _ _ E) as Hr. simpl in Hr. destruct (Hf r); [lia..|]. apply grown_insert; [lia|done|lia|].
    intros x. rewrite E. intros [= <-]. lia.
  - destruct (Hf zeroRecord); simpl in *; [lia..|]. apply grown_insert; [lia|done|lia|]. by rewrite E.
Qed.
Lemma raises_all (f : string → activityTurnRecord → activityTurnRecord) N m :
  (∀ id, raises (f id)) → seqs N m → N + 1 < 2 ^ 64 → grown 1 N m (map_imap (fun id r => Some (f id r)) m).
Proof.
  intros Hf Hm Hlt. split.
  - intros id r. rewrite map_lookup_imap. destruct (m !! id) as [x|] eqn:E; [|done]. intros [= <-].
    pose proof (Hm _ _ E) as Hx. simpl in Hx. destruct (Hf id x); lia.
  - intros id r Hr. exists (f id r). rewrite map_lookup_imap, Hr. split; [done|].
    pose proof (Hm _ _ Hr) as Hx. simpl in Hx. destruct (Hf id r); lia.
Qed.

(** ** Sections raise sequence numbers *)

Definition hotTurns (t : activityThread) : gmap string activityTurnRecord := ac_Turns (at_hot t).

Lemma accrue_grown N now t : seqs N (hotTurns t) → 0 ≤ N → N + 1 < 2 ^ 64 → grown 1 N (hotTurns t) (hotTurns (accrue now t)).
Proof.
  intros Hm HN Hlt. pose proof (grown_refl 1 N _ ltac:(lia) Hm) as Hsame. unfold accrue.
  destruct (at_live t) as [live|]; [|done]. destruct (negb (ao_Connected live)); [done|]. cbv zeta.
  destruct (ao_Active live && _ && _); [|done]. destruct (negb (bool_decide _) && _); [done|].
  destruct (ar_Final _) eqn:Ef; [done|]. unfold hotTurns in *. simpl.
  match goal with |- grown _ _ _ (<[?id := ?r]> _) => set (r' := r); set (i := id) end.
  assert (i = ao_TurnID live) as -> by (subst i; by destruct (_ && str_eqb _ _)).
  set (record := default zeroRecord (ac_Turns (at_hot t) !! ao_TurnID live)) in *.
  assert (0 ≤ ar_Sequence record ≤ N) as Hr.
  { subst record. destruct (_ !! _) as [r|] eqn:E; simpl; [by apply (Hm _ _ E)|lia]. }
  assert (ar_Sequence record ≤ ar_Sequence r' ≤ ar_Sequence record + 1) as Hr'.
  { subst r'. destruct (_ <? _); simpl; rewrite ?u64_id by lia; lia. }
  apply grown_insert; [lia|done|lia|]. intros x Hx. subst record. rewrite Hx in Hr'. simpl in Hr'. lia.
Qed.

Lemma observeTurns_grown N method p m : seqs N m → 0 ≤ N → N + 1 < 2 ^ 64 → grown 1 N m (observeTurns method p m).
Proof.
  intros Hm HN Hlt. pose proof (grown_refl 1 N _ ltac:(lia) Hm) as Hsame. unfold observeTurns. cbv zeta.
  set (id := stringValue (field "id" (px_Turn p))).
  pose proof (raises_insert _ N m id (apply_raises (turnMetadata (px_Turn p) (px_ThreadID p))) Hm HN Hlt) as Hi.
  destruct (str_eqb method "turn/started"); [by destruct (_ || _)|].
  destruct (str_eqb method "turn/completed"); [|done]. by destruct (m !! id).
Qed.

Lemma reconcileTurns_grown N turns turnID active m :
  seqs N m → 0 ≤ N → N + 2 < 2 ^ 64 → grown 2 N m (reconcileTurns turns turnID active m).
Proof.
  intros Hm HN Hlt. unfold reconcileTurns.
  pose proof (raises_all (fun id r => match metadataOf turns !! id with Some turn => applyMetadata turn r | None => finalise r end) N m)
    as [H1 H2]; [|done|lia|].
  { intros id. destruct (_ !! id); [apply apply_raises|apply finalise_raises]. }
  set (m' := map_imap _ m) in *. assert (grown 2 N m m') as Hall by (eapply grown_mono, conj; [|done|done]; lia).
  destruct (metadataOf turns !! turnID) as [turn|]; [|done]. destruct (_ && _); [|done].
  apply (grown_trans 1 1 N m m'); [done|]. apply raises_insert; [apply apply_raises|done|lia|lia].
Qed.

Lemma updateState_turns now t : hotTurns (updateState now t) = hotTurns t.
Proof. unfold updateState. by destruct (at_live t). Qed.

Lemma observe_grown N connection method id params now t :
  seqs N (hotTurns t) → 0 ≤ N → N + 3 < 2 ^ 64 →
  grown 3 N (hotTurns t) (hotTurns (observe connection method id params now t)).
Proof.
  intros Hm HN Hlt. pose proof (grown_refl 3 N _ ltac:(lia) Hm) as Hsame. unfold observe.
  destruct params as [p|]; [|done]. destruct (_ || at_closing t); [done|]. cbv zeta. destruct (isItem method && _); [done|].
  set (t1 := withLive _ t). set (b := boundaryOf _ _ _ _).
  pose proof (accrue_grown N b t1 Hm HN ltac:(lia)) as H1. set (t2 := accrue b t1) in *.
  pose proof (observeTurns_grown (N + 1) method p (hotTurns t2) (proj1 H1) ltac:(lia) ltac:(lia)) as H2.
  pose proof (grown_trans _ _ _ _ _ _ H1 H2) as H3. replace (1 + 1) with 2 in H3 by lia.
  set (t3 := withTurns _ _). change (observeTurns method p (hotTurns t2)) with (hotTurns t3) in *.
  destruct (b <? now).
  - pose proof (accrue_grown (N + 2) now (updateState b t3)) as H4. rewrite updateState_turns in H4.
    specialize (H4 (proj1 H3) ltac:(lia) ltac:(lia)). exact (grown_trans 2 1 N _ _ _ H3 H4).
  - rewrite updateState_turns. eapply grown_mono, H3. lia.
Qed.

Lemma reconcile_grown N connection turns status now rev t :
  seqs N (hotTurns t) → 0 ≤ N → N + 3 < 2 ^ 64 →
  grown 3 N (hotTurns t) (hotTurns (reconcile connection turns status now rev t)).
Proof.
  intros Hm HN Hlt. pose proof (grown_refl 3 N _ ltac:(lia) Hm) as Hsame. unfold reconcile.
  destruct (at_live t) as [live|]; [|done]. destruct (_ || at_closing t); [done|]. cbv zeta. rewrite updateState_turns.
  match goal with |- context [accrue ?x t] => set (b := x) end.
  pose proof (accrue_grown N b t Hm HN ltac:(lia)) as H1. set (t1 := accrue b t) in *.
  destruct (_ =? rev); [|eapply grown_mono, H1; lia].
  apply (grown_trans 1 2 N _ _ _ H1). apply reconcileTurns_grown; [apply H1|lia|lia].
Qed.

Lemma closeLocked_grown N t : seqs N (hotTurns t) → N + 1 < 2 ^ 64 → grown 1 N (hotTurns t) (hotTurns (closeLocked t)).
Proof.
  intros Hm Hlt. unfold closeLocked, hotTurns. simpl.
  assert (raises (fun r => if ar_Final r then r else finalise r)) as Hf.
  { intros r H1 H2. destruct (ar_Final r); [lia|by apply finalise_raises]. }
  replace (_ <$> ac_Turns (at_hot t)) with (map_imap (fun _ r => Some (if ar_Final r then r else finalise r)) (ac_Turns (at_hot t))).
  - by apply (raises_all (fun _ r => if ar_Final r then r else finalise r)).
  - apply map_eq. intros i. rewrite map_lookup_imap, lookup_fmap. by destruct (_ !! i).
Qed.

Lemma seedCurrent_grown N id saved t :
  seqs N (hotTurns t) → 0 ≤ ar_Sequence saved ≤ N → N + 1 < 2 ^ 64 →
  grown 1 N (hotTurns t) (hotTurns (seedCurrent id saved t)).
Proof.
  intros Hm Hs Hlt. pose proof (grown_refl 1 N _ ltac:(lia) Hm) as Hsame. unfold seedCurrent, hotTurns in *. cbv zeta.
  destruct (_ && _ && _); [done|]. destruct (negb _ && _); [done|]. simpl.
  set (current := default zeroRecord (ac_Turns (at_hot t) !! id)).
  assert (0 ≤ ar_Sequence current ≤ N) as Hc.
  { subst current. destruct (_ !! id) as [r|] eqn:E; simpl; [by apply (Hm _ _ E)|lia]. }
  apply grown_insert; simpl; [lia|done| |]; rewrite u64_id by lia; [lia|].
  intros x Hx. subst current. rewrite Hx. simpl. lia.
Qed.

Lemma runSection_grown N e d t :
  seqs N (hotTurns t) → (∀ fault id saved, (summary fault d id t).1 = Some saved → 0 ≤ ar_Sequence saved ≤ N) →
  0 ≤ N → N + 3 < 2 ^ 64 → grown 3 N (hotTurns t) (hotTurns (runSection e d t)).
Proof.
  intros Hm Hsum HN Hlt. pose proof (grown_refl 3 N _ ltac:(lia) Hm) as Hsame.
  assert (∀ t', hotTurns t' = hotTurns t → grown 3 N (hotTurns t) (hotTurns (closeLocked t'))) as Hclose.
  { intros t' E. rewrite <- E. eapply grown_mono, closeLocked_grown; [lia|by rewrite E|lia]. }
  destruct e; simpl.
  - unfold connected. destruct (at_closing t); [done|]. by rewrite updateState_turns.
  - unfold disconnected. destruct (at_live t); [|done]. by destruct (str_eqb _ _).
  - by apply observe_grown.
  - unfold resolveRequest. destruct (_ || _); [done|]. by apply observe_grown.
  - by apply reconcile_grown.
  - unfold hotTurns. by rewrite (proj1 (summary_hot fault d id t)).
  - unfold seed. pose proof (proj1 (summary_hot fault d id t)) as E. specialize (Hsum fault id).
    destruct (summary fault d id t) as [[saved|] t']; simpl in *; [|unfold hotTurns; by rewrite E].
    eapply grown_mono; [|assert (hotTurns t = hotTurns t') as -> by (unfold hotTurns; by rewrite E); apply (seedCurrent_grown N)]; try lia.
    + unfold hotTurns. by rewrite E.
    + auto.
  - unfold retain. by destruct (at_closing t).
  - unfold release. destruct (unused _); [by apply Hclose|done].
  - unfold retire. destruct (unused _); [by apply Hclose|done].
  - by apply Hclose.
Qed.

(** ** Which copy is the newest *)

(** The sequence of a turn's record in a map, on disk as a summary, and on disk
    in the checkpoint; -1 where there is none. *)
Definition seqOf (m : gmap string activityTurnRecord) (id : string) : Z :=
  match m !! id with Some r => ar_Sequence r | None => -1 end.
Definition onDisk (d : activityDisk) (id : string) : Z :=
  match dk_turns d !! id with Some (Holds r) => ar_Sequence r | _ => -1 end.
Definition currentTurns (d : activityDisk) : gmap string activityTurnRecord :=
  match dk_current d with Some (Holds c) => ac_Turns c | _ => ∅ end.
Definition inCurrent (d : activityDisk) (id : string) : Z := seqOf (currentTurns d) id.

(** What a restart restores of a turn: its sequence in the checkpoint after
    loading, or in the summary a lookup finds. *)
Definition restored (threadID : string) (d : activityDisk) (id : string) : Z :=
  Z.max (seqOf (hotTurns (load None (fun _ => false) d (newThread threadID))) id)
        (match (summary false d id (newThread threadID)).1 with Some r => ar_Sequence r | None => -1 end).

Lemma seqOf_keeps N m m' id : seqs N m' → keeps m m' → seqOf m id ≤ seqOf m' id.
Proof.
  intros Hs Hk. unfold seqOf. destruct (m !! id) as [r|] eqn:E.
  - destruct (Hk _ _ E) as (r' & -> & ?). done.
  - destruct (m' !! id) as [r'|] eqn:E'; [|done]. specialize (Hs _ _ E'). simpl in Hs. lia.
Qed.
Lemma seqOf_bound N m id : seqs N m → 0 ≤ N → -1 ≤ seqOf m id ≤ N.
Proof. intros Hs HN. unfold seqOf. destruct (m !! id) as [r|] eqn:E; [specialize (Hs _ _ E); simpl in Hs|]; lia. Qed.
Lemma seqOf_subset N m m' id : seqs N m → m' ⊆ m → seqOf m' id ≤ seqOf m id.
Proof. intros Hs Hk. eapply seqOf_keeps; [done|]. intros i r Hi. exists r. split; [by eapply lookup_weaken|lia]. Qed.
Lemma seqOf_Some m id r : m !! id = Some r → seqOf m id = ar_Sequence r.
Proof. unfold seqOf. by intros ->. Qed.

(** A thread that looked up summaries knows them as they are on disk. *)
Definition fresh (d : activityDisk) (t : activityThread) (id : string) : Prop :=
  ∀ h, at_history t !! id = Some h → onDisk d id ≤ ar_Sequence h.
Definition truthful (d : activityDisk) (t : activityThread) : Prop :=
  ∀ id h, at_history t !! id = Some h → h = zeroRecord ∨ 0 ≤ ar_Sequence h ≤ onDisk d id.
(** From one thread to the next, the summaries known are at most joined by such as are. *)
Definition learns (d : activityDisk) (t t' : activityThread) : Prop :=
  ∀ id h, at_history t' !! id = Some h →
    at_history t !! id = Some h ∨ onDisk d id ≤ ar_Sequence h ∧ (h = zeroRecord ∨ 0 ≤ ar_Sequence h ≤ onDisk d id).

Lemma learns_refl d t t' : at_history t' = at_history t → learns d t t'.
Proof. intros E id h. rewrite E. by left. Qed.
Lemma learns_trans d t1 t2 t3 : learns d t1 t2 → learns d t2 t3 → learns d t1 t3.
Proof. intros H1 H2 id h Hh. destruct (H2 _ _ Hh); auto. Qed.
Lemma learns_truthful d t t' : learns d t t' → truthful d t → truthful d t'.
Proof. intros Hl Ht id h Hh. destruct (Hl _ _ Hh) as [?|[_ ?]]; auto. Qed.
Lemma learns_fresh d t t' id : learns d t t' → fresh d t id → fresh d t' id.
Proof. intros Hl Ht h Hh. destruct (Hl _ _ Hh) as [?|[? _]]; auto. Qed.
(** What is known to be stale is covered elsewhere. *)
Definition covered (d : activityDisk) (t : activityThread) (m : gmap string activityTurnRecord) : Prop :=
  ∀ id, inCurrent d id ≤ Z.max (seqOf m id) (onDisk d id) ∧ (fresh d t id ∨ onDisk d id ≤ seqOf m id).
Lemma learns_covered d t t' m : learns d t t' → covered d t m → covered d t' m.
Proof. intros Hl Hc id. destruct (Hc id) as [? [?|?]]; split; auto. left. by eapply learns_fresh. Qed.
Lemma covered_grow N d t m m' : seqs N m' → keeps m m' → covered d t m → covered d t m'.
Proof.
  intros Hs Hk Hc id. destruct (Hc id) as [H1 H2]. pose proof (seqOf_keeps _ _ _ id Hs Hk).
  split; [lia|]. destruct H2; [by left|right; lia].
Qed.

Definition diskSeqs (N : Z) (d : activityDisk) : Prop := seqs N (currentTurns d) ∧ ∀ id r, dk_turns d !! id = Some (Holds r) → 0 ≤ ar_Sequence r ≤ N.
Lemma onDisk_bound N d id : diskSeqs N d → 0 ≤ N → -1 ≤ onDisk d id ≤ N.
Proof. intros [_ Hs] HN. unfold onDisk. destruct (dk_turns d !! id) as [[|r]|] eqn:E; [lia|specialize (Hs _ _ E)|]; lia. Qed.

(** A lookup returns what is cached, or reads and caches what is on disk. *)
Lemma summary_learns threadID top N fault d id t :
  diskOK threadID top d → diskSeqs N d → learns d t (summary fault d id t).2.
Proof.
  intros Hd Hs. unfold summary. destruct (at_history t !! id) as [r|] eqn:Er; [by apply learns_refl|].
  destruct fault; [by apply learns_refl|].
  destruct (dk_turns d !! id) as [[|r]|] eqn:Ef; [by apply learns_refl| |].
  - destruct (_ || _); [by apply learns_refl|]. intros i h. simpl. rewrite lookup_insert_Some.
    intros [[<- <-]|[_ H]]; [right|by left]. unfold onDisk. rewrite Ef. destruct Hs as [_ Hs]. specialize (Hs _ _ Ef). split; [lia|right; lia].
  - intros i h. simpl. rewrite lookup_insert_Some. intros [[<- <-]|[_ H]]; [right|by left].
    unfold onDisk. rewrite Ef. split; [simpl; lia|by left].
Qed.
Lemma summary_value threadID top N fault d id t saved :
  diskOK threadID top d → diskSeqs N d → truthful d t → (summary fault d id t).1 = Some saved →
  0 ≤ ar_Sequence saved ≤ onDisk d id ∧ at_history (summary fault d id t).2 !! id = Some saved.
Proof.
  intros Hd Hs Ht. unfold summary. destruct (at_history t !! id) as [r|] eqn:Er; simpl.
  - destruct (is_empty (ar_ID r)) eqn:Ei; [done|]. intros [= <-]. by destruct (Ht _ _ Er) as [->|?].
  - destruct fault; [done|]. destruct (dk_turns d !! id) as [[|r]|] eqn:Ef; [done| |done].
    destruct (_ || _); [done|]. simpl. intros [= <-]. rewrite lookup_insert_eq. unfold onDisk. rewrite Ef.
    destruct Hs as [_ Hs]. specialize (Hs _ _ Ef). split; [lia|done].
Qed.
(** When nothing fails the answer is what the thread knows of the turn from then on. *)
Lemma summary_none threadID top d id t :
  diskOK threadID top d → (summary false d id t).1 = None →
  ∃ h, at_history (summary false d id t).2 !! id = Some h ∧ is_empty (ar_ID h) = true.
Proof.
  intros Hd. unfold summary. destruct (at_history t !! id) as [r|] eqn:Er; simpl.
  - destruct (is_empty (ar_ID r)) eqn:Ei; [|done]. eauto.
  - destruct (dk_turns d !! id) as [[|r]|] eqn:Ef.
    + by destruct (dk_turns_ok _ _ _ Hd _ _ Ef) as (? & ? & _).
    + destruct (dk_turns_ok _ _ _ Hd _ _ Ef) as (? & [= <-] & [(Hne & Hid & Hho & Hth) Hf]).
      rewrite Hid, str_eqb_refl, Hf, honest_valid by (by rewrite ?Hid). done.
    + intros _. exists zeroRecord. simpl. by rewrite lookup_insert_eq.
Qed.

(** ** Starting *)

Lemma replay_covers threadID top N faults d records turns t :
  diskOK threadID top d → diskSeqs N d → truthful d t → NoDup records.*1 →
  (∀ id r, (id, r) ∈ records → turns !! id = Some r) → 
  let result := replay faults d records turns t in
  learns d t result.2 ∧ ∀ id, seqOf turns id ≤ Z.max (seqOf result.1 id) (onDisk d id).
Proof.
  intros Hd Hs. simpl. revert turns t. induction records as [|[i r] records IH]; intros turns t Ht Hnd Hrec; simpl.
  { split; [by apply learns_refl|lia]. }
  rewrite fmap_cons in Hnd. apply NoDup_cons in Hnd as [Hi Hnd]. simpl in Hi.
  pose proof (summary_learns _ _ _ (faults i) d i t Hd Hs) as Hl.
  pose proof (fun saved => summary_value _ _ _ (faults i) d i t saved Hd Hs Ht) as Hv.
  destruct (summary (faults i) d i t) as [saved t'] eqn:Esum. simpl in *.
  pose proof (learns_truthful _ _ _ Hl Ht) as Ht'.
  set (turns' := match saved with Some _ => _ | None => _ end).
  destruct (IH turns' t' Ht' Hnd) as [HL HC].
  { intros id x Hx. assert (turns !! id = Some x) as E by (apply Hrec; by right).
    assert (id ≠ i) as Hne by (intros ->; apply Hi, list_elem_of_fmap; by exists (i, x)).
    subst turns'. destruct saved as [saved|]; [|done]. destruct (_ <=? _); [|done]. by rewrite lookup_delete_ne by done. }
  split; [by eapply learns_trans|]. intros id. specialize (HC id).
  destruct (decide (seqOf turns' id = seqOf turns id)) as [E|E]; [lia|].
  subst turns'. destruct saved as [saved|]; [|done]. destruct (_ <=? _) eqn:Ele; [|done]. bools.
  destruct (decide (id = i)) as [->|Hne]; [|by unfold seqOf in E; rewrite lookup_delete_ne in E by done].
  destruct (Hv saved eq_refl) as [? _]. rewrite (seqOf_Some turns i r) by (apply Hrec; by left). lia.
Qed.

Lemma load_covers threadID top N fault faults d t :
  diskOK threadID top d → diskSeqs N d → ac_ThreadID (at_hot t) = threadID → at_history t = ∅ → seqs N (hotTurns t) →
  let t' := load fault faults d t in
  seqs N (hotTurns t') ∧ truthful d t' ∧ (at_loadError t' = None → covered d t' (hotTurns t') ∧ hotTurns t' ⊆ currentTurns d).
Proof.
  intros Hd Hs Hid Hh Hhot. simpl. unfold load. rewrite Hid.
  assert (truthful d t) as Ht by (intros i h; by rewrite Hh, lookup_empty).
  destruct (loadActivityCheckpoint fault (dk_current d) threadID) as [c|e] eqn:El; [|done].
  assert (fault = None) as -> by (by destruct fault).
  assert (ac_Turns c = currentTurns d) as Ec.
  { unfold currentTurns. unfold loadActivityCheckpoint in El. destruct (dk_current d) as [[|c']|]; [done| |by injection El as <-].
    destruct (_ || _); [done|]. destruct (existsb _ _); [done|]. destruct (ac_Current c'); [destruct (_ || _); [done|]|]; by injection El as <-. }
  rewrite Ec. pose proof (replay_turns faults d (map_to_list (currentTurns d)) (currentTurns d) t) as Hsub.
  destruct (replay_covers threadID top N faults d (map_to_list (currentTurns d)) (currentTurns d) t) as [HL HC]; try done.
  { apply NoDup_fst_map_to_list. }
  { intros id r. by rewrite elem_of_map_to_list. }
  destruct (replay _ _ _ _ _) as [turns t']. simpl in *. destruct Hs as [Hs1 Hs2]. unfold hotTurns. simpl. split_and!.
  - by eapply seqs_subset.
  - by apply (learns_truthful _ t).
  - intros _. split; [|done]. intros id. split; [exact (HC id)|]. left. apply (learns_fresh _ t); [done|].
    intros h. by rewrite Hh, lookup_empty.
Qed.

Lemma restored_eq threadID top N d id :
  diskOK threadID top d → diskSeqs N d → 0 ≤ N → restored threadID d id = Z.max (inCurrent d id) (onDisk d id).
Proof.
  intros Hd Hs HN. unfold restored.
  destruct (load_covers threadID top N None (fun _ => false) d (newThread threadID)) as (H1 & H2 & H3); try done.
  set (t := load None (fun _ => false) d (newThread threadID)) in *.
  assert (at_loadError t = None) as El.
  { subst t. unfold load. change (ac_ThreadID (at_hot (newThread threadID))) with threadID.
    destruct (loadActivityCheckpoint None (dk_current d) threadID) as [c|e] eqn:E.
    - by destruct (replay (fun _ => false) d (map_to_list (ac_Turns c)) (ac_Turns c) (newThread threadID)).
    - exfalso. destruct (dk_current d) as [f|] eqn:Ef; [|done]. destruct (dk_current_ok _ _ _ Hd _ Ef) as (c & -> & Hc).
      by rewrite (checkpointOK_loads _ _ _ Hc) in E. }
  destruct (H3 El) as [Hcov Hsub]. destruct (Hcov id) as [Hin Hfr].
  pose proof (seqOf_subset _ _ _ id (proj1 Hs) Hsub) as Hle. fold (inCurrent d id) in Hle.
  assert (match (summary false d id (newThread threadID)).1 with Some r => ar_Sequence r | None => -1 end = onDisk d id) as ->; [|lia].
  unfold onDisk. destruct (dk_turns d !! id) as [f|] eqn:Ef.
  - destruct (dk_turns_ok _ _ _ Hd _ _ Ef) as (r & -> & Hr). by rewrite (summary_reads top d id r).
  - unfold summary. simpl. by rewrite lookup_empty, Ef.
Qed.

(** ** The order of copies *)

Definition cpTurns (w : writing) : gmap string activityTurnRecord := ac_Turns (wr_checkpoint w).
Definition leftTurns (w : writing) : gmap string activityTurnRecord := ac_Turns (wr_left w).

(** A write under way: what is left of the copy covers the disk, and what is
    not left is a finished turn whose summary is on disk and known. *)
Record writes (d : activityDisk) (t : activityThread) (w : writing) : Prop := {
  ws_loaded : at_loaded t = true ∧ at_loadError t = None;
  ws_left : leftTurns w ⊆ cpTurns w;
  ws_positive id r : cpTurns w !! id = Some r → 0 ≤ ar_Sequence r;
  ws_hot : keeps (cpTurns w) (hotTurns t);
  ws_covered : covered d t (leftTurns w);
  ws_gone id r : cpTurns w !! id = Some r → leftTurns w !! id = None →
    ar_Final r = true ∧ ar_Sequence r ≤ onDisk d id ∧ fresh d t id }.

(** A write that succeeded. *)
Record wrote (d : activityDisk) (t : activityThread) (w : writing) : Prop := {
  wt_hot : keeps (cpTurns w) (hotTurns t);
  wt_final id r : cpTurns w !! id = Some r → ar_Final r = true →
    ar_Sequence r ≤ onDisk d id ∧ fresh d t id ∧ currentTurns d !! id = None;
  wt_open id r : cpTurns w !! id = Some r → ar_Final r = false → currentTurns d !! id = Some r }.

Record ordered (s : recorder) : Prop := {
  or_events : 0 ≤ rc_events s;
  or_hot : seqs (4 * rc_events s) (hotTurns (rc_thread s));
  or_disk : diskSeqs (4 * rc_events s) (rc_disk s);
  or_truth : truthful (rc_disk s) (rc_thread s);
  or_unloaded : at_loaded (rc_thread s) = false → at_history (rc_thread s) = ∅;
  or_covered : at_loaded (rc_thread s) = true → at_loadError (rc_thread s) = None →
    covered (rc_disk s) (rc_thread s) (hotTurns (rc_thread s));
  or_writing w : rc_phase s = Writing w → writes (rc_disk s) (rc_thread s) w;
  or_wrote w : rc_phase s = Wrote w None → wrote (rc_disk s) (rc_thread s) w }.

Lemma diskSeqs_mono N N' d : N ≤ N' → diskSeqs N d → diskSeqs N' d.
Proof. intros Hle [H1 H2]. split; [by eapply seqs_mono|]. intros id r Hr. specialize (H2 _ _ Hr). lia. Qed.

(** Sections that learn and whose records grow. *)
Lemma ordered_section s t' clock N :
  N = 4 * rc_events s → ordered s → learns (rc_disk s) (rc_thread s) t' → grown 4 N (hotTurns (rc_thread s)) (hotTurns t') →
  at_loaded t' = at_loaded (rc_thread s) → at_loadError t' = at_loadError (rc_thread s) → at_loaded (rc_thread s) = true →
  ordered (mkRecorder t' (rc_disk s) (rc_phase s) clock (rc_events s + 1)).
Proof.
  intros -> [He Hh Hd Ht Hu Hc Hw Hwt] Hl [Hs Hk] E1 E2 El.
  assert (4 * (rc_events s + 1) = 4 * rc_events s + 4) as EN by lia. split; simpl; rewrite ?EN.
  - lia.
  - done.
  - eapply diskSeqs_mono, Hd. lia.
  - by eapply learns_truthful.
  - rewrite E1. congruence.
  - rewrite E1, E2. intros H1 H2. eapply covered_grow; [done|done|]. eapply learns_covered; [done|auto].
  - intros w Hp. destruct (Hw w Hp) as [W1 W2 W0 W3 W4 W5]. split; [by rewrite E1, E2|done|done|by etrans|by eapply learns_covered|].
    intros id r H1 H2. destruct (W5 id r H1 H2) as (? & ? & ?). split_and!; [done|done|by eapply learns_fresh].
  - intros w Hp. destruct (Hwt w Hp) as [W1 W2 W3]. split; [by etrans| |done].
    intros id r H1 H2. destruct (W2 id r H1 H2) as (? & ? & ?). split_and!; [done|by eapply learns_fresh|done].
Qed.

(** A summary written over an older one. *)
Definition putSummary (id : string) (record : activityTurnRecord) (d : activityDisk) : activityDisk :=
  mkDisk (dk_current d) (<[id := Holds record]> (dk_turns d)).
Lemma put_onDisk id record d i : onDisk (putSummary id record d) i = if decide (i = id) then ar_Sequence record else onDisk d i.
Proof.
  unfold onDisk. simpl. destruct (decide (i = id)) as [->|Hne]; [by rewrite lookup_insert_eq|by rewrite lookup_insert_ne].
Qed.
Lemma put_seqs N id record d : diskSeqs N d → 0 ≤ ar_Sequence record ≤ N → diskSeqs N (putSummary id record d).
Proof.
  intros [H1 H2] Hr. split; [done|]. intros i r. simpl. rewrite lookup_insert_Some. intros [[<- [= <-]]|[_ H]]; [done|eauto].
Qed.
Lemma put_truthful id record d t : truthful d t → onDisk d id ≤ ar_Sequence record → truthful (putSummary id record d) t.
Proof.
  intros Ht Hle i h Hh. rewrite put_onDisk. destruct (Ht _ _ Hh) as [?|?]; [by left|right]. case_decide; subst; lia.
Qed.
Lemma put_covered id record d t m :
  covered d t m → onDisk d id ≤ ar_Sequence record → fresh (putSummary id record d) t id ∨ ar_Sequence record ≤ seqOf m id →
  covered (putSummary id record d) t m.
Proof.
  intros Hc Hle Hid i. destruct (Hc i) as [H1 H2]. change (inCurrent (putSummary id record d) i) with (inCurrent d i).
  rewrite put_onDisk. destruct (decide (i = id)) as [->|Hne]; [split; [lia|done]|]. split; [done|].
  destruct H2 as [H2|H2]; [left|by right]. intros h Hh. rewrite put_onDisk, decide_False by done. auto.
Qed.
Lemma put_fresh id record d t i : i ≠ id → fresh d t i → fresh (putSummary id record d) t i.
Proof. intros Hne Hf h Hh. rewrite put_onDisk, decide_False by done. auto. Qed.

Lemma know_fresh id record d t : fresh (putSummary id record d) (withHistory <[id := record]> t) id.
Proof. intros h. simpl. rewrite lookup_insert_eq. intros [= <-]. rewrite put_onDisk, decide_True by done. done. Qed.
Lemma know_learns id record d t :
  0 ≤ ar_Sequence record → learns (putSummary id record d) t (withHistory <[id := record]> t).
Proof.
  intros Hr i h. simpl. rewrite lookup_insert_Some. intros [[<- <-]|[_ H]]; [right|by left].
  rewrite put_onDisk, decide_True by done. split; [done|right; lia].
Qed.

(** The writer never replaces a summary by an older one. *)
Definition newerSaved (saved : option activityTurnRecord) (record : activityTurnRecord) : bool :=
  match saved with Some saved => ar_Sequence record <? ar_Sequence saved | None => false end.

Lemma writer_order threadID top N d t m id record :
  diskOK threadID top d → historyOK top t → diskSeqs N d → truthful d t → covered d t m → m !! id = Some record → 0 ≤ ar_Sequence record →
  if newerSaved (summary false d id t).1 record
  then ar_Sequence record ≤ onDisk d id ∧ fresh d (summary false d id t).2 id
  else onDisk d id ≤ ar_Sequence record.
Proof.
  intros Hd Hh Hs Ht Hc Hm Hr. pose proof (summary_learns _ _ _ false d id t Hd Hs) as Hl.
  destruct (learns_covered _ _ _ _ Hl Hc id) as [_ Hcov]. rewrite (seqOf_Some _ _ _ Hm) in Hcov.
  destruct (summary false d id t).1 as [saved|] eqn:Es; simpl.
  - destruct (summary_value _ _ _ _ _ _ _ _ Hd Hs Ht Es) as [Hle Hhist].
    destruct (_ <? _) eqn:El; bools; destruct Hcov as [Hf|Hf]; try lia.
    + split; [lia|done].
    + specialize (Hf _ Hhist). lia.
  - destruct (summary_none _ _ _ _ _ Hd Es) as (h & Hhist & Hid).
    assert (h = zeroRecord) as ->.
    { destruct (summary_sound _ _ false d id t Hd Hh) as [Hh' _]. destruct (Hh' _ _ Hhist) as [->|[(Hne & Hid' & _) _]]; [done|].
      apply is_empty_true in Hid. congruence. }
    destruct Hcov as [Hf|Hf]; [|lia]. specialize (Hf _ Hhist). simpl in Hf. lia.
Qed.

Lemma writes_drop d t w id record :
  writes d t w → leftTurns w !! id = Some record → ar_Final record = true → ar_Sequence record ≤ onDisk d id → fresh d t id →
  writes d t (leave (dropTurn id (wr_left w)) w).
Proof.
  intros [W1 W2 W0 W3 W4 W5] Hl Hf Hle Hfr. unfold leftTurns, cpTurns in *. split; unfold leftTurns, cpTurns; simpl; try done.
  - etrans; [apply delete_subseteq|done].
  - intros i. destruct (W4 i) as [H1 H2]. destruct (decide (i = id)) as [->|Hne].
    + split; [|by left]. rewrite (seqOf_Some _ _ _ Hl) in H1. lia.
    + unfold seqOf in *. by rewrite lookup_delete_ne by done.
  - intros i r Hi. destruct (decide (i = id)) as [->|Hne]; [|rewrite lookup_delete_ne by done; auto].
    intros _. rewrite (lookup_weaken _ _ _ _ Hl W2) in Hi. injection Hi as <-. done.
Qed.

Lemma writes_put d t w id record :
  writes d t w → leftTurns w !! id = Some record → ar_Final record = true → 0 ≤ ar_Sequence record → onDisk d id ≤ ar_Sequence record →
  writes (putSummary id record d) (withHistory <[id := record]> t) (leave (dropTurn id (wr_left w)) w).
Proof.
  intros [W1 W2 W0 W3 W4 W5] Hl Hf Hr Hle. pose proof (know_learns id record d t Hr) as Hlearn. pose proof (know_fresh id record d t) as Hfr.
  apply (writes_drop _ _ _ id record); [|done|done|by rewrite put_onDisk, decide_True|done].
  split; try done.
  - eapply learns_covered; [done|]. apply put_covered; [done|done|right]. by rewrite (seqOf_Some _ _ _ Hl).
  - intros i r H1 H2. destruct (W5 i r H1 H2) as (? & ? & ?). assert (i ≠ id) as Hne by congruence.
    split_and!; [done|by rewrite put_onDisk, decide_False|]. eapply learns_fresh; [done|by apply put_fresh].
Qed.

(** Changing only what the writer is doing. *)
Lemma ordered_phase s phase :
  ordered s → (∀ w, phase = Writing w → writes (rc_disk s) (rc_thread s) w) →
  (∀ w, phase = Wrote w None → wrote (rc_disk s) (rc_thread s) w) →
  ordered (mkRecorder (rc_thread s) (rc_disk s) phase (rc_clock s) (rc_events s)).
Proof. by intros [] H1 H2. Qed.

Lemma ordered_put t d w clock n id record phase t' :
  ordered (mkRecorder t d (Writing w) clock n) → hotTurns t' = hotTurns t → at_loaded t' = at_loaded t → at_loadError t' = at_loadError t →
  learns (putSummary id record d) t t' →
  leftTurns w !! id = Some record → onDisk d id ≤ ar_Sequence record →
  (∀ w', phase = Writing w' → writes (putSummary id record d) t' w') → (∀ w', phase ≠ Wrote w' None) →
  ordered (mkRecorder t' (putSummary id record d) phase clock n).
Proof.
  intros [He Hhot Hds Ht Hu Hc Hw _] E1 E2 E3 Hlearn Hl Hle Hp1 Hp2. simpl in *. specialize (Hw w eq_refl).
  pose proof (lookup_weaken _ _ _ _ Hl (ws_left _ _ _ Hw)) as Hcp. pose proof (ws_positive _ _ _ Hw _ _ Hcp) as Hpos.
  destruct (ws_hot _ _ _ Hw _ _ Hcp) as (hot & Ehot & Hhle). pose proof (Hhot _ _ Ehot) as Hhb. simpl in Hhb.
  destruct (ws_loaded _ _ _ Hw) as [L1 L2].
  split; simpl; rewrite ?E1, ?E2, ?E3; try done.
  - apply put_seqs; [done|lia].
  - eapply learns_truthful; [done|]. by apply put_truthful.
  - congruence.
  - intros H1 H2. eapply learns_covered; [done|]. apply put_covered; [auto|done|right]. rewrite (seqOf_Some _ _ _ Ehot). done.
  - intros w' E. by destruct (Hp2 w').
Qed.

Lemma writeSummary_ordered threadID t d clock n w id record fault result d' t' :
  wellKept threadID (mkRecorder t d (Writing w) clock n) → ordered (mkRecorder t d (Writing w) clock n) →
  leftTurns w !! id = Some record → ar_Final record = true →
  writeSummary false fault id record w d t = (result, d', t') →
  ordered (mkRecorder t' d' (match result with Ok w' => Writing w' | Err e => Wrote w (Some e) end) clock (n + 1)) ∧
  ∀ i, onDisk d i ≤ onDisk d' i ∧ inCurrent d' i = inCurrent d i.
Proof.
  intros [_ _ _ _ Hh Hd _] Ho Hl Hf. unfold writeSummary. unfold pastOf in *. simpl in Hh, Hd.
  pose proof (or_disk _ Ho) as Hds. pose proof (or_truth _ Ho) as Ht. pose proof (or_writing _ Ho w eq_refl) as Hw. simpl in *.
  pose proof (ws_positive _ _ _ Hw _ _ (lookup_weaken _ _ _ _ Hl (ws_left _ _ _ Hw))) as Hpos.
  pose proof (writer_order _ _ _ _ _ _ _ _ Hd Hh Hds Ht (ws_covered _ _ _ Hw) Hl Hpos) as Horder.
  pose proof (summary_learns _ _ _ false d id t Hd Hds) as Hlearn. destruct (summary_hot false d id t) as (E1 & _ & E2 & E3).
  destruct (summary false d id t) as [saved t1]. simpl in *. fold (newerSaved saved record).
  assert (ordered (mkRecorder t1 d (Writing w) clock (n + 1))) as Ho1.
  { apply (ordered_section (mkRecorder t d (Writing w) clock n) t1 clock (4 * n)); simpl; try done; [|by destruct (ws_loaded _ _ _ Hw)].
    unfold hotTurns. rewrite E1. apply grown_refl; [lia|]. exact (or_hot _ Ho). }
  pose proof (or_writing _ Ho1 w eq_refl) as Hw1. simpl in Hw1.
  destruct (newerSaved saved record).
  { intros [= <- <- <-]. split; [|done]. destruct Horder as [H1 H2].
    apply (ordered_phase _ (Writing (leave (dropTurn id (wr_left w)) w)) Ho1); [|done].
    intros w' [= <-]. by eapply writes_drop. }
  assert (∀ i, onDisk d i ≤ onDisk (putSummary id record d) i ∧ inCurrent (putSummary id record d) i = inCurrent d i) as Hgrow.
  { intros i. split; [|done]. rewrite put_onDisk. case_decide; subst; lia. }
  destruct fault as [|e|e]; intros [= <- <- <-]; (split; [|done || exact Hgrow]).
  - apply (ordered_put t1 d w _ _ _ _ _ _ Ho1); try done; [by apply know_learns|]. intros w' [= <-]. by apply writes_put.
  - by apply (ordered_phase _ (Wrote w (Some e)) Ho1).
  - apply (ordered_put t1 d w _ _ _ _ _ _ Ho1); try done. by apply learns_refl.
Qed.

Lemma writeCurrent_ordered t d clock n w fault e d' :
  ordered (mkRecorder t d (Writing w) clock n) → map_Forall (fun _ r => ar_Final r = false) (leftTurns w) →
  writeCurrent fault w d = (e, d') →
  ordered (mkRecorder t d' (Wrote w e) clock (n + 1)) ∧ ∀ i, Z.max (inCurrent d i) (onDisk d i) ≤ Z.max (inCurrent d' i) (onDisk d' i).
Proof.
  intros Ho Hopen. pose proof (or_writing _ Ho w eq_refl) as Hw. simpl in Hw. destruct (ws_loaded _ _ _ Hw) as [L1 L2].
  assert (ordered (mkRecorder t d (Writing w) clock (n + 1))) as Ho1.
  { apply (ordered_section (mkRecorder t d (Writing w) clock n) t clock (4 * n)); simpl; try done; [by apply learns_refl|].
    apply grown_refl; [lia|]. exact (or_hot _ Ho). }
  set (stored := mkDisk (Some (Holds (persist (wr_left w)))) (dk_turns d)).
  assert (currentTurns stored = leftTurns w) as Ecur by done.
  assert (keeps (leftTurns w) (hotTurns t)) as Hlh.
  { intros i r Hi. apply (ws_hot _ _ _ Hw). by eapply lookup_weaken, (ws_left _ _ _ Hw). }
  assert (∀ phase, (∀ w', phase ≠ Writing w') → (∀ w', phase = Wrote w' None → wrote stored t w') →
    ordered (mkRecorder t stored phase clock (n + 1))) as Hst.
  { intros phase P1 P2. destruct Ho1 as [He Hhot Hds Ht Hu Hc _ _]. simpl in *. split; simpl; try done.
    - destruct Hds as [H1 H2]. split; [|done]. rewrite Ecur. intros i r Hi.
      pose proof (ws_positive _ _ _ Hw _ _ (lookup_weaken _ _ _ _ Hi (ws_left _ _ _ Hw))).
      destruct (Hlh _ _ Hi) as (h & Eh & ?). specialize (Hhot _ _ Eh). simpl in *. lia.
    - intros H1 H2. specialize (Hc H1 H2). intros i. destruct (Hc i) as [_ H4]. split; [|done].
      pose proof (seqOf_keeps _ _ _ i Hhot Hlh). unfold inCurrent. rewrite Ecur. lia.
    - intros w' E. by destruct (P1 w'). }
  assert (∀ i, Z.max (inCurrent d i) (onDisk d i) ≤ Z.max (inCurrent stored i) (onDisk stored i)) as Hgrow.
  { intros i. destruct (ws_covered _ _ _ Hw i) as [H _]. unfold inCurrent at 2. rewrite Ecur.
    change (onDisk stored i) with (onDisk d i). lia. }
  unfold writeCurrent. fold stored. destruct fault as [|e0|e0]; intros [= <- <-].
  - split; [|done]. apply Hst; [done|]. intros w' [= <-]. destruct Hw as [W1 W2 W0 W3 W4 W5]. split; [done| |].
    + intros id r Hi Hf. rewrite Ecur. destruct (leftTurns w !! id) as [x|] eqn:Ex.
      * exfalso. pose proof (lookup_weaken _ _ _ _ Ex W2) as Hx. pose proof (Hopen _ _ Ex). simpl in *. congruence.
      * destruct (W5 _ _ Hi Ex) as (_ & ? & ?). done.
    + intros id r Hi Hf. rewrite Ecur. destruct (leftTurns w !! id) as [x|] eqn:Ex.
      * pose proof (lookup_weaken _ _ _ _ Ex W2) as Hx. congruence.
      * destruct (W5 _ _ Hi Ex) as (? & _). congruence.
  - split; [|done]. by apply (ordered_phase _ (Wrote w (Some e0)) Ho1).
  - split; [|done]. by apply Hst.
Qed.

Lemma finishWrite_ordered t d clock n w e :
  ordered (mkRecorder t d (Wrote w e) clock n) → ordered (mkRecorder (finishWrite e w t) d Idle clock (n + 1)).
Proof.
  intros Ho. pose proof Ho as [He Hhot Hds Ht Hu Hc _ Hwt]. simpl in *.
  assert (4 * n ≤ 4 * (n + 1)) as Hle by lia. pose proof (diskSeqs_mono _ _ _ Hle Hds) as Hds'. pose proof (seqs_mono _ _ _ Hle Hhot) as Hhot'.
  destruct e as [e|]; simpl.
  { split; simpl; try done. lia. }
  specialize (Hwt w eq_refl). split; simpl; try done; [lia|eapply seqs_subset, Hhot'; apply map_filter_subseteq|].
  intros H1 H2 i. destruct (Hc H1 H2 i) as [H3 H4]. unfold hotTurns in *. simpl.
  match goal with |- context [seqOf ?x i] => set (m := x) end.
  change (fresh d _ i) with (fresh d t i).
  assert (seqOf m i = seqOf (ac_Turns (at_hot t)) i ∨ ∃ r, ar_Final r = true ∧ cpTurns w !! i = Some r) as [->|(r & Hf & Hr)]; [|done|].
  { subst m. unfold seqOf. rewrite map_lookup_filter. destruct (ac_Turns (at_hot t) !! i) as [r|] eqn:Er; simpl; [|by left].
    destruct (decide (ar_Final r = true ∧ cpTurns w !! i = Some r)) as [[? ?]|Hno]; [right; eauto|left].
    by rewrite option_guard_True. }
  destruct (wt_final _ _ _ Hwt _ _ Hr Hf) as (_ & Hfr & Hcur). split; [|by left].
  unfold inCurrent, seqOf at 1. rewrite Hcur. pose proof (onDisk_bound _ _ i Hds'). lia.
Qed.

Lemma step_ordered threadID s s' :
  step acceptable s s' → wellKept threadID s → ordered s → 4 * rc_events s' < 2 ^ 64 →
  ordered s' ∧ ∀ i, Z.max (inCurrent (rc_disk s) i) (onDisk (rc_disk s) i) ≤ Z.max (inCurrent (rc_disk s') i) (onDisk (rc_disk s') i).
Proof.
  intros Hs Hk Ho Hn. destruct Hs; simpl in Hn |- *.
  - pose proof Hk as [_ Ht Hid Hun Hh Hd _]. pose proof Ho as [He Hhot Hds Htr Hu Hc _ _]. unfold pastOf in *. simpl in *. split; [|lia].
    destruct (load_covers threadID _ (4 * n) fault faults d t Hd Hds Hid (Hu H) Hhot) as (G1 & G2 & G3).
    assert (at_loaded (load fault faults d t) = true) as Hl.
    { unfold load. destruct (loadActivityCheckpoint _ _ _); [|done]. by destruct (replay faults d (map_to_list (ac_Turns a)) (ac_Turns a) t). }
    split; simpl; try done; [lia|eapply seqs_mono, G1; lia|eapply diskSeqs_mono, Hds; lia|by rewrite Hl|].
    intros _ E. by apply G3.
  - destruct (runSection_frame e d t) as (_ & E1 & E2). split; [|lia]. pose proof (or_events _ Ho) as He. simpl in He.
    pose proof Hk as [_ _ _ _ Hh Hd _]. pose proof (or_disk _ Ho) as Hds. pose proof (or_truth _ Ho) as Htr. simpl in *.
    apply (ordered_section (mkRecorder t d phase clock n) _ _ (4 * n)); simpl; try done.
    + pose proof (fun fault id => summary_learns _ _ _ fault d id t Hd Hds) as Hl.
      intros i h. rewrite runSection_history. destruct e; try (by left); apply Hl.
    + eapply grown_mono; [|apply (runSection_grown (4 * n))]; [lia|exact (or_hot _ Ho)| |lia|lia].
      intros fault id saved Hsv. destruct (summary_value _ _ _ _ _ _ _ _ Hd Hds Htr Hsv) as [? _].
      pose proof (onDisk_bound _ _ id Hds). lia.
  - split; [|lia]. pose proof Ho as [He Hhot Hds Htr Hu Hc _ _]. simpl in *. split; simpl; try done.
    + lia.
    + eapply seqs_mono, Hhot. lia.
    + eapply diskSeqs_mono, Hds. lia.
    + intros w [= <-]. split; try done; [|by apply Hc|].
      * intros id r Hr. by apply (Hhot id r).
      * unfold cpTurns, leftTurns. simpl. congruence.
  - split; [|lia]. pose proof Ho as [He Hhot Hds Htr Hu Hc _ _]. simpl in *. split; simpl; try done;
      [lia|eapply seqs_mono, Hhot; lia|eapply diskSeqs_mono, Hds; lia].
  - destruct (writeSummary_ordered _ _ _ _ _ _ _ _ _ _ _ _ Hk Ho H H0 H1) as [G1 G2]. split; [done|].
    intros i. destruct (G2 i). lia.
  - destruct (writeSummary_ordered _ _ _ _ _ _ _ _ _ _ _ _ Hk Ho H H0 H1) as [G1 G2]. split; [done|].
    intros i. destruct (G2 i). lia.
  - by eapply writeCurrent_ordered.
  - split; [|lia]. by apply finishWrite_ordered.
  - split; [|lia]. pose proof Ho as [He Hhot Hds Htr Hu Hc _ _]. simpl in *. split; simpl; try done;
      [lia|eapply diskSeqs_mono, Hds; lia].
Qed.

Lemma reachable_ordered threadID s : reachable acceptable threadID s → 4 * rc_events s < 2 ^ 64 → ordered s.
Proof.
  induction 1 as [|s s' Hr IH Hs]; intros Hn.
  - split; simpl; done.
  - assert (rc_events s ≤ rc_events s') as Hle by (destruct Hs; simpl; lia).
    apply (step_ordered threadID s s'); [done|by apply reachable_wellKept|apply IH; lia|done].
Qed.


(** When the writer has written a checkpoint without an error, every turn of
    the copy it took is restored by a restart at least as new as it was copied;
    the revision of the copy is what [flush] waits for. *)
Theorem activity_durable threadID s w id r :
  reachable acceptable threadID s → 4 * rc_events s < 2 ^ 64 → rc_phase s = Wrote w None → ac_Turns (wr_checkpoint w) !! id = Some r →
  ar_Sequence r ≤ restored threadID (rc_disk s) id ∧ at_saved (finishWrite None w (rc_thread s)) = wr_revision w.
Proof.
  intros Hr Hn Hp Hcp. pose proof (reachable_wellKept _ _ Hr) as Hk. pose proof (reachable_ordered _ _ Hr Hn) as Ho. split; [|done].
  rewrite (restored_eq _ _ _ _ id (wk_disk _ _ Hk) (or_disk _ Ho)) by (pose proof (or_events _ Ho); lia).
  pose proof (or_wrote _ Ho w Hp) as Hw. destruct (ar_Final r) eqn:Ef.
  - destruct (wt_final _ _ _ Hw id r Hcp Ef) as [? _]. lia.
  - unfold inCurrent. rewrite (seqOf_Some _ _ _ (wt_open _ _ _ Hw id r Hcp Ef)). lia.
Qed.

(** ** A run *)

(** A turn of four seconds, seen from its first tenth on, and the write that follows it. *)
Module Run.
Definition turn (status : string) : object :=
  [("id", AStr "t1"); ("status", AStr status); ("startedAt", ANum 5 0)]
  ++ (if str_eqb status "completed" then [("completedAt", ANum 9 0)] else []).
Definition params (status : string) : activityParams := mkParams "thread" "t1" "" None "" (turn status) [] 0 "" [].
Definition events : list activitySection :=
  [ Connected "c" 5000; Observed "c" "turn/started" "" (Some (params "inProgress")) 5100;
    Observed "c" "turn/completed" "" (Some (params "completed")) 9400 ].
Definition loaded : activityThread := load None (fun _ => false) emptyDisk (newThread "thread").
Definition thread : activityThread := fold_left (fun t e => runSection e emptyDisk t) events loaded.
Definition copied : writing := copyHot thread.
Definition record : activityTurnRecord := default zeroRecord (ac_Turns (at_hot thread) !! "t1").
Definition left : writing := leave (dropTurn "t1" (wr_left copied)) copied.
Definition disk : activityDisk := putSummary "t1" record emptyDisk.
Definition written : activityDisk := (writeCurrent Written left disk).2.
Definition known : activityThread := withHistory <["t1" := record]> (withHistory <["t1" := zeroRecord]> thread).

Definition recording : recorder := mkRecorder thread emptyDisk (Writing copied) 9400 5.
Definition summarised : recorder := mkRecorder known disk (Writing left) 9400 (5 + 1).
Definition stored : recorder := mkRecorder known written (Wrote left None) 9400 (5 + 1 + 1).

Example recorded_time : ar_WorkingMS record = 3900 ∧ ar_Final record = true ∧ ar_Sequence record = 3.
Proof. vm_compute. auto. Qed.

Lemma recording_reachable : reachable acceptable "thread" recording.
Proof.
  assert (reachable acceptable "thread" (mkRecorder loaded emptyDisk Idle 0 1)) as R1.
  { eapply reachable_step; [apply reachable_start|]. by apply (step_load acceptable _ _ _ 0 None (fun _ => false)). }
  pose proof (fun e => step_section acceptable loaded emptyDisk Idle 0 1 e) as S2.
  assert (reachable acceptable "thread" (mkRecorder (runSection (Connected "c" 5000) emptyDisk loaded) emptyDisk Idle 5000 2)) as R2.
  { eapply reachable_step; [exact R1|]. apply (step_section acceptable loaded emptyDisk Idle 0 1 (Connected "c" 5000)); [done|].
    split; [intros now [= <-]; lia|intros _; lia]. }
  set (t2 := runSection (Connected "c" 5000) emptyDisk loaded) in *.
  assert (reachable acceptable "thread" (mkRecorder (runSection (Observed "c" "turn/started" "" (Some (params "inProgress")) 5100) emptyDisk t2)
    emptyDisk Idle 5100 3)) as R3.
  { eapply reachable_step; [exact R2|].
    apply (step_section acceptable t2 emptyDisk Idle 5000 2 (Observed "c" "turn/started" "" (Some (params "inProgress")) 5100)); [done|].
    split; [intros now [= <-]; lia|]. split; [intros _; lia|]. by intros p [= <-] _. }
  set (t3 := runSection _ _ t2) in *.
  assert (reachable acceptable "thread" (mkRecorder (runSection (Observed "c" "turn/completed" "" (Some (params "completed")) 9400) emptyDisk t3)
    emptyDisk Idle 9400 4)) as R4.
  { eapply reachable_step; [exact R3|].
    apply (step_section acceptable t3 emptyDisk Idle 5100 3 (Observed "c" "turn/completed" "" (Some (params "completed")) 9400)); [done|].
    split; [intros now [= <-]; lia|]. split; [intros _; lia|]. by intros p [= <-]. }
  eapply reachable_step; [exact R4|]. by apply (step_copy acceptable thread emptyDisk 9400 4).
Qed.

Lemma summarising : step acceptable recording summarised.
Proof. apply (step_summary acceptable thread emptyDisk 9400 5 copied "t1" record Written left disk known); by vm_compute. Qed.
Lemma stored_reachable : reachable acceptable "thread" stored.
Proof.
  eapply reachable_step; [eapply reachable_step; [exact recording_reachable|exact summarising]|].
  apply (step_current acceptable known disk 9400 (5 + 1) left Written None written); [|by vm_compute].
  assert (ac_Turns (wr_left left) = ∅) as -> by (by vm_compute). apply map_Forall_empty.
Qed.
End Run.

Lemma activity_readable_witness :
  (∃ c, loadActivityCheckpoint None (dk_current (rc_disk Run.stored)) "thread" = Ok c) ∧
  ∀ id f, dk_turns (rc_disk Run.stored) !! id = Some f →
    ∃ r, f = Holds r ∧ (summary false (rc_disk Run.stored) id (newThread "thread")).1 = Some r.
Proof. apply (activity_readable "thread" Run.stored). exact Run.stored_reachable. Defined.



Lemma activity_durable_witness :
  ar_Sequence Run.record ≤ restored "thread" (rc_disk Run.stored) "t1" ∧
  at_saved (finishWrite None Run.left (rc_thread Run.stored)) = wr_revision Run.left.
Proof.
  apply (activity_durable "thread" Run.stored Run.left "t1" Run.record);
    [exact Run.stored_reachable|simpl; lia|reflexivity|vm_compute; reflexivity].
Defined.

(** ** What the conditions on sections rule out *)

(** A turn that is summarised, resumed and completed within one second: the
    tail of the resumed record holds only what followed the summary, so cutting
    it at the completion leaves a record that ends before it begins. *)
Example resumed_within_a_second :
  let saved := mkRecord "t1" 4 5000 0 800 0 5100 5900 5000 800 0 true false in
  let current := mkRecord "t1" 2 5000 0 40 0 5950 5990 5000 40 0 false false in
  let t := withTurns (fun _ => {["t1" := current]}) (newThread "thread") in
  let ended := mkTurn "t1" "completed" 5000 5000 0 0 0 0 true false ∅ in
  validActivityRecord saved = true ∧ validActivityRecord current = true ∧
  validActivityRecord (applyMetadata ended (default zeroRecord (ac_Turns (at_hot (seedCurrent "t1" saved t)) !! "t1"))) = false.
Proof. vm_compute. auto. Qed.

(** A clock set back between two connections: the time after it is added to a
    record that began later, and the checkpoint can not be loaded again. *)
Example clock_set_back :
  let record := mkRecord "t1" 2 1000 0 400 0 9000 9400 9000 400 0 false false in
  let t := withTurns (fun _ => {["t1" := record]}) Run.loaded in
  let turns := [mkTurn "t1" "inProgress" 1000 0 0 0 0 0 true false ∅] in
  let t := runSection (Connected "d" 3000) emptyDisk t in
  let t := runSection (Reconciled "d" turns [] 3000 0) emptyDisk t in
  let t := runSection (Reconciled "d" turns [] 3500 0) emptyDisk t in
  validActivityRecord record = true ∧
  loadActivityCheckpoint None (Some (Holds (persist (at_hot t)))) "thread" = Err (EMsg "invalid activity turn summary").
Proof. vm_compute. auto. Qed.

(** A turn with 129 waits in progress: [reconcile] takes them all, and the
    checkpoint can not be loaded again. *)
Example too_many_waits :
  let wait (n : nat) := (String (Ascii.ascii_of_nat n) EmptyString, mkWait "t1" "subagents" 0) in
  let waits : gmap string activityToolWait := list_to_map (wait <$> seq 0 129) in
  let turns := [mkTurn "t1" "inProgress" 1000 0 0 0 0 0 true false waits] in
  let t := runSection (Connected "c" 3000) emptyDisk Run.loaded in
  let t := runSection (Reconciled "c" turns [] 3000 0) emptyDisk t in
  loadActivityCheckpoint None (Some (Holds (persist (at_hot t)))) "thread" = Err (EMsg "invalid activity observation").
Proof. vm_compute. reflexivity. Qed.
