(* ===== verification/ActivitySnapshot.v ===== *)
(** * Activity snapshots

    [snapshotContextCached] and [addHistory] of
    [src/codex/activity_snapshot.go] and the end of [ReadActivity] of
    [src/codex/activity.go]: what a reader is told of a thread, from the turns of
    its history, the durable checkpoint and the summaries of finished turns, and
    the totals of old turns kept from one snapshot to the next.

    The parts of [ActivitySnapshot] that are summed over turns are a record of
    their own; a kept prefix holds no other part, since [addHistory] reads no
    other. Sums are unbounded integers: each summand is below [2^63]. *)
From S2P Require Import Prelude GoStd GoValue TurnOptions Ledger LedgerFacts Store Program Wire History Prompts Activity ActivityStore.
From Stdlib Require Import String.
Open Scope Z_scope.

(** ** Data *)

Record activityTotals := mkTotals {
  tt_SentMessages : Z; tt_ReceivedMessages : Z; tt_TotalToolCalls : Z;
  tt_WorkingMS : Z; tt_WaitingMS : Z; tt_OpenWaitingMS : Z; tt_BetweenTurnsMS : Z; tt_UnclassifiedMS : Z;
  tt_CountsComplete : bool; tt_CoverageComplete : bool; tt_CoverageStartMS : Z }.

Record ActivityBlockingRequest := mkBlocking { br_TurnID : string; br_ItemID : string; br_Method : string; br_Kind : string }.

Record ActivitySnapshot := mkSnapshot {
  sn_Refreshing : bool; sn_ThreadID : string; sn_CurrentTurnID : string; sn_Messages : Z; sn_ToolCalls : Z;
  sn_IdleMS : Z; sn_CreatedAtMS : Z; sn_BlockingRequests : list ActivityBlockingRequest;
  sn_WaitReason : string; sn_WaitUntilMS : Z; sn_LatestTurnStatus : string; sn_StartedAtMS : Z; sn_CompletedAtMS : Z;
  sn_OpenWaitingMS : Z; sn_ObservedAtMS : Z; sn_CountsComplete : bool; sn_CoverageComplete : bool; sn_CoverageReason : string;
  sn_CurrentState : string; sn_StateSinceMS : Z; sn_Scope : string;
  sn_totals : activityTotals }.

Record activityPrefix := mkPrefix {
  pf_count : nat; pf_first : string; pf_last : string; pf_scope : string; pf_totals : activityTotals }.
Definition zeroTotals : activityTotals := mkTotals 0 0 0 0 0 0 0 0 false false 0.
Definition zeroPrefix : activityPrefix := mkPrefix 0 "" "" "" zeroTotals.

(** ** Totals *)

(** The earlier of two instants, zero meaning none. *)
Definition earlier (start value : Z) : Z := if (0 <? value) && ((start =? 0) || (value <? start)) then value else start.

Definition addHistory (value result : activityTotals) : activityTotals :=
  mkTotals (tt_SentMessages result + tt_SentMessages value) (tt_ReceivedMessages result + tt_ReceivedMessages value)
    (tt_TotalToolCalls result + tt_TotalToolCalls value) (tt_WorkingMS result + tt_WorkingMS value)
    (tt_WaitingMS result + tt_WaitingMS value) (tt_OpenWaitingMS result)
    (tt_BetweenTurnsMS result + tt_BetweenTurnsMS value) (tt_UnclassifiedMS result + tt_UnclassifiedMS value)
    (tt_CountsComplete result && tt_CountsComplete value) (tt_CoverageComplete result && tt_CoverageComplete value)
    (earlier (tt_CoverageStartMS result) (tt_CoverageStartMS value)).

(** What one snapshot sees: the clock, the observation it trusts, and the record
    of each turn, [checkpoint.Turns] joined with [thread.summary]. *)
Record activityView := mkView {
  vw_now : Z; vw_scope : string; vw_live : option activityObservation; vw_failed : bool;
  vw_record : string → option activityTurnRecord }.

(** The newer of the durable record and the summary. *)
Definition chooseRecord (durable historical : option activityTurnRecord) : option activityTurnRecord :=
  match durable, historical with
  | Some record, Some saved => if ar_Sequence record <? ar_Sequence saved then Some saved else Some record
  | None, Some saved => Some saved
  | durable, None => durable
  end.

(** The end of a turn; a turn in progress ends now. *)
Definition endOf (v : activityView) (turn : TurnMetadata) : Z :=
  if (tm_CompletedAtMS turn =? 0) && str_eqb (tm_Status turn) "inProgress" then vw_now v else tm_CompletedAtMS turn.
(** A turn whose bounds are known. *)
Definition timed (v : activityView) (turn : TurnMetadata) : bool :=
  negb ((tm_StartedAtMS turn =? 0) || (endOf v turn <? tm_StartedAtMS turn) || (endOf v turn =? 0)).

Definition trusted (v : activityView) (turn : TurnMetadata) (r : activityTurnRecord) : bool :=
  negb (ar_BoundsUnknown r) && (tm_StartedAtMS turn <=? ar_FirstMS r) && (ar_ThroughMS r <=? endOf v turn)
  && ((ar_StartedAtMS r =? 0) || (ar_StartedAtMS r =? tm_StartedAtMS turn))
  && ((ar_CompletedAtMS r =? 0) || (ar_CompletedAtMS r =? tm_CompletedAtMS turn))
  && (ar_WorkingMS r + ar_WaitingMS r <=? endOf v turn - tm_StartedAtMS turn).

Definition openOf (v : activityView) (turn : TurnMetadata) (r : activityTurnRecord) : Z :=
  match vw_live v with
  | Some live => if str_eqb (ao_TurnID live) (tm_ID turn) && str_eqb (ao_State live) "waiting" && ao_Active live
                 then Z.min (ao_OpenWaitingMS live) (ar_WaitingMS r) else 0
  | None => 0
  end.

(** The body of the loop up to the prefix. *)
Definition addTurn (v : activityView) (previous : option TurnMetadata) (turn : TurnMetadata) (result : activityTotals) : activityTotals :=
  let start := tm_StartedAtMS turn in
  let between := match previous with
                 | Some p => if (0 <? tm_CompletedAtMS p) && (tm_CompletedAtMS p <? start) then start - tm_CompletedAtMS p else 0
                 | None => 0 end in
  let counted (working waiting opened unclassified : Z) (complete : bool) (from : Z) :=
    mkTotals (tt_SentMessages result + tm_Messages turn) (tt_ReceivedMessages result + tm_ReceivedMessages turn)
      (tt_TotalToolCalls result + tm_ToolCalls turn) (tt_WorkingMS result + working) (tt_WaitingMS result + waiting)
      (tt_OpenWaitingMS result + opened) (tt_BetweenTurnsMS result + between) (tt_UnclassifiedMS result + unclassified)
      (tt_CountsComplete result && tm_CountsKnown turn) (tt_CoverageComplete result && complete)
      (earlier (tt_CoverageStartMS result) from) in
  if negb (timed v turn) then counted 0 0 0 0 false 0 else
  match vw_record v (tm_ID turn) with
  | Some r =>
    if trusted v turn r then
      counted (ar_WorkingMS r) (ar_WaitingMS r - openOf v turn r) (openOf v turn r)
        (endOf v turn - start - (ar_WorkingMS r + ar_WaitingMS r)) true (ar_FirstMS r)
    else counted 0 0 0 (endOf v turn - start) true 0
  | None => counted 0 0 0 (endOf v turn - start) true 0
  end.

(** Whether the turn may be folded into the prefix: it is not one of the newest two. *)
Definition foldable (v : activityView) (turn : TurnMetadata) (index length : nat) : bool :=
  timed v turn && negb (vw_failed v) && (index + 2 <? length)%nat && tm_CountsKnown turn
  && (0 <? tm_CompletedAtMS turn) && negb (str_eqb (tm_Status turn) "inProgress").

(** The loop from [index] on; [ended i] tells whether the context has ended
    there. A reader that keeps no prefix passes none. *)
Fixpoint loop (v : activityView) (ended : nat → bool) (first : string) (length index : nat) (previous : option TurnMetadata)
    (rest : list TurnMetadata) (prefix : option activityPrefix) (result : activityTotals) : activityTotals * option activityPrefix :=
  match rest with
  | [] => (result, prefix)
  | turn :: rest =>
    if bool_decide (is_Some prefix) && negb (vw_failed v) && ended index
    then (mkTotals (tt_SentMessages result) (tt_ReceivedMessages result) (tt_TotalToolCalls result) (tt_WorkingMS result)
            (tt_WaitingMS result) (tt_OpenWaitingMS result) (tt_BetweenTurnsMS result) (tt_UnclassifiedMS result) false false
            (tt_CoverageStartMS result), prefix)
    else
      let result := addTurn v previous turn result in
      let prefix :=
        match prefix with
        | Some p => if foldable v turn index length && (pf_count p =? index)%nat
                    then Some (mkPrefix (S index) first (tm_ID turn) (vw_scope v) result) else Some p
        | None => None
        end in
      loop v ended first length (S index) (Some turn) rest prefix result
  end.

(** A kept prefix of another history is dropped. *)
Definition checkPrefix (scope : string) (turns : list TurnMetadata) (p : activityPrefix) : activityPrefix :=
  if (0 <? pf_count p)%nat
     && (negb (str_eqb (pf_scope p) scope) || (Datatypes.length turns <? pf_count p)%nat
         || negb (bool_decide (tm_ID <$> head turns = Some (pf_first p)))
         || negb (bool_decide (tm_ID <$> turns !! pred (pf_count p) = Some (pf_last p))))
  then zeroPrefix else p.

(** The totals of a snapshot and the prefix kept for the next. *)
Definition sumTurns (v : activityView) (ended : nat → bool) (turns : list TurnMetadata) (prefix : option activityPrefix)
    : activityTotals * option activityPrefix :=
  let initial := mkTotals 0 0 0 0 0 0 0 0 (negb (str_eqb (vw_scope v) "unknown")) (negb (vw_failed v)) 0 in
  let first := match turns with turn :: _ => tm_ID turn | [] => "" end in
  let prefix := checkPrefix (vw_scope v) turns <$> prefix in
  let count := match prefix with Some p => pf_count p | None => 0%nat end in
  let result := match prefix with Some p => if (0 <? pf_count p)%nat then addHistory (pf_totals p) initial else initial | None => initial end in
  loop v ended first (Datatypes.length turns) count (if (0 <? count)%nat then turns !! pred count else None) (drop count turns) prefix result.

(** ** The snapshot *)

(** The observation a snapshot trusts: the durable one of the live connection. *)
Definition trustedLive (t : option activityThread) (scope : string) (turns : list TurnMetadata) (failed : bool) : option activityObservation :=
  match t with
  | None => None
  | Some t =>
    match at_live t, ac_Current (at_durable t) with
    | Some live, Some current =>
      if ao_Connected live && str_eqb (ao_Connection live) (ao_Connection current) && negb failed
         && negb (str_eqb scope "unknown" || (str_eqb scope "sinceFork" && bool_decide (turns = [])))
      then Some current else None
    | _, _ => None
    end
  end.

(** [failed] is an error of the flush; the thread's own error counts as well. *)
Definition viewOf (t : option activityThread) (historical : string → option activityTurnRecord) (scope : string) (now : Z)
    (turns : list TurnMetadata) (failed : bool) : activityView :=
  let failed := failed || match t with Some t => bool_decide (is_Some (at_lastError t)) | None => false end in
  mkView now scope (trustedLive t scope turns failed) failed
    (fun id => match t with Some t => chooseRecord (ac_Turns (at_durable t) !! id) (historical id) | None => None end).

(** The reason of an open wait, from the automatic waits and then the requests,
    each in the order the map happens to be read. *)
Definition reasonOfWaits (waits : list activityToolWait) : string * Z :=
  fold_left (fun '(reason, until) wait => if is_empty reason || str_eqb (aw_Reason wait) "subagents"
                                          then (aw_Reason wait, aw_UntilMS wait) else (reason, until)) waits ("", 0).
Fixpoint reasonOfRequests (requests : list activityRequest) (reason : string * Z) : string * Z :=
  match requests with
  | [] => reason
  | q :: rest =>
    if aq_Blocking q then
      if str_eqb (aq_Category q) "userInput" then (aq_Category q, 0) else reasonOfRequests rest (aq_Category q, 0)
    else reasonOfRequests rest reason
  end.

Definition blockingOf (turnID : string) (q : activityRequest) : option ActivityBlockingRequest :=
  let policy := requestPolicyFor (aq_Method q) in
  if negb (aq_Blocking q) || is_empty (aq_TurnID q) || negb (str_eqb (aq_TurnID q) turnID) || is_empty (aq_ItemID q)
     || negb (rp_blocking policy) || negb (str_eqb (rp_category policy) (aq_Category q))
     || (negb (str_eqb (aq_Category q) "userInput") && negb (str_eqb (aq_Category q) "approval"))
  then None else Some (mkBlocking (aq_TurnID q) (aq_ItemID q) (aq_Method q) (aq_Category q)).

Definition blockingLe (a b : ActivityBlockingRequest) : Prop :=
  (if str_eqb (br_ItemID a) (br_ItemID b) then String.leb (br_Method a) (br_Method b)
   else String.leb (br_ItemID a) (br_ItemID b)) = true.
#[export] Instance blockingLe_dec : RelDecision blockingLe.
Proof. intros a b. unfold blockingLe. apply _. Defined.

(** The requests that block the connected current turn. *)
Definition blockingRequests (live : option activityObservation) (latestStatus currentTurn : string) (requests : list activityRequest)
    : list ActivityBlockingRequest :=
  match live with
  | Some live =>
    if ao_Active live && str_eqb (ao_State live) "waiting" && str_eqb latestStatus "inProgress" && str_eqb (ao_TurnID live) currentTurn
    then merge_sort blockingLe (omap (blockingOf (ao_TurnID live)) requests) else []
  | None => []
  end.

(** [snapshotContextCached]. [waits], [requests] and [requests'] are the orders
    in which the three loops over maps read them. *)
Definition snapshotContextCached (t : option activityThread) (historical : string → option activityTurnRecord) (ended : nat → bool)
    (waits : list activityToolWait) (requests requests' : list activityRequest)
    (threadID : string) (turns : list TurnMetadata) (scope : string) (now : Z) (failed : bool) (prefix : option activityPrefix)
    : ActivitySnapshot * option activityPrefix :=
  let v := viewOf t historical scope now turns failed in
  let latest := last turns in
  let status := match latest with Some turn => tm_Status turn | None => "" end in
  let turnID := match latest with Some turn => tm_ID turn | None => "" end in
  let completedAt := match latest with Some turn => tm_CompletedAtMS turn | None => 0 end in
  let state := match vw_live v with
               | Some live => ao_State live
               | None => if str_eqb status "inProgress" then "unclassified" else "idle" end in
  let state := if str_eqb scope "unknown" then "unclassified" else state in
  let reason := match vw_live v with
                | Some live => if str_eqb (ao_State live) "waiting" then reasonOfRequests requests (reasonOfWaits waits) else ("", 0)
                | None => ("", 0) end in
  let observedAt := match vw_live v with Some live => ao_ThroughMS live | None => now end in
  let since := match vw_live v with Some live => ao_SinceMS live | None => 0 end in
  let '(totals, prefix) := sumTurns v ended turns prefix in
  let opened := match vw_live v with
                | Some live => if str_eqb state "waiting" && (tt_OpenWaitingMS totals =? 0)
                               then Z.max 0 (observedAt - ao_SinceMS live) else tt_OpenWaitingMS totals
                | None => tt_OpenWaitingMS totals end in
  let resting := str_eqb state "idle" && bool_decide (is_Some latest) && (0 <? completedAt) in
  let since := if resting then completedAt else since in
  let opened := if resting then Z.max 0 (now - completedAt) else opened in
  let idle := tt_BetweenTurnsMS totals + (if str_eqb state "idle" then opened else 0) in
  let complete := tt_CoverageComplete totals && negb ((0 <? tt_UnclassifiedMS totals) || str_eqb scope "unknown") in
  let coverage := if vw_failed v then "Activity recording is unavailable."
                  else if complete then ""
                  else if str_eqb scope "unknown" then "The fork boundary could not be verified."
                  else "Some turn time was not observed." in
  (mkSnapshot false threadID turnID (match latest with Some turn => tm_Messages turn | None => 0 end)
     (match latest with Some turn => tm_ToolCalls turn | None => 0 end) idle 0
     (blockingRequests (vw_live v) status turnID requests') (fst reason) (snd reason) status
     (match latest with Some turn => tm_StartedAtMS turn | None => 0 end) completedAt opened observedAt
     (tt_CountsComplete totals) complete coverage state since scope totals, prefix).

(** The end of [ReadActivity]: [complete] tells whether all history was read,
    [pending] whether its lineage is still being read. *)
Definition finishActivity (complete pending : bool) (createdAt : Z) (turns : list TurnMetadata) (now : Z) (s : ActivitySnapshot)
    : ActivitySnapshot :=
  let refreshing := negb complete || (str_eqb (sn_Scope s) "unknown" && pending) in
  let end' := match turns with turn :: _ => tm_StartedAtMS turn | [] => now end in
  let known := complete && negb (str_eqb (sn_Scope s) "unknown") && (0 <? createdAt) && (createdAt <=? end') in
  let unused := known && bool_decide (turns = []) && str_eqb (sn_CurrentState s) "idle" in
  mkSnapshot (sn_Refreshing s || refreshing) (sn_ThreadID s) (sn_CurrentTurnID s) (sn_Messages s) (sn_ToolCalls s)
    (if known then sn_IdleMS s + (end' - createdAt) else sn_IdleMS s) createdAt (sn_BlockingRequests s)
    (sn_WaitReason s) (sn_WaitUntilMS s) (sn_LatestTurnStatus s) (sn_StartedAtMS s) (sn_CompletedAtMS s)
    (sn_OpenWaitingMS s) (if unused then now else sn_ObservedAtMS s)
    (sn_CountsComplete s && negb refreshing) (sn_CoverageComplete s && negb refreshing)
    (if refreshing then "History statistics are loading." else sn_CoverageReason s)
    (sn_CurrentState s) (if unused then createdAt else sn_StateSinceMS s) (sn_Scope s) (sn_totals s).
