(* ===== verification/ActivitySnapshotFacts.v ===== *)
(** * Properties of activity snapshots

    Every millisecond of a turn is reported once, the totals kept from earlier
    snapshots change nothing, and the blocking requests do not depend on the
    order in which maps are read. *)
From S2P Require Import Prelude GoStd GoValue TurnOptions Ledger LedgerFacts Store Program Wire History Prompts Activity ActivityStore ActivityFacts ActivitySnapshot.
From Stdlib Require Import String.
Open Scope Z_scope.

(** ** Sums over turns *)

(** The sum without a prefix, and the sum of sums. *)
Fixpoint sumList (v : activityView) (previous : option TurnMetadata) (turns : list TurnMetadata) (result : activityTotals) : activityTotals :=
  match turns with
  | [] => result
  | turn :: rest => sumList v (Some turn) rest (addTurn v previous turn result)
  end.
Definition joinTotals (value result : activityTotals) : activityTotals :=
  mkTotals (tt_SentMessages result + tt_SentMessages value) (tt_ReceivedMessages result + tt_ReceivedMessages value)
    (tt_TotalToolCalls result + tt_TotalToolCalls value) (tt_WorkingMS result + tt_WorkingMS value)
    (tt_WaitingMS result + tt_WaitingMS value) (tt_OpenWaitingMS result + tt_OpenWaitingMS value)
    (tt_BetweenTurnsMS result + tt_BetweenTurnsMS value) (tt_UnclassifiedMS result + tt_UnclassifiedMS value)
    (tt_CountsComplete result && tt_CountsComplete value) (tt_CoverageComplete result && tt_CoverageComplete value)
    (earlier (tt_CoverageStartMS result) (tt_CoverageStartMS value)).
Definition neutral : activityTotals := mkTotals 0 0 0 0 0 0 0 0 true true 0.

Lemma totals_eq a b :
  tt_SentMessages a = tt_SentMessages b → tt_ReceivedMessages a = tt_ReceivedMessages b → tt_TotalToolCalls a = tt_TotalToolCalls b →
  tt_WorkingMS a = tt_WorkingMS b → tt_WaitingMS a = tt_WaitingMS b → tt_OpenWaitingMS a = tt_OpenWaitingMS b →
  tt_BetweenTurnsMS a = tt_BetweenTurnsMS b → tt_UnclassifiedMS a = tt_UnclassifiedMS b →
  tt_CountsComplete a = tt_CountsComplete b → tt_CoverageComplete a = tt_CoverageComplete b →
  tt_CoverageStartMS a = tt_CoverageStartMS b → a = b.
Proof. destruct a, b; simpl; congruence. Qed.

Lemma earlier_nonneg a b : 0 ≤ a → 0 ≤ earlier a b.
Proof. unfold earlier. destruct (_ && _) eqn:E; bools; lia. Qed.
Lemma earlier_assoc a b c : 0 ≤ b → earlier (earlier a b) c = earlier a (earlier b c).
Proof.
  intros Hb. unfold earlier.
  destruct (0 <? b) eqn:E1, (0 <? c) eqn:E2, (a =? 0) eqn:E3, (b <? a) eqn:E4, (b =? 0) eqn:E5, (c <? b) eqn:E6, (c <? a) eqn:E7; simpl;
    rewrite ?E1, ?E2, ?E3, ?E4, ?E5, ?E6, ?E7; simpl; rewrite ?E1, ?E2, ?E3, ?E4, ?E5, ?E6, ?E7; simpl; bools; lia.
Qed.
Lemma earlier_zero_l b : 0 ≤ b → earlier 0 b = b.
Proof. intros. unfold earlier. destruct (0 <? b) eqn:E; simpl; bools; lia. Qed.
Lemma earlier_clip a b : earlier a (earlier 0 b) = earlier a b.
Proof. unfold earlier. destruct (0 <? b) eqn:E; simpl; rewrite ?E; done. Qed.

Lemma merge_assoc a b c : 0 ≤ tt_CoverageStartMS b → joinTotals a (joinTotals b c) = joinTotals (joinTotals a b) c.
Proof. intros Hb. apply totals_eq; simpl; try lia; try (by rewrite andb_assoc). by apply earlier_assoc. Qed.
Lemma merge_neutral_l a : 0 ≤ tt_CoverageStartMS a → joinTotals a neutral = a.
Proof. intros Ha. apply totals_eq; simpl; try lia; try done. by apply earlier_zero_l. Qed.

(** A turn adds the same to every sum. *)
Lemma addTurn_merge v previous turn result : addTurn v previous turn result = joinTotals (addTurn v previous turn neutral) result.
Proof.
  unfold addTurn. destruct (negb (timed v turn)); [|destruct (vw_record v (tm_ID turn)) as [r|]; [destruct (trusted v turn r)|]];
    apply totals_eq; simpl; try lia; try done; by rewrite earlier_clip.
Qed.
Lemma addTurn_start v previous turn : 0 ≤ tt_CoverageStartMS (addTurn v previous turn neutral).
Proof.
  unfold addTurn. destruct (negb (timed v turn)); [|destruct (vw_record v (tm_ID turn)) as [r|]; [destruct (trusted v turn r)|]];
    simpl; by apply earlier_nonneg.
Qed.
Lemma sumList_start v previous turns result : 0 ≤ tt_CoverageStartMS result → 0 ≤ tt_CoverageStartMS (sumList v previous turns result).
Proof.
  revert previous result. induction turns as [|turn turns IH]; intros previous result Hr; simpl; [done|].
  apply IH. rewrite addTurn_merge. by apply earlier_nonneg.
Qed.
Lemma sumList_merge v previous turns result : sumList v previous turns result = joinTotals (sumList v previous turns neutral) result.
Proof.
  revert previous result. induction turns as [|turn turns IH]; intros previous result; simpl.
  - apply totals_eq; simpl; rewrite ?andb_true_r; try lia; try done.
  - rewrite (IH _ (addTurn v previous turn result)), (IH _ (addTurn v previous turn neutral)), addTurn_merge.
    rewrite merge_assoc; [done|]. apply addTurn_start.
Qed.
Lemma sumList_app v previous turns turns' result :
  sumList v previous (turns ++ turns') result =
  sumList v (match last turns with Some turn => Some turn | None => previous end) turns' (sumList v previous turns result).
Proof.
  revert previous result. induction turns as [|turn turns IH]; intros previous result; [done|]. simpl sumList.
  rewrite IH. f_equal. rewrite last_cons. by destruct (last turns).
Qed.

(** While the context lasts, the loop is the sum. *)
Definition alive : nat → bool := fun _ => false.
Lemma loop_alive v first length index previous rest prefix result :
  (loop v alive first length index previous rest prefix result).1 = sumList v previous rest result.
Proof.
  revert index previous prefix result. induction rest as [|turn rest IH]; intros; [done|]. simpl.
  rewrite andb_false_r. apply IH.
Qed.

(** ** Each millisecond once *)

(** The length of a turn whose bounds are known. *)
Definition spanOf (v : activityView) (turn : TurnMetadata) : Z :=
  if timed v turn then endOf v turn - tm_StartedAtMS turn else 0.
Definition spansOf (v : activityView) (turns : list TurnMetadata) : Z := foldr (fun turn sum => spanOf v turn + sum) 0 turns.
Definition accounted (r : activityTotals) : Z :=
  tt_WorkingMS r + tt_WaitingMS r + tt_OpenWaitingMS r + tt_UnclassifiedMS r.

Lemma addTurn_accounted v previous turn result :
  accounted (addTurn v previous turn result) = accounted result + spanOf v turn ∧
  tt_UnclassifiedMS result ≤ tt_UnclassifiedMS (addTurn v previous turn result).
Proof.
  unfold addTurn, spanOf, accounted, timed. cbv zeta. destruct (negb (_ || _ || _)) eqn:E; simpl; [|lia]. bools.
  destruct (vw_record v (tm_ID turn)) as [r|]; [|simpl; lia]. destruct (trusted v turn r) eqn:Et; simpl; [|lia].
  unfold trusted in Et. rewrite !andb_true_iff, Z.leb_le in Et. lia.
Qed.
Lemma sumList_accounted v previous turns result :
  accounted (sumList v previous turns result) = accounted result + spansOf v turns ∧
  tt_UnclassifiedMS result ≤ tt_UnclassifiedMS (sumList v previous turns result).
Proof.
  revert previous result. induction turns as [|turn turns IH]; intros previous result; simpl; [lia|].
  destruct (IH (Some turn) (addTurn v previous turn result)). destruct (addTurn_accounted v previous turn result). lia.
Qed.

(** A turn with an open wait is the one observed. *)
Definition waitsOn (v : activityView) (turn : TurnMetadata) : bool :=
  match vw_live v with
  | Some live => str_eqb (ao_TurnID live) (tm_ID turn) && str_eqb (ao_State live) "waiting" && ao_Active live
  | None => false
  end.
Lemma openOf_none v turn r : waitsOn v turn = false → openOf v turn r = 0.
Proof. unfold waitsOn, openOf. destruct (vw_live v); [|done]. by intros ->. Qed.
Lemma addTurn_open v previous turn result :
  waitsOn v turn = false → tt_OpenWaitingMS (addTurn v previous turn result) = tt_OpenWaitingMS result.
Proof.
  intros Hw. unfold addTurn. destruct (negb (timed v turn)); simpl; [lia|].
  destruct (vw_record v (tm_ID turn)) as [r|]; [|simpl; lia]. destruct (trusted v turn r); simpl; [rewrite (openOf_none _ _ _ Hw)|]; lia.
Qed.
Lemma sumList_open v previous turns result :
  (∀ turn, turn ∈ turns → waitsOn v turn = false) → tt_OpenWaitingMS (sumList v previous turns result) = tt_OpenWaitingMS result.
Proof.
  revert previous result. induction turns as [|turn turns IH]; intros previous result Hw; simpl; [done|].
  rewrite IH by (intros x Hx; apply Hw; by right). apply addTurn_open, Hw. by left.
Qed.

Lemma loop_none v ended first length index previous rest result :
  loop v ended first length index previous rest None result = (sumList v previous rest result, None).
Proof. revert index previous result. induction rest as [|turn rest IH]; intros; [done|]. simpl. apply IH. Qed.

Definition initialOf (v : activityView) : activityTotals :=
  mkTotals 0 0 0 0 0 0 0 0 (negb (str_eqb (vw_scope v) "unknown")) (negb (vw_failed v)) 0.
Lemma sumTurns_none v ended turns : sumTurns v ended turns None = (sumList v None turns (initialOf v), None).
Proof. unfold sumTurns. simpl. rewrite drop_0. apply loop_none. Qed.

(** ** Kept totals *)

(** Turns that are over: their bounds do not move with the clock. *)
Definition over (turn : TurnMetadata) : Prop :=
  0 < tm_CompletedAtMS turn ∧ tm_Status turn ≠ "inProgress" ∧ tm_CountsKnown turn = true.
(** Two views that agree on a turn that neither sees waiting. *)
Definition agree (v v' : activityView) (turn : TurnMetadata) : Prop :=
  vw_record v (tm_ID turn) = vw_record v' (tm_ID turn) ∧ waitsOn v turn = false ∧ waitsOn v' turn = false.

Lemma over_end v turn : over turn → endOf v turn = tm_CompletedAtMS turn.
Proof. intros (Hc & _). unfold endOf. by rewrite (proj2 (Z.eqb_neq _ _)) by lia. Qed.
Lemma agree_addTurn v v' previous turn result : over turn → agree v v' turn → addTurn v previous turn result = addTurn v' previous turn result.
Proof.
  intros Ho (Hr & Hw & Hw'). unfold addTurn, timed, trusted. rewrite !(over_end v turn Ho), !(over_end v' turn Ho), Hr.
  destruct (vw_record v' (tm_ID turn)) as [r|]; [|done]. by rewrite (openOf_none v turn r Hw), (openOf_none v' turn r Hw').
Qed.
Lemma agree_sumList v v' previous turns result :
  (∀ turn, turn ∈ turns → over turn ∧ agree v v' turn) → sumList v previous turns result = sumList v' previous turns result.
Proof.
  revert previous result. induction turns as [|turn turns IH]; intros previous result H; simpl; [done|].
  destruct (H turn) as [H1 H2]; [by left|]. rewrite (agree_addTurn v v') by done. apply IH. intros x Hx. apply H. by right.
Qed.

(** The totals a prefix of turns should have: those of a snapshot that did not fail. *)
Definition countedFrom (scope : string) : activityTotals :=
  mkTotals 0 0 0 0 0 0 0 0 (negb (str_eqb scope "unknown")) true 0.
Record goodPrefix (v : activityView) (turns : list TurnMetadata) (p : activityPrefix) : Prop := {
  gp_count : (pf_count p ≤ Datatypes.length turns)%nat;
  gp_scope : (0 < pf_count p)%nat → pf_scope p = vw_scope v;
  gp_turns turn : turn ∈ take (pf_count p) turns → over turn ∧ waitsOn v turn = false;
  gp_totals : (0 < pf_count p)%nat → pf_totals p = sumList v None (take (pf_count p) turns) (countedFrom (vw_scope v)) }.

Lemma goodPrefix_zero v turns : goodPrefix v turns zeroPrefix.
Proof. split; simpl; try lia. set_solver. Qed.

(** Adding a good prefix is summing its turns. *)
Lemma addHistory_sum v turns :
  (∀ turn, turn ∈ turns → waitsOn v turn = false) →
  addHistory (sumList v None turns (countedFrom (vw_scope v))) (initialOf v) = sumList v None turns (initialOf v).
Proof.
  intros Hw. rewrite (sumList_merge v None turns (initialOf v)), (sumList_merge v None turns (countedFrom (vw_scope v))).
  pose proof (sumList_start v None turns neutral ltac:(done)) as Hs. pose proof (sumList_open v None turns neutral Hw) as Ho.
  set (x := sumList v None turns neutral) in *. apply totals_eq; simpl; try lia.
  - by rewrite Ho.
  - by destruct (negb (str_eqb (vw_scope v) "unknown")).
  - done.
  - by rewrite !(earlier_zero_l (tt_CoverageStartMS x)) by done.
Qed.

Lemma lookup_last {A} (l : list A) n : (0 < n ≤ Datatypes.length l)%nat → last (take n l) = l !! pred n.
Proof.
  intros Hn. rewrite last_lookup, length_take, Nat.min_l by lia. apply lookup_take_lt. lia.
Qed.

(** What the loop starts from. *)
Definition startOf (p : activityPrefix) (turns : list TurnMetadata) : option TurnMetadata :=
  if (0 <? pf_count p)%nat then turns !! pred (pf_count p) else None.
Definition resultOf (v : activityView) (p : activityPrefix) : activityTotals :=
  if (0 <? pf_count p)%nat then addHistory (pf_totals p) (initialOf v) else initialOf v.

Lemma goodPrefix_start v turns p : goodPrefix v turns p →
  startOf p turns = last (take (pf_count p) turns) ∧ resultOf v p = sumList v None (take (pf_count p) turns) (initialOf v).
Proof.
  intros [H1 H2 H3 H4]. unfold startOf, resultOf. destruct (0 <? pf_count p)%nat eqn:E.
  - apply Nat.ltb_lt in E. rewrite lookup_last by lia. split; [done|]. rewrite H4 by done. apply addHistory_sum.
    intros turn Ht. by apply H3.
  - apply Nat.ltb_ge in E. assert (pf_count p = 0%nat) as -> by lia. done.
Qed.

Lemma sumTurns_some v ended turns p :
  sumTurns v ended turns (Some p) =
  let p := checkPrefix (vw_scope v) turns p in
  loop v ended (match turns with turn :: _ => tm_ID turn | [] => "" end) (Datatypes.length turns) (pf_count p) (startOf p turns)
    (drop (pf_count p) turns) (Some p) (resultOf v p).
Proof. done. Qed.

(** A snapshot that starts from a good prefix sums all turns. *)
Lemma sumTurns_good v turns p :
  goodPrefix v turns (checkPrefix (vw_scope v) turns p) → (sumTurns v alive turns (Some p)).1 = (sumTurns v alive turns None).1.
Proof.
  intros Hg. rewrite sumTurns_none, sumTurns_some. simpl. rewrite loop_alive. set (q := checkPrefix _ _ _) in *.
  destruct (goodPrefix_start v turns q Hg) as [-> ->].
  transitivity (sumList v None (take (pf_count q) turns ++ drop (pf_count q) turns) (initialOf v)); [|by rewrite take_drop].
  rewrite sumList_app. by destruct (last (take (pf_count q) turns)).
Qed.

(** ** The prefix a snapshot keeps is good *)

(** The open wait is on one of the newest two turns. *)
Definition newest (v : activityView) (turns : list TurnMetadata) : Prop :=
  ∀ i turn, turns !! i = Some turn → (i + 2 < Datatypes.length turns)%nat → waitsOn v turn = false.

Lemma loop_good v ended turns index p :
  newest v turns → (index ≤ Datatypes.length turns)%nat → (pf_count p ≤ index)%nat → goodPrefix v turns p →
  ∀ p', (loop v ended (match turns with turn :: _ => tm_ID turn | [] => "" end) (Datatypes.length turns) index
     (last (take index turns)) (drop index turns) (Some p) (sumList v None (take index turns) (initialOf v))).2 = Some p' →
  goodPrefix v turns p'.
Proof.
  intros Hnew. remember (drop index turns) as rest eqn:Er. revert index p Er.
  induction rest as [|turn rest IH]; intros index p Er Hi Hp Hg p'; simpl; [by intros [= <-]|].
  destruct (negb (vw_failed v) && ended index); [by intros [= <-]|].
  assert (turns !! index = Some turn) as Et by (rewrite <- (Nat.add_0_r index), <- lookup_drop, <- Er; done).
  pose proof (lookup_lt_Some _ _ _ Et) as Hlt.
  assert (take (S index) turns = take index turns ++ [turn]) as Etake by (by apply take_S_r).
  assert (sumList v None (take (S index) turns) (initialOf v) =
    addTurn v (last (take index turns)) turn (sumList v None (take index turns) (initialOf v))) as Esum.
  { rewrite Etake, sumList_app. simpl. by destruct (last (take index turns)). }
  assert (last (take (S index) turns) = Some turn) as Elast by (by rewrite Etake, last_snoc).
  assert (rest = drop (S index) turns) as Er' by (rewrite (drop_S _ _ _ Et) in Er; by injection Er).
  rewrite <- Esum, <- Elast. destruct (_ && (_ =? _)%nat) eqn:Ef; apply IH; simpl; try done; try lia.
  apply andb_true_iff in Ef as [Ef Ec%Nat.eqb_eq].
  unfold foldable in Ef. bools. rewrite ?Nat.ltb_lt in *. split; simpl.
  - lia.
  - done.
  - intros x. rewrite Etake, elem_of_app, list_elem_of_singleton. intros [Hx| ->].
    + apply (gp_turns _ _ _ Hg). by rewrite Ec.
    + split; [by split_and!|]. by eapply Hnew.
  - intros _. unfold initialOf, countedFrom. assert (vw_failed v = false) as -> by (by destruct (vw_failed v)). done.
Qed.

Lemma sumTurns_keeps v ended turns p p' :
  newest v turns → goodPrefix v turns (checkPrefix (vw_scope v) turns p) → (sumTurns v ended turns (Some p)).2 = Some p' →
  goodPrefix v turns p'.
Proof.
  intros Hnew Hg. rewrite sumTurns_some. cbv zeta. set (q := checkPrefix _ _ _) in *.
  destruct (goodPrefix_start v turns q Hg) as [-> ->]. apply loop_good; [done|apply (gp_count _ _ _ Hg)|done|done].
Qed.

(** ** From one snapshot to the next *)

(** The history only grew and the summaries of the turns in the prefix are as
    they were, as far as the prefix is still used. *)
Definition follows (v : activityView) (turns : list TurnMetadata) (v' : activityView) (turns' : list TurnMetadata) (p : activityPrefix) : Prop :=
  (0 < pf_count (checkPrefix (vw_scope v') turns' p))%nat →
  take (pf_count p) turns' = take (pf_count p) turns ∧ ∀ turn, turn ∈ take (pf_count p) turns → agree v v' turn.

(** The prefix after any number of snapshots, some of them cut short. *)
Inductive prefixAfter : activityView → list TurnMetadata → activityPrefix → Prop :=
| prefix_fresh v turns : prefixAfter v turns zeroPrefix
| prefix_next v turns p v' turns' ended p' :
  prefixAfter v turns p → follows v turns v' turns' p → newest v' turns' →
  (sumTurns v' ended turns' (Some p)).2 = Some p' → prefixAfter v' turns' p'.

Lemma checkPrefix_cases scope turns p :
  checkPrefix scope turns p = zeroPrefix ∨ pf_count p = 0%nat ∨
  checkPrefix scope turns p = p ∧ (pf_count p ≤ Datatypes.length turns)%nat ∧ pf_scope p = scope.
Proof.
  unfold checkPrefix. destruct (_ && _) eqn:E; [by left|right]. apply andb_false_iff in E as [E|E].
  - left. apply Nat.ltb_ge in E. lia.
  - right. split; [done|]. rewrite !orb_false_iff in E. destruct E as [[[E1 E2] _] _]. apply Nat.ltb_ge in E2. by bools.
Qed.

Lemma follows_good v turns v' turns' p :
  goodPrefix v turns p → follows v turns v' turns' p → goodPrefix v' turns' (checkPrefix (vw_scope v') turns' p).
Proof.
  intros [H1 H2 H3 H4] Hf. destruct (checkPrefix_cases (vw_scope v') turns' p) as [->|[E|(E & Hle & Hs)]]; [apply goodPrefix_zero| |].
  - assert (checkPrefix (vw_scope v') turns' p = p) as -> by (unfold checkPrefix; by rewrite E). split; rewrite ?E; simpl; try lia. set_solver.
  - unfold follows in Hf. rewrite E in *. split; [done|done| |].
    + intros turn. destruct (pf_count p) as [|n] eqn:En; [set_solver|]. destruct Hf as [Et Ha]; [lia|]. rewrite Et. intros Ht.
      split; [by apply H3|]. by apply (Ha turn).
    + intros Hpos. destruct (Hf Hpos) as [Et Ha]. rewrite Et, H4 by done. rewrite <- Hs, H2 by done.
      apply agree_sumList. intros turn Ht. split; [by apply H3|by apply Ha].
Qed.

Lemma prefixAfter_good v turns p : prefixAfter v turns p → goodPrefix v turns p.
Proof.
  induction 1 as [|v turns p v' turns' ended p' _ IH Hf Hn Hs]; [apply goodPrefix_zero|].
  eapply sumTurns_keeps; [done|by eapply follows_good|done].
Qed.

(** The totals kept from earlier snapshots, whether those were finished or
    cut short, make no difference: a snapshot that adds them equals the one that
    sums every turn again, as long as the history only grew and finished turns
    kept their summaries; a prefix of another history or scope is dropped. *)
Theorem snapshot_prefix_invisible v turns p v' turns' :
  prefixAfter v turns p → follows v turns v' turns' p →
  (sumTurns v' alive turns' (Some p)).1 = (sumTurns v' alive turns' None).1.
Proof. intros Hp Hf. apply sumTurns_good. eapply follows_good; [by apply prefixAfter_good|done]. Qed.

(** ** The whole snapshot *)

(** What a snapshot may be given to start from: nothing, or the prefix that
    earlier snapshots of the thread left, with the turns and records it stands
    for as they were. *)
Inductive keptPrefix (v : activityView) (turns : list TurnMetadata) : option activityPrefix → Prop :=
| kept_none : keptPrefix v turns None
| kept_some v0 turns0 p : prefixAfter v0 turns0 p → follows v0 turns0 v turns p → keptPrefix v turns (Some p).

(** A sum that was cut short is reported as incomplete. *)
Definition cutShort (r : activityTotals) : activityTotals :=
  mkTotals (tt_SentMessages r) (tt_ReceivedMessages r) (tt_TotalToolCalls r) (tt_WorkingMS r) (tt_WaitingMS r)
    (tt_OpenWaitingMS r) (tt_BetweenTurnsMS r) (tt_UnclassifiedMS r) false false (tt_CoverageStartMS r).

(** The sum over the first [n] turns, all of them or those before the context ended. *)
Definition summedTo (v : activityView) (ended : nat → bool) (turns : list TurnMetadata) (kept : bool) (n : nat)
    (r : activityTotals) : Prop :=
  n = Datatypes.length turns ∧ r = sumList v None turns (initialOf v) ∨
  (n < Datatypes.length turns)%nat ∧ kept = true ∧ vw_failed v = false ∧ ended n = true ∧
    r = cutShort (sumList v None (take n turns) (initialOf v)).

Lemma loop_summed v ended first turns index p :
  (index ≤ Datatypes.length turns)%nat →
  ∃ n, summedTo v ended turns true n
    (loop v ended first (Datatypes.length turns) index (last (take index turns)) (drop index turns) (Some p)
       (sumList v None (take index turns) (initialOf v))).1.
Proof.
  remember (drop index turns) as rest eqn:Er. revert index p Er.
  induction rest as [|turn rest IH]; intros index p Er Hi; simpl.
  { exists (Datatypes.length turns). left. split; [done|]. f_equal. apply take_ge.
    apply (f_equal Datatypes.length) in Er. rewrite length_drop in Er. simpl in Er. lia. }
  assert (turns !! index = Some turn) as Et by (rewrite <- (Nat.add_0_r index), <- lookup_drop, <- Er; done).
  pose proof (lookup_lt_Some _ _ _ Et) as Hlt.
  destruct (negb (vw_failed v) && ended index) eqn:Ee.
  { apply andb_true_iff in Ee as [Hf%negb_true_iff He]. exists index. right. by split_and!. }
  assert (take (S index) turns = take index turns ++ [turn]) as Etake by (by apply take_S_r).
  assert (sumList v None (take (S index) turns) (initialOf v) =
    addTurn v (last (take index turns)) turn (sumList v None (take index turns) (initialOf v))) as <-.
  { rewrite Etake, sumList_app. simpl. by destruct (last (take index turns)). }
  assert (Some turn = last (take (S index) turns)) as -> by (by rewrite Etake, last_snoc).
  assert (rest = drop (S index) turns) as Er' by (rewrite (drop_S _ _ _ Et) in Er; by injection Er).
  destruct (_ && (_ =? _)%nat); apply IH; done || lia.
Qed.

Lemma sumTurns_summed v ended turns prefix :
  keptPrefix v turns prefix →
  ∃ n, summedTo v ended turns (bool_decide (is_Some prefix)) n (sumTurns v ended turns prefix).1.
Proof.
  intros [|v0 turns0 p Hp Hf].
  - exists (Datatypes.length turns). left. by rewrite sumTurns_none.
  - assert (goodPrefix v turns (checkPrefix (vw_scope v) turns p)) as Hg by (eapply follows_good; [by apply prefixAfter_good|done]).
    rewrite sumTurns_some. cbv zeta. destruct (goodPrefix_start v turns _ Hg) as [-> ->].
    apply loop_summed, (gp_count _ _ _ Hg).
Qed.

(** What is counted over turns, whichever way it was summed. *)
Definition sumOf (f : TurnMetadata → Z) (turns : list TurnMetadata) : Z := foldr (fun turn sum => f turn + sum) 0 turns.
Lemma sumList_counts v previous turns result :
  tt_SentMessages (sumList v previous turns result) = tt_SentMessages result + sumOf tm_Messages turns ∧
  tt_ReceivedMessages (sumList v previous turns result) = tt_ReceivedMessages result + sumOf tm_ReceivedMessages turns ∧
  tt_TotalToolCalls (sumList v previous turns result) = tt_TotalToolCalls result + sumOf tm_ToolCalls turns.
Proof.
  revert previous result. induction turns as [|turn turns IH]; intros previous result; simpl; [lia|].
  destruct (IH (Some turn) (addTurn v previous turn result)) as (-> & -> & ->).
  unfold addTurn. destruct (negb (timed v turn)); [|destruct (vw_record v (tm_ID turn)) as [r|]; [destruct (trusted v turn r)|]];
    simpl; lia.
Qed.

(** The times and counts of a sum over the first [n] turns. *)
Record accountsFor (v : activityView) (turns : list TurnMetadata) (r : activityTotals) : Prop := {
  af_time : tt_WorkingMS r + tt_WaitingMS r + tt_OpenWaitingMS r + tt_UnclassifiedMS r = spansOf v turns;
  af_unclassified : 0 ≤ tt_UnclassifiedMS r;
  af_sent : tt_SentMessages r = sumOf tm_Messages turns;
  af_received : tt_ReceivedMessages r = sumOf tm_ReceivedMessages turns;
  af_calls : tt_TotalToolCalls r = sumOf tm_ToolCalls turns;
  af_open : tt_OpenWaitingMS r ≠ 0 → ∃ turn, turn ∈ turns ∧ waitsOn v turn = true }.

Lemma sumList_accounts v turns : accountsFor v turns (sumList v None turns (initialOf v)).
Proof.
  destruct (sumList_accounted v None turns (initialOf v)) as [Hsum Hun]. unfold accounted in Hsum. simpl in Hsum, Hun.
  destruct (sumList_counts v None turns (initialOf v)) as (H1 & H2 & H3). split; try done; try (simpl in *; lia).
  intros Hne. destruct (existsb (waitsOn v) turns) eqn:E.
  - apply existsb_exists in E as (turn & Hin%list_elem_of_In & Hw). eauto.
  - destruct Hne. apply (sumList_open v None turns (initialOf v)). intros turn Hin.
    destruct (waitsOn v turn) eqn:Ew; [|done]. rewrite <- E. symmetry. apply existsb_exists. exists turn. by rewrite <- list_elem_of_In.
Qed.
Lemma summed_accounts v ended turns kept n r : summedTo v ended turns kept n r → accountsFor v (take n turns) r.
Proof.
  intros [[-> ->]|(_ & _ & _ & _ & ->)]; [rewrite take_ge by done; apply sumList_accounts|].
  by destruct (sumList_accounts v (take n turns)).
Qed.

(** An open wait is seen by the state of the snapshot. *)
Lemma waits_state t historical scope now turns failed turn :
  waitsOn (viewOf t historical scope now turns failed) turn = true →
  ∃ live, vw_live (viewOf t historical scope now turns failed) = Some live ∧ ao_State live = "waiting" ∧ str_eqb scope "unknown" = false.
Proof.
  unfold waitsOn. destruct (vw_live _) as [live|] eqn:El; [|done]. rewrite !andb_true_iff. intros [[_ Hs] _]. bools.
  exists live. split_and!; [done|done|]. unfold viewOf, trustedLive in El. simpl in El. destruct t as [t|]; [|done].
  destruct (at_live t), (ac_Current (at_durable t)); try done. destruct (str_eqb scope "unknown"); [|done].
  by rewrite !andb_false_r in El.
Qed.

(** C29. A snapshot, as [ReadActivity] returns it, accounts for every
    millisecond of every turn whose bounds are known exactly once, whether it
    sums the turns itself or starts from the totals earlier snapshots left:
    working, waiting, the open wait and unclassified time add up to the lengths
    of the turns, unclassified time is never negative, messages and tool calls
    are those of the turns, and an open wait of the running turn is what is
    reported as open. All turns are summed unless the context ends on the way;
    then the turns before that point are, and neither counts nor coverage are
    reported as complete. [keptPrefix] is what kept totals rely on: the turns they
    stand for and their records have not changed, and when they were kept the
    open wait was on one of the newest two turns. *)
Theorem snapshot_partition t historical ended waits requests requests' threadID turns scope now failed prefix complete pending createdAt :
  let v := viewOf t historical scope now turns failed in
  let s := finishActivity complete pending createdAt turns now
             (snapshotContextCached t historical ended waits requests requests' threadID turns scope now failed prefix).1 in
  let r := sn_totals s in
  keptPrefix v turns prefix →
  ∃ n opened,
    tt_WorkingMS r + tt_WaitingMS r + opened + tt_UnclassifiedMS r = spansOf v (take n turns) ∧
    0 ≤ tt_UnclassifiedMS r ∧
    tt_SentMessages r = sumOf tm_Messages (take n turns) ∧ tt_ReceivedMessages r = sumOf tm_ReceivedMessages (take n turns) ∧
    tt_TotalToolCalls r = sumOf tm_ToolCalls (take n turns) ∧
    (opened ≠ 0 → sn_OpenWaitingMS s = opened ∧ sn_CurrentState s = "waiting") ∧
    (n = Datatypes.length turns ∨
     (n < Datatypes.length turns)%nat ∧ is_Some prefix ∧ vw_failed v = false ∧ ended n = true ∧
       sn_CountsComplete s = false ∧ sn_CoverageComplete s = false).
Proof.
  cbv zeta. set (v := viewOf t historical scope now turns failed). intros Hk.
  destruct (sumTurns_summed v ended turns prefix Hk) as [n Hn]. destruct (summed_accounts _ _ _ _ _ _ Hn) as [H1 H2 H3 H4 H5 H6].
  unfold snapshotContextCached. fold v. cbv zeta. destruct (sumTurns v ended turns prefix) as [r p'] eqn:Er. simpl in Hn, H1, H2, H3, H4, H5, H6.
  exists n, (tt_OpenWaitingMS r).
  cbn [fst sn_totals sn_OpenWaitingMS sn_CurrentState sn_CountsComplete sn_CoverageComplete finishActivity].
  split_and!; try done.
  - intros Hne. destruct (H6 Hne) as (turn & _ & (live & El & Ew & Esc)%waits_state). fold v in El.
    rewrite El, Esc, Ew. simpl. split; [|done]. by rewrite (proj2 (Z.eqb_neq _ _) Hne).
  - destruct Hn as [[-> _]|(Hlt & Hs & Hf & He & ->)]; [by left|right]. split_and!; try done. by apply bool_decide_eq_true in Hs.
Qed.

(** ** The order of maps *)

Lemma leb_cons c s d t :
  String.leb (String c s) (String d t) = match Ascii.compare c d with Lt => true | Gt => false | Eq => String.leb s t end.
Proof. unfold String.leb. simpl. by destruct (Ascii.compare c d). Qed.
Lemma leb_trans s t u : String.leb s t = true → String.leb t u = true → String.leb s u = true.
Proof.
  revert t u. induction s as [|c s IH]; intros [|d t] [|e u]; try done. rewrite !leb_cons. unfold Ascii.compare.
  destruct (N.compare_spec (Ascii.N_of_ascii c) (Ascii.N_of_ascii d)) as [E1|E1|E1]; try done;
  destruct (N.compare_spec (Ascii.N_of_ascii d) (Ascii.N_of_ascii e)) as [E2|E2|E2]; try done;
  destruct (N.compare_spec (Ascii.N_of_ascii c) (Ascii.N_of_ascii e)) as [E3|E3|E3]; try done; try lia.
  intros H1 H2. by apply (IH t).
Qed.

Lemma str_eqb_sym a b : str_eqb a b = str_eqb b a.
Proof. destruct (str_eqb a b) eqn:E, (str_eqb b a) eqn:F; bools; congruence. Qed.

#[local] Instance blockingLe_total : Total blockingLe.
Proof.
  intros a b. unfold blockingLe. rewrite (str_eqb_sym (br_ItemID b)). destruct (str_eqb _ _); apply String.leb_total.
Qed.
#[local] Instance blockingLe_trans : Transitive blockingLe.
Proof.
  intros a b c. unfold blockingLe.
  destruct (str_eqb (br_ItemID a) (br_ItemID b)) eqn:E1, (str_eqb (br_ItemID b) (br_ItemID c)) eqn:E2,
    (str_eqb (br_ItemID a) (br_ItemID c)) eqn:E3; bools; try congruence; intros H1 H2; try (by eapply leb_trans).
  exfalso. apply E1, String.leb_antisym; [done|]. by rewrite E3.
Qed.

(** Entries of one turn with the same item and method are the same. *)
Lemma blockingOf_unique turn q q' a b :
  blockingOf turn q = Some a → blockingOf turn q' = Some b → br_ItemID a = br_ItemID b → br_Method a = br_Method b → a = b.
Proof.
  unfold blockingOf. destruct (_ || _) eqn:E1 in |- *; [done|]. intros [= <-].
  destruct (_ || _) eqn:E2 in |- *; [done|]. intros [= <-]. simpl. intros E3 E4.
  repeat match goal with H : (_ || _) = false |- _ => apply orb_false_iff in H as [? H] end. bools. congruence.
Qed.

(** The requests reported as blocking, and their order, do not depend on the
    order in which the map of pending requests is read. *)
Theorem blocking_requests_ordered live status turn requests requests' :
  requests ≡ₚ requests' → blockingRequests live status turn requests = blockingRequests live status turn requests'.
Proof.
  intros Hp. unfold blockingRequests. destruct live as [live|]; [|done]. destruct (_ && _); [|done].
  apply (StronglySorted_unique_strong blockingLe); try apply StronglySorted_merge_sort; try apply _.
  - intros a b. rewrite !merge_sort_Permutation, !list_elem_of_omap. intros (q & _ & Hq) (q' & _ & Hq') H1 H2.
    unfold blockingLe in H1, H2. rewrite (str_eqb_sym (br_ItemID b)) in H2.
    destruct (str_eqb (br_ItemID a) (br_ItemID b)) eqn:E; bools.
    + eapply blockingOf_unique; eauto. by apply String.leb_antisym.
    + destruct E. by apply String.leb_antisym.
  - rewrite !merge_sort_Permutation. by rewrite Hp.
Qed.

(** Lookups of different turns do not influence each other, so that the answers
    for all turns may be taken from the thread as it is. *)
Lemma summary_stable fault fault' d id id' t :
  id ≠ id' → (summary fault' d id' (summary fault d id t).2).1 = (summary fault' d id' t).1.
Proof.
  intros Hne. unfold summary at 2. destruct (at_history t !! id); [done|]. destruct fault; [done|].
  destruct (dk_turns d !! id) as [[|r]|]; [done|destruct (_ || _); [done|]|]; unfold summary; simpl; rewrite lookup_insert_ne by done;
    destruct (at_history t !! id'); try done; destruct fault'; try done; destruct (dk_turns d !! id') as [[|r']|]; try done; by destruct (_ || _).
Qed.

(** ** An example *)

Module Kept.
Definition turn (id : string) (from to : Z) : TurnMetadata := mkTurn id "completed" from to (to - from) 1 1 0 true false ∅.
Definition record (id : string) (from to : Z) : activityTurnRecord :=
  mkRecord id 3 from to (to - from) 0 from to (Z.quot to 1000 * 1000) 0 0 true false.
Definition view (now : Z) : activityView :=
  mkView now "thread" None false (fun id => if str_eqb id "t1" then Some (record "t1" 1000 3000) else None).
Definition turns : list TurnMetadata := [turn "t1" 1000 3000; turn "t2" 4000 5000; turn "t3" 7000 8000].
Definition more : list TurnMetadata := turns ++ [turn "t4" 9000 12000].
Definition prefix : activityPrefix := default zeroPrefix (sumTurns (view 9000) alive turns (Some zeroPrefix)).2.

Example prefix_kept : pf_count prefix = 1%nat ∧ tt_WorkingMS (pf_totals prefix) = 2000.
Proof. by vm_compute. Qed.
Lemma prefix_after : prefixAfter (view 9000) turns prefix.
Proof.
  eapply (prefix_next (view 9000) turns zeroPrefix _ _ alive); [apply prefix_fresh| |by intros i x _ _|by vm_compute].
  intros H. vm_compute in H. lia.
Qed.
End Kept.

Lemma snapshot_prefix_invisible_witness :
  (sumTurns (Kept.view 20000) alive Kept.more (Some Kept.prefix)).1 = (sumTurns (Kept.view 20000) alive Kept.more None).1 ∧
  tt_WorkingMS (sumTurns (Kept.view 20000) alive Kept.more (Some Kept.prefix)).1 = 2000.
Proof.
  split; [|vm_compute; reflexivity].
  apply (snapshot_prefix_invisible (Kept.view 9000) Kept.turns Kept.prefix (Kept.view 20000) Kept.more); [exact Kept.prefix_after|].
  intros _. split; [vm_compute; reflexivity|]. intros turn _. split; [reflexivity|split; reflexivity].
Defined.

(** Two reads of a thread: the first keeps the totals of its oldest turn, the
    second adds them to the turns that followed. *)
Module Reread.
Definition saved (id : string) : option activityTurnRecord := if str_eqb id "t1" then Some (Kept.record "t1" 1000 3000) else None.
Definition thread : option activityThread := Some (newThread "thread").
Definition view (now : Z) (turns : list TurnMetadata) : activityView := viewOf thread saved "thread" now turns false.
Definition read (turns : list TurnMetadata) (now : Z) (prefix : option activityPrefix) : ActivitySnapshot * option activityPrefix :=
  snapshotContextCached thread saved alive [] [] [] "thread" turns "thread" now false prefix.
Definition prefix : option activityPrefix := (read Kept.turns 9000 (Some zeroPrefix)).2.

Lemma kept : keptPrefix (view 20000 Kept.more) Kept.more prefix.
Proof.
  apply (kept_some _ _ (view 9000 Kept.turns) Kept.turns Kept.prefix).
  - eapply (prefix_next (view 9000 Kept.turns) Kept.turns zeroPrefix _ _ alive); [apply prefix_fresh| |by intros i x _ _|by vm_compute].
    intros H. vm_compute in H. lia.
  - intros _. split; [vm_compute; reflexivity|]. intros turn _. split; [reflexivity|split; reflexivity].
Qed.
Definition snapshot : ActivitySnapshot := finishActivity true false 500 Kept.more 20000 (read Kept.more 20000 prefix).1.
End Reread.

Lemma snapshot_partition_witness :
  tt_WorkingMS (sn_totals Reread.snapshot) = 2000 ∧
  ∃ n opened,
    tt_WorkingMS (sn_totals Reread.snapshot) + tt_WaitingMS (sn_totals Reread.snapshot) + opened
      + tt_UnclassifiedMS (sn_totals Reread.snapshot) = spansOf (Reread.view 20000 Kept.more) (take n Kept.more).
Proof.
  split; [vm_compute; reflexivity|].
  destruct (snapshot_partition Reread.thread Reread.saved alive [] [] [] "thread" Kept.more "thread" 20000 false Reread.prefix
    true false 500 Reread.kept) as (n & opened & H & _).
  exists n, opened. exact H.
Defined.

Lemma blocking_requests_ordered_witness :
  let q (item method : string) := mkRequest item method "t1" true "approval" 0 in
  let live := mkObserved "c" true true true true "t1" true [] ∅ ∅ "waiting" 0 0 0 0 false in
  blockingRequests (Some live) "inProgress" "t1"
    [q "b" "item/fileChange/requestApproval"; q "a" "item/commandExecution/requestApproval"] =
  blockingRequests (Some live) "inProgress" "t1"
    [q "a" "item/commandExecution/requestApproval"; q "b" "item/fileChange/requestApproval"].
Proof. intros q live. apply (blocking_requests_ordered (Some live) "inProgress" "t1"). apply perm_swap. Defined.
