(* ===== verification/ActivityHistory.v ===== *)
(** * Reading the turns of a thread for its activity

    [src/codex/activity_history.go] and [itemPage] of [src/codex/history_reader.go]:
    the items of every turn are counted page by page. Counts of finished items
    are kept as a prefix that ends at an anchor; items from the first unfinished
    one on are kept as a tail, and are read again from the anchor on the next
    observation. A read spends at most eight requests for items and older turns.

    What an observation finds of the rollout file is [rollout]. *)
From S2P Require Import Prelude GoStd GoValue TurnOptions Ledger LedgerFacts Store Program Wire History Delivery DeliveryFacts.
From S2P Require Import HistoryReader Prompts Continuation Activity.
From Stdlib Require Import String.
Open Scope Z_scope.
Open Scope codex_scope.

(** ** Items of one turn *)

Record activityItemHistory := mkItems {
  ih_turn : object;
  ih_prefix : TurnMetadata;
  ih_anchor : string;
  ih_cursor : string;
  ih_tail : list object;
  ih_complete : bool;
  ih_loaded : bool;
  ih_seenCursors : list string }.

Definition zeroTurn : TurnMetadata := mkTurn "" "" 0 0 0 0 0 0 false false ∅.
Definition freshItems (shell : object) : activityItemHistory := mkItems shell zeroTurn "" "" [] false false [].

Definition countProjection (item : object) : object :=
  omap (fun key => pair key <$> assoc key item) ["id"; "type"; "status"; "senderThreadId"; "tool"].

Definition addCounts (target source : TurnMetadata) : TurnMetadata :=
  mkTurn (tm_ID target) (tm_Status target) (tm_StartedAtMS target) (tm_CompletedAtMS target) (tm_DurationMS target)
    (tm_Messages target + tm_Messages source) (tm_ReceivedMessages target + tm_ReceivedMessages source)
    (tm_ToolCalls target + tm_ToolCalls source) (tm_CountsKnown target) (tm_HasSleep target || tm_HasSleep source)
    (tm_AutomaticWaits target).

(** The metadata of some items of a turn. *)
Definition itemsOf (id : string) (items : list object) : object :=
  [("id", AStr id); ("items", AArr (AObj <$> items)); ("itemsView", AStr "full")].

Definition metadata (thread : string) (h : activityItemHistory) : TurnMetadata :=
  let value := addCounts (turnMetadata (ih_turn h) thread) (ih_prefix h) in
  let recent := turnMetadata (itemsOf (tm_ID value) (ih_tail h)) thread in
  let value := addCounts value recent in
  mkTurn (tm_ID value) (tm_Status value) (tm_StartedAtMS value) (tm_CompletedAtMS value) (tm_DurationMS value)
    (tm_Messages value) (tm_ReceivedMessages value) (tm_ToolCalls value) (ih_loaded h && is_empty (ih_cursor h))
    (tm_HasSleep value) (tm_AutomaticWaits recent).

Definition itemID (item : object) : string := stringValue (field "id" item).

(** The identities of a page. *)
Fixpoint entriesValid (turn anchor : string) (seen : list string) (entries : list threadItemEntry) : bool :=
  match entries with
  | [] => true
  | entry :: rest =>
    let id := stringValue (itemField "id" entry) in
    str_eqb (ti_TurnID entry) turn && negb (is_empty id) && negb (str_in id seen) && negb (str_eqb id anchor)
    && entriesValid turn anchor (id :: seen) rest
  end.

Fixpoint mergeItem (item : object) (tail : list object) : list object :=
  match tail with
  | [] => [item]
  | old :: rest => if str_eqb (itemID old) (itemID item) then item :: rest else old :: mergeItem item rest
  end.
Definition mergeItems (entries : list threadItemEntry) (tail : list object) : list object :=
  foldl (fun tail entry => mergeItem (countProjection (default [] (ti_Item entry))) tail) tail entries.

(** Finished items at the head of the tail join the prefix. *)
Fixpoint settle (thread : string) (prefix : TurnMetadata) (anchor : string) (tail : list object) : TurnMetadata * string * list object :=
  match tail with
  | first :: rest =>
    if negb (str_eqb (statusValue (field "status" first)) "inProgress")
    then settle thread (addCounts prefix (turnMetadata [("items", AArr [AObj first]); ("itemsView", AStr "full")] thread)) (itemID first) rest
    else (prefix, anchor, tail)
  | [] => (prefix, anchor, [])
  end.

Definition itemPage : Type := option (list threadItemEntry) * option string.
Definition finishedStatuses : list string := ["completed"; "failed"; "interrupted"; "error"].

(** [activityItems] once it has its page. *)
Definition commitPage (thread : string) (page : itemPage) (h : activityItemHistory) : res err activityItemHistory :=
  match fst page with
  | None => Err (EMsg "invalid activity item page")
  | Some entries =>
    let? _ := guard (32 <? Datatypes.length entries)%nat (EMsg "invalid activity item page") in
    let? _ := guard (match snd page with
                     | Some next => is_empty next || str_eqb next (ih_cursor h) || str_in next (ih_seenCursors h)
                                    || (Datatypes.length entries =? 0)%nat
                     | None => false end) (EMsg "activity item cursor did not progress") in
    let? _ := guard (negb (entriesValid (itemID (ih_turn h)) (ih_anchor h) [] entries)) (EMsg "invalid activity item identity") in
    let '(prefix, anchor, tail) := settle thread (ih_prefix h) (ih_anchor h) (mergeItems entries (ih_tail h)) in
    let finished := str_in (statusValue (field "status" (ih_turn h))) finishedStatuses in
    Ok match snd page with
       | Some next => mkItems (ih_turn h) prefix anchor next tail false (ih_loaded h) (next :: ih_seenCursors h)
       | None => mkItems (ih_turn h) prefix anchor "" tail finished true []
       end
  end.

Definition itemParams (thread : string) (h : activityItemHistory) : object :=
  [("threadId", AStr thread); ("turnId", field "id" (ih_turn h)); ("sortDirection", AStr "asc"); ("limit", ANum 32 0)]
  ++ (if negb (is_empty (ih_cursor h)) then [("cursor", AStr (ih_cursor h))]
      else if negb (is_empty (ih_anchor h)) then [("cursor", AObj [("type", AStr "item"); ("itemId", AStr (ih_anchor h))])]
      else []).

(** ** The turns of a thread *)

Record activityHistory := mkHistory {
  hy_path : string;
  hy_identity : list any;
  hy_turns : gmap string activityItemHistory;
  hy_order : list string;       (** newest first *)
  hy_cursor : string;
  hy_complete : bool;
  hy_initialized : bool }.
Definition freshHistory (path : string) (identity : list any) : activityHistory := mkHistory path identity ∅ [] "" false false.
Definition withItems (id : string) (items : activityItemHistory) (h : activityHistory) : activityHistory :=
  mkHistory (hy_path h) (hy_identity h) (<[id := items]> (hy_turns h)) (hy_order h) (hy_cursor h) (hy_complete h) (hy_initialized h).

(** Decoded values are compared by their JSON text, which differs when they do. *)
Fixpoint sameValue (a b : any) : bool :=
  match a, b with
  | ANull, ANull => true
  | ABool x, ABool y => Bool.eqb x y
  | ANum m e, ANum m' e' => (m =? m') && (e =? e')
  | AStr x, AStr y => str_eqb x y
  | AArr l, AArr l' =>
    (fix go l l' := match l, l' with [], [] => true | x :: l, y :: l' => sameValue x y && go l l' | _, _ => false end) l l'
  | AObj l, AObj l' =>
    (fix go l l' := match l, l' with
       | [], [] => true
       | (k, x) :: l, (k', y) :: l' => str_eqb k k' && sameValue x y && go l l'
       | _, _ => false end) l l'
  | _, _ => false
  end.
Definition pageIdentity (thread : object) : list any :=
  (fun key => field key thread) <$> ["cwd"; "source"; "createdAt"; "forkedFromId"; "historyMode"].

Definition pageTurn (raw : object) : res err object :=
  let id := stringValue (field "id" raw) in
  let status := statusValue (field "status" raw) in
  let? _ := guard (is_empty id || is_empty status) (EMsg "thread/turns/list returned invalid turn identity or status") in
  let? _ := guard (negb (bool_decide (is_Some (asString (field "status" raw))))) (EMsg "thread/turns/list returned invalid turn status") in
  let? _ := guard (match field "error" raw with
                   | ANull => false
                   | AStr value => is_empty value
                   | AObj value => is_empty (stringValue (field "message" value))
                   | _ => true end) (EMsg "thread/turns/list returned invalid turn error") in
  Ok [("id", AStr id); ("status", AStr status); ("error", field "error" raw); ("startedAt", field "startedAt" raw);
      ("completedAt", field "completedAt" raw)].

(** A whole page is checked before any of it is kept. *)
Fixpoint shellsOf (seen : list string) (turns : list object) : res err (list object) :=
  match turns with
  | [] => Ok []
  | raw :: rest =>
    let? shell := pageTurn raw in
    let? _ := guard (str_in (itemID shell) seen) (EMsg "activity turn page repeats identity") in
    let? shells := shellsOf (itemID shell :: seen) rest in
    Ok (shell :: shells)
  end.
Definition setShell (shell : object) (items : activityItemHistory) : activityItemHistory :=
  mkItems shell (ih_prefix items) (ih_anchor items) (ih_cursor items) (ih_tail items) (ih_complete items) (ih_loaded items) (ih_seenCursors items).
Fixpoint installShells (shells : list object) (turns : gmap string activityItemHistory) : list string * gmap string activityItemHistory :=
  match shells with
  | [] => ([], turns)
  | shell :: rest =>
    let id := itemID shell in
    match turns !! id with
    | Some old => installShells rest (<[id := setShell shell old]> turns)
    | None => let '(ids, turns) := installShells rest (<[id := freshItems shell]> turns) in (id :: ids, turns)
    end
  end.
Definition updateTurns (turns : list object) (prepend : bool) (h : activityHistory) : res err activityHistory :=
  let? shells := shellsOf [] turns in
  let '(ids, installed) := installShells shells (hy_turns h) in
  Ok (mkHistory (hy_path h) (hy_identity h) installed (if prepend then ids ++ hy_order h else hy_order h ++ ids)
        (hy_cursor h) (hy_complete h) (hy_initialized h)).

(** The newest known turn is in the refreshed head, and the known ones follow it in order. *)
Fixpoint inStep (ids order : list string) : bool :=
  match ids, order with
  | id :: ids, known :: order => str_eqb id known && inStep ids order
  | _, _ => true
  end.
Fixpoint anchored (ids order : list string) : bool :=
  match ids, order with
  | id :: rest, newest :: _ => if str_eqb id newest then inStep ids order else anchored rest order
  | _, _ => false
  end.

Definition pendingTurn (processed : list string) (h : activityHistory) : option (string * activityItemHistory) :=
  first_some (fun id => match hy_turns h !! id with
                        | Some items => if negb (ih_complete items) && negb (str_in id processed) then Some (id, items) else None
                        | None => None end) (hy_order h).

(** ** Reading *)

(** What one observation finds of the rollout: the file or why there is none, whether
    it still is the file that was read before, grown at most, and the reads of its tail. *)
Record rollout := mkRollout {
  ro_file : res err (option unit); ro_missing : bool; ro_same : bool; ro_absent : string → bool;
  ro_tailOpened : option err; ro_tailReset : option err; ro_tailKept : option err }.

Section reading.
Context (sources : list string) (tooBig : err → bool) `{HistoryReader}.

(** [itemPage]: the limit is halved while the answer is too large, and remembered. Five
    halvings take the largest limit to one, so that [n = 5] is never spent. *)
Fixpoint itemRequest (n : nat) (limit : Z) (params : object) (saved : Z) : prog (res err itemPage * Z) :=
  Ctx (fun ended =>
    match ended with
    | Some e => Ret (Err e, saved)
    | None =>
      let! r := historyRequest "thread/items/list" (setField "limit" (ANum limit 0) params) (decPage decItemEntry) in
      match r with
      | Ok page => Ret (Ok page, saved)
      | Err e =>
        if negb (tooBig e) then Ret (Err e, saved)
        else if limit <=? 1 then Ret (Err (EWrap "individual history item exceeds transport safeguard" e), saved)
        else match n with
             | O => Ret (Err e, saved)
             | Datatypes.S n => let limit := Z.max 1 (Z.quot limit 2) in itemRequest n limit params limit
             end
      end
    end).
Definition readItemPage (params : object) (saved : Z) : prog (res err itemPage * Z) :=
  itemRequest 5 (if (0 <? saved) && (saved <? 32) then saved else 32) params saved.

Definition turnParams (thread : string) (limit : Z) (cursor : string) : object :=
  setText "cursor" cursor [("threadId", AStr thread); ("itemsView", AStr "notLoaded"); ("sortDirection", AStr "desc"); ("limit", ANum limit 0)].

(** The quanta of one read; what was kept stays when one of them fails. *)
Fixpoint quanta (n : nat) (thread : string) (processed : list string) (h : activityHistory) (saved : Z)
    : prog (option err * activityHistory * Z) :=
  match n with
  | O => Ret (None, h, saved)
  | Datatypes.S n =>
    match pendingTurn processed h with
    | Some (id, items) =>
      let! ' (page, saved) := readItemPage (itemParams thread items) saved in
      match (let? page := page in commitPage thread page items) with
      | Err e => Ret (Some e, h, saved)
      | Ok items =>
        quanta n thread
          (if str_eqb (statusValue (field "status" (ih_turn items))) "inProgress" && is_empty (ih_cursor items) then id :: processed else processed)
          (withItems id items h) saved
      end
    | None =>
      if hy_complete h then Ret (None, h, saved) else
      let! r := historyRequest "thread/turns/list" (turnParams thread 20 (hy_cursor h)) (decPage decObject) in
      match r with
      | Err e => Ret (Some e, h, saved)
      | Ok (data, next) =>
        match data with
        | None => Ret (Some (EMsg "activity turn cursor did not progress"), h, saved)
        | Some turns =>
          if match next with Some next => is_empty next || str_eqb next (hy_cursor h) || (Datatypes.length turns =? 0)%nat | None => false end
          then Ret (Some (EMsg "activity turn cursor did not progress"), h, saved) else
          match updateTurns turns false h with
          | Err e => Ret (Some e, h, saved)
          | Ok h =>
            quanta n thread processed
              (mkHistory (hy_path h) (hy_identity h) (hy_turns h) (hy_order h) (default (hy_cursor h) next)
                 (bool_decide (next = None)) (hy_initialized h)) saved
          end
        end
      end
    end
  end.

(** The metadata of the turns, oldest first, and whether all of it is there. *)
Definition turnsRead (thread : string) (h : activityHistory) : list TurnMetadata :=
  rev (omap (fun id => metadata thread <$> hy_turns h !! id) (hy_order h)).

Definition initialise (next : option string) (h : activityHistory) : res err activityHistory :=
  if hy_initialized h then Ok h else
  let started cursor := mkHistory (hy_path h) (hy_identity h) (hy_turns h) (hy_order h) cursor (bool_decide (next = None)) true in
  match next with
  | Some next => if is_empty next then Err (EMsg "invalid activity turn cursor") else Ok (started next)
  | None => Ok (started (hy_cursor h))
  end.
(** The history a failed start leaves is marked as started. *)
Definition initialised (next : option string) (h : activityHistory) : activityHistory :=
  mkHistory (hy_path h) (hy_identity h) (hy_turns h) (hy_order h) (hy_cursor h)
    (if hy_initialized h then hy_complete h else bool_decide (next = None)) true.

Definition readActivityHistory (ro : rollout) (thread : object) (cache : option activityHistory) (saved : Z)
    : prog (res err (list TurnMetadata * bool) * option activityHistory * Z) :=
  let threadID := stringValue (field "id" thread) in
  let path := stringValue (field "path" thread) in
  let identity := pageIdentity thread in
  Ctx (fun gate =>
    match gate with
    | Some e => Ret (Err e, cache, saved)
    | None =>
    match ro_file ro with
    | Err e =>
      if ro_missing ro then
        let! probe := historyRequest "thread/turns/list" (turnParams threadID 1 "") decTurns in
        match probe with
        | Err p => if freshThreadMissingSourceRollout sources (ro_absent ro) thread threadID p then Ret (Ok ([], true), cache, saved) else Ret (Err e, cache, saved)
        | Ok _ => Ret (Err e, cache, saved)
        end
      else Ret (Err e, cache, saved)
    | Ok None => Ret (Err (EMsg "activity history rollout is not materialized"), cache, saved)
    | Ok (Some _) =>
      let kept := match cache with Some h => str_eqb (hy_path h) path && sameValue (AArr (hy_identity h)) (AArr identity) && ro_same ro | None => false end in
      let h := if kept then default (freshHistory path identity) cache else freshHistory path identity in
      match (if kept then None else ro_tailOpened ro) with
      | Some e => Ret (Err e, Some h, saved)
      | None =>
      let! head := historyRequest "thread/turns/list" (turnParams threadID 20 "") (decPage decObject) in
      match head with
      | Err e => Ret (Err e, Some h, saved)
      | Ok (None, _) => Ret (Err (EMsg "activity turn page has no data"), Some h, saved)
      | Ok (Some turns, next) =>
        if (20 <? Datatypes.length turns)%nat then Ret (Err (EMsg "activity turn page has no data"), Some h, saved) else
        let reset := hy_initialized h && negb (bool_decide (hy_order h = [])) && negb (anchored (itemID <$> turns) (hy_order h)) in
        match (if reset then ro_tailReset ro else None) with
        | Some e => Ret (Err e, Some h, saved)
        | None =>
        let h := if reset then freshHistory path identity else h in
        match updateTurns turns true h with
        | Err e => Ret (Err e, Some h, saved)
        | Ok h =>
        match initialise next h with
        | Err e => Ret (Err e, Some (initialised next h), saved)
        | Ok h =>
          let! ' (failed, h, saved) := quanta 8 threadID [] h saved in
          match failed with
          | Some e => Ret (Err e, Some h, saved)
          | None =>
            match ro_tailKept ro with
            | Some e => Ret (Err e, Some h, saved)
            | None =>
              let turns := turnsRead threadID h in
              Ret (Ok (turns, hy_complete h && forallb tm_CountsKnown turns), Some h, saved)
            end
          end
        end
        end
        end
      end
      end
    end
    end).
End reading.
