(* ===== verification/ActivityHistoryFacts.v ===== *)
(** * Counting the items of a turn page by page

    The counts a read reports as known are those of all items of the turn, as
    long as the first page of a read reaches the end of the tail it has kept.
    Without that they need not be: items that finish are taken from a tail longer
    than the page, and then counted again from the page's cursor on. *)
From S2P Require Import Prelude GoStd GoValue TurnOptions Ledger LedgerFacts Store Program Wire History Delivery DeliveryFacts.
From S2P Require Import HistoryReader Prompts Continuation Activity ActivityHistory.
From stdpp Require Import pretty.
From Stdlib Require Import String.
Open Scope Z_scope.

(** ** A server that pages *)

(** The items as they are, and pages of up to [limit] items from a position on. *)
Definition entryOf (turn : string) (item : object) : threadItemEntry := mkItemEntry turn (Some item).
Definition pageAt (cursorAt : nat → string) (turn : string) (items : list object) (start n : nat) : itemPage :=
  (Some (entryOf turn <$> take n (drop start items)),
   if (start + n <? Datatypes.length items)%nat then Some (cursorAt (start + n)%nat) else None).

(** ** Items counted twice *)

Definition plainCursor (n : nat) : string := ("page-" ++ pretty n)%string.
Definition demoItem (status : string) (n : nat) : object :=
  [("id", AStr ("item-" ++ pretty n)); ("type", AStr "commandExecution"); ("status", AStr status)].
(** A command that keeps running while 96 others finish, and the same once it has finished. *)
Definition demoRunning : list object := demoItem "inProgress" 0 :: (demoItem "completed" <$> seq 1 96).
Definition demoFinished : list object := demoItem "completed" <$> seq 0 97.
Definition demoShell : object := [("id", AStr "turn"); ("status", AStr "inProgress")].
Definition readPages (items : list object) (starts : list nat) (h : res err activityItemHistory) : res err activityItemHistory :=
  foldl (fun h start => (let? h := h in commitPage "thread" (pageAt plainCursor "turn" items start 32) h)%codex) h starts.
Definition demoFirst : res err activityItemHistory := readPages demoRunning [0; 32; 64; 96]%nat (Ok (freshItems demoShell)).
Definition demoSecond : res err activityItemHistory := readPages demoFinished [0; 32; 64; 96]%nat demoFirst.
Definition reported (h : res err activityItemHistory) : option (Z * bool) :=
  match h with Ok h => Some (tm_ToolCalls (metadata "thread" h), tm_CountsKnown (metadata "thread" h)) | Err _ => None end.

(** Both reads follow the cursors they are given to the end; the second one reports 162 of
    97 calls, as known. *)
Example items_counted_twice : reported demoFirst = Some (97, true) ∧ reported demoSecond = Some (162, true).
Proof. split; vm_compute; reflexivity. Qed.
(** With 40 items the second read fails, and fails again from the same cursor. *)
Definition fewRunning : list object := demoItem "inProgress" 0 :: (demoItem "completed" <$> seq 1 39).
Definition fewFinished : list object := demoItem "completed" <$> seq 0 40.
Definition fewFirst : res err activityItemHistory := readPages fewRunning [0; 32]%nat (Ok (freshItems demoShell)).
Definition fewSecond : res err activityItemHistory := readPages fewFinished [0]%nat fewFirst.
Example read_stuck :
  match fewSecond with
  | Ok h => ih_cursor h = "page-32" ∧ commitPage "thread" (pageAt plainCursor "turn" fewFinished 32 32) h = Err (EMsg "invalid activity item identity")
  | Err _ => False
  end.
Proof. split; vm_compute; reflexivity. Qed.

(** ** Counts *)

Definition counts : Type := Z * Z * Z * bool.
Definition countsOf (t : TurnMetadata) : counts := (tm_Messages t, tm_ReceivedMessages t, tm_ToolCalls t, tm_HasSleep t).
Definition plus (a b : counts) : counts :=
  let '(m, r, c, s) := a in let '(m', r', c', s') := b in (m + m', r + r', c + c', s || s').
#[local] Arguments plus : simpl never.
Definition none : counts := (0, 0, 0, false).
(** What one item counts for, whatever its status. *)
Definition weight (thread : string) (item : object) : counts := countsOf (countItem thread zeroTurn "" item).
Definition total (thread : string) (items : list object) : counts := foldr (fun item => plus (weight thread item)) none items.

Lemma plus_assoc a b c : plus a (plus b c) = plus (plus a b) c.
Proof. destruct a as [[[? ?] ?] ?], b as [[[? ?] ?] ?], c as [[[? ?] ?] ?]. unfold plus; simpl. by rewrite !Z.add_assoc, orb_assoc. Qed.
Lemma plus_none a : plus a none = a.
Proof. destruct a as [[[? ?] ?] ?]. unfold plus; simpl. by rewrite !Z.add_0_r, orb_false_r. Qed.
Lemma none_plus a : plus none a = a.
Proof. by destruct a as [[[? ?] ?] ?]. Qed.
Lemma total_app thread a b : total thread (a ++ b) = plus (total thread a) (total thread b).
Proof. induction a as [|x a IH]; simpl; [by rewrite none_plus|]. by rewrite IH, plus_assoc. Qed.

Lemma countItem_counts thread t id item : countsOf (countItem thread t id item) = plus (countsOf t) (weight thread item).
Proof.
  unfold weight, countItem, countsOf. unfold plus. cbv zeta.
  repeat case_match; cbn; rewrite ?Z.add_0_r, ?orb_false_r, ?orb_true_r; try done.
Qed.
Lemma addCounts_counts a b : countsOf (addCounts a b) = plus (countsOf a) (countsOf b).
Proof. done. Qed.

(** Items with identities of their own. *)
Definition distinct (items : list object) : Prop := NoDup (itemID <$> items) ∧ "" ∉ (itemID <$> items).

Lemma countItems_total thread items seen t : distinct items → (∀ item, item ∈ items → itemID item ∉ seen) →
  countsOf (countItems thread (AObj <$> items) seen t) = plus (countsOf t) (total thread items).
Proof.
  revert seen t. induction items as [|x items IH]; intros seen t [Hnd Hne] Hseen; [simpl; by rewrite plus_none|].
  apply NoDup_cons in Hnd as [Hx Hnd]. rewrite fmap_cons, not_elem_of_cons in Hne. destruct Hne as [Hx0 Hne]. cbn [fmap list_fmap countItems].
  change (objectOrNil (AObj x)) with x. change (stringValue (field "id" x)) with (itemID x).
  rewrite (proj2 (is_empty_false _)) by congruence. rewrite (proj2 (str_in_false _ _)) by (apply Hseen; by left). simpl orb. cbv iota.
  rewrite IH; [|by split|].
  - rewrite countItem_counts. simpl. by rewrite plus_assoc.
  - intros item Hin [E|Hs]%elem_of_cons; [|by apply (Hseen item); [right|]]. apply Hx. rewrite <- E. by apply list_elem_of_fmap_2.
Qed.
Lemma itemsOf_counts thread id items : distinct items → countsOf (turnMetadata (itemsOf id items) thread) = total thread items.
Proof.
  intros Hd. change (turnMetadata (itemsOf id items) thread) with (countItems thread (AObj <$> items) [] (mkTurn id "" 0 0 0 0 0 0 true false ∅)).
  rewrite countItems_total; [by rewrite none_plus|done|]. intros ? _. apply not_elem_of_nil.
Qed.
Lemma single_counts thread item : itemID item ≠ "" →
  countsOf (turnMetadata [("items", AArr [AObj item]); ("itemsView", AStr "full")] thread) = weight thread item.
Proof.
  intros Hne. unfold turnMetadata. simpl. change (stringValue (field "id" item)) with (itemID item).
  rewrite (proj2 (is_empty_false _)) by done. simpl. rewrite countItem_counts. by rewrite none_plus.
Qed.

(** ** Items over time *)

Section items.
Context (thread : string).

(** The same item, perhaps with another status. *)
Definition static (x y : object) : Prop := itemID x = itemID y ∧ weight thread x = weight thread y.
#[local] Instance static_equivalence : Equivalence static.
Proof. split; [by split|intros ? ? []; by split|intros ? ? ? [? ?] [? ?]; split; congruence]. Qed.

Lemma projection_field key item : key ∈ ["id"; "type"; "status"; "senderThreadId"; "tool"] → field key (countProjection item) = field key item.
Proof.
  intros Hin. repeat (apply elem_of_cons in Hin as [->|Hin]; [
    unfold field, countProjection; cbn [omap list_omap];
    destruct (GoValue.assoc "id" item), (GoValue.assoc "type" item), (GoValue.assoc "status" item), (GoValue.assoc "senderThreadId" item), (GoValue.assoc "tool" item); vm_compute; reflexivity|]).
  by apply not_elem_of_nil in Hin.
Qed.
Lemma projection_static item : static (countProjection item) item.
Proof.
  split; [unfold itemID; by rewrite projection_field by set_solver|]. unfold weight, countItem. by rewrite !projection_field by set_solver.
Qed.

Lemma static_ids a b : Forall2 static a b → itemID <$> a = itemID <$> b.
Proof. induction 1 as [|x y a b [Hid _] _ IH]; [done|]. rewrite !fmap_cons. by f_equal. Qed.
Lemma static_total a b : Forall2 static a b → total thread a = total thread b.
Proof. induction 1 as [|x y a b [_ Hw] _ IH]; [done|]. simpl. by rewrite Hw, IH. Qed.

(** *** Merging a page *)

Lemma merge_skip turn page y tail : itemID y ∉ (itemID <$> page) →
  mergeItems (entryOf turn <$> page) (y :: tail) = y :: mergeItems (entryOf turn <$> page) tail.
Proof.
  unfold mergeItems. revert y tail. induction page as [|x page IH]; intros y tail Hn; [done|]. rewrite fmap_cons, not_elem_of_cons in Hn. destruct Hn as [Hx Hn].
  simpl. rewrite (proj1 (projection_static x)). rewrite (proj2 (str_eqb_neq _ _)) by done. by apply IH.
Qed.
Lemma merge_over turn page tail : distinct page → (Datatypes.length tail ≤ Datatypes.length page)%nat →
  Forall2 static tail (take (Datatypes.length tail) page) → Forall2 static (mergeItems (entryOf turn <$> page) tail) page.
Proof.
  revert tail. induction page as [|x page IH]; intros tail [Hnd Hne] Hle Ht.
  { destruct tail; [constructor|simpl in Hle; lia]. }
  rewrite fmap_cons in Hnd, Hne. apply NoDup_cons in Hnd as [Hx Hnd]. apply not_elem_of_cons in Hne as [_ Hne].
  assert (∀ tail', Forall2 static tail' (take (Datatypes.length tail') page) → (Datatypes.length tail' ≤ Datatypes.length page)%nat →
    Forall2 static (mergeItems (entryOf turn <$> page) (countProjection x :: tail')) (x :: page)) as Hrest.
  { intros tail' Ht' Hle'. rewrite merge_skip by (by rewrite (proj1 (projection_static x))). constructor; [apply projection_static|]. apply IH; [by split|lia|done]. }
  destruct tail as [|y tail]; [apply (Hrest []); [constructor|simpl; lia]|].
  simpl in Ht. apply Forall2_cons in Ht as [[Hy _] Ht]. unfold mergeItems. simpl.
  rewrite (proj1 (projection_static x)), Hy, str_eqb_refl. apply Hrest; [done|simpl in Hle; lia].
Qed.
Lemma merge_append turn page base tail : distinct (base ++ page) → Forall2 static tail base →
  Forall2 static (mergeItems (entryOf turn <$> page) tail) (base ++ page).
Proof.
  revert base. induction tail as [|y tail IH]; intros base Hd Ht; inversion Ht as [|? b ? base' Hy Ht']; subst.
  - apply merge_over; [done|simpl; lia|constructor].
  - destruct Hd as [Hnd Hne]. simpl in Hnd, Hne. apply NoDup_cons in Hnd as [Hb Hnd]. apply not_elem_of_cons in Hne as [_ Hne].
    rewrite merge_skip; [constructor; [done|]; apply IH; [by split|done]|]. rewrite (proj1 Hy). intros Hin. apply Hb. rewrite fmap_app. by apply elem_of_app; right.
Qed.

(** *** Taking finished items from the tail *)

Definition anchorOf (items : list object) : string := match last items with Some item => itemID item | None => "" end.
Lemma settle_split done seg prefix tail :
  countsOf prefix = total thread done → "" ∉ (itemID <$> seg) → Forall2 static tail seg →
  ∃ more left prefix' tail', seg = more ++ left ∧ settle thread prefix (anchorOf done) tail = (prefix', anchorOf (done ++ more), tail') ∧
    countsOf prefix' = total thread (done ++ more) ∧ Forall2 static tail' left.
Proof.
  revert done seg prefix. induction tail as [|y tail IH]; intros done seg prefix Hp Hne Ht; inversion Ht as [|? x ? seg' Hy Ht']; subst.
  { exists [], [], prefix, []. rewrite (app_nil_r done). split_and!; [done..|constructor]. }
  rewrite fmap_cons, not_elem_of_cons in Hne. destruct Hne as [Hx Hne].
  simpl. destruct (negb (str_eqb (statusValue (field "status" y)) "inProgress")).
  - destruct (IH (done ++ [x]) seg' (addCounts prefix (turnMetadata [("items", AArr [AObj y]); ("itemsView", AStr "full")] thread)))
      as (more & left & prefix' & tail' & -> & Hs & Hc & Hl); [|done|done|].
    + rewrite addCounts_counts, single_counts by (rewrite (proj1 Hy); congruence). rewrite total_app, Hp. f_equal. simpl. rewrite plus_none. by destruct Hy.
    + exists (x :: more), left, prefix', tail'. rewrite <- app_assoc in Hs, Hc. simpl in Hs, Hc. split_and!; try done.
      rewrite <- Hs. f_equal. unfold anchorOf. rewrite last_snoc. by destruct Hy.
  - exists [], (x :: seg'), prefix, (y :: tail). rewrite (app_nil_r done). by split_and!.
Qed.

(** *** What a history holds of the items *)

Context (cursorAt : nat → string) (turn : string).
Hypothesis cursor_inj : ∀ i j, cursorAt i = cursorAt j → i = j.
Hypothesis cursor_nonempty : ∀ i, cursorAt i ≠ "".

(** The shell of the turn: it has no items of its own. *)
Definition shellOf (shell : object) : Prop := itemID shell = turn ∧ countsOf (turnMetadata shell thread) = none.

(** Where the next page starts: at the cursor, after the anchor, or at the first item. *)
Definition startsAt (items : list object) (h : activityItemHistory) (start : nat) : Prop :=
  if negb (is_empty (ih_cursor h)) then ih_cursor h = cursorAt start
  else if negb (is_empty (ih_anchor h)) then ∃ i item, start = S i ∧ items !! i = Some item ∧ itemID item = ih_anchor h
  else start = 0%nat.
(** A page the server gives for the items it has. *)
Definition serves (items : list object) (h : activityItemHistory) (page : itemPage) : Prop :=
  ∃ start n, startsAt items h start ∧ (n ≤ 32)%nat ∧ ((start + n < Datatypes.length items)%nat → (0 < n)%nat)
    ∧ page = pageAt cursorAt turn items start n.
(** The first page of a read reaches the end of the tail that was kept. *)
Definition covers (page : itemPage) (h : activityItemHistory) : Prop :=
  ih_cursor h = "" → (Datatypes.length (ih_tail h) ≤ Datatypes.length (default [] (fst page)))%nat.
(** Items are added at the end and change in nothing but their status. *)
Definition evolves (items items' : list object) : Prop :=
  ∃ known more, items' = known ++ more ∧ Forall2 static items known ∧ distinct items'.

(** Reads of a turn while it goes on. *)
Inductive observed : list object → activityItemHistory → Prop :=
| observed_start items shell : distinct items → shellOf shell → observed items (freshItems shell)
| observed_evolve items items' h : observed items h → evolves items items' → observed items' h
| observed_shell items h shell : observed items h → shellOf shell → observed items (setShell shell h)
| observed_page items h page h' : observed items h → serves items h page → covers page h →
    commitPage thread page h = Ok h' → observed items h'.

Definition holds (items : list object) (h : activityItemHistory) : Prop :=
  distinct items ∧ shellOf (ih_turn h) ∧ ∃ done seg rest, items = done ++ seg ++ rest ∧
    countsOf (ih_prefix h) = total thread done ∧ ih_anchor h = anchorOf done ∧ Forall2 static (ih_tail h) seg ∧
    (if is_empty (ih_cursor h) then ih_seenCursors h = []
     else ih_cursor h = cursorAt (Datatypes.length (done ++ seg)) ∧
          ∀ c, c ∈ ih_seenCursors h → ∃ i, c = cursorAt i ∧ (i ≤ Datatypes.length (done ++ seg))%nat).

Lemma distinct_app a b : distinct (a ++ b) → distinct a ∧ distinct b.
Proof.
  intros [Hnd Hne]. rewrite fmap_app in Hnd, Hne. apply NoDup_app in Hnd as (? & _ & ?). apply not_elem_of_app in Hne as [? ?]. done.
Qed.
Lemma distinct_at items i j x y : distinct items → items !! i = Some x → items !! j = Some y → itemID x = itemID y → i = j.
Proof.
  intros [Hnd _] Hi Hj E. eapply NoDup_lookup; [done| |]; rewrite list_lookup_fmap; [by rewrite Hi|rewrite Hj; simpl; by rewrite E].
Qed.

Lemma fresh_holds items shell : distinct items → shellOf shell → holds items (freshItems shell).
Proof. intros Hd Hs. split_and!; [done..|]. exists [], [], items. by split_and!. Qed.
Lemma shell_holds items h shell : holds items h → shellOf shell → holds items (setShell shell h).
Proof. intros (Hd & _ & H) Hs. by split_and!. Qed.

Lemma anchorOf_static a b : Forall2 static a b → anchorOf a = anchorOf b.
Proof.
  intros H. unfold anchorOf. induction H as [|x y a b Hxy Hab IH]; [done|]. destruct Hab as [|x' y' a b Hxy' Hab]; [simpl; by destruct Hxy|].
  exact IH.
Qed.
Lemma evolve_holds items items' h : holds items h → evolves items items' → holds items' h.
Proof.
  intros (_ & Hs & done & seg & rest & -> & Hp & Ha & Ht & Hc) (known & more & -> & Hk & Hd).
  apply Forall2_app_inv_l in Hk as (done' & k1 & Hdone & Hk & ->). apply Forall2_app_inv_l in Hk as (seg' & rest' & Hseg & Hrest & ->).
  split_and!; [done..|]. exists done', seg', (rest' ++ more). rewrite <- !app_assoc. split_and!; try done.
  - by rewrite Hp, (static_total _ _ Hdone).
  - by rewrite Ha, (anchorOf_static _ _ Hdone).
  - by etrans.
  - rewrite length_app in *. by rewrite <- (Forall2_length _ _ _ Hdone), <- (Forall2_length _ _ _ Hseg).
Qed.

Lemma entries_valid anchor page seen : distinct page → anchor ∉ (itemID <$> page) → (∀ x, x ∈ page → itemID x ∉ seen) →
  entriesValid turn anchor seen (entryOf turn <$> page) = true.
Proof.
  revert seen. induction page as [|x page IH]; intros seen [Hnd Hne] Ha Hseen; [done|].
  rewrite fmap_cons in Hnd, Hne, Ha. apply NoDup_cons in Hnd as [Hx Hnd]. apply not_elem_of_cons in Hne as [Hx0 Hne]. apply not_elem_of_cons in Ha as [Hxa Ha].
  simpl. change (stringValue (itemField "id" (entryOf turn x))) with (itemID x). rewrite str_eqb_refl.
  rewrite (proj2 (is_empty_false _)), (proj2 (str_in_false _ _)), (proj2 (str_eqb_neq _ _)) by (try congruence; apply Hseen; by left).
  simpl. apply IH; [by split|done|]. intros y Hy [E|Hs]%elem_of_cons; [apply Hx; rewrite <- E; by apply list_elem_of_fmap_2|].
  by apply (Hseen y); [right|].
Qed.

(** Where the page starts, and what the merged tail is then a tail of. *)
Lemma page_merges items h page done seg rest :
  distinct items → items = done ++ seg ++ rest → ih_anchor h = anchorOf done → Forall2 static (ih_tail h) seg →
  (is_empty (ih_cursor h) = false → ih_cursor h = cursorAt (Datatypes.length (done ++ seg))) →
  serves items h page → covers page h →
  ∃ P seg1 rest1 start n, page = pageAt cursorAt turn items start n ∧ P = take n (drop start items) ∧ items = done ++ seg1 ++ rest1 ∧
    (n ≤ 32)%nat ∧ ((start + n < Datatypes.length items)%nat → (0 < n)%nat) ∧
    (Datatypes.length done ≤ start)%nat ∧ (Datatypes.length (done ++ seg1) = start + Datatypes.length P)%nat ∧
    (is_empty (ih_cursor h) = false → start = Datatypes.length (done ++ seg)) ∧
    Forall2 static (mergeItems (entryOf turn <$> P) (ih_tail h)) seg1.
Proof.
  intros Hd Hi Ha Ht Hcur (start & n & Hst & Hn & Hpos & ->) Hcov.
  set (P := take n (drop start items)). unfold startsAt in Hst. destruct (is_empty (ih_cursor h)) eqn:Ec; simpl in Hst.
  - assert (start = Datatypes.length done) as ->.
    { rewrite Ha in Hst. destruct (is_empty (anchorOf done)) eqn:Ea; simpl in Hst.
      - subst start. destruct (last done) as [x|] eqn:El; [|by apply last_None in El as ->]. exfalso. unfold anchorOf in Ea. rewrite El in Ea. bools.
        destruct Hd as [_ Hne]. apply Hne. rewrite <- Ea. apply list_elem_of_fmap_2. rewrite Hi. apply elem_of_app. left. by apply last_Some_elem_of.
      - destruct Hst as (i & x & -> & Hx & Hid). unfold anchorOf in Ea, Hid. destruct (last done) as [y|] eqn:El; [|done].
        assert (items !! (Nat.pred (Datatypes.length done)) = Some y) as Hy.
        { rewrite Hi. rewrite lookup_app_l; [by rewrite <- last_lookup|]. rewrite last_lookup in El. by apply lookup_lt_Some in El. }
        assert (i = Nat.pred (Datatypes.length done)) as -> by (by eapply (distinct_at items)). rewrite last_lookup in El. apply lookup_lt_Some in El. lia. }
    bools. specialize (Hcov Ec). assert (P = take n (seg ++ rest)) as HP by (unfold P; by rewrite Hi, drop_app_length).
    simpl in Hcov. rewrite length_fmap in Hcov. fold P in Hcov.
    exists P, P, (drop n (seg ++ rest)), (Datatypes.length done), n.
    assert (items = done ++ P ++ drop n (seg ++ rest)) as Hsplit by (rewrite HP, take_drop; done).
    split_and!; try done; [rewrite length_app; lia|]. apply merge_over; [|done|].
    + rewrite Hsplit in Hd. by apply distinct_app in Hd as [_ [Hd _]%distinct_app].
    + pose proof (Forall2_length _ _ _ Ht) as Hlen. replace (take (Datatypes.length (ih_tail h)) P) with seg; [done|].
      rewrite HP, take_take. rewrite HP, length_take in Hcov. rewrite Nat.min_l by lia. rewrite Hlen. by rewrite take_app_length.
  - specialize (Hcur eq_refl). rewrite Hcur in Hst. apply cursor_inj in Hst. subst start.
    assert (P = take n rest) as HP by (unfold P; rewrite Hi, app_assoc; by rewrite drop_app_length).
    exists P, (seg ++ P), (drop n rest), (Datatypes.length (done ++ seg)), n.
    assert (items = done ++ (seg ++ P) ++ drop n rest) as Hsplit by (rewrite Hi, <- app_assoc, HP, take_drop; done).
    split_and!; try done; [rewrite length_app; lia|rewrite !length_app; lia|]. apply merge_append; [|done].
    rewrite Hsplit in Hd. by apply distinct_app in Hd as [_ [Hd _]%distinct_app].
Qed.

(** The page is accepted, and the history holds the items up to its end. *)
Lemma page_held items h page : holds items h → serves items h page → covers page h →
  ∃ h', commitPage thread page h = Ok h' ∧ holds items h' ∧
    match snd page with
    | Some _ => ih_cursor h' ≠ ""
    | None => ih_cursor h' = "" ∧ ih_loaded h' = true ∧ distinct (ih_tail h') ∧
        plus (countsOf (ih_prefix h')) (total thread (ih_tail h')) = total thread items
    end.
Proof.
  intros (Hd & Hs & done & seg & rest & Hi & Hp & Ha & Ht & Hc) Hserve Hcov.
  destruct (page_merges items h page done seg rest Hd Hi Ha Ht) as (P & seg1 & rest1 & start & n & -> & HP & Hi1 & Hn & Hpos & Hle & Hlen & Hstart & Hm);
    [intros Ec; rewrite Ec in Hc; by destruct Hc|done|done|].
  assert (distinct (done ++ seg1)) as Hd1 by (rewrite app_assoc in Hi1; rewrite Hi1 in Hd; by apply distinct_app in Hd as [Hd _]).
  assert (distinct P) as HdP.
  { rewrite HP. rewrite <- (take_drop start items) in Hd. apply distinct_app in Hd as [_ Hd]. rewrite <- (take_drop n (drop start items)) in Hd.
    by apply distinct_app in Hd as [Hd _]. }
  assert (ih_anchor h ∉ (itemID <$> P)) as Hanchor.
  { rewrite Ha. unfold anchorOf. destruct (last done) as [x|] eqn:El; [|by destruct HdP]. rewrite last_lookup in El. intros (y & Hid & Hy)%list_elem_of_fmap.
    rewrite HP in Hy. apply list_elem_of_lookup in Hy as [i Hy]. apply lookup_take_Some in Hy as [Hy _]. rewrite lookup_drop in Hy.
    assert (items !! (Nat.pred (Datatypes.length done)) = Some x) as Hx by (rewrite Hi; by apply lookup_app_l_Some).
    pose proof (distinct_at _ _ _ _ _ Hd Hx Hy Hid). apply lookup_lt_Some in El. lia. }
  destruct (settle_split done seg1 (ih_prefix h) _ Hp (proj2 (proj2 (distinct_app _ _ Hd1))) Hm) as (more & left & prefix' & tail' & -> & Hset & Hpre & Hleft).
  assert (Hfull : (start + n < Datatypes.length items)%nat → Datatypes.length P = n) by (intros Hlt; rewrite HP, length_take, length_drop; lia).
  assert (Hend : ¬ (start + n < Datatypes.length items)%nat → rest1 = []).
  { intros Hge. apply nil_length_inv. rewrite HP, length_take, length_drop in Hlen. pose proof (f_equal Datatypes.length Hi1) as Hl. rewrite !length_app in *. lia. }
  unfold commitPage, pageAt. cbn [fst snd]. rewrite <- HP, length_fmap.
  assert ((32 <? Datatypes.length P)%nat = false) as -> by (apply Nat.ltb_ge; rewrite HP, length_take; lia). cbn [guard res_bind].
  destruct (start + n <? Datatypes.length items)%nat eqn:En.
  - apply Nat.ltb_lt in En. specialize (Hpos En). specialize (Hfull En). cbv iota.
    assert (is_empty (cursorAt (start + n)) || str_eqb (cursorAt (start + n)) (ih_cursor h) || str_in (cursorAt (start + n)) (ih_seenCursors h)
            || (Datatypes.length P =? 0)%nat = false) as ->.
    { rewrite (proj2 (is_empty_false _)) by done. rewrite (proj2 (Nat.eqb_neq _ _)) by lia.
      destruct (is_empty (ih_cursor h)) eqn:Ec.
      - bools. rewrite Hc, Ec. rewrite (proj2 (str_eqb_neq _ _)) by done. done.
      - specialize (Hstart eq_refl). destruct Hc as [Hc Hseen]. rewrite Hc, (proj2 (str_eqb_neq _ _)), (proj2 (str_in_false _ _)); [done| |].
        + intros (i & E & Hi')%Hseen. apply cursor_inj in E. lia.
        + intros E%cursor_inj. lia. }
    cbn [guard res_bind]. rewrite (proj1 Hs), (entries_valid (ih_anchor h)); [|done|done|by intros; apply not_elem_of_nil].
    cbn [guard res_bind negb]. rewrite Ha, Hset. eexists. split; [reflexivity|]. split; [|apply cursor_nonempty]. split_and!; [done..|].
    exists (done ++ more), left, rest1. cbn [ih_prefix ih_anchor ih_tail ih_cursor ih_seenCursors].
    rewrite (proj2 (is_empty_false _)) by done. rewrite <- !app_assoc, Hi1, <- !app_assoc. split_and!; try done.
    + rewrite Hlen, Hfull; done.
    + intros c [->|Hin]%elem_of_cons; [exists (start + n)%nat; split; [done|lia]|].
      destruct (is_empty (ih_cursor h)) eqn:Ec; [rewrite Hc in Hin; by apply not_elem_of_nil in Hin|]. destruct Hc as [_ Hseen].
      destruct (Hseen c Hin) as (i & -> & Hle'). exists i. split; [done|]. specialize (Hstart eq_refl). lia.
  - apply Nat.ltb_ge in En. rewrite (Hend ltac:(lia)) in Hi1. cbv iota. cbn [guard res_bind].
    rewrite (proj1 Hs), (entries_valid (ih_anchor h)); [|done|done|by intros; apply not_elem_of_nil].
    cbn [guard res_bind negb]. rewrite Ha, Hset. eexists. split; [reflexivity|]. cbn [ih_prefix ih_anchor ih_tail ih_cursor ih_seenCursors ih_loaded].
    split; [split_and!; [done..|]; exists (done ++ more), left, []; rewrite <- !app_assoc; rewrite <- app_assoc in Hi1; by split_and!|].
    split_and!; try done.
    + apply distinct_app in Hd1 as [_ [_ [Hnd Hne]]%distinct_app]. unfold distinct. by rewrite (static_ids _ _ Hleft).
    + rewrite Hpre, (static_total _ _ Hleft), <- total_app, Hi1. by rewrite !app_assoc, !app_nil_r.
Qed.

Lemma observed_holds items h : observed items h → holds items h.
Proof.
  induction 1 as [items shell Hd Hs|items items' h _ IH He|items h shell _ IH Hs|items h page h' _ IH Hserve Hcov Hok].
  - by apply fresh_holds.
  - by eapply evolve_holds.
  - by apply shell_holds.
  - destruct (page_held items h page IH Hserve Hcov) as (h1 & E & Hh & _). congruence.
Qed.

(** C30. The items of a turn are counted while it goes on, a page at a time, and each of them
    once: as long as the first page of a read reaches the end of the tail that was kept,
    every page the server gives is accepted, the counts are reported as known exactly when
    the last page was read, and they are then those of all items the turn has. *)
Theorem item_counts_exact items h page : observed items h → serves items h page → covers page h →
  ∃ h', commitPage thread page h = Ok h' ∧
    (tm_CountsKnown (metadata thread h') = true ↔ snd page = None) ∧
    (snd page = None → countsOf (metadata thread h') = countsOf (turnMetadata (itemsOf turn items) thread)).
Proof.
  intros Ho Hserve Hcov. apply observed_holds in Ho. destruct (page_held items h page Ho Hserve Hcov) as (h' & E & (Hd & Hs & _) & Hend).
  exists h'. split; [done|]. destruct (snd page) as [next|].
  - split; [|done]. split; [|done]. unfold metadata. cbn [tm_CountsKnown]. rewrite (proj2 (is_empty_false _)) by done. by rewrite andb_false_r.
  - destruct Hend as (Hc & Hl & Ht & Htot). split; [split; [done|]; intros _; unfold metadata; cbn [tm_CountsKnown]; by rewrite Hc, Hl|]. intros _.
    rewrite itemsOf_counts by done. rewrite <- Htot. unfold metadata.
    match goal with |- countsOf (mkTurn ?a ?b ?c ?d ?e ?f ?g ?i ?j ?k ?l) = _ =>
      change (countsOf (mkTurn a b c d e f g i j k l)) with (countsOf (addCounts (addCounts (turnMetadata (ih_turn h') thread) (ih_prefix h'))
        (turnMetadata (itemsOf (tm_ID (addCounts (turnMetadata (ih_turn h') thread) (ih_prefix h'))) (ih_tail h')) thread))) end.
    rewrite !addCounts_counts, itemsOf_counts by done. by rewrite (proj2 Hs), none_plus.
Qed.
End items.

(** ** A concrete read *)

Lemma pretty_nat_inj (i j : nat) : plainCursor i = plainCursor j → i = j.
Proof. unfold plainCursor. intros E. simpl in E. injection E as E. by apply (inj pretty). Qed.
Lemma item_counts_exact_witness :
  ∃ h', commitPage "thread" (pageAt plainCursor "turn" (take 40 demoRunning) 0 32) (freshItems demoShell) = Ok h' ∧
    tm_CountsKnown (metadata "thread" h') = false.
Proof.
  destruct (item_counts_exact "thread" plainCursor "turn" pretty_nat_inj ltac:(done) (take 40 demoRunning) (freshItems demoShell)
    (pageAt plainCursor "turn" (take 40 demoRunning) 0 32)) as (h' & E & Hk & _).
  - apply observed_start; [|by split]. split.
    + apply (bool_decide_unpack _). vm_compute. exact I.
    + apply (bool_decide_unpack _). vm_compute. exact I.
  - exists 0%nat, 32%nat. split; [done|]. split; [lia|]. split; [lia|done].
  - intros _. simpl. lia.
  - exists h'. split; [exact E|]. apply not_true_is_false. intros H. apply Hk in H. vm_compute in H. discriminate.
Defined.

(** ** Turns *)

(** The order lists every turn once, and nothing else is kept. *)
Definition ordered (h : activityHistory) : Prop :=
  NoDup (hy_order h) ∧ ∀ id, id ∈ hy_order h ↔ is_Some (hy_turns h !! id).

Lemma install_spec shells turns ids turns' : installShells shells turns = (ids, turns') →
  NoDup ids ∧ (∀ id, id ∈ ids → turns !! id = None) ∧ (∀ id, is_Some (turns' !! id) ↔ is_Some (turns !! id) ∨ id ∈ ids).
Proof.
  revert turns ids turns'. induction shells as [|shell shells IH]; intros turns ids turns'; simpl.
  { intros [= <- <-]. split_and!; [constructor|by intros ? ?%not_elem_of_nil|]. intros id. rewrite elem_of_nil. tauto. }
  destruct (turns !! itemID shell) as [old|] eqn:E.
  - intros (Hnd & Hfresh & Hdom)%IH. split_and!; [done| |].
    + intros id Hin. apply Hfresh in Hin. by apply lookup_insert_None in Hin as [? _].
    + intros id. rewrite Hdom, lookup_insert_is_Some. destruct (decide (itemID shell = id)) as [<-|]; [rewrite E|]; naive_solver.
  - destruct (installShells shells _) as [ids1 turns1] eqn:E1. intros [= <- <-]. apply IH in E1 as (Hnd & Hfresh & Hdom). split_and!.
    + constructor; [|done]. intros Hin. apply Hfresh in Hin. by rewrite lookup_insert_eq in Hin.
    + intros id [->|Hin]%elem_of_cons; [done|]. apply Hfresh in Hin. by apply lookup_insert_None in Hin as [? _].
    + intros id. rewrite Hdom, lookup_insert_is_Some, elem_of_cons. destruct (decide (itemID shell = id)) as [<-|]; naive_solver.
Qed.
(** A page of turns is taken whole or not at all. *)
Lemma update_ordered turns prepend h h' : ordered h → updateTurns turns prepend h = Ok h' → ordered h'.
Proof.
  intros [Hnd Hdom] H. unfold updateTurns in H. destruct (shellsOf [] turns) as [shells|]; [|done]. simpl in H.
  destruct (installShells shells (hy_turns h)) as [ids installed] eqn:E. injection H as <-. apply install_spec in E as (Hn & Hfresh & Hd).
  assert (∀ id, id ∈ ids → id ∉ hy_order h) as Hdis by (intros id Hin Ho; apply Hdom in Ho; rewrite Hfresh in Ho by done; by destruct Ho).
  split; cbn [hy_order hy_turns].
  - destruct prepend; apply NoDup_app; split_and!; try done. intros id Ho Hin. by apply (Hdis id).
  - intros id. rewrite Hd, <- Hdom. destruct prepend; rewrite elem_of_app; tauto.
Qed.
Lemma withItems_ordered id items h : ordered h → is_Some (hy_turns h !! id) → ordered (withItems id items h).
Proof.
  intros [Hnd Hdom] Hid. split; [done|]. intros id'. cbn [withItems hy_turns hy_order]. rewrite Hdom, lookup_insert_is_Some.
  destruct (decide (id = id')) as [<-|]; naive_solver.
Qed.
