(* ===== verification/RolloutFile.v ===== *)
(** * Rollout files on disk

    What the readers of a rollout see of the file system: the file a path
    opens, its [os.FileInfo], the bytes of a bounded read, and the tail that
    tells an appended file from a rewritten one ([pageRolloutTail] of
    [src/codex/thread_page.go], [pageMetadataTailMatches] of
    [src/codex/page_metadata.go]). *)
From Stdlib Require Import Ascii String.
From S2P Require Import Prelude GoStd GoPath GoValue.
Open Scope Z_scope.

(** A file: its device and inode, its modification time, whether it is a
    regular file, and its bytes. *)
Record fileNode := mkNode { fn_inode : Z; fn_mtime : Z; fn_regular : bool; fn_content : bytes }.

Definition size (l : bytes) : Z := Z.of_nat (Datatypes.length l).
Definition nodeSize (n : fileNode) : Z := size (fn_content n).

(** [os.FileInfo] *)
Record fileInfo := mkInfo { fi_inode : Z; fi_size : Z; fi_mtime : Z }.
Definition stat (n : fileNode) : fileInfo := mkInfo (fn_inode n) (nodeSize n) (fn_mtime n).
(** [os.SameFile] *)
Definition sameFile (a b : fileInfo) : bool := fi_inode a =? fi_inode b.

(** One call of the function given to [filepath.WalkDir]. *)
Inductive visit :=
| VMissing                                              (** an error that is [os.ErrNotExist] *)
| VError (e : err)
| VEntry (path : string) (symlink directory : bool) (name : string).

(** [d_open] is what [os.Open] finds at a path; [d_nofollow] what opening it
    without following a symbolic link finds, [None] being an error of the call;
    [d_walk] the calls a walk of a directory makes. *)
Record disk := mkDisk {
  d_open : string → option fileNode;
  d_nofollow : string → option fileNode;
  d_walk : string → list visit }.

(** What does not depend on a link is found either way. *)
Definition diskOk (d : disk) : Prop := ∀ path n, d_nofollow d path = Some n → d_open d path = Some n.

(** [io.LimitReader] *)
Fixpoint limitReader (n : Z) (l : bytes) : bytes :=
  match l with
  | [] => []
  | b :: l => if n <=? 0 then [] else b :: limitReader (n - 1) l
  end.

(** A read of [n] bytes at most from the offset [from] *)
Definition readAt (l : bytes) (from n : Z) : bytes := limitReader n (drop (Z.to_nat from) l).

Definition readLimit : Z := 64 * 1024 * 1024.

(** [file.ReadAt] of [n] bytes fails when the file ends before them. *)
Definition readFull (l : bytes) (from n : Z) : option bytes :=
  if (from <? 0) || (size l <? from + n) then None else Some (readAt l from n).

Definition tailSize : Z := 4096.

(** The last bytes of the first [sz] bytes, 4096 at most. *)
Definition pageRolloutTail (d : disk) (path : string) (sz : Z) : res err bytes :=
  match d_open d path with
  | None => Err (EMsg "open")
  | Some n =>
    let length := if sz <? tailSize then sz else tailSize in
    if 0 <? length then
      match readFull (fn_content n) (sz - length) length with
      | Some tail => Ok tail
      | None => Err (EMsg "EOF")
      end
    else Ok []
  end.

Definition pageMetadataTailMatches (d : disk) (path : string) (expected : fileInfo) (sz : Z) (tail : bytes) : bool :=
  match d_open d path with
  | None => false
  | Some n =>
    if negb (fn_regular n) || negb (sameFile (stat n) expected) || (nodeSize n <? sz) then false else
    match tail with
    | [] => true
    | _ => bool_decide (readFull (fn_content n) (sz - size tail) (size tail) = Some tail)
    end
  end.

(** ** The context of a call *)

(** How many of its checks find the context alive: [None] when it is not
    cancelled while the call runs. *)
Definition ctx := option nat.
Definition ctxErr (c : ctx) : option ctx :=
  match c with
  | None => Some None
  | Some O => None
  | Some (S n) => Some (Some n)
  end.

(** ** Lemmas *)

Lemma size_nonneg l : 0 ≤ size l.
Proof. unfold size. lia. Qed.

Lemma size_app a b : size (a ++ b) = size a + size b.
Proof. unfold size. rewrite length_app. lia. Qed.

Lemma limitReader_take n l : limitReader n l = take (Z.to_nat n) l.
Proof.
  revert n. induction l as [|b l IH]; intros n; simpl; [by rewrite take_nil|].
  destruct (n <=? 0) eqn:E; [by replace (Z.to_nat n) with 0%nat by lia|].
  replace (Z.to_nat n) with (S (Z.to_nat (n - 1))) by lia. simpl. by rewrite IH.
Qed.

Lemma readAt_app a b from n : 0 ≤ from → 0 ≤ n → from + n ≤ size a → readAt (a ++ b) from n = readAt a from n.
Proof.
  unfold readAt, size. rewrite ?limitReader_take. intros Hf Hn Hle. rewrite drop_app_le by lia. rewrite take_app_le; [done|]. rewrite length_drop. lia.
Qed.

Lemma readAt_prefix a b : readAt (a ++ b) 0 (size a) = a.
Proof.
  unfold readAt, size. rewrite ?limitReader_take. rewrite Nat2Z.id. change (Z.to_nat 0) with 0%nat. by rewrite drop_0, take_app_length.
Qed.

Lemma readAt_suffix a b : readAt (a ++ b) (size a) (size (a ++ b) - size a) = b.
Proof.
  unfold readAt. rewrite limitReader_take, size_app. unfold size. rewrite Nat2Z.id, drop_app_length.
  replace (Z.to_nat _) with (Datatypes.length b) by lia. by rewrite take_ge.
Qed.

Lemma readFull_app a b from n : 0 ≤ n → from + n ≤ size a → readFull (a ++ b) from n = readFull a from n.
Proof.
  intros Hn Hle. unfold readFull. rewrite size_app. pose proof (size_nonneg b).
  rewrite (proj2 (Z.ltb_ge (size a) _)), (proj2 (Z.ltb_ge (size a + size b) _)) by lia. rewrite !orb_false_r.
  destruct (from <? 0) eqn:Hf; [done|]. rewrite readAt_app by lia. done.
Qed.

Lemma readFull_size l from n t : 0 ≤ n → readFull l from n = Some t → size t = n.
Proof.
  unfold readFull. intros Hn H. destruct (_ || _) eqn:Hg; [done|]. simplify_eq. apply orb_false_iff in Hg as [Hf Hs].
  unfold readAt, size in *. rewrite limitReader_take, length_take, length_drop. lia.
Qed.

(** The tail of a file is found again after the file has grown. *)
Lemma tail_matches d d' path n n' sz tail e :
  pageRolloutTail d path sz = Ok tail → d_open d path = Some n → d_open d' path = Some n' →
  fn_regular n' = true → sameFile (stat n') e = true →
  0 ≤ sz ≤ nodeSize n → fn_content n `prefix_of` fn_content n' →
  pageMetadataTailMatches d' path e sz tail = true.
Proof.
  unfold pageRolloutTail, pageMetadataTailMatches. intros Ht Hd Hd' Hreg Hsame Hsz [x Hx]. rewrite Hd in Ht. rewrite Hd', Hreg, Hsame.
  assert (nodeSize n' = nodeSize n + size x) as Hs by (unfold nodeSize; rewrite Hx; apply size_app).
  pose proof (size_nonneg x). simpl. rewrite (proj2 (Z.ltb_ge _ _)) by lia.
  set (l := if sz <? tailSize then sz else tailSize) in *.
  assert (l ≤ sz) by (unfold l; destruct (sz <? tailSize) eqn:E; lia).
  destruct (0 <? l) eqn:Hl; [|by simplify_eq].
  destruct (readFull (fn_content n) (sz - l) l) as [t|] eqn:Hr; simplify_eq.
  apply Z.ltb_lt in Hl. assert (size tail = l) as Hts by (eapply readFull_size; [|exact Hr]; lia). rewrite Hts, Hx.
  destruct tail as [|b t']; [done|]. apply bool_decide_eq_true. rewrite readFull_app by (unfold nodeSize in *; lia). done.
Qed.
