(* ===== verification/Headless.v ===== *)
(** * Headless member threads

    [src/codex/headless.go]: an application-owned thread that no user has written
    to yet is verified, given its one internal history item, and deleted while it
    is still empty. What was written is judged by the rollout, not by answers, so a
    lost answer can be made up for.

    [stats n] and [files n] are the file system at the code's [n]-th look;
    [json.Unmarshal] of a line is the parameter [decodeEntry]. *)
From Stdlib Require Import Ascii String.
From S2P Require Import Prelude GoStd GoPath GoValue TurnOptions Ledger LedgerFacts Store Program Wire History Delivery Prompts HistoryReader Continuation Threads InitialMessage RolloutFile.
Open Scope Z_scope.
Open Scope codex_scope.

(** ** The rollout *)

(** The fields of a record that are looked at. *)
Record headlessEntry := mkHeadlessEntry {
  he_Type : string; he_ID : string; he_PayloadType : string; he_Role : string;
  he_Content : list (string * string) }.   (** type and text *)

(** One developer message whose only content is the marker. *)
Definition isMarker (marker : string) (entry : headlessEntry) : bool :=
  str_eqb (he_Type entry) "response_item" && str_eqb (he_PayloadType entry) "message"
  && str_eqb (he_Role entry) "developer" && bool_decide (he_Content entry = [("input_text", marker)]).
Definition isMeta (entry : headlessEntry) : bool := str_eqb (he_Type entry) "session_meta".

Section rollout.
Context (decodeEntry : bytes → option headlessEntry).

(** The scanner's loop; the counts are of metadata and markers. *)
Fixpoint scanHeadless (threadID marker : string) (lines : list bytes) (metaCount markerCount : Z) : res err (Z * Z) :=
  match lines with
  | [] => Ok (metaCount, markerCount)
  | line :: rest =>
    if tooLong readLimit line then Err (EMsg "bufio.Scanner: token too long") else
    match decodeEntry (dropCR line) with
    | None => Err (EMsg "decode headless Codex rollout")
    | Some entry =>
      if isMeta entry && negb (str_eqb (he_ID entry) threadID)
      then Err (EMsg "headless Codex rollout has the wrong thread ID")
      else scanHeadless threadID marker rest (if isMeta entry then metaCount + 1 else metaCount)
             (if isMarker marker entry then markerCount + 1 else markerCount)
    end
  end.

Definition verifyHeadlessBootstrapRollout (d : disk) (path threadID marker : string) : res err unit :=
  match d_open d path with
  | None => Err (EMsg "open")
  | Some node =>
    let? _ := guard (negb (fn_regular node)) (EMsg "headless Codex rollout is not a regular file") in
    let? counts := scanHeadless threadID marker (scanLines (fn_content node)) 0 0 in
    guard (negb (counts.1 =? 1) || negb (counts.2 =? 1))
      (EMsg "headless Codex rollout has the wrong number of matching metadata and bootstrap markers")
  end.

(** ** The thread *)

Context (options : clientOptions) (sources : list string) (fuel : nat).
Context (stats : nat → string → fileStat) (files : nat → disk).
Let Request {T} := @Request options T.

(** What follows the answer of [thread/read]. *)
Definition memberThread (look : nat) (cwd projectID sourceID : string) (thread : ThreadMetadata) : res err bool :=
  let? _ := guard
    (negb (str_eqb (tm_Cwd thread) cwd)
     || (negb (is_empty projectID)
         && (match tm_ProjectID thread with Some p => negb (str_eqb p projectID) | None => false end
             || negb (is_empty (tm_ForkedFromID thread))))
     || (negb (is_empty sourceID) && negb (str_eqb (tm_ForkedFromID thread) sourceID))
     || negb (threadSource sources (tm_Source thread))
     || negb (bool_decide (tm_Ephemeral thread = Some false)) || negb (str_eqb (tm_HistoryMode thread) "paginated"))
    (EMsg "headless Codex thread has the wrong identity") in
  match tm_Path thread with
  | None => Err (EMsg "headless Codex thread has an invalid rollout path")
  | Some path =>
    let? _ := guard (is_empty path || negb (isAbs path) || negb (str_eqb (clean path) path))
                (EMsg "headless Codex thread has an invalid rollout path") in
    match stats look path with
    | StatFound regular =>
      let? _ := guard (negb regular) (EMsg "headless Codex thread rollout is not a regular file") in
      let? _ := guard (negb (is_empty projectID) && bool_decide (tm_ProjectID thread = None))
                  (EMsg "materialized headless Codex thread has no project identity") in
      Ok true
    | StatFailed e => Err (EWrap "inspect headless Codex rollout" e)
    | StatAbsent =>
      let? _ := guard (negb (is_empty (tm_Preview thread)) || negb (noTurns (tm_Turns thread))
                       || negb (str_in (statusValue (AObj (tm_Status thread))) ["idle"; "notLoaded"]))
                  (EMsg "missing headless Codex rollout is not a fresh idle thread") in
      Ok false
    end
  end.

Definition headlessThreadMaterialized (look : nat) (threadID cwd projectID sourceID : string) : prog (res err bool) :=
  if Bool.eqb (is_empty projectID) (is_empty sourceID)
  then Ret (Err (EMsg "headless Codex thread requires exactly one expected origin")) else
  try! thread := ReadThreadMetadata options threadID false in
  Ret (memberThread look cwd projectID sourceID thread).

Definition HeadlessThreadMaterialized (look : nat) (threadID cwd projectID : string) : prog (res err bool) :=
  headlessThreadMaterialized look threadID cwd projectID "".
Definition ForkedHeadlessThreadMaterialized (look : nat) (threadID cwd sourceID : string) : prog (res err bool) :=
  headlessThreadMaterialized look threadID cwd "" sourceID.

Definition changedIdentity (cwd projectID sourceID : string) (thread : ThreadMetadata) : bool :=
  negb (str_eqb (tm_Cwd thread) cwd)
  || (negb (is_empty projectID) && negb (bool_decide (tm_ProjectID thread = Some projectID)))
  || (negb (is_empty sourceID) && negb (str_eqb (tm_ForkedFromID thread) sourceID)).

Definition verifyHeadlessBootstrap (look : nat) (threadID cwd projectID sourceID marker : string) : prog (res err unit) :=
  try! there := headlessThreadMaterialized look threadID cwd projectID sourceID in
  if negb there then Ret (Err (EMsg "headless Codex thread has no persisted rollout")) else
  try! thread := ReadThreadMetadata options threadID true in
  match tm_Path thread with
  | None => Ret (Err (EMsg "headless Codex thread identity changed"))
  | Some path =>
    if changedIdentity cwd projectID sourceID thread then Ret (Err (EMsg "headless Codex thread identity changed"))
    else Ret (verifyHeadlessBootstrapRollout (files look) path threadID marker)
  end.

Definition VerifyHeadlessBootstrap (look : nat) (threadID cwd projectID marker : string) : prog (res err unit) :=
  verifyHeadlessBootstrap look threadID cwd projectID "" marker.
Definition VerifyForkedHeadlessBootstrap (look : nat) (threadID cwd sourceID marker : string) : prog (res err unit) :=
  verifyHeadlessBootstrap look threadID cwd "" sourceID marker.

Definition injectParams (threadID marker : string) : object :=
  [("threadId", AStr threadID);
   ("items", AArr [AObj [("type", AStr "message"); ("role", AStr "developer");
                         ("content", AArr [AObj [("type", AStr "input_text"); ("text", AStr marker)]])]])].

Definition bootstrapHeadlessThread (threadID cwd projectID sourceID marker : string) : prog (res err unit) :=
  if is_empty marker || (4096 <? len marker) || negb (contains marker threadID)
  then Ret (Err (EMsg "headless bootstrap marker must identify the thread")) else
  try! there := headlessThreadMaterialized 0 threadID cwd projectID sourceID in
  if there && is_empty sourceID then verifyHeadlessBootstrap 1 threadID cwd projectID sourceID marker else
  let! injected := Request "thread/inject_items" (injectParams threadID marker) decAnything in
  let! verified := verifyHeadlessBootstrap 1 threadID cwd projectID sourceID marker in
  Ret (match verified, injected with
       | Ok _, _ => Ok tt
       | Err _, Err e => Err (EWrap "headless bootstrap outcome is uncertain" e)
       | Err e, Ok _ => Err (EWrap "headless bootstrap was not durably recorded" e)
       end).

Definition BootstrapHeadlessThread (threadID cwd projectID marker : string) : prog (res err unit) :=
  bootstrapHeadlessThread threadID cwd projectID "" marker.
Definition BootstrapForkedHeadlessThread (threadID cwd sourceID marker : string) : prog (res err unit) :=
  bootstrapHeadlessThread threadID cwd "" sourceID marker.

(** [absent] and [prompts] are what the idle check sees. *)
Definition DeleteFreshHeadlessThread (absent : string → bool) (prompts : list Prompt) (threadID cwd projectID : string)
    : prog (res err unit) :=
  try! there := HeadlessThreadMaterialized 0 threadID cwd projectID in
  if there then Ret (Err (EMsg "cannot delete a materialized headless Codex thread")) else
  try! _ := RequireThreadIdle options sources fuel absent prompts threadID cwd in
  try! there := HeadlessThreadMaterialized 1 threadID cwd projectID in
  if there then Ret (Err (EMsg "headless Codex rollout materialized during retirement")) else
  Request "thread/delete" [("threadId", AStr threadID)] decAnything.
End rollout.
