(* ===== verification/HeadlessFacts.v ===== *)
(** * Properties of headless member threads

    The one history item of a member is injected at most once in a call and never
    into a member that has one; success means that the rollout has it exactly
    once; and only a member that is empty is deleted. *)
From Stdlib Require Import Ascii String.
From S2P Require Import Prelude GoStd GoPath GoValue TurnOptions Ledger LedgerFacts Store LedgerFile Locality SubmissionDb StoreFacts Program Wire History Delivery DeliveryFacts.
From S2P Require Import Prompts HistoryReader Continuation ContinuationFacts Threads ThreadFacts InitialMessage InitialMessageFacts RolloutFile Headless.
Open Scope Z_scope.
Open Scope codex_scope.

(** ** What a rollout holds *)

Section rollouts.
Context (decodeEntry : bytes → option headlessEntry).

(** The number of records with a property. *)
Definition count (P : headlessEntry → bool) (entries : list headlessEntry) : Z :=
  Z.of_nat (Datatypes.length (List.filter P entries)).

(** Every line is a record, one of them is the metadata of this thread, and one is
    the marker. *)
Definition bootstrapped (d : disk) (path t marker : string) : Prop :=
  ∃ node entries, d_open d path = Some node ∧ fn_regular node = true ∧
    Forall2 (fun line entry => decodeEntry (dropCR line) = Some entry) (scanLines (fn_content node)) entries ∧
    count isMeta entries = 1 ∧ Forall (fun e => isMeta e = true → he_ID e = t) entries ∧
    count (isMarker marker) entries = 1.

Lemma count_cons P e l : count P (e :: l) = (if P e then 1 else 0) + count P l.
Proof. unfold count. simpl. destruct (P e); simpl; lia. Qed.

Lemma scan_counts t marker lines a b x y :
  scanHeadless decodeEntry t marker lines a b = Ok (x, y) →
  ∃ entries, Forall2 (fun line entry => decodeEntry (dropCR line) = Some entry) lines entries ∧
    x = a + count isMeta entries ∧ y = b + count (isMarker marker) entries ∧
    Forall (fun e => isMeta e = true → he_ID e = t) entries.
Proof.
  revert a b. induction lines as [|line lines IH]; intros a b; simpl.
  { intros [= <- <-]. exists []. unfold count. simpl. split_and!; [constructor|lia|lia|constructor]. }
  destruct (tooLong _ _); [done|]. destruct (decodeEntry (dropCR line)) as [entry|] eqn:Ed; [|done].
  destruct (isMeta entry && _) eqn:Em; [done|]. intros Hs. destruct (IH _ _ Hs) as (entries & Hf & -> & -> & Hid).
  exists (entry :: entries). rewrite !count_cons. split_and!; [by constructor|..].
  - destruct (isMeta entry); lia.
  - destruct (isMarker marker entry); lia.
  - constructor; [|done]. intros Hm. rewrite Hm in Em. simpl in Em. by apply negb_false_iff, str_eqb_eq in Em.
Qed.

Lemma verify_bootstrapped d path t marker :
  verifyHeadlessBootstrapRollout decodeEntry d path t marker = Ok tt → bootstrapped d path t marker.
Proof.
  unfold verifyHeadlessBootstrapRollout, guard. destruct (d_open d path) as [node|] eqn:Eo; [|done].
  destruct (fn_regular node) eqn:Er; simpl; [|done].
  destruct (scanHeadless decodeEntry t marker _ 0 0) as [[x y]|] eqn:Es; simpl; [|done].
  destruct (_ || _) eqn:Ec; [done|]. intros _. apply orb_false_iff in Ec as [E1 E2].
  apply negb_false_iff, Z.eqb_eq in E1, E2. destruct (scan_counts _ _ _ _ _ _ _ Es) as (entries & Hf & Hx & Hy & Hid).
  exists node, entries. split_and!; try done; lia.
Qed.

(** ** Bootstrapping *)

Context (options : clientOptions) (sources : list string) (fuel : nat).
Context (stats : nat → string → fileStat) (files : nat → disk).
Context {W E : Type} `{SubmissionStore W E} (rely : W → W → Prop).

(** An answer to [thread/read] that shows this thread. *)
Definition showsThread (t : string) (thread : ThreadMetadata) (v : any) : Prop :=
  decField "thread" decMetadata v = Ok thread ∧ tm_ID thread = t.

Lemma metadata_sent t excludeTurns w tr :
  wp rely (ReadThreadMetadata options t excludeTurns) w tr (fun _ tr' r =>
    (tr' = tr ∧ is_ok r = false) ∨
    ∃ ps reply, tr' = tr ++ [EvWire "thread/read" ps reply] ∧
      ∀ thread, r = Ok thread → ∃ v, reply = Replied v ∧ showsThread t thread v).
Proof.
  apply wp_bind. eapply wp_mono, Request_sent. intros w1 tr1 [thread|e] [[-> Hr]|(ps & reply & -> & _ & Hx)]; try done.
  - destruct (Hx _ eq_refl) as (v & -> & Hv). destruct (negb _) eqn:En; right; exists ps, (Replied v); (split; [done|]); [done|].
    intros x [= <-]. apply negb_false_iff, str_eqb_eq in En. by exists v.
  - by left.
  - right. by exists ps, reply.
Qed.

(** An answer and a file system that show a member thread. *)
Definition member (look : nat) (t cwd projectID sourceID : string) (there : bool) (v : any) : Prop :=
  ∃ thread, showsThread t thread v ∧ memberThread sources stats look cwd projectID sourceID thread = Ok there.

Lemma member_sent look t cwd projectID sourceID w tr :
  wp rely (headlessThreadMaterialized options sources stats look t cwd projectID sourceID) w tr (fun _ tr' r =>
    (tr' = tr ∧ is_ok r = false) ∨
    ∃ ps reply, tr' = tr ++ [EvWire "thread/read" ps reply] ∧
      ∀ there, r = Ok there → ∃ v, reply = Replied v ∧ member look t cwd projectID sourceID there v).
Proof.
  unfold headlessThreadMaterialized. destruct (Bool.eqb _ _); [by left|]. apply wp_bindOk. eapply wp_mono, metadata_sent.
  intros w1 tr1 [thread|e] [[-> Hr]|(ps & reply & -> & Hx)]; try done; [|by left|right; by exists ps, reply].
  right. exists ps, reply. split; [done|]. intros there Hm. destruct (Hx _ eq_refl) as (v & -> & Hv).
  exists v. split; [done|]. by exists thread.
Qed.

Definition reads (evs : list event) : Prop := Forall (fun ev => isMethod "thread/read" ev = true) evs.

(** Verification only reads, and rests on the rollout that the last answer names. *)
Lemma verify_sent t cwd projectID sourceID marker w tr :
  wp rely (verifyHeadlessBootstrap decodeEntry options sources stats files 1 t cwd projectID sourceID marker) w tr (fun _ tr' r =>
    ∃ evs, tr' = tr ++ evs ∧ reads evs ∧ (r = Ok tt → ∃ pre ps v thread path,
      evs = pre ++ [EvWire "thread/read" ps (Replied v)] ∧ showsThread t thread v ∧ tm_Path thread = Some path ∧
      changedIdentity cwd projectID sourceID thread = false ∧ bootstrapped (files 1%nat) path t marker)).
Proof.
  apply wp_bindOk. eapply wp_mono, member_sent. intros w1 tr1 r1 H1.
  assert (∃ evs, tr1 = tr ++ evs ∧ reads evs) as (evs & -> & Hevs).
  { destruct H1 as [[-> _]|(ps & reply & -> & _)]; [exists []; by rewrite app_nil_r; split; [|constructor]|].
    eexists. split; [done|]. by repeat constructor. }
  clear H1. destruct r1 as [[|]|e]; [|by exists evs|by exists evs].
  apply wp_bindOk. eapply wp_mono, metadata_sent. intros w2 tr2 r2 [[-> Hr]|(ps & reply & -> & Hx)].
  { destruct r2; [done|]. by exists evs. }
  assert (reads (evs ++ [EvWire "thread/read" ps reply])) as Hall by (apply Forall_app; split; [done|by repeat constructor]).
  destruct r2 as [thread|e]; [|eexists; rewrite <-app_assoc; split_and!; done].
  destruct (Hx _ eq_refl) as (v & -> & Hv). destruct (tm_Path thread) as [path|] eqn:Ep; [|eexists; rewrite <-app_assoc; split_and!; done].
  destruct (changedIdentity cwd projectID sourceID thread) eqn:Ec; [eexists; rewrite <-app_assoc; split_and!; done|].
  eexists. rewrite <-app_assoc. split_and!; [done|done|]. intros Hok.
  exists evs, ps, v, thread, path. split_and!; try done. by apply verify_bootstrapped.
Qed.

(** What a bootstrap did. *)
Definition bootstraps (t cwd projectID sourceID marker : string) (tr : list event) (r : res err unit) : Prop :=
  (r = Ok tt → ∃ pre ps v thread path, tr = pre ++ [EvWire "thread/read" ps (Replied v)] ∧ showsThread t thread v ∧
     tm_Path thread = Some path ∧ changedIdentity cwd projectID sourceID thread = false ∧
     bootstrapped (files 1%nat) path t marker) ∧
  (reads tr ∨
   ∃ ps v there reply rest, tr = EvWire "thread/read" ps (Replied v) ::
       EvWire "thread/inject_items" (AObj (injectParams t marker)) reply :: rest ∧ reads rest ∧
     member 0 t cwd projectID sourceID there v ∧ (there = true → sourceID ≠ "")).

(** C25. Whatever is answered or lost, a call injects the history item at most once,
    only after an answer that shows the member, and never into a member of a
    project that has a rollout; and it succeeds only when the rollout that the last
    answer names has the metadata of this thread and the item, each exactly once. *)
Theorem headless_bootstrap_verified t cwd projectID sourceID marker w :
  wp rely (bootstrapHeadlessThread decodeEntry options sources stats files t cwd projectID sourceID marker) w []
    (fun _ tr r => bootstraps t cwd projectID sourceID marker tr r).
Proof.
  unfold bootstrapHeadlessThread. destruct (_ || _); [split; [done|left; constructor]|].
  apply wp_bindOk. eapply wp_mono, member_sent. intros w1 tr1 r1 [[-> Hr]|(ps & reply & -> & Hx)];
    (destruct r1 as [there|e]; [|split; [done|left; by repeat constructor]]); [done|].
  destruct (Hx _ eq_refl) as (v & -> & Hm). clear Hx. destruct (there && is_empty sourceID) eqn:Eb.
  - eapply wp_mono, verify_sent. intros w2 tr2 r2 (evs & -> & Hevs & Hok). split.
    + intros Hr. destruct (Hok Hr) as (pre & ps' & v' & thread & path & -> & Hs). rewrite app_assoc. by eexists _, ps', v', thread, path.
    + left. apply Forall_app. split; [by repeat constructor|done].
  - assert (there = true → sourceID ≠ "") as Hthere by (intros ->; by apply is_empty_false).
    apply wp_bind. eapply wp_mono, Request_sent. intros w2 tr2 injected Hinj. apply wp_bind. eapply wp_mono, verify_sent.
    intros w3 tr3 verified (evs & -> & Hevs & Hok). split.
    + intros Hr. destruct verified as [[]|e]; [|by destruct injected].
      destruct (Hok eq_refl) as (pre & ps' & v' & thread & path & -> & Hs). rewrite app_assoc. by eexists _, ps', v', thread, path.
    + destruct Hinj as [[-> _]|(ps2 & reply2 & -> & Hps & _)].
      * left. apply Forall_app. split; [by repeat constructor|done].
      * right. rewrite (Hps eq_refl). by exists ps, v, there, reply2, evs.
Qed.
End rollouts.

(** ** Deleting *)

Section deleting.
Context (options : clientOptions) (sources : list string) (fuel : nat).
Context {W E : Type} `{SubmissionStore W E} (rely : W → W → Prop).
Hypothesis (Htame : tame options).
Abbreviation uses := (uses rely continuationMethods).

Lemma uses_read {T} params (decode : any → res err T) : uses (Request options "thread/read" params decode).
Proof using Type. apply uses_request; [constructor|done]. Qed.

Lemma uses_idleCheck absent prompts t cwd : uses (RequireThreadIdle options sources fuel absent prompts t cwd).
Proof using Htame.
  assert (continuationMethods ⊆ continuationMethods) as Hsub by done.
  apply uses_bindOk.
  { apply uses_bindOk; [apply uses_read|]. intros [thread|]; [destruct (_ || _)|]; apply uses_ret. }
  intros _. apply uses_bindOk.
  { apply uses_bind; [apply uses_request; [set_solver|done]|]. intros [[[|turn turns]|]|e]; try apply uses_ret.
    - destruct (_ || _); apply uses_ret.
    - apply uses_bind; [apply uses_read|]. intros [thread|x]; [|apply uses_ret].
      destruct (freshThreadMissingSourceRollout _ _ _ _ _); apply uses_ret. }
  intros _. apply uses_bindOk.
  { apply uses_bind; [|intros r; apply uses_ret]. unfold PromptsWithItems. cbv zeta. destruct (Nat.eqb _ _); [apply uses_ret|].
    apply uses_bindOk; [|intros items; apply uses_ret]. unfold threadItems. destruct (Nat.eqb _ _); [apply uses_ret|].
    apply uses_bindOk; [apply (@uses_walk options sources fuel (ownReader options) (ownReader_laws options Htame) _ _ _ rely continuationMethods Hsub)|]. intros [wanted items]. apply uses_ret. }
  intros pending. destruct (negb _); [apply uses_ret|]. apply uses_bindOk.
  { apply uses_bind; [apply (@uses_queue options sources fuel (ownReader options) (ownReader_laws options Htame) _ _ _ rely continuationMethods Hsub)|]. intros r; apply uses_ret. }
  intros queued. destruct (negb _); [apply uses_ret|]. apply (@uses_require options sources fuel (ownReader options) (ownReader_laws options Htame) _ _ _ rely continuationMethods Hsub).
Qed.

Definition keeps (evs : list event) : Prop := Forall (fun ev => isMethod "thread/delete" ev = false) evs.

(** A call deletes a thread at most once and with nothing after it, and only
    directly after an answer that shows the member with no rollout, no turn and no
    preview; what comes before only reads. *)
Theorem headless_delete_fresh (stats : nat → string → fileStat) absent prompts t cwd projectID w :
  wp rely (DeleteFreshHeadlessThread options sources fuel stats absent prompts t cwd projectID) w [] (fun _ tr r =>
    keeps tr ∧ is_ok r = false ∨
    ∃ before ps v reply, tr = before ++ [EvWire "thread/read" ps (Replied v); EvWire "thread/delete" (AObj [("threadId", AStr t)]) reply] ∧
      keeps before ∧ member sources stats 1 t cwd projectID "" false v).
Proof using Htame.
  apply wp_bindOk. eapply wp_mono, member_sent. intros w1 tr1 r1 H1.
  assert (keeps tr1) as Hk1 by (destruct H1 as [[-> _]|(? & ? & -> & _)]; by repeat constructor). clear H1.
  destruct r1 as [[|]|e]; [by left| |by left]. apply wp_bindOk. eapply wp_mono, uses_idleCheck.
  intros w2 tr2 r2 (evs & -> & Hevs). assert (keeps (tr1 ++ evs)) as Hk2.
  { apply Forall_app. split; [done|]. eapply Forall_impl; [exact Hevs|]. intros [op ok|m ps reply]; [done|]. simpl.
    intros Hm. apply str_eqb_neq. intros ->. unfold continuationMethods in Hm. set_solver. }
  destruct r2 as [[]|e]; [|by left]. apply wp_bindOk. eapply wp_mono, member_sent.
  intros w3 tr3 r3 [[-> Hr]|(ps & reply & -> & Hx)].
  { destruct r3; [done|by left]. }
  assert (keeps ((tr1 ++ evs) ++ [EvWire "thread/read" ps reply])) as Hk3 by (apply Forall_app; split; [done|by repeat constructor]).
  destruct r3 as [[|]|e]; [by left| |by left]. destruct (Hx _ eq_refl) as (v & -> & Hm).
  eapply wp_mono, Request_sent. intros w4 tr4 r4 [[-> Hr]|(ps4 & reply4 & -> & Hps & _)]; [by left|right].
  rewrite (Hps eq_refl). exists (tr1 ++ evs), ps, v, reply4. split_and!; try done. by rewrite <-!app_assoc.
Qed.
End deleting.

(** ** A run *)

Definition memberReply : any :=
  AObj [("thread", AObj [("id", AStr "thread"); ("cwd", AStr "/work"); ("projectId", AStr "project"); ("path", AStr "/rollout.jsonl");
    ("source", AStr "cli"); ("ephemeral", ABool false); ("historyMode", AStr "paginated"); ("preview", AStr "");
    ("status", AObj [("type", AStr "idle")]); ("turns", AArr [])])].
(** Two lines, of one byte each: the metadata and the marker. *)
Definition twoLines : bytes := [109; 10; 114; 10].
Definition decodeDemo (line : bytes) : option headlessEntry :=
  match line with
  | [109] => Some (mkHeadlessEntry "session_meta" "thread" "" "" [])
  | [114] => Some (mkHeadlessEntry "response_item" "" "message" "developer" [("input_text", "made for thread")])
  | _ => None
  end.
Definition diskDemo (content : bytes) (look : nat) : disk :=
  mkDisk (fun path => if str_eqb path "/rollout.jsonl" then Some (mkNode 1 0 true content) else None) (fun _ => None) (fun _ => []).
Definition bootstrapDemo (content : bytes) : prog (res err unit) :=
  BootstrapHeadlessThread decodeDemo plainOptions ["cli"] laterDisk (diskDemo content) "thread" "/work" "project" "made for thread".

(** The answer to the injection is lost, and the rollout has the item: the call
    succeeds; with the item there twice it fails. *)
Definition bootstrapRun (content : bytes) : option (bool * list string) :=
  match drive (bootstrapDemo content) (say memberReply ++ [OnNet calmNet; OnWire (Disconnected (EMsg "gone"))]
          ++ say memberReply ++ say memberReply) (∅ : database) [] with
  | Some (r, _, tr) => Some (is_ok r, omap (fun ev => match ev with EvWire m _ _ => Some m | _ => None end) tr)
  | None => None
  end.

Example bootstrap_runs :
  bootstrapRun twoLines = Some (true, ["thread/read"; "thread/inject_items"; "thread/read"; "thread/read"])
  ∧ option_map fst (bootstrapRun (twoLines ++ [114])) = Some false.
Proof. vm_compute. by split. Qed.
