(* ===== verification/Lineage.v ===== *)
(** * Which turns of a forked thread are its own

    [src/codex/activity_lineage.go] and [activity_lineage_cache.go]: the chain
    of rollouts a forked thread starts from, the scan that collects the turns
    after the fork, and the cached scan that reads a growing rollout once. *)
From Stdlib Require Import Ascii String.
From S2P Require Import Prelude GoStd GoPath GoValue Wire Activity RolloutFile.
Open Scope Z_scope.

(** ** Data *)

Record activityHistoryBase := mkBase { hb_RolloutID : string; hb_EndOrdinal : Z; hb_EndByteOffset : Z }.

Record activityRolloutMeta := mkMeta {
  rm_ID : string; rm_ParentID : string; rm_Cutoff : option Z; rm_Base : option activityHistoryBase }.

(** What a line of a rollout decodes to. *)
Record rolloutRecord := mkRecord { rr_Ordinal : option Z; rr_Type : string; rr_PayloadType : string; rr_TurnID : string }.

(** [json.Marshal(meta)] *)
Definition metaText (m : activityRolloutMeta) : string :=
  jsonObject
    [("id", jsonString (rm_ID m)); ("forked_from_id", jsonString (rm_ParentID m));
     ("forked_from_ordinal_exclusive", match rm_Cutoff m with Some n => jsonInt n | None => "null" end);
     ("history_base",
       match rm_Base m with
       | Some b => jsonObject [("thread_id", jsonString (hb_RolloutID b)); ("end_ordinal_exclusive", jsonInt (hb_EndOrdinal b));
                               ("end_byte_offset", jsonInt (hb_EndByteOffset b))]
       | None => "null"
       end)].

(** ** Identities *)

(** [[0-9a-f]{8}-[0-9a-f]{4}-[0-9a-f]{4}-[0-9a-f]{4}-[0-9a-f]{12}] *)
Definition uuidGroups : list nat := [8; 4; 4; 4; 12]%nat.
Definition isRolloutUUID (s : string) : bool :=
  let groups := split_on "-" s "" in
  bool_decide (String.length <$> groups = uuidGroups)
  && forallb (fun g => forallb isHexDigit (list_ascii_of_string g)) groups.

(** [rolloutIdentityPattern] is anchored at the end and of one length: it can
    only match the last 43 bytes. *)
Definition rolloutIdentityPattern (s : string) : option string :=
  let n := String.length s in
  if (n <? 43)%nat then None else
  let id := substring (n - 42) 36 s in
  if str_eqb (substring (n - 43) 1 s) "-" && str_eqb (substring (n - 6) 6 s) ".jsonl" && isRolloutUUID id then Some id else None.

(** ** Finding a rollout *)

Definition visitLimit : Z := 100000.

(** The function given to [WalkDir], called for each of [visits]. *)
Fixpoint walkRollouts (id : string) (visits : list visit) (c : ctx) (visited : Z) (found : string) : res err (ctx * Z * string) :=
  match visits with
  | [] => Ok (c, visited, found)
  | VMissing :: visits => walkRollouts id visits c visited found
  | VError e :: _ => Err e
  | VEntry path symlink directory name :: visits =>
    match ctxErr c with
    | None => Err ECanceled
    | Some c =>
      let visited := visited + 1 in
      if visitLimit <? visited then Err (EMsg "activity lineage discovery exceeds limit") else
      if symlink then walkRollouts id visits c visited found else
      if negb directory && hasSuffix name ("-" ++ id ++ ".jsonl") then
        if negb (is_empty found) then Err (EMsg "ambiguous activity lineage rollout")
        else walkRollouts id visits c visited path
      else walkRollouts id visits c visited found
    end
  end.

Definition findActivityRollout (d : disk) (c : ctx) (root id : string) : res err (ctx * string) :=
  match rolloutIdentityPattern ("-" ++ id ++ ".jsonl") with
  | None => Err (EMsg "invalid activity lineage rollout identity")
  | Some _ =>
    match walkRollouts id (d_walk d (pathJoin root "sessions")) c 0 "" with
    | Err e => Err e
    | Ok (c, visited, found) =>
      match walkRollouts id (d_walk d (pathJoin root "archived_sessions")) c visited found with
      | Err e => Err e
      | Ok (c, _, found) =>
        if is_empty found then Err (EMsg "activity lineage rollout is unavailable") else Ok (c, found)
      end
    end
  end.

(** The directory that holds [sessions] or [archived_sessions]. *)
Fixpoint sessionsRoot (fuel : nat) (root : string) : option string :=
  match fuel with
  | O => None
  | S fuel =>
    if negb (str_eqb (pathBase root) "sessions") && negb (str_eqb (pathBase root) "archived_sessions") && negb (str_eqb (pathDir root) root)
    then sessionsRoot fuel (pathDir root)
    else Some root
  end.

Definition lineageRoot (path : string) : option string :=
  match sessionsRoot (S (String.length path)) (pathDir path) with
  | None => None
  | Some root => if str_eqb (pathDir root) root then None else Some (pathDir root)
  end.

(** ** Reading rollouts

    [decodeHeader] and [decodeRecord] are [json.Unmarshal] into the header and
    the record of a line, [None] being an error. *)
Section Lineage.
Context (decodeHeader : bytes → option (string * activityRolloutMeta)).
Context (decodeRecord : bytes → option rolloutRecord).

Definition openActivityRollout (d : disk) (path : string) : res err (fileNode * activityRolloutMeta) :=
  if negb (isAbs path) || negb (str_eqb (clean path) path) then Err (EMsg "invalid activity rollout path") else
  match d_nofollow d path with
  | None => Err (EMsg "open")
  | Some n =>
    if negb (fn_regular n) then Err (EMsg "activity rollout is not a regular file") else
    match scanLines (limitReader readLimit (fn_content n)) with
    | [] => Err (EMsg "activity rollout has no metadata")
    | line :: _ =>
      if tooLong readLimit line then Err (EMsg "activity rollout has no metadata") else
      match decodeHeader (dropCR line) with
      | None => Err (EMsg "invalid activity rollout metadata")
      | Some (type, meta) =>
        if negb (str_eqb type "session_meta") || is_empty (rm_ID meta) then Err (EMsg "invalid activity rollout metadata")
        else Ok (n, meta)
      end
    end
  end.

Definition startsTurn (r : rolloutRecord) : bool :=
  str_eqb (rr_Type r) "event_msg" && str_eqb (rr_PayloadType r) "task_started" && negb (is_empty (rr_TurnID r)).

(** The loop of [scanOwnActivityTurns] over the lines of a rollout. *)
Fixpoint scanRecords (c : ctx) (cutoff : Z) (first : bool) (ids : gset string) (lines : list bytes) : res err (ctx * gset string) :=
  match lines with
  | [] => Ok (c, ids)
  | line :: lines =>
    if tooLong readLimit line then Err (EMsg "bufio.Scanner: token too long") else
    match ctxErr c with
    | None => Err ECanceled
    | Some c =>
      match decodeRecord (dropCR line) with
      | None => Err (EMsg "json")
      | Some record =>
        if first then scanRecords c cutoff false ids lines else
        match rr_Ordinal record with
        | None => Err (EMsg "activity lineage lacks ordinal identity")
        | Some ordinal =>
          if ordinal <? cutoff then scanRecords c cutoff false ids lines else
          scanRecords c cutoff false (if startsTurn record then {[ rr_TurnID record ]} ∪ ids else ids) lines
        end
      end
    end
  end.

(** The lines of a file, after those of its base. *)
Definition scanFile (cutoff : Z) (text : bytes) (r : ctx * gset string * gset string) : res err (ctx * gset string * gset string) :=
  match scanRecords r.1.1 cutoff true r.2 (scanLines text) with
  | Err e => Err e
  | Ok (c, ids) => Ok (c, r.1.2, ids)
  end.

Definition depthLimit : Z := 32.

Fixpoint scanOwnActivityTurns (fuel : nat) (d : disk) (root : string) (cutoff : Z) (c : ctx) (path : string) (limit depth : Z)
    (seen ids : gset string) : res err (ctx * gset string * gset string) :=
  match fuel with
  | O => Err (EMsg "fuel")
  | S fuel =>
    if (depthLimit <? depth) || bool_decide (path ∈ seen) then Err (EMsg "activity lineage repeats or is too deep") else
    let seen := {[ path ]} ∪ seen in
    match openActivityRollout d path with
    | Err e => Err e
    | Ok (n, meta) =>
      let limit := if limit =? 0 then nodeSize n else limit in
      if (limit <? 0) || (nodeSize n <? limit) then Err (EMsg "activity lineage exceeds available bounded history") else
      let own := scanFile cutoff (limitReader limit (fn_content n)) in
      match rm_Base meta with
      | None => own (c, seen, ids)
      | Some base =>
        if negb (cutoff <? hb_EndOrdinal base) then own (c, seen, ids) else
        match findActivityRollout d c root (hb_RolloutID base) with
        | Err e => Err e
        | Ok (c, basePath) =>
          if hb_EndByteOffset base <=? 0 then Err (EMsg "invalid activity lineage byte boundary") else
          match scanOwnActivityTurns fuel d root cutoff c basePath (hb_EndByteOffset base) (depth + 1) seen ids with
          | Err e => Err e
          | Ok r => own r
          end
        end
      end
    end
  end.

(** Depths 0 to 32 are read and 33 is refused. *)
Definition scanFuel : nat := 34.

Definition scanFromFork (d : disk) (c : ctx) (path root : string) (cutoff limit : Z) : res err (gset string) :=
  match scanOwnActivityTurns scanFuel d root cutoff c path limit 0 ∅ ∅ with
  | Ok (_, _, ids) => Ok ids
  | Err e => Err e
  end.

(** The ordinal a fork starts at, by Codex's legacy rule when the header does
    not name it. *)
Definition forkCutoff (path : string) (meta : activityRolloutMeta) : option Z :=
  match rm_Cutoff meta, rm_Base meta with
  | Some n, _ => Some n
  | None, None => None
  | None, Some base =>
    if str_eqb (hb_RolloutID base) (rm_ParentID meta)
       || match rolloutIdentityPattern (pathBase path) with Some id => str_eqb id (rm_ID meta) | None => false end
    then Some (hb_EndOrdinal base) else None
  end.

Definition ownTurns (ids : gset string) (turns : list TurnMetadata) : list TurnMetadata :=
  filter (fun turn => tm_ID turn ∈ ids) turns.

Definition ownActivityTurns (d : disk) (c : ctx) (metadata : object) (turns : list TurnMetadata) : list TurnMetadata * string :=
  if is_empty (stringValue (field "forkedFromId" metadata)) then (turns, "thread") else
  let path := stringValue (field "path" metadata) in
  match openActivityRollout d path with
  | Err _ => ([], "unknown")
  | Ok (_, meta) =>
    if negb (str_eqb (rm_ID meta) (stringValue (field "id" metadata)))
       || negb (str_eqb (rm_ParentID meta) (stringValue (field "forkedFromId" metadata))) then ([], "unknown") else
    match forkCutoff path meta with
    | None => ([], "unknown")
    | Some cutoff =>
      match lineageRoot path with
      | None => ([], "unknown")
      | Some root =>
        match scanFromFork d c path root cutoff 0 with
        | Err _ => ([], "unknown")
        | Ok ids => (ownTurns ids turns, "sinceFork")
        end
      end
    end
  end.

(** ** The cached scan *)

Record activityLineageCache := mkLineage { lc_header : string; lc_file : fileInfo; lc_tail : bytes; lc_ids : gset string }.

(** A job: what its goroutine was started with, and how it ended once its
    channel is closed. *)
Record activityLineageJob := mkJob {
  lj_path : string; lj_root : string; lj_cutoff : Z; lj_header : string; lj_file : fileInfo;
  lj_done : option (res err activityLineageCache) }.

(** The fields of [activityHistory] that belong to the lineage. *)
Record lineageState := mkLineageState { ls_lineage : option activityLineageCache; ls_job : option activityLineageJob }.

Definition noLineage : lineageState := mkLineageState None None.

(** [slot] tells whether one of the [pageMetadataSlots] is free. *)
Definition startActivityLineage (slot : bool) (path root : string) (cutoff : Z) (header : string) (info : fileInfo)
    : option activityLineageJob :=
  if slot then Some (mkJob path root cutoff header info None) else None.

(** The goroutine of a job; [worker] tells whether it got the worker before its
    context ended. *)
Definition runActivityLineage (d : disk) (c : ctx) (worker : bool) (job : activityLineageJob) : activityLineageJob :=
  let outcome :=
    if negb worker then Err ECanceled else
    match scanFromFork d c (lj_path job) (lj_root job) (lj_cutoff job) (fi_size (lj_file job)) with
    | Err e => Err e
    | Ok ids =>
      match pageRolloutTail d (lj_path job) (fi_size (lj_file job)) with
      | Err e => Err e
      | Ok tail => Ok (mkLineage (lj_header job) (lj_file job) tail ids)
      end
    end in
  mkJob (lj_path job) (lj_root job) (lj_cutoff job) (lj_header job) (lj_file job) (Some outcome).

Definition lineagePending (h : lineageState) : bool :=
  match ls_job h with
  | None => match ls_lineage h with None => true | Some _ => false end
  | Some job => match lj_done job with Some _ => false | None => true end
  end.

(** The loop over the appended lines: the ids found so far stay in the shared
    map when it fails. The last check is the read that finds the end. *)
Fixpoint scanAppended (c : ctx) (cutoff : Z) (ids : gset string) (lines : list bytes) : gset string * bool :=
  match lines with
  | [] => (ids, match ctxErr c with Some _ => true | None => false end)
  | line :: lines =>
    if tooLong readLimit line then (ids, false) else
    match ctxErr c with
    | None => (ids, false)
    | Some c =>
      match decodeRecord (dropCR line) with
      | None => (ids, false)
      | Some record =>
        match rr_Ordinal record with
        | None => (ids, false)
        | Some ordinal =>
          scanAppended c cutoff (if (cutoff <=? ordinal) && startsTurn record then {[ rr_TurnID record ]} ∪ ids else ids) lines
        end
      end
    end
  end.

Definition reusableLineage (d : disk) (path header : string) (info : fileInfo) (saved : activityLineageCache) : bool :=
  str_eqb (lc_header saved) header && sameFile info (lc_file saved) && (fi_size (lc_file saved) <=? fi_size info)
  && pageMetadataTailMatches d path (lc_file saved) (fi_size (lc_file saved)) (lc_tail saved).

(** A job for another header, another file or a longer one is cancelled. *)
Definition currentJob (header : string) (info : fileInfo) (job : option activityLineageJob) : option activityLineageJob :=
  match job with
  | Some j => if negb (str_eqb (lj_header j) header) || negb (sameFile info (lj_file j)) || (fi_size info <? fi_size (lj_file j))
              then None else Some j
  | None => None
  end.

(** When nothing saved is reusable: the lineage of the job that has ended, and
    the state left behind when there is none. *)
Definition awaitLineage (d : disk) (slot : bool) (path : string) (cutoff : Z) (header : string) (info : fileInfo) (h : lineageState)
    : option activityLineageCache * lineageState :=
  match lineageRoot path with
  | None => (None, h)
  | Some root =>
    let job := match currentJob header info (ls_job h) with
               | Some j => Some j
               | None => startActivityLineage slot path root cutoff header info
               end in
    let h := mkLineageState (ls_lineage h) job in
    match job with
    | None => (None, h)
    | Some j =>
      match lj_done j with
      | None => (None, h)
      | Some (Err e) =>
        if errIs ECanceled e || negb (fi_size info =? fi_size (lj_file j)) || negb (fi_mtime info =? fi_mtime (lj_file j))
        then (None, mkLineageState (ls_lineage h) None) else (None, h)
      | Some (Ok saved) =>
        if negb (pageMetadataTailMatches d path (lc_file saved) (fi_size (lc_file saved)) (lc_tail saved))
        then (None, mkLineageState None None)
        else (Some saved, mkLineageState (Some saved) None)
      end
    end
  end.

(** The lines appended since [saved], then the tail. *)
Definition extendLineage (d : disk) (c : ctx) (path : string) (n : fileNode) (cutoff : Z) (saved : activityLineageCache)
    : activityLineageCache * bool :=
  let info := stat n in
  let '(ids, fine) :=
    if fi_size (lc_file saved) <? fi_size info
    then scanAppended c cutoff (lc_ids saved) (scanLines (readAt (fn_content n) (fi_size (lc_file saved)) (fi_size info - fi_size (lc_file saved))))
    else (lc_ids saved, true) in
  let kept := mkLineage (lc_header saved) (lc_file saved) (lc_tail saved) ids in
  if negb fine then (kept, false) else
  match pageRolloutTail d path (fi_size info) with
  | Err _ => (kept, false)
  | Ok tail => (mkLineage (lc_header saved) info tail ids, true)
  end.

Definition ownPagedActivityTurns (d : disk) (c : ctx) (slot : bool) (metadata : object) (turns : list TurnMetadata) (h : lineageState)
    : list TurnMetadata * string * lineageState :=
  if is_empty (stringValue (field "forkedFromId" metadata)) then (turns, "thread", h) else
  let path := stringValue (field "path" metadata) in
  match openActivityRollout d path with
  | Err _ => ([], "unknown", h)
  | Ok (n, meta) =>
    let info := stat n in
    if negb (str_eqb (rm_ID meta) (stringValue (field "id" metadata)))
       || negb (str_eqb (rm_ParentID meta) (stringValue (field "forkedFromId" metadata))) then ([], "unknown", h) else
    match forkCutoff path meta with
    | None => ([], "unknown", h)
    | Some cutoff =>
      let header := metaText meta in
      let '(saved, h) :=
        match ls_lineage h with
        | Some saved => if reusableLineage d path header info saved then (Some saved, h) else awaitLineage d slot path cutoff header info h
        | None => awaitLineage d slot path cutoff header info h
        end in
      match saved with
      | None => ([], "unknown", h)
      | Some saved =>
        let '(saved, fine) := extendLineage d c path n cutoff saved in
        let h := mkLineageState (Some saved) (ls_job h) in
        if fine then (ownTurns (lc_ids saved) turns, "sinceFork", h) else ([], "unknown", h)
      end
    end
  end.

End Lineage.
