(* ===== verification/LineageFacts.v ===== *)
(** * The cached lineage is the lineage

    While rollouts are only appended to, and a line that decodes is followed by
    its newline, a read that answers from the cached scan answers what a full
    scan of the same files answers: [paged_activity_exact]. The invariant is
    kept by every step of a history: reads, jobs, files that grow or are
    replaced. A read answers once its job has ended ([lineage_settles]). *)
From Stdlib Require Import Ascii String.
From S2P Require Import Prelude GoStd GoPath GoValue Wire Activity RolloutFile Lineage.
Open Scope Z_scope.

(** ** Lines *)

Lemma scanLines_nonempty l : l ≠ [] → scanLines l ≠ [].
Proof.
  unfold scanLines. destruct l as [|b l]; [done|]. intros _. simpl. destruct (splitLines l) as [ls rest].
  destruct (b =? newlineByte); [done|]. destruct ls; simpl; done.
Qed.

(** A text without its last newline has its partial line as its last line. *)
Lemma scanLines_last l : partialLine l ≠ [] → ∃ ls, scanLines l = ls ++ [partialLine l].
Proof. unfold partialLine, scanLines. destruct (splitLines l) as [ls [|b rest]]; simpl; [done|]. eauto. Qed.

(** Text that follows leaves the complete lines. *)
Lemma scanLines_extend a b : ∃ more, scanLines (a ++ b) = (splitLines a).1 ++ more.
Proof.
  unfold scanLines. rewrite splitLines_app. destruct (splitLines a) as [la ra], (splitLines b) as [[|line lb] rb]; simpl; eauto.
  exists ((ra ++ line) :: lb ++ match rb with [] => [] | _ => [rb] end). by rewrite <- app_assoc.
Qed.

Lemma scanLines_split l : scanLines l = (splitLines l).1 ++ match partialLine l with [] => [] | p => [p] end.
Proof. unfold scanLines, partialLine. by destruct (splitLines l) as [ls []]. Qed.

(** ** Cancelled calls *)

Lemma ctxErr_none : ctxErr None = Some None.
Proof. done. Qed.

(** A call that ends well under some context ends the same under one that is
    never cancelled. *)
Lemma walkRollouts_alive id visits c v f r :
  walkRollouts id visits c v f = Ok r → walkRollouts id visits None v f = Ok (None, r.1.2, r.2).
Proof.
  revert c v f. induction visits as [|x visits IH]; intros c v f H; simpl in *; [by simplify_eq|].
  destruct x as [|e|path sym dir name]; [eauto|done|]. destruct (ctxErr c) as [c'|]; [|done].
  destruct (visitLimit <? v + 1); [done|]. destruct sym; [eauto|]. destruct (negb dir && _); [|eauto].
  destruct (negb (is_empty f)); [done|eauto].
Qed.

Lemma findActivityRollout_alive d c root id r :
  findActivityRollout d c root id = Ok r → findActivityRollout d None root id = Ok (None, r.2).
Proof.
  unfold findActivityRollout. intros H. destruct (rolloutIdentityPattern _); [|done].
  destruct (walkRollouts id (d_walk d (pathJoin root "sessions")) c 0 "") as [[[c1 v1] f1]|] eqn:H1; [|done].
  rewrite (walkRollouts_alive _ _ _ _ _ _ H1). simpl.
  destruct (walkRollouts id (d_walk d (pathJoin root "archived_sessions")) c1 v1 f1) as [[[c2 v2] f2]|] eqn:H2; [|done].
  rewrite (walkRollouts_alive _ _ _ _ _ _ H2). simpl. destruct (is_empty f2); by simplify_eq.
Qed.

Section Lineage.
Context (decodeHeader : bytes → option (string * activityRolloutMeta)).
Context (decodeRecord : bytes → option rolloutRecord).
Abbreviation openRollout := (openActivityRollout decodeHeader).
Abbreviation scanRecords := (Lineage.scanRecords decodeRecord).
Abbreviation scanOwn := (scanOwnActivityTurns decodeHeader decodeRecord).
Abbreviation scanFork := (scanFromFork decodeHeader decodeRecord).
Abbreviation scanAppended := (Lineage.scanAppended decodeRecord).

Lemma scanRecords_alive c cutoff first ids lines r :
  scanRecords c cutoff first ids lines = Ok r → scanRecords None cutoff first ids lines = Ok (None, r.2).
Proof.
  revert c first ids. induction lines as [|line lines IH]; intros c first ids H; simpl in *; [by simplify_eq|].
  destruct (tooLong readLimit line); [done|]. destruct (ctxErr c) as [c'|]; [|done].
  destruct (decodeRecord _) as [record|]; [|done]. destruct first; [eauto|].
  destruct (rr_Ordinal record); [|done]. destruct (_ <? _); eauto.
Qed.

Lemma scanFile_alive cutoff text r0 r :
  scanFile decodeRecord cutoff text r0 = Ok r → scanFile decodeRecord cutoff text (None, r0.1.2, r0.2) = Ok (None, r.1.2, r.2).
Proof.
  unfold scanFile. intros H. destruct (scanRecords r0.1.1 _ _ _ _) as [[c' ids']|] eqn:E; simplify_eq.
  simpl. by rewrite (scanRecords_alive _ _ _ _ _ _ E).
Qed.

Lemma scanOwn_alive fuel d root cutoff c path limit depth seen ids r :
  scanOwn fuel d root cutoff c path limit depth seen ids = Ok r →
  scanOwn fuel d root cutoff None path limit depth seen ids = Ok (None, r.1.2, r.2).
Proof.
  revert c path limit depth seen ids r. induction fuel as [|fuel IH]; intros c path limit depth seen ids r H; simpl in *; [done|].
  destruct ((depthLimit <? depth) || _); [done|]. destruct (openRollout d path) as [[n meta]|]; [|done].
  destruct ((_ <? 0) || _); [done|].
  destruct (rm_Base meta) as [base|]; [|by apply scanFile_alive in H]. destruct (negb _); [by apply scanFile_alive in H|].
  destruct (findActivityRollout d c root _) as [[c1 basePath]|] eqn:Hf; [|done].
  rewrite (findActivityRollout_alive _ _ _ _ _ Hf). simpl. destruct (_ <=? 0); [done|].
  destruct (scanOwn fuel d root cutoff c1 _ _ _ _ _) as [[[c2 s2] i2]|] eqn:Hs; [|done].
  rewrite (IH _ _ _ _ _ _ _ Hs). by apply scanFile_alive in H.
Qed.

(** ** Files that grow *)

(** Bytes are only appended, and first the newline when the last line is one
    that decodes. *)
Definition appended (a b : bytes) : Prop :=
  ∃ x, b = a ++ x ∧
    (decodeRecord (dropCR (partialLine a)) ≠ None ∨ decodeHeader (dropCR (partialLine a)) ≠ None →
     x = [] ∨ ∃ s, x = newlineByte :: s).

Lemma appended_refl a : appended a a.
Proof. exists []. rewrite app_nil_r. eauto. Qed.

Lemma appended_trans a b c : appended a b → appended b c → appended a c.
Proof.
  intros (x & -> & Hx) (y & -> & Hy). exists (x ++ y). split; [by rewrite app_assoc|]. intros Hdec.
  destruct (Hx Hdec) as [->|[s ->]]; [rewrite app_nil_r in Hy; eauto|]. right. by exists (s ++ y).
Qed.

Definition grown (n n' : fileNode) : Prop :=
  fn_inode n' = fn_inode n ∧ fn_regular n' = fn_regular n ∧ appended (fn_content n) (fn_content n').

Lemma splitLines_first l line rest :
  scanLines l = line :: rest → (splitLines l).1 = [] ∧ l = line ∧ partialLine l = line ∨ ∃ ls, (splitLines l).1 = line :: ls.
Proof.
  unfold scanLines, partialLine. revert line rest. induction l as [|b l IH]; intros line rest; simpl; [done|].
  destruct (splitLines l) as [ls r] eqn:Hl. destruct (b =? newlineByte); simpl in *; [intros; simplify_eq; eauto|].
  destruct ls as [|l1 ls]; simpl in *; [|intros; simplify_eq; eauto].
  intros ?; simplify_eq. left. split; [done|]. split; [|done]. destruct r as [|r1 r]; simpl in *.
  - destruct l; [done|]. pose proof (scanLines_nonempty (z :: l)) as Hne. unfold scanLines in Hne. rewrite Hl in Hne. by destruct Hne.
  - destruct (IH _ _ eq_refl) as [(_ & -> & _)|[? ?]]; done.
Qed.

(** The first line of a file is complete once its header decodes. *)
Lemma first_line_stable k a b line rest :
  appended a b → scanLines (limitReader k a) = line :: rest → tooLong k line = false →
  decodeHeader (dropCR line) ≠ None → ∃ rest', scanLines (limitReader k b) = line :: rest'.
Proof.
  rewrite !limitReader_take. unfold tooLong. intros (x & -> & Hx) Hs Hlong Hdec. rewrite take_app.
  destruct (splitLines_first _ _ _ Hs) as [(Hl & Ht & Hp)|[ls Hl]].
  - assert (take (Z.to_nat k) a = a) as Ha.
    { apply take_ge. rewrite <- Ht, length_take in Hlong. apply Z.leb_gt in Hlong. lia. }
    rewrite Ha in *. rewrite Hp in Hx. destruct (Hx (or_intror Hdec)) as [->|[s ->]].
    { rewrite take_nil, app_nil_r. eauto. }
    subst line. apply Z.leb_gt in Hlong. destruct (Z.to_nat k - Datatypes.length a)%nat as [|m] eqn:Hm; [lia|]. simpl.
    rewrite scanLines_newline, Hs; [simpl; eauto|]. rewrite Hp. intros ->. done.
  - destruct (scanLines_extend (take (Z.to_nat k) a) (take (Z.to_nat k - Datatypes.length a) x)) as [more ->]. rewrite Hl. simpl. eauto.
Qed.

Lemma open_grown d d' path n n' meta :
  openRollout d path = Ok (n, meta) → d_nofollow d' path = Some n' → grown n n' → openRollout d' path = Ok (n', meta).
Proof.
  unfold openActivityRollout. intros H Hd' (_ & Hreg & Happ). destruct (negb _ || _); [done|]. rewrite Hd'.
  destruct (d_nofollow d path) as [m|]; [|done]. destruct (negb (fn_regular m)) eqn:Hr; [done|].
  destruct (scanLines _) as [|line rest] eqn:Hs; [done|]. destruct (tooLong _ _) eqn:Hlong; [done|].
  destruct (decodeHeader (dropCR line)) as [[type m']|] eqn:Hdec; [|done].
  destruct (negb _ || _) eqn:Hok; simplify_eq. rewrite Hreg, Hr.
  destruct (first_line_stable _ _ _ _ _ Happ Hs Hlong) as [rest' ->]; [by rewrite Hdec|]. by rewrite Hlong, Hdec, Hok.
Qed.

(** A file that opens has a header, so it is not empty. *)
Lemma open_size d path n meta : openRollout d path = Ok (n, meta) → d_nofollow d path = Some n ∧ 0 < nodeSize n.
Proof.
  unfold openActivityRollout. intros H. destruct (negb _ || _); [done|]. destruct (d_nofollow d path) as [m|]; [|done].
  destruct (negb _); [done|]. destruct (scanLines _) as [|line rest] eqn:Hs; [done|]. destruct (tooLong _ _); [done|].
  destruct (decodeHeader _) as [[type m']|]; [|done]. destruct (negb _ || _); simplify_eq. split; [done|].
  unfold nodeSize, size. destruct (fn_content n); [|simpl; lia]. by vm_compute in Hs.
Qed.

(** The disks on which every file of [d] has only grown, and every rollout that
    was found is still the one that is found. *)
Definition growsDisk (d d' : disk) : Prop :=
  (∀ path n, d_nofollow d path = Some n → ∃ n', d_nofollow d' path = Some n' ∧ grown n n') ∧
  (∀ root id path, findActivityRollout d None root id = Ok (None, path) → findActivityRollout d' None root id = Ok (None, path)).

Lemma limitReader_grown limit a b : appended a b → limit ≤ size a → limitReader limit b = limitReader limit a.
Proof. intros (x & -> & _) Hle. rewrite !limitReader_take, take_app_le; [done|]. unfold size in Hle. lia. Qed.

(** A bounded scan is not changed by what is appended. *)
Lemma scanOwn_grown fuel d d' root cutoff path limit depth seen ids r :
  growsDisk d d' → 0 < limit →
  scanOwn fuel d root cutoff None path limit depth seen ids = Ok r → scanOwn fuel d' root cutoff None path limit depth seen ids = Ok r.
Proof.
  intros [Hfiles Hfind]. revert path limit depth seen ids r.
  induction fuel as [|fuel IH]; intros path limit depth seen ids r Hpos H; simpl in *; [done|].
  destruct ((depthLimit <? depth) || _); [done|]. destruct (openRollout d path) as [[n meta]|] eqn:Ho; [|done].
  destruct (open_size _ _ _ _ Ho) as [Hn _]. destruct (Hfiles _ _ Hn) as (n' & Hn' & Hg).
  rewrite (open_grown _ _ _ _ _ _ Ho Hn' Hg). destruct Hg as (_ & _ & Happ).
  rewrite (proj2 (Z.eqb_neq limit 0)) in * by lia. destruct ((limit <? 0) || (nodeSize n <? limit)) eqn:Hb; [done|].
  apply orb_false_iff in Hb as [Hb1 Hb2].
  assert (nodeSize n ≤ nodeSize n') as Hgrow.
  { destruct Happ as (x & Hx & _). unfold nodeSize. rewrite Hx, size_app. pose proof (size_nonneg x). lia. }
  rewrite Hb1, (proj2 (Z.ltb_ge (nodeSize n') limit)) by lia. simpl.
  rewrite (limitReader_grown limit _ _ Happ) by (unfold nodeSize in *; lia).
  destruct (rm_Base meta) as [base|]; [|done]. destruct (negb _); [done|].
  destruct (findActivityRollout d None root _) as [[c1 basePath]|] eqn:Hf; [|done].
  pose proof (findActivityRollout_alive _ _ _ _ _ Hf) as Hf'. rewrite Hf in Hf'. simplify_eq. rewrite (Hfind _ _ _ Hf).
  destruct (_ <=? 0) eqn:Hoff; [done|]. destruct (scanOwn fuel d _ _ _ _ _ _ _ _) as [r1|] eqn:Hs; [|done].
  apply Z.leb_gt in Hoff. rewrite (IH _ _ _ _ _ _ Hoff Hs). done.
Qed.

(** ** The turns of a list of lines *)

Definition idOf (cutoff : Z) (line : bytes) : gset string :=
  match decodeRecord (dropCR line) with
  | Some record =>
    match rr_Ordinal record with
    | Some ordinal => if (cutoff <=? ordinal) && startsTurn record then {[ rr_TurnID record ]} else ∅
    | None => ∅
    end
  | None => ∅
  end.

Definition idsOf (cutoff : Z) (lines : list bytes) : gset string := ⋃ (idOf cutoff <$> lines).

Lemma idsOf_app cutoff a b : idsOf cutoff (a ++ b) = idsOf cutoff a ∪ idsOf cutoff b.
Proof. unfold idsOf. by rewrite fmap_app, union_list_app_L. Qed.

Lemma scanAppended_between c cutoff ids lines ids' fine :
  scanAppended c cutoff ids lines = (ids', fine) → ids ⊆ ids' ∧ ids' ⊆ ids ∪ idsOf cutoff lines.
Proof.
  revert c ids. induction lines as [|line lines IH]; intros c ids H; simpl in *; [simplify_eq; set_solver|].
  unfold idsOf in *. simpl. unfold idOf at 1. destruct (tooLong readLimit line); [simplify_eq; set_solver|].
  destruct (ctxErr c) as [c'|]; [|simplify_eq; set_solver].
  destruct (decodeRecord (dropCR line)) as [record|]; [|simplify_eq; set_solver].
  destruct (rr_Ordinal record) as [ordinal|]; [|simplify_eq; set_solver].
  apply IH in H as [H1 H2]. destruct (_ && _); set_solver.
Qed.

Lemma scanAppended_fine c cutoff ids lines ids' :
  scanAppended c cutoff ids lines = (ids', true) →
  ids' = ids ∪ idsOf cutoff lines ∧ ∀ start, scanRecords None cutoff false start lines = Ok (None, start ∪ idsOf cutoff lines).
Proof.
  revert c ids. induction lines as [|line lines IH]; intros c ids H; simpl in *.
  { simplify_eq. unfold idsOf. simpl. rewrite union_empty_r_L. split; [done|]. intros start. by rewrite union_empty_r_L. }
  unfold idsOf in *. simpl. unfold idOf at 1 3; simpl. destruct (tooLong readLimit line); [done|]. destruct (ctxErr c) as [c'|]; [|done].
  destruct (decodeRecord (dropCR line)) as [record|]; [|done]. destruct (rr_Ordinal record) as [ordinal|]; [|done].
  apply IH in H as [-> Hall].
  rewrite Z.leb_antisym. destruct (ordinal <? cutoff); simpl; [|destruct (startsTurn record)];
    (split; [set_solver|]; intros start; rewrite Hall; do 2 f_equal; set_solver).
Qed.

Lemma scanRecords_app cutoff first ids a b ids' :
  a ≠ [] → scanRecords None cutoff first ids a = Ok (None, ids') →
  scanRecords None cutoff first ids (a ++ b) = scanRecords None cutoff false ids' b.
Proof.
  revert first ids. induction a as [|line a IH]; intros first ids Hne H; [done|]. simpl in *.
  destruct (tooLong readLimit line); [done|]. destruct (decodeRecord (dropCR line)) as [record|]; [|done].
  assert (∀ ids, scanRecords None cutoff false ids a = Ok (None, ids') →
                 scanRecords None cutoff false ids (a ++ b) = scanRecords None cutoff false ids' b) as Hrec.
  { intros ids1 H1. destruct a as [|line' a']; [by simpl in *; simplify_eq|]. by apply IH. }
  destruct first; [by apply Hrec|]. destruct (rr_Ordinal record); [|done]. destruct (_ <? _); by apply Hrec.
Qed.

(** Every line of a scan that ends well decodes. *)
Lemma scanRecords_decodes c cutoff first ids lines r line :
  scanRecords c cutoff first ids lines = Ok r → line ∈ lines → decodeRecord (dropCR line) ≠ None.
Proof.
  revert c first ids. induction lines as [|l lines IH]; intros c first ids H Hin; [by apply elem_of_nil in Hin|].
  simpl in H. destruct (tooLong readLimit l); [done|]. destruct (ctxErr c) as [c'|]; [|done].
  destruct (decodeRecord (dropCR l)) as [record|] eqn:Hd; [|done].
  apply elem_of_cons in Hin as [->|Hin]; [by rewrite Hd|].
  destruct first; [eauto|]. destruct (rr_Ordinal record); [|done]. destruct (_ <? _); eauto.
Qed.

(** ** A longer scan *)

(** The part of a scan that reads the base of the file. *)
Definition scanBase (fuel : nat) (d : disk) (root : string) (cutoff : Z) (c : ctx) (meta : activityRolloutMeta) (depth : Z)
    (seen ids : gset string) : res err (ctx * gset string * gset string) :=
  match rm_Base meta with
  | None => Ok (c, seen, ids)
  | Some base =>
    if negb (cutoff <? hb_EndOrdinal base) then Ok (c, seen, ids) else
    match findActivityRollout d c root (hb_RolloutID base) with
    | Err e => Err e
    | Ok (c, basePath) =>
      if hb_EndByteOffset base <=? 0 then Err (EMsg "invalid activity lineage byte boundary") else
      scanOwn fuel d root cutoff c basePath (hb_EndByteOffset base) (depth + 1) seen ids
    end
  end.

Lemma scanOwn_S fuel d root cutoff c path limit n meta :
  openRollout d path = Ok (n, meta) → 0 < limit →
  scanOwn (S fuel) d root cutoff c path limit 0 ∅ ∅ =
  if nodeSize n <? limit then Err (EMsg "activity lineage exceeds available bounded history") else
  match scanBase fuel d root cutoff c meta 0 ({[ path ]} ∪ ∅) ∅ with
  | Err e => Err e
  | Ok r => scanFile decodeRecord cutoff (limitReader limit (fn_content n)) r
  end.
Proof.
  intros Ho Hpos. unfold scanBase. simpl. rewrite (bool_decide_eq_false_2 (path ∈ ∅)), Ho by set_solver.
  rewrite (proj2 (Z.eqb_neq limit 0)), (proj2 (Z.ltb_ge limit 0)) by lia. simpl.
  destruct (nodeSize n <? limit); [done|]. destruct (rm_Base meta) as [base|]; [|done]. destruct (negb _); [done|].
  destruct (findActivityRollout _ _ _ _) as [[c' p]|]; [|done]. by destruct (_ <=? 0).
Qed.

Lemma scanBase_alive fuel d root cutoff meta depth seen ids r :
  scanBase fuel d root cutoff None meta depth seen ids = Ok r → r.1.1 = None.
Proof.
  unfold scanBase. intros H. destruct (rm_Base meta) as [base|]; [|by simplify_eq]. destruct (negb _); [by simplify_eq|].
  destruct (findActivityRollout _ _ _ _) as [[c' p]|] eqn:Hf; [|done]. apply findActivityRollout_alive in Hf as Hf'.
  rewrite Hf in Hf'. simplify_eq. destruct (_ <=? 0); [done|]. apply scanOwn_alive in H as H'. rewrite H in H'. destruct r as [[c0 s0] i0]. by simplify_eq/=.
Qed.

(** A scan reads its base, then its own lines. *)
Lemma scanFork_own d path root cutoff limit ids n meta :
  openRollout d path = Ok (n, meta) → 0 < limit → scanFork d None path root cutoff limit = Ok ids →
  limit ≤ nodeSize n ∧ ∃ from, scanRecords None cutoff true from (scanLines (limitReader limit (fn_content n))) = Ok (None, ids) ∧
  ∀ limit' ids', 0 < limit' ≤ nodeSize n →
    scanRecords None cutoff true from (scanLines (limitReader limit' (fn_content n))) = Ok (None, ids') →
    scanFork d None path root cutoff limit' = Ok ids'.
Proof.
  unfold scanFromFork, scanFuel. intros Ho Hpos. rewrite (scanOwn_S _ _ _ _ _ _ _ _ _ Ho Hpos).
  destruct (nodeSize n <? limit) eqn:Hb; [done|]. apply Z.ltb_ge in Hb.
  destruct (scanBase 33 d root cutoff None meta 0 _ ∅) as [r|] eqn:Hbase; [|done].
  pose proof (scanBase_alive _ _ _ _ _ _ _ _ _ Hbase) as Hc. unfold scanFile. rewrite Hc. intros H. split; [done|]. exists r.2.
  destruct (scanRecords None cutoff true r.2 _) as [[c i]|] eqn:Hs; simplify_eq.
  pose proof (scanRecords_alive _ _ _ _ _ _ Hs) as Hs'. rewrite Hs in Hs'. simplify_eq. split; [done|].
  intros limit' ids' Hl Hs2. rewrite (scanOwn_S _ _ _ _ _ _ _ _ _ Ho) by lia. rewrite (proj2 (Z.ltb_ge _ _)) by lia.
  rewrite Hbase. unfold scanFile. by rewrite Hc, Hs2.
Qed.

Lemma scanFork_whole d path root cutoff n meta :
  openRollout d path = Ok (n, meta) → scanFork d None path root cutoff 0 = scanFork d None path root cutoff (nodeSize n).
Proof.
  intros Ho. destruct (open_size _ _ _ _ Ho) as [_ Hpos]. unfold scanFromFork, scanFuel. simpl.
  rewrite Ho. by rewrite (proj2 (Z.eqb_neq (nodeSize n) 0)) by lia.
Qed.

(** ** What is kept about a history *)

Context (blank : decodeRecord [] = None).
Context (metadata : object).
Abbreviation path := (stringValue (field "path" metadata)).

(** The file that [info] was taken from, if it is still the one at the path, has
    kept the bytes it had then. *)
Definition tracks (d : disk) (meta : activityRolloutMeta) (info : fileInfo) (P : bytes → bytes → Prop) : Prop :=
  ∀ n, d_nofollow d path = Some n → fn_inode n = fi_inode info →
    openRollout d path = Ok (n, meta) ∧
    ∃ old x, fn_content n = old ++ x ∧ size old = fi_size info ∧ appended old (old ++ x) ∧ P old x.

(** The ids of a saved lineage are those of a scan up to its size; a read that
    failed may have added turns of the lines after it. *)
Definition savedIds (d : disk) (root : string) (cutoff : Z) (saved : gset string) (old x : bytes) : Prop :=
  ∃ ids, scanFork d None path root cutoff (size old) = Ok ids ∧ ids ⊆ saved ∧ saved ⊆ ids ∪ idsOf cutoff (scanLines x).

Definition lineageOk (d : disk) (saved : activityLineageCache) : Prop :=
  ∃ root meta cutoff, lineageRoot path = Some root ∧ forkCutoff path meta = Some cutoff ∧ 0 < fi_size (lc_file saved) ∧
    tracks d meta (lc_file saved) (savedIds d root cutoff (lc_ids saved)).

Definition jobOk (d : disk) (j : activityLineageJob) : Prop :=
  lj_path j = path ∧ lineageRoot path = Some (lj_root j) ∧ 0 < fi_size (lj_file j) ∧
  (∃ meta, forkCutoff path meta = Some (lj_cutoff j) ∧ tracks d meta (lj_file j) (fun _ _ => True)) ∧
  ∀ saved, lj_done j = Some (Ok saved) → lc_header saved = lj_header j ∧ lc_file saved = lj_file j ∧ lineageOk d saved.

Definition stateOk (d : disk) (h : lineageState) : Prop :=
  (∀ saved, ls_lineage h = Some saved → lineageOk d saved) ∧ (∀ j, ls_job h = Some j → jobOk d j).

(** ** Files that change *)

(** The inodes a history has seen. *)
Definition inodes (h : lineageState) : list Z :=
  (match ls_lineage h with Some saved => [fi_inode (lc_file saved)] | None => [] end) ++
  (match ls_job h with Some j => [fi_inode (lj_file j)] | None => [] end).

(** The other files only grow and stay where they are found; the rollout of the
    thread grows, is removed, or is replaced by a file not seen before. *)
Definition evolves (used : list Z) (d d' : disk) : Prop :=
  (∀ p n, p ≠ path → d_nofollow d p = Some n → ∃ n', d_nofollow d' p = Some n' ∧ grown n n') ∧
  (∀ root id p, findActivityRollout d None root id = Ok (None, p) → findActivityRollout d' None root id = Ok (None, p)) ∧
  (∀ n', d_nofollow d' path = Some n' → (∃ n, d_nofollow d path = Some n ∧ grown n n') ∨ fn_inode n' ∉ used).

Lemma evolves_grows used d d' n n' :
  evolves used d d' → d_nofollow d path = Some n → d_nofollow d' path = Some n' → grown n n' → growsDisk d d'.
Proof.
  intros (Hother & Hfind & _) Hn Hn' Hg. split; [|done]. intros p m Hm.
  destruct (decide (p = path)) as [->|Hne]; [|eauto]. simplify_eq. eauto.
Qed.

Lemma tracks_evolves used d d' meta info (P P' : bytes → bytes → Prop) :
  evolves used d d' → fi_inode info ∈ used →
  (∀ n old x y, openRollout d path = Ok (n, meta) → fn_content n = old ++ x → size old = fi_size info → growsDisk d d' →
     appended old (old ++ x) → appended (old ++ x) ((old ++ x) ++ y) → P old x → P' old (x ++ y)) →
  tracks d meta info P → tracks d' meta info P'.
Proof.
  intros He Hin HP Ht n' Hn' Hino. pose proof He as (_ & _ & Hown).
  destruct (Hown _ Hn') as [(n & Hn & Hg)|Hfresh]; [|by rewrite Hino in Hfresh].
  pose proof (evolves_grows _ _ _ _ _ He Hn Hn' Hg) as Hgrows. pose proof Hg as (Hi & _ & y & Hy & Hdec).
  destruct (Ht _ Hn) as (Ho & old & x & Hc & Hs & Happ & Hp); [congruence|].
  assert (appended (old ++ x) ((old ++ x) ++ y)) as Happ2 by (exists y; rewrite Hc in Hdec; eauto).
  split; [by eapply open_grown|]. exists old, (x ++ y). rewrite Hy, Hc, <- app_assoc. split_and!; [done|done| |eauto].
  rewrite app_assoc. by eapply appended_trans.
Qed.

Lemma partialLine_app a b :
  partialLine (a ++ b) = if bool_decide ((splitLines b).1 = []) then partialLine a ++ partialLine b else partialLine b.
Proof.
  unfold partialLine. rewrite splitLines_app. destruct (splitLines a) as [la ra], (splitLines b) as [lb rb]. by destruct lb.
Qed.

(** Where a scan has ended well, what follows starts on a new line. *)
Definition lineCut (old x : bytes) : Prop := partialLine old = [] ∨ x = [] ∨ ∃ s, x = newlineByte :: s.

Lemma scanned_cut d root cutoff ids n meta old x :
  openRollout d path = Ok (n, meta) → fn_content n = old ++ x → 0 < size old → appended old (old ++ x) →
  scanFork d None path root cutoff (size old) = Ok ids → lineCut old x.
Proof.
  intros Ho Hc Hpos (y & Hy & Hdec) Hs. apply app_inv_head in Hy. subst y.
  destruct (scanFork_own _ _ _ _ _ _ _ _ Ho Hpos Hs) as (_ & from & Hr & _).
  rewrite Hc in Hr. replace (limitReader (size old) (old ++ x)) with old in Hr by (symmetry; apply (readAt_prefix old x)).
  destruct (decide (partialLine old = [])) as [E|E]; [by left|]. right. apply Hdec. left.
  destruct (scanLines_last _ E) as [ls Hl]. eapply scanRecords_decodes; [exact Hr|]. rewrite Hl. apply elem_of_app. right. by apply list_elem_of_singleton.
Qed.

(** The turns of appended lines stay while more is appended. *)
Lemma idsOf_grows cutoff old x y :
  lineCut old x → appended (old ++ x) ((old ++ x) ++ y) → idsOf cutoff (scanLines x) ⊆ idsOf cutoff (scanLines (x ++ y)).
Proof.
  intros Hcut (z & Hz & Hdec). apply app_inv_head in Hz. subst z. rewrite scanLines_split, idsOf_app.
  destruct (scanLines_extend x y) as [more Hmore]. apply union_least; [rewrite Hmore, idsOf_app; set_solver|].
  destruct (partialLine x) as [|b p] eqn:Hp; [apply empty_subseteq|].
  destruct (decodeRecord (dropCR (b :: p))) as [record|] eqn:Hd; [|unfold idsOf, idOf at 1; simpl; rewrite Hd, union_empty_l_L; apply empty_subseteq].
  assert (partialLine (old ++ x) = b :: p) as Hpo.
  { rewrite partialLine_app, Hp. case_bool_decide as Hn; [|done].
    destruct Hcut as [->|[->|[s ->]]]; [done|done|]. simpl in Hn. by destruct (splitLines s). }
  rewrite Hpo, Hd in Hdec. destruct Hdec as [->|[s ->]]; [by left|rewrite app_nil_r, scanLines_split, idsOf_app, Hp; set_solver|].
  rewrite scanLines_newline by (by rewrite Hp). rewrite scanLines_split, !idsOf_app, Hp. set_solver.
Qed.

Lemma lineageOk_evolves used d d' saved :
  evolves used d d' → fi_inode (lc_file saved) ∈ used → lineageOk d saved → lineageOk d' saved.
Proof.
  intros He Hin (root & meta & cutoff & Hroot & Hcut & Hpos & Ht). exists root, meta, cutoff. split_and!; [done..|].
  eapply tracks_evolves; [done|done| |exact Ht].
  intros n old x y Ho Hc Hs Hg Happ Happ2 (ids & Hscan & Hsub & Hsup). exists ids.
  assert (0 < size old) as Hp by lia. split_and!; [|done|].
  - pose proof (scanOwn_grown scanFuel d d' root cutoff path (size old) 0 ∅ ∅) as Hst. unfold scanFromFork in *.
    destruct (scanOwn scanFuel d _ _ _ _ _ _ _ _) as [r|]; [|done]. by rewrite (Hst _ Hg Hp eq_refl).
  - pose proof (idsOf_grows cutoff old x y (scanned_cut _ _ _ _ _ _ _ _ Ho Hc Hp Happ Hscan) Happ2). set_solver.
Qed.

Lemma jobOk_evolves used d d' j : evolves used d d' → fi_inode (lj_file j) ∈ used → jobOk d j → jobOk d' j.
Proof.
  intros He Hin (Hpath & Hroot & Hpos & (meta & Hcut & Ht) & Hdone). split_and!; [done..| |].
  - exists meta. split; [done|]. by eapply tracks_evolves; [done|done| |exact Ht].
  - intros saved Hsaved. destruct (Hdone _ Hsaved) as (Hh & Hf & Hok). split_and!; [done..|].
    eapply lineageOk_evolves; [done| |done]. by rewrite Hf.
Qed.

Lemma stateOk_evolves d d' h : evolves (inodes h) d d' → stateOk d h → stateOk d' h.
Proof.
  unfold inodes. intros He [Hl Hj]. split.
  - intros saved Hs. eapply lineageOk_evolves; [done| |by apply Hl]. rewrite Hs. set_solver.
  - intros j Hs. eapply jobOk_evolves; [done| |by apply Hj]. rewrite Hs. apply elem_of_app. right. by apply list_elem_of_singleton.
Qed.

(** ** Jobs *)

Lemma jobOk_run d c worker j : jobOk d j → jobOk d (runActivityLineage decodeHeader decodeRecord d c worker j).
Proof.
  intros (Hpath & Hroot & Hpos & (meta & Hcut & Ht) & _). split_and!; [done..|by exists meta|].
  unfold runActivityLineage. simpl. intros saved Hsaved. destruct (negb worker); [done|]. rewrite Hpath in Hsaved.
  destruct (scanFork d c path _ _ _) as [ids|] eqn:Hs; [|done]. destruct (pageRolloutTail _ _ _) as [tail|]; simplify_eq. simpl.
  split_and!; [done..|]. exists (lj_root j), meta, (lj_cutoff j). split_and!; [done..|]. simpl.
  intros n Hn Hi. destruct (Ht _ Hn Hi) as (Ho & old & x & Hc & Hsz & Happ & _). split; [done|]. exists old, x. split_and!; [done..|].
  exists ids. split_and!; [|done|set_solver]. unfold scanFromFork in *. rewrite Hsz.
  destruct (scanOwn scanFuel d _ _ c _ _ _ _ _) as [r|] eqn:Hr; [|done]. apply scanOwn_alive in Hr. rewrite Hr. destruct r as [[??]?]. by simplify_eq.
Qed.

(** A job that is started reads the file as it is. *)
Lemma jobOk_start d slot n meta root cutoff j :
  openRollout d path = Ok (n, meta) → lineageRoot path = Some root → forkCutoff path meta = Some cutoff →
  startActivityLineage slot path root cutoff (metaText meta) (stat n) = Some j → jobOk d j.
Proof.
  unfold startActivityLineage. intros Ho Hroot Hcut Hj. destruct slot; simplify_eq. destruct (open_size _ _ _ _ Ho) as [Hn Hpos].
  split_and!; [done..| |by intros].
  exists meta. split; [done|]. intros n' Hn' _. rewrite Hn in Hn'. injection Hn' as <-. split; [done|]. exists (fn_content n), []. rewrite app_nil_r.
  split_and!; [done..|apply appended_refl|done].
Qed.

(** ** Reads *)

(** The lines appended to a scanned prefix give the turns of the longer scan. *)
Lemma scan_longer d c root cutoff n meta old x ids saved ids' :
  openRollout d path = Ok (n, meta) → fn_content n = old ++ x → 0 < size old → lineCut old x →
  scanFork d None path root cutoff (size old) = Ok ids → (size old <? size (old ++ x)) = true →
  scanAppended c cutoff saved (scanLines x) = (ids', true) →
  scanFork d None path root cutoff (nodeSize n) = Ok (ids ∪ idsOf cutoff (scanLines x)).
Proof.
  intros Ho Hc Hp Hlc Hscan Hlt Ha. destruct (scanAppended_fine _ _ _ _ _ Ha) as [_ Hrec]. destruct (open_size _ _ _ _ Ho) as [_ Hnpos].
  destruct Hlc as [Hcutline|[->|[s ->]]].
  - destruct (scanFork_own _ _ _ _ _ _ _ _ Ho Hp Hscan) as (_ & from & Hr & Hlonger). apply Hlonger; [lia|]. rewrite Hc in *.
    replace (limitReader (size old) (old ++ x)) with old in Hr by (symmetry; apply (readAt_prefix old x)).
    replace (limitReader (nodeSize n) (old ++ x)) with (old ++ x)
      by (unfold nodeSize; rewrite Hc; symmetry; pose proof (readAt_prefix (old ++ x) []) as E; rewrite app_nil_r in E; exact E).
    rewrite scanLines_app by done. rewrite (scanRecords_app _ _ _ _ _ ids); [apply Hrec| |done].
    apply scanLines_nonempty. intros ->. by vm_compute in Hp.
  - rewrite app_nil_r in Hlt. apply Z.ltb_lt in Hlt. lia.
  - rewrite scanLines_blank in Ha. simpl in Ha. destruct (ctxErr c); [|done].
    unfold dropCR in Ha. simpl in Ha. by rewrite blank in Ha.
Qed.

(** What a read that goes on from a saved lineage leaves, and what it answers. *)
Lemma extend_exact d c n meta cutoff saved saved' fine :
  openRollout d path = Ok (n, meta) → forkCutoff path meta = Some cutoff → fn_inode n = fi_inode (lc_file saved) →
  lineageOk d saved → extendLineage decodeRecord d c path n cutoff saved = (saved', fine) →
  lineageOk d saved' ∧ (fine = true → ∃ root, lineageRoot path = Some root ∧ scanFork d None path root cutoff 0 = Ok (lc_ids saved')).
Proof.
  intros Ho Hcut Hino (root & meta' & cutoff' & Hroot & Hcut' & Hpos & Ht) He.
  destruct (open_size _ _ _ _ Ho) as [Hn Hnpos]. destruct (Ht _ Hn Hino) as (Ho' & old & x & Hc & Hsz & Happ & ids & Hscan & Hsub & Hsup).
  rewrite Ho in Ho'. injection Ho' as <-. rewrite Hcut in Hcut'. injection Hcut' as <-.
  assert (0 < size old) as Hp by lia. pose proof (scanned_cut _ _ _ _ _ _ _ _ Ho Hc Hp Happ Hscan) as Hlc.
  assert (∀ saved' : gset string, lc_ids saved ⊆ saved' → saved' ⊆ lc_ids saved ∪ idsOf cutoff (scanLines x) →
    lineageOk d (mkLineage (lc_header saved) (lc_file saved) (lc_tail saved) saved')) as Hkept.
  { intros s' H1 H2. exists root, meta, cutoff. split_and!; [done..|]. intros n' Hn' _. rewrite Hn in Hn'. injection Hn' as <-. split; [done|].
    exists old, x. split_and!; [done..|]. exists ids. split_and!; [done|set_solver|set_solver]. }
  assert (∀ (all : gset string) tail, scanFork d None path root cutoff (nodeSize n) = Ok all →
    lineageOk d (mkLineage (lc_header saved) (stat n) tail all) ∧
    (true = true → ∃ root, lineageRoot path = Some root ∧ scanFork d None path root cutoff 0 = Ok all)) as Hnew.
  { intros all tail Hall. split; [|exists root; split; [done|]; by rewrite (scanFork_whole _ _ _ _ _ _ Ho)].
    exists root, meta, cutoff. split_and!; [done..|]. intros n' Hn' _. rewrite Hn in Hn'. injection Hn' as <-. split; [done|].
    exists (fn_content n), []. rewrite app_nil_r. split_and!; [done..|apply appended_refl|]. exists all. split_and!; [done|done|set_solver]. }
  unfold extendLineage in He. replace (fi_size (stat n)) with (size (old ++ x)) in He by (simpl; unfold nodeSize; by rewrite Hc).
  rewrite <- Hsz, Hc in He. rewrite readAt_suffix in He.
  destruct (size old <? size (old ++ x)) eqn:Hlt.
  - destruct (scanAppended c cutoff (lc_ids saved) (scanLines x)) as [ids' ok] eqn:Ha.
    destruct (scanAppended_between _ _ _ _ _ _ Ha) as [Hb1 Hb2].
    destruct (negb ok) eqn:Hok; [simplify_eq; split; [by apply Hkept|done]|].
    destruct (pageRolloutTail d path _) as [tail|] eqn:Htail; simplify_eq; [|split; [by apply Hkept|done]].
    destruct ok; [|done]. destruct (scanAppended_fine _ _ _ _ _ Ha) as [-> _]. simpl. apply Hnew.
    rewrite (scan_longer _ _ _ _ _ _ _ _ _ _ _ Ho Hc Hp Hlc Hscan Hlt Ha). f_equal. set_solver.
  - assert (x = []) as ->.
    { apply Z.ltb_ge in Hlt. rewrite size_app in Hlt. unfold size in Hlt. destruct x; [done|]. simpl in Hlt. lia. }
    simpl in He. destruct (pageRolloutTail d path _) as [tail|] eqn:Htail; simplify_eq; [|split; [apply Hkept; set_solver|done]].
    rewrite app_nil_r in *. simpl. apply Hnew. unfold nodeSize. rewrite Hc, Hscan. f_equal.
    unfold idsOf in Hsup. simpl in Hsup. set_solver.
Qed.

Lemma stateOk_job d h j : stateOk d h → jobOk d j → stateOk d (mkLineageState (ls_lineage h) (Some j)).
Proof. intros [Hl _] Hj. split; simpl; [done|]. intros j' ?. by simplify_eq. Qed.

Lemma stateOk_forget d h : stateOk d h → stateOk d (mkLineageState (ls_lineage h) None).
Proof. intros [Hl _]. by split. Qed.

Lemma currentJob_some header info h j : currentJob header info h = Some j →
  h = Some j ∧ sameFile info (lj_file j) = true ∧ lj_header j = header.
Proof.
  unfold currentJob. destruct h as [j'|]; [|done]. destruct (sameFile info (lj_file j')) eqn:E; [|by rewrite orb_true_r].
  destruct (str_eqb (lj_header j') header) eqn:F; [|done]. apply str_eqb_eq in F.
  intros H. destruct (_ || _ || _); [done|]. by simplify_eq.
Qed.

(** The saved lineage is of the file that is read, with the header it has. *)
Definition fits (n : fileNode) (meta : activityRolloutMeta) (saved : activityLineageCache) : Prop :=
  fn_inode n = fi_inode (lc_file saved) ∧ lc_header saved = metaText meta.

Lemma await_exact d slot n meta cutoff h r h' :
  openRollout d path = Ok (n, meta) → forkCutoff path meta = Some cutoff → stateOk d h →
  awaitLineage d slot path cutoff (metaText meta) (stat n) h = (r, h') →
  stateOk d h' ∧ ∀ saved, r = Some saved → lineageOk d saved ∧ fits n meta saved.
Proof.
  intros Ho Hcut Hst. unfold awaitLineage. destruct (lineageRoot path) as [root|] eqn:Hroot; [|intros; by simplify_eq].
  set (job := match currentJob _ _ _ with Some j => _ | None => _ end).
  assert (∀ j, job = Some j → jobOk d j ∧ (∀ saved, lj_done j = Some (Ok saved) → fits n meta saved)) as Hjob.
  { intros j Hj. unfold job in Hj. destruct (currentJob _ _ (ls_job h)) as [j'|] eqn:Hcur.
    - apply currentJob_some in Hcur as (Hh & Hsame & Hhead). simplify_eq. assert (jobOk d j) as Hok by (by apply Hst). split; [done|].
      intros saved Hs. destruct Hok as (_ & _ & _ & _ & Hdone). destruct (Hdone _ Hs) as (Eh & Ef & _). apply Z.eqb_eq in Hsame.
      unfold fits. rewrite Eh, Ef. done.
    - split; [by eapply jobOk_start|]. unfold startActivityLineage in Hj. destruct slot; by simplify_eq. }
  destruct job as [j|]; [|intros ?; simplify_eq; split; [by apply stateOk_forget|done]].
  destruct (Hjob _ eq_refl) as [Hok Hfits]. simpl.
  destruct (lj_done j) as [[saved|e]|] eqn:Hdone;
    [|destruct (_ || _); intros ?; simplify_eq; (split; [|done]); [by apply stateOk_forget|by apply stateOk_job]
     |intros ?; simplify_eq; split; [by apply stateOk_job|done]].
  destruct Hok as (_ & _ & _ & _ & Hl). destruct (Hl _ Hdone) as (_ & _ & Hlok).
  destruct (negb _); intros ?; simplify_eq; [by split|]. split; [split; simpl; [|done]; intros ? ?; by simplify_eq|].
  intros ? ?. simplify_eq. split; [done|by apply Hfits].
Qed.

(** The rollout of a forked thread, and where the fork starts. *)
Definition forked (d : disk) (n : fileNode) (meta : activityRolloutMeta) (cutoff : Z) : Prop :=
  is_empty (stringValue (field "forkedFromId" metadata)) = false ∧ openRollout d path = Ok (n, meta) ∧
  negb (str_eqb (rm_ID meta) (stringValue (field "id" metadata)))
    || negb (str_eqb (rm_ParentID meta) (stringValue (field "forkedFromId" metadata))) = false ∧
  forkCutoff path meta = Some cutoff.

(** A read that answers goes on from a saved lineage of the file. *)
Definition answered (d : disk) (c : ctx) (turns ts : list TurnMetadata) (h' : lineageState) : Prop :=
  ∃ n meta cutoff saved saved', forked d n meta cutoff ∧ lineageOk d saved ∧ fits n meta saved ∧
    extendLineage decodeRecord d c path n cutoff saved = (saved', true) ∧
    ts = ownTurns (lc_ids saved') turns ∧ ls_lineage h' = Some saved'.

Lemma read_cases d c slot turns h ts scope h' :
  stateOk d h → ownPagedActivityTurns decodeHeader decodeRecord d c slot metadata turns h = (ts, scope, h') →
  stateOk d h' ∧ (scope = "sinceFork" → answered d c turns ts h').
Proof.
  intros Hst. unfold ownPagedActivityTurns. destruct (is_empty _) eqn:Hfork; [intros; by simplify_eq|].
  destruct (openRollout d path) as [[n meta]|] eqn:Ho; [|intros; by simplify_eq]. destruct (negb _ || _) eqn:Hids; [intros; by simplify_eq|].
  destruct (forkCutoff path meta) as [cutoff|] eqn:Hcut; [|intros; by simplify_eq].
  set (got := match ls_lineage h with Some _ => _ | None => _ end).
  assert (stateOk d got.2 ∧ ∀ saved, got.1 = Some saved → lineageOk d saved ∧ fits n meta saved) as [Hst' Hsaved].
  { assert (∀ r, awaitLineage d slot path cutoff (metaText meta) (stat n) h = r →
      stateOk d r.2 ∧ ∀ saved, r.1 = Some saved → lineageOk d saved ∧ fits n meta saved) as Haw.
    { intros [r h''] Hr. by eapply await_exact. }
    unfold got. destruct (ls_lineage h) as [saved|] eqn:Hl; [|by apply Haw].
    destruct (reusableLineage _ _ _ _ _) eqn:Hre; [|by apply Haw]. simpl. split; [done|]. intros ? ?. simplify_eq.
    split; [by apply Hst|]. unfold reusableLineage in Hre. rewrite !andb_true_iff in Hre. destruct Hre as [[[Hhead Hsame] _] _].
    apply Z.eqb_eq in Hsame. by apply str_eqb_eq in Hhead. }
  clearbody got. destruct got as [[saved|] h1]; simpl in *; [|intros; by simplify_eq].
  destruct (Hsaved _ eq_refl) as [Hok Hfits].
  destruct (extendLineage decodeRecord d c path n cutoff saved) as [saved' fine] eqn:He.
  destruct (extend_exact _ _ _ _ _ _ _ _ Ho Hcut (proj1 Hfits) Hok He) as [Hok' _].
  assert (stateOk d (mkLineageState (Some saved') (ls_job h1))) as Hfin.
  { split; simpl; [intros ? ?; by simplify_eq|apply Hst']. }
  destruct fine; intros ?; simplify_eq; split; [done| |done|done]. intros _. by exists n, meta, cutoff, saved, saved'.
Qed.

(** What a read answers is what the full scan answers. *)
Lemma answered_exact d c turns ts h' :
  answered d c turns ts h' → ownActivityTurns decodeHeader decodeRecord d None metadata turns = (ts, "sinceFork").
Proof.
  intros (n & meta & cutoff & saved & saved' & (Hf & Ho & Hids & Hcut) & Hok & [Hino _] & He & -> & _).
  destruct (extend_exact _ _ _ _ _ _ _ _ Ho Hcut Hino Hok He) as [_ Hans]. destruct (Hans eq_refl) as (root & Hroot & Hscan).
  unfold ownActivityTurns. by rewrite Hf, Ho, Hids, Hcut, Hroot, Hscan.
Qed.

(** ** Histories *)

(** What happens to the lineage of a history: files change, the goroutine of its
    job ends, the activity of the thread is read, or the history is built anew. *)
Inductive lineageStep : disk * lineageState → disk * lineageState → Prop :=
| StepFiles d d' h : evolves (inodes h) d d' → lineageStep (d, h) (d', h)
| StepJob d c worker j h : ls_job h = Some j → lj_done j = None →
    lineageStep (d, h) (d, mkLineageState (ls_lineage h) (Some (runActivityLineage decodeHeader decodeRecord d c worker j)))
| StepRead d c slot turns h ts scope h' :
    ownPagedActivityTurns decodeHeader decodeRecord d c slot metadata turns h = (ts, scope, h') → lineageStep (d, h) (d, h')
| StepFresh d h : lineageStep (d, h) (d, noLineage).

Definition lineageReachable (s : disk * lineageState) : Prop := ∃ d, rtc lineageStep (d, noLineage) s.

Lemma noLineage_ok d : stateOk d noLineage.
Proof. by split. Qed.

Lemma step_ok s s' : lineageStep s s' → stateOk s.1 s.2 → stateOk s'.1 s'.2.
Proof.
  intros [d d' h He|d c worker j h Hj Hd|d c slot turns h ts scope h' Hr|d h] Hst; simpl in *.
  - by eapply stateOk_evolves.
  - apply stateOk_job; [done|]. apply jobOk_run. by apply Hst.
  - by eapply read_cases.
  - apply noLineage_ok.
Qed.

Lemma reachable_ok d h : lineageReachable (d, h) → stateOk d h.
Proof.
  intros [d0 Hr]. change (stateOk (d, h).1 (d, h).2). revert Hr. generalize (noLineage_ok d0).
  change (stateOk d0 noLineage) with (stateOk (d0, noLineage).1 (d0, noLineage).2).
  intros Hok Hr. induction Hr; [done|]. by eapply IHHr, step_ok.
Qed.

(** ** Reads of a file that has grown *)

Lemma scanRecords_split cutoff first ids a b r :
  scanRecords None cutoff first ids (a ++ b) = Ok r → a ≠ [] →
  ∃ ids', scanRecords None cutoff first ids a = Ok (None, ids') ∧ scanRecords None cutoff false ids' b = Ok r.
Proof.
  intros H Hne. destruct (scanRecords None cutoff first ids a) as [[c ids']|e] eqn:Ha.
  - pose proof (scanRecords_alive _ _ _ _ _ _ Ha) as Ha'. rewrite Ha in Ha'. simplify_eq. exists ids'. split; [done|].
    by rewrite (scanRecords_app _ _ _ _ _ ids') in H.
  - exfalso. clear Hne. revert first ids H Ha. induction a as [|line a IH]; intros first ids H Ha; simpl in *; [done|].
    destruct (tooLong readLimit line); [done|]. destruct (decodeRecord (dropCR line)) as [record|]; [|done].
    destruct first; [eauto|]. destruct (rr_Ordinal record); [|done]. destruct (_ <? _); eauto.
Qed.

(** Lines that scan well are appended well, whatever was collected before. *)
Lemma scanAppended_scans cutoff ids start lines r :
  scanRecords None cutoff false start lines = Ok r → (scanAppended None cutoff ids lines).2 = true.
Proof.
  revert ids start. induction lines as [|line lines IH]; intros ids start H; simpl in *; [done|].
  destruct (tooLong readLimit line); [done|]. destruct (decodeRecord (dropCR line)) as [record|]; [|done].
  destruct (rr_Ordinal record); [|done]. destruct (_ <? _); eauto.
Qed.

Lemma tail_exists d n sz : d_open d path = Some n → 0 ≤ sz ≤ nodeSize n → ∃ tail, pageRolloutTail d path sz = Ok tail.
Proof.
  unfold pageRolloutTail, nodeSize. intros -> Hsz. destruct (0 <? _) eqn:Hl; [|eauto]. unfold readFull.
  rewrite (proj2 (Z.ltb_ge _ 0)), (proj2 (Z.ltb_ge (size (fn_content n)) _)); [simpl; eauto|lia|].
  destruct (sz <? tailSize) eqn:E; [lia|]. apply Z.ltb_ge in E. lia.
Qed.

(** Where the saved scan ended on a newline, a file that the full scan reads to
    its end is read to its end from there. *)
Lemma extend_fine d n meta root cutoff saved old x all :
  diskOk d → openRollout d path = Ok (n, meta) → fn_content n = old ++ x → size old = fi_size (lc_file saved) → old ≠ [] →
  partialLine old = [] → scanFork d None path root cutoff 0 = Ok all → (extendLineage decodeRecord d None path n cutoff saved).2 = true.
Proof.
  intros Hd Ho Hc Hsz Hne Hcut Hall. destruct (open_size _ _ _ _ Ho) as [Hn Hpos].
  assert ((scanAppended None cutoff (lc_ids saved) (scanLines x)).2 = true) as Hfine.
  { rewrite (scanFork_whole _ _ _ _ _ _ Ho) in Hall. destruct (scanFork_own _ _ _ _ _ _ _ _ Ho Hpos Hall) as (_ & from & Hr & _).
    replace (limitReader (nodeSize n) (fn_content n)) with (old ++ x) in Hr
      by (unfold nodeSize; rewrite Hc; symmetry; pose proof (readAt_prefix (old ++ x) []) as E; rewrite app_nil_r in E; exact E).
    rewrite scanLines_app in Hr by done. destruct (scanRecords_split _ _ _ _ _ _ Hr (scanLines_nonempty _ Hne)) as (ids' & _ & Hx).
    by eapply scanAppended_scans. }
  unfold extendLineage. replace (fi_size (stat n)) with (size (old ++ x)) by (simpl; unfold nodeSize; by rewrite Hc).
  rewrite <- Hsz, Hc, readAt_suffix.
  destruct (tail_exists d n (size (old ++ x))) as [tail Htail]; [by apply Hd|unfold nodeSize; rewrite Hc; pose proof (size_nonneg (old ++ x)); lia|].
  destruct (_ <? _); [destruct (scanAppended _ _ _ _) as [ids' ok]; simpl in *; subst ok|]; simpl; by rewrite Htail.
Qed.

(** What an answered read has saved is reused on the file that has grown since. *)
Lemma extend_reusable d d' c n n' meta cutoff saved saved' :
  diskOk d → diskOk d' → openRollout d path = Ok (n, meta) → d_nofollow d' path = Some n' → grown n n' → fits n meta saved →
  extendLineage decodeRecord d c path n cutoff saved = (saved', true) →
  lc_file saved' = stat n ∧ reusableLineage d' path (metaText meta) (stat n') saved' = true.
Proof.
  intros Hd Hd' Ho Hn' Hg [_ Hhead] He. destruct (open_size _ _ _ _ Ho) as [Hn Hpos]. unfold extendLineage in He.
  destruct (if _ <? _ then _ else _) as [ids ok]. destruct (negb ok); [by simplify_eq|].
  destruct (pageRolloutTail d path _) as [tail|] eqn:Ht; simplify_eq. split; [done|]. unfold reusableLineage. simpl.
  destruct Hg as (Hi & Hreg & x & Hx & _). rewrite Hhead, str_eqb_refl. unfold sameFile. simpl. rewrite Hi, Z.eqb_refl. simpl.
  rewrite (proj2 (Z.leb_le _ _)) by (unfold nodeSize; rewrite Hx, size_app; pose proof (size_nonneg x); lia). simpl.
  eapply tail_matches; [exact Ht|by apply Hd|by apply Hd'| | |simpl; lia|by exists x].
  - rewrite Hreg. pose proof Ho as Ho'. unfold openActivityRollout in Ho'. rewrite Hn in Ho'. destruct (negb (isAbs _) || _); [done|].
    by destruct (fn_regular n).
  - unfold sameFile. simpl. by rewrite Hi, Z.eqb_refl.
Qed.

(** C31. However files, jobs and reads interleaved, a read that answers from the
    cached lineage answers what a scan of every rollout of the chain answers. *)
Theorem paged_activity_exact d h c slot turns ts h' :
  lineageReachable (d, h) →
  ownPagedActivityTurns decodeHeader decodeRecord d c slot metadata turns h = (ts, "sinceFork", h') →
  ownActivityTurns decodeHeader decodeRecord d None metadata turns = (ts, "sinceFork").
Proof.
  intros Hr Hread. destruct (read_cases _ _ _ _ _ _ _ _ (reachable_ok _ _ Hr) Hread) as [_ Hans]. by eapply answered_exact, Hans.
Qed.

(** After a read that answered on a rollout that ends in a newline, a later
    read of the grown files answers at once, without a job, whenever a scan of
    all of them does, and answers the same turns. *)
Theorem paged_activity_follows d d' h c slot turns ts h' slot' turns' ts' :
  lineageReachable (d, h) →
  ownPagedActivityTurns decodeHeader decodeRecord d c slot metadata turns h = (ts, "sinceFork", h') →
  growsDisk d d' → diskOk d → diskOk d' → (∀ n, d_nofollow d path = Some n → partialLine (fn_content n) = []) →
  ownActivityTurns decodeHeader decodeRecord d' None metadata turns' = (ts', "sinceFork") →
  (ownPagedActivityTurns decodeHeader decodeRecord d' None slot' metadata turns' h').1 = (ts', "sinceFork").
Proof.
  intros Hr Hread Hgrows Hd Hd' Hnl Hfull.
  destruct (read_cases _ _ _ _ _ _ _ _ (reachable_ok _ _ Hr) Hread) as [Hst' Hans].
  destruct (Hans eq_refl) as (n & meta & cutoff & saved & saved' & (Hf & Ho & Hids & Hcut) & _ & Hfits & He & _ & Hl').
  destruct (open_size _ _ _ _ Ho) as [Hn Hpos]. destruct (proj1 Hgrows _ _ Hn) as (n' & Hn' & Hg).
  destruct (extend_reusable _ _ _ _ _ _ _ _ _ Hd Hd' Ho Hn' Hg Hfits He) as [Hfile Hre].
  pose proof (open_grown _ _ _ _ _ _ Ho Hn' Hg) as Ho'. pose proof Hg as (Hi & _ & x & Hx & _).
  unfold ownActivityTurns in Hfull. rewrite Hf, Ho', Hids, Hcut in Hfull.
  destruct (lineageRoot path) as [root|] eqn:Hroot; [|done]. destruct (scanFork d' None path root cutoff 0) as [all|] eqn:Hall; simplify_eq.
  assert ((extendLineage decodeRecord d' None path n' cutoff saved').2 = true) as Hfine.
  { eapply extend_fine; [done|exact Ho'|exact Hx|by rewrite Hfile| |by apply Hnl|exact Hall].
    intros E. unfold nodeSize in Hpos. by rewrite E in Hpos. }
  unfold ownPagedActivityTurns. rewrite Hf, Ho', Hids, Hcut, Hl', Hre.
  destruct (extendLineage decodeRecord d' None path n' cutoff saved') as [saved2 fine] eqn:He2. simpl in Hfine. subst fine. simpl. do 2 f_equal.
  assert (stateOk d' h') as Hok.
  { eapply stateOk_evolves; [|exact Hst']. split_and!; [intros; by apply Hgrows|apply Hgrows|].
    intros n2 Hn2. left. exists n. rewrite Hn' in Hn2. injection Hn2 as <-. done. }
  destruct (extend_exact d' None n' meta cutoff saved' saved2 true) as [_ Hex]; [done|done|by rewrite Hfile|by apply Hok|done|].
  destruct (Hex eq_refl) as (root' & Hroot' & Hscan). rewrite Hroot in Hroot'. injection Hroot' as <-. rewrite Hall in Hscan. by injection Hscan as <-.
Qed.

(** The recursion of the scan ends by its depth: fuel beyond 34 changes nothing. *)
Theorem lineage_scan_ends fuel d root cutoff c limit seen ids p :
  (scanFuel ≤ fuel)%nat → scanOwn fuel d root cutoff c p limit 0 seen ids = scanOwn scanFuel d root cutoff c p limit 0 seen ids.
Proof.
  intros Hle. assert (∀ a b c p limit depth seen ids, 33 - depth ≤ Z.of_nat a → 33 - depth ≤ Z.of_nat b →
    scanOwn (S a) d root cutoff c p limit depth seen ids = scanOwn (S b) d root cutoff c p limit depth seen ids) as Hgen.
  { clear. induction a as [|a IH]; intros b c p limit depth seen ids Ha Hb.
    { simpl. unfold depthLimit. by rewrite (proj2 (Z.ltb_lt 32 depth)) by lia. }
    destruct b as [|b].
    { simpl. unfold depthLimit. by rewrite (proj2 (Z.ltb_lt 32 depth)) by lia. }
    remember (S a) as a1 eqn:Ea. remember (S b) as b1 eqn:Eb. simpl. destruct (depthLimit <? depth); [done|].
    simpl. destruct (bool_decide _); [done|]. destruct (openRollout d p) as [[n meta]|]; [|done].
    destruct (_ || _); [done|]. destruct (rm_Base meta) as [base|]; [|done]. destruct (negb _); [done|].
    destruct (findActivityRollout _ _ _ _) as [[c' q]|]; [|done]. destruct (_ <=? 0); [done|].
    pose proof (IH b c' q (hb_EndByteOffset base) (depth + 1) ({[p]} ∪ seen) ids ltac:(lia) ltac:(lia)) as E. subst. by rewrite E. }
  unfold scanFuel in *. destruct fuel as [|fuel]; [lia|]. apply Hgen; lia.
Qed.

End Lineage.

(** ** A forked thread *)

(** Lines of a tiny rollout: [H] the header, [Tn] the start of turn [Tn] at the
    ordinal [n]. *)
Definition demoRecord (line : bytes) : option rolloutRecord :=
  match line with
  | [72] => Some (mkRecord None "session_meta" "" "")
  | [84; n] => Some (mkRecord (Some (n - 48)) "event_msg" "task_started" (string_of [84; n]))
  | _ => None
  end.

Definition demoID : string := "01234567-89ab-cdef-0123-456789abcdef".
Definition demoParent : string := "89abcdef-0123-4567-89ab-cdef01234567".
Definition demoPath : string := ("/root/sessions/rollout-" ++ demoID ++ ".jsonl")%string.
Definition demoBasePath : string := ("/root/archived_sessions/rollout-" ++ demoParent ++ ".jsonl")%string.

(** The fork starts at ordinal 2; the first four lines of its parent are its own base. *)
Definition demoHeader (line : bytes) : option (string * activityRolloutMeta) :=
  match line with
  | [72] => Some ("session_meta", mkMeta demoID demoParent (Some 2) (Some (mkBase demoParent 4 11)))
  | [72; 80] => Some ("session_meta", mkMeta demoParent "" None None)
  | _ => None
  end.

Definition demoLine (line : bytes) : option rolloutRecord :=
  match line with
  | [72; 80] => Some (mkRecord None "session_meta" "" "")
  | _ => demoRecord line
  end.

Definition demoMetadata : object :=
  [("id", AStr demoID); ("forkedFromId", AStr demoParent); ("path", AStr demoPath)].

Definition demoText (s : string) : bytes := map (fun b => if b =? 47 then newlineByte else b) (bytes_of s).

(** A disk with the rollout of the fork and that of its parent. *)
Definition demoDisk (text : bytes) : disk :=
  let open p := if str_eqb p demoPath then Some (mkNode 7 0 true text)
                else if str_eqb p demoBasePath then Some (mkNode 8 0 true (demoText "HP/T1/T2/T3/T9/")) else None in
  mkDisk open open (fun dir => if str_eqb dir "/root/archived_sessions"
                               then [VEntry demoBasePath false false ("rollout-" ++ demoParent ++ ".jsonl")%string] else [VMissing]).

Definition demoTurn (id : string) : TurnMetadata := mkTurn id "completed" 0 0 0 0 0 0 false false ∅.
Definition demoTurns : list TurnMetadata := demoTurn <$> ["T1"; "T2"; "T3"; "T4"; "T5"; "T6"].

Definition demoRead (text : bytes) (h : lineageState) :=
  ownPagedActivityTurns demoHeader demoLine (demoDisk text) None true demoMetadata demoTurns h.

Definition demoRun (text : bytes) (h : lineageState) : lineageState :=
  mkLineageState (ls_lineage h) (runActivityLineage demoHeader demoLine (demoDisk text) None true <$> ls_job h).

(** The first read starts a job; once it has ended reads answer. *)
Definition demoOld : bytes := demoText "H/T4/".
Definition demoNew : bytes := demoText "H/T4/T5/".
Definition demoJob : lineageState := (demoRead demoOld noLineage).2.
Definition demoEnded : lineageState := demoRun demoOld demoJob.
Definition demoSaved : lineageState := (demoRead demoOld demoEnded).2.

Example demo_answers :
  ((demoRead demoOld noLineage).1, (demoRead demoOld demoEnded).1, (demoRead demoNew demoSaved).1) =
  (([], "unknown"), (demoTurn <$> ["T2"; "T3"; "T4"], "sinceFork"), (demoTurn <$> ["T2"; "T3"; "T4"; "T5"], "sinceFork")).
Proof. vm_compute. reflexivity. Qed.

Lemma demo_grows : growsDisk demoHeader demoLine (demoDisk demoOld) (demoDisk demoNew).
Proof.
  split; [|done]. intros p n Hn. simpl in *. destruct (str_eqb p demoPath); simplify_eq.
  - eexists. split; [done|]. split_and!; [done..|]. exists (demoText "T5/"). split; [by vm_compute|]. intros [H|H]; by vm_compute in H.
  - exists n. split; [done|]. split_and!; [done..|]. apply appended_refl.
Qed.

Lemma demo_reachable_saved : lineageReachable demoHeader demoLine demoMetadata (demoDisk demoOld, demoEnded).
Proof.
  exists (demoDisk demoOld). eapply rtc_l; [|eapply rtc_l; [|apply rtc_refl]].
  - apply (StepRead _ _ _ _ None true demoTurns _ (demoRead demoOld noLineage).1.1 (demoRead demoOld noLineage).1.2 demoJob).
    unfold demoJob, demoRead. by destruct (ownPagedActivityTurns _ _ _ _ _ _ _ _) as [[? ?] ?].
  - assert (∃ j, ls_job demoJob = Some j ∧ lj_done j = None) as (j & Hj & Hd) by (eexists; split; vm_compute; reflexivity).
    pose proof (StepJob demoHeader demoLine demoMetadata (demoDisk demoOld) None true j demoJob Hj Hd) as Hs.
    unfold demoEnded, demoRun. rewrite Hj. exact Hs.
Qed.

Lemma demo_reachable : lineageReachable demoHeader demoLine demoMetadata (demoDisk demoNew, demoSaved).
Proof.
  destruct demo_reachable_saved as [d0 H]. exists d0. etransitivity; [exact H|]. eapply rtc_l; [|eapply rtc_l; [|apply rtc_refl]].
  - apply (StepRead _ _ _ _ None true demoTurns _ (demoRead demoOld demoEnded).1.1 (demoRead demoOld demoEnded).1.2 demoSaved).
    unfold demoSaved, demoRead. by destruct (ownPagedActivityTurns _ _ _ _ _ _ _ _) as [[? ?] ?].
  - apply StepFiles. destruct demo_grows as [Hg Hf]. split_and!; [intros; by apply Hg|exact Hf|].
    intros n' Hn'. left. destruct (Hg (stringValue (field "path" demoMetadata)) (mkNode 7 0 true demoOld) eq_refl) as (n2 & E & Hgr).
    rewrite Hn' in E. injection E as <-. by exists (mkNode 7 0 true demoOld).
Qed.

Lemma demo_read text h ts scope : (demoRead text h).1 = (ts, scope) →
  ownPagedActivityTurns demoHeader demoLine (demoDisk text) None true demoMetadata demoTurns h = (ts, scope, (demoRead text h).2).
Proof. change (ownPagedActivityTurns _ _ _ _ _ _ _ _) with (demoRead text h). by destruct (demoRead text h) as [[? ?] ?]; simpl; intros; simplify_eq. Qed.

Lemma demo_read_new : (demoRead demoNew demoSaved).1 = (demoTurn <$> ["T2"; "T3"; "T4"; "T5"], "sinceFork").
Proof. vm_compute. reflexivity. Qed.

Lemma demo_read_old : (demoRead demoOld demoEnded).1 = (demoTurn <$> ["T2"; "T3"; "T4"], "sinceFork").
Proof. vm_compute. reflexivity. Qed.

Lemma paged_activity_exact_witness :
  ownActivityTurns demoHeader demoLine (demoDisk demoNew) None demoMetadata demoTurns = (demoTurn <$> ["T2"; "T3"; "T4"; "T5"], "sinceFork").
Proof.
  exact (paged_activity_exact demoHeader demoLine eq_refl demoMetadata (demoDisk demoNew) demoSaved None true demoTurns
    (demoTurn <$> ["T2"; "T3"; "T4"; "T5"]) (demoRead demoNew demoSaved).2 demo_reachable (demo_read _ _ _ _ demo_read_new)).
Defined.

Lemma demo_diskOk text : diskOk (demoDisk text).
Proof. by intros p n. Qed.

Lemma paged_activity_follows_witness :
  (demoRead demoNew demoSaved).1 = (demoTurn <$> ["T2"; "T3"; "T4"; "T5"], "sinceFork").
Proof.
  apply (paged_activity_follows demoHeader demoLine eq_refl demoMetadata (demoDisk demoOld) (demoDisk demoNew) demoEnded None true demoTurns
    (demoTurn <$> ["T2"; "T3"; "T4"]) demoSaved).
  - exact demo_reachable_saved.
  - change demoSaved with (demoRead demoOld demoEnded).2. exact (demo_read _ _ _ _ demo_read_old).
  - exact demo_grows.
  - exact (demo_diskOk _).
  - exact (demo_diskOk _).
  - intros n Hn. vm_compute in Hn. injection Hn as <-. reflexivity.
  - vm_compute. reflexivity.
Defined.

Lemma lineage_scan_ends_witness :
  scanOwnActivityTurns demoHeader demoLine 40 (demoDisk demoNew) "/root" 2 None demoPath 0 0 ∅ ∅ =
  scanOwnActivityTurns demoHeader demoLine scanFuel (demoDisk demoNew) "/root" 2 None demoPath 0 0 ∅ ∅.
Proof. apply (lineage_scan_ends demoHeader demoLine 40). vm_compute. lia. Defined.

(** ** A record that is saved before its newline *)

(** The lineage saved when the last record lacked its newline: the next read
    starts on that newline. *)
Definition demoCut : bytes := demoText "H/T4".
Definition demoCutSaved : lineageState :=
  (demoRead demoCut (demoRun demoCut (demoRead demoCut noLineage).2)).2.

(** The read answered while the newline was missing, but once it is there every
    read is unknown and leaves the state as it was, although a scan of the file
    answers. *)
Example lineage_stuck_after_cut :
  let read := demoRead (demoText "H/T4/T5/") demoCutSaved in
  (demoRead demoCut (demoRun demoCut (demoRead demoCut noLineage).2)).1.2 = "sinceFork" ∧
  read.1 = ([], "unknown") ∧ read.2 = demoCutSaved ∧ lineagePending read.2 = false ∧
  ownActivityTurns demoHeader demoLine (demoDisk (demoText "H/T4/T5/")) None demoMetadata demoTurns =
    (demoTurn <$> ["T2"; "T3"; "T4"; "T5"], "sinceFork").
Proof. vm_compute. split_and!; reflexivity. Qed.
