(* ===== verification/PageMetadata.v ===== *)
(** * Metadata of transcript pages

    [src/codex/page_metadata.go]: the collaboration mode and the times of the
    items of a thread are read from its rollout in the background. A cache per
    thread keeps what was read and how far; a later read goes on from there, and
    a minute after a full read everything is read again. *)
From Stdlib Require Import Ascii String.
From S2P Require Import Prelude GoStd GoPath GoValue RolloutFile.
Open Scope Z_scope.

(** ** Data *)

Definition pageMetadataItems : Z := 8192.
Definition pageMetadataBytes : Z := Z.shiftl 1 20.
(** Times are in nanoseconds. *)
Definition second : Z := 1000 * 1000 * 1000.
Definition pageMetadataFreshness : Z := 60 * second.

Definition validPageMode (mode : string) : bool := str_eqb mode "default" || str_eqb mode "plan".

(** [transcriptItemKey]: the turn and the item. *)
Abbreviation itemKey := (string * string)%type.
Record itemTimestamps := mkStamps { it_startedAtMS : Z; it_completedAtMS : Z; it_recordedAt : string }.

(** What the lines of a rollout add up to: the fields [mode], [times], [order]
    and [bytes] of the cache. *)
Record pageItems := mkPageItems {
  pi_mode : string; pi_times : gmap itemKey itemTimestamps; pi_order : list itemKey; pi_bytes : Z }.
Definition noItems : pageItems := mkPageItems "" ∅ [] 0.

(** [pm_address] tells one cache object from another. [None] for a time is the
    zero [time.Time]. *)
Record pageMetadataCache := mkPageCache {
  pm_address : nat; pm_path : string; pm_lineage : string; pm_generation : Z;
  pm_file : option fileInfo; pm_offset : Z; pm_tail : bytes; pm_items : pageItems;
  pm_ready : bool; pm_pending : bool; pm_forceFull : bool;
  pm_fullReadStartedAt : option Z; pm_retryAt : option Z; pm_lastUsed : Z }.

Definition freshCache (address : nat) (path lineage : string) (generation lastUsed : Z) : pageMetadataCache :=
  mkPageCache address path lineage generation None 0 [] noItems false false true None None lastUsed.

(** What a line of a rollout decodes to. *)
Record pageRecord := mkPageRecord {
  pr_Type : string; pr_Timestamp : string; pr_PayloadType : string; pr_TurnID : string;
  pr_StartedAtMS : Z; pr_CompletedAtMS : Z; pr_ItemID : string; pr_Mode : string; pr_SettingsMode : string }.

(** ** One record *)

Definition cost (key : itemKey) (v : itemTimestamps) : Z := len key.1 + len key.2 + len (it_recordedAt v) + 128.
Definition zeroStamps : itemTimestamps := mkStamps 0 0 "".

(** The oldest items go while there are too many; [None] is the panic of
    [order[0]] on an empty slice. *)
Fixpoint evict (order : list itemKey) (times : gmap itemKey itemTimestamps) (bytes : Z)
    : option (gmap itemKey itemTimestamps * list itemKey * Z) :=
  if (pageMetadataItems <? Z.of_nat (Datatypes.length order)) || (pageMetadataBytes <? bytes) then
    match order with
    | [] => None
    | removed :: order => evict order (delete removed times) (bytes - cost removed (default zeroStamps (times !! removed)))
    end
  else Some (times, order, bytes).

(** The mode a record sets, when it is one of the two. *)
Definition recordMode (r : pageRecord) (mode : string) : string :=
  let found := if str_eqb (pr_Type r) "turn_context" then pr_Mode r else "" in
  let found := if str_eqb (pr_Type r) "event_msg" && str_eqb (pr_PayloadType r) "thread_settings_applied" then pr_SettingsMode r else found in
  if validPageMode found then found else mode.

Definition completesItem (r : pageRecord) : bool :=
  str_eqb (pr_Type r) "event_msg" && str_eqb (pr_PayloadType r) "item_completed" && negb (is_empty (pr_TurnID r)) && negb (is_empty (pr_ItemID r))
  && (len (pr_TurnID r) <=? 256) && (len (pr_ItemID r) <=? 256).

Definition stampsOf (r : pageRecord) : itemTimestamps :=
  mkStamps (pr_StartedAtMS r) (pr_CompletedAtMS r) (if 128 <? len (pr_Timestamp r) then "" else pr_Timestamp r).

Definition addRecord (r : pageRecord) (items : pageItems) : option pageItems :=
  let mode := recordMode r (pi_mode items) in
  if completesItem r then
    let key := (pr_TurnID r, pr_ItemID r) in
    let stamps := stampsOf r in
    let '(order, bytes) :=
      match pi_times items !! key with
      | Some oldValue => (pi_order items, pi_bytes items - cost key oldValue)
      | None => (pi_order items ++ [key], pi_bytes items)
      end in
    match evict order (<[key := stamps]> (pi_times items)) (bytes + cost key stamps) with
    | None => None
    | Some (times, order, bytes) => Some (mkPageItems mode times order bytes)
    end
  else Some (mkPageItems mode (pi_times items) (pi_order items) (pi_bytes items)).

(** ** Reading a rollout

    [decodeLine] is [json.Unmarshal] into the record of a line. *)
Section PageMetadata.
Context (decodeLine : bytes → option pageRecord).

Definition addLine (line : bytes) (items : pageItems) : option pageItems :=
  match decodeLine (line ++ [newlineByte]) with
  | None => Some items
  | Some r => addRecord r items
  end.

(** The loop over the lines; the outer [None] is a panic. Each round checks the
    context, the last one finds the end. *)
Fixpoint readLines (c : ctx) (lines : list bytes) (offset : Z) (items : pageItems) : option (res err (Z * pageItems)) :=
  match ctxErr c with
  | None => Some (Err ECanceled)
  | Some c =>
    match lines with
    | [] => Some (Ok (offset, items))
    | line :: lines =>
      if readLimit <? size line + 1 then Some (Err (EMsg "Codex rollout record exceeds limit")) else
      match addLine line items with
      | None => None
      | Some items => readLines c lines (offset + (size line + 1)) items
      end
    end
  end.

Definition beforeExpiry (now : Z) (started : option Z) : bool :=
  match started with Some t => now <? t + pageMetadataFreshness | None => false end.

(** Where a read starts: the items it goes on from, the start of its full read,
    the offset, and whether it reads everything. *)
Definition resume (content : bytes) (info : fileInfo) (old : pageMetadataCache) (startedAt : Z) : pageItems * option Z * Z * bool :=
  let anew := (noItems, Some startedAt, 0, true) in
  let fresh := pm_forceFull old || negb (pm_ready old) || negb (beforeExpiry startedAt (pm_fullReadStartedAt old)) in
  match pm_file old with
  | None => anew
  | Some f =>
    if negb fresh && pm_ready old && sameFile f info && (fi_size f <=? fi_size info)
       && (negb (fi_size info =? fi_size f) || (fi_mtime info =? fi_mtime f)) then
      match pm_tail old with
      | [] => (pm_items old, pm_fullReadStartedAt old, pm_offset old, false)
      | tail =>
        if bool_decide (readFull content (fi_size f - size tail) (size tail) = Some tail)
        then (pm_items old, pm_fullReadStartedAt old, pm_offset old, false) else anew
      end
    else anew
  end.

(** At most [readLimit] bytes are read. *)
Definition bounded (info : fileInfo) (startedAt : Z) (r : pageItems * option Z * Z * bool) : pageItems * option Z * Z * bool :=
  let '(items, started, start, fresh) := r in
  let start := if (start =? 0) && (readLimit <? fi_size info) then fi_size info - readLimit else start in
  if readLimit <? fi_size info - start then (noItems, Some startedAt, fi_size info - readLimit, true)
  else (items, started, start, fresh).

(** A start inside a line moves behind it. *)
Definition alignStart (c : ctx) (content : bytes) (info : fileInfo) (known : bool) (start : Z) : res err (ctx * Z) :=
  if negb ((0 <? start) && negb known) then Ok (c, start) else
  match readFull content (start - 1) 1 with
  | None => Err (EMsg "EOF")
  | Some previous =>
    if bool_decide (previous = [newlineByte]) then Ok (c, start) else
    match ctxErr c with
    | None => Err ECanceled
    | Some c =>
      match (splitLines (readAt content start (fi_size info - start))).1 with
      | [] => Err (EMsg "EOF")
      | line :: _ => Ok (c, start + (size line + 1))
      end
    end
  end.

Definition verifyPageMetadataOpened (current : option fileNode) (captured : fileInfo) : option err :=
  let changed := Some (EMsg "Codex rollout changed during metadata scan") in
  match current with
  | None => changed
  | Some n =>
    if negb (fn_regular n) || negb (sameFile captured (stat n)) || (nodeSize n <? fi_size captured)
       || ((nodeSize n =? fi_size captured) && negb (fn_mtime n =? fi_mtime captured)) then changed else None
  end.

(** [later] is the opened file when the scan is over, [address] that of the
    result. The flag is [rebuilt]. *)
Definition scanPageMetadataAt (d : disk) (later : option fileNode) (c : ctx) (old : pageMetadataCache) (startedAt : Z) (address : nat)
    : option (res err pageMetadataCache * bool) :=
  match d_open d (pm_path old) with
  | None => Some (Err (EMsg "open"), false)
  | Some n =>
    if negb (fn_regular n) then Some (Err (EMsg "invalid Codex rollout"), false) else
    let info := stat n in
    let '(items, started, start, fresh) := bounded info startedAt (resume (fn_content n) info old startedAt) in
    match alignStart c (fn_content n) info (pm_ready old && negb fresh && (start =? pm_offset old)) start with
    | Err e => Some (Err e, fresh)
    | Ok (c, start) =>
      let '(lines, rest) := splitLines (readAt (fn_content n) start (fi_size info - start)) in
      match readLines c lines start items with
      | None => None
      | Some (Err e) => Some (Err e, fresh)
      | Some (Ok (offset, items)) =>
        if readLimit <=? size rest then Some (Err (EMsg "Codex rollout record exceeds limit"), fresh) else
        let probe := if fi_size info <? tailSize then fi_size info else tailSize in
        match (if 0 <? probe then readFull (fn_content n) (fi_size info - probe) probe else Some []) with
        | None => Some (Err (EMsg "EOF"), fresh)
        | Some tail =>
          match verifyPageMetadataOpened later info with
          | Some e => Some (Err e, fresh)
          | None =>
            Some (Ok (mkPageCache address (pm_path old) (pm_lineage old) (pm_generation old) (Some info) offset tail items
                        true false false started None 0), fresh)
          end
        end
      end
    end
  end.

Definition verifyPageMetadataFile (d : disk) (result : pageMetadataCache) : option err :=
  match d_open d (pm_path result), pm_file result with
  | None, _ => Some (EMsg "open")
  | _, None => Some (EMsg "Codex rollout changed during metadata scan")
  | Some n, Some f =>
    match verifyPageMetadataOpened (Some n) f with
    | Some e => Some e
    | None => if pageMetadataTailMatches d (pm_path result) f (fi_size f) (pm_tail result) then None
              else Some (EMsg "Codex rollout changed during metadata scan")
    end
  end.

End PageMetadata.

(** ** The caches of a client *)

(** A goroutine of [schedulePageMetadata]: its thread, the cache it was started
    for, and the outcome of its scan once it has one. *)
Record pageJob := mkPageJob { jb_thread : string; jb_old : pageMetadataCache; jb_result : option (res err pageMetadataCache * bool) }.

Record pageState := mkPageState {
  ps_caches : gmap string pageMetadataCache;   (** [pageMetadata] *)
  ps_jobs : list pageJob;
  ps_next : nat;                               (** the next object *)
  ps_rebuilds : Z * Z * Z;                     (** [pageRebuildCount], [pageRebuildBytes], [pageRebuildTime] *)
  ps_broadcasts : list string }.

Definition noPages : pageState := mkPageState ∅ [] 0 (0, 0, 0) [].

Definition withCache (thread : string) (cache : pageMetadataCache) (s : pageState) : pageState :=
  mkPageState (<[thread := cache]> (ps_caches s)) (ps_jobs s) (ps_next s) (ps_rebuilds s) (ps_broadcasts s).
Definition withoutCache (thread : string) (s : pageState) : pageState :=
  mkPageState (delete thread (ps_caches s)) (ps_jobs s) (ps_next s) (ps_rebuilds s) (ps_broadcasts s).
Definition allocate (s : pageState) : nat * pageState :=
  (ps_next s, mkPageState (ps_caches s) (ps_jobs s) (S (ps_next s)) (ps_rebuilds s) (ps_broadcasts s)).

Definition setPending (cache : pageMetadataCache) : pageMetadataCache :=
  mkPageCache (pm_address cache) (pm_path cache) (pm_lineage cache) (pm_generation cache) (pm_file cache) (pm_offset cache) (pm_tail cache)
    (pm_items cache) (pm_ready cache) true (pm_forceFull cache) (pm_fullReadStartedAt cache) (pm_retryAt cache) (pm_lastUsed cache).
Definition setRetryAt (t : Z) (cache : pageMetadataCache) : pageMetadataCache :=
  mkPageCache (pm_address cache) (pm_path cache) (pm_lineage cache) (pm_generation cache) (pm_file cache) (pm_offset cache) (pm_tail cache)
    (pm_items cache) (pm_ready cache) (pm_pending cache) (pm_forceFull cache) (pm_fullReadStartedAt cache) (Some t) (pm_lastUsed cache).
Definition setLastUsed (t : Z) (cache : pageMetadataCache) : pageMetadataCache :=
  mkPageCache (pm_address cache) (pm_path cache) (pm_lineage cache) (pm_generation cache) (pm_file cache) (pm_offset cache) (pm_tail cache)
    (pm_items cache) (pm_ready cache) (pm_pending cache) (pm_forceFull cache) (pm_fullReadStartedAt cache) (pm_retryAt cache) t.

(** [slot] tells whether one of the [pageMetadataSlots] is free. The caller has
    the cache, and puts it where it belongs. *)
Definition schedulePageMetadata (slot : bool) (thread : string) (cache : pageMetadataCache) (now : Z) (s : pageState)
    : pageMetadataCache * pageState :=
  if pm_pending cache || match pm_retryAt cache with Some t => now <? t | None => false end then (cache, s) else
  if slot then
    let cache := setPending cache in
    (cache, mkPageState (ps_caches s) (mkPageJob thread cache None :: ps_jobs s) (ps_next s) (ps_rebuilds s) (ps_broadcasts s))
  else (setRetryAt (now + second) cache, s).

(** The least recently used of the other threads, in the order of the iteration. *)
Definition oldestOther (thread : string) (caches : gmap string pageMetadataCache) (iteration : list string) : option string :=
  fst <$> foldl (fun found id =>
    if str_eqb id thread then found else
    match caches !! id with
    | None => found
    | Some item =>
      match found with
      | Some (_, oldest) => if pm_lastUsed item <? oldest then Some (id, pm_lastUsed item) else found
      | None => Some (id, pm_lastUsed item)
      end
    end) (None : option (string * Z)) iteration.

(** The cache of a thread that can still be used, or a new one. *)
Definition usableCache (d : disk) (thread path lineage : string) (generation : Z) (file : fileInfo) (now : Z) (s : pageState)
    : pageMetadataCache * pageState :=
  let '(cache, s) :=
    match ps_caches s !! thread with
    | Some cache =>
      if negb (str_eqb (pm_path cache) path) || negb (str_eqb (pm_lineage cache) lineage) || negb (pm_generation cache =? generation)
         || (pm_ready cache && match pm_file cache with Some f => negb (sameFile f file) | None => true end)
      then let '(address, s) := allocate s in (freshCache address path lineage generation now, s)
      else (setLastUsed now cache, s)
    | None => let '(address, s) := allocate s in (freshCache address path lineage generation now, s)
    end in
  let stale :=
    match pm_file cache with
    | None => false
    | Some f =>
      pm_ready cache &&
      ((fi_size file <? fi_size f) || ((fi_size file =? fi_size f) && negb (fi_mtime file =? fi_mtime f))
       || ((fi_size f <? fi_size file) && negb (pageMetadataTailMatches d path file (fi_size f) (pm_tail cache)))
       || negb (beforeExpiry now (pm_fullReadStartedAt cache)))
    end in
  if stale then let '(address, s) := allocate s in (freshCache address path lineage generation now, s) else (cache, s).

Definition changedCache (file : fileInfo) (cache : pageMetadataCache) : bool :=
  negb (pm_ready cache) ||
  match pm_file cache with Some f => negb (fi_size file =? fi_size f) || negb (fi_mtime file =? fi_mtime f) | None => true end.

Definition timesOf (entries : list itemKey) (times : gmap itemKey itemTimestamps) : gmap itemKey itemTimestamps :=
  filter (fun kv => kv.1 ∈ entries) times.

Definition cacheLimit : nat := 8.

Definition pageMetadataSnapshot (d : disk) (slot : bool) (now : Z) (iteration : list string) (thread path lineage : string) (generation : Z)
    (file : option fileInfo) (entries : list itemKey) (s : pageState) : string * gmap itemKey itemTimestamps * bool * pageState :=
  match file with
  | None => ("", ∅, true, s)
  | Some file =>
    if negb (canonicalPath path) then ("", ∅, true, s) else
    let '(cache, s) := usableCache d thread path lineage generation file now s in
    let changed := changedCache file cache in
    let '(cache, s) := if changed then schedulePageMetadata slot thread cache now s else (cache, s) in
    let s := withCache thread cache s in
    let s := if (cacheLimit <? base.size (ps_caches s))%nat
             then match oldestOther thread (ps_caches s) iteration with Some id => withoutCache id s | None => s end else s in
    (pi_mode (pm_items cache), timesOf entries (pi_times (pm_items cache)), changed || pm_pending cache, s)
  end.

(** The end of a goroutine: [generation] and [later] are the two readings of
    [pageGeneration]. *)
Definition finishPageMetadata (d : disk) (slot : bool) (now generation later scanned duration : Z) (thread : string)
    (old : pageMetadataCache) (result : res err pageMetadataCache) (rebuilt : bool) (s : pageState) : pageState :=
  let result := match result with
                | Err e => Err e
                | Ok cache => match verifyPageMetadataFile d cache with Some e => Err e | None => Ok cache end
                end in
  let s := if rebuilt
           then let '(count, bytes, time) := ps_rebuilds s in
                mkPageState (ps_caches s) (ps_jobs s) (ps_next s) (u64 (count + 1), u64 (bytes + scanned), time + duration) (ps_broadcasts s)
           else s in
  match ps_caches s !! thread with
  | None => s
  | Some current =>
    if negb (pm_address current =? pm_address old)%nat then s else
    if negb (generation =? pm_generation old) then withoutCache thread s else
    match result with
    | Ok cache =>
      if beforeExpiry now (pm_fullReadStartedAt cache) then
        let s := withCache thread (setLastUsed (pm_lastUsed current) cache) s in
        if later =? pm_generation cache
        then mkPageState (ps_caches s) (ps_jobs s) (ps_next s) (ps_rebuilds s) (thread :: ps_broadcasts s) else s
      else
        let '(address, s) := allocate s in
        let '(fresh, s) := schedulePageMetadata slot thread
          (freshCache address (pm_path old) (pm_lineage old) (pm_generation old) (pm_lastUsed current)) now s in
        withCache thread fresh s
    | Err _ =>
      let '(address, s) := allocate s in
      withCache thread (setRetryAt (now + 30 * second)
        (freshCache address (pm_path old) (pm_lineage old) (pm_generation old) (pm_lastUsed current))) s
    end
  end.

(** [Close] forgets every cache. *)
Definition clearPages (s : pageState) : pageState :=
  mkPageState ∅ (ps_jobs s) (ps_next s) (ps_rebuilds s) (ps_broadcasts s).
