(* ===== verification/PageMetadataFacts.v ===== *)
(** * Page metadata stays bounded and current

    The items of a cache are those of the lines it has read, within the bounds
    on their number and size, and the scan never indexes an empty list. While a
    rollout is appended to, a snapshot that is not pending shows what a read of
    the file shows, of a long file its newest 64 MiB at least: [page_metadata_exact]; and the client keeps at most
    eight caches: [page_metadata_bounded]. *)
From Stdlib Require Import Ascii String.
From S2P Require Import Prelude GoStd GoPath GoValue RolloutFile PageMetadata.
Open Scope Z_scope.

(** ** Items *)

Definition stampsAt (times : gmap itemKey itemTimestamps) (k : itemKey) : itemTimestamps := default zeroStamps (times !! k).
Definition total (times : gmap itemKey itemTimestamps) (order : list itemKey) : Z :=
  foldr (fun k n => cost k (stampsAt times k) + n) 0 order.

(** The order lists the keys once each, and the bytes are what they cost. *)
Definition listed (times : gmap itemKey itemTimestamps) (order : list itemKey) (bytes : Z) : Prop :=
  NoDup order ∧ (∀ k, k ∈ order ↔ is_Some (times !! k)) ∧ bytes = total times order.

Definition itemsOk (items : pageItems) : Prop :=
  listed (pi_times items) (pi_order items) (pi_bytes items) ∧
  Z.of_nat (Datatypes.length (pi_order items)) ≤ pageMetadataItems ∧ pi_bytes items ≤ pageMetadataBytes.

Lemma noItems_ok : itemsOk noItems.
Proof.
  split; [split_and!; [constructor| |done]|by vm_compute]. intros k. simpl. rewrite lookup_empty. split; [by intros ?%elem_of_nil|by intros [? ?]].
Qed.

Lemma stamps_total_app times a b : total times (a ++ b) = total times a + total times b.
Proof. induction a as [|k a IH]; simpl; [done|]. rewrite IH. lia. Qed.

(** Only what is in the list counts. *)
Lemma total_ext times times' order : (∀ k, k ∈ order → times !! k = times' !! k) → total times order = total times' order.
Proof.
  induction order as [|k order IH]; intros H; simpl; [done|]. rewrite IH by set_solver. unfold stampsAt. by rewrite H by set_solver.
Qed.

Lemma total_insert times order k v :
  NoDup order → k ∈ order → total (<[k := v]> times) order = total times order - cost k (stampsAt times k) + cost k v.
Proof.
  intros Hnd Hin. apply list_elem_of_split in Hin as (a & b & ->). apply NoDup_app in Hnd as (_ & Ha & Hb). apply NoDup_cons in Hb as [Hb _].
  rewrite !stamps_total_app. simpl. unfold stampsAt at 1. rewrite lookup_insert_eq. simpl.
  rewrite (total_ext (<[k:=v]> times) times a), (total_ext (<[k:=v]> times) times b); [lia| |].
  - intros k' Hk'. rewrite lookup_insert_ne; [done|]. by intros ->.
  - intros k' Hk'. rewrite lookup_insert_ne; [done|]. intros ->. specialize (Ha _ Hk'). set_solver.
Qed.

(** Eviction ends within the bounds and never runs out of items. *)
Lemma evict_ok order times bytes :
  listed times order bytes → ∃ times' order' bytes', evict order times bytes = Some (times', order', bytes') ∧
    listed times' order' bytes' ∧ Z.of_nat (Datatypes.length order') ≤ pageMetadataItems ∧ bytes' ≤ pageMetadataBytes.
Proof.
  revert times bytes. induction order as [|k order IH]; intros times bytes (Hnd & Hdom & Hb); simpl.
  - simpl in Hb. subst bytes. eexists _, _, _. split; [done|]. by split_and!.
  - destruct (_ || _) eqn:E.
    + apply IH. apply NoDup_cons in Hnd as [Hk Hnd]. split_and!; [done| |].
      * intros k'. destruct (decide (k' = k)) as [->|Hne]; [rewrite lookup_delete_eq; split; [done|by intros [? ?]]|].
        rewrite lookup_delete_ne by done. rewrite <- Hdom, elem_of_cons. naive_solver.
      * rewrite (total_ext (delete k times) times); [subst bytes; simpl; unfold stampsAt; lia|].
        intros k' Hk'. rewrite lookup_delete_ne; [done|]. by intros ->.
    + apply orb_false_iff in E as [E1 E2]. apply Z.ltb_ge in E1, E2. eexists _, _, _. split; [done|]. by split_and!.
Qed.

Lemma addRecord_ok r items : itemsOk items → ∃ items', addRecord r items = Some items' ∧ itemsOk items'.
Proof.
  intros [(Hnd & Hdom & Hb) [Hlen Hbytes]]. unfold addRecord.
  destruct (completesItem r); [|eexists; split; [done|]; by split; [split_and!|]].
  set (key := (pr_TurnID r, pr_ItemID r)). set (stamps := stampsOf r).
  set (p := match pi_times items !! key with Some _ => _ | None => _ end).
  assert (listed (<[key := stamps]> (pi_times items)) p.1 (p.2 + cost key stamps)) as Hl.
  { unfold p. destruct (pi_times items !! key) as [oldValue|] eqn:Hk; simpl; split_and!.
    - done.
    - intros k. rewrite Hdom. destruct (decide (k = key)) as [e|Hne]; [rewrite e, Hk, lookup_insert_eq; split; eauto|by rewrite lookup_insert_ne].
    - rewrite total_insert; [|done|apply Hdom; eauto]. unfold stampsAt. rewrite Hk. simpl. lia.
    - apply NoDup_app. split_and!; [done| |apply NoDup_singleton]. intros k Hin Hs%list_elem_of_singleton. subst k.
      apply Hdom in Hin as [? ?]. congruence.
    - intros k. rewrite elem_of_app, list_elem_of_singleton, Hdom. destruct (decide (k = key)) as [e|Hne].
      + rewrite e, lookup_insert_eq. naive_solver.
      + rewrite lookup_insert_ne by done. naive_solver.
    - rewrite stamps_total_app. simpl. unfold stampsAt at 1. rewrite lookup_insert_eq. simpl. rewrite (total_ext _ (pi_times items)); [lia|].
      intros k Hin. rewrite lookup_insert_ne; [done|]. intros <-. apply Hdom in Hin as [? ?]. congruence. }
  destruct p as [order bytes]. simpl in Hl. destruct (evict_ok _ _ _ Hl) as (t' & o' & b' & -> & Hok & H1 & H2).
  eexists. split; [done|]. by split.
Qed.

(** ** Lines *)

(** The bytes of complete lines, newlines included. *)
Definition linesSize (lines : list bytes) : Z := foldr (fun line n => size line + 1 + n) 0 lines.

Lemma linesSize_nonneg lines : 0 ≤ linesSize lines.
Proof. induction lines as [|l lines IH]; simpl; [done|]. pose proof (size_nonneg l). lia. Qed.

Lemma linesSize_app a b : linesSize (a ++ b) = linesSize a + linesSize b.
Proof. induction a as [|l a IH]; simpl; [done|]. rewrite IH. lia. Qed.

(** A text is its complete lines and its partial one. *)
Lemma splitLines_parts a :
  ∃ pre, a = pre ++ partialLine a ∧ partialLine pre = [] ∧ (splitLines pre).1 = (splitLines a).1 ∧ size pre = linesSize (splitLines a).1.
Proof.
  unfold partialLine. induction a as [|b a (pre & Ha & Hp & Hl & Hs)]; simpl; [by exists []|].
  destruct (splitLines a) as [ls r]. simpl in *. destruct (b =? newlineByte) eqn:Hb; simpl.
  - exists (b :: pre). split_and!; [by rewrite Ha|simpl; destruct (splitLines pre); by rewrite Hb| |].
    + simpl. destruct (splitLines pre) as [lp rp]. rewrite Hb. simpl in *. by rewrite Hl.
    + rewrite <- Hs. unfold size. simpl. lia.
  - destruct ls as [|line ls]; simpl in *.
    + exists []. split_and!; [|done|done|done]. simpl. assert (pre = []) as ->; [|by rewrite Ha].
      destruct pre; [done|]. unfold size in Hs. simpl in Hs. lia.
    + exists (b :: pre). split_and!; [by rewrite Ha| | |].
      * simpl. destruct (splitLines pre) as [lp rp]. simpl in *. subst lp rp. by rewrite Hb.
      * simpl. destruct (splitLines pre) as [lp rp]. simpl in *. subst lp rp. by rewrite Hb.
      * unfold size in *. simpl in *. lia.
Qed.

(** The first line and what follows its newline. *)
Lemma splitLines_cut content line lines :
  line :: lines = (splitLines content).1 → ∃ rest, content = line ++ newlineByte :: rest ∧ lines = (splitLines rest).1.
Proof.
  revert line lines. induction content as [|b content IH]; intros line lines; simpl; [done|].
  destruct (splitLines content) as [ls r] eqn:E. destruct (b =? newlineByte) eqn:Eb.
  - simpl. intros [= -> ->]. exists content. apply Z.eqb_eq in Eb as ->. by rewrite E.
  - destruct ls as [|l ls]; simpl; [done|]. intros [= -> ->]. destruct (IH l ls eq_refl) as (rest & -> & Hr). by exists rest.
Qed.

(** Going on behind the complete lines of a prefix reads the other lines. *)
Lemma splitLines_resume a x :
  (splitLines (a ++ x)).1 = (splitLines a).1 ++ (splitLines (drop (Z.to_nat (linesSize (splitLines a).1)) (a ++ x))).1.
Proof.
  destruct (splitLines_parts a) as (pre & Ha & Hp & Hl & Hs). assert (a ++ x = pre ++ (partialLine a ++ x)) as E by (rewrite Ha at 1; by rewrite <- app_assoc).
  rewrite <- Hs, E, <- Hl. unfold size. rewrite Nat2Z.id, drop_app_length, splitLines_app. unfold partialLine in Hp.
  destruct (splitLines pre) as [lp rp]. simpl in *. subst rp.
  destruct (splitLines (_ ++ x)) as [[|line lb] rb]; simpl; [by rewrite app_nil_r|done].
Qed.

(** The complete lines of a rollout. *)
Definition linesOf (content : bytes) : list bytes := (splitLines content).1.

(** The first [k] lines begin before the last [readLimit] bytes: all lines that
    begin later are among the others. *)
Definition recent (content : bytes) (k : nat) : Prop :=
  (k ≤ Datatypes.length (linesOf content))%nat ∧
  ∀ i, (i < k)%nat → linesSize (take i (linesOf content)) < size content - readLimit.

Lemma recent_small content k : recent content k → size content ≤ readLimit → k = 0%nat.
Proof.
  intros [_ H] Hs. destruct k as [|k]; [done|]. specialize (H 0%nat ltac:(lia)). simpl in H. lia.
Qed.

(** Going on behind the first lines reads the other ones. *)
Lemma lines_drop content k :
  (k ≤ Datatypes.length (linesOf content))%nat →
  linesOf (drop (Z.to_nat (linesSize (take k (linesOf content)))) content) = drop k (linesOf content).
Proof.
  unfold linesOf. remember (splitLines content).1 as lines eqn:El. revert content k El.
  induction lines as [|line lines IH]; intros content k El Hk; [by destruct k; simpl; rewrite ?drop_0|].
  destruct k as [|k]; [by simpl; rewrite drop_0|]. destruct (splitLines_cut content line lines) as (rest & -> & Er); [done|].
  simpl. rewrite <- (IH rest k Er) by (simpl in Hk; lia). f_equal. f_equal.
  pose proof (linesSize_nonneg (take k lines)). pose proof (size_nonneg line).
  replace (Z.to_nat (size line + 1 + linesSize (take k lines))) with (Datatypes.length (line ++ [newlineByte]) + Z.to_nat (linesSize (take k lines)))%nat.
  - rewrite <- drop_drop. assert (line ++ newlineByte :: rest = (line ++ [newlineByte]) ++ rest) as -> by (by rewrite <- app_assoc).
    by rewrite drop_app_length.
  - rewrite length_app. unfold size in *. simpl. lia.
Qed.

Lemma lines_take_le lines i : linesSize (take i lines) ≤ linesSize lines.
Proof. rewrite <- (take_drop i lines) at 2. rewrite linesSize_app. pose proof (linesSize_nonneg (drop i lines)). lia. Qed.
Lemma lines_take_lt lines i : (i < Datatypes.length lines)%nat → linesSize (take i lines) < linesSize lines.
Proof.
  revert i. induction lines as [|line lines IH]; intros [|i] Hi; simpl in *; try lia.
  - pose proof (linesSize_nonneg lines). pose proof (size_nonneg line). lia.
  - specialize (IH i ltac:(lia)). lia.
Qed.

(** A rollout that grows keeps the lines it has. *)
Lemma linesOf_grow a x : take (Datatypes.length (linesOf a)) (linesOf (a ++ x)) = linesOf a.
Proof. unfold linesOf. by rewrite splitLines_resume, take_app_length. Qed.

(** The byte before the end tells whether a line is partial. *)
Lemma partial_snoc p b : partialLine (p ++ [b]) = [] ↔ b = newlineByte.
Proof.
  unfold partialLine. rewrite splitLines_app. destruct (splitLines p) as [lp rp]. simpl.
  destruct (b =? newlineByte) eqn:E; simpl; [split; [lia|done]|]. split; [by intros []%app_nil|lia].
Qed.

Section PageMetadata.
Context (decodeLine : bytes → option pageRecord).

(** What lines add to some items. *)
Definition addLines (items : pageItems) (lines : list bytes) : pageItems :=
  foldl (fun items line => default items (addLine decodeLine line items)) items lines.

(** What a read of a rollout finds that leaves out its first [k] lines, and what
    a full read finds. *)
Definition itemsFrom (k : nat) (content : bytes) : pageItems := addLines noItems (drop k (linesOf content)).
Definition itemsOf (content : bytes) : pageItems := itemsFrom 0 content.

Lemma addLine_ok line items : itemsOk items → ∃ items', addLine decodeLine line items = Some items' ∧ itemsOk items'.
Proof. intros Hok. unfold addLine. destruct (decodeLine _) as [r|]; [by apply addRecord_ok|eauto]. Qed.

Lemma readLines_ok c lines offset items :
  itemsOk items → ∃ r, readLines decodeLine c lines offset items = Some r ∧
    ∀ offset' items', r = Ok (offset', items') → itemsOk items' ∧ items' = addLines items lines ∧ offset' = offset + linesSize lines.
Proof.
  revert c offset items. induction lines as [|line lines IH]; intros c offset items Hok; simpl.
  - destruct (ctxErr c); eexists; (split; [done|]); [|done]. intros. simplify_eq. split_and!; [done|done|lia].
  - destruct (ctxErr c) as [c'|]; [|eexists; by split]. destruct (readLimit <? _); [eexists; by split|].
    destruct (addLine_ok line items Hok) as (items1 & E & Hok1). rewrite E.
    destruct (IH c' (offset + (size line + 1)) items1 Hok1) as (r & -> & Hr). exists r. split; [done|].
    intros offset' items' Heq. destruct (Hr _ _ Heq) as (H1 & H2 & H3). split_and!; [done|done|lia].
Qed.

(** What is known of a cache: its items are those of the part of the file it was
    read from, without lines at its start that begin before the limit. *)
Definition describes (content : bytes) (inode : Z) (cache : pageMetadataCache) : Prop :=
  ∀ f, pm_ready cache = true → pm_file cache = Some f → inode = fi_inode f →
    ∃ a x k, content = a ++ x ∧ size a = fi_size f ∧ recent a k ∧
      pm_items cache = itemsFrom k a ∧ pm_offset cache = linesSize (linesOf a).

Lemma resume_items info content old startedAt :
  let r := bounded info startedAt (resume content info old startedAt) in r.1.1.1 = noItems ∨ r.1.1.1 = pm_items old.
Proof.
  intros r. unfold r. assert ((resume content info old startedAt).1.1.1 = noItems ∨ (resume content info old startedAt).1.1.1 = pm_items old) as Hr.
  { unfold resume. destruct (pm_file old) as [f|]; [|by left]. destruct (_ && _); [|by left].
    destruct (pm_tail old); [by right|]. case_bool_decide; [by right|by left]. }
  destruct (resume content info old startedAt) as [[[items started] start] fresh]. unfold bounded. by destruct (readLimit <? _); [left|].
Qed.

Lemma align_known c content info start : alignStart c content info true start = Ok (c, start).
Proof. unfold alignStart. by rewrite andb_false_r. Qed.

Lemma align_zero c content info known : alignStart c content info known 0 = Ok (c, 0).
Proof. done. Qed.

Lemma readAt_rest content start : 0 ≤ start → readAt content start (size content - start) = drop (Z.to_nat start) content.
Proof.
  intros Hs. unfold readAt. rewrite limitReader_take, take_ge; [done|]. rewrite length_drop. unfold size. lia.
Qed.

(** Where a scan starts: at a line, with the items of the lines before it, but
    for the ones that begin before the limit. *)
Definition startsAt (content : bytes) (items : pageItems) (start : Z) : Prop :=
  ∃ skipped k, recent content skipped ∧ (skipped ≤ k ≤ Datatypes.length (linesOf content))%nat ∧
    start = linesSize (take k (linesOf content)) ∧ items = addLines noItems (drop skipped (take k (linesOf content))).

Lemma starts_anew content : startsAt content noItems 0.
Proof. exists 0%nat, 0%nat. split_and!; try done; try lia. by split; [lia|intros i Hi; lia]. Qed.

(** Moving behind the line a start is in. *)
Lemma align_starts c content info start c' start' :
  fi_size info = size content → start = size content - readLimit → 0 < start →
  alignStart c content info false start = Ok (c', start') → startsAt content noItems start'.
Proof.
  intros Hi Hs Hpos. unfold alignStart. rewrite (proj2 (Z.ltb_lt 0 start)) by done. simpl.
  destruct (readFull content (start - 1) 1) as [previous|] eqn:Hp; [|done].
  assert (size content ≤ start + readLimit) as Hsz by lia.
  assert (0 ≤ start ≤ size content) as Hle by (unfold readLimit in *; lia).
  assert (∃ p b q, content = (p ++ [b]) ++ q ∧ size (p ++ [b]) = start ∧ previous = [b]) as (p & b & q & Hc & Hsp & ->).
  { assert (∃ b, content !! Z.to_nat (start - 1) = Some b) as [b Hb].
    { apply lookup_lt_is_Some. unfold size in *. lia. }
    exists (take (Z.to_nat (start - 1)) content), b, (drop (Z.to_nat start) content).
    rewrite <- app_assoc. simpl. split_and!.
    - rewrite <- (take_drop (Z.to_nat (start - 1)) content) at 1. f_equal. rewrite (drop_S _ _ _ Hb). f_equal. f_equal. lia.
    - unfold size in *. rewrite length_app, length_take. simpl. lia.
    - unfold readFull in Hp. destruct (_ || _); [done|]. injection Hp as <-. unfold readAt. rewrite limitReader_take, (drop_S _ _ _ Hb). done. }
  set (p1 := p ++ [b]) in *.
  assert (linesOf content = linesOf p1 ++ drop (Datatypes.length (linesOf p1)) (linesOf content)) as Hpre.
  { rewrite <- (linesOf_grow p1 q), <- Hc at 1. by rewrite take_drop. }
  assert (∀ i, (i < Datatypes.length (linesOf p1))%nat → linesSize (take i (linesOf content)) < linesSize (linesOf p1)) as Hbefore.
  { intros i Hi'. rewrite Hpre, take_app_le by lia. by apply lines_take_lt. }
  destruct (splitLines_parts p1) as (pre & Hpp & _ & _ & Hpz).
  assert (size p1 = linesSize (linesOf p1) + size (partialLine p1)) as Hp1 by (rewrite Hpp at 1; rewrite size_app, Hpz; done).
  assert (partialLine p1 = [] ↔ b = newlineByte) as Hnl by apply partial_snoc.
  assert (linesOf content = match (splitLines q).1 with [] => linesOf p1 | line :: lb => linesOf p1 ++ (partialLine p1 ++ line) :: lb end) as HL.
  { rewrite Hc. unfold linesOf, partialLine. rewrite splitLines_app. by destruct (splitLines p1), (splitLines q) as [[] ?]. }
  assert (readAt content start (fi_size info - start) = q) as Hq.
  { rewrite Hi, readAt_rest by lia. rewrite Hc, <- Hsp. unfold size. by rewrite Nat2Z.id, drop_app_length. }
  case_bool_decide as Hb.
  - intros H. injection H as <- <-. injection Hb as ->. assert (partialLine p1 = []) as Hpl by (by apply Hnl).
    rewrite Hpl in Hp1. change (size []) with 0 in Hp1.
    exists (Datatypes.length (linesOf p1)), (Datatypes.length (linesOf p1)).
    assert (Datatypes.length (linesOf p1) ≤ Datatypes.length (linesOf content))%nat as Hlen.
    { rewrite HL. destruct (splitLines q).1; rewrite ?length_app; simpl; lia. }
    split_and!; try done; try lia.
    + split; [done|]. intros i Hi'. specialize (Hbefore i Hi'). lia.
    + rewrite Hc, linesOf_grow. lia.
    + by rewrite Hc, linesOf_grow, drop_all.
  - destruct (ctxErr c) as [c1|]; [|done]. rewrite Hq. destruct (splitLines q).1 as [|line lq]; [done|]. intros H. injection H as <- <-.
    assert (partialLine p1 ≠ []) as Hne by (intros E; apply Hb; f_equal; by apply Hnl).
    assert (0 < size (partialLine p1)) as Hps by (destruct (partialLine p1); [done|unfold size; simpl; lia]).
    assert (take (S (Datatypes.length (linesOf p1))) (linesOf content) = linesOf p1 ++ [partialLine p1 ++ line]) as Htake.
    { rewrite HL, take_app_ge by lia. by replace (S _ - _)%nat with 1%nat by lia. }
    exists (S (Datatypes.length (linesOf p1))), (S (Datatypes.length (linesOf p1))).
    assert (S (Datatypes.length (linesOf p1)) ≤ Datatypes.length (linesOf content))%nat as Hlen.
    { rewrite HL, length_app. simpl. lia. }
    split_and!; try done; try lia.
    + split; [done|]. intros i Hi'. destruct (decide (i = Datatypes.length (linesOf p1))) as [->|].
      * assert (take (Datatypes.length (linesOf p1)) (linesOf content) = linesOf p1) as -> by (by rewrite Hc, linesOf_grow). lia.
      * specialize (Hbefore i ltac:(lia)). lia.
    + rewrite Htake, linesSize_app. simpl. rewrite size_app. lia.
    + rewrite Htake, drop_ge; [done|]. rewrite length_app. simpl. lia.
Qed.

Lemma fresh_starts c content info start c' start' :
  fi_size info = size content → start = 0 ∨ start = size content - readLimit ∧ 0 < start →
  alignStart c content info false start = Ok (c', start') → startsAt content noItems start'.
Proof.
  intros Hi [->|[Hs Hp]]; [|by eapply align_starts]. rewrite align_zero. intros H. injection H as <- <-. apply starts_anew.
Qed.

Lemma recent_grow a x k : recent a k → recent (a ++ x) k ∧ ∀ i, (i ≤ k)%nat → take i (linesOf (a ++ x)) = take i (linesOf a).
Proof.
  intros [Hk Hr].
  assert (∀ i, (i ≤ k)%nat → take i (linesOf (a ++ x)) = take i (linesOf a)) as Ht.
  { intros i Hi. rewrite <- (linesOf_grow a x). by rewrite take_take, Nat.min_l by lia. }
  split; [|done]. split.
  - rewrite <- (linesOf_grow a x), length_take in Hk. lia.
  - intros i Hi. rewrite Ht by lia. specialize (Hr i Hi). rewrite size_app. pose proof (size_nonneg x). lia.
Qed.

(** Every scan starts at a line, from scratch or where its cache ends. *)
Lemma resume_starts n old startedAt items started start fresh c c' start' :
  describes (fn_content n) (fn_inode n) old →
  bounded (stat n) startedAt (resume (fn_content n) (stat n) old startedAt) = (items, started, start, fresh) →
  alignStart c (fn_content n) (stat n) (pm_ready old && negb fresh && (start =? pm_offset old)) start = Ok (c', start') →
  startsAt (fn_content n) items start'.
Proof.
  intros Hdesc H Ha. set (content := fn_content n) in *. assert (fi_size (stat n) = size content) as Hsize by done.
  assert (bounded (stat n) startedAt (noItems, Some startedAt, 0, true) = (items, started, start, fresh) → startsAt content items start') as Hanew.
  { intros Hb. assert (fresh = true ∧ items = noItems ∧ (start = 0 ∨ start = size content - readLimit ∧ 0 < start)) as (-> & -> & Hst).
    { unfold bounded in Hb. rewrite Hsize in Hb. simpl in Hb. destruct (readLimit <? size content) eqn:E.
      - apply Z.ltb_lt in E. destruct (readLimit <? _); simplify_eq; (split_and!; [done..|right; lia]).
      - rewrite Z.sub_0_r, E in Hb. simplify_eq. auto. }
    rewrite andb_false_r in Ha. by eapply fresh_starts. }
  unfold resume in H. destruct (pm_file old) as [f|] eqn:Hf; [|auto]. destruct (_ && _) eqn:Hg; [|auto].
  rewrite !andb_true_iff in Hg. destruct Hg as [[[[_ Hready] Hsame] _] _]. apply Z.eqb_eq in Hsame.
  assert (bounded (stat n) startedAt (pm_items old, pm_fullReadStartedAt old, pm_offset old, false) = (items, started, start, fresh) →
    startsAt content items start') as Hold.
  { destruct (Hdesc f Hready Hf (eq_sym Hsame)) as (a & x & k & Hc & Hs & Hk & Hi & Ho).
    pose proof (linesSize_nonneg (linesOf a)) as Hge. unfold bounded. rewrite Hsize.
    destruct ((pm_offset old =? 0) && (readLimit <? size content)) eqn:E.
    - apply andb_true_iff in E as [E1%Z.eqb_eq E2%Z.ltb_lt].
      assert (pm_items old = noItems) as ->.
      { rewrite Hi. unfold itemsFrom. destruct (linesOf a) as [|line lines]; [by rewrite drop_nil|]. exfalso. rewrite Ho in E1. simpl in E1.
        pose proof (size_nonneg line). pose proof (linesSize_nonneg lines). lia. }
      rewrite (proj2 (Z.ltb_ge readLimit _)) by lia. intros Hb. simplify_eq.
      rewrite E1, (proj2 (Z.eqb_neq _ 0)), andb_false_r in Ha by lia. eapply fresh_starts; [done| |exact Ha]. right. lia.
    - destruct (readLimit <? size content - pm_offset old) eqn:E2; intros Hb; simplify_eq.
      + apply Z.ltb_lt in E2. rewrite andb_false_r in Ha. eapply fresh_starts; [done| |exact Ha]. right. lia.
      + rewrite Hready, Z.eqb_refl, align_known in Ha. injection Ha as <- <-. destruct (recent_grow a x k Hk) as [Hk' _].
        exists k, (Datatypes.length (linesOf a)). rewrite Hc, linesOf_grow. split_and!; try done.
        * by destruct Hk.
        * rewrite <- (linesOf_grow a x) at 1. rewrite length_take. lia. }
  destruct (pm_tail old) as [|b tail]; [auto|]. case_bool_decide; auto.
Qed.

(** What a scan that ends well has read, besides what its cache says. *)
Definition scanned (n : fileNode) (old result : pageMetadataCache) : Prop :=
  pm_path result = pm_path old ∧ pm_file result = Some (stat n) ∧ pm_ready result = true ∧ pm_pending result = false ∧
  ∃ k, recent (fn_content n) k ∧ pm_items result = itemsFrom k (fn_content n) ∧ pm_offset result = linesSize (linesOf (fn_content n)).

(** Reading on from where a scan starts. *)
Lemma starts_read content items start :
  startsAt content items start →
  let lines := (splitLines (readAt content start (size content - start))).1 in
  ∃ k, recent content k ∧ addLines items lines = itemsFrom k content ∧ start + linesSize lines = linesSize (linesOf content).
Proof.
  intros (skipped & k & Hr & [Hsk Hk] & -> & ->). cbv zeta. rewrite readAt_rest by apply linesSize_nonneg.
  change (splitLines ?x).1 with (linesOf x). rewrite lines_drop by done. exists skipped. split_and!; [done| |].
  - unfold itemsFrom, addLines. rewrite <- foldl_app, <- drop_app_le by (rewrite length_take; lia). by rewrite take_drop.
  - rewrite <- linesSize_app. by rewrite take_drop.
Qed.

(** A scan never panics; its items are bounded, and those of the file but for
    lines that begin before the limit. *)
Lemma scan_ok d later c old startedAt address :
  itemsOk (pm_items old) → (∀ n, d_open d (pm_path old) = Some n → describes (fn_content n) (fn_inode n) old) →
  ∃ r rebuilt, scanPageMetadataAt decodeLine d later c old startedAt address = Some (r, rebuilt) ∧
    ∀ result, r = Ok result → itemsOk (pm_items result) ∧ ∃ n, d_open d (pm_path old) = Some n ∧ scanned n old result.
Proof.
  intros Hok Hdesc. unfold scanPageMetadataAt. destruct (d_open d (pm_path old)) as [n|] eqn:Hn; [|eexists _, _; by split].
  specialize (Hdesc _ eq_refl). destruct (negb (fn_regular n)); [eexists _, _; by split|].
  pose proof (resume_items (stat n) (fn_content n) old startedAt) as Hri. simpl in Hri.
  destruct (bounded (stat n) startedAt _) as [[[items started] start] fresh] eqn:Hb. simpl in Hri.
  assert (itemsOk items) as Hiok by (destruct Hri as [->| ->]; [apply noItems_ok|done]).
  destruct (alignStart _ _ _ _ start) as [[c1 start1]|e] eqn:Ha; [|eexists _, _; by split].
  destruct (starts_read _ _ _ (resume_starts _ _ _ _ _ _ _ _ _ _ Hdesc Hb Ha)) as (k & Hk & Hik & Hok').
  change (size (fn_content n)) with (fi_size (stat n)) in *.
  destruct (splitLines _) as [lines rest] eqn:Hl.
  destruct (readLines_ok c1 lines start1 items Hiok) as (r & -> & Hr).
  destruct r as [[offset items']|e]; [|eexists _, _; by split]. destruct (Hr _ _ eq_refl) as (Hiok' & Hit & Hoff).
  destruct (readLimit <=? size rest); [eexists _, _; by split|].
  destruct (if 0 <? _ then _ else _) as [tail|]; [|eexists _, _; by split].
  destruct (verifyPageMetadataOpened later (stat n)); [eexists _, _; by split|]. eexists _, _. split; [done|].
  intros result Heq. injection Heq as <-. split; [done|]. exists n. split; [done|]. split_and!; [done..|]. exists k.
  simpl in *. split_and!; [done|congruence|congruence].
Qed.

(** ** The state of a client *)

Definition cacheOk (d : disk) (cache : pageMetadataCache) : Prop :=
  itemsOk (pm_items cache) ∧ ∀ n, d_open d (pm_path cache) = Some n → describes (fn_content n) (fn_inode n) cache.

Definition jobOk (d : disk) (j : pageJob) : Prop :=
  cacheOk d (jb_old j) ∧ ∀ cache rebuilt, jb_result j = Some (Ok cache, rebuilt) → cacheOk d cache.

Definition pagesOk (d : disk) (s : pageState) : Prop :=
  map_Forall (fun _ cache => cacheOk d cache) (ps_caches s) ∧ Forall (jobOk d) (ps_jobs s) ∧ (base.size (ps_caches s) ≤ cacheLimit)%nat.

Lemma freshCache_ok d address path lineage generation now : cacheOk d (freshCache address path lineage generation now).
Proof. split; [apply noItems_ok|]. by intros n _ f. Qed.

Lemma scanned_ok d n old result :
  itemsOk (pm_items result) → d_open d (pm_path old) = Some n → scanned n old result → cacheOk d result.
Proof.
  intros Hok Hn (Hpath & Hfile & Hready & _ & Hex). split; [done|]. intros n' Hn' f _ Hf _. rewrite Hpath, Hn in Hn'. simplify_eq.
  destruct Hex as (k & Hk & Hi & Ho). exists (fn_content n'), [], k. rewrite app_nil_r. by split_and!.
Qed.

(** ** Files that change *)

(** The caches that something in the state refers to. *)
Definition holds (s : pageState) (cache : pageMetadataCache) : Prop :=
  (∃ thread, ps_caches s !! thread = Some cache) ∨
  (∃ j, j ∈ ps_jobs s ∧ (jb_old j = cache ∨ ∃ rebuilt, jb_result j = Some (Ok cache, rebuilt))).

(** A file is appended to, removed, or replaced by one that no cache was read from. *)
Definition evolves (s : pageState) (d d' : disk) : Prop :=
  ∀ path n', d_open d' path = Some n' →
    (∃ n, d_open d path = Some n ∧ fn_inode n' = fn_inode n ∧ fn_content n `prefix_of` fn_content n') ∨
    (∀ cache f, holds s cache → pm_path cache = path → pm_file cache = Some f → fi_inode f ≠ fn_inode n').

Lemma cacheOk_evolves s d d' cache : evolves s d d' → holds s cache → cacheOk d cache → cacheOk d' cache.
Proof.
  intros He Hh [Hok Hdesc]. split; [done|]. intros n' Hn' f Hready Hf Hino.
  destruct (He _ _ Hn') as [(n & Hn & Hi & y & Hy)|Hfresh]; [|by destruct (Hfresh _ _ Hh eq_refl Hf)].
  destruct (Hdesc _ Hn f Hready Hf) as (a & x & k & Hc & Hs & Hit); [congruence|].
  exists a, (x ++ y), k. by rewrite Hy, Hc, <- app_assoc.
Qed.

Lemma pagesOk_evolves s d d' : evolves s d d' → pagesOk d s → pagesOk d' s.
Proof.
  intros He (Hc & Hj & Hs). split_and!; [| |done].
  - intros t cache Ht. eapply cacheOk_evolves; [done| |by eapply Hc]. left. eauto.
  - apply Forall_forall. intros j Hin. rewrite Forall_forall in Hj. destruct (Hj _ Hin) as [H1 H2]. split.
    + eapply cacheOk_evolves; [done| |done]. right. eauto.
    + intros cache b Hr. eapply cacheOk_evolves; [done| |by eapply H2]. right. eauto.
Qed.

(** ** Operations *)

Lemma pagesOk_withCache d s thread cache :
  map_Forall (fun _ cache => cacheOk d cache) (ps_caches s) → cacheOk d cache →
  map_Forall (fun _ cache => cacheOk d cache) (ps_caches (withCache thread cache s)).
Proof. intros Hc Hok. by apply map_Forall_insert_2. Qed.

Lemma schedule_ok d slot thread cache now s cache' s' :
  schedulePageMetadata slot thread cache now s = (cache', s') → cacheOk d cache → Forall (jobOk d) (ps_jobs s) →
  cacheOk d cache' ∧ ps_caches s' = ps_caches s ∧ Forall (jobOk d) (ps_jobs s').
Proof.
  unfold schedulePageMetadata. intros H Hok Hj. destruct (_ || _); [by simplify_eq|]. destruct slot; simplify_eq; (split; [exact Hok|]); [|done].
  split; [done|]. simpl. constructor; [|done]. split; [exact Hok|done].
Qed.

(** The cache a snapshot uses is a new one, or the one of the thread, read from
    the same path and, if it was read, from the same file. *)
Lemma usable_cases d thread path lineage generation file now s cache s' :
  usableCache d thread path lineage generation file now s = (cache, s') →
  ps_caches s' = ps_caches s ∧ ps_jobs s' = ps_jobs s ∧
  ((∃ address, cache = freshCache address path lineage generation now) ∨
   (∃ old, ps_caches s !! thread = Some old ∧ cache = setLastUsed now old ∧ pm_path old = path ∧
      (pm_ready old = true → ∃ f, pm_file old = Some f ∧ sameFile f file = true))).
Proof.
  unfold usableCache. set (first := match ps_caches s !! thread with Some _ => _ | None => _ end).
  assert (ps_caches first.2 = ps_caches s ∧ ps_jobs first.2 = ps_jobs s ∧
    ((∃ address, first.1 = freshCache address path lineage generation now) ∨
     (∃ old, ps_caches s !! thread = Some old ∧ first.1 = setLastUsed now old ∧ pm_path old = path ∧
        (pm_ready old = true → ∃ f, pm_file old = Some f ∧ sameFile f file = true)))) as Hfirst.
  { unfold first. destruct (ps_caches s !! thread) as [old|]; [|simpl; eauto 10]. destruct (_ || _) eqn:E; [simpl; eauto 10|].
    split_and!; [done|done|]. right. exists old. rewrite !orb_false_iff in E. destruct E as [[[E1 _] _] E2].
    apply negb_false_iff, str_eqb_eq in E1. split_and!; [done|done|done|]. intros Hready. rewrite Hready in E2.
    destruct (pm_file old) as [f|]; [|done]. exists f. split; [done|]. by apply negb_false_iff in E2. }
  clearbody first. destruct first as [c1 s1]. simpl in Hfirst. destruct Hfirst as (Hc & Hj & Hcase).
  destruct (match pm_file c1 with Some _ => _ | None => _ end); unfold allocate; intros ?; simplify_eq/=; [|by split_and!].
  split_and!; [exact Hc|exact Hj|left; eauto].
Qed.

Lemma usable_ok d thread path lineage generation file now s cache s' :
  usableCache d thread path lineage generation file now s = (cache, s') →
  map_Forall (fun _ cache => cacheOk d cache) (ps_caches s) → cacheOk d cache.
Proof.
  intros H Hc. destruct (usable_cases _ _ _ _ _ _ _ _ _ _ H) as (_ & _ & [[address ->]|(old & Hold & -> & _)]); [apply freshCache_ok|].
  exact (Hc _ _ Hold).
Qed.

(** The thread that gives way is another one that has a cache. *)
Lemma oldestOther_some thread caches iteration :
  (∀ id, is_Some (caches !! id) → id ∈ iteration) → (1 < base.size caches)%nat →
  ∃ id, oldestOther thread caches iteration = Some id ∧ is_Some (caches !! id).
Proof.
  intros Hall Hsize. unfold oldestOther. set (f := fun found id => _).
  assert (∀ l found, (∀ p, found = Some p → is_Some (caches !! p.1)) →
    (∀ p, foldl f found l = Some p → is_Some (caches !! p.1)) ∧
    (is_Some found ∨ (∃ id, id ∈ l ∧ id ≠ thread ∧ is_Some (caches !! id)) → is_Some (foldl f found l))) as Hfold.
  { induction l as [|id l IH]; intros found Hf; simpl; [split; [done|]; intros [?|(? & []%elem_of_nil & _)]; done|].
    assert ((∀ p, f found id = Some p → is_Some (caches !! p.1)) ∧
      (is_Some found ∨ id ≠ thread ∧ is_Some (caches !! id) → is_Some (f found id))) as [H1 H2].
    { unfold f. destruct (str_eqb id thread) eqn:E; [apply str_eqb_eq in E; naive_solver|].
      destruct (caches !! id) as [item|] eqn:Hi; [|split; [done|]; intros [?|[_ [? ?]]]; done].
      destruct found as [[o t]|]; [destruct (_ <? _)|]; (split; [intros p Hp; injection Hp as <-|by intros; eexists]); simpl;
        first [by rewrite Hi; eexists|by apply (Hf (o, t))]. }
    destruct (IH (f found id) H1) as [H3 H4]. split; [done|]. intros Hor. apply H4.
    destruct Hor as [?|(id' & [->|Hin]%elem_of_cons & Hne & Hs)]; [left; auto..|right; eauto]. }
  assert (delete thread caches ≠ ∅) as Hne.
  { intros E. apply (f_equal base.size) in E. rewrite map_size_empty in E. destruct (caches !! thread) as [c|] eqn:Hc.
    - rewrite map_size_delete_Some in E by eauto. lia.
    - rewrite map_size_delete_None in E by done. lia. }
  apply map_choose in Hne as (id & c & Hid). apply lookup_delete_Some in Hid as [Hdiff Hid].
  destruct (Hfold iteration None ltac:(done)) as [H1 H2].
  destruct H2 as [p Hp]; [right; exists id; split_and!; [apply Hall; eauto|done|eauto]|].
  exists p.1. rewrite Hp. simpl. eauto.
Qed.

Lemma snapshot_ok d slot now iteration thread path lineage generation file entries s mode times pending s' :
  (∀ id, is_Some (ps_caches s !! id) → id ∈ iteration) → pagesOk d s →
  pageMetadataSnapshot d slot now iteration thread path lineage generation file entries s = (mode, times, pending, s') → pagesOk d s'.
Proof.
  intros Hit Hok. unfold pageMetadataSnapshot. destruct file as [file|]; [|intros; by simplify_eq].
  destruct (negb _); [intros; by simplify_eq|].
  destruct (usableCache d thread path lineage generation file now s) as [cache s1] eqn:Hu.
  destruct (usable_cases _ _ _ _ _ _ _ _ _ _ Hu) as (Hc1 & Hj1 & _). destruct Hok as (Hc & Hj & Hs).
  pose proof (usable_ok _ _ _ _ _ _ _ _ _ _ Hu Hc) as Hcok.
  destruct (if changedCache file cache then _ else _) as [cache2 s2] eqn:H2.
  assert (cacheOk d cache2 ∧ ps_caches s2 = ps_caches s ∧ Forall (jobOk d) (ps_jobs s2)) as (Hcok2 & Hc2 & Hj2).
  { destruct (changedCache file cache); [|simplify_eq; by rewrite Hc1, Hj1].
    rewrite <- Hc1. apply (schedule_ok _ _ _ _ _ _ _ _ H2); [done|by rewrite Hj1]. }
  intros Heq. simplify_eq.
  assert (map_Forall (fun _ cache => cacheOk d cache) (ps_caches (withCache thread cache2 s2))) as Hall.
  { apply pagesOk_withCache; [by rewrite Hc2|done]. }
  destruct (cacheLimit <? base.size (ps_caches (withCache thread cache2 s2)))%nat eqn:Hl;
    [|apply Nat.ltb_ge in Hl; by split_and!].
  apply Nat.ltb_lt in Hl. unfold cacheLimit in *.
  assert (base.size (ps_caches (withCache thread cache2 s2)) ≤ 9)%nat as Hle.
  { simpl. rewrite Hc2. destruct (ps_caches s !! thread) as [o|] eqn:Ho.
    - rewrite map_size_insert_Some by eauto. lia.
    - rewrite map_size_insert_None by done. lia. }
  destruct (oldestOther_some thread (ps_caches (withCache thread cache2 s2)) (thread :: iteration)) as (id & Hid & Hsome); [|lia|].
  { intros id Hid. simpl in Hid. destruct (decide (id = thread)) as [->|Hne]; [set_solver|]. rewrite lookup_insert_ne, Hc2 in Hid by done. set_solver. }
  replace (oldestOther thread (ps_caches (withCache thread cache2 s2)) iteration) with (Some id)
    by (rewrite <- Hid; unfold oldestOther; simpl; by rewrite str_eqb_refl).
  split_and!; [by apply map_Forall_delete|done|]. change (ps_caches (withoutCache id _)) with (delete id (ps_caches (withCache thread cache2 s2))).
  destruct Hsome as [c Hsome]. rewrite map_size_delete_Some by eauto. unfold cacheLimit. lia.
Qed.

Lemma finish_ok d slot now generation later scanned duration thread old result rebuilt s :
  pagesOk d s → (∀ cache, result = Ok cache → cacheOk d cache) →
  pagesOk d (finishPageMetadata d slot now generation later scanned duration thread old result rebuilt s).
Proof.
  intros Hok Hres. unfold finishPageMetadata.
  set (r := match result with Ok _ => _ | Err _ => _ end).
  assert (∀ cache, r = Ok cache → cacheOk d cache) as Hr.
  { unfold r. destruct result as [cache|e]; [|done]. intros c. destruct (verifyPageMetadataFile d cache); [done|]. intros ?. simplify_eq. auto. }
  clearbody r. set (s1 := if rebuilt then _ else s).
  assert (pagesOk d s1 ∧ ps_caches s1 = ps_caches s) as [Hok1 Hc1] by (unfold s1; destruct rebuilt, (ps_rebuilds s) as [[? ?] ?]; by split).
  clearbody s1. destruct Hok1 as (Hc & Hj & Hs).
  destruct (ps_caches s1 !! thread) as [current|] eqn:Hcur; [|by split_and!]. destruct (negb _); [by split_and!|].
  assert (∀ c s2, cacheOk d c → ps_caches s2 = ps_caches s1 → Forall (jobOk d) (ps_jobs s2) → pagesOk d (withCache thread c s2)) as Hput.
  { intros c s2 Hcok Hc2 Hj2. split_and!; [apply pagesOk_withCache; [by rewrite Hc2|done]|done|].
    simpl. rewrite Hc2, map_size_insert_Some by eauto. done. }
  destruct (negb _).
  { split_and!; [by apply map_Forall_delete|done|]. simpl. rewrite map_size_delete_Some by eauto. lia. }
  destruct r as [cache|e]; [destruct (beforeExpiry _ _)|].
  - specialize (Hput (setLastUsed (pm_lastUsed current) cache) s1 (Hr _ eq_refl) eq_refl Hj).
    by destruct (later =? pm_generation cache).
  - unfold allocate. simpl. destruct (schedulePageMetadata _ _ _ _ _) as [fresh s2] eqn:Hsch.
    apply (schedule_ok d) in Hsch as (H1 & H2 & H3); [by apply Hput|apply freshCache_ok|done].
  - unfold allocate. apply Hput; [apply freshCache_ok|done|done].
Qed.

(** ** Histories *)

Definition setJobs (jobs : list pageJob) (s : pageState) : pageState :=
  mkPageState (ps_caches s) jobs (ps_next s) (ps_rebuilds s) (ps_broadcasts s).

(** Files change; a page is shown; a goroutine scans, or gives up waiting for the
    worker; a goroutine ends; the client is closed. *)
Inductive pageStep : disk * pageState → disk * pageState → Prop :=
| PageFiles d d' s : evolves s d d' → pageStep (d, s) (d', s)
| PageShown d s slot now iteration thread path lineage generation file entries mode times pending s' :
    (∀ id, is_Some (ps_caches s !! id) → id ∈ iteration) →
    pageMetadataSnapshot d slot now iteration thread path lineage generation file entries s = (mode, times, pending, s') →
    pageStep (d, s) (d, s')
| PageScanned d s before thread old after later c startedAt r :
    ps_jobs s = before ++ mkPageJob thread old None :: after →
    scanPageMetadataAt decodeLine d later c old startedAt (ps_next s) = Some r →
    pageStep (d, s) (d, setJobs (before ++ mkPageJob thread old (Some r) :: after) (snd (allocate s)))
| PageGivenUp d s before thread old after :
    ps_jobs s = before ++ mkPageJob thread old None :: after →
    pageStep (d, s) (d, setJobs (before ++ mkPageJob thread old (Some (Err ECanceled, false)) :: after) s)
| PageFinished d s before thread old result rebuilt after slot now generation later scanned duration :
    ps_jobs s = before ++ mkPageJob thread old (Some (result, rebuilt)) :: after →
    pageStep (d, s) (d, finishPageMetadata d slot now generation later scanned duration thread old result rebuilt (setJobs (before ++ after) s))
| PageClosed d s : pageStep (d, s) (d, clearPages s).

Definition pageReachable (s : disk * pageState) : Prop := ∃ d, rtc pageStep (d, noPages) s.

Lemma noPages_ok d : pagesOk d noPages.
Proof. split_and!; [apply map_Forall_empty|by apply Forall_nil_2|simpl; rewrite map_size_empty; unfold cacheLimit; lia]. Qed.

Lemma pageStep_ok s s' : pageStep s s' → pagesOk s.1 s.2 → pagesOk s'.1 s'.2.
Proof.
  intros Hstep Hok. destruct Hstep as [d d' s He|d s slot now iteration thread path lineage generation file entries mode times pending s' Hit Hs
    |d s before thread old after later c startedAt [r b] Hj Hscan|d s before thread old after Hj
    |d s before thread old result rebuilt after slot now generation later scanned duration Hj|d s]; simpl in *.
  - by eapply pagesOk_evolves.
  - by eapply snapshot_ok.
  - destruct Hok as (Hc & Hjobs & Hs). split_and!; [done| |done]. simpl. rewrite Hj, Forall_app, Forall_cons in Hjobs.
    destruct Hjobs as (H1 & [[Hio Hdesc] _] & H2). rewrite Forall_app, Forall_cons. split_and!; [done| |done]. split; [done|]. simpl.
    intros cache b' Heq. destruct (scan_ok d later c old startedAt (ps_next s) Hio Hdesc) as (r' & b2 & Hscan2 & Hres).
    rewrite Hscan in Hscan2. simplify_eq. destruct (Hres _ eq_refl) as (Hi & n & Hn & Hsc). by eapply scanned_ok.
  - destruct Hok as (Hc & Hjobs & Hs). split_and!; [done| |done]. simpl. rewrite Hj, Forall_app, Forall_cons in Hjobs.
    destruct Hjobs as (H1 & [Ho _] & H2). rewrite Forall_app, Forall_cons. by split_and!.
  - destruct Hok as (Hc & Hjobs & Hs). rewrite Hj, Forall_app, Forall_cons in Hjobs. destruct Hjobs as (H1 & [_ Hres] & H2).
    apply finish_ok; [|intros cache ->; by eapply Hres]. split_and!; [done| |done]. simpl. by rewrite Forall_app.
  - destruct Hok as (_ & Hjobs & _). split_and!; [apply map_Forall_empty|done|]. simpl. rewrite map_size_empty. unfold cacheLimit. lia.
Qed.

Lemma pageReachable_ok d s : pageReachable (d, s) → pagesOk d s.
Proof.
  intros [d0 Hr]. change (pagesOk (d, s).1 (d, s).2). revert Hr. generalize (noPages_ok d0).
  change (pagesOk d0 noPages) with (pagesOk (d0, noPages).1 (d0, noPages).2).
  intros Hok Hr. induction Hr; [done|]. by eapply IHHr, pageStep_ok.
Qed.

(** C33. However reads, scans and growth of the rollouts interleave (a rollout is
    appended to, removed, or replaced by another file), a snapshot that is not
    pending shows the mode and the times that a read of the rollout, as it is now,
    finds in all its complete lines but the first [skipped]; each of those begins
    before the last 64 MiB of the file. A rollout of at most 64 MiB is therefore
    shown as a read of the whole rollout finds it; of a longer one the newest 64
    MiB at least. *)
Theorem page_metadata_exact d s slot now iteration thread path lineage generation n entries mode times s' :
  pageReachable (d, s) → d_open d path = Some n →
  pageMetadataSnapshot d slot now iteration thread path lineage generation (Some (stat n)) entries s = (mode, times, false, s') →
  ∃ skipped,
    mode = pi_mode (itemsFrom skipped (fn_content n)) ∧ times = timesOf entries (pi_times (itemsFrom skipped (fn_content n))) ∧
    (∀ i, (i < skipped)%nat → linesSize (take i (linesOf (fn_content n))) < nodeSize n - readLimit) ∧
    (skipped ≤ Datatypes.length (linesOf (fn_content n)))%nat ∧
    (nodeSize n ≤ readLimit → mode = pi_mode (itemsOf (fn_content n)) ∧ times = timesOf entries (pi_times (itemsOf (fn_content n)))).
Proof.
  intros Hr Hn. destruct (pageReachable_ok _ _ Hr) as (Hc & _ & _). unfold pageMetadataSnapshot.
  destruct (negb _); [done|]. destruct (usableCache _ _ _ _ _ _ _ _) as [cache s1] eqn:Hu.
  destruct (usable_cases _ _ _ _ _ _ _ _ _ _ Hu) as (_ & _ & Hcase).
  destruct (changedCache (stat n) cache) eqn:Hch; [by destruct (schedulePageMetadata _ _ _ _ _)|]. intros Heq. simplify_eq.
  unfold changedCache in Hch. apply orb_false_iff in Hch as [Hready Hsz]. apply negb_false_iff in Hready.
  destruct (pm_file cache) as [f|] eqn:Hf; [|done]. apply orb_false_iff in Hsz as [Hsz _]. apply negb_false_iff, Z.eqb_eq in Hsz.
  destruct Hcase as [[address ->]|(old & Hold & -> & Hpath & Hsame)]; [done|]. simpl in *.
  destruct (Hsame Hready) as (f' & Hf' & Hino). rewrite Hf in Hf'. injection Hf' as <-. apply Z.eqb_eq in Hino. simpl in Hino.
  destruct (Hc _ _ Hold) as [_ Hdesc]. rewrite Hpath in Hdesc. destruct (Hdesc _ Hn f Hready Hf (eq_sym Hino)) as (a & x & k & Hcx & Hsa & Hk & Hit & _).
  assert (x = []) as ->.
  { unfold nodeSize in Hsz. rewrite Hcx, size_app, Hsa in Hsz. unfold size in Hsz. destruct x; [done|]. simpl in Hsz. lia. }
  rewrite app_nil_r in Hcx. subst a. exists k. rewrite Hit. split_and!; [done|done|by destruct Hk|by destruct Hk|].
  intros Hlim. by rewrite (recent_small _ _ Hk Hlim).
Qed.

(** The caches stay bounded and the scan never panics: in every reachable state
    there are at most eight caches, each lists at most 8192 items of at most one
    MiB, each once, and the scan of every goroutine returns. *)
Theorem page_metadata_bounded d s :
  pageReachable (d, s) →
  (base.size (ps_caches s) ≤ 8)%nat ∧
  (∀ thread cache, ps_caches s !! thread = Some cache →
     NoDup (pi_order (pm_items cache)) ∧ Z.of_nat (Datatypes.length (pi_order (pm_items cache))) ≤ 8192 ∧
     (∀ k, k ∈ pi_order (pm_items cache) ↔ is_Some (pi_times (pm_items cache) !! k)) ∧
     total (pi_times (pm_items cache)) (pi_order (pm_items cache)) ≤ 2 ^ 20) ∧
  (∀ j later c startedAt address, j ∈ ps_jobs s → scanPageMetadataAt decodeLine d later c (jb_old j) startedAt address ≠ None).
Proof.
  intros Hr. destruct (pageReachable_ok _ _ Hr) as (Hc & Hj & Hs). split_and!; [done| |].
  - intros thread cache Ht. destruct (Hc _ _ Ht) as [[(Hnd & Hdom & Hb) [H1 H2]] _]. rewrite <- Hb.
    unfold pageMetadataItems, pageMetadataBytes in *. split_and!; [done|exact H1|done|exact H2].
  - intros j later c startedAt address Hin. rewrite Forall_forall in Hj. destruct (Hj _ Hin) as [[Hio Hdesc] _].
    destruct (scan_ok d later c (jb_old j) startedAt address Hio Hdesc) as (r & b & -> & _). done.
Qed.

End PageMetadata.

(** ** A thread whose rollout grows *)

(** [M] sets the plan mode, [In] completes the item [In] of the turn [t]. *)
Definition demoLine (line : bytes) : option pageRecord :=
  match line with
  | [77; 10] => Some (mkPageRecord "turn_context" "" "" "" 0 0 "" "plan" "")
  | [73; n; 10] => Some (mkPageRecord "event_msg" "now" "item_completed" "t" n (n + 1) (string_of [73; n]) "" "")
  | _ => None
  end.

Definition demoPath : string := "/sessions/a.jsonl".
Definition demoText (s : string) : bytes := map (fun b => if b =? 47 then newlineByte else b) (bytes_of s).
Definition demoNode (text : bytes) : fileNode := mkNode 5 (size text) true text.
Definition demoDisk (text : bytes) : disk :=
  let open p := if str_eqb p demoPath then Some (demoNode text) else None in mkDisk open open (fun _ => []).

Definition demoEntries : list itemKey := [("t", "I1"); ("t", "I2"); ("t", "I3")].

Definition demoShow (text : bytes) (now : Z) (s : pageState) :=
  pageMetadataSnapshot (demoDisk text) true now ["thread"] "thread" demoPath "lineage" 1 (Some (stat (demoNode text))) demoEntries s.

Definition demoOldCache (s : pageState) : pageMetadataCache :=
  match ps_jobs s with j :: _ => jb_old j | [] => freshCache 0 "" "" 0 0 end.

(** The goroutine of the only job scans and ends. *)
Definition demoScan (text : bytes) (now : Z) (s : pageState) : option (res err pageMetadataCache * bool) :=
  scanPageMetadataAt demoLine (demoDisk text) (Some (demoNode text)) None (demoOldCache s) now (ps_next s).
Definition demoResult (text : bytes) (now : Z) (s : pageState) : res err pageMetadataCache * bool :=
  default (Err ECanceled, false) (demoScan text now s).
Definition demoEnd (text : bytes) (now : Z) (s : pageState) : pageState :=
  finishPageMetadata (demoDisk text) true now 1 1 0 0 "thread" (demoOldCache s) (demoResult text now s).1 (demoResult text now s).2
    (setJobs [] (setJobs [mkPageJob "thread" (demoOldCache s) (Some (demoResult text now s))] (snd (allocate s)))).

Definition demoBefore : bytes := demoText "M/I1/I".
Definition demoAfter : bytes := demoText "M/I1/I2/".
Definition demo1 : pageState := demoEnd demoBefore 20 (demoShow demoBefore 10 noPages).2.
Definition demo2 : pageState := demoEnd demoAfter 40 (demoShow demoAfter 30 demo1).2.

(** The second scan went on from the first; the third page is complete. *)
Definition demoPage := demoShow demoAfter 50 demo2.

Example demo_shows :
  (demoPage.1.1.1, map_to_list demoPage.1.1.2, demoPage.1.2, (demoResult demoAfter 40 (demoShow demoAfter 30 demo1).2).2) =
  ("plan", [(("t", "I1"), mkStamps 49 50 "now"); (("t", "I2"), mkStamps 50 51 "now")], false, false).
Proof. vm_compute. reflexivity. Qed.

Lemma demo_round text t1 t2 s :
  pageReachable demoLine (demoDisk text, s) → (∀ id, is_Some (ps_caches s !! id) → id ∈ ["thread"]) →
  ps_jobs (demoShow text t1 s).2 = [mkPageJob "thread" (demoOldCache (demoShow text t1 s).2) None] →
  (demoScan text t2 (demoShow text t1 s).2) = Some (demoResult text t2 (demoShow text t1 s).2) →
  pageReachable demoLine (demoDisk text, demoEnd text t2 (demoShow text t1 s).2).
Proof.
  intros [d Hr] Hids Hjobs Hscan. exists d. etransitivity; [exact Hr|]. clear Hr d.
  eapply rtc_l; [|eapply rtc_l; [|eapply rtc_l; [|apply rtc_refl]]].
  - eapply (PageShown _ (demoDisk text) s true t1 ["thread"] "thread" demoPath "lineage" 1 (Some (stat (demoNode text))) demoEntries
      (demoShow text t1 s).1.1.1 (demoShow text t1 s).1.1.2 (demoShow text t1 s).1.2 (demoShow text t1 s).2); [exact Hids|]. unfold demoShow. by destruct (pageMetadataSnapshot _ _ _ _ _ _ _ _ _ _ _) as [[[? ?] ?] ?].
  - eapply (PageScanned _ _ _ [] "thread" _ [] _ _ t2); [exact Hjobs|exact Hscan].
  - unfold demoEnd. destruct (demoResult _ _ _) as [r b] eqn:E. 
    apply (PageFinished demoLine (demoDisk text) _ [] "thread" (demoOldCache (demoShow text t1 s).2) r b []). reflexivity.
Qed.

Lemma demo_reachable_1 : pageReachable demoLine (demoDisk demoBefore, demo1).
Proof.
  apply demo_round; [by exists (demoDisk demoBefore)| |vm_compute; reflexivity|vm_compute; reflexivity].
  intros id Hid. exfalso. simpl in Hid. rewrite lookup_empty in Hid. by destruct Hid.
Qed.

Lemma demo_page_grows : evolves demo1 (demoDisk demoBefore) (demoDisk demoAfter).
Proof.
  intros path n' Hn'. left. simpl in *. destruct (str_eqb path demoPath); simplify_eq. eexists. split; [done|]. split; [done|].
  by exists (demoText "2/").
Qed.

Lemma demo_only : ∀ id, is_Some (ps_caches demo1 !! id) → id ∈ ["thread"].
Proof.
  assert ((map_to_list (ps_caches demo1)).*1 = ["thread"]) as E by (vm_compute; reflexivity).
  intros id [c Hid]. rewrite <- E. apply elem_of_map_to_list in Hid. exact (list_elem_of_fmap_2 fst _ _ Hid).
Qed.

Lemma demo_reachable_2 : pageReachable demoLine (demoDisk demoAfter, demo2).
Proof.
  apply demo_round; [|exact demo_only|vm_compute; reflexivity|vm_compute; reflexivity].
  destruct demo_reachable_1 as [d Hr]. exists d. etransitivity; [exact Hr|]. eapply rtc_l; [|apply rtc_refl]. apply PageFiles, demo_page_grows.
Qed.

Lemma demo_shown :
  pageMetadataSnapshot (demoDisk demoAfter) true 50 ["thread"] "thread" demoPath "lineage" 1 (Some (stat (demoNode demoAfter))) demoEntries demo2 =
  (demoPage.1.1.1, demoPage.1.1.2, false, demoPage.2).
Proof.
  change (pageMetadataSnapshot _ _ _ _ _ _ _ _ _ _ _) with demoPage.
  assert (demoPage.1.2 = false) as E by (vm_compute; reflexivity). destruct demoPage as [[[m t] p] s]. simpl in *. by rewrite E.
Qed.

Lemma page_metadata_exact_witness :
  nodeSize (demoNode demoAfter) ≤ readLimit ∧
  demoPage.1.1.1 = pi_mode (itemsOf demoLine (fn_content (demoNode demoAfter))) ∧
  demoPage.1.1.2 = timesOf demoEntries (pi_times (itemsOf demoLine (fn_content (demoNode demoAfter)))).
Proof.
  split; [by vm_compute|].
  destruct (page_metadata_exact demoLine (demoDisk demoAfter) demo2 true 50 ["thread"] "thread" demoPath "lineage" 1 (demoNode demoAfter) demoEntries
    demoPage.1.1.1 demoPage.1.1.2 demoPage.2 demo_reachable_2 eq_refl demo_shown) as (skipped & _ & _ & _ & _ & H).
  apply H. by vm_compute.
Defined.

Lemma page_metadata_bounded_witness : (base.size (ps_caches demo2) ≤ 8)%nat.
Proof. exact (proj1 (page_metadata_bounded demoLine (demoDisk demoAfter) demo2 demo_reachable_2)). Defined.
