(* ===== verification/RolloutRead.v ===== *)
(** * Reads of a rollout

    [openRolloutFile], [readRolloutMetadata] and [collaborationModeFromRollout]
    of [src/codex/timestamps.go]: the collaboration mode and the times of wanted
    items, from the last [readLimit] bytes of a rollout. *)
From Stdlib Require Import Ascii String.
From S2P Require Import Prelude GoStd GoPath GoValue RolloutFile PageMetadata.
Open Scope Z_scope.

Definition openRolloutFile (d : disk) (path : string) : res err fileNode :=
  if is_empty path || negb (canonicalPath path) then Err (EMsg "thread/read returned an invalid rollout path") else
  match d_open d path with
  | None => Err (EWrap "open Codex thread rollout" (EMsg "open"))
  | Some n => if fn_regular n then Ok n else Err (EMsg "Codex thread rollout is not a regular file")
  end.

Record rolloutMetadata := mkRolloutMetadata { rm_mode : string; rm_itemTimes : gmap itemKey itemTimestamps }.
Definition noMetadata : rolloutMetadata := mkRolloutMetadata "" ∅.

Definition modeLimit : Z := 1024.

(** The mode that a record sets, or none. *)
Definition candidateMode (r : pageRecord) : string :=
  if str_eqb (pr_Type r) "turn_context" then pr_Mode r
  else if str_eqb (pr_Type r) "event_msg" && str_eqb (pr_PayloadType r) "thread_settings_applied" then pr_SettingsMode r else "".

Section RolloutRead.
(** [json.Unmarshal] of a line into the fields that are read. *)
Context (decodeLine : bytes → option pageRecord).

Definition readRecord (wanted : gset itemKey) (m : rolloutMetadata) (line : bytes) : rolloutMetadata :=
  match decodeLine line with
  | None => m
  | Some r =>
    let candidate := candidateMode r in
    let mode := if negb (is_empty candidate) && (len candidate <=? modeLimit) then candidate else rm_mode m in
    let key := (pr_TurnID r, pr_ItemID r) in
    mkRolloutMetadata mode
      (if str_eqb (pr_Type r) "event_msg" && str_eqb (pr_PayloadType r) "item_completed" && bool_decide (key ∈ wanted)
       then <[key := mkStamps (pr_StartedAtMS r) (pr_CompletedAtMS r) (pr_Timestamp r)]> (rm_itemTimes m) else rm_itemTimes m)
  end.

(** The scanner: a line that does not fit ends it. *)
Fixpoint scanRecords (wanted : gset itemKey) (lines : list bytes) (m : rolloutMetadata) : rolloutMetadata * option err :=
  match lines with
  | [] => (m, None)
  | line :: lines =>
    if tooLong readLimit line then (m, Some (EWrap "scan Codex thread rollout" (EMsg "bufio.Scanner: token too long")))
    else scanRecords wanted lines (readRecord wanted m (dropCR line))
  end.

(** The bytes that are read: a first line that is cut off is left out. *)
Definition rolloutSuffix (n : fileNode) : option bytes :=
  if readLimit <? nodeSize n then
    let tail := readAt (fn_content n) (nodeSize n - readLimit) readLimit in
    match (splitLines tail).1 with
    | [] => None
    | line :: _ => Some (drop (S (Datatypes.length line)) tail)
    end
  else Some (fn_content n).

Definition readRolloutMetadata (d : disk) (path : string) (wanted : gset itemKey) : rolloutMetadata * option err :=
  match openRolloutFile d path with
  | Err e => (noMetadata, Some e)
  | Ok n =>
    match rolloutSuffix n with
    | None => (noMetadata, Some (EMsg "Codex thread rollout tail has no complete record"))
    | Some content => scanRecords wanted (scanLines content) noMetadata
    end
  end.

Definition collaborationModeFromRollout (d : disk) (path : string) : res err string :=
  match readRolloutMetadata d path ∅ with
  | (_, Some e) => Err e
  | (m, None) => if is_empty (rm_mode m) then Err (EMsg "Codex thread rollout has no collaboration mode") else Ok (rm_mode m)
  end.

End RolloutRead.
