(* ===== verification/Settings.v ===== *)
(** * The settings of a thread

    The settings a client holds and how they are changed: [handleThreadSettingsUpdated],
    [cacheThreadSettings] and [invalidateThreadSettings] of [src/codex/client.go]
    (1511-1544, 1656-1660, 1728-1734), [cachedSettings], [waitForSettings],
    [refreshThreadSettings] and [UpdateThreadSettings] (502-506, 606-610, 3926-4130).

    The reader, disconnections and other callers change the held settings while an
    update runs, so the update is a program of locked sections, requests, reads of a
    rollout and waits; between any two of them the others may take steps. *)
From Stdlib Require Import Ascii String.
From S2P Require Import Prelude GoStd GoPath GoValue TurnOptions Ledger LedgerFacts Store Program Wire History Delivery Prompts HistoryReader Continuation Threads RolloutFile PageMetadata RolloutRead.
Open Scope Z_scope.
Open Scope codex_scope.

(** ** What the client holds *)

Record cachedThreadSettings := mkCached { cs_generation : Z; cs_revision : Z; cs_settings : ThreadSettings }.

(** [epoch] tells the channels [settingsChanged] apart: closing one makes the next. *)
Record settingsState := mkSettingsState {
  ss_generation : Z; ss_ready : Z; ss_revision : Z;
  ss_cache : gmap string cachedThreadSettings; ss_epoch : nat }.

Definition newSettings : settingsState := mkSettingsState 0 0 0 ∅ 0.

Definition cacheThreadSettings (threadID : string) (settings : ThreadSettings) (generation : Z)
    (c : settingsState) : settingsState :=
  let revision := u64 (ss_revision c + 1) in
  mkSettingsState (ss_generation c) (ss_ready c) revision
    (<[threadID := mkCached generation revision settings]> (ss_cache c)) (S (ss_epoch c)).

Definition invalidateThreadSettings (threadID : string) (c : settingsState) : settingsState :=
  mkSettingsState (ss_generation c) (ss_ready c) (ss_revision c) (delete threadID (ss_cache c)) (S (ss_epoch c)).

(** The parts of losing a connection, dialling and becoming ready that are about settings. *)
Definition detachSettings (c : settingsState) : settingsState :=
  mkSettingsState (ss_generation c) 0 (ss_revision c) ∅ (S (ss_epoch c)).
Definition dialSettings (c : settingsState) : settingsState :=
  mkSettingsState (u64 (ss_generation c + 1)) (ss_ready c) (ss_revision c) (ss_cache c) (ss_epoch c).
Definition readySettings (c : settingsState) : settingsState :=
  mkSettingsState (ss_generation c) (ss_generation c) (ss_revision c) (ss_cache c) (ss_epoch c).

(** The notification's struct. *)
Definition decNotification (params : any) : res err (string * ThreadSettings) :=
  let? o := decObject params in
  let? thread := decString (field "threadId" o) in
  let? s := decObject (field "threadSettings" o) in
  let? model := decString (field "model" s) in
  let? effort := decString (field "effort" s) in
  let? mode := decField "mode" decString (field "collaborationMode" s) in
  Ok (thread, mkSettings model "" effort mode zeroPolicy "").

(** A notification that is taken. *)
Definition notified (params : any) : option (string * ThreadSettings) :=
  match decNotification params with
  | Err _ => None
  | Ok (thread, s) =>
    if is_empty thread || is_empty (ts_Model s) || is_empty (ts_CollaborationMode s) then None else Some (thread, s)
  end.

Definition handleThreadSettingsUpdated (params : any) (generation : Z) (c : settingsState) : settingsState :=
  match notified params with
  | None => c
  | Some (thread, s) => cacheThreadSettings thread s generation c
  end.

(** ** Programs *)

Inductive sprog (A : Type) : Type :=
| SRet (a : A)
| SLook {B} (f : settingsState → B) (k : B → sprog A)   (** a locked section that reads *)
| SAsk {B} (m : prog B) (k : B → sprog A)               (** requests *)
| SDisk (k : disk → sprog A)                            (** the files at this moment *)
| SWait (epoch : nat) (k : option err → sprog A).       (** the context ended, or the channel was closed *)
Arguments SRet {A} a.
Arguments SLook {A B} f k.
Arguments SAsk {A B} m k.
Arguments SDisk {A} k.
Arguments SWait {A} epoch k.

Fixpoint sbind {A C} (m : sprog A) (f : A → sprog C) : sprog C :=
  match m with
  | SRet a => f a
  | SLook g k => SLook g (fun b => sbind (k b) f)
  | SAsk p k => SAsk p (fun b => sbind (k b) f)
  | SDisk k => SDisk (fun d => sbind (k d) f)
  | SWait e k => SWait e (fun o => sbind (k o) f)
  end.
Definition sbindOk {A C} (m : sprog (res err A)) (f : A → sprog (res err C)) : sprog (res err C) :=
  sbind m (fun r => match r with Ok a => f a | Err e => SRet (Err e) end).
Notation "'do!' x ':=' m 'in' k" := (sbindOk m (fun x => k))
  (at level 10, x name, m at level 100, k at level 200) : codex_scope.
Definition ask {A} (m : prog (res err A)) : sprog (res err A) := SAsk m (@SRet (res err A)).
Definition look {A} (f : settingsState → A) : sprog (res err A) := SLook f (fun a => SRet (Ok a)).

(** ** Reading *)

(** [cachedSettings]: the connection's lock first, then the settings'. *)
Definition cachedEntry (threadID : string) (generation ready : Z) (c : settingsState)
    : option cachedThreadSettings * nat :=
  (match ss_cache c !! threadID with
   | Some entry => if negb (cs_generation entry =? generation) || negb (ready =? generation) then None else Some entry
   | None => None
   end, ss_epoch c).

Definition cachedSettings (threadID : string) : sprog (option cachedThreadSettings * nat) :=
  SLook (fun c => (ss_generation c, ss_ready c)) (fun '(generation, ready) =>
  SLook (cachedEntry threadID generation ready) (fun found => SRet found)).

(** [fuel] is how many changes the caller's context lets it wait for. *)
Fixpoint waitForSettings (fuel : nat) (threadID : string) (after : Z) (matches : ThreadSettings → bool)
    : sprog (res err cachedThreadSettings) :=
  match fuel with
  | O => SRet (Err (EWrap "wait for Codex thread settings" EDeadline))
  | S fuel =>
    sbind (cachedSettings threadID) (fun '(found, changed) =>
      let wait := SWait changed (fun o =>
        match o with
        | Some e => SRet (Err (EWrap "wait for Codex thread settings" e))
        | None => waitForSettings fuel threadID after matches
        end) in
      match found with
      | Some entry => if (after <? cs_revision entry) && matches (cs_settings entry) then SRet (Ok entry) else wait
      | None => wait
      end)
  end.

Record threadSettingsMetadata := mkSettingsMetadata { sm_settings : ThreadSettings; sm_path : string }.
#[export] Instance threadSettingsMetadata_eq_dec : EqDecision threadSettingsMetadata.
Proof. solve_decision. Defined.

Record ThreadSettingsUpdate := mkUpdate {
  up_Model : option string; up_ReasoningEffort : option string; up_CollaborationMode : option string }.

(** What [thread/read] says about the settings. *)
Definition settingsOf (threadID : string) (thread : option object) : res err threadSettingsMetadata :=
  match thread with
  | None => Err (EMsg "thread/read returned the wrong settings thread")
  | Some thread =>
    let? _ := guard (negb (str_eqb (stringValue (field "id" thread)) threadID))
                (EMsg "thread/read returned the wrong settings thread") in
    let model := stringValue (field "model" thread) in
    let? _ := guard (is_empty model) (EMsg "thread/read returned incomplete current settings") in
    let path := stringValue (field "path" thread) in
    let? _ := guard (is_empty path) (EMsg "thread/read returned no rollout path") in
    Ok (mkSettingsMetadata (chosenSettings model (stringValue (field "reasoningEffort" thread))) path)
  end.

Definition withMode (mode : string) (s : ThreadSettings) : ThreadSettings :=
  mkSettings (ts_Model s) (ts_ModelProvider s) (ts_ReasoningEffort s) mode (ts_Policy s) (ts_ProjectID s).

(** The fields of an update over the current settings. *)
Definition desiredSettings (update : ThreadSettingsUpdate) (s : ThreadSettings) : ThreadSettings :=
  mkSettings (default (ts_Model s) (up_Model update)) (ts_ModelProvider s)
    (default (ts_ReasoningEffort s) (up_ReasoningEffort update))
    (default (ts_CollaborationMode s) (up_CollaborationMode update)) (ts_Policy s) (ts_ProjectID s).

(** [nil] for the empty string. *)
Definition textOrNull (s : string) : any := if is_empty s then ANull else AStr s.

Definition updateParams (threadID : string) (update : ThreadSettingsUpdate) (desired : ThreadSettings) : object :=
  let p := [("threadId", AStr threadID)] in
  let p := match up_Model update with Some _ => setField "model" (AStr (ts_Model desired)) p | None => p end in
  let p := match up_ReasoningEffort update with
           | Some _ => setField "effort" (textOrNull (ts_ReasoningEffort desired)) p | None => p end in
  match up_CollaborationMode update with
  | Some _ =>
    setField "collaborationMode"
      (AObj [("mode", AStr (ts_CollaborationMode desired));
             ("settings", AObj [("model", AStr (ts_Model desired));
                                ("reasoning_effort", textOrNull (ts_ReasoningEffort desired));
                                ("developer_instructions", ANull)])]) p
  | None => p
  end.

(** The settings that confirm an update. *)
Definition confirms (update : ThreadSettingsUpdate) (desired actual : ThreadSettings) : bool :=
  match up_CollaborationMode update with
  | Some _ => bool_decide (actual = desired)
  | None =>
    match up_Model update with None => true | Some _ => str_eqb (ts_Model actual) (ts_Model desired) end
    && match up_ReasoningEffort update with
       | None => true | Some _ => str_eqb (ts_ReasoningEffort actual) (ts_ReasoningEffort desired) end
  end.

Section settings.
Context (options : clientOptions) (decodeLine : bytes → option pageRecord) (fuel : nat).

Definition readThreadSettingsMetadata (threadID : string) : sprog (res err threadSettingsMetadata) :=
  do! thread := ask (Request options "thread/read" [("threadId", AStr threadID); ("excludeTurns", ABool true)] decThreadMap) in
  SRet (settingsOf threadID thread).

Definition ReadThreadSettings (threadID : string) : sprog (res err ThreadSettings) :=
  do! metadata := readThreadSettingsMetadata threadID in SRet (Ok (sm_settings metadata)).

Definition currentMode (path : string) : sprog (res err string) :=
  SDisk (fun d => SRet (match collaborationModeFromRollout decodeLine d path with
                        | Ok mode => Ok mode
                        | Err e => Err (EWrap "read current collaboration mode" e) end)).

(** Two reads that agree, with no notification in between; [attempts] of them. *)
Fixpoint refreshAttempts (attempts : nat) (threadID : string) : sprog (res err cachedThreadSettings) :=
  match attempts with
  | O => SRet (Err (EMsg "Codex thread settings did not stabilize while being read"))
  | S attempts =>
    do! before := look ss_revision in
    do! first := readThreadSettingsMetadata threadID in
    do! firstMode := currentMode (sm_path first) in
    do! second := readThreadSettingsMetadata threadID in
    do! secondMode := currentMode (sm_path second) in
    do! after := look ss_revision in
    if negb (before =? after) || negb (bool_decide (first = second)) || negb (str_eqb firstMode secondMode)
    then refreshAttempts attempts threadID
    else SRet (Ok (mkCached 0 after (withMode firstMode (sm_settings first))))
  end.

Definition refreshThreadSettings (threadID : string) : sprog (res err cachedThreadSettings) :=
  refreshAttempts 3 threadID.

Definition wrapErr {A} (text : string) (m : sprog (res err A)) : sprog (res err A) :=
  sbind m (fun r => SRet (match r with Ok a => Ok a | Err e => Err (EWrap text e) end)).

(** The request and the wait that follow a difference. *)
Definition requestUpdate (threadID : string) (update : ThreadSettingsUpdate) (desired : ThreadSettings) (revision : Z)
    : sprog (res err ThreadSettings) :=
  do! _ := ask (Request options "thread/settings/update" (updateParams threadID update desired) decObject) in
  do! updated := waitForSettings fuel threadID revision (confirms update desired) in
  SRet (Ok (cs_settings updated)).

Definition UpdateThreadSettings (threadID : string) (update : ThreadSettingsUpdate) : sprog (res err ThreadSettings) :=
  if bool_decide (up_ReasoningEffort update = Some "")
  then SRet (Err (EMsg "Codex cannot clear reasoning effort on an existing thread")) else
  do! _ := wrapErr "subscribe to Codex thread settings"
             (ask (resumeThreadWithPolicy options threadID zeroPolicy false)) in
  do! current := refreshThreadSettings threadID in
  let desired := desiredSettings update (cs_settings current) in
  if is_empty (ts_Model desired) || is_empty (ts_CollaborationMode desired)
  then SRet (Err (EMsg "Codex returned incomplete current thread settings")) else
  if bool_decide (desired = cs_settings current) then SRet (Ok desired) else
  requestUpdate threadID update desired (cs_revision current).
End settings.
