(* ===== verification/SettingsFacts.v ===== *)
(** * Properties of thread settings

    An update that succeeds rests on what App Server said: on two reads that
    agree, and, when it asked for a change, on a notification that came after
    them and has the wanted settings. *)
From Stdlib Require Import Ascii String.
From S2P Require Import Prelude GoStd GoPath GoValue TurnOptions Ledger LedgerFacts Store LedgerFile Locality SubmissionDb Program Wire History Delivery DeliveryFacts.
From S2P Require Import Prompts HistoryReader Continuation Threads ThreadFacts RolloutFile PageMetadata RolloutRead Settings.
Open Scope Z_scope.
Open Scope codex_scope.

(** ** What happens, in order *)

(** A request with its reply, or a notification that was taken. *)
Inductive sevent :=
| Wired (ev : event)
| Noted (threadID : string) (s : ThreadSettings) (generation : Z).

Definition noteOf (params : any) (generation : Z) : list sevent :=
  match notified params with Some (t, s) => [Noted t s generation] | None => [] end.

(** What others do to the held settings. *)
Inductive others : settingsState * list sevent → settingsState * list sevent → Prop :=
| o_notify params g c tr : others (c, tr) (handleThreadSettingsUpdated params g c, tr ++ noteOf params g)
| o_invalidate t c tr : others (c, tr) (invalidateThreadSettings t c, tr)
| o_detach c tr : others (c, tr) (detachSettings c, tr)
| o_dial c tr : others (c, tr) (dialSettings c, tr)
| o_ready c tr : others (c, tr) (readySettings c, tr).

Section meaning.
Context {W E : Type} `{SubmissionStore W E} (rely : W → W → Prop).

(** The postcondition holds on every path, with any steps of others before each step. *)
Fixpoint wps {A} (m : sprog A) (c : settingsState) (tr : list sevent) (Q : settingsState → list sevent → A → Prop) : Prop :=
  ∀ c1 tr1, rtc others (c, tr) (c1, tr1) →
  match m with
  | SRet a => Q c1 tr1 a
  | SLook f k => wps (k (f c1)) c1 tr1 Q
  | SAsk p k => ∀ w, wp rely p w [] (fun _ evs b => wps (k b) c1 (tr1 ++ (Wired <$> evs)) Q)
  | SDisk k => ∀ d, wps (k d) c1 tr1 Q
  | SWait epoch k => ∀ o, (o = None → ss_epoch c1 ≠ epoch) → wps (k o) c1 tr1 Q
  end.

Lemma wps_mono {A} (m : sprog A) c tr (Q Q' : settingsState → list sevent → A → Prop) :
  (∀ c' tr' a, Q c' tr' a → Q' c' tr' a) → wps m c tr Q → wps m c tr Q'.
Proof.
  intros HQ. revert c tr. induction m as [a|B f k IH|B p k IH|k IH|e k IH]; intros c tr Hm c1 tr1 Ho;
    specialize (Hm c1 tr1 Ho).
  - apply HQ, Hm.
  - apply IH, Hm.
  - intros w. eapply wp_mono; [|apply Hm]. intros w' evs b. apply IH.
  - intros d. apply IH, Hm.
  - intros o He. by apply IH, Hm.
Qed.

Lemma wps_bind {A C} (m : sprog A) (f : A → sprog C) c tr Q :
  wps m c tr (fun c' tr' a => wps (f a) c' tr' Q) → wps (sbind m f) c tr Q.
Proof.
  revert c tr. induction m as [a|B g k IH|B p k IH|k IH|e k IH]; intros c tr Hm; cbn [sbind].
  - by apply Hm.
  - intros c1 tr1 Ho. apply IH. by apply Hm.
  - intros c1 tr1 Ho w. eapply wp_mono; [|by apply Hm]. intros w' evs b. apply IH.
  - intros c1 tr1 Ho d. apply IH. by apply Hm.
  - intros c1 tr1 Ho o He. apply IH. by apply Hm.
Qed.

Lemma wps_bindOk {A C} (m : sprog (res err A)) (f : A → sprog (res err C)) c tr Q :
  wps m c tr (fun c' tr' r => match r with
    | Ok a => wps (f a) c' tr' Q
    | Err e => wps (SRet (Err e)) c' tr' Q end) → wps (sbindOk m f) c tr Q.
Proof. intros Hm. apply wps_bind. eapply wps_mono, Hm. by intros c' tr' [a|e]. Qed.
End meaning.

(** ** What is held was notified *)

Definition isNote (ev : sevent) : bool := match ev with Noted _ _ _ => true | _ => false end.
Definition notes (tr : list sevent) : Z := Z.of_nat (Datatypes.length (List.filter isNote tr)).
Definition wires (tr : list sevent) : list event := omap (fun ev => match ev with Wired ev => Some ev | _ => None end) tr.

Lemma notes_app a b : notes (a ++ b) = notes a + notes b.
Proof. unfold notes. rewrite List.filter_app, length_app. lia. Qed.
Lemma notes_nonneg tr : 0 ≤ notes tr.
Proof. unfold notes. lia. Qed.
Lemma notes_wired evs : notes (Wired <$> evs) = 0.
Proof. induction evs; [done|]. done. Qed.
Lemma wires_wired evs : wires (Wired <$> evs) = evs.
Proof. induction evs as [|ev evs IH]; [done|]. change (ev :: wires (Wired <$> evs) = ev :: evs). by rewrite IH. Qed.
Lemma notes_zero tr : notes tr = 0 → tr = Wired <$> wires tr.
Proof.
  induction tr as [|[ev|t s g] tr IH]; [done|..]; unfold notes in *; simpl; [|lia].
  intros Hn. change (Wired ev :: tr = Wired ev :: (Wired <$> wires tr)). by rewrite <-IH.
Qed.

(** The trace goes on with these requests. *)
Definition grows (tr tr' : list sevent) (ws : list event) : Prop := ∃ evs, tr' = tr ++ evs ∧ wires evs = ws.
Lemma grows_refl tr : grows tr tr [].
Proof. exists []. by rewrite app_nil_r. Qed.
Lemma grows_trans a b c x y : grows a b x → grows b c y → grows a c (x ++ y).
Proof. intros (e1 & -> & <-) (e2 & -> & <-). exists (e1 ++ e2). rewrite app_assoc. split; [done|]. apply omap_app. Qed.
Lemma grows_wired tr evs : grows tr (tr ++ (Wired <$> evs)) evs.
Proof. exists (Wired <$> evs). split; [done|apply wires_wired]. Qed.
Lemma grows_notes a b x : grows a b x → notes a ≤ notes b.
Proof. intros (e & -> & _). rewrite notes_app. pose proof (notes_nonneg e). lia. Qed.
(** Without a notification there are only the requests. *)
Lemma grows_still a b x : grows a b x → notes b = notes a → b = a ++ (Wired <$> x).
Proof. intros (e & -> & <-) Hn. rewrite notes_app in Hn. f_equal. apply notes_zero. lia. Qed.

(** The revision counts the notifications, up to its width, and each held entry is
    the notification of its number. *)
Definition cacheInv (c : settingsState) (tr : list sevent) : Prop :=
  notes tr < 2 ^ 64 →
  ss_revision c = notes tr ∧
  ∀ t e, ss_cache c !! t = Some e →
    ∃ pre post, tr = pre ++ Noted t (cs_settings e) (cs_generation e) :: post ∧ cs_revision e = notes pre + 1.

Lemma cacheInv_new : cacheInv newSettings [].
Proof. intros _. split; [done|]. intros t e. simpl. by rewrite lookup_empty. Qed.

Lemma cacheInv_wired c tr evs : cacheInv c tr → cacheInv c (tr ++ (Wired <$> evs)).
Proof.
  intros Hi Hn. rewrite notes_app, notes_wired in *. destruct (Hi ltac:(lia)) as [Hr Hc]. split; [lia|].
  intros t e He. destruct (Hc t e He) as (pre & post & -> & Hp). eexists pre, _. rewrite <-app_assoc. split; [done|done].
Qed.

Lemma cacheInv_note c tr t s g : cacheInv c tr → cacheInv (cacheThreadSettings t s g c) (tr ++ [Noted t s g]).
Proof.
  intros Hi Hn. rewrite notes_app in *. change (notes [Noted t s g]) with 1 in *. pose proof (notes_nonneg tr).
  destruct (Hi ltac:(lia)) as [Hr Hc]. unfold cacheThreadSettings. simpl. rewrite Hr, u64_id by lia. split; [done|].
  intros t' e He. destruct (decide (t' = t)) as [->|Ht].
  - rewrite lookup_insert_eq in He. simplify_eq/=. by exists tr, [].
  - rewrite lookup_insert_ne in He by done. destruct (Hc _ _ He) as (pre & post & -> & Hp).
    eexists pre, _. rewrite <-app_assoc. split; [done|done].
Qed.

Lemma cacheInv_other c c' tr :
  cacheInv c tr → ss_revision c' = ss_revision c → (∀ t e, ss_cache c' !! t = Some e → ss_cache c !! t = Some e) →
  cacheInv c' tr.
Proof. intros Hi Hr Hc Hn. destruct (Hi Hn) as [Hr' Hc']. split; [by rewrite Hr|]. eauto. Qed.

Lemma others_keep c tr c1 tr1 :
  rtc others (c, tr) (c1, tr1) → (cacheInv c tr → cacheInv c1 tr1) ∧ grows tr tr1 [].
Proof.
  intros Ho. remember (c, tr) as x eqn:Ex. remember (c1, tr1) as y eqn:Ey. revert c tr Ex.
  induction Ho as [x|x y z Hstep _ IH]; intros c tr ->; subst; simplify_eq.
  { split; [done|apply grows_refl]. }
  inversion Hstep as [params g ? ?|t ? ?| | |]; subst; destruct (IH eq_refl _ _ eq_refl) as [Hi Hg].
  - split; [intros H0; apply Hi|eapply (grows_trans _ _ _ [] []), Hg; exists (noteOf params g); split; [done|]].
    + unfold handleThreadSettingsUpdated, noteOf. destruct (notified params) as [[t s]|]; [by apply cacheInv_note|].
      by rewrite app_nil_r.
    + unfold noteOf. by destruct (notified params) as [[t s]|].
  - split; [|done]. intros H0. apply Hi. eapply cacheInv_other; [done|done|]. simpl.
    intros t' e. by intros [_ ?]%lookup_delete_Some.
  - split; [|done]. intros H0. apply Hi. eapply cacheInv_other; [done|done|]. simpl. intros t' e. by rewrite lookup_empty.
  - split; [|done]. intros H0. apply Hi. by eapply cacheInv_other.
  - split; [|done]. intros H0. apply Hi. by eapply cacheInv_other.
Qed.

(** ** The parts of an update *)

Section update.
Context (options : clientOptions) (decodeLine : bytes → option pageRecord) (fuel : nat).
Context {W E : Type} `{SubmissionStore W E} (rely : W → W → Prop).
Abbreviation wps := (wps rely).

(** A part that starts where the held settings are accounted for ends there. *)
Definition part {A} (m : sprog A) (Q : list sevent → list sevent → A → Prop) : Prop :=
  ∀ c tr, cacheInv c tr → wps m c tr (fun c' tr' a => cacheInv c' tr' ∧ Q tr tr' a).

Lemma part_ret {A} (a : A) : part (SRet a) (fun tr tr' x => x = a ∧ grows tr tr' []).
Proof. intros c tr Hi c1 tr1 Ho. destruct (others_keep _ _ _ _ Ho) as [Hk Hg]. auto. Qed.

Lemma part_bindOk {A C} (m : sprog (res err A)) (f : A → sprog (res err C))
    (P : list sevent → list sevent → res err A → Prop) (Q : list sevent → list sevent → res err C → Prop) :
  part m P → (∀ a, part (f a) (fun tr tr' r => ∀ tr0, P tr0 tr (Ok a) → Q tr0 tr' r)) →
  (∀ tr0 tr tr' e, P tr0 tr (Err e) → grows tr tr' [] → Q tr0 tr' (Err e)) → part (sbindOk m f) Q.
Proof.
  intros Hm Hf He c tr Hi. apply wps_bindOk. eapply wps_mono; [|by apply Hm].
  intros c1 tr1 [a|e] [Hi1 HP].
  - eapply wps_mono; [|by apply Hf]. intros c2 tr2 r [Hi2 HQ]. split; [done|]. by apply HQ.
  - eapply wps_mono; [|by apply part_ret]. intros c2 tr2 r [Hi2 [-> Hg]]. split; [done|]. by eapply He.
Qed.

Lemma part_mono {A} (m : sprog A) (P Q : list sevent → list sevent → A → Prop) :
  (∀ tr tr' a, P tr tr' a → Q tr tr' a) → part m P → part m Q.
Proof. intros HPQ Hm c tr Hi. eapply wps_mono; [|by apply Hm]. intros c' tr' a [? ?]. auto. Qed.

(** Perhaps one request. *)
Definition asking {T} (method : string) (params : object) (decode : any → res err T) (tr tr' : list sevent) (r : res err T) : Prop :=
  grows tr tr' [] ∧ is_ok r = false ∨
  ∃ ps reply, grows tr tr' [EvWire method ps reply] ∧ (opensThread method = false → ps = AObj params) ∧
    ∀ x, r = Ok x → ∃ v, reply = Replied v ∧ decode v = Ok x.

Lemma part_ask {T} method params (decode : any → res err T) :
  part (ask (Request options method params decode)) (asking method params decode).
Proof.
  intros c tr Hi c1 tr1 Ho w. destruct (others_keep _ _ _ _ Ho) as [Hk Hg1]. specialize (Hk Hi).
  eapply wp_mono; [|apply Request_sent]. intros w' evs r Hs. eapply wps_mono; [|apply part_ret; by apply cacheInv_wired].
  intros c2 tr2 x [Hi2 [-> Hg2]]. split; [done|].
  pose proof (grows_trans _ _ _ _ _ Hg1 (grows_trans _ _ _ _ _ (grows_wired tr1 evs) Hg2)) as Hg. rewrite app_nil_r in Hg.
  destruct Hs as [[-> Hr]|(ps & reply & -> & Hps & Hx)]; [by left|right]. by exists ps, reply.
Qed.

Definition noUpdate (ws : list event) : Prop := Forall (fun ev => isMethod "thread/settings/update" ev = false) ws.

(** What one read of the settings shows. *)
Definition shows (t : string) (m : threadSettingsMetadata) (ev : event) : Prop :=
  ∃ ps v thread, ev = EvWire "thread/read" ps (Replied v) ∧ decThreadMap v = Ok thread ∧ settingsOf t thread = Ok m.

Lemma read_shows t : part (readThreadSettingsMetadata options t) (fun tr tr' r =>
  ∃ ws, grows tr tr' ws ∧ noUpdate ws ∧ ∀ m, r = Ok m → ∃ ev, ws = [ev] ∧ shows t m ev).
Proof.
  eapply part_bindOk; [apply part_ask|..].
  - intros thread. eapply part_mono, part_ret. intros tr tr' r [-> Hg] tr0 [[_ ?]|(ps & reply & Hg0 & _ & Hx)]; [done|].
    destruct (Hx _ eq_refl) as (v & -> & Hv). pose proof (grows_trans _ _ _ _ _ Hg0 Hg) as Hall. rewrite app_nil_r in Hall.
    eexists. split_and!; [exact Hall|by repeat constructor|]. intros m Hm. eexists. split; [done|]. by exists ps, v, thread.
  - intros tr0 tr tr' e [[Hg0 _]|(ps & reply & Hg0 & _)] Hg; pose proof (grows_trans _ _ _ _ _ Hg0 Hg) as Hall;
      eexists; (split_and!; [exact Hall|by repeat constructor|done]).
Qed.

Lemma mode_shows path : part (currentMode decodeLine path) (fun tr tr' r =>
  grows tr tr' [] ∧ ∀ mode, r = Ok mode → ∃ d, collaborationModeFromRollout decodeLine d path = Ok mode).
Proof.
  intros c tr Hi c1 tr1 Ho d. destruct (others_keep _ _ _ _ Ho) as [Hk Hg1].
  eapply wps_mono; [|apply part_ret; by apply Hk]. intros c2 tr2 x [Hi2 [-> Hg2]]. split; [done|].
  split; [exact (grows_trans _ _ _ _ _ Hg1 Hg2)|]. intros mode Hm. exists d.
  by destruct (collaborationModeFromRollout decodeLine d path); simplify_eq.
Qed.

Lemma revision_counts : part (look ss_revision) (fun tr tr' r =>
  ∃ tr1, grows tr tr1 [] ∧ grows tr1 tr' [] ∧ ∃ n, r = Ok n ∧ (notes tr1 < 2 ^ 64 → n = notes tr1)).
Proof.
  intros c tr Hi c1 tr1 Ho. destruct (others_keep _ _ _ _ Ho) as [Hk Hg1]. specialize (Hk Hi).
  eapply wps_mono; [|by apply part_ret]. intros c2 tr2 x [Hi2 [-> Hg2]]. split; [done|]. exists tr1.
  split_and!; [done|done|]. eexists. split; [done|]. intros Hn. by destruct (Hk Hn).
Qed.

(** Two reads in a row, with no notification between them, that say the same, and
    the mode in the rollout they name. *)
Definition readTwice (t : string) (s : ThreadSettings) (tr tr' : list sevent) : Prop :=
  ∃ pre ev1 ev2 m d1 d2 mode, tr' = tr ++ pre ++ [Wired ev1; Wired ev2] ∧ shows t m ev1 ∧ shows t m ev2 ∧
    collaborationModeFromRollout decodeLine d1 (sm_path m) = Ok mode ∧
    collaborationModeFromRollout decodeLine d2 (sm_path m) = Ok mode ∧ s = withMode mode (sm_settings m).

(** The settings of a refresh are those read just before its last look. *)
Definition refreshed (t : string) (tr tr' : list sevent) (r : res err cachedThreadSettings) : Prop :=
  (∃ ws, grows tr tr' ws ∧ noUpdate ws) ∧
  ∀ cur, r = Ok cur → notes tr' < 2 ^ 64 →
    ∃ tr1, grows tr1 tr' [] ∧ cs_revision cur = notes tr1 ∧ readTwice t (cs_settings cur) tr tr1.

Lemma refreshed_err t tr tr' tr'' ws e : grows tr tr' ws → noUpdate ws → grows tr' tr'' [] → refreshed t tr tr'' (Err e).
Proof.
  intros Hg Hn Hg'. split; [|done]. exists (ws ++ []). split; [by eapply grows_trans|]. by rewrite app_nil_r.
Qed.
Lemma refreshed_more t tr tr' tr'' ws r : grows tr tr' ws → noUpdate ws → refreshed t tr' tr'' r → refreshed t tr tr'' r.
Proof.
  intros Hg Hn [(ws' & Hg' & Hn') Hr]. split.
  - exists (ws ++ ws'). split; [by eapply grows_trans|]. by apply Forall_app.
  - intros cur Hc Hl. destruct (Hr cur Hc Hl) as (tr1 & Hg1 & Hrev & pre & ev1 & ev2 & m & d1 & d2 & mode & -> & Hx).
    eexists. split_and!; [exact Hg1|done|]. destruct Hg as (evs & -> & _).
    exists (evs ++ pre), ev1, ev2, m, d1, d2, mode. by rewrite <-!app_assoc.
Qed.

Lemma refresh_refreshed n t : part (refreshAttempts options decodeLine n t) (refreshed t).
Proof.
  induction n as [|n IH]; cbn [refreshAttempts].
  { eapply part_mono, part_ret. intros tr tr' r [-> Hg]. eapply refreshed_err; [apply grows_refl|constructor|done]. }
  assert (∀ tr tr1 ws c e, grows tr tr1 ws → noUpdate ws → cacheInv c tr1 →
    wps (SRet (Err e)) c tr1 (fun c' tr' r => cacheInv c' tr' ∧ refreshed t tr tr' r)) as Herr.
  { intros tr tr1 ws c e Hg Hn Hi. eapply wps_mono; [|by apply part_ret]. intros c2 tr2 x [Hi2 [-> Hg2]].
    split; [done|]. by eapply refreshed_err. }
  intros c tr Hi. apply wps_bindOk. eapply wps_mono; [|by apply revision_counts].
  intros c1 tr1 r1 [Hi1 (tr0 & Hg0 & Hg1 & before & -> & Hbefore)].
  apply wps_bindOk. eapply wps_mono; [|by apply read_shows].
  intros c2 tr2 r2 [Hi2 (w2 & Hg2 & Hn2 & Hfirst)]. pose proof (grows_trans _ _ _ _ _ Hg1 Hg2) as Ha2. simpl in Ha2.
  destruct r2 as [first|e]; [|eapply Herr; [exact (grows_trans _ _ _ _ _ Hg0 Ha2)|done|done]].
  destruct (Hfirst _ eq_refl) as (ev1 & -> & Hev1). clear Hfirst.
  apply wps_bindOk. eapply wps_mono; [|by apply mode_shows].
  intros c3 tr3 r3 [Hi3 [Hg3 Hmode1]]. pose proof (grows_trans _ _ _ _ _ Ha2 Hg3) as Ha3. simpl in Ha3.
  destruct r3 as [mode1|e]; [|eapply Herr; [exact (grows_trans _ _ _ _ _ Hg0 Ha3)|done|done]].
  apply wps_bindOk. eapply wps_mono; [|by apply read_shows].
  intros c4 tr4 r4 [Hi4 (w4 & Hg4 & Hn4 & Hsecond)]. pose proof (grows_trans _ _ _ _ _ Ha3 Hg4) as Ha4. simpl in Ha4.
  destruct r4 as [second|e]; [|eapply Herr; [exact (grows_trans _ _ _ _ _ Hg0 Ha4)|by apply (Forall_app_2 _ [ev1])|done]].
  destruct (Hsecond _ eq_refl) as (ev2 & -> & Hev2). clear Hsecond.
  assert (noUpdate [ev1; ev2]) as Hq by (by apply (Forall_app_2 _ [ev1])).
  apply wps_bindOk. eapply wps_mono; [|by apply mode_shows].
  intros c5 tr5 r5 [Hi5 [Hg5 Hmode2]]. pose proof (grows_trans _ _ _ _ _ Ha4 Hg5) as Ha5. simpl in Ha5.
  destruct r5 as [mode2|e]; [|eapply Herr; [exact (grows_trans _ _ _ _ _ Hg0 Ha5)|done|done]].
  apply wps_bindOk. eapply wps_mono; [|by apply revision_counts].
  intros c6 tr6 r6 [Hi6 (tr7 & Hg6 & Hg7 & after & -> & Hafter)].
  pose proof (grows_trans _ _ _ _ _ Ha5 Hg6) as Ha7. simpl in Ha7.
  pose proof (grows_trans _ _ _ _ _ Hg0 (grows_trans _ _ _ _ _ Ha7 Hg7)) as Hall. simpl in Hall.
  destruct (negb _ || _ || _) eqn:Eb.
  - eapply wps_mono; [|by apply IH]. intros c8 tr8 r [Hi8 Hr]. split; [done|]. by eapply refreshed_more.
  - apply orb_false_iff in Eb as [Eb E3%negb_false_iff%str_eqb_eq]. apply orb_false_iff in Eb as [E1%negb_false_iff%Z.eqb_eq E2].
    apply negb_false_iff, bool_decide_eq_true in E2. subst second mode2 after.
    eapply wps_mono; [|by apply part_ret]. intros c8 tr8 r [Hi8 [-> Hg8]]. split; [done|]. split.
    { exists ([ev1; ev2] ++ []). split; [by eapply grows_trans|done]. }
    intros cur [= <-] Hl. pose proof (grows_notes _ _ _ Hg8). pose proof (grows_notes _ _ _ Hg7). pose proof (grows_notes _ _ _ Ha7).
    rewrite Hbefore in Hafter by lia. specialize (Hafter ltac:(lia)).
    exists tr7. split_and!; [exact (grows_trans _ _ _ _ _ Hg7 Hg8)|simpl; rewrite Hbefore by lia; done|].
    destruct (Hmode1 _ eq_refl) as (d1 & Hd1), (Hmode2 _ eq_refl) as (d2 & Hd2).
    destruct Hg0 as (pre & -> & _). exists pre, ev1, ev2, first, d1, d2, mode1. split_and!; try done.
    rewrite (grows_still _ _ _ Ha7 ltac:(done)). by rewrite <-app_assoc.
Qed.

(** A wait that ends well found a notification of a later number that matches. *)
Lemma wait_found n t after matches : part (waitForSettings n t after matches) (fun tr tr' r =>
  grows tr tr' [] ∧ ∀ e, r = Ok e → notes tr' < 2 ^ 64 →
    after < cs_revision e ∧ matches (cs_settings e) = true ∧
    ∃ pre post, tr' = pre ++ Noted t (cs_settings e) (cs_generation e) :: post ∧ cs_revision e = notes pre + 1).
Proof.
  induction n as [|n IH]; cbn [waitForSettings].
  { eapply part_mono, part_ret. by intros tr tr' r [-> Hg]. }
  intros c tr Hi c1 tr1 Ho1 c2 tr2 Ho2.
  destruct (others_keep _ _ _ _ Ho1) as [Hk1 Hg1], (others_keep _ _ _ _ Ho2) as [Hk2 Hg2].
  specialize (Hk1 Hi). specialize (Hk2 Hk1). pose proof (grows_trans _ _ _ _ _ Hg1 Hg2) as Hg. simpl in Hg.
  assert (wps (SWait (ss_epoch c2) (fun o => match o with
        | Some e => SRet (Err (EWrap "wait for Codex thread settings" e))
        | None => waitForSettings n t after matches end)) c2 tr2 (fun c' tr' r => cacheInv c' tr' ∧ grows tr tr' [] ∧
      ∀ e, r = Ok e → notes tr' < 2 ^ 64 → after < cs_revision e ∧ matches (cs_settings e) = true ∧
      ∃ pre post, tr' = pre ++ Noted t (cs_settings e) (cs_generation e) :: post ∧ cs_revision e = notes pre + 1)) as Hwait.
  { intros c3 tr3 Ho3 o _. destruct (others_keep _ _ _ _ Ho3) as [Hk3 Hg3]. specialize (Hk3 Hk2).
    destruct o as [e|]; (eapply wps_mono; [|by first [apply IH | apply part_ret]]); intros c4 tr4 r [Hi4 Hr]; (split; [done|]).
    - destruct Hr as [-> Hg4]. split; [exact (grows_trans _ _ _ _ _ Hg (grows_trans _ _ _ _ _ Hg3 Hg4))|done].
    - destruct Hr as [Hg4 Hr]. split; [exact (grows_trans _ _ _ _ _ Hg (grows_trans _ _ _ _ _ Hg3 Hg4))|done]. }
  unfold cachedEntry. cbn [sbind]. destruct (ss_cache c2 !! t) as [entry|] eqn:Ec; [|exact Hwait].
  destruct (negb _ || _); [exact Hwait|]. destruct (_ && _) eqn:Em; [|exact Hwait].
  apply andb_true_iff in Em as [Ha%Z.ltb_lt Hm]. eapply wps_mono; [|by apply part_ret].
  intros c3 tr3 r [Hi3 [-> Hg3]]. split; [done|]. split; [exact (grows_trans _ _ _ _ _ Hg Hg3)|].
  intros e [= <-] Hl. pose proof (grows_notes _ _ _ Hg3). split_and!; [done|done|].
  destruct (Hk2 ltac:(lia)) as [_ Hc]. destruct (Hc _ _ Ec) as (pre & post & -> & Hp).
  destruct Hg3 as (evs & -> & _). exists pre, (post ++ evs). by rewrite <-app_assoc.
Qed.

(** A notification of a later number is a later one. *)
Lemma later_note a b pre post t s g :
  a ++ b = pre ++ Noted t s g :: post → notes a < notes pre + 1 → ∃ b1 b2, b = b1 ++ Noted t s g :: b2.
Proof.
  intros Heq Hn. destruct (app_eq_inv _ _ _ _ Heq) as [(k & -> & Hk)|(k & -> & ->)]; [|by exists k, post].
  destruct k as [|ev k]; [by exists [], post|]. simpl in Hk. simplify_eq/=.
  rewrite notes_app in Hn. change (Noted t s g :: k) with ([Noted t s g] ++ k) in Hn. rewrite notes_app in Hn.
  change (notes [Noted t s g]) with 1 in Hn. pose proof (notes_nonneg k). lia.
Qed.

Lemma resume_quiet t : part (wrapErr "subscribe to Codex thread settings" (ask (resumeThreadWithPolicy options t zeroPolicy false)))
  (fun tr tr' r => ∃ ws, grows tr tr' ws ∧ noUpdate ws).
Proof.
  intros c tr Hi c1 tr1 Ho w. destruct (others_keep _ _ _ _ Ho) as [Hk Hg1]. specialize (Hk Hi).
  eapply wp_mono; [|apply resume_sent]. intros w' evs r Hs. cbn [sbind].
  eapply wps_mono; [|apply part_ret; by apply cacheInv_wired].
  intros c2 tr2 x [Hi2 [-> Hg2]]. split; [done|]. exists ([] ++ evs ++ []).
  split; [exact (grows_trans _ _ _ _ _ Hg1 (grows_trans _ _ _ _ _ (grows_wired tr1 evs) Hg2))|]. rewrite app_nil_r.
  by destruct Hs as [[-> _]|(ps & reply & -> & _)]; repeat constructor.
Qed.

Definition updates (ws : list event) : nat := Datatypes.length (List.filter (isMethod "thread/settings/update") ws).
Lemma noUpdate_updates ws : noUpdate ws → updates ws = 0%nat.
Proof. unfold updates. induction 1 as [|ev ws Hev _ IH]; [done|]. simpl. by rewrite Hev. Qed.
Lemma updates_app a b : updates (a ++ b) = (updates a + updates b)%nat.
Proof. unfold updates. by rewrite List.filter_app, length_app. Qed.

(** What the settings an update returns rest on. *)
Definition settled (t : string) (update : ThreadSettingsUpdate) (tr tr' : list sevent) (s : ThreadSettings) : Prop :=
  ∃ current tr1, readTwice t current tr tr1 ∧
    (desiredSettings update current = current ∧ s = current ∧ grows tr1 tr' [] ∨
     desiredSettings update current ≠ current ∧ confirms update (desiredSettings update current) s = true ∧
     ∃ v b1 g b2, tr' = tr1 ++ b1 ++ Noted t s g :: b2 ∧
       wires (b1 ++ b2) = [EvWire "thread/settings/update"
                             (AObj (updateParams t update (desiredSettings update current))) (Replied v)]).

Lemma settled_more t update tr evs tr' s : settled t update (tr ++ evs) tr' s → settled t update tr tr' s.
Proof.
  intros (current & tr1 & (pre & ev1 & ev2 & m & d1 & d2 & mode & -> & Hx) & Hs).
  eexists current, _. split; [|exact Hs]. exists (evs ++ pre), ev1, ev2, m, d1, d2, mode. by rewrite <-!app_assoc.
Qed.

(** The request and the wait, after a refresh that ended at [tr1]. *)
Lemma requestUpdate_confirmed t update desired revision : part (requestUpdate options fuel t update desired revision)
  (fun tr tr' r => (∃ ws, grows tr tr' ws ∧ (updates ws ≤ 1)%nat) ∧
    ∀ s, r = Ok s → notes tr' < 2 ^ 64 → confirms update desired s = true ∧
      ∃ v pre g post, grows tr tr' [EvWire "thread/settings/update" (AObj (updateParams t update desired)) (Replied v)] ∧
        tr' = pre ++ Noted t s g :: post ∧ revision < notes pre + 1).
Proof.
  eapply part_bindOk; [apply part_ask|..].
  - intros response. eapply part_bindOk; [apply wait_found|..].
    + intros entry. eapply part_mono, part_ret. intros tr tr' r [-> Hg] tr1 [Hg1 Hfound] tr0 Hask.
      destruct Hask as [[_ ?]|(ps & reply & Hg0 & Hps & Hx)]; [done|]. destruct (Hx _ eq_refl) as (v & -> & _).
      rewrite (Hps eq_refl) in Hg0. pose proof (grows_trans _ _ _ _ _ Hg0 (grows_trans _ _ _ _ _ Hg1 Hg)) as Hall. simpl in Hall.
      split; [by eexists|]. intros s [= <-] Hl. pose proof (grows_notes _ _ _ Hg).
      destruct (Hfound _ eq_refl ltac:(lia)) as (Ha & Hm & pre & post & -> & Hrev). split; [done|].
      destruct Hg as (evs & -> & _). exists v, pre, (cs_generation entry), (post ++ evs).
      split_and!; [done|by rewrite <-app_assoc|lia].
    + intros tr1 tr tr' e [Hg1 _] Hg tr0 Hask. split; [|done].
      destruct Hask as [[Hg0 _]|(ps & reply & Hg0 & _)]; eexists;
        (split; [exact (grows_trans _ _ _ _ _ Hg0 (grows_trans _ _ _ _ _ Hg1 Hg))|]); unfold updates; simpl; lia.
  - intros tr0 tr tr' e Hask Hg. split; [|done]. destruct Hask as [[Hg0 _]|(ps & reply & Hg0 & _)]; eexists;
      (split; [exact (grows_trans _ _ _ _ _ Hg0 Hg)|]); unfold updates; simpl; lia.
Qed.

Lemma wires_note a t s g b : wires (a ++ Noted t s g :: b) = wires (a ++ b).
Proof. unfold wires. rewrite !omap_app. done. Qed.

Lemma confirmed_settled t update tr tr1 tr2 tr' cur s v pre g post :
  let desired := desiredSettings update (cs_settings cur) in
  readTwice t (cs_settings cur) tr tr1 → grows tr1 tr2 [] → cs_revision cur = notes tr1 →
  desired ≠ cs_settings cur → confirms update desired s = true →
  grows tr2 tr' [EvWire "thread/settings/update" (AObj (updateParams t update desired)) (Replied v)] →
  tr' = pre ++ Noted t s g :: post → cs_revision cur < notes pre + 1 → settled t update tr tr' s.
Proof.
  intros desired Hread Hg1 Hrev Hne Hc Hg2 Heq Hlt. exists (cs_settings cur), tr1. split; [done|]. right. split_and!; [done|done|].
  destruct (grows_trans _ _ _ _ _ Hg1 Hg2) as (b & Hb & Hw). rewrite Hb in Heq.
  destruct (later_note _ _ _ _ _ _ _ Heq ltac:(lia)) as (b1 & b2 & ->).
  exists v, b1, g, b2. split; [done|]. by rewrite wires_note in Hw.
Qed.

(** C21. However notifications, disconnections and other updates come in between, an
    update sends at most one request, and the settings it returns rest on what App
    Server said: the current settings were read twice in a row, with no notification
    between, and they have the wanted fields already; or the update was accepted and
    a notification that came after these reads carries the returned settings, with
    the fields that were asked for, and all settings when the mode was. *)
Theorem settings_update_confirmed t update c tr :
  cacheInv c tr → wps (UpdateThreadSettings options decodeLine fuel t update) c tr (fun _ tr' r =>
    (∃ ws, grows tr tr' ws ∧ (updates ws ≤ 1)%nat) ∧
    ∀ s, r = Ok s → notes tr' < 2 ^ 64 → settled t update tr tr' s).
Proof.
  intros Hi. enough (part (UpdateThreadSettings options decodeLine fuel t update) (fun tr tr' r =>
    (∃ ws, grows tr tr' ws ∧ (updates ws ≤ 1)%nat) ∧ ∀ s, r = Ok s → notes tr' < 2 ^ 64 → settled t update tr tr' s)) as Hall.
  { eapply wps_mono; [|by apply Hall]. by intros c' tr' r [_ Hr]. }
  clear. unfold UpdateThreadSettings. case_bool_decide.
  { eapply part_mono, part_ret. intros tr tr' r [-> Hg]. split; [|done]. exists []. split; [done|]. unfold updates. simpl. lia. }
  eapply part_bindOk; [apply resume_quiet|..].
  2:{ intros tr0 tr tr' e (ws & Hg0 & Hn) Hg. split; [|done]. eexists. split; [exact (grows_trans _ _ _ _ _ Hg0 Hg)|].
      rewrite app_nil_r, noUpdate_updates by done. lia. }
  intros u. eapply part_mono with (P := fun tr tr' r => (∃ ws, grows tr tr' ws ∧ (updates ws ≤ 1)%nat) ∧
    ∀ s, r = Ok s → notes tr' < 2 ^ 64 → settled t update tr tr' s).
  { intros tr tr' r [(ws & Hg & Hu) Hs] tr0 (ws0 & Hg0 & Hn0). split.
    - exists (ws0 ++ ws). split; [by eapply grows_trans|]. rewrite updates_app, noUpdate_updates by done. done.
    - intros s Hok Hl. destruct Hg0 as (evs & -> & _). by eapply settled_more, Hs. }
  eapply part_bindOk; [apply refresh_refreshed|..].
  2:{ intros tr0 tr tr' e [(ws & Hg0 & Hn) _] Hg. split; [|done]. eexists. split; [exact (grows_trans _ _ _ _ _ Hg0 Hg)|].
      rewrite app_nil_r, noUpdate_updates by done. lia. }
  intros cur. cbv zeta. destruct (_ || _).
  { eapply part_mono, part_ret. intros tr tr' r [-> Hg] tr0 [(ws & Hg0 & Hn) _]. split; [|done]. eexists.
    split; [exact (grows_trans _ _ _ _ _ Hg0 Hg)|]. rewrite app_nil_r, noUpdate_updates by done. lia. }
  case_bool_decide as Hsame.
  - eapply part_mono, part_ret. intros tr tr' r [-> Hg] tr0 [(ws & Hg0 & Hn) Hr]. split.
    + eexists. split; [exact (grows_trans _ _ _ _ _ Hg0 Hg)|]. rewrite app_nil_r, noUpdate_updates by done. lia.
    + intros s [= <-] Hl. pose proof (grows_notes _ _ _ Hg). destruct (Hr _ eq_refl ltac:(lia)) as (tr1 & Hg1 & _ & Hread).
      exists (cs_settings cur), tr1. split; [done|]. left. split_and!; [done|done|]. exact (grows_trans _ _ _ _ _ Hg1 Hg).
  - eapply part_mono, requestUpdate_confirmed. intros tr tr' r [(ws' & Hg & Hu) Hs] tr0 [(ws & Hg0 & Hn) Hr]. split.
    + eexists. split; [exact (grows_trans _ _ _ _ _ Hg0 Hg)|]. rewrite updates_app, noUpdate_updates by done. done.
    + intros s Hok Hl. pose proof (grows_notes _ _ _ Hg). destruct (Hs _ Hok Hl) as (Hc & v & pre & g & post & Hgv & Heq & Hlt).
      destruct (Hr _ eq_refl ltac:(lia)) as (tr1 & Hg1 & Hrev & Hread). by eapply confirmed_settled.
Qed.
End update.

(** ** Running an update *)

Inductive move :=
| MNote (params : any) (generation : Z)     (** a notification comes *)
| MReady                                    (** the connection becomes ready *)
| MLook | MAnswers (l : list (answer dbEnv)) | MDisk (d : disk) | MWake.

Fixpoint play {A} (moves : list move) (m : sprog A) (c : settingsState) (tr : list sevent) : option (A * list sevent) :=
  match moves, m with
  | [], SRet a => Some (a, tr)
  | MNote params g :: rest, _ => play rest m (handleThreadSettingsUpdated params g c) (tr ++ noteOf params g)
  | MReady :: rest, _ => play rest m (readySettings c) tr
  | MLook :: rest, SLook f k => play rest (k (f c)) c tr
  | MAnswers l :: rest, SAsk p k =>
    match drive p l (∅ : database) [] with
    | Some (b, _, evs) => play rest (k b) c (tr ++ (Wired <$> evs))
    | None => None
    end
  | MDisk d :: rest, SDisk k => play rest (k d) c tr
  | MWake :: rest, SWait epoch k => if Nat.eqb (ss_epoch c) epoch then None else play rest (k None) c tr
  | _, _ => None
  end.

(** The errors of the answers are plain. *)
Fixpoint played {A} (moves : list move) (m : sprog A) (c : settingsState) : Prop :=
  match moves, m with
  | MNote params g :: rest, _ => played rest m (handleThreadSettingsUpdated params g c)
  | MReady :: rest, _ => played rest m (readySettings c)
  | MLook :: rest, SLook f k => played rest (k (f c)) c
  | MAnswers l :: rest, SAsk p k =>
    plainRun p l (∅ : database) ∧
    match drive p l (∅ : database) [] with Some (b, _, _) => played rest (k b) c | None => True end
  | MDisk d :: rest, SDisk k => played rest (k d) c
  | MWake :: rest, SWait epoch k => played rest (k None) c
  | _, _ => True
  end.

Definition alone (a b : database) : Prop := a = b.

Lemma wps_others {A} (m : sprog A) c tr c' tr' Q : rtc others (c, tr) (c', tr') → wps alone m c tr Q → wps alone m c' tr' Q.
Proof. intros Ho Hm. destruct m; intros c1 tr1 Ho1; apply (Hm c1 tr1); by etrans. Qed.

Lemma play_sound {A} moves (m : sprog A) c tr Q a tr' :
  wps alone m c tr Q → played moves m c → play moves m c tr = Some (a, tr') → ∃ c', Q c' tr' a.
Proof.
  revert m c tr. induction moves as [|mv moves IH]; intros m c tr Hm Hp Hr.
  { destruct m; simpl in Hr; simplify_eq. exists c. by apply Hm. }
  assert (∀ c' tr', rtc others (c, tr) (c', tr') → wps alone m c' tr' Q) as Ho by (intros; by eapply wps_others).
  destruct mv as [params g| | |l|d|]; cbn in Hr, Hp.
  1:{ eapply IH; [|exact Hp|exact Hr]. apply Ho, rtc_once, o_notify. }
  1:{ eapply IH; [|exact Hp|exact Hr]. apply Ho, rtc_once, o_ready. }
  all: destruct m as [x|B f k|B p k|k|epoch k]; try done; specialize (Hm c tr (rtc_refl _ _)).
  - by eapply IH; [apply Hm|exact Hp|exact Hr].
  - destruct (drive p l ∅ []) as [[[b db] evs]|] eqn:Ed; [|done]. destruct Hp as [Hp1 Hp2].
    eapply IH; [|exact Hp2|exact Hr]. exact (drive_sound alone p l ∅ [] _ b db evs (fun w => eq_refl) (Hm ∅) Hp1 Ed).
  - by eapply IH; [apply Hm|exact Hp|exact Hr].
  - destruct (Nat.eqb _ _) eqn:Ee; [done|]. apply Nat.eqb_neq in Ee. by eapply IH; [apply Hm|exact Hp|exact Hr].
Qed.

(** A model is asked for, and the notification that confirms it comes. *)
Definition demoLines (line : bytes) : option pageRecord :=
  Some (mkPageRecord "turn_context" "" "" "" 0 0 "" "plan" "").
Definition demoFiles : disk := mkDisk (fun _ => Some (mkNode 1 1 true [123; 10])) (fun _ => None) (fun _ => []).
Definition demoWanted : ThreadSettingsUpdate := mkUpdate (Some "new") None None.
Definition demoRead : any :=
  AObj [("thread", AObj [("id", AStr "thread"); ("model", AStr "old"); ("path", AStr "/r"); ("reasoningEffort", AStr "low")])].
Definition demoNote : any :=
  AObj [("threadId", AStr "thread"); ("threadSettings", AObj [("model", AStr "new"); ("effort", AStr "low");
    ("collaborationMode", AObj [("mode", AStr "plan")])])].
Definition demoReply (v : any) : move :=
  MAnswers [OnNet (mkNet None None true None None None true None None None); OnWire (Replied v)].
Definition demoMoves : list move :=
  [MReady; demoReply (AObj []); MLook; demoReply demoRead; MDisk demoFiles; demoReply demoRead; MDisk demoFiles; MLook;
   demoReply (AObj []); MLook; MLook; MNote demoNote 0; MWake; MLook; MLook].
Definition demoUpdate : sprog (res err ThreadSettings) :=
  UpdateThreadSettings (mkClientOptions false "" false false None None) demoLines 4 "thread" demoWanted.

Definition demoSettled : ThreadSettings := mkSettings "new" "" "low" "plan" zeroPolicy "".

Lemma demo_played : played demoMoves demoUpdate newSettings.
Proof. vm_compute. repeat split. Qed.
Lemma demo_outcome :
  match play demoMoves demoUpdate newSettings [] with Some (r, tr') => Some (r, notes tr') | None => None end
  = Some (Ok demoSettled, 1).
Proof. vm_compute. reflexivity. Qed.

Lemma settings_update_confirmed_witness :
  match play demoMoves demoUpdate newSettings [] with
  | Some (r, tr') => r = Ok demoSettled ∧ settled demoLines "thread" demoWanted [] tr' demoSettled
  | None => False
  end.
Proof.
  pose proof demo_outcome as Ho. destruct (play demoMoves demoUpdate newSettings []) as [[r tr']|] eqn:Ed; [|discriminate Ho].
  injection Ho as -> Hn. split; [reflexivity|].
  destruct (play_sound demoMoves demoUpdate newSettings [] _ _ _
    (settings_update_confirmed (mkClientOptions false "" false false None None) demoLines 4 alone "thread" demoWanted
       newSettings [] cacheInv_new) demo_played Ed) as (c & _ & Hs).
  apply Hs; [reflexivity|]. rewrite Hn. reflexivity.
Defined.
