(* ===== verification/PagedRequests.v ===== *)
(** * Paged requests

    What asks App Server for a thread and for pages of its turns and items, as a
    program: the requests of [src/codex/thread_page.go] and
    [src/codex/citation_history.go], and what is done with the answers. *)
From Stdlib Require Import Ascii String.
From S2P Require Import Prelude GoStd GoValue Wire History ActivityHistory.

Definition turnPage : Type := option (list object) * option string.

Inductive pageProg (A : Type) : Type :=
| PRet (a : A)
| PThread (params : object) (k : res err (option object) → pageProg A)
| PTurns (params : object) (k : res err turnPage → pageProg A)
| PItems (params : object) (k : res err itemPage → pageProg A).
Arguments PRet {A} a.
Arguments PThread {A} params k.
Arguments PTurns {A} params k.
Arguments PItems {A} params k.

(** Sequencing *)
Fixpoint pbind {A C} (m : pageProg A) (f : A → pageProg C) : pageProg C :=
  match m with
  | PRet a => f a
  | PThread params k => PThread params (fun r => pbind (k r) f)
  | PTurns params k => PTurns params (fun r => pbind (k r) f)
  | PItems params k => PItems params (fun r => pbind (k r) f)
  end.

