(* ===== verification/Transcript.v ===== *)
(** * Transcript entries

    What a turn is shown as: [transcriptEntries] and [transcriptFailureEntry]
    of [src/codex/client.go], the questions and replies of
    [src/codex/async_questions.go], the activities of
    [src/codex/transcript_activity.go] and the times of
    [src/codex/timestamps.go].

    Details that the code prints as JSON are kept as the value that is printed,
    and times as the instants they show. *)
From Stdlib Require Import Ascii String.
From S2P Require Import Prelude GoStd GoPath GoValue TurnOptions Wire RolloutFile PageMetadata.
Open Scope Z_scope.

(** ** Data *)

Record AsyncQuestion := mkQuestion { aq_ID : string; aq_Title : string; aq_Options : list string }.
Record AsyncQuestionReply := mkReply { ar_QuestionItemID : string; ar_Question : string; ar_Answer : string }.
Record ActivityLink := mkLink { al_URL : string; al_Title : string }.
Record ActivityAgent := mkAgent { ag_ThreadID : string; ag_Status : string; ag_Message : string }.
Record TranscriptActivity := mkTranscriptActivity {
  ta_Action : string; ta_Status : string; ta_Queries : list string; ta_Links : list ActivityLink; ta_Agents : list ActivityAgent;
  ta_AgentPath : string; ta_Model : string; ta_ReasoningEffort : string }.

(** [Details]: nothing, a text, or a value in JSON. *)
Inductive details := DNone | DText (s : string) | DJson (v : any).
Definition jsonDetails (v : any) : details := match v with ANull => DNone | _ => DJson v end.

(** A validated destination, and the bytes of a text that it replaces. *)
Record CitationSource := mkSource { cs_URL : string; cs_Title : string; cs_Number : Z }.
Record CitationSpan := mkSpan {
  sp_Start : Z; sp_End : Z; sp_Sources : list CitationSource; sp_Unavailable : bool; sp_Incomplete : bool; sp_refs : list string }.

(** The fields of [TranscriptEntry] that the client sets. Times are instants in
    nanoseconds. *)
Record TranscriptEntry := mkEntry {
  te_Delivery : string; te_Questions : list AsyncQuestion; te_QuestionReplies : list AsyncQuestionReply; te_DisplayText : option string;
  te_TurnID : string; te_TurnStatus : string; te_ItemID : string; te_ClientUserMessageID : string; te_ClientUserMessageDigest : string;
  te_Kind : string; te_Summary : string; te_Text : string; te_Details : details;
  te_Timestamp : option Z; te_TimestampApproximate : bool; te_Activity : option TranscriptActivity;
  te_Citations : list CitationSpan; te_CitationsPending : bool }.

Definition entryOf (turnID turnStatus itemID kind : string) : TranscriptEntry :=
  mkEntry "" [] [] None turnID turnStatus itemID "" "" kind "" "" DNone None false None [] false.

Definition shown (summary text : string) (d : details) (e : TranscriptEntry) : TranscriptEntry :=
  mkEntry (te_Delivery e) (te_Questions e) (te_QuestionReplies e) (te_DisplayText e) (te_TurnID e) (te_TurnStatus e) (te_ItemID e)
    (te_ClientUserMessageID e) (te_ClientUserMessageDigest e) (te_Kind e) summary text d (te_Timestamp e) (te_TimestampApproximate e) (te_Activity e) (te_Citations e) (te_CitationsPending e).
Definition timed (at_ : option Z) (approximate : bool) (e : TranscriptEntry) : TranscriptEntry :=
  mkEntry (te_Delivery e) (te_Questions e) (te_QuestionReplies e) (te_DisplayText e) (te_TurnID e) (te_TurnStatus e) (te_ItemID e)
    (te_ClientUserMessageID e) (te_ClientUserMessageDigest e) (te_Kind e) (te_Summary e) (te_Text e) (te_Details e) at_ approximate (te_Activity e) (te_Citations e) (te_CitationsPending e).
Definition withStatus (status : string) (e : TranscriptEntry) : TranscriptEntry :=
  mkEntry (te_Delivery e) (te_Questions e) (te_QuestionReplies e) (te_DisplayText e) (te_TurnID e) status (te_ItemID e)
    (te_ClientUserMessageID e) (te_ClientUserMessageDigest e) (te_Kind e) (te_Summary e) (te_Text e) (te_Details e)
    (te_Timestamp e) (te_TimestampApproximate e) (te_Activity e) (te_Citations e) (te_CitationsPending e).

Definition blankText (s : string) : bool := is_empty (trimSpace s).

(** ** Questions *)

(** [json.Marshal([]any{"request_user_input_async", itemID, index})] *)
Definition questionID (itemID : string) (index : nat) : string :=
  jsonArray [jsonString "request_user_input_async"; jsonString itemID; jsonInt (Z.of_nat index)].

Definition questionOptions (v : any) : list string :=
  filter (fun label => len label ≤ 512 ∧ blankText label = false) (omap asString (take 32 (arrayOrNil v))).

Definition asyncQuestion (itemID : string) (index : nat) (raw : any) : option AsyncQuestion :=
  match asObject raw with
  | None => None
  | Some question =>
    match asString (field "title" question) with
    | Some title => if blankText title then None
                    else Some (mkQuestion (questionID itemID index) title (questionOptions (field "options" question)))
    | None => None
    end
  end.

Fixpoint questionsFrom (itemID : string) (index : nat) (l : list any) : list AsyncQuestion :=
  match l with
  | [] => []
  | raw :: l =>
    match asyncQuestion itemID index raw with
    | Some q => q :: questionsFrom itemID (S index) l
    | None => questionsFrom itemID (S index) l
    end
  end.

Definition asyncQuestions (itemID : string) (v : any) : list AsyncQuestion :=
  if is_empty itemID then [] else questionsFrom itemID 0 (arrayOrNil v).

(** [strings.Cut]: what follows the first [sep] *)
Definition cutAfter (s sep : string) : option string :=
  match String.index 0 sep s with
  | Some n => Some (substring (n + String.length sep) (String.length s) s)
  | None => None
  end.

(** [strings.TrimSuffix] *)
Definition trimSuffix (s p : string) : string :=
  if hasSuffix s p then substring 0 (String.length s - String.length p) s else s.

Definition replyStart : string := "<send_user_message_question_reply>".
Definition replyEnd : string := "</send_user_message_question_reply>".

(** [strings.ReplaceAll(s, "\n", "\n> ")] *)
Definition quoteLines (s : string) : string :=
  String.concat "" ((fun c => if Ascii.eqb c (char_of 10) then (newline ++ "> ")%string else String c "") <$> list_ascii_of_string s).

Definition asyncQuestionReplyText (replies : list AsyncQuestionReply) : string :=
  joinWith (newline ++ newline)
    ((fun r => ("> " ++ quoteLines (ar_Question r) ++ newline ++ newline ++ ar_Answer r)%string) <$> replies).

(** ** Times *)

Definition nanos (seconds : Z) : Z := seconds * 1000000000.

(** [startedAt, _ := turn["startedAt"].(float64)]: the number, zero when it is none. *)
Definition floatOrZero (v : any) : Z * Z := match v with ANum m e => (m, e) | _ => (0, 0) end.
Definition positive (f : Z * Z) : bool := 0 <? f.1.

Definition applyTurnTimestamps (turn : object) (entries : list TranscriptEntry) : list TranscriptEntry :=
  let startedAt := floatOrZero (field "startedAt" turn) in
  let completedAt := floatOrZero (field "completedAt" turn) in
  (fun entry =>
    let seconds := if negb (positive startedAt) then completedAt else startedAt in
    let seconds := if str_eqb (te_Kind entry) "error" && is_empty (te_ItemID entry) && positive completedAt then completedAt else seconds in
    match float_int seconds.1 seconds.2 with
    | Some s => if positive seconds then timed (Some (nanos s)) true entry else entry
    | None => entry
    end) <$> entries.

Section Transcript.
(** [url.Parse]: the scheme, the host name and whether there is user
    information; [time.Parse(time.RFC3339Nano, text)]; and [json.Unmarshal] into
    a list of objects, whose fields are the strings among their values. *)
Context (parseURL : string → option (string * string * bool)).
Context (parseTime : string → option Z).
Context (decodeReplies : string → option (list (list (string * option string)))).

(** ** Replies *)

Definition replyField (key : string) (value : list (string * option string)) : option string := mjoin (assoc key value).

Definition asyncReply (value : list (string * option string)) : option AsyncQuestionReply :=
  match replyField "questionItemId" value, replyField "question" value, replyField "answer" value with
  | Some id, Some question, Some answer => if is_empty id then None else Some (mkReply id question answer)
  | _, _, _ => None
  end.

Definition parseAsyncQuestionReplies (text : string) : list AsyncQuestionReply :=
  let text := trimSpace text in
  match (if hasPrefix text ("# Context from my IDE setup:" ++ newline)
         then trimSpace <$> cutAfter text (newline ++ "## My request for Codex:" ++ newline) else Some text) with
  | None => []
  | Some text =>
    if negb (hasPrefix text replyStart) || negb (hasSuffix text replyEnd) then [] else
    let body := trimSpace (trimSuffix (trimPrefix text replyStart) replyEnd) in
    let body := if hasPrefix body "{" then ("[" ++ body ++ "]")%string else body in
    match decodeReplies body with
    | None => []
    | Some raw => default [] (mapM asyncReply raw)
    end
  end.

(** ** Activities *)

Definition controlChars : list ascii := char_of <$> [0; 13; 10; 9].

Definition safeActivityURL (value : string) : bool :=
  match parseURL value with
  | None => false
  | Some (scheme, hostname, user) =>
    (str_eqb scheme "https" || str_eqb scheme "http") && negb (is_empty hostname) && negb user
    && negb (existsb (fun c => existsb (Ascii.eqb c) controlChars) (list_ascii_of_string value))
  end.

Definition linkLimit : nat := 50.

Definition addLink (links : list ActivityLink) (raw title : string) : list ActivityLink :=
  if (linkLimit <=? Datatypes.length links)%nat || negb (safeActivityURL raw) || str_in raw (al_URL <$> links) then links
  else links ++ [mkLink raw (if is_empty title then raw else title)].

Definition webSearch (item : object) (entry : TranscriptEntry) : TranscriptEntry * TranscriptActivity :=
  let action := objectOrNil (field "action" item) in
  let kind := stringValue (field "type" action) in
  let queries := stringValues (field "queries" action) in
  let query := if is_empty (stringValue (field "query" action)) then stringValue (field "query" item) else stringValue (field "query" action) in
  let queries := if bool_decide (queries = []) then (if is_empty query then [] else [query]) else queries in
  let links := foldl (fun links raw => let result := objectOrNil raw in
                        addLink links (stringValue (field "url" result)) (stringValue (field "title" result)))
                 (addLink [] (stringValue (field "url" action)) "") (arrayOrNil (field "results" item)) in
  let summary := if str_eqb kind "findInPage" then "Find in web page" else if str_eqb kind "openPage" then "Open web page" else "Web search" in
  (shown summary (if str_eqb kind "findInPage" then stringValue (field "pattern" action) else te_Text entry) (jsonDetails (AObj item)) entry,
   mkTranscriptActivity kind "" queries links [] "" "" "").

Definition agentLabels : list (string * string) :=
  [("spawnAgent", "Start agent"); ("sendInput", "Send agent input"); ("resumeAgent", "Resume agent");
   ("wait", "Wait for agents"); ("closeAgent", "Close agent"); ("sendMessage", "Message agent");
   ("followupTask", "Assign follow-up task"); ("interruptAgent", "Interrupt agent"); ("listAgents", "List agents")].

Definition textLe (a b : string) : Prop := String.leb a b = true.
#[export] Instance textLe_dec : RelDecision textLe.
Proof. intros a b. unfold textLe. apply _. Defined.

Fixpoint distinct (seen l : list string) : list string :=
  match l with
  | [] => []
  | id :: l => if is_empty id || str_in id seen then distinct seen l else id :: distinct (id :: seen) l
  end.

(** The agents, sorted and once each. *)
Definition agentIDs (ids : list string) (states : object) : list string :=
  distinct [] (merge_sort textLe (ids ++ filter (fun id => id ∉ ids) (states.*1))).

Definition collabAgent (item : object) (entry : TranscriptEntry) : TranscriptEntry * TranscriptActivity :=
  let action := stringValue (field "tool" item) in
  let states := objectOrNil (field "agentsStates" item) in
  let agent id := let state := objectOrNil (field id states) in
                  mkAgent id (stringValue (field "status" state)) (stringValue (field "message" state)) in
  (shown (default "Agent operation" (assoc action agentLabels)) (te_Text entry) (jsonDetails (AObj item)) entry,
   mkTranscriptActivity action (stringValue (field "status" item)) [] []
     (agent <$> agentIDs (stringValues (field "receiverThreadIds" item)) states) ""
     (stringValue (field "model" item)) (stringValue (field "reasoningEffort" item))).

Definition subAgent (item : object) (entry : TranscriptEntry) : TranscriptEntry * TranscriptActivity :=
  let action := stringValue (field "kind" item) in
  (shown ("Agent " ++ (if str_eqb action "interacted" then "updated" else action)) (te_Text entry) (jsonDetails (AObj item)) entry,
   mkTranscriptActivity action action [] [] [mkAgent (stringValue (field "agentThreadId" item)) action ""]
     (stringValue (field "agentPath" item)) "" "").

Definition normalizeTranscriptActivity (entry : TranscriptEntry) (item : object) : TranscriptEntry :=
  let '(e, activity) := if str_eqb (te_Kind entry) "webSearch" then webSearch item entry
                        else if str_eqb (te_Kind entry) "collabAgentToolCall" then collabAgent item entry else subAgent item entry in
  mkEntry (te_Delivery e) (te_Questions e) (te_QuestionReplies e) (te_DisplayText e) (te_TurnID e) (te_TurnStatus e) (te_ItemID e)
    (te_ClientUserMessageID e) (te_ClientUserMessageDigest e) (te_Kind e) (te_Summary e) (te_Text e) (te_Details e)
    (te_Timestamp e) (te_TimestampApproximate e) (Some activity) (te_Citations e) (te_CitationsPending e).

(** ** Items *)

Definition userMessage (item : object) (e : TranscriptEntry) : TranscriptEntry :=
  let text := textContent (field "content" item) in
  let replies := parseAsyncQuestionReplies text in
  mkEntry (te_Delivery e) [] replies (if bool_decide (replies = []) then None else Some (asyncQuestionReplyText replies))
    (te_TurnID e) (te_TurnStatus e) (te_ItemID e) (stringValue (field "clientId" item))
    (match userMessageText item with Ok canonicalText => queueTextDigest canonicalText | Err _ => "" end)
    (te_Kind e) (te_Summary e) text (te_Details e) (te_Timestamp e) (te_TimestampApproximate e) (te_Activity e) (te_Citations e) (te_CitationsPending e).

Definition agentMessage (item : object) (e : TranscriptEntry) : TranscriptEntry :=
  mkEntry (stringValue (field "delivery" item)) (asyncQuestions (te_ItemID e) (field "questions" item)) [] None
    (te_TurnID e) (te_TurnStatus e) (te_ItemID e) "" "" (te_Kind e) (te_Summary e) (stringValue (field "text" item))
    (te_Details e) (te_Timestamp e) (te_TimestampApproximate e) (te_Activity e) (te_Citations e) (te_CitationsPending e).

Definition commandExecution (item : object) (e : TranscriptEntry) : TranscriptEntry :=
  let output := stringValue (field "aggregatedOutput" item) in
  shown ("$ " ++ stringValue (field "command" item)) (te_Text e)
    (if is_empty output then jsonDetails (AObj [("status", field "status" item); ("exitCode", field "exitCode" item)]) else DText output) e.

Definition orElse (v w : any) : any := match v with ANull => w | _ => v end.

Definition mcpToolCall (item : object) (e : TranscriptEntry) : TranscriptEntry :=
  let server := stringValue (field "server" item) in
  let tool := stringValue (field "tool" item) in
  shown ("Tool · " ++ (if is_empty server then "MCP" else server) ++ "/" ++ (if is_empty tool then "call" else tool))%string (te_Text e)
    (jsonDetails (orElse (field "result" item) (orElse (field "error" item) (field "arguments" item)))) e.

Definition fileChange (item : object) (e : TranscriptEntry) : TranscriptEntry :=
  let status := statusValue (field "status" item) in
  shown ("File changes" ++ (if is_empty status then "" else (" · " ++ status)%string))%string (te_Text e) (jsonDetails (field "changes" item)) e.

Definition activityKinds : list string := ["webSearch"; "collabAgentToolCall"; "subAgentActivity"].

(** The entry of an item; a reasoning item without a summary has none. *)
Definition itemEntry (turnID turnStatus : string) (raw : any) : option TranscriptEntry :=
  match asObject raw with
  | None => Some (shown "Unknown Codex event" "" (jsonDetails raw) (entryOf turnID "" "" "unknown"))
  | Some item =>
    let kind := stringValue (field "type" item) in
    let entry := entryOf turnID turnStatus (stringValue (field "id" item)) kind in
    if str_eqb kind "userMessage" then Some (userMessage item entry)
    else if str_eqb kind "agentMessage" then Some (agentMessage item entry)
    else if str_eqb kind "commandExecution" then Some (commandExecution item entry)
    else if str_eqb kind "fileChange" then Some (fileChange item entry)
    else if str_eqb kind "mcpToolCall" then Some (mcpToolCall item entry)
    else if str_eqb kind "reasoning" then
      let text := joinWith newline (stringValues (field "summary" item)) in
      if blankText text then None else Some (shown "Reasoning summary" text DNone entry)
    else if str_eqb kind "plan" then Some (shown "Plan" (stringValue (field "text" item)) DNone entry)
    else if str_in kind activityKinds then Some (normalizeTranscriptActivity entry item)
    else
      let kind := if is_empty kind then "unknown" else kind in
      Some (shown ("Codex event · " ++ kind) "" (jsonDetails (AObj item)) (entryOf turnID turnStatus (stringValue (field "id" item)) kind))
  end.

Definition transcriptFailureEntry (turnID : string) (failure : any) : TranscriptEntry :=
  let entry := entryOf turnID "" "" "error" in
  let plain := shown "Turn failed" "" (jsonDetails failure) entry in
  match failure with
  | AObj object =>
    let message := trimSpace (stringValue (field "message" object)) in
    if is_empty message then plain
    else shown "Turn failed" message
           (if str_eqb (stringValue (field "codexErrorInfo" object)) "serverOverloaded" then DNone else jsonDetails failure) entry
  | AStr message => if blankText message then plain else shown "Turn failed" message DNone entry
  | _ => plain
  end.

Definition failedStatus (status : string) : bool := str_eqb status "failed" || str_eqb status "error".

(** What follows the items of a turn that failed. *)
Definition failureEntries (turn : object) : list TranscriptEntry :=
  let turnID := stringValue (field "id" turn) in
  match field "error" turn with
  | ANull => let status := statusValue (field "status" turn) in
             if failedStatus status then [shown ("Turn " ++ status) "" DNone (entryOf turnID "" "" "error")] else []
  | failure => [transcriptFailureEntry turnID failure]
  end.

Definition transcriptEntries (turn : object) : list TranscriptEntry :=
  applyTurnTimestamps turn
    (omap (itemEntry (stringValue (field "id" turn)) (statusValue (field "status" turn))) (arrayOrNil (field "items" turn))
     ++ failureEntries turn).

(** ** Times of items *)

Definition millis (ms : Z) : Z := ms * 1000000.

(** [itemTimestamps.timestamp], as an instant *)
Definition timestamp (t : itemTimestamps) : option Z :=
  if 0 <? it_startedAtMS t then Some (millis (it_startedAtMS t))
  else if 0 <? it_completedAtMS t then Some (millis (it_completedAtMS t))
  else parseTime (it_recordedAt t).

(** The observations of the latest turn of a watched thread. *)
Record liveTurnTimestamps := mkLive { lt_turnID : string; lt_items : gmap string itemTimestamps }.

(** A notification: its thread, turn and item, and the times it names. *)
Record itemEvent := mkItemEvent { ev_ThreadID : string; ev_TurnID : string; ev_ItemID : string; ev_StartedAtMS : Z; ev_CompletedAtMS : Z }.

Definition observeItemTimestamp (watched : gmap string Z) (method : string) (event : option itemEvent)
    (live : gmap string liveTurnTimestamps) : gmap string liveTurnTimestamps :=
  match event with
  | None => live
  | Some ev =>
    if is_empty (ev_TurnID ev) || is_empty (ev_ItemID ev) then live else
    if default 0 (watched !! ev_ThreadID ev) =? 0 then live else
    let fresh := mkLive (ev_TurnID ev) ∅ in
    let turn := match live !! ev_ThreadID ev with
                | Some turn => if str_eqb (lt_turnID turn) (ev_TurnID ev) then turn else fresh
                | None => fresh
                end in
    let timing := default zeroStamps (lt_items turn !! ev_ItemID ev) in
    let timing :=
      if str_eqb method "item/started" && (0 <? ev_StartedAtMS ev) then mkStamps (ev_StartedAtMS ev) (it_completedAtMS timing) (it_recordedAt timing)
      else if str_eqb method "item/completed" && (0 <? ev_CompletedAtMS ev) then mkStamps (it_startedAtMS timing) (ev_CompletedAtMS ev) (it_recordedAt timing)
      else timing in
    <[ev_ThreadID ev := mkLive (lt_turnID turn) (<[ev_ItemID ev := timing]> (lt_items turn))]> live
  end.

(** The time of one entry, and what stays observed. *)
Definition applyTimestamp (persisted : gmap itemKey itemTimestamps) (entry : TranscriptEntry) (live : option liveTurnTimestamps)
    : TranscriptEntry * option liveTurnTimestamps :=
  let saved := default zeroStamps (persisted !! (te_TurnID entry, te_ItemID entry)) in
  let '(timing, live) :=
    match live with
    | None => (saved, live)
    | Some turn =>
      if str_eqb (lt_turnID turn) (te_TurnID entry) then
        let observed := default zeroStamps (lt_items turn !! te_ItemID entry) in
        let timing := mkStamps (if it_startedAtMS saved <=? 0 then it_startedAtMS observed else it_startedAtMS saved)
                               (if it_completedAtMS saved <=? 0 then it_completedAtMS observed else it_completedAtMS saved) (it_recordedAt saved) in
        if bool_decide (timestamp saved ≠ None ∧ timestamp saved = timestamp timing)
        then (timing, Some (mkLive (lt_turnID turn) (delete (te_ItemID entry) (lt_items turn)))) else (timing, live)
      else (saved, live)
    end in
  (match timestamp timing with Some t => timed (Some t) false entry | None => entry end, live).

Fixpoint applyTimestamps (persisted : gmap itemKey itemTimestamps) (entries : list TranscriptEntry) (live : option liveTurnTimestamps)
    : list TranscriptEntry * option liveTurnTimestamps :=
  match entries with
  | [] => ([], live)
  | entry :: entries =>
    let '(entry, live) := applyTimestamp persisted entry live in
    let '(entries, live) := applyTimestamps persisted entries live in
    (entry :: entries, live)
  end.

Definition applyTranscriptTimestamps (threadID : string) (entries : list TranscriptEntry) (persisted : gmap itemKey itemTimestamps)
    (live : gmap string liveTurnTimestamps) : list TranscriptEntry * gmap string liveTurnTimestamps :=
  let '(entries, turn) := applyTimestamps persisted entries (live !! threadID) in
  (entries, match turn with Some turn => <[threadID := turn]> live | None => live end).

End Transcript.
