(* ===== verification/Citations.v ===== *)
(** * Citations

    [src/codex/citations.go]: the marks of a message that stand for sources, the
    sources that tool results name, and the Markdown that shows them. Offsets
    count bytes, as in the code. *)
From Stdlib Require Import Ascii String.
From S2P Require Import Prelude GoStd GoValue Wire Transcript.
Open Scope Z_scope.

Abbreviation text := (list ascii).
Definition textOf (s : string) : text := list_ascii_of_string s.
Definition ofText (t : text) : string := string_of_list_ascii t.

(** ** Bytes *)

(** [strings.HasPrefix(l, p)], [strings.Index(l, p)] and [l[a:b]] *)
Fixpoint startsWith (p l : text) : bool :=
  match p, l with
  | [], _ => true
  | _, [] => false
  | a :: p, b :: l => Ascii.eqb a b && startsWith p l
  end.
Fixpoint indexOf (p l : text) : option nat :=
  if startsWith p l then Some O else
  match l with
  | [] => None
  | _ :: l => S <$> indexOf p l
  end.
Definition slice (a b : nat) (l : text) : text := take (b - a) (drop a l).

(** [strings.Split] on a separator that is not empty: a cut for each round. *)
Fixpoint splitText (fuel : nat) (sep l : text) : list text :=
  match fuel with
  | O => [l]
  | S fuel =>
    match indexOf sep l with
    | None => [l]
    | Some n => take n l :: splitText fuel sep (drop (n + Datatypes.length sep) l)
    end
  end.

Definition containsAny (chars l : text) : bool := existsb (fun c => existsb (Ascii.eqb c) chars) l.

(** ["\ue200"], ["\ue201"] and ["\ue202"] in UTF-8 *)
Definition privateUse (n : Z) : text := char_of <$> [238; 136; 128 + n].
Definition mark : text := privateUse 0.
Definition citationOpen : text := mark ++ textOf "cite" ++ privateUse 2.
Definition citationClose : text := privateUse 1.
Definition refSeparator : text := privateUse 2.

(** ** Markdown *)

(** The nodes of a parsed document that matter: the lines of a block of code, the
    children of a span of code (the segments of those that are text), and
    any other node with its children. *)
Inductive mdNode :=
| MCodeBlock (lines : list (Z * Z))
| MCodeSpan (children : list (option (Z * Z)))
| MNode (children : list mdNode).

Fixpoint codeAreas (n : mdNode) : list (Z * Z) :=
  match n with
  | MCodeBlock lines => lines
  | MCodeSpan children => omap (fun c => c) children
  | MNode children => concat (map codeAreas children)
  end.

Definition inArea (start : nat) (area : Z * Z) : bool := (area.1 <=? Z.of_nat start) && (Z.of_nat start <? area.2).

Section Citations.
(** [url.Parse]: the scheme, the host name and whether there is user information,
    [String] of what it parsed, and the parser of Markdown. *)
Context (parseURL : string → option (string * string * bool)) (urlString : string → string) (parseMarkdown : string → mdNode).

(** ** Sources *)

Definition citationURL (value : string) : option string :=
  match parseURL value with
  | None => None
  | Some (scheme, hostname, user) =>
    if (8192 <? len value) || is_empty hostname || user || (negb (str_eqb scheme "https") && negb (str_eqb scheme "http"))
       || containsAny controlChars (textOf value) then None else Some (urlString value)
  end.

(** A destination that was printed parses again. *)
Definition hostnameOf (value : string) : string := match parseURL value with Some (_, hostname, _) => hostname | None => "" end.

Definition messageSource (raw : any) : option (string * CitationSource) :=
  let content := objectOrNil (field "content" (objectOrNil raw)) in
  if negb (str_eqb (stringValue (field "content_type" content)) "sonic_webpage") then None else
  let ref := stringValue (field "ref_id" content) in
  let title := stringValue (field "title" content) in
  match citationURL (stringValue (field "url" content)) with
  | None => None
  | Some destination =>
    if is_empty ref || (256 <? len ref) || (4096 <? len title) then None else
    Some (ref, mkSource destination (if is_empty title then hostnameOf destination else title) 0)
  end.

(** The last message of a reference counts. *)
Definition citationSources (value : any) : gmap string CitationSource :=
  let meta := objectOrNil (field "_meta" (objectOrNil value)) in
  foldl (fun result raw => match messageSource raw with Some (ref, source) => <[ref := source]> result | None => result end)
    ∅ (arrayOrNil (field "raw_messages" meta)).

(** The details of a tool call are the JSON of its result. *)
Definition entryCitationSources (entry : TranscriptEntry) : gmap string CitationSource :=
  if negb (str_eqb (te_Kind entry) "mcpToolCall") then ∅ else
  match te_Details entry with
  | DJson value => citationSources value
  | _ => ∅
  end.

(** ** Marks *)

Definition validRef (ref : text) : bool :=
  negb (bool_decide (ref = [])) && (Z.of_nat (Datatypes.length ref) <=? 256)
  && negb (containsAny (char_of <$> [32; 13; 10; 9]) ref).

Definition incompleteSpan (start : nat) (value : text) : CitationSpan :=
  mkSpan (Z.of_nat start) (Z.of_nat (Datatypes.length value)) [] false true [].

(** [value[start+len(citationOpen):end]], split *)
Definition refsOf (l : text) : list string := ofText <$> filter validRef (splitText (Datatypes.length l) refSeparator l).

(** The loop: every round goes past a mark. *)
Fixpoint tokensFrom (fuel : nat) (protected : list (Z * Z)) (value : text) (offset : nat) : list CitationSpan :=
  match fuel with
  | O => []
  | S fuel =>
    if (offset <? Datatypes.length value)%nat then
      match indexOf mark (drop offset value) with
      | None => []
      | Some relative =>
        let start := (offset + relative)%nat in
        let offset := (start + Datatypes.length mark)%nat in
        if existsb (inArea start) protected then tokensFrom fuel protected value offset else
        let rest := drop start value in
        if startsWith rest citationOpen then [incompleteSpan start value] else
        if negb (startsWith citationOpen rest) then tokensFrom fuel protected value offset else
        match indexOf citationClose (drop (Datatypes.length citationOpen) rest) with
        | None => [incompleteSpan start value]
        | Some n =>
          let finish := (n + (start + Datatypes.length citationOpen))%nat in
          let close := (finish + Datatypes.length citationClose)%nat in
          mkSpan (Z.of_nat start) (Z.of_nat close) [] false false (refsOf (slice (start + Datatypes.length citationOpen) finish value))
          :: tokensFrom fuel protected value close
        end
      end
    else []
  end.

Definition citationTokens (value : string) : list CitationSpan :=
  let t := textOf value in
  match indexOf mark t with
  | None => []
  | Some _ => tokensFrom (Datatypes.length t) (codeAreas (parseMarkdown value)) t 0
  end.

(** ** Numbers *)

Abbreviation sourceMap := (gmap string CitationSource).

(** The sources of a span: [seen] has the URLs of the span, [numbers] those of the
    message. The flag is [Unavailable]. *)
Fixpoint resolveRefs (sources : sourceMap) (refs : list string) (seen : list string) (numbers : gmap string Z)
    : list CitationSource * bool * gmap string Z :=
  match refs with
  | [] => ([], false, numbers)
  | ref :: refs =>
    match sources !! ref with
    | None => let '(found, _, numbers) := resolveRefs sources refs seen numbers in (found, true, numbers)
    | Some source =>
      if str_in (cs_URL source) seen then resolveRefs sources refs seen numbers else
      let numbers := if default 0 (numbers !! cs_URL source) =? 0 then <[cs_URL source := Z.of_nat (base.size numbers) + 1]> numbers else numbers in
      let source := mkSource (cs_URL source) (cs_Title source) (default 0 (numbers !! cs_URL source)) in
      let '(found, unavailable, numbers) := resolveRefs sources refs (cs_URL source :: seen) numbers in
      (source :: found, unavailable, numbers)
    end
  end.

Fixpoint resolveSpans (sources : sourceMap) (spans : list CitationSpan) (numbers : gmap string Z) : list CitationSpan :=
  match spans with
  | [] => []
  | span :: spans =>
    let '(found, unavailable, numbers) := resolveRefs sources (sp_refs span) [] numbers in
    mkSpan (sp_Start span) (sp_End span) (sp_Sources span ++ found)
      (sp_Unavailable span || unavailable || bool_decide (sp_refs span = [])) (sp_Incomplete span) (sp_refs span)
    :: resolveSpans sources spans numbers
  end.

Definition resolveCitationSpans (spans : list CitationSpan) (sources : sourceMap) : list CitationSpan := resolveSpans sources spans ∅.

(** ** Markdown of an entry *)

(** [strings.NewReplacer] of bytes by texts *)
Definition replaceBytes (pairs : list (Z * string)) (s : string) : string :=
  String.concat "" ((fun c => match list_find (fun p => p.1 = byte_of c) pairs with Some (_, (_, to)) => to | None => String c "" end) <$> textOf s).

Definition doubleQuote : string := String (char_of 34) "".
Definition backslash : string := String (char_of 92) "".

Definition linkDestination (destination : string) : string :=
  replaceBytes [(60, "%3C"); (62, "%3E"); (34, "%22"); (32, "%20")] destination.
Definition linkTitle (title : string) : string :=
  replaceBytes [(92, backslash ++ backslash); (34, backslash ++ doubleQuote); (10, " "); (13, " ")]%string title.

Definition sourceLink (source : CitationSource) : string :=
  match citationURL (cs_URL source) with
  | None => ""
  | Some destination =>
    if cs_Number source <? 1 then "" else
    ("[" ++ backslash ++ "[" ++ jsonInt (cs_Number source) ++ backslash ++ "]](<" ++ linkDestination destination ++ "> "
     ++ doubleQuote ++ linkTitle (cs_Title source) ++ doubleQuote ++ ")")%string
  end.

Definition activeStatus (status : string) : bool :=
  negb (str_eqb status "completed") && negb (str_eqb status "failed") && negb (str_eqb status "interrupted") && negb (str_eqb status "error").

(** A span that does not fit the text, or follows the last one shown, is left out. *)
Definition spanFits (value : text) (previous : Z) (span : CitationSpan) : bool :=
  negb ((sp_Start span <? previous) || (sp_End span <? sp_Start span) || (Z.of_nat (Datatypes.length value) <? sp_End span)
        || negb (validString (ofText (slice (Z.to_nat previous) (Z.to_nat (sp_Start span)) value)))
        || negb (validString (ofText (slice (Z.to_nat (sp_Start span)) (Z.to_nat (sp_End span)) value)))).

Definition spanText (active pending : bool) (span : CitationSpan) : string :=
  (String.concat "" (sourceLink <$> sp_Sources span) ++
   (if negb (sp_Incomplete span && active) && (sp_Unavailable span || bool_decide (sp_Sources span = []))
    then (if pending then "[source pending]" else "[source unavailable]") else ""))%string.

Fixpoint markdownFrom (active pending : bool) (value : text) (spans : list CitationSpan) (previous : Z) : string :=
  match spans with
  | [] => ofText (drop (Z.to_nat previous) value)
  | span :: spans =>
    if spanFits value previous span then
      (ofText (slice (Z.to_nat previous) (Z.to_nat (sp_Start span)) value) ++ spanText active pending span
       ++ markdownFrom active pending value spans (sp_End span))%string
    else markdownFrom active pending value spans previous
  end.

Definition CitationMarkdown (entry : TranscriptEntry) : string :=
  markdownFrom (activeStatus (te_TurnStatus entry)) (te_CitationsPending entry) (textOf (te_Text entry)) (te_Citations entry) 0.

End Citations.
