(* ===== verification/CitationHistory.v ===== *)
(** * Looking for sources

    [src/codex/citation_history.go]: references that the entries of a page do not
    name are looked for in the turns before the message, by at most two workers,
    eight requests at a time; what was found is cached by thread and message. A
    goroutine that was started is a job of the state; the objects that the code
    compares by address have a number. *)
From Stdlib Require Import Ascii String.
From S2P Require Import Prelude GoStd GoPath GoValue Wire History ActivityHistory RolloutFile PageMetadata PagedRequests Transcript Citations.
Open Scope Z_scope.

Abbreviation sourceMap := (gmap string CitationSource).

Record citationScan := mkScan {
  sc_sources : sourceMap; sc_turns : list string; sc_turnIndex : nat; sc_turnCursor : string; sc_itemCursor : string; sc_currentTurn : string;
  sc_started : bool; sc_targetFound : bool; sc_targetSeen : bool; sc_done : bool }.

Definition newScan (sources : sourceMap) : citationScan := mkScan sources [] 0 "" "" "" false false false false.

(** The zero [retry] is before any time. *)
Record citationLookup := mkLookup {
  lk_address : nat; lk_signature : string; lk_wanted : gset string; lk_scan : citationScan; lk_running : bool;
  lk_retry : option Z; lk_used : Z; lk_size : Z }.

Record citationThread := mkThread {
  ct_address : nat; ct_identity : string; ct_path : string; ct_generation : Z; ct_file : option fileInfo; ct_tail : bytes; ct_used : Z;
  ct_lookups : gmap itemKey citationLookup }.

(** [go c.enrichCitations(threadID, cache, key, lookup, state, request)] *)
Record citationJob := mkJob {
  cj_thread : string; cj_cache : nat; cj_key : itemKey; cj_lookup : nat; cj_wanted : gset string; cj_state : citationScan }.

Record citationState := mkCitations { cc_threads : gmap string citationThread; cc_jobs : list citationJob; cc_next : nat }.
Definition noCitations : citationState := mkCitations ∅ [] 0.

(** ** The scan *)

Definition scanLimit : Z := 32.
Definition cursorLimit : Z := 4096.

Definition setDone (st : citationScan) : citationScan :=
  mkScan (sc_sources st) (sc_turns st) (sc_turnIndex st) (sc_turnCursor st) (sc_itemCursor st) (sc_currentTurn st)
    (sc_started st) (sc_targetFound st) (sc_targetSeen st) true.
Definition nextTurn (st : citationScan) : citationScan :=
  mkScan (sc_sources st) (sc_turns st) (S (sc_turnIndex st)) (sc_turnCursor st) (sc_itemCursor st) (sc_currentTurn st)
    (sc_started st) (sc_targetFound st) (sc_targetSeen st) (sc_done st).
Definition enterTurn (target id : string) (st : citationScan) : citationScan :=
  mkScan (sc_sources st) (sc_turns st) (S (sc_turnIndex st)) (sc_turnCursor st) "" id
    (sc_started st) true (negb (str_eqb id target)) (sc_done st).
Definition setItems (sources : sourceMap) (seen : bool) (st : citationScan) : citationScan :=
  mkScan sources (sc_turns st) (sc_turnIndex st) (sc_turnCursor st) (sc_itemCursor st) (sc_currentTurn st)
    (sc_started st) (sc_targetFound st) seen (sc_done st).
Definition setItemCursor (current cursor : string) (st : citationScan) : citationScan :=
  mkScan (sc_sources st) (sc_turns st) (sc_turnIndex st) (sc_turnCursor st) cursor current
    (sc_started st) (sc_targetFound st) (sc_targetSeen st) (sc_done st).

Definition stuckCursor (next current : string) (entries : nat) : bool :=
  is_empty next || str_eqb next current || (cursorLimit <? len next) || (entries =? 0)%nat.

Definition citationTurnParams (threadID cursor : string) : object :=
  setText "cursor" cursor [("threadId", AStr threadID); ("limit", ANum scanLimit 0); ("sortDirection", AStr "desc"); ("itemsView", AStr "notLoaded")].
Definition citationItemParams (threadID turn cursor : string) : object :=
  setText "cursor" cursor [("threadId", AStr threadID); ("turnId", AStr turn); ("limit", ANum scanLimit 0); ("sortDirection", AStr "desc")].

(** A page of turns. *)
Definition commitCitationTurns (page : turnPage) (st : citationScan) : res err citationScan :=
  let '(data, next) := page in
  match data with
  | None => Err (EMsg "invalid citation turn page")
  | Some data =>
    if scanLimit <? Z.of_nat (Datatypes.length data) then Err (EMsg "invalid citation turn page") else
    if match next with Some next => stuckCursor next (sc_turnCursor st) (Datatypes.length data) | None => false end
    then Err (EMsg "citation turn cursor did not progress") else
    let ids := (fun turn : object => stringValue (field "id" turn)) <$> data in
    if existsb is_empty ids then Err (EMsg "invalid citation turn") else
    Ok (mkScan (sc_sources st) ids 0 (default "" next) (sc_itemCursor st) (sc_currentTurn st) true (sc_targetFound st) (sc_targetSeen st) (sc_done st))
  end.

Section CitationHistory.
Context (parseURL : string → option (string * string * bool)) (urlString : string → string) (parseMarkdown : string → mdNode).

Abbreviation citationSources := (citationSources parseURL urlString).

(** What is wanted of a tool call, and not known from a later one. *)
Definition addSources (wanted : gset string) (item : object) (sources : sourceMap) : sourceMap :=
  if negb (str_eqb (stringValue (field "type" item)) "mcpToolCall") then sources else
  sources ∪ filter (fun kv => kv.1 ∈ wanted) (citationSources (field "result" item)).

(** The entries of a page of items; those up to the message itself are passed over. *)
Fixpoint scanItems (target : itemKey) (wanted : gset string) (data : list threadItemEntry) (st : citationScan) : citationScan * option err :=
  match data with
  | [] => (st, None)
  | raw :: data =>
    let id := stringValue (itemField "id" raw) in
    if negb (str_eqb (ti_TurnID raw) (sc_currentTurn st)) || is_empty id then (st, Some (EMsg "citation item belongs to a different turn")) else
    if negb (sc_targetSeen st) then scanItems target wanted data (setItems (sc_sources st) (str_eqb id target.2) st)
    else scanItems target wanted data (setItems (addSources wanted (default [] (ti_Item raw)) (sc_sources st)) true st)
  end.

Definition commitCitationItems (target : itemKey) (wanted : gset string) (page : itemPage) (st : citationScan) : citationScan * option err :=
  let '(data, next) := page in
  match data with
  | None => (st, Some (EMsg "invalid citation item page"))
  | Some data =>
    if scanLimit <? Z.of_nat (Datatypes.length data) then (st, Some (EMsg "invalid citation item page")) else
    match scanItems target wanted data st with
    | (st, Some e) => (st, Some e)
    | (st, None) =>
      match next with
      | Some next =>
        if stuckCursor next (sc_itemCursor st) (Datatypes.length data) then (st, Some (EMsg "citation item cursor did not progress"))
        else (setItemCursor (sc_currentTurn st) next st, None)
      | None => if negb (sc_targetSeen st) then (setDone st, None) else (setItemCursor "" "" st, None)
      end
    end
  end.

Definition foundAll (wanted : gset string) (st : citationScan) : bool := (base.size (sc_sources st) =? base.size wanted)%nat.
Definition finishScan (wanted : gset string) (st : citationScan) : citationScan := if foundAll wanted st then setDone st else st.

Fixpoint scanCitationHistory (threadID : string) (target : itemKey) (wanted : gset string) (budget : nat) (c : ctx) (st : citationScan)
    : pageProg (citationScan * option err) :=
  match budget with
  | O => PRet (finishScan wanted st, None)
  | S budget =>
    if sc_done st then PRet (finishScan wanted st, None) else
    match ctxErr c with
    | None => PRet (st, Some ECanceled)
    | Some c =>
      if foundAll wanted st then PRet (setDone st, None) else
      let items (st : citationScan) :=
        PItems (citationItemParams threadID (sc_currentTurn st) (sc_itemCursor st)) (fun r =>
          match r with
          | Err e => PRet (st, Some e)
          | Ok page =>
            match commitCitationItems target wanted page st with
            | (st, Some e) => PRet (st, Some e)
            | (st, None) => scanCitationHistory threadID target wanted budget c st
            end
          end) in
      if negb (is_empty (sc_currentTurn st)) then items st else
      match sc_turns st !! sc_turnIndex st with
      | None =>
        if sc_started st && is_empty (sc_turnCursor st) then PRet (setDone st, None) else
        PTurns (citationTurnParams threadID (sc_turnCursor st)) (fun r =>
          match r with
          | Err e => PRet (st, Some e)
          | Ok page =>
            match commitCitationTurns page st with
            | Err e => PRet (st, Some e)
            | Ok st => scanCitationHistory threadID target wanted budget c st
            end
          end)
      | Some id =>
        if negb (sc_targetFound st) && negb (str_eqb id target.1) then scanCitationHistory threadID target wanted budget c (nextTurn st)
        else items (enterTurn target.1 id st)
      end
    end
  end.

(** ** The cache *)

Definition threadLimit : nat := 8.
Definition lookupLimit : nat := 128.
Definition scanBudget : nat := 8.

(** What the code sees around a lookup: the clock, a free worker, and the orders
    in which the rounds visit the maps. *)
Record lookEnv := mkLookEnv { le_now : Z; le_slot : bool; le_threads : list (list string); le_lookups : list (list itemKey) }.

Definition oldestThread (thread : string) (threads : gmap string citationThread) (iteration : list string) : string :=
  foldl (fun oldest id =>
    match threads !! id with
    | None => oldest
    | Some candidate =>
      if negb (str_eqb id thread) && (is_empty oldest || match threads !! oldest with Some o => ct_used candidate <? ct_used o | None => false end)
      then id else oldest
    end) "" iteration.

Fixpoint evictThreads (thread : string) (iterations : list (list string)) (threads : gmap string citationThread) : gmap string citationThread :=
  match iterations with
  | [] => threads
  | iteration :: iterations =>
    if (threadLimit <? base.size threads)%nat then evictThreads thread iterations (delete (oldestThread thread threads iteration) threads)
    else threads
  end.

Definition oldestLookup (key : itemKey) (lookups : gmap itemKey citationLookup) (iteration : list itemKey) : itemKey :=
  foldl (fun oldest k =>
    match lookups !! k with
    | None => oldest
    | Some candidate =>
      if negb (bool_decide (k = key))
         && (is_empty oldest.2 || match lookups !! oldest with Some o => lk_used candidate <? lk_used o | None => false end)
      then k else oldest
    end) ("", "") iteration.

Fixpoint evictLookups (key : itemKey) (iterations : list (list itemKey)) (lookups : gmap itemKey citationLookup) : gmap itemKey citationLookup :=
  match iterations with
  | [] => lookups
  | iteration :: iterations =>
    if (lookupLimit <? base.size lookups)%nat then evictLookups key iterations (delete (oldestLookup key lookups iteration) lookups)
    else lookups
  end.

(** The file a thread was last read from is there, appended to at most. *)
Definition changedThread (d : disk) (identity path : string) (generation : Z) (file : option fileInfo) (cache : citationThread) : bool :=
  negb (str_eqb (ct_identity cache) identity) || negb (str_eqb (ct_path cache) path) || negb (ct_generation cache =? generation)
  || match ct_file cache with
     | None => false
     | Some old =>
       match file with
       | None => true
       | Some f =>
         negb (sameFile old f) || (fi_size f <? fi_size old)
         || ((fi_size f =? fi_size old) && negb (fi_mtime f =? fi_mtime old))
         || ((fi_size old <? fi_size f) && negb (pageMetadataTailMatches d path old (fi_size old) (ct_tail cache)))
       end
     end.

Definition newThread (d : disk) (address : nat) (identity path : string) (generation : Z) (file : option fileInfo) : citationThread :=
  mkThread address identity path generation file
    (match file with Some f => match pageRolloutTail d path (fi_size f) with Ok tail => tail | Err _ => [] end | None => [] end) 0 ∅.

Definition useThread (now : Z) (lookups : gmap itemKey citationLookup) (t : citationThread) : citationThread :=
  mkThread (ct_address t) (ct_identity t) (ct_path t) (ct_generation t) (ct_file t) (ct_tail t) now lookups.

Definition signatureOf (wanted : gset string) : string := joinWith (String (char_of 0) "") (merge_sort textLe (elements wanted)).

Definition staleLookup (signature : string) (wanted : gset string) (size : Z) (l : citationLookup) : bool :=
  negb (str_eqb (lk_signature l) signature)
  || (sc_done (lk_scan l) && (base.size (sc_sources (lk_scan l)) <? base.size wanted)%nat && (lk_size l <? size)).

Definition setRunning (running : bool) (l : citationLookup) : citationLookup :=
  mkLookup (lk_address l) (lk_signature l) (lk_wanted l) (lk_scan l) running (lk_retry l) (lk_used l) (lk_size l).
Definition setUsed (now : Z) (l : citationLookup) : citationLookup :=
  mkLookup (lk_address l) (lk_signature l) (lk_wanted l) (lk_scan l) (lk_running l) (lk_retry l) now (lk_size l).

Definition lookupCitations (d : disk) (env : lookEnv) (threadID identity path : string) (generation : Z) (file : option fileInfo)
    (key : itemKey) (wanted : gset string) (s : citationState) : sourceMap * bool * citationState :=
  let now := le_now env in
  let signature := signatureOf wanted in
  let '(cache, next) :=
    match cc_threads s !! threadID with
    | Some cache => if changedThread d identity path generation file cache
                    then (newThread d (cc_next s) identity path generation file, S (cc_next s)) else (cache, cc_next s)
    | None => (newThread d (cc_next s) identity path generation file, S (cc_next s))
    end in
  let threads := evictThreads threadID (le_threads env) (<[threadID := useThread now (ct_lookups cache) cache]> (cc_threads s)) in
  let size := match file with Some f => fi_size f | None => 0 end in
  let fresh := mkLookup next signature wanted (newScan ∅) false None now size in
  let '(lookup, next) :=
    match ct_lookups cache !! key with
    | Some l => if staleLookup signature wanted size l then (fresh, S next) else (setUsed now l, next)
    | None => (fresh, S next)
    end in
  let start := negb (sc_done (lk_scan lookup)) && negb (lk_running lookup)
               && negb (match lk_retry lookup with Some t => now <? t | None => false end) && le_slot env in
  let lookup := if start then setRunning true lookup else lookup in
  let jobs := if start then mkJob threadID (ct_address cache) key (lk_address lookup) (lk_wanted lookup) (lk_scan lookup) :: cc_jobs s else cc_jobs s in
  let lookups := evictLookups key (le_lookups env) (<[key := lookup]> (ct_lookups cache)) in
  (sc_sources (lk_scan lookup), negb (sc_done (lk_scan lookup)),
   mkCitations (<[threadID := useThread now lookups cache]> threads) jobs next).

(** The end of a job: its outcome counts if its cache and its lookup are still there. *)
Definition finishLookup (now : Z) (result : citationScan * option err) (l : citationLookup) : citationLookup :=
  match result with
  | (st, Some _) => mkLookup (lk_address l) (lk_signature l) (lk_wanted l) (newScan (sc_sources st)) false (Some (now + 2 * second)) (lk_used l) (lk_size l)
  | (st, None) => mkLookup (lk_address l) (lk_signature l) (lk_wanted l) st false (lk_retry l) (lk_used l) (lk_size l)
  end.

Definition finishCitations (now : Z) (job : citationJob) (result : citationScan * option err) (threads : gmap string citationThread)
    : gmap string citationThread :=
  match threads !! cj_thread job with
  | None => threads
  | Some cache =>
    if negb (ct_address cache =? cj_cache job)%nat then threads else
    match ct_lookups cache !! cj_key job with
    | None => threads
    | Some l =>
      if negb (lk_address l =? cj_lookup job)%nat then threads else
      <[cj_thread job := useThread (ct_used cache) (<[cj_key job := finishLookup now result l]> (ct_lookups cache)) cache]> threads
    end
  end.

Definition enrichCitations (now : Z) (c : ctx) (index : nat) (s : citationState) : pageProg citationState :=
  match cc_jobs s !! index with
  | None => PRet s
  | Some job =>
    pbind (scanCitationHistory (cj_thread job) (cj_key job) (cj_wanted job) scanBudget c (cj_state job)) (fun result =>
      PRet (mkCitations (finishCitations now job result (cc_threads s)) (delete index (cc_jobs s)) (cc_next s)))
  end.

(** ** The entries of a page *)

Definition citedKinds : list string := ["agentMessage"; "reasoning"; "plan"].

Definition withCitations (spans : list CitationSpan) (pending : bool) (e : TranscriptEntry) : TranscriptEntry :=
  mkEntry (te_Delivery e) (te_Questions e) (te_QuestionReplies e) (te_DisplayText e) (te_TurnID e) (te_TurnStatus e) (te_ItemID e)
    (te_ClientUserMessageID e) (te_ClientUserMessageDigest e) (te_Kind e) (te_Summary e) (te_Text e) (te_Details e)
    (te_Timestamp e) (te_TimestampApproximate e) (te_Activity e) spans pending.

Definition wantedRefs (local : sourceMap) (spans : list CitationSpan) : gset string :=
  list_to_set (filter (fun ref => local !! ref = None) (concat (sp_refs <$> spans))).

(** [envs] has what each lookup sees, by the position of its entry. *)
Fixpoint presentCitations (d : disk) (envs : nat → lookEnv) (threadID identity path : string) (generation : Z) (file : option fileInfo)
    (entries : list TranscriptEntry) (local : sourceMap) (s : citationState) : list TranscriptEntry * citationState :=
  match entries with
  | [] => ([], s)
  | entry :: entries =>
    let local := entryCitationSources parseURL urlString entry ∪ local in
    let present := presentCitations d (fun n => envs (S n)) threadID identity path generation file entries local in
    if negb (str_in (te_Kind entry) citedKinds) then let '(entries, s) := present s in (entry :: entries, s) else
    let spans := citationTokens parseMarkdown (te_Text entry) in
    if bool_decide (spans = []) then let '(entries, s) := present s in (entry :: entries, s) else
    let wanted := wantedRefs local spans in
    if bool_decide (wanted = ∅) then
      let '(entries, s) := present s in
      (withCitations (resolveCitationSpans spans local) (te_CitationsPending entry) entry :: entries, s)
    else
      let '(found, pending, s) := lookupCitations d (envs 0%nat) threadID identity path generation file (te_TurnID entry, te_ItemID entry) wanted s in
      let '(entries, s) := present s in
      (withCitations (resolveCitationSpans spans (local ∪ found)) pending entry :: entries, s)
  end.

End CitationHistory.
