(* ===== verification/CitationFacts.v ===== *)
(** * Marks, numbers and links of citations

    The spans of a message are exactly its marks outside code, in order and apart
    ([citation_tokens_exact]); the sources of a message are numbered from one in the
    order in which they first appear ([citation_numbers]); and the link of a source reads
    back as its destination and its title ([citation_link_roundtrip]). *)
From Stdlib Require Import Ascii String.
From S2P Require Import Prelude GoStd GoValue Wire Transcript Citations.
Open Scope Z_scope.

(** ** Bytes *)

Lemma startsWith_iff p l : startsWith p l = true ↔ ∃ k, l = p ++ k.
Proof.
  revert l. induction p as [|a p IH]; intros l; simpl; [split; [by exists l|done]|].
  destruct l as [|b l]; [split; [done|by intros [? ?]]|]. rewrite andb_true_iff, Ascii.eqb_eq, IH. split.
  - intros [-> [k ->]]. by exists k.
  - intros [k E]. simplify_eq. eauto.
Qed.

Lemma startsWith_app p l : startsWith p (p ++ l) = true.
Proof. apply startsWith_iff. by exists l. Qed.

Lemma startsWith_length p l : startsWith p l = true → (Datatypes.length p ≤ Datatypes.length l)%nat.
Proof. intros [k ->]%startsWith_iff. rewrite length_app. lia. Qed.

Lemma startsWith_trans p q l : startsWith (p ++ q) l = true → startsWith p l = true.
Proof. intros [k ->]%startsWith_iff. rewrite <- app_assoc. apply startsWith_app. Qed.

Lemma indexOf_some p l n : indexOf p l = Some n →
  startsWith p (drop n l) = true ∧ (n + Datatypes.length p ≤ Datatypes.length l)%nat ∧ ∀ m, (m < n)%nat → startsWith p (drop m l) = false.
Proof.
  revert n. induction l as [|a l IH]; intros n; cbn [indexOf]; destruct (startsWith p _) eqn:E; try done; intros H; simplify_eq.
  - rewrite drop_0. split_and!; [done|by apply startsWith_length in E|lia].
  - rewrite drop_0. split_and!; [done|by apply startsWith_length in E|lia].
  - destruct (indexOf p l) as [k|] eqn:Hk; [|done]. simpl in H. simplify_eq. destruct (IH k eq_refl) as (H1 & H2 & H3).
    split_and!; [done|simpl; lia|]. intros [|m] Hm; [done|]. apply H3. lia.
Qed.

Lemma indexOf_none p l : indexOf p l = None → ∀ m, (m < Datatypes.length l)%nat → startsWith p (drop m l) = false.
Proof.
  induction l as [|a l IH]; cbn [indexOf]; destruct (startsWith p _) eqn:E; try done; intros H m Hm; [simpl in Hm; lia|].
  destruct (indexOf p l); [done|]. destruct m as [|m]; [done|]. simpl. apply IH; [done|]. simpl in Hm. lia.
Qed.

Lemma slice_drop a n (l : text) : slice a (n + a) l = take n (drop a l).
Proof. unfold slice. f_equal. lia. Qed.

(** ** Marks *)

(** A mark does not begin within another. *)
Lemma mark_apart l n : startsWith mark l = true → (0 < n < 3)%nat → startsWith mark (drop n l) = false.
Proof. intros [k ->]%startsWith_iff H. destruct n as [|[|[|n]]]; [lia|done|done|lia]. Qed.

Lemma open_mark l : startsWith citationOpen l = true → startsWith mark l = true.
Proof. apply startsWith_trans. Qed.

(** What a span is: it starts at a mark outside code; a complete one is an opening,
    references without a closing, and the first closing; an
    incomplete one has no closing and goes on to the end. *)
Definition isSpan (protected : list (Z * Z)) (t : text) (span : CitationSpan) : Prop :=
  ∃ start, sp_Start span = Z.of_nat start ∧ (start < Datatypes.length t)%nat ∧ startsWith mark (drop start t) = true ∧
    existsb (inArea start) protected = false ∧ sp_Sources span = [] ∧ sp_Unavailable span = false ∧
    ((sp_Incomplete span = true ∧ sp_End span = Z.of_nat (Datatypes.length t) ∧ sp_refs span = [] ∧
      (startsWith (drop start t) citationOpen = true ∨
       startsWith citationOpen (drop start t) = true ∧ indexOf citationClose (drop (start + Datatypes.length citationOpen) t) = None)) ∨
     (sp_Incomplete span = false ∧ ∃ body rest, drop start t = citationOpen ++ body ++ citationClose ++ rest ∧
      indexOf citationClose (body ++ citationClose ++ rest) = Some (Datatypes.length body) ∧
      sp_End span = Z.of_nat (start + Datatypes.length (citationOpen ++ body ++ citationClose)) ∧ sp_refs span = refsOf body)).

(** In order, apart, and within the text. *)
Fixpoint ordered (offset bound : Z) (spans : list CitationSpan) : Prop :=
  match spans with
  | [] => True
  | span :: spans => offset ≤ sp_Start span < sp_End span ∧ sp_End span ≤ bound ∧ ordered (sp_End span) bound spans
  end.

Lemma ordered_le a b bound spans : a ≤ b → ordered b bound spans → ordered a bound spans.
Proof. destruct spans; simpl; [done|]. intros ? (? & ? & ?). split_and!; [lia|lia|lia|done]. Qed.

Definition covers (p : nat) (span : CitationSpan) : Prop := sp_Start span ≤ Z.of_nat p < sp_End span.

Definition tokensOk (protected : list (Z * Z)) (t : text) (offset : nat) (spans : list CitationSpan) : Prop :=
  ordered (Z.of_nat offset) (Z.of_nat (Datatypes.length t)) spans ∧ Forall (isSpan protected t) spans ∧
  ∀ p, (offset ≤ p)%nat → startsWith citationOpen (drop p t) = true → existsb (inArea p) protected = true ∨ Exists (covers p) spans.

Lemma tokensOk_skip protected t offset start spans :
  (offset ≤ start)%nat → (∀ m, (m < start - offset)%nat → startsWith mark (drop (offset + m) t) = false) → startsWith mark (drop start t) = true →
  existsb (inArea start) protected = true ∨ startsWith citationOpen (drop start t) = false →
  tokensOk protected t (start + 3) spans → tokensOk protected t offset spans.
Proof.
  intros Hle Hbefore Hmark Hskip (Ho & Hf & Hc). split_and!; [eapply ordered_le; [|done]; lia|done|]. intros p Hp Hopen.
  destruct (decide (p < start)%nat) as [Hlt|]; [apply open_mark in Hopen; specialize (Hbefore (p - offset)%nat ltac:(lia));
    replace (offset + (p - offset))%nat with p in Hbefore by lia; congruence|].
  destruct (decide (p = start)) as [->|]; [destruct Hskip; [by left|congruence]|].
  destruct (decide (p < start + 3)%nat) as [Hlt|]; [|apply Hc; [lia|done]].
  apply open_mark in Hopen. pose proof (mark_apart _ (p - start)%nat Hmark ltac:(lia)) as E. rewrite drop_drop in E.
  replace (start + (p - start))%nat with p in E by lia. congruence.
Qed.

Lemma tokensOk_cons protected t offset start finish span spans :
  (offset ≤ start < finish)%nat → (finish ≤ Datatypes.length t)%nat →
  (∀ m, (m < start - offset)%nat → startsWith mark (drop (offset + m) t) = false) →
  sp_Start span = Z.of_nat start → sp_End span = Z.of_nat finish → isSpan protected t span →
  tokensOk protected t finish spans → tokensOk protected t offset (span :: spans).
Proof.
  intros Hle Hfin Hbefore Hs He Hspan (Ho & Hf & Hc). split_and!; [simpl; rewrite Hs, He; split_and!; [lia|lia|lia|done]|by constructor|].
  intros p Hp Hopen. destruct (decide (p < start)%nat) as [Hlt|].
  { apply open_mark in Hopen. specialize (Hbefore (p - offset)%nat ltac:(lia)). replace (offset + (p - offset))%nat with p in Hbefore by lia. congruence. }
  destruct (decide (p < finish)%nat); [right; left; unfold covers; lia|]. destruct (Hc p ltac:(lia) Hopen); [by left|right; by right].
Qed.

Lemma tokensOk_nil protected t offset :
  (∀ p, (offset ≤ p)%nat → startsWith mark (drop p t) = false) → tokensOk protected t offset [].
Proof. intros H. split_and!; [done|done|]. intros p Hp Hopen%open_mark. specialize (H p Hp). congruence. Qed.

Lemma tokensOk_last protected t offset start :
  (offset ≤ start < Datatypes.length t)%nat →
  (∀ m, (m < start - offset)%nat → startsWith mark (drop (offset + m) t) = false) → startsWith mark (drop start t) = true →
  existsb (inArea start) protected = false →
  (startsWith (drop start t) citationOpen = true ∨
   startsWith citationOpen (drop start t) = true ∧ indexOf citationClose (drop (start + Datatypes.length citationOpen) t) = None) →
  tokensOk protected t offset [incompleteSpan start t].
Proof.
  intros Hle Hbefore Hmark Hp Hend. eapply (tokensOk_cons _ _ _ start (Datatypes.length t)); [lia|lia|done|done|done| |].
  - exists start. simpl. split_and!; [done|lia|done..|]. left. done.
  - apply tokensOk_nil. intros p Hge. by rewrite drop_ge by done.
Qed.

Lemma tokensFrom_ok protected t fuel offset :
  (Datatypes.length t - offset ≤ fuel)%nat → tokensOk protected t offset (tokensFrom fuel protected t offset).
Proof.
  revert offset. induction fuel as [|fuel IH]; intros offset Hfuel; cbn [tokensFrom].
  { apply tokensOk_nil. intros p Hp. by rewrite drop_ge by lia. }
  destruct (offset <? _)%nat eqn:Hoff; [apply Nat.ltb_lt in Hoff|apply Nat.ltb_ge in Hoff; apply tokensOk_nil; intros p Hp; by rewrite drop_ge by lia].
  destruct (indexOf mark (drop offset t)) as [r|] eqn:Hidx.
  2:{ apply tokensOk_nil. intros p Hp. destruct (decide (p < Datatypes.length t)%nat); [|by rewrite drop_ge by lia].
      pose proof (indexOf_none _ _ Hidx (p - offset)%nat) as H. rewrite drop_drop, length_drop in H.
      replace (offset + (p - offset))%nat with p in H by lia. apply H. lia. }
  apply indexOf_some in Hidx as (Hmark & Hlen & Hbefore). rewrite drop_drop in Hmark. rewrite length_drop in Hlen. change (Datatypes.length mark) with 3%nat in *.
  set (start := (offset + r)%nat) in *.
  assert (∀ m, (m < start - offset)%nat → startsWith mark (drop (offset + m) t) = false) as Hb.
  { intros m Hm. rewrite <- drop_drop. apply Hbefore. lia. }
  cbv zeta. destruct (existsb (inArea start) protected) eqn:Hprot.
  { apply (tokensOk_skip _ _ _ start); [lia|done|done|by left|]. apply IH. lia. }
  destruct (startsWith (drop start t) citationOpen) eqn:Hpart.
  { apply tokensOk_last; [lia|done|done|done|by left]. }
  destruct (startsWith citationOpen (drop start t)) eqn:Hopen; cbn [negb].
  2:{ apply (tokensOk_skip _ _ _ start); [lia|done|done|by right|]. apply IH. lia. }
  rewrite drop_drop. destruct (indexOf citationClose _) as [n|] eqn:Hclose.
  2:{ apply tokensOk_last; [lia|done|done|done|by right]. }
  pose proof Hclose as (Hcl & Hcn & _)%indexOf_some. rewrite drop_drop in Hcl. rewrite length_drop in Hcn.
  change (Datatypes.length citationOpen) with 10%nat in *. change (Datatypes.length citationClose) with 3%nat in *.
  set (close := (n + (start + 10) + 3)%nat). eapply (tokensOk_cons _ _ _ start close); [lia|lia|done|done|done| |apply IH; lia].
  apply startsWith_iff in Hopen as [k Hk]. apply startsWith_iff in Hcl as [rest Hrest].
  assert (drop (start + 10) t = k) as Hk' by (rewrite <- drop_drop, Hk; done).
  assert (k = take n k ++ citationClose ++ rest) as Hsplit.
  { rewrite <- Hrest. rewrite <- drop_drop, Hk'. by rewrite take_drop. }
  assert (Datatypes.length (take n k) = n) as Hn.
  { rewrite length_take, <- Hk', length_drop. lia. }
  exists start. cbn [sp_Start sp_End sp_Sources sp_Unavailable sp_Incomplete sp_refs]. split_and!; [done|lia|done|done|done|done|]. right. split; [done|].
  exists (take n k), rest. rewrite <- Hsplit. split_and!; [done|by rewrite <- Hk', Hclose, Hk', Hn| |].
  - rewrite !length_app, Hn. change (Datatypes.length citationOpen) with 10%nat. change (Datatypes.length citationClose) with 3%nat. unfold close. lia.
  - by rewrite slice_drop, Hk'.
Qed.

(** C37. The spans of a message are in order, apart and within it; each is a mark outside
    code, complete or cut off, and every complete opening outside code lies
    in a span. *)
Theorem citation_tokens_exact parseMarkdown value :
  tokensOk (codeAreas (parseMarkdown value)) (textOf value) 0 (citationTokens parseMarkdown value).
Proof.
  unfold citationTokens. destruct (indexOf mark (textOf value)) eqn:H; [apply tokensFrom_ok; lia|].
  apply tokensOk_nil. intros p _. destruct (decide (p < Datatypes.length (textOf value))%nat); [|by rewrite drop_ge by lia]. by apply indexOf_none.
Qed.

(** ** Numbers *)

(** The order in which URLs first appear. *)
Definition appear (order : list string) (url : string) : list string := if str_in url order then order else order ++ [url].
Definition appearance (order urls : list string) : list string := foldl appear order urls.

Definition numberedBy (order : list string) (numbers : gmap string Z) : Prop :=
  NoDup order ∧ base.size numbers = Datatypes.length order ∧
  ∀ url n, numbers !! url = Some n ↔ 1 ≤ n ∧ order !! Z.to_nat (n - 1) = Some url.

(** The number of a source is its place in the order. *)
Definition wellNumbered (order : list string) (s : CitationSource) : Prop :=
  1 ≤ cs_Number s ∧ order !! Z.to_nat (cs_Number s - 1) = Some (cs_URL s).

Lemma appearance_prefix order urls : order `prefix_of` appearance order urls.
Proof.
  revert order. induction urls as [|u urls IH]; intros order; [done|]. simpl. etrans; [|apply IH]. unfold appear. destruct (str_in _ _); [done|].
  by eexists.
Qed.

Lemma wellNumbered_later order urls s : wellNumbered order s → wellNumbered (appearance order urls) s.
Proof. intros [H1 H2]. split; [done|]. destruct (appearance_prefix order urls) as [k ->]. by apply lookup_app_l_Some. Qed.

Lemma numberedBy_known order numbers url : numberedBy order numbers → (default 0 (numbers !! url) =? 0) = negb (str_in url order).
Proof.
  intros (_ & _ & H). unfold str_in. destruct (numbers !! url) as [n|] eqn:E; simpl.
  - apply H in E as [H1 H2]. rewrite bool_decide_eq_true_2 by (by eapply list_elem_of_lookup_2). apply Z.eqb_neq. lia.
  - rewrite bool_decide_eq_false_2; [done|]. intros [k Hk]%list_elem_of_lookup.
    assert (numbers !! url = Some (Z.of_nat k + 1)) as E'; [|congruence]. apply H. split; [lia|]. by replace (Z.to_nat _) with k by lia.
Qed.

Lemma numberedBy_new order numbers url :
  numberedBy order numbers → url ∉ order → numberedBy (order ++ [url]) (<[url := Z.of_nat (base.size numbers) + 1]> numbers).
Proof.
  intros (Hnd & Hsize & H) Hnew. assert (numbers !! url = None) as Hnone.
  { destruct (numbers !! url) as [n|] eqn:E; [|done]. apply H in E as [_ E]. destruct Hnew. by eapply list_elem_of_lookup_2. }
  split_and!.
  - apply NoDup_app. split_and!; [done| |apply NoDup_singleton]. intros x Hx ->%list_elem_of_singleton. done.
  - rewrite map_size_insert_None, length_app by done. simpl. lia.
  - intros u n. rewrite Hsize. destruct (decide (u = url)) as [->|Hne].
    + rewrite lookup_insert_eq. split; [intros; simplify_eq; split; [lia|]; rewrite lookup_app_r by lia; replace (Z.to_nat (Z.of_nat (Datatypes.length order) + 1 - 1) - Datatypes.length order)%nat with 0%nat by lia; done|].
      intros [H1 [H2|[H2 H3]]%lookup_app_Some]; [destruct Hnew; by eapply list_elem_of_lookup_2|].
      apply list_lookup_singleton_Some in H3 as [H3 _]. f_equal. lia.
    + rewrite lookup_insert_ne by done. rewrite H. split; intros [H1 H2]; (split; [done|]); [by apply lookup_app_l_Some|].
      apply lookup_app_Some in H2 as [H2|[_ H2]]; [done|]. apply list_lookup_singleton_Some in H2 as [_ H2]. done.
Qed.

(** The number of a source that is shown, new or not. *)
Lemma number_source order numbers url :
  numberedBy order numbers →
  let numbers' := if default 0 (numbers !! url) =? 0 then <[url := Z.of_nat (base.size numbers) + 1]> numbers else numbers in
  numberedBy (appear order url) numbers' ∧ 1 ≤ default 0 (numbers' !! url) ∧
  appear order url !! Z.to_nat (default 0 (numbers' !! url) - 1) = Some url.
Proof.
  intros Hn. cbv zeta. rewrite (numberedBy_known _ _ _ Hn). unfold appear, str_in.
  set (numbers' := if negb (bool_decide (url ∈ order)) then <[url := Z.of_nat (base.size numbers) + 1]> numbers else numbers).
  assert (numberedBy (if bool_decide (url ∈ order) then order else order ++ [url]) numbers' ∧ is_Some (numbers' !! url)) as [Hn' [n E]].
  { unfold numbers'. case_bool_decide as Hin; simpl.
    - split; [done|]. pose proof (numberedBy_known _ _ url Hn) as Hk. unfold str_in in Hk. rewrite bool_decide_eq_true_2 in Hk by done.
      destruct (numbers !! url); [by eexists|done].
    - split; [by apply numberedBy_new|]. rewrite lookup_insert_eq. by eexists. }
  split; [done|]. rewrite E. simpl. by apply Hn'.
Qed.

Definition fromSources (sources : gmap string CitationSource) (s : CitationSource) : Prop :=
  ∃ ref source, sources !! ref = Some source ∧ cs_URL s = cs_URL source ∧ cs_Title s = cs_Title source.

Definition missing (sources : gmap string CitationSource) (ref : string) : bool := bool_decide (sources !! ref = None).

Lemma resolveRefs_ok sources refs seen numbers order found unavailable numbers' :
  numberedBy order numbers → resolveRefs sources refs seen numbers = (found, unavailable, numbers') →
  let order' := appearance order (cs_URL <$> found) in
  numberedBy order' numbers' ∧ Forall (wellNumbered order') found ∧ NoDup (cs_URL <$> found) ∧ (∀ url, url ∈ seen → url ∉ cs_URL <$> found) ∧
  unavailable = existsb (missing sources) refs ∧ Forall (fromSources sources) found.
Proof.
  revert seen numbers order found unavailable numbers'. induction refs as [|ref refs IH]; intros seen numbers order found unavailable numbers' Hn H; simpl in H.
  { simplify_eq. simpl. split_and!; [done|done|constructor|intros ? ? ?%elem_of_nil; done|done|done]. }
  destruct (sources !! ref) as [source|] eqn:Hs.
  2:{ destruct (resolveRefs sources refs seen numbers) as [[found1 un1] numbers1] eqn:E. simplify_eq.
      destruct (IH _ _ _ _ _ _ Hn E) as (H1 & H2 & H3 & H4 & H5 & H6). cbv zeta. split_and!; [done|done|done|done| |done].
      simpl. unfold missing at 1. by rewrite Hs. }
  assert (missing sources ref = false) as Hmiss by (unfold missing; by rewrite Hs).
  destruct (str_in (cs_URL source) seen) eqn:Hseen.
  { destruct (IH _ _ _ _ _ _ Hn H) as (H1 & H2 & H3 & H4 & H5 & H6). cbv zeta. split_and!; [done|done|done|done|by rewrite H5; simpl; rewrite Hmiss|done]. }
  destruct (number_source _ _ (cs_URL source) Hn) as (Hn1 & Hpos & Hat). revert Hn1 Hpos Hat H.
  generalize (if default 0 (numbers !! cs_URL source) =? 0 then <[cs_URL source := Z.of_nat (base.size numbers) + 1]> numbers else numbers).
  intros numbers1 Hn1 Hpos Hat H. cbn [cs_URL] in H.
  destruct (resolveRefs sources refs _ numbers1) as [[found1 un1] numbers2] eqn:E. simplify_eq.
  destruct (IH _ _ _ _ _ _ Hn1 E) as (H1 & H2 & H3 & H4 & H5 & H6). cbv zeta. rewrite fmap_cons. cbn [cs_URL appearance foldl].
  unfold str_in in Hseen. apply bool_decide_eq_false_1 in Hseen.
  split_and!; [done| | | |by rewrite H5; simpl; rewrite Hmiss|].
  - constructor; [|done]. by apply (wellNumbered_later (appear order (cs_URL source))).
  - constructor; [|done]. apply H4. by left.
  - intros url Hin [->|Hin']%elem_of_cons; [done|]. by apply (H4 url); [right|].
  - constructor; [|done]. by exists ref, source.
Qed.

Definition shownSources (spans : list CitationSpan) : list CitationSource := concat (sp_Sources <$> spans).

(** What resolving a span leaves as it was, and what it tells. *)
Definition resolvedAs (sources : gmap string CitationSource) (span span' : CitationSpan) : Prop :=
  (sp_Start span', sp_End span', sp_Incomplete span', sp_refs span') = (sp_Start span, sp_End span, sp_Incomplete span, sp_refs span) ∧
  NoDup (cs_URL <$> sp_Sources span') ∧ Forall (fromSources sources) (sp_Sources span') ∧
  sp_Unavailable span' = bool_decide (sp_refs span = []) || existsb (missing sources) (sp_refs span).

Definition unresolved (span : CitationSpan) : Prop := sp_Sources span = [] ∧ sp_Unavailable span = false.

Lemma resolveSpans_ok sources spans numbers order :
  numberedBy order numbers → Forall unresolved spans →
  let resolved := resolveSpans sources spans numbers in
  Forall2 (resolvedAs sources) spans resolved ∧ NoDup (appearance order (cs_URL <$> shownSources resolved)) ∧
  Forall (wellNumbered (appearance order (cs_URL <$> shownSources resolved))) (shownSources resolved).
Proof.
  revert numbers order. induction spans as [|span spans IH]; intros numbers order Hn Hun; simpl; [split_and!; [done|apply Hn|done]|].
  apply Forall_cons in Hun as [[Hs Hu] Hun]. destruct (resolveRefs sources (sp_refs span) [] numbers) as [[found un] numbers'] eqn:E.
  destruct (resolveRefs_ok _ _ _ _ _ _ _ _ Hn E) as (H1 & H2 & H3 & _ & H5 & H6). destruct (IH _ _ H1 Hun) as (I1 & I2 & I3).
  unfold shownSources. rewrite fmap_cons. cbn [concat sp_Sources]. fold (shownSources (resolveSpans sources spans numbers')).
  rewrite Hs, Hu, fmap_app. unfold appearance in *. cbn [app orb]. rewrite foldl_app. split_and!; [|done|].
  - constructor; [|done]. split_and!; [done|done|done|]. cbn [sp_Unavailable]. by rewrite H5, orb_comm.
  - apply Forall_app. split; [|done]. eapply Forall_impl; [exact H2|]. intros s. apply wellNumbered_later.
Qed.

(** The sources of a message are numbered by the order in which their
    URLs first appear in it, from one on and without gaps, one number for each URL; a
    span shows no URL twice, only known sources, and is
    unavailable exactly when a reference of it is not known or it has none. *)
Theorem citation_numbers spans sources :
  Forall unresolved spans →
  let resolved := resolveCitationSpans spans sources in
  let order := appearance [] (cs_URL <$> shownSources resolved) in
  Forall2 (resolvedAs sources) spans resolved ∧ NoDup order ∧ Forall (wellNumbered order) (shownSources resolved).
Proof.
  apply resolveSpans_ok. split_and!; [constructor|by rewrite map_size_empty|]. intros url n. rewrite lookup_empty, lookup_nil. split; [done|by intros [_ ?]].
Qed.

(** ** Links *)

(** ASCII punctuation *)
Definition punctuation (b : Z) : bool := between 33 47 b || between 58 64 b || between 91 96 b || between 123 126 b.

(** How CommonMark reads the destination or the title of a link, to the byte that
    ends it: a backslash takes punctuation that follows as it is, and a banned
    byte ends the link. *)
Fixpoint readUntil (stop : Z) (banned : list Z) (escape : bool) (l : text) : option (text * text) :=
  match l with
  | [] => None
  | c :: l =>
    let keep := (fun p => (c :: p.1, p.2)) <$> readUntil stop banned false l in
    let plain :=
      if byte_of c =? stop then Some ([], l) else
      if bool_decide (byte_of c ∈ banned) then None else
      if byte_of c =? 92 then readUntil stop banned true l else keep in
    if escape then (if punctuation (byte_of c) then keep else (fun p => (char_of 92 :: p.1, p.2)) <$> plain) else plain
  end.

Definition expect (p l : text) : option text := if startsWith p l then Some (drop (Datatypes.length p) l) else None.

(** What follows the text of a link: a destination in angle brackets and a title. *)
Definition readLink (l : text) : option (text * text * text) :=
  match expect (textOf "](<") l with
  | None => None
  | Some l =>
    match readUntil 62 [60; 10; 13] false l with
    | None => None
    | Some (destination, l) =>
      match expect (textOf (" " ++ doubleQuote)) l with
      | None => None
      | Some l =>
        match readUntil 34 [10; 13] false l with
        | None => None
        | Some (title, l) => (fun rest => (destination, title, rest)) <$> expect (textOf ")") l
        end
      end
    end
  end.

Definition spaced (title : text) : text := (fun c => if bool_decide (byte_of c ∈ [10; 13]) then char_of 32 else c) <$> title.

Lemma textOf_app a b : textOf (a ++ b) = textOf a ++ textOf b.
Proof. unfold textOf. induction a as [|c a IH]; simpl; [done|]. by rewrite IH. Qed.

Lemma textOf_concat l : textOf (String.concat "" l) = concat (textOf <$> l).
Proof.
  induction l as [|a l IH]; [done|]. destruct l as [|b l]; [simpl; by rewrite app_nil_r|].
  change (String.concat "" (a :: b :: l)) with (a ++ "" ++ String.concat "" (b :: l))%string. rewrite !textOf_app, IH. done.
Qed.

Definition replaced (pairs : list (Z * string)) (c : ascii) : text :=
  textOf (match list_find (fun p => p.1 = byte_of c) pairs with Some (_, (_, to)) => to | None => String c "" end).

Lemma replaceBytes_text pairs s : textOf (replaceBytes pairs s) = concat (replaced pairs <$> textOf s).
Proof. unfold replaceBytes. rewrite textOf_concat, <- list_fmap_compose. done. Qed.

Abbreviation titlePairs := [(92, backslash ++ backslash); (34, backslash ++ doubleQuote); (10, " "); (13, " ")]%string.
Abbreviation destinationPairs := [(60, "%3C"); (62, "%3E"); (34, "%22"); (32, "%20")].

Lemma title_step c k :
  readUntil 34 [10; 13] false (replaced titlePairs c ++ k) =
  (fun p => ((if bool_decide (byte_of c ∈ [10; 13]) then char_of 32 else c) :: p.1, p.2)) <$> readUntil 34 [10; 13] false k.
Proof. destruct c as [[] [] [] [] [] [] [] []]; reflexivity. Qed.

Lemma title_read l rest :
  readUntil 34 [10; 13] false (concat (replaced titlePairs <$> l) ++ char_of 34 :: rest) = Some (spaced l, rest).
Proof.
  induction l as [|c l IH]; [done|]. rewrite fmap_cons. cbn [concat]. rewrite <- app_assoc, title_step, IH. done.
Qed.

(** Bytes that a destination cannot show: a backslash and the line ends. *)
Definition plainByte (c : ascii) : bool := negb (bool_decide (byte_of c ∈ [92; 10; 13])).

Definition literal (stop : Z) (banned : list Z) (c : ascii) : bool :=
  negb (byte_of c =? stop) && negb (bool_decide (byte_of c ∈ banned)) && negb (byte_of c =? 92).

Lemma literal_read stop banned l k :
  forallb (literal stop banned) l = true →
  readUntil stop banned false (l ++ k) = (fun p => (l ++ p.1, p.2)) <$> readUntil stop banned false k.
Proof.
  induction l as [|c l IH]; simpl; [by destruct (readUntil _ _ _ k) as [[]|]|]. intros [Hc Hl]%andb_true_iff. unfold literal in Hc.
  apply andb_true_iff in Hc as [[H1 H2]%andb_true_iff H3]. apply negb_true_iff in H1, H2, H3. rewrite H1, H2, H3, IH by done.
  by destruct (readUntil _ _ _ k) as [[]|].
Qed.

Lemma replaced_literal c : plainByte c = true → forallb (literal 62 [60; 10; 13]) (replaced destinationPairs c) = true.
Proof. destruct c as [[] [] [] [] [] [] [] []]; intros H; try discriminate H; reflexivity. Qed.

Lemma destination_step c k :
  plainByte c = true →
  readUntil 62 [60; 10; 13] false (replaced destinationPairs c ++ k) =
  (fun p => (replaced destinationPairs c ++ p.1, p.2)) <$> readUntil 62 [60; 10; 13] false k.
Proof. intros H. by apply literal_read, replaced_literal. Qed.

Lemma destination_read l rest :
  forallb plainByte l = true →
  readUntil 62 [60; 10; 13] false (concat (replaced destinationPairs <$> l) ++ char_of 62 :: rest) = Some (concat (replaced destinationPairs <$> l), rest).
Proof.
  induction l as [|c l IH]; [done|]. simpl forallb. intros [Hc Hl]%andb_true_iff. rewrite fmap_cons. cbn [concat].
  rewrite <- app_assoc, destination_step by done. rewrite IH by done. done.
Qed.

Lemma expect_app p l : expect p (p ++ l) = Some l.
Proof. unfold expect. rewrite startsWith_app. by rewrite drop_app_length. Qed.

(** The link of a source reads back: after the number in brackets come
    the destination with its brackets, quotes and spaces encoded, and the title as it is but for its line
    ends, whatever the title has in it, provided the destination has
    no backslash and no line end. *)
Theorem citation_link_roundtrip parseURL urlString source destination rest :
  citationURL parseURL urlString (cs_URL source) = Some destination → 1 ≤ cs_Number source → forallb plainByte (textOf destination) = true →
  ∃ link, textOf (sourceLink parseURL urlString source) = textOf ("[" ++ backslash ++ "[" ++ jsonInt (cs_Number source) ++ backslash ++ "]") ++ link ∧
    readLink (link ++ rest) = Some (textOf (linkDestination destination), spaced (textOf (cs_Title source)), rest).
Proof.
  intros Hu Hn Hplain. unfold sourceLink. rewrite Hu, (proj2 (Z.ltb_ge _ _)) by lia.
  exists (textOf ("](<" ++ linkDestination destination ++ "> " ++ doubleQuote ++ linkTitle (cs_Title source) ++ doubleQuote ++ ")")). split.
  - change "]](<"%string with ("]" ++ "](<")%string. rewrite !textOf_app, <- !app_assoc. done.
  - unfold readLink. rewrite !textOf_app, <- !app_assoc, expect_app. unfold linkDestination, linkTitle. rewrite !replaceBytes_text.
    change (textOf "> ") with (char_of 62 :: textOf " "). rewrite <- app_comm_cons, destination_read by done.
    rewrite app_assoc, expect_app. change (textOf doubleQuote) with [char_of 34]. cbn [app]. rewrite title_read. by rewrite expect_app.
Qed.

(** A query may end in a backslash, which [url.URL.String] leaves as it is: the link of
    such a source does not end where its destination does. *)
Definition demoParse (value : string) : option (string * string * bool) := Some ("https", "host.example", false).

Example citation_link_open :
  let source := mkSource ("https://host.example/?" ++ backslash) "Title" 1 in
  ∃ link, textOf (sourceLink demoParse (fun value => value) source) = textOf ("[" ++ backslash ++ "[1" ++ backslash ++ "]") ++ link ∧ readLink link = None.
Proof. eexists. split; [vm_compute; reflexivity|vm_compute; reflexivity]. Qed.

(** ** Instances *)

Definition demoMessage : string :=
  ofText (textOf "see " ++ citationOpen ++ textOf "turn0" ++ refSeparator ++ textOf "turn1" ++ citationClose ++ textOf " and "
          ++ citationOpen ++ textOf "turn1" ++ refSeparator ++ textOf "turn2" ++ citationClose).
Definition demoSpans : list CitationSpan := citationTokens (fun _ => MNode []) demoMessage.
Definition demoSources : gmap string CitationSource :=
  <["turn0" := mkSource "https://host.example/b" "B" 0]> {["turn1" := mkSource "https://host.example/a" "A" 0]}.

Lemma demo_unresolved : Forall unresolved demoSpans.
Proof. vm_compute. repeat constructor. Qed.

Lemma citation_numbers_witness :
  NoDup (appearance [] (cs_URL <$> shownSources (resolveCitationSpans demoSpans demoSources))) ∧
  cs_Number <$> shownSources (resolveCitationSpans demoSpans demoSources) = [1; 2; 2] ∧
  sp_Unavailable <$> resolveCitationSpans demoSpans demoSources = [false; true].
Proof.
  destruct (citation_numbers demoSpans demoSources demo_unresolved) as (_ & H & _).
  split; [exact H|]. split; vm_compute; reflexivity.
Defined.

Definition demoSource : CitationSource := mkSource "https://host.example/a b" "A (<title>) of Q" 3.

Lemma citation_link_roundtrip_witness :
  ∃ link, textOf (sourceLink demoParse (fun value => value) demoSource) =
            textOf ("[" ++ backslash ++ "[" ++ jsonInt (cs_Number demoSource) ++ backslash ++ "]") ++ link ∧
    readLink (link ++ textOf "!") = Some (textOf (linkDestination "https://host.example/a b"), spaced (textOf (cs_Title demoSource)), textOf "!").
Proof.
  exact (citation_link_roundtrip demoParse (fun value => value) demoSource "https://host.example/a b" (textOf "!")
    ltac:(vm_compute; reflexivity) ltac:(vm_compute; discriminate) ltac:(vm_compute; reflexivity)).
Defined.
