(* ===== verification/ThreadPage.v ===== *)
(** * Pages of a transcript

    [src/codex/thread_page.go]: a page is the next hundred items of a thread,
    newest first, read turn by turn; where it stopped is kept under a token that
    the next read brings back. A page is a program that asks App Server for the
    thread, for turns and for items ([pageProg]); the functions around it read
    the stored continuations and the rollout file. *)
From Stdlib Require Import Ascii String.
From S2P Require Import Prelude GoStd GoPath GoValue TurnOptions Wire History Continuation Activity ActivityHistory RolloutFile PageMetadata PagedRequests Transcript Citations CitationHistory.
Open Scope Z_scope.

Definition transcriptPageSize : Z := 100.
Definition pageCursorLimit : nat := 256.
Definition pageCursorBytes : Z := Z.shiftl 8 20.
Definition pageCursorIdle : Z := 30 * 60 * second.
Definition cursorLength : Z := 4096.

(** [turns] is [None] before turns were read. *)
Record pageContinuation := mkCont {
  pc_threadID : string; pc_cwd : string; pc_path : string; pc_identity : list any; pc_generation : Z;
  pc_file : option fileInfo; pc_tail : bytes;
  pc_turns : option (list object); pc_turnIndex : nat; pc_turnCursor : string; pc_itemCursor : string; pc_errorEmitted : bool;
  pc_lastItemID : string; pc_lastItemCursor : string; pc_lastTurnID : string; pc_lastTurnCursor : string;
  pc_latestTurnID : string; pc_volatileTurnID : string; pc_volatileTurnStatus : string; pc_lastUsed : Z; pc_bytes : Z }.

Definition newCont (threadID cwd path : string) (identity : list any) (generation : Z) (file : option fileInfo) : pageContinuation :=
  mkCont threadID cwd path identity generation file [] None 0 "" "" false "" "" "" "" "" "" "" 0 0.

(** The source of a continuation, and the rest of it. *)
Definition setSource (threadID cwd path : string) (identity : list any) (generation : Z) (file : option fileInfo) (s : pageContinuation)
    : pageContinuation :=
  mkCont threadID cwd path identity generation file (pc_tail s) (pc_turns s) (pc_turnIndex s) (pc_turnCursor s) (pc_itemCursor s)
    (pc_errorEmitted s) (pc_lastItemID s) (pc_lastItemCursor s) (pc_lastTurnID s) (pc_lastTurnCursor s)
    (pc_latestTurnID s) (pc_volatileTurnID s) (pc_volatileTurnStatus s) (pc_lastUsed s) (pc_bytes s).
Definition setTurns (turns : list object) (cursor latest volatile status : string) (s : pageContinuation) : pageContinuation :=
  mkCont (pc_threadID s) (pc_cwd s) (pc_path s) (pc_identity s) (pc_generation s) (pc_file s) (pc_tail s) (Some turns) 0 cursor (pc_itemCursor s)
    (pc_errorEmitted s) (pc_lastItemID s) (pc_lastItemCursor s) (pc_lastTurnID s) (pc_turnCursor s)
    latest volatile status (pc_lastUsed s) (pc_bytes s).
Definition setErrorEmitted (s : pageContinuation) : pageContinuation :=
  mkCont (pc_threadID s) (pc_cwd s) (pc_path s) (pc_identity s) (pc_generation s) (pc_file s) (pc_tail s) (pc_turns s) (pc_turnIndex s)
    (pc_turnCursor s) (pc_itemCursor s) true (pc_lastItemID s) (pc_lastItemCursor s) (pc_lastTurnID s) (pc_lastTurnCursor s)
    (pc_latestTurnID s) (pc_volatileTurnID s) (pc_volatileTurnStatus s) (pc_lastUsed s) (pc_bytes s).
Definition setItem (index : nat) (itemCursor lastItemID lastItemCursor lastTurnID : string) (emitted : bool) (s : pageContinuation)
    : pageContinuation :=
  mkCont (pc_threadID s) (pc_cwd s) (pc_path s) (pc_identity s) (pc_generation s) (pc_file s) (pc_tail s) (pc_turns s) index
    (pc_turnCursor s) itemCursor emitted lastItemID lastItemCursor lastTurnID (pc_lastTurnCursor s)
    (pc_latestTurnID s) (pc_volatileTurnID s) (pc_volatileTurnStatus s) (pc_lastUsed s) (pc_bytes s).
Definition setLatest (latest : string) (s : pageContinuation) : pageContinuation :=
  mkCont (pc_threadID s) (pc_cwd s) (pc_path s) (pc_identity s) (pc_generation s) (pc_file s) (pc_tail s) (pc_turns s) (pc_turnIndex s)
    (pc_turnCursor s) (pc_itemCursor s) (pc_errorEmitted s) (pc_lastItemID s) (pc_lastItemCursor s) (pc_lastTurnID s) (pc_lastTurnCursor s)
    latest (pc_volatileTurnID s) (pc_volatileTurnStatus s) (pc_lastUsed s) (pc_bytes s).
Definition setStored (tail : bytes) (bytes lastUsed : Z) (s : pageContinuation) : pageContinuation :=
  mkCont (pc_threadID s) (pc_cwd s) (pc_path s) (pc_identity s) (pc_generation s) (pc_file s) tail (pc_turns s) (pc_turnIndex s)
    (pc_turnCursor s) (pc_itemCursor s) (pc_errorEmitted s) (pc_lastItemID s) (pc_lastItemCursor s) (pc_lastTurnID s) (pc_lastTurnCursor s)
    (pc_latestTurnID s) (pc_volatileTurnID s) (pc_volatileTurnStatus s) lastUsed bytes.

(** ** Stored continuations *)

Definition cursorChar (c : ascii) : bool :=
  let b := byte_of c in between 65 90 b || between 97 122 b || between 48 57 b || (b =? 45) || (b =? 95).
Definition validPageCursor (token : string) : bool :=
  (len token =? 32) && forallb cursorChar (list_ascii_of_string token).

Abbreviation pageCursors := (gmap string pageContinuation).

Definition loadPageCursor (now : Z) (token threadID : string) (cursors : pageCursors) : res err pageContinuation * pageCursors :=
  if negb (validPageCursor token) then (Err (EMsg "transcript_cursor_invalid"), cursors) else
  match cursors !! token with
  | None => (Err (EMsg "transcript_cursor_expired"), cursors)
  | Some state =>
    if pageCursorIdle <? now - pc_lastUsed state then (Err (EMsg "transcript_cursor_expired"), delete token cursors) else
    if negb (str_eqb (pc_threadID state) threadID) then (Err (EMsg "transcript_reset_required"), cursors) else
    let state := setStored (pc_tail state) (pc_bytes state) now state in
    (Ok state, <[token := state]> cursors)
  end.

Definition totalBytes (cursors : pageCursors) : Z := map_fold (fun _ state n => pc_bytes state + n) 0 cursors.

(** The least recently used continuation, in the order of the iteration. *)
Definition oldestCursor (cursors : pageCursors) (iteration : list string) : option string :=
  fst <$> foldl (fun found key =>
    match cursors !! key with
    | None => found
    | Some entry =>
      match found with
      | Some (_, oldest) => if pc_lastUsed entry <? oldest then Some (key, pc_lastUsed entry) else found
      | None => Some (key, pc_lastUsed entry)
      end
    end) (None : option (string * Z)) iteration.

(** [iterations] are the orders in which the rounds visit the map: a round that
    finds no entry is the last. *)
Fixpoint evictCursors (iterations : list (list string)) (total : Z) (cursors : pageCursors) : pageCursors :=
  match iterations with
  | [] => cursors
  | iteration :: iterations =>
    if (pageCursorLimit <=? base.size cursors)%nat || (pageCursorBytes <? total) then
      match oldestCursor cursors iteration with
      | None => cursors
      | Some key =>
        evictCursors iterations (total - match cursors !! key with Some e => pc_bytes e | None => 0 end) (delete key cursors)
      end
    else cursors
  end.

(** [marshalled] is the length of the turns in JSON, [identity] that of the
    identity; [token] the random token or an error. *)
Definition savePageCursor (d : disk) (now : Z) (marshalled identity : Z) (token : res err string) (iterations : list (list string))
    (state : pageContinuation) (cursors : pageCursors) : res err string * pageCursors :=
  match (match pc_file state with Some f => pageRolloutTail d (pc_path state) (fi_size f) | None => Ok (pc_tail state) end) with
  | Err e => (Err e, cursors)
  | Ok tail =>
    let bytes := marshalled + len (pc_turnCursor state) + len (pc_itemCursor state) + identity + size tail + 512 in
    if pageCursorBytes <? bytes then (Err (EMsg "thread page continuation exceeds limit"), cursors) else
    match token with
    | Err e => (Err e, cursors)
    | Ok token =>
      let state := setStored tail bytes now state in
      let live := filter (fun kv => ¬ (pageCursorIdle < now - pc_lastUsed kv.2)) cursors in
      (Ok token, <[token := state]> (evictCursors iterations (bytes + totalBytes live) live))
    end
  end.

Section ThreadPage.
Context (sources : list string) (absent : string → bool).
Context (parseURL : string → option (string * string * bool)) (decodeReplies : string → option (list (list (string * option string)))).

Abbreviation transcriptEntries := (transcriptEntries parseURL decodeReplies).

Definition pageFailure (turn : object) : option TranscriptEntry :=
  match failureEntries turn with
  | entry :: _ =>
    match applyTurnTimestamps turn [withStatus (statusValue (field "status" turn)) entry] with
    | entry :: _ => Some entry
    | [] => None
    end
  | [] => None
  end.

Definition pageItem (turn : object) (item : object) : list TranscriptEntry :=
  withStatus (statusValue (field "status" turn)) <$>
  transcriptEntries [("id", field "id" turn); ("status", AStr "completed"); ("items", AArr [AObj item]);
                     ("startedAt", field "startedAt" turn); ("completedAt", field "completedAt" turn)].

Definition finalStatuses : list string := ["completed"; "failed"; "interrupted"; "error"].

(** The turns of a page, none of them twice. *)
Fixpoint pageTurns (last : string) (seen : list string) (data : list object) : res err (list object) :=
  match data with
  | [] => Ok []
  | raw :: data =>
    match pageTurn raw with
    | Err e => Err e
    | Ok turn =>
      let id := stringValue (field "id" turn) in
      if str_in id seen || str_eqb id last then Err (EMsg "thread/turns/list repeated turn") else
      match pageTurns last (id :: seen) data with
      | Err e => Err e
      | Ok turns => Ok (turn :: turns)
      end
    end
  end.

Definition badCursor (next current last : string) : bool :=
  is_empty next || str_eqb next current || str_eqb next last || (cursorLength <? len next).

(** A page of turns becomes the turns of the continuation. *)
Definition commitTurns (visited : Z) (page : turnPage) (s : pageContinuation) : res err pageContinuation :=
  let '(data, next) := page in
  match data with
  | None => Err (EMsg "thread/turns/list returned invalid page")
  | Some data =>
    if transcriptPageSize - visited <? Z.of_nat (Datatypes.length data) then Err (EMsg "thread/turns/list returned invalid page") else
    if bool_decide (data = [] ∧ next ≠ None) then Err (EMsg "thread/turns/list cursor did not progress") else
    if match next with Some next => badCursor next (pc_turnCursor s) (pc_lastTurnCursor s) | None => false end
    then Err (EMsg "thread/turns/list returned invalid cursor") else
    match pageTurns (pc_lastTurnID s) [] data with
    | Err e => Err e
    | Ok turns =>
      let '(latest, volatile, status) :=
        match turns with
        | turn :: _ =>
          if is_empty (pc_latestTurnID s) then
            let id := stringValue (field "id" turn) in
            let status := statusValue (field "status" turn) in
            if str_in status finalStatuses then (id, pc_volatileTurnID s, pc_volatileTurnStatus s) else (id, id, status)
          else (pc_latestTurnID s, pc_volatileTurnID s, pc_volatileTurnStatus s)
        | [] => (pc_latestTurnID s, pc_volatileTurnID s, pc_volatileTurnStatus s)
        end in
      Ok (setTurns turns (default "" next) latest volatile status s)
    end
  end.

(** A page as far as it is read: the continuation, the entries newest first, how
    many were used, and the keys of the items. *)
Record pageWalk := mkWalk { pw_state : pageContinuation; pw_entries : list TranscriptEntry; pw_used : Z; pw_seen : list string }.

Definition itemKeyText (turn id : string) : string := (turn ++ String (char_of 0) id)%string.

Fixpoint takeItems (turn : object) (index : nat) (data : list threadItemEntry) (last : string) (w : pageWalk) : res err (string * pageWalk) :=
  match data with
  | [] => Ok (last, w)
  | item :: data =>
    let id := stringValue (itemField "id" item) in
    let key := itemKeyText (ti_TurnID item) id in
    if negb (str_eqb (ti_TurnID item) (stringValue (field "id" turn))) || is_empty id || str_in key (pw_seen w)
       || ((index =? 0)%nat && str_eqb id last) then Err (EMsg "thread/items/list returned invalid or repeated item") else
    takeItems turn (S index) data id
      (mkWalk (pw_state w) (pw_entries w ++ pageItem turn (default [] (ti_Item item))) (pw_used w + 1) (key :: pw_seen w))
  end.

(** A page of items, and where the turn stands after it. *)
Definition commitItems (turn : object) (page : itemPage) (w : pageWalk) : res err pageWalk :=
  let '(data, next) := page in
  let s := pw_state w in
  match data with
  | None => Err (EMsg "thread/items/list returned invalid page")
  | Some data =>
    if transcriptPageSize - pw_used w <? Z.of_nat (Datatypes.length data) then Err (EMsg "thread/items/list returned invalid page") else
    if bool_decide (data = [] ∧ next ≠ None) then Err (EMsg "thread/items/list cursor did not progress") else
    match takeItems turn 0 data (pc_lastItemID s) w with
    | Err e => Err e
    | Ok (last, w) =>
      match next with
      | Some next =>
        if badCursor next (pc_itemCursor s) (pc_lastItemCursor s) then Err (EMsg "thread/items/list returned invalid cursor") else
        Ok (mkWalk (setItem (pc_turnIndex s) next last (pc_itemCursor s) (pc_lastTurnID s) (pc_errorEmitted s) s)
              (pw_entries w) (pw_used w) (pw_seen w))
      | None =>
        Ok (mkWalk (setItem (S (pc_turnIndex s)) "" "" "" (stringValue (field "id" turn)) false s)
              (pw_entries w) (pw_used w) (pw_seen w))
      end
    end
  end.

Definition pageTurnParams (threadID : string) (limit : Z) (cursor : string) : object :=
  setText "cursor" cursor [("threadId", AStr threadID); ("limit", ANum limit 0); ("sortDirection", AStr "desc"); ("itemsView", AStr "notLoaded")].
Definition pageItemParams (threadID : string) (turn : object) (limit : Z) (cursor : string) : object :=
  setText "cursor" cursor [("threadId", AStr threadID); ("turnId", field "id" turn); ("limit", ANum limit 0); ("sortDirection", AStr "desc")].

(** The failure of a turn comes before its items, once. *)
Definition emitFailure (turn : object) (w : pageWalk) : pageWalk :=
  if pc_errorEmitted (pw_state w) then w else
  match pageFailure turn with
  | Some entry => mkWalk (setErrorEmitted (pw_state w)) (pw_entries w ++ [entry]) (pw_used w + 1) (pw_seen w)
  | None => mkWalk (setErrorEmitted (pw_state w)) (pw_entries w) (pw_used w) (pw_seen w)
  end.

(** The loop: [visits] of the hundred remain. The flag tells a thread that
    has no rollout yet. *)
Fixpoint walkPage (first : bool) (thread : object) (threadID : string) (visits : nat) (w : pageWalk) : pageProg (res err (pageWalk * bool)) :=
  match visits with
  | O => PRet (Ok (w, false))
  | S visits =>
    if transcriptPageSize <=? pw_used w then PRet (Ok (w, false)) else
    let visit (w : pageWalk) :=
      match default [] (pc_turns (pw_state w)) !! pc_turnIndex (pw_state w) with
      | None => PRet (Ok (w, false))
      | Some turn =>
        let w := emitFailure turn w in
        if pw_used w =? transcriptPageSize then PRet (Ok (w, false)) else
        PItems (pageItemParams threadID turn (transcriptPageSize - pw_used w) (pc_itemCursor (pw_state w))) (fun r =>
          match r with
          | Err e => PRet (Err (EWrap "read Codex thread items" e))
          | Ok page =>
            match commitItems turn page w with
            | Err e => PRet (Err e)
            | Ok w => walkPage first thread threadID visits w
            end
          end)
      end in
    let s := pw_state w in
    if (pc_turnIndex s <? Datatypes.length (default [] (pc_turns s)))%nat then visit w else
    if bool_decide (is_Some (pc_turns s)) && is_empty (pc_turnCursor s) then PRet (Ok (w, false)) else
    let visited := transcriptPageSize - Z.of_nat (S visits) in
    PTurns (pageTurnParams threadID (transcriptPageSize - visited) (pc_turnCursor s)) (fun r =>
      match r with
      | Err e => if first && freshThreadMissingSourceRollout sources absent thread threadID e then PRet (Ok (w, true))
                 else PRet (Err (EWrap "read Codex thread turns" e))
      | Ok page =>
        match commitTurns visited page s with
        | Err e => PRet (Err e)
        | Ok s =>
          let w := mkWalk s (pw_entries w) (pw_used w) (pw_seen w) in
          if (Datatypes.length (default [] (pc_turns s)) =? 0)%nat then PRet (Ok (w, false)) else visit w
        end
      end)
  end.

Definition startWalk (s : pageContinuation) : pageWalk := mkWalk s [] 0 [].
Definition readItems (first : bool) (thread : object) (threadID : string) (s : pageContinuation) : pageProg (res err (pageWalk * bool)) :=
  walkPage first thread threadID 100 (startWalk s).

Definition hasOlder (s : pageContinuation) : bool :=
  negb (is_empty (pc_itemCursor s)) || (pc_turnIndex s <? Datatypes.length (default [] (pc_turns s)))%nat || negb (is_empty (pc_turnCursor s)).

(** ** The whole read *)

(** The file at a path, or an error and whether it is [os.ErrNotExist]. *)
Definition pageFile (d : disk) (path : string) : res (bool * err) (option fileInfo) :=
  if is_empty path then Ok None else
  if negb (canonicalPath path) then Err (false, EMsg "thread/read returned invalid rollout path") else
  match d_open d path with
  | None => Err (true, EMsg "file does not exist")
  | Some n => if fn_regular n then Ok (Some (stat n)) else Err (false, EMsg "thread rollout is not regular")
  end.

(** What a continuation was read from is still there, appended to at most. *)
Definition sameSource (d : disk) (s : pageContinuation) (cwd path : string) (identity : list any) (generation : Z)
    (file : res (bool * err) (option fileInfo)) : bool :=
  (pc_generation s =? generation) && str_eqb (pc_cwd s) cwd && str_eqb (pc_path s) path
  && sameValue (AArr (pc_identity s)) (AArr identity)
  && match file, pc_file s with
     | Ok (Some f), Some old =>
       sameFile old f && (fi_size old <=? fi_size f) && (negb (fi_size f =? fi_size old) || (fi_mtime f =? fi_mtime old))
       && match pageRolloutTail d path (fi_size old) with Ok tail => bool_decide (tail = pc_tail s) | Err _ => false end
     | _, _ => false
     end.

(** The latest turn is still the one the first page saw running. *)
Definition checkLatest (page : turnPage) (s : pageContinuation) : res err pageContinuation :=
  match page.1 with
  | None => Err (EMsg "thread/turns/list returned invalid latest turn")
  | Some [] => if is_empty (pc_volatileTurnID s) then Ok s else Err (EMsg "transcript_reset_required")
  | Some [raw] =>
    match pageTurn raw with
    | Err e => Err e
    | Ok current =>
      let s := setLatest (stringValue (field "id" current)) s in
      if negb (is_empty (pc_volatileTurnID s))
         && (negb (str_eqb (pc_latestTurnID s) (pc_volatileTurnID s))
             || negb (str_eqb (statusValue (field "status" current)) (pc_volatileTurnStatus s)))
      then Err (EMsg "transcript_reset_required") else Ok s
    end
  | Some _ => Err (EMsg "thread/turns/list returned invalid latest turn")
  end.

Record TranscriptPage := mkTranscriptPage {
  tp_ThreadID : string; tp_Status : string; tp_LatestTurnID : string; tp_Model : string; tp_ReasoningEffort : string;
  tp_CollaborationMode : string; tp_Entries : list TranscriptEntry; tp_OlderCursor : option string; tp_HasOlder : bool; tp_MetadataPending : bool }.

(** What a read finds around it: the files, the clock, the three readings of the
    generation, the random token, the orders of
    map iterations, a free slot, the mode in the cached settings, and what the
    lookups of citations see. *)
Record pageEnv := mkPageEnv {
  pe_disk : disk; pe_now : Z; pe_generation : Z; pe_generation2 : Z; pe_generation3 : Z;
  pe_token : res err string; pe_iterations : list (list string);
  pe_iteration : list string; pe_slot : bool; pe_settings : option string; pe_citations : nat → lookEnv }.

(** The state of the client that a read changes. *)
Record pageClient := mkPageClient { cl_cursors : pageCursors; cl_pages : pageState; cl_live : gmap string liveTurnTimestamps;
  cl_citations : citationState }.

(** [json.Marshal] of the identity of a thread, and how long that of its turns is. *)
Context (parseTime : string → option Z) (marshalIdentity : list any → string) (marshalTurns : list object → Z).
Context (urlString : string → string) (parseMarkdown : string → mdNode).

Definition entryKey (e : TranscriptEntry) : itemKey := (te_TurnID e, te_ItemID e).

(** From the items to the page. *)
Definition finishPage (env : pageEnv) (thread : object) (threadID path : string) (file : option fileInfo) (w : pageWalk) (cl : pageClient)
    : res err TranscriptPage * pageClient :=
  let s := pw_state w in
  if negb (pe_generation2 env =? pe_generation env) then (Err (EMsg "transcript_reset_required"), cl) else
  let entries := rev (pw_entries w) in
  let '(older, cursors) :=
    if hasOlder s then
      match savePageCursor (pe_disk env) (pe_now env) (marshalTurns (default [] (pc_turns s))) (len (marshalIdentity (pc_identity s))) (pe_token env) (pe_iterations env) s (cl_cursors cl) with
      | (Ok token, cursors) => (Ok (Some token), cursors)
      | (Err e, cursors) => (Err e, cursors)
      end
    else (Ok None, cl_cursors cl) in
  match older with
  | Err e => (Err e, mkPageClient cursors (cl_pages cl) (cl_live cl) (cl_citations cl))
  | Ok older =>
    let '(mode, times, pending, pages) :=
      pageMetadataSnapshot (pe_disk env) (pe_slot env) (pe_now env) (pe_iteration env) threadID path
        (marshalIdentity (pc_identity s)) (pe_generation env) file (entryKey <$> entries) (cl_pages cl) in
    let mode := match pe_settings env with Some m => if validPageMode m then m else mode | None => mode end in
    let '(entries, live) := applyTranscriptTimestamps parseTime threadID entries times (cl_live cl) in
    let '(entries, citations) :=
      presentCitations parseURL urlString parseMarkdown (pe_disk env) (pe_citations env) threadID (marshalIdentity (pc_identity s)) path
        (pe_generation env) file entries ∅ (cl_citations cl) in
    let cl := mkPageClient cursors pages live citations in
    if negb (pe_generation3 env =? pe_generation env) then (Err (EMsg "transcript_reset_required"), cl) else
    (Ok (mkTranscriptPage threadID (statusValue (field "status" thread)) (pc_latestTurnID s) (stringValue (field "model" thread))
           (stringValue (field "reasoningEffort" thread)) mode entries older (hasOlder s) (pending || is_empty mode)), cl)
  end.

(** The continuation a read goes on from, after the checks on the thread. *)
Definition sourceOf (env : pageEnv) (threadID cursor : string) (loaded : pageContinuation) (thread : object)
    : res err (pageContinuation * option fileInfo * option err) :=
  let path := stringValue (field "path" thread) in
  let cwd := stringValue (field "cwd" thread) in
  if is_empty path || is_empty cwd then Err (EMsg "thread/read returned invalid source identity") else
  let identity := pageIdentity thread in
  let found := pageFile (pe_disk env) path in
  match (match found with Err (false, e) => Some e | _ => None end) with
  | Some e => Err e
  | None =>
    let file := match found with Ok f => f | Err _ => None end in
    let fileErr := match found with Ok _ => None | Err (_, e) => Some e end in
    if negb (is_empty cursor) && negb (sameSource (pe_disk env) loaded cwd path identity (pe_generation env) found)
    then Err (EMsg "transcript_reset_required") else
    if is_empty (statusValue (field "status" thread)) then Err (EMsg "thread/read returned invalid status") else
    Ok (if is_empty cursor then newCont threadID cwd path identity (pe_generation env) file
        else setSource threadID cwd path identity (pe_generation env) file loaded, file, fileErr)
  end.

Definition latestParams (threadID : string) : object :=
  [("threadId", AStr threadID); ("limit", ANum 1 0); ("sortDirection", AStr "desc"); ("itemsView", AStr "notLoaded")].

(** The items and the rest of the page, from a checked source. *)
Definition readSource (env : pageEnv) (thread : object) (threadID cursor : string) (file : option fileInfo) (fileErr : option err)
    (cl : pageClient) (s : pageContinuation) : pageProg (res err TranscriptPage * pageClient) :=
  pbind (readItems (is_empty cursor) thread threadID s) (fun r =>
    PRet (match r with
          | Err e => (Err e, cl)
          | Ok (w, fresh) =>
            match (if fresh then None else fileErr) with
            | Some e => (Err e, cl)
            | None => finishPage env thread threadID (stringValue (field "path" thread)) file w cl
            end
          end)).

Definition readThreadPage (env : pageEnv) (threadID cursor : string) (cl : pageClient) : pageProg (res err TranscriptPage * pageClient) :=
  let '(loaded, cursors) :=
    if is_empty cursor then (Ok (newCont "" "" "" [] 0 None), cl_cursors cl) else loadPageCursor (pe_now env) cursor threadID (cl_cursors cl) in
  let cl := mkPageClient cursors (cl_pages cl) (cl_live cl) (cl_citations cl) in
  match loaded with
  | Err e => PRet (Err e, cl)
  | Ok loaded =>
    PThread [("threadId", AStr threadID); ("includeTurns", ABool false)] (fun r =>
      match r with
      | Err e => PRet (Err (EWrap "read Codex thread metadata" e), cl)
      | Ok None => PRet (Err (EMsg "thread/read returned the wrong thread"), cl)
      | Ok (Some thread) =>
        if negb (str_eqb (stringValue (field "id" thread)) threadID) then PRet (Err (EMsg "thread/read returned the wrong thread"), cl) else
        match sourceOf env threadID cursor loaded thread with
        | Err e => PRet (Err e, cl)
        | Ok (s, file, fileErr) =>
          if is_empty cursor then readSource env thread threadID cursor file fileErr cl s else
          PTurns (latestParams threadID) (fun r =>
            match r with
            | Err e => PRet (Err e, cl)
            | Ok page =>
              match checkLatest page s with
              | Err e => PRet (Err e, cl)
              | Ok s => readSource env thread threadID cursor file fileErr cl s
              end
            end)
        end
      end)
  end.

End ThreadPage.
