(* ===== verification/ThreadPageFacts.v ===== *)
(** * Pages show every item once

    Reading page after page from a thread that does not change, each page with the
    token of the one before, shows the failure and the items of every turn exactly
    once and in order, and comes to an end, however App Server cuts its answers:
    [thread_pages_complete]. Stored continuations stay within their limits:
    [page_cursors_bounded]. *)
From Stdlib Require Import Ascii String.
From S2P Require Import Prelude GoStd GoPath GoValue TurnOptions Wire History Continuation Activity ActivityHistory RolloutFile PageMetadata PagedRequests Transcript Citations CitationHistory ThreadPage.
Open Scope Z_scope.

(** ** Stored continuations *)

(** The part of a continuation that says where the pages stand. *)
Definition carried (s s' : pageContinuation) : Prop :=
  (pc_turns s', pc_turnIndex s', pc_turnCursor s', pc_itemCursor s', pc_errorEmitted s') =
    (pc_turns s, pc_turnIndex s, pc_turnCursor s, pc_itemCursor s, pc_errorEmitted s) ∧
  (pc_lastItemID s', pc_lastItemCursor s', pc_lastTurnID s', pc_lastTurnCursor s') =
    (pc_lastItemID s, pc_lastItemCursor s, pc_lastTurnID s, pc_lastTurnCursor s) ∧
  (pc_latestTurnID s', pc_volatileTurnID s', pc_volatileTurnStatus s') = (pc_latestTurnID s, pc_volatileTurnID s, pc_volatileTurnStatus s).

(** What a continuation was read from. *)
Definition sourceFields (s : pageContinuation) : string * string * string * list any * Z * option fileInfo :=
  (pc_threadID s, pc_cwd s, pc_path s, pc_identity s, pc_generation s, pc_file s).

Definition bytesOk (cursors : pageCursors) : Prop := map_Forall (fun _ s => 0 ≤ pc_bytes s) cursors.

Lemma totalBytes_delete key s cursors : cursors !! key = Some s → totalBytes cursors = pc_bytes s + totalBytes (delete key cursors).
Proof. intros H. refine (map_fold_delete_L (fun _ state n => pc_bytes state + n) 0 key s cursors _ H). intros. simpl in *. lia. Qed.

Lemma totalBytes_insert key s cursors : cursors !! key = None → totalBytes (<[key := s]> cursors) = pc_bytes s + totalBytes cursors.
Proof. intros H. refine (map_fold_insert_L (fun _ state n => pc_bytes state + n) 0 key s cursors _ H). intros. simpl in *. lia. Qed.

Lemma totalBytes_replace key s cursors : bytesOk cursors → totalBytes (<[key := s]> cursors) ≤ pc_bytes s + totalBytes cursors.
Proof.
  intros Hok. destruct (cursors !! key) as [old|] eqn:H.
  - rewrite <- insert_delete_eq, totalBytes_insert by apply lookup_delete_eq. rewrite (totalBytes_delete _ _ _ H). specialize (Hok _ _ H). simpl in Hok. lia.
  - rewrite totalBytes_insert by done. lia.
Qed.

Lemma oldestCursor_some cursors iteration :
  (∀ key, is_Some (cursors !! key) → key ∈ iteration) → cursors ≠ ∅ → ∃ key s, oldestCursor cursors iteration = Some key ∧ cursors !! key = Some s.
Proof.
  intros Hall Hne. unfold oldestCursor. set (f := fun found key => _).
  assert (∀ l found, (∀ p, found = Some p → is_Some (cursors !! p.1)) →
    (∀ p, foldl f found l = Some p → is_Some (cursors !! p.1)) ∧
    (is_Some found ∨ (∃ key, key ∈ l ∧ is_Some (cursors !! key)) → is_Some (foldl f found l))) as Hfold.
  { induction l as [|key l IH]; intros found Hf; simpl; [split; [done|]; intros [?|(? & []%elem_of_nil & _)]; done|].
    assert ((∀ p, f found key = Some p → is_Some (cursors !! p.1)) ∧ (is_Some found ∨ is_Some (cursors !! key) → is_Some (f found key))) as [H1 H2].
    { unfold f. destruct (cursors !! key) as [item|] eqn:Hi; [|split; [done|]; intros [?|[? ?]]; done].
      destruct found as [[o t]|]; [destruct (_ <? _)|]; (split; [intros p Hp; injection Hp as <-|by intros; eexists]); simpl;
        first [by rewrite Hi; eexists|by apply (Hf (o, t))]. }
    destruct (IH (f found key) H1) as [H3 H4]. split; [done|]. intros Hor. apply H4.
    destruct Hor as [?|(key' & [->|Hin]%elem_of_cons & Hs)]; [left; auto..|right; eauto]. }
  apply map_choose in Hne as (key & s & Hkey). destruct (Hfold iteration None ltac:(done)) as [H1 H2].
  destruct H2 as [p Hp]; [right; exists key; split; [apply Hall; eauto|eauto]|]. destruct (H1 _ Hp) as [s' Hs']. exists p.1, s'. by rewrite Hp.
Qed.

(** Enough rounds make room for a continuation of [bytes]. *)
Lemma evictCursors_room iterations bytes cursors :
  bytes ≤ pageCursorBytes → (base.size cursors < Datatypes.length iterations)%nat → bytesOk cursors →
  Forall (fun iteration => ∀ key, is_Some (cursors !! key) → key ∈ iteration) iterations →
  let kept := evictCursors iterations (bytes + totalBytes cursors) cursors in
  (base.size kept < pageCursorLimit)%nat ∧ bytes + totalBytes kept ≤ pageCursorBytes ∧ bytesOk kept.
Proof.
  revert cursors. induction iterations as [|iteration iterations IH]; intros cursors Hb Hn Hok Hall; cbn [evictCursors Datatypes.length] in *; [lia|].
  apply Forall_cons in Hall as [Hfirst Hall]. destruct (_ || _) eqn:Hfull.
  - destruct (decide (cursors = ∅)) as [->|Hne].
    { exfalso. rewrite map_size_empty in Hfull. unfold totalBytes in Hfull. rewrite map_fold_empty in Hfull.
      apply orb_true_iff in Hfull as [Hf|Hf]; [done|]. apply Z.ltb_lt in Hf. lia. }
    destruct (oldestCursor_some cursors iteration Hfirst Hne) as (key & s & -> & Hkey). rewrite Hkey.
    rewrite (totalBytes_delete _ _ _ Hkey). replace (bytes + _ - pc_bytes s) with (bytes + totalBytes (delete key cursors)) by lia.
    apply IH; [done| |by apply map_Forall_delete|].
    + rewrite map_size_delete_Some by eauto. assert (base.size cursors ≠ 0)%nat by (by rewrite map_size_ne_0_lookup; exists key; eauto). lia.
    + eapply Forall_impl; [exact Hall|]. intros it Hit key' [s' Hs']. apply lookup_delete_Some in Hs' as [_ Hs']. apply Hit. eauto.
  - apply orb_false_iff in Hfull as [H1 H2]. apply Nat.leb_gt in H1. apply Z.ltb_ge in H2. split_and!; [lia|lia|done].
Qed.

Lemma totalBytes_nonneg cursors : bytesOk cursors → 0 ≤ totalBytes cursors.
Proof.
  induction cursors as [|key s cursors Hkey IH] using map_ind; intros Hok; [done|].
  rewrite totalBytes_insert by done. apply map_Forall_insert in Hok as [Hs Hok]; [|done]. specialize (IH Hok). simpl in Hs. lia.
Qed.

Lemma savePageCursor_ok d now marshalled identity token iterations s cursors saved cursors' :
  savePageCursor d now marshalled identity token iterations s cursors = (Ok saved, cursors') →
  ∃ tail bytes, let live := filter (fun kv => ¬ (pageCursorIdle < now - pc_lastUsed kv.2)) cursors in
    bytes = marshalled + len (pc_turnCursor s) + len (pc_itemCursor s) + identity + RolloutFile.size tail + 512 ∧
    bytes ≤ pageCursorBytes ∧
    cursors' = <[saved := setStored tail bytes now s]> (evictCursors iterations (bytes + totalBytes live) live).
Proof.
  unfold savePageCursor. destruct (match pc_file s with Some _ => _ | None => _ end) as [tail|]; [|done]. cbv zeta.
  destruct (pageCursorBytes <? _) eqn:Hb; [done|]. apply Z.ltb_ge in Hb. destruct token as [token|]; [|done]. intros H. simplify_eq. eauto.
Qed.

(** A saved continuation leaves at most 256 of them, of eight mebibytes
    together, whatever order the map is visited in. *)
Theorem page_cursors_bounded d now marshalled identity token iterations s cursors saved cursors' :
  0 ≤ marshalled → 0 ≤ identity → bytesOk cursors → (base.size cursors < Datatypes.length iterations)%nat →
  Forall (fun iteration => ∀ key, is_Some (cursors !! key) → key ∈ iteration) iterations →
  savePageCursor d now marshalled identity token iterations s cursors = (Ok saved, cursors') →
  (base.size cursors' ≤ pageCursorLimit)%nat ∧ totalBytes cursors' ≤ pageCursorBytes ∧ bytesOk cursors' ∧ is_Some (cursors' !! saved).
Proof.
  intros Hm Hi Hok Hn Hall H. apply savePageCursor_ok in H as (tail & bytes & Hbytes & Hle & ->).
  set (live := filter _ _) in *. assert (live ⊆ cursors) as Hsub by apply map_filter_subseteq.
  destruct (evictCursors_room iterations bytes live) as (H1 & H2 & H3); [done| |intros key s' Hs'; apply (Hok key); by eapply lookup_weaken| |].
  { apply map_subseteq_size in Hsub. lia. }
  { eapply Forall_impl; [exact Hall|]. intros it Hit key [s' Hs']. apply Hit. exists s'. by eapply lookup_weaken. }
  set (kept := evictCursors _ _ _) in *.
  split_and!.
  - destruct (kept !! saved) eqn:E; [rewrite map_size_insert_Some by eauto|rewrite map_size_insert_None by done]; lia.
  - etrans; [by apply totalBytes_replace|]. simpl. lia.
  - apply map_Forall_insert_2; [|done]. simpl. unfold RolloutFile.size, len in Hbytes. lia.
  - rewrite lookup_insert_eq. by eexists.
Qed.

(** What a page saves, the next read of the same thread loads within half an hour:
    the token is answered with a continuation that stands where the page
    stopped, and reading it starts the half hour again. *)
Theorem page_cursor_roundtrip d now later marshalled identity iterations s cursors token saved cursors' :
  savePageCursor d now marshalled identity (Ok token) iterations s cursors = (Ok saved, cursors') →
  validPageCursor token = true → later - now ≤ pageCursorIdle →
  ∃ s' cursors'', loadPageCursor later saved (pc_threadID s) cursors' = (Ok s', cursors'') ∧ carried s s' ∧
    sourceFields s' = sourceFields s ∧
    (∀ f, pc_file s = Some f → pageRolloutTail d (pc_path s) (fi_size f) = Ok (pc_tail s')) ∧
    pc_lastUsed s' = later ∧ cursors'' !! saved = Some s'.
Proof.
  intros H Hv Hlate. assert (saved = token) as ->.
  { unfold savePageCursor in H. destruct (match pc_file s with Some _ => _ | None => _ end); [|done]. cbv zeta in H. destruct (_ <? _); [done|]. by simplify_eq. }
  assert (∀ f tail, pc_file s = Some f → cursors' !! token = Some (setStored tail (pc_bytes (default s (cursors' !! token))) now s) →
    pageRolloutTail d (pc_path s) (fi_size f) = Ok tail) as Htail.
  { intros f tail Hf. unfold savePageCursor in H. rewrite Hf in H. destruct (pageRolloutTail _ _ _) as [tail'|]; [|done]. cbv zeta in H.
    destruct (_ <? _); [done|]. simplify_eq. rewrite lookup_insert_eq. intros E. by injection E as <-. }
  apply savePageCursor_ok in H as (tail & bytes & _ & _ & ->). unfold loadPageCursor. rewrite Hv, lookup_insert_eq in *. simpl in *.
  rewrite (proj2 (Z.ltb_ge _ _)) by lia. rewrite str_eqb_refl. simpl. do 2 eexists.
  split_and!; [done|done|done|intros f Hf; by apply (Htail f tail Hf)|done|by rewrite lookup_insert_eq].
Qed.

(** ** A thread on App Server *)

(** The turns of a thread, newest first, each with its items, newest first; how
    many entries an answer has, by position and limit; and the cursors. *)
Record server := mkServer {
  sv_turns : list (object * list object);
  sv_takeTurns : nat → Z → nat; sv_takeItems : nat → nat → Z → nat;
  sv_cursor : nat → string; sv_position : string → nat }.

Section Server.
Context (sources : list string) (absent : string → bool) (thread : object) (threadID : string).
Context (parseURL : string → option (string * string * bool)) (decodeReplies : string → option (list (list (string * option string)))).
Context (sv : server).
Abbreviation T := (sv_turns sv).

Definition turnID (raw : object) : string := stringValue (field "id" raw).
Definition shellOf (raw : object) : object := match pageTurn raw with Ok shell => shell | Err _ => [] end.

Definition startOf (params : object) : nat :=
  let cursor := stringValue (field "cursor" params) in if is_empty cursor then 0%nat else sv_position sv cursor.

(** An answer of [take] entries from a position; a cursor when there are more. *)
Definition answer {A} (take_ : nat) (from : nat) (l : list A) : option (list A) * option string :=
  (Some (take take_ (drop from l)), if (from + take_ <? Datatypes.length l)%nat then Some (sv_cursor sv (from + take_)%nat) else None).

Definition serveTurns (params : object) : res err turnPage :=
  let from := startOf params in
  Ok (answer (sv_takeTurns sv from (integerValue (field "limit" params))) from (T.*1)).

Fixpoint turnNamed (id : string) (i : nat) (l : list (object * list object)) : option (nat * list object) :=
  match l with
  | [] => None
  | (raw, items) :: l => if str_eqb (turnID raw) id then Some (i, items) else turnNamed id (S i) l
  end.

Definition serveItems (params : object) : res err itemPage :=
  let id := stringValue (field "turnId" params) in
  match turnNamed id 0 T with
  | None => Err (EMsg "no such turn")
  | Some (i, items) =>
    let from := startOf params in
    Ok (answer (sv_takeItems sv i from (integerValue (field "limit" params))) from ((fun item => mkItemEntry id (Some item)) <$> items))
  end.

Fixpoint run {A} (m : pageProg A) : A :=
  match m with
  | PRet a => a
  | PThread _ k => run (k (Ok (Some thread)))
  | PTurns params k => run (k (serveTurns params))
  | PItems params k => run (k (serveItems params))
  end.

(** Turns and items are named apart, and the cursors of the thread tell their
    positions; an answer has an entry at least, and no more than were asked for. *)
Definition keysOf (turn : object * list object) : list string :=
  (fun item : object => itemKeyText (turnID turn.1) (stringValue (field "id" item))) <$> turn.2.

Record serverOk : Prop := {
  ok_turns : ∀ raw items, (raw, items) ∈ T → ∃ shell, pageTurn raw = Ok shell;
  ok_ids : NoDup (turnID <$> T.*1);
  ok_items : ∀ raw items item, (raw, items) ∈ T → item ∈ items → stringValue (field "id" item) ≠ "";
  ok_keys : NoDup (concat (keysOf <$> T));
  ok_cursors : ∀ n, (0 < n)%nat → (n < Datatypes.length T ∨ ∃ raw items, (raw, items) ∈ T ∧ n < Datatypes.length items)%nat →
    sv_cursor sv n ≠ "" ∧ len (sv_cursor sv n) ≤ cursorLength ∧ sv_position sv (sv_cursor sv n) = n;
  ok_takeTurns : ∀ from limit, 0 < limit → (0 < sv_takeTurns sv from limit)%nat ∧ Z.of_nat (sv_takeTurns sv from limit) ≤ limit;
  ok_takeItems : ∀ i from limit, 0 < limit → (0 < sv_takeItems sv i from limit)%nat ∧ Z.of_nat (sv_takeItems sv i from limit) ≤ limit }.

(** ** What is left to show *)

Abbreviation pageItem := (pageItem parseURL decodeReplies).

Definition itemEntries (raw : object) (items : list object) : list TranscriptEntry := concat (pageItem (shellOf raw) <$> items).
Definition turnEntries (turn : object * list object) : list TranscriptEntry :=
  option_list (pageFailure (shellOf turn.1)) ++ itemEntries turn.1 turn.2.
Definition allEntries : list TranscriptEntry := concat (turnEntries <$> T).

(** At the turn [i], of which [j] items were shown, and its failure if [e]. *)
Definition remaining (i j : nat) (e : bool) : list TranscriptEntry :=
  match T !! i with
  | None => []
  | Some (raw, items) =>
    (if e then [] else option_list (pageFailure (shellOf raw))) ++ itemEntries raw (drop j items) ++ concat (turnEntries <$> drop (S i) T)
  end.

(** A bound on the answers still needed. *)
Definition work (turns : list (object * list object)) : nat := foldr (fun t n => S (Datatypes.length t.2 + n)) 0%nat turns.
Definition measure (i j : nat) : nat := (work (drop i T) - j)%nat.

Lemma remaining_start : remaining 0 0 false = allEntries.
Proof.
  unfold remaining, allEntries. destruct T as [|[raw items] l]; simpl; [done|]. unfold turnEntries at 2. simpl.
  rewrite drop_0. by rewrite <- app_assoc.
Qed.

Lemma remaining_next i raw items :
  T !! i = Some (raw, items) → remaining i (Datatypes.length items) true = remaining (S i) 0 false.
Proof.
  intros Hi. unfold remaining. rewrite Hi. rewrite drop_all. unfold itemEntries at 1. simpl.
  destruct (T !! S i) as [[raw' items']|] eqn:Hs.
  - rewrite (drop_S _ _ _ Hs). simpl. unfold turnEntries at 1. simpl. rewrite drop_0. by rewrite <- app_assoc.
  - apply lookup_ge_None_1 in Hs. by rewrite drop_ge.
Qed.

Lemma work_drop i raw items : T !! i = Some (raw, items) → work (drop i T) = S (Datatypes.length items + work (drop (S i) T)).
Proof. intros Hi. by rewrite (drop_S _ _ _ Hi). Qed.

(** ** Where a continuation stands *)

Definition cur (n : nat) : string := if (n =? 0)%nat then "" else sv_cursor sv n.
Definition earlier (c : string) (n : nat) : Prop := c = "" ∨ ∃ m, (0 < m < n)%nat ∧ c = sv_cursor sv m.
Definition shells (a b : nat) : list object := shellOf <$> take (b - a) (drop a T.*1).

(** The latest turn is named once turns were read, and the turn that was seen
    running is the latest. *)
Definition latestOk (s : pageContinuation) : Prop :=
  (pc_latestTurnID s = "" ∧ (pc_turns s = None ∨ T = []) ∨ ∃ raw, T.*1 !! 0%nat = Some raw ∧ pc_latestTurnID s = turnID raw) ∧
  (pc_volatileTurnID s = "" ∨ ∃ raw, T.*1 !! 0%nat = Some raw ∧ pc_volatileTurnID s = turnID raw ∧
     pc_volatileTurnStatus s = statusValue (field "status" (shellOf raw))).

Record stands (s : pageContinuation) (i j : nat) (e : bool) : Prop := {
  st_latest : latestOk s;
  st_i : (i ≤ Datatypes.length T)%nat;
  st_j : (0 < j)%nat → e = true ∧ ∃ raw items (last : object), T !! i = Some (raw, items) ∧ (j < Datatypes.length items)%nat ∧
           items !! (j - 1)%nat = Some last ∧ pc_lastItemID s = stringValue (field "id" last);
  st_j0 : j = 0%nat → pc_lastItemID s = "";
  st_e : pc_errorEmitted s = e;
  st_itemCursor : pc_itemCursor s = cur j;
  st_lastItemCursor : earlier (pc_lastItemCursor s) j;
  st_lastTurn : pc_lastTurnID s = match i with O => "" | S i => default "" (turnID <$> T.*1 !! i) end;
  st_turns : (pc_turns s = None ∧ i = 0%nat ∧ e = false ∧ pc_turnIndex s = 0%nat ∧ pc_turnCursor s = "" ∧ pc_lastTurnCursor s = "") ∨
    ∃ a b, (a ≤ i ≤ b ∧ b ≤ Datatypes.length T)%nat ∧ (b < Datatypes.length T → 0 < b)%nat ∧ (e = true → i < b)%nat ∧
      pc_turns s = Some (shells a b) ∧ (a + pc_turnIndex s = i)%nat ∧
      pc_turnCursor s = (if (b <? Datatypes.length T)%nat then sv_cursor sv b else "") ∧ earlier (pc_lastTurnCursor s) b }.

Lemma field_limit_turns L c : field "limit" (pageTurnParams threadID L c) = ANum L 0.
Proof. unfold pageTurnParams, setText. by destruct (is_empty c). Qed.
Lemma field_cursor_turns L c : stringValue (field "cursor" (pageTurnParams threadID L c)) = c.
Proof. unfold pageTurnParams, setText. destruct c; done. Qed.
Lemma field_limit_items turn L c : field "limit" (pageItemParams threadID turn L c) = ANum L 0.
Proof. unfold pageItemParams, setText. by destruct (is_empty c). Qed.
Lemma field_cursor_items turn L c : stringValue (field "cursor" (pageItemParams threadID turn L c)) = c.
Proof. unfold pageItemParams, setText. destruct c; done. Qed.
Lemma field_turn_items turn L c : field "turnId" (pageItemParams threadID turn L c) = field "id" turn.
Proof. unfold pageItemParams, setText. by destruct (is_empty c). Qed.

Lemma integerValue_limit L : 0 ≤ L ≤ 100 → integerValue (ANum L 0) = L.
Proof.
  intros H. unfold integerValue, float_int. simpl. rewrite Z.mul_1_r. by rewrite (proj2 (Z.leb_le 0 L)), (proj2 (Z.ltb_lt L _)) by lia.
Qed.

Lemma shellOf_id raw shell : pageTurn raw = Ok shell → shellOf raw = shell ∧ turnID shell = turnID raw.
Proof.
  intros H. split; [unfold shellOf; by rewrite H|]. unfold pageTurn in H. simpl in H.
  do 3 (destruct (guard _ _); simpl in H; [|done]). by simplify_eq.
Qed.

Context (sok : serverOk).

Lemma raws_lookup i raw : T.*1 !! i = Some raw → ∃ items, T !! i = Some (raw, items).
Proof. rewrite list_lookup_fmap. destruct (T !! i) as [[r items]|]; simpl; [|done]. intros. simplify_eq. eauto. Qed.

Lemma turn_at i raw items : T !! i = Some (raw, items) →
  ∃ shell, pageTurn raw = Ok shell ∧ shellOf raw = shell ∧ turnID shell = turnID raw.
Proof.
  intros Hi. destruct (ok_turns sok raw items) as [shell Hs]; [by eapply list_elem_of_lookup_2|].
  exists shell. split; [done|]. by apply shellOf_id.
Qed.

(** Positions of turns are told apart by their ids. *)
Lemma turn_unique i i' raw raw' : T.*1 !! i = Some raw → T.*1 !! i' = Some raw' → turnID raw = turnID raw' → i = i'.
Proof.
  intros H H' E. eapply (NoDup_lookup (turnID <$> T.*1)); [apply (ok_ids sok)| |]; rewrite list_lookup_fmap.
  - by rewrite H.
  - rewrite H'. simpl. by rewrite E.
Qed.

(** The turns of an answer become the shells of the turns from [i] on. *)
Lemma pageTurns_ok last i k l seen :
  l = take k (drop i T.*1) → (∀ raw, raw ∈ l → turnID raw ∉ seen ∧ turnID raw ≠ last) →
  pageTurns last seen l = Ok (shellOf <$> l).
Proof.
  revert i k seen. induction l as [|raw l IH]; intros i k seen Hl Hseen; simpl; [done|].
  destruct k as [|k]; [done|]. destruct (T.*1 !! i) as [raw'|] eqn:Hi; [|apply lookup_ge_None_1 in Hi; by rewrite drop_ge in Hl].
  rewrite (drop_S _ _ _ Hi) in Hl. simpl in Hl. simplify_eq. destruct (raws_lookup _ _ Hi) as [items Hti].
  destruct (turn_at _ _ _ Hti) as (shell & -> & Hsh & Hid). destruct (Hseen raw' ltac:(by left)) as [Hs Hne].
  unfold turnID in Hid, Hs, Hne. rewrite Hid. unfold str_in. rewrite bool_decide_eq_false_2 by done. rewrite (proj2 (str_eqb_neq _ _) Hne). simpl.
  rewrite (IH (S i) k); [by rewrite Hsh|done|]. intros raw Hraw. destruct (Hseen raw ltac:(by right)) as [H1 H2]. split; [|done].
  intros [E|Hin]%elem_of_cons; [|done]. apply list_elem_of_lookup in Hraw as [m Hm]. apply lookup_take_Some in Hm as [Hm _]. rewrite lookup_drop in Hm.
  pose proof (turn_unique _ _ _ _ Hm Hi E). lia.
Qed.

Lemma badCursor_ok n current last : (0 < n)%nat →
  (n < Datatypes.length T ∨ ∃ raw items, (raw, items) ∈ T ∧ n < Datatypes.length items)%nat →
  earlier current n → earlier last n → badCursor (sv_cursor sv n) current last = false.
Proof.
  intros Hn Hin Hc Hl. destruct (ok_cursors sok n Hn Hin) as (Hne & Hlen & Hpos).
  assert (∀ c, earlier c n → str_eqb (sv_cursor sv n) c = false) as Hdiff.
  { intros c [->|(m & Hm & ->)]; apply str_eqb_neq; [done|]. intros E. rewrite E in Hpos.
    destruct (ok_cursors sok m) as (_ & _ & Hpos'); [lia| |lia]. destruct Hin as [?|(raw & items & ? & ?)]; [left; lia|]. right. exists raw, items. split; [done|lia]. }
  unfold badCursor. rewrite (Hdiff _ Hc), (Hdiff _ Hl), (proj2 (Z.ltb_ge _ _) Hlen). by destruct (sv_cursor sv n).
Qed.

Lemma pageTurn_named raw shell : pageTurn raw = Ok shell → turnID raw ≠ "".
Proof.
  unfold pageTurn, turnID. intros H E. simpl in H. rewrite E in H. done.
Qed.

Lemma earlier_cur i n : (i < n)%nat → earlier (cur i) n.
Proof. unfold earlier, cur. destruct i; [by left|]. intros H. right. exists (S i). split; [lia|done]. Qed.

Lemma earlier_le c n n' : earlier c n → (n ≤ n')%nat → earlier c n'.
Proof. intros [->|(m & Hm & ->)] Hle; [by left|right]. exists m. split; [lia|done]. Qed.

Lemma startOf_cur i (params : object) :
  stringValue (field "cursor" params) = cur i →
  ((0 < i)%nat → (i < Datatypes.length T ∨ ∃ raw items, (raw, items) ∈ T ∧ i < Datatypes.length items)%nat) → startOf params = i.
Proof.
  unfold startOf, cur. intros -> Hi. destruct i as [|i]; [done|]. simpl. destruct (ok_cursors sok (S i)) as (Hne & _ & Hpos); [lia|apply Hi; lia|].
  by destruct (sv_cursor sv (S i)).
Qed.

(** The turns become those of the answer, and the first of them ever names the
    latest turn. *)
Lemma commitTurns_turns visited data next turns s :
  Z.of_nat (Datatypes.length data) ≤ transcriptPageSize - visited → (data = [] → next = None) →
  (∀ c, next = Some c → badCursor c (pc_turnCursor s) (pc_lastTurnCursor s) = false) →
  pageTurns (pc_lastTurnID s) [] data = Ok turns → latestOk s →
  (pc_latestTurnID s = "" → ∀ turn, head turns = Some turn → ∃ raw, T.*1 !! 0%nat = Some raw ∧ turn = shellOf raw ∧ turnID turn = turnID raw) →
  (pc_latestTurnID s = "" → turns = [] → T = []) →
  ∃ latest volatile status, commitTurns visited (Some data, next) s = Ok (setTurns turns (default "" next) latest volatile status s) ∧
    ∀ cursor, latestOk (setTurns turns cursor latest volatile status s).
Proof.
  intros Hlen Hprog Hcur Hturns [Hla Hvo] Hhead Hnil. unfold commitTurns. rewrite (proj2 (Z.ltb_ge _ _)) by lia.
  rewrite bool_decide_eq_false_2 by (intros [? ?]; naive_solver).
  assert ((match next with Some next => badCursor next (pc_turnCursor s) (pc_lastTurnCursor s) | None => false end) = false) as ->
    by (destruct next as [c|]; [by apply Hcur|done]).
  rewrite Hturns. destruct turns as [|turn turns].
  { do 3 eexists. split; [done|]. intros cursor. split; [|done]. simpl. destruct Hla as [[E _]|Hla]; [left; auto|by right]. }
  destruct (is_empty (pc_latestTurnID s)) eqn:E.
  - assert (pc_latestTurnID s = "") as E' by (by destruct (pc_latestTurnID s)). destruct (Hhead E' turn eq_refl) as (raw & Hraw & -> & Hid).
    unfold turnID in Hid at 1. destruct (str_in _ _); do 3 eexists; (split; [done|]); intros cursor; split; simpl; try done; right; exists raw; by rewrite ?Hid.
  - do 3 eexists. split; [done|]. intros cursor. split; [|done]. simpl. destruct Hla as [[E' _]|Hla]; [by rewrite E' in E|by right].
Qed.

Lemma stands_setTurns s i b latest volatile status :
  stands s i 0 false → (∀ cursor, latestOk (setTurns (shells i b) cursor latest volatile status s)) →
  (i ≤ b ≤ Datatypes.length T)%nat → (b < Datatypes.length T → i < b)%nat → earlier (pc_turnCursor s) b →
  stands (setTurns (shells i b) (if (b <? Datatypes.length T)%nat then sv_cursor sv b else "") latest volatile status s) i 0 false.
Proof.
  intros [_ Hi Hj Hj0 He Hic Hlic Hlt Ht] Hla Hb Hlt2 Hear. constructor; [by apply Hla|done..|]. right. exists i, b. simpl. split_and!; first [lia|done].
Qed.

(** No turn was named: none was read, or there is none. *)
Lemma latest_fresh s i : stands s i 0 false → pc_latestTurnID s = "" → i = 0%nat ∨ T = [].
Proof.
  intros Hst E. destruct (st_latest _ _ _ _ Hst) as [[[_ [Hn|?]]|(raw & Hraw & E')] _]; [|by right|].
  - left. destruct (st_turns _ _ _ _ Hst) as [(_ & ? & _)|(a & b & _ & _ & _ & Ht & _)]; [done|congruence].
  - exfalso. destruct (raws_lookup _ _ Hraw) as [items Hti]. destruct (turn_at _ _ _ Hti) as (shell & Hs & _).
    apply (pageTurn_named _ _ Hs). congruence.
Qed.

(** The answer to a request for turns, and what the continuation makes of it. *)
Lemma commitTurns_ok s i visited :
  0 ≤ visited < transcriptPageSize → stands s i 0 false → pc_turnCursor s = cur i → earlier (pc_lastTurnCursor s) i →
  (i = 0 ∨ i < Datatypes.length T)%nat →
  ∃ page s' b, serveTurns (pageTurnParams threadID (transcriptPageSize - visited) (pc_turnCursor s)) = Ok page ∧
    commitTurns visited page s = Ok s' ∧ stands s' i 0 false ∧ pc_turnIndex s' = 0%nat ∧
    pc_turns s' = Some (shells i b) ∧ (i ≤ b ≤ Datatypes.length T)%nat ∧ (i < Datatypes.length T → i < b)%nat.
Proof.
  intros Hv Hst Hcur Hlast Hi. unfold serveTurns. set (params := pageTurnParams _ _ _).
  assert (startOf params = i) as ->.
  { apply startOf_cur; [unfold params; by rewrite field_cursor_turns|]. intros Hpos. left. lia. }
  unfold params. rewrite field_limit_turns, integerValue_limit by (unfold transcriptPageSize in *; lia). clear params.
  set (L := transcriptPageSize - visited). destruct (ok_takeTurns sok i L) as [Hk Hk']; [unfold L; lia|].
  set (k := sv_takeTurns sv i L) in *. set (b := ((i + k) `min` Datatypes.length T)%nat).
  assert (take k (drop i T.*1) = take (b - i) (drop i T.*1)) as Htake.
  { unfold b. destruct (decide (i + k ≤ Datatypes.length T)%nat) as [Hle|Hgt].
    - f_equal. lia.
    - rewrite !take_ge; [done|rewrite length_drop, length_fmap; lia..]. }
  assert (Datatypes.length T.*1 = Datatypes.length T) as Hlen by apply length_fmap.
  destruct (commitTurns_turns visited (take k (drop i T.*1)) (if (i + k <? Datatypes.length T.*1)%nat then Some (sv_cursor sv (i + k)) else None)
              (shellOf <$> take k (drop i T.*1)) s) as (latest & volatile & status & Hc & Hla).
  - rewrite length_take. unfold L in *. lia.
  - intros Hnil. destruct (i + k <? _)%nat eqn:E; [|done]. apply Nat.ltb_lt in E. apply (f_equal Datatypes.length) in Hnil.
    rewrite length_take, length_drop in Hnil. simpl in Hnil. lia.
  - intros c Hc. destruct (i + k <? _)%nat eqn:E; [|done]. apply Nat.ltb_lt in E. simplify_eq. rewrite Hcur.
    apply badCursor_ok; [lia|left; lia|apply earlier_cur; lia|eapply earlier_le; [done|lia]].
  - apply (pageTurns_ok _ i k); [done|]. intros raw Hraw. split; [apply not_elem_of_nil|].
    apply list_elem_of_lookup in Hraw as [m Hm]. apply lookup_take_Some in Hm as [Hm _]. rewrite lookup_drop in Hm.
    rewrite (st_lastTurn _ _ _ _ Hst). destruct i as [|i'].
    + destruct (raws_lookup _ _ Hm) as [items Hti]. destruct (turn_at _ _ _ Hti) as (shell & Hs & _). by eapply pageTurn_named.
    + destruct (T.*1 !! i') as [raw'|] eqn:Hr; simpl.
      * intros E. pose proof (turn_unique _ _ _ _ Hm Hr E). lia.
      * apply lookup_ge_None_1 in Hr. apply lookup_lt_Some in Hm. lia.
  - exact (st_latest _ _ _ _ Hst).
  - intros E turn Hturn. apply head_Some in Hturn as [l Hl]. destruct (take k (drop i T.*1)) as [|raw raws] eqn:Ed; [done|]. injection Hl as <- _.
    assert (i = 0%nat) as ->.
    { destruct (latest_fresh s i Hst E) as [?|E']; [done|]. rewrite E' in Ed. simpl in Ed. by rewrite drop_nil, take_nil in Ed. }
    assert (T.*1 !! 0%nat = Some raw) as Hraw by (rewrite drop_0 in Ed; rewrite <- (lookup_take_lt T.*1 k 0) by lia; by rewrite Ed).
    destruct (raws_lookup _ _ Hraw) as [items Hti]. destruct (turn_at _ _ _ Hti) as (shell & _ & Hs & Hid). exists raw. split_and!; [done|done|congruence].
  - intros E Hn. destruct (latest_fresh s i Hst E) as [->|?]; [|done]. apply fmap_nil_inv in Hn. rewrite drop_0 in Hn.
    apply (f_equal Datatypes.length) in Hn. rewrite length_take, length_fmap in Hn. simpl in Hn. destruct T; [done|simpl in Hn; lia].
  - exists (answer k i T.*1). unfold answer. eexists _, b. split; [done|]. split; [exact Hc|]. rewrite Htake. rewrite Hlen.
    replace (default "" (if (i + k <? Datatypes.length T)%nat then Some (sv_cursor sv (i + k)) else None))
      with (if (b <? Datatypes.length T)%nat then sv_cursor sv b else "").
    2:{ unfold b. destruct (i + k <? Datatypes.length T)%nat eqn:E.
        - apply Nat.ltb_lt in E. rewrite (proj2 (Nat.ltb_lt _ _)) by lia. simpl. f_equal. lia.
        - apply Nat.ltb_ge in E. rewrite (proj2 (Nat.ltb_ge _ _)) by lia. done. }
    pose proof (st_i _ _ _ _ Hst). split_and!; [|done|done|unfold b; lia|unfold b; lia|unfold b; lia].
    apply stands_setTurns; [done|unfold shells; by rewrite <- Htake|unfold b; lia|unfold b; lia|]. rewrite Hcur. destruct i as [|i']; [by left|]. apply earlier_cur. unfold b. lia.
Qed.

(** ** Items of a turn *)

Abbreviation takeItems := (takeItems parseURL decodeReplies).
Abbreviation commitItems := (commitItems parseURL decodeReplies).
Definition itemID (item : object) : string := stringValue (field "id" item).
Definition lastOf (previous : string) (l : list object) : string := default previous (itemID <$> last l).

Lemma lastOf_cons previous item l : lastOf previous (item :: l) = lastOf (itemID item) l.
Proof. unfold lastOf. destruct l as [|o l]; [done|]. rewrite last_cons_cons. destruct (last (o :: l)) eqn:E; [done|]. by apply last_None in E. Qed.

Lemma takeItems_ok shell id l index previous w :
  stringValue (field "id" shell) = id → (∀ item, item ∈ l → itemID item ≠ "") →
  NoDup ((fun item => itemKeyText id (itemID item)) <$> l) → (∀ item, item ∈ l → itemKeyText id (itemID item) ∉ pw_seen w) →
  (index = 0%nat → ∀ item, head l = Some item → itemID item ≠ previous) →
  takeItems shell index ((fun item => mkItemEntry id (Some item)) <$> l) previous w =
  Ok (lastOf previous l, mkWalk (pw_state w) (pw_entries w ++ concat (pageItem shell <$> l)) (pw_used w + Z.of_nat (Datatypes.length l))
        (rev ((fun item => itemKeyText id (itemID item)) <$> l) ++ pw_seen w)).
Proof.
  intros Hid. revert index previous w. induction l as [|item l IH]; intros index previous w Hne Hnd Hseen Hfirst; simpl.
  { rewrite app_nil_r, Z.add_0_r. by destruct w. }
  rewrite Hid, str_eqb_refl. unfold itemField. simpl. fold (itemID item).
  assert (is_empty (itemID item) = false) as -> by (specialize (Hne item ltac:(by left)); by destruct (itemID item)).
  unfold str_in. rewrite bool_decide_eq_false_2 by (apply Hseen; by left). simpl.
  assert ((index =? 0)%nat && str_eqb (itemID item) previous = false) as ->.
  { destruct index; [|done]. simpl. apply str_eqb_neq. by apply Hfirst. }
  apply NoDup_cons in Hnd as [Hk Hnd].
  rewrite IH; simpl; [|intros; apply Hne; by right|done| |done].
  - rewrite lastOf_cons, <- !app_assoc. simpl. replace (pw_used w + 1 + _) with (pw_used w + Z.of_nat (S (Datatypes.length l))) by lia. done.
  - intros item' Hin. intros [E|Hs]%elem_of_cons; [|by apply (Hseen item'); [right|]].
    apply Hk. rewrite <- E. by apply (list_elem_of_fmap_2 (fun item => itemKeyText id (itemID item))).
Qed.

(** The keys of the items shown before an item. *)
Definition before (i j : nat) : list string := concat (keysOf <$> take i T) ++ take j (default [] (keysOf <$> T !! i)).

Lemma keys_split i raw items j : T !! i = Some (raw, items) →
  NoDup (before i j ++ drop j (keysOf (raw, items))).
Proof.
  intros Hi. pose proof (ok_keys sok) as Hnd. rewrite <- (take_drop_middle T i _ Hi) in Hnd. rewrite fmap_app, concat_app in Hnd. simpl in Hnd.
  rewrite app_assoc in Hnd. apply NoDup_app in Hnd as (Hnd & _ & _). unfold before. rewrite Hi. simpl.
  rewrite <- app_assoc. by rewrite take_drop.
Qed.

Lemma before_next i raw items : T !! i = Some (raw, items) → before (S i) 0 = before i (Datatypes.length items).
Proof.
  intros Hi. unfold before. rewrite Hi. simpl. rewrite (take_S_r _ _ _ Hi), fmap_app, concat_app. simpl. rewrite !app_nil_r.
  by rewrite (take_ge (keysOf (raw, items))) by (unfold keysOf; by rewrite length_fmap).
Qed.

Lemma turnNamed_at i raw items : T !! i = Some (raw, items) → turnNamed (turnID raw) 0 T = Some (i, items).
Proof.
  intros Hi. pose proof (ok_ids sok) as Hnd.
  assert (∀ l n m, NoDup (turnID <$> l.*1) → l !! m = Some (raw, items) → turnNamed (turnID raw) n l = Some ((n + m)%nat, items)) as Hgen.
  { clear. induction l as [|[r its] l IH]; intros n m Hnd Hm; [done|]. simpl in *. apply NoDup_cons in Hnd as [Hr Hnd].
    destruct m as [|m]; simpl in Hm.
    - simplify_eq. rewrite str_eqb_refl. by rewrite Nat.add_0_r.
    - rewrite (proj2 (str_eqb_neq _ _)); [rewrite (IH (S n) m Hnd Hm); do 2 f_equal; lia|].
      intros E. apply Hr. rewrite E. apply (list_elem_of_fmap_2 turnID), (list_elem_of_fmap_2 fst _ (raw, items)). by eapply list_elem_of_lookup_2. }
  by rewrite (Hgen T 0%nat i).
Qed.

Lemma badItemCursor i raw items n s j :
  T !! i = Some (raw, items) → (j < n < Datatypes.length items)%nat → pc_itemCursor s = cur j → earlier (pc_lastItemCursor s) j →
  badCursor (sv_cursor sv n) (pc_itemCursor s) (pc_lastItemCursor s) = false.
Proof.
  intros Hi Hn Hc Hl. rewrite Hc. apply badCursor_ok; [lia| |apply earlier_cur; lia|eapply earlier_le; [done|lia]].
  right. exists raw, items. split; [by eapply list_elem_of_lookup_2|lia].
Qed.

(** A turn that was fetched. *)
Definition fetched (s : pageContinuation) (i : nat) : Prop :=
  ∃ a b, (a ≤ i < b ∧ b ≤ Datatypes.length T)%nat ∧ pc_turns s = Some (shells a b) ∧ (a + pc_turnIndex s = i)%nat.

Lemma stands_more s i j raw items k last :
  stands s i j true → T !! i = Some (raw, items) → (0 < k ∧ j + k < Datatypes.length items)%nat →
  items !! (j + k - 1)%nat = Some last →
  stands (setItem (pc_turnIndex s) (sv_cursor sv (j + k)) (itemID last) (pc_itemCursor s) (pc_lastTurnID s) (pc_errorEmitted s) s) i (j + k) true.
Proof.
  intros [Hla Hi Hj Hj0 He Hic Hlic Hlt Ht] Hti Hk Hlast. constructor; simpl; [exact Hla|done| |lia|done| | |done|].
  - intros _. split; [done|]. exists raw, items, last. split_and!; [done|lia|done|done].
  - unfold cur. by rewrite (proj2 (Nat.eqb_neq _ _)) by lia.
  - rewrite Hic. apply earlier_cur. lia.
  - destruct Ht as [(_ & _ & ? & _)|Ht]; [done|]. right. exact Ht.
Qed.

Lemma stands_done s i j raw items :
  stands s i j true → T !! i = Some (raw, items) → fetched s i →
  stands (setItem (S (pc_turnIndex s)) "" "" "" (stringValue (field "id" (shellOf raw))) false s) (S i) 0 false.
Proof.
  intros [Hla Hi Hj Hj0 He Hic Hlic Hlt Ht] Hti Hf. destruct (turn_at _ _ _ Hti) as (shell & _ & -> & Hid). unfold turnID in Hid at 1.
  pose proof (lookup_lt_Some _ _ _ Hti). constructor; simpl; [exact Hla|lia|lia|done|done|done|by left| |].
  - rewrite Hid, list_lookup_fmap, Hti. done.
  - right. destruct Ht as [(_ & _ & ? & _)|(a & b & Hab & Hb0 & Heb & Hturns & Hidx & Htc & Hltc)]; [done|].
    exists a, b. specialize (Heb eq_refl). split_and!; first [lia|done].
Qed.

Lemma lastOf_take previous j k items final :
  (0 < k ∧ j + k ≤ Datatypes.length items)%nat → items !! (j + k - 1)%nat = Some final → lastOf previous (take k (drop j items)) = itemID final.
Proof.
  intros Hk Hl. unfold lastOf. assert (last (take k (drop j items)) = Some final) as ->; [|done].
  rewrite last_lookup, length_take, length_drop, lookup_take_lt, lookup_drop by lia. rewrite <- Hl. f_equal. lia.
Qed.

Lemma measure_more i j raw items k : T !! i = Some (raw, items) → (0 < k ∧ j + k < Datatypes.length items)%nat → (measure i (j + k) < measure i j)%nat.
Proof. intros Hi Hk. unfold measure. rewrite (work_drop _ _ _ Hi). lia. Qed.
Lemma measure_done i j raw items : T !! i = Some (raw, items) → (j ≤ Datatypes.length items)%nat → (measure (S i) 0 < measure i j)%nat.
Proof. intros Hi Hk. unfold measure. rewrite (work_drop _ _ _ Hi). lia. Qed.

(** What a walk shows from one place to another. *)
Definition moved (i j : nat) (e : bool) (w w' : pageWalk) (i' j' : nat) (e' : bool) : Prop :=
  stands (pw_state w') i' j' e' ∧ (∀ key, key ∈ pw_seen w' → key ∈ before i' j') ∧ pw_used w ≤ pw_used w' ≤ transcriptPageSize ∧
  ∃ es, pw_entries w' = pw_entries w ++ es ∧ remaining i j e = es ++ remaining i' j' e' ∧
    Z.of_nat (Datatypes.length es) ≤ pw_used w' - pw_used w.

(** An item is at most one entry. *)
Lemma pageItem_length turn item : (Datatypes.length (pageItem turn item) ≤ 1)%nat.
Proof.
  unfold ThreadPage.pageItem, transcriptEntries, applyTurnTimestamps. rewrite !length_fmap. simpl.
  destruct (itemEntry _ _ _ _ _); simpl; lia.
Qed.

Lemma itemEntries_length raw l : (Datatypes.length (itemEntries raw l) ≤ Datatypes.length l)%nat.
Proof.
  unfold itemEntries. induction l as [|item l IH]; [done|]. rewrite fmap_cons. cbn [concat]. rewrite length_app. cbn [Datatypes.length].
  pose proof (pageItem_length (shellOf raw) item). lia.
Qed.

Lemma itemEntries_app raw a b : itemEntries raw (a ++ b) = itemEntries raw a ++ itemEntries raw b.
Proof. unfold itemEntries. by rewrite fmap_app, concat_app. Qed.

(** The items of an answer can be taken: they are named and new. *)
Lemma takeItems_at w i j raw items k :
  stands (pw_state w) i j true → T !! i = Some (raw, items) → (∀ key, key ∈ pw_seen w → key ∈ before i j) →
  let l := take k (drop j items) in
  takeItems (shellOf raw) 0 ((fun item => mkItemEntry (turnID raw) (Some item)) <$> l) (pc_lastItemID (pw_state w)) w =
  Ok (lastOf (pc_lastItemID (pw_state w)) l,
      mkWalk (pw_state w) (pw_entries w ++ itemEntries raw l) (pw_used w + Z.of_nat (Datatypes.length l))
        (rev ((fun item => itemKeyText (turnID raw) (itemID item)) <$> l) ++ pw_seen w)).
Proof.
  intros Hst Hti Hseen l. destruct (turn_at _ _ _ Hti) as (shell & _ & Hsh & Hid).
  pose proof (keys_split i raw items j Hti) as Hnd. apply NoDup_app in Hnd as (_ & Hdis & Hnd).
  assert (drop j (keysOf (raw, items)) = (fun item => itemKeyText (turnID raw) (itemID item)) <$> drop j items) as Hkeys
    by (unfold keysOf; by rewrite <- fmap_drop).
  assert (∀ item, item ∈ l → item ∈ drop j items) as Hsub by (intros item; apply subseteq_take).
  apply takeItems_ok.
  - rewrite Hsh. exact Hid.
  - intros item Hin. apply (ok_items sok raw items); [by eapply list_elem_of_lookup_2|]. by apply (subseteq_drop j), Hsub.
  - rewrite Hkeys in Hnd. unfold l. rewrite fmap_take. eapply sublist_NoDup; [done|apply sublist_take].
  - intros item Hin Hs. apply Hseen in Hs. apply (Hdis _ Hs). rewrite Hkeys.
    apply (list_elem_of_fmap_2 (fun item => itemKeyText (turnID raw) (itemID item))). by apply Hsub.
  - intros _ item Hhead. destruct j as [|j].
    + rewrite (st_j0 _ _ _ _ Hst) by done. apply (ok_items sok raw items); [by eapply list_elem_of_lookup_2|].
      unfold l in Hhead. rewrite drop_0 in Hhead. destruct k; [done|]. destruct items as [|x items]; [done|]. simpl in Hhead. simplify_eq. by left.
    + destruct (st_j _ _ _ _ Hst) as (_ & raw' & items' & last & Hti' & Hlt & Hlast & ->); [lia|]. rewrite Hti in Hti'. simplify_eq. replace (S j - 1)%nat with j in Hlast by lia.
      unfold l in Hhead. destruct k; [done|]. destruct (items' !! S j) as [x|] eqn:Hx; [|apply lookup_ge_None_1 in Hx; lia].
      rewrite (drop_S _ _ _ Hx) in Hhead. simpl in Hhead. simplify_eq. intros E.
      assert (NoDup (keysOf (raw', items'))) as Hnd2.
      { pose proof (keys_split i raw' items' 0 Hti) as Hn. apply NoDup_app in Hn as (_ & _ & Hn). by rewrite drop_0 in Hn. }
      assert (keysOf (raw', items') !! S j = keysOf (raw', items') !! j) as Heq.
      { unfold keysOf. cbn [fst snd]. rewrite !list_lookup_fmap, Hx, Hlast. simpl. unfold itemID in E. by rewrite E. }
      pose proof (NoDup_lookup _ (S j) j (itemKeyText (turnID raw') (itemID item)) Hnd2) as Hcontra.
      assert (S j = j); [|lia]. apply Hcontra; [|rewrite <- Heq]; unfold keysOf; cbn [fst snd]; by rewrite list_lookup_fmap, Hx.
Qed.

Lemma before_more i j k raw items :
  T !! i = Some (raw, items) →
  ∀ key, (key ∈ before i j ∨ key ∈ (fun item => itemKeyText (turnID raw) (itemID item)) <$> take k (drop j items)) → key ∈ before i (j + k).
Proof.
  intros Hi key. unfold before. rewrite Hi. change (default [] (keysOf <$> Some (raw, items))) with (keysOf (raw, items)).
  assert (take (j + k) (keysOf (raw, items)) =
    take j (keysOf (raw, items)) ++ ((fun item => itemKeyText (turnID raw) (itemID item)) <$> take k (drop j items))) as ->.
  { rewrite fmap_take, fmap_drop. symmetry. apply take_take_drop. }
  rewrite !elem_of_app. tauto.
Qed.

(** The answer to a request for items, and what the page makes of it. *)
Lemma commitItems_ok w i j raw items :
  stands (pw_state w) i j true → T !! i = Some (raw, items) → fetched (pw_state w) i → (j ≤ Datatypes.length items)%nat →
  (∀ key, key ∈ pw_seen w → key ∈ before i j) → 0 ≤ pw_used w < transcriptPageSize →
  ∃ page w' i' j' e', serveItems (pageItemParams threadID (shellOf raw) (transcriptPageSize - pw_used w) (pc_itemCursor (pw_state w))) = Ok page ∧
    commitItems (shellOf raw) page w = Ok w' ∧ moved i j true w w' i' j' e' ∧ (measure i' j' < measure i j)%nat.
Proof.
  intros Hst Hti Hf Hj Hseen Hu. destruct (turn_at _ _ _ Hti) as (shell & _ & Hsh & Hid).
  unfold serveItems. rewrite field_turn_items. fold (turnID (shellOf raw)). rewrite Hsh, Hid, (turnNamed_at _ _ _ Hti).
  set (params := pageItemParams _ _ _ _).
  assert (startOf params = j) as ->.
  { apply startOf_cur; [unfold params; rewrite field_cursor_items; apply (st_itemCursor _ _ _ _ Hst)|]. intros Hpos. right.
    destruct (st_j _ _ _ _ Hst Hpos) as (_ & raw' & items' & last & Hti' & Hlt & _). exists raw', items'. split; [by eapply list_elem_of_lookup_2|lia]. }
  unfold params. rewrite field_limit_items, integerValue_limit by (unfold transcriptPageSize in *; lia). clear params.
  set (L := transcriptPageSize - pw_used w). destruct (ok_takeItems sok i j L) as [Hk Hk']; [unfold L; lia|].
  set (k := sv_takeItems sv i j L) in *. set (l := take k (drop j items)).
  pose proof (takeItems_at w i j raw items k Hst Hti Hseen) as Htake. simpl in Htake. fold l in Htake. rewrite Hsh in Htake.
  assert (take k (drop j ((fun item => mkItemEntry (turnID raw) (Some item)) <$> items)) = (fun item => mkItemEntry (turnID raw) (Some item)) <$> l) as Hdata
    by (unfold l; by rewrite <- fmap_drop, <- fmap_take).
  assert (Z.of_nat (Datatypes.length l) ≤ L) as HlL by (unfold l; rewrite length_take; lia).
  unfold answer. rewrite Hdata, length_fmap.
  set (page := (Some (_ <$> l), _) : itemPage). exists page. unfold page, ThreadPage.commitItems. clear page.
  rewrite length_fmap, (proj2 (Z.ltb_ge _ _)) by (unfold L in *; lia).
  assert ((∀ key, key ∈ rev ((fun item => itemKeyText (turnID raw) (itemID item)) <$> l) ++ pw_seen w → key ∈ before i (j + k))) as Hseen'.
  { intros key [Hin|Hin]%elem_of_app; apply (before_more i j k raw items Hti); [right|left; auto].
    by apply list_elem_of_In, in_rev, list_elem_of_In in Hin. }
  destruct (j + k <? Datatypes.length items)%nat eqn:Hmore.
  - apply Nat.ltb_lt in Hmore. destruct (items !! (j + k - 1)%nat) as [final|] eqn:Hfin; [|apply lookup_ge_None_1 in Hfin; lia].
    rewrite bool_decide_eq_false_2, Htake.
    2:{ intros [E _]. apply (f_equal Datatypes.length) in E. unfold l in E. rewrite length_fmap, length_take, length_drop in E. simpl in E. lia. }
    rewrite (badItemCursor i raw items (j + k) _ j Hti);
      [|lia|apply (st_itemCursor _ _ _ _ Hst)|apply (st_lastItemCursor _ _ _ _ Hst)].
    eexists _, i, (j + k)%nat, true. split; [done|]. split; [done|]. split; [|by eapply measure_more]. unfold moved. simpl.
    unfold l at 1. rewrite (lastOf_take _ _ _ _ final) by (done || lia). split_and!; [by eapply stands_more|done|lia|unfold L in *; lia|].
    exists (itemEntries raw l). pose proof (itemEntries_length raw l). split; [done|]. split; [|lia]. unfold remaining. rewrite Hti. cbn [app]. rewrite app_assoc. f_equal. rewrite <- itemEntries_app. f_equal.
    unfold l. rewrite <- drop_drop. symmetry. apply take_drop.
  - apply Nat.ltb_ge in Hmore. assert (l = drop j items) as Hl by (unfold l; rewrite take_ge; [done|rewrite length_drop; lia]).
    rewrite bool_decide_eq_false_2 by (intros [_ ?]; done). rewrite Htake.
    eexists _, (S i), 0%nat, false. split; [done|]. split; [done|]. split; [|by eapply measure_done]. unfold moved. simpl.
    split_and!; [rewrite <- Hsh; by eapply stands_done| |lia|unfold L in *; lia|].
    + intros key Hin. rewrite (before_next _ _ _ Hti). apply Hseen' in Hin. revert Hin. unfold before. rewrite Hti. simpl.
      rewrite !(take_ge (keysOf (raw, items))) by (unfold keysOf; rewrite length_fmap; simpl; lia). done.
    + exists (itemEntries raw l). pose proof (itemEntries_length raw l). split; [done|]. split; [|lia]. rewrite <- (remaining_next i raw items Hti). unfold remaining. rewrite Hti, drop_all, Hl.
      unfold itemEntries at 3. done.
Qed.

(** ** The loop *)

Abbreviation walkPage := (walkPage sources absent parseURL decodeReplies).

(** A round of the loop once the turn is there. *)
Definition visitTurn (first : bool) (visits : nat) (w : pageWalk) : pageProg (res err (pageWalk * bool)) :=
  match default [] (pc_turns (pw_state w)) !! pc_turnIndex (pw_state w) with
  | None => PRet (Ok (w, false))
  | Some turn =>
    let w := emitFailure turn w in
    if pw_used w =? transcriptPageSize then PRet (Ok (w, false)) else
    PItems (pageItemParams threadID turn (transcriptPageSize - pw_used w) (pc_itemCursor (pw_state w))) (fun r =>
      match r with
      | Err e => PRet (Err (EWrap "read Codex thread items" e))
      | Ok page =>
        match commitItems turn page w with
        | Err e => PRet (Err e)
        | Ok w => walkPage first thread threadID visits w
        end
      end)
  end.

Lemma stands_emitted s i j e : stands s i j e → fetched s i → stands (setErrorEmitted s) i j true ∧ fetched (setErrorEmitted s) i.
Proof.
  intros [Hla Hi Hj Hj0 He Hic Hlic Hlt Ht] Hf. split; [|done]. destruct Hf as (a & b & Hab & Hturns & Hidx). constructor; simpl; try done.
  - intros Hpos. split; [done|]. by apply Hj.
  - right. destruct Ht as [(E & _)|(a' & b' & Hab' & Hb0 & Heb & Hturns' & Hidx' & Htc & Hltc)]; [congruence|].
    exists a', b'. split_and!; try done; [lia..|]. intros _.
    assert (shells a b = shells a' b') as Hs by congruence. apply (f_equal Datatypes.length) in Hs. unfold shells in Hs.
    rewrite !length_fmap, !length_take, !length_drop, !length_fmap in Hs. lia.
Qed.

Lemma emitFailure_ok w i j e raw items :
  stands (pw_state w) i j e → fetched (pw_state w) i → T !! i = Some (raw, items) →
  (∀ key, key ∈ pw_seen w → key ∈ before i j) → 0 ≤ pw_used w < transcriptPageSize →
  moved i j e w (emitFailure (shellOf raw) w) i j true ∧ fetched (pw_state (emitFailure (shellOf raw) w)) i.
Proof.
  intros Hst Hf Hti Hseen Hu. destruct (stands_emitted _ _ _ _ Hst Hf) as [Hst' Hf']. unfold emitFailure. rewrite (st_e _ _ _ _ Hst).
  destruct e; [split; [|done]; split_and!; [done|done|lia|lia|]; exists []; rewrite app_nil_r; split_and!; [done|done|simpl; lia]|].
  destruct (pageFailure (shellOf raw)) as [entry|] eqn:Hp; simpl; (split; [|done]); unfold moved; simpl; split_and!; try done; try lia.
  - exists [entry]. split_and!; [done| |simpl; lia]. unfold remaining. rewrite Hti, Hp. done.
  - exists []. rewrite app_nil_r. split_and!; [done| |simpl; lia]. unfold remaining. rewrite Hti, Hp. done.
Qed.

Lemma moved_trans i j e w i1 j1 e1 w1 i2 j2 e2 w2 :
  moved i j e w w1 i1 j1 e1 → moved i1 j1 e1 w1 w2 i2 j2 e2 → moved i j e w w2 i2 j2 e2.
Proof.
  intros (_ & _ & Hu1 & es1 & He1 & Hr1 & Hn1) (Hst & Hs & Hu2 & es2 & He2 & Hr2 & Hn2). split_and!; [done|done|lia|lia|].
  exists (es1 ++ es2). rewrite He2, He1, Hr1, Hr2, <- !app_assoc, length_app. split_and!; [done|done|lia].
Qed.

Lemma moved_refl i j e w :
  stands (pw_state w) i j e → (∀ key, key ∈ pw_seen w → key ∈ before i j) → pw_used w ≤ transcriptPageSize → moved i j e w w i j e.
Proof. intros Hst Hs Hu. split_and!; [done|done|lia|lia|]. exists []. rewrite app_nil_r. split_and!; [done|done|simpl; lia]. Qed.

Lemma stands_items s i j e raw items : stands s i j e → T !! i = Some (raw, items) → (j ≤ Datatypes.length items)%nat.
Proof.
  intros Hst Hti. destruct (decide (j = 0)%nat) as [->|Hne]; [lia|].
  destruct (st_j _ _ _ _ Hst) as (_ & raw' & items' & last & Hti' & Hlt & _); [lia|]. simplify_eq. lia.
Qed.

Lemma fetched_lookup s i raw items : fetched s i → T !! i = Some (raw, items) → default [] (pc_turns s) !! pc_turnIndex s = Some (shellOf raw).
Proof.
  intros (a & b & Hab & -> & Hidx) Hti. simpl. unfold shells. rewrite list_lookup_fmap, lookup_take_lt, lookup_drop by lia.
  rewrite Hidx, list_lookup_fmap, Hti. done.
Qed.

(** What one run of the loop does. *)
Definition walks (first : bool) (visits : nat) : Prop := ∀ w i j e,
  stands (pw_state w) i j e → (∀ key, key ∈ pw_seen w → key ∈ before i j) → 0 ≤ pw_used w ≤ transcriptPageSize →
  ∃ w' i' j' e', run (walkPage first thread threadID visits w) = Ok (w', false) ∧ moved i j e w w' i' j' e' ∧
    (measure i' j' ≤ measure i j)%nat ∧
    ((0 < visits)%nat → pw_used w < transcriptPageSize - 1 → (i < Datatypes.length T)%nat → (measure i' j' < measure i j)%nat) ∧
    ((0 < visits)%nat → pw_used w < transcriptPageSize → pc_turns (pw_state w') ≠ None).

Lemma fetched_turns s i : fetched s i → pc_turns s ≠ None.
Proof. intros (a & b & _ & -> & _). done. Qed.

Lemma commitItems_turns turn page w w' : commitItems turn page w = Ok w' → pc_turns (pw_state w') = pc_turns (pw_state w).
Proof.
  unfold ThreadPage.commitItems. destruct page as [[data|] next]; [|done]. destruct (_ <? _); [done|]. destruct (bool_decide _); [done|].
  destruct (takeItems _ _ _ _ _) as [[last w1]|]; [|done]. destruct next as [next|]; [destruct (badCursor _ _ _); [done|]|]; intros; by simplify_eq.
Qed.

(** A loop that has nothing to do. *)
Lemma walkPage_full first visits w :
  visits = 0%nat ∨ transcriptPageSize ≤ pw_used w → walkPage first thread threadID visits w = PRet (Ok (w, false)).
Proof. destruct visits as [|visits]; [done|]. intros [?|Hu]; [done|]. simpl. by rewrite (proj2 (Z.leb_le _ _)). Qed.

Lemma visitTurn_ok first visits w i j e :
  walks first visits → stands (pw_state w) i j e → fetched (pw_state w) i → (∀ key, key ∈ pw_seen w → key ∈ before i j) →
  0 ≤ pw_used w < transcriptPageSize →
  ∃ w' i' j' e', run (visitTurn first visits w) = Ok (w', false) ∧ moved i j e w w' i' j' e' ∧ (measure i' j' ≤ measure i j)%nat ∧
    (pw_used w < transcriptPageSize - 1 → (measure i' j' < measure i j)%nat) ∧ pc_turns (pw_state w') ≠ None.
Proof.
  intros IH Hst Hf Hseen Hu. assert (∃ raw items, T !! i = Some (raw, items)) as (raw & items & Hti).
  { destruct Hf as (a & b & Hab & _). destruct (T !! i) as [[raw items]|] eqn:E; [eauto|]. apply lookup_ge_None_1 in E. lia. }
  unfold visitTurn. rewrite (fetched_lookup _ _ _ _ Hf Hti).
  destruct (emitFailure_ok w i j e raw items Hst Hf Hti Hseen Hu) as [Hm1 Hf1]. set (w1 := emitFailure (shellOf raw) w) in *. cbv zeta.
  pose proof Hm1 as (Hst1 & Hs1 & Hu1 & _).
  assert (pw_used w1 ≤ pw_used w + 1) as Hu1'.
  { unfold w1, emitFailure. destruct (pc_errorEmitted _); [lia|]. destruct (pageFailure _); simpl; lia. }
  destruct (pw_used w1 =? transcriptPageSize) eqn:Hfull.
  { apply Z.eqb_eq in Hfull. exists w1, i, j, true. split_and!; [done|done|lia|lia|by eapply fetched_turns]. }
  apply Z.eqb_neq in Hfull.
  destruct (commitItems_ok w1 i j raw items Hst1 Hti Hf1 (stands_items _ _ _ _ _ _ Hst Hti) Hs1) as (page & w2 & i2 & j2 & e2 & Hserve & Hcommit & Hm2 & Hless); [lia|].
  simpl. rewrite Hserve, Hcommit. pose proof Hm2 as (Hst2 & Hs2 & Hu2 & _).
  destruct (IH w2 i2 j2 e2 Hst2 Hs2) as (w3 & i3 & j3 & e3 & Hrun & Hm3 & Hle3 & _ & Hturns); [lia|].
  exists w3, i3, j3, e3. split_and!; [done|eapply moved_trans; [exact Hm1|]; by eapply moved_trans|lia|lia|].
  assert (pc_turns (pw_state w2) ≠ None) as Hne by (rewrite (commitItems_turns _ _ _ _ Hcommit); by eapply fetched_turns).
  destruct (decide (visits = 0%nat ∨ transcriptPageSize ≤ pw_used w2)) as [Hdone|Hmore].
  - rewrite walkPage_full in Hrun by done. simpl in Hrun. by injection Hrun as <-.
  - apply Hturns; lia.
Qed.

Lemma shells_length a b : (a ≤ b ≤ Datatypes.length T)%nat → Datatypes.length (shells a b) = (b - a)%nat.
Proof. intros Hab. unfold shells. rewrite length_fmap, length_take, length_drop, length_fmap. lia. Qed.

(** A continuation whose turns are used up stands between turns. *)
Lemma stands_between s i j e :
  stands s i j e → (pc_turnIndex s <? Datatypes.length (default [] (pc_turns s)))%nat = false →
  j = 0%nat ∧ e = false ∧ earlier (pc_lastTurnCursor s) i ∧
  (bool_decide (is_Some (pc_turns s)) && is_empty (pc_turnCursor s) = true → i = Datatypes.length T) ∧
  (bool_decide (is_Some (pc_turns s)) && is_empty (pc_turnCursor s) = false → pc_turnCursor s = cur i ∧ (i = 0 ∨ i < Datatypes.length T)%nat).
Proof.
  intros Hst Hidx. apply Nat.ltb_ge in Hidx. pose proof (st_j _ _ _ _ Hst) as Hj.
  destruct (st_turns _ _ _ _ Hst) as [(Ht & -> & -> & _ & Hc & Hl)|(a & b & Hab & Hb0 & Heb & Ht & Hi & Hc & Hl)]; rewrite Ht in *; simpl in *.
  - destruct j as [|j]; [|destruct Hj as [? _]; [lia|done]]. rewrite Hc, Hl. split_and!; [done|done|by left|done|]. intros _. split; [done|by left].
  - rewrite shells_length in Hidx by lia. assert (i = b) as -> by lia. destruct e; [specialize (Heb eq_refl); lia|].
    destruct j as [|j]; [|destruct Hj as [? _]; [lia|done]]. rewrite Hc. split_and!; [done|done|done| |].
    + destruct (b <? Datatypes.length T)%nat eqn:E; [|apply Nat.ltb_ge in E; lia]. apply Nat.ltb_lt in E.
      destruct (ok_cursors sok b) as (Hne & _); [lia|by left|]. by destruct (sv_cursor sv b).
    + destruct (b <? Datatypes.length T)%nat eqn:E; [|done]. apply Nat.ltb_lt in E. intros _. unfold cur.
      rewrite (proj2 (Nat.eqb_neq _ _)) by lia. split; [done|by right].
Qed.

Lemma stands_fetched s i j e :
  stands s i j e → (pc_turnIndex s <? Datatypes.length (default [] (pc_turns s)))%nat = true → fetched s i.
Proof.
  intros Hst Hidx. apply Nat.ltb_lt in Hidx.
  destruct (st_turns _ _ _ _ Hst) as [(Ht & _)|(a & b & Hab & _ & _ & Ht & Hi & _)]; rewrite Ht in Hidx; simpl in Hidx; [lia|].
  rewrite shells_length in Hidx by lia. exists a, b. split_and!; [lia|lia|lia|done|done].
Qed.

Lemma walkPage_S first visits w :
  walkPage first thread threadID (S visits) w =
  (if transcriptPageSize <=? pw_used w then PRet (Ok (w, false)) else
   if (pc_turnIndex (pw_state w) <? Datatypes.length (default [] (pc_turns (pw_state w))))%nat then visitTurn first visits w else
   if bool_decide (is_Some (pc_turns (pw_state w))) && is_empty (pc_turnCursor (pw_state w)) then PRet (Ok (w, false)) else
   let visited := transcriptPageSize - Z.of_nat (S visits) in
   PTurns (pageTurnParams threadID (transcriptPageSize - visited) (pc_turnCursor (pw_state w))) (fun r =>
     match r with
     | Err e => if first && freshThreadMissingSourceRollout sources absent thread threadID e then PRet (Ok (w, true))
                else PRet (Err (EWrap "read Codex thread turns" e))
     | Ok page =>
       match commitTurns visited page (pw_state w) with
       | Err e => PRet (Err e)
       | Ok s =>
         let w := mkWalk s (pw_entries w) (pw_used w) (pw_seen w) in
         if (Datatypes.length (default [] (pc_turns s)) =? 0)%nat then PRet (Ok (w, false)) else visitTurn first visits w
       end
     end)).
Proof. reflexivity. Qed.

Lemma walkPage_ok first visits : (visits ≤ 100)%nat → walks first visits.
Proof.
  induction visits as [|visits IH]; intros Hv w i j e Hst Hseen Hu.
  { exists w, i, j, e. split_and!; [done|apply moved_refl; [done|done|lia]|lia|lia|lia]. }
  specialize (IH ltac:(lia)). destruct (decide (transcriptPageSize ≤ pw_used w)) as [Hfull|Hroom].
  { rewrite walkPage_full by (by right). exists w, i, j, e. split_and!; [done|apply moved_refl; [done|done|lia]|lia|lia|lia]. }
  rewrite walkPage_S, (proj2 (Z.leb_gt _ _)) by lia.
  destruct (pc_turnIndex (pw_state w) <? _)%nat eqn:Hidx.
  { destruct (visitTurn_ok first visits w i j e IH Hst (stands_fetched _ _ _ _ Hst Hidx) Hseen) as (w' & i' & j' & e' & Hrun & Hm & Hle & Hlt & Hne); [lia|].
    exists w', i', j', e'. split_and!; [exact Hrun|done|lia|intros _ ? _; by apply Hlt|by intros]. }
  destruct (stands_between _ _ _ _ Hst Hidx) as (-> & -> & Hlast & Hend & Hmore).
  destruct (bool_decide _ && _) eqn:Hb.
  { exists w, i, 0%nat, false. specialize (Hend eq_refl). split_and!; [done|apply moved_refl; [done|done|lia]|lia|lia|].
    intros _ _ E. rewrite E in Hb. by rewrite bool_decide_eq_false_2 in Hb by (by intros [? ?]). }
  destruct (Hmore eq_refl) as [Hcur Hi]. set (visited := transcriptPageSize - Z.of_nat (S visits)). cbv zeta.
  destruct (commitTurns_ok (pw_state w) i visited) as (page & s' & b & Hserve & Hcommit & Hst' & Hix & Hturns & Hb' & Hbi); [|done..|].
  { unfold visited, transcriptPageSize. lia. }
  cbn [run]. rewrite Hserve, Hcommit. set (w1 := mkWalk s' (pw_entries w) (pw_used w) (pw_seen w)).
  rewrite Hturns. cbn [default from_option id]. rewrite shells_length by lia.
  destruct (b - i =? 0)%nat eqn:Hempty.
  { apply Nat.eqb_eq in Hempty. exists w1, i, 0%nat, false. split_and!; [done| |lia|intros; lia|intros _ _; simpl; by rewrite Hturns].
    split_and!; [done|done|simpl; lia|simpl; lia|]. exists []. simpl. rewrite app_nil_r. split_and!; [done|done|lia]. }
  apply Nat.eqb_neq in Hempty.
  destruct (visitTurn_ok first visits w1 i 0 false IH Hst') as (w' & i' & j' & e' & Hrun & Hm & Hle & Hlt & Hne); [|done|simpl; lia|].
  { exists i, b. simpl. rewrite Hix. split_and!; [lia|lia|lia|done|lia]. }
  exists w', i', j', e'. split_and!; [exact Hrun|exact Hm|lia|intros _ ? _; by apply Hlt|by intros].
Qed.

(** ** Page after page *)

Lemma stands_carried s s' i j e : carried s s' → stands s i j e → stands s' i j e.
Proof.
  destruct s, s'. unfold carried. simpl. intros (E1 & E2 & E3) [H0 H1 H2 H3 H4 H5 H6 H7 H8]. unfold latestOk in H0. simpl in *. simplify_eq. by constructor.
Qed.

Lemma hasOlder_done s i j e : stands s i j e → pc_turns s ≠ None → hasOlder s = false → remaining i j e = [].
Proof.
  intros Hst Hne H. unfold hasOlder in H. apply orb_false_iff in H as [H Hc]. apply orb_false_iff in H as [_ Hidx]. apply negb_false_iff in Hc.
  destruct (stands_between _ _ _ _ Hst Hidx) as (-> & -> & _ & Hend & _). unfold remaining.
  rewrite (lookup_ge_None_2 T i); [done|]. rewrite Hend; [lia|]. rewrite Hc, bool_decide_eq_true_2; [done|]. by destruct (pc_turns s).
Qed.

(** A walk does not change what the continuation was read from. *)
Lemma commitTurns_source visited page s s' : commitTurns visited page s = Ok s' → sourceFields s' = sourceFields s.
Proof.
  unfold commitTurns. destruct page as [[data|] next]; [|done]. destruct (_ <? _); [done|]. destruct (bool_decide _); [done|].
  destruct (match next with Some _ => _ | None => _ end); [done|]. destruct (pageTurns _ _ _) as [turns|]; [|done].
  destruct (match turns with [] => _ | _ => _ end) as [[latest volatile] status]. intros H. by simplify_eq.
Qed.
Lemma commitItems_source turn page w w' : commitItems turn page w = Ok w' → sourceFields (pw_state w') = sourceFields (pw_state w).
Proof.
  unfold ThreadPage.commitItems. destruct page as [[data|] next]; [|done]. destruct (_ <? _); [done|]. destruct (bool_decide _); [done|].
  destruct (takeItems _ _ _ _ _) as [[last w1]|]; [|done]. destruct next as [next|]; [destruct (badCursor _ _ _); [done|]|]; intros; by simplify_eq.
Qed.
Lemma emitFailure_source turn w : sourceFields (pw_state (emitFailure turn w)) = sourceFields (pw_state w).
Proof. unfold emitFailure. destruct (pc_errorEmitted _); [done|]. by destruct (pageFailure turn). Qed.

Lemma walkPage_source first visits w w' fresh :
  run (walkPage first thread threadID visits w) = Ok (w', fresh) → sourceFields (pw_state w') = sourceFields (pw_state w).
Proof.
  revert w. induction visits as [|visits IH]; intros w; [simpl; intros H; by simplify_eq|]. rewrite walkPage_S.
  assert (∀ w, run (visitTurn first visits w) = Ok (w', fresh) → sourceFields (pw_state w') = sourceFields (pw_state w)) as Hvisit.
  { clear w. intros w. unfold visitTurn. destruct (_ !! _) as [turn|]; [|simpl; intros H; by simplify_eq]. cbv zeta.
    rewrite <- (emitFailure_source turn w). set (w1 := emitFailure turn w). destruct (_ =? _); [simpl; intros H; by simplify_eq|].
    cbn [run]. destruct (serveItems _) as [page|]; [|done]. destruct (commitItems turn page w1) as [w2|] eqn:Hc; [|done].
    intros H. by rewrite (IH _ H), (commitItems_source _ _ _ _ Hc). }
  destruct (_ <=? _); [simpl; intros H; by simplify_eq|]. destruct (_ <? _)%nat; [apply Hvisit|].
  destruct (bool_decide _ && _); [simpl; intros H; by simplify_eq|]. cbv zeta. cbn [run]. unfold serveTurns at 1.
  destruct (commitTurns _ _ _) as [s'|] eqn:Hc; [|done]. rewrite <- (commitTurns_source _ _ _ _ Hc).
  destruct (_ =? 0)%nat; [simpl; intros H; by simplify_eq|]. apply Hvisit.
Qed.

(** One walk over items, from where a continuation stands to where the next page
    begins. *)
Lemma readItems_ok first s i j e :
  stands s i j e →
  ∃ w i' j' e', run (readItems sources absent parseURL decodeReplies first thread threadID s) = Ok (w, false) ∧
    stands (pw_state w) i' j' e' ∧ sourceFields (pw_state w) = sourceFields s ∧ pc_turns (pw_state w) ≠ None ∧
    remaining i j e = pw_entries w ++ remaining i' j' e' ∧ (Datatypes.length (pw_entries w) ≤ 100)%nat ∧
    (hasOlder (pw_state w) = true → (measure i' j' < measure i j)%nat) ∧ (hasOlder (pw_state w) = false → remaining i' j' e' = []).
Proof.
  intros Hst.
  destruct (walkPage_ok first 100 ltac:(lia) (startWalk s) i j e Hst) as (w & i' & j' & e' & Hrun & Hmv & Hle & Hlt & Hne);
    [by intros ? ?%elem_of_nil|simpl; unfold transcriptPageSize; lia|].
  destruct Hmv as (Hst' & _ & Hu & es & He & Hr & Hn). simpl in He, Hu, Hn, Hlt, Hne. unfold transcriptPageSize in *.
  specialize (Hne ltac:(lia) ltac:(lia)). exists w, i', j', e'. subst es.
  split_and!; [exact Hrun|done|exact (walkPage_source _ _ _ _ _ Hrun)|done|done|lia| |by apply hasOlder_done]. intros Hold. apply Hlt; [lia..|].
  destruct (decide (i < Datatypes.length T)%nat) as [|Hge]; [done|]. exfalso. pose proof (st_i _ _ _ _ Hst') as Hi'.
  assert (measure i j = 0%nat) as Hz by (unfold measure; rewrite drop_ge by lia; done).
  assert (i' = Datatypes.length T) as ->.
  { destruct (decide (i' = Datatypes.length T)) as [|Hne']; [done|]. destruct (T !! i') as [[raw items]|] eqn:Hti; [|apply lookup_ge_None_1 in Hti; lia].
    pose proof (stands_items _ _ _ _ _ _ Hst' Hti). unfold measure in Hle, Hz. rewrite (work_drop _ _ _ Hti) in Hle. lia. }
  assert (j' = 0%nat) as ->.
  { destruct (decide (j' = 0%nat)); [done|]. destruct (st_j _ _ _ _ Hst') as (_ & raw & items & ? & Hti & _); [lia|]. apply lookup_lt_Some in Hti. lia. }
  destruct (st_turns _ _ _ _ Hst') as [(E & _)|(a & b & Hab & _ & _ & Ht & Hix & Hc & _)]; [done|].
  unfold hasOlder in Hold. rewrite (st_itemCursor _ _ _ _ Hst'), Ht, Hc in Hold. simpl in Hold. rewrite shells_length in Hold by lia.
  rewrite (proj2 (Nat.ltb_ge _ _)), (proj2 (Nat.ltb_ge b _)) in Hold by lia. done.
Qed.

(** ** The whole read *)

Lemma run_pbind {A C} (m : pageProg A) (f : A → pageProg C) : run (pbind m f) = run (f (run m)).
Proof. induction m as [a|params k IH|params k IH|params k IH]; simpl; auto. Qed.

Lemma sameValue_refl v : sameValue v v = true.
Proof.
  revert v. fix IH 1. intros [| | | |l|l]; simpl.
  - done.
  - by destruct b.
  - by rewrite !Z.eqb_refl.
  - apply str_eqb_refl.
  - induction l as [|x l IHl]; [done|]. by rewrite IH, IHl.
  - induction l as [|[k x] l IHl]; [done|]. by rewrite str_eqb_refl, IH, IHl.
Qed.

(** An entry without its time and its citations, which the metadata of the
    rollout and the lookups of sources fill in. *)
Definition plain (e : TranscriptEntry) : TranscriptEntry := timed None false (withCitations [] false e).

Section Pages.
Context (parseTime : string → option Z) (marshalIdentity : list any → string) (marshalTurns : list object → Z).
Context (urlString : string → string) (parseMarkdown : string → mdNode).

Lemma timestamps_plain entries times live :
  plain <$> (applyTranscriptTimestamps parseTime threadID entries times live).1 = plain <$> entries.
Proof.
  unfold applyTranscriptTimestamps. generalize (live !! threadID). intros turn.
  assert (plain <$> (applyTimestamps parseTime times entries turn).1 = plain <$> entries) as H.
  { revert turn. induction entries as [|entry entries IH]; intros turn; [done|]. simpl.
    destruct (applyTimestamp parseTime times entry turn) as [entry' turn'] eqn:E. specialize (IH turn').
    destruct (applyTimestamps _ _ entries turn') as [entries' turn'']. cbn [fst] in *. rewrite !fmap_cons, IH. f_equal.
    unfold applyTimestamp in E. destruct (match turn with Some _ => _ | None => _ end) as [timing l]. injection E as <- _.
    by destruct (timestamp _ timing). }
  by destruct (applyTimestamps parseTime times entries turn).
Qed.

Lemma citations_plain d envs identity path generation file entries local s :
  plain <$> (presentCitations parseURL urlString parseMarkdown d envs threadID identity path generation file entries local s).1 = plain <$> entries.
Proof.
  revert envs local s. induction entries as [|entry entries IH]; intros envs local s; [done|]. simpl.
  destruct (negb _); [|destruct (bool_decide _); [|destruct (bool_decide _); [|destruct (lookupCitations _ _ _ _ _ _ _ _ _ _) as [[found pending] s']]]];
    (match goal with |- context [presentCitations ?a ?b ?c ?d ?e ?f ?g ?h ?i ?j ?k ?l ?m] =>
       specialize (IH e l m); destruct (presentCitations a b c d e f g h i j k l m) end); cbn [fst] in *; by rewrite !fmap_cons, IH.
Qed.

(** *** Reads of a thread that stays as it is *)

Abbreviation path := (stringValue (field "path" thread)).
Abbreviation cwd := (stringValue (field "cwd" thread)).
Abbreviation readThreadPage :=
  (readThreadPage sources absent parseURL decodeReplies parseTime marshalIdentity marshalTurns urlString parseMarkdown).
Abbreviation readSource :=
  (readSource sources absent parseURL decodeReplies parseTime marshalIdentity marshalTurns urlString parseMarkdown).
Abbreviation finishPage := (finishPage parseURL parseTime marshalIdentity marshalTurns urlString parseMarkdown).

(** What the reads meet, by their number: the environment of each, the rollout,
    and what else happens to the client after it. *)
Record readings := mkReadings { rg_env : nat → pageEnv; rg_rollout : nat → fileNode; rg_between : nat → pageClient → pageClient }.

(** The thread is the one asked for and is described well. The connection stays
    the same; the rollout is only appended to; the next page is asked for
    within half an hour; tokens can be drawn; a continuation fits the limit on
    its size (of eight mebibytes, of which its cursors and the tail of the rollout
    take at most three times 4096 bytes); what else the client does evicts
    no continuation. *)
Record readable (rg : readings) (generation : Z) : Prop := {
  rd_id : stringValue (field "id" thread) = threadID;
  rd_path : canonicalPath path = true;
  rd_cwd : cwd ≠ "";
  rd_status : statusValue (field "status" thread) ≠ "";
  rd_generation k : (pe_generation (rg_env rg k), pe_generation2 (rg_env rg k), pe_generation3 (rg_env rg k)) = (generation, generation, generation);
  rd_open k : d_open (pe_disk (rg_env rg k)) path = Some (rg_rollout rg k) ∧ fn_regular (rg_rollout rg k) = true;
  rd_grows k : fn_inode (rg_rollout rg (S k)) = fn_inode (rg_rollout rg k) ∧
    fn_content (rg_rollout rg k) `prefix_of` fn_content (rg_rollout rg (S k)) ∧
    (fn_content (rg_rollout rg (S k)) = fn_content (rg_rollout rg k) → fn_mtime (rg_rollout rg (S k)) = fn_mtime (rg_rollout rg k));
  rd_time k : pe_now (rg_env rg (S k)) - pe_now (rg_env rg k) ≤ pageCursorIdle;
  rd_token k : ∃ token, pe_token (rg_env rg k) = Ok token ∧ validPageCursor token = true;
  rd_room a b : marshalTurns (shells a b) + len (marshalIdentity (pageIdentity thread)) ≤ pageCursorBytes - 3 * 4096 - 512;
  rd_kept k cl token s : cl_cursors cl !! token = Some s → cl_cursors (rg_between rg k cl) !! token = Some s }.

(** The reader: page after page, each with the token of the one before, until
    there is no token. *)
Fixpoint readPages (rg : readings) (fuel k : nat) (cursor : string) (cl : pageClient) : option (list TranscriptPage) :=
  match fuel with
  | O => None
  | S fuel =>
    match run (readThreadPage (rg_env rg k) threadID cursor cl) with
    | (Ok page, cl) =>
      match tp_OlderCursor page with
      | Some token => cons page <$> readPages rg fuel (S k) token (rg_between rg k cl)
      | None => Some [page]
      end
    | (Err _, _) => None
    end
  end.

Lemma tail_there d (n : fileNode) p : d_open d p = Some n → ∃ tail, pageRolloutTail d p (nodeSize n) = Ok tail ∧ RolloutFile.size tail ≤ 4096.
Proof.
  intros Hd. unfold pageRolloutTail. rewrite Hd. set (l := if nodeSize n <? tailSize then nodeSize n else tailSize).
  assert (l ≤ nodeSize n ∧ l ≤ 4096) as [H1 H2] by (unfold l, tailSize; destruct (nodeSize n <? 4096) eqn:E; lia).
  destruct (0 <? l) eqn:E; [|exists []; by split]. apply Z.ltb_lt in E.
  destruct (readFull (fn_content n) (nodeSize n - l) l) as [tail|] eqn:Hr.
  - exists tail. split; [done|]. apply readFull_size in Hr; lia.
  - exfalso. unfold readFull in Hr. rewrite (proj2 (Z.ltb_ge _ 0)), (proj2 (Z.ltb_ge _ _)) in Hr by (unfold nodeSize in *; lia). done.
Qed.

Lemma tail_grown d d' (n n' : fileNode) p :
  d_open d p = Some n → d_open d' p = Some n' → fn_content n `prefix_of` fn_content n' →
  pageRolloutTail d' p (nodeSize n) = pageRolloutTail d p (nodeSize n).
Proof.
  intros Hd Hd' [x Hx]. unfold pageRolloutTail. rewrite Hd, Hd', Hx.
  set (l := if nodeSize n <? tailSize then nodeSize n else tailSize).
  assert (l ≤ nodeSize n) by (unfold l; destruct (nodeSize n <? tailSize) eqn:E; lia).
  destruct (0 <? l) eqn:E; [|done]. apply Z.ltb_lt in E. by rewrite readFull_app by (unfold nodeSize in *; lia).
Qed.

Lemma stands_cursors s i j e : stands s i j e → len (pc_turnCursor s) ≤ cursorLength ∧ len (pc_itemCursor s) ≤ cursorLength.
Proof.
  intros Hst. split.
  - destruct (st_turns _ _ _ _ Hst) as [(_ & _ & _ & _ & -> & _)|(a & b & Hab & Hb0 & _ & _ & _ & -> & _)]; [by vm_compute|].
    destruct (b <? Datatypes.length T)%nat eqn:E; [|by vm_compute]. apply Nat.ltb_lt in E. apply (ok_cursors sok b); [lia|by left].
  - rewrite (st_itemCursor _ _ _ _ Hst). unfold cur. destruct (j =? 0)%nat eqn:E; [by vm_compute|]. apply Nat.eqb_neq in E.
    destruct (st_j _ _ _ _ Hst) as (_ & raw & items & last & Hti & Hlt & _); [lia|].
    apply (ok_cursors sok j); [lia|]. right. exists raw, items. split; [by eapply list_elem_of_lookup_2|lia].
Qed.

Section Reads.
Context (rg : readings) (generation : Z) (rok : readable rg generation).

Definition sourceAt (k : nat) : string * string * string * list any * Z * option fileInfo :=
  (threadID, cwd, path, pageIdentity thread, generation, Some (stat (rg_rollout rg k))).

(** The continuation that the [k]-th read left under a token. *)
Definition storedAt (k : nat) (token : string) (cl : pageClient) (i j : nat) (e : bool) : Prop :=
  validPageCursor token = true ∧ ∃ s, cl_cursors cl !! token = Some s ∧ stands s i j e ∧ sourceFields s = sourceAt k ∧
    pageRolloutTail (pe_disk (rg_env rg k)) path (nodeSize (rg_rollout rg k)) = Ok (pc_tail s) ∧ pc_lastUsed s = pe_now (rg_env rg k).

Lemma stands_stored tail bytes used s i j e : stands s i j e → stands (setStored tail bytes used s) i j e.
Proof. by apply stands_carried. Qed.
Lemma stands_source a b c d g f s i j e : stands s i j e → stands (setSource a b c d g f s) i j e.
Proof. by apply stands_carried. Qed.
Lemma stands_latest raw s i j e : T.*1 !! 0%nat = Some raw → stands s i j e → stands (setLatest (turnID raw) s) i j e.
Proof. intros Hraw [[_ Hv] ????????]. constructor; try done. split; [|done]. right. eauto. Qed.

(** What a walk has found becomes a page, and what is left is stored. *)
Lemma finishPage_ok k w cl i j e :
  stands (pw_state w) i j e → pc_turns (pw_state w) ≠ None → sourceFields (pw_state w) = sourceAt k →
  ∃ page cl', finishPage (rg_env rg k) thread threadID path (Some (stat (rg_rollout rg k))) w cl = (Ok page, cl') ∧
    plain <$> tp_Entries page = plain <$> rev (pw_entries w) ∧ tp_HasOlder page = hasOlder (pw_state w) ∧
    tp_LatestTurnID page = default "" (turnID <$> T.*1 !! 0%nat) ∧
    (hasOlder (pw_state w) = false ∧ tp_OlderCursor page = None ∨
     hasOlder (pw_state w) = true ∧ ∃ token, tp_OlderCursor page = Some token ∧ storedAt k token cl' i j e).
Proof.
  intros Hst Hne Hsrc. unfold ThreadPage.finishPage. pose proof (rd_generation _ _ rok k) as Hg. injection Hg as G1 G2 G3.
  rewrite G1, G2, G3, Z.eqb_refl. cbn [negb]. set (s := pw_state w) in *.
  assert (pc_latestTurnID s = default "" (turnID <$> T.*1 !! 0%nat)) as Hlatest.
  { destruct (st_latest _ _ _ _ Hst) as [[[-> [?| ->]]|(raw & -> & ->)] _]; done. }
  assert (∃ older cursors, (if hasOlder s then
      match savePageCursor (pe_disk (rg_env rg k)) (pe_now (rg_env rg k)) (marshalTurns (default [] (pc_turns s)))
              (len (marshalIdentity (pc_identity s))) (pe_token (rg_env rg k)) (pe_iterations (rg_env rg k)) s (cl_cursors cl) with
      | (Ok token, cursors) => (Ok (Some token), cursors)
      | (Err e, cursors) => (Err e, cursors)
      end
    else (Ok None, cl_cursors cl)) = (Ok older, cursors) ∧
    (hasOlder s = false ∧ older = None ∨
     hasOlder s = true ∧ ∃ token, older = Some token ∧ ∀ pages live citations, storedAt k token (mkPageClient cursors pages live citations) i j e))
    as (older & cursors & -> & Hcase).
  { destruct (hasOlder s) eqn:Ho; [|eauto 10]. unfold sourceFields, sourceAt in Hsrc. injection Hsrc as S1 S2 S3 S4 S5 S6.
    destruct (rd_open _ _ rok k) as [Hopen _]. destruct (tail_there _ _ _ Hopen) as (tail & Htail & Hts).
    destruct (rd_token _ _ rok k) as (token & Htok & Hvalid). destruct (stands_cursors _ _ _ _ Hst) as [C1 C2].
    destruct (st_turns _ _ _ _ Hst) as [(E & _)|(a & b & _ & _ & _ & Ht & _)]; [done|].
    pose proof (rd_room _ _ rok a b) as Hroom. unfold savePageCursor. rewrite S6. cbn [fi_size stat]. rewrite S3, Htail, Htok, Ht, S4.
    cbn [default from_option id]. unfold cursorLength in *. rewrite (proj2 (Z.ltb_ge _ _)) by lia. do 2 eexists. split; [reflexivity|]. right.
    split; [done|]. exists token. split; [done|]. intros pages live citations. split; [done|]. eexists.
    split; [simpl; by rewrite lookup_insert_eq|]. split_and!; [by apply stands_stored| |exact Htail|done].
    unfold sourceFields, sourceAt. simpl. by rewrite S1, S2, S3, S4, S5, S6. }
  destruct (pageMetadataSnapshot _ _ _ _ _ _ _ _ _ _ _) as [[[mode times] pending] pages].
  pose proof (timestamps_plain (rev (pw_entries w)) times (cl_live cl)) as Hp1.
  destruct (applyTranscriptTimestamps _ _ _ _ _) as [entries live]. cbn [fst] in Hp1.
  match goal with |- context [presentCitations ?a ?b ?c ?d ?e ?f ?g ?h ?i ?j ?k ?l ?m] => pose proof (citations_plain d e g h i j k l m) as Hp2;
    destruct (presentCitations a b c d e f g h i j k l m) as [entries' citations] end. cbn [fst] in Hp2.
  do 2 eexists. split; [reflexivity|]. cbn [tp_Entries tp_HasOlder tp_LatestTurnID tp_OlderCursor]. split_and!; [congruence|done|done|].
  destruct Hcase as [?|(Ho & token & -> & Hst')]; [by left|right]. split; [done|]. exists token. auto.
Qed.

(** The request for the latest turn names the one that is running still. *)
Lemma checkLatest_ok s i j e :
  stands s i j e →
  ∃ page s', serveTurns (latestParams threadID) = Ok page ∧ checkLatest page s = Ok s' ∧ stands s' i j e ∧ sourceFields s' = sourceFields s.
Proof.
  intros Hst. unfold serveTurns, answer. change (startOf (latestParams threadID)) with 0%nat.
  change (integerValue (field "limit" (latestParams threadID))) with 1.
  destruct (ok_takeTurns sok 0 1) as [H1 H2]; [lia|]. assert (sv_takeTurns sv 0 1 = 1%nat) as -> by lia. rewrite drop_0.
  destruct (st_latest _ _ _ _ Hst) as [_ Hv]. destruct (T.*1) as [|raw raws] eqn:ET.
  - eexists _, s. split; [done|]. unfold checkLatest. simpl.
    destruct Hv as [->|(raw & Hraw & _)]; [by split_and!|done].
  - assert (T.*1 !! 0%nat = Some raw) as Hraw by (by rewrite ET). destruct (raws_lookup _ _ Hraw) as [items Hti].
    destruct (turn_at _ _ _ Hti) as (shell & Hs & Hsh & Hid).
    eexists _, (setLatest (turnID raw) s). split; [done|]. unfold checkLatest. simpl. rewrite Hs. unfold turnID in Hid at 1. rewrite Hid. fold (turnID raw).
    split; [|split; [|done]]; [|by apply stands_latest].
    destruct Hv as [->|(raw' & Hraw' & -> & ->)]; [done|]. simpl in Hraw'. injection Hraw' as <-. by rewrite Hsh, !str_eqb_refl, andb_false_r.
Qed.

(** A read begins where the one before stopped. *)
Lemma page_starts k cursor cl i j e :
  (cursor = "" ∧ i = 0%nat ∧ j = 0%nat ∧ e = false) ∨ (∃ m, k = S m ∧ storedAt m cursor cl i j e) →
  ∃ s cl', run (readThreadPage (rg_env rg k) threadID cursor cl) =
      run (readSource (rg_env rg k) thread threadID cursor (Some (stat (rg_rollout rg k))) None cl' s) ∧
    stands s i j e ∧ sourceFields s = sourceAt k.
Proof.
  intros Hcase. destruct rok as [Rid Rpath Rcwd Rstatus Rgen Ropen Rgrow Rtime _ _ _].
  destruct (Ropen k) as [Hopen Hreg]. pose proof (Rgen k) as Hg. injection Hg as G1 _ _.
  assert (is_empty path = false ∧ is_empty cwd = false ∧ is_empty (statusValue (field "status" thread)) = false) as (P1 & P2 & P3).
  { split_and!; [|by destruct cwd|by destruct (statusValue _)]. destruct path; [by vm_compute in Rpath|done]. }
  assert (pageFile (pe_disk (rg_env rg k)) path = Ok (Some (stat (rg_rollout rg k)))) as Hfile
    by (unfold pageFile; by rewrite P1, Rpath, Hopen, Hreg).
  unfold ThreadPage.readThreadPage. destruct Hcase as [(-> & -> & -> & ->)|(m & -> & Hvalid & s & Hlook & Hst & Hsrc & Htail & Hused)].
  - change (is_empty "") with true. cbv beta iota zeta. cbn [run]. rewrite Rid, str_eqb_refl. cbn [negb]. unfold sourceOf. rewrite P1, P2, Hfile, P3.
    change (is_empty "") with true. cbn [negb andb orb].
    do 2 eexists. split; [reflexivity|]. split; [|by rewrite G1].
    constructor; simpl; try done; [|lia|lia|by left|by left]. split; [left|]; auto.
  - assert (is_empty cursor = false) as Hc by (by destruct cursor). rewrite Hc. unfold loadPageCursor. rewrite Hvalid, Hlook. cbn [negb].
    rewrite Hused, (proj2 (Z.ltb_ge _ _)) by apply Rtime. unfold sourceFields, sourceAt in Hsrc. injection Hsrc as S1 S2 S3 S4 S5 S6.
    rewrite S1, str_eqb_refl. cbn [negb run]. rewrite Rid, str_eqb_refl. cbn [negb]. unfold sourceOf. rewrite P1, P2, Hfile, Hc, P3. cbn [orb negb andb].
    assert (sameSource (pe_disk (rg_env rg (S m))) (setStored (pc_tail s) (pc_bytes s) (pe_now (rg_env rg (S m))) s) cwd path (pageIdentity thread)
      (pe_generation (rg_env rg (S m))) (Ok (Some (stat (rg_rollout rg (S m))))) = true) as ->.
    { destruct (Rgrow m) as (I1 & I2 & I3). destruct (Ropen m) as [Hopen' _]. unfold sameSource.
      cbn [pc_generation pc_cwd pc_path pc_identity pc_file pc_tail setStored]. rewrite S2, S3, S4, S5, S6, G1, Z.eqb_refl, !str_eqb_refl, sameValue_refl.
      cbn [fi_size fi_mtime fi_inode stat]. rewrite (tail_grown _ _ _ _ _ Hopen' Hopen I2), Htail, bool_decide_eq_true_2 by done.
      unfold sameFile. cbn [fi_inode stat]. rewrite I1, Z.eqb_refl. cbn [andb]. destruct I2 as [x Hx].
      assert (nodeSize (rg_rollout rg (S m)) = nodeSize (rg_rollout rg m) + RolloutFile.size x) as Hsz by (unfold nodeSize; by rewrite Hx, size_app).
      pose proof (size_nonneg x). rewrite (proj2 (Z.leb_le _ _)), andb_true_r by lia. cbn [andb].
      destruct (nodeSize (rg_rollout rg (S m)) =? nodeSize (rg_rollout rg m)) eqn:E; [|done]. apply Z.eqb_eq in E. cbn [negb orb].
      apply Z.eqb_eq, I3. rewrite Hx. assert (x = []) as ->; [|by rewrite app_nil_r]. destruct x; [done|]. unfold RolloutFile.size in *. simpl in *. lia. }
    cbn [negb andb]. destruct (checkLatest_ok (setSource threadID cwd path (pageIdentity thread) (pe_generation (rg_env rg (S m)))
      (Some (stat (rg_rollout rg (S m)))) (setStored (pc_tail s) (pc_bytes s) (pe_now (rg_env rg (S m))) s)) i j e) as (page & s' & Hserve & Hcheck & Hst' & Hsrc').
    { by apply stands_source, stands_stored. }
    cbn [run]. rewrite Hserve, Hcheck. do 2 eexists. split; [reflexivity|]. split; [done|]. rewrite Hsrc'. unfold sourceFields, sourceAt. simpl. by rewrite G1.
Qed.

(** One page. *)
Lemma page_ok k cursor cl i j e :
  (cursor = "" ∧ i = 0%nat ∧ j = 0%nat ∧ e = false) ∨ (∃ m, k = S m ∧ storedAt m cursor cl i j e) →
  ∃ page cl' i' j' e' es, run (readThreadPage (rg_env rg k) threadID cursor cl) = (Ok page, cl') ∧
    remaining i j e = es ++ remaining i' j' e' ∧ plain <$> tp_Entries page = plain <$> rev es ∧ (Datatypes.length es ≤ 100)%nat ∧
    tp_LatestTurnID page = default "" (turnID <$> T.*1 !! 0%nat) ∧
    (tp_HasOlder page = false ∧ tp_OlderCursor page = None ∧ remaining i' j' e' = [] ∨
     tp_HasOlder page = true ∧ ∃ token, tp_OlderCursor page = Some token ∧ storedAt k token cl' i' j' e' ∧ (measure i' j' < measure i j)%nat).
Proof.
  intros Hcase. destruct (page_starts k cursor cl i j e Hcase) as (s & cl1 & -> & Hst & Hsrc). unfold ThreadPage.readSource. rewrite run_pbind.
  destruct (readItems_ok (is_empty cursor) s i j e Hst) as (w & i' & j' & e' & Hrun & Hst' & Hsrc' & Hne & Hrem & Hlen & Hmore & Hdone).
  rewrite Hrun. cbn [run].
  destruct (finishPage_ok k w cl1 i' j' e' Hst' Hne) as (page & cl' & Hfin & Hent & Hold & Hlat & Hor); [congruence|].
  exists page, cl', i', j', e', (pw_entries w). split_and!; [exact Hfin|done|done|done|done|].
  destruct Hor as [[E H]|(E & token & H & Hs)]; rewrite Hold, E; [left|right]; [auto|]. split; [done|]. exists token. auto.
Qed.

Lemma readPages_ok fuel k cursor cl i j e :
  (cursor = "" ∧ i = 0%nat ∧ j = 0%nat ∧ e = false) ∨ (∃ m, k = S m ∧ storedAt m cursor cl i j e) → (measure i j < fuel)%nat →
  ∃ pages, readPages rg fuel k cursor cl = Some pages ∧
    plain <$> concat (tp_Entries <$> rev pages) = plain <$> rev (remaining i j e) ∧
    Forall (fun page => (Datatypes.length (tp_Entries page) ≤ 100)%nat ∧ tp_LatestTurnID page = default "" (turnID <$> T.*1 !! 0%nat) ∧
      tp_HasOlder page = bool_decide (is_Some (tp_OlderCursor page))) pages.
Proof.
  revert k cursor cl i j e. induction fuel as [|fuel IH]; intros k cursor cl i j e Hcase Hm; [lia|].
  destruct (page_ok k cursor cl i j e Hcase) as (page & cl' & i' & j' & e' & es & Hrun & Hrem & Hent & Hlen & Hlat & Hor).
  assert (Datatypes.length (tp_Entries page) ≤ 100)%nat as Hlen'.
  { apply (f_equal Datatypes.length) in Hent. rewrite !length_fmap, length_rev in Hent. lia. }
  cbn [readPages]. rewrite Hrun. destruct Hor as [(Ho & Htok & Hnil)|(Ho & token & Htok & Hs & Hlt)].
  - exists [page]. rewrite Htok. split; [done|]. simpl. rewrite app_nil_r, Hent, Hrem, Hnil, app_nil_r. split; [done|].
    constructor; [|constructor]. rewrite Ho, Htok. by split_and!.
  - rewrite Htok. destruct (IH (S k) token (rg_between rg k cl') i' j' e') as (pages & -> & Hp & Hall); [|lia|].
    + right. exists k. split; [done|]. destruct Hs as (Hv & s & Hlook & Hrest). split; [done|]. exists s. split; [by apply (rd_kept _ _ rok)|done].
    + exists (page :: pages). split; [done|]. split.
      * simpl. rewrite fmap_app, concat_app, fmap_app, Hp. simpl. rewrite app_nil_r, Hent, <- fmap_app. f_equal. by rewrite Hrem, rev_app_distr.
      * constructor; [|done]. rewrite Ho, Htok. by split_and!.
Qed.
End Reads.

(** C34. Page after page shows the whole transcript: reading from the newest page
    on, each page with the token the one before returned, comes to a page without
    a token, and the pages together, oldest first, have every failure and every
    item of the thread exactly once and in order, but for the times and citations
    that are filled in from elsewhere ([plain]); at most a hundred on a page,
    each with the latest turn, and [hasOlder] true exactly when there is a token.
    However App Server cuts its answers ([serverOk]: turns and items are named
    apart, cursors tell positions, an answer is not empty unless at the end), as
    long as the thread stays as it is and the reads are undisturbed ([readable]):
    the same connection, a rollout that is at most appended to, half an hour at
    most between pages, and continuations that fit the store and are not
    evicted by other reads. *)
Theorem thread_pages_complete rg generation cl :
  readable rg generation →
  ∃ pages, readPages rg (S (work T)) 0 "" cl = Some pages ∧
    plain <$> concat (tp_Entries <$> rev pages) = plain <$> rev allEntries ∧
    Forall (fun page => (Datatypes.length (tp_Entries page) ≤ 100)%nat ∧ tp_LatestTurnID page = default "" (turnID <$> T.*1 !! 0%nat) ∧
      tp_HasOlder page = bool_decide (is_Some (tp_OlderCursor page))) pages.
Proof.
  intros Hr. rewrite <- remaining_start. apply (readPages_ok rg generation Hr); [by left|unfold measure; rewrite drop_0; lia].
Qed.
End Pages.

End Server.

(** ** Instances *)

Definition demoItem (n : nat) : object := [("id", AStr (String (ascii_of_nat n) "")); ("type", AStr "agentMessage"); ("text", AStr "answer")].

Definition demoItems (n : nat) : list object := demoItem <$> seq 0 n.

(** A running turn of 130 items and a failed one of three; answers have 60
    items and one turn at most. *)
Definition demoServer : server :=
  mkServer
    [([("id", AStr "new"); ("status", AStr "inProgress")], demoItems 130);
     ([("id", AStr "old"); ("status", AStr "failed")], demoItems 3)]
    (fun _ _ => 1%nat) (fun _ _ limit => Z.to_nat (Z.min limit 60))
    (fun n => String (ascii_of_nat n) "")
    (fun c => match c with String a "" => nat_of_ascii a | _ => 0%nat end).

Lemma demo_turn raw items : (raw, items) ∈ sv_turns demoServer → (∃ shell, pageTurn raw = Ok shell) ∧ ∃ n, (n ≤ 130)%nat ∧ items = demoItems n.
Proof.
  cbn [sv_turns demoServer]. intros [E|[E|[]%elem_of_nil]%elem_of_cons]%elem_of_cons; injection E as -> ->;
    (split; [eexists; reflexivity|]); [exists 130%nat|exists 3%nat]; (split; [lia|done]).
Qed.

Lemma demoServer_ok : serverOk demoServer.
Proof.
  constructor.
  - intros raw items Hin. by apply demo_turn in Hin as [? _].
  - apply (bool_decide_unpack _). vm_compute. exact I.
  - intros raw items item Hin Hi. apply demo_turn in Hin as (_ & n & _ & ->). apply list_elem_of_fmap in Hi as (k & -> & _). done.
  - apply (bool_decide_unpack _). vm_compute. exact I.
  - intros n Hn Hlt. split; [done|]. split; [done|]. simpl. apply nat_ascii_embedding.
    destruct Hlt as [Hlt|(raw & items & Hin & Hlt)]; [simpl in Hlt; lia|].
    apply demo_turn in Hin as (_ & k & Hk & ->). unfold demoItems in Hlt. rewrite length_fmap, length_seq in Hlt. lia.
  - intros from limit Hl. simpl. lia.
  - intros i from limit Hl. simpl. lia.
Qed.

Definition noFiles : disk := mkDisk (fun _ => None) (fun _ => None) (fun _ => []).
Definition demoToken : string := "0123456789abcdef0123456789ABCDEF".

(** Its rollout grows by a line with every read; a minute passes between pages. *)
Definition demoThread : object := [("id", AStr "thread"); ("path", AStr "/rollout"); ("cwd", AStr "/work"); ("status", AStr "active")].
Definition demoNode (k : nat) : fileNode := mkNode 7 (Z.of_nat k) true (replicate k newlineByte).
Definition demoEnv (k : nat) : pageEnv :=
  mkPageEnv (mkDisk (fun _ => Some (demoNode k)) (fun _ => Some (demoNode k)) (fun _ => [])) (60 * second * Z.of_nat k) 1 1 1
    (Ok demoToken) [] [] true None (fun _ => mkLookEnv 0 true [] []).
Definition demoReadings : readings := mkReadings demoEnv demoNode (fun _ cl => cl).
Definition demoSize (turns : list object) : Z := Z.min 100 (Z.of_nat (Datatypes.length turns)).

Lemma demo_readable : readable demoThread "thread" demoServer (fun _ => "id") demoSize demoReadings 1.
Proof.
  constructor; try done.
  - intros k. simpl. split_and!; [done| |].
    + exists [newlineByte]. change (newlineByte :: replicate k newlineByte) with (replicate (S k) newlineByte).
      replace (S k) with (k + 1)%nat by lia. apply (replicate_add k 1).
    + intros E. apply (f_equal Datatypes.length) in E. simpl in E. rewrite length_replicate in E. lia.
  - intros k. simpl pe_now. unfold pageCursorIdle, second. lia.
  - intros k. exists demoToken. by vm_compute.
  - intros a b. unfold demoSize. change (len "id") with 2. unfold pageCursorBytes. change (Z.shiftl 8 20) with 8388608. lia.
Qed.

Definition demoClient : pageClient := mkPageClient ∅ noPages ∅ noCitations.
Definition demoPages : option (list TranscriptPage) :=
  readPages [] (fun _ => false) demoThread "thread" (fun _ => None) (fun _ => None) demoServer (fun _ => None) (fun _ => "id") demoSize
    (fun url => url) (fun _ => MNode []) demoReadings (S (work (sv_turns demoServer))) 0 "" demoClient.

(** Its 134 entries, 133 items and a failure, on two pages. *)
Lemma thread_pages_complete_witness :
  match demoPages with Some pages => map (fun page => Datatypes.length (tp_Entries page)) pages = [100; 34]%nat | None => False end ∧
  ∃ pages, demoPages = Some pages ∧
    plain <$> concat (tp_Entries <$> rev pages) = plain <$> rev (allEntries (fun _ => None) (fun _ => None) demoServer).
Proof.
  split; [vm_compute; reflexivity|].
  destruct (thread_pages_complete [] (fun _ => false) demoThread "thread" (fun _ => None) (fun _ => None) demoServer demoServer_ok
    (fun _ => None) (fun _ => "id") demoSize (fun url => url) (fun _ => MNode []) demoReadings 1 demoClient demo_readable) as (pages & H1 & H2 & _).
  exists pages. split; [exact H1|exact H2].
Defined.

Definition demoCont (thread : string) (bytes used : Z) : pageContinuation := setStored [] bytes used (newCont thread "/work" "/rollout" [] 1 None).
Definition demoTwo : pageCursors := <["first" := demoCont "thread" 6291456 1]> {["second" := demoCont "other" 1048576 2]}.
Definition demoSave : res err string * pageCursors :=
  savePageCursor noFiles 3 4194304 2 (Ok demoToken) (replicate 3 ["first"; "second"]) (newCont "thread" "/work" "/rollout" [] 1 None) demoTwo.

Lemma demoTwo_bytes : bytesOk demoTwo.
Proof. apply map_Forall_insert_2; [simpl; lia|]. apply map_Forall_singleton. simpl. lia. Qed.

Lemma demoTwo_keys : Forall (fun iteration => ∀ key, is_Some (demoTwo !! key) → key ∈ iteration) (replicate 3 ["first"; "second"]).
Proof.
  apply Forall_replicate. intros key [s H]. unfold demoTwo in H. apply lookup_insert_Some in H as [[<- _]|[_ H]]; [by left|].
  apply lookup_singleton_Some in H as [<- _]. right. by left.
Qed.

Lemma demoSave_ok : demoSave = (Ok demoToken, demoSave.2).
Proof. vm_compute. reflexivity. Qed.

(** Four mebibytes more: the oldest continuation goes. *)
Lemma page_cursors_bounded_witness :
  (base.size demoSave.2 ≤ pageCursorLimit)%nat ∧ totalBytes demoSave.2 ≤ pageCursorBytes ∧ demoSave.2 !! "first" = None.
Proof.
  destruct (page_cursors_bounded noFiles 3 4194304 2 (Ok demoToken) (replicate 3 ["first"; "second"])
    (newCont "thread" "/work" "/rollout" [] 1 None) demoTwo demoToken demoSave.2
    ltac:(lia) ltac:(lia) demoTwo_bytes ltac:(vm_compute; lia) demoTwo_keys demoSave_ok) as (H1 & H2 & _).
  split; [exact H1|]. split; [exact H2|]. vm_compute. reflexivity.
Defined.

Lemma page_cursor_roundtrip_witness : ∃ s' cursors'',
  loadPageCursor 60000000003 demoToken "thread" demoSave.2 = (Ok s', cursors'') ∧ pc_lastUsed s' = 60000000003.
Proof.
  destruct (page_cursor_roundtrip noFiles 3 60000000003 4194304 2 (replicate 3 ["first"; "second"])
    (newCont "thread" "/work" "/rollout" [] 1 None) demoTwo demoToken demoToken demoSave.2
    demoSave_ok ltac:(reflexivity) ltac:(vm_compute; discriminate)) as (s' & c & H & _ & _ & _ & Hu & _).
  exists s', c. split; [exact H|exact Hu].
Defined.
