(* ===== verification/TurnHistory.v ===== *)
(** * The history of a thread's turns

    [src/codex/turn_history.go]: who keeps the histories of threads and for how
    long, and how the turns of a thread are read without a second reader: newest
    first, page by page, with the older turns taken over from the read before
    ([readTurnHistory]). A page is asked for with [PTurns]. The gates are the
    caller's: [gate] is what waiting for one ended with. What the paged reader
    keeps in the same cache is in [ActivityHistory.v]. *)
From Stdlib Require Import Ascii String.
From S2P Require Import Prelude GoStd GoPath GoValue Wire History Activity ActivityHistory PagedRequests.
Open Scope Z_scope.
Open Scope codex_scope.

(** ** Turns that are held *)

(** A turn as App Server gave it, or what is kept of it. *)
Inductive heldTurn := Whole (turn : object) | Kept (id status : any) (metadata : TurnMetadata).
Definition heldID (h : heldTurn) : string := stringValue match h with Whole turn => field "id" turn | Kept id _ _ => id end.
Definition heldStatus (h : heldTurn) : string := statusValue match h with Whole turn => field "status" turn | Kept _ status _ => status end.
(** [turnMetadata] with what was kept. *)
Definition heldMetadata (threadID : string) (h : heldTurn) : TurnMetadata :=
  match h with Whole turn => turnMetadata turn threadID | Kept _ _ metadata => metadata end.
Definition keepTurn (threadID : string) (h : heldTurn) : heldTurn :=
  match h with
  | Whole turn => Kept (field "id" turn) (field "status" turn) (turnMetadata turn threadID)
  | Kept _ _ _ => h
  end.

Record cachedTurnHistory := mkCached { ct_path : string; ct_turns : list heldTurn; ct_cursor : string; ct_complete : bool }.
Definition emptyHistory (path : string) : cachedTurnHistory := mkCached path [] "" false.

(** ** Keeping histories *)

Definition idleTurnHistoryLimit : nat := 8.
Record threadHistoryCache := mkHistoryCache { hc_cached : cachedTurnHistory; hc_readers : Z; hc_watchers : Z; hc_retry : bool }.
Definition newHistoryCache : threadHistoryCache := mkHistoryCache (emptyHistory "") 0 0 false.
Record histories := mkHistories { th_caches : gmap string threadHistoryCache; th_idle : list string }.

Definition addOwner (watch : bool) (n : Z) (c : threadHistoryCache) : threadHistoryCache :=
  if watch then mkHistoryCache (hc_cached c) (hc_readers c) (hc_watchers c + n) (hc_retry c)
  else mkHistoryCache (hc_cached c) (hc_readers c + n) (hc_watchers c) (hc_retry c).

Definition retainTurnHistory (threadID : string) (watch : bool) (s : histories) : histories :=
  let cache := default newHistoryCache (th_caches s !! threadID) in
  mkHistories (<[threadID := addOwner watch 1 cache]> (th_caches s)) (List.filter (fun id => negb (str_eqb id threadID)) (th_idle s)).

(** [None] is the panic of a history that is not there. *)
Definition releaseTurnHistory (threadID : string) (watch : bool) (s : histories) : option histories :=
  match th_caches s !! threadID with
  | None => None
  | Some cache =>
    let cache := addOwner watch (-1) cache in
    let caches := <[threadID := cache]> (th_caches s) in
    if (0 <? hc_watchers cache) || (0 <? hc_readers cache) then Some (mkHistories caches (th_idle s)) else
    if negb (hc_retry cache) then Some (mkHistories (delete threadID caches) (th_idle s)) else
    let idle := th_idle s ++ [threadID] in
    Some (if (idleTurnHistoryLimit <? Datatypes.length idle)%nat
          then match idle with
               | [] => mkHistories caches idle
               | oldest :: idle => mkHistories (delete oldest caches) idle
               end
          else mkHistories caches idle)
  end.

(** ** Reading *)

Definition recentTurnLimit : Z := 20.

(** The variables of the loop, newest turn first. *)
Record historyWalk := mkHistoryWalk {
  hw_turns : list heldTurn; hw_seenIDs : list string; hw_seenCursors : list string; hw_cursor : string;
  hw_complete : bool; hw_save : bool }.
Definition startHistory : historyWalk := mkHistoryWalk [] [] [] "" false false.

Section reading.
Context (threadID firstView : string).

Definition historyParams (cursor : string) : object :=
  let view := if negb (is_empty cursor) && negb (str_eqb firstView "full") then "notLoaded" else firstView in
  [("threadId", AStr threadID); ("limit", ANum recentTurnLimit 0); ("sortDirection", AStr "desc"); ("itemsView", AStr view)]
  ++ (if is_empty cursor then [] else [("cursor", AStr cursor)]).

Definition appendTurn (turn : heldTurn) (w : historyWalk) : res err historyWalk :=
  let id := heldID turn in
  let? _ := guard (is_empty id || str_in id (hw_seenIDs w))
              (EMsg "thread/turns/list returned missing or repeated turn identity") in
  let turn := if negb (is_empty (hw_cursor w)) && str_eqb firstView "full" then keepTurn threadID turn else turn in
  Ok (mkHistoryWalk (hw_turns w ++ [turn]) (id :: hw_seenIDs w) (hw_seenCursors w) (hw_cursor w) (hw_complete w) (hw_save w)).
Fixpoint appendTurns (turns : list heldTurn) (w : historyWalk) : res err historyWalk :=
  match turns with
  | [] => Ok w
  | turn :: turns => let? w := appendTurn turn w in appendTurns turns w
  end.

(** The turns behind the first one with an identity. *)
Fixpoint olderThan (anchor : string) (turns : list heldTurn) : option (list heldTurn) :=
  match turns with
  | [] => None
  | turn :: turns => if str_eqb (heldID turn) anchor then Some turns else olderThan anchor turns
  end.
Definition historyFinal : list string := ["completed"; "failed"; "interrupted"].
Definition reusable (older : heldTurn) : bool :=
  str_in (heldStatus older) historyFinal && negb (str_eqb firstView "full" && negb (tm_CountsKnown (heldMetadata threadID older))).

(** What the refreshed first page takes over from the cache, and the next cursor. *)
Definition takeOver (cached : cachedTurnHistory) (next : string) (w : historyWalk) : res err (historyWalk * string) :=
  match is_empty (hw_cursor w), last (hw_turns w) with
  | true, Some anchor =>
    match olderThan (heldID anchor) (ct_turns cached) with
    | Some older =>
      if forallb reusable older then
        let? w := appendTurns older w in
        if ct_complete cached
        then Ok (mkHistoryWalk (hw_turns w) (hw_seenIDs w) (hw_seenCursors w) (hw_cursor w) true (hw_save w), next)
        else Ok (w, if is_empty (ct_cursor cached) then next else ct_cursor cached)
      else Ok (w, next)
    | None => Ok (w, next)
    end
  | _, _ => Ok (w, next)
  end.

(** A page, and whether it was the last; after an error nothing is saved. *)
Definition commitHistory (cached : cachedTurnHistory) (page : turnPage) (w : historyWalk) : res err (historyWalk * bool) :=
  match page.1 with
  | None => Err (EMsg "thread/turns/list returned no data")
  | Some data =>
    let? w := appendTurns (Whole <$> data) w in
    match page.2 with
    | None => Ok (mkHistoryWalk (hw_turns w) (hw_seenIDs w) (hw_seenCursors w) (hw_cursor w) true true, true)
    | Some next =>
      let? _ := guard (is_empty next || str_in next (hw_seenCursors w)) (EMsg "thread/turns/list returned empty or repeated cursor") in
      let? '(w, next) := takeOver cached next w in
      if hw_complete w then Ok (mkHistoryWalk (hw_turns w) (hw_seenIDs w) (hw_seenCursors w) next true true, true) else
      let? _ := guard (str_in next (hw_seenCursors w)) (EMsg "thread/turns/list returned repeated cursor") in
      Ok (mkHistoryWalk (hw_turns w) (hw_seenIDs w) (next :: hw_seenCursors w) next false true, false)
    end
  end.

Definition unsaved (w : historyWalk) : historyWalk :=
  mkHistoryWalk (hw_turns w) (hw_seenIDs w) (hw_seenCursors w) (hw_cursor w) (hw_complete w) false.

(** The loop; [fuel] requests fit into the caller's deadline. *)
Fixpoint historyPages (fuel : nat) (cached : cachedTurnHistory) (w : historyWalk) : pageProg (option err * historyWalk) :=
  match fuel with
  | O => PRet (Some EDeadline, w)
  | S fuel =>
    PTurns (historyParams (hw_cursor w)) (fun r =>
      match r with
      | Err e => PRet (Some e, w)
      | Ok page =>
        match commitHistory cached page w with
        | Err e => PRet (Some e, unsaved w)
        | Ok (w, true) => PRet (None, w)
        | Ok (w, false) => historyPages fuel cached w
        end
      end)
  end.

(** The deferred save. *)
Definition saveHistory (rolloutPath : string) (w : historyWalk) (cache : threadHistoryCache) : threadHistoryCache :=
  if negb (hw_save w) then cache else
  mkHistoryCache (mkCached rolloutPath (keepTurn threadID <$> hw_turns w) (hw_cursor w) (hw_complete w))
    (hc_readers cache) (hc_watchers cache) (negb (hw_complete w) && negb (is_empty (hw_cursor w))).

Definition readTurnHistory (fuel : nat) (gate : option err) (rolloutPath : string) (cache : threadHistoryCache)
    : pageProg (res err (list heldTurn) * threadHistoryCache) :=
  match gate with
  | Some e => PRet (Err e, cache)
  | None =>
    let cached := hc_cached cache in
    let cached := if negb (str_eqb (ct_path cached) rolloutPath) || negb (isAbs rolloutPath) || negb (str_eqb (clean rolloutPath) rolloutPath)
                  then emptyHistory rolloutPath else cached in
    pbind (historyPages fuel cached startHistory) (fun '(failed, w) =>
      PRet (match failed with Some e => Err e | None => Ok (rev (hw_turns w)) end, saveHistory rolloutPath w cache))
  end.
End reading.
