(* ===== verification/TurnHistoryFacts.v ===== *)
(** * Properties of the history of turns

    What a read takes over from the cache is what the thread still holds; and a
    history is kept as long as someone owns it, and at most eight others. *)
From Stdlib Require Import Ascii String.
From stdpp Require Import pretty.
From S2P Require Import Prelude GoStd GoPath GoValue Wire History Activity ActivityHistory PagedRequests TurnHistory.
Open Scope Z_scope.
Open Scope codex_scope.

(** ** App Server *)

(** A thread is its turns, newest first. A cursor names the number of turns that
    are left, which stays when turns are added. *)
Definition turnName (turn : object) : string := stringValue (field "id" turn).
Definition finalTurn (turn : object) : bool := str_in (statusValue (field "status" turn)) historyFinal.
Definition wellFormed (T : list object) : Prop := NoDup (turnName <$> T) ∧ "" ∉ (turnName <$> T).

(** A turn that is over does not change, and turns are only added. *)
Definition ages (turn turn' : object) : Prop := turnName turn' = turnName turn ∧ (finalTurn turn = true → turn' = turn).
Definition grows (T T' : list object) : Prop := ∃ new old, T' = new ++ old ∧ Forall2 ages T old ∧ wellFormed T'.

Section history.
Context (threadID : string) (cursorAt : nat → string).
Hypothesis Hcursor : ∀ m n, cursorAt m = cursorAt n → m = n.
Hypothesis Hnamed : ∀ n, cursorAt n ≠ "".

(** The page that a request names, of any length but none. *)
Definition asksFor (params : object) (T : list object) (left : nat) : Prop :=
  let cursor := stringValue (field "cursor" params) in
  cursor = "" ∧ left = Datatypes.length T ∨ cursor = cursorAt left.
Definition pageOf (T : list object) (left n : nat) : turnPage :=
  (Some (take n (drop (Datatypes.length T - left) T)), if (n <? left)%nat then Some (cursorAt (left - n)) else None).
Definition served (T : list object) (params : object) (page : turnPage) : Prop :=
  ∃ left n, (left ≤ Datatypes.length T)%nat ∧ asksFor params T left ∧ (0 < n)%nat ∧ page = pageOf T left n.

(** The runs of a program, in which requests may be lost. *)
Inductive runs {A} (T : list object) : bool → pageProg A → A → Prop :=
| runs_ret lossy a : runs T lossy (PRet a) a
| runs_turns lossy params k page a : served T params page → runs T lossy (k (Ok page)) a → runs T lossy (PTurns params k) a
| runs_lost params k e a : runs T true (k (Err e)) a → runs T true (PTurns params k) a.

Lemma runs_bind {A B} T lossy (m : pageProg A) (f : A → pageProg B) b :
  runs T lossy (pbind m f) b → ∃ a, runs T lossy m a ∧ runs T lossy (f a) b.
Proof using Type.
  induction m as [a|params k IH|params k IH|params k IH]; simpl; intros Hr.
  - exists a. split; [constructor|done].
  - inversion Hr.
  - inversion Hr; simplify_eq.
    + match goal with H : runs _ _ (pbind (k _) f) b |- _ => destruct (IH _ H) as (a & ? & ?) end. exists a. split; [by eapply runs_turns|done].
    + match goal with H : runs _ _ (pbind (k _) f) b |- _ => destruct (IH _ H) as (a & ? & ?) end. exists a. split; [by eapply runs_lost|done].
  - inversion Hr.
Qed.

(** ** What is held of a thread *)

(** A held turn that is up to date, and one that may have aged. *)
Definition current (h : heldTurn) (turn : object) : Prop :=
  heldID h = turnName turn ∧ heldStatus h = statusValue (field "status" turn) ∧ heldMetadata threadID h = turnMetadata turn threadID.
Definition keeps (h : heldTurn) (turn : object) : Prop :=
  heldID h = turnName turn ∧
  (str_in (heldStatus h) historyFinal = true → finalTurn turn = true ∧ current h turn).

Lemma current_keeps h turn : current h turn → keeps h turn.
Proof using Type. intros Hc. split; [by destruct Hc|]. intros Hf. split; [|done]. destruct Hc as (_ & Hs & _). unfold finalTurn. by rewrite <-Hs. Qed.
Lemma keeps_ages h turn turn' : keeps h turn → ages turn turn' → keeps h turn'.
Proof using Type. intros [H1 H2] [H3 H4]. split; [by rewrite H3|]. intros Hf. destruct (H2 Hf) as [H5 H6]. by rewrite (H4 H5). Qed.
Lemma keep_current h turn : current h turn → current (keepTurn threadID h) turn.
Proof using Type. by destruct h. Qed.
Lemma keep_whole turn : current (Whole turn) turn.
Proof using Type. done. Qed.

(** The cache holds a run of turns without a gap, and its cursor names what is left. *)
Definition cacheOk (T : list object) (c : cachedTurnHistory) : Prop :=
  ct_turns c = [] ∨
  ∃ newer held older, T = newer ++ held ++ older ∧ Forall2 keeps (ct_turns c) held ∧
    (if ct_complete c then older = [] else older ≠ [] ∧ ct_cursor c = cursorAt (Datatypes.length older)).

Lemma cache_grows T T' c : cacheOk T c → grows T T' → cacheOk T' c.
Proof using Type.
  intros [Hc|(newer & held & older & -> & Hk & Ho)] (new & old & -> & Ha & _); [by left|right].
  apply Forall2_app_inv_l in Ha as (newer' & rest & _ & Ha & ->). apply Forall2_app_inv_l in Ha as (held' & older' & Hh & Hold & ->).
  exists (new ++ newer'), held', older'. split_and!; [by rewrite <-app_assoc| |].
  - revert Hh. clear -Hk. revert held'. induction Hk as [|h t hs ts Hht _ IH]; intros held' Hh; inversion Hh; subst; constructor; [by eapply keeps_ages|by apply IH].
  - pose proof (Forall2_length _ _ _ Hold) as Hlen. destruct (ct_complete c).
    + subst older. by apply Forall2_nil_inv_l in Hold.
    + rewrite <-Hlen. destruct Ho as [Hne ->]. split; [|done]. intros ->. by apply Forall2_nil_inv_r in Hold.
Qed.

(** ** One page *)

(** The loop has read [before], and [rest] is left. *)
Record walkOk (before rest : list object) (w : historyWalk) : Prop := {
  wk_turns : Forall2 current (hw_turns w) before;
  wk_ids : ∀ id, id ∈ hw_seenIDs w ↔ id ∈ (turnName <$> before);
  wk_cursors : ∀ c, c ∈ hw_seenCursors w → ∃ n, (Datatypes.length rest ≤ n)%nat ∧ c = cursorAt n }.

Lemma append_current turns held w before rest : wellFormed (before ++ held ++ rest) → Forall2 current turns held →
  walkOk before (held ++ rest) w →
  ∃ w', appendTurns threadID "full" turns w = Ok w' ∧ walkOk (before ++ held) (held ++ rest) w' ∧
    hw_seenCursors w' = hw_seenCursors w ∧ hw_cursor w' = hw_cursor w ∧ hw_complete w' = hw_complete w.
Proof using Type.
  clear Hcursor Hnamed. intros [Hnd Hne] Hf Hw.
  enough (∃ w', appendTurns threadID "full" turns w = Ok w' ∧ Forall2 current (hw_turns w') (before ++ held) ∧
    (∀ id, id ∈ hw_seenIDs w' ↔ id ∈ (turnName <$> before ++ held)) ∧ hw_seenCursors w' = hw_seenCursors w ∧
    hw_cursor w' = hw_cursor w ∧ hw_complete w' = hw_complete w) as (w' & E & H1 & H2 & H3 & H4 & H5).
  { exists w'. split_and!; try done. split; [done|done|]. rewrite H3. apply Hw. }
  destruct Hw as [Hw Hids _]. revert w before Hnd Hne Hw Hids. induction Hf as [|h t hs ts Hc _ IH]; intros w before Hnd Hne Hw Hids; simpl.
  { exists w. rewrite app_nil_r. by split_and!. }
  unfold appendTurn. destruct Hc as (Hid & Hst & Hmeta). rewrite Hid.
  assert (turnName t ≠ "") as Hn by (intros E; apply Hne; rewrite !fmap_app; simpl; rewrite E; set_solver).
  assert (turnName t ∉ (turnName <$> before)) as Hfresh.
  { intros Hin. rewrite !fmap_app in Hnd. apply NoDup_app in Hnd as (_ & Hdis & _). apply (Hdis _ Hin). simpl. set_solver. }
  assert (is_empty (turnName t) || str_in (turnName t) (hw_seenIDs w) = false) as ->.
  { apply orb_false_iff. split; [by apply is_empty_false|]. apply str_in_false. by rewrite Hids. }
  cbn [guard res_bind]. match goal with |- context [appendTurns _ _ _ ?v] => set (w1 := v) end.
  destruct (IH w1 (before ++ [t])) as (w' & Ew & Ht' & Hids' & Hcs & Hcur & Hcomp); cycle 4.
  - exists w'. split; [exact Ew|]. rewrite <-app_assoc in Ht', Hids'. by split_and!.
  - by rewrite <-app_assoc.
  - by rewrite <-app_assoc.
  - simpl. apply Forall2_app; [done|]. constructor; [|done]. destruct (_ && _); [apply keep_current|]; by split_and!.
  - simpl. intros id. rewrite fmap_app, elem_of_cons, elem_of_app, Hids. set_solver.
Qed.

(** A turn stands at one place of a thread. *)
Lemma one_place (a b a' b' : list object) x y :
  NoDup (turnName <$> a ++ [x] ++ b) → a ++ [x] ++ b = a' ++ [y] ++ b' → turnName x = turnName y → a = a' ∧ b = b'.
Proof using Type.
  clear Hcursor Hnamed. cbn [app]. intros Hnd Heq Hxy. assert (Datatypes.length a = Datatypes.length a') as Hlen.
  { eapply NoDup_lookup; [exact Hnd| |].
    - rewrite list_lookup_fmap, list_lookup_middle by done. done.
    - rewrite Heq, list_lookup_fmap, list_lookup_middle by done. simpl. by rewrite Hxy. }
  apply app_inj_1 in Heq as [-> Heq]; [|done]. by injection Heq as _ ->.
Qed.

Lemma older_split anchor turns older : olderThan anchor turns = Some older →
  ∃ pre h, turns = pre ++ h :: older ∧ heldID h = anchor.
Proof using Type.
  clear Hcursor Hnamed. induction turns as [|t turns IH]; [done|]. simpl. destruct (str_eqb (heldID t) anchor) eqn:E.
  - intros [= ->]. exists [], t. split; [done|]. by apply str_eqb_eq.
  - intros H. destruct (IH H) as (pre & h & -> & Hh). by exists (t :: pre), h.
Qed.

(** What is taken over is up to date. *)
Lemma older_current cached before rest anchor older T :
  wellFormed T → T = before ++ rest → cacheOk T cached → turnName <$> last before = Some anchor →
  olderThan anchor (ct_turns cached) = Some older → forallb (reusable threadID "full") older = true →
  ∃ held left, rest = held ++ left ∧ Forall2 current older held ∧
    (if ct_complete cached then left = [] else left ≠ [] ∧ ct_cursor cached = cursorAt (Datatypes.length left)).
Proof using Type.
  clear Hcursor Hnamed. intros [Hnd _] -> Hc Hl Ho Hr. destruct (older_split _ _ _ Ho) as (pre & h & Hpre & Hh).
  destruct Hc as [Hc|(newer & held & left & HT & Hk & Hleft)]; [rewrite Hc in Hpre; by destruct pre|].
  rewrite Hpre in Hk. apply Forall2_app_inv_l in Hk as (held1 & held2 & _ & Hk & ->).
  inversion Hk as [|? t ? held3 [Hid _] Hk3]; subst.
  destruct (last before) as [y|] eqn:El; [|done]. apply last_Some in El as [before' ->]. simpl in Hl. injection Hl as Hl.
  rewrite <-!app_assoc in HT. rewrite <-app_assoc in Hnd.
  destruct (one_place before' rest (newer ++ held1) (held3 ++ left) y t) as [_ ->]; [done| |congruence|].
  { rewrite HT. rewrite <-!app_assoc. done. }
  exists held3, left. split_and!; [done| |done]. rewrite forallb_forall in Hr. clear -Hk3 Hr.
  induction Hk3 as [|o t os ts [_ Hot] _ IH]; constructor.
  - apply Hot. assert (reusable threadID "full" o = true) as Hro by (apply Hr; by left).
    unfold reusable in Hro. by apply andb_true_iff in Hro as [? _].
  - apply IH. intros x Hx. apply Hr. by right.
Qed.
(** Where the loop stands before a request. *)
Definition loopOk (T before rest : list object) (w : historyWalk) : Prop :=
  T = before ++ rest ∧ walkOk before rest w ∧ hw_complete w = false ∧
  (hw_cursor w = "" ∧ before = [] ∧ hw_seenCursors w = [] ∧ hw_save w = false
   ∨ hw_cursor w = cursorAt (Datatypes.length rest) ∧ rest ≠ [] ∧ hw_save w = true).
Definition doneOk (T : list object) (w : historyWalk) : Prop :=
  walkOk T [] w ∧ hw_complete w = true ∧ hw_save w = true.

Lemma walk_move before rest rest' w : walkOk before rest w → (Datatypes.length rest' ≤ Datatypes.length rest)%nat → walkOk before rest' w.
Proof using Type. intros [H1 H2 H3] Hle. split; [done|done|]. intros c Hc. destruct (H3 c Hc) as (n & Hn & ->). exists n. split; [lia|done]. Qed.
Lemma walk_cursor before rest w cursor complete save :
  walkOk before rest w → walkOk before rest (mkHistoryWalk (hw_turns w) (hw_seenIDs w) (hw_seenCursors w) cursor complete save).
Proof using Type. by intros []. Qed.
Lemma walk_next before rest w next complete save : walkOk before rest w → next = cursorAt (Datatypes.length rest) →
  walkOk before rest (mkHistoryWalk (hw_turns w) (hw_seenIDs w) (next :: hw_seenCursors w) next complete save).
Proof using Type.
  intros [H1 H2 H3] ->. split; [done|done|]. simpl. intros c [->|Hc]%elem_of_cons; [by eexists|by apply H3].
Qed.

(** The first page with what it takes over. *)
Lemma takeOver_ok T before rest cached w : wellFormed T → T = before ++ rest → rest ≠ [] → cacheOk T cached →
  walkOk before rest w → hw_complete w = false →
  ∃ w' next before' rest', takeOver threadID "full" cached (cursorAt (Datatypes.length rest)) w = Ok (w', next) ∧
    T = before' ++ rest' ∧ (Datatypes.length rest' ≤ Datatypes.length rest)%nat ∧ walkOk before' rest' w' ∧ hw_seenCursors w' = hw_seenCursors w ∧
    (if hw_complete w' then rest' = [] else rest' ≠ [] ∧ next = cursorAt (Datatypes.length rest')).
Proof using Hnamed.
  intros HT E Hne Hc Hw Hcomp. unfold takeOver.
  assert (∀ n, is_empty (cursorAt n) = false) as Hemp by (intros n; apply is_empty_false, Hnamed).
  assert (∃ w' next before' rest', Ok (w, cursorAt (Datatypes.length rest)) = Ok (E := err) (w', next) ∧
    T = before' ++ rest' ∧ (Datatypes.length rest' ≤ Datatypes.length rest)%nat ∧ walkOk before' rest' w' ∧ hw_seenCursors w' = hw_seenCursors w ∧
    (if hw_complete w' then rest' = [] else rest' ≠ [] ∧ next = cursorAt (Datatypes.length rest'))) as Hplain.
  { exists w, (cursorAt (Datatypes.length rest)), before, rest. rewrite Hcomp. by split_and!. }
  destruct (is_empty (hw_cursor w)); [|done]. destruct (last (hw_turns w)) as [anchor|] eqn:El; [|done].
  destruct (olderThan (heldID anchor) (ct_turns cached)) as [older|] eqn:Eo; [|done].
  destruct (forallb (reusable threadID "full") older) eqn:Er; [|done].
  assert (turnName <$> last before = Some (heldID anchor)) as Hlast.
  { apply last_Some in El as [turns El]. destruct Hw as [Hw _ _]. rewrite El in Hw.
    apply Forall2_app_inv_l in Hw as (before1 & before2 & _ & H2 & ->). inversion H2 as [|? t ? l [Hid _] Hnil]; subst.
    inversion Hnil; subst. rewrite last_snoc. simpl. by rewrite Hid. }
  destruct (older_current cached before rest _ older T HT E Hc Hlast Eo Er) as (held & left & -> & Hold & Hleft).
  subst T. destruct (append_current older held w before left HT Hold Hw) as (w' & Ea & Hw' & Hcs & Hcur & Hcomp').
  rewrite Ea. cbn [res_bind]. assert ((Datatypes.length left ≤ Datatypes.length (held ++ left))%nat) as Hle by (rewrite length_app; lia).
  destruct (ct_complete cached).
  - subst left. eexists _, _, (before ++ held), []. split; [reflexivity|]. simpl. rewrite app_nil_r in *. split_and!; [by rewrite app_nil_r|simpl; lia| |done|done]. apply walk_cursor. by eapply walk_move.
  - destruct Hleft as [Hl ->]. rewrite Hemp. eexists w', _, (before ++ held), left. split; [reflexivity|]. rewrite Hcomp', Hcomp.
    split_and!; try done; [by rewrite <-app_assoc|by eapply walk_move].
Qed.

(** A page is taken in, and the loop ends or comes closer to its end. *)
Lemma commit_ok T before rest cached w n : wellFormed T → loopOk T before rest w → cacheOk T cached → (0 < n)%nat →
  ∃ w' last, commitHistory threadID "full" cached (pageOf T (Datatypes.length rest) n) w = Ok (w', last) ∧
    if last then doneOk T w' else ∃ before' rest', loopOk T before' rest' w' ∧ (Datatypes.length rest' < Datatypes.length rest)%nat.
Proof using Hcursor Hnamed.
  intros HT (E & Hw & Hcomp & Hpos) Hc Hn. unfold commitHistory, pageOf. cbn [fst snd].
  assert (drop (Datatypes.length T - Datatypes.length rest) T = rest) as ->.
  { rewrite E, length_app, Nat.add_sub. apply drop_app_length. }
  pose proof (take_drop n rest) as Hrest. set (held := take n rest) in *. set (left := drop n rest) in *.
  assert (Datatypes.length left = (Datatypes.length rest - n)%nat) as Hleft by apply length_drop.
  assert (Forall2 current (Whole <$> held) held) as Hheld by (clear; induction held; constructor; done).
  rewrite <-Hrest in Hw, E. subst T. destruct (append_current _ _ _ _ _ HT Hheld Hw) as (w1 & Ea & Hw1 & Hcs & Hcur & Hcomp1).
  rewrite Ea. cbn [res_bind]. destruct (n <? Datatypes.length rest)%nat eqn:En.
  - apply Nat.ltb_lt in En. rewrite <-Hleft.
    assert (str_in (cursorAt (Datatypes.length left)) (hw_seenCursors w1) = false) as Hunseen.
    { apply str_in_false. rewrite Hcs. intros Hin. destruct Hw as [_ _ Hw]. destruct (Hw _ Hin) as (m & Hm & Hmm).
      apply Hcursor in Hmm. rewrite Hrest in Hm. lia. }
    rewrite Hunseen. assert (is_empty (cursorAt (Datatypes.length left)) = false) as -> by (apply is_empty_false, Hnamed).
    cbn [orb guard res_bind]. assert (left ≠ []) as Hne by (intros El; rewrite El in Hleft; simpl in Hleft; lia).
    assert (walkOk (before ++ held) left w1) as Hw2 by (eapply walk_move; [exact Hw1|rewrite length_app; lia]).
    destruct (takeOver_ok (before ++ held ++ left) (before ++ held) left cached w1) as
      (w2 & next & before' & rest' & Et & ET & Hle & Hw3 & Hcs3 & Hend); [done|by rewrite <-app_assoc|done..|by rewrite Hcomp1|].
    rewrite Et. cbn [res_bind]. destruct (hw_complete w2) eqn:Ec.
    + subst rest'. rewrite app_nil_r in ET. rewrite ET. eexists _, true. split; [reflexivity|]. split_and!; try done. by apply walk_cursor.
    + destruct Hend as [Hne' ->]. assert (str_in (cursorAt (Datatypes.length rest')) (hw_seenCursors w2) = false) as ->.
      { apply str_in_false. rewrite Hcs3, Hcs. intros Hin. destruct Hw as [_ _ Hw]. destruct (Hw _ Hin) as (m & Hm & Hmm).
        apply Hcursor in Hmm. rewrite Hrest in Hm. lia. }
      cbn [guard res_bind]. eexists _, false. split; [reflexivity|]. exists before', rest'. split; [|lia].
      split_and!; [done|by apply walk_next|done|]. right. by split_and!.
  - apply Nat.ltb_ge in En. eexists _, true. split; [reflexivity|]. split_and!; try done.
    assert (left = []) as El by (apply nil_length_inv; lia). rewrite El, app_nil_r in *. apply walk_cursor. by eapply walk_move; [|simpl; lia].
Qed.
(** ** A read *)

Lemma asks_left T before rest w left : loopOk T before rest w → asksFor (historyParams threadID "full" (hw_cursor w)) T left →
  left = Datatypes.length rest.
Proof using Hcursor Hnamed.
  intros (-> & _ & _ & Hpos) Ha. unfold asksFor, historyParams in Ha. destruct Hpos as [(Hcur & -> & _)|(Hcur & Hne & _)]; rewrite Hcur in Ha.
  - destruct Ha as [[_ ->]|Ha]; [done|]. exfalso. by eapply Hnamed.
  - rewrite (proj2 (is_empty_false _) (Hnamed _)) in Ha. destruct Ha as [[Ha _]|Ha]; [by destruct (Hnamed _ Ha)|].
    symmetry. by apply Hcursor.
Qed.

Lemma pages_ok T cached lossy fuel : wellFormed T → cacheOk T cached → ∀ w before rest failed w', loopOk T before rest w →
  runs T lossy (historyPages threadID "full" fuel cached w) (failed, w') →
  match failed with
  | None => doneOk T w'
  | Some _ => (∃ before' rest', loopOk T before' rest' w') ∧ (lossy = false → (fuel ≤ Datatypes.length rest)%nat)
  end.
Proof using Hcursor Hnamed.
  intros HT Hc. induction fuel as [|fuel IH]; intros w before rest failed w' Hl Hr; simpl in Hr; inversion Hr; simplify_eq.
  - split; [by exists before, rest|intros _; lia].
  - match goal with H : served _ _ _ |- _ => destruct H as (left & n & _ & Ha & Hn & ->) end.
    rewrite (asks_left _ _ _ _ _ Hl Ha) in *. destruct (commit_ok T before rest cached w n HT Hl Hc Hn) as (w1 & last & Ec & Hw1).
    match goal with H : runs _ _ _ _ |- _ => rename H into Hk end. rewrite Ec in Hk. destruct last.
    + inversion Hk; simplify_eq. done.
    + destruct Hw1 as (before' & rest' & Hl' & Hlt). specialize (IH _ _ _ _ _ Hl' Hk). destruct failed; [|done].
      destruct IH as [H1 H2]. split; [done|]. intros E. specialize (H2 E). lia.
  - match goal with H : runs _ _ (PRet _) _ |- _ => inversion H; simplify_eq end. split; [by exists before, rest|done].
Qed.

Lemma keep_all turns T : Forall2 current turns T → Forall2 keeps (keepTurn threadID <$> turns) T.
Proof using Type. clear Hcursor Hnamed. induction 1; simpl; constructor; [by apply current_keeps, keep_current|done]. Qed.

(** A thread is its turns by the path of its rollout. *)
Definition cached (W : string → list object) (cache : threadHistoryCache) : Prop :=
  cacheOk (W (ct_path (hc_cached cache))) (hc_cached cache).

Lemma save_ok W path w cache : cached W cache → doneOk (W path) w ∨ (∃ before rest, loopOk (W path) before rest w) →
  cached W (saveHistory threadID path w cache).
Proof using Type.
  clear Hcursor Hnamed. intros Hc Hw. unfold saveHistory. destruct (hw_save w) eqn:Es; [|done]. cbn [negb]. unfold cached, cacheOk. simpl. right.
  destruct Hw as [(Hw & Hcomp & _)|(before & rest & E & Hw & Hcomp & Hpos)]; rewrite Hcomp.
  - exists [], (W path), []. split_and!; [by rewrite app_nil_r| |done]. destruct Hw as [Hw _ _]. by apply keep_all.
  - exists [], before, rest. destruct Hw as [Hw _ _]. split; [done|]. split; [by apply keep_all|].
    destruct Hpos as [(_ & _ & _ & Hs)|(-> & Hne & _)]; [congruence|done].
Qed.

Definition readHistory (fuel : nat) (gate : option err) (path : string) (cache : threadHistoryCache) :=
  readTurnHistory threadID "full" fuel gate path cache.

Lemma read_ok W fuel lossy gate path cache r cache' : wellFormed (W path) → cached W cache →
  runs (W path) lossy (readHistory fuel gate path cache) (r, cache') →
  cached W cache' ∧ (∀ turns, r = Ok turns → Forall2 current turns (rev (W path))) ∧
  (lossy = false → gate = None → (Datatypes.length (W path) < fuel)%nat → is_ok r = true).
Proof using Hcursor Hnamed.
  intros HT Hc Hr. unfold readHistory, readTurnHistory in Hr. destruct gate as [e|]; [inversion Hr; simplify_eq; done|].
  apply runs_bind in Hr as ([failed w'] & Hp & Hr). inversion Hr; simplify_eq. clear Hr.
  match type of Hp with runs _ _ (historyPages _ _ _ ?c _) _ => assert (cacheOk (W path) c) as Hc1 end.
  { destruct (str_eqb (ct_path (hc_cached cache)) path) eqn:Ep; [|by left]. apply str_eqb_eq in Ep. simpl.
    destruct (_ || _); [by left|]. by rewrite <-Ep. }
  assert (loopOk (W path) [] (W path) startHistory) as Hl.
  { split_and!; [done| |done|by left]. split; [constructor|done|]. simpl. intros c Hin. by apply not_elem_of_nil in Hin. }
  pose proof (pages_ok (W path) _ lossy fuel HT Hc1 _ _ _ _ _ Hl Hp) as Hp1. destruct failed as [e|].
  - destruct Hp1 as [Hw Hlt]. split_and!; [apply save_ok; auto|done|]. intros E _ Hf. specialize (Hlt E). lia.
  - split_and!; [apply save_ok; auto| |done]. intros turns [= <-]. destruct Hp1 as ([Hw _ _] & _ & _). rewrite !rev_alt. by apply Forall2_reverse.
Qed.
(** The reads of one history, with turns that come in and go on between them. *)
Inductive observed : (string → list object) → threadHistoryCache → Prop :=
| observed_first W cache : (∀ path, wellFormed (W path)) → ct_turns (hc_cached cache) = [] → observed W cache
| observed_grows W W' cache : observed W cache → (∀ path, grows (W path) (W' path)) → observed W' cache
| observed_read W lossy fuel gate path cache r cache' : observed W cache →
    runs (W path) lossy (readHistory fuel gate path cache) (r, cache') → observed W cache'.

Lemma observed_ok W cache : observed W cache → (∀ path, wellFormed (W path)) ∧ cached W cache.
Proof using Hcursor Hnamed.
  induction 1 as [W cache HW Ht|W W' cache _ [HW Hc] Hg|W lossy fuel gate path cache r cache' _ [HW Hc] Hr].
  - split; [done|]. by left.
  - split; [intros path; by destruct (Hg path) as (? & ? & _ & _ & ?)|]. by eapply cache_grows.
  - split; [done|]. by apply (read_ok W fuel lossy gate path cache r cache').
Qed.

(** C32. However a thread's turns come in and go on between reads, whatever reads
    are cut short or fail, and however App Server cuts its answers: a read that
    succeeds returns the counts and times of every turn the thread has, oldest
    first, as if it had read them all, although it takes the older turns over from
    the reads before; and a read that loses no request succeeds when its deadline
    allows one request more than there are turns. *)
Theorem turn_history_exact W lossy fuel path cache r cache' :
  observed W cache → runs (W path) lossy (readHistory fuel None path cache) (r, cache') →
  (∀ turns, r = Ok turns → heldMetadata threadID <$> turns = (fun turn => turnMetadata turn threadID) <$> rev (W path)) ∧
  (lossy = false → (Datatypes.length (W path) < fuel)%nat → is_ok r = true).
Proof using Hcursor Hnamed.
  intros Ho Hr. destruct (observed_ok W cache Ho) as [HW Hc].
  destruct (read_ok W fuel lossy None path cache r cache' (HW path) Hc Hr) as (_ & Hok & Hends). split; [|by auto].
  intros turns E. specialize (Hok _ E). revert Hok. generalize (rev (W path)). clear. intros T Hok.
  induction Hok as [|h t hs ts (_ & _ & Hm) _ IH]; [done|]. by rewrite !fmap_cons, Hm, IH.
Qed.
End history.

(** ** Keeping histories *)

(** Who owns a history, and what is done to them: a history is taken and given
    back by its owners, and only its owners' reads change it. *)
Inductive keeping :=
| KRetain (threadID : string) (watch : bool)
| KRelease (threadID : string) (watch : bool)
| KRead (threadID : string) (cached : cachedTurnHistory) (retry : bool).
Abbreviation owners := (gmap (string * bool) nat).
Definition owned (o : owners) (t : string) (watch : bool) : nat := default 0%nat (o !! (t, watch)).
Definition allOwned (o : owners) (t : string) : nat := (owned o t true + owned o t false)%nat.

Definition keepStep (op : keeping) (s : owners * histories) : option (owners * histories) :=
  let '(o, h) := s in
  match op with
  | KRetain t watch => Some (<[(t, watch) := S (owned o t watch)]> o, retainTurnHistory t watch h)
  | KRelease t watch =>
    match owned o t watch with
    | O => Some s
    | S n => h' ← releaseTurnHistory t watch h; Some (<[(t, watch) := n]> o, h')
    end
  | KRead t cached retry =>
    if (allOwned o t =? 0)%nat then Some s else
    match th_caches h !! t with
    | None => None
    | Some c => Some (o, mkHistories (<[t := mkHistoryCache cached (hc_readers c) (hc_watchers c) retry]> (th_caches h)) (th_idle h))
    end
  end.
Fixpoint keepSteps (ops : list keeping) (s : owners * histories) : option (owners * histories) :=
  match ops with
  | [] => Some s
  | op :: ops => s' ← keepStep op s; keepSteps ops s'
  end.

(** A history counts its owners; who has none is idle, and at most eight are. *)
Record keepInv (o : owners) (h : histories) : Prop := {
  ki_owned : ∀ t c, th_caches h !! t = Some c → hc_readers c = Z.of_nat (owned o t false) ∧ hc_watchers c = Z.of_nat (owned o t true);
  ki_there : ∀ t, (0 < allOwned o t)%nat → is_Some (th_caches h !! t);
  ki_idle : ∀ t, t ∈ th_idle h ↔ is_Some (th_caches h !! t) ∧ allOwned o t = 0%nat;
  ki_nodup : NoDup (th_idle h);
  ki_few : (Datatypes.length (th_idle h) ≤ 8)%nat }.

Lemma owned_insert o t w n t' w' : owned (<[(t, w) := n]> o) t' w' = if decide (t' = t ∧ w' = w) then n else owned o t' w'.
Proof.
  unfold owned. destruct (decide (t' = t ∧ w' = w)) as [[-> ->]|Hne]; [by rewrite lookup_insert_eq|].
  rewrite lookup_insert_ne; [done|]. intros [= -> ->]. by apply Hne.
Qed.
Lemma owned_other o t w n t' : t' ≠ t → allOwned (<[(t, w) := n]> o) t' = allOwned o t' ∧
  owned (<[(t, w) := n]> o) t' true = owned o t' true ∧ owned (<[(t, w) := n]> o) t' false = owned o t' false.
Proof. intros Hne. unfold allOwned. rewrite !owned_insert, !decide_False by naive_solver. done. Qed.
(** One owner more or less, in the count of the code. *)
Definition counted (o : owners) (t : string) (c : threadHistoryCache) : Prop :=
  hc_readers c = Z.of_nat (owned o t false) ∧ hc_watchers c = Z.of_nat (owned o t true).
Lemma counted_add o t w c d n : counted o t c → Z.of_nat n = Z.of_nat (owned o t w) + d →
  counted (<[(t, w) := n]> o) t (addOwner w d c).
Proof.
  intros [H1 H2] Hn. unfold counted. rewrite !owned_insert. destruct w; simpl.
  - rewrite decide_False, decide_True by naive_solver. lia.
  - rewrite decide_True, decide_False by naive_solver. lia.
Qed.
Lemma counted_total o t c : counted o t c → (0 <? hc_watchers c) || (0 <? hc_readers c) = negb (allOwned o t =? 0)%nat.
Proof.
  intros [H1 H2]. unfold allOwned. rewrite H1, H2.
  destruct (owned o t true), (owned o t false); simpl; try done; by rewrite ?orb_true_r.
Qed.

Lemma retain_inv o h t watch : keepInv o h → keepInv (<[(t, watch) := S (owned o t watch)]> o) (retainTurnHistory t watch h).
Proof.
  intros [Ho Ht Hi Hn Hf]. assert (0 < allOwned (<[(t, watch) := S (owned o t watch)]> o) t)%nat as Hpos.
  { unfold allOwned. rewrite !owned_insert. destruct watch; repeat case_decide; naive_solver lia. }
  split; simpl.
  - intros t' c. destruct (decide (t' = t)) as [->|Hne].
    + rewrite lookup_insert_eq. intros [= <-]. apply counted_add; [|lia].
      destruct (th_caches h !! t) as [c0|] eqn:Ec; [by apply Ho|]. simpl.
      assert (allOwned o t = 0%nat) as H0. { destruct (allOwned o t) eqn:E; [done|]. destruct (Ht t) as [c1 Hc1]; [lia|congruence]. }
      unfold allOwned in H0. split; simpl; lia.
    + rewrite lookup_insert_ne by done. intros Hc. destruct (owned_other o t watch (S (owned o t watch)) t' Hne) as (_ & -> & ->). by apply Ho.
  - intros t' Hp. destruct (decide (t' = t)) as [->|Hne]; [by rewrite lookup_insert_eq|].
    rewrite lookup_insert_ne by done. apply Ht. by rewrite (proj1 (owned_other o t watch _ t' Hne)) in Hp.
  - intros t'. rewrite list_elem_of_In, filter_In, <-list_elem_of_In, negb_true_iff, str_eqb_neq, Hi.
    destruct (decide (t' = t)) as [->|Hne]; [split; [naive_solver|lia]|].
    rewrite lookup_insert_ne by done. rewrite (proj1 (owned_other o t watch _ t' Hne)). naive_solver.
  - by apply NoDup_ListNoDup, List.NoDup_filter, NoDup_ListNoDup.
  - pose proof (List.filter_length_le (fun id => negb (str_eqb id t)) (th_idle h)). lia.
Qed.

(** A history that is left by its last owner is dropped, or idle for the time. *)
Lemma evict_inv o (caches : gmap string threadHistoryCache) oldest idle : (Datatypes.length idle ≤ 8)%nat →
  (∀ t c, caches !! t = Some c → counted o t c) → (∀ t, (0 < allOwned o t)%nat → is_Some (caches !! t)) →
  (∀ t, t ∈ oldest :: idle ↔ is_Some (caches !! t) ∧ allOwned o t = 0%nat) → NoDup (oldest :: idle) →
  keepInv o (mkHistories (delete oldest caches) idle).
Proof.
  intros Hf Ho Ht Hi [Hnot Hn]%NoDup_cons. split; simpl; [| | |done|done].
  - intros t c [_ Hc]%lookup_delete_Some. by apply Ho.
  - intros t Hp. rewrite lookup_delete_ne; [by apply Ht|]. intros <-. destruct (Hi oldest) as [Hold _].
    destruct Hold as [_ H0]; [by left|lia].
  - intros t. destruct (decide (t = oldest)) as [->|Hne].
    + rewrite lookup_delete_eq. split; [done|]. by intros [[? [=]] _].
    + rewrite lookup_delete_ne by done. rewrite <-Hi, elem_of_cons. naive_solver.
Qed.

Lemma release_inv o h t watch n : keepInv o h → owned o t watch = S n →
  ∃ h', releaseTurnHistory t watch h = Some h' ∧ keepInv (<[(t, watch) := n]> o) h'.
Proof.
  intros [Ho Ht Hi Hn Hf] Hown. assert (0 < allOwned o t)%nat as Hpos by (unfold allOwned; destruct watch; lia).
  destruct (Ht t Hpos) as [c Hc]. unfold releaseTurnHistory. rewrite Hc. set (c' := addOwner watch (-1) c).
  set (o' := <[(t, watch) := n]> o). assert (counted o' t c') as Hc' by (apply counted_add; [by apply Ho|lia]).
  rewrite (counted_total _ _ _ Hc'). assert (t ∉ th_idle h) as Hnot by (rewrite Hi; lia).
  assert (∀ t', t' ≠ t → allOwned o' t' = allOwned o t' ∧ ∀ c, counted o t' c → counted o' t' c) as Hother.
  { intros t' Hne. destruct (owned_other o t watch n t' Hne) as (H1 & H2 & H3). split; [done|]. unfold counted, o'. by rewrite H2, H3. }
  assert (∀ t' c1, <[t := c']> (th_caches h) !! t' = Some c1 → counted o' t' c1) as Ho'.
  { intros t' c1 [[<- <-]|[Hne Hc1]]%lookup_insert_Some; [done|]. apply Hother; [done|]. by apply Ho. }
  assert (∀ t', (0 < allOwned o' t')%nat → is_Some (<[t := c']> (th_caches h) !! t')) as Ht'.
  { intros t' Hp. destruct (decide (t' = t)) as [->|Hne]; [by rewrite lookup_insert_eq|]. rewrite lookup_insert_ne by done.
    apply Ht. by rewrite <-(proj1 (Hother t' Hne)). }
  assert (∀ t', t' ≠ t → (t' ∈ th_idle h ↔ is_Some (<[t := c']> (th_caches h) !! t') ∧ allOwned o' t' = 0%nat)) as Hi'.
  { intros t' Hne. rewrite lookup_insert_ne by done. rewrite (proj1 (Hother t' Hne)). apply Hi. }
  destruct (allOwned o' t =? 0)%nat eqn:E0; cbn [negb].
  - apply Nat.eqb_eq in E0. destruct (hc_retry c'); cbn [negb].
    + assert (∀ t', t' ∈ th_idle h ++ [t] ↔ is_Some (<[t := c']> (th_caches h) !! t') ∧ allOwned o' t' = 0%nat) as Hi2.
      { intros t'. rewrite elem_of_app, list_elem_of_singleton. destruct (decide (t' = t)) as [->|Hne]; [|rewrite Hi' by done; naive_solver].
        rewrite lookup_insert_eq. naive_solver. }
      assert (NoDup (th_idle h ++ [t])) as Hn2.
      { apply NoDup_app. split_and!; [done| |apply NoDup_singleton]. intros x Hx ->%list_elem_of_singleton. done. }
      eexists. split; [reflexivity|]. destruct (_ <? _)%nat eqn:El.
      * destruct (th_idle h ++ [t]) as [|oldest idle] eqn:Ei; [done|].
        apply (evict_inv o' (<[t := c']> (th_caches h))); try done.
        apply (f_equal Datatypes.length) in Ei. rewrite length_app in Ei. simpl in Ei. lia.
      * apply Nat.ltb_ge in El. unfold idleTurnHistoryLimit in El. by split.
    + eexists. split; [reflexivity|]. apply (evict_inv o' (<[t := c']> (th_caches h))); try done; simpl.
      * intros t'. rewrite elem_of_cons. destruct (decide (t' = t)) as [->|Hne]; [|rewrite Hi' by done; naive_solver].
        rewrite lookup_insert_eq. naive_solver.
      * by constructor.
  - apply Nat.eqb_neq in E0. eexists. split; [reflexivity|]. split; simpl; try done. intros t'. destruct (decide (t' = t)) as [->|Hne]; [|by apply Hi'].
    split; [done|]. intros [_ ?]. lia.
Qed.

Lemma keep_inv op o h : keepInv o h → ∃ o' h', keepStep op (o, h) = Some (o', h') ∧ keepInv o' h'.
Proof.
  intros Hk. destruct op as [t watch|t watch|t cached retry]; simpl.
  - eexists _, _. split; [reflexivity|]. by apply retain_inv.
  - destruct (owned o t watch) as [|n] eqn:En; [by eexists _, _|]. destruct (release_inv o h t watch n Hk En) as (h' & -> & Hk').
    simpl. by eexists _, _.
  - destruct (allOwned o t =? 0)%nat eqn:E0; [by eexists _, _|]. apply Nat.eqb_neq in E0. destruct Hk as [Ho Ht Hi Hn Hf].
    destruct (Ht t) as [c Hc]; [lia|]. rewrite Hc. eexists _, _. split; [reflexivity|]. split; simpl; try done.
    + intros t' c1 [[<- <-]|[Hne Hc1]]%lookup_insert_Some; [by apply (Ho t c)|by apply Ho].
    + intros t' Hp. destruct (decide (t' = t)) as [->|Hne]; [by rewrite lookup_insert_eq|]. rewrite lookup_insert_ne by done. by apply Ht.
    + intros t'. rewrite Hi. destruct (decide (t' = t)) as [->|Hne]; [|by rewrite lookup_insert_ne]. rewrite lookup_insert_eq, Hc. naive_solver.
Qed.

(** Whatever owners do, in any order: a history is there as long as it has an
    owner, so that giving it back never fails; it counts its owners; and at most
    eight histories without an owner are kept. *)
Theorem histories_kept ops :
  ∃ o h, keepSteps ops (∅, mkHistories ∅ []) = Some (o, h) ∧
    (∀ t, (0 < allOwned o t)%nat → ∃ c, th_caches h !! t = Some c ∧ counted o t c) ∧
    (size (filter (fun '(t, _) => allOwned o t = 0%nat) (th_caches h)) ≤ 8)%nat.
Proof.
  assert (keepInv ∅ (mkHistories ∅ [])) as H0.
  { split; simpl.
    - by intros t c [=].
    - intros t. unfold allOwned, owned. rewrite !lookup_empty. simpl. lia.
    - intros t. split; [intros Hin; by apply not_elem_of_nil in Hin|]. by intros [[? [=]] _].
    - constructor.
    - lia. }
  revert H0. generalize (∅ : owners). generalize (mkHistories ∅ []). induction ops as [|op ops IH]; intros h o Hk; cbn [keepSteps].
  - exists o, h. split; [done|]. destruct Hk as [Ho Ht Hi Hn Hf]. split.
    + intros t Hp. destruct (Ht t Hp) as [c Hc]. exists c. split; [done|by apply Ho].
    + rewrite <-size_dom. assert (dom (filter (fun '(t, _) => allOwned o t = 0%nat) (th_caches h)) ⊆ (list_to_set (th_idle h) : gset string)) as Hsub.
      { intros t. rewrite elem_of_dom, elem_of_list_to_set, Hi. intros [c [Hc Hz]%map_lookup_filter_Some]. by split. }
      apply subseteq_size in Hsub. rewrite size_list_to_set in Hsub by done. lia.
  - destruct (keep_inv op o h Hk) as (o' & h' & -> & Hk'). simpl. by apply IH.
Qed.

(** ** A run: a read that is cut after its first page, and one that goes on *)

Definition leftCursor (n : nat) : string := ("left-" ++ pretty n)%string.
Lemma leftCursor_inj m n : leftCursor m = leftCursor n → m = n.
Proof. unfold leftCursor. intros E. simpl in E. injection E as E. by apply (inj pretty). Qed.
Lemma leftCursor_named n : leftCursor n ≠ "". Proof. done. Qed.

Definition demoTurn (id : string) : object := [("id", AStr id); ("status", AStr "completed"); ("startedAt", ANum 5 0)].
Definition demoThread (path : string) : list object := [demoTurn "c"; demoTurn "b"; demoTurn "a"].
Definition demoCut : threadHistoryCache :=
  mkHistoryCache (mkCached "/r" (keepTurn "thread" ∘ Whole <$> [demoTurn "c"; demoTurn "b"]) (leftCursor 1) false) 0 0 true.
Definition demoRead : threadHistoryCache :=
  mkHistoryCache (mkCached "/r" (keepTurn "thread" ∘ Whole <$> demoThread "/r") (leftCursor 1) true) 0 0 false.
Definition demoAnswer : list heldTurn :=
  [keepTurn "thread" (Whole (demoTurn "a")); keepTurn "thread" (Whole (demoTurn "b")); Whole (demoTurn "c")].

Lemma demo_cut : runs leftCursor (demoThread "/r") true (readHistory "thread" 9 None "/r" newHistoryCache) (Err EDeadline, demoCut).
Proof.
  eapply runs_turns; [exists 3%nat, 2%nat; split_and!; [done|by left|lia|reflexivity]|].
  eapply runs_lost. exact (runs_ret leftCursor (demoThread "/r") true (Err EDeadline, demoCut)).
Qed.
Lemma demo_resumed : runs leftCursor (demoThread "/r") false (readHistory "thread" 9 None "/r" demoCut) (Ok demoAnswer, demoRead).
Proof.
  eapply runs_turns; [exists 3%nat, 1%nat; split_and!; [done|by left|lia|reflexivity]|].
  eapply runs_turns; [exists 1%nat, 1%nat; split_and!; [simpl; lia|by right|lia|reflexivity]|].
  exact (runs_ret leftCursor (demoThread "/r") false (Ok demoAnswer, demoRead)).
Qed.
Lemma demo_observed : observed "thread" leftCursor demoThread demoCut.
Proof.
  eapply observed_read; [|exact demo_cut]. constructor; [|done]. intros path. split; [|by vm_compute; set_solver].
  vm_compute. by repeat (constructor; [set_solver|]); constructor.
Qed.

Lemma turn_history_exact_witness :
  observed "thread" leftCursor demoThread demoCut ∧
  runs leftCursor (demoThread "/r") false (readHistory "thread" 9 None "/r" demoCut) (Ok demoAnswer, demoRead) ∧
  heldMetadata "thread" <$> demoAnswer = (fun turn => turnMetadata turn "thread") <$> rev (demoThread "/r").
Proof.
  split_and!; [exact demo_observed|exact demo_resumed|].
  apply (turn_history_exact "thread" leftCursor leftCursor_inj leftCursor_named demoThread false 9 "/r" demoCut (Ok demoAnswer) demoRead
           demo_observed demo_resumed). reflexivity.
Defined.
