(* ===== verification/ThreadRead.v ===== *)
(** * The recent transcript of a thread

    [ReadThread] of [src/codex/client.go], which asks for the recent turns with
    their items, and [readRecentThread] of [src/codex/history_reader.go], which is
    used with a second reader and asks for the items of each turn page by page. The
    requests are those of [pageProg]; [itemPage] with its retries is [PItems].
    [fuel] bounds the pages of one turn by the caller's deadline. *)
From Stdlib Require Import Ascii String.
From S2P Require Import Prelude GoStd GoPath GoValue TurnOptions Wire History Continuation Activity ActivityHistory RolloutFile PageMetadata RolloutRead PagedRequests Transcript Citations CitationHistory ThreadPage TurnHistory.
Open Scope Z_scope.
Open Scope codex_scope.

Record Transcript := mkTranscript {
  tr_ThreadID : string; tr_Status : string; tr_LatestTurnID : string; tr_Model : string; tr_ReasoningEffort : string;
  tr_CollaborationMode : string; tr_Entries : list TranscriptEntry }.

Definition emptyTranscript (threadID : string) (thread : object) : Transcript :=
  mkTranscript threadID (statusValue (field "status" thread)) "" (stringValue (field "model" thread))
    (stringValue (field "reasoningEffort" thread)) "default" [].
Definition withMode (mode : string) (t : Transcript) : Transcript :=
  mkTranscript (tr_ThreadID t) (tr_Status t) (tr_LatestTurnID t) (tr_Model t) (tr_ReasoningEffort t) mode (tr_Entries t).
Definition withEntries (latest : string) (entries : list TranscriptEntry) (t : Transcript) : Transcript :=
  mkTranscript (tr_ThreadID t) (tr_Status t) latest (tr_Model t) (tr_ReasoningEffort t) (tr_CollaborationMode t) entries.

(** What a read finds around it: the files, the mode in the cached settings, the
    generation of the connection and what the lookups of citations see. *)
Record readEnv := mkReadEnv { re_disk : disk; re_settings : option string; re_generation : Z; re_citations : nat → lookEnv }.

Section ThreadRead.
Context (sources : list string) (absent : string → bool).
Context (parseURL : string → option (string * string * bool)) (decodeReplies : string → option (list (list (string * option string)))).
Context (parseTime : string → option Z) (marshalIdentity : list any → string) (decodeLine : bytes → option pageRecord).
Context (urlString : string → string) (parseMarkdown : string → mdNode).

Abbreviation pageItem := (pageItem parseURL decodeReplies).
Abbreviation transcriptEntries := (transcriptEntries parseURL decodeReplies).

Definition recentParams (threadID view : string) : object :=
  [("threadId", AStr threadID); ("limit", ANum recentTurnLimit 0); ("sortDirection", AStr "desc"); ("itemsView", AStr view)].
Definition recentItemParams (threadID cursor : string) (turn : object) : object :=
  [("threadId", AStr threadID); ("turnId", field "id" turn); ("limit", ANum 32 0); ("sortDirection", AStr "asc")]
  ++ (if is_empty cursor then [] else [("cursor", AStr cursor)]).

(** ** The items of a turn *)

Fixpoint takeRecent (turn : object) (latest : string) (data : list threadItemEntry) (seen : list string) (entries : list TranscriptEntry)
    : res err (list string * list TranscriptEntry) :=
  match data with
  | [] => Ok (seen, entries)
  | item :: data =>
    let fields := default [] (ti_Item item) in
    let id := stringValue (field "id" fields) in
    let? _ := guard (negb (str_eqb (ti_TurnID item) latest) || is_empty id || str_in id seen) (EMsg "invalid recent history item") in
    takeRecent turn latest data (id :: seen) (entries ++ pageItem turn fields)
  end.

Fixpoint recentItems (fuel : nat) (threadID : string) (turn : object) (cursor : string) (seen : list string) (entries : list TranscriptEntry)
    : pageProg (res err (list TranscriptEntry)) :=
  match fuel with
  | O => PRet (Err EDeadline)
  | S fuel =>
    PItems (recentItemParams threadID cursor turn) (fun r =>
      match r with
      | Err e => PRet (Err e)
      | Ok (None, _) => PRet (Err (EMsg "history returned no items"))
      | Ok (Some data, next) =>
        match takeRecent turn (stringValue (field "id" turn)) data seen entries with
        | Err e => PRet (Err e)
        | Ok (seen, entries) =>
          match next with
          | None => PRet (Ok entries)
          | Some next =>
            if is_empty next || str_eqb next cursor || (Datatypes.length data =? 0)%nat
            then PRet (Err (EMsg "recent history cursor did not progress"))
            else recentItems fuel threadID turn next seen entries
          end
        end
      end)
  end.

Definition failureList (turn : object) : list TranscriptEntry := match pageFailure turn with Some e => [e] | None => [] end.

(** The turns, oldest first. *)
Fixpoint recentTurns (fuel : nat) (threadID : string) (turns : list object) (entries : list TranscriptEntry)
    : pageProg (res err (list TranscriptEntry)) :=
  match turns with
  | [] => PRet (Ok entries)
  | turn :: turns =>
    pbind (recentItems fuel threadID turn "" [] entries) (fun r =>
      match r with
      | Err e => PRet (Err e)
      | Ok entries => recentTurns fuel threadID turns (entries ++ failureList turn)
      end)
  end.

(** ** The rest of a transcript *)

Definition latestOf (turns : list object) : string := default "" (stringValue ∘ field "id" <$> last turns).
Definition wantedItems (entries : list TranscriptEntry) : gset itemKey :=
  list_to_set (entryKey <$> filter (fun e => te_ItemID e ≠ "") entries).

(** The mode is that of the settings or of the rollout, the times are applied and
    the citations presented; [settingsLast] tells the order of the first two. *)
Definition finishRead (env : readEnv) (settingsLast : bool) (thread : object) (threadID : string) (t : Transcript) (cl : pageClient)
    : Transcript * pageClient :=
  let path := stringValue (field "path" thread) in
  let '(metadata, failed) := readRolloutMetadata decodeLine (re_disk env) path (wantedItems (tr_Entries t)) in
  let fromSettings (t : Transcript) := match re_settings env with Some mode => withMode mode t | None => t end in
  let fromRollout (t : Transcript) := if bool_decide (failed = None) && negb (is_empty (rm_mode metadata)) then withMode (rm_mode metadata) t else t in
  let t := if settingsLast then fromSettings (fromRollout t) else fromRollout (fromSettings t) in
  let '(entries, live) := applyTranscriptTimestamps parseTime threadID (tr_Entries t) (rm_itemTimes metadata) (cl_live cl) in
  let file := match pageFile (re_disk env) path with Ok file => file | Err _ => None end in
  let '(entries, citations) :=
    presentCitations parseURL urlString parseMarkdown (re_disk env) (re_citations env) threadID (marshalIdentity (pageIdentity thread)) path
      (re_generation env) file entries ∅ (cl_citations cl) in
  (withEntries (tr_LatestTurnID t) entries t, mkPageClient (cl_cursors cl) (cl_pages cl) live citations).

(** ** The two readers *)

Definition threadParams (threadID : string) : object := [("threadId", AStr threadID); ("excludeTurns", ABool true)].

Definition readRecentThread (env : readEnv) (fuel : nat) (threadID : string) (cl : pageClient) : pageProg (res err Transcript * pageClient) :=
  PThread (threadParams threadID) (fun r =>
    match r with
    | Err e => PRet (Err e, cl)
    | Ok None => PRet (Err (EMsg "history returned the wrong thread"), cl)
    | Ok (Some thread) =>
      if negb (str_eqb (stringValue (field "id" thread)) threadID) then PRet (Err (EMsg "history returned the wrong thread"), cl) else
      PTurns (recentParams threadID "notLoaded") (fun r =>
        match r with
        | Err e => if freshThreadMissingSourceRollout sources absent thread threadID e then PRet (Ok (emptyTranscript threadID thread), cl) else PRet (Err e, cl)
        | Ok (None, _) => PRet (Err (EMsg "history returned no turns"), cl)
        | Ok (Some data, _) =>
          pbind (recentTurns fuel threadID (rev data) []) (fun r =>
            match r with
            | Err e => PRet (Err e, cl)
            | Ok entries =>
              let '(t, cl) := finishRead env true thread threadID (withEntries (latestOf (rev data)) entries (emptyTranscript threadID thread)) cl in
              PRet (Ok t, cl)
            end)
        end)
    end).

(** Without a second reader. *)
Definition readWholeThread (env : readEnv) (threadID : string) (cl : pageClient) : pageProg (res err Transcript * pageClient) :=
  PThread (threadParams threadID) (fun r =>
    match r with
    | Err e => PRet (Err (EWrap "read Codex thread metadata" e), cl)
    | Ok None => PRet (Err (EMsg "thread/read returned no thread"), cl)
    | Ok (Some thread) =>
      if negb (str_eqb (stringValue (field "id" thread)) threadID) then PRet (Err (EMsg "thread/read returned the wrong thread"), cl) else
      PTurns (recentParams threadID "full") (fun r =>
        match r with
        | Err e =>
          if freshThreadMissingSourceRollout sources absent thread threadID e
          then PRet (Ok (match re_settings env with Some mode => withMode mode (emptyTranscript threadID thread) | None => emptyTranscript threadID thread end), cl)
          else PRet (Err (EWrap "read Codex thread turns" e), cl)
        | Ok (None, _) => PRet (Err (EMsg "thread/turns/list returned no data"), cl)
        | Ok (Some data, _) =>
          let turns := rev data in
          let '(t, cl) := finishRead env false thread threadID
            (withEntries (latestOf turns) (concat (transcriptEntries <$> turns)) (emptyTranscript threadID thread)) cl in
          PRet (Ok t, cl)
        end)
    end).

Definition ReadThread (reader : bool) (env : readEnv) (fuel : nat) (threadID : string) (cl : pageClient) : pageProg (res err Transcript * pageClient) :=
  if reader then readRecentThread env fuel threadID cl else readWholeThread env threadID cl.
End ThreadRead.
