(* ===== verification/ThreadReadFacts.v ===== *)
(** * Both readers show the same

    The reader that asks for the items of each recent turn page by page shows what
    the reader that gets whole turns shows, however App Server cuts its answers.
    The two differ in the status of failures, which only the first one fills in,
    and in whether the cached settings or the rollout tells the mode. *)
From Stdlib Require Import Ascii String.
From stdpp Require Import pretty.
From S2P Require Import Prelude GoStd GoPath GoValue TurnOptions Wire History Delivery DeliveryFacts Continuation Activity ActivityHistory RolloutFile PageMetadata RolloutRead PagedRequests Transcript Citations CitationHistory ThreadPage TurnHistory ThreadRead.
Open Scope Z_scope.
Open Scope codex_scope.

Section readers.
Context (sources : list string) (absent : string → bool).
Context (parseURL : string → option (string * string * bool)) (decodeReplies : string → option (list (list (string * option string)))).
Context (parseTime : string → option Z) (marshalIdentity : list any → string) (decodeLine : bytes → option pageRecord).
Context (urlString : string → string) (parseMarkdown : string → mdNode).
Abbreviation transcriptEntries := (transcriptEntries parseURL decodeReplies).
Abbreviation pageItem := (pageItem parseURL decodeReplies).
Abbreviation itemEntry := (itemEntry parseURL decodeReplies).

(** ** One turn *)

(** A turn with its items. *)
Definition fullTurn (turn : object * list object) : object := setField "items" (AArr (AObj <$> turn.2)) turn.1.
Definition statusOf (turn : object) : string := statusValue (field "status" turn).
(** What is shown of it: the status is that of the turn everywhere. *)
Definition shownTurn (turn : object * list object) : list TranscriptEntry :=
  withStatus (statusOf turn.1) <$> transcriptEntries (fullTurn turn).

Lemma setField_same key value (o : object) : field key (setField key value o) = value.
Proof using Type.
  unfold field, setField. induction o as [|[k v] o IH]; [simpl; by rewrite str_eqb_refl|].
  cbn [List.filter filter list_filter app]. destruct (decide _) as [Hk|Hk]; [|exact IH]. simpl in *.
  by rewrite (proj2 (str_eqb_neq k key) Hk).
Qed.

Lemma item_status id s s1 s2 raw : withStatus s <$> itemEntry id s1 raw = withStatus s <$> itemEntry id s2 raw.
Proof using Type.
  unfold itemEntry. destruct (asObject raw) as [item|]; [|done].
  repeat match goal with |- context [if ?b then _ else _] => destruct b; try reflexivity end.
  all: unfold normalizeTranscriptActivity; simpl; repeat (match goal with |- context [if ?b then _ else _] => destruct b end); reflexivity.
Qed.

(** Times are given entry by entry, whatever the status. *)
Lemma times_app turn a b : applyTurnTimestamps turn (a ++ b) = applyTurnTimestamps turn a ++ applyTurnTimestamps turn b.
Proof using Type. apply fmap_app. Qed.
Lemma times_status turn s entries :
  withStatus s <$> applyTurnTimestamps turn entries = applyTurnTimestamps turn (withStatus s <$> entries).
Proof using Type.
  unfold applyTurnTimestamps. rewrite <-!list_fmap_compose. apply list_fmap_ext. intros i e _. cbn [compose].
  change (te_Kind (withStatus s e)) with (te_Kind e). change (te_ItemID (withStatus s e)) with (te_ItemID e).
  unfold compose. simpl. repeat case_match; done.
Qed.
Lemma times_fields turn turn' entries : field "startedAt" turn = field "startedAt" turn' → field "completedAt" turn = field "completedAt" turn' →
  applyTurnTimestamps turn entries = applyTurnTimestamps turn' entries.
Proof using Type. intros H1 H2. unfold applyTurnTimestamps. by rewrite H1, H2. Qed.

Lemma failure_full turn : failureEntries (fullTurn turn) = failureEntries turn.1.
Proof using Type. unfold failureEntries, fullTurn. by rewrite !field_setField by done. Qed.

Lemma item_shown raw item :
  pageItem raw item = withStatus (statusOf raw) <$> applyTurnTimestamps raw (option_list (itemEntry (stringValue (field "id" raw)) (statusOf raw) (AObj item))).
Proof using Type.
  unfold pageItem, transcriptEntries. match goal with |- context [failureEntries ?t] => assert (failureEntries t = []) as -> by done end.
  rewrite app_nil_r, !times_status. erewrite times_fields; [|done|done]. f_equal.
  transitivity (option_list (withStatus (statusOf raw) <$> itemEntry (stringValue (field "id" raw)) "completed" (AObj item))).
  - change (arrayOrNil _) with [AObj item]. cbn [omap list_omap]. unfold statusOf.
    change (stringValue (field "id" (_ :: _))) with (stringValue (field "id" raw)). change (statusValue (field "status" (_ :: _))) with "completed".
    by destruct (itemEntry _ _ _).
  - rewrite (item_status _ (statusOf raw) "completed" (statusOf raw)). by destruct (itemEntry _ _ _).
Qed.

Lemma failure_shown raw : failureList raw = withStatus (statusOf raw) <$> applyTurnTimestamps raw (failureEntries raw).
Proof using Type.
  rewrite times_status. unfold failureList, pageFailure.
  assert (failureEntries raw = [] ∨ ∃ e, failureEntries raw = [e]) as [-> | [e ->]]; [|done|done].
  unfold failureEntries. cbv zeta. destruct (field "error" raw); [destruct (failedStatus _); [right|by left]|right..]; by eexists.
Qed.

Lemma turn_shown raw items : concat (pageItem raw <$> items) ++ failureList raw = shownTurn (raw, items).
Proof using Type.
  unfold shownTurn, transcriptEntries. rewrite failure_full. unfold fullTurn. cbn [fst snd].
  rewrite setField_same, !field_setField by done.
  change (arrayOrNil (AArr (AObj <$> items))) with (AObj <$> items). fold (statusOf raw).
  rewrite (times_fields _ raw) by (by rewrite field_setField). rewrite times_app, fmap_app, <-failure_shown. f_equal.
  induction items as [|item items IH]; [done|]. rewrite !fmap_cons. cbn [concat omap list_omap]. rewrite IH, item_shown.
  destruct (itemEntry _ _ _) as [e|]; [|done]. cbn [option_list]. rewrite <-(fmap_app (withStatus (statusOf raw))), <-times_app. done.
Qed.

(** ** App Server *)

(** The recent turns, newest first, with their items, oldest first. *)
Context (thread : object) (T : list (object * list object)) (cursorAt : nat → string).
Definition named (o : object) : string := stringValue (field "id" o).
Record threadServed : Prop := {
  ts_turns : NoDup (named <$> T.*1);
  ts_items : ∀ raw items, (raw, items) ∈ T → NoDup (named <$> items) ∧ "" ∉ (named <$> items);
  ts_cursors : ∀ m n, cursorAt m = cursorAt n → m = n;
  ts_named : ∀ n, cursorAt n ≠ "" }.

Definition turnsAnswer (params : object) : list object :=
  if str_eqb (stringValue (field "itemsView" params)) "full" then fullTurn <$> T else T.*1.
(** A page of the items of a turn, of any length but none. *)
Definition itemsAnswer (raw : object) (items : list object) (from n : nat) : itemPage :=
  (Some (mkItemEntry (named raw) ∘ Some <$> take n (drop from items)),
   if (from + n <? Datatypes.length items)%nat then Some (cursorAt (from + n)) else None).
Definition startsAt (params : object) (from : nat) : Prop :=
  stringValue (field "cursor" params) = match from with O => "" | _ => cursorAt from end.

Inductive answered {A} : pageProg A → A → Prop :=
| answered_ret a : answered (PRet a) a
| answered_thread params k a : answered (k (Ok (Some thread))) a → answered (PThread params k) a
| answered_turns params k next a : answered (k (Ok (Some (turnsAnswer params), next))) a → answered (PTurns params k) a
| answered_items params k raw items from n a : (raw, items) ∈ T → stringValue (field "turnId" params) = named raw → startsAt params from →
    (0 < n)%nat → answered (k (Ok (itemsAnswer raw items from n))) a → answered (PItems params k) a.

Lemma answered_bind {A B} (m : pageProg A) (f : A → pageProg B) b :
  answered (pbind m f) b → ∃ a, answered m a ∧ answered (f a) b.
Proof using Type.
  induction m as [a|params k IH|params k IH|params k IH]; simpl; intros Hr; [by exists a; split; [constructor|]|inversion Hr; simplify_eq..];
    match goal with H : answered (pbind (k _) f) b |- _ => destruct (IH _ H) as (a & ? & ?); exists a; split; [|done] end.
  - by constructor.
  - by eapply answered_turns.
  - by eapply answered_items.
Qed.

(** ** One turn, page by page *)

Lemma take_recent raw data seen entries : NoDup (named <$> data) → "" ∉ (named <$> data) → (∀ id, id ∈ (named <$> data) → id ∉ seen) →
  ∃ seen', takeRecent parseURL decodeReplies raw (named raw) (mkItemEntry (named raw) ∘ Some <$> data) seen entries
    = Ok (seen', entries ++ concat (pageItem raw <$> data)) ∧ ∀ id, id ∈ seen' ↔ id ∈ seen ∨ id ∈ (named <$> data).
Proof using Type.
  clear absent parseTime marshalIdentity decodeLine urlString parseMarkdown. revert seen entries. induction data as [|item data IH]; intros seen entries Hnd Hne Hs.
  { simpl. exists seen. rewrite app_nil_r. split; [done|set_solver]. }
  rewrite !fmap_cons. unfold compose at 1. cbn [takeRecent ti_Item ti_TurnID default concat from_option]. rewrite str_eqb_refl. cbn [negb orb]. change (id item) with item. change (stringValue (field "id" item)) with (named item).
  rewrite fmap_cons in Hnd, Hne, Hs. apply NoDup_cons in Hnd as [Hn Hnd].
  assert (is_empty (named item) || str_in (named item) seen = false) as ->.
  { apply orb_false_iff. split; [apply is_empty_false; set_solver|apply str_in_false, Hs; set_solver]. }
  cbn [guard res_bind]. destruct (IH (named item :: seen) (entries ++ pageItem raw item)) as (seen' & -> & Hseen); [done|set_solver| |].
  { intros id Hid. apply not_elem_of_cons. split; [intros ->; done|apply Hs; set_solver]. }
  exists seen'. split; [by rewrite <-app_assoc|]. intros id. rewrite Hseen. set_solver.
Qed.

Context (Hserved : threadServed).

(** The parameters of a request name its turn and its place. *)
Lemma asks_turn threadID cursor raw : stringValue (field "turnId" (recentItemParams threadID cursor raw)) = named raw.
Proof using Type. done. Qed.
Lemma asks_place threadID cursor raw : stringValue (field "cursor" (recentItemParams threadID cursor raw)) = cursor.
Proof using Type. unfold recentItemParams. destruct (is_empty cursor) eqn:E; [|done]. apply is_empty_true in E. by subst. Qed.
Lemma one_turn raw raw' items items' : (raw, items) ∈ T → (raw', items') ∈ T → named raw = named raw' → (raw, items) = (raw', items').
Proof using Hserved.
  intros H1 H2 Hn. destruct Hserved as [Hnd _ _ _]. apply list_elem_of_lookup in H1 as [i Hi], H2 as [j Hj].
  rewrite <-list_fmap_compose in Hnd. assert (i = j) as ->; [|congruence].
  eapply NoDup_lookup; [exact Hnd|by rewrite list_lookup_fmap, Hi|]. rewrite list_lookup_fmap, Hj. simpl. by rewrite Hn.
Qed.

Definition placeOf (from : nat) : string := match from with O => "" | _ => cursorAt from end.
Lemma place_inj m n : placeOf m = placeOf n → m = n.
Proof using Hserved.
  destruct Hserved as [_ _ Hc Hn]. destruct m, n; simpl; try done; [|intros ?; by destruct (Hn (S m))|by apply Hc].
  intros H. by destruct (Hn (S n)).
Qed.

(** All items of a turn, from any place on. *)
Lemma items_read threadID raw items fuel : (raw, items) ∈ T → ∀ from seen entries r, (from ≤ Datatypes.length items)%nat →
  (Datatypes.length items < fuel + from)%nat → (∀ id, id ∈ seen ↔ id ∈ (named <$> take from items)) →
  answered (recentItems parseURL decodeReplies fuel threadID raw (placeOf from) seen entries) r →
  r = Ok (entries ++ concat (pageItem raw <$> drop from items)).
Proof using Hserved.
  clear absent parseTime marshalIdentity decodeLine urlString parseMarkdown. intros HT. induction fuel as [|fuel IH]; intros from seen entries r Hle Hf Hseen Hr; [lia|]. simpl in Hr. inversion Hr; clear Hr; simplify_eq.
  match goal with H : (?a, ?b) ∈ T, H2 : stringValue (field "turnId" _) = named ?a |- _ =>
    rewrite asks_turn in H2; pose proof (one_turn _ _ _ _ HT H H2) as E; injection E as <- <-; clear H H2 end.
  match goal with H : startsAt _ _ |- _ => unfold startsAt in H; rewrite asks_place in H; apply place_inj in H; symmetry in H; subst end.
  rename n into k. match goal with H : answered _ _ |- _ => rename H into Hrun end. match goal with H : (0 < k)%nat |- _ => rename H into Hk end.
  destruct (ts_items Hserved raw items HT) as [Hnd Hne]. rewrite <-(take_drop from items), fmap_app in Hnd. apply NoDup_app in Hnd as (_ & Hdis & Hnd).
  rewrite <-(take_drop k (drop from items)), fmap_app in Hnd. apply NoDup_app in Hnd as (Hnd & _ & _).
  assert (∀ id, id ∈ (named <$> take k (drop from items)) → id ∈ (named <$> drop from items)) as Hsub.
  { intros id. rewrite <-(take_drop k (drop from items)) at 2. rewrite fmap_app. set_solver. }
  destruct (take_recent raw (take k (drop from items)) seen entries) as (seen' & Et & Hseen'); [done| | |].
  { intros Hin. apply Hne. rewrite <-(take_drop from items), fmap_app, elem_of_app. right. by apply Hsub. }
  { intros id Hid Hs. apply Hseen in Hs. by apply (Hdis id Hs), Hsub. }
  simpl in Hrun. fold (named raw) in Hrun. rewrite Et in Hrun. destruct (from + k <? Datatypes.length items)%nat eqn:El.
  - apply Nat.ltb_lt in El. assert (0 < Datatypes.length (take k (drop from items)))%nat as Hlen by (rewrite length_take, length_drop; lia).
    assert (placeOf (from + k) = cursorAt (from + k)) as Hp by (destruct from, k; [lia|done..]).
    rewrite <-Hp in Hrun. assert (is_empty (placeOf (from + k)) || str_eqb (placeOf (from + k)) (placeOf from)
       || (Datatypes.length (mkItemEntry (named raw) ∘ Some <$> take k (drop from items)) =? 0)%nat = false) as Hgo.
    { rewrite length_fmap, !orb_false_iff. split_and!; [rewrite Hp; apply is_empty_false, (ts_named Hserved)| |apply Nat.eqb_neq; lia].
      apply str_eqb_neq. intros E%place_inj. lia. }
    rewrite Hgo in Hrun. apply IH in Hrun; [|lia|lia|].
    + rewrite Hrun, <-app_assoc, <-concat_app, <-fmap_app, <-drop_drop. by rewrite take_drop.
    + intros id. rewrite Hseen', Hseen, <-elem_of_app, <-fmap_app. by rewrite <-take_take_drop.
  - apply Nat.ltb_ge in El. inversion Hrun; simplify_eq. by rewrite (take_ge (drop from items)) by (rewrite length_drop; lia).
Qed.

(** ** A whole read *)

Lemma turns_read threadID fuel turns entries r : (∀ t, t ∈ turns → t ∈ T ∧ (Datatypes.length t.2 < fuel)%nat) →
  answered (recentTurns parseURL decodeReplies fuel threadID turns.*1 entries) r → r = Ok (entries ++ concat (shownTurn <$> turns)).
Proof using Hserved.
  revert entries. induction turns as [|[raw items] turns IH]; intros entries Hall Hr.
  { inversion Hr; simplify_eq. by rewrite app_nil_r. }
  apply answered_bind in Hr as (r1 & H1 & H2). destruct (Hall (raw, items)) as [HT Hlen]; [by left|]. simpl in Hlen.
  apply (items_read threadID raw items fuel HT 0 [] entries) in H1; [|lia|lia|done]. subst r1. apply IH in H2; [|intros t Ht; apply Hall; by right].
  rewrite H2, fmap_cons. simpl. rewrite <-(turn_shown raw items), drop_0, <-!app_assoc. done.
Qed.

Lemma rev_fmap {A B} (f : A → B) (l : list A) : rev (f <$> l) = f <$> rev l.
Proof using Type. rewrite !rev_alt. symmetry. apply (fmap_reverse f). Qed.
Lemma latest_full : latestOf (fullTurn <$> rev T) = latestOf (rev T).*1.
Proof using Type. unfold latestOf. rewrite !fmap_last. destruct (last (rev T)) as [t|]; [|done]. simpl. unfold fullTurn. by rewrite field_setField. Qed.

Definition finished (env : readEnv) (settingsLast : bool) (threadID : string) (entries : list TranscriptEntry) (cl : pageClient)
    : res err Transcript * pageClient :=
  let '(t, cl) := finishRead parseURL parseTime marshalIdentity decodeLine urlString parseMarkdown env settingsLast thread threadID
    (withEntries (latestOf (rev T).*1) entries (emptyTranscript threadID thread)) cl in (Ok t, cl).
Abbreviation ReadThread := (ReadThread sources absent parseURL decodeReplies parseTime marshalIdentity decodeLine urlString parseMarkdown).

(** C35. However App Server cuts its answers into pages, both readers come to an
    end with the entries of the same turns, oldest first: the one that reads page
    by page shows what the other one shows, with the status of the turn in every
    entry; times and citations are then filled in the same way. A turn needs one
    page more than it has items at most. *)
Theorem readers_agree env fuel threadID cl r1 r2 : named thread = threadID → (∀ t, t ∈ T → (Datatypes.length t.2 < fuel)%nat) →
  answered (ReadThread true env fuel threadID cl) r1 → answered (ReadThread false env fuel threadID cl) r2 →
  r1 = finished env true threadID (concat ((fun t => withStatus (statusOf t.1) <$> transcriptEntries (fullTurn t)) <$> rev T)) cl ∧
  r2 = finished env false threadID (concat (transcriptEntries ∘ fullTurn <$> rev T)) cl.
Proof using Hserved.
  intros Hid Hfuel H1 H2. split.
  - clear H2. inversion H1; clear H1; simplify_eq. match goal with H : answered _ r1 |- _ => rename H into Ha end. fold (named thread) in Ha.
    rewrite str_eqb_refl in Ha. cbn [negb] in Ha. inversion Ha; clear Ha; simplify_eq. match goal with H : answered (pbind _ _) _ |- _ => rename H into Hb end.
    apply answered_bind in Hb as (r & Hr & Hb). change (turnsAnswer _) with (T.*1) in *. rewrite rev_fmap in Hr, Hb.
    apply turns_read in Hr; [|intros t Ht; rewrite list_elem_of_In, <-in_rev, <-list_elem_of_In in Ht; auto]. subst r. cbn [app] in Hb.
    unfold finished. destruct (finishRead _ _ _ _ _ _ _ _ _ _ _ _) as [t cl1]. by inversion Hb; simplify_eq.
  - clear H1. inversion H2; clear H2; simplify_eq. match goal with H : answered _ r2 |- _ => rename H into Ha end. fold (named thread) in Ha.
    rewrite str_eqb_refl in Ha. cbn [negb] in Ha. inversion Ha; clear Ha; simplify_eq. match goal with H : answered _ r2 |- _ => rename H into Hb end.
    change (turnsAnswer _) with (fullTurn <$> T) in Hb. rewrite rev_fmap, latest_full, <-list_fmap_compose in Hb.
    unfold finished. destruct (finishRead _ _ _ _ _ _ _ _ _ _ _ _) as [t cl1]. by inversion Hb; simplify_eq.
Qed.
End readers.

(** ** A run: a failed turn with two items, read in two pages *)

Definition placeCursor (n : nat) : string := ("item-" ++ pretty n)%string.
Definition answerItem (id text : string) : object := [("id", AStr id); ("type", AStr "agentMessage"); ("text", AStr text)].
Definition failedTurn : object := [("id", AStr "turn"); ("status", AStr "failed"); ("startedAt", ANum 5 0)].
Definition demoThreadTurns : list (object * list object) := [(failedTurn, [answerItem "a" "one"; answerItem "b" "two"])].
Definition threadReply : object := [("id", AStr "thread"); ("status", AObj [("type", AStr "idle")]); ("path", AStr "/rollout.jsonl")].
Definition emptyClient : pageClient := mkPageClient ∅ (mkPageState ∅ [] 0 (0, 0, 0) []) ∅ noCitations.
Definition bareEnv : readEnv := mkReadEnv (mkDisk (fun _ => None) (fun _ => None) (fun _ => [])) None 1 (fun _ => mkLookEnv 0 true [] []).
Definition demoReader (reader : bool) : pageProg (res err Transcript * pageClient) :=
  ReadThread [] (fun _ => true) (fun _ => None) (fun _ => None) (fun _ => None) (fun _ => "") (fun _ => None) (fun s => s)
    (fun _ => MNode []) reader bareEnv 5 "thread" emptyClient.
Definition demoFinished (settingsLast : bool) (entries : list TranscriptEntry) : res err Transcript * pageClient :=
  finished (fun _ => None) (fun _ => None) (fun _ => "") (fun _ => None) (fun s => s) (fun _ => MNode []) threadReply demoThreadTurns
    bareEnv settingsLast "thread" entries emptyClient.
Definition demoEntries (t : object * list object) : list TranscriptEntry :=
  transcriptEntries (fun _ => None) (fun _ => None) (fullTurn t).
Definition demoPaged : res err Transcript * pageClient :=
  demoFinished true (concat ((fun t => withStatus (statusOf t.1) <$> demoEntries t) <$> rev demoThreadTurns)).
Definition demoWhole : res err Transcript * pageClient := demoFinished false (concat (demoEntries <$> rev demoThreadTurns)).

Lemma demo_served : threadServed demoThreadTurns placeCursor.
Proof.
  split.
  - apply NoDup_singleton.
  - intros raw items [= -> ->]%list_elem_of_singleton. split; [|vm_compute; set_solver].
    apply NoDup_cons. split; [vm_compute; set_solver|apply NoDup_singleton].
  - intros m n E. unfold placeCursor in E. simpl in E. injection E as E. by apply (inj pretty).
  - done.
Qed.
Lemma demo_paged : answered threadReply demoThreadTurns placeCursor (demoReader true) demoPaged.
Proof.
  eapply answered_thread. eapply (answered_turns _ _ _ _ _ None).
  eapply (answered_items _ _ _ _ _ failedTurn [answerItem "a" "one"; answerItem "b" "two"] 0 1); [by left|done|done|lia|].
  eapply (answered_items _ _ _ _ _ failedTurn [answerItem "a" "one"; answerItem "b" "two"] 1 1); [by left|done|done|lia|].
  exact (answered_ret threadReply demoThreadTurns placeCursor demoPaged).
Qed.
Lemma demo_whole : answered threadReply demoThreadTurns placeCursor (demoReader false) demoWhole.
Proof. eapply answered_thread. eapply (answered_turns _ _ _ _ _ None). exact (answered_ret threadReply demoThreadTurns placeCursor demoWhole). Qed.

Lemma readers_agree_witness :
  answered threadReply demoThreadTurns placeCursor (demoReader true) demoPaged ∧
  answered threadReply demoThreadTurns placeCursor (demoReader false) demoWhole ∧
  demoPaged = demoFinished true (concat ((fun t => withStatus (statusOf t.1) <$> demoEntries t) <$> rev demoThreadTurns)) ∧
  match demoPaged with (Ok t, _) => te_Text <$> tr_Entries t = ["one"; "two"; ""] | _ => False end.
Proof.
  split_and!; [exact demo_paged|exact demo_whole| |vm_compute; reflexivity].
  apply (readers_agree [] (fun _ => true) (fun _ => None) (fun _ => None) (fun _ => None) (fun _ => "") (fun _ => None) (fun s => s)
    (fun _ => MNode []) threadReply demoThreadTurns placeCursor demo_served bareEnv 5 "thread" emptyClient demoPaged demoWhole);
    [reflexivity| |exact demo_paged|exact demo_whole].
  intros t ->%list_elem_of_singleton. simpl. lia.
Defined.
