(* ===== verification/CitationHistoryFacts.v ===== *)
(** * What the search for sources finds

    On a thread that does not change, the workers that look for the references of a
    message come to an end, with the sources that the newest tool calls
    before the message name ([citation_scan_exact]); the caches keep
    within their limits ([citation_caches_bounded]). *)
From Stdlib Require Import Ascii String.
From S2P Require Import Prelude GoStd GoPath GoValue TurnOptions Wire History Continuation Activity ActivityHistory RolloutFile PageMetadata PagedRequests Transcript Citations CitationHistory CitationFacts ThreadPage ThreadPageFacts.
Open Scope Z_scope.

Section Scan.
Context (parseURL : string → option (string * string * bool)) (urlString : string → string).
Context (thread : object) (threadID : string) (sv : server) (sok : serverOk sv).
Context (target : itemKey) (wanted : gset string).
Abbreviation T := (sv_turns sv).
Abbreviation addSources := (addSources parseURL urlString wanted).

(** ** The reference *)

(** Items newest first, each with its turn: those before the message count, the newest first. *)
Definition itemsOf (turn : object * list object) : list (string * object) := (fun item => (turnID turn.1, item)) <$> turn.2.
Definition flat (turns : list (object * list object)) : list (string * object) := concat (itemsOf <$> turns).

Definition citeStep (acc : bool * gmap string CitationSource) (x : string * object) : bool * gmap string CitationSource :=
  if acc.1 then (true, addSources x.2 acc.2) else (bool_decide ((x.1, itemID x.2) = target), acc.2).
Definition citeAll (l : list (string * object)) : bool * gmap string CitationSource := foldl citeStep (false, ∅) l.
Definition cited : gmap string CitationSource := (citeAll (flat T)).2.

Lemma addSources_more item src : src ⊆ addSources item src.
Proof. unfold CitationHistory.addSources. destruct (negb _); [done|]. apply map_union_subseteq_l. Qed.

Lemma addSources_dom item src : dom src ⊆ wanted → dom (addSources item src) ⊆ wanted.
Proof.
  intros H. unfold CitationHistory.addSources. destruct (negb _); [done|]. rewrite dom_union_L. apply union_subseteq. split; [done|].
  intros key Hk. apply elem_of_dom in Hk as [v Hv]. by apply map_lookup_filter_Some in Hv as [_ Hv].
Qed.

Lemma addSources_full item src : dom src = wanted → addSources item src = src.
Proof.
  intros H. unfold CitationHistory.addSources. destruct (negb _); [done|]. apply map_eq. intros key. rewrite lookup_union.
  destruct (src !! key) as [v|] eqn:E; [by rewrite union_Some_l|]. rewrite (left_id_L None (∪)). apply map_lookup_filter_None. right.
  intros v _. simpl. rewrite <- H. by apply not_elem_of_dom.
Qed.

Lemma cite_more acc l : acc.2 ⊆ (foldl citeStep acc l).2.
Proof.
  revert acc. induction l as [|x l IH]; intros acc; simpl; [done|]. etrans; [|apply IH]. unfold citeStep. destruct (acc.1); [apply addSources_more|done].
Qed.

Lemma cite_dom acc l : dom acc.2 ⊆ wanted → dom (foldl citeStep acc l).2 ⊆ wanted.
Proof.
  revert acc. induction l as [|x l IH]; intros acc H; simpl; [done|]. apply IH. unfold citeStep. destruct (acc.1); [by apply addSources_dom|done].
Qed.

Lemma cite_full acc l : dom acc.2 = wanted → (foldl citeStep acc l).2 = acc.2.
Proof.
  revert acc. induction l as [|x l IH]; intros acc H; simpl; [done|].
  assert ((citeStep acc x).2 = acc.2) as E by (unfold citeStep; destruct (acc.1); [by apply addSources_full|done]).
  rewrite IH; [done|by rewrite E].
Qed.

(** Items of other turns are passed over until the message is found. *)
Lemma cite_other acc l : acc.1 = false → (∀ x, x ∈ l → x.1 ≠ target.1) → foldl citeStep acc l = acc.
Proof.
  revert acc. induction l as [|x l IH]; intros acc Ha H; simpl; [done|].
  assert (citeStep acc x = acc) as E; [|rewrite E; apply IH; [done|]; intros y Hy; apply H; by right].
  unfold citeStep. rewrite Ha, bool_decide_eq_false_2; [by destruct acc; simpl in *; subst|].
  intros <-. by apply (H x); [left|].
Qed.

Lemma citeAll_app a b : citeAll (a ++ b) = foldl citeStep (citeAll a) b.
Proof. unfold citeAll. apply foldl_app. Qed.

(** When as many were found as are wanted, no more are. *)
Lemma cite_all_found l l' : base.size (citeAll l).2 = base.size wanted → (citeAll (l ++ l')).2 = (citeAll l).2.
Proof.
  intros H. rewrite citeAll_app. apply cite_full. apply set_eq. intros key. assert (dom (citeAll l).2 ⊆ wanted) as Hsub by (apply cite_dom; set_solver).
  assert (dom (citeAll l).2 ≡ wanted) as E; [|by rewrite E]. apply set_subseteq_size_equiv; [done|]. rewrite size_dom. lia.
Qed.

(** ** Where a scan stands *)

Abbreviation ids := (turnID <$> T.*1).
Definition upto (i j : nat) : list (string * object) := flat (take i T) ++ take j (default [] (itemsOf <$> T !! i)).

(** At the turn [i], of which [j] items were read when the scan is inside it. *)
Record standsAt (st : citationScan) (i j : nat) (inside : bool) : Prop := {
  sa_i : (i ≤ Datatypes.length T)%nat;
  sa_done : sc_done st = false;
  sa_sources : sc_sources st = (citeAll (upto i j)).2;
  sa_found : sc_targetFound st = false → inside = false ∧ target.1 ∉ take i ids;
  sa_place :
    if inside then ∃ raw items, T !! i = Some (raw, items) ∧ sc_currentTurn st = turnID raw ∧ (j = 0 ∨ j < Datatypes.length items)%nat ∧
      sc_itemCursor st = cur sv j ∧ sc_targetSeen st = (citeAll (upto i j)).1 ∧ (sc_targetSeen st = false → turnID raw = target.1)
    else j = 0%nat ∧ sc_currentTurn st = "" ∧ (sc_targetFound st = true → (citeAll (upto i 0)).1 = true);
  sa_turns :
    (sc_started st = false ∧ sc_turns st = [] ∧ sc_turnIndex st = 0%nat ∧ sc_turnCursor st = "" ∧ i = 0%nat ∧ inside = false) ∨
    ∃ a b, (a ≤ i + Nat.b2n inside ≤ b ∧ b ≤ Datatypes.length T)%nat ∧ (b < Datatypes.length T → 0 < b)%nat ∧ sc_started st = true ∧
      sc_turns st = take (b - a) (drop a ids) ∧ (a + sc_turnIndex st = i + Nat.b2n inside)%nat ∧
      sc_turnCursor st = (if (b <? Datatypes.length T)%nat then sv_cursor sv b else "") }.

(** A bound on the rounds still needed. *)
Definition left_ (st : citationScan) (i j : nat) (inside : bool) : nat :=
  ((if sc_started st then Datatypes.length T - (i + Nat.b2n inside + (Datatypes.length (sc_turns st) - sc_turnIndex st)) else S (Datatypes.length T))
   + (work (drop i T) - j) + 1)%nat.

Lemma ids_length : Datatypes.length ids = Datatypes.length T.
Proof. by rewrite !length_fmap. Qed.

Lemma ids_lookup i raw items : T !! i = Some (raw, items) → ids !! i = Some (turnID raw).
Proof. intros H. by rewrite !list_lookup_fmap, H. Qed.

Lemma ids_at i id : ids !! i = Some id → ∃ raw items, T !! i = Some (raw, items) ∧ id = turnID raw ∧ id ≠ "".
Proof.
  rewrite !list_lookup_fmap. destruct (T !! i) as [[raw items]|] eqn:E; simpl; [|done]. intros. simplify_eq. exists raw, items. split_and!; [done|done|].
  destruct (turn_at sv sok _ _ _ E) as (shell & Hs & _). by eapply pageTurn_named.
Qed.

Lemma upto_next i raw items : T !! i = Some (raw, items) → upto (S i) 0 = upto i (Datatypes.length items).
Proof.
  intros H. unfold upto, flat. rewrite H, take_0, app_nil_r. simpl. rewrite (take_S_r _ _ _ H), fmap_app, concat_app. simpl. rewrite app_nil_r. f_equal.
  rewrite take_ge; [done|]. unfold itemsOf. rewrite length_fmap. done.
Qed.

Lemma upto_more i j k t : T !! i = Some t → upto i (j + k) = upto i j ++ take k (drop j (itemsOf t)).
Proof. intros H. unfold upto. rewrite H. simpl. rewrite <- app_assoc. f_equal. by rewrite take_take_drop. Qed.

Lemma upto_prefix i j : ∃ rest, flat T = upto i j ++ rest.
Proof.
  unfold upto. destruct (T !! i) as [t|] eqn:E; simpl.
  - exists (drop j (itemsOf t) ++ flat (drop (S i) T)). rewrite <- app_assoc, (app_assoc (take j _)), take_drop. unfold flat at 1.
    rewrite <- (take_drop_middle T i t E) at 1. rewrite fmap_app, concat_app. done.
  - rewrite take_nil, app_nil_r. exists (flat (drop i T)). unfold flat. by rewrite <- concat_app, <- fmap_app, take_drop.
Qed.

Lemma upto_end : upto (Datatypes.length T) 0 = flat T.
Proof. unfold upto. rewrite take_0, app_nil_r. by rewrite firstn_all. Qed.

(** Before the turn of the message nothing is found. *)
Lemma cite_before i : target.1 ∉ take i ids → citeAll (upto i 0) = (false, ∅).
Proof.
  intros H. unfold upto. rewrite take_0, app_nil_r. apply cite_other; [done|]. intros x Hx. unfold flat in Hx.
  apply list_elem_of_In, in_concat in Hx as (l & Hl%list_elem_of_In & Hx%list_elem_of_In). apply list_elem_of_fmap in Hl as (t & -> & Ht). apply list_elem_of_fmap in Hx as (item & -> & _). simpl.
  intros E. apply H. rewrite <- E. apply list_elem_of_lookup in Ht as [k Hk]. apply lookup_take_Some in Hk as [Hk Hlt].
  apply (list_elem_of_lookup_2 _ k). apply lookup_take_Some. split; [|done]. destruct t as [raw items]. by apply ids_lookup in Hk.
Qed.

Lemma stuckCursor_ok n m entries : (m < n)%nat →
  (n < Datatypes.length T ∨ ∃ raw items, (raw, items) ∈ T ∧ n < Datatypes.length items)%nat → entries ≠ 0%nat →
  stuckCursor (sv_cursor sv n) (cur sv m) entries = false.
Proof.
  intros Hm Hn He. destruct (ok_cursors _ sok n) as (Hne & Hlen & Hpos); [lia|done|]. unfold stuckCursor.
  assert (str_eqb (sv_cursor sv n) (cur sv m) = false) as ->.
  { apply str_eqb_neq. unfold cur. destruct m as [|m]; [done|]. simpl. intros E. rewrite E in Hpos.
    destruct (ok_cursors _ sok (S m)) as (_ & _ & Hpos'); [lia|destruct Hn as [?|(raw & items & ? & ?)]; [left; lia|right; exists raw, items; split; [done|lia]]|].
    lia. }
  unfold cursorLimit, cursorLength in *. rewrite (proj2 (Z.ltb_ge _ _)), (proj2 (Nat.eqb_neq _ _)) by done. by destruct (sv_cursor sv n).
Qed.

(** ** Rounds *)

Definition taken (k i : nat) : nat := ((i + k) `min` Datatypes.length T)%nat.

(** A page of turns moves on, from the end of the last one. *)
Lemma turns_round st i :
  standsAt st i 0 false → sc_turnCursor st = cur sv i → (i = 0 ∨ i < Datatypes.length T)%nat → sc_turns st !! sc_turnIndex st = None →
  sc_started st && is_empty (sc_turnCursor st) = false →
  ∃ page st', serveTurns sv (citationTurnParams threadID (sc_turnCursor st)) = Ok page ∧ commitCitationTurns page st = Ok st' ∧
    standsAt st' i 0 false ∧ (left_ st' i 0 false < left_ st i 0 false)%nat.
Proof.
  intros Hst Hcur Hi Hnone Hgo. unfold serveTurns. set (params := citationTurnParams _ _).
  assert (stringValue (field "cursor" params) = cur sv i ∧ field "limit" params = ANum scanLimit 0) as [Hc Hl].
  { unfold params, citationTurnParams, setText. rewrite Hcur. by destruct (cur sv i). }
  rewrite (startOf_cur sv sok i) by (first [done|intros; left; lia]). rewrite Hl, integerValue_limit by (unfold scanLimit; lia).
  destruct (ok_takeTurns _ sok i scanLimit) as [Hk Hk']; [done|]. set (k := sv_takeTurns sv i scanLimit) in *.
  assert (Datatypes.length T.*1 = Datatypes.length T) as Hlen by apply length_fmap.
  assert ((fun turn : object => stringValue (field "id" turn)) <$> take k (drop i T.*1) = take (taken k i - i) (drop i ids)) as Hids.
  { rewrite <- (fmap_drop turnID), <- (fmap_take turnID). change (fun turn : object => stringValue (field "id" turn)) with turnID. unfold taken.
    destruct (decide (i + k ≤ Datatypes.length T)%nat).
    - by assert ((i + k) `min` Datatypes.length T - i = k)%nat as -> by lia.
    - rewrite !take_ge; [done|rewrite length_drop; lia..]. }
  set (next := if (i + k <? Datatypes.length T)%nat then Some (sv_cursor sv (i + k)) else None).
  assert (commitCitationTurns (Some (take k (drop i T.*1)), next) st =
    Ok (mkScan (sc_sources st) (take (taken k i - i) (drop i ids)) 0 (default "" next) (sc_itemCursor st) (sc_currentTurn st) true (sc_targetFound st) (sc_targetSeen st) (sc_done st))) as Hcommit.
  { unfold commitCitationTurns. rewrite (proj2 (Z.ltb_ge _ _)) by (rewrite length_take; lia).
    assert (match next with Some next => stuckCursor next (sc_turnCursor st) (Datatypes.length (take k (drop i T.*1))) | None => false end = false) as ->.
    { unfold next. destruct (i + k <? _)%nat eqn:E; [|done]. apply Nat.ltb_lt in E. rewrite Hcur. apply stuckCursor_ok; [lia|left; lia|].
      rewrite length_take, length_drop. lia. }
    rewrite Hids. assert (existsb is_empty (take (taken k i - i) (drop i ids)) = false) as ->; [|done].
    apply not_true_iff_false. intros (id & Hin%list_elem_of_In & He)%existsb_exists. apply list_elem_of_lookup in Hin as [m Hm].
    apply lookup_take_Some in Hm as [Hm _]. rewrite lookup_drop in Hm. apply ids_at in Hm as (_ & _ & _ & _ & Hne). by destruct id. }
  exists (answer sv k i T.*1). eexists. split; [done|]. unfold answer. rewrite Hlen. split; [exact Hcommit|].
  destruct Hst as [H1 H2 H3 H4 (H5 & H6 & H7) H8]. split.
  - constructor; try done. right. exists i, (taken k i). cbn -[Nat.ltb Nat.min]. unfold taken. split_and!; [lia|lia|lia|lia|done|done|lia|].
    unfold next. destruct (i + k <? _)%nat eqn:E; [apply Nat.ltb_lt in E|apply Nat.ltb_ge in E].
    + rewrite (proj2 (Nat.ltb_lt _ _)) by lia. simpl. f_equal. lia.
    + by rewrite (proj2 (Nat.ltb_ge _ _)) by lia.
  - unfold left_. cbn -[Nat.ltb Nat.min Nat.sub Nat.add]. rewrite length_take, length_drop, ids_length. apply lookup_ge_None_1 in Hnone. unfold taken.
    destruct H8 as [(Hs & _)|(a & b & Hab & _ & Hs & Ht & Hx & Hcur')]; rewrite Hs; [lia|].
    rewrite Ht in Hnone |- *. rewrite length_take, length_drop, ids_length in *. cbn [Nat.b2n] in *.
    assert (i < Datatypes.length T)%nat; [|lia]. destruct (decide (b < Datatypes.length T)%nat) as [|Hb]; [lia|]. exfalso.
    rewrite (proj2 (Nat.ltb_ge _ _)) in Hcur' by lia. by rewrite Hs, Hcur' in Hgo.
Qed.

Abbreviation scanItems := (scanItems parseURL urlString target wanted).
Abbreviation commitCitationItems := (commitCitationItems parseURL urlString target wanted).
Definition entryOfItem (id : string) (item : object) : threadItemEntry := mkItemEntry id (Some item).

Lemma setItems_same st : setItems (sc_sources st) (sc_targetSeen st) st = st.
Proof. by destruct st. Qed.

Lemma cite_stays acc l : acc.1 = true → (foldl citeStep acc l).1 = true.
Proof. revert acc. induction l as [|x l IH]; intros acc H; [done|]. simpl. apply IH. unfold citeStep. by rewrite H. Qed.

(** What was not seen at one place was not seen before it. *)
Lemma cite_unseen i j k t : T !! i = Some t → (citeAll (upto i (j + k))).1 = false → (citeAll (upto i j)).1 = false.
Proof.
  intros Hi H. rewrite (upto_more i j k _ Hi), citeAll_app in H. destruct (citeAll (upto i j)).1 eqn:E; [|done]. by rewrite cite_stays in H.
Qed.

Lemma scanItems_ok id l st :
  sc_currentTurn st = id → (∀ item, item ∈ l → itemID item ≠ "") → (sc_targetSeen st = false → id = target.1) →
  let acc := foldl citeStep (sc_targetSeen st, sc_sources st) ((fun item => (id, item)) <$> l) in
  scanItems (entryOfItem id <$> l) st = (setItems acc.2 acc.1 st, None).
Proof.
  revert st. induction l as [|item l IH]; intros st Hid Hne Hseen; cbv zeta; cbn [fmap list_fmap foldl CitationHistory.scanItems fst snd]; [by rewrite setItems_same|].
  assert (is_empty (stringValue (itemField "id" (entryOfItem id item))) = false) as ->.
  { specialize (Hne item ltac:(by left)). unfold itemField, entryOfItem, itemID in *. simpl. by destruct (stringValue _). }
  cbn [ti_TurnID entryOfItem]. rewrite Hid, str_eqb_refl. cbn [negb orb].
  unfold citeStep at 2 4. destruct (sc_targetSeen st) eqn:Hs; cbn [fst snd negb].
  - rewrite IH; [done|done|intros; apply Hne; by right|done].
  - assert (str_eqb (stringValue (itemField "id" (entryOfItem id item))) target.2 = bool_decide ((id, itemID item) = target)) as ->.
    { rewrite (Hseen eq_refl). unfold itemField, entryOfItem, itemID. simpl. destruct target as [t1 t2]. simpl.
      destruct (str_eqb _ _) eqn:E; symmetry; [apply str_eqb_eq in E; apply bool_decide_eq_true_2; by rewrite E|].
      apply str_eqb_neq in E. apply bool_decide_eq_false_2. intros [=]. done. }
    rewrite IH; [done|done|intros; apply Hne; by right|]. intros _. by apply Hseen.
Qed.

(** After the turn of the message, no item is the message. *)
Lemma cite_missed i raw items :
  T !! i = Some (raw, items) → turnID raw = target.1 → (citeAll (upto (S i) 0)).1 = false → (citeAll (upto (S i) 0)).2 = cited.
Proof.
  intros Hi Hid Hseen. unfold cited. assert (flat T = upto (S i) 0 ++ flat (drop (S i) T)) as ->.
  { unfold upto. rewrite take_0, app_nil_r. unfold flat. by rewrite <- concat_app, <- fmap_app, take_drop. }
  rewrite citeAll_app, cite_other; [done|done|]. intros x Hx. unfold flat in Hx.
  apply list_elem_of_In, in_concat in Hx as (l & Hl%list_elem_of_In & Hx%list_elem_of_In). apply list_elem_of_fmap in Hl as ([raw' items'] & -> & Ht).
  apply list_elem_of_fmap in Hx as (item & -> & _). simpl. intros E. apply list_elem_of_lookup in Ht as [k Hk]. rewrite lookup_drop in Hk.
  pose proof (turn_unique sv sok i (S i + k) raw raw') as Hu. rewrite !list_lookup_fmap, Hi, Hk in Hu. specialize (Hu eq_refl eq_refl ltac:(congruence)). lia.
Qed.

Definition moves (st : citationScan) (i j : nat) (inside : bool) (st' : citationScan) : Prop :=
  (sc_done st' = true ∧ sc_sources st' = cited) ∨
  ∃ i' j' inside', standsAt st' i' j' inside' ∧ (left_ st' i' j' inside' < left_ st i j inside)%nat.

(** The places after a page of items. *)
Lemma stands_further st i j k raw items :
  standsAt st i j true → T !! i = Some (raw, items) → (0 < k)%nat → (j + k < Datatypes.length items)%nat →
  let acc := citeAll (upto i (j + k)) in
  moves st i j true (setItemCursor (sc_currentTurn st) (sv_cursor sv (j + k)) (setItems acc.2 acc.1 st)).
Proof.
  intros [H1 H2 H3 H4 H5 H6] Hi Hk Hlt. cbv zeta. right. exists i, (j + k)%nat, true. destruct H5 as (raw' & items' & Hi' & Hc & Hj & Hcur & Hseen & Ht). rewrite Hi in Hi'. injection Hi' as <- <-.
  split; [constructor; try done|].
  - exists raw, items. cbn. split_and!; [done|done|lia| |done|].
    + unfold cur. by rewrite (proj2 (Nat.eqb_neq _ _)) by lia.
    + intros E. apply Ht. rewrite Hseen. by eapply cite_unseen.
  - unfold left_. cbn -[Nat.sub Nat.add]. rewrite (work_drop sv _ _ _ Hi). lia.
Qed.

Lemma stands_over st i j raw items :
  standsAt st i j true → T !! i = Some (raw, items) →
  let acc := citeAll (upto (S i) 0) in
  moves st i j true (if negb acc.1 then setDone (setItems acc.2 acc.1 st) else setItemCursor "" "" (setItems acc.2 acc.1 st)).
Proof.
  intros [H1 H2 H3 H4 H5 H6] Hi. cbv zeta. destruct H5 as (raw' & items' & Hi' & Hc & Hj & Hcur & Hseen & Ht). rewrite Hi in Hi'. injection Hi' as <- <-.
  destruct (citeAll (upto (S i) 0)) as [seen src] eqn:Ea. cbn [fst snd]. destruct seen; cbn [negb].
  - right. exists (S i), 0%nat, false. apply lookup_lt_Some in Hi as Hlt. split; [constructor; cbn -[Nat.add]|].
    + lia.
    + done.
    + by rewrite Ea.
    + intros E. by destruct (H4 E).
    + split_and!; [done|done|by rewrite Ea].
    + destruct H6 as [(_ & _ & _ & _ & _ & ?)|(a & b & Hab & Hb & Hs & Hts & Hx & Hcu)]; [done|]. right. exists a, b. cbn [Nat.b2n] in *.
      split_and!; first [lia|done].
    + unfold left_. cbn -[Nat.sub Nat.add]. rewrite (work_drop sv _ _ _ Hi). cbn [Nat.b2n]. destruct (sc_started st); lia.
  - left. split; [done|]. cbn. rewrite <- (cite_missed i raw items Hi); [by rewrite Ea| |by rewrite Ea]. apply Ht. rewrite Hseen.
    apply (cite_unseen i j (Datatypes.length items - j) (raw, items) Hi). replace (j + _)%nat with (Datatypes.length items) by lia.
    rewrite <- (upto_next _ _ _ Hi). by rewrite Ea.
Qed.

Lemma items_round st i j :
  standsAt st i j true →
  ∃ page st', serveItems sv (citationItemParams threadID (sc_currentTurn st) (sc_itemCursor st)) = Ok page ∧
    commitCitationItems page st = (st', None) ∧ moves st i j true st'.
Proof.
  intros Hst. pose proof (sa_place _ _ _ _ Hst) as (raw & items & Hi & Hc & Hj & Hcur & Hseen & Ht).
  unfold serveItems. set (params := citationItemParams _ _ _).
  assert (stringValue (field "cursor" params) = cur sv j ∧ field "limit" params = ANum scanLimit 0 ∧ stringValue (field "turnId" params) = turnID raw) as (Hpc & Hpl & Hpt).
  { unfold params, citationItemParams, setText. rewrite Hcur, Hc. by destruct (cur sv j). }
  rewrite Hpt, (turnNamed_at sv sok _ _ _ Hi), (startOf_cur sv sok j) by
    (first [done|intros; right; exists raw, items; split; [by eapply list_elem_of_lookup_2|lia]]).
  rewrite Hpl, integerValue_limit by (unfold scanLimit; lia).
  destruct (ok_takeItems _ sok i j scanLimit) as [Hk Hk']; [done|]. set (k := sv_takeItems sv i j scanLimit) in *.
  set (l := take k (drop j items)).
  assert (take k (drop j ((fun item : object => mkItemEntry (turnID raw) (Some item)) <$> items)) = entryOfItem (turnID raw) <$> l) as Hl.
  { unfold l. by rewrite fmap_take, fmap_drop. }
  assert (foldl citeStep (sc_targetSeen st, sc_sources st) ((fun item => (turnID raw, item)) <$> l) = citeAll (upto i (j + k))) as Hacc.
  { rewrite (upto_more i j k _ Hi), citeAll_app, Hseen, (sa_sources _ _ _ _ Hst), <- surjective_pairing. unfold itemsOf, l. cbn [fst snd].
    by rewrite fmap_take, fmap_drop. }
  pose proof (scanItems_ok (turnID raw) l st Hc) as Hscan. cbv zeta in Hscan. rewrite Hacc in Hscan.
  specialize (Hscan ltac:(intros item (m & Hm)%list_elem_of_lookup; apply lookup_take_Some in Hm as [Hm _]; rewrite lookup_drop in Hm;
    eapply (ok_items _ sok); [by eapply list_elem_of_lookup_2|by eapply list_elem_of_lookup_2]) Ht).
  eexists (answer sv k j _). enough (∃ st', commitCitationItems (answer sv k j ((fun item : object => mkItemEntry (turnID raw) (Some item)) <$> items)) st = (st', None) ∧
    moves st i j true st') as (st' & H1 & H2) by (exists st'; split; [reflexivity|]; done).
  unfold answer, CitationHistory.commitCitationItems. rewrite Hl.
  assert (Datatypes.length l ≤ k)%nat as Hlen by (unfold l; rewrite length_take; lia).
  rewrite (proj2 (Z.ltb_ge _ _)) by (rewrite length_fmap; lia). rewrite Hscan, (length_fmap (fun item : object => mkItemEntry (turnID raw) (Some item)) items).
  destruct (j + k <? Datatypes.length items)%nat eqn:Hmore.
  - apply Nat.ltb_lt in Hmore. cbn [setItems sc_itemCursor sc_currentTurn].
    rewrite Hcur, stuckCursor_ok; [|lia|right; exists raw, items; split; [by eapply list_elem_of_lookup_2|done]|].
    + eexists. split; [reflexivity|]. by apply (stands_further st i j k raw items).
    + rewrite length_fmap. unfold l. rewrite length_take, length_drop. lia.
  - apply Nat.ltb_ge in Hmore. assert (upto i (j + k) = upto (S i) 0) as ->.
    { rewrite (upto_next _ _ _ Hi). unfold upto. rewrite Hi. cbn [default from_option fmap option_fmap option_map id].
      assert (Datatypes.length (itemsOf (raw, items)) = Datatypes.length items) by apply length_fmap.
      f_equal. rewrite !take_ge; [done|lia..]. }
    pose proof (stands_over st i j raw items Hst Hi) as Hm. cbv zeta in Hm. cbn [setItems sc_targetSeen].
    destruct (citeAll (upto (S i) 0)) as [[] src]; (eexists; split; [reflexivity|exact Hm]).
Qed.

Lemma stands_skip st i id :
  standsAt st i 0 false → sc_turns st !! sc_turnIndex st = Some id → sc_targetFound st = false → id ≠ target.1 →
  standsAt (nextTurn st) (S i) 0 false ∧ (left_ (nextTurn st) (S i) 0 false < left_ st i 0 false)%nat.
Proof.
  intros [H1 H2 H3 H4 (H5 & H6 & H7) H8] Hid Hf Hne. destruct H8 as [(_ & Ht & _)|(a & b & Hab & Hb & Hs & Ht & Hx & Hc)]; [by rewrite Ht in Hid|].
  rewrite Ht in Hid. pose proof Hid as [Hid' Hlt]%lookup_take_Some. rewrite lookup_drop in Hid'. cbn [Nat.b2n] in *.
  replace (a + sc_turnIndex st)%nat with i in Hid' by lia. destruct (ids_at _ _ Hid') as (raw & items & Hi & -> & _).
  destruct (H4 Hf) as [_ Hnot]. pose proof (lookup_lt_Some _ _ _ Hi) as Hlen.
  assert (target.1 ∉ take (S i) ids) as Hnot'.
  { rewrite (take_S_r _ _ _ Hid'). intros [?|E%list_elem_of_singleton]%elem_of_app; congruence. }
  split; [constructor; cbn -[Nat.add]|].
  - lia.
  - done.
  - by rewrite H3, !cite_before.
  - done.
  - split_and!; [done|done|congruence].
  - right. exists a, b. cbn [Nat.b2n]. split_and!; first [lia|done].
  - unfold left_. cbn -[Nat.sub Nat.add]. rewrite Hs, Ht, length_take, length_drop, ids_length, (work_drop sv _ _ _ Hi). lia.
Qed.

Lemma stands_enter st i id :
  standsAt st i 0 false → sc_turns st !! sc_turnIndex st = Some id → negb (sc_targetFound st) && negb (str_eqb id target.1) = false →
  standsAt (enterTurn target.1 id st) i 0 true ∧ (left_ (enterTurn target.1 id st) i 0 true ≤ left_ st i 0 false)%nat.
Proof.
  intros [H1 H2 H3 H4 (H5 & H6 & H7) H8] Hid Hgo. destruct H8 as [(_ & Ht & _)|(a & b & Hab & Hb & Hs & Ht & Hx & Hc)]; [by rewrite Ht in Hid|].
  rewrite Ht in Hid. pose proof Hid as [Hid' Hlt]%lookup_take_Some. rewrite lookup_drop in Hid'. cbn [Nat.b2n] in *.
  replace (a + sc_turnIndex st)%nat with i in Hid' by lia. destruct (ids_at _ _ Hid') as (raw & items & Hi & -> & _).
  pose proof (lookup_lt_Some _ _ _ Hi) as Hlen. split; [constructor; cbn -[Nat.add]; try done|].
  - exists raw, items. split_and!; [done|done|by left|done| |].
    + destruct (str_eqb (turnID raw) target.1) eqn:E; cbn.
      * apply str_eqb_eq in E. rewrite cite_before; [done|]. rewrite <- E. intros (m & Hm)%list_elem_of_lookup. apply lookup_take_Some in Hm as [Hm Hmi].
        destruct (ids_at _ _ Hm) as (raw' & items' & Hi' & E' & _). pose proof (turn_unique sv sok m i raw' raw) as Hu.
        rewrite !list_lookup_fmap, Hi, Hi' in Hu. specialize (Hu eq_refl eq_refl ltac:(congruence)). lia.
      * symmetry. apply H7. by destruct (sc_targetFound st).
    + intros E%negb_false_iff%str_eqb_eq. done.
  - right. exists a, b. cbn [Nat.b2n]. split_and!; first [lia|done].
  - unfold left_. cbn -[Nat.sub Nat.add]. rewrite Hs, Ht, length_take, length_drop, ids_length. cbn [Nat.b2n]. lia.
Qed.

Abbreviation scan := (scanCitationHistory parseURL urlString threadID target wanted).

Lemma scan_finished budget c st : sc_done st = true → scan budget c st = PRet (finishScan wanted st, None).
Proof. intros H. destruct budget; [done|]. simpl. by rewrite H. Qed.

Lemma finishScan_sources st : sc_sources (finishScan wanted st) = sc_sources st ∧ (sc_done st = true → sc_done (finishScan wanted st) = true).
Proof. unfold finishScan. by destruct (foundAll wanted st). Qed.

Lemma foundAll_cited st i j inside : standsAt st i j inside → foundAll wanted st = true → sc_sources (setDone st) = cited.
Proof.
  intros Hst H%Nat.eqb_eq. rewrite (sa_sources _ _ _ _ Hst) in H. destruct (upto_prefix i j) as [rest E]. unfold cited. rewrite E, cite_all_found by done.
  cbn. apply (sa_sources _ _ _ _ Hst).
Qed.

(** A scan that is between turns, with none of them left to visit. *)
Lemma stands_dry st i :
  standsAt st i 0 false → sc_turns st !! sc_turnIndex st = None →
  (sc_started st && is_empty (sc_turnCursor st) = true → i = Datatypes.length T) ∧
  (sc_started st && is_empty (sc_turnCursor st) = false → sc_turnCursor st = cur sv i ∧ (i = 0 ∨ i < Datatypes.length T)%nat).
Proof.
  intros [H1 H2 H3 H4 (H5 & H6 & H7) H8] Hnone. destruct H8 as [(Hs & _ & _ & Hc & -> & _)|(a & b & Hab & Hb & Hs & Ht & Hx & Hc)]; rewrite Hs.
  - split; [done|]. intros _. split; [done|by left].
  - rewrite Ht in Hnone. apply lookup_ge_None_1 in Hnone. rewrite length_take, length_drop, ids_length in Hnone. cbn [Nat.b2n] in *.
    assert (i = b) as -> by lia. rewrite Hc. destruct (b <? Datatypes.length T)%nat eqn:E; [apply Nat.ltb_lt in E|apply Nat.ltb_ge in E].
    + destruct (ok_cursors _ sok b) as (Hne & _); [lia|left; lia|]. split; [by destruct (sv_cursor sv b)|]. intros _. unfold cur.
      rewrite (proj2 (Nat.eqb_neq _ _)) by lia. split; [done|by right].
    + split; [lia|done].
Qed.

(** What [budget] rounds come to. *)
Definition comes (budget : nat) (st : citationScan) (i j : nat) (inside : bool) (st' : citationScan) : Prop :=
  (sc_done st' = true ∧ sc_sources st' = cited) ∨
  ∃ i' j' inside', standsAt st' i' j' inside' ∧ (left_ st' i' j' inside' + budget ≤ left_ st i j inside)%nat.

Lemma comes_moves budget st i j inside st' :
  (∀ st i j inside, standsAt st i j inside → ∃ st', run thread sv (scan budget None st) = (st', None) ∧ comes budget st i j inside st') →
  moves st i j inside st' →
  ∃ st'', run thread sv (scan budget None st') = (st'', None) ∧ comes (S budget) st i j inside st''.
Proof.
  intros IH [[Hd Hs]|(i' & j' & inside' & Hst & Hlt)].
  - rewrite scan_finished by done. eexists. split; [done|]. left. destruct (finishScan_sources st') as [H1 H2]. split; [by apply H2|by rewrite H1].
  - destruct (IH _ _ _ _ Hst) as (st'' & Hrun & Hc). exists st''. split; [done|].
    destruct Hc as [Hc|(i2 & j2 & inside2 & Hst2 & Hle)]; [by left|right]. exists i2, j2, inside2. split; [done|lia].
Qed.

Lemma scan_comes budget st i j inside :
  standsAt st i j inside → ∃ st', run thread sv (scan budget None st) = (st', None) ∧ comes budget st i j inside st'.
Proof.
  revert st i j inside. induction budget as [|budget IH]; intros st i j inside Hst.
  { eexists. split; [done|]. unfold finishScan. destruct (foundAll wanted st) eqn:E; [left; split; [done|by eapply foundAll_cited]|].
    right. exists i, j, inside. split; [done|lia]. }
  cbn [CitationHistory.scanCitationHistory]. rewrite (sa_done _ _ _ _ Hst). cbn [ctxErr].
  destruct (foundAll wanted st) eqn:Hall; [eexists; split; [done|]; left; split; [done|by eapply foundAll_cited]|].
  destruct inside.
  { pose proof (sa_place _ _ _ _ Hst) as (raw & items & Hi & Hc & _). destruct (turn_at sv sok _ _ _ Hi) as (shell & Hs & _).
    pose proof (pageTurn_named _ _ Hs) as Hne. assert (is_empty (sc_currentTurn st) = false) as -> by (rewrite Hc; by destruct (turnID raw)). cbn [negb].
    destruct (items_round st i j Hst) as (page & st' & Hserve & Hcommit & Hm). cbn [run]. rewrite Hserve, Hcommit. by apply comes_moves. }
  pose proof (sa_place _ _ _ _ Hst) as (-> & -> & _). change (is_empty "") with true. cbn [negb].
  destruct (sc_turns st !! sc_turnIndex st) as [id|] eqn:Hid.
  - destruct (negb (sc_targetFound st) && negb (str_eqb id target.1)) eqn:Hskip.
    + apply andb_true_iff in Hskip as [Hf%negb_true_iff Hne%negb_true_iff%str_eqb_neq]. destruct (stands_skip st i id Hst Hid Hf Hne) as [Hst' Hlt].
      apply comes_moves; [done|]. right. eauto 10.
    + destruct (stands_enter st i id Hst Hid Hskip) as [Hst' Hle]. destruct (items_round _ i 0 Hst') as (page & st' & Hserve & Hcommit & Hm).
      cbn [run]. rewrite Hserve, Hcommit. apply comes_moves; [done|]. destruct Hm as [Hm|(i' & j' & inside' & Hst2 & Hlt)]; [by left|right].
      exists i', j', inside'. split; [done|lia].
  - destruct (stands_dry st i Hst Hid) as [Hend Hmore]. destruct (sc_started st && is_empty (sc_turnCursor st)) eqn:Hgo.
    + eexists. split; [done|]. left. split; [done|]. cbn. rewrite (sa_sources _ _ _ _ Hst), (Hend eq_refl), upto_end. done.
    + destruct (Hmore eq_refl) as [Hcur Hi]. destruct (turns_round st i Hst Hcur Hi Hid Hgo) as (page & st' & Hserve & Hcommit & Hst' & Hlt).
      cbn [run]. rewrite Hserve, Hcommit. apply comes_moves; [done|]. right. eauto 10.
Qed.

(** The jobs of a lookup, one after the other. *)
Fixpoint jobs (n : nat) (st : citationScan) : citationScan :=
  match n with
  | O => st
  | S n => if sc_done st then st else jobs n (run thread sv (scan scanBudget None st)).1
  end.

Lemma stands_new : standsAt (newScan ∅) 0 0 false.
Proof.
  constructor; cbn; try done; [lia|intros _; split; [done|apply not_elem_of_nil]|].
  left. done.
Qed.

Lemma jobs_stand n st i j inside :
  standsAt st i j inside → (sc_done (jobs n st) = true ∧ sc_sources (jobs n st) = cited) ∨
    ∃ i' j' inside', standsAt (jobs n st) i' j' inside' ∧ (left_ (jobs n st) i' j' inside' + n * scanBudget ≤ left_ st i j inside)%nat.
Proof.
  revert st i j inside. induction n as [|n IH]; intros st i j inside Hst; cbn [jobs]; [right; exists i, j, inside; split; [done|lia]|].
  rewrite (sa_done _ _ _ _ Hst). destruct (scan_comes scanBudget st i j inside Hst) as (st' & -> & [[Hd Hs]|(i' & j' & inside' & Hst' & Hle)]); cbn [fst].
  - left. destruct n; cbn [jobs]; [done|]. by rewrite Hd.
  - destruct (IH st' i' j' inside' Hst') as [?|(i2 & j2 & inside2 & Hst2 & Hle2)]; [by left|right]. exists i2, j2, inside2. split; [done|]. unfold scanBudget in *. lia.
Qed.

(** C36. On a thread that does not change, the jobs of a lookup come to an end, after a
    number of them that the turns and the items bound, with the sources
    that the newest tool calls before the message name for what is
    wanted; and at no time do they show another source. *)
Theorem citation_scan_exact n :
  sc_sources (jobs n (newScan ∅)) ⊆ cited ∧
  ((Datatypes.length T + work T + 2 < n * scanBudget)%nat → sc_done (jobs n (newScan ∅)) = true ∧ sc_sources (jobs n (newScan ∅)) = cited).
Proof.
  destruct (jobs_stand n (newScan ∅) 0 0 false stands_new) as [[Hd Hs]|(i & j & inside & Hst & Hle)].
  - split; [by rewrite Hs|done].
  - split.
    + rewrite (sa_sources _ _ _ _ Hst). destruct (upto_prefix i j) as [rest E]. unfold cited. rewrite E, citeAll_app. apply cite_more.
    + unfold left_ in Hle at 2. cbn -[Nat.mul] in Hle. rewrite drop_0 in Hle. lia.
Qed.

End Scan.

(** ** The caches *)

(** A fold that keeps its value or takes a good one, and takes the first that it is offered. *)
Lemma foldl_pick {K} (f : K → K → K) (good : K → Prop) (o0 : K) l :
  (∀ o k, f o k = o ∨ (f o k = k ∧ good k)) → (∃ k, k ∈ l ∧ f o0 k = k ∧ good k) → good (foldl f o0 l).
Proof.
  intros Hf Hex. assert (∀ l o, good o ∨ (o = o0 ∧ ∃ k, k ∈ l ∧ f o0 k = k ∧ good k) → good (foldl f o l)) as H; [|by apply H; right].
  clear l Hex. induction l as [|k l IH]; intros o Ho; simpl; [destruct Ho as [?|(_ & ? & []%elem_of_nil & _)]; done|]. apply IH.
  destruct Ho as [Ho|(-> & k' & [->|Hin]%elem_of_cons & Hk & Hg)].
  - left. by destruct (Hf o k) as [->|[-> ?]].
  - left. by rewrite Hk.
  - destruct (Hf o0 k) as [->|[-> ?]]; [right; eauto|by left].
Qed.

(** A map that has more than a limit has a key other than a given one. *)
Lemma map_other `{Countable K} {A} (m : gmap K A) (key : K) : (1 < base.size m)%nat → ∃ k v, m !! k = Some v ∧ k ≠ key.
Proof.
  intros Hs. assert (delete key m ≠ ∅) as Hne.
  { intros E. apply (f_equal base.size) in E. rewrite map_size_delete, map_size_empty in E. destruct (m !! key); simpl in E; lia. }
  apply map_choose in Hne as (k & v & Hk). apply lookup_delete_Some in Hk as [Hne Hk]. eauto.
Qed.

Lemma oldestThread_other thread threads iteration :
  (1 < base.size threads)%nat → (∀ id, is_Some (threads !! id) → id ∈ iteration) →
  is_Some (threads !! oldestThread thread threads iteration) ∧ oldestThread thread threads iteration ≠ thread.
Proof.
  intros Hs Hall. unfold oldestThread. apply (foldl_pick _ (fun id => is_Some (threads !! id) ∧ id ≠ thread)).
  - intros o k. destruct (threads !! k) as [c|] eqn:E; [|by left]. destruct (negb _ && _) eqn:Eb; [|by left]. right. split; [done|].
    apply andb_true_iff in Eb as [Ek%negb_true_iff%str_eqb_neq _]. eauto.
  - destruct (map_other threads thread Hs) as (k & v & Hk & Hne). exists k. split; [apply Hall; eauto|]. cbn beta. rewrite Hk.
    rewrite (proj2 (str_eqb_neq _ _) Hne). eauto.
Qed.

Lemma oldestLookup_other key lookups iteration :
  (1 < base.size lookups)%nat → (∀ k, is_Some (lookups !! k) → k ∈ iteration) →
  is_Some (lookups !! oldestLookup key lookups iteration) ∧ oldestLookup key lookups iteration ≠ key.
Proof.
  intros Hs Hall. unfold oldestLookup. apply (foldl_pick _ (fun k => is_Some (lookups !! k) ∧ k ≠ key)).
  - intros o k. destruct (lookups !! k) as [c|] eqn:E; [|by left]. destruct (negb _ && _) eqn:Eb; [|by left]. right. split; [done|].
    apply andb_true_iff in Eb as [Ek%negb_true_iff%bool_decide_eq_false_1 _]. eauto.
  - destruct (map_other lookups key Hs) as (k & v & Hk & Hne). exists k. split; [apply Hall; eauto|]. cbn beta. rewrite Hk.
    rewrite (bool_decide_eq_false_2 _ Hne). eauto.
Qed.

Definition citationsBounded (s : citationState) : Prop :=
  (base.size (cc_threads s) ≤ threadLimit)%nat ∧ map_Forall (fun _ t => (base.size (ct_lookups t) ≤ lookupLimit)%nat) (cc_threads s).

(** The first round visits every entry. *)
Definition visits {K} (keys : K → Prop) (iterations : list (list K)) : Prop :=
  ∃ iteration rest, iterations = iteration :: rest ∧ ∀ k, keys k → k ∈ iteration.

Lemma size_insert_le `{Countable K} {A} (m : gmap K A) k v : (base.size (<[k := v]> m) ≤ S (base.size m))%nat.
Proof. rewrite map_size_insert. destruct (m !! k); simpl; lia. Qed.

Lemma evictThreads_bounded thread iterations threads :
  (base.size threads ≤ S threadLimit)%nat → visits (fun id => is_Some (threads !! id)) iterations →
  (base.size (evictThreads thread iterations threads) ≤ threadLimit)%nat ∧ evictThreads thread iterations threads ⊆ threads ∧
  evictThreads thread iterations threads !! thread = threads !! thread.
Proof.
  intros Hs (iteration & rest & -> & Hall). cbn [evictThreads]. destruct (threadLimit <? _)%nat eqn:E; [|apply Nat.ltb_ge in E; done].
  apply Nat.ltb_lt in E. destruct (oldestThread_other thread threads iteration) as [Ho Hne]; [unfold threadLimit in E; lia|done|].
  set (kept := delete _ threads). assert (base.size kept ≤ threadLimit)%nat as Hk by (unfold kept; rewrite map_size_delete_Some by done; lia).
  assert (evictThreads thread rest kept = kept) as ->.
  { destruct rest as [|it rest]; [done|]. cbn [evictThreads]. by rewrite (proj2 (Nat.ltb_ge _ _)). }
  split_and!; [done|apply delete_subseteq|unfold kept; by rewrite lookup_delete_ne].
Qed.

Lemma evictLookups_bounded key iterations lookups :
  (base.size lookups ≤ S lookupLimit)%nat → visits (fun k => is_Some (lookups !! k)) iterations →
  (base.size (evictLookups key iterations lookups) ≤ lookupLimit)%nat ∧ evictLookups key iterations lookups !! key = lookups !! key.
Proof.
  intros Hs (iteration & rest & -> & Hall). cbn [evictLookups]. destruct (lookupLimit <? _)%nat eqn:E; [|apply Nat.ltb_ge in E; done].
  apply Nat.ltb_lt in E. destruct (oldestLookup_other key lookups iteration) as [Ho Hne]; [unfold lookupLimit in E; lia|done|].
  set (kept := delete _ lookups). assert (base.size kept ≤ lookupLimit)%nat as Hk by (unfold kept; rewrite map_size_delete_Some by done; lia).
  assert (evictLookups key rest kept = kept) as ->.
  { destruct rest as [|it rest]; [done|]. cbn [evictLookups]. by rewrite (proj2 (Nat.ltb_ge _ _)). }
  split; [done|unfold kept; by rewrite lookup_delete_ne].
Qed.

Lemma visits_impl {K} (P Q : K → Prop) iterations : (∀ k, Q k → P k) → visits P iterations → visits Q iterations.
Proof. intros H (iteration & rest & E & Hall). exists iteration, rest. eauto. Qed.

(** The thread and the lookup that are used, and how many lookups it had. *)
Lemma lookup_result d env threadID identity path generation file key wanted s sources pending s' :
  citationsBounded s →
  visits (fun id => id = threadID ∨ is_Some (cc_threads s !! id)) (le_threads env) →
  visits (fun k => k = key ∨ ∃ t, cc_threads s !! threadID = Some t ∧ is_Some (ct_lookups t !! k)) (le_lookups env) →
  lookupCitations d env threadID identity path generation file key wanted s = (sources, pending, s') →
  citationsBounded s' ∧
  ∃ t l, cc_threads s' !! threadID = Some t ∧ ct_lookups t !! key = Some l ∧ sources = sc_sources (lk_scan l) ∧ pending = negb (sc_done (lk_scan l)).
Proof.
  intros [Hb Hl] Hthreads Hlookups. unfold lookupCitations.
  set (pair := match cc_threads s !! threadID with Some _ => _ | None => _ end). destruct pair as [cache next] eqn:Hpair.
  assert ((base.size (ct_lookups cache) ≤ lookupLimit)%nat ∧
    ∀ k, is_Some (ct_lookups cache !! k) → ∃ t, cc_threads s !! threadID = Some t ∧ is_Some (ct_lookups t !! k)) as [Hcache Hkeys].
  { subst pair. assert (∀ address, base.size (ct_lookups (newThread d address identity path generation file)) = 0%nat) as Hz by (intros; apply map_size_empty).
    assert (∀ address k, is_Some (ct_lookups (newThread d address identity path generation file) !! k) → False) as Hnone by (by intros ? ? [? ?]).
    destruct (cc_threads s !! threadID) as [c|] eqn:Ec; [destruct (changedThread _ _ _ _ _ _)|]; simplify_eq.
    - split; [rewrite Hz; unfold lookupLimit; lia|]. intros k Hk. by apply Hnone in Hk.
    - split; [by apply (Hl threadID)|eauto].
    - split; [rewrite Hz; unfold lookupLimit; lia|]. intros k Hk. by apply Hnone in Hk. }
  cbv zeta. set (pair2 := match ct_lookups cache !! key with Some _ => _ | None => _ end). destruct pair2 as [lookup next2].
  set (start := negb _ && _ && _ && _). set (lookup2 := if start then setRunning true lookup else lookup). intros E. simplify_eq.
  destruct (evictLookups_bounded key (le_lookups env) (<[key := lookup2]> (ct_lookups cache))) as [Hev Hkey].
  { pose proof (size_insert_le (ct_lookups cache) key lookup2). lia. }
  { eapply visits_impl; [|exact Hlookups]. intros k [v Hk]. apply lookup_insert_Some in Hk as [[-> _]|[_ Hk]]; [by left|right]. apply Hkeys. eauto. }
  set (held := useThread (le_now env) (ct_lookups cache) cache).
  destruct (evictThreads_bounded threadID (le_threads env) (<[threadID := held]> (cc_threads s))) as (Hsize & Hsub & Hthread).
  { pose proof (size_insert_le (cc_threads s) threadID held). lia. }
  { eapply visits_impl; [|exact Hthreads]. intros k [v Hk]. apply lookup_insert_Some in Hk as [[-> _]|[_ Hk]]; [by left|right]. eauto. }
  rewrite lookup_insert_eq in Hthread. set (used := useThread (le_now env) (evictLookups _ _ _) cache).
  split; [split; cbn [cc_threads]|].
  - by rewrite map_size_insert_Some by eauto.
  - intros id t [[<- <-]|[Hne Ht]]%lookup_insert_Some; [done|]. eapply lookup_weaken in Ht; [|exact Hsub].
    rewrite lookup_insert_ne in Ht by done. by apply (Hl id).
  - exists used, lookup2. cbn [cc_threads]. rewrite lookup_insert_eq.
    split_and!; [done|unfold used; cbn [ct_lookups useThread]; by rewrite Hkey, lookup_insert_eq|done|done].
Qed.

Lemma finish_bounded now job result s :
  citationsBounded s → citationsBounded (mkCitations (finishCitations now job result (cc_threads s)) (cc_jobs s) (cc_next s)).
Proof.
  intros [Hb Hl]. unfold finishCitations. destruct (cc_threads s !! cj_thread job) as [cache|] eqn:Ec; [|done]. destruct (negb _); [done|].
  destruct (ct_lookups cache !! cj_key job) as [l|] eqn:El; [|done]. destruct (negb _); [done|]. split; cbn [cc_threads].
  - by rewrite map_size_insert_Some by eauto.
  - apply map_Forall_insert_2; [|done]. cbn [ct_lookups useThread]. rewrite map_size_insert_Some by eauto. by apply (Hl (cj_thread job)).
Qed.

(** A lookup keeps the caches within eight threads and 128 messages of each, with
    the thread and the message it was for among them; so does the end of a job. *)
Theorem citation_caches_bounded d env threadID identity path generation file key wanted s :
  citationsBounded s →
  visits (fun id => id = threadID ∨ is_Some (cc_threads s !! id)) (le_threads env) →
  visits (fun k => k = key ∨ ∃ t, cc_threads s !! threadID = Some t ∧ is_Some (ct_lookups t !! k)) (le_lookups env) →
  let '(sources, pending, s') := lookupCitations d env threadID identity path generation file key wanted s in
  citationsBounded s' ∧
  (∃ t l, cc_threads s' !! threadID = Some t ∧ ct_lookups t !! key = Some l ∧ sources = sc_sources (lk_scan l) ∧ pending = negb (sc_done (lk_scan l))) ∧
  ∀ now job result, citationsBounded (mkCitations (finishCitations now job result (cc_threads s')) (cc_jobs s') (cc_next s')).
Proof.
  intros Hb Hthreads Hlookups. destruct (lookupCitations _ _ _ _ _ _ _ _ _ _) as [[sources pending] s'] eqn:E.
  destruct (lookup_result _ _ _ _ _ _ _ _ _ _ _ _ _ Hb Hthreads Hlookups E) as [H1 H2]. split_and!; [done|done|].
  intros now job result. by apply (finish_bounded now job result s').
Qed.

(** ** Instances *)

(** A tool call that names a page under a reference. *)
Definition demoTool (id ref url : string) : object :=
  [("id", AStr id); ("type", AStr "mcpToolCall");
   ("result", AObj [("_meta", AObj [("raw_messages", AArr [AObj [("content", AObj
      [("content_type", AStr "sonic_webpage"); ("ref_id", AStr ref); ("title", AStr "Page"); ("url", AStr url)])]])])])].

(** The message is the second item of the newer turn: the first is after it. *)
Definition demoHistory : server :=
  mkServer
    [([("id", AStr "new"); ("status", AStr "completed")],
      [demoTool "4" "a" "https://host.example/later"; [("id", AStr "m"); ("type", AStr "agentMessage")]; demoTool "3" "a" "https://host.example/3"]);
     ([("id", AStr "old"); ("status", AStr "completed")],
      [demoTool "2" "a" "https://host.example/2"; demoTool "1" "b" "https://host.example/1"])]
    (fun _ _ => 1%nat) (fun _ _ _ => 1%nat)
    (fun n => String (ascii_of_nat n) "")
    (fun c => match c with String a "" => nat_of_ascii a | _ => 0%nat end).

Lemma demoHistory_ok : serverOk demoHistory.
Proof.
  constructor.
  - intros raw items [E|[E|[]%elem_of_nil]%elem_of_cons]%elem_of_cons; injection E as -> ->; eexists; reflexivity.
  - apply (bool_decide_unpack _). vm_compute. exact I.
  - intros raw items item [E|[E|[]%elem_of_nil]%elem_of_cons]%elem_of_cons; injection E as -> ->;
      rewrite !elem_of_cons; intros Hin; repeat (destruct Hin as [->|Hin]; [discriminate|]); by apply elem_of_nil in Hin.
  - apply (bool_decide_unpack _). vm_compute. exact I.
  - intros n Hn Hlt. split; [done|]. split; [done|]. simpl. apply nat_ascii_embedding.
    destruct Hlt as [Hlt|(raw & items & [E|[E|[]%elem_of_nil]%elem_of_cons]%elem_of_cons & Hlt)]; [simpl in Hlt; lia|injection E as -> ->; simpl in Hlt; lia..].
  - simpl. lia.
  - simpl. lia.
Qed.

Definition demoWanted : gset string := {["a"; "b"; "c"]}.
Definition demoScan (n : nat) : citationScan := jobs demoParse (fun value => value) [] "thread" demoHistory ("new", "m") demoWanted n (newScan ∅).

(** Two jobs find the two references that the tools before the message name. *)
Lemma citation_scan_exact_witness :
  sc_done (demoScan 2) = true ∧ sc_sources (demoScan 2) = cited demoParse (fun value => value) demoHistory ("new", "m") demoWanted ∧
  cs_URL <$> sc_sources (demoScan 2) !! "a" = Some "https://host.example/3" ∧ cs_URL <$> sc_sources (demoScan 2) !! "b" = Some "https://host.example/1".
Proof.
  destruct (proj2 (citation_scan_exact demoParse (fun value => value) [] "thread" demoHistory demoHistory_ok ("new", "m") demoWanted 2) ltac:(vm_compute; lia)) as [H1 H2].
  split; [exact H1|]. split; [exact H2|]. split; vm_compute; reflexivity.
Defined.

Definition demoLookEnv : lookEnv := mkLookEnv 5 true [["thread"]] [[("new", "m")]].

Lemma demo_visits_threads : visits (fun id => id = "thread" ∨ is_Some (cc_threads noCitations !! id)) (le_threads demoLookEnv).
Proof. exists ["thread"], []. split; [done|]. intros k [->|[? ?]]; [by left|done]. Qed.

Lemma demo_visits_lookups :
  visits (fun k => k = ("new", "m") ∨ ∃ t, cc_threads noCitations !! "thread" = Some t ∧ is_Some (ct_lookups t !! k)) (le_lookups demoLookEnv).
Proof. exists [("new", "m")], []. split; [done|]. intros k [->|(t & ? & _)]; [by left|done]. Qed.

Definition demoLooked : gmap string CitationSource * bool * citationState :=
  lookupCitations noFiles demoLookEnv "thread" "identity" "/rollout" 1 None ("new", "m") demoWanted noCitations.

Lemma demo_bounded : citationsBounded noCitations.
Proof. split; [vm_compute; lia|]. apply map_Forall_empty. Qed.

Lemma citation_caches_bounded_witness : citationsBounded demoLooked.2 ∧ demoLooked.1.2 = true ∧ Datatypes.length (cc_jobs demoLooked.2) = 1%nat.
Proof.
  pose proof (citation_caches_bounded noFiles demoLookEnv "thread" "identity" "/rollout" 1 None ("new", "m") demoWanted noCitations
    demo_bounded demo_visits_threads demo_visits_lookups) as H.
  change (lookupCitations noFiles demoLookEnv "thread" "identity" "/rollout" 1 None ("new", "m") demoWanted noCitations) with (demoLooked.1.1, demoLooked.1.2, demoLooked.2) in H.
  split; [exact (proj1 H)|]. split; vm_compute; reflexivity.
Defined.
