(* ===== verification/Web.v ===== *)
(** * Paths, identities and patterns of the HTTP handlers

    The opaque identities that name conversations and queue entries in a URL, and
    the patterns a browser's values are matched against
    ([src/conversation/handler.go] 31-36, 335-356, [retry_activity.go] 57). *)
From S2P Require Import Prelude GoStd.
From Stdlib Require Import Ascii String.
Open Scope Z_scope.

(** ** Patterns *)

Definition every (ok : ascii → bool) (s : string) : bool := forallb ok (list_ascii_of_string s).
Definition inRange (lo hi : ascii) (c : ascii) : bool := between (byte_of lo) (byte_of hi) (byte_of c).
Definition isAlnum (c : ascii) : bool := inRange "a" "z" c || inRange "A" "Z" c || inRange "0" "9" c.
Definition isToken (c : ascii) : bool := isAlnum c || Ascii.eqb c "_" || Ascii.eqb c "-".

(** [^[0-9a-f]{8}-[0-9a-f]{4}-[0-9a-f]{4}-[0-9a-f]{4}-[0-9a-f]{12}$] *)
Definition browserAttemptPattern (s : string) : bool :=
  match split_on "-" s "" with
  | [a; b; c; d; e] =>
    every isHexDigit a && (len a =? 8) && every isHexDigit b && (len b =? 4) && every isHexDigit c && (len c =? 4)
    && every isHexDigit d && (len d =? 4) && every isHexDigit e && (len e =? 12)
  | _ => false
  end.
(** [^[0-9a-f]{64}$] *)
Definition messageDigestPattern (s : string) : bool := every isHexDigit s && (len s =? 64).
(** [^[A-Za-z0-9_-]{32}$] *)
Definition pageCursorPattern (s : string) : bool := every isToken s && (len s =? 32).
(** [^[A-Za-z0-9_-]{1,256}$] *)
Definition retryActivityIdentity (s : string) : bool := every isToken s && (1 <=? len s) && (len s <=? 256).

(** ** Identities *)

Definition opaqueMarks : string := "-_.!~*'()".
Definition keptByte (c : ascii) : bool := isAlnum c || existsb (Ascii.eqb c) (list_ascii_of_string opaqueMarks).
Definition upperHex (d : Z) : ascii :=
  match String.get (Z.to_nat d) "0123456789ABCDEF" with Some c => c | None => "0"%char end.
Fixpoint encodeOpaquePathSegment (value : string) : string :=
  match value with
  | EmptyString => ""
  | String c rest =>
    if keptByte c then String c (encodeOpaquePathSegment rest)
    else String "%" (String (upperHex (Z.shiftr (byte_of c) 4)) (String (upperHex (Z.land (byte_of c) 15)) (encodeOpaquePathSegment rest)))
  end.

Definition unhex (c : ascii) : option Z :=
  if inRange "0" "9" c then Some (byte_of c - 48)
  else if inRange "a" "f" c then Some (byte_of c - 87)
  else if inRange "A" "F" c then Some (byte_of c - 55) else None.
(** [url.PathUnescape], and [url.QueryUnescape] which also reads a plus sign as a space. *)
Fixpoint unescape (plus : bool) (s : string) : option string :=
  match s with
  | EmptyString => Some ""
  | String c rest =>
    if Ascii.eqb c "%" then
      match rest with
      | String a (String b rest) =>
        match unhex a, unhex b with
        | Some x, Some y => String (char_of (16 * x + y)) <$> unescape plus rest
        | _, _ => None
        end
      | _ => None
      end
    else String (if plus && Ascii.eqb c "+" then " "%char else c) <$> unescape plus rest
  end.
Definition pathUnescape : string → option string := unescape false.

Definition containsByte (c : ascii) (s : string) : bool := existsb (Ascii.eqb c) (list_ascii_of_string s).
Definition validOpaqueID (value : string) : bool :=
  negb (is_empty value) && (len value <=? 256) && validString value && negb (str_eqb value ".") && negb (str_eqb value "..")
  && negb (containsByte "/" value) && negb (containsByte zero value).

(** An identity as a path spells it. *)
Definition opaqueSegment (segment : string) : option string :=
  match pathUnescape segment with
  | Some id => if validOpaqueID id && str_eqb (encodeOpaquePathSegment id) segment then Some id else None
  | None => None
  end.

(** ** [url.ParseQuery] *)

Definition cutAt (sep : ascii) (s : string) : string * string :=
  match split_on sep s "" with
  | [] => ("", "")
  | key :: rest => (key, joinWith (String sep "") rest)
  end.
(** The pairs in order, and whether a part was malformed. *)
Fixpoint parseParts (parts : list string) : list (string * string) * bool :=
  match parts with
  | [] => ([], false)
  | part :: rest =>
    let '(pairs, bad) := parseParts rest in
    if containsByte ";" part then (pairs, true)
    else if is_empty part then (pairs, bad)
    else let '(key, value) := cutAt "=" part in
         match unescape true key, unescape true value with
         | Some key, Some value => ((key, value) :: pairs, bad)
         | _, _ => (pairs, true)
         end
  end.
Definition parseQuery (raw : string) : list (string * string) * bool := parseParts (split_on "&" raw "").
Definition valuesOf (key : string) (pairs : list (string * string)) : list string :=
  omap (fun kv => if str_eqb (fst kv) key then Some (snd kv) else None) pairs.
Definition keysOf (pairs : list (string * string)) : list string := remove_dups (fst <$> pairs).

(** ** Every identity has one spelling *)

Lemma byte_of_range c : 0 ≤ byte_of c < 256.
Proof. unfold byte_of. pose proof (N_ascii_bounded c). lia. Qed.
Lemma char_byte c : char_of (byte_of c) = c.
Proof. unfold char_of, byte_of. rewrite N2Z.id. apply ascii_N_embedding. Qed.

Lemma unhex_upper d : 0 ≤ d < 16 → unhex (upperHex d) = Some d.
Proof.
  intros H. assert (d ∈ seqZ 0 16) as Hin by (apply elem_of_seqZ; lia). clear H. revert d Hin. apply Forall_forall.
  vm_compute. repeat constructor.
Qed.
Lemma nibbles c : 16 * Z.shiftr (byte_of c) 4 + Z.land (byte_of c) 15 = byte_of c
  ∧ 0 ≤ Z.shiftr (byte_of c) 4 < 16 ∧ 0 ≤ Z.land (byte_of c) 15 < 16.
Proof.
  pose proof (byte_of_range c). change 15 with (Z.ones 4). rewrite Z.shiftr_div_pow2, Z.land_ones by lia. change (2 ^ 4) with 16.
  pose proof (Z.div_mod (byte_of c) 16 ltac:(lia)). pose proof (Z.mod_pos_bound (byte_of c) 16 ltac:(lia)).
  split_and!; lia.
Qed.
Lemma kept_not_percent c : keptByte c = true → Ascii.eqb c "%" = false.
Proof. intros H. apply Ascii.eqb_neq. intros ->. by vm_compute in H. Qed.

Lemma unescape_encode id : pathUnescape (encodeOpaquePathSegment id) = Some id.
Proof.
  unfold pathUnescape. induction id as [|c id IH]; [done|]. simpl. destruct (keptByte c) eqn:E.
  - simpl. rewrite (kept_not_percent _ E). by rewrite IH.
  - destruct (nibbles c) as (Hn & H1 & H2). cbn [unescape Ascii.eqb Bool.eqb]. rewrite !unhex_upper by done. rewrite IH. simpl.
    by rewrite Hn, char_byte.
Qed.

(** The identity of a conversation or queue entry survives its URL, and has one spelling
    there: a path segment is accepted as an identity exactly when it is that identity's
    encoding, so no two segments name the same conversation and no segment names two. *)
Theorem opaque_segment_exact segment id :
  opaqueSegment segment = Some id ↔ validOpaqueID id = true ∧ segment = encodeOpaquePathSegment id.
Proof.
  unfold opaqueSegment. split.
  - destruct (pathUnescape segment) as [id'|]; [|done]. intros H. cases_in H; [|done]. simplify_eq. by bools.
  - intros [Hv ->]. rewrite unescape_encode, Hv. simpl. by rewrite str_eqb_refl.
Qed.
