(* ===== verification/Handler.v ===== *)
(** * The conversation HTTP handler

    [src/conversation/handler.go], [retry.go], [retry_activity.go] and
    [prepareAttachments] of [uploads.go]: from a request to its response.

    What the application and the client do for the handler is a [call], and a
    handler is a program over calls ([web]), so that nothing is assumed of their
    answers. Of an error only what the handler finds in it with [errors.As] is
    kept. A request body is kept as what the JSON decoder makes of it. Results
    that are only passed on are kept as their encoding. Deadlines, headers other
    than [Origin] and the log are left out. *)
From S2P Require Import Prelude GoStd GoValue TurnOptions Ledger Prompts ActivitySnapshot Web.
From Stdlib Require Import Ascii String.
Open Scope Z_scope.

(** ** Data *)

Record Capabilities := mkCapabilities {
  cap_Read : bool; cap_Pending : bool; cap_QueueRead : bool; cap_Send : bool; cap_Queue : bool; cap_Interrupt : bool;
  cap_Settings : bool; cap_Respond : bool; cap_EventStream : bool; cap_Retry : bool; cap_RetryActivity : bool }.

(** The optional parts of a target and the optional interfaces of its client are flags. *)
Record Target := mkTarget {
  tg_Client : bool; tg_ThreadID : string; tg_Directory : string; tg_Capabilities : Capabilities; tg_MutationLock : bool;
  tg_Attachments : bool; tg_ModelCatalog : bool; tg_Activity : bool; tg_Retry : bool; tg_RetryActivity : bool;
  tg_TransformTranscript : option (any → any); tg_PresentTranscript : option (any → any); tg_Release : bool;
  tg_pageReader : bool; tg_revisions : bool; tg_promptResponder : bool; tg_deletionCompleter : bool }.

Record ResolveRequest := mkResolve { rr_ID : string; rr_Operation : string; rr_Method : string; rr_Mutation : bool }.
Record Handler := mkHandler {
  hd_allowedOrigins : list string; hd_basePath : string; hd_maxBodyBytes : Z; hd_maxMessageBytes : Z }.

(** A transcript, and the fields that a page adds to it. *)
Record TranscriptPage := mkPage { tp_ThreadID : string; tp_Entries : Z; tp_Transcript : any; tp_page : any }.
Record Model := mkModel { md_Model : string; md_SupportedReasoningEfforts : list string }.
Record ThreadSettingsUpdate := mkUpdate { su_Model : option string; su_ReasoningEffort : option string; su_CollaborationMode : option string }.
Record RetryStatus := mkRetry {
  rt_Enabled : bool; rt_Class : string; rt_Phase : string; rt_Attempt : Z; rt_NextAttemptAtMS : option Z; rt_ServerNowMS : Z;
  rt_CyberUsed : Z; rt_CyberLimit : Z; rt_Reason : string }.
Record RetryActivity := mkRetryActivity {
  ra_ChainKey : string; ra_Class : string; ra_Phase : string; ra_ConfirmedStarts : option Z; ra_Unconfirmed : Z; ra_CountQuality : string;
  ra_StartedAtMS : option Z; ra_ElapsedMS : option Z; ra_TimingQuality : string; ra_FinishedAtMS : option Z;
  ra_NextAttemptAtMS : option Z; ra_Outcome : string; ra_Reason : string; ra_RetryNowToken : string; ra_StopToken : string }.
Record RetryActivityStatus := mkRetryActivityStatus { rs_ServerNowMS : Z; rs_Activity : option RetryActivity }.

(** Bodies. *)
Record messageBody := mkMessage { mb_Message : string; mb_ClientUserMessageID : string; mb_Retry : bool; mb_AttachmentIDs : list string }.
Inductive bodyType : Type → Type :=
| SendBody : bodyType messageBody                 (** with [retry] *)
| QueueBody : bodyType messageBody                (** without *)
| AcknowledgeBody : bodyType (list SendAcknowledgement)
| StartBody : bodyType string
| SettingsBody : bodyType ThreadSettingsUpdate
| RespondBody : bodyType PromptResponse
| EnabledBody : bodyType (option bool)
| TokenBody : bodyType string.
(** Decoding within a number of bytes: a failure, or a value and whether more than white space follows. *)
Inductive decoding (T : Type) := Malformed | Read (value : T) (trailing : bool).
Arguments Malformed {T}.
Arguments Read {T} value trailing.
(** Decoding an object whose members are of no interest. *)
Inductive emptyDecoding := EmptyEOF | EmptyMalformed | EmptyObject (members : Z) (trailing : bool).

(** What the event stream waits for. *)
Inductive signal := SignalDone | SignalKeepalive | SignalUpdate | SignalClosed.

Record request := mkRequest {
  rq_Method : string; rq_escapedPath : string; rq_RawPath : string; rq_RawQuery : string; rq_Origin : string;
  rq_decode : ∀ T, bodyType T → Z → decoding T;
  rq_decodeEmpty : Z → emptyDecoding;
  rq_flusher : bool;
  rq_signals : list signal }.

Inductive responseBody :=
| BodyText                         (** [http.NotFound] *)
| BodyJSON (value : any)
| BodyPage (transcript page : any)
| BodyReceipt (receipt : SendReceipt)
| BodyEntry (entry : QueueEntry)
| BodyEntries (entries : list QueueEntry)
| BodyPrompts (prompts : list Prompt)
| BodyModels (models : list Model)
| BodyModes (modes : list string)
| BodyActivity (activity : ActivitySnapshot)
| BodyRetry (state : RetryStatus)
| BodyRetryActivity (state : RetryActivityStatus)
| BodyPromptFault (e : err) (code : string) (notSent : bool)   (** with the text of [e] *)
| BodyAsset (path : string)         (** an embedded file *)
| BodyContent (name : string)       (** an uploaded file *)
| BodyStream.
Record response := mkReply { rp_Status : Z; rp_Body : responseBody }.

(** ** Calls *)

(** An attachment error that may be shown, or another one. *)
Inductive uploadFault := Exposed (status : Z) (message : string) | Hidden.
Inductive pageFault := CursorFault (code : string) | PageFault.

Inductive call : Type → Type :=
| CResolve (r : ResolveRequest) : call (option Target)
| CVerifyThread (thread directory : string) : call bool
| CLock : call bool
| CUnlock : call unit
| CRelease : call unit
| CContextErr : call bool
| CReadThreadPage (thread cursor : string) : call (res pageFault TranscriptPage)
| CReadActivity (thread : string) : call (option ActivitySnapshot)
| CReadThread (thread : string) : call (option any)
| CPromptsWithItems (thread : string) : call (option (list Prompt))
| CModels (catalog : bool) : call (option (list Model))
| CListCollaborationModes : call (option (list string))
| CListQueue (thread : string) : call (option (list QueueEntry))
| CSendAttempted (thread message id action : string) : call bool
| CSend (thread message id action : string) : call (res err SendReceipt)
| CAcknowledgeSends (thread : string) (acknowledgements : list SendAcknowledgement) : call (option (list string))
| CQueue (thread message id : string) : call (option QueueEntry)
| CDeleteQueueEntry (thread id : string) (completion : bool) : call bool
| CReconcileQueueDeletions (thread : string) : call bool
| CStartQueue (thread id : string) : call bool
| CInterrupt (thread : string) : call bool
| CUpdateThreadSettings (thread : string) (update : ThreadSettingsUpdate) : call (option any)
| CRespondPrompt (thread : string) (body : PromptResponse) : call (res err unit)
| CSnoozeUserInput (id thread : string) : call (res err unit)
| CRespondAnswers (id thread : string) (answers : gmap string (gmap string (list string))) : call (res err unit)
| CRespondDecision (id thread decision : string) : call (res err unit)
| CReadRetry (thread : string) : call (option RetryStatus)
| CSetRetryEnabled (thread : string) (enabled : bool) : call (option RetryStatus)
| CCancelRetry (thread : string) : call (option RetryStatus)
| CReadRetryActivity (thread : string) : call (res (option string) RetryActivityStatus)
| CRetryNow (thread token : string) : call (res (option string) RetryActivityStatus)
| CStopRetry (thread token : string) : call (res (option string) RetryActivityStatus)
| CPrepare (kind id message : string) (ids : list string) : call (res uploadFault string)
| CObserveTranscript (transcript : any) : call (res uploadFault any)
| CObserveQueue (entries : list QueueEntry) : call (res uploadFault (list QueueEntry))
| CSubscribe (thread : string) : call bool
| CUnsubscribe : call unit
| CPendingRevision (thread : string) : call Z
| CWrite (frame : string) : call bool.

Inductive web (A : Type) := Ret (a : A) | Call {X} (c : call X) (k : X → web A).
Arguments Ret {A} a.
Arguments Call {A X} c k.
Fixpoint bind {A B} (m : web A) (f : A → web B) : web B :=
  match m with
  | Ret a => f a
  | Call c k => Call c (fun x => bind (k x) f)
  end.
Declare Scope web_scope.
Delimit Scope web_scope with web.
Notation "'ask' x := c 'in' q" := (Call c (fun x => q)) (at level 10, x name, c at level 100, q at level 200) : web_scope.
Notation "'let!' x := p 'in' q" := (bind p (fun x => q)) (at level 10, x name, p at level 100, q at level 200) : web_scope.

(** ** Responses *)

Definition text (fields : list (string * string)) : any := AObj ((fun kv => (fst kv, AStr (snd kv))) <$> fields).
Definition writeJSON (status : Z) (body : responseBody) : web response := Ret (mkReply status body).
Definition errorReply (status : Z) (message : string) : response := mkReply status (BodyJSON (text [("error", message)])).
Definition writeError (status : Z) (message : string) : web response := Ret (errorReply status message).
Definition writeCode (status : Z) (message code : string) : web response :=
  writeJSON status (BodyJSON (text [("error", message); ("code", code)])).
Definition writeNotSent (status : Z) (message code : string) (notSent : bool) (more : list (string * any)) : web response :=
  writeJSON status (BodyJSON (AObj ([("error", AStr message); ("code", AStr code); ("notSent", ABool notSent)] ++ more))).
Definition writeOK (status : Z) : web response := writeJSON status (BodyJSON (AObj [("ok", ABool true)])).
Definition notFound : web response := writeJSON 404 BodyText.
Definition serverError : web response := writeError 503 "Codex service is unavailable".
Definition uploadFaultReply (fault : uploadFault) : response :=
  match fault with
  | Exposed status message =>
    if (400 <=? status) && (status <=? 599) then errorReply status message
    else errorReply 500 "file operation failed; retry shortly"
  | Hidden => errorReply 500 "file operation failed; retry shortly"
  end.
Definition uploadError (fault : uploadFault) : web response := Ret (uploadFaultReply fault).

(** ** Guards *)

Definition isGet (m : string) : bool := str_eqb m "GET".
Definition readOnly (m : string) : bool := str_eqb m "GET" || str_eqb m "HEAD".

Section handler.
Context (h : Handler) (rq : request).
Local Open Scope web_scope.

Definition originAllowed : bool :=
  if is_empty (rq_Origin rq) then readOnly (rq_Method rq) else str_in (rq_Origin rq) (hd_allowedOrigins h).

Definition rejectOperation : web response :=
  if negb (str_in (rq_Method rq) ["GET"; "HEAD"; "POST"; "PATCH"; "DELETE"])
  then writeError 405 "method is not allowed"
  else writeError 403 "conversation operation is not allowed".

Definition decode {T} (body : bodyType T) (k : T → web response) : web response :=
  match rq_decode rq T body (hd_maxBodyBytes h) with
  | Malformed => writeError 400 "request body is invalid"
  | Read _ true => writeError 400 "request body has trailing data"
  | Read value false => k value
  end.
Definition decodeEmpty (k : web response) : web response :=
  match rq_decodeEmpty rq 1024 with
  | EmptyEOF => k
  | EmptyMalformed => writeError 400 "request body must be empty"
  | EmptyObject members trailing =>
    if negb (members =? 0) then writeError 400 "request body must be empty"
    else if trailing then writeError 400 "request body has trailing data" else k
  end.

(** ** Retries *)

Definition validRetryStatus (s : RetryStatus) : bool :=
  str_in (rt_Class s) [""; "capacity"; "cybersecurity"]
  && str_in (rt_Phase s) ["idle"; "scheduled"; "submitting"; "reconciling"; "running"; "cancelled"; "exhausted"; "blocked"]
  && (0 <=? rt_Attempt s) && (0 <? rt_ServerNowMS s)
  && match rt_NextAttemptAtMS s with Some at_ => 0 <? at_ | None => true end
  && (0 <=? rt_CyberUsed s) && (rt_CyberUsed s <=? rt_CyberLimit s) && (rt_CyberLimit s =? 30)
  && (len (rt_Reason s) <=? 1024) && validString (rt_Reason s).

Definition retry (target : Target) (operation : string) : web response :=
  if negb (cap_Retry (tg_Capabilities target)) || (str_eqb operation "retry" && negb (isGet (rq_Method rq)))
     || (negb (str_eqb operation "retry") && negb (str_eqb (rq_Method rq) "POST")) then rejectOperation else
  if negb (tg_Retry target) then writeError 404 "retry is unavailable" else
  let finish (state : option RetryStatus) :=
    match state with
    | None => serverError
    | Some state => if negb (validRetryStatus state) then serverError else writeJSON 200 (BodyRetry state)
    end in
  if str_eqb operation "retry" then ask state := CReadRetry (tg_ThreadID target) in finish state
  else if str_eqb operation "retry/enabled" then
    decode EnabledBody (fun enabled =>
      match enabled with
      | None => writeError 400 "enabled must be a boolean"
      | Some enabled => ask state := CSetRetryEnabled (tg_ThreadID target) enabled in finish state
      end)
  else decodeEmpty (ask state := CCancelRetry (tg_ThreadID target) in finish state).

Definition maxSafeJSONInteger : Z := 2 ^ 53 - 1.
Definition quality (value : string) : bool := str_in value ["exact"; "partial"; "unavailable"].
Definition metric (value : option Z) : bool :=
  match value with Some v => (0 <=? v) && (v <=? maxSafeJSONInteger) | None => true end.
Definition timestamp (value : option Z) : bool :=
  match value with Some v => (0 <? v) && (v <=? maxSafeJSONInteger) | None => true end.
Definition absent {A} (value : option A) : bool := match value with Some _ => false | None => true end.

Definition validActivity (a : RetryActivity) : bool :=
  if negb (retryActivityIdentity (ra_ChainKey a)) || negb (str_in (ra_Class a) ["capacity"; "cybersecurity"])
     || negb (str_in (ra_Phase a) ["scheduled"; "submitting"; "reconciling"; "running"; "terminal"])
     || negb (quality (ra_CountQuality a)) || negb (quality (ra_TimingQuality a)) || negb (metric (ra_ConfirmedStarts a))
     || (negb (ra_Unconfirmed a =? 0) && negb (ra_Unconfirmed a =? 1)) || negb (metric (ra_ElapsedMS a))
     || negb (timestamp (ra_StartedAtMS a)) || negb (timestamp (ra_FinishedAtMS a)) || negb (timestamp (ra_NextAttemptAtMS a))
     || (1024 <? len (ra_Reason a)) || negb (validString (ra_Reason a)) then false else
  if xorb (str_eqb (ra_CountQuality a) "unavailable") (absent (ra_ConfirmedStarts a))
     || xorb (str_eqb (ra_TimingQuality a) "unavailable") (absent (ra_StartedAtMS a) && absent (ra_ElapsedMS a))
     || xorb (absent (ra_StartedAtMS a)) (absent (ra_ElapsedMS a)) then false else
  if (if str_eqb (ra_Phase a) "terminal"
      then negb (str_in (ra_Outcome a) ["success"; "stopped"; "exhausted"; "superseded"; "blocked"])
           || negb (absent (ra_NextAttemptAtMS a)) || negb (is_empty (ra_RetryNowToken a)) || negb (is_empty (ra_StopToken a))
      else negb (is_empty (ra_Outcome a)) || negb (absent (ra_FinishedAtMS a))) then false else
  if negb (is_empty (ra_RetryNowToken a))
     && (negb (str_eqb (ra_Phase a) "scheduled") || negb (retryActivityIdentity (ra_RetryNowToken a))) then false else
  if negb (is_empty (ra_StopToken a)) && negb (retryActivityIdentity (ra_StopToken a)) then false else
  absent (ra_NextAttemptAtMS a) || str_eqb (ra_Phase a) "scheduled".

Definition validRetryActivityStatus (s : RetryActivityStatus) : bool :=
  if (rs_ServerNowMS s <=? 0) || (maxSafeJSONInteger <? rs_ServerNowMS s) then false
  else match rs_Activity s with None => true | Some a => validActivity a end.

Definition retryActivityFault (code : option string) : web response :=
  let stale := "retry_action_stale"%string in
  let reload := "retry_reload_required"%string in
  if bool_decide (code = Some stale) then writeCode 409 "The retry changed. Refresh its status before trying again." stale
  else if bool_decide (code = Some reload) then writeCode 409 "Reload the page to use the current retry controls." reload
  else writeCode 503 "Retry activity is unavailable. Try again later." "retry_activity_unavailable".

Definition retryActivity (target : Target) (operation : string) : web response :=
  if negb (cap_RetryActivity (tg_Capabilities target)) || (str_eqb operation "retry/activity" && negb (isGet (rq_Method rq)))
     || (negb (str_eqb operation "retry/activity") && negb (str_eqb (rq_Method rq) "POST")) then rejectOperation else
  if negb (tg_RetryActivity target) then writeError 404 "retry activity is unavailable" else
  let finish (state : res (option string) RetryActivityStatus) :=
    match state with
    | Err code => retryActivityFault code
    | Ok state => if negb (validRetryActivityStatus state) then serverError else writeJSON 200 (BodyRetryActivity state)
    end in
  if str_eqb operation "retry/activity" then ask state := CReadRetryActivity (tg_ThreadID target) in finish state
  else decode TokenBody (fun token =>
    if negb (retryActivityIdentity token) then writeError 400 "retry action token is invalid" else
    if str_eqb operation "retry/now" then ask state := CRetryNow (tg_ThreadID target) token in finish state
    else ask state := CStopRetry (tg_ThreadID target) token in finish state).

(** ** Reading *)

Definition present (f : option (any → any)) (v : any) : any := match f with Some f => f v | None => v end.
(** Application presentation around the attachments' own. *)
Definition presentTranscript (target : Target) (transcript : any) (k : any → web response) : web response :=
  let transcript := present (tg_TransformTranscript target) transcript in
  if tg_Attachments target then
    ask observed := CObserveTranscript transcript in
    match observed with
    | Err fault => uploadError fault
    | Ok transcript => k (present (tg_PresentTranscript target) transcript)
    end
  else k (present (tg_PresentTranscript target) transcript).

Definition invalidCursor : web response := writeCode 400 "invalid page cursor" "transcript_cursor_invalid".
Definition pageError (fault : pageFault) : web response :=
  match fault with
  | PageFault => serverError
  | CursorFault code =>
    if str_eqb code "transcript_cursor_invalid" then writeCode 400 "invalid page cursor" code
    else if str_eqb code "transcript_cursor_expired" then writeCode 409 "conversation history page expired; reload recent messages" code
    else if str_eqb code "transcript_reset_required" then writeCode 409 "conversation history changed; reload recent messages" code
    else serverError
  end.
Definition threadPage (target : Target) : web response :=
  if negb (isGet (rq_Method rq)) || negb (cap_Read (tg_Capabilities target)) then rejectOperation else
  if 256 <? len (rq_RawQuery rq) then invalidCursor else
  let '(pairs, bad) := parseQuery (rq_RawQuery rq) in
  let cursors := valuesOf "cursor" pairs in
  let keys := Datatypes.length (keysOf pairs) in
  if bad || (1 <? keys)%nat || (1 <? Datatypes.length cursors)%nat || ((keys =? 1)%nat && negb (Datatypes.length cursors =? 1)%nat)
     || match cursors with [cursor] => negb (pageCursorPattern cursor) | _ => false end then invalidCursor else
  if negb (tg_pageReader target) then writeCode 501 "conversation paging is unavailable" "transcript_paging_unavailable" else
  ask page := CReadThreadPage (tg_ThreadID target) (match cursors with [cursor] => cursor | _ => "" end) in
  match page with
  | Err fault => pageError fault
  | Ok page =>
    if negb (str_eqb (tp_ThreadID page) (tg_ThreadID target)) || (100 <? tp_Entries page) then serverError else
    presentTranscript target (tp_Transcript page) (fun transcript => writeJSON 200 (BodyPage transcript (tp_page page)))
  end.

Definition activity (target : Target) : web response :=
  if negb (isGet (rq_Method rq)) || negb (cap_Read (tg_Capabilities target)) then rejectOperation else
  if negb (tg_Activity target) then writeError 404 "activity is unavailable" else
  ask snapshot := CReadActivity (tg_ThreadID target) in
  match snapshot with
  | None => serverError
  | Some snapshot =>
    if negb (str_eqb (sn_ThreadID snapshot) (tg_ThreadID target)) then serverError else writeJSON 200 (BodyActivity snapshot)
  end.

Definition thread (target : Target) : web response :=
  if negb (isGet (rq_Method rq)) || negb (cap_Read (tg_Capabilities target)) then rejectOperation else
  ask transcript := CReadThread (tg_ThreadID target) in
  match transcript with
  | None => serverError
  | Some transcript => presentTranscript target transcript (fun transcript => writeJSON 200 (BodyJSON transcript))
  end.

(** A read that is answered as it is. *)
Definition passOn {A} (allowed : bool) (c : call (option A)) (body : A → responseBody) : web response :=
  if negb (isGet (rq_Method rq)) || negb allowed then rejectOperation else
  ask value := c in match value with None => serverError | Some value => writeJSON 200 (body value) end.
Definition pending (target : Target) : web response :=
  passOn (cap_Pending (tg_Capabilities target)) (CPromptsWithItems (tg_ThreadID target)) BodyPrompts.
Definition models (target : Target) : web response :=
  passOn (cap_Settings (tg_Capabilities target)) (CModels (tg_ModelCatalog target)) BodyModels.
Definition collaborationModes (target : Target) : web response :=
  passOn (cap_Settings (tg_Capabilities target)) CListCollaborationModes BodyModes.

(** ** Messages *)

Fixpoint attachmentIDsValid (seen ids : list string) : bool :=
  match ids with
  | [] => true
  | id :: rest => browserAttemptPattern id && negb (str_in id seen) && attachmentIDsValid (id :: seen) rest
  end.
Definition prepareAttachments (target : Target) (kind id message : string) (ids : list string) : web (res uploadFault string) :=
  if (100 <? Datatypes.length ids)%nat then Ret (Err (Exposed 400 "too many attachments")) else
  if negb (attachmentIDsValid [] ids) then Ret (Err (Exposed 400 "attachment IDs are invalid or repeated")) else
  if negb (tg_Attachments target) then
    if negb (Datatypes.length ids =? 0)%nat then Ret (Err (Exposed 400 "attachments are unavailable")) else Ret (Ok message)
  else
    ask prepared := CPrepare kind id message ids in
    match prepared with
    | Err fault => Ret (Err fault)
    | Ok prepared =>
      if (hd_maxMessageBytes h <? len prepared) || is_empty (trimSpace prepared)
      then Ret (Err (Exposed 400 "message and attachment references exceed the prompt limit"))
      else Ret (Ok prepared)
    end.

Definition badMessage (message id : string) (attachments : list string) : bool :=
  (is_empty message && (Datatypes.length attachments =? 0)%nat) || (hd_maxMessageBytes h <? len message)
  || negb (browserAttemptPattern id).

Definition notSentOf (e : err) : option bool := errAs (fun x => match x with ENotSent _ retryable => Some retryable | _ => None end) e.
Definition sendError (e : err) : web response :=
  match notSentOf e with
  | Some retryable => writeNotSent 503 "The message was not sent." "message_not_sent" true [("retryable", ABool retryable)]
  | None =>
    if asUnknownSend e then writeNotSent 409 "Message delivery could not be confirmed." "message_delivery_unknown" false []
    else serverError
  end.

Definition send (target : Target) : web response :=
  if negb (str_eqb (rq_Method rq) "POST") || negb (cap_Send (tg_Capabilities target)) then rejectOperation else
  decode SendBody (fun body =>
    let message := trimSpace (mb_Message body) in
    let id := trimSpace (mb_ClientUserMessageID body) in
    if badMessage message id (mb_AttachmentIDs body) then writeError 400 "message and browser attempt ID are invalid" else
    let! prepared := prepareAttachments target "send" id message (mb_AttachmentIDs body) in
    match prepared with
    | Err fault => uploadError fault
    | Ok message =>
      ask alive := CContextErr in
      if negb alive then serverError else
      let deliver :=
        ask receipt := CSend (tg_ThreadID target) message id "" in
        match receipt with Err e => sendError e | Ok receipt => writeJSON 202 (BodyReceipt receipt) end in
      if mb_Retry body then
        ask attempted := CSendAttempted (tg_ThreadID target) message id "" in
        if negb attempted then serverError else deliver
      else deliver
    end).

Fixpoint acknowledgementFault (seen : list string) (items : list SendAcknowledgement) : option string :=
  match items with
  | [] => None
  | item :: rest =>
    if negb (browserAttemptPattern (ack_ClientUserMessageID item)) || negb (messageDigestPattern (ack_Digest item))
    then Some "message acknowledgement is invalid"%string
    else if str_in (ack_ClientUserMessageID item) seen then Some "message acknowledgement is repeated"%string
    else acknowledgementFault (ack_ClientUserMessageID item :: seen) rest
  end.
Definition acknowledge (target : Target) : web response :=
  if negb (str_eqb (rq_Method rq) "POST") || negb (cap_Send (tg_Capabilities target)) then rejectOperation else
  decode AcknowledgeBody (fun items =>
    if (100 <? Datatypes.length items)%nat then writeError 400 "too many message acknowledgements" else
    match acknowledgementFault [] items with
    | Some message => writeError 400 message
    | None =>
      ask acknowledged := CAcknowledgeSends (tg_ThreadID target) items in
      match acknowledged with
      | None => serverError
      | Some ids => writeJSON 200 (BodyJSON (AObj [("acknowledgedClientUserMessageIds", AArr (AStr <$> ids))]))
      end
    end).

(** ** The queue *)

Definition queue (target : Target) : web response :=
  if isGet (rq_Method rq) then
    if negb (cap_QueueRead (tg_Capabilities target)) then rejectOperation else
    ask entries := CListQueue (tg_ThreadID target) in
    match entries with
    | None => serverError
    | Some entries =>
      if tg_Attachments target then
        ask observed := CObserveQueue entries in
        match observed with Err fault => uploadError fault | Ok entries => writeJSON 200 (BodyEntries entries) end
      else writeJSON 200 (BodyEntries entries)
    end
  else
  if negb (str_eqb (rq_Method rq) "POST") || negb (cap_Queue (tg_Capabilities target)) then rejectOperation else
  decode QueueBody (fun body =>
    let message := trimSpace (mb_Message body) in
    let id := trimSpace (mb_ClientUserMessageID body) in
    if badMessage message id (mb_AttachmentIDs body) then writeError 400 "message and browser attempt ID are invalid" else
    let! prepared := prepareAttachments target "queue" id message (mb_AttachmentIDs body) in
    match prepared with
    | Err fault => uploadError fault
    | Ok message =>
      ask entry := CQueue (tg_ThreadID target) message id in
      match entry with
      | None => serverError
      | Some entry =>
        if tg_Attachments target then
          ask observed := CObserveQueue [entry] in
          match observed with Err fault => uploadError fault | Ok entries => writeJSON 202 (BodyEntry (default entry (head entries))) end
        else writeJSON 202 (BodyEntry entry)
      end
    end).

Definition reconcileQueue (target : Target) : web response :=
  if negb (str_eqb (rq_Method rq) "POST") || negb (cap_Queue (tg_Capabilities target)) then rejectOperation else
  if tg_deletionCompleter target then
    ask done := CReconcileQueueDeletions (tg_ThreadID target) in
    if negb done then serverError else writeOK 200
  else if tg_Attachments target then writeError 503 "Attachment deletion recovery is unavailable"
  else writeOK 200.

Definition deleteQueue (target : Target) (id : string) : web response :=
  if negb (str_eqb (rq_Method rq) "DELETE") || negb (cap_Queue (tg_Capabilities target)) || is_empty id then rejectOperation else
  match opaqueSegment id with
  | None => writeError 400 "queued message ID is invalid"
  | Some decoded =>
    if tg_Attachments target && negb (tg_deletionCompleter target) then writeError 503 "Attachment deletion recovery is unavailable" else
    ask done := CDeleteQueueEntry (tg_ThreadID target) decoded (tg_Attachments target) in
    if negb done then serverError else writeOK 200
  end.

Definition startQueue (target : Target) : web response :=
  if negb (str_eqb (rq_Method rq) "POST") || negb (cap_Queue (tg_Capabilities target)) then rejectOperation else
  decode StartBody (fun id =>
    if negb (validOpaqueID id) then writeError 400 "queued message ID is invalid" else
    ask done := CStartQueue (tg_ThreadID target) id in
    if negb done then serverError else writeOK 202).

Definition interrupt (target : Target) : web response :=
  if negb (str_eqb (rq_Method rq) "POST") || negb (cap_Interrupt (tg_Capabilities target)) then rejectOperation else
  decodeEmpty (ask done := CInterrupt (tg_ThreadID target) in if negb done then serverError else writeOK 202).

(** ** Settings *)

Definition supported (model effort : string) (found : list Model) : bool :=
  existsb (fun m => str_eqb (md_Model m) model && str_in effort (md_SupportedReasoningEfforts m)) found.

Definition settings (target : Target) : web response :=
  if (negb (str_eqb (rq_Method rq) "POST") && negb (str_eqb (rq_Method rq) "PATCH")) || negb (cap_Settings (tg_Capabilities target))
  then rejectOperation else
  decode SettingsBody (fun update =>
    let update := mkUpdate (trimSpace <$> su_Model update) (trimSpace <$> su_ReasoningEffort update) (trimSpace <$> su_CollaborationMode update) in
    let apply :=
      ask settings := CUpdateThreadSettings (tg_ThreadID target) update in
      match settings with None => serverError | Some settings => writeJSON 200 (BodyJSON settings) end in
    let mode :=
      match su_CollaborationMode update with
      | None => apply
      | Some mode =>
        ask modes := CListCollaborationModes in
        match modes with
        | None => serverError
        | Some modes => if negb (str_in mode modes) then writeError 400 "Codex collaboration mode is unavailable" else apply
        end
      end in
    match su_Model update, su_ReasoningEffort update with
    | None, None => match su_CollaborationMode update with None => writeError 400 "no Codex setting was selected" | Some _ => mode end
    | None, Some _ => writeError 400 "select a Codex model before changing its reasoning setting"
    | Some model, effort =>
      let effort := default ""%string effort in
      if is_empty model || is_empty effort then writeError 400 "select a Codex model and an explicit reasoning setting" else
      ask found := CModels (tg_ModelCatalog target) in
      match found with
      | None => serverError
      | Some found =>
        if negb (supported model effort found) then writeError 400 "Codex model or reasoning setting is unavailable" else mode
      end
    end).

(** ** Answers *)

Definition promptFaultOf (e : err) : option (string * bool * err) :=
  errAs (fun x => match x with EPrompt code notSent cause => Some (code, notSent, cause) | _ => None end) e.
Definition respondError (e : err) : web response :=
  match promptFaultOf e with
  | None => serverError
  | Some (code, notSent, cause) =>
    if str_eqb code "prompt_changed" then writeJSON 409 (BodyPromptFault cause code notSent)
    else if str_eqb code "invalid_response" then writeJSON 400 (BodyPromptFault cause code notSent)
    else writeNotSent 503 (if negb notSent then "Delivery could not be confirmed."
                           else "The connection changed before your response was sent.") code notSent []
  end.
Definition reloadRequired : web response :=
  writeNotSent 409 "Reload this page to update the question controls." "reload_required" true [].

Definition respond (target : Target) : web response :=
  if negb (str_eqb (rq_Method rq) "POST") || negb (cap_Respond (tg_Capabilities target)) then rejectOperation else
  decode RespondBody (fun body =>
    let body := mkResponse (trimSpace (ps_ID body)) (ps_Token body) (trimSpace (ps_Decision body)) (ps_Answers body) (ps_Snooze body) in
    let answered := negb (bool_decide (size (ps_Answers body) = 0%nat)) in
    if is_empty (ps_ID body) || (256 <? len (ps_ID body)) then writeError 400 "prompt ID is invalid" else
    let actions := ((if ps_Snooze body then 1 else 0) + (if answered then 1 else 0) + (if is_empty (ps_Decision body) then 0 else 1)) in
    if negb (actions =? 1) then writeError 400 "prompt response must select one action" else
    if tg_promptResponder target && is_empty (ps_Token body) then reloadRequired else
    let finish (r : res err unit) := match r with Err e => respondError e | Ok _ => writeOK 200 end in
    if negb (is_empty (ps_Token body)) then
      if negb (tg_promptResponder target) then reloadRequired else
      ask r := CRespondPrompt (tg_ThreadID target) body in finish r
    else if ps_Snooze body then ask r := CSnoozeUserInput (ps_ID body) (tg_ThreadID target) in finish r
    else if answered then ask r := CRespondAnswers (ps_ID body) (tg_ThreadID target) (ps_Answers body) in finish r
    else ask r := CRespondDecision (ps_ID body) (tg_ThreadID target) (ps_Decision body) in finish r).

(** ** Events *)

Definition heartbeatInterval : Z := 20000.
Definition readyFrame (revisions : bool) : string :=
  ("event: ready" ++ newline ++ "data: " ++
   jsonObject ([("heartbeatIntervalMs", jsonInt heartbeatInterval)] ++ (if revisions then [("pendingInvalidation", jsonBool true)] else []))
   ++ newline ++ newline)%string.
Definition heartbeatFrame : string := ("event: heartbeat" ++ newline ++ "data: {}" ++ newline ++ newline)%string.
Definition pendingFrame : string := ("event: pending" ++ newline ++ "data: update" ++ newline ++ newline)%string.
Definition updateFrame : string := ("data: update" ++ newline ++ newline)%string.

(** The loop, over what its [select] finds; a list that ends is a request that ends. *)
Fixpoint streamLoop (thread : string) (revision : option Z) (signals : list signal) : web unit :=
  match signals with
  | [] | SignalDone :: _ | SignalClosed :: _ => Ret tt
  | SignalKeepalive :: rest =>
    ask written := CWrite heartbeatFrame in if negb written then Ret tt else streamLoop thread revision rest
  | SignalUpdate :: rest =>
    let update (revision : option Z) :=
      ask written := CWrite updateFrame in if negb written then Ret tt else streamLoop thread revision rest in
    match revision with
    | None => update None
    | Some previous =>
      ask current := CPendingRevision thread in
      if current =? previous then update (Some previous) else
      ask written := CWrite pendingFrame in if negb written then Ret tt else update (Some current)
    end
  end.
Definition streamEvents (target : Target) (revisions : bool) : web unit :=
  let start (revision : option Z) :=
    ask written := CWrite (readyFrame revisions) in
    if negb written then Ret tt else streamLoop (tg_ThreadID target) revision (rq_signals rq) in
  if revisions then ask previous := CPendingRevision (tg_ThreadID target) in start (Some previous) else start None.
Definition events (target : Target) : web response :=
  if negb (isGet (rq_Method rq)) || negb (cap_EventStream (tg_Capabilities target)) then rejectOperation else
  if negb (rq_flusher rq) then writeError 500 "event streaming is unavailable" else
  ask subscribed := CSubscribe (tg_ThreadID target) in
  if negb subscribed then serverError else
  let! _ := streamEvents target (tg_revisions target && cap_Pending (tg_Capabilities target)) in
  ask _u := CUnsubscribe in writeJSON 200 BodyStream.

(** ** Operations *)

Definition serveOperation (target : Target) (operation : string) : web response :=
  let op := str_eqb operation in
  if op "retry/activity" || op "retry/now" || op "retry/stop" then retryActivity target operation
  else if op "retry" || op "retry/enabled" || op "retry/cancel" then retry target operation
  else if op "thread/page" then threadPage target
  else if op "activity" then activity target
  else if op "thread" then thread target
  else if op "pending" then pending target
  else if op "models" then models target
  else if op "collaboration-modes" then collaborationModes target
  else if op "queue" then queue target
  else if op "queue/reconcile" then
    if str_eqb (rq_Method rq) "DELETE" then deleteQueue target "reconcile" else reconcileQueue target
  else if op "queue/start" then
    if str_eqb (rq_Method rq) "DELETE" then deleteQueue target "start" else startQueue target
  else if op "message" then send target
  else if op "message-ack" then acknowledge target
  else if op "interrupt" then interrupt target
  else if op "settings" then settings target
  else if op "respond" then respond target
  else if op "events" then events target
  else if hasPrefix operation "queue/" then deleteQueue target (trimPrefix operation "queue/")
  else notFound.

(** ** Requests *)

Inductive route := NoRoute | AssetRoute (path : string) | OperationRoute (id operation : string).
Definition routeOf : route :=
  let escaped := rq_escapedPath rq in
  if negb (is_empty (rq_RawPath rq)) && negb (str_eqb (rq_RawPath rq) escaped) then NoRoute else
  let path := if is_empty (hd_basePath h) then escaped else trimPrefix escaped (hd_basePath h) in
  if negb (is_empty (hd_basePath h)) && (str_eqb path escaped || negb (hasPrefix path "/")) then NoRoute else
  if hasPrefix path "/assets/" then
    match pathUnescape (trimPrefix path "/assets") with
    | Some asset => if contains asset "//" then NoRoute else AssetRoute asset
    | None => NoRoute
    end
  else if negb (hasPrefix path "/conversations/") then NoRoute else
  match split_on "/" (trimPrefix path "/conversations/") "" with
  | [a; b] =>
    if is_empty a || is_empty b then NoRoute else match opaqueSegment a with Some id => OperationRoute id b | None => NoRoute end
  | [a; b; c] =>
    if is_empty a || is_empty b || is_empty c then NoRoute
    else match opaqueSegment a with Some id => OperationRoute id (joinWith "/" [b; c]) | None => NoRoute end
  | _ => NoRoute
  end.

(** The target is not used before all of this holds of it. *)
Definition validTarget (mutation : bool) (target : Target) : bool :=
  tg_Client target && negb (is_empty (tg_ThreadID target)) && canonicalPath (tg_Directory target)
  && negb (mutation && negb (tg_MutationLock target)).

(** The operation with its lock, and the response with the deferred unlock. *)
Definition serveLocked (target : Target) (mutation : bool) (operation : string) : web response :=
  if negb mutation then serveOperation target operation else
  ask locked := CLock in
  if negb locked then serverError else
  let! reply := serveOperation target operation in
  ask _u := CUnlock in Ret reply.
Definition serveTarget (target : Target) (mutation : bool) (operation : string) : web response :=
  if negb (validTarget mutation target) then writeError 503 "Codex service is unavailable" else
  ask verified := CVerifyThread (tg_ThreadID target) (tg_Directory target) in
  if negb verified then writeError 404 "conversation is unavailable" else serveLocked target mutation operation.

Definition ServeHTTP : web response :=
  match routeOf with
  | NoRoute => notFound
  | AssetRoute path => writeJSON 200 (BodyAsset path)
  | OperationRoute id operation =>
    if negb originAllowed then writeError 403 "request origin is not allowed" else
    let mutation := negb (readOnly (rq_Method rq)) in
    ask resolved := CResolve (mkResolve id operation (rq_Method rq) mutation) in
    match resolved with
    | None => writeError 404 "conversation is unavailable"
    | Some target =>
      let! reply := serveTarget target mutation operation in
      if tg_Release target then ask _u := CRelease in Ret reply else Ret reply
    end
  end.
End handler.
