(* ===== verification/HandlerFacts.v ===== *)
(** * Every request acts within its authority

    A monitor follows the calls of a request: which conversation was resolved and
    verified, whether its mutation lock is held and whether a subscription is
    open. [allowed] says when each call may be made; the theorem shows that no
    request makes another one, whatever the application and the client answer. *)
From S2P Require Import Prelude GoStd GoValue TurnOptions Ledger Prompts ActivitySnapshot Web Handler.
From Stdlib Require Import Ascii String.
Open Scope Z_scope.

Record authority := mkAuthority {
  au_target : option Target; au_verified : bool; au_locked : bool; au_streaming : bool }.
Definition start : authority := mkAuthority None false false false.
Definition mutationMethods : list string := ["POST"; "PATCH"; "DELETE"].

Section monitor.
Context (h : Handler) (rq : request).

(** A granted observation of a thread, and a granted change. *)
Definition granted (cap : Capabilities → bool) (thread : option string) (a : authority) : Prop :=
  ∃ target, au_target a = Some target ∧ au_verified a = true ∧ cap (tg_Capabilities target) = true
    ∧ match thread with Some t => t = tg_ThreadID target | None => True end.
Definition reading (cap : Capabilities → bool) (thread : option string) (a : authority) : Prop :=
  granted cap thread a ∧ rq_Method rq = "GET".
Definition changing (cap : Capabilities → bool) (thread : option string) (a : authority) : Prop :=
  granted cap thread a ∧ au_locked a = true ∧ rq_Origin rq ∈ hd_allowedOrigins h ∧ rq_Origin rq ≠ "" ∧ rq_Method rq ∈ mutationMethods.
(** What a message may be. *)
Definition sendable (message id : string) : Prop :=
  message ≠ "" ∧ len message ≤ hd_maxMessageBytes h ∧ browserAttemptPattern id = true.

Definition allowed {X} (c : call X) (a : authority) : Prop :=
  match c with
  | CResolve r => au_target a = None ∧ originAllowed h rq = true ∧ rr_Method r = rq_Method rq
      ∧ rr_Mutation r = negb (readOnly (rq_Method rq)) ∧ routeOf h rq = OperationRoute (rr_ID r) (rr_Operation r)
  | CVerifyThread thread directory => ∃ target, au_target a = Some target ∧ validTarget (negb (readOnly (rq_Method rq))) target = true
      ∧ thread = tg_ThreadID target ∧ directory = tg_Directory target
  | CLock => au_verified a = true ∧ au_locked a = false
  | CUnlock => au_locked a = true ∧ au_streaming a = false
  | CRelease => is_Some (au_target a) ∧ au_locked a = false ∧ au_streaming a = false
  | CContextErr => True
  | CReadThreadPage thread _ | CReadActivity thread | CReadThread thread => reading cap_Read (Some thread) a
  | CPromptsWithItems thread => reading cap_Pending (Some thread) a
  | CModels _ | CListCollaborationModes => reading cap_Settings None a ∨ changing cap_Settings None a
  | CListQueue thread => reading cap_QueueRead (Some thread) a
  | CSendAttempted thread message id _ | CSend thread message id _ => changing cap_Send (Some thread) a ∧ sendable message id
  | CAcknowledgeSends thread _ => changing cap_Send (Some thread) a
  | CQueue thread message id => changing cap_Queue (Some thread) a ∧ sendable message id
  | CDeleteQueueEntry thread id _ => changing cap_Queue (Some thread) a ∧ validOpaqueID id = true
  | CReconcileQueueDeletions thread => changing cap_Queue (Some thread) a
  | CStartQueue thread id => changing cap_Queue (Some thread) a ∧ validOpaqueID id = true
  | CInterrupt thread => changing cap_Interrupt (Some thread) a
  | CUpdateThreadSettings thread _ => changing cap_Settings (Some thread) a
  | CRespondPrompt thread body => changing cap_Respond (Some thread) a ∧ ps_Token body ≠ ""
  | CSnoozeUserInput _ thread | CRespondAnswers _ thread _ | CRespondDecision _ thread _ => changing cap_Respond (Some thread) a
  | CReadRetry thread => reading cap_Retry (Some thread) a
  | CSetRetryEnabled thread _ | CCancelRetry thread => changing cap_Retry (Some thread) a
  | CReadRetryActivity thread => reading cap_RetryActivity (Some thread) a
  | CRetryNow thread token | CStopRetry thread token => changing cap_RetryActivity (Some thread) a ∧ retryActivityIdentity token = true
  | CPrepare _ _ _ _ => changing cap_Send None a ∨ changing cap_Queue None a
  | CObserveTranscript _ => reading cap_Read None a
  | CObserveQueue _ => reading cap_QueueRead None a ∨ changing cap_Queue None a
  | CSubscribe thread => reading cap_EventStream (Some thread) a ∧ au_streaming a = false
  | CPendingRevision thread => reading cap_Pending (Some thread) a ∧ au_streaming a = true
  | CUnsubscribe | CWrite _ => au_streaming a = true
  end.

Definition after {X} (c : call X) : X → authority → authority :=
  match c in call X return X → authority → authority with
  | CResolve _ => fun target _ => mkAuthority target false false false
  | CVerifyThread _ _ => fun ok a => mkAuthority (au_target a) ok (au_locked a) (au_streaming a)
  | CLock => fun ok a => mkAuthority (au_target a) (au_verified a) ok (au_streaming a)
  | CUnlock => fun _ a => mkAuthority (au_target a) (au_verified a) false (au_streaming a)
  | CRelease => fun _ a => mkAuthority None false (au_locked a) (au_streaming a)
  | CSubscribe _ => fun ok a => mkAuthority (au_target a) (au_verified a) (au_locked a) ok
  | CUnsubscribe => fun _ a => mkAuthority (au_target a) (au_verified a) (au_locked a) false
  | _ => fun _ a => a
  end.

(** Nothing is left held. *)
Definition finished (a : authority) : Prop :=
  au_locked a = false ∧ au_streaming a = false ∧ ∀ target, au_target a = Some target → tg_Release target = false.

(** A request goes from call to call, with any answer. *)
Inductive step {A} : authority * web A → authority * web A → Prop :=
| step_call X (c : call X) k x a : step (a, Call c k) (after c x a, k x).

(** ** Safe programs *)

Fixpoint safe {A} (a : authority) (m : web A) (Q : authority → A → Prop) : Prop :=
  match m with
  | Ret r => Q a r
  | Call c k => allowed c a ∧ ∀ x, safe (after c x a) (k x) Q
  end.

Lemma safe_mono {A} (m : web A) a (Q Q' : authority → A → Prop) : (∀ a r, Q a r → Q' a r) → safe a m Q → safe a m Q'.
Proof. intros HQ. revert a. induction m as [r|X c k IH]; intros a; simpl; [apply HQ|]. intros [Hc Hk]. split; [done|]. intros x. apply IH, Hk. Qed.
Lemma safe_bind {A B} (m : web A) (f : A → web B) a (Q : authority → B → Prop) :
  safe a m (fun a r => safe a (f r) Q) → safe a (bind m f) Q.
Proof. revert a. induction m as [r|X c k IH]; intros a; simpl; [done|]. intros [Hc Hk]. split; [done|]. intros x. apply IH, Hk. Qed.
Lemma safe_reaches {A} (m m' : web A) a a' Q : rtc step (a, m) (a', m') → safe a m Q → safe a' m' Q.
Proof.
  intros H. remember (a, m) as s eqn:E. remember (a', m') as s' eqn:E'. revert a m E. induction H as [s|s s1 s2 Hs _ IH]; intros a m ->; [by simplify_eq|].
  inversion Hs; subst. simpl. intros [_ Hk]. eapply IH; [done|reflexivity|]. apply Hk.
Qed.

(** ** Operations *)

Section operations.
Context (a : authority) (target : Target).
Hypothesis Htarget : au_target a = Some target.
Hypothesis Hverified : au_verified a = true.
Hypothesis Hstreaming : au_streaming a = false.
Hypothesis Hlocked : au_locked a = negb (readOnly (rq_Method rq)).
Hypothesis Horigin : originAllowed h rq = true.

Let unmoved (a' : authority) (_ : response) : Prop := a' = a.

Lemma can_read (cap : Capabilities → bool) thread :
  isGet (rq_Method rq) = true → cap (tg_Capabilities target) = true →
  match thread with Some t => t = tg_ThreadID target | None => True end → reading cap thread a.
Proof. unfold isGet. intros Hm Hcap Ht. bools. split; [by exists target|done]. Qed.
Lemma can_change (cap : Capabilities → bool) thread :
  rq_Method rq ∈ mutationMethods → cap (tg_Capabilities target) = true →
  match thread with Some t => t = tg_ThreadID target | None => True end → changing cap thread a.
Proof.
  intros Hm Hcap Ht. assert (readOnly (rq_Method rq) = false) as Hr.
  { unfold readOnly, mutationMethods in *. set_unfold in Hm. by destruct Hm as [->|[->|[->|[]]]]. }
  split; [by exists target|]. rewrite Hlocked, Hr. unfold originAllowed in Horigin. rewrite Hr in Horigin.
  destruct (is_empty (rq_Origin rq)) eqn:E; [done|]. bools. done.
Qed.

Lemma safe_error status message : safe a (writeError status message) unmoved. Proof. done. Qed.
Lemma safe_reject : safe a (rejectOperation rq) unmoved.
Proof. unfold rejectOperation. by destruct (str_in _ _). Qed.
Lemma safe_upload fault : safe a (uploadError fault) unmoved.
Proof. done. Qed.
Lemma safe_decode {T} (body : bodyType T) k : (∀ value, safe a (k value) unmoved) → safe a (decode h rq body k) unmoved.
Proof. intros Hk. unfold decode. destruct (rq_decode _ _ _ _) as [|value []]; [done..|apply Hk]. Qed.
Lemma safe_empty k : safe a k unmoved → safe a (decodeEmpty rq k) unmoved.
Proof. intros Hk. unfold decodeEmpty. destruct (rq_decodeEmpty _ _) as [| |members trailing]; [done..|]. destruct (members =? 0), trailing; done. Qed.
Hint Resolve safe_error safe_reject safe_upload : codex.

Ltac settle :=
  match goal with
  | |- rq_Method rq ∈ mutationMethods => bools; unfold mutationMethods;
      match goal with H : rq_Method rq = _ |- _ => rewrite H end; set_solver
  | |- _ => bools; solve [auto with codex | done | eauto]
  end.
Ltac web :=
  repeat match goal with
  | |- safe _ (decode _ _ _ _) _ => apply safe_decode; intros
  | |- safe _ (decodeEmpty _ _) _ => apply safe_empty
  | |- safe _ (Call _ _) _ => split; [|intros ?]; cbn [after]
  | |- safe _ (bind _ _) _ => apply safe_bind
  | |- safe _ (if ?b then _ else _) _ => destruct b eqn:?; bools
  | |- safe _ (match ?x with _ => _ end) _ => destruct x eqn:?
  end; try solve [auto with codex | reflexivity].

Ltac grant := cbn [andb orb negb] in *; bools; first [apply can_read | apply can_change]; settle.

Lemma retry_safe operation : safe a (retry h rq target operation) unmoved.
Proof. unfold retry. web; grant. Qed.
Lemma retryFault_safe code : safe a (retryActivityFault code) unmoved.
Proof. unfold retryActivityFault. by repeat case_bool_decide. Qed.
Hint Resolve retryFault_safe : codex.
Lemma retryActivity_safe operation : safe a (retryActivity h rq target operation) unmoved.
Proof. unfold retryActivity. web; try (split; [|settle]); grant. Qed.
Lemma present_safe transcript (body : any → responseBody) : reading cap_Read None a →
  safe a (presentTranscript target transcript (fun transcript => writeJSON 200 (body transcript))) unmoved.
Proof. intros H. unfold presentTranscript. web. Qed.
Hint Resolve present_safe : codex.
Lemma pageError_safe fault : safe a (pageError fault) unmoved.
Proof. unfold pageError. web. Qed.
Hint Resolve pageError_safe : codex.
Lemma threadPage_safe : safe a (threadPage rq target) unmoved.
Proof. unfold threadPage. web; try apply (present_safe _ (fun transcript => BodyPage transcript _)); grant. Qed.
Lemma activity_safe : safe a (activity rq target) unmoved.
Proof. unfold activity. web; grant. Qed.
Lemma thread_safe : safe a (thread rq target) unmoved.
Proof. unfold thread. web; try apply (present_safe _ BodyJSON); grant. Qed.
Lemma pending_safe : safe a (pending rq target) unmoved.
Proof. unfold pending, passOn. web; grant. Qed.
Lemma models_safe : safe a (models rq target) unmoved.
Proof. unfold models, passOn. web; left; grant. Qed.
Lemma modes_safe : safe a (collaborationModes rq target) unmoved.
Proof. unfold collaborationModes, passOn. web; left; grant. Qed.

Lemma acknowledge_safe : safe a (acknowledge h rq target) unmoved.
Proof. unfold acknowledge. web; grant. Qed.
Lemma reconcileQueue_safe : safe a (reconcileQueue rq target) unmoved.
Proof. unfold reconcileQueue. web; grant. Qed.
Lemma opaque_valid segment id : opaqueSegment segment = Some id → validOpaqueID id = true.
Proof. unfold opaqueSegment. intros H. repeat (cases_in H; try done). simplify_eq. by bools. Qed.
Lemma deleteQueue_safe id : safe a (deleteQueue rq target id) unmoved.
Proof. unfold deleteQueue. web. split; [grant|by eapply opaque_valid]. Qed.
Lemma startQueue_safe : safe a (startQueue h rq target) unmoved.
Proof. unfold startQueue. web. split; [grant|settle]. Qed.
Lemma interrupt_safe : safe a (interrupt rq target) unmoved.
Proof. unfold interrupt. web; grant. Qed.
Lemma respondError_safe e : safe a (respondError e) unmoved.
Proof. unfold respondError. web. Qed.
Hint Resolve respondError_safe : codex.
Lemma respond_safe : safe a (respond h rq target) unmoved.
Proof. unfold respond. web; try (split; [|settle]); grant. Qed.
Lemma settings_safe : safe a (settings h rq target) unmoved.
Proof.
  unfold settings. destruct (_ || _) eqn:Em; [apply safe_reject|].
  assert (changing cap_Settings None a ∧ changing cap_Settings (Some (tg_ThreadID target)) a) as [H1 H2].
  { destruct (str_eqb (rq_Method rq) "POST") eqn:?, (str_eqb (rq_Method rq) "PATCH") eqn:?; try done; split; grant. }
  clear Em. web; auto; right; done.
Qed.

Lemma prepare_safe kind id message ids :
  changing cap_Send None a ∨ changing cap_Queue None a → badMessage h message id ids = false →
  safe a (prepareAttachments h target kind id message ids) (fun a' r => a' = a ∧ ∀ m, r = Ok m → sendable m id).
Proof.
  intros Hc Hb. unfold badMessage in Hb. bools. unfold prepareAttachments.
  destruct (100 <? _)%nat; [by split|]. destruct (negb (attachmentIDsValid [] ids)); [by split|].
  destruct (tg_Attachments target); simpl.
  - split; [done|]. intros [prepared|fault]; [|by split]. destruct (_ || _) eqn:E; [by split|]. bools. split; [done|].
    intros m [= <-]. split_and!; [|lia|done]. by intros ->.
  - destruct ids as [|i ids]; [|by split]. split; [done|]. intros m [= <-]. simpl in *. rewrite andb_true_r in *. bools. by split_and!.
Qed.

Lemma sendError_safe e : safe a (sendError e) unmoved.
Proof. unfold sendError. web. Qed.
Hint Resolve sendError_safe : codex.
(** A message once it is prepared. *)
Lemma prepared_safe kind id message ids (k : res uploadFault string → web response) :
  changing cap_Send None a ∨ changing cap_Queue None a → badMessage h message id ids = false →
  (∀ fault, safe a (k (Err fault)) unmoved) → (∀ m, sendable m id → safe a (k (Ok m)) unmoved) →
  safe a (bind (prepareAttachments h target kind id message ids) k) unmoved.
Proof.
  intros Hc Hb He Hk. apply safe_bind. eapply safe_mono; [|by apply prepare_safe]. intros a' r [-> Hr]. destruct r; auto.
Qed.

Lemma send_safe : safe a (send h rq target) unmoved.
Proof.
  unfold send. destruct (_ || _) eqn:Em; [apply safe_reject|]. bools.
  assert (changing cap_Send (Some (tg_ThreadID target)) a) as Hc by grant. assert (changing cap_Send None a) by grant.
  apply safe_decode. intros body. cbv zeta. destruct (badMessage _ _ _ _) eqn:Eb; [done|]. apply prepared_safe; [by auto|done|intros fault; apply safe_upload|intros m Hm]. web; try done; by split.
Qed.
Lemma queue_safe : safe a (queue h rq target) unmoved.
Proof.
  unfold queue. destruct (isGet _) eqn:Eg; [web; try left; grant|]. destruct (_ || _) eqn:Em; [apply safe_reject|]. bools.
  assert (changing cap_Queue (Some (tg_ThreadID target)) a) as Hc by grant. assert (changing cap_Queue None a) by grant.
  apply safe_decode. intros body. cbv zeta. destruct (badMessage _ _ _ _) eqn:Eb; [done|]. apply prepared_safe; [by auto|done|intros fault; apply safe_upload|intros m Hm].
  web; [by split|by right].
Qed.

(** The stream runs inside its subscription. *)
Lemma stream_safe signals revision a' : au_streaming a' = true →
  (is_Some revision → reading cap_Pending (Some (tg_ThreadID target)) a') →
  safe a' (streamLoop (tg_ThreadID target) revision signals) (fun a'' _ => a'' = a').
Proof.
  intros Hs. revert revision. induction signals as [|[] signals IH]; intros revision Hr; try done; simpl.
  - split; [done|]. intros []; [|done]. by apply IH.
  - destruct revision as [previous|].
    + split; [split; [eauto|done]|]. intros current. destruct (current =? previous); simpl.
      * split; [done|]. intros []; [|done]. by apply IH.
      * split; [done|]. intros []; [|done]. simpl. split; [done|]. intros []; [|done]. apply IH. eauto.
    + split; [done|]. intros []; [|done]. by apply IH.
Qed.
Lemma events_safe : safe a (events rq target) unmoved.
Proof.
  unfold events. destruct (_ || _) eqn:Em; [apply safe_reject|]. bools. destruct (negb (rq_flusher rq)); [done|].
  simpl. split; [split; [grant|done]|]. intros [|]; [|simpl; by destruct a; simpl in *; subst].
  set (a1 := mkAuthority (au_target a) (au_verified a) (au_locked a) true). simpl. apply safe_bind.
  assert (tg_revisions target && cap_Pending (tg_Capabilities target) = true → reading cap_Pending (Some (tg_ThreadID target)) a1) as Hp.
  { intros Hp. bools. destruct (can_read cap_Pending (Some (tg_ThreadID target))) as [(t & ?) ?]; [done..|]. split; [by exists t|done]. }
  apply (safe_mono _ _ (fun a' _ => a' = a1)).
  { intros a' _ ->. simpl. split; [done|]. intros _. simpl. unfold unmoved. by destruct a; simpl in *; subst. }
  unfold streamEvents. destruct (tg_revisions target && cap_Pending (tg_Capabilities target)).
  - simpl. split; [split; [by apply Hp|done]|]. intros previous. split; [done|]. intros []; [|done]. simpl. apply stream_safe; [done|]. by intros _; apply Hp.
  - simpl. split; [done|]. intros []; [|done]. simpl. apply stream_safe; [done|]. by intros [].
Qed.

Lemma serveOperation_safe operation : safe a (serveOperation h rq target operation) unmoved.
Proof.
  unfold serveOperation. cbv zeta.
  repeat match goal with |- safe _ (if ?b then _ else _) _ => destruct b end;
    auto using retry_safe, retryActivity_safe, threadPage_safe, activity_safe, thread_safe, pending_safe, models_safe, modes_safe, queue_safe,
      deleteQueue_safe, reconcileQueue_safe, startQueue_safe, send_safe, acknowledge_safe, interrupt_safe, settings_safe, respond_safe, events_safe.
  done.
Qed.
End operations.

(** ** Requests *)

(** A target keeps its lock and its subscription to itself, until it is released. *)
Definition unlocked (target : Target) (a : authority) (_ : response) : Prop :=
  au_target a = Some target ∧ au_locked a = false ∧ au_streaming a = false.

Lemma serveLocked_safe target operation : originAllowed h rq = true →
  safe (mkAuthority (Some target) true false false) (serveLocked h rq target (negb (readOnly (rq_Method rq))) operation) (unlocked target).
Proof.
  intros Ho. unfold serveLocked. rewrite negb_involutive. destruct (readOnly (rq_Method rq)) eqn:Er.
  - eapply safe_mono; [|apply serveOperation_safe; [done..|by rewrite Er|done]]. by intros a' r ->.
  - simpl. split; [done|]. intros [|]; [|done]. simpl. apply safe_bind.
    eapply safe_mono; [|apply serveOperation_safe; [done..|by rewrite Er|done]]. by intros a' r ->.
Qed.
Lemma serveTarget_safe target operation : originAllowed h rq = true →
  safe (mkAuthority (Some target) false false false) (serveTarget h rq target (negb (readOnly (rq_Method rq))) operation) (unlocked target).
Proof.
  intros Ho. unfold serveTarget. destruct (validTarget _ target) eqn:Ev; [|done]. simpl. split; [by exists target|].
  intros [|]; [|done]. by apply serveLocked_safe.
Qed.
Lemma ServeHTTP_safe : safe start (ServeHTTP h rq) (fun a _ => finished a).
Proof.
  assert (finished start) as Hs by (by split_and!). unfold ServeHTTP.
  destruct (routeOf h rq) as [|path|id operation] eqn:Er; [done..|]. destruct (originAllowed h rq) eqn:Eo; [|done]. simpl. split; [done|].
  intros [target|]; [|by split_and!]. apply safe_bind. eapply safe_mono; [|by apply serveTarget_safe]. intros a r (Ht & Hl & Hst).
  destruct (tg_Release target) eqn:El; simpl.
  - split; [by rewrite Ht|]. intros _. by split_and!.
  - split_and!; [done..|]. intros t. rewrite Ht. by intros [= <-].
Qed.

(** C40. No request acts outside its authority, whatever the application and the client
    answer. A conversation is resolved only for a request whose origin is allowed and whose
    path spells its identity; it is used only once it was verified to be the resolved thread
    in the resolved directory; every observation and every change is one its capabilities
    grant, of the resolved thread alone; a change is made only on a request of a mutating
    method from an allowed origin while the mutation lock is held, and a message only within
    its size. When the response is done, the lock, the subscription and the target are given back. *)
Theorem requests_authorised a m :
  rtc step (start, ServeHTTP h rq) (a, m) →
  match m with Ret _ => finished a | Call c _ => allowed c a end.
Proof.
  intros H. apply safe_reaches with (Q := fun a _ => finished a) in H; [|apply ServeHTTP_safe]. destruct m as [r|X c k]; [done|]. by destruct H.
Qed.
End monitor.

(** ** A concrete request *)

Definition demoRequest : request :=
  mkRequest "POST" "/codex/conversations/work%2520one/message" "" "" "https://host.example"
    (fun T body _ => match body with
      | SendBody => Read (mkMessage " hello " "0123abcd-0123-0123-0123-0123456789ab" false []) false
      | _ => Malformed end)
    (fun _ => EmptyEOF) false [].
Definition demoHandler : Handler := mkHandler ["https://host.example"] "/codex" 524288 49152.
Definition demoTarget : Target :=
  mkTarget true "thread-1" "/work" (mkCapabilities true true true true true true true true true true true) true
    false false false false false None None true false false false false.

(** The calls of the request when all goes well. *)
Definition demoAnswer {X} (c : call X) : option X :=
  match c in call X return option X with
  | CResolve _ => Some (Some demoTarget)
  | CVerifyThread _ _ => Some true
  | CLock => Some true
  | CUnlock => Some tt
  | CRelease => Some tt
  | CContextErr => Some true
  | CSend _ _ id _ => Some (Ok (mkReceipt "" "turn-1" id false))
  | _ => None
  end.
Fixpoint follow {A} (fuel : nat) (a : authority) (m : web A) : authority * web A :=
  match fuel, m with
  | S fuel, Call c k => match demoAnswer c with Some x => follow fuel (after c x a) (k x) | None => (a, m) end
  | _, _ => (a, m)
  end.
Lemma follow_steps {A} fuel a (m : web A) : rtc step (a, m) (follow fuel a m).
Proof.
  revert a m. induction fuel as [|fuel IH]; intros a m; simpl; [apply rtc_refl|]. destruct m as [r|X c k]; [apply rtc_refl|].
  destruct (demoAnswer c) as [x|]; [|apply rtc_refl]. eapply rtc_l; [apply step_call|apply IH].
Qed.

(** After four calls the message is about to be sent, with everything that takes. *)
Definition demoState : authority * web response := follow 4 start (ServeHTTP demoHandler demoRequest).
Lemma requests_authorised_witness :
  match snd demoState with Ret _ => finished (fst demoState) | Call c _ => allowed demoHandler demoRequest c (fst demoState) end ∧
  match snd demoState with Call (CSend thread message _ _) _ => thread = "thread-1" ∧ message = "hello" | _ => False end.
Proof.
  split; [|by vm_compute]. apply requests_authorised. rewrite <- surjective_pairing. apply follow_steps.
Defined.
