(* ===== verification/EphemeralJson.v ===== *)
(** * JSON values of the utility turns

    [ephemeralObject] of [src/codex/ephemeral.go] (655-735): a bounded decoder
    over the tokens of [encoding/json] that keeps numbers as texts and refuses
    duplicate keys; and what the decoded values are read with. The decoder is
    proved to accept exactly the objects within its limits. *)
From S2P Require Import Prelude GoStd GoValue.
From Stdlib Require Import Ascii String.
Open Scope Z_scope.

(** ** Values *)

(** With [UseNumber] a number is its text; an object has no key twice. *)
Inductive json :=
| JNull
| JBool (b : bool)
| JNum (text : string)
| JStr (s : string)
| JArr (l : list json)
| JObj (fields : list (string * json)).

Definition members := list (string * json).

(** [object[key]]: a missing key and a nil map read as nil, as does null. *)
Definition get (key : string) (object : members) : json := default JNull (assoc key object).
(** [_, present := object[key]] *)
Definition has (key : string) (object : members) : bool :=
  match assoc key object with Some _ => true | None => false end.
(** [object[key] = value] *)
Definition put (key : string) (value : json) (object : members) : members :=
  filter (fun kv => kv.1 ≠ key) object ++ [(key, value)].

(** The type assertions the code makes. *)
Definition asMap (v : json) : option members := match v with JObj o => Some o | _ => None end.
Definition asList (v : json) : option (list json) := match v with JArr l => Some l | _ => None end.
Definition asText (v : json) : option string := match v with JStr s => Some s | _ => None end.
Definition asFlag (v : json) : option bool := match v with JBool b => Some b | _ => None end.
Definition mapOrNil (v : json) : members := default [] (asMap v).
Definition textOrEmpty (v : json) : string := default "" (asText v).
(** [value == nil], [value == "text"] and [value == true] on an [any]. *)
Definition isNil (v : json) : bool := match v with JNull => true | _ => false end.
Definition isText (v : json) (s : string) : bool :=
  match v with JStr t => str_eqb t s | _ => false end.
Definition isFlag (v : json) (b : bool) : bool :=
  match v with JBool c => Bool.eqb c b | _ => false end.

(** *** Fields of structs

    [encoding/json] matches the name of a field without regard to case. *)

(** [foldName]: the letters of ASCII, and the two others that fold to one of them. *)
Fixpoint foldBytes (fuel : nat) (l : list Z) : list Z :=
  match fuel, l with
  | S fuel, b :: l =>
    match drop_prefix [197; 191] (b :: l), drop_prefix [226; 132; 170] (b :: l) with
    | Some rest, _ => 115 :: foldBytes fuel rest
    | None, Some rest => 107 :: foldBytes fuel rest
    | None, None => (if between 65 90 b then b + 32 else b) :: foldBytes fuel l
    end
  | _, _ => []
  end.
Definition foldName (s : string) : list Z := let l := bytes_of s in foldBytes (Datatypes.length l) l.

(** The members of an object that a field of a struct takes, in order. *)
Definition fieldsNamed (name : string) (o : members) : list json :=
  (filter (fun kv => foldName kv.1 = foldName name) o).*2.

Definition intoString (acc : option string) (v : json) : option string :=
  match acc, v with
  | Some _, JStr s => Some s
  | Some s, JNull => Some s
  | _, _ => None
  end.
Definition stringField (name : string) (o : members) : option string := foldl intoString (Some "") (fieldsNamed name o).

(** ** Tokens *)

(** What [Decoder.Token] yields; [TBad] is where it reports a syntax error, and
    the end of the list is the end of the input. *)
Inductive token :=
| TBeginObj | TEndObj | TBeginArr | TEndArr
| TNull | TBool (b : bool) | TNum (text : string) | TStr (s : string)
| TBad.

(** A JSON text as the code reads it: its length in bytes, whether it is UTF-8,
    and the tokens of its content. *)
Record raw := mkRaw { raw_len : Z; raw_utf8 : bool; raw_tokens : list token }.

Definition noRaw : raw := mkRaw 0 true [].

(** [Decoder.More] *)
Definition more (ts : list token) : bool :=
  match ts with [] | TEndObj :: _ | TEndArr :: _ => false | _ => true end.

Definition depthLimit : Z := 32.
Definition nodeLimit : Z := 8192.
Definition frameLimit : Z := 256 * 1024.

(** The closure [walk], with its loop over the members of an object and the
    elements of an array; [nodes] is the counter the calls share. Every call and
    every turn of a loop takes a token, so one more than their number is fuel. *)
Fixpoint walk (fuel : nat) (depth nodes : Z) (ts : list token) : option (json * Z * list token) :=
  match fuel with
  | O => None
  | S fuel =>
    let nodes := nodes + 1 in
    if (depthLimit <? depth) || (nodeLimit <? nodes) then None else
    match ts with
    | TBeginObj :: ts => walkObject fuel depth nodes [] ts
    | TBeginArr :: ts => walkArray fuel depth nodes [] ts
    | TNull :: ts => Some (JNull, nodes, ts)
    | TBool b :: ts => Some (JBool b, nodes, ts)
    | TNum n :: ts => Some (JNum n, nodes, ts)
    | TStr s :: ts => Some (JStr s, nodes, ts)
    | TEndObj :: _ | TEndArr :: _ | TBad :: _ | [] => None
    end
  end
with walkObject (fuel : nat) (depth nodes : Z) (object : members) (ts : list token)
    : option (json * Z * list token) :=
  match fuel with
  | O => None
  | S fuel =>
    if more ts then
      match ts with
      | TStr key :: ts =>
        if has key object then None else
        match walk fuel (depth + 1) nodes ts with
        | Some (value, nodes, ts) => walkObject fuel depth nodes (object ++ [(key, value)]) ts
        | None => None
        end
      | _ => None
      end
    else match ts with TEndObj :: ts => Some (JObj object, nodes, ts) | _ => None end
  end
with walkArray (fuel : nat) (depth nodes : Z) (list : list json) (ts : Datatypes.list token)
    : option (json * Z * Datatypes.list token) :=
  match fuel with
  | O => None
  | S fuel =>
    if more ts then
      match walk fuel (depth + 1) nodes ts with
      | Some (value, nodes, ts) => walkArray fuel depth nodes (list ++ [value]) ts
      | None => None
      end
    else match ts with TEndArr :: ts => Some (JArr list, nodes, ts) | _ => None end
  end.

Definition ephemeralObject (text : raw) : option members :=
  if (frameLimit <? raw_len text) || negb (raw_utf8 text) then None else
  match walk (S (Datatypes.length (raw_tokens text))) 0 0 (raw_tokens text) with
  | Some (value, _, []) => asMap value
  | _ => None
  end.

(** ** The reference: an object, its tokens and the limits *)

Fixpoint tokensOf (v : json) : list token :=
  match v with
  | JNull => [TNull]
  | JBool b => [TBool b]
  | JNum n => [TNum n]
  | JStr s => [TStr s]
  | JArr l => TBeginArr :: flat_map tokensOf l ++ [TEndArr]
  | JObj o => TBeginObj :: flat_map (fun '(k, v) => TStr k :: tokensOf v) o ++ [TEndObj]
  end.

Definition total {A} (f : A → Z) (l : list A) : Z := foldr (fun a n => f a + n) 0 l.

Fixpoint nodesOf (v : json) : Z :=
  match v with
  | JArr l => 1 + total nodesOf l
  | JObj o => 1 + total (fun '(_, v) => nodesOf v) o
  | _ => 1
  end.

(** Nested at most [n] deep, and no object, at any depth, has a key twice. *)
Fixpoint shallow (n : Z) (v : json) : Prop :=
  0 ≤ n ∧
  match v with
  | JArr l => foldr (fun v P => shallow (n - 1) v ∧ P) True l
  | JObj o => foldr (fun '(_, v) P => shallow (n - 1) v ∧ P) True o
  | _ => True
  end.

Fixpoint distinctKeys (v : json) : Prop :=
  match v with
  | JArr l => foldr (fun v P => distinctKeys v ∧ P) True l
  | JObj o => NoDup o.*1 ∧ foldr (fun '(_, v) P => distinctKeys v ∧ P) True o
  | _ => True
  end.

Definition withinLimits (v : json) : Prop :=
  shallow depthLimit v ∧ nodesOf v ≤ nodeLimit ∧ distinctKeys v.

(** ** The decoder accepts exactly the reference *)

Lemma json_ind' (P : json → Prop) :
  P JNull → (∀ b, P (JBool b)) → (∀ n, P (JNum n)) → (∀ s, P (JStr s)) →
  (∀ l, Forall P l → P (JArr l)) → (∀ o : members, Forall (fun kv => P kv.2) o → P (JObj o)) →
  ∀ v, P v.
Proof.
  intros Hn Hb Hm Hs Ha Ho. fix IH 1. intros [| | | |l|o].
  - exact Hn.
  - apply Hb.
  - apply Hm.
  - apply Hs.
  - apply Ha. induction l as [|v l IHl]; constructor; [apply IH|apply IHl].
  - apply Ho. induction o as [|[k v] o IHo]; constructor; [apply IH|apply IHo].
Qed.

Lemma has_false key (o : members) : has key o = false ↔ key ∉ o.*1.
Proof.
  unfold has. induction o as [|[k v] o IH]; simpl.
  { split; [intros _; apply not_elem_of_nil|done]. }
  rewrite not_elem_of_cons. destruct (str_eqb k key) eqn:E; bools; [naive_solver|].
  rewrite IH. naive_solver.
Qed.

Lemma total_pos {A} (f : A → Z) l : (∀ a, 0 ≤ f a) → 0 ≤ total f l.
Proof. intros H. induction l as [|a l IH]; simpl; [lia|]. specialize (H a). lia. Qed.

Lemma nodesOf_pos v : 0 ≤ nodesOf v.
Proof.
  induction v as [| | | |l IH|o IH] using json_ind'; simpl; try lia.
  - enough (0 ≤ total nodesOf l) by lia. induction IH; simpl; lia.
  - enough (0 ≤ total (fun '(_, v) => nodesOf v) o) by lia.
    induction IH as [|[k v] o]; simpl in *; lia.
Qed.

(** What a run of [walk] has read, counted and checked. *)
Definition walked (depth nodes : Z) (ts : list token) (r : json * Z * list token) : Prop :=
  let '(v, nodes', ts') := r in
  ts = tokensOf v ++ ts' ∧ nodes' = nodes + nodesOf v ∧ nodes' ≤ nodeLimit ∧
  shallow (depthLimit - depth) v ∧ distinctKeys v.

(** The same for the members read so far. *)
Definition walkedObject depth nodes (object : members) ts (r : json * Z * list token) : Prop :=
  let '(v, nodes', ts') := r in
  ∃ o, v = JObj (object ++ o) ∧
    ts = flat_map (fun '(k, v) => TStr k :: tokensOf v) o ++ TEndObj :: ts' ∧
    nodes' = nodes + total (fun '(_, v) => nodesOf v) o ∧ nodes' ≤ nodeLimit ∧
    foldr (fun '(_, v) P => shallow (depthLimit - depth - 1) v ∧ P) True o ∧
    NoDup (object ++ o).*1 ∧ foldr (fun '(_, v) P => distinctKeys v ∧ P) True o.

Definition walkedArray depth nodes (list : list json) ts (r : json * Z * Datatypes.list token) : Prop :=
  let '(v, nodes', ts') := r in
  ∃ l, v = JArr (list ++ l) ∧ ts = flat_map tokensOf l ++ TEndArr :: ts' ∧
    nodes' = nodes + total nodesOf l ∧ nodes' ≤ nodeLimit ∧
    foldr (fun v P => shallow (depthLimit - depth - 1) v ∧ P) True l ∧
    foldr (fun v P => distinctKeys v ∧ P) True l.

Lemma walk_sound_all fuel :
  (∀ depth nodes ts r, walk fuel depth nodes ts = Some r → walked depth nodes ts r) ∧
  (∀ depth nodes o ts r, walkObject fuel depth nodes o ts = Some r →
     nodes ≤ nodeLimit → NoDup o.*1 → walkedObject depth nodes o ts r) ∧
  (∀ depth nodes l ts r, walkArray fuel depth nodes l ts = Some r →
     nodes ≤ nodeLimit → walkedArray depth nodes l ts r).
Proof.
  induction fuel as [|fuel (IHw & IHo & IHa)]; [split_and!; discriminate|]. split_and!.
  - intros depth nodes ts [[v n'] ts'] H. simpl in H. cases_in H; [done|]. bools.
    destruct ts as [|[] ts]; simplify_eq; simpl; try (split_and!; simpl; auto; lia).
    + apply IHo in H as (o & -> & -> & -> & ? & ? & Hd & ?); [|lia|constructor]. simpl in *.
      split_and!; auto; try lia. by rewrite <- app_assoc.
    + apply IHa in H as (l & -> & -> & -> & ? & ? & ?); [|lia]. simpl in *.
      split_and!; auto; try lia. by rewrite <- app_assoc.
  - intros depth nodes o ts [[v n'] ts'] H Hn Hd. simpl in H. cases_in H.
    + destruct ts as [|[] ts]; try done. cases_in H; [done|]. cases_in H; [|done].
      destruct p as [[x n1] ts1]. apply IHw in Heqo0 as (-> & -> & ? & ? & ?).
      apply has_false in Heqb0.
      apply IHo in H as (o' & -> & -> & -> & ? & ? & Hd' & ?); [|lia|].
      2: { rewrite fmap_app. apply NoDup_app. split_and!; [done| |apply NoDup_singleton].
           intros k Hk ->%list_elem_of_singleton. done. }
      exists ((s, x) :: o'). rewrite <- app_assoc in *. simpl. split_and!; auto; try lia.
      * by rewrite <- !app_assoc.
      * by replace (depthLimit - depth - 1) with (depthLimit - (depth + 1)) by lia.
    + destruct ts as [|[] ts]; try done. simplify_eq. exists []. rewrite app_nil_r.
      split_and!; simpl; auto; lia.
  - intros depth nodes l ts [[v n'] ts'] H Hn. simpl in H. cases_in H.
    + cases_in H; [|done]. destruct p as [[x n1] ts1]. apply IHw in Heqo as (-> & -> & ? & ? & ?).
      apply IHa in H as (l' & -> & -> & -> & ? & ? & ?); [|lia].
      exists (x :: l'). rewrite <- app_assoc. simpl. split_and!; auto; try lia.
      * by rewrite <- !app_assoc.
      * by replace (depthLimit - depth - 1) with (depthLimit - (depth + 1)) by lia.
    + destruct ts as [|[] ts]; try done. simplify_eq. exists []. rewrite app_nil_r.
      split_and!; simpl; auto; lia.
Qed.

Lemma more_tokensOf v ts : more (tokensOf v ++ ts) = true.
Proof. by destruct v. Qed.

(** [walk] reads back [v], whatever follows it. *)
Definition reads (v : json) : Prop := ∀ fuel depth nodes ts,
  (Datatypes.length (tokensOf v) < fuel)%nat → shallow (depthLimit - depth) v →
  nodes + nodesOf v ≤ nodeLimit → distinctKeys v →
  walk fuel depth nodes (tokensOf v ++ ts) = Some (v, nodes + nodesOf v, ts).

Lemma walkObject_complete depth (o : members) :
  Forall (fun kv => reads kv.2) o → ∀ fuel nodes acc ts,
  (Datatypes.length (flat_map (fun '(k, v) => TStr k :: tokensOf v) o) < fuel)%nat →
  foldr (fun '(_, v) P => shallow (depthLimit - depth - 1) v ∧ P) True o →
  nodes + total (fun '(_, v) => nodesOf v) o ≤ nodeLimit →
  NoDup (acc ++ o).*1 → foldr (fun '(_, v) P => distinctKeys v ∧ P) True o →
  walkObject fuel depth nodes acc (flat_map (fun '(k, v) => TStr k :: tokensOf v) o ++ TEndObj :: ts) =
  Some (JObj (acc ++ o), nodes + total (fun '(_, v) => nodesOf v) o, ts).
Proof.
  induction 1 as [|[k v] o Hv _ IH]; intros fuel nodes acc ts Hf Hs Hn Hd Hk; simpl in *.
  - destruct fuel; [lia|]. simpl. by rewrite app_nil_r, Z.add_0_r.
  - destruct fuel as [|fuel]; [lia|]. destruct Hs, Hk. rewrite length_app in Hf.
    assert (0 ≤ total (fun '(_, v) => nodesOf v) o) by (apply total_pos; intros []; apply nodesOf_pos).
    simpl. assert (has k acc = false) as ->.
    { apply has_false. rewrite fmap_app in Hd. apply NoDup_app in Hd as (_ & Hd & _).
      intros Hin. apply (Hd k Hin). simpl. left. }
    rewrite <- app_assoc, Hv; [|lia| |lia|done].
    2: { by replace (depthLimit - (depth + 1)) with (depthLimit - depth - 1) by lia. }
    rewrite IH; [|lia|done|lia|by rewrite <- app_assoc|done].
    rewrite <- app_assoc. simpl. by rewrite Z.add_assoc.
Qed.

Lemma walkArray_complete depth (l : list json) :
  Forall reads l → ∀ fuel nodes acc ts,
  (S (Datatypes.length (flat_map tokensOf l)) < fuel)%nat →
  foldr (fun v P => shallow (depthLimit - depth - 1) v ∧ P) True l →
  nodes + total nodesOf l ≤ nodeLimit → foldr (fun v P => distinctKeys v ∧ P) True l →
  walkArray fuel depth nodes acc (flat_map tokensOf l ++ TEndArr :: ts) =
  Some (JArr (acc ++ l), nodes + total nodesOf l, ts).
Proof.
  induction 1 as [|v l Hv _ IH]; intros fuel nodes acc ts Hf Hs Hn Hk; simpl in *.
  - destruct fuel; [lia|]. simpl. by rewrite app_nil_r, Z.add_0_r.
  - destruct fuel as [|fuel]; [lia|]. destruct Hs, Hk. rewrite length_app in Hf.
    assert (0 ≤ total nodesOf l) by (apply total_pos, nodesOf_pos).
    assert (0 < Datatypes.length (tokensOf v))%nat by (destruct v; simpl; lia).
    rewrite <- app_assoc. simpl. rewrite more_tokensOf, Hv; [|lia| |lia|done].
    2: { by replace (depthLimit - (depth + 1)) with (depthLimit - depth - 1) by lia. }
    rewrite IH; [|lia|done|lia|done]. rewrite <- app_assoc. simpl. by rewrite Z.add_assoc.
Qed.

Lemma walk_complete v : reads v.
Proof.
  induction v as [| | | |l IH|o IH] using json_ind'; intros fuel depth nodes ts Hf Hs Hn Hd;
    (destruct fuel as [|fuel]; [simpl in Hf; lia|]); simpl in Hs; destruct Hs as [? Hs];
    simpl in Hn, Hd, Hf; try (rewrite length_app in Hf; simpl in Hf);
    try assert (0 ≤ total nodesOf l) by (apply total_pos, nodesOf_pos);
    try assert (0 ≤ total (fun '(_, v) => nodesOf v) o)
      by (apply total_pos; intros []; apply nodesOf_pos);
    simpl; rewrite (proj2 (Z.ltb_ge depthLimit depth)), (proj2 (Z.ltb_ge nodeLimit (nodes + 1))) by lia;
    simpl; try done.
  - rewrite <- app_assoc. simpl.
    rewrite walkArray_complete; [by rewrite Z.add_assoc|done|lia|done|lia|done].
  - destruct Hd. rewrite <- app_assoc. simpl.
    rewrite walkObject_complete; [by rewrite Z.add_assoc|done|lia|done|lia|done|done].
Qed.

(** C18. The bounded decoder accepts exactly the texts of at most 256 KiB of valid
    UTF-8 whose tokens spell one object nested at most 32 deep, of at most 8192
    values and with no key twice in any object, and it returns that object: it
    loses, merges and reorders nothing, and never runs out of fuel. *)
Theorem ephemeralObject_exact (text : raw) (o : members) :
  ephemeralObject text = Some o ↔
  raw_len text ≤ frameLimit ∧ raw_utf8 text = true ∧
  raw_tokens text = tokensOf (JObj o) ∧ withinLimits (JObj o).
Proof.
  unfold ephemeralObject, withinLimits. split.
  - intros H. cases_in H; [done|]. bools. cases_in H; [|done]. destruct p as [[v n] [|]]; [|done].
    apply (proj1 (walk_sound_all _)) in Heqo0 as (-> & -> & ? & Hs & ?). rewrite app_nil_r.
    destruct v; try done. simpl in H. simplify_eq. rewrite Z.sub_0_r in Hs. split_and!; auto; lia.
  - intros (Hl & Hu & Ht & Hs & Hn & Hd). rewrite (proj2 (Z.ltb_ge _ _)), Hu by done. cbn [negb orb].
    rewrite Ht. pose proof (walk_complete (JObj o) (S (Datatypes.length (tokensOf (JObj o)))) 0 0 []) as Hw.
    rewrite app_nil_r in Hw. rewrite Hw; [done|lia|by rewrite Z.sub_0_r|lia|done].
Qed.
