(* ===== verification/TurnContext.v ===== *)
(** * The context of a turn

    [src/codex/turn_context.go]: the one [turn_context] record of a turn in the
    rollout of its thread, checked against the policies that are known. The
    structs of the code are decoded as [encoding/json] does it: the names of fields
    match without regard to case, a later member replaces an earlier one, and null leaves a
    string as it was; a key of a map counts as it last appears. *)
From Stdlib Require Import Ascii String.
From S2P Require Import Prelude GoStd GoPath GoValue RolloutFile RolloutRead EphemeralJson.
Open Scope Z_scope.
Open Scope codex_scope.

(** ** [encoding/json] *)

(** A [json.RawMessage] takes null too; [None] is the empty message. *)
Definition rawField (name : string) (o : members) : option json := last (fieldsNamed name o).
(** A struct of one string. *)
Definition nestedField (name inner : string) (o : members) : option string :=
  foldl (fun acc v =>
    match acc, v with
    | Some _, JObj o => foldl intoString acc (fieldsNamed inner o)
    | Some s, JNull => Some s
    | _, _ => None
    end) (Some "") (fieldsNamed name o).

(** A struct is decoded from an object or from null. *)
Definition structOf (raw : option json) : option members :=
  match raw with
  | Some (JObj o) => Some o
  | Some JNull => Some []
  | _ => None
  end.

Definition unmarshalString (raw : option json) : option string := match raw with Some v => intoString (Some "") v | None => None end.
Definition goMap {A} (l : list (string * A)) : gmap string A := list_to_map (rev l).
Definition unmarshalMap (raw : option json) : option (gmap string json) := goMap <$> structOf raw.

(** [map[string]map[string]json.RawMessage]: null is a nil map. *)
Definition innerMap (kv : string * json) : option (string * option (gmap string json)) :=
  match kv.2 with
  | JObj o => Some (kv.1, Some (goMap o))
  | JNull => Some (kv.1, None)
  | _ => None
  end.
Definition unmarshalMaps (raw : option json) : option (gmap string (option (gmap string json))) :=
  match structOf raw with
  | Some o => goMap <$> mapM innerMap o
  | None => None
  end.

(** [[]string], [[]map[string]json.RawMessage] and [map[string]string]; a nil slice is [None]. *)
Definition unmarshalStrings (raw : option json) : option (option (list string)) :=
  match raw with
  | Some (JArr l) => Some <$> mapM (intoString (Some "")) l
  | Some JNull => Some None
  | _ => None
  end.
Definition unmarshalEntries (raw : option json) : option (option (list (gmap string json))) :=
  match raw with
  | Some (JArr l) => Some <$> mapM (fun v => unmarshalMap (Some v)) l
  | Some JNull => Some None
  | _ => None
  end.
Definition unmarshalStringMap (raw : option json) : option (gmap string string) :=
  match structOf raw with
  | Some o => goMap <$> mapM (fun kv => (fun s => (kv.1, s)) <$> intoString (Some "") kv.2) o
  | None => None
  end.

(** [json.Marshal] of a map sorts its keys; what a message holds stays as it is. *)
Definition memberLe (a b : string * json) : Prop := String.leb a.1 b.1 = true.
#[export] Instance memberLe_dec : RelDecision memberLe.
Proof. intros a b. unfold memberLe. apply _. Defined.
Definition sortedMembers (m : gmap string json) : members := merge_sort memberLe (map_to_list m).
Definition marshalMap (m : gmap string json) : json := JObj (sortedMembers m).

Definition nativeBool (raw : json) : bool := match raw with JBool _ => true | _ => false end.

(** The first error among the members of a map, in the order of its keys; the code visits them in
    no fixed order, and so may report another. *)
Definition firstError (check : string → json → option err) (m : gmap string json) : option err :=
  first_some (fun kv => check kv.1 kv.2) (sortedMembers m).

(** ** Policies *)

Definition approvalWords : list string := ["untrusted"; "on-request"; "never"].
Definition approvalRequired : list string := ["mcp_elicitations"; "rules"; "sandbox_approval"].
Definition approvalFlags : list string := ["mcp_elicitations"; "rules"; "sandbox_approval"; "request_permissions"; "skill_approval"].

Definition checkFlag (key : string) (flag : json) : option err :=
  if negb (nativeBool flag) || negb (str_in key approvalFlags) then Some (EMsg "unsupported native approval policy") else None.

Definition validatedNativeApproval (raw : option json) : res err json :=
  match (match unmarshalString raw with Some s => if str_in s approvalWords then Some s else None | None => None end) with
  | Some scalar => Ok (JStr scalar)
  | None =>
    let unsupported := Err (EMsg "unsupported native approval policy") in
    match unmarshalMaps raw with
    | None => unsupported
    | Some value =>
      match value !! "granular" with
      | Some (Some flags) =>
        if negb (base.size value =? 1)%nat then unsupported else
        if negb (forallb (fun key => bool_decide (is_Some (flags !! key))) approvalRequired)
        then Err (EMsg "incomplete native approval policy") else
        match firstError checkFlag flags with
        | Some e => Err e
        | None => Ok (JObj [("granular", marshalMap flags)])
        end
      | _ => unsupported
      end
    end
  end.

Definition sandboxFields (kind : string) : option (list string) :=
  if str_eqb kind "danger-full-access" then Some ["type"]
  else if str_eqb kind "read-only" then Some ["type"; "network_access"]
  else if str_eqb kind "external-sandbox" then Some ["type"; "network_access"]
  else if str_eqb kind "workspace-write" then
    Some ["type"; "writable_roots"; "network_access"; "exclude_slash_tmp"; "exclude_tmpdir_env_var"]
  else None.

Definition networkWords : list string := ["restricted"; "enabled"].
Definition rootLimit : nat := 256.

Definition checkSandboxField (kind : string) (allowed : list string) (key : string) (field : json) : option err :=
  if negb (str_in key allowed) then Some (EMsg "unsupported native sandbox policy field") else
  if str_eqb key "network_access" then
    if str_eqb kind "external-sandbox" then
      match unmarshalString (Some field) with
      | Some s => if str_in s networkWords then None else Some (EMsg "invalid native network policy")
      | None => Some (EMsg "invalid native network policy")
      end
    else if nativeBool field then None else Some (EMsg "invalid native network policy")
  else if str_in key ["exclude_slash_tmp"; "exclude_tmpdir_env_var"] then
    if nativeBool field then None else Some (EMsg "invalid native sandbox flag")
  else if str_eqb key "writable_roots" then
    match unmarshalStrings (Some field) with
    | Some (Some roots) =>
      if (rootLimit <? Datatypes.length roots)%nat then Some (EMsg "invalid native sandbox roots")
      else if forallb canonicalPath roots then None else Some (EMsg "invalid native sandbox root")
    | _ => Some (EMsg "invalid native sandbox roots")
    end
  else None.

Definition validatedNativeSandbox (raw : option json) : res err json :=
  match unmarshalMap raw with
  | None => Err (EMsg "unsupported native sandbox policy")
  | Some value =>
    match unmarshalString (value !! "type") with
    | None => Err (EMsg "unsupported native sandbox policy")
    | Some kind =>
      match sandboxFields kind with
      | None => Err (EMsg "unsupported native sandbox policy")
      | Some allowed =>
        match firstError (checkSandboxField kind allowed) value with
        | Some e => Err e
        | None => Ok (marshalMap value)
        end
      end
    end
  end.

(** ** Permission profiles *)

Definition entryKeys : list string := ["path"; "access"; "missing_path_behavior"].
Definition specialKinds : list string := ["root"; "slash_tmp"; "tmpdir"].
Definition pathLimit : Z := 4096.
Definition entryLimit : nat := 256.
Definition profileLimit : Z := 256 * 1024.

Definition wordIn (raw : option json) (words : list string) : bool :=
  match unmarshalString raw with Some s => str_in s words | None => false end.

Definition checkPermissionPath (raw : option json) : option err :=
  match unmarshalMap raw with
  | None => Some (EMsg "invalid native permission path")
  | Some path =>
    if negb (base.size path =? 2)%nat then Some (EMsg "invalid native permission path") else
    match unmarshalString (path !! "type") with
    | None => Some (EMsg "invalid native permission path type")
    | Some kind =>
      if str_eqb kind "path" then
        match unmarshalString (path !! "path") with
        | Some absolute => if (len absolute <=? pathLimit) && canonicalPath absolute then None
                           else Some (EMsg "invalid native absolute permission path")
        | None => Some (EMsg "invalid native absolute permission path")
        end
      else if str_eqb kind "special" then
        match unmarshalStringMap (path !! "value") with
        | Some special => if (base.size special =? 1)%nat && str_in (default "" (special !! "kind")) specialKinds then None
                          else Some (EMsg "unsupported native special permission path")
        | None => Some (EMsg "unsupported native special permission path")
        end
      else Some (EMsg "unsupported native permission path type")
    end
  end.

Definition checkEntry (entry : gmap string json) : option err :=
  if (base.size entry <? 2)%nat || (3 <? base.size entry)%nat then Some (EMsg "invalid native filesystem entry") else
  if negb (forallb (fun kv => str_in kv.1 entryKeys) (map_to_list entry)) then Some (EMsg "unsupported native filesystem entry") else
  if negb (wordIn (entry !! "access") ["read"; "write"]) then Some (EMsg "invalid native filesystem access") else
  if match entry !! "missing_path_behavior" with Some missing => negb (wordIn (Some missing) ["skip"]) | None => false end
  then Some (EMsg "unsupported native missing-path policy") else
  checkPermissionPath (entry !! "path").

(** The file system of a managed profile. *)
Definition checkFileSystem (raw : option json) : option err :=
  match unmarshalMap raw with
  | None => Some (EMsg "invalid native filesystem policy")
  | Some fs =>
    match unmarshalString (fs !! "type") with
    | None => Some (EMsg "invalid native filesystem policy type")
    | Some kind =>
      if str_eqb kind "unrestricted" && (base.size fs =? 1)%nat then None else
      if negb (str_eqb kind "restricted") || negb (base.size fs =? 2)%nat then Some (EMsg "unsupported native filesystem policy") else
      match unmarshalEntries (fs !! "entries") with
      | Some (Some entries) =>
        if (entryLimit <? Datatypes.length entries)%nat then Some (EMsg "invalid native filesystem entries") else first_some checkEntry entries
      | _ => Some (EMsg "invalid native filesystem entries")
      end
    end
  end.

(** [length] is that of the message. *)
Definition validatedNativePermissionProfile (raw : option json) (length : Z) : res err (option json) :=
  match raw with
  | None | Some JNull => Ok None
  | Some _ =>
    if profileLimit <? length then Err (EMsg "native permission profile exceeds limit") else
    match unmarshalMap raw with
    | None => Err (EMsg "invalid native permission profile")
    | Some value =>
      match unmarshalString (value !! "type") with
      | None => Err (EMsg "invalid native permission profile type")
      | Some kind =>
        if str_eqb kind "disabled" && (base.size value =? 1)%nat then Ok (Some (marshalMap value)) else
        if negb (str_eqb kind "managed") || negb (base.size value =? 3)%nat then Err (EMsg "unsupported native permission profile") else
        if negb (wordIn (value !! "network") networkWords) then Err (EMsg "invalid native permission network policy") else
        match checkFileSystem (value !! "file_system") with
        | Some e => Err e
        | None => Ok (Some (marshalMap value))
        end
      end
    end
  end.

(** ** Contexts *)

(** How a line is written, as far as it matters: the length of the permission
    profile in its payload, and the bytes [json.Marshal] makes of the sandbox
    policy and of the profile, in which strings stay as they were spelled. (An
    approval policy is a word or flags, marshalled in one way only.) *)
Record spelling := mkSpelling { sp_profileLength : Z; sp_sandbox : bytes; sp_profile : bytes }.

(** A policy in JSON is kept as the value it spells, and with its bytes where one
    value has several spellings. *)
Record TurnContext := mkTurnContext {
  tc_ThreadID : string; tc_TurnID : string; tc_Cwd : string; tc_Model : string; tc_ReasoningEffort : string; tc_CollaborationMode : string;
  tc_ApprovalPolicy : json; tc_SandboxPolicy : json; tc_ApprovalsReviewer : string; tc_PermissionProfile : option json;
  tc_SandboxBytes : bytes; tc_ProfileBytes : bytes }.

Definition efforts : list string := ["none"; "minimal"; "low"; "medium"; "high"; "xhigh"; "max"].
Definition modes : list string := ["default"; "plan"].
Definition reviewers : list string := ["user"; "auto_review"; "guardian_subagent"].
Definition modelLimit : Z := 4096.

Definition projectTurnContext (raw : option json) (spelled : spelling) (threadID turnID cwd : string) : res err TurnContext :=
  let unsupported := Err (EMsg "incomplete or unsupported native turn context") in
  match structOf raw with
  | None => unsupported
  | Some o =>
    match stringField "cwd" o, stringField "model" o, stringField "effort" o, nestedField "collaboration_mode" "mode" o, stringField "approvals_reviewer" o with
    | Some payloadCwd, Some model, Some effort, Some mode, Some reviewer =>
      if negb (str_eqb payloadCwd cwd) || is_empty model || (modelLimit <? len model) || negb (str_in effort efforts) || negb (str_in mode modes)
         || negb (str_in reviewer reviewers) then unsupported else
      let? approval := validatedNativeApproval (rawField "approval_policy" o) in
      let? sandbox := validatedNativeSandbox (rawField "sandbox_policy" o) in
      let? profile := validatedNativePermissionProfile (rawField "permission_profile" o) (sp_profileLength spelled) in
      Ok (mkTurnContext threadID turnID cwd model effort mode approval sandbox reviewer profile
            (sp_sandbox spelled) (match profile with Some _ => sp_profile spelled | None => [] end))
    | _, _, _, _, _ => unsupported
    end
  end.

#[export] Instance json_eq_dec : EqDecision json.
Proof.
  unfold EqDecision, Decision. fix go 1. intros v w.
  destruct v as [| |m|s|l|o], w as [| |m'|s'|l'|o']; try (right; discriminate).
  - by left.
  - destruct (decide (b = b0)); [left|right]; congruence.
  - destruct (decide (m = m')); [left|right]; congruence.
  - destruct (decide (s = s')); [left|right]; congruence.
  - destruct (@list_eq_dec json go l l'); [left|right]; congruence.
  - destruct (@list_eq_dec (string * json) (@prod_eq_dec string _ json go) o o'); [left|right]; congruence.
Defined.
#[export] Instance context_eq_dec : EqDecision TurnContext.
Proof. solve_decision. Defined.

(** ** The rollout *)

Section Rollout.
(** The JSON of a line, with what matters of the way it is written. *)
Context (parseLine : bytes → option (json * spelling)).

(** What the records before told: whether the session is the thread's, and the context found. *)
Record contextScan := mkContextScan { cs_matched : bool; cs_found : option TurnContext }.

(** One record. [reflect.DeepEqual] compares the bytes of the policies. *)
Definition contextRecord (line : bytes) (threadID turnID cwd : string) (s : contextScan) : res err contextScan :=
  match parseLine line with
  | None => Err (EMsg "invalid native rollout record")
  | Some (v, spelled) =>
    match structOf (Some v) with
    | None => Err (EMsg "invalid native rollout record")
    | Some o =>
      match stringField "type" o with
      | None => Err (EMsg "invalid native rollout record")
      | Some type =>
        let payload := rawField "payload" o in
        if str_eqb type "session_meta" then
          match structOf payload with
          | None => Err (EMsg "invalid native session metadata")
          | Some session =>
            match stringField "ID" session, stringField "Cwd" session with
            | Some id, Some sessionCwd =>
              if str_eqb id threadID && str_eqb sessionCwd cwd then Ok (mkContextScan true (cs_found s))
              else if cs_matched s then Err (EMsg "native rollout changed session identity") else Ok s
            | _, _ => Err (EMsg "invalid native session metadata")
            end
          end
        else if negb (str_eqb type "turn_context") || negb (cs_matched s) then Ok s else
        match structOf payload ≫= stringField "turn_id" with
        | None => Err (EMsg "invalid native turn context identity")
        | Some id =>
          if negb (str_eqb id turnID) then Ok s else
          let? value := projectTurnContext payload spelled threadID turnID cwd in
          match cs_found s with
          | Some found => if bool_decide (found = value) then Ok (mkContextScan (cs_matched s) (Some value))
                          else Err (EMsg "conflicting exact native turn contexts")
          | None => Ok (mkContextScan (cs_matched s) (Some value))
          end
        end
      end
    end
  end.

(** Records end in a newline; what follows the last one is an error. A cancelled
    context ends the scan at the next record. *)
Fixpoint contextRecords (c : ctx) (lines : list bytes) (rest : bytes) (threadID turnID cwd : string) (s : contextScan) : res err contextScan :=
  match lines with
  | [] =>
    if tooLong readLimit rest then Err (EMsg "bufio.Scanner: token too long") else
    match rest with
    | [] => Ok s
    | _ => Err (EMsg "native rollout has a partial final record")
    end
  | line :: lines =>
    if tooLong readLimit line then Err (EMsg "bufio.Scanner: token too long") else
    match ctxErr c with
    | None => Err ECanceled
    | Some c => let? s := contextRecord line threadID turnID cwd s in contextRecords c lines rest threadID turnID cwd s
    end
  end.

(** [later] is the file at the path when the scan is over. *)
Definition readExactTurnContext (d : disk) (later : option fileNode) (c : ctx) (path threadID turnID cwd : string) : res err TurnContext :=
  if negb (canonicalPath cwd) then Err (EMsg "invalid trusted turn directory") else
  let? before := openRolloutFile d path in
  let '(lines, rest) := splitLines (fn_content before) in
  let? s := contextRecords c lines rest threadID turnID cwd (mkContextScan false None) in
  match later with
  | None => Err (EMsg "stat")
  | Some after =>
    if negb (sameFile (stat before) (stat after)) || negb (nodeSize before =? nodeSize after) || negb (fn_mtime before =? fn_mtime after)
    then Err (EMsg "native rollout changed during context read") else
    match cs_found s with
    | Some found => if cs_matched s then Ok found else Err (EMsg "exact native turn context is unavailable")
    | None => Err (EMsg "exact native turn context is unavailable")
    end
  end.

(** [ReadTurnContext] from the metadata of the thread: its path and its directory. *)
Definition ReadTurnContext (d : disk) (later : option fileNode) (c : ctx) (metadata : res err (option string * string)) (threadID turnID : string)
    : res err TurnContext :=
  let? thread := metadata in
  match thread.1 with
  | Some path => if is_empty turnID then Err (EMsg "exact turn context is unavailable")
                 else readExactTurnContext d later c path threadID turnID thread.2
  | None => Err (EMsg "exact turn context is unavailable")
  end.

End Rollout.
