(* ===== verification/TurnContextFacts.v ===== *)
(** * What a turn context can say

    A context that is read is one of few forms: [turn_context_typed]. The forms are
    the grammars of the policies; the permission profile keeps what the code was
    given inside it, so its grammar holds of the profile as Go reads it, where the
    last of repeated keys counts ([lastKeys]), and of the profile itself when it has
    no key twice. *)
From Stdlib Require Import Ascii String.
From S2P Require Import Prelude GoStd GoPath GoValue RolloutFile RolloutRead EphemeralJson TurnContext.
Open Scope Z_scope.

(** ** Grammars *)

Inductive approvalOk : json → Prop :=
| ApprovalWord s : s ∈ approvalWords → approvalOk (JStr s)
| ApprovalFlags (flags : members) :
    NoDup flags.*1 → (∀ key, key ∈ approvalRequired → key ∈ flags.*1) →
    Forall (fun kv => kv.1 ∈ approvalFlags ∧ ∃ b, kv.2 = JBool b) flags → approvalOk (JObj [("granular", JObj flags)]).

Definition rootsOk (v : json) : Prop :=
  ∃ roots, v = JArr (JStr <$> roots) ∧ (Datatypes.length roots ≤ rootLimit)%nat ∧ Forall (fun root => canonicalPath root = true) roots.

Inductive sandboxFieldOk (kind : string) : string → json → Prop :=
| FieldType : sandboxFieldOk kind "type" (JStr kind)
| FieldNetworkFlag b : kind ≠ "external-sandbox" → sandboxFieldOk kind "network_access" (JBool b)
| FieldNetworkWord s : kind = "external-sandbox" → s ∈ networkWords → sandboxFieldOk kind "network_access" (JStr s)
| FieldExclude key b : key ∈ ["exclude_slash_tmp"; "exclude_tmpdir_env_var"] → sandboxFieldOk kind key (JBool b)
| FieldRoots v : rootsOk v → sandboxFieldOk kind "writable_roots" v.

Inductive sandboxOk : json → Prop :=
| Sandbox kind allowed (o : members) :
    sandboxFields kind = Some allowed → NoDup o.*1 → ("type", JStr kind) ∈ o →
    Forall (fun kv => kv.1 ∈ allowed ∧ sandboxFieldOk kind kv.1 kv.2) o → sandboxOk (JObj o).

Inductive pathOk : json → Prop :=
| PathAbsolute (o : members) path :
    o ≡ₚ [("type", JStr "path"); ("path", JStr path)] → len path ≤ pathLimit → canonicalPath path = true → pathOk (JObj o)
| PathSpecial (o : members) kind :
    o ≡ₚ [("type", JStr "special"); ("value", JObj [("kind", JStr kind)])] → kind ∈ specialKinds → pathOk (JObj o).

Inductive permissionEntryOk : json → Prop :=
| PermissionEntry (o : members) access path missing :
    o ≡ₚ [("access", JStr access); ("path", path)] ++ missing → access ∈ ["read"; "write"] → pathOk path →
    missing = [] ∨ missing = [("missing_path_behavior", JStr "skip")] → permissionEntryOk (JObj o).

Inductive fileSystemOk : json → Prop :=
| FilesUnrestricted : fileSystemOk (JObj [("type", JStr "unrestricted")])
| FilesRestricted (o : members) entries :
    o ≡ₚ [("type", JStr "restricted"); ("entries", JArr entries)] → (Datatypes.length entries ≤ entryLimit)%nat →
    Forall permissionEntryOk entries → fileSystemOk (JObj o).

Inductive profileOk : json → Prop :=
| ProfileDisabled : profileOk (JObj [("type", JStr "disabled")])
| ProfileManaged (o : members) network fs :
    o ≡ₚ [("type", JStr "managed"); ("network", JStr network); ("file_system", fs)] → network ∈ networkWords → fileSystemOk fs → profileOk (JObj o).

(** A value as a Go map reads it: of a key that is there several times, the last. *)
Fixpoint keepLast {A} (o : list (string * A)) : list (string * A) :=
  match o with
  | [] => []
  | kv :: o => if str_in kv.1 o.*1 then keepLast o else kv :: keepLast o
  end.
Fixpoint lastKeys (v : json) : json :=
  match v with
  | JArr l => JArr (map lastKeys l)
  | JObj o => JObj (keepLast (map (fun kv => (kv.1, lastKeys kv.2)) o))
  | _ => v
  end.

(** ** Maps *)

Lemma firstError_none check m : firstError check m = None → ∀ k v, m !! k = Some v → check k v = None.
Proof.
  intros H k v Hk. assert ((k, v) ∈ sortedMembers m) as Hin by (unfold sortedMembers; rewrite merge_sort_Permutation; by apply elem_of_map_to_list).
  revert H Hin. unfold firstError. induction (sortedMembers m) as [|[k' v'] l IH]; intros H Hin; [by apply elem_of_nil in Hin|]. simpl in H.
  destruct (check k' v') eqn:E; [done|]. apply elem_of_cons in Hin as [Hin|Hin]; [by simplify_eq|by apply IH].
Qed.

Lemma first_some_none {A B} (f : A → option B) l : first_some f l = None → Forall (fun a => f a = None) l.
Proof. induction l as [|a l IH]; [constructor|]. simpl. destruct (f a) eqn:E; [done|]. intros H. constructor; auto. Qed.

Lemma sorted_nodup m : NoDup (sortedMembers m).*1.
Proof. unfold sortedMembers. rewrite merge_sort_Permutation. apply NoDup_fst_map_to_list. Qed.

Lemma sorted_in m k v : (k, v) ∈ sortedMembers m ↔ m !! k = Some v.
Proof. unfold sortedMembers. rewrite merge_sort_Permutation. apply elem_of_map_to_list. Qed.

Lemma sorted_length m : Datatypes.length (sortedMembers m) = base.size m.
Proof. unfold sortedMembers. rewrite merge_sort_Permutation. apply length_map_to_list. Qed.

(** A map of as many members as are known of it has no others. *)
Lemma sorted_exact m l :
  NoDup l.*1 → Forall (fun kv => m !! kv.1 = Some kv.2) l → base.size m = Datatypes.length l → sortedMembers m ≡ₚ l.
Proof.
  intros Hnd Hall Hsize. symmetry. apply submseteq_length_Permutation; [|rewrite sorted_length; lia].
  apply NoDup_submseteq; [by eapply NoDup_fmap_1|]. intros [k v] Hin. apply sorted_in. rewrite Forall_forall in Hall. by apply (Hall (k, v)).
Qed.

Lemma goMap_nodup {A} (o : list (string * A)) : NoDup o.*1 → goMap o = list_to_map o.
Proof.
  intros Hnd. unfold goMap. apply list_to_map_proper; [|symmetry; apply Permutation_rev].
  by rewrite (Permutation_map fst (Permutation_sym (Permutation_rev o))).
Qed.

Lemma goMap_exact (o l : members) :
  NoDup o.*1 → NoDup l.*1 → Forall (fun kv => goMap o !! kv.1 = Some kv.2) l → base.size (goMap o) = Datatypes.length l → o ≡ₚ l.
Proof.
  intros Ho Hl Hall Hsize. rewrite <- (sorted_exact _ _ Hl Hall Hsize). unfold sortedMembers.
  rewrite merge_sort_Permutation, goMap_nodup by done. symmetry. by apply map_to_list_to_map.
Qed.

(** ** The last of repeated keys *)

Lemma keepLast_keys {A} (o : list (string * A)) k : k ∈ (keepLast o).*1 ↔ k ∈ o.*1.
Proof.
  induction o as [|[k' v] o IH]; [done|]. simpl. destruct (str_in k' o.*1) eqn:E; simpl; rewrite ?elem_of_cons, IH; [|done].
  apply str_in_true in E. split; [by right|]. by intros [->|?].
Qed.
Lemma keepLast_nodup {A} (o : list (string * A)) : NoDup (keepLast o).*1.
Proof.
  induction o as [|[k v] o IH]; [constructor|]. simpl. destruct (str_in k o.*1) eqn:E; [done|]. simpl.
  constructor; [|done]. rewrite keepLast_keys. by apply str_in_false.
Qed.
Lemma keepLast_distinct {A} (o : list (string * A)) : NoDup o.*1 → keepLast o = o.
Proof.
  induction o as [|[k v] o IH]; [done|]. simpl. rewrite NoDup_cons. intros [Hk Ho].
  rewrite (proj2 (str_in_false k o.*1)) by done. by rewrite IH.
Qed.
Lemma keepLast_map {A B} (f : A → B) (o : list (string * A)) :
  keepLast (map (fun kv => (kv.1, f kv.2)) o) = map (fun kv => (kv.1, f kv.2)) (keepLast o).
Proof.
  induction o as [|[k v] o IH]; [done|]. simpl.
  assert ((map (fun kv => (kv.1, f kv.2)) o).*1 = o.*1) as -> by (rewrite <- list_fmap_compose; done).
  destruct (str_in k o.*1); [done|]. simpl. by rewrite IH.
Qed.
Lemma goMap_cons {A} k (v : A) o : goMap ((k, v) :: o) = goMap o ∪ {[k := v]}.
Proof. unfold goMap. simpl. rewrite list_to_map_app. simpl. by rewrite insert_empty. Qed.
Lemma goMap_dom {A} (o : list (string * A)) k : is_Some (goMap o !! k) ↔ k ∈ o.*1.
Proof.
  induction o as [|[k' v] o IH]; [split; [by intros []|by intros ?%elem_of_nil]|].
  rewrite goMap_cons, lookup_union_is_Some, IH, lookup_singleton_is_Some. simpl. rewrite elem_of_cons. naive_solver.
Qed.
Lemma goMap_keepLast {A} (o : list (string * A)) : goMap (keepLast o) = goMap o.
Proof.
  induction o as [|[k v] o IH]; [done|]. simpl. rewrite goMap_cons. destruct (str_in k o.*1) eqn:E.
  - rewrite IH. apply str_in_true, goMap_dom in E as [w Hw]. apply map_eq. intros i. rewrite lookup_union.
    destruct (decide (i = k)) as [->|Hi]; [by rewrite Hw, lookup_singleton_eq|].
    rewrite lookup_singleton_ne by done. by destruct (goMap o !! i).
  - by rewrite goMap_cons, IH.
Qed.
Lemma goMap_map {A B} (f : A → B) (o : list (string * A)) : goMap (map (fun kv => (kv.1, f kv.2)) o) = f <$> goMap o.
Proof.
  induction o as [|[k v] o IH]; [symmetry; apply fmap_empty|]. simpl. by rewrite !goMap_cons, IH, map_fmap_union, map_fmap_singleton.
Qed.

Lemma lastKeys_map v : unmarshalMap (Some (lastKeys v)) = (fun m : gmap string json => lastKeys <$> m) <$> unmarshalMap (Some v).
Proof.
  destruct v as [| | | | |o]; try done. unfold unmarshalMap. simpl. by rewrite goMap_keepLast, goMap_map.
Qed.
Lemma lastKeys_string raw : unmarshalString (lastKeys <$> raw) = unmarshalString raw.
Proof. by destruct raw as [[]|]. Qed.
Lemma lastKeys_word raw words : wordIn (lastKeys <$> raw) words = wordIn raw words.
Proof. unfold wordIn. by rewrite lastKeys_string. Qed.
Lemma lastKeys_strings v m : unmarshalStringMap (Some v) = Some m → unmarshalStringMap (Some (lastKeys v)) = Some m.
Proof.
  destruct v as [| | | | |o]; try done. unfold unmarshalStringMap. simpl. intros (pairs & Hp & Hm)%fmap_Some. apply fmap_Some.
  exists (keepLast pairs). rewrite goMap_keepLast. split; [|done]. rewrite keepLast_map. clear Hm m. apply mapM_Some in Hp.
  apply mapM_Some. assert (pairs.*1 = o.*1) as Hk.
  { clear -Hp. induction Hp as [|[k x] [k' s] o pairs Hx _ IH]; [done|]. destruct x; simpl in Hx; try done; simplify_eq; simpl; by f_equal. }
  induction Hp as [|[k x] [k' s] o pairs Hx _ IH]; [constructor|]. simpl in Hk. injection Hk as -> Hk.
  change (pairs.*1 = o.*1) in Hk. cbn [keepLast fst]. rewrite Hk. destruct (str_in k o.*1); [by apply IH|]. constructor; [|by apply IH]. by destruct x.
Qed.

Lemma lastKeys_path raw : checkPermissionPath raw = None → checkPermissionPath (lastKeys <$> raw) = None.
Proof.
  destruct raw as [v|]; [|done]. unfold checkPermissionPath. simpl. rewrite lastKeys_map.
  destruct (unmarshalMap (Some v)) as [path|]; [|done]. simpl. rewrite map_size_fmap. destruct (negb _); [done|].
  rewrite !lookup_fmap, !lastKeys_string. destruct (unmarshalString (path !! "type")) as [kind|]; [|done].
  destruct (str_eqb kind "path"); [done|]. destruct (str_eqb kind "special"); [|done].
  destruct (path !! "value") as [w|]; [|done]. destruct (unmarshalStringMap (Some w)) as [m|] eqn:E; [|done].
  simpl. by rewrite (lastKeys_strings w m E).
Qed.
Lemma lastKeys_entry entry : checkEntry entry = None → checkEntry (lastKeys <$> entry) = None.
Proof.
  unfold checkEntry. rewrite map_size_fmap. destruct (_ || _); [done|].
  assert (forallb (fun kv => str_in kv.1 entryKeys) (map_to_list (lastKeys <$> entry)) =
          forallb (fun kv => str_in kv.1 entryKeys) (map_to_list entry)) as ->.
  { rewrite map_to_list_fmap. induction (map_to_list entry) as [|[k v] l IH]; [done|].
    cbn [fmap list_fmap forallb prod_map fst]. f_equal. exact IH. }
  destruct (negb _); [done|]. rewrite !lookup_fmap, lastKeys_word. destruct (negb _); [done|].
  assert (∀ missing, wordIn (Some (lastKeys missing)) ["skip"] = wordIn (Some missing) ["skip"]) as Hw
    by (intros; apply (lastKeys_word (Some _))).
  destruct (entry !! "missing_path_behavior") as [missing|]; simpl; [rewrite Hw; destruct (negb _); [done|]|]; apply lastKeys_path.
Qed.
Lemma lastKeys_entries v entries :
  unmarshalEntries (Some v) = Some (Some entries) → unmarshalEntries (Some (lastKeys v)) = Some (Some ((fun m : gmap string json => lastKeys <$> m) <$> entries)).
Proof.
  destruct v as [| | | |l|]; try done. unfold unmarshalEntries. simpl. intros (entries' & H & [= <-])%fmap_Some. apply fmap_Some.
  eexists. split; [|done]. apply mapM_Some in H. apply mapM_Some. induction H as [|x e l entries' Hx _ IH]; [constructor|].
  simpl. constructor; [|done]. by rewrite lastKeys_map, Hx.
Qed.
Lemma lastKeys_files raw : checkFileSystem raw = None → checkFileSystem (lastKeys <$> raw) = None.
Proof.
  destruct raw as [v|]; [|done]. unfold checkFileSystem. simpl. rewrite lastKeys_map.
  destruct (unmarshalMap (Some v)) as [fs|]; [|done]. simpl. rewrite !lookup_fmap, lastKeys_string, map_size_fmap.
  destruct (unmarshalString (fs !! "type")) as [kind|]; [|done]. destruct (_ && _); [done|]. destruct (_ || _); [done|].
  destruct (fs !! "entries") as [w|]; [|done]. destruct (unmarshalEntries (Some w)) as [[entries|]|] eqn:E; [|done..].
  change (lastKeys <$> Some w) with (Some (lastKeys w)). rewrite (lastKeys_entries _ _ E), length_fmap. destruct (_ <? _)%nat; [done|]. intros Hall%first_some_none.
  clear E. induction Hall as [|e entries He _ IH]; [done|]. simpl. by rewrite lastKeys_entry.
Qed.

(** ** Strings *)

Lemma word_in raw words : "" ∉ words → wordIn raw words = true → ∃ s, raw = Some (JStr s) ∧ s ∈ words.
Proof.
  unfold wordIn, unmarshalString. intros Hne. destruct raw as [[| | |s| |]|]; try done; simpl; unfold str_in; intros H%bool_decide_eq_true_1; [done|eauto].
Qed.

Lemma string_kind raw kind : unmarshalString raw = Some kind → kind ≠ "" → raw = Some (JStr kind).
Proof. unfold unmarshalString. destruct raw as [[| | |s| |]|]; try done; simpl; intros H Hne; by simplify_eq. Qed.

(** ** Approval and sandbox *)

Lemma approval_typed raw v : validatedNativeApproval raw = Ok v → approvalOk v.
Proof.
  unfold validatedNativeApproval. destruct (match unmarshalString raw with Some _ => _ | None => _ end) as [s|] eqn:Hs.
  { intros H. simplify_eq. constructor. destruct (unmarshalString raw) as [s'|]; [|done]. destruct (str_in s' approvalWords) eqn:E; [|done].
    simplify_eq. by apply bool_decide_eq_true_1 in E. }
  destruct (unmarshalMaps raw) as [value|]; [|done]. destruct (value !! "granular") as [[flags|]|]; [|done..]. destruct (negb _); [done|].
  destruct (negb (forallb _ _)) eqn:Hreq; [done|]. destruct (firstError checkFlag flags) eqn:Hf; [done|]. intros H. simplify_eq.
  apply negb_false_iff in Hreq. rewrite forallb_forall in Hreq. constructor.
  - apply sorted_nodup.
  - intros key Hkey%list_elem_of_In. specialize (Hreq key Hkey). apply bool_decide_eq_true_1 in Hreq as [x Hx].
    apply list_elem_of_fmap. exists (key, x). split; [done|by apply sorted_in].
  - apply Forall_forall. intros [k x] Hin%sorted_in. pose proof (firstError_none _ _ Hf _ _ Hin) as Hc. unfold checkFlag in Hc.
    destruct (negb (nativeBool x) || _) eqn:E; [done|]. apply orb_false_iff in E as [E1%negb_false_iff E2%negb_false_iff].
    apply bool_decide_eq_true_1 in E2. split; [done|]. destruct x; try done. eauto.
Qed.

Lemma strings_typed v roots :
  unmarshalStrings (Some v) = Some (Some roots) → forallb canonicalPath roots = true → v = JArr (JStr <$> roots).
Proof.
  destruct v as [| | | |l|]; try done. unfold unmarshalStrings. intros H Hall. destruct (mapM _ l) as [roots'|] eqn:E; [|done]. injection H as <-.
  f_equal. apply mapM_Some in E. revert Hall. induction E as [|x s l roots' Hx _ IH]; [done|]. simpl. intros [Hc Hall]%andb_true_iff.
  rewrite IH by done. f_equal. destruct x; try done; simpl in Hx; by simplify_eq.
Qed.

Lemma sandbox_typed raw v : validatedNativeSandbox raw = Ok v → sandboxOk v.
Proof.
  unfold validatedNativeSandbox. destruct (unmarshalMap raw) as [value|]; [|done]. destruct (unmarshalString _) as [kind|] eqn:Hk; [|done].
  destruct (sandboxFields kind) as [allowed|] eqn:Ha; [|done]. destruct (firstError _ _) eqn:Hf; [done|]. intros H. simplify_eq.
  assert (kind ≠ "") as Hne by (by intros ->). apply string_kind in Hk; [|done].
  apply (Sandbox kind allowed); [done|apply sorted_nodup|by apply sorted_in|]. apply Forall_forall. intros [k x] Hin%sorted_in.
  pose proof (firstError_none _ _ Hf _ _ Hin) as Hc. unfold checkSandboxField in Hc. destruct (negb _) eqn:E; [done|].
  apply negb_false_iff, bool_decide_eq_true_1 in E. split; [done|]. cbn [fst snd].
  destruct (str_eqb k "network_access") eqn:E1; bools; simplify_eq.
  { destruct (str_eqb kind "external-sandbox") eqn:E2; bools; simplify_eq.
    - destruct (wordIn (Some x) networkWords) eqn:Hw; [|unfold wordIn in Hw; destruct (unmarshalString (Some x)); [by rewrite Hw in Hc|done]].
      apply word_in in Hw as (s & Hs & Hin'); [|by apply (bool_decide_unpack _); vm_compute]. simplify_eq. by constructor.
    - destruct x; try done. by constructor. }
  destruct (str_in k ["exclude_slash_tmp"; "exclude_tmpdir_env_var"]) eqn:E2; [apply bool_decide_eq_true_1 in E2; destruct x; try done; by constructor|].
  destruct (str_eqb k "writable_roots") eqn:E3; bools; simplify_eq.
  { destruct (unmarshalStrings (Some x)) as [[roots|]|] eqn:Hr; [|done..]. destruct (rootLimit <? _)%nat eqn:Hl; [done|].
    destruct (forallb canonicalPath roots) eqn:Hall; [|done]. constructor. exists roots. apply Nat.ltb_ge in Hl.
    split_and!; [by apply strings_typed|done|]. apply Forall_forall. intros root Hroot%list_elem_of_In. rewrite forallb_forall in Hall. by apply Hall. }
  apply str_in_false in E2. assert (k = "type") as ->; [|rewrite Hin in Hk; simplify_eq; constructor].
  clear -Ha E E1 E2 E3. unfold sandboxFields in Ha. repeat case_match; simplify_eq; set_solver.
Qed.

(** ** Profiles *)

Lemma distinct_member (o : members) k v : distinctKeys (JObj o) → (k, v) ∈ o → distinctKeys v.
Proof.
  simpl. intros [_ H] Hin. induction o as [|[k' v'] o IH]; [by apply elem_of_nil in Hin|]. simpl in H. destruct H as [H1 H2].
  apply elem_of_cons in Hin as [Hin|Hin]; [by simplify_eq|by apply IH].
Qed.

Lemma distinct_element l v : distinctKeys (JArr l) → v ∈ l → distinctKeys v.
Proof.
  simpl. intros H Hin. induction l as [|v' l IH]; [by apply elem_of_nil in Hin|]. simpl in H. destruct H as [H1 H2].
  apply elem_of_cons in Hin as [->|Hin]; [done|by apply IH].
Qed.

Lemma goMap_in (o : members) k v : NoDup o.*1 → goMap o !! k = Some v → (k, v) ∈ o.
Proof. intros Hnd H. rewrite goMap_nodup in H by done. by apply elem_of_list_to_map_2 in H. Qed.

(** An object that is not empty. *)
Lemma map_object v m : unmarshalMap (Some v) = Some m → base.size m ≠ 0%nat → ∃ o, v = JObj o ∧ m = goMap o.
Proof. unfold unmarshalMap, structOf. destruct v; simpl; intros H Hne; simplify_eq; first [done|eauto]. Qed.

Lemma special_named : "" ∉ specialKinds.
Proof. apply (bool_decide_unpack _). vm_compute. exact I. Qed.

Lemma special_typed v special :
  distinctKeys v → unmarshalStringMap (Some v) = Some special → base.size special = 1%nat → default "" (special !! "kind") ∈ specialKinds →
  ∃ kind, v = JObj [("kind", JStr kind)] ∧ kind ∈ specialKinds.
Proof.
  intros Hd H Hsize Hin. unfold unmarshalStringMap in H. destruct v as [| | | | |o]; try done; simpl in H.
  { by simplify_eq. }
  destruct (mapM _ o) as [pairs|] eqn:E; [|done]. injection H as <-. apply mapM_Some in E.
  assert (pairs.*1 = o.*1) as Hkeys.
  { clear -E. induction E as [|[k x] [k' s] o pairs Hx _ IH]; [done|]. destruct x; simpl in Hx; try done; simplify_eq; simpl; by f_equal. }
  destruct Hd as [Hnd _]. rewrite goMap_nodup in Hsize, Hin by (by rewrite Hkeys).
  assert (Datatypes.length pairs = 1%nat) as Hlen.
  { rewrite <- (map_to_list_to_map (M := gmap string) pairs) by (by rewrite Hkeys). by rewrite length_map_to_list. }
  destruct pairs as [|[k s] [|]]; try done. inversion E as [|[k' x] ? o' ? Hx Hrest]; subst. inversion Hrest; subst.
  assert (k' = k ∧ (s = "" ∨ x = JStr s)) as [-> Hs] by (destruct x; simpl in Hx; try done; simplify_eq; auto).
  simpl in Hin. destruct (decide (k = "kind")) as [->|Hne]; [|rewrite lookup_insert_ne, lookup_empty in Hin by done; exact (False_ind _ (special_named Hin))].
  rewrite lookup_insert_eq in Hin. simpl in Hin. exists s. destruct Hs as [-> | ->]; [exact (False_ind _ (special_named Hin))|split; [reflexivity|exact Hin]].
Qed.

Lemma path_typed v : distinctKeys v → checkPermissionPath (Some v) = None → pathOk v.
Proof.
  intros Hd. unfold checkPermissionPath. destruct (unmarshalMap (Some v)) as [path|] eqn:E; [|done].
  destruct (negb (base.size path =? 2)%nat) eqn:Hs; [done|]. apply negb_false_iff, Nat.eqb_eq in Hs.
  destruct (map_object v path E ltac:(lia)) as (o & -> & ->). clear E. pose proof Hd as [Hnd _].
  destruct (unmarshalString (goMap o !! "type")) as [kind|] eqn:Hk; [|done].
  destruct (str_eqb kind "path") eqn:E1; bools; simplify_eq.
  - apply string_kind in Hk; [|done]. destruct (unmarshalString (goMap o !! "path")) as [p|] eqn:Hp; [|done].
    destruct ((len p <=? pathLimit) && canonicalPath p) eqn:Hc; [|done]. apply andb_true_iff in Hc as [Hlen%Z.leb_le Hcan]. intros _.
    apply string_kind in Hp; [|by intros ->]. apply (PathAbsolute o p); [|done|done].
    apply goMap_exact; [done|by apply (bool_decide_unpack _); vm_compute|repeat constructor; done|done].
  - destruct (str_eqb kind "special") eqn:E2; bools; simplify_eq; [|done]. apply string_kind in Hk; [|done].
    destruct (unmarshalStringMap (goMap o !! "value")) as [special|] eqn:Hv; [|done].
    destruct (_ && _) eqn:Hc; [|done]. apply andb_true_iff in Hc as [Hone%Nat.eqb_eq Hin%str_in_true]. intros _.
    destruct (goMap o !! "value") as [w|] eqn:Hw; [|done].
    destruct (special_typed w special) as (kind & -> & Hkind); [by eapply distinct_member; [|eapply goMap_in]|done..|].
    apply (PathSpecial o kind); [|done]. apply goMap_exact; [done|by apply (bool_decide_unpack _); vm_compute|repeat constructor; done|done].
Qed.

Lemma size_keys (m : gmap string json) (l : list string) : (∀ k, is_Some (m !! k) → k ∈ l) → (base.size m ≤ Datatypes.length l)%nat.
Proof.
  intros H. rewrite <- length_map_to_list, <- (length_fmap fst). apply submseteq_length, NoDup_submseteq; [apply NoDup_fst_map_to_list|].
  intros k ([k' v] & -> & Hin%elem_of_map_to_list)%list_elem_of_fmap. apply H. eauto.
Qed.

Lemma entry_typed v entry : distinctKeys v → unmarshalMap (Some v) = Some entry → checkEntry entry = None → permissionEntryOk v.
Proof.
  intros Hd E. unfold checkEntry. destruct (_ || _) eqn:Hs; [done|]. apply orb_false_iff in Hs as [H2%Nat.ltb_ge H3%Nat.ltb_ge].
  destruct (map_object v entry E ltac:(lia)) as (o & -> & ->). clear E. pose proof Hd as [Hnd _].
  destruct (negb (forallb _ _)) eqn:Hk; [done|]. apply negb_false_iff in Hk. rewrite forallb_forall in Hk.
  assert (∀ k, is_Some (goMap o !! k) → k ∈ entryKeys) as Hkeys.
  { intros k [x Hx]. apply str_in_true, (Hk (k, x)), list_elem_of_In, elem_of_map_to_list, Hx. }
  destruct (negb (wordIn _ _)) eqn:Ha; [done|]. apply negb_false_iff, word_in in Ha as (access & Ha & Hin); [|by apply (bool_decide_unpack _); vm_compute].
  destruct (match goMap o !! "missing_path_behavior" with Some _ => _ | None => _ end) eqn:Hm; [done|]. intros Hp.
  destruct (goMap o !! "path") as [p|] eqn:Ep; [|done]. apply path_typed in Hp; [|by eapply distinct_member; [|eapply goMap_in]].
  destruct (goMap o !! "missing_path_behavior") as [missing|] eqn:Em.
  - apply negb_false_iff, word_in in Hm as (w & Hw & ->%list_elem_of_singleton); [|by apply (bool_decide_unpack _); vm_compute]. simplify_eq.
    apply (PermissionEntry o access p [("missing_path_behavior", JStr "skip")]); [|done|done|by right].
    apply goMap_exact; [done|by apply (bool_decide_unpack _); vm_compute|repeat constructor; done|].
    pose proof (size_keys _ _ Hkeys) as Hle. assert (3 ≤ base.size (goMap o))%nat as Hge; [|simpl in *; lia].
    assert (NoDup ["access"; "path"; "missing_path_behavior"]) as Hn3 by (by apply (bool_decide_unpack _); vm_compute).
    rewrite <- length_map_to_list, <- (length_fmap fst). change 3%nat with (Datatypes.length ["access"; "path"; "missing_path_behavior"]).
    apply submseteq_length, NoDup_submseteq; [done|]. intros k Hk3. apply list_elem_of_fmap.
    apply list_elem_of_In in Hk3 as [<-|[<-|[<-|[]]]]; (eexists (_, _); split; [reflexivity|by apply elem_of_map_to_list]).
  - apply (PermissionEntry o access p []); [|done|done|by left]. apply goMap_exact; [done|by apply (bool_decide_unpack _); vm_compute|repeat constructor; done|].
    assert (base.size (goMap o) ≤ 2)%nat; [|simpl; lia]. apply (size_keys _ ["path"; "access"]). intros k Hs. pose proof (Hkeys k Hs) as Hin'.
    unfold entryKeys in Hin'. rewrite !elem_of_cons in *. destruct Hin' as [?|[?|[->|Hnil]]]; [by left|by right; left| |by apply elem_of_nil in Hnil]. rewrite Em in Hs. by destruct Hs.
Qed.

Lemma fileSystem_typed v : distinctKeys v → checkFileSystem (Some v) = None → fileSystemOk v.
Proof.
  intros Hd. unfold checkFileSystem. destruct (unmarshalMap (Some v)) as [fs|] eqn:E; [|done]. destruct (unmarshalString (fs !! "type")) as [kind|] eqn:Hk; [|done].
  destruct (_ && _) eqn:H1.
  { apply andb_true_iff in H1 as [->%str_eqb_eq Hs%Nat.eqb_eq]. intros _. destruct (map_object v fs E ltac:(lia)) as (o & -> & ->). destruct Hd as [Hnd _].
    apply string_kind in Hk; [|done]. assert (o ≡ₚ [("type", JStr "unrestricted")]) as ->%Permutation_singleton_r; [|constructor].
    apply goMap_exact; [done|apply NoDup_singleton|by repeat constructor|done]. }
  destruct (_ || _) eqn:H2; [done|]. apply orb_false_iff in H2 as [->%negb_false_iff%str_eqb_eq Hs%negb_false_iff%Nat.eqb_eq].
  destruct (map_object v fs E ltac:(lia)) as (o & -> & ->). pose proof Hd as [Hnd _]. apply string_kind in Hk; [|done].
  destruct (goMap o !! "entries") as [w|] eqn:Ew; [|done]. destruct (unmarshalEntries (Some w)) as [[entries|]|] eqn:He; [|done..].
  destruct (entryLimit <? _)%nat eqn:Hl; [done|]. apply Nat.ltb_ge in Hl. intros Hall%first_some_none.
  unfold unmarshalEntries in He. destruct w as [| | | |l|]; try done. destruct (mapM _ l) as [entries'|] eqn:Hm; [|done]. injection He as ->.
  apply mapM_Some in Hm. apply (FilesRestricted o l).
  - apply goMap_exact; [done|by apply (bool_decide_unpack _); vm_compute|repeat constructor; done|done].
  - by rewrite (Forall2_length _ _ _ Hm).
  - assert (distinctKeys (JArr l)) as Hdl by (by eapply distinct_member; [|eapply goMap_in]). apply Forall_forall. intros x Hx.
    apply list_elem_of_lookup in Hx as [i Hi]. destruct (Forall2_lookup_l _ _ _ _ _ Hm Hi) as (entry & Hentry & Hu).
    rewrite Forall_lookup in Hall. eapply entry_typed; [by eapply distinct_element, list_elem_of_lookup_2|done|by eapply Hall].
Qed.

Lemma lastKeys_nodup v : distinctKeys (lastKeys v).
Proof.
  induction v as [| | | |l IH|o IH] using json_ind'; try done.
  - simpl. induction IH; by simpl.
  - simpl. split; [apply keepLast_nodup|]. rewrite keepLast_map. induction IH as [|[k v] o Hv _ IH]; [done|].
    simpl. by destruct (str_in k o.*1).
Qed.
Lemma lastKeys_distinct v : distinctKeys v → lastKeys v = v.
Proof.
  induction v as [| | | |l IH|o IH] using json_ind'; try done; simpl.
  - intros Hd. f_equal. induction IH as [|v l Hv _ IH]; [done|]. simpl in *. destruct Hd. by rewrite Hv, IH.
  - intros [Hnd Hd]. f_equal. rewrite keepLast_map, keepLast_distinct by done. clear Hnd.
    induction IH as [|[k v] o Hv _ IH]; [done|]. simpl in *. destruct Hd. by rewrite Hv, IH.
Qed.
Lemma lastKeys_sorted value l :
  sortedMembers value ≡ₚ l → ∃ o, lastKeys (marshalMap value) = JObj o ∧ o ≡ₚ map (fun kv => (kv.1, lastKeys kv.2)) l.
Proof.
  intros Hl. unfold marshalMap. simpl. eexists. split; [done|].
  rewrite keepLast_map, keepLast_distinct by apply sorted_nodup. by rewrite Hl.
Qed.

Lemma profile_last raw length v : validatedNativePermissionProfile raw length = Ok (Some v) → profileOk (lastKeys v).
Proof.
  intros H. unfold validatedNativePermissionProfile in H. destruct raw as [w|]; [|done].
  assert (match unmarshalMap (Some w) with
          | Some value => ∃ kind, unmarshalString (value !! "type") = Some kind ∧ v = marshalMap value ∧
              ((kind = "disabled" ∧ base.size value = 1%nat) ∨
               (kind = "managed" ∧ base.size value = 3%nat ∧ wordIn (value !! "network") networkWords = true ∧ checkFileSystem (value !! "file_system") = None))
          | None => False end) as Hv.
  { destruct w; try done; (destruct (profileLimit <? length); [done|]); (destruct (unmarshalMap (Some _)) as [value|]; [|done]);
      (destruct (unmarshalString (value !! "type")) as [kind|]; [|done]); (destruct (str_eqb kind "disabled" && _) eqn:E1;
        [apply andb_true_iff in E1 as [->%str_eqb_eq ?%Nat.eqb_eq]; simplify_eq; eauto 10|]);
      (destruct (_ || _) eqn:E2; [done|]); apply orb_false_iff in E2 as [->%negb_false_iff%str_eqb_eq ?%negb_false_iff%Nat.eqb_eq];
      (destruct (negb (wordIn _ _)) eqn:E3; [done|]); apply negb_false_iff in E3; (destruct (checkFileSystem _) eqn:E4; [done|]); simplify_eq; eauto 10. }
  destruct (unmarshalMap (Some w)) as [value|]; [|done]. destruct Hv as (kind & Hk & -> & [[-> Hs]|(-> & Hs & Hw & Hf)]); apply string_kind in Hk; try done.
  - destruct (lastKeys_sorted value [("type", JStr "disabled")]) as (o & -> & ->%Permutation_singleton_r); [|constructor].
    apply sorted_exact; [apply NoDup_singleton|by repeat constructor|done].
  - apply word_in in Hw as (network & Hn & Hin); [|by apply (bool_decide_unpack _); vm_compute]. destruct (value !! "file_system") as [fs|] eqn:Efs; [|done].
    destruct (lastKeys_sorted value [("type", JStr "managed"); ("network", JStr network); ("file_system", fs)]) as (o & -> & Ho).
    { apply sorted_exact; [by apply (bool_decide_unpack _); vm_compute|repeat constructor; done|done]. }
    apply (ProfileManaged o network (lastKeys fs)); [exact Ho|done|].
    apply fileSystem_typed; [apply lastKeys_nodup|exact (lastKeys_files _ Hf)].
Qed.
Lemma profile_typed raw length v : validatedNativePermissionProfile raw length = Ok (Some v) → distinctKeys v → profileOk v.
Proof. intros H Hd. rewrite <- (lastKeys_distinct v Hd). by eapply profile_last. Qed.

(** ** Contexts *)

Record contextTyped (threadID turnID cwd : string) (c : TurnContext) : Prop := {
  ty_names : (tc_ThreadID c, tc_TurnID c, tc_Cwd c) = (threadID, turnID, cwd);
  ty_model : tc_Model c ≠ "" ∧ len (tc_Model c) ≤ modelLimit;
  ty_effort : tc_ReasoningEffort c ∈ efforts;
  ty_mode : tc_CollaborationMode c ∈ modes;
  ty_reviewer : tc_ApprovalsReviewer c ∈ reviewers;
  ty_approval : approvalOk (tc_ApprovalPolicy c);
  ty_sandbox : sandboxOk (tc_SandboxPolicy c);
  ty_profile v : tc_PermissionProfile c = Some v → profileOk (lastKeys v);
  ty_profile_exact v : tc_PermissionProfile c = Some v → distinctKeys v → profileOk v }.

Lemma project_typed raw spelled threadID turnID cwd c : projectTurnContext raw spelled threadID turnID cwd = Ok c → contextTyped threadID turnID cwd c.
Proof.
  unfold projectTurnContext. destruct (structOf raw) as [o|]; [|done]. destruct (stringField "cwd" o) as [pcwd|]; [|done].
  destruct (stringField "model" o) as [model|]; [|done]. destruct (stringField "effort" o) as [effort|]; [|done].
  destruct (nestedField _ _ o) as [mode|]; [|done]. destruct (stringField "approvals_reviewer" o) as [reviewer|]; [|done].
  destruct (negb (str_eqb pcwd cwd) || _ || _ || _ || _ || _) eqn:E; [done|].
  destruct (validatedNativeApproval _) as [approval|] eqn:Ha; [|done]. simpl. destruct (validatedNativeSandbox _) as [sandbox|] eqn:Hs; [|done]. simpl.
  destruct (validatedNativePermissionProfile _ _) as [profile|] eqn:Hp; [|done]. simpl. intros H. simplify_eq.
  repeat (apply orb_false_iff in E as [E ?]). bools.
  constructor; simpl; [done|split; [by intros ->|done]|done|done|done|by eapply approval_typed|by eapply sandbox_typed|..].
  - intros v ->. by eapply profile_last.
  - intros v ->. by eapply profile_typed.
Qed.

Section Read.
Context (parseLine : bytes → option (json * spelling)) (threadID turnID cwd : string).
Abbreviation contextRecord := (fun line => contextRecord parseLine line threadID turnID cwd).
Abbreviation contextRecords := (fun c lines rest => contextRecords parseLine c lines rest threadID turnID cwd).

(** A record of the turn, in the session of the thread, that has this context. *)
Definition says (line : bytes) (ctx : TurnContext) : Prop :=
  contextRecord line (mkContextScan true None) = Ok (mkContextScan true (Some ctx)).

(** What a record does to a scan. *)
Lemma record_cases line s s' :
  contextRecord line s = Ok s' →
  (cs_found s' = cs_found s ∧ (cs_matched s = true → cs_matched s' = true ∧ ∀ ctx, ¬ says line ctx)) ∨
  (cs_matched s = true ∧ cs_matched s' = true ∧ ∃ ctx, says line ctx ∧ cs_found s' = Some ctx ∧ contextTyped threadID turnID cwd ctx ∧
     (cs_found s = None ∨ cs_found s = Some ctx)).
Proof.
  unfold says, TurnContext.contextRecord. destruct (parseLine line) as [[v n]|]; [|done]. destruct (structOf (Some v)) as [o|]; [|done].
  destruct (stringField "type" o) as [type|]; [|done]. cbv zeta. destruct (str_eqb type "session_meta").
  { destruct (structOf _) as [session|]; [|done]. destruct (stringField "ID" session); [|done]. destruct (stringField "Cwd" session); [|done].
    destruct (_ && _); [intros; simplify_eq; left; done|]. simpl. destruct (cs_matched s) eqn:Em; [done|]. intros. simplify_eq. left. split; [done|congruence]. }
  destruct (negb (str_eqb type "turn_context")) eqn:Et; cbn [orb].
  { intros. simplify_eq. left. done. }
  destruct (cs_matched s) eqn:Em; cbn [negb cs_matched]; [|intros; simplify_eq; left; split; [done|congruence]].
  destruct (_ ≫= _) as [id|]; [|done]. destruct (negb (str_eqb id turnID)); [intros; simplify_eq; left; done|].
  destruct (projectTurnContext _ _ _ _ _) as [value|] eqn:Hp; [|done]. simpl. apply project_typed in Hp. destruct (cs_found s) as [found|] eqn:Ef.
  - case_bool_decide; [|done]. intros. simplify_eq. right. split_and!; [done|done|]. exists value. split_and!; [done|done|done|by right].
  - intros. simplify_eq. right. split_and!; [done|done|]. exists value. split_and!; [done|done|done|by left].
Qed.

(** All that was read says the same. *)
Lemma records_found c lines rest s s' ctx :
  contextRecords c lines rest s = Ok s' → cs_matched s = true → cs_found s = Some ctx →
  cs_found s' = Some ctx ∧ ∀ line ctx', line ∈ lines → says line ctx' → ctx' = ctx.
Proof.
  revert c s. induction lines as [|line lines IH]; intros c s H Hm Hf; simpl in H.
  { destruct (tooLong readLimit rest); [done|]. destruct rest; [|done]. simplify_eq. split; [done|]. intros line ctx' []%elem_of_nil. }
  destruct (tooLong readLimit line); [done|]. destruct (ctxErr c) as [c'|]; [|done].
  destruct (TurnContext.contextRecord _ line _ _ _ s) as [s1|] eqn:E; [|done]. simpl in H.
  destruct (record_cases line s s1 E) as [[Hsame Hmt]|(_ & Hm1 & ctx1 & Hsays & Hf1 & _ & Hor)].
  - destruct (Hmt Hm) as [Hm1 Hnot]. destruct (IH c' s1 H Hm1 ltac:(congruence)) as [H1 H2]. split; [done|].
    intros l ctx' [->|Hin]%elem_of_cons Hs; [by destruct (Hnot ctx')|by eapply H2].
  - assert (ctx1 = ctx) as -> by (destruct Hor; congruence). destruct (IH c' s1 H Hm1 Hf1) as [H1 H2]. split; [done|].
    intros l ctx' [->|Hin]%elem_of_cons Hs; [unfold says in *; congruence|by eapply H2].
Qed.

Lemma records_exact c lines rest s s' ctx :
  contextRecords c lines rest s = Ok s' → cs_found s = None → cs_found s' = Some ctx →
  contextTyped threadID turnID cwd ctx ∧
  ∃ before line after, lines = before ++ line :: after ∧ says line ctx ∧ ∀ l ctx', l ∈ after → says l ctx' → ctx' = ctx.
Proof.
  revert c s. induction lines as [|line lines IH]; intros c s H Hf Hf'; simpl in H.
  { destruct (tooLong readLimit rest); [done|]. destruct rest; [|done]. congruence. }
  destruct (tooLong readLimit line); [done|]. destruct (ctxErr c) as [c'|]; [|done].
  destruct (TurnContext.contextRecord _ line _ _ _ s) as [s1|] eqn:E; [|done]. simpl in H.
  destruct (record_cases line s s1 E) as [[Hsame _]|(_ & Hm1 & ctx1 & Hsays & Hf1 & Hty & _)].
  - destruct (IH c' s1 H ltac:(congruence) Hf') as (Hty & before & l & after & -> & Hs & Hall). split; [done|]. exists (line :: before), l, after. done.
  - destruct (records_found c' lines rest s1 s' ctx1 H Hm1 Hf1) as [H1 H2]. assert (ctx1 = ctx) as -> by congruence. split; [done|].
    exists [], line, lines. split_and!; [done|done|]. intros l ctx' Hin Hs. by eapply H2.
Qed.

(** The scan of the file at the path. *)
Lemma read_exact d later c path ctx :
  readExactTurnContext parseLine d later c path threadID turnID cwd = Ok ctx →
  contextTyped threadID turnID cwd ctx ∧ canonicalPath cwd = true ∧
  ∃ n, d_open d path = Some n ∧
    ∃ before line after, (splitLines (fn_content n)).1 = before ++ line :: after ∧ says line ctx ∧ ∀ l ctx', l ∈ after → says l ctx' → ctx' = ctx.
Proof.
  unfold readExactTurnContext. destruct (canonicalPath cwd) eqn:Hcwd; [|done]. cbn [negb].
  destruct (openRolloutFile d path) as [n|] eqn:Ho; [|done]. simpl. destruct (splitLines (fn_content n)) as [lines rest] eqn:Hl.
  destruct (TurnContext.contextRecords _ _ _ _ _ _ _ _) as [s|] eqn:Hr; [|done]. simpl. destruct later as [after|]; [|done].
  destruct (_ || _); [done|]. destruct (cs_found s) as [found|] eqn:Hf; [|done]. destruct (cs_matched s); [|done]. intros H. simplify_eq.
  destruct (records_exact c lines rest (mkContextScan false None) s ctx Hr eq_refl Hf) as [Hty Hex]. split_and!; [done|done|]. exists n.
  split; [|by rewrite Hl]. unfold openRolloutFile in Ho. destruct (_ || _); [done|]. destruct (d_open d path) as [n'|]; [|done].
  destruct (fn_regular n'); [|done]. by simplify_eq.
Qed.

End Read.

(** C38. A context that [ReadTurnContext] returns is of the known forms: its
    approval and sandbox policies are in their grammars, its words are among the
    known ones, and every root and path in it is absolute and clean; its
    permission profile is in its grammar as Go reads it, where of a key that is
    repeated the last counts, and literally where no key is repeated (what
    stands under an earlier occurrence is not checked: [profile_passes_text]). It
    names the thread, the turn and the directory of the thread, it is what a
    record of the turn in the thread's rollout says, and every later record of
    the turn says the same, down to the bytes of its policies. *)
Theorem turn_context_typed parseLine d later c metadata threadID turnID ctx :
  ReadTurnContext parseLine d later c metadata threadID turnID = Ok ctx →
  ∃ path cwd, metadata = Ok (Some path, cwd) ∧ turnID ≠ "" ∧ contextTyped threadID turnID cwd ctx ∧ canonicalPath cwd = true ∧
    ∃ n, d_open d path = Some n ∧
      ∃ before line after, (splitLines (fn_content n)).1 = before ++ line :: after ∧ says parseLine threadID turnID cwd line ctx ∧
        ∀ l ctx', l ∈ after → says parseLine threadID turnID cwd l ctx' → ctx' = ctx.
Proof.
  unfold ReadTurnContext. destruct metadata as [[[path|] cwd]|e]; try done. simpl. destruct (is_empty turnID) eqn:Et; [done|].
  intros H. exists path, cwd. split; [done|]. split; [by intros ->|]. by eapply read_exact.
Qed.


(** ** Instances *)

Definition demoProfile : json :=
  JObj [("type", JStr "managed"); ("network", JStr "restricted");
        ("file_system", JObj [("type", JStr "restricted");
           ("entries", JArr [JObj [("path", JObj [("type", JStr "path"); ("path", JStr "/srv")]); ("access", JStr "write")]])])].

Definition demoPayload (profile : json) : json :=
  JObj [("turn_id", JStr "turn"); ("cwd", JStr "/work"); ("model", JStr "gpt"); ("effort", JStr "high"); ("collaboration_mode", JObj [("mode", JStr "plan")]);
        ("approval_policy", JStr "never"); ("sandbox_policy", JObj [("type", JStr "read-only")]); ("approvals_reviewer", JStr "user");
        ("permission_profile", profile)].

Definition demoParse (line : bytes) : option (json * spelling) :=
  match line with
  | [1] => Some (JObj [("type", JStr "session_meta"); ("payload", JObj [("id", JStr "thread"); ("cwd", JStr "/work")])], mkSpelling 0 [] [])
  | [2] => Some (JObj [("type", JStr "turn_context"); ("payload", demoPayload demoProfile)], mkSpelling 200 [1] [2])
  | _ => None
  end.

Definition demoNode : fileNode := mkNode 1 5 true [1; 10; 2; 10; 2; 10].
Definition demoFiles : disk := mkDisk (fun _ => Some demoNode) (fun _ => Some demoNode) (fun _ => []).
Definition demoContext : TurnContext :=
  mkTurnContext "thread" "turn" "/work" "gpt" "high" "plan" (JStr "never") (JObj [("type", JStr "read-only")]) "user"
    (Some (JObj [("file_system", get "file_system" (mapOrNil demoProfile)); ("network", JStr "restricted"); ("type", JStr "managed")])) [1] [2].

Lemma demo_context_read : ReadTurnContext demoParse demoFiles (Some demoNode) None (Ok (Some "/rollout", "/work")) "thread" "turn" = Ok demoContext.
Proof. vm_compute. reflexivity. Qed.

Lemma turn_context_typed_witness : ∃ cwd, contextTyped "thread" "turn" cwd demoContext.
Proof.
  destruct (turn_context_typed demoParse demoFiles (Some demoNode) None (Ok (Some "/rollout", "/work")) "thread" "turn" demoContext demo_context_read)
    as (path & cwd & _ & _ & H & _).
  exists cwd. exact H.
Defined.

(** Two records of a turn whose policies are spelled differently are in conflict. *)
Example spelled_differently :
  let parse (line : bytes) := match line with
    | [3] => Some (JObj [("type", JStr "turn_context"); ("payload", demoPayload demoProfile)], mkSpelling 200 [7] [2])
    | _ => demoParse line end in
  let node := mkNode 1 5 true [1; 10; 2; 10; 3; 10] in
  readExactTurnContext parse (mkDisk (fun _ => Some node) (fun _ => Some node) (fun _ => [])) (Some node) None "/rollout" "thread" "turn" "/work"
  = Err (EMsg "conflicting exact native turn contexts").
Proof. vm_compute. reflexivity. Qed.

(** A key that is there twice is checked as it last appears and kept as it first does: any
    text passes through the profile. *)
Definition smuggled (text : string) : json :=
  JObj [("type", JStr "managed"); ("network", JStr "restricted");
        ("file_system", JObj [("entries", JStr text); ("type", JStr "restricted"); ("entries", JArr [])])].

Example profile_passes_text text :
  ∃ o, validatedNativePermissionProfile (Some (smuggled text)) 100 = Ok (Some (JObj o)) ∧
    ("file_system", JObj [("entries", JStr text); ("type", JStr "restricted"); ("entries", JArr [])]) ∈ o.
Proof. eexists. split; [vm_compute; reflexivity|]. left. Qed.
