(* ===== verification/Ephemeral.v ===== *)
(** * The event sink of a utility turn

    [ephemeralSink] of [src/codex/ephemeral.go] (737-1334): what the reader of a
    private connection does with every frame, and what the running turn asks of
    it. Each method that holds the sink's mutex is one function on the state;
    [cancel] and [signal] are the fields [es_canceled] and [es_changed]. *)
From Stdlib Require Import Ascii String.
From S2P Require Import Prelude GoStd GoValue EphemeralJson.
Open Scope Z_scope.

(** ** Errors and messages *)

Inductive category :=
| ErrEphemeralIsolation | ErrEphemeralSettings | ErrEphemeralProtocol | ErrEphemeralServer.

#[export] Instance category_eq_dec : EqDecision category.
Proof. solve_decision. Defined.

(** [rpcMessage]; an absent raw member has length zero. *)
Record rpcMessage := mkMessage {
  rm_ID : raw; rm_Method : string; rm_Params : raw; rm_Result : raw;
  rm_Error : option (Z * string) }.

(** The method names that carry evidence. *)
Definition evidenceMethods : list string :=
  ["item/started"; "item/completed"; "turn/started"; "turn/completed"; "error"].

Definition IsCapacityFailure (code message : string) : bool :=
  str_eqb code "serverOverloaded" ||
  str_eqb code "other" &&
  str_eqb message "stream disconnected before completion: Codex is at capacity, please try again later".

Definition ephemeralID (id : string) : bool :=
  negb (is_empty id) && (len id <=? 256) && validString id.

(** ** [json.Number.Int64]: [strconv.ParseInt(text, 10, 64)] *)

Fixpoint digitsValue (l : list Z) (acc : Z) : option Z :=
  match l with
  | [] => Some acc
  | b :: l => if between 48 57 b then digitsValue l (10 * acc + (b - 48)) else None
  end.

Definition parseInt64 (text : string) : option Z :=
  let '(sign, digits) := match bytes_of text with
                         | 45 :: l => (-1, l)
                         | 43 :: l => (1, l)
                         | l => (1, l)
                         end in
  match digits with
  | [] => None
  | _ => match digitsValue digits 0 with
         | Some n => if bool_decide (in_i64 (sign * n)) then Some (sign * n) else None
         | None => None
         end
  end.

(** ** Classifying a turn error *)

(** [value == nil] or a string. *)
Definition nilOrText (v : json) : bool :=
  match v with JNull | JStr _ => true | _ => false end.

(** The check of [misalignment]. *)
Definition validMisalignment (v : json) : bool :=
  match v with
  | JNull => true
  | JObj m =>
    forallb (fun key => nilOrText (get key m)) ["detailedExplanation"; "errorType"; "reviewTarget"] &&
    match get "steer" m with
    | JNull => true
    | JObj steer => match get "message" steer with JStr _ => true | _ => false end
    | _ => false
    end
  | _ => false
  end.

Definition connectionErrors : list string :=
  ["httpConnectionFailed"; "responseStreamConnectionFailed"; "responseStreamDisconnected";
   "responseTooManyFailedAttempts"].

Definition transientStatus (code : Z) : bool :=
  (code =? 408) || (code =? 500) || (code =? 502) || (code =? 503) || (code =? 504).

(** The loop over [connectionErrors]; [(transient, valid)]. *)
Fixpoint connectionError (keys : list string) (info : members) : bool * bool :=
  match keys with
  | [] => (false, true)
  | key :: keys =>
    if negb (has key info) then connectionError keys info else
    match get key info with
    | JObj fields =>
      if negb (Nat.eqb (Datatypes.length info) 1) then (false, false) else
      match get "httpStatusCode" fields with
      | JNull => (negb (str_eqb key "responseTooManyFailedAttempts"), true)
      | JNum text =>
        match parseInt64 text with
        | Some code => if (code <? 0) || (65535 <? code) then (false, false)
                       else (transientStatus code, true)
        | None => (false, false)
        end
      | _ => (false, false)
      end
    | _ => (false, false)
    end
  end.

Definition ephemeralTurnError (value : json) : bool * bool :=
  match value with
  | JObj failure =>
    match get "message" failure with
    | JStr message =>
      if negb (nilOrText (get "additionalDetails" failure)) then (false, false) else
      if negb (validMisalignment (get "misalignment" failure)) then (false, false) else
      match get "codexErrorInfo" failure with
      | JNull => (false, true)
      | JStr info => (IsCapacityFailure info message || str_eqb info "internalServerError", true)
      | JObj info => connectionError connectionErrors info
      | _ => (false, false)
      end
    | _ => (false, false)
    end
  | _ => (false, false)
  end.

(** ** The evidence of a completion *)

(** [json.Marshal] of a decoded value: keys in byte order, numbers as they were. *)
Fixpoint jsonText (v : json) : string :=
  match v with
  | JNull => "null"
  | JBool b => jsonBool b
  | JNum n => n
  | JStr s => jsonString s
  | JArr l => jsonArray (jsonText <$> l)
  | JObj o => jsonObject (merge_sort keyLe ((fun '(k, v) => (k, jsonText v)) <$> o))
  end.

(** [if value := object[key]; value != nil { fields[key] = value }] for each key *)
Definition keepFields (keys : list string) (object : members) : members :=
  omap (fun key => match get key object with JNull => None | v => Some (key, v) end) keys.

Definition typedInfo (info : members) : members :=
  omap (fun '(key, value) =>
    match value with
    | JObj detail => Some (key, JObj (keepFields ["httpStatusCode"] detail))
    | _ => None
    end) info.

Definition alignmentDetails (alignment : members) : members :=
  let details := keepFields ["detailedExplanation"; "errorType"; "reviewTarget"] alignment in
  match get "steer" alignment with
  | JObj steer => put "steer" (JObj [("message", get "message" steer)]) details
  | _ => details
  end.

Definition errorEvidence (failure : members) : members :=
  let fields := keepFields ["message"; "codexErrorInfo"; "additionalDetails"; "misalignment"] failure in
  let fields := match get "codexErrorInfo" failure with
                | JObj info => put "codexErrorInfo" (JObj (typedInfo info)) fields
                | _ => fields
                end in
  match get "misalignment" failure with
  | JObj alignment =>
    let fields := filter (fun kv => kv.1 ≠ "misalignment") fields in
    match alignmentDetails alignment with
    | [] => fields
    | details => put "misalignment" (JObj details) fields
    end
  | _ => fields
  end.

Definition itemEvidence (item : members) : members :=
  [("id", get "id" item); ("type", get "type" item)] ++
  (if isText (get "type" item) "agentMessage" then
     ("phase", get "phase" item) ::
     (if isText (get "phase" item) "commentary" then [] else [("text", get "text" item)])
   else []).

Definition completionEvidence (turn : members) : members :=
  [("status", get "status" turn)] ++
  (match get "error" turn with JObj failure => [("error", JObj (errorEvidence failure))] | _ => [] end) ++
  [("items", JArr ((fun v => JObj (itemEvidence (mapOrNil v))) <$> default [] (asList (get "items" turn))))].

Definition ephemeralCompletionEvidence (turn : members) : string :=
  sha256_hex (jsonText (JObj (completionEvidence turn))).

(** ** The state *)

Record sink := mkSink {
  es_err : option category;
  es_canceled : bool;                (** the inference context was cancelled *)
  es_changed : bool;                 (** a token waits in the channel [changed] *)
  es_generation : Z;
  es_threadID : string; es_turnID : string;
  es_cleanupTurnID : string;
  es_turnIssued : bool;
  es_cleanupAmbiguous : bool;
  es_events : list rpcMessage;
  es_eventCount : Z; es_bytes : Z;
  es_finalID : string; es_finalText : string;
  es_completed : bool;
  es_terminalFailure : bool;
  es_terminalEvidence : string;
  es_transient : bool;
  es_retryRevoked : bool;
  es_settled : bool }.

Definition newSink : sink :=
  mkSink None false false 0 "" "" "" false false [] 0 0 "" "" false false "" false false false.

(** Assignments, one per group of fields the code sets together. *)
Section assignments.
Variable s : sink.

(** [s.err = category; s.cancel()] *)
Definition setErr (c : category) : sink :=
  mkSink (Some c) true (es_changed s) (es_generation s) (es_threadID s) (es_turnID s) (es_cleanupTurnID s)
    (es_turnIssued s) (es_cleanupAmbiguous s) (es_events s) (es_eventCount s) (es_bytes s) (es_finalID s)
    (es_finalText s) (es_completed s) (es_terminalFailure s) (es_terminalEvidence s) (es_transient s)
    (es_retryRevoked s) (es_settled s).
(** [s.retryRevoked, s.transient = true, false] *)
Definition revoke : sink :=
  mkSink (es_err s) (es_canceled s) (es_changed s) (es_generation s) (es_threadID s) (es_turnID s)
    (es_cleanupTurnID s) (es_turnIssued s) (es_cleanupAmbiguous s) (es_events s) (es_eventCount s)
    (es_bytes s) (es_finalID s) (es_finalText s) (es_completed s) (es_terminalFailure s)
    (es_terminalEvidence s) false true (es_settled s).
Definition setChanged (b : bool) : sink :=
  mkSink (es_err s) (es_canceled s) b (es_generation s) (es_threadID s) (es_turnID s)
    (es_cleanupTurnID s) (es_turnIssued s) (es_cleanupAmbiguous s) (es_events s) (es_eventCount s)
    (es_bytes s) (es_finalID s) (es_finalText s) (es_completed s) (es_terminalFailure s)
    (es_terminalEvidence s) (es_transient s) (es_retryRevoked s) (es_settled s).
Definition setGeneration (g : Z) : sink :=
  mkSink (es_err s) (es_canceled s) (es_changed s) g (es_threadID s) (es_turnID s)
    (es_cleanupTurnID s) (es_turnIssued s) (es_cleanupAmbiguous s) (es_events s) (es_eventCount s)
    (es_bytes s) (es_finalID s) (es_finalText s) (es_completed s) (es_terminalFailure s)
    (es_terminalEvidence s) (es_transient s) (es_retryRevoked s) (es_settled s).
Definition setIdentity (threadID turnID : string) : sink :=
  mkSink (es_err s) (es_canceled s) (es_changed s) (es_generation s) threadID turnID
    (es_cleanupTurnID s) (es_turnIssued s) (es_cleanupAmbiguous s) (es_events s) (es_eventCount s)
    (es_bytes s) (es_finalID s) (es_finalText s) (es_completed s) (es_terminalFailure s)
    (es_terminalEvidence s) (es_transient s) (es_retryRevoked s) (es_settled s).
Definition setCleanupTurn (id : string) : sink :=
  mkSink (es_err s) (es_canceled s) (es_changed s) (es_generation s) (es_threadID s) (es_turnID s)
    id (es_turnIssued s) (es_cleanupAmbiguous s) (es_events s) (es_eventCount s)
    (es_bytes s) (es_finalID s) (es_finalText s) (es_completed s) (es_terminalFailure s)
    (es_terminalEvidence s) (es_transient s) (es_retryRevoked s) (es_settled s).
Definition setIssued : sink :=
  mkSink (es_err s) (es_canceled s) (es_changed s) (es_generation s) (es_threadID s) (es_turnID s)
    (es_cleanupTurnID s) true (es_cleanupAmbiguous s) (es_events s) (es_eventCount s)
    (es_bytes s) (es_finalID s) (es_finalText s) (es_completed s) (es_terminalFailure s)
    (es_terminalEvidence s) (es_transient s) (es_retryRevoked s) (es_settled s).
Definition setAmbiguous : sink :=
  mkSink (es_err s) (es_canceled s) (es_changed s) (es_generation s) (es_threadID s) (es_turnID s)
    (es_cleanupTurnID s) (es_turnIssued s) true (es_events s) (es_eventCount s)
    (es_bytes s) (es_finalID s) (es_finalText s) (es_completed s) (es_terminalFailure s)
    (es_terminalEvidence s) (es_transient s) (es_retryRevoked s) (es_settled s).
Definition setEvents (events : list rpcMessage) : sink :=
  mkSink (es_err s) (es_canceled s) (es_changed s) (es_generation s) (es_threadID s) (es_turnID s)
    (es_cleanupTurnID s) (es_turnIssued s) (es_cleanupAmbiguous s) events (es_eventCount s)
    (es_bytes s) (es_finalID s) (es_finalText s) (es_completed s) (es_terminalFailure s)
    (es_terminalEvidence s) (es_transient s) (es_retryRevoked s) (es_settled s).
Definition countFrame (n : Z) : sink :=
  mkSink (es_err s) (es_canceled s) (es_changed s) (es_generation s) (es_threadID s) (es_turnID s)
    (es_cleanupTurnID s) (es_turnIssued s) (es_cleanupAmbiguous s) (es_events s) (es_eventCount s + 1)
    (es_bytes s + n) (es_finalID s) (es_finalText s) (es_completed s) (es_terminalFailure s)
    (es_terminalEvidence s) (es_transient s) (es_retryRevoked s) (es_settled s).
Definition setFinal (id text : string) : sink :=
  mkSink (es_err s) (es_canceled s) (es_changed s) (es_generation s) (es_threadID s) (es_turnID s)
    (es_cleanupTurnID s) (es_turnIssued s) (es_cleanupAmbiguous s) (es_events s) (es_eventCount s)
    (es_bytes s) id text (es_completed s) (es_terminalFailure s)
    (es_terminalEvidence s) (es_transient s) (es_retryRevoked s) (es_settled s).
Definition setCompleted : sink :=
  mkSink (es_err s) (es_canceled s) (es_changed s) (es_generation s) (es_threadID s) (es_turnID s)
    (es_cleanupTurnID s) (es_turnIssued s) (es_cleanupAmbiguous s) (es_events s) (es_eventCount s)
    (es_bytes s) (es_finalID s) (es_finalText s) true (es_terminalFailure s)
    (es_terminalEvidence s) (es_transient s) (es_retryRevoked s) (es_settled s).
(** [s.terminalFailure, s.transient = true, transient] *)
Definition setFailure (transient : bool) : sink :=
  mkSink (es_err s) (es_canceled s) (es_changed s) (es_generation s) (es_threadID s) (es_turnID s)
    (es_cleanupTurnID s) (es_turnIssued s) (es_cleanupAmbiguous s) (es_events s) (es_eventCount s)
    (es_bytes s) (es_finalID s) (es_finalText s) (es_completed s) true
    (es_terminalEvidence s) transient (es_retryRevoked s) (es_settled s).
(** [s.settled = true], with the evidence and the transience given *)
Definition setSettled (evidence : string) (transient : bool) : sink :=
  mkSink (es_err s) (es_canceled s) (es_changed s) (es_generation s) (es_threadID s) (es_turnID s)
    (es_cleanupTurnID s) (es_turnIssued s) (es_cleanupAmbiguous s) (es_events s) (es_eventCount s)
    (es_bytes s) (es_finalID s) (es_finalText s) (es_completed s) (es_terminalFailure s)
    evidence transient (es_retryRevoked s) true.
End assignments.

(** [if s.err == nil { s.err = category; s.cancel() }] *)
Definition firstErr (c : category) (s : sink) : sink :=
  match es_err s with None => setErr s c | Some _ => s end.

(** ** [fail], [failure], [signal], [decode] *)

Definition signal (s : sink) : sink := setChanged s true.
Definition fail (c : category) (s : sink) : sink := signal (firstErr c (revoke s)).
Definition failure (s : sink) : option category := es_err s.

Definition byteLimit : Z := 1024 * 1024.
Definition eventLimit : Z := 256.

(** The identifier of a frame, as the token walk decoded it. *)
Definition validMessageID (id : json) : bool :=
  match id with
  | JStr value => negb (is_empty value) && (len value <=? 256)
  | JNum text => match parseInt64 text with Some _ => true | None => false end
  | _ => false
  end.

Definition present (r : raw) : bool := negb (raw_len r =? 0).

(** The checks that follow the limits: [object] is the decoded frame, [message]
    what [json.Unmarshal] made of it. *)
Definition validShape (object : members) (message : rpcMessage) : bool :=
  (if negb (is_empty (rm_Method message)) then
     (match ephemeralObject (rm_Params message) with Some _ => true | None => false end) &&
     (match get "method" object with JStr _ => true | _ => false end) &&
     negb (present (rm_Result message)) &&
     (match rm_Error message with None => true | Some _ => false end) &&
     present (rm_Params message)
   else present (rm_ID message) &&
        negb (Bool.eqb (negb (present (rm_Result message)))
                       (match rm_Error message with None => true | Some _ => false end))) &&
  (negb (present (rm_ID message)) || validMessageID (get "id" object)).

(** [unmarshalled] is the outcome of [json.Unmarshal(raw, message)]. *)
Definition decode (text : raw) (unmarshalled : option rpcMessage) (s : sink) : option rpcMessage * sink :=
  let s := countFrame s (raw_len text) in
  let bounded := (es_bytes s <=? byteLimit) && (es_eventCount s <=? eventLimit) in
  match ephemeralObject text, unmarshalled with
  | Some object, Some message =>
    if bounded && validShape object message then (Some message, s)
    else (None, fail ErrEphemeralProtocol s)
  | _, _ => (None, fail ErrEphemeralProtocol s)
  end.

(** ** Items *)

Definition outputLimit : Z := 16 * 1024.

(** [validateItemLocked]: the failure, if the item is refused. *)
Definition validateItem (item : members) (completed : bool) (s : sink) : option category :=
  if isText (get "delivery" item) "async" || negb (isNil (get "questions" item))
  then Some ErrEphemeralIsolation else
  match get "id" item, get "type" item with
  | JStr id, JStr kind =>
    if negb (ephemeralID id) || negb (ephemeralID kind) then Some ErrEphemeralProtocol else
    if negb (str_eqb kind "agentMessage") || negb completed || isText (get "phase" item) "commentary"
    then None else
    match get "text" item with
    | JStr text =>
      if negb (isText (get "phase" item) "final_answer") || is_empty text || (outputLimit <? len text)
         || negb (validString text)
         || (negb (is_empty (es_finalID s)) &&
             (negb (str_eqb (es_finalID s) id) || negb (str_eqb (es_finalText s) text)))
         || (es_settled s && es_terminalFailure s && is_empty (es_finalID s))
      then Some ErrEphemeralProtocol else None
    | _ => Some ErrEphemeralProtocol
    end
  | _, _ => Some ErrEphemeralProtocol
  end.

(** [itemLocked] *)
Definition consumeItem (item : members) (s : sink) : sink :=
  match validateItem item true s with
  | Some c => setErr (revoke s) c
  | None =>
    match es_err s with
    | Some _ => s
    | None => if isText (get "type" item) "agentMessage" && isText (get "phase" item) "final_answer"
              then setFinal s (textOrEmpty (get "id" item)) (textOrEmpty (get "text" item)) else s
    end
  end.

(** ** Evidence *)

(** The identity part of [validErrorLocked]. *)
Definition errorIdentity (params : members) (s : sink) : bool :=
  match get "threadId" params, get "turnId" params with
  | JStr threadID, JStr turnID =>
    ephemeralID threadID && ephemeralID turnID && es_turnIssued s &&
    str_eqb threadID (es_threadID s) &&
    (is_empty (es_turnID s) || str_eqb turnID (es_turnID s)) &&
    (is_empty (es_cleanupTurnID s) || str_eqb turnID (es_cleanupTurnID s))
  | _, _ => false
  end.

(** [validErrorLocked] *)
Definition validError (message : rpcMessage) (s : sink) : bool * sink :=
  let decoded := ephemeralObject (rm_Params message) in
  let params := default [] decoded in
  let retryOK := match get "willRetry" params with JBool _ => true | _ => false end in
  let errorOK := (ephemeralTurnError (get "error" params)).2 in
  let identityOK := errorIdentity params s in
  ((match decoded with Some _ => true | None => false end) && identityOK && retryOK && errorOK,
   if identityOK then s else setAmbiguous s).

(** [rejectErrorLocked] *)
Definition rejectError (message : rpcMessage) (s : sink) : bool * sink :=
  let refuse (s : sink) := (true, setErr (revoke s) ErrEphemeralProtocol) in
  if negb (str_eqb (rm_Method message) "error") then (false, s) else
  if es_settled s then refuse s else
  let '(valid, s) := validError message s in
  if valid then (false, s) else refuse s.

(** The turn an event names and whether its identity is well formed; the second
    half of [noteCleanupIdentityLocked] decides with them. *)
Definition eventIdentity (message : rpcMessage) (s : sink) : string * bool :=
  let decoded := ephemeralObject (rm_Params message) in
  let params := default [] decoded in
  let valid := (match decoded with Some _ => true | None => false end)
               && isText (get "threadId" params) (es_threadID s) in
  if str_in (rm_Method message) ["turn/started"; "turn/completed"] then
    let turn := mapOrNil (get "turn" params) in
    let valid := valid && (match get "turn" params with JObj _ => true | _ => false end)
                 && (match get "items" turn with JArr _ => true | _ => false end) in
    (textOrEmpty (get "id" turn),
     if str_eqb (rm_Method message) "turn/started" then valid && isText (get "status" turn) "inProgress" else valid)
  else
    let item := mapOrNil (get "item" params) in
    (textOrEmpty (get "turnId" params),
     valid && (match get "item" params with JObj _ => true | _ => false end)
     && ephemeralID (textOrEmpty (get "id" item)) && ephemeralID (textOrEmpty (get "type" item))).

(** [noteCleanupIdentityLocked] *)
Definition noteCleanupIdentity (message : rpcMessage) (s : sink) : sink :=
  if negb (es_turnIssued s) then s else
  let '(turnID, valid) := eventIdentity message s in
  if negb valid || negb (ephemeralID turnID)
     || (negb (is_empty (es_cleanupTurnID s)) && negb (str_eqb (es_cleanupTurnID s) turnID))
     || (negb (is_empty (es_turnID s)) && negb (str_eqb (es_turnID s) turnID))
  then firstErr ErrEphemeralProtocol (setAmbiguous s)
  else setCleanupTurn s turnID.

Definition terminalStatuses : list string := ["completed"; "failed"; "interrupted"].

(** The items of a completion, validated in order; the first refusal. *)
Fixpoint validateItems (items : list json) (s : sink) : option category :=
  match items with
  | [] => None
  | JObj item :: items =>
    match validateItem item true s with Some c => Some c | None => validateItems items s end
  | _ => Some ErrEphemeralProtocol
  end.

(** The rest of [rejectEvidenceLocked]: why the event is refused. *)
Definition evidenceFault (message : rpcMessage) (s : sink) : option category :=
  if es_cleanupAmbiguous s then Some ErrEphemeralProtocol else
  match ephemeralObject (rm_Params message) with
  | None => Some ErrEphemeralProtocol
  | Some params =>
    if str_in (rm_Method message) ["item/started"; "item/completed"] then
      match get "item" params with
      | JObj item => validateItem item (str_eqb (rm_Method message) "item/completed") s
      | _ => Some ErrEphemeralProtocol
      end
    else
    match get "turn" params with
    | JObj turn =>
      if str_eqb (rm_Method message) "turn/started"
      then (if es_settled s then Some ErrEphemeralProtocol else None) else
      if es_completed s then Some ErrEphemeralProtocol else
      if negb (existsb (isText (get "status" turn)) terminalStatuses) then Some ErrEphemeralProtocol else
      if negb (isNil (get "error" turn)) && negb (ephemeralTurnError (get "error" turn)).2
      then Some ErrEphemeralProtocol else
      match get "items" turn with
      | JArr items =>
        match validateItems items s with
        | Some c => Some c
        | None => if es_settled s && es_terminalFailure s
                     && negb (str_eqb (ephemeralCompletionEvidence turn) (es_terminalEvidence s))
                  then Some ErrEphemeralProtocol else None
        end
      | _ => Some ErrEphemeralProtocol
      end
    | _ => Some ErrEphemeralProtocol
    end
  end.

(** [rejectEvidenceLocked] *)
Definition rejectEvidence (message : rpcMessage) (s : sink) : bool * sink :=
  let '(refused, s) := rejectError message s in
  if refused then (true, s) else
  if str_eqb (rm_Method message) "error" then (false, s) else
  let s := noteCleanupIdentity message s in
  match evidenceFault message s with
  | Some c => (true, firstErr c (revoke s))
  | None => (false, s)
  end.

(** ** Consuming an event of the bound turn *)

(** The loop over the items of a completion stops at the first error. *)
Fixpoint consumeItems (items : list json) (s : sink) : sink :=
  match items with
  | [] => s
  | JObj item :: items =>
    let s := consumeItem item s in
    match es_err s with Some _ => s | None => consumeItems items s end
  | _ => setErr s ErrEphemeralProtocol
  end.

(** The switch on the status, after the items. *)
Definition consumeStatus (turn : members) (s : sink) : sink :=
  if existsb (isText (get "status" turn)) ["failed"; "interrupted"] then
    let settle transient :=
      setErr (setSettled (setFailure s transient) (ephemeralCompletionEvidence turn) transient) ErrEphemeralServer in
    match get "error" turn with
    | JNull => settle (es_terminalFailure s && es_transient s)
    | failure =>
      let '(transient, valid) := ephemeralTurnError failure in
      if negb valid then setErr s ErrEphemeralProtocol else
      settle (if es_terminalFailure s then transient && es_transient s else transient)
    end
  else if isText (get "status" turn) "completed" then
    let s := setSettled s (es_terminalEvidence s) (es_transient s) in
    if es_terminalFailure s
    then setErr (setSettled s (es_terminalEvidence s) false) ErrEphemeralServer else
    if es_completed s then setErr s ErrEphemeralProtocol else setCompleted s
  else setErr s ErrEphemeralProtocol.

(** An [error] notification. *)
Definition consumeError (params : members) (s : sink) : sink :=
  if isFlag (get "willRetry" params) true then s else
  let transient := (ephemeralTurnError (get "error" params)).1 in
  let transient := if es_terminalFailure s then transient && es_transient s else transient in
  let s := setFailure s transient in
  if transient then s else setErr s ErrEphemeralServer.

(** [consumeLocked] *)
Definition consume (message : rpcMessage) (s : sink) : sink :=
  let '(refused, s) := rejectEvidence message s in
  match refused, es_err s with
  | false, None =>
    if str_in (rm_Method message) ["turn/started"; "item/started"] then s else
    match ephemeralObject (rm_Params message) with
    | Some params =>
      if negb (isText (get "threadId" params) (es_threadID s)) then setErr s ErrEphemeralProtocol else
      if str_eqb (rm_Method message) "error" then consumeError params s else
      if str_eqb (rm_Method message) "item/completed" then
        if negb (isText (get "turnId" params) (es_turnID s)) then setErr s ErrEphemeralProtocol else
        match get "item" params with
        | JObj item => consumeItem item s
        | _ => setErr s ErrEphemeralProtocol
        end
      else
        match get "turn" params with
        | JObj turn =>
          if negb (isText (get "id" turn) (es_turnID s)) then setErr s ErrEphemeralProtocol else
          match get "items" turn with
          | JArr items =>
            let s := consumeItems items s in
            match es_err s with Some _ => s | None => consumeStatus turn s end
          | _ => setErr s ErrEphemeralProtocol
          end
        | _ => setErr s ErrEphemeralProtocol
        end
    | None => setErr s ErrEphemeralProtocol
    end
  | _, _ => s
  end.

(** ** The reader's hook *)

Definition bufferLimit : nat := 32.

(** What the reader does next: deliver the response as ordinary code does, or
    nothing more, after answering a server request with an error. *)
Inductive handled := Deliver | Handled (refusal : option string).

Definition refusalText (method : string) : string :=
  if str_eqb method "item/tool/requestUserInput"
  then "Questions are unavailable for ephemeral utility turns"
  else "Server requests are unavailable for ephemeral utility turns".

(** The last locked section of [handle]. *)
Definition handleEvidence (message : rpcMessage) (s : sink) : sink :=
  let '(refused, s) := rejectEvidence message s in
  match refused, es_err s with
  | false, None =>
    if is_empty (es_threadID s) || is_empty (es_turnID s) then
      if Nat.leb bufferLimit (Datatypes.length (es_events s)) then setErr s ErrEphemeralProtocol
      else setEvents s (es_events s ++ [message])
    else consume message s
  | _, _ => s
  end.

Definition handle (generation : Z) (message : rpcMessage) (s : sink) : handled * sink :=
  let s := if es_generation s =? 0 then setGeneration s generation else s in
  if negb (es_generation s =? generation) then
    (Handled None, fail ErrEphemeralProtocol (setAmbiguous s)) else
  if is_empty (rm_Method message) then (Deliver, s) else
  if present (rm_ID message) then
    (Handled (Some (refusalText (rm_Method message))), fail ErrEphemeralIsolation s) else
  if negb (str_in (rm_Method message) evidenceMethods) then (Handled None, s) else
  (Handled None, signal (handleEvidence message s)).

(** ** The running turn's side *)

(** [bind]; the flag is its result. *)
Definition bindTurn (generation : Z) (threadID turnID : string) (s : sink) : bool * sink :=
  let ambiguous := setErr (setAmbiguous s) ErrEphemeralProtocol in
  if negb (es_generation s =? generation)
     || (negb (is_empty (es_threadID s)) && negb (str_eqb (es_threadID s) threadID))
     || (negb (is_empty (es_turnID s)) && negb (str_eqb (es_turnID s) turnID))
  then (false, ambiguous) else
  if negb (is_empty turnID) && negb (is_empty (es_cleanupTurnID s))
     && negb (str_eqb (es_cleanupTurnID s) turnID)
  then (false, ambiguous) else
  let s := setIdentity s threadID turnID in
  let s := if negb (is_empty turnID)
           then setEvents (foldl (fun s m => consume m s) s (es_events s)) [] else s in
  (match es_err s with None => true | Some _ => false end, s).

Definition beginTurn (generation : Z) (threadID : string) (s : sink) : bool * sink :=
  if (match es_err s with Some _ => true | None => false end)
     || negb (es_generation s =? generation) || negb (str_eqb (es_threadID s) threadID)
     || es_turnIssued s
  then (false, s) else (true, setIssued s).

(** The turn the cleanup may interrupt. *)
Definition cleanupTurn (generation : Z) (threadID responseTurnID : string) (s : sink) : string :=
  if es_cleanupAmbiguous s || negb (es_turnIssued s) || negb (es_generation s =? generation)
     || negb (str_eqb (es_threadID s) threadID) then "" else
  if es_settled s && negb (is_empty (es_turnID s)) then "" else
  if negb (is_empty responseTurnID) then
    if negb (is_empty (es_cleanupTurnID s)) && negb (str_eqb (es_cleanupTurnID s) responseTurnID)
    then "" else responseTurnID
  else es_cleanupTurnID s.

Definition canRetry (generation : Z) (threadID turnID : string) (s : sink) : bool :=
  negb (es_retryRevoked s) && es_transient s && es_terminalFailure s && es_settled s
  && negb (es_cleanupAmbiguous s) && (es_generation s =? generation)
  && str_eqb (es_threadID s) threadID && str_eqb (es_turnID s) turnID && negb (is_empty turnID).

(** [result]: the text, whether the turn is done, and the failure. *)
Definition result (s : sink) : string * bool * option category :=
  (es_finalText s, es_completed s && negb (is_empty (es_finalID s)), es_err s).

(** ** What the reader may do between two steps of the turn *)

(** A frame of the connection, or its loss; [InOverrun] is a second answer to
    one request, which the reader cannot deliver. *)
Inductive input :=
| InFrame (generation : Z) (text : raw) (unmarshalled : option rpcMessage)
| InBinary
| InLost
| InOverrun.

(** The body of [readLoop] and [markDisconnected], as far as the sink goes. *)
Definition receive (i : input) (s : sink) : sink :=
  match i with
  | InFrame generation text unmarshalled =>
    match decode text unmarshalled s with
    | (Some message, s) => (handle generation message s).2
    | (None, s) => s
    end
  | InBinary => fail ErrEphemeralProtocol s
  | InLost => fail ErrEphemeralServer s
  | InOverrun => fail ErrEphemeralProtocol s
  end.
