(* ===== verification/EphemeralFacts.v ===== *)
(** * What the sink of a utility turn has seen

    The invariant of the sink along any sequence of received frames and steps of
    the running turn: as long as nothing contradicted the turn, every event that
    was ever received belongs to it, and the recorded answer or failure is the
    one all of them agree on. *)
From Stdlib Require Import Ascii String.
From S2P Require Import Prelude GoStd GoValue EphemeralJson Ephemeral.
Open Scope Z_scope.

(** ** The reference reading of an event *)

Definition paramsOf (m : rpcMessage) : members := default [] (ephemeralObject (rm_Params m)).
Definition turnOf (m : rpcMessage) : members := mapOrNil (get "turn" (paramsOf m)).
Definition itemsOf (m : rpcMessage) : list members :=
  if str_eqb (rm_Method m) "item/completed" then [mapOrNil (get "item" (paramsOf m))] else
  if str_eqb (rm_Method m) "turn/completed" then mapOrNil <$> default [] (asList (get "items" (turnOf m)))
  else [].

(** An agent message that is not commentary. *)
Definition answers (item : members) : bool :=
  isText (get "type" item) "agentMessage" && negb (isText (get "phase" item) "commentary").

(** The turn an event names. *)
Definition namedTurn (m : rpcMessage) : json :=
  if str_in (rm_Method m) ["turn/started"; "turn/completed"] then get "id" (turnOf m)
  else get "turnId" (paramsOf m).

Definition belongs (threadID turnID : string) (m : rpcMessage) : Prop :=
  get "threadId" (paramsOf m) = JStr threadID ∧ namedTurn m = JStr turnID.

(** The item is the answer [text] with identity [id]. *)
Definition answerIs (id text : string) (item : members) : Prop :=
  get "id" item = JStr id ∧ get "text" item = JStr text ∧ get "phase" item = JStr "final_answer" ∧ id ≠ "".

Definition transientError (v : json) : bool := (ephemeralTurnError v).1.

(** The event is consistent with the state of the sink. *)
Record agrees (s : sink) (m : rpcMessage) : Prop := {
  ag_belongs : belongs (es_threadID s) (es_turnID s) m;
  ag_answers : Forall (fun item => answers item = true → answerIs (es_finalID s) (es_finalText s) item) (itemsOf m);
  ag_completed : rm_Method m = "turn/completed" →
    es_settled s = true ∧
    (es_terminalFailure s = false → es_completed s = true ∧ get "status" (turnOf m) = JStr "completed") ∧
    (es_terminalFailure s = true → es_transient s = true →
       ephemeralCompletionEvidence (turnOf m) = es_terminalEvidence s);
  ag_error : rm_Method m = "error" →
    get "willRetry" (paramsOf m) = JBool true ∨
    es_terminalFailure s = true ∧ (es_transient s = true → transientError (get "error" (paramsOf m)) = true) }.

(** ** Contradicted states *)

(** Nothing was revoked, no identity is ambiguous, and a failure came only with
    the end of the turn. *)
Definition sound (s : sink) : Prop :=
  es_retryRevoked s = false ∧ es_cleanupAmbiguous s = false ∧ (es_err s = None ∨ es_settled s = true).

(** A contradicted state stays contradicted, and a contradiction comes with an error. *)
Definition keeps (s s' : sink) : Prop :=
  (es_retryRevoked s = true → es_retryRevoked s' = true) ∧
  (es_cleanupAmbiguous s = true → es_cleanupAmbiguous s' = true) ∧
  (is_Some (es_err s) → is_Some (es_err s')) ∧
  (is_Some (es_err s) → es_settled s' = es_settled s) ∧
  (es_err s' = None → es_retryRevoked s' = es_retryRevoked s ∧ es_cleanupAmbiguous s' = es_cleanupAmbiguous s).

Lemma keeps_sound s s' : keeps s s' → sound s' → sound s.
Proof.
  intros (Hr & Ha & He & Hs & _) (Hr' & Ha' & Hok). split_and!.
  - destruct (es_retryRevoked s); [|done]. rewrite Hr in Hr' by done. done.
  - destruct (es_cleanupAmbiguous s); [|done]. rewrite Ha in Ha' by done. done.
  - destruct (es_err s) eqn:E; [|by left]. right. rewrite <- Hs by done.
    destruct Hok as [Hn|]; [|done]. destruct He as [? He]; [done|]. congruence.
Qed.

#[export] Instance keeps_refl : Reflexive keeps.
Proof. intros s. unfold keeps. tauto. Qed.
#[export] Instance keeps_trans : Transitive keeps.
Proof.
  intros a b c (H1 & H2 & H3 & H4 & H5) (H1' & H2' & H3' & H4' & H5'). unfold keeps. split_and!; auto.
  - intros H. rewrite H4' by auto. auto.
  - intros H. destruct (H5' H) as [-> ->]. apply H5. destruct (es_err b) eqn:E; [|done].
    destruct H3'; [done|congruence].
Qed.

Lemma keeps_none s s' :
  es_err s = None → (es_retryRevoked s = true → es_retryRevoked s' = true) →
  (es_cleanupAmbiguous s = true → es_cleanupAmbiguous s' = true) →
  (es_err s' = None → es_retryRevoked s' = es_retryRevoked s ∧ es_cleanupAmbiguous s' = es_cleanupAmbiguous s) →
  keeps s s'.
Proof. intros He Hr Ha Hf. unfold keeps. rewrite He. split_and!; auto; by intros [? ?]. Qed.

(** Prove [keeps] of an operation by its cases. *)
Ltac keeping := unfold keeps; repeat (progress simpl || cases); split_and!; auto; first [by intros [? ?]; eauto | done | congruence].

Lemma keeps_setErr c s : keeps s (setErr s c).
Proof. keeping. Qed.
Lemma keeps_refuse c s : keeps s (firstErr c (revoke s)).
Proof. unfold firstErr. keeping. Qed.
Lemma keeps_firstErr c s : keeps s (firstErr c s).
Proof. unfold firstErr. keeping. Qed.
Lemma keeps_signal s : keeps s (signal s).
Proof. keeping. Qed.
Lemma keeps_setFailure t s : keeps s (setFailure s t).
Proof. keeping. Qed.
Lemma keeps_setCleanupTurn id s : keeps s (setCleanupTurn s id).
Proof. keeping. Qed.
Lemma keeps_setEvents l s : keeps s (setEvents s l).
Proof. keeping. Qed.
Create HintDb sink.
#[export] Hint Resolve keeps_setErr keeps_refuse keeps_firstErr keeps_signal
  keeps_setFailure keeps_setCleanupTurn keeps_setEvents : sink.
#[export] Hint Extern 1 (keeps ?s ?s) => reflexivity : sink.

Lemma keeps_fail c s : keeps s (fail c s).
Proof. unfold fail, firstErr. keeping. Qed.

Lemma keeps_consumeItem item s : keeps s (consumeItem item s).
Proof. unfold consumeItem. keeping. Qed.

Lemma keeps_consumeItems items s : keeps s (consumeItems items s).
Proof.
  revert s. induction items as [|v items IH]; intros s; [by eauto with sink|].
  destruct v as [| | | | |item]; simpl; eauto with sink.
  pose proof (keeps_consumeItem item s). cases; [done|]. etrans; [done|apply IH].
Qed.

Lemma keeps_consumeStatus turn s : es_err s = None → keeps s (consumeStatus turn s).
Proof. intros He. unfold consumeStatus. repeat (progress simpl || cases); apply keeps_none; auto; done. Qed.

Lemma keeps_consumeError params s : keeps s (consumeError params s).
Proof. unfold consumeError. keeping. Qed.

Lemma keeps_rejectError m s : keeps s (rejectError m s).2.
Proof.
  unfold rejectError, validError. repeat (progress simpl || cases); simplify_eq/=; keeping.
Qed.

Lemma keeps_noteCleanup m s : keeps s (noteCleanupIdentity m s).
Proof. unfold noteCleanupIdentity, firstErr. keeping. Qed.

Lemma keeps_rejectEvidence m s : keeps s (rejectEvidence m s).2.
Proof.
  unfold rejectEvidence. pose proof (keeps_rejectError m s). destruct (rejectError m s) as [[] s1]; [done|].
  simpl in *. cases; [done|]. pose proof (keeps_noteCleanup m s1).
  cases; simpl; [|by etrans]. etrans; [done|]. etrans; [done|]. apply keeps_refuse.
Qed.

Lemma keeps_consume_from m s b s1 : rejectEvidence m s = (b, s1) → keeps s1 (consume m s).
Proof.
  unfold consume. intros ->. destruct b; [reflexivity|].
  destruct (es_err s1) eqn:He; [reflexivity|].
  repeat first [apply keeps_consumeError | apply keeps_consumeItem | apply keeps_consumeItems
    | by eauto with sink | cases].
  etrans; [apply keeps_consumeItems|]. by apply keeps_consumeStatus.
Qed.

Lemma keeps_consume m s : keeps s (consume m s).
Proof.
  pose proof (keeps_rejectEvidence m s). destruct (rejectEvidence m s) as [b s1] eqn:E.
  etrans; [done|by eapply keeps_consume_from].
Qed.

Lemma keeps_handleEvidence_from m s b s1 : rejectEvidence m s = (b, s1) → keeps s1 (handleEvidence m s).
Proof.
  unfold handleEvidence. intros ->. repeat first [by eauto using keeps_consume with sink | cases].
Qed.

Lemma keeps_handleEvidence m s : keeps s (handleEvidence m s).
Proof.
  pose proof (keeps_rejectEvidence m s). destruct (rejectEvidence m s) as [b s1] eqn:E.
  etrans; [done|by eapply keeps_handleEvidence_from].
Qed.

Lemma keeps_setGeneration g s : keeps s (setGeneration s g).
Proof. keeping. Qed.

Lemma keeps_handle g m s : keeps s (handle g m s).2.
Proof.
  unfold handle. assert (keeps s (if es_generation s =? 0 then setGeneration s g else s)) as H.
  { cases; eauto using keeps_setGeneration with sink. }
  revert H. generalize (if es_generation s =? 0 then setGeneration s g else s). intros s1 H.
  repeat (progress simpl || cases); auto; (etrans; [exact H|]);
    [unfold fail, firstErr; keeping|apply keeps_fail|].
  etrans; [apply keeps_handleEvidence|eauto with sink].
Qed.

Lemma keeps_decode text u s : keeps s (decode text u s).2.
Proof.
  unfold decode. assert (keeps s (countFrame s (raw_len text))) by keeping.
  repeat (progress simpl || cases); auto; etrans; eauto using keeps_fail.
Qed.

Lemma keeps_receive i s : keeps s (receive i s).
Proof.
  destruct i; simpl; eauto using keeps_fail. pose proof (keeps_decode text unmarshalled s).
  destruct (decode text unmarshalled s) as [[m|] s1]; [|done]. etrans; [done|apply keeps_handle].
Qed.

Lemma keeps_replay events s : keeps s (foldl (fun s m => consume m s) s events).
Proof.
  revert s. induction events as [|m events IH]; intros s; simpl; [reflexivity|].
  etrans; [apply keeps_consume|apply IH].
Qed.

Lemma keeps_bindTurn g t u s : keeps s (bindTurn g t u s).2.
Proof.
  unfold bindTurn. assert (keeps s (setErr (setAmbiguous s) ErrEphemeralProtocol)) by keeping.
  assert (keeps s (setIdentity s t u)) by keeping.
  cases; [done|]. cases; [done|]. simpl. cases; [|done]. etrans; [done|].
  etrans; [apply keeps_replay|eauto with sink].
Qed.

(** ** Agreement is never withdrawn *)

Record grows (s s' : sink) : Prop := {
  gr_identity : es_threadID s' = es_threadID s ∧ es_turnID s' = es_turnID s ∧
    es_generation s' = es_generation s ∧ es_turnIssued s' = es_turnIssued s;
  gr_final : es_finalID s ≠ "" → es_finalID s' = es_finalID s ∧ es_finalText s' = es_finalText s;
  gr_settled : es_settled s = true → es_settled s' = true ∧
    es_terminalFailure s' = es_terminalFailure s ∧ es_terminalEvidence s' = es_terminalEvidence s;
  gr_completed : es_completed s = true → es_completed s' = true;
  gr_failure : es_terminalFailure s = true →
    es_terminalFailure s' = true ∧ (es_transient s' = true → es_transient s = true) }.

#[export] Instance grows_refl : Reflexive grows.
Proof. intros s. by split; auto. Qed.
#[export] Instance grows_trans : Transitive grows.
Proof.
  intros a b c [(I1 & I2 & I3 & I4) F S C E] [(I1' & I2' & I3' & I4') F' S' C' E']. split.
  - split_and!; congruence.
  - intros H. destruct (F H) as [F1 F2]. destruct F' as [F3 F4]; [congruence|]. split; congruence.
  - intros H. destruct (S H) as (S1 & S2 & S3). destruct (S' S1) as (? & ? & ?). split_and!; congruence.
  - auto.
  - intros H. destruct (E H) as [E1 E2]. destruct (E' E1). auto.
Qed.

Lemma agrees_grows s s' m : grows s s' → agrees s m → agrees s' m.
Proof.
  intros [(I1 & I2 & _) F S C E] [B A Cm Em]. split.
  - by rewrite I1, I2.
  - eapply Forall_impl; [exact A|]. intros item H Ha. destruct (H Ha) as (? & ? & ? & Hne).
    destruct (F Hne) as [-> ->]. by split_and!.
  - intros Hm. destruct (Cm Hm) as (Hs & Hok & Hev). destruct (S Hs) as (? & Hf & Hv).
    rewrite Hf, Hv. split_and!; [done| |].
    + intros Ht. destruct (Hok Ht). auto.
    + intros Ht Htr. apply Hev; [done|]. by apply E.
  - intros Hm. destruct (Em Hm) as [|[Hf Ht]]; [by left|]. right. destruct (E Hf). auto.
Qed.

(** ** Items *)

Lemma isText_true v s : isText v s = true ↔ v = JStr s.
Proof. destruct v; simpl; try done. rewrite str_eqb_eq. naive_solver. Qed.

Lemma isNil_true v : isNil v = true ↔ v = JNull.
Proof. by destruct v. Qed.

(** What an accepted answer shows. *)
Record validAnswer (s : sink) (item : members) : Prop := {
  va_phase : get "phase" item = JStr "final_answer";
  va_id : ephemeralID (textOrEmpty (get "id" item)) = true;
  va_texts : get "id" item = JStr (textOrEmpty (get "id" item)) ∧ get "text" item = JStr (textOrEmpty (get "text" item));
  va_bounds : let text := textOrEmpty (get "text" item) in
    text ≠ "" ∧ len text ≤ outputLimit ∧ validString text = true;
  va_same : es_finalID s ≠ "" → answerIs (es_finalID s) (es_finalText s) item;
  va_known : es_settled s = true → es_terminalFailure s = true → es_finalID s ≠ "" }.

Lemma ephemeralID_nonempty id : ephemeralID id = true → id ≠ "".
Proof. unfold ephemeralID. intros H. by bools. Qed.

Lemma validateItem_answer item s :
  validateItem item true s = None → answers item = true → validAnswer s item.
Proof.
  unfold validateItem, answers. intros H [Hk Hp]%andb_true_iff. apply isText_true in Hk. rewrite Hk in H.
  apply negb_true_iff in Hp. rewrite Hp, str_eqb_refl in H. cbn [negb orb] in H.
  destruct (isText (get "delivery" item) "async" || negb (isNil (get "questions" item))); [done|].
  destruct (get "id" item) as [| | |id| |] eqn:Hid; try done.
  destruct (negb (ephemeralID id) || negb (ephemeralID "agentMessage")) eqn:Hids; [done|].
  destruct (get "text" item) as [| | |text| |] eqn:Htx; try done. cases_in H; [done|]. bools.
  apply isText_true in H0. split; rewrite ?Hid, ?Htx; simpl; auto.
  - intros Hne. apply is_empty_false in Hne. rewrite Hne in H2. simpl in H2. bools. subst.
    by split_and!.
  - intros Hs Ht. rewrite Hs, Ht in H1. simpl in H1. by bools.
Qed.

Lemma validateItems_all items s :
  validateItems items s = None → Forall (fun v => ∃ item, v = JObj item ∧ validateItem item true s = None) items.
Proof.
  induction items as [|v items IH]; intros H; [constructor|]. destruct v as [| | | | |item]; try done.
  simpl in H. destruct (validateItem item true s) eqn:E; [done|]. constructor; eauto.
Qed.

Lemma evidenceFault_cleanup m s id : evidenceFault m (setCleanupTurn s id) = evidenceFault m s.
Proof.
  unfold evidenceFault. assert (∀ items, validateItems items (setCleanupTurn s id) = validateItems items s) as H.
  { induction items as [|[] items IH]; simpl; try done. by rewrite IH. }
  destruct (ephemeralObject (rm_Params m)) as [params|]; [|done].
  destruct (get "turn" params) as [| | | | |turn]; try done.
  destruct (get "items" turn) as [| | | |items|]; try done. by rewrite H.
Qed.

(** ** Evidence *)

(** What an event that was not refused shows, in the state it came to. *)
Record accepted (s : sink) (m : rpcMessage) : Prop := {
  ac_identity : es_turnID s ≠ "" → es_turnIssued s = true → belongs (es_threadID s) (es_turnID s) m;
  ac_error : rm_Method m = "error" → es_settled s = false ∧ es_turnIssued s = true ∧
    ∃ b, get "willRetry" (paramsOf m) = JBool b;
  ac_decoded : is_Some (ephemeralObject (rm_Params m));
  ac_fault : rm_Method m ≠ "error" → evidenceFault m s = None }.

Lemma refused_revoked m s s1 : rejectEvidence m s = (true, s1) → es_retryRevoked s1 = true.
Proof.
  unfold rejectEvidence, rejectError. intros H.
  assert (∀ c s, es_retryRevoked (firstErr c (revoke s)) = true) as Hf.
  { intros c x. unfold firstErr. simpl. by destruct (es_err x). }
  repeat (progress simplify_eq/= || cases_in H); auto.
Qed.

Lemma errorIdentity_belongs m s :
  rm_Method m = "error" → errorIdentity (paramsOf m) s = true →
  es_turnIssued s = true ∧ (es_turnID s ≠ "" → belongs (es_threadID s) (es_turnID s) m).
Proof.
  unfold errorIdentity, belongs, namedTurn. intros ->. simpl. intros H.
  destruct (get "threadId" (paramsOf m)) eqn:Ht; try done.
  destruct (get "turnId" (paramsOf m)) eqn:Hu; try done. bools. split; [done|].
  intros Hne. apply is_empty_false in Hne. rewrite Hne in *. simpl in *. bools. by subst.
Qed.

Lemma rejectError_ok m s b s1 :
  rejectError m s = (b, s1) → sound s1 → rm_Method m = "error" → b = false ∧ s1 = s ∧ accepted s m.
Proof.
  unfold rejectError. intros H Hs Hm. rewrite Hm in H. simpl in H.
  destruct (es_settled s) eqn:Hset; [simplify_eq; by destruct Hs|].
  unfold validError in H. change (default [] (ephemeralObject (rm_Params m))) with (paramsOf m) in H.
  destruct (errorIdentity (paramsOf m) s) eqn:Hi.
  2: { rewrite andb_false_r in H. simpl in H. injection H as <- <-. by destruct Hs. }
  match type of H with (if ?v then _ else _) = _ => destruct v eqn:Hv end;
    [|simplify_eq; by destruct Hs]. bools. injection H as <- <-.
  pose proof (errorIdentity_belongs m s Hm Hi) as [? ?].
  destruct (get "willRetry" (paramsOf m)) eqn:Hr; try done. split; [done|]. split; [done|].
  split; auto; [eauto| |congruence]. destruct (ephemeralObject (rm_Params m)); [eauto|done].
Qed.

Lemma eventIdentity_belongs m s id :
  rm_Method m ≠ "error" → eventIdentity m s = (id, true) → ephemeralID id = true → es_turnID s = id →
  belongs (es_threadID s) (es_turnID s) m.
Proof.
  unfold eventIdentity, belongs, namedTurn. intros Hm H Hid <-.
  change (default [] (ephemeralObject (rm_Params m))) with (paramsOf m) in H.
  apply ephemeralID_nonempty in Hid.
  assert (∀ v, textOrEmpty v = es_turnID s → v = JStr (es_turnID s)) as Htext.
  { intros v Hv. destruct v; unfold textOrEmpty in Hv; simpl in Hv; congruence. }
  cases_in H; (injection H as Hn Hv); (split; [|by apply Htext]); apply isText_true.
  - cases_in Hv; bools; done.
  - bools. done.
Qed.

Lemma noteCleanup_ok m s :
  rm_Method m ≠ "error" → es_cleanupAmbiguous (noteCleanupIdentity m s) = false →
  (noteCleanupIdentity m s = s ∨ ∃ id, noteCleanupIdentity m s = setCleanupTurn s id) ∧
  (es_turnID s ≠ "" → es_turnIssued s = true → belongs (es_threadID s) (es_turnID s) m).
Proof.
  unfold noteCleanupIdentity, firstErr. intros Hm Ha. destruct (es_turnIssued s) eqn:Hi; simpl in *; [|by split; [left|]].
  destruct (eventIdentity m s) as [id valid] eqn:E. cases; [by cases_in Ha|]. bools. split; [eauto|].
  intros Hne _. subst valid. eapply eventIdentity_belongs; eauto.
  apply is_empty_false in Hne. rewrite Hne in *. simpl in *. by bools.
Qed.

Lemma fault_decoded m s : evidenceFault m s = None → is_Some (ephemeralObject (rm_Params m)).
Proof. unfold evidenceFault. intros H. cases_in H; [done|]. destruct (ephemeralObject _); [eauto|done]. Qed.

Lemma rejectEvidence_ok m s b s1 :
  rejectEvidence m s = (b, s1) → sound s1 →
  b = false ∧ (s1 = s ∨ ∃ id, s1 = setCleanupTurn s id) ∧ accepted s m.
Proof.
  intros H Hs. destruct b. { apply refused_revoked in H. destruct Hs; congruence. }
  split; [done|]. unfold rejectEvidence in H. destruct (rejectError m s) as [b s2] eqn:E.
  destruct b; [done|]. destruct (str_eqb (rm_Method m) "error") eqn:Hm; bools.
  { simplify_eq. apply rejectError_ok in E as (_ & -> & ?); auto. }
  unfold rejectError in E. rewrite (proj2 (str_eqb_neq _ _) Hm) in E. simpl in E. injection E as <-.
  destruct (evidenceFault m (noteCleanupIdentity m s)) eqn:F; [done|]. injection H as <-.
  destruct (noteCleanup_ok m s Hm) as [Hc Hb]; [by destruct Hs as (_ & ? & _)|]. split; [done|].
  assert (evidenceFault m s = None) as F'.
  { destruct Hc as [Hc|[id Hc]]; rewrite Hc in F; [done|by rewrite evidenceFault_cleanup in F]. }
  split; auto; [done|]. by eapply fault_decoded.
Qed.

(** ** The invariant of a sound state *)

Record inv (s : sink) : Prop := {
  iv_unbound : es_turnID s = "" → es_settled s = false ∧ es_completed s = false ∧
    es_terminalFailure s = false ∧ es_finalID s = "";
  iv_bound : es_turnID s ≠ "" → es_threadID s ≠ "" ∧ es_turnIssued s = true;
  iv_err : is_Some (es_err s) → es_terminalFailure s = true;
  iv_completed : es_completed s = true → es_settled s = true ∧ es_terminalFailure s = false;
  iv_settled : es_settled s = true → es_completed s = true ∨ is_Some (es_err s);
  iv_final : es_finalID s ≠ "" → es_finalText s ≠ "" ∧ len (es_finalText s) ≤ outputLimit ∧
    validString (es_finalText s) = true }.

(** The event is the reason for what changed. *)
Record explains (m : rpcMessage) (s s' : sink) : Prop := {
  ex_completed : es_completed s' = true → es_completed s = true ∨ rm_Method m = "turn/completed";
  ex_final : es_finalID s' ≠ "" →
    es_finalID s' = es_finalID s ∧ es_finalText s' = es_finalText s ∨
    ∃ item, item ∈ itemsOf m ∧ answers item = true ∧ answerIs (es_finalID s') (es_finalText s') item;
  ex_settled : es_settled s' = true → es_terminalFailure s' = true → es_transient s' = true →
    es_settled s = true ∧ es_terminalFailure s = true ∧ es_transient s = true ∨
    rm_Method m = "turn/completed" ∧ ephemeralCompletionEvidence (turnOf m) = es_terminalEvidence s' ∧
    (get "status" (turnOf m) = JStr "failed" ∨ get "status" (turnOf m) = JStr "interrupted") ∧
    (get "error" (turnOf m) = JNull ∨ transientError (get "error" (turnOf m)) = true);
  ex_transient : es_terminalFailure s' = true → es_transient s' = true →
    es_terminalFailure s = true ∧ es_transient s = true ∨
    rm_Method m = "error" ∧ get "willRetry" (paramsOf m) = JBool false ∧
      transientError (get "error" (paramsOf m)) = true ∨
    rm_Method m = "turn/completed" ∧ transientError (get "error" (turnOf m)) = true }.

Lemma explains_refl m s : explains m s s.
Proof. split; auto. Qed.

(** [consumeItem] records the answer of an accepted item and changes nothing else. *)
Record recordsItem (items : list members) (s s' : sink) : Prop := {
  ri_same : es_threadID s' = es_threadID s ∧ es_turnID s' = es_turnID s ∧ es_generation s' = es_generation s ∧
    es_turnIssued s' = es_turnIssued s ∧ es_settled s' = es_settled s ∧ es_completed s' = es_completed s ∧
    es_terminalFailure s' = es_terminalFailure s ∧ es_terminalEvidence s' = es_terminalEvidence s ∧
    es_transient s' = es_transient s ∧ es_err s' = es_err s ∧ es_events s' = es_events s ∧
    es_retryRevoked s' = es_retryRevoked s ∧ es_cleanupAmbiguous s' = es_cleanupAmbiguous s;
  ri_final : es_finalID s ≠ "" → es_finalID s' = es_finalID s ∧ es_finalText s' = es_finalText s;
  ri_answers : Forall (fun item => answers item = true → answerIs (es_finalID s') (es_finalText s') item) items;
  ri_source : es_finalID s' ≠ "" →
    (es_finalID s' = es_finalID s ∧ es_finalText s' = es_finalText s) ∨
    (∃ item, item ∈ items ∧ answers item = true ∧ answerIs (es_finalID s') (es_finalText s') item) ∧
    es_finalText s' ≠ "" ∧ len (es_finalText s') ≤ outputLimit ∧ validString (es_finalText s') = true }.

Lemma consumeItem_records item s :
  es_err s = None → es_retryRevoked (consumeItem item s) = false → recordsItem [item] s (consumeItem item s).
Proof.
  unfold consumeItem. intros He Hr. destruct (validateItem item true s) eqn:V; [done|]. rewrite He in *.
  pose proof (validateItem_answer item s V) as Ha.
  destruct (isText (get "type" item) "agentMessage" && isText (get "phase" item) "final_answer") eqn:E.
  - assert (answers item = true) as Hans.
    { unfold answers. bools. apply andb_true_iff. split; [done|]. apply isText_true in H0. by rewrite H0. }
    destruct (Ha Hans) as [Hp Hid [Hi Ht] (Hb1 & Hb2 & Hb3) Hsame _].
    assert (answerIs (textOrEmpty (get "id" item)) (textOrEmpty (get "text" item)) item) as Hans'.
    { split_and!; auto using ephemeralID_nonempty. }
    split; simpl.
    + by rewrite He.
    + intros Hne. destruct (Hsame Hne) as (-> & -> & _). done.
    + constructor; [done|apply Forall_nil_2].
    + intros _. right. split; [|done]. exists item. split_and!; [by left|done..].
  - split; auto. { by rewrite He. }
    constructor; [|constructor]. intros Hans. exfalso.
    destruct (Ha Hans) as [Hp _ _ _ _ _]. unfold answers in Hans. bools. rewrite Hp in E. simpl in E.
    apply andb_false_iff in E as [E|E]; [congruence|done].
Qed.

Lemma recordsItem_app l1 l2 a b c : recordsItem l1 a b → recordsItem l2 b c → recordsItem (l1 ++ l2) a c.
Proof.
  intros [(? & ? & ? & ? & ? & ? & ? & ? & ? & ? & ? & ? & ?) F A S] [(? & ? & ? & ? & ? & ? & ? & ? & ? & ? & ? & ? & ?) F' A' S'].
  split.
  - split_and!; congruence.
  - intros Hne. destruct (F Hne) as [F1 F2]. destruct F' as [F3 F4]; [congruence|]. split; congruence.
  - apply Forall_app. split; [|done]. eapply Forall_impl; [exact A|]. intros item Hit Ha.
    destruct (Hit Ha) as (? & ? & ? & Hne). destruct (F' Hne) as [-> ->]. by split_and!.
  - intros Hne. destruct (S' Hne) as [[Hi Ht]|[(item & ? & ?) Hb]].
    + rewrite Hi, Ht. destruct S as [[Hi' Ht']|[(item & ? & ?) ?]]; [congruence|auto|].
      right. split; [|done]. exists item. split; [by apply elem_of_app; left|done].
    + right. split; [|done]. exists item. split; [by apply elem_of_app; right|done].
Qed.

Lemma consumeItems_records items s :
  es_err s = None → es_settled s = false → sound (consumeItems items s) →
  recordsItem (mapOrNil <$> items) s (consumeItems items s).
Proof.
  revert s. induction items as [|v items IH]; intros s He Hset Hs.
  { split; simpl; auto. by rewrite He. }
  assert (¬ sound (setErr s ErrEphemeralProtocol)) as Hbad by (intros (_ & _ & [?|?]); simpl in *; congruence).
  destruct v as [| | | | |item]; try done. cbn [consumeItems] in *.
  assert (sound (consumeItem item s)) as Hs1.
  { cases_in Hs; [done|]. eapply keeps_sound; [apply keeps_consumeItems|done]. }
  pose proof (consumeItem_records item s He (proj1 Hs1)) as R. pose proof (ri_same _ _ _ R) as Hsame.
  destruct Hsame as (_ & _ & _ & _ & Hset' & _ & _ & _ & _ & He' & _). rewrite He, Hset in *.
  rewrite He' in *. apply (recordsItem_app [item] _ _ (consumeItem item s)); [done|]. by apply IH.
Qed.

Lemma records_grows l s s' : recordsItem l s s' → grows s s'.
Proof.
  intros [(? & ? & ? & ? & ? & ? & ? & ? & ? & ? & ?) F _ _]. split; auto; try congruence.
  - intros. split_and!; congruence.
  - intros. split; congruence.
Qed.

Lemma records_inv l s s' : recordsItem l s s' → es_turnID s ≠ "" → inv s → inv s'.
Proof.
  intros [(E1 & E2 & E3 & E4 & E5 & E6 & E7 & E8 & E9 & E10 & ?) F _ S] Hne [].
  split; rewrite ?E1, ?E2, ?E4, ?E5, ?E6, ?E7, ?E10; auto; [done|].
  intros Hf. destruct (S Hf) as [[Hi ->]|(_ & ?)]; [|done]. apply iv_final0. congruence.
Qed.

(** ** Consuming an accepted event *)

Lemma fault_item m s :
  rm_Method m = "item/completed" → evidenceFault m s = None →
  ∃ item, get "item" (paramsOf m) = JObj item ∧ validateItem item true s = None.
Proof.
  unfold evidenceFault, paramsOf. intros Hm H. rewrite Hm in H. cases_in H; [done|].
  destruct (ephemeralObject (rm_Params m)) as [params|]; [|done]. simpl in *.
  destruct (get "item" params); try done. eauto.
Qed.

Lemma fault_turn m s :
  rm_Method m = "turn/completed" → evidenceFault m s = None →
  ∃ items, get "turn" (paramsOf m) = JObj (turnOf m) ∧ get "items" (turnOf m) = JArr items ∧
    es_completed s = false ∧ validateItems items s = None ∧
    (es_settled s = true → es_terminalFailure s = true →
       ephemeralCompletionEvidence (turnOf m) = es_terminalEvidence s).
Proof.
  unfold evidenceFault, turnOf, paramsOf. intros Hm H. rewrite Hm in H. cases_in H; [done|].
  destruct (ephemeralObject (rm_Params m)) as [params|]; [|done].
  change (str_in "turn/completed" ["item/started"; "item/completed"]) with false in H.
  change (str_eqb "turn/completed" "turn/started") with false in H. change (default [] (Some params)) with params.
  destruct (get "turn" params) as [| | | | |turn]; try done. change (mapOrNil (JObj turn)) with turn.
  destruct (es_completed s); [done|]. do 2 (cases_in H; [done|]).
  destruct (get "items" turn) as [| | | |items|]; try done.
  destruct (validateItems items s) eqn:V; [done|]. cases_in H; [done|].
  exists items. split_and!; auto. intros Hs Hf. rewrite Hs, Hf in *. simpl in *. by bools.
Qed.

Lemma fault_started m s :
  rm_Method m = "turn/started" → evidenceFault m s = None → es_settled s = false.
Proof.
  unfold evidenceFault. intros Hm H. rewrite Hm in H. cases_in H; [done|].
  destruct (ephemeralObject (rm_Params m)) as [params|]; [|done]. simpl in H.
  destruct (get "turn" params); try done. by destruct (es_settled s).
Qed.

Record consumed (m : rpcMessage) (s s' : sink) : Prop := {
  co_grows : grows s s';
  co_agrees : agrees s' m;
  co_inv : inv s';
  co_explains : explains m s s';
  co_events : es_events s' = es_events s }.

Section accepted.
Context (m : rpcMessage) (s : sink).
Context (Hinv : inv s) (Hbound : es_turnID s ≠ "") (Hacc : accepted s m).

Lemma accepted_belongs : belongs (es_threadID s) (es_turnID s) m.
Proof. apply (ac_identity _ _ Hacc); [done|]. by apply iv_bound. Qed.

(** An event that changes nothing agrees once the turn is settled with a failure. *)
Lemma accepted_settled : is_Some (es_err s) → es_settled s = true → str_in (rm_Method m) evidenceMethods = true → agrees s m.
Proof.
  intros He Hset Hm. pose proof (iv_err _ Hinv He) as Hf. split; [apply accepted_belongs| | |].
  - unfold itemsOf. destruct (str_eqb (rm_Method m) "item/completed") eqn:Hi; [bools|
      destruct (str_eqb (rm_Method m) "turn/completed") eqn:Ht; [bools|constructor]].
    + destruct (fault_item m s Hi) as (item & Hg & V). { apply (ac_fault _ _ Hacc). by rewrite Hi. }
      rewrite Hg. constructor; [|constructor]. intros Ha. destruct (validateItem_answer _ _ V Ha); auto.
    + destruct (fault_turn m s Ht) as (items & _ & Hg & _ & V & _). { apply (ac_fault _ _ Hacc). by rewrite Ht. }
      rewrite Hg. simpl. apply Forall_fmap. apply validateItems_all in V. eapply Forall_impl; [exact V|].
      intros v (item & -> & V') Ha. destruct (validateItem_answer _ _ V' Ha); auto.
  - intros Ht. destruct (fault_turn m s Ht) as (items & _ & Hg & _ & _ & Hev). { apply (ac_fault _ _ Hacc). by rewrite Ht. }
    split_and!; auto. congruence.
  - intros Hm'. destruct (ac_error _ _ Hacc Hm'). congruence.
Qed.

(** A started turn or item. *)
Lemma accepted_started : str_in (rm_Method m) ["turn/started"; "item/started"] = true → consumed m s s.
Proof.
  intros Hm. split; auto using explains_refl; [reflexivity|]. apply str_in_true in Hm.
  assert (rm_Method m ≠ "turn/completed" ∧ rm_Method m ≠ "error" ∧ rm_Method m ≠ "item/completed") as (? & ? & ?).
  { split_and!; intros E; rewrite E in Hm; set_solver. }
  split; [apply accepted_belongs| |done..]. unfold itemsOf.
  rewrite !(proj2 (str_eqb_neq _ _)) by done. constructor.
Qed.

Lemma accepted_item item :
  rm_Method m = "item/completed" → es_err s = None → get "item" (paramsOf m) = JObj item →
  sound (consumeItem item s) → consumed m s (consumeItem item s).
Proof.
  intros Hm He Hg Hs. pose proof (consumeItem_records item s He (proj1 Hs)) as R.
  assert (itemsOf m = [item]) as Hit by (unfold itemsOf; by rewrite Hm, Hg).
  pose proof (records_grows _ _ _ R) as Hgr. pose proof (records_inv _ _ _ R Hbound Hinv) as Hiv.
  destruct R as [(E1 & E2 & E3 & E4 & E5 & E6 & E7 & E8 & E9 & E10 & E11 & _) F A S].
  split; [done| |done| |done].
  - split; rewrite ?Hm; [rewrite E1, E2; apply accepted_belongs|by rewrite Hit|done..].
  - split; rewrite ?Hit, ?E5, ?E6, ?E7, ?E9; auto. intros Hne.
    destruct (S Hne) as [?|[? _]]; auto.
Qed.

Lemma accepted_error :
  rm_Method m = "error" → es_err s = None → sound (consumeError (paramsOf m) s) →
  consumed m s (consumeError (paramsOf m) s).
Proof.
  intros Hm He Hs. destruct (ac_error _ _ Hacc Hm) as (Hset & Hiss & b & Hb).
  pose proof accepted_belongs as Hbel. destruct Hinv as [Hu Hbd Hie Hic Hise Hif].
  assert (itemsOf m = []) as Hit by (unfold itemsOf; by rewrite Hm).
  unfold consumeError in *. rewrite Hb in *. destruct b; simpl in *.
  { split; [reflexivity| |by split|apply explains_refl|done]. split; rewrite ?Hit, ?Hm; auto; done. }
  set (t := if es_terminalFailure s then transientError (get "error" (paramsOf m)) && es_transient s
            else transientError (get "error" (paramsOf m))) in *.
  change (if es_terminalFailure s then (ephemeralTurnError (get "error" (paramsOf m))).1 && es_transient s
          else (ephemeralTurnError (get "error" (paramsOf m))).1) with t in *.
  destruct t eqn:Ht; [|by destruct Hs as (_ & _ & [?|?]); simpl in *; congruence].
  assert (transientError (get "error" (paramsOf m)) = true ∧ (es_terminalFailure s = true → es_transient s = true)) as [Htr Hold].
  { subst t. destruct (es_terminalFailure s); [by bools|done]. }
  split.
  - split; simpl; auto; congruence.
  - split; simpl; rewrite ?Hit, ?Hm; auto; done.
  - split; simpl; auto; try done. intros Hc. destruct (Hic Hc). congruence.
  - split; simpl; auto; congruence.
  - done.
Qed.

(** What the status of a completion settles. *)
Record settles (turn : members) (a b : sink) : Prop := {
  se_same : es_threadID b = es_threadID a ∧ es_turnID b = es_turnID a ∧ es_generation b = es_generation a ∧
    es_turnIssued b = es_turnIssued a ∧ es_finalID b = es_finalID a ∧ es_finalText b = es_finalText a ∧
    es_events b = es_events a;
  se_settled : es_settled b = true;
  se_ok : es_terminalFailure b = false →
    es_completed b = true ∧ get "status" turn = JStr "completed" ∧ es_err b = None;
  se_bad : es_terminalFailure b = true → is_Some (es_err b) ∧ es_completed b = false;
  se_transient : es_terminalFailure b = true → es_transient b = true →
    ephemeralCompletionEvidence turn = es_terminalEvidence b ∧
    (get "status" turn = JStr "failed" ∨ get "status" turn = JStr "interrupted") ∧
    (get "error" turn = JNull ∨ transientError (get "error" turn) = true) ∧
    (es_terminalFailure a = true ∧ es_transient a = true ∨ transientError (get "error" turn) = true);
  se_failure : es_terminalFailure a = true →
    es_terminalFailure b = true ∧ (es_transient b = true → es_transient a = true) }.

Lemma status_settles turn a :
  es_err a = None → es_settled a = false → es_completed a = false →
  sound (consumeStatus turn a) → settles turn a (consumeStatus turn a).
Proof.
  intros He Hset Hc Hs. unfold consumeStatus in *.
  assert (∀ c, ¬ sound (setErr a c)) as Hbad by (intros c (_ & _ & [?|?]); simpl in *; congruence).
  destruct (existsb (isText (get "status" turn)) ["failed"; "interrupted"]) eqn:Hst.
  - assert (get "status" turn = JStr "failed" ∨ get "status" turn = JStr "interrupted") as Hst'.
    { simpl in Hst. apply orb_true_iff in Hst as [?|Hst]; [left; by apply isText_true|].
      right. apply isText_true. by destruct (isText _ "interrupted"). }
    assert (∀ t, (t = true → (get "error" turn = JNull ∨ transientError (get "error" turn) = true) ∧
        (es_terminalFailure a = true ∧ es_transient a = true ∨ transientError (get "error" turn) = true) ∧
        (es_terminalFailure a = true → es_transient a = true)) →
      settles turn a (setErr (setSettled (setFailure a t) (ephemeralCompletionEvidence turn) t) ErrEphemeralServer)) as Hgo.
    { intros t Ht. split; cbn [setErr setSettled setFailure es_threadID es_turnID es_generation es_turnIssued
        es_finalID es_finalText es_events es_settled es_terminalFailure es_err es_completed es_transient
        es_terminalEvidence]; auto; try done; try by eauto.
      - intros _ H. destruct (Ht H) as (? & ? & _). auto.
      - intros Hf. split; [done|]. intros H. by apply Ht. }
    assert (∀ f, f = get "error" turn → f ≠ JNull → sound
      (let '(transient, valid) := ephemeralTurnError f in
       if negb valid then setErr a ErrEphemeralProtocol else
       setErr (setSettled (setFailure a (if es_terminalFailure a then transient && es_transient a else transient))
         (ephemeralCompletionEvidence turn) (if es_terminalFailure a then transient && es_transient a else transient))
         ErrEphemeralServer) → settles turn a
      (let '(transient, valid) := ephemeralTurnError f in
       if negb valid then setErr a ErrEphemeralProtocol else
       setErr (setSettled (setFailure a (if es_terminalFailure a then transient && es_transient a else transient))
         (ephemeralCompletionEvidence turn) (if es_terminalFailure a then transient && es_transient a else transient))
         ErrEphemeralServer)) as Hgo'.
    { intros f Hf Hn Hsf. destruct (ephemeralTurnError f) as [t v] eqn:Et. destruct v; cbn [negb] in *; [|by exfalso; eapply Hbad].
      apply Hgo. unfold transientError. rewrite <- Hf, Et. cbn [fst]. intros Ht.
      destruct (es_terminalFailure a); bools; subst; split_and!; auto; congruence. }
    destruct (get "error" turn) eqn:Hf; try (by apply Hgo'); [].
    apply Hgo. intros Ht. bools. auto.
  - destruct (isText (get "status" turn) "completed") eqn:Hcs; [|by exfalso; eapply Hbad].
    apply isText_true in Hcs. simpl in *. destruct (es_terminalFailure a) eqn:Hf.
    + split; simpl; auto; try done; congruence.
    + rewrite Hc in *. split; simpl; auto; try done; congruence.
Qed.

Lemma accepted_turn items :
  rm_Method m = "turn/completed" → es_err s = None → get "items" (turnOf m) = JArr items →
  sound (let s := consumeItems items s in
         match es_err s with Some _ => s | None => consumeStatus (turnOf m) s end) →
  consumed m s (let s := consumeItems items s in
                match es_err s with Some _ => s | None => consumeStatus (turnOf m) s end).
Proof.
  cbv zeta. intros Hm He Hg Hs.
  destruct (fault_turn m s Hm) as (? & _ & Hg' & Hc & _). { apply (ac_fault _ _ Hacc). by rewrite Hm. }
  assert (es_settled s = false) as Hset.
  { destruct (es_settled s) eqn:E; [|done]. destruct (iv_settled _ Hinv E) as [|[? ?]]; congruence. }
  assert (sound (consumeItems items s)) as Hs1.
  { cases_in Hs; [done|]. eapply keeps_sound; [by apply keeps_consumeStatus|done]. }
  pose proof (consumeItems_records items s He Hset Hs1) as R.
  pose proof (records_grows _ _ _ R) as Hgr. pose proof (records_inv _ _ _ R Hbound Hinv) as Hiv.
  destruct R as [(E1 & E2 & E3 & E4 & E5 & E6 & E7 & E8 & E9 & E10 & E11 & _) F A S].
  rewrite E10, He in *.
  apply status_settles in Hs as [(F1 & F2 & F3 & F4 & F5 & F6 & F7) Hse Hok Hbd Htr Hfl]; [|congruence..].
  assert (itemsOf m = mapOrNil <$> items) as Hit by (unfold itemsOf; by rewrite Hm, Hg).
  split.
  - etrans; [exact Hgr|]. split; auto; try congruence; try done.
  - split; rewrite ?F1, ?F2, ?F5, ?F6, ?Hit, ?Hm; auto; try done.
    + rewrite E1, E2. apply accepted_belongs.
    + intros _. split_and!; [done| |].
      * intros Hx. destruct (Hok Hx) as (? & ? & _). auto.
      * intros Hx Hy. by apply Htr.
  - split; rewrite ?F1, ?F2, ?F4, ?F5, ?F6; auto; try (by rewrite ?E1, ?E2, ?E4; apply Hinv).
    + intros Hx. rewrite E2 in Hx. done.
    + intros [c Hx]. destruct (es_terminalFailure _) eqn:Hy; [done|]. destruct (Hok eq_refl) as (_ & _ & ?). congruence.
    + intros Hx. split; [done|]. destruct (es_terminalFailure _) eqn:Hy; [|done]. destruct (Hbd eq_refl). congruence.
    + intros _. destruct (es_terminalFailure _) eqn:Hy; [right; by apply Hbd|left; by apply Hok].
    + apply Hiv.
  - split; rewrite ?F5, ?F6, ?Hm, ?Hit; auto.
    + intros Hne. destruct (S Hne) as [?|[? _]]; auto.
    + intros _ Hx Hy. right. destruct (Htr Hx Hy) as (? & ? & ? & _). auto.
    + intros Hx Hy. destruct (Htr Hx Hy) as (_ & _ & _ & [[? ?]|?]); [left; split; congruence|auto].
  - congruence.
Qed.
End accepted.

Lemma accepted_cleanup m s id : accepted s m → accepted (setCleanupTurn s id) m.
Proof. intros []. split; auto. by rewrite evidenceFault_cleanup. Qed.
Lemma inv_cleanup s id : inv s → inv (setCleanupTurn s id).
Proof. by intros []; split. Qed.
Lemma consumed_cleanup m s id s' : consumed m (setCleanupTurn s id) s' → consumed m s s'.
Proof. intros [[] ? ? [] ?]. by split; [split|done|done|split|done]. Qed.

(** After an event that was not refused, the state without the cleanup identity. *)
Lemma consume_accepted m s :
  str_in (rm_Method m) evidenceMethods = true → inv s → es_turnID s ≠ "" → accepted s m →
  es_err s = None → ∀ s', rejectEvidence m s' = (false, s) →
  sound (consume m s') → consumed m s (consume m s').
Proof.
  intros Hm Hinv Hb Hacc He s' E. unfold consume. rewrite E, He.
  destruct (str_in (rm_Method m) ["turn/started"; "item/started"]) eqn:Hst.
  { intros _. by apply accepted_started. }
  destruct (ac_decoded _ _ Hacc) as [params Hp]. rewrite Hp.
  assert (paramsOf m = params) as Hpm by (unfold paramsOf; by rewrite Hp).
  destruct (accepted_belongs m s Hinv Hb Hacc) as [Hth Htu]. rewrite Hpm in *. rewrite Hth. simpl.
  rewrite str_eqb_refl. simpl. unfold namedTurn in Htu.
  destruct (str_eqb (rm_Method m) "error") eqn:Hme; bools.
  { rewrite <- Hpm. intros Hs. by apply accepted_error. }
  destruct (str_eqb (rm_Method m) "item/completed") eqn:Hmi; bools.
  - rewrite Hmi in Htu. simpl in Htu. rewrite Hpm in Htu. rewrite Htu. simpl. rewrite str_eqb_refl. simpl.
    destruct (fault_item m s Hmi) as (item & Hg & _); [by apply ac_fault|]. rewrite Hpm in Hg.
    rewrite Hg. intros Hs. apply accepted_item; auto. by rewrite Hpm.
  - assert (rm_Method m = "turn/completed") as Hmt.
    { unfold evidenceMethods in Hm. repeat rewrite elem_of_cons in Hm. repeat rewrite elem_of_cons in Hst.
      pose proof (not_elem_of_nil (rm_Method m)). tauto. }
    destruct (fault_turn m s Hmt) as (items & Hg & Hit & _); [by apply ac_fault|].
    rewrite Hpm in Hg. rewrite Hg. rewrite Hmt in Htu. simpl in Htu. rewrite Htu. simpl.
    rewrite str_eqb_refl, Hit. simpl. intros Hs. by apply accepted_turn.
Qed.

Lemma consume_spec m s :
  str_in (rm_Method m) evidenceMethods = true → inv s → es_turnID s ≠ "" → es_err s = None →
  sound (consume m s) → consumed m s (consume m s).
Proof.
  intros Hm Hinv Hb He Hs. destruct (rejectEvidence m s) as [b s1] eqn:E.
  assert (sound s1) as Hs1 by (eapply keeps_sound; [by eapply keeps_consume_from|done]).
  destruct (rejectEvidence_ok m s b s1 E Hs1) as (-> & [->|[id ->]] & Hacc).
  - by apply consume_accepted.
  - eapply consumed_cleanup. apply consume_accepted; eauto using inv_cleanup, accepted_cleanup.
Qed.

(** Once the turn has failed, an event is only checked. *)
Lemma consumed_id m s s1 :
  inv s → agrees s m → (s1 = s ∨ ∃ id, s1 = setCleanupTurn s id) → consumed m s s1.
Proof.
  intros Hi Ha [->|[id ->]].
  - split; auto using explains_refl; reflexivity.
  - apply (consumed_cleanup m s id). destruct Ha.
    split; auto using explains_refl, inv_cleanup; [reflexivity|by split].
Qed.

Lemma rejected_settled m s b s1 :
  str_in (rm_Method m) evidenceMethods = true → inv s → es_turnID s ≠ "" → is_Some (es_err s) → sound s →
  rejectEvidence m s = (b, s1) → sound s1 → consumed m s s1.
Proof.
  intros Hm Hi Hb He Hs E Hs1. destruct (rejectEvidence_ok m s b s1 E Hs1) as (_ & Hc & Hacc).
  apply consumed_id; auto. apply accepted_settled; auto.
  destruct Hs as (_ & _ & [Hn|]); [|done]. destruct He; congruence.
Qed.

Lemma consume_any m s :
  str_in (rm_Method m) evidenceMethods = true → inv s → es_turnID s ≠ "" →
  sound (consume m s) → consumed m s (consume m s).
Proof.
  intros Hm Hi Hb Hs. destruct (es_err s) eqn:He; [|by apply consume_spec].
  assert (sound s) as Hs0 by (eapply keeps_sound; [apply keeps_consume|done]).
  destruct (rejectEvidence m s) as [b s1] eqn:E.
  assert (is_Some (es_err s1)) as [c' He'].
  { pose proof (keeps_rejectEvidence m s) as (_ & _ & H & _). rewrite E in H. apply H. eauto. }
  assert (consume m s = s1) as Hc by (unfold consume; rewrite E, He'; by destruct b).
  rewrite Hc in *. eapply rejected_settled; eauto.
Qed.

Lemma handleEvidence_bound m s :
  str_in (rm_Method m) evidenceMethods = true → inv s → es_turnID s ≠ "" →
  sound (handleEvidence m s) → consumed m s (handleEvidence m s).
Proof.
  intros Hm Hi Hb Hs. destruct (rejectEvidence m s) as [b s1] eqn:E.
  assert (sound s1) as Hs1 by (eapply keeps_sound; [by eapply keeps_handleEvidence_from|done]).
  destruct (rejectEvidence_ok m s b s1 E Hs1) as (-> & Hc & Hacc). unfold handleEvidence in *. rewrite E in *.
  assert (es_turnID s1 = es_turnID s ∧ es_threadID s1 = es_threadID s ∧ es_err s1 = es_err s) as (Hu & Ht & He)
    by (by destruct Hc as [->|[id ->]]).
  destruct (es_err s1) eqn:He1.
  { eapply rejected_settled; eauto. by eapply keeps_sound; [|exact Hs1]; pose proof (keeps_rejectEvidence m s) as K; rewrite E in K. }
  destruct (iv_bound _ Hi Hb) as [Hth _]. rewrite Hu, Ht in *.
  rewrite (proj2 (is_empty_false _) Hth), (proj2 (is_empty_false _) Hb) in *. simpl in *.
  destruct Hc as [->|[id ->]]; [by apply consume_any|].
  eapply consumed_cleanup. apply consume_any; auto using inv_cleanup.
Qed.

Lemma handleEvidence_unbound m s :
  inv s → es_turnID s = "" → sound (handleEvidence m s) →
  ∃ s1, (s1 = s ∨ ∃ id, s1 = setCleanupTurn s id) ∧ es_err s = None ∧
        handleEvidence m s = setEvents s1 (es_events s ++ [m]).
Proof.
  intros Hi Hb Hs. destruct (rejectEvidence m s) as [b s1] eqn:E.
  assert (sound s1) as Hs1 by (eapply keeps_sound; [by eapply keeps_handleEvidence_from|done]).
  destruct (rejectEvidence_ok m s b s1 E Hs1) as (-> & Hc & Hacc). unfold handleEvidence in *. rewrite E in *.
  assert (es_turnID s1 = es_turnID s ∧ es_err s1 = es_err s ∧ es_settled s1 = es_settled s ∧ es_events s1 = es_events s)
    as (Hu & He & Hset & Hev) by (by destruct Hc as [->|[id ->]]).
  destruct (iv_unbound _ Hi Hb) as [Hns _].
  assert (es_err s1 = None) as Hn by (destruct Hs1 as (_ & _ & [?|?]); [done|congruence]).
  rewrite Hn, Hu, Hb in *. rewrite orb_true_r in *. rewrite Hev in *.
  cases_in Hs; [|by eauto 6]. destruct Hs as (_ & _ & [H|H]); simpl in H; congruence.
Qed.

(** ** All that was received *)

(** The evidence in a log of inputs. *)
Definition evidenceIn (i : input) : option rpcMessage :=
  match i with
  | InFrame _ _ (Some m) =>
    if negb (is_empty (rm_Method m)) && negb (present (rm_ID m)) && str_in (rm_Method m) evidenceMethods
    then Some m else None
  | _ => None
  end.
Definition evidence (log : list input) : list rpcMessage := omap evidenceIn log.

(** A well-formed frame of the connection that is not a request of the server. *)
Definition harmless (generation : Z) (i : input) : Prop :=
  match i with
  | InFrame g text (Some m) => g = generation ∧ is_Some (ephemeralObject text) ∧
      (rm_Method m = "" ∨ present (rm_ID m) = false)
  | _ => False
  end.

(** What the flags and the answer rest on. *)
Record backed (s : sink) (ms : list rpcMessage) : Prop := {
  bk_completed : es_completed s = true → ∃ m, m ∈ ms ∧ rm_Method m = "turn/completed";
  bk_final : es_finalID s ≠ "" →
    ∃ m item, m ∈ ms ∧ item ∈ itemsOf m ∧ answers item = true ∧ answerIs (es_finalID s) (es_finalText s) item;
  bk_settled : es_settled s = true → es_terminalFailure s = true → es_transient s = true →
    ∃ m, m ∈ ms ∧ rm_Method m = "turn/completed" ∧
      (get "status" (turnOf m) = JStr "failed" ∨ get "status" (turnOf m) = JStr "interrupted") ∧
      (get "error" (turnOf m) = JNull ∨ transientError (get "error" (turnOf m)) = true);
  bk_transient : es_terminalFailure s = true → es_transient s = true →
    ∃ m, m ∈ ms ∧
     (rm_Method m = "error" ∧ get "willRetry" (paramsOf m) = JBool false ∧
      transientError (get "error" (paramsOf m)) = true ∨
      rm_Method m = "turn/completed" ∧ transientError (get "error" (turnOf m)) = true) }.

Definition processed (s : sink) (ms : list rpcMessage) : Prop := Forall (agrees s) ms ∧ backed s ms.

Lemma processed_consumed m s s' ms : processed s ms → consumed m s s' → processed s' (ms ++ [m]).
Proof.
  intros [Ha [B1 B2 B3 B4]] [Hg Hm _ [E1 E2 E3 E4] _].
  assert (∀ x, x ∈ ms → x ∈ ms ++ [m]) as Hl by (intros; apply elem_of_app; by left).
  assert (m ∈ ms ++ [m]) as Hr by (apply elem_of_app; right; by left). split.
  - apply Forall_app. split; [|constructor; [done|apply Forall_nil_2]]. eapply Forall_impl; [exact Ha|].
    intros x. by apply agrees_grows.
  - split.
    + intros H. destruct (E1 H) as [H'|H']; [destruct (B1 H') as (x & ? & ?)|]; eauto.
    + intros H. destruct (E2 H) as [[Hi Ht]|(item & ? & ?)]; [|eauto 8].
      rewrite Hi, Ht in *. destruct (B2 H) as (x & item & ? & ?). eauto 8.
    + intros H1 H2 H3. destruct (E3 H1 H2 H3) as [(K1 & K2 & K3)|(? & _ & ? & ?)]; [|eauto 8].
      destruct (B3 K1 K2 K3) as (x & ? & ?). eauto.
    + intros H1 H2. destruct (E4 H1 H2) as [(K1 & K2)|[H|H]]; [|eauto..].
      destruct (B4 K1 K2) as (x & ? & ?). eauto.
Qed.

Lemma processed_nil s : inv s → es_completed s = false → es_terminalFailure s = false → es_finalID s = "" → processed s [].
Proof. intros Hi Hc Hf Hn. split; [constructor|]. split; intros; congruence. Qed.

(** Replaying the buffered events. *)
Lemma replay_processed events ms s :
  Forall (fun m => str_in (rm_Method m) evidenceMethods = true) events →
  inv s → es_turnID s ≠ "" → processed s ms → sound (foldl (fun s m => consume m s) s events) →
  let s' := foldl (fun s m => consume m s) s events in
  inv s' ∧ processed s' (ms ++ events) ∧ es_turnID s' = es_turnID s ∧ es_generation s' = es_generation s.
Proof.
  intros Hev. revert ms s. induction Hev as [|m events Hm _ IH]; intros ms s Hi Hb Hp Hs; simpl in *.
  { by rewrite app_nil_r. }
  assert (sound (consume m s)) as Hs1 by (eapply keeps_sound; [apply keeps_replay|done]).
  pose proof (consume_any m s Hm Hi Hb Hs1) as Hc. pose proof (gr_identity _ _ (co_grows _ _ _ Hc)) as (_ & Hu & Hg & _).
  destruct (IH (ms ++ [m]) (consume m s)) as (? & Hp' & Hu' & Hg'); auto.
  - apply Hc.
  - by rewrite Hu.
  - by eapply processed_consumed.
  - rewrite <- app_assoc in Hp'. split_and!; auto; congruence.
Qed.

(** States that differ in counters, channel, generation and buffer only. *)
Record similar (s s' : sink) : Prop := {
  si_threadID : es_threadID s' = es_threadID s; si_turnID : es_turnID s' = es_turnID s;
  si_turnIssued : es_turnIssued s' = es_turnIssued s; si_settled : es_settled s' = es_settled s;
  si_completed : es_completed s' = es_completed s; si_failure : es_terminalFailure s' = es_terminalFailure s;
  si_evidence : es_terminalEvidence s' = es_terminalEvidence s; si_transient : es_transient s' = es_transient s;
  si_err : es_err s' = es_err s; si_revoked : es_retryRevoked s' = es_retryRevoked s;
  si_ambiguous : es_cleanupAmbiguous s' = es_cleanupAmbiguous s; si_finalID : es_finalID s' = es_finalID s;
  si_finalText : es_finalText s' = es_finalText s }.

Section similar.
Context (s s' : sink) (Hsim : similar s s').

Lemma similar_sound : sound s' → sound s.
Proof. destruct Hsim. unfold sound. congruence. Qed.

Lemma similar_inv : inv s → inv s'.
Proof.
  destruct Hsim; intros []; split; repeat match goal with H : _ s' = _ |- _ => rewrite H; clear H end; auto.
Qed.

Lemma similar_agrees m : agrees s m → agrees s' m.
Proof.
  destruct Hsim; intros []; split; repeat match goal with H : _ s' = _ |- _ => rewrite H; clear H end; auto.
Qed.

Lemma similar_processed ms : processed s ms → processed s' ms.
Proof.
  intros [Ha []]. split; [eapply Forall_impl; [exact Ha|apply similar_agrees]|].
  destruct Hsim; split; repeat match goal with H : _ s' = _ |- _ => rewrite H; clear H end; auto.
Qed.
End similar.

Lemma similar_sym s s' : similar s s' → similar s' s.
Proof. by intros []; split. Qed.

(** ** The steps of the reader and of the running turn *)

Definition frameGeneration (i : input) : Z := match i with InFrame g _ _ => g | _ => 1 end.

(** A connection's generation is positive; a thread is bound before the turn is
    issued, and the turn after it. *)
Inductive sinkStep : sink * list input → sink * list input → Prop :=
| StepReceive i s log : frameGeneration i ≠ 0 → sinkStep (s, log) (receive i s, log ++ [i])
| StepThread g t s log : t ≠ "" → sinkStep (s, log) ((bindTurn g t "" s).2, log)
| StepBegin g t s log : t ≠ "" → sinkStep (s, log) ((beginTurn g t s).2, log)
| StepTurn g t u s log : t ≠ "" → u ≠ "" → es_turnIssued s = true →
    sinkStep (s, log) ((bindTurn g t u s).2, log)
| StepTake s log : sinkStep (s, log) (setChanged s false, log).

Definition reachable (c : sink * list input) : Prop := rtc sinkStep (newSink, []) c.

(** What holds of a sound state and all that was received. *)
Record tracked (s : sink) (log : list input) : Prop := {
  tk_inv : inv s;
  tk_frames : Forall (harmless (es_generation s)) log;
  tk_generation : es_generation s = 0 → log = [];
  tk_unbound : es_turnID s = "" → es_events s = evidence log;
  tk_bound : es_turnID s ≠ "" → es_events s = [] ∧ processed s (evidence log) }.

Lemma evidence_methods log : Forall (fun m => str_in (rm_Method m) evidenceMethods = true) (evidence log).
Proof.
  apply Forall_forall. intros m (i & _ & H)%list_elem_of_omap. destruct i as [g text [x|]| | |]; try done.
  simpl in H. cases_in H; [|done]. injection H as <-. bools. by apply str_in_true.
Qed.

Lemma evidence_snoc log i :
  evidence (log ++ [i]) = evidence log ++ (match evidenceIn i with Some m => [m] | None => [] end).
Proof. unfold evidence. rewrite omap_app. simpl. by destruct (evidenceIn i). Qed.

(** A similar state has seen the same evidence. *)
Lemma tracked_similar s s' log log' :
  similar s s' → evidence log' = evidence log → es_events s' = es_events s →
  Forall (harmless (es_generation s')) log' → (es_generation s' = 0 → log' = []) →
  tracked s log → tracked s' log'.
Proof.
  intros Hsim Hl He Hf Hz [Hi _ _ Hu Hb]. split; auto.
  - by eapply similar_inv.
  - rewrite He, Hl, (si_turnID _ _ Hsim). auto.
  - rewrite He, Hl, (si_turnID _ _ Hsim). intros H. destruct (Hb H). split; [done|]. by eapply similar_processed.
Qed.

Lemma fail_revoked c s : es_retryRevoked (fail c s) = true.
Proof. unfold fail, firstErr. simpl. by destruct (es_err s). Qed.
Lemma fail_unsound c s : ¬ sound (fail c s).
Proof. intros [H _]. by rewrite fail_revoked in H. Qed.

Lemma decode_Some text u s m s1 :
  decode text u s = (Some m, s1) →
  u = Some m ∧ is_Some (ephemeralObject text) ∧ s1 = countFrame s (raw_len text) ∧
  es_eventCount s1 ≤ eventLimit ∧ es_bytes s1 ≤ byteLimit.
Proof.
  unfold decode. intros H. destruct (ephemeralObject text); [|done]. destruct u as [x|]; [|done].
  cases_in H; [|done]. injection H as -> <-. bools. simpl. split_and!; eauto.
Qed.

(** A frame that is not refused: its message was handled in the counted state. *)
Lemma receive_frame g text u s :
  sound (receive (InFrame g text u) s) →
  ∃ m, u = Some m ∧ is_Some (ephemeralObject text) ∧
    receive (InFrame g text u) s = (handle g m (countFrame s (raw_len text))).2.
Proof.
  simpl. intros Hs. destruct (decode text u s) as [[m|] s1] eqn:D.
  - apply decode_Some in D as (-> & ? & -> & _). eauto.
  - unfold decode in D. exfalso. repeat (cases_in D; try done); simplify_eq; by eapply fail_unsound.
Qed.

Lemma handle_current g m s :
  sound (handle g m s).2 → ∃ s1, similar s s1 ∧ es_events s1 = es_events s ∧ es_generation s1 = g ∧
    (es_generation s = 0 ∨ es_generation s = g) ∧ (rm_Method m = "" ∨ present (rm_ID m) = false) ∧
    (handle g m s).2 =
      if negb (is_empty (rm_Method m)) && negb (present (rm_ID m)) && str_in (rm_Method m) evidenceMethods
      then signal (handleEvidence m s1) else s1.
Proof.
  unfold handle. intros Hs.
  exists (if es_generation s =? 0 then setGeneration s g else s).
  assert (similar s (if es_generation s =? 0 then setGeneration s g else s)) as Hsim by (by cases; split).
  assert (es_events (if es_generation s =? 0 then setGeneration s g else s) = es_events s) as He by (by cases).
  assert (es_generation s = 0 ∨ es_generation (if es_generation s =? 0 then setGeneration s g else s) = es_generation s)
    as Hg by (cases; bools; auto).
  revert Hs. generalize dependent (if es_generation s =? 0 then setGeneration s g else s). intros s1 Hsim He Hg Hs.
  destruct (es_generation s1 =? g) eqn:Hcur; simpl in *; [|by apply fail_unsound in Hs]. bools.
  split; [done|]. split; [done|]. split; [done|]. split; [destruct Hg; [by left|right; congruence]|].
  destruct (is_empty (rm_Method m)) eqn:Hm; simpl in *; [bools; auto|].
  destruct (present (rm_ID m)) eqn:Hid; simpl in *; [by apply fail_unsound in Hs|]. split; [auto|].
  by destruct (str_in (rm_Method m) evidenceMethods).
Qed.

Lemma tracked_changed b s log : tracked s log → tracked (setChanged s b) log.
Proof. intros Ht. by apply (tracked_similar s _ log log); [split|done|done|apply (tk_frames _ _ Ht)|apply (tk_generation _ _ Ht)|]. Qed.

Lemma handleEvidence_tracked m s log i :
  sound (handleEvidence m s) → str_in (rm_Method m) evidenceMethods = true → evidenceIn i = Some m →
  harmless (es_generation s) i → es_generation s ≠ 0 → tracked s log →
  tracked (handleEvidence m s) (log ++ [i]).
Proof.
  intros Hs Hm Hi Hh Hg [Hinv Hf Hz Hu Hb]. destruct (decide (es_turnID s = "")) as [Ht|Ht].
  - destruct (handleEvidence_unbound m s Hinv Ht Hs) as (s1 & Hc & He & ->).
    assert (similar s (setEvents s1 (es_events s ++ [m])) ∧ es_generation s1 = es_generation s) as [Hsim Hg1]
      by (destruct Hc as [->|[id ->]]; by split).
    split; simpl; rewrite ?Hg1, ?evidence_snoc, ?Hi.
    + by eapply similar_inv.
    + apply Forall_app. split; [done|]. by constructor; [|apply Forall_nil_2].
    + done.
    + intros _. by rewrite Hu.
    + intros Hn. pose proof (si_turnID _ _ Hsim). simpl in *. congruence.
  - pose proof (handleEvidence_bound m s Hm Hinv Ht Hs) as Hc.
    pose proof (gr_identity _ _ (co_grows _ _ _ Hc)) as (_ & Hu' & Hg' & _).
    split; rewrite ?Hg', ?Hu', ?evidence_snoc, ?Hi; try done.
    + apply Hc.
    + apply Forall_app. split; [done|]. by constructor; [|apply Forall_nil_2].
    + intros _. destruct (Hb Ht). rewrite (co_events _ _ _ Hc). split; [done|]. by eapply processed_consumed.
Qed.

Lemma receive_tracked i s log :
  frameGeneration i ≠ 0 → sound (receive i s) → tracked s log → tracked (receive i s) (log ++ [i]).
Proof.
  intros Hg Hs Ht. destruct i as [g text u| | |]; try (by exfalso; eapply fail_unsound).
  destruct (receive_frame g text u s Hs) as (m & -> & Ho & Er). rewrite Er in *.
  destruct (handle_current g m _ Hs) as (s1 & Hsim & He1 & Hg1 & Hgen & Hreq & Eh). rewrite Eh in *. simpl in *.
  assert (similar s s1) as Hsim' by (destruct Hsim; by split).
  assert (Forall (harmless g) log) as Hlog.
  { destruct Hgen as [H0|<-]; [|apply Ht]. by rewrite (tk_generation _ _ Ht H0). }
  assert (harmless g (InFrame g text (Some m))) as Hnew by done.
  assert (tracked s1 log) as Ht1.
  { eapply tracked_similar; eauto; rewrite Hg1; done. }
  cases.
  - apply tracked_changed. eapply handleEvidence_tracked; eauto.
    + by bools; apply str_in_true.
    + simpl. by rewrite Heqb.
    + by rewrite Hg1.
    + congruence.
  - apply (tracked_similar s1 s1 log);
      [by split|rewrite evidence_snoc; simpl; rewrite Heqb; apply app_nil_r|done| |congruence|done].
    rewrite Hg1. apply Forall_app. split; [done|]. by constructor; [|apply Forall_nil_2].
Qed.

Lemma beginTurn_tracked g t s log : tracked s log → tracked (beginTurn g t s).2 log.
Proof.
  intros [Hi Hf Hz Hu Hb]. unfold beginTurn. destruct (_ || _ || _); [by split|]. split; simpl; auto.
  - destruct Hi. split; simpl; auto. intros H. split; [by apply iv_bound0|done].
  - intros H. destruct (Hb H) as [? [Ha []]]. split; [done|].
    split; [eapply Forall_impl; [exact Ha|]; by intros m []; split|by split].
Qed.

Lemma bindTurn_tracked g t u s log :
  t ≠ "" → (u ≠ "" → es_turnIssued s = true) → sound (bindTurn g t u s).2 → tracked s log →
  tracked (bindTurn g t u s).2 log.
Proof.
  intros Ht Hiss Hs [Hi Hf Hz Hu Hb].
  assert (¬ sound (setErr (setAmbiguous s) ErrEphemeralProtocol)) as Hbad by (intros (_ & ? & _); done).
  unfold bindTurn in *. destruct (_ || _) eqn:Hmis; [done|]. destruct (_ && _ && _) eqn:Hmis'; [done|]. bools.
  assert (es_threadID s = "" ∨ es_threadID s = t) as Hth.
  { destruct (decide (es_threadID s = "")) as [|Hn]; [by left|]. apply is_empty_false in Hn.
    rewrite Hn in *. simpl in *. bools. auto. }
  assert (es_turnID s = "" ∨ es_turnID s = u) as Htu.
  { destruct (decide (es_turnID s = "")) as [|Hn]; [by left|]. apply is_empty_false in Hn.
    rewrite Hn in *. simpl in *. bools. auto. }
  destruct (is_empty u) eqn:Hue; bools; simpl in *.
  - subst u. assert (es_turnID s = "") as Hn by (by destruct Htu). destruct Hi.
    destruct (iv_unbound0 Hn) as (E1 & E2 & E3 & E4).
    split; simpl; auto; [|done]. by split; simpl; auto.
  - assert (sound (foldl (fun s m => consume m s) (setIdentity s t u) (es_events s))) as Hs1.
    { destruct Hs as (? & ? & ?). by split_and!. }
    assert (inv (setIdentity s t u) ∧ processed (setIdentity s t u) (if bool_decide (es_turnID s = "") then [] else evidence log))
      as [Hi0 Hp0].
    { destruct Htu as [Hn|Hn].
      - rewrite bool_decide_true by done. destruct Hi. destruct (iv_unbound0 Hn) as (E1 & E2 & E3 & E4).
        assert (inv (setIdentity s t u)) by (split; simpl; auto; done). split; [done|]. by apply processed_nil.
      - rewrite bool_decide_false by congruence. destruct (iv_bound _ Hi) as [Hth' _]; [congruence|].
        destruct Hth as [?|Hth]; [done|]. assert (similar s (setIdentity s t u)) as Hsim by (split; simpl; congruence).
        split; [by eapply similar_inv|]. eapply similar_processed; [done|]. apply Hb. congruence. }
    destruct (replay_processed (es_events s) (if bool_decide (es_turnID s = "") then [] else evidence log)
      (setIdentity s t u)) as (Hi1 & Hp1 & Hu1 & Hg1); auto.
    { destruct (decide (es_turnID s = "")) as [Hn|Hn]; [rewrite Hu by done; apply evidence_methods|].
      destruct (Hb Hn) as [-> _]. constructor. }
    simpl in Hu1, Hg1. destruct Hi1, Hp1 as [Ha []]. split; simpl; rewrite ?Hu1, ?Hg1; auto; [by split|done|].
    intros _. split; [done|].
    assert ((if bool_decide (es_turnID s = "") then [] else evidence log) ++ es_events s = evidence log) as Hev.
    { case_bool_decide as Hn; [by rewrite Hu|]. destruct (Hb Hn) as [-> _]. apply app_nil_r. }
    rewrite Hev in *. split; [|by split]. eapply Forall_impl; [exact Ha|]. by intros m []; split.
Qed.

Lemma step_tracked s log s' log' :
  sinkStep (s, log) (s', log') → sound s' → (sound s → tracked s log) → tracked s' log'.
Proof.
  intros H Hs Ht. inversion H; subst; clear H.
  - apply receive_tracked; [done..|]. apply Ht. eapply keeps_sound; [apply keeps_receive|done].
  - apply bindTurn_tracked; [done..|]. apply Ht. eapply keeps_sound; [apply keeps_bindTurn|done].
  - apply beginTurn_tracked, Ht. revert Hs. unfold beginTurn. by destruct (_ || _ || _).
  - apply bindTurn_tracked; [done..|]. apply Ht. eapply keeps_sound; [apply keeps_bindTurn|done].
  - by apply tracked_changed, Ht.
Qed.

Lemma newSink_tracked : tracked newSink [].
Proof. split; simpl; try done. split; simpl; done. Qed.

Lemma reachable_tracked s log : reachable (s, log) → sound s → tracked s log.
Proof.
  revert s log. assert (∀ c, reachable c → sound c.1 → tracked c.1 c.2) as Hall; [|by intros s log; apply (Hall (s, log))].
  apply (rtc_ind_r (fun c => sound c.1 → tracked c.1 c.2)); [intros _; apply newSink_tracked|].
  intros [a la] [b lb] _ Hstep IH Hs. by eapply step_tracked.
Qed.

(** ** Errors and contradictions *)

Lemma step_keeps s log s' log' : sinkStep (s, log) (s', log') → keeps s s'.
Proof.
  intros H. inversion H; subst; clear H; auto using keeps_receive, keeps_bindTurn.
  - unfold beginTurn. destruct (_ || _ || _); keeping.
  - keeping.
Qed.

Lemma reachable_keeps c : reachable c → keeps newSink c.1.
Proof.
  apply (rtc_ind_r (fun c => keeps newSink c.1)); [reflexivity|].
  intros [a la] [b lb] _ Hs IH. etrans; [exact IH|]. by eapply step_keeps.
Qed.

Lemma reachable_sound s log : reachable (s, log) → es_err s = None → sound s.
Proof.
  intros H He. apply reachable_keeps in H as (_ & _ & _ & _ & Hf). simpl in Hf.
  destruct (Hf He). by split_and!; [..|left].
Qed.

Lemma canRetry_sound g t u s : canRetry g t u s = true → sound s.
Proof. unfold canRetry. intros H. bools. split_and!; auto. Qed.
