(* ===== verification/Uploads.v ===== *)
(** * Making the handlers, and the upload handler

    [NewHandler] of [src/conversation/handler.go], and [src/conversation/uploads.go]:
    a request to list, create, fill, finish, delete or download a file.

    What the application and its store do is a [ucall], and a request is a program
    over calls, so that nothing is assumed of their answers; the transfer slots of
    the handler are calls too, since all its requests share them. [url.Parse] is the
    parameter [parseURL]. An [Upload] is only passed on and kept as its encoding.
    Deadlines, other headers and the bytes of a download are left out. *)
From Stdlib Require Import Ascii String.
From S2P Require Import Prelude GoStd GoValue TurnOptions Ledger Ephemeral Transcript Prompts ActivitySnapshot Web Handler.
Open Scope Z_scope.
Open Scope codex_scope.

(** ** Making a handler *)

(** [url.URL], as far as an origin is checked. *)
Record originURL := mkOriginURL {
  ou_Scheme : string; ou_Host : string; ou_Path : string; ou_User : bool; ou_RawQuery : string; ou_Fragment : string }.

Definition basePathMarks : string := "/._~!$&'()*+,;=:@-".
(** [^[A-Za-z0-9/._~!$&'()*+,;=:@-]+$] *)
Definition basePathPattern (s : string) : bool :=
  negb (is_empty s) && every (fun c => isAlnum c || containsByte c basePathMarks) s.
(** [strings.ContainsAny] *)
Definition containsAny (s chars : string) : bool := existsb (fun c => containsByte c chars) (list_ascii_of_string s).

Definition defaultMaxBodyBytes : Z := 512 * 1024.
Definition defaultMaxMessageBytes : Z := 48 * 1024.
Definition backslashMarks : string := String "092" "%?#".

(** The resolver and the deadline of an operation are kept as what is checked of them. *)
Record Options := mkOptions {
  op_Resolver : bool; op_AllowedOrigins : list string; op_BasePath : string; op_MaxBodyBytes : Z; op_MaxMessageBytes : Z;
  op_OperationTimeout : Z }.

Record UploadOptions := mkUploadOptions {
  uo_BasePath : string; uo_AllowedOrigins : list string; uo_Resolve : bool }.

Section making.
Context (parseURL : string → option originURL).

(** An origin has a host and nothing after it. *)
Definition bareOrigin (u : originURL) : bool :=
  negb (is_empty (ou_Host u)) && is_empty (ou_Path u) && negb (ou_User u) && is_empty (ou_RawQuery u) && is_empty (ou_Fragment u).

Definition exactOrigin (raw : string) : option string :=
  match parseURL raw with
  | Some u => if negb (is_empty (ou_Scheme u)) && bareOrigin u then Some (ou_Scheme u ++ "://" ++ ou_Host u)%string else None
  | None => None
  end.

Definition handlerBasePath (raw : string) : res err string :=
  let basePath := if is_empty raw then "/codex" else if negb (str_eqb raw "/") then trimSuffix raw "/" else raw in
  let? _ := guard (negb (hasPrefix basePath "/") || contains basePath "//" || containsAny basePath backslashMarks
                   || negb (str_eqb (clean basePath) basePath) || negb (basePathPattern basePath))
              (EMsg "conversation base path must be an absolute URL path") in
  Ok (if str_eqb basePath "/" then "" else basePath).

Fixpoint handlerOrigins (raws : list string) : res err (list string) :=
  match raws with
  | [] => Ok []
  | raw :: raws =>
    match exactOrigin raw with
    | None => Err (EMsg "invalid allowed origin")
    | Some origin => let? origins := handlerOrigins raws in Ok (origin :: origins)
    end
  end.

Definition NewHandler (options : Options) : res err Handler :=
  let? _ := guard (negb (op_Resolver options)) (EMsg "conversation resolver is required") in
  let? basePath := handlerBasePath (op_BasePath options) in
  let? origins := handlerOrigins (op_AllowedOrigins options) in
  let? _ := guard (bool_decide (origins = [])) (EMsg "at least one exact allowed origin is required") in
  let maxBodyBytes := if op_MaxBodyBytes options =? 0 then defaultMaxBodyBytes else op_MaxBodyBytes options in
  let? _ := guard (maxBodyBytes <? 1024) (EMsg "conversation request limit must be at least 1024 bytes") in
  let maxMessageBytes := if op_MaxMessageBytes options =? 0 then defaultMaxMessageBytes else op_MaxMessageBytes options in
  let? _ := guard ((maxMessageBytes <? 1) || (maxBodyBytes <? maxMessageBytes))
              (EMsg "conversation message limit must fit within the request limit") in
  let? _ := guard (op_OperationTimeout options <? 0) (EMsg "conversation operation timeout cannot be negative") in
  Ok (mkHandler origins basePath maxBodyBytes maxMessageBytes).

Definition httpsOrigin (raw : string) : bool :=
  match parseURL raw with Some u => str_eqb (ou_Scheme u) "https" && bareOrigin u | None => false end.

(** The options that are served. *)
Definition NewUploadHandler (options : UploadOptions) : res err UploadOptions :=
  let? _ := guard (negb (uo_Resolve options) || bool_decide (uo_AllowedOrigins options = [])
                   || negb (hasPrefix (uo_BasePath options) "/") || hasSuffix (uo_BasePath options) "/"
                   || negb (basePathPattern (uo_BasePath options)) || contains (uo_BasePath options) "..")
              (EMsg "upload handler requires a resolver, origins and an absolute base path") in
  let? _ := guard (negb (forallb httpsOrigin (uo_AllowedOrigins options))) (EMsg "upload origin must be an exact HTTPS origin") in
  Ok options.
End making.

(** ** Data of the upload handler *)

Definition Upload : Type := any.
Record UploadLimits := mkLimits {
  ul_FileBytes : Z; ul_PromptBytes : Z; ul_SessionBytes : Z; ul_WorkspaceBytes : Z; ul_ChunkBytes : Z; ul_Files : Z }.
Record UploadRequest := mkUploadRequest { ur_ClientID : string; ur_Name : string; ur_Size : Z }.
(** Whether there is a store, and whether there is something to release. *)
Record UploadTarget := mkUploadTarget { ut_Store : bool; ut_Writable : bool; ut_Release : bool }.

Record upload := mkUpload {
  up_Method : string; up_escapedPath : string; up_Origin : string; up_Offset : string; up_Checksum : string; up_RawQuery : string;
  up_body : Z → option string;                       (** what is read within a limit *)
  up_decode : string → decoding UploadRequest }.

(** ** Calls *)

Inductive ucall : Type → Type :=
| UAcquire : ucall bool                (** take a transfer slot, if there is one *)
| UGiveBack : ucall unit               (** give it back *)
| UResolve (scope : string) (mutation : bool) : ucall (res uploadFault UploadTarget)
| URelease : ucall unit
| ULimits : ucall UploadLimits
| UList : ucall (res uploadFault (list Upload))
| UCreate (request : UploadRequest) : ucall (res uploadFault Upload)
| UStatus (id : string) : ucall (res uploadFault Upload)
| UAppend (id : string) (offset : Z) (checksum : string) (limit : Z) : ucall (res uploadFault Upload)
| UComplete (id : string) : ucall (res uploadFault Upload)
| UDelete (id : string) (confirmed : bool) : ucall (res uploadFault unit)
| UOpen (id : string) : ucall (res uploadFault string)   (** its name *)
| UServe (name : string) : ucall unit
| UClose : ucall unit.

Inductive uprog (A : Type) := UDone (a : A) | UCall {X} (c : ucall X) (k : X → uprog A).
Arguments UDone {A} a.
Arguments UCall {A X} c k.
Fixpoint ubind {A B} (m : uprog A) (f : A → uprog B) : uprog B :=
  match m with
  | UDone a => f a
  | UCall c k => UCall c (fun x => ubind (k x) f)
  end.
Declare Scope upload_scope.
Delimit Scope upload_scope with upload.
Notation "'ask' x := c 'in' q" := (UCall c (fun x => q)) (at level 10, x name, c at level 100, q at level 200) : upload_scope.
Notation "'let!' x := p 'in' q" := (ubind p (fun x => q)) (at level 10, x name, p at level 100, q at level 200) : upload_scope.

(** The channel of transfer slots by the number that are taken: a send that is
    tried, and a receive, which waits while the channel is empty. *)
Definition transferSlots : Z := 8.
Definition takeSlot (taken : Z) : bool * Z := if taken <? transferSlots then (true, taken + 1) else (false, taken).
Definition giveSlot (taken : Z) : option Z := if 0 <? taken then Some (taken - 1) else None.

(** ** The handler *)

Definition refuse (status : Z) (message : string) : uprog response := UDone (errorReply status message).
Definition missing : uprog response := UDone (mkReply 404 BodyText).
(** [writeJSON] of a result, or [uploadError]. *)
Definition conclude (status : Z) (result : res uploadFault any) : uprog response :=
  UDone (match result with Err fault => uploadFaultReply fault | Ok value => mkReply status (BodyJSON value) end).

Definition limitsAny (l : UploadLimits) : any :=
  AObj [("fileBytes", ANum (ul_FileBytes l) 0); ("promptBytes", ANum (ul_PromptBytes l) 0); ("sessionBytes", ANum (ul_SessionBytes l) 0);
        ("workspaceBytes", ANum (ul_WorkspaceBytes l) 0); ("chunkBytes", ANum (ul_ChunkBytes l) 0); ("files", ANum (ul_Files l) 0)].

Section uploads.
Context (options : UploadOptions) (rq : upload).
Local Open Scope upload_scope.

Definition uploadMutation : bool := negb (readOnly (up_Method rq)).
Definition uploadOriginAllowed : bool :=
  (is_empty (up_Origin rq) || str_in (up_Origin rq) (uo_AllowedOrigins options)) && negb (uploadMutation && is_empty (up_Origin rq)).

(** [/{scope}], [/{scope}/{id}] and [/{scope}/{id}/content]. *)
Inductive uploadRoute := ScopeRoute (scope : string) | FileRoute (scope id : string) | ContentRoute (scope id : string).
Definition routeScope (r : uploadRoute) : string := match r with ScopeRoute s | FileRoute s _ | ContentRoute s _ => s end.
Definition plainSegment (part : string) : bool := validOpaqueID part && str_eqb (encodeOpaquePathSegment part) part.

Definition uploadRouteOf : option uploadRoute :=
  let prefix := (uo_BasePath options ++ "/")%string in
  if negb (hasPrefix (up_escapedPath rq) prefix) then None else
  let parts := split_on "/" (trimPrefix (up_escapedPath rq) prefix) "" in
  if (3 <? Datatypes.length parts)%nat || str_in "" parts || negb (forallb plainSegment parts) then None else
  match parts with
  | [scope] => Some (ScopeRoute scope)
  | [scope; id] => Some (FileRoute scope id)
  | [scope; id; content] => if negb (str_eqb content "content") || uploadMutation then None else Some (ContentRoute scope id)
  | _ => None
  end.

Definition createUpload : uprog response :=
  match up_body rq 4096 with
  | None => refuse 400 "upload request must be valid UTF-8 JSON within 4096 bytes"
  | Some body =>
    if negb (validString body) then refuse 400 "upload request must be valid UTF-8 JSON within 4096 bytes" else
    match up_decode rq body with
    | Malformed | Read _ true => refuse 400 "invalid upload request"
    | Read request false => ask created := UCreate request in conclude 201 created
    end
  end.

Definition appendUpload (id : string) : uprog response :=
  match parseInt64 (up_Offset rq) with
  | None => refuse 400 "upload offset or checksum is invalid"
  | Some offset =>
    if (offset <? 0) || negb (messageDigestPattern (up_Checksum rq)) then refuse 400 "upload offset or checksum is invalid" else
    ask limits := ULimits in
    ask appended := UAppend id offset (up_Checksum rq) (ul_ChunkBytes limits) in conclude 200 appended
  end.

Definition confirmed : bool := str_eqb (default "" (head (valuesOf "confirmed" (fst (parseQuery (up_RawQuery rq)))))) "true".

(** The operation on the resolved store. *)
Definition serveStore (r : uploadRoute) : uprog response :=
  let method := up_Method rq in
  match r with
  | ScopeRoute _ =>
    if isGet method then
      ask files := UList in
      ask limits := ULimits in
      conclude 200 (let? files := files in Ok (AObj [("limits", limitsAny limits); ("files", AArr files)]))
    else if str_eqb method "POST" then createUpload
    else refuse 405 "upload operation is unavailable"
  | ContentRoute _ id =>
    ask content := UOpen id in
    match content with
    | Err fault => conclude 200 (Err fault)
    | Ok name => ask _s := UServe name in ask _c := UClose in UDone (mkReply 200 (BodyContent name))
    end
  | FileRoute _ id =>
    if isGet method then ask file := UStatus id in conclude 200 file
    else if str_eqb method "PATCH" then appendUpload id
    else if str_eqb method "POST" then ask file := UComplete id in conclude 200 file
    else if str_eqb method "DELETE" then
      ask deleted := UDelete id confirmed in conclude 200 (let? _ := deleted in Ok (AObj [("ok", ABool true)]))
    else refuse 405 "upload operation is unavailable"
  end.

(** The target with its deferred release. *)
Definition serveScope (r : uploadRoute) : uprog response :=
  ask resolved := UResolve (routeScope r) uploadMutation in
  match resolved with
  | Err fault => UDone (uploadFaultReply fault)
  | Ok target =>
    let! reply :=
      (if negb (ut_Store target) then missing
       else if uploadMutation && negb (ut_Writable target) then refuse 403 "uploads are read-only"
       else serveStore r) in
    if ut_Release target then ask _u := URelease in UDone reply else UDone reply
  end.

Definition serveUpload : uprog response :=
  if negb uploadOriginAllowed then refuse 403 "request origin is not allowed" else
  match uploadRouteOf with
  | None => missing
  | Some r =>
    if str_eqb (up_Method rq) "PATCH" then
      ask slot := UAcquire in
      if negb slot then refuse 429 "Too many uploads are transferring; retry shortly" else
      let! reply := serveScope r in
      ask _u := UGiveBack in UDone reply
    else serveScope r
  end.
End uploads.
