(* ===== verification/UploadFacts.v ===== *)
(** * Uploads stay within their authority and their slots

    A monitor follows the calls of one upload request, as in the conversation
    handler; the requests of one handler run next to each other, each call of one
    of them a step, and share the transfer slots. *)
From Stdlib Require Import Ascii String.
From S2P Require Import Prelude GoStd GoValue TurnOptions Ledger Ephemeral Transcript Prompts ActivitySnapshot Web Handler Uploads.
Open Scope Z_scope.

(** ** One request *)

Record uauthority := mkUAuthority {
  ua_slot : bool; ua_target : option UploadTarget; ua_limit : option Z; ua_file : bool }.
Definition ustart : uauthority := mkUAuthority false None None false.
Definition uafter {X} (c : ucall X) : X → uauthority → uauthority :=
  match c in ucall X return X → uauthority → uauthority with
  | UAcquire => fun got a => mkUAuthority got (ua_target a) (ua_limit a) (ua_file a)
  | UGiveBack => fun _ a => mkUAuthority false (ua_target a) (ua_limit a) (ua_file a)
  | UResolve _ _ => fun r a => mkUAuthority (ua_slot a) (match r with Ok t => Some t | Err _ => None end) None false
  | URelease => fun _ a => mkUAuthority (ua_slot a) None None (ua_file a)
  | ULimits => fun l a => mkUAuthority (ua_slot a) (ua_target a) (Some (ul_ChunkBytes l)) (ua_file a)
  | UOpen _ => fun r a => mkUAuthority (ua_slot a) (ua_target a) (ua_limit a) (is_ok r)
  | UClose => fun _ a => mkUAuthority (ua_slot a) (ua_target a) (ua_limit a) false
  | _ => fun _ a => a
  end.
(** Nothing is left to be released. *)
Definition ureleased (a : uauthority) : Prop :=
  ua_file a = false ∧ ∀ target, ua_target a = Some target → ut_Release target = false.
Definition ufinished (a : uauthority) : Prop := ua_slot a = false ∧ ureleased a.

Section monitor.
Context (options : UploadOptions) (rq : upload).

(** The store of the resolved scope is there, and may be changed. *)
Definition stored (a : uauthority) : Prop := ∃ target, ua_target a = Some target ∧ ut_Store target = true.
Definition observing (methods : list string) (a : uauthority) : Prop := stored a ∧ up_Method rq ∈ methods.
Definition altering (method : string) (a : uauthority) : Prop :=
  (∃ target, ua_target a = Some target ∧ ut_Store target = true ∧ ut_Writable target = true) ∧ up_Method rq = method
  ∧ up_Origin rq ∈ uo_AllowedOrigins options ∧ up_Origin rq ≠ "".
Definition routed (r : uploadRoute) : Prop := uploadRouteOf options rq = Some r.
Definition fileRouted (id : string) : Prop := ∃ scope, routed (FileRoute scope id).

Definition uallowed {X} (c : ucall X) (a : uauthority) : Prop :=
  match c with
  | UAcquire => ua_slot a = false ∧ ua_target a = None ∧ up_Method rq = "PATCH" ∧ uploadOriginAllowed options rq = true
  | UGiveBack => ua_slot a = true ∧ ureleased a
  | UResolve scope mutation => ua_target a = None ∧ uploadOriginAllowed options rq = true ∧ mutation = uploadMutation rq
      ∧ (∃ r, routed r ∧ scope = routeScope r) ∧ (up_Method rq = "PATCH" → ua_slot a = true)
  | URelease => ua_file a = false ∧ ∃ target, ua_target a = Some target ∧ ut_Release target = true
  | ULimits => stored a
  | UList => observing ["GET"] a ∧ ∃ scope, routed (ScopeRoute scope)
  | UStatus id => observing ["GET"] a ∧ fileRouted id
  | UOpen id => observing ["GET"; "HEAD"] a ∧ ua_file a = false ∧ ∃ scope, routed (ContentRoute scope id)
  | UCreate _ => altering "POST" a ∧ ∃ scope, routed (ScopeRoute scope)
  | UAppend id offset checksum limit => altering "PATCH" a ∧ fileRouted id ∧ ua_slot a = true ∧ ua_limit a = Some limit
      ∧ 0 ≤ offset < 2 ^ 63 ∧ messageDigestPattern checksum = true
  | UComplete id => altering "POST" a ∧ fileRouted id
  | UDelete id _ => altering "DELETE" a ∧ fileRouted id
  | UServe _ | UClose => ua_file a = true
  end.

Fixpoint usafe {A} (a : uauthority) (m : uprog A) (Q : uauthority → A → Prop) : Prop :=
  match m with
  | UDone r => Q a r
  | UCall c k => uallowed c a ∧ ∀ x, usafe (uafter c x a) (k x) Q
  end.

Lemma usafe_mono {A} (m : uprog A) a (Q Q' : uauthority → A → Prop) :
  (∀ a r, Q a r → Q' a r) → usafe a m Q → usafe a m Q'.
Proof. intros HQ. revert a. induction m as [r|X c k IH]; intros a; simpl; [apply HQ|]. intros [Hc Hk]. split; [done|]. intros x. apply IH, Hk. Qed.
Lemma usafe_bind {A B} (m : uprog A) (f : A → uprog B) a (Q : uauthority → B → Prop) :
  usafe a m (fun a r => usafe a (f r) Q) → usafe a (ubind m f) Q.
Proof. revert a. induction m as [r|X c k IH]; intros a; simpl; [done|]. intros [Hc Hk]. split; [done|]. intros x. apply IH, Hk. Qed.

Section serving.
Context (r : uploadRoute) (slot : bool) (target : UploadTarget).
Hypothesis Horigin : uploadOriginAllowed options rq = true.
Hypothesis Hroute : routed r.
Hypothesis Hslot : up_Method rq = "PATCH" → slot = true.

(** The target is kept, and no file is left open. *)
Let settled (a : uauthority) (_ : response) : Prop := ua_slot a = slot ∧ ua_target a = Some target ∧ ua_file a = false.
Let a0 : uauthority := mkUAuthority slot (Some target) None false.

Lemma alter_method method : uploadMutation rq && negb (ut_Writable target) = false → ut_Store target = true →
  up_Method rq = method → readOnly method = false → altering method a0.
Proof using Horigin.
  unfold uploadMutation, uploadOriginAllowed in *. intros Hw Hs <- Hm. unfold uploadMutation in Horigin. rewrite Hm in *. simpl in *.
  apply andb_true_iff in Horigin as [H1 H2]. apply negb_true_iff, is_empty_false in H2. apply negb_false_iff in Hw.
  split; [by exists target|]. split_and!; [done| |done]. apply orb_true_iff in H1 as [H1|H1]; [by apply is_empty_true in H1|by apply str_in_true].
Qed.

Lemma parseInt64_range text n : parseInt64 text = Some n → in_i64 n.
Proof using Type.
  unfold parseInt64. intros H.
  match type of H with (let (_, _) := ?m in _) = _ => destruct m as [sign [|d digits]] end; [done|].
  destruct (digitsValue _ _); [|done]. case_bool_decide; [|done]. by simplify_eq.
Qed.

Lemma append_safe id : altering "PATCH" a0 → fileRouted id → ut_Store target = true →
  usafe a0 (appendUpload rq id) settled.
Proof using Hslot.
  intros Ha Hf Hs. unfold appendUpload. destruct (parseInt64 (up_Offset rq)) as [offset|] eqn:Eo; [|done].
  destruct (_ || _) eqn:Ec; [done|]. apply orb_false_iff in Ec as [E1 E2]. apply Z.ltb_ge in E1. apply negb_false_iff in E2.
  apply parseInt64_range in Eo. unfold in_i64 in Eo. simpl. split; [by exists target|]. intros limits.
  split; [|by intros []]. split_and!; try done; [|lia]. apply Hslot. by destruct Ha as (_ & -> & _).
Qed.

Lemma store_safe : uploadMutation rq && negb (ut_Writable target) = false → ut_Store target = true →
  usafe a0 (serveStore rq r) settled.
Proof using Horigin Hroute Hslot.
  intros Hw Hs. assert (∀ methods, up_Method rq ∈ methods → observing methods a0) as Hobs by (intros; split; [by exists target|done]).
  assert (∀ method, str_eqb (up_Method rq) method = true → readOnly method = false → altering method a0) as Halt
    by (intros method Hm; apply alter_method; [done|done|by apply str_eqb_eq]).
  assert (isGet (up_Method rq) = true → observing ["GET"] a0) as Hget.
  { intros Hm%str_eqb_eq. apply Hobs. rewrite Hm. set_solver. }
  unfold serveStore. cbv zeta. destruct r as [scope|scope id|scope id] eqn:Er.
  - destruct (isGet _) eqn:Eg.
    { simpl. split; [split; [by apply Hget|by exists scope]|]. intros files. split; [by exists target|]. by intros limits. }
    destruct (str_eqb _ _) eqn:Ep; [|done]. unfold createUpload. destruct (up_body rq 4096) as [body|]; [|done].
    destruct (validString body); [|done]. cbn [negb]. destruct (up_decode rq body) as [|request []]; [done..|].
    simpl. split; [split; [by apply Halt|by exists scope]|]. by intros [].
  - assert (fileRouted id) as Hf by (by exists scope). destruct (isGet _) eqn:Eg; [simpl; split; [split; [by apply Hget|done]|by intros []]|].
    destruct (str_eqb _ "PATCH") eqn:E1; [apply append_safe; [by apply Halt|done..]|].
    destruct (str_eqb _ "POST") eqn:E2; [simpl; split; [split; [by apply Halt|done]|by intros []]|].
    destruct (str_eqb _ "DELETE") eqn:E3; [simpl; split; [split; [by apply Halt|done]|by intros []]|done].
  - simpl. split; [|intros [name|fault]; [|done]; simpl; by repeat (split; [done|intros []])].
    split_and!; [|done|by exists scope]. apply Hobs. unfold routed, uploadRouteOf in Hroute.
    repeat (case_match; try done). simplify_eq.
    match goal with H : negb _ || uploadMutation rq = false |- _ => apply orb_false_iff in H as [_ H]; revert H end.
    unfold uploadMutation, readOnly. intros [Hm|Hm]%negb_false_iff%orb_true_iff; apply str_eqb_eq in Hm; rewrite Hm; set_solver.
Qed.
End serving.

Lemma scope_safe r slot : uploadOriginAllowed options rq = true → routed r → (up_Method rq = "PATCH" → slot = true) →
  usafe (mkUAuthority slot None None false) (serveScope rq r) (fun a _ => ua_slot a = slot ∧ ureleased a).
Proof.
  intros Ho Hr Hs. unfold serveScope. simpl. split; [split_and!; try done; by exists r|]. intros [target|fault]; [|done]. apply usafe_bind.
  eapply usafe_mono; [|instantiate (1 := fun a _ => ua_slot a = slot ∧ ua_target a = Some target ∧ ua_file a = false)].
  - intros a reply (H1 & H2 & H3). destruct (ut_Release target) eqn:El; simpl.
    + split; [split; [done|by exists target]|]. by intros _.
    + split; [done|]. split; [done|]. intros t. rewrite H2. by intros [= <-].
  - destruct (ut_Store target) eqn:Es; [|done]. cbn [negb]. destruct (_ && _) eqn:Ew; [done|].
    by apply store_safe.
Qed.

Lemma upload_safe : usafe ustart (serveUpload options rq) (fun a _ => ufinished a).
Proof.
  unfold serveUpload. destruct (uploadOriginAllowed options rq) eqn:Eo; [|done]. cbn [negb].
  destruct (uploadRouteOf options rq) as [r|] eqn:Er; [|done]. destruct (str_eqb _ _) eqn:Ep.
  - apply str_eqb_eq in Ep. split; [done|]. intros [|]; [|done]. cbn [negb uafter]. apply usafe_bind.
    eapply usafe_mono; [|by apply (scope_safe r true)]. intros a reply [H1 H2]. simpl. split; [done|]. intros _. split; [done|exact H2].
  - apply str_eqb_neq in Ep. eapply usafe_mono; [|by apply (scope_safe r false)]. by intros a reply [H1 H2].
Qed.
End monitor.

(** ** All requests of a handler *)

Record conn := mkConn { cn_rq : upload; cn_auth : uauthority; cn_prog : uprog response }.
Record handlerState := mkState { hs_taken : Z; hs_conns : list conn }.

(** What a call may answer, and what it does to the slots. *)
Definition answers {X} (c : ucall X) : X → Z → Z → Prop :=
  match c in ucall X return X → Z → Z → Prop with
  | UAcquire => fun got n n' => (got, n') = takeSlot n
  | UGiveBack => fun _ n n' => giveSlot n = Some n'
  | _ => fun _ n n' => n' = n
  end.

Section system.
Context (options : UploadOptions).

Inductive ustep : handlerState → handlerState → Prop :=
| request_arrives n l rq : ustep (mkState n l) (mkState n (l ++ [mkConn rq ustart (serveUpload options rq)]))
| call_answered n n' l i rq a X (c : ucall X) k x :
    l !! i = Some (mkConn rq a (UCall c k)) → answers c x n n' →
    ustep (mkState n l) (mkState n' (<[i := mkConn rq (uafter c x a) (k x)]> l)).

Definition holds (c : conn) : Z := if ua_slot (cn_auth c) then 1 else 0.
Fixpoint held (l : list conn) : Z := match l with [] => 0 | c :: l => holds c + held l end.
Definition transferring (c : conn) : bool := match cn_prog c with UCall (UAppend _ _ _ _) _ => true | _ => false end.
Fixpoint transfers (l : list conn) : Z := match l with [] => 0 | c :: l => (if transferring c then 1 else 0) + transfers l end.

Definition connSafe (c : conn) : Prop := usafe options (cn_rq c) (cn_auth c) (cn_prog c) (fun a _ => ufinished a).
Definition inv (s : handlerState) : Prop :=
  hs_taken s = held (hs_conns s) ∧ hs_taken s ≤ 8 ∧ Forall connSafe (hs_conns s).

Lemma held_app l c : held (l ++ [c]) = held l + holds c.
Proof. induction l as [|d l IH]; simpl; lia. Qed.
Lemma held_insert l i c c' : l !! i = Some c → held (<[i := c']> l) = held l - holds c + holds c'.
Proof.
  revert i. induction l as [|d l IH]; intros [|i]; simpl; try done; [intros [= ->]; lia|]. intros Hi. rewrite (IH _ Hi). lia.
Qed.
Lemma held_nonneg l : 0 ≤ held l.
Proof. induction l as [|c l IH]; simpl; [lia|]. unfold holds. destruct (ua_slot _); lia. Qed.
Lemma held_lookup l i c : l !! i = Some c → holds c ≤ held l.
Proof.
  revert i. induction l as [|d l IH]; intros [|i]; simpl; try done; pose proof (held_nonneg l).
  - intros [= ->]. lia.
  - intros Hi. specialize (IH _ Hi). unfold holds at 2. destruct (ua_slot _); lia.
Qed.

(** What an answer does to the slots is what it does to the slot of its request. *)
Lemma answer_holds {X} (c : ucall X) x n n' rq a (m m' : uprog response) :
  uallowed options rq c a → answers c x n n' → n ≤ 8 →
  n' - n = holds (mkConn rq (uafter c x a) m) - holds (mkConn rq a m') ∧ n' ≤ 8.
Proof.
  destruct c; simpl; intros Ha Hn Hle; try (subst n'; unfold holds; simpl; lia).
  - destruct Ha as [Hs _]. unfold holds. simpl. rewrite Hs. unfold takeSlot, transferSlots in Hn.
    destruct (n <? 8) eqn:El; simplify_eq; [apply Z.ltb_lt in El|]; lia.
  - destruct Ha as [Hs _]. unfold holds. simpl. rewrite Hs. unfold giveSlot in Hn. destruct (0 <? n); [|done]. simplify_eq. lia.
Qed.

Lemma step_inv s s' : ustep s s' → inv s → inv s'.
Proof.
  intros Hstep (Hn & Hle & Hl). destruct Hstep as [n l rq|n n' l i rq a X c k x Hi Hc]; simpl in *.
  - split_and!; simpl; [rewrite held_app; unfold holds; simpl; lia|done|]. apply Forall_app. split; [done|]. constructor; [|done]. apply upload_safe.
  - pose proof (Forall_lookup_1 _ _ _ _ Hl Hi) as [Hallow Hk]. simpl in Hallow.
    destruct (answer_holds c x n n' rq a (k x) (UCall c k) Hallow Hc Hle) as [Heq Hle'].
    split_and!; simpl; [rewrite (held_insert _ _ _ _ Hi); lia|done|]. apply Forall_insert; [done|]. apply Hk.
Qed.

Lemma transfers_held l : Forall connSafe l → transfers l ≤ held l.
Proof.
  induction 1 as [|c l Hc _ IH]; simpl; [lia|]. enough ((if transferring c then 1 else 0) ≤ holds c) by lia.
  destruct c as [rq a [r|X [] k]]; unfold transferring, holds; simpl; try (destruct (ua_slot a); lia).
  destruct Hc as [(_ & _ & Hs & _) _]. simpl in Hs. rewrite Hs. lia.
Qed.

(** What may be seen of a request at any time. *)
Definition connOk (taken : Z) (c : conn) : Prop :=
  match cn_prog c with
  | UDone _ => ufinished (cn_auth c)
  | UCall call _ => uallowed options (cn_rq c) call (cn_auth c) ∧ (ua_slot (cn_auth c) = true → 0 < taken)
  end.

(** C39. However the requests of an upload handler run next to each other and
    whatever their stores answer: at most eight chunks are being stored at a time;
    a scope is resolved only for an allowed origin and a path that spells it, once
    in a request; its store is read, changed or opened only for the method and the
    path that name the operation, and changed only when the target is writable and
    the origin is one of the allowed; a chunk comes with a slot, an offset that is
    no negative number, a digest and the limit of the store; when the response is
    done, the slot, the target and the file have been given back, and giving the
    slot back never waits. *)
Theorem uploads_authorised n l :
  rtc ustep (mkState 0 []) (mkState n l) → transfers l ≤ 8 ∧ Forall (connOk n) l.
Proof.
  intros H. assert (inv (mkState n l)) as (Hn & Hle & Hl).
  { revert H. generalize (mkState n l). intros s Hs. assert (inv (mkState 0 [])) as H0 by (split_and!; simpl; [done|lia|constructor]).
    revert H0. induction Hs as [|s1 s2 s3 Hs _ IH]; [done|]. intros H0. by eapply IH, step_inv. }
  simpl in *. split; [pose proof (transfers_held l Hl); lia|]. apply Forall_lookup_2. intros i c Hi.
  pose proof (Forall_lookup_1 _ _ _ _ Hl Hi) as Hc. pose proof (held_lookup _ _ _ Hi) as Hh. unfold connOk, connSafe, holds in *.
  destruct (cn_prog c) as [r|X call k]; [done|]. split; [by destruct Hc|]. intros Hs. rewrite Hs in Hh. lia.
Qed.
End system.

(** ** A run *)

Definition demoUploads : UploadOptions := mkUploadOptions "/files" ["https://app.example"] true.
Definition demoChunk : upload :=
  mkUpload "PATCH" "/files/draft/one" "https://app.example" "0"
    "0123456789abcdef0123456789abcdef0123456789abcdef0123456789abcdef" "" (fun _ => None) (fun _ => Malformed).
Definition demoTarget : UploadTarget := mkUploadTarget true true true.
Definition demoLimits : UploadLimits := mkLimits 100 100 100 100 8 4.
(** A chunk on its way to the store. *)
Definition demoSent : conn :=
  mkConn demoChunk (mkUAuthority true (Some demoTarget) (Some 8) false)
    (UCall (UAppend "one" 0 (up_Checksum demoChunk) 8) (fun appended =>
      ubind (ubind (conclude 200 appended) (fun reply => UCall URelease (fun _ => UDone reply)))
        (fun reply => UCall UGiveBack (fun _ => UDone reply)))).

(** A request that comes in asks for a slot first. *)
Lemma demo_first : serveUpload demoUploads demoChunk = UCall UAcquire (fun slot =>
  if negb slot then refuse 429 "Too many uploads are transferring; retry shortly"
  else ubind (serveScope demoChunk (FileRoute "draft" "one")) (fun reply => UCall UGiveBack (fun _ => UDone reply))).
Proof.
  unfold serveUpload. replace (uploadOriginAllowed demoUploads demoChunk) with true by (by vm_compute).
  replace (uploadRouteOf demoUploads demoChunk) with (Some (FileRoute "draft" "one")) by (by vm_compute). done.
Qed.
Lemma demo_store : serveStore demoChunk (FileRoute "draft" "one") = UCall ULimits (fun limits =>
  UCall (UAppend "one" 0 (up_Checksum demoChunk) (ul_ChunkBytes limits)) (fun appended => conclude 200 appended)).
Proof.
  change (serveStore demoChunk (FileRoute "draft" "one")) with (appendUpload demoChunk "one").
  unfold appendUpload. replace (parseInt64 (up_Offset demoChunk)) with (Some 0) by (by vm_compute).
  by replace (_ || _) with false by (by vm_compute).
Qed.

Lemma demo_upload : rtc (ustep demoUploads) (mkState 0 []) (mkState 1 [demoSent]).
Proof.
  eapply rtc_l; [apply (request_arrives _ _ _ demoChunk)|]. cbn [app]. rewrite demo_first.
  eapply rtc_l; [eapply (call_answered _ 0 1 _ 0 demoChunk ustart bool UAcquire _ true); done|].
  eapply rtc_l; [eapply (call_answered _ 1 1 _ 0 demoChunk _ _ (UResolve "draft" true) _ (Ok demoTarget)); done|].
  cbn -[serveStore uafter]. rewrite demo_store. cbn -[conclude].
  eapply rtc_l; [eapply (call_answered _ 1 1 _ 0 demoChunk _ _ ULimits _ demoLimits); done|]. apply rtc_refl.
Qed.

Lemma uploads_authorised_witness :
  rtc (ustep demoUploads) (mkState 0 []) (mkState 1 [demoSent]) ∧ transfers [demoSent] = 1
  ∧ transfers [demoSent] ≤ 8 ∧ Forall (connOk demoUploads 1) [demoSent].
Proof. split_and!; [exact demo_upload|done|..]; apply (uploads_authorised demoUploads 1 [demoSent] demo_upload). Defined.
