(* ===== verification/EphemeralRun.v ===== *)
(** * Running a utility turn

    [runEphemeralTurn], its option checks and its deferred cleanup, from
    [src/codex/ephemeral.go] (34-655): one strict turn on a private connection,
    as a program over the steps that others can observe or interrupt. *)
From Stdlib Require Import Ascii String.
From S2P Require Import Prelude GoStd GoPath GoValue EphemeralJson Ephemeral EphemeralFacts.
Open Scope Z_scope.

(** ** The file system, as the checks read it *)

Record fileInfo := mkInfo {
  fi_isDir : bool; fi_regular : bool; fi_perm : Z; fi_size : Z;
  fi_owner : option (Z * Z) }.                 (** uid and link count *)

Record fileSystem := mkFs {
  fs_euid : Z;
  fs_evalSymlinks : string → option string;
  fs_lstat : string → option fileInfo;
  fs_stat : string → option fileInfo;          (** [os.Open] and [Stat] *)
  fs_readDir : string → option (list string);
  fs_read : string → option string }.          (** the content of an opened file *)

Definition EphemeralInstructionFileContent : string :=
  ("Preserve the current utility task and its explicit instructions." ++ newline)%string.

Definition ephemeralLunaCatalogHash : string := "049042aaadcf2f19722fa1e893f926d2bdbd4d0ff092d80704ff4256e2a45fb1".
Definition ephemeralCatalogHash : string := "943ca7fe1d19ed019054158303f0dbbd80b3bef43b3aa425a71aa7cb3fb52c2b".
Definition catalogLimit : Z := 1024 * 1024.

(** [io.ReadAll(io.LimitReader(file, n))] *)
Definition limited (n : Z) (content : string) : string := String.substring 0 (Z.to_nat n) content.

Section files.
Context (fs : fileSystem).

Definition privateEphemeralPath (path : string) (directory : bool) : bool :=
  canonicalPath path &&
  match fs_evalSymlinks fs path with Some resolved => str_eqb resolved path | None => false end &&
  match fs_lstat fs path with
  | Some info =>
    match fi_owner info with
    | Some (uid, links) =>
      (uid =? fs_euid fs mod 2 ^ 32) &&
      if directory then fi_isDir info && (fi_perm info =? 448) else
      fi_regular info && (fi_perm info =? 384) && (fi_size info =? len EphemeralInstructionFileContent)
      && (links =? 1)
      && match fs_read fs path with
         | Some content => str_eqb (limited (len EphemeralInstructionFileContent + 1) content)
                                   EphemeralInstructionFileContent
         | None => false
         end
    | None => false
    end
  | None => false
  end.

Definition validEphemeralCatalog (path model : string) : bool :=
  canonicalPath path &&
  match fs_evalSymlinks fs path with Some resolved => str_eqb resolved path | None => false end &&
  match fs_stat fs path with
  | Some info =>
    fi_regular info && (Z.land (fi_perm info) 146 =? 0) && (0 <? fi_size info) && (fi_size info <=? catalogLimit)
    && match fs_read fs path with
       | Some content =>
         let content := limited (catalogLimit + 1) content in
         (len content <=? catalogLimit) &&
         str_eqb (sha256_hex content)
           (if str_eqb model "gpt-6-luna" then ephemeralLunaCatalogHash else ephemeralCatalogHash)
       | None => false
       end
  | None => false
  end.

Record EphemeralTurnOptions := mkOptions {
  eo_Directory : string; eo_InstructionFile : string; eo_ModelCatalogFile : string;
  eo_ModelProvider : string; eo_Model : string; eo_Effort : string;
  eo_Instructions : string; eo_Input : string; eo_OutputSchema : raw }.

Definition validEphemeralOptions (opts : EphemeralTurnOptions) : bool :=
  negb (is_empty (trimSpace (eo_Model opts)) || is_empty (trimSpace (eo_Effort opts))
        || negb (ephemeralID (eo_Model opts)) || negb (ephemeralID (eo_Effort opts))
        || is_empty (trimSpace (eo_Instructions opts))
        || (16 * 1024 <? len (eo_Instructions opts)) || (64 * 1024 <? len (eo_Input opts))
        || negb (validString (eo_Instructions opts)) || negb (validString (eo_Input opts))
        || (raw_len (eo_OutputSchema opts) =? 0) || (16 * 1024 <? raw_len (eo_OutputSchema opts))) &&
  match ephemeralObject (eo_OutputSchema opts) with Some _ => true | None => false end &&
  privateEphemeralPath (eo_Directory opts) true && privateEphemeralPath (pathDir (eo_Directory opts)) true &&
  match fs_readDir fs (eo_Directory opts) with Some [] => true | _ => false end &&
  privateEphemeralPath (pathDir (eo_InstructionFile opts)) true &&
  match pathRel (eo_Directory opts) (eo_InstructionFile opts) with
  | Some relative => str_eqb relative ".." || hasPrefix relative "../"
  | None => false
  end &&
  privateEphemeralPath (eo_InstructionFile opts) false.
End files.

(** ** The policy sent with [thread/start] *)

(** [ephemeral_policy.json] *)
Definition ephemeralPolicy : members :=
  [("agents.enabled", JBool false); ("cloud.skills.enabled", JBool false); ("compact_prompt", JStr "");
   ("experimental_compact_prompt_file", JStr "/private/instructions.txt");
   ("features.agent_message_board", JBool false); ("features.apps", JBool false);
   ("features.code_mode", JBool false); ("features.code_mode_host", JBool false);
   ("features.code_mode_interrupt", JBool false); ("features.code_mode_only", JBool false);
   ("features.code_mode_prewarm", JBool false); ("features.context_management", JBool false);
   ("features.current_time_reminder", JBool false); ("features.deferred_executor", JBool false);
   ("features.enable_mcp_apps", JBool false); ("features.external_agent_memory_import", JBool false);
   ("features.goals", JBool false); ("features.guardian_conversation_history_tools", JBool false);
   ("features.hooks", JBool false); ("features.image_generation", JBool false);
   ("features.memories", JBool false); ("features.multi_agent", JBool false);
   ("features.multi_agent_v2", JBool false); ("features.plugins", JBool false);
   ("features.recommended_plugins", JBool false); ("features.remote_plugin", JBool false);
   ("features.send_message_to_user_async", JBool false); ("features.shell_snapshot", JBool false);
   ("features.shell_snapshot_v2", JBool false); ("features.shell_tool", JBool false);
   ("features.skill_mcp_dependency_install", JBool false); ("features.skill_search", JBool false);
   ("features.sleep_tool", JBool false); ("features.standalone_web_search", JBool false);
   ("features.token_budget", JBool false); ("features.tool_suggest", JBool false);
   ("features.unified_exec", JBool false); ("features.view_image", JBool false);
   ("history.persistence", JStr "none"); ("include_apps_instructions", JBool false);
   ("include_collaboration_mode_instructions", JBool false);
   ("include_environment_context", JBool false); ("include_permissions_instructions", JBool false);
   ("memories.dedicated_tools", JBool false); ("memories.generate_memories", JBool false);
   ("memories.use_memories", JBool false);
   ("model_instructions_file", JStr "/private/instructions.txt"); ("notify", JArr []);
   ("orchestrator.mcp.enabled", JBool false); ("project_doc_max_bytes", JNum "0");
   ("skills.bundled.enabled", JBool false); ("skills.include_instructions", JBool false);
   ("tools.experimental_request_user_input.enabled", JBool false);
   ("tools.update_plan.enabled", JBool false); ("web_search", JStr "disabled")].

Definition ephemeralEmptyArrays (object : members) (keys : list string) : bool :=
  forallb (fun key => match assoc key object with
                      | None => true
                      | Some (JArr []) => true
                      | Some _ => false
                      end) keys.

(** The inventory of [mcp_servers], each switched off; [None] when it is refused. *)
Definition disabledServers (config : members) : option members :=
  match assoc "mcp_servers" config with
  | None => Some []
  | Some (JObj inventory) =>
    if Nat.ltb 128 (Datatypes.length inventory) then None else
    if forallb (fun '(name, settings) => ephemeralID name && match settings with JObj _ => true | _ => false end)
         inventory
    then Some ((fun '(name, _) => (name, JObj [("enabled", JBool false)])) <$> inventory) else None
  | Some _ => None
  end.

Definition ephemeralRestrictions (text : raw) (instructionFile catalogFile : string) : option members :=
  match ephemeralObject text with
  | None => None
  | Some response =>
    match get "config" response, get "origins" response with
    | JObj config, JObj origins =>
      if negb (isText (get "model_catalog_json" config) catalogFile) then None else
      match get "model_catalog_json" origins with
      | JObj origin =>
        match get "name" origin with
        | JObj name =>
          if negb (isText (get "type" name) "sessionFlags") then None else
          match disabledServers config with
          | Some servers =>
            Some (put "mcp_servers" (JObj servers)
                   (put "experimental_compact_prompt_file" (JStr instructionFile)
                     (put "model_instructions_file" (JStr instructionFile) ephemeralPolicy)))
          | None => None
          end
        | _ => None
        end
      | _ => None
      end
    | _, _ => None
    end
  end.

(** One of the lists of allowed choices. *)
Definition choiceAllowed (requirements : members) (key wanted : string) : bool :=
  match get key requirements with
  | JNull => true
  | JArr choices => forallb (fun c => match c with JStr _ => true | _ => false end) choices
                    && existsb (fun c => isText c wanted) choices
  | _ => false
  end.

Definition featureAllowed (policy : members) (name : string) (value : json) : bool :=
  match value with
  | JBool enabled =>
    match assoc ("features." ++ name)%string policy with
    | Some enforced => isFlag enforced enabled
    | None => true
    end && negb enabled
  | _ => false
  end.

Definition ephemeralRequirementsAllow (text : raw) (policy : members) : bool :=
  match ephemeralObject text with
  | None => false
  | Some response =>
    match assoc "requirements" response with
    | None => false
    | Some JNull => true
    | Some (JObj requirements) =>
      choiceAllowed requirements "allowedApprovalPolicies" "never" &&
      choiceAllowed requirements "allowedSandboxModes" "read-only" &&
      choiceAllowed requirements "allowedWebSearchModes" "disabled" &&
      match get "additionalDeveloperInstructions" requirements with JNull | JStr "" => true | _ => false end &&
      isNil (get "hooks" requirements) &&
      match get "featureRequirements" requirements with
      | JNull => true
      | JObj features => forallb (fun '(name, value) => featureAllowed policy name value) features
      | _ => false
      end
    | Some _ => false
    end
  end.

(** ** Errors of a run *)

Inductive contextError := Canceled | DeadlineExceeded.

(** A bare category, the context's error, or an [ephemeralRetryError];
    [Unfinished] is a loop of this model that ran out of fuel. *)
Inductive runError :=
| Category (c : category)
| Context (e : contextError)
| RetryError (c : category) (retryable : bool)
| Unfinished.

Definition CanRetryEphemeralTurn (e : runError) : bool :=
  match e with RetryError _ retryable => retryable | _ => false end.

(** ** The private client at teardown *)

Inductive connectFailure :=
| DialError (op : string) (errno : string)     (** a [*net.OpError] in the chain *)
| OtherFailure.

Definition transientDial (f : connectFailure) : bool :=
  match f with
  | DialError op errno => str_eqb op "dial" && str_in errno ["ECONNREFUSED"; "ECONNRESET"; "ETIMEDOUT"]
  | OtherFailure => false
  end.

(** The fields [closeEphemeral] reads under [connectionMu], and what closing and
    waiting then show. A reader is its connection and generation. *)
Record closeEnv := mkClose {
  cv_reader : option (Z * Z);
  cv_connection : option Z;
  cv_generation : Z; cv_ready : Z; cv_closed : bool;
  cv_closeErr : bool;                  (** [CloseNow] failed *)
  cv_readerDone : bool;                (** the reader exited before the context *)
  cv_ctxErr : bool }.                  (** [ctx.Err() != nil] afterwards *)

(** [late]: the cleanup context had ended before. *)
Definition closeEphemeral (generation : Z) (late : bool) (v : closeEnv) : bool :=
  let ended := late || cv_ctxErr v in
  match cv_reader v with
  | None => bool_decide (cv_connection v = None) && (cv_generation v =? 0) && (generation =? 0)
            && negb ended
  | Some (connection, g) =>
    let expected := negb (cv_closed v) && (g =? generation) && (cv_generation v =? generation)
                    && bool_decide (cv_connection v = Some connection) && (cv_ready v =? generation) in
    cv_readerDone v && expected && negb (cv_closeErr v) && negb ended
  end.

(** ** Programs *)

(** A run is a tree of what it does and observes: the locked sections of the
    sink, the contexts, the private connection and the channel [changed]. *)
Inductive eprog (A : Type) : Type :=
| ERet (a : A)
| ESink {B} (f : sink → B * sink) (k : B → eprog A)
| ECtx (k : option contextError → eprog A)                 (** [ctx.Err()] *)
| ELate (k : bool → eprog A)          (** whether the inference or cleanup context has ended *)
| EConnect (k : Z + connectFailure → eprog A)              (** [Ensure]; the generation *)
| ECall (method : string) (params : members) (k : option raw → eprog A)  (** a request; [None] failed *)
| EWait (k : bool → eprog A)                               (** [select]: woken, or inference done *)
| EClose (generation : Z) (late : bool) (k : bool → eprog A). (** [closeEphemeral] *)
Arguments ERet {A} a.
Arguments ESink {A B} f k.
Arguments ECtx {A} k.
Arguments ELate {A} k.
Arguments EConnect {A} k.
Arguments ECall {A} method params k.
Arguments EWait {A} k.
Arguments EClose {A} generation late k.

Fixpoint ebind {A C} (m : eprog A) (f : A → eprog C) : eprog C :=
  match m with
  | ERet a => f a
  | ESink g k => ESink g (fun b => ebind (k b) f)
  | ECtx k => ECtx (fun e => ebind (k e) f)
  | ELate k => ELate (fun b => ebind (k b) f)
  | EConnect k => EConnect (fun r => ebind (k r) f)
  | ECall m ps k => ECall m ps (fun r => ebind (k r) f)
  | EWait k => EWait (fun b => ebind (k b) f)
  | EClose g late k => EClose g late (fun b => ebind (k b) f)
  end.

(** ** Listing the models *)

(** The efforts of the wanted model; [None] is a malformed page. *)
Fixpoint scanEfforts (effort : string) (efforts : list json) (available : bool) : option bool :=
  match efforts with
  | [] => Some available
  | JObj entry :: efforts =>
    match get "reasoningEffort" entry with
    | JStr value => scanEfforts effort efforts (available || str_eqb value effort)
    | _ => None
    end
  | _ => None
  end.

Fixpoint scanModels (model effort : string) (models : list json) (available : bool) : option bool :=
  match models with
  | [] => Some available
  | JObj entry :: models =>
    match get "model" entry with
    | JStr name =>
      if is_empty name then None else
      if negb (str_eqb name model) then scanModels model effort models available else
      match get "supportedReasoningEfforts" entry with
      | JArr efforts =>
        match scanEfforts effort efforts available with
        | Some available => scanModels model effort models available
        | None => None
        end
      | _ => None
      end
    | _ => None
    end
  | _ => None
  end.

(** What a page says: malformed, available, the end, or where the next one is. *)
Inductive modelPage := PageBad | PageFound | PageEnd | PageNext (cursor : string).

Definition readModelPage (model effort : string) (seen : list string) (text : raw) : modelPage :=
  match ephemeralObject text with
  | None => PageBad
  | Some data =>
    match get "data" data with
    | JArr models =>
      if Nat.ltb 100 (Datatypes.length models) then PageBad else
      match scanModels model effort models false with
      | None => PageBad
      | Some true => PageFound
      | Some false =>
        match get "nextCursor" data with
        | JNull => PageEnd
        | JStr cursor => if is_empty cursor || (1024 <? len cursor) || str_in cursor seen then PageBad
                         else PageNext cursor
        | _ => PageBad
        end
      end
    | _ => PageBad
    end
  end.

(** ** The run *)

Inductive contract := ephemeralStrict | ephemeralPrompted.

(** The variables the deferred cleanup closes over, and the named results. *)
Record outcome := mkOutcome {
  oc_generation : Z; oc_threadID : string; oc_turnID : string;
  oc_threadIssued : bool; oc_dialTransient : bool;
  oc_result : res runError string }.

Definition hasSpace (s : string) : bool :=
  existsb (fun b => (b =? 0) || (b =? 13) || (b =? 10) || (b =? 9) || (b =? 32)) (bytes_of s).

(** The settings a contract accepts. *)
Definition settingsAccepted (c : contract) (opts : EphemeralTurnOptions) : bool :=
  let prompted := match c with ephemeralPrompted => true | ephemeralStrict => false end in
  negb ((negb (str_eqb (eo_Model opts) "gpt-5.5") && negb (str_eqb (eo_Model opts) "gpt-6-luna"))
        || (negb (str_eqb (eo_Effort opts) "low") && negb (prompted && str_eqb (eo_Effort opts) "high"))
        || (prompted && negb (str_eqb (eo_Model opts) "gpt-6-luna"))) &&
  (is_empty (eo_ModelProvider opts) ||
   ephemeralID (eo_ModelProvider opts) && str_eqb (trimSpace (eo_ModelProvider opts)) (eo_ModelProvider opts)
   && negb (hasSpace (eo_ModelProvider opts))).

(** The closure [failure]: the context first, then what the sink recorded, then
    the inference deadline, then the given category. *)
Definition failureOf (c : category) : eprog runError :=
  ECtx (fun e => match e with
  | Some e => ERet (Context e)
  | None => ESink (fun s => (failure s, s)) (fun f => match f with
    | Some c => ERet (Category c)
    | None => ELate (fun late => ERet (if late then Context DeadlineExceeded else Category c))
    end)
  end).

Section run.
Context (fs : fileSystem) (opts : EphemeralTurnOptions).

Definition startParams (policy : members) : members :=
  [("ephemeral", JBool true); ("model", JStr (eo_Model opts)); ("allowProviderModelFallback", JBool false);
   ("cwd", JStr (eo_Directory opts)); ("baseInstructions", JStr (eo_Instructions opts));
   ("developerInstructions", JStr ""); ("approvalPolicy", JStr "never"); ("sandbox", JStr "read-only");
   ("environments", JArr []); ("runtimeWorkspaceRoots", JArr []); ("selectedCapabilityRoots", JArr []);
   ("dynamicTools", JArr []); ("config", JObj policy)] ++
  (if is_empty (eo_ModelProvider opts) then [] else [("modelProvider", JStr (eo_ModelProvider opts))]).

(** The output schema is sent as it was given. *)
Definition turnParams (threadID : string) : members :=
  [("threadId", JStr threadID);
   ("input", JArr [JObj [("type", JStr "text"); ("text", JStr (eo_Input opts))]]);
   ("model", JStr (eo_Model opts)); ("effort", JStr (eo_Effort opts));
   ("outputSchema", JObj (default [] (ephemeralObject (eo_OutputSchema opts))));
   ("cwd", JStr (eo_Directory opts)); ("approvalPolicy", JStr "never");
   ("sandboxPolicy", JObj [("type", JStr "readOnly"); ("networkAccess", JBool false)]);
   ("environments", JArr []); ("runtimeWorkspaceRoots", JArr [])].

(** The thread App Server started is the isolated one that was asked for. *)
Definition startIsolated (start thread : members) : bool :=
  let sandbox := mapOrNil (get "sandbox" start) in
  isText (get "model" start) (eo_Model opts) && isText (get "cwd" start) (eo_Directory opts)
  && isText (get "cwd" thread) (eo_Directory opts) && isFlag (get "ephemeral" thread) true
  && isNil (get "path" thread) && isText (get "approvalPolicy" start) "never"
  && match get "sandbox" start with JObj _ => true | _ => false end
  && isText (get "type" sandbox) "readOnly"
  && (isNil (get "networkAccess" sandbox) || isFlag (get "networkAccess" sandbox) false)
  && ephemeralEmptyArrays start ["runtimeWorkspaceRoots"] && ephemeralEmptyArrays thread ["environments"].

(** The loop over [model/list]; the continuation runs when the effort is available. *)
Fixpoint listModels (pages : nat) (cursor : string) (seen : list string)
    (bad : runError → eprog outcome) (k : eprog outcome) : eprog outcome :=
  match pages with
  | O => bad (Category ErrEphemeralSettings)
  | S pages =>
    ECall "model/list" ([("limit", JNum "100"); ("includeHidden", JBool true)] ++
                        (if is_empty cursor then [] else [("cursor", JStr cursor)])) (fun r =>
    match r with
    | None => ebind (failureOf ErrEphemeralSettings) bad
    | Some text =>
      match readModelPage (eo_Model opts) (eo_Effort opts) seen text with
      | PageBad => bad (Category ErrEphemeralSettings)
      | PageFound => k
      | PageEnd => bad (Category ErrEphemeralSettings)
      | PageNext cursor => listModels pages cursor (cursor :: seen) bad k
      end
    end)
  end.

(** The last loop: sample the result, or wait for the reader to signal. *)
Fixpoint awaitResult (fuel : nat) (stop : res runError string → outcome) : eprog outcome :=
  match fuel with
  | O => ERet (stop (Err Unfinished))
  | S fuel =>
    ESink (fun s => (result s, s)) (fun '(text, done, failed) =>
    match failed with
    | Some c => ERet (stop (Err (Category c)))
    | None =>
      if done then ERet (stop (Ok text)) else
      EWait (fun woken =>
        if woken then awaitResult fuel stop
        else ebind (failureOf ErrEphemeralProtocol) (fun e => ERet (stop (Err e))))
    end)
  end.

(** From the turn's start to its result. *)
Definition runTurn (fuel : nat) (generation : Z) (threadID : string) : eprog outcome :=
  let stop turnID r := mkOutcome generation threadID turnID true false r in
  let give turnID c := ERet (stop turnID (Err (Category c))) in
  let fails turnID c := ebind (failureOf c) (fun e => ERet (stop turnID (Err e))) in
  ESink (bindTurn generation threadID "") (fun bound =>
  if negb bound then fails "" ErrEphemeralProtocol else
  ESink (beginTurn generation threadID) (fun begun =>
  if negb begun then fails "" ErrEphemeralProtocol else
  ECall "turn/start" (turnParams threadID) (fun r =>
  match r with
  | None => fails "" ErrEphemeralServer
  | Some text =>
    match ephemeralObject text with
    | None => give "" ErrEphemeralProtocol
    | Some response =>
      match get "turn" response with
      | JObj turn =>
        let turnID := textOrEmpty (get "id" turn) in
        if negb (ephemeralID turnID) then give "" ErrEphemeralProtocol else
        if negb (str_in (textOrEmpty (get "status" turn)) ["inProgress"; "completed"])
        then give turnID ErrEphemeralServer else
        match get "items" turn with
        | JArr _ =>
          ESink (bindTurn generation threadID turnID) (fun bound =>
          if negb bound then fails turnID ErrEphemeralProtocol else awaitResult fuel (stop turnID))
        | _ => give turnID ErrEphemeralProtocol
        end
      | _ => give "" ErrEphemeralProtocol
      end
    end
  end))).

(** From [thread/start]. *)
Definition runThread (fuel : nat) (generation : Z) (policy : members) : eprog outcome :=
  let stop threadID r := mkOutcome generation threadID "" true false r in
  ECall "thread/start" (startParams policy) (fun r =>
  match r with
  | None => ebind (failureOf ErrEphemeralServer) (fun e => ERet (stop "" (Err e)))
  | Some text =>
    match ephemeralObject text with
    | None => ERet (stop "" (Err (Category ErrEphemeralProtocol)))
    | Some start =>
      match get "thread" start with
      | JObj thread =>
        let threadID := textOrEmpty (get "id" thread) in
        if negb (ephemeralID threadID) then ERet (stop "" (Err (Category ErrEphemeralProtocol))) else
        if negb (startIsolated start thread) then ERet (stop threadID (Err (Category ErrEphemeralIsolation))) else
        if negb (isNil (get "model" thread)) && negb (isText (get "model" thread) (eo_Model opts))
        then ERet (stop threadID (Err (Category ErrEphemeralSettings))) else
        runTurn fuel generation threadID
      | _ => ERet (stop "" (Err (Category ErrEphemeralProtocol)))
      end
    end
  end).

(** The body, up to the deferred cleanup. *)
Definition runBody (fuel : nat) : eprog outcome :=
  EConnect (fun r =>
  match r with
  | inr f => ebind (failureOf ErrEphemeralServer) (fun e =>
               ERet (mkOutcome 0 "" "" false (transientDial f) (Err e)))
  | inl generation =>
    let bad e := ERet (mkOutcome generation "" "" false false (Err e)) in
    let fails c := ebind (failureOf c) bad in
    ECall "config/read" [("cwd", JStr (eo_Directory opts)); ("includeLayers", JBool false)] (fun r =>
    match r with
    | None => fails ErrEphemeralIsolation
    | Some config =>
      match ephemeralRestrictions config (eo_InstructionFile opts) (eo_ModelCatalogFile opts) with
      | None => bad (Category ErrEphemeralIsolation)
      | Some policy =>
        ECall "configRequirements/read" [] (fun r =>
        match r with
        | None => fails ErrEphemeralIsolation
        | Some requirements =>
          if negb (ephemeralRequirementsAllow requirements policy)
          then bad (Category ErrEphemeralIsolation)
          else listModels 8 "" [] bad (runThread fuel generation policy)
        end)
      end
    end)
  end).

Definition cleanedStatuses : list string := ["unsubscribed"; "notSubscribed"; "notLoaded"].

(** The [status] of the answer to [thread/unsubscribe], a field of a struct; an
    answer that does not fit the struct has none. *)
Definition unsubscribeStatus (text : raw) : string :=
  default "" (stringField "status" (default [] (ephemeralObject text))).

(** The verdict, once the connection is closed. *)
Definition verdict (oc : outcome) (cleanupOK joined : bool) (r : res runError string) : eprog (res runError string) :=
  let r := match r with Ok _ => if joined then r else Err (Category ErrEphemeralServer) | _ => r end in
  ESink (fun s => (failure s, s)) (fun f =>
  let r := match r, f with Ok _, Some c => Err (Category c) | _, _ => r end in
  ECtx (fun e =>
  match e with
  | Some e => ERet (Err (Context e))
  | None =>
    match r with
    | Err (Category ErrEphemeralServer) =>
      ESink (fun s => (canRetry (oc_generation oc) (oc_threadID oc) (oc_turnID oc) s, s)) (fun retry =>
      ERet (if joined && cleanupOK && (oc_dialTransient oc || retry)
            then Err (RetryError ErrEphemeralServer true) else r))
    | _ => ERet r
    end
  end)).

(** The deferred function. [late] tells whether the cleanup context has ended,
    which it then has when the connection is closed. *)
Definition cleanup (oc : outcome) : eprog (res runError string) :=
  let finish late cleanupOK r :=
    EClose (oc_generation oc) late (fun joined => verdict oc cleanupOK joined r) in
  ELate (fun late =>
  if (oc_generation oc =? 0) || is_empty (oc_threadID oc) || late
  then finish late (negb (oc_threadIssued oc)) (oc_result oc) else
  ESink (fun s => (cleanupTurn (oc_generation oc) (oc_threadID oc) (oc_turnID oc) s, s)) (fun owned =>
  let unsubscribe :=
    ECall "thread/unsubscribe" [("threadId", JStr (oc_threadID oc))] (fun r =>
    let cleanupOK := match r with
                     | Some text => str_in (unsubscribeStatus text) cleanedStatuses
                     | None => false
                     end in
    finish false cleanupOK (match oc_result oc with
                      | Ok _ => if cleanupOK then oc_result oc else Err (Category ErrEphemeralServer)
                      | r => r
                      end)) in
  if negb (is_ok (oc_result oc)) && negb (is_empty owned)
  then ECall "turn/interrupt" [("threadId", JStr (oc_threadID oc)); ("turnId", JStr owned)] (fun _ => unsubscribe)
  else unsubscribe)).

(** All that follows the checks. *)
Definition utilityTurn (fuel : nat) : eprog (res runError string) := ebind (runBody fuel) cleanup.

(** [hasDeadline] and [observer] describe the context and the client. *)
Definition runEphemeralTurn (fuel : nat) (c : contract) (hasDeadline observer : bool)
    : eprog (res runError string) :=
  ECtx (fun e => match e with Some e => ERet (Err (Context e)) | None =>
  if negb hasDeadline || observer then ERet (Err (Category ErrEphemeralIsolation)) else
  ECtx (fun e => match e with Some e => ERet (Err (Context e)) | None =>
  if negb (settingsAccepted c opts) then ERet (Err (Category ErrEphemeralSettings)) else
  let valid := validEphemeralOptions fs opts && validEphemeralCatalog fs (eo_ModelCatalogFile opts) (eo_Model opts) in
  ECtx (fun e => match e with Some e => ERet (Err (Context e)) | None =>
  if negb valid then ERet (Err (Category ErrEphemeralIsolation)) else
  utilityTurn fuel end) end) end).
End run.
