(* ===== verification/EphemeralRunFacts.v ===== *)
(** * What a run of a utility turn guarantees

    The program of [EphemeralRun] against any behaviour of App Server, the
    contexts and the reader: when a run returns a text, when it reports a failure
    as retryable, which turns it interrupts, and that its last loop ends. *)
From Stdlib Require Import Ascii String.
From S2P Require Import Prelude GoStd GoValue EphemeralJson Ephemeral EphemeralFacts EphemeralRun.
Open Scope Z_scope.

(** ** Runs *)

(** The sink, all that the reader received, and whether the reader is gone. *)
Record world := mkWorld { w_sink : sink; w_log : list input; w_joined : bool }.

(** The reader works between any two steps, until it has exited. *)
Inductive readerStep : world → world → Prop :=
| ReaderInput i s log : frameGeneration i ≠ 0 →
    readerStep (mkWorld s log false) (mkWorld (receive i s) (log ++ [i]) false).

(** A request with its answer; [None] is a failed one. *)
Definition call : Type := string * members * option raw.

(** One execution; [cs] are the calls before and [cs'] those after it. The
    generation of a connection is positive. *)
Inductive erun {A} : eprog A → world → list call → A → world → list call → Prop :=
| RunReader m w w1 cs a w' cs' : readerStep w w1 → erun m w1 cs a w' cs' → erun m w cs a w' cs'
| RunRet a w cs : erun (ERet a) w cs a w cs
| RunSink {B} (f : sink → B * sink) k s log j cs a w' cs' :
    erun (k (f s).1) (mkWorld (f s).2 log j) cs a w' cs' → erun (ESink f k) (mkWorld s log j) cs a w' cs'
| RunCtx k e w cs a w' cs' : erun (k e) w cs a w' cs' → erun (ECtx k) w cs a w' cs'
| RunLate k b w cs a w' cs' : erun (k b) w cs a w' cs' → erun (ELate k) w cs a w' cs'
| RunConnect k r w cs a w' cs' : r ≠ inl 0 → erun (k r) w cs a w' cs' → erun (EConnect k) w cs a w' cs'
| RunCall m ps k r w cs a w' cs' :
    erun (k r) w (cs ++ [(m, ps, r)]) a w' cs' → erun (ECall m ps k) w cs a w' cs'
| RunWoken k s log j cs a w' cs' : es_changed s = true →
    erun (k true) (mkWorld (setChanged s false) log j) cs a w' cs' →
    erun (EWait k) (mkWorld s log j) cs a w' cs'
| RunDone k w cs a w' cs' : erun (k false) w cs a w' cs' → erun (EWait k) w cs a w' cs'
| RunClose g late k v w cs a w' cs' :
    erun (k (closeEphemeral g late v))
      (mkWorld (w_sink w) (w_log w) (w_joined w || closeEphemeral g late v)) cs a w' cs' →
    erun (EClose g late k) w cs a w' cs'.

(** ** Weakest preconditions *)

Definition reads : world → world → Prop := rtc readerStep.
Definition withSink (w : world) (s : sink) : world := mkWorld s (w_log w) (w_joined w).

Fixpoint ewp {A} (m : eprog A) (w : world) (cs : list call) (Q : world → list call → A → Prop) : Prop :=
  match m with
  | ERet a => ∀ w', reads w w' → Q w' cs a
  | ESink f k => ∀ w', reads w w' → ewp (k (f (w_sink w')).1) (withSink w' (f (w_sink w')).2) cs Q
  | ECtx k => ∀ e, ewp (k e) w cs Q
  | ELate k => ∀ b, ewp (k b) w cs Q
  | EConnect k => ∀ r, r ≠ inl 0 → ewp (k r) w cs Q
  | ECall m ps k => ∀ r, ewp (k r) w (cs ++ [(m, ps, r)]) Q
  | EWait k =>
    (∀ w', reads w w' → es_changed (w_sink w') = true → ewp (k true) (withSink w' (setChanged (w_sink w') false)) cs Q) ∧
    ewp (k false) w cs Q
  | EClose g late k => ∀ w' v, reads w w' →
    ewp (k (closeEphemeral g late v)) (mkWorld (w_sink w') (w_log w') (w_joined w' || closeEphemeral g late v)) cs Q
  end.

Lemma ewp_reads {A} (m : eprog A) w w1 cs Q : reads w w1 → ewp m w cs Q → ewp m w1 cs Q.
Proof.
  intros Hr. revert cs. induction m as [a|B f k IH|k IH|k IH|k IH|me ps k IH|k IH|g late k IH]; simpl; intros cs H.
  - intros w' Hw. apply H. by etrans.
  - intros w' Hw. apply H. by etrans.
  - eauto.
  - eauto.
  - eauto.
  - eauto.
  - destruct H as [Ht Hf]. split; [|by apply IH]. intros w' Hw Hc. apply Ht; [by etrans|done].
  - intros w' v Hw. apply H. by etrans.
Qed.

Lemma ewp_sound {A} (m : eprog A) w cs a w' cs' Q :
  erun m w cs a w' cs' → ewp m w cs Q → Q w' cs' a.
Proof.
  induction 1 as [m w w1 cs a w' cs' Hs _ IH|a w cs|B f k s log j cs a w' cs' _ IH|k e w cs a w' cs' _ IH
    |k b w cs a w' cs' _ IH|k r w cs a w' cs' Hne _ IH|m ps k r w cs a w' cs' _ IH
    |k s log j cs a w' cs' Hc _ IH|k w cs a w' cs' _ IH|g late k v w cs a w' cs' _ IH]; simpl; intros H.
  - apply IH. eapply ewp_reads; [by apply rtc_once|done].
  - apply H. apply rtc_refl.
  - apply IH. apply (H (mkWorld s log j)). reflexivity.
  - by apply IH.
  - by apply IH.
  - apply IH. by apply H.
  - by apply IH.
  - apply IH. apply (proj1 H (mkWorld s log j)); [reflexivity|done].
  - apply IH. apply (proj2 H).
  - apply IH. apply H. reflexivity.
Qed.

Lemma ewp_bind {A C} (m : eprog A) (f : A → eprog C) w cs Q :
  ewp m w cs (fun w' cs' a => ewp (f a) w' cs' Q) → ewp (ebind m f) w cs Q.
Proof.
  revert w cs. induction m as [a|B g k IH|k IH|k IH|k IH|me ps k IH|k IH|g late k IH]; simpl; intros w cs H; eauto.
  - apply H. reflexivity.
  - destruct H as [Ht Hf]. split; eauto.
Qed.

(** Calls that are made do not depend on what follows. *)
Lemma ewp_mono {A} (m : eprog A) w cs (Q Q' : world → list call → A → Prop) :
  (∀ w cs a, Q w cs a → Q' w cs a) → ewp m w cs Q → ewp m w cs Q'.
Proof.
  intros HQ. revert w cs. induction m as [a|B g k IH|k IH|k IH|k IH|me ps k IH|k IH|g late k IH]; simpl; intros w cs H; eauto.
  destruct H as [Ht Hf]. split; eauto.
Qed.

(** ** What the reader leaves alone *)

Definition anchored (s s' : sink) : Prop :=
  es_threadID s' = es_threadID s ∧ es_turnID s' = es_turnID s ∧ es_turnIssued s' = es_turnIssued s.
(** Nor do the checks of an event touch the counter and the channel. *)
Definition steady (s s' : sink) : Prop :=
  anchored s s' ∧ es_eventCount s' = es_eventCount s ∧ es_changed s' = es_changed s.

#[export] Instance anchored_trans : Transitive anchored.
Proof. intros a b c (? & ? & ?) (? & ? & ?). unfold anchored. split_and!; congruence. Qed.
#[export] Instance steady_trans : Transitive steady.
Proof. intros a b c (? & ? & ?) (? & ? & ?). split_and!; [by etrans|congruence..]. Qed.

Ltac anchoring := unfold steady, anchored; repeat (progress simpl || cases); done.

Lemma steady_firstErr c s : steady s (firstErr c s).
Proof. unfold firstErr. anchoring. Qed.
Lemma anchored_fail c s : anchored s (fail c s).
Proof. unfold fail, firstErr. anchoring. Qed.
Lemma steady_consumeItem item s : steady s (consumeItem item s).
Proof. unfold consumeItem. anchoring. Qed.
Lemma steady_consumeItems items s : steady s (consumeItems items s).
Proof.
  revert s. induction items as [|v items IH]; intros s; [done|]. destruct v as [| | | | |item]; try done. simpl.
  pose proof (steady_consumeItem item s). cases; [done|]. by etrans.
Qed.
Lemma steady_consumeStatus turn s : steady s (consumeStatus turn s).
Proof. unfold consumeStatus. anchoring. Qed.
Lemma steady_rejectEvidence m s : steady s (rejectEvidence m s).2.
Proof.
  assert (steady s (rejectError m s).2) as H.
  { unfold rejectError, validError. repeat (progress simpl || cases); simplify_eq/=; done. }
  unfold rejectEvidence. destruct (rejectError m s) as [b s1]. simpl in H. etrans; [exact H|].
  assert (steady s1 (noteCleanupIdentity m s1)) by (unfold noteCleanupIdentity, firstErr; anchoring).
  repeat (progress simpl || cases); try done. etrans; [done|]. unfold firstErr. anchoring.
Qed.
Lemma steady_consume m s : steady s (consume m s).
Proof.
  unfold consume. pose proof (steady_rejectEvidence m s). destruct (rejectEvidence m s) as [b s1].
  etrans; [done|]. repeat first [done | apply steady_consumeItem | apply steady_consumeItems
    | unfold consumeError; anchoring | cases].
  etrans; [apply steady_consumeItems|apply steady_consumeStatus].
Qed.

Lemma steady_handleEvidence m s : steady s (handleEvidence m s).
Proof.
  unfold handleEvidence. pose proof (steady_rejectEvidence m s). destruct (rejectEvidence m s) as [b s1].
  etrans; [done|]. repeat first [done | apply steady_consume | cases].
Qed.

Lemma anchored_receive i s : anchored s (receive i s).
Proof.
  destruct i as [g text u| | |]; try apply anchored_fail. simpl.
  assert (anchored s (decode text u s).2) as H.
  { unfold decode. repeat (progress simpl || cases); try done; unfold fail, firstErr; anchoring. }
  destruct (decode text u s) as [[m|] s1]; [|done]. etrans; [exact H|]. clear H.
  unfold handle. repeat (progress simpl || cases); try done; try (unfold fail, firstErr; anchoring).
  - apply (steady_handleEvidence m (setGeneration s1 g)).
  - apply (steady_handleEvidence m s1).
Qed.

(** ** Worlds *)

Definition live (w : world) : Prop := reachable (w_sink w, w_log w).

Lemma live_step w s log : live w → sinkStep (w_sink w, w_log w) (s, log) → ∀ j, live (mkWorld s log j).
Proof. intros H Hs j. eapply rtc_r; [exact H|exact Hs]. Qed.

Lemma reads_ind (P : world → Prop) :
  (∀ i s log, frameGeneration i ≠ 0 → P (mkWorld s log false) → P (mkWorld (receive i s) (log ++ [i]) false)) →
  ∀ w w', reads w w' → P w → P w'.
Proof.
  intros HP w w' H. induction H as [|w w1 w' Hs _ IH]; [done|]. intros Hw. apply IH.
  destruct Hs. by apply HP.
Qed.

Lemma reads_live w w' : reads w w' → live w → live w'.
Proof.
  apply reads_ind. intros i s log Hi H. eapply (live_step (mkWorld s log false)); [done|]. by constructor.
Qed.

Lemma reads_anchored w w' : reads w w' → anchored (w_sink w) (w_sink w').
Proof.
  intros H. apply (reads_ind (fun x => anchored (w_sink w) (w_sink x)) ) with (2 := H); [|done].
  intros i s log _ Hx. etrans; [exact Hx|apply anchored_receive].
Qed.

Lemma reads_keeps w w' : reads w w' → keeps (w_sink w) (w_sink w').
Proof.
  intros H. apply (reads_ind (fun x => keeps (w_sink w) (w_sink x))) with (2 := H); [|reflexivity].
  intros i s log _ Hx. etrans; [exact Hx|apply keeps_receive].
Qed.

Lemma reads_joined w w' : reads w w' → w_joined w = true → w' = w.
Proof. intros H. destruct H as [|w w1 w' Hs _]; [done|]. by destruct Hs. Qed.

(** The answer and the end of the turn stay what they were. *)
Lemma receive_answer i s :
  inv s → es_turnID s ≠ "" → sound (receive i s) →
  (es_completed s = true → es_completed (receive i s) = true) ∧
  (es_finalID s ≠ "" → es_finalID (receive i s) = es_finalID s ∧ es_finalText (receive i s) = es_finalText s).
Proof.
  intros Hi Hu Hs. destruct i as [g text u| | |]; try (by apply fail_unsound in Hs).
  destruct (receive_frame g text u s Hs) as (m & -> & _ & Er). rewrite Er in *.
  destruct (handle_current g m _ Hs) as (s1 & Hsim & _ & _ & _ & _ & Eh). rewrite Eh in *.
  assert (similar s s1) as Hsim' by (destruct Hsim; by split).
  assert (es_turnID s1 ≠ "") by (by rewrite (si_turnID _ _ Hsim')).
  destruct Hsim' as [? ? ? ? Hc ? ? ? ? ? ? Hf Hft].
  cases; [|by rewrite Hc, Hf, Hft]. simpl. bools.
  assert (grows s1 (handleEvidence m s1)) as Hg.
  { apply handleEvidence_bound; [by apply str_in_true|by eapply similar_inv; [split|]|done|by destruct Hs as (? & ? & ?)]. }
  destruct Hg as [_ Hfin _ Hcom _]. rewrite Hf, Hft, Hc in *. auto.
Qed.

Record answeredAt (threadID turnID text : string) (s : sink) : Prop := {
  an_thread : es_threadID s = threadID;
  an_turn : es_turnID s = turnID;
  an_completed : es_completed s = true;
  an_final : es_finalID s ≠ "";
  an_text : es_finalText s = text }.

(** Unless it was contradicted since, the turn is answered. *)
Definition answered (threadID turnID text : string) (w : world) : Prop :=
  live w ∧ turnID ≠ "" ∧ (sound (w_sink w) → answeredAt threadID turnID text (w_sink w)).

Lemma answered_reads t u text w w' : reads w w' → answered t u text w → answered t u text w'.
Proof.
  intros Hr. apply (reads_ind (answered t u text) ); [|exact Hr].
  intros i s log Hi (Hl & Hu & Ha). simpl in *. split; [|split; [done|]].
  - eapply (live_step (mkWorld s log false)); [done|]. by constructor.
  - simpl. intros Hs. assert (sound s) as Hs0 by (eapply keeps_sound; [apply keeps_receive|done]).
    destruct (Ha Hs0) as [Ht Hn Hc Hf Hx]. destruct (anchored_receive i s) as (A1 & A2 & _).
    pose proof (reachable_tracked s log Hl Hs0) as Hk.
    destruct (receive_answer i s (tk_inv _ _ Hk)) as [Hc' Hf']; [congruence|done|]. destruct (Hf' Hf).
    split; try congruence. auto.
Qed.

(** ** The errors a run makes itself are not retryable *)

Lemma ewp_failureOf c w cs (Q : world → list call → runError → Prop) :
  (∀ w' e, reads w w' → CanRetryEphemeralTurn e = false → e ≠ Unfinished → Q w' cs e) → ewp (failureOf c) w cs Q.
Proof.
  intros HQ. simpl. intros [e|]; simpl; [intros w' Hr; by apply HQ|].
  intros w1 Hr1. destruct (failure (w_sink w1)); simpl.
  - intros w' Hr. apply HQ; [|done..]. etrans; [exact Hr1|]. by destruct w1.
  - intros b w' Hr. apply HQ; [|by destruct b..]. etrans; [exact Hr1|]. by destruct w1.
Qed.

(** ** The calls of a run *)

Definition methods (cs : list call) : list string := (fun c : call => c.1.1) <$> cs.

(** Every call a run may make, in this order and each at most once, but for the
    eight pages of models. *)
Definition callOrder : list string :=
  ["config/read"; "configRequirements/read"] ++ replicate 8 "model/list" ++
  ["thread/start"; "turn/start"; "turn/interrupt"; "thread/unsubscribe"].

Section calls.
Context (opts : EphemeralTurnOptions).

(** The answers that allow [thread/start] with a policy. *)
Record permitted (cs : list call) (policy : members) : Prop := {
  pm_config : ∃ ps text, ("config/read", ps, Some text) ∈ cs ∧
    ephemeralRestrictions text (eo_InstructionFile opts) (eo_ModelCatalogFile opts) = Some policy;
  pm_requirements : ∃ ps text, ("configRequirements/read", ps, Some text) ∈ cs ∧
    ephemeralRequirementsAllow text policy = true;
  pm_model : ∃ ps text seen, ("model/list", ps, Some text) ∈ cs ∧
    readModelPage (eo_Model opts) (eo_Effort opts) seen text = PageFound }.

(** The answer to [thread/start] names this thread and it is isolated. *)
Definition threadStarted (cs : list call) (threadID : string) : Prop :=
  ∃ ps text start thread, ("thread/start", ps, Some text) ∈ cs ∧ ephemeralObject text = Some start ∧
    get "thread" start = JObj thread ∧ get "id" thread = JStr threadID ∧ startIsolated opts start thread = true.

(** What allows a call. *)
Record justified (cs : list call) (c : call) : Prop := {
  ju_thread : c.1.1 = "thread/start" → ∃ policy, permitted cs policy ∧ c.1.2 = startParams opts policy;
  ju_turn : c.1.1 = "turn/start" → ∃ t, threadStarted cs t ∧ c.1.2 = turnParams opts t;
  ju_interrupt : c.1.1 = "turn/interrupt" → ∃ t u r, u ≠ "" ∧
    c.1.2 = [("threadId", JStr t); ("turnId", JStr u)] ∧ ("turn/start", turnParams opts t, r) ∈ cs }.

Definition lawful (cs : list call) : Prop :=
  methods cs `sublist_of` callOrder ∧ Forall (justified cs) cs.

Lemma justified_mono cs cs' c : cs ⊆ cs' → justified cs c → justified cs' c.
Proof.
  intros Hs [J1 J2 J3]. split.
  - intros H. destruct (J1 H) as (policy & [(? & ? & ? & ?) (? & ? & ? & ?) (? & ? & ? & ? & ?)] & ?).
    exists policy. split; [|done]. split; eauto 8.
  - intros H. destruct (J2 H) as (t & (? & ? & ? & ? & ? & ?) & ?). exists t. split; [|done].
    unfold threadStarted. eauto 10.
  - intros H. destruct (J3 H) as (t & u & r & ? & ? & ?). eauto 10.
Qed.

Lemma justified_snoc cs c : Forall (justified cs) cs → justified cs c → Forall (justified (cs ++ [c])) (cs ++ [c]).
Proof.
  intros Hc Hj. assert (cs ⊆ cs ++ [c]) by (intros x ?; apply elem_of_app; by left).
  apply Forall_app. split; [|constructor; [|apply Forall_nil_2]].
  - eapply Forall_impl; [exact Hc|]. intros x. by apply justified_mono.
  - by eapply justified_mono.
Qed.

Lemma methods_snoc cs m ps r : methods (cs ++ [(m, ps, r)]) = methods cs ++ [m].
Proof. unfold methods. by rewrite fmap_app. Qed.

(** A call no condition is attached to. *)
Lemma justified_free cs m ps r :
  str_in m ["thread/start"; "turn/start"; "turn/interrupt"] = false → justified cs (m, ps, r).
Proof. intros H. bools. repeat rewrite elem_of_cons in H. split; simpl; intros E; tauto. Qed.

(** ** Before the thread is started *)

Definition preparing (n : nat) : list string :=
  ["config/read"; "configRequirements/read"] ++ replicate n "model/list".

Lemma preparing_sublist n l : (n ≤ 8)%nat →
  l `sublist_of` ["thread/start"; "turn/start"; "turn/interrupt"; "thread/unsubscribe"] →
  preparing n ++ l `sublist_of` callOrder.
Proof.
  intros Hn Hl. unfold preparing, callOrder. rewrite <- app_assoc. apply sublist_app; [done|].
  apply sublist_app; [|done]. replace 8%nat with (n + (8 - n))%nat by lia. rewrite replicate_add.
  rewrite <- (app_nil_r (replicate n _)) at 1. apply sublist_app; [done|apply sublist_nil_l].
Qed.

Definition fresh (w : world) : Prop := live w ∧ es_turnIssued (w_sink w) = false.

Lemma fresh_reads w w' : reads w w' → fresh w → fresh w'.
Proof.
  intros Hr [Hl Hi]. split; [by eapply reads_live|]. destruct (reads_anchored w w' Hr) as (_ & _ & ->). done.
Qed.

(** What holds when the body returns. *)
Record bodyPost (w : world) (cs : list call) (oc : outcome) : Prop := {
  bp_live : live w;
  bp_dial : oc_dialTransient oc = true → cs = [] ∧ oc_generation oc = 0;
  bp_turn : oc_turnID oc ≠ "" → oc_threadIssued oc = true;
  bp_err : ∀ e, oc_result oc = Err e → CanRetryEphemeralTurn e = false;
  bp_ok : ∀ text, oc_result oc = Ok text →
    oc_generation oc ≠ 0 ∧ oc_threadID oc ≠ "" ∧ answered (oc_threadID oc) (oc_turnID oc) text w;
  bp_issued : es_turnIssued (w_sink w) = true → ∃ r, ("turn/start", turnParams opts (oc_threadID oc), r) ∈ cs;
  bp_order : ∃ n l, (n ≤ 8)%nat ∧ l `sublist_of` ["thread/start"; "turn/start"] ∧
    (methods cs `sublist_of` preparing n ++ l);
  bp_calls : Forall (justified cs) cs }.

(** ** The last loop *)

Definition bound (t u : string) (w : world) : Prop :=
  live w ∧ es_threadID (w_sink w) = t ∧ es_turnID (w_sink w) = u ∧ u ≠ "".

Lemma bound_reads t u w w' : reads w w' → bound t u w → bound t u w'.
Proof.
  intros Hr (Hl & Ht & Hu & Hne). destruct (reads_anchored w w' Hr) as (E1 & E2 & _).
  split; [by eapply reads_live|]. split_and!; congruence.
Qed.

Lemma bound_take t u w : bound t u w → bound t u (withSink w (setChanged (w_sink w) false)).
Proof.
  intros (Hl & ? & ? & ?). split; [|done]. eapply (live_step w); [done|]. destruct w. constructor.
Qed.

Lemma withSink_same w : withSink w (w_sink w) = w.
Proof. by destruct w. Qed.

Lemma ewp_await fuel stop t u w cs (Q : world → list call → outcome → Prop) :
  bound t u w →
  (∀ w' e, bound t u w' → CanRetryEphemeralTurn e = false → Q w' cs (stop (Err e))) →
  (∀ w' text, answered t u text w' → bound t u w' → Q w' cs (stop (Ok text))) →
  ewp (awaitResult fuel stop) w cs Q.
Proof.
  intros Hb Herr Hok. revert w Hb. induction fuel as [|fuel IH]; intros w Hb; cbn [awaitResult ewp].
  { intros w' Hr. apply Herr; [by eapply bound_reads|done]. }
  intros w1 Hr1. assert (bound t u w1) as Hb1 by (by eapply bound_reads). unfold result. cbn [fst snd].
  rewrite withSink_same. destruct (es_err (w_sink w1)) eqn:He; cbn [ewp].
  { intros w' Hr. apply Herr; [by eapply bound_reads|done]. }
  destruct (es_completed (w_sink w1) && negb (is_empty (es_finalID (w_sink w1)))) eqn:Hd; cbn [ewp].
  - intros w' Hr. bools. apply Hok; [|by eapply bound_reads]. eapply answered_reads; [exact Hr|].
    destruct Hb1 as (? & ? & ? & ?). split_and!; auto. intros _. by split.
  - split.
    + intros w2 Hr2 _. apply IH, bound_take. by eapply bound_reads.
    + apply ewp_bind, ewp_failureOf. intros w2 e Hr2 He2 _. cbn [ewp]. intros w3 Hr3.
      apply Herr; [|done]. do 2 (eapply bound_reads; [done|]). done.
Qed.

(** ** The body *)

(** An error after [turn/start] was sent. *)
Lemma post_err g t u e w cs n :
  live w → CanRetryEphemeralTurn e = false → (n ≤ 8)%nat →
  methods cs = preparing n ++ ["thread/start"; "turn/start"] → Forall (justified cs) cs →
  (∃ r, ("turn/start", turnParams opts t, r) ∈ cs) →
  bodyPost w cs (mkOutcome g t u true false (Err e)).
Proof.
  intros Hl He Hn Hm Hj Hin. split; simpl; auto; try done.
  - intros e' [= <-]. done.
  - exists n, ["thread/start"; "turn/start"]. split_and!; [done..|]. by rewrite Hm.
Qed.

(** An error before. *)
Lemma post_fresh g t e w cs issued dial n l :
  fresh w → CanRetryEphemeralTurn e = false → (n ≤ 8)%nat → l `sublist_of` ["thread/start"; "turn/start"] →
  (methods cs `sublist_of` preparing n ++ l) → Forall (justified cs) cs → (dial = true → cs = [] ∧ g = 0) →
  bodyPost w cs (mkOutcome g t "" issued dial (Err e)).
Proof.
  intros [Hl Hi] He Hn Hs Hm Hj Hd. split; simpl; auto; try done.
  - intros e' [= <-]. done.
  - congruence.
  - eauto.
Qed.

Lemma steady_replay events s : steady s (foldl (fun s m => consume m s) s events).
Proof.
  revert s. induction events as [|m events IH]; intros s; simpl; [done|].
  etrans; [apply (steady_consume m s)|apply IH].
Qed.

(** What [bind] changes. *)
Lemma bindTurn_spec g t u s :
  es_turnIssued (bindTurn g t u s).2 = es_turnIssued s ∧
  ((bindTurn g t u s).1 = true → es_threadID (bindTurn g t u s).2 = t ∧ es_turnID (bindTurn g t u s).2 = u).
Proof.
  unfold bindTurn. destruct (_ || _ || _); [done|]. destruct (_ && _ && _); [done|]. simpl.
  destruct (is_empty u); simpl; [done|].
  destruct (steady_replay (es_events s) (setIdentity s t u)) as ((A1 & A2 & A3) & _). simpl in *. by rewrite A1, A2, A3.
Qed.

Section turn.
Context (fuel : nat) (g : Z) (t : string) (n : nat) (cs0 : list call).
Context (Hg : g ≠ 0) (Ht : t ≠ "") (Hn : (n ≤ 8)%nat).
Context (Hm : methods cs0 = preparing n ++ ["thread/start"]) (Hj : Forall (justified cs0) cs0).
Context (Hstarted : threadStarted cs0 t).

(** The two ways to return an error, before and after [turn/start]. *)
Lemma ret_fresh w e :
  fresh w → CanRetryEphemeralTurn e = false → bodyPost w cs0 (mkOutcome g t "" true false (Err e)).
Proof.
  intros Hf He. eapply (post_fresh _ _ _ _ _ _ _ n ["thread/start"]); auto; try done.
  - by repeat constructor.
  - by rewrite Hm.
Qed.

Definition cs1 (r : option raw) : list call := cs0 ++ [("turn/start", turnParams opts t, r)].

Lemma cs1_facts r :
  methods (cs1 r) = preparing n ++ ["thread/start"; "turn/start"] ∧ Forall (justified (cs1 r)) (cs1 r) ∧
  ("turn/start", turnParams opts t, r) ∈ cs1 r.
Proof.
  unfold cs1. split_and!.
  - rewrite methods_snoc, Hm. by rewrite <- app_assoc.
  - apply justified_snoc; [done|]. split; simpl; try done. eauto.
  - apply elem_of_app. right. by left.
Qed.

Lemma ret_issued w u r e :
  live w → CanRetryEphemeralTurn e = false → bodyPost w (cs1 r) (mkOutcome g t u true false (Err e)).
Proof.
  intros Hl He. destruct (cs1_facts r) as (? & ? & ?). eapply post_err; eauto.
Qed.

Lemma fails_issued w u r c :
  live w →
  ewp (ebind (failureOf c) (fun e => ERet (mkOutcome g t u true false (Err e)))) w (cs1 r) bodyPost.
Proof.
  intros Hl. apply ewp_bind, ewp_failureOf. intros w1 e Hr1 He _. cbn [ewp]. intros w2 Hr2.
  apply ret_issued; [|done]. by do 2 (eapply reads_live; [done|]).
Qed.

Lemma fails_fresh w c :
  fresh w →
  ewp (ebind (failureOf c) (fun e => ERet (mkOutcome g t "" true false (Err e)))) w cs0 bodyPost.
Proof.
  intros Hf. apply ewp_bind, ewp_failureOf. intros w1 e Hr1 He _. cbn [ewp]. intros w2 Hr2.
  apply ret_fresh; [|done]. by do 2 (eapply fresh_reads; [done|]).
Qed.

Lemma give_issued w u r c :
  live w → ewp (ERet (mkOutcome g t u true false (Err (Category c)))) w (cs1 r) bodyPost.
Proof. intros Hl. cbn [ewp]. intros w2 Hr2. apply ret_issued; [by eapply reads_live|done]. Qed.

Lemma ewp_runTurn w : fresh w → ewp (runTurn opts fuel g t) w cs0 bodyPost.
Proof.
  intros Hf. unfold runTurn. cbn [ewp]. intros w1 Hr1. pose proof (fresh_reads _ _ Hr1 Hf) as [Hl1 Hi1].
  destruct (bindTurn_spec g t "" (w_sink w1)) as [Hi2 Hb2].
  assert (fresh (withSink w1 (bindTurn g t "" (w_sink w1)).2)) as Hf2.
  { split; [|simpl; congruence]. eapply (live_step w1); [done|]. by constructor. }
  destruct ((bindTurn g t "" (w_sink w1)).1); cbn [negb]; [|by apply fails_fresh].
  cbn [ewp]. intros w3 Hr3. pose proof (fresh_reads _ _ Hr3 Hf2) as [Hl3 Hi3].
  assert (live (withSink w3 (beginTurn g t (w_sink w3)).2)) as Hl4.
  { eapply (live_step w3); [done|]. by constructor. }
  unfold beginTurn at 1. destruct (_ || _ || _) eqn:Hbg; cbn [fst snd negb].
  { apply fails_fresh. unfold beginTurn. rewrite Hbg. simpl. by rewrite withSink_same. }
  cbn [ewp]. intros r. fold (cs1 r). destruct r as [text|]; [|by apply fails_issued].
  assert (es_turnIssued (w_sink (withSink w3 (beginTurn g t (w_sink w3)).2)) = true) as Hi4.
  { unfold beginTurn. by rewrite Hbg. }
  revert Hl4 Hi4. generalize (withSink w3 (beginTurn g t (w_sink w3)).2). clear - Hg Ht Hn Hm Hj Hstarted. intros w Hl Hi.
  destruct (ephemeralObject text) as [response|]; [|by apply give_issued].
  destruct (get "turn" response) as [| | | | |turn]; try by apply give_issued.
  destruct (ephemeralID (textOrEmpty (get "id" turn))) eqn:Hid; cbn [negb]; [|by apply give_issued].
  apply ephemeralID_nonempty in Hid. revert Hid. generalize (textOrEmpty (get "id" turn)) as u. intros u Hu.
  destruct (str_in _ _); cbn [negb]; [|by apply give_issued].
  destruct (get "items" turn); try by apply give_issued.
  cbn [ewp]. intros w5 Hr5. pose proof (reads_live _ _ Hr5 Hl) as Hl5.
  assert (es_turnIssued (w_sink w5) = true) as Hi5 by (destruct (reads_anchored _ _ Hr5) as (_ & _ & E); congruence).
  destruct (bindTurn_spec g t u (w_sink w5)) as [Hi6 Hb6].
  assert (live (withSink w5 (bindTurn g t u (w_sink w5)).2)) as Hl6.
  { eapply (live_step w5); [done|]. by constructor. }
  destruct ((bindTurn g t u (w_sink w5)).1); cbn [negb]; [|by apply fails_issued].
  destruct Hb6 as [Hb6 Hb7]; [done|].
  apply (ewp_await _ _ t u); [by split_and!| |].
  - intros w' e (Hl' & _) He. by apply ret_issued.
  - intros w' x Ha (Hl' & _). destruct (cs1_facts (Some text)) as (Hmm & ? & ?). split; simpl; auto; try done.
    + intros y [= <-]. auto.
    + eauto.
    + exists n, ["thread/start"; "turn/start"]. split_and!; [done..|]. by rewrite Hmm.
Qed.
End turn.

Section prepared.
Context (fuel : nat) (g : Z) (Hg : g ≠ 0).

(** A return before [thread/start]. *)
Lemma ret_early w cs issued t e n :
  fresh w → CanRetryEphemeralTurn e = false → (n ≤ 8)%nat → (methods cs `sublist_of` preparing n) →
  Forall (justified cs) cs → bodyPost w cs (mkOutcome g t "" issued false (Err e)).
Proof.
  intros Hf He Hn Hm Hj. eapply (post_fresh _ _ _ _ _ _ _ n []); auto; try done.
  - apply sublist_nil_l.
  - by rewrite app_nil_r.
Qed.

Lemma ewp_runThread policy w cs n :
  fresh w → (n ≤ 8)%nat → methods cs = preparing n → Forall (justified cs) cs → permitted cs policy →
  ewp (runThread opts fuel g policy) w cs bodyPost.
Proof.
  intros Hf Hn Hm Hj Hp. unfold runThread. cbn [ewp]. intros r.
  set (cs' := cs ++ [("thread/start", startParams opts policy, r)]).
  assert (methods cs' = preparing n ++ ["thread/start"]) as Hm' by (unfold cs'; by rewrite methods_snoc, Hm).
  assert (Forall (justified cs') cs') as Hj'.
  { apply justified_snoc; [done|]. split; simpl; try done. eauto. }
  assert (∀ w' e t, reads w w' → CanRetryEphemeralTurn e = false →
    bodyPost w' cs' (mkOutcome g t "" true false (Err e))) as Hret.
  { intros w' e t Hr He. eapply ret_fresh; eauto. by eapply fresh_reads. }
  destruct r as [text|].
  2: { apply ewp_bind, ewp_failureOf. intros w1 e Hr1 He _. cbn [ewp]. intros w2 Hr2. apply Hret; [by etrans|done]. }
  assert (∀ t c, ewp (ERet (mkOutcome g t "" true false (Err (Category c)))) w cs' bodyPost) as Hgive.
  { intros t c. cbn [ewp]. intros w' Hr. by apply Hret. }
  destruct (ephemeralObject text) as [start|] eqn:Ho; [|apply Hgive].
  destruct (get "thread" start) as [| | | | |thread] eqn:Hth; try apply Hgive.
  destruct (ephemeralID (textOrEmpty (get "id" thread))) eqn:Hid; cbn [negb]; [|apply Hgive].
  apply ephemeralID_nonempty in Hid.
  destruct (startIsolated opts start thread) eqn:Hiso; cbn [negb]; [|apply Hgive].
  destruct (_ && _); [apply Hgive|]. eapply ewp_runTurn; eauto.
  exists (startParams opts policy), text, start, thread. split_and!; auto.
  - apply elem_of_app. right. by left.
  - destruct (get "id" thread); simpl in *; done.
Qed.

Definition configured (cs : list call) (policy : members) : Prop :=
  (∃ ps text, ("config/read", ps, Some text) ∈ cs ∧
    ephemeralRestrictions text (eo_InstructionFile opts) (eo_ModelCatalogFile opts) = Some policy) ∧
  (∃ ps text, ("configRequirements/read", ps, Some text) ∈ cs ∧ ephemeralRequirementsAllow text policy = true).

Lemma configured_snoc cs c policy : configured cs policy → configured (cs ++ [c]) policy.
Proof.
  intros [(? & ? & ? & ?) (? & ? & ? & ?)]. split; do 2 eexists; (split; [apply elem_of_app; by left|done]).
Qed.

Lemma ewp_listModels policy pages cursor seen w cs n :
  fresh w → (n + pages = 8)%nat → methods cs = preparing n → Forall (justified cs) cs → configured cs policy →
  ewp (listModels opts pages cursor seen (fun e => ERet (mkOutcome g "" "" false false (Err e)))
         (runThread opts fuel g policy)) w cs bodyPost.
Proof.
  revert cursor seen cs n. induction pages as [|pages IH]; intros cursor seen cs n Hf Hn Hm Hj Hc;
    cbn [listModels ewp].
  { intros w' Hr. eapply (ret_early _ _ _ _ _ n); auto; [by eapply fresh_reads|lia|by rewrite Hm]. }
  intros r. match goal with |- ewp _ _ ?c _ => set (cs' := c) end.
  assert (methods cs' = preparing (S n)) as Hm'.
  { unfold cs', preparing in *. rewrite methods_snoc, Hm, <- app_assoc. by rewrite <- replicate_cons_app. }
  assert (Forall (justified cs') cs') as Hj' by (apply justified_snoc; [done|by apply justified_free]).
  assert (∀ w' e, reads w w' → CanRetryEphemeralTurn e = false →
    bodyPost w' cs' (mkOutcome g "" "" false false (Err e))) as Hret.
  { intros w' e Hr He. eapply (ret_early _ _ _ _ _ (S n)); auto; [by eapply fresh_reads|lia|by rewrite Hm']. }
  destruct r as [text|].
  2: { apply ewp_bind, ewp_failureOf. intros w1 e Hr1 He _. cbn [ewp]. intros w2 Hr2. apply Hret; [by etrans|done]. }
  destruct (readModelPage (eo_Model opts) (eo_Effort opts) seen text) eqn:Hp.
  - cbn [ewp]. intros w' Hr. by apply Hret.
  - eapply (ewp_runThread _ _ _ (S n)); auto; [lia|]. destruct (configured_snoc cs _ policy Hc : configured cs' policy).
    split; auto. do 3 eexists. split; [apply elem_of_app; right; left|exact Hp].
  - cbn [ewp]. intros w' Hr. by apply Hret.
  - apply (IH _ _ cs' (S n)); auto; [lia|by apply configured_snoc].
Qed.
End prepared.

Lemma ewp_runBody fuel w : fresh w → ewp (runBody opts fuel) w [] bodyPost.
Proof.
  intros Hf. unfold runBody. cbn [ewp]. intros [g|f] Hg.
  2: { apply ewp_bind, ewp_failureOf. intros w1 e Hr1 He _. cbn [ewp]. intros w2 Hr2.
       eapply (post_fresh _ _ _ _ _ _ _ 0 []); auto; try apply sublist_nil_l; [|lia].
       by do 2 (eapply fresh_reads; [done|]). }
  assert (g ≠ 0) as Hg' by congruence.
  assert (∀ m ps r, str_in m ["config/read"; "configRequirements/read"] = true → ∀ cs, justified cs (m, ps, r)) as Hfree.
  { intros m ps r Hm cs. apply justified_free. apply str_in_true in Hm. repeat rewrite elem_of_cons in Hm.
    destruct Hm as [->|[->|Hm]]; [done|done|by apply elem_of_nil in Hm]. }
  assert (∀ cs w' e, reads w w' → methods cs `sublist_of` preparing 0 → Forall (justified cs) cs →
    CanRetryEphemeralTurn e = false → bodyPost w' cs (mkOutcome g "" "" false false (Err e))) as Hret.
  { intros cs w' e Hr Hm Hj He. eapply (ret_early g _ _ _ _ _ 0); auto; [by eapply fresh_reads|lia]. }
  assert (∀ cs c, methods cs `sublist_of` preparing 0 → Forall (justified cs) cs →
    ewp (ebind (failureOf c) (fun e => ERet (mkOutcome g "" "" false false (Err e)))) w cs bodyPost) as Hfail.
  { intros cs c Hm Hj. apply ewp_bind, ewp_failureOf. intros w1 e Hr1 He _. cbn [ewp]. intros w2 Hr2.
    apply Hret; auto. by etrans. }
  cbn [ewp]. intros r. match goal with |- ewp _ _ ?c _ => set (cs1 := c) end.
  assert (Forall (justified cs1) cs1) as Hj1 by (apply justified_snoc; [constructor|by apply Hfree]).
  assert (methods cs1 `sublist_of` preparing 0) as Hs1 by (repeat constructor).
  destruct r as [config|]; [|by apply Hfail].
  destruct (ephemeralRestrictions config (eo_InstructionFile opts) (eo_ModelCatalogFile opts)) as [policy|] eqn:Hpol.
  2: { cbn [ewp]. intros w' Hr. by apply Hret. }
  cbn [ewp]. intros r. match goal with |- ewp _ _ ?c _ => set (cs2 := c) end.
  assert (Forall (justified cs2) cs2) as Hj2 by (apply justified_snoc; [done|by apply Hfree]).
  assert (methods cs2 = preparing 0) as Hm2 by done.
  destruct r as [requirements|]; [|by apply Hfail; [rewrite Hm2|]].
  destruct (ephemeralRequirementsAllow requirements policy) eqn:Hreq; cbn [negb].
  2: { cbn [ewp]. intros w' Hr. by apply Hret. }
  eapply (ewp_listModels fuel g Hg' policy 8 _ _ _ _ 0); auto.
  split; do 2 eexists; (split; [|eassumption]); [left|right; left].
Qed.

(** ** What the received frames prove *)

(** Every event of the connection belongs to the turn, and the turn ended well
    with exactly one answer. *)
Record answerProof (log : list input) (t u text : string) : Prop := {
  ap_frames : ∃ g, Forall (harmless g) log;
  ap_events : ∃ id, Forall (fun m => belongs t u m ∧
    Forall (fun item => answers item = true → answerIs id text item) (itemsOf m) ∧
    (rm_Method m = "turn/completed" → get "status" (turnOf m) = JStr "completed") ∧
    (rm_Method m = "error" → get "willRetry" (paramsOf m) = JBool true)) (evidence log);
  ap_completed : ∃ m, m ∈ evidence log ∧ rm_Method m = "turn/completed";
  ap_answer : ∃ m item, m ∈ evidence log ∧ item ∈ itemsOf m ∧ answers item = true;
  ap_text : text ≠ "" ∧ len text ≤ outputLimit ∧ validString text = true }.

(** Every event belongs to the turn, the turn ended with a failure that nothing
    contradicts, and every classification of the failure is transient. *)
Record failureProof (log : list input) (t u : string) : Prop := {
  fp_frames : ∃ g, Forall (harmless g) log;
  fp_events : ∃ digest, Forall (fun m => belongs t u m ∧
    (rm_Method m = "turn/completed" → ephemeralCompletionEvidence (turnOf m) = digest) ∧
    (rm_Method m = "error" → get "willRetry" (paramsOf m) = JBool true ∨
       transientError (get "error" (paramsOf m)) = true)) (evidence log);
  fp_settled : ∃ m, m ∈ evidence log ∧ rm_Method m = "turn/completed" ∧
    (get "status" (turnOf m) = JStr "failed" ∨ get "status" (turnOf m) = JStr "interrupted") ∧
    (get "error" (turnOf m) = JNull ∨ transientError (get "error" (turnOf m)) = true);
  fp_transient : ∃ m, m ∈ evidence log ∧
    (rm_Method m = "error" ∧ get "willRetry" (paramsOf m) = JBool false ∧
     transientError (get "error" (paramsOf m)) = true ∨
     rm_Method m = "turn/completed" ∧ transientError (get "error" (turnOf m)) = true) }.

Lemma answer_proved s log t u text :
  reachable (s, log) → es_err s = None → u ≠ "" → answeredAt t u text s → answerProof log t u text.
Proof.
  intros Hr He Hu [Ht Hn Hc Hf Hx]. pose proof (reachable_tracked s log Hr (reachable_sound s log Hr He)) as [Hi Hfr _ _ Hb].
  destruct Hb as [_ [Ha [B1 B2 _ _]]]; [congruence|]. destruct (iv_completed _ Hi Hc) as [Hset Hno]. subst.
  split; eauto.
  - exists (es_finalID s). eapply Forall_impl; [exact Ha|]. intros m [Hbel Hans Hcom Herr]. split_and!; auto.
    + intros Hm. destruct (Hcom Hm) as (_ & H & _). by destruct (H Hno).
    + intros Hm. destruct (Herr Hm) as [|[? _]]; [done|congruence].
  - destruct (B2 Hf) as (m & item & ? & ? & ? & _). eauto.
  - by apply Hi.
Qed.

Lemma failure_proved s log g t u :
  reachable (s, log) → canRetry g t u s = true → failureProof log t u.
Proof.
  intros Hr Hc. pose proof (reachable_tracked s log Hr (canRetry_sound _ _ _ _ Hc)) as [Hi Hfr _ _ Hb].
  unfold canRetry in Hc. bools. destruct Hb as [_ [Ha [_ _ B3 B4]]]; [congruence|]. subst.
  split; eauto. exists (es_terminalEvidence s). eapply Forall_impl; [exact Ha|].
  intros m [Hbel Hans Hcom Herr]. split_and!; auto.
  - intros Hm. by apply Hcom.
  - intros Hm. destruct (Herr Hm) as [|[_ ?]]; auto.
Qed.

(** ** Cleanup *)

Lemma ewp_verdict oc ok joined r w cs (Q : world → list call → res runError string → Prop) :
  (joined = true → w_joined w = true) → (∀ e, r = Err e → CanRetryEphemeralTurn e = false) →
  (∀ text, r = Ok text → joined = true → es_err (w_sink w) = None → Q w cs (Ok text)) →
  (∀ w' e, CanRetryEphemeralTurn e = false → Q w' cs (Err e)) →
  (∀ e, joined = true → ok = true →
     oc_dialTransient oc = true ∨ canRetry (oc_generation oc) (oc_threadID oc) (oc_turnID oc) (w_sink w) = true →
     Q w cs (Err e)) →
  ewp (verdict oc ok joined r) w cs Q.
Proof.
  intros Hj Hr Hok Herr Hretry. unfold verdict.
  assert (∀ e w1, reads w w1 → CanRetryEphemeralTurn e = false → ewp (ECtx (fun x => match x with
    | Some x => ERet (Err (Context x))
    | None => match @Err runError string e with
      | Err (Category ErrEphemeralServer) =>
        ESink (fun s => (canRetry (oc_generation oc) (oc_threadID oc) (oc_turnID oc) s, s)) (fun retry =>
          ERet (if joined && ok && (oc_dialTransient oc || retry) then Err (RetryError ErrEphemeralServer true) else Err e))
      | _ => ERet (Err e) end end)) w1 cs Q) as Hgo.
  { intros e w1 Hr1 He. cbn [ewp]. intros [x|]; [cbn [ewp]; intros; by apply Herr|].
    destruct e as [[]| | |]; cbn [ewp]; intros; try by apply Herr. rewrite withSink_same in *.
    destruct (joined && ok && _) eqn:Hc; [|by apply Herr]. bools. subst.
    assert (w1 = w) as -> by (by apply reads_joined; auto).
    assert (w' = w) as -> by (by apply reads_joined; auto).
    assert (w'0 = w) as -> by (by apply reads_joined; auto).
    apply Hretry; auto. by apply orb_true_iff. }
  cbn [ewp]. intros w1 Hr1. cbn [fst snd]. rewrite withSink_same. destruct r as [text|e]; [|exact (Hgo e w1 Hr1 (Hr e eq_refl))].
  destruct joined; [|exact (Hgo (Category ErrEphemeralServer) w1 Hr1 eq_refl)]. assert (w1 = w) as -> by (apply reads_joined; auto).
    unfold failure. destruct (es_err (w_sink w)) as [c|] eqn:He; [exact (Hgo (Category c) w (rtc_refl _ _) eq_refl)|].
    cbn [ewp]. intros [x|]; cbn [ewp]; intros w' Hr'; [by apply Herr|].
    assert (w' = w) as -> by (by apply reads_joined; auto). by apply Hok.
Qed.

(** The last call was [thread/unsubscribe] of the thread, and it was confirmed. *)
Definition cleanedUp (cs : list call) (t : string) : Prop :=
  ∃ text, last cs = Some ("thread/unsubscribe", [("threadId", JStr t)], Some text) ∧
    str_in (unsubscribeStatus text) cleanedStatuses = true.

Definition runPost (w : world) (cs : list call) (r : res runError string) : Prop :=
  lawful cs ∧
  match r with
  | Ok text => w_joined w = true ∧ ∃ t u, answerProof (w_log w) t u text ∧ cleanedUp cs t ∧
      ∃ r, ("turn/start", turnParams opts t, r) ∈ cs
  | Err e => CanRetryEphemeralTurn e = true → w_joined w = true ∧
      (cs = [] ∨ ∃ t u, failureProof (w_log w) t u ∧ cleanedUp cs t)
  end.

Lemma closeEphemeral_late g v : closeEphemeral g true v = false.
Proof. unfold closeEphemeral. simpl. destruct (cv_reader v) as [[]|]; by rewrite !andb_false_r. Qed.

Section cleanup.
Context (w : world) (cs : list call) (oc : outcome) (Hp : bodyPost w cs oc).

(** Calls after the body, in their order. *)
Lemma lawful_after l :
  (methods l `sublist_of` ["turn/interrupt"; "thread/unsubscribe"]) → Forall (justified cs) l →
  lawful (cs ++ l).
Proof.
  intros Hm Hj. destruct (bp_order _ _ _ Hp) as (n & l' & Hn & Hl' & Hs). split.
  - unfold methods in *. rewrite fmap_app. etrans; [apply sublist_app; [exact Hs|exact Hm]|].
    rewrite <- app_assoc. apply preparing_sublist; [done|].
    by apply (sublist_app _ ["thread/start"; "turn/start"] _ ["turn/interrupt"; "thread/unsubscribe"]).
  - assert (cs ⊆ cs ++ l) by (intros x ?; apply elem_of_app; by left).
    apply Forall_app. split; [eapply Forall_impl; [apply Hp|]|eapply Forall_impl; [exact Hj|]];
      intros x; by apply justified_mono.
Qed.

Lemma lawful_same : lawful cs.
Proof. rewrite <- (app_nil_r cs). apply lawful_after; [apply sublist_nil_l|constructor]. Qed.

(** Closing after a confirmed unsubscribe, [l] being the calls of the cleanup. *)
Lemma ewp_finish l text w1 :
  reads w w1 → oc_generation oc ≠ 0 → lawful (cs ++ l) →
  last l = Some ("thread/unsubscribe", [("threadId", JStr (oc_threadID oc))], text) →
  let ok := match text with Some text => str_in (unsubscribeStatus text) cleanedStatuses | None => false end in
  ewp (EClose (oc_generation oc) false (fun joined => verdict oc ok joined
    (match oc_result oc with
     | Ok _ => if ok then oc_result oc else Err (Category ErrEphemeralServer)
     | r => r
     end))) w1 (cs ++ l) runPost.
Proof.
  intros Hr1 Hg Hlaw Hlast ok. cbn [ewp]. intros w2 v Hr2. set (w3 := mkWorld _ _ _).
  assert (reads w w2) as Hr by (by etrans).
  assert (live w3) as Hl3 by (apply (reads_live _ _ Hr), Hp).
  assert (ok = true → cleanedUp (cs ++ l) (oc_threadID oc)) as Hclean.
  { subst ok. intros Hok. destruct text as [text|]; [|done]. exists text. split; [|done].
    rewrite last_app, Hlast. done. }
  apply ewp_verdict.
  - simpl. intros ->. by rewrite orb_true_r.
  - intros e He. destruct (oc_result oc) eqn:Hres; [destruct ok; simplify_eq; done|]. simplify_eq.
    by apply (bp_err _ _ _ Hp).
  - intros x Hx Hj He. split; [done|]. simpl. rewrite Hj, orb_true_r. split; [done|].
    destruct (oc_result oc) as [y|] eqn:Hres; [|done]. destruct ok eqn:Hok; [|done]. simplify_eq.
    destruct (bp_ok _ _ _ Hp x Hres) as (_ & _ & Hans).
    pose proof (answered_reads _ _ _ _ _ Hr Hans) as (_ & Hu & Ha). simpl in He.
    pose proof (reachable_sound _ _ Hl3 He) as Hs. specialize (Ha Hs).
    exists (oc_threadID oc), (oc_turnID oc). split_and!; auto.
    + by eapply answer_proved.
    + destruct (bp_issued _ _ _ Hp) as [r0 Hin]; [|exists r0; apply elem_of_app; by left].
      destruct (reads_anchored _ _ Hr) as (_ & E2 & <-).
      apply (iv_bound _ (tk_inv _ _ (reachable_tracked _ _ Hl3 Hs))). simpl. destruct Ha. congruence.
  - intros w' e He. split; [done|]. congruence.
  - intros e Hj Hok Hcan. split; [done|]. intros _. simpl. rewrite Hj, orb_true_r. split; [done|].
    destruct Hcan as [Hd|Hcan].
    + by destruct (bp_dial _ _ _ Hp Hd).
    + right. exists (oc_threadID oc), (oc_turnID oc). split; [|auto]. by eapply failure_proved.
Qed.

Lemma ewp_cleanup : ewp (cleanup oc) w cs runPost.
Proof.
  unfold cleanup. cbn [ewp]. intros late. destruct (_ || late) eqn:Hskip.
  - cbn [ewp]. intros w2 v Hr. set (w3 := mkWorld _ _ _). apply ewp_verdict.
    + simpl. intros ->. by rewrite orb_true_r.
    + apply (bp_err _ _ _ Hp).
    + intros x Hx Hj _. exfalso. destruct (bp_ok _ _ _ Hp x Hx) as (Hg & Ht & _).
      rewrite (proj2 (Z.eqb_neq _ _) Hg), (proj2 (is_empty_false _) Ht) in Hskip. simpl in Hskip. subst late.
      by rewrite closeEphemeral_late in Hj.
    + intros w' e He. split; [apply lawful_same|]. congruence.
    + intros e Hj Hok Hcan. split; [apply lawful_same|]. intros _. simpl. rewrite Hj, orb_true_r. split; [done|].
      destruct Hcan as [Hd|Hcan]; [left; by apply (bp_dial _ _ _ Hp)|]. exfalso. unfold canRetry in Hcan. bools.
      rewrite (bp_turn _ _ _ Hp) in Hok by done. done.
  - bools. cbn [ewp]. intros w1 Hr1. cbn [fst snd]. rewrite withSink_same.
    assert (∀ m ps r, m = "thread/unsubscribe" → justified cs (m, ps, r)) as Hun by (intros m ps r ->; by apply justified_free).
    destruct (negb (is_ok (oc_result oc)) && negb (is_empty _)) eqn:Hint; cbn [ewp].
    + intros r1 r2. bools. rewrite <- app_assoc. apply (ewp_finish [_; _] r2 w1); try done.
      apply lawful_after; [done|]. constructor; [|by constructor; [apply Hun|constructor]].
      split; simpl; try done. intros _. pose proof H3 as Hown. unfold cleanupTurn in Hown.
      match type of Hown with (if ?c then _ else _) ≠ _ => destruct c eqn:Hc end; [done|]. bools.
      destruct (bp_issued _ _ _ Hp) as [r0 Hin]; [destruct (reads_anchored _ _ Hr1) as (_ & _ & <-); done|].
      exists (oc_threadID oc). do 2 eexists. split; [exact H3|]. split; [done|exact Hin].
    + intros r2. apply (ewp_finish [_] r2 w1); try done. apply lawful_after; [by repeat constructor|].
      by constructor; [apply Hun|constructor].
Qed.
End cleanup.

(** Nothing is sent unless the call and its files were accepted. *)
Definition admissible (fs : fileSystem) (c : contract) (hasDeadline observer : bool) : Prop :=
  hasDeadline = true ∧ observer = false ∧ settingsAccepted c opts = true ∧
  validEphemeralOptions fs opts = true ∧
  validEphemeralCatalog fs (eo_ModelCatalogFile opts) (eo_Model opts) = true.

Definition started : world := mkWorld newSink [] false.

Lemma ewp_utility fuel : ewp (utilityTurn opts fuel) started [] runPost.
Proof.
  apply ewp_bind. eapply ewp_mono; [|apply (ewp_runBody fuel started)].
  - intros w cs oc Hp. by apply ewp_cleanup.
  - split; [apply rtc_refl|done].
Qed.

(** A public call returns and sends nothing, or runs the turn on accepted input. *)
Lemma ewp_run fs fuel c hasDeadline observer :
  ewp (runEphemeralTurn fs opts fuel c hasDeadline observer) started []
    (fun w cs r => runPost w cs r ∧ (cs ≠ [] → admissible fs c hasDeadline observer)).
Proof.
  assert (∀ e, CanRetryEphemeralTurn e = false → ewp (@ERet (res runError string) (Err e)) started []
    (fun w cs r => runPost w cs r ∧ (cs ≠ [] → admissible fs c hasDeadline observer))) as Hret.
  { intros e He. cbn [ewp]. intros w' _. split; [|done]. split; [|congruence].
    split; [apply sublist_nil_l|constructor]. }
  unfold runEphemeralTurn. cbn [ewp]. intros [e|]; [by apply Hret|].
  destruct (negb hasDeadline || observer) eqn:H1; [by apply Hret|].
  cbn [ewp]. intros [e|]; [by apply Hret|].
  destruct (settingsAccepted c opts) eqn:H2; cbn [negb]; [|by apply Hret].
  cbn [ewp]. intros [e|]; [by apply Hret|].
  destruct (validEphemeralOptions fs opts && _) eqn:H3; cbn [negb]; [|by apply Hret]. bools.
  eapply ewp_mono; [|apply ewp_utility]. intros w cs r Hr. split; [exact Hr|]. by intros _.
Qed.
End calls.

(** ** The last loop ends *)

(** Signals that can still come before the frame limit fails the turn. *)
Definition potential (s : sink) : Z := eventLimit - es_eventCount s + (if es_changed s then 1 else 0).

Lemma fail_err c s : is_Some (es_err (fail c s)).
Proof. unfold fail, firstErr. simpl. destruct (es_err s) eqn:E; simpl; rewrite ?E; eauto. Qed.

Lemma receive_potential i s :
  es_err (receive i s) = None →
  potential (receive i s) ≤ potential s ∧ es_eventCount (receive i s) ≤ eventLimit.
Proof.
  assert (∀ c s, es_err (fail c s) ≠ None) as Hfail by (intros c x; destruct (fail_err c x); congruence).
  destruct i as [g text u| | |]; try (by intros H; apply Hfail in H). simpl.
  destruct (decode text u s) as [[m|] s1] eqn:D.
  2: { intros H. exfalso. unfold decode in D. repeat (cases_in D; try done); injection D as <-; by eapply Hfail. }
  apply decode_Some in D as (_ & _ & -> & Hb & _). simpl in Hb. unfold potential.
  unfold handle. cbv zeta. simpl es_generation. set (s0 := countFrame s (raw_len text)).
  assert (es_eventCount (if es_generation s =? 0 then setGeneration s0 g else s0) = es_eventCount s + 1 ∧
    es_changed (if es_generation s =? 0 then setGeneration s0 g else s0) = es_changed s) as [Hc Hch] by (by destruct (_ =? 0)).
  revert Hc Hch. generalize (if es_generation s =? 0 then setGeneration s0 g else s0) as s2. intros s2 Hc Hch.
  destruct (negb _); [by intros H; apply Hfail in H|].
  destruct (is_empty _); simpl; [rewrite Hc, Hch; lia|].
  destruct (present _); [by intros H; apply Hfail in H|].
  destruct (negb _); simpl; [rewrite Hc, Hch; lia|]. intros _.
  destruct (steady_handleEvidence m s2) as (_ & -> & _). rewrite Hc. destruct (es_changed s); lia.
Qed.

Lemma reads_potential w w' :
  reads w w' → es_err (w_sink w') = None → es_err (w_sink w) = None ∧ potential (w_sink w') ≤ potential (w_sink w) ∧
  (es_eventCount (w_sink w) ≤ eventLimit → es_eventCount (w_sink w') ≤ eventLimit).
Proof.
  intros Hr. apply (reads_ind (fun x => es_err (w_sink x) = None → es_err (w_sink w) = None ∧
    potential (w_sink x) ≤ potential (w_sink w) ∧
    (es_eventCount (w_sink w) ≤ eventLimit → es_eventCount (w_sink x) ≤ eventLimit))) with (2 := Hr); [|done].
  intros i s log _ IH He. simpl in *. destruct (receive_potential i s He) as [Hp Hc].
  assert (es_err s = None) as Hs.
  { pose proof (keeps_receive i s) as (_ & _ & H & _). destruct (es_err s); [|done]. destruct H as [? H]; [eauto|]. congruence. }
  destruct (IH Hs) as (? & ? & ?). split_and!; auto. lia.
Qed.

(** A property of outcomes that no error of the code violates. *)
Lemma ewp_await_fuel fuel stop w cs (Q : world → list call → outcome → Prop) :
  (es_err (w_sink w) = None → es_eventCount (w_sink w) ≤ eventLimit ∧ potential (w_sink w) + 2 ≤ Z.of_nat fuel) →
  (1 ≤ fuel)%nat →
  (∀ w' r, r ≠ Err Unfinished → Q w' cs (stop r)) →
  ewp (awaitResult fuel stop) w cs Q.
Proof.
  intros Hf H1 HQ. revert w Hf H1. induction fuel as [|fuel IH]; intros w Hf H1; [lia|]. cbn [awaitResult ewp].
  intros w1 Hr1. unfold result. cbn [fst snd]. rewrite withSink_same.
  destruct (es_err (w_sink w1)) eqn:He; cbn [ewp]; [intros; by apply HQ|].
  destruct (reads_potential w w1 Hr1 He) as (He0 & Hp & Hc). destruct (Hf He0) as [Hc0 Hfu].
  destruct (_ && _); cbn [ewp]; [intros; by apply HQ|].
  assert (0 ≤ potential (w_sink w1)) as Hp0 by (unfold potential; specialize (Hc Hc0); destruct (es_changed _); lia).
  split.
  - intros w2 Hr2 Hch. apply IH; [|lia]. simpl. intros He2.
    destruct (reads_potential w1 w2 Hr2 He2) as (_ & Hp2 & Hc2). split; [by apply Hc2, Hc|].
    unfold potential in *. rewrite Hch in Hp2. simpl. lia.
  - apply ewp_bind, ewp_failureOf. intros w2 e _ _ Hne. cbn [ewp]. intros w3 _. apply HQ. congruence.
Qed.

Lemma fail_count c s : es_eventCount (fail c s) = es_eventCount s.
Proof. unfold fail, firstErr. simpl. by destruct (es_err s). Qed.

Lemma handle_count g m s : es_eventCount (handle g m s).2 = es_eventCount s.
Proof.
  unfold handle. assert (es_eventCount (if es_generation s =? 0 then setGeneration s g else s) = es_eventCount s) as Hc by (by cases).
  revert Hc. generalize (if es_generation s =? 0 then setGeneration s g else s) as s2. intros s2 <-.
  destruct (negb _); [apply (fail_count _ (setAmbiguous s2))|]. destruct (is_empty _); [done|].
  destruct (present _); [apply fail_count|]. destruct (negb _); [done|]. apply steady_handleEvidence.
Qed.

Lemma receive_count i s : es_eventCount s ≤ es_eventCount (receive i s).
Proof.
  destruct i as [g text u| | |]; try (cbn [receive]; rewrite fail_count; lia). cbn [receive].
  destruct (decode text u s) as [o s1] eqn:D.
  assert (es_eventCount s1 = es_eventCount s + 1) as H1.
  { unfold decode in D. repeat cases_in D; injection D as <- <-; rewrite ?fail_count; done. }
  destruct o as [m|]; [rewrite handle_count|]; lia.
Qed.

Lemma bindTurn_count g t u s : es_eventCount (bindTurn g t u s).2 = es_eventCount s.
Proof.
  unfold bindTurn. destruct (_ || _ || _); [done|]. destruct (_ && _ && _); [done|].
  destruct (is_empty u); simpl; [done|]. by destruct (steady_replay (es_events s) (setIdentity s t u)) as (_ & -> & _).
Qed.

Lemma reachable_count c :
  reachable c → 0 ≤ es_eventCount c.1 ∧ (es_err c.1 = None → es_eventCount c.1 ≤ eventLimit).
Proof.
  apply (rtc_ind_r (fun c => 0 ≤ es_eventCount c.1 ∧ (es_err c.1 = None → es_eventCount c.1 ≤ eventLimit)));
    [simpl; unfold eventLimit; lia|].
  intros [a la] [b lb] _ Hs [H0 Hle]. simpl in *.
  assert (es_err b = None → es_err a = None) as He.
  { apply step_keeps in Hs as (_ & _ & H & _). intros Hb. destruct (es_err a); [|done]. destruct H as [? H]; eauto. congruence. }
  inversion Hs; subst; clear Hs; rewrite ?bindTurn_count; auto.
  - split; [pose proof (receive_count i a); lia|]. by apply receive_potential.
  - unfold beginTurn in *. destruct (_ || _ || _); auto.
Qed.

Lemma live_fuel w : live w →
  es_err (w_sink w) = None → es_eventCount (w_sink w) ≤ eventLimit ∧ potential (w_sink w) + 2 ≤ 259.
Proof.
  intros Hl He. destruct (reachable_count _ Hl) as [H0 Hle]. simpl in *. split; [auto|].
  unfold potential, eventLimit in *. destruct (es_changed _); lia.
Qed.

(** The outcome is not the model's own. *)
Definition ends (_ : world) (_ : list call) (oc : outcome) : Prop := oc_result oc ≠ Err Unfinished.

Lemma ends_fails c f w cs :
  (∀ e, oc_result (f e) = Err e) → ewp (ebind (failureOf c) (fun e => ERet (f e))) w cs ends.
Proof.
  intros Hf. apply ewp_bind, ewp_failureOf. intros w1 e _ _ He. cbn [ewp]. intros w2 _. unfold ends. rewrite Hf. congruence.
Qed.

Lemma ends_give oc w cs c : oc_result oc = Err (Category c) → ewp (ERet oc) w cs ends.
Proof. intros H. cbn [ewp]. intros w' _. unfold ends. by rewrite H. Qed.

Lemma ends_runTurn opts fuel g t w cs :
  (259 ≤ fuel)%nat → live w → t ≠ "" → ewp (runTurn opts fuel g t) w cs ends.
Proof.
  intros Hfuel Hl Ht. unfold runTurn. cbn [ewp]. intros w1 Hr1. pose proof (reads_live _ _ Hr1 Hl) as Hl1.
  assert (live (withSink w1 (bindTurn g t "" (w_sink w1)).2)) as Hl2 by (eapply (live_step w1); [done|by constructor]).
  destruct ((bindTurn g t "" (w_sink w1)).1); cbn [negb]; [|by apply ends_fails].
  cbn [ewp]. intros w3 Hr3. pose proof (reads_live _ _ Hr3 Hl2) as Hl3.
  assert (live (withSink w3 (beginTurn g t (w_sink w3)).2)) as Hl4 by (eapply (live_step w3); [done|by constructor]).
  unfold beginTurn at 1. destruct (_ || _ || _) eqn:Hbg; cbn [fst negb]; [by apply ends_fails|].
  cbn [ewp]. intros [text|]; [|by apply ends_fails].
  assert (es_turnIssued (w_sink (withSink w3 (beginTurn g t (w_sink w3)).2)) = true) as Hi4 by (unfold beginTurn; by rewrite Hbg).
  destruct (ephemeralObject text) as [response|]; [|by eapply ends_give].
  destruct (get "turn" response) as [| | | | |turn]; try by eapply ends_give.
  destruct (ephemeralID (textOrEmpty (get "id" turn))) eqn:Hid; cbn [negb]; [|by eapply ends_give].
  destruct (str_in _ _); cbn [negb]; [|by eapply ends_give].
  destruct (get "items" turn); try by eapply ends_give.
  cbn [ewp]. intros w5 Hr5. pose proof (reads_live _ _ Hr5 Hl4) as Hl5.
  assert (es_turnIssued (w_sink w5) = true) as Hi5 by (destruct (reads_anchored _ _ Hr5) as (_ & _ & E); congruence).
  destruct ((bindTurn _ _ _ (w_sink w5)).1); cbn [negb]; [|by apply ends_fails].
  apply ewp_await_fuel; [|lia|intros w' r Hr; exact Hr].
  intros He. destruct (live_fuel (withSink w5 (bindTurn g t (textOrEmpty (get "id" turn)) (w_sink w5)).2)) as [? ?]; auto.
  - eapply (live_step w5); [done|]. constructor; auto using ephemeralID_nonempty.
  - split; [done|]. lia.
Qed.

Lemma ends_runThread opts fuel g policy w cs :
  (259 ≤ fuel)%nat → live w → ewp (runThread opts fuel g policy) w cs ends.
Proof.
  intros Hfuel Hl. unfold runThread. cbn [ewp]. intros [text|]; [|by apply ends_fails].
  destruct (ephemeralObject text) as [start|]; [|by eapply ends_give].
  destruct (get "thread" start) as [| | | | |thread]; try by eapply ends_give.
  destruct (ephemeralID (textOrEmpty (get "id" thread))) eqn:Hid; cbn [negb]; [|by eapply ends_give].
  destruct (startIsolated opts start thread); cbn [negb]; [|by eapply ends_give].
  destruct (_ && _); [by eapply ends_give|]. apply ends_runTurn; auto using ephemeralID_nonempty.
Qed.

Lemma ends_listModels opts fuel g policy pages cursor seen w cs :
  (259 ≤ fuel)%nat → live w →
  ewp (listModels opts pages cursor seen (fun e => ERet (mkOutcome g "" "" false false (Err e)))
         (runThread opts fuel g policy)) w cs ends.
Proof.
  intros Hfuel Hl. revert cursor seen cs. induction pages as [|pages IH]; intros cursor seen cs; cbn [listModels];
    [by eapply ends_give|].
  cbn [ewp]. intros [text|]; [|by apply ends_fails].
  destruct (readModelPage _ _ _ _); [by eapply ends_give|by apply ends_runThread|by eapply ends_give|apply IH].
Qed.

Lemma ends_runBody opts fuel w cs : (259 ≤ fuel)%nat → live w → ewp (runBody opts fuel) w cs ends.
Proof.
  intros Hfuel Hl. unfold runBody. cbn [ewp]. intros [g|f] _; [|by apply ends_fails].
  cbn [ewp]. intros [config|]; [|by apply ends_fails].
  destruct (ephemeralRestrictions _ _ _) as [policy|]; [|by eapply ends_give].
  cbn [ewp]. intros [requirements|]; [|by apply ends_fails].
  destruct (ephemeralRequirementsAllow _ _); cbn [negb]; [by apply ends_listModels|by eapply ends_give].
Qed.

(** The cleanup passes on the outcome or makes an error of its own. *)
Lemma ends_verdict oc ok joined r w cs :
  r ≠ Err Unfinished → ewp (verdict oc ok joined r) w cs (fun _ _ r => r ≠ Err Unfinished).
Proof.
  intros Hr. unfold verdict. cbn [ewp]. intros w1 _. cbn [fst snd].
  destruct r as [x|e]; [destruct joined; [destruct (failure (w_sink w1)) as [c|]|]|]; intros [y|]; cbn [ewp];
    try (intros; congruence).
  - destruct c; cbn [ewp]; intros; repeat case_match; congruence.
  - intros; repeat case_match; congruence.
  - destruct e as [[]| | |]; cbn [ewp]; intros; repeat case_match; congruence.
Qed.

Lemma ends_cleanup oc w cs :
  oc_result oc ≠ Err Unfinished → ewp (cleanup oc) w cs (fun _ _ r => r ≠ Err Unfinished).
Proof.
  intros Hr. unfold cleanup. cbn [ewp]. intros late. cases; cbn [ewp]; [intros; by apply ends_verdict|].
  intros w1 _. cases; cbn [ewp]; intros; apply ends_verdict; repeat case_match; congruence.
Qed.

(** ** Running a script *)

(** What the environment of a run does, in order. *)
Inductive decision :=
| DInput (i : input) | DCtx (e : option contextError) | DLate (b : bool)
| DConnect (r : Z + connectFailure) | DReply (r : option raw) | DWake (b : bool) | DClose (v : closeEnv).

(** The reader takes the inputs that come first. *)
Fixpoint deliver (script : list decision) (w : world) : world * list decision :=
  match script with
  | DInput i :: script' =>
    if negb (frameGeneration i =? 0) && negb (w_joined w)
    then deliver script' (mkWorld (receive i (w_sink w)) (w_log w ++ [i]) false) else (w, script)
  | _ => (w, script)
  end.

Fixpoint exec {A} (m : eprog A) (script : list decision) (w : world) (cs : list call)
    : option (A * world * list call) :=
  let '(w, script) := deliver script w in
  match m, script with
  | ERet a, [] => Some (a, w, cs)
  | ESink f k, _ => exec (k (f (w_sink w)).1) script (withSink w (f (w_sink w)).2) cs
  | ECtx k, DCtx e :: script => exec (k e) script w cs
  | ELate k, DLate b :: script => exec (k b) script w cs
  | EConnect k, DConnect (inl 0) :: _ => None
  | EConnect k, DConnect r :: script => exec (k r) script w cs
  | ECall m ps k, DReply r :: script => exec (k r) script w (cs ++ [(m, ps, r)])
  | EWait k, DWake true :: script =>
    if es_changed (w_sink w) then exec (k true) script (withSink w (setChanged (w_sink w) false)) cs else None
  | EWait k, DWake false :: script => exec (k false) script w cs
  | EClose g late k, DClose v :: script =>
    exec (k (closeEphemeral g late v)) script
      (mkWorld (w_sink w) (w_log w) (w_joined w || closeEphemeral g late v)) cs
  | _, _ => None
  end.

Lemma deliver_reads script w : reads w (deliver script w).1.
Proof.
  revert w. induction script as [|d script IH]; intros w; [apply rtc_refl|]. destruct d; try apply rtc_refl. simpl.
  destruct (negb _ && negb _) eqn:E; [|apply rtc_refl]. bools. eapply rtc_l; [|apply IH].
  destruct w as [s log j]. simpl in *. subst. by constructor.
Qed.

Lemma erun_reads {A} (m : eprog A) w w1 cs a w' cs' :
  reads w w1 → erun m w1 cs a w' cs' → erun m w cs a w' cs'.
Proof. intros H. induction H; [done|]. intros Hm. eapply RunReader; [done|]. auto. Qed.

Lemma exec_sound {A} (m : eprog A) script w cs a w' cs' :
  exec m script w cs = Some (a, w', cs') → erun m w cs a w' cs'.
Proof.
  revert script w cs. induction m as [b|B f k IH|k IH|k IH|k IH|me ps k IH|k IH|g late k IH]; intros script w cs H;
    simpl in H; pose proof (deliver_reads script w) as Hr; destruct (deliver script w) as [w1 script1];
    simpl in Hr; apply (erun_reads _ _ _ _ _ _ _ Hr).
  - destruct script1; [|done]. injection H as -> -> ->. apply RunRet.
  - destruct w1 as [s log j]. apply RunSink. by eapply IH.
  - destruct script1 as [|[] script1]; try done. eapply RunCtx. by eapply IH.
  - destruct script1 as [|[] script1]; try done. eapply RunLate. by eapply IH.
  - destruct script1 as [|d script1]; [done|]. destruct d as [| | |r| | |]; try done.
    destruct r as [z|f]; [destruct z|]; try done; (eapply RunConnect; [|by eapply IH]); done.
  - destruct script1 as [|[] script1]; try done. eapply RunCall. by eapply IH.
  - destruct script1 as [|d script1]; [done|]. destruct d as [| | | | |b|]; try done. destruct b.
    + destruct w1 as [s log j]. simpl in H. destruct (es_changed s) eqn:E; [|done].
      apply RunWoken; [done|]. by eapply IH.
    + apply RunDone. by eapply IH.
  - destruct script1 as [|[] script1]; try done. eapply RunClose. by eapply IH.
Qed.

(** ** Claims *)

(** C15. A utility turn returns a text only when it is the answer: the reader has
    exited, [thread/unsubscribe] was confirmed, every frame the connection ever
    delivered was well formed and none was a request of the server, every event
    named the run's own thread and turn, the turn completed, every error on the
    way was announced as retried, every answering item was the same one with this
    text, and the text is not empty, at most 16 KiB and valid UTF-8. *)
Theorem utility_answer opts fuel text w cs :
  erun (utilityTurn opts fuel) started [] (Ok text) w cs →
  w_joined w = true ∧ ∃ t u, answerProof (w_log w) t u text ∧ cleanedUp cs t ∧
    ∃ r, ("turn/start", turnParams opts t, r) ∈ cs.
Proof. intros H. apply (ewp_sound _ _ _ _ _ _ _ H (ewp_utility opts fuel)). Qed.

(** C16. A failed utility turn is reported as retryable only with proof that nothing
    is left running: either no request was ever sent, or the connection's reader
    has exited and [thread/unsubscribe] was confirmed after the turn itself ended
    as failed or interrupted, where every event named that turn, every completion
    had the same evidence, every final error was transient and at least one was. *)
Theorem utility_retry opts fuel e w cs :
  erun (utilityTurn opts fuel) started [] (Err e) w cs → CanRetryEphemeralTurn e = true →
  w_joined w = true ∧ (cs = [] ∨ ∃ t u, failureProof (w_log w) t u ∧ cleanedUp cs t).
Proof. intros H. apply (ewp_sound _ _ _ _ _ _ _ H (ewp_utility opts fuel)). Qed.

(** The requests of a utility turn: at most one of each kind but for the eight
    pages of models, in a fixed order; [thread/start] only with the policy made
    from the server's configuration, after the server's requirements allowed it
    and a page listed the model with the effort; [turn/start] only for a thread
    the server confirmed as isolated; [turn/interrupt] only for the thread whose
    turn this run started. *)
Theorem utility_calls opts fuel r w cs :
  erun (utilityTurn opts fuel) started [] r w cs → lawful opts cs.
Proof. intros H. apply (ewp_sound _ _ _ _ _ _ _ H (ewp_utility opts fuel)). Qed.

(** C17. The loop that waits for the result ends: every wake-up takes a signal, every
    signal takes a frame or a failure, and the 257th frame fails the turn, so 259
    samples are enough whatever the server sends. *)
Theorem utility_ends opts fuel r w cs :
  (259 ≤ fuel)%nat → erun (utilityTurn opts fuel) started [] r w cs → r ≠ Err Unfinished.
Proof.
  intros Hf H. refine (ewp_sound _ _ _ _ _ _ (fun _ _ r => r ≠ Err Unfinished) H _).
  apply ewp_bind. eapply ewp_mono; [|apply (ends_runBody opts fuel started []); [done|apply rtc_refl]].
  intros w1 cs1 oc Ho. by apply ends_cleanup.
Qed.

(** ** A run of each kind *)

Definition rawOf (v : json) : raw := mkRaw 200 true (tokensOf v).

Definition demoOptions : EphemeralTurnOptions :=
  mkOptions "/state/turn" "/state/instructions.txt" "/catalog.json" "" "gpt-6-luna" "low" "Name the thread." "Hello"
    (rawOf (JObj [("type", JStr "object")])).

Definition demoConfig : raw := rawOf (JObj
  [("config", JObj [("model_catalog_json", JStr "/catalog.json"); ("mcp_servers", JObj [("files", JObj [])])]);
   ("origins", JObj [("model_catalog_json", JObj [("name", JObj [("type", JStr "sessionFlags")])])])]).
Definition demoModels : raw := rawOf (JObj
  [("data", JArr [JObj [("model", JStr "gpt-6-luna");
                        ("supportedReasoningEfforts", JArr [JObj [("reasoningEffort", JStr "low")]])]])]).
Definition demoThread : raw := rawOf (JObj
  [("model", JStr "gpt-6-luna"); ("cwd", JStr "/state/turn"); ("approvalPolicy", JStr "never");
   ("sandbox", JObj [("type", JStr "readOnly")]);
   ("thread", JObj [("id", JStr "thread-1"); ("cwd", JStr "/state/turn"); ("ephemeral", JBool true)])]).
Definition demoTurn : raw := rawOf (JObj
  [("turn", JObj [("id", JStr "turn-1"); ("status", JStr "inProgress"); ("items", JArr [])])]).

(** A frame with its decoded message. *)
Definition responseFrame : input :=
  InFrame 1 (rawOf (JObj [("id", JNum "1"); ("result", JObj [])]))
    (Some (mkMessage (mkRaw 1 true [TNum "1"]) "" noRaw (rawOf (JObj [])) None)).
Definition eventFrame (method : string) (params : members) : input :=
  InFrame 1 (rawOf (JObj [("method", JStr method); ("params", JObj params)]))
    (Some (mkMessage noRaw method (rawOf (JObj params)) noRaw None)).
Definition demoAnswer : members :=
  [("id", JStr "item-1"); ("type", JStr "agentMessage"); ("phase", JStr "final_answer"); ("text", JStr "A title")].

(** Up to the answer to [turn/start]. *)
Definition demoStart : list decision :=
  [DConnect (inl 1); DReply (Some demoConfig); DReply (Some (rawOf (JObj [("requirements", JNull)])));
   DReply (Some demoModels); DReply (Some demoThread); DInput responseFrame; DReply (Some demoTurn)].
Definition demoClose : closeEnv := mkClose (Some (7, 1)) (Some 7) 1 1 false false true false.
(** Cleanup that succeeds, with the turn already ended. *)
Definition demoCleanup : list decision :=
  [DLate false; DReply (Some (rawOf (JObj [("status", JStr "unsubscribed")]))); DClose demoClose; DCtx None].

Definition demoSuccess : list decision :=
  demoStart ++
  [DInput (eventFrame "item/completed"
     [("threadId", JStr "thread-1"); ("turnId", JStr "turn-1"); ("item", JObj demoAnswer)]);
   DWake true;
   DInput (eventFrame "turn/completed"
     [("threadId", JStr "thread-1");
      ("turn", JObj [("id", JStr "turn-1"); ("status", JStr "completed"); ("items", JArr [JObj demoAnswer])])])] ++
  demoCleanup.

Definition demoFailure : list decision :=
  demoStart ++
  [DInput (eventFrame "turn/completed"
     [("threadId", JStr "thread-1");
      ("turn", JObj [("id", JStr "turn-1"); ("status", JStr "failed"); ("items", JArr []);
         ("error", JObj [("message", JStr "overloaded"); ("codexErrorInfo", JStr "serverOverloaded")])])]);
   DCtx None] ++
  demoCleanup.

Definition outcomeOf (script : list decision) : option (res runError string * world * list call) :=
  exec (utilityTurn demoOptions 259) script started [].

Definition worldOf (script : list decision) : world :=
  match outcomeOf script with Some (_, w, _) => w | None => started end.
Definition callsOf (script : list decision) : list call :=
  match outcomeOf script with Some (_, _, cs) => cs | None => [] end.

Lemma demo_success :
  erun (utilityTurn demoOptions 259) started [] (Ok "A title") (worldOf demoSuccess) (callsOf demoSuccess).
Proof. apply (exec_sound _ demoSuccess). vm_compute. reflexivity. Qed.
Lemma demo_failure :
  erun (utilityTurn demoOptions 259) started [] (Err (RetryError ErrEphemeralServer true))
    (worldOf demoFailure) (callsOf demoFailure).
Proof. apply (exec_sound _ demoFailure). vm_compute. reflexivity. Qed.

Lemma utility_answer_witness :
  w_joined (worldOf demoSuccess) = true ∧
  ∃ t u, answerProof (w_log (worldOf demoSuccess)) t u "A title" ∧ cleanedUp (callsOf demoSuccess) t ∧
    ∃ r, ("turn/start", turnParams demoOptions t, r) ∈ callsOf demoSuccess.
Proof. exact (utility_answer _ _ _ _ _ demo_success). Defined.

Lemma utility_retry_witness :
  w_joined (worldOf demoFailure) = true ∧
  (callsOf demoFailure = [] ∨ ∃ t u, failureProof (w_log (worldOf demoFailure)) t u ∧ cleanedUp (callsOf demoFailure) t).
Proof. exact (utility_retry _ _ _ _ _ demo_failure eq_refl). Defined.

Lemma utility_calls_witness : lawful demoOptions (callsOf demoSuccess).
Proof. exact (utility_calls _ _ _ _ _ demo_success). Defined.

Lemma utility_ends_witness : @Ok runError string "A title" ≠ Err Unfinished.
Proof. refine (utility_ends _ _ _ _ _ _ demo_success). lia. Defined.

(** The calls of the successful run. *)
Example demo_calls : methods (callsOf demoSuccess) =
  ["config/read"; "configRequirements/read"; "model/list"; "thread/start"; "turn/start"; "thread/unsubscribe"].
Proof. vm_compute. reflexivity. Qed.

(** ** The policy of the thread *)

Lemma get_put key key' v (o : members) : get key (put key' v o) = if decide (key = key') then v else get key o.
Proof.
  unfold get, put, members in *.
  match goal with |- default JNull (assoc key ?l) = _ =>
    assert (assoc key l = if decide (key = key') then Some v else assoc key o) as ->; [|by case_decide] end.
  induction o as [|[k x] o IH]; [simpl; destruct (str_eqb key' key) eqn:E; bools; case_decide; congruence|].
  destruct (decide (k = key')) as [->|Hne].
  - rewrite filter_cons_False by (simpl; tauto). rewrite IH. simpl. destruct (str_eqb key' key) eqn:E; bools; [|done].
    case_decide; congruence.
  - rewrite filter_cons_True by done. cbn [app assoc]. rewrite IH. destruct (str_eqb k key) eqn:E; bools; [|done].
    case_decide; congruence.
Qed.

(** The servers a configuration lists. *)
Definition listedServers (config : members) : list string := (mapOrNil (get "mcp_servers" config)).*1.

Lemma disabledServers_all config servers name :
  disabledServers config = Some servers → name ∈ listedServers config →
  get name servers = JObj [("enabled", JBool false)].
Proof.
  unfold disabledServers, listedServers, get. destruct (assoc "mcp_servers" config) as [[| | | | |inventory]|] eqn:E;
    try done; cbn [default mapOrNil asMap]; intros H Hin.
  2: { by apply elem_of_nil in Hin. }
  destruct (Nat.ltb _ _); [done|]. destruct (forallb _ _); [|done]. injection H as <-.
  change (default [] (Some inventory)) with inventory in Hin. clear E.
  induction inventory as [|[k v] inventory IH]; simpl in *; [by apply elem_of_nil in Hin|].
  destruct (str_eqb k name) eqn:E; [done|]. bools. apply elem_of_cons in Hin as [?|Hin]; [congruence|auto].
Qed.

Lemma get_listed key value (o : members) : NoDup o.*1 → (key, value) ∈ o → get key o = value.
Proof.
  unfold get. induction o as [|[k v] o IH]; simpl; intros Hd Hin; [by apply elem_of_nil in Hin|].
  apply NoDup_cons in Hd as [Hk Hd]. apply elem_of_cons in Hin as [[= -> ->]|Hin]; [by rewrite str_eqb_refl|].
  destruct (str_eqb k key) eqn:E; bools; [|auto]. subst. destruct Hk. by apply (list_elem_of_fmap_2 fst) in Hin.
Qed.

(** The policy sent with [thread/start] isolates the turn: every setting of the
    fixed policy file keeps its value, among them every feature switched off,
    the instruction files are the caller's, and every MCP server the configuration
    lists is switched off; and requirements that ask for any feature are refused. *)
Theorem policy_isolates text requirements instructionFile catalogFile policy :
  ephemeralRestrictions text instructionFile catalogFile = Some policy →
  (∀ key value, (key, value) ∈ ephemeralPolicy →
     key ≠ "model_instructions_file" → key ≠ "experimental_compact_prompt_file" → get key policy = value) ∧
  get "model_instructions_file" policy = JStr instructionFile ∧
  get "experimental_compact_prompt_file" policy = JStr instructionFile ∧
  (∃ response config, ephemeralObject text = Some response ∧ get "config" response = JObj config ∧
     get "model_catalog_json" config = JStr catalogFile ∧
     ∀ name, name ∈ listedServers config →
       get name (mapOrNil (get "mcp_servers" policy)) = JObj [("enabled", JBool false)]) ∧
  (ephemeralRequirementsAllow requirements policy = true → ∀ response required features name,
     ephemeralObject requirements = Some response → get "requirements" response = JObj required →
     get "featureRequirements" required = JObj features → (name, JBool true) ∉ features).
Proof.
  unfold ephemeralRestrictions. intros H.
  destruct (ephemeralObject text) as [response|]; [|done].
  destruct (get "config" response) as [| | | | |config] eqn:Hc; try done.
  destruct (get "origins" response) as [| | | | |origins]; try done.
  destruct (isText (get "model_catalog_json" config) catalogFile) eqn:Hcat; [|done]. apply isText_true in Hcat.
  cbn [negb] in H. destruct (get "model_catalog_json" origins) as [| | | | |origin]; try done.
  destruct (get "name" origin) as [| | | | |name]; try done.
  destruct (negb (isText (get "type" name) "sessionFlags")); [done|].
  destruct (disabledServers config) as [servers|] eqn:Hs; [|done]. injection H as <-.
  split_and!.
  - intros key value Hin H1 H2. rewrite !get_put, !decide_False; try done; [|].
    + apply get_listed; [|done]. apply (bool_decide_unpack _). vm_compute. reflexivity.
    + intros ->. apply (list_elem_of_fmap_2 fst) in Hin. revert Hin. apply (bool_decide_unpack _). vm_compute. reflexivity.
  - by rewrite !get_put.
  - by rewrite !get_put.
  - exists response, config. split_and!; auto. rewrite get_put, decide_True by done. simpl.
    intros x Hx. by eapply disabledServers_all.
  - intros Ha r0 required features x Hr Hreq Hf Hin. unfold ephemeralRequirementsAllow in Ha. rewrite Hr in Ha.
    unfold get in Hreq. destruct (assoc "requirements" r0) as [v|]; [|done]. simpl in Hreq. subst v. bools.
    rewrite Hf in H0. apply (proj1 (List.forallb_forall _ _)) with (x := (x, JBool true)) in H0.
    + simpl in H0. by rewrite andb_false_r in H0.
    + by apply list_elem_of_In.
Qed.

Lemma policy_isolates_witness : ∃ policy,
  ephemeralRestrictions demoConfig "/state/instructions.txt" "/catalog.json" = Some policy ∧
  get "features.shell_tool" policy = JBool false ∧
  get "files" (mapOrNil (get "mcp_servers" policy)) = JObj [("enabled", JBool false)].
Proof.
  eexists. split; [vm_compute; reflexivity|].
  pose proof (policy_isolates demoConfig (rawOf (JObj [("requirements", JNull)])) "/state/instructions.txt"
    "/catalog.json" _ eq_refl) as (Hk & _ & _ & (response & config & Hr & Hc & _ & Hs) & _). split.
  - apply (Hk "features.shell_tool"); [|discriminate..]. apply list_elem_of_In. unfold ephemeralPolicy.
    repeat first [left; reflexivity | right].
  - apply Hs. vm_compute in Hr. injection Hr as <-. vm_compute in Hc. injection Hc as <-. vm_compute. left.
Defined.
